(* ===== verification/_CoqProject ===== *)
-Q . S2P
Prelude.v
Types.v
JsonValue.v
Diagnostic.v
Syntax.v
SyntaxFacts.v
Canonical.v
Hir.v
Decode.v
DecodeFacts.v
JsonBoundary.v
JsonBoundaryFacts.v
JsonRoundTrip.v
Eval.v
Declarations.v
Analyzer.v
Typing.v
TypeGraph.v
DeclarationFacts.v
AnalyzerSound.v
AnalyzerFuel.v
ProgramSound.v
ValueFacts.v
EvalSound.v
Text.v
Ordering.v
Admission.v
AdmissionFacts.v
ActivationAdmission.v
ActivationFacts.v
Sexpr.v
SexprFacts.v
ContextDb.v
ContextTree.v
ContextHashes.v
ContextFacts.v
ContextAudit.v
ContextSamples.v
ContextSound.v
Paths.v
PathFacts.v
Approval.v
ApprovalHub.v
ApprovalFacts.v
Permission.v
PermissionFacts.v
StrictJson.v
Identity.v
Plan.v
PlanSteps.v
PlanFacts.v
PlanSound.v
PlanSamples.v
PlanAdmission.v
PlanRun.v
PlanResults.v
ThreadGroups.v
ThreadGroupFacts.v
Scheduler.v
SchedulerFacts.v
ThreadContract.v
Objectives.v
ObjectiveFacts.v
ObjectiveLife.v
JsonSchema.v
JsonSchemaFacts.v
JsonSchemaSound.v
ApprovalIdentity.v
StreamProjection.v
StreamFacts.v
StreamSound.v
StreamPreview.v
