(* ===== verification/Prelude.v ===== *)
(** * Verification of Morphz: Yao, plans, admission, threads, objectives, context and permissions

    Morphz is an agent runtime.  Programs that plan and act are written in Yao, a small
    typed s-expression language with explicit effects; the crate [src/yao] is its reader,
    static analyzer and pure evaluator, and the part of the system every other part
    relies on when it decides whether a program may run.  An accepted program runs on the
    plan machine (morphz/src/sexpr_eval.rs), whose state is data, so that it can wait for an
    effect across restarts.  Activations of agents, the units
    of work, are then admitted to a bounded number of slots by a fair queue with a
    reserved lane (morphz/src/admission.rs, activation_admission.rs).  What an agent knows
    is a tree of s-expressions (sexpr.rs) in the context database (context_db.rs), which
    changes it by authorized transactions and commits to it by hashes.  What an agent may
    touch is decided by permission profiles and their broker (permission.rs), which ask
    reviewers (approval.rs) when a profile does not allow an access by itself.  Threads that
    a decision spawned are joined by groups (memory/mod.rs, memory/sqlite.rs), whose barriers
    wake their supervisors, and the scheduler derives from the rows what may run and what is
    inconsistent (scheduler/domain.rs).  Objectives, the goals that outlive evaluations, are rows that
    many connections change at once under revisions, generations and leases
    (memory/sqlite.rs).  This library
    models that crate and those modules, and proves what makes them correct.

    ** The program and its model

    A source text is read into expressions, expressions are analyzed into a typed
    intermediate representation (the HIR) together with an effect row, and the effect-free
    part of the HIR is evaluated over tagged JSON values.  Values cross to the outside
    through [decode] (internal encoding) and through the typed JSON boundary.

    - [Prelude]: characters and strings (a [char] is its code point, a [String] the list
      of its characters), the error monad [result], ordered association lists for
      [BTreeMap] and [BTreeSet] with their order invariant, shared tactics.
    - [Types] (yao/src/types.rs): [Type], [Effect], [EffectSet], assignability and
      [common_type]; [assignable] is the declarative subtyping relation.
    - [JsonValue]: serde_json numbers and values, [i64] checked arithmetic and IEEE
      binary64 (SpecFloat); [Diagnostic] (yao/src/diagnostic.rs): spans and errors, a
      message kept as its template with its arguments.
    - [Syntax], [SyntaxFacts] (yao/src/syntax.rs): the character-level lexer, the stack
      machine of [parse_all], spans and limits.
    - [Canonical] (yao/src/canonical.rs): the task-stack printer [canonical_source], with
      [print] its recursive specification.
    - [Hir] (yao/src/sema.rs, data): the typed tree, definitions, profiles, programs.
    - [Decode], [DecodeFacts] (yao/src/eval.rs, values): tagged encodings, their views
      and [decode_value]; [vty] is the specification of the values of a type.
    - [JsonBoundary], [JsonBoundaryFacts], [JsonRoundTrip] (yao/src/json.rs): admission of
      types at the JSON boundary and conversion both ways; [json_data] is the specification
      of the types that may cross.
    - [Eval] (yao/src/eval.rs): [evaluate_pure] for every node kind.
    - [Declarations] (yao/src/sema.rs): declarations of types, effects, requirements and
      functions; [TypeGraph] relates the searches over declared types to
      reachability, [DeclarationFacts] holds what parsed declarations satisfy.
    - [Analyzer] (yao/src/sema.rs): one definition per [analyze_*] method in a state and
      error monad over the scope, the compiled functions, the call stack and the node
      count; [analyze_module] composes them the way the code does.
    - [Typing]: the type and effect system as a specification; [AnalyzerSound] proves
      that the analyzer implements it, [AnalyzerFuel] that it terminates,
      [ProgramSound] states what an accepted program guarantees.
    - [ValueFacts], [EvalSound]: type soundness of the evaluator.
    - [Text]: bytes, trimming, decimals and the class [Digest] for sha256, shared below.
    - [Ordering]: comparisons, minima and lexicographic orders, shared by the files below.
    - [Admission], [AdmissionFacts] (morphz/src/admission.rs): classes and aging, the fair
      queue with its round-robin cursor, its checkpoint and recovery, the reserved lane;
      [fair_choice] is the specification of the row that is served.
    - [ActivationAdmission], [ActivationFacts] (morphz/src/activation_admission.rs): the
      critical sections of the controller as functions, and [step], their interleaving
      over the live futures, permits and suspended admissions; [reachable] closes it over
      the events a condition allows, [orderly] being one clock reading for each check and no
      [forget] of an activation with a live handle.
    - [Sexpr], [SexprFacts] (morphz/src/sexpr.rs): the parser, the iterative printer and
      the access paths; a printed expression reads back.
    - [ContextDb] (morphz/src/context_db.rs, [hash_context_node] of context_ast.rs): the
      tables as finite maps, each query and statement as a function on them, validation,
      the four operations of a transaction, incremental hashing, snapshot and audit, the
      store; [db_step] is a successful call and [reachable] the databases calls lead to.
      The class [ContextCodec] stands for serde_json, with the law
      [ContextCodecLaws] that a receipt reads back.
    - [ContextTree], [ContextHashes], [ContextFacts]: the rows of a context stay a tree,
      recomputation restores every hash, and the invariant [db_ok] of the whole store.
    - [ContextAudit], [ContextSound], [ContextSamples]: [merkle] and [renders] are the
      recursive specifications of hash and text; the main theorems; sample databases.
    - [Paths], [PathFacts] (std::path and std::fs; morphz/src/sandbox.rs, [atomic_write_text]
      of tool.rs): lexical paths, a file system of directories, files and links with the
      kernel's path walk, and the calls that change it; where a walk leads.
    - [Approval], [ApprovalHub], [ApprovalFacts] (morphz/src/approval.rs): risk tags, deltas
      of capabilities and their coverage, requests and decisions, the reviewers, and the
      hub of human approvals, whose attachments, cancellations and decisions interleave
      in [hub_step].
    - [Permission], [PermissionFacts] (morphz/src/permission.rs): modes, configuration and
      profiles, resolution and protection of paths, and the broker with its session
      overrides, durable grants and authorizations.  [Glob] stands for the crate glob and
      [JsonCodec] for serde_json.
    - [ApprovalIdentity] (morphz/src/approval_authority.rs): the canonical form of a request and
      the identifiers of approvals and grants; [same_request] is the specification of when two
      requests ask for the same.
    - [StrictJson] (yao/src/json.rs): the reading of a document that a model wrote;
      [strict] is the specification of the documents it accepts.
    - [JsonSchema], [JsonSchemaFacts], [JsonSchemaSound] (yao/src/json.rs): the schema of a type that
      a model is shown; [conforms] is the meaning of its keywords, with the fuel of nested schemas
      and references, of which every amount from some number on is enough.
    - [Identity] (yao/src/canonical.rs): the value of a program as serde writes it, its
      normalisation and the content hash.
    - [Plan], [PlanSteps] (morphz/src/sexpr_eval.rs): programs, frames, machines and effects;
      [step] is one iteration of [PlanMachine::advance], with a definition for each node and
      each frame; [resume_effect] delivers an outcome.  [PlanCodec] stands for serde_json on
      these types, with the law [PlanCodecLaws] that a program value reads back.
    - [PlanFacts]: weights, budgets, sequence numbers; [life] and [spends] are the ways a
      machine and its children can be driven.
    - [PlanSound]: [machine_ok] types a configuration of the machine, its frames as a
      continuation; every step keeps it.
    - [PlanAdmission]: the tool gate, the profile of the registered tools, validation,
      admission of program values, answers of a model, and the evaluator of one process;
      [PlanSamples] decides equality of programs for the samples.
    - [PlanRun]: the theorems on admitted programs; [runs_safely] is the contract between a
      program and the host that answers its effects.
    - [PlanResults]: [agree_below] relates the type tables of two programs on what a type reaches;
      the values of an admitted program in the program that runs it.
    - [StreamProjection] (morphz/src/sexpr_eval/stream_projection.rs): which text of a model's answer
      may be shown as the reply of the plan; [StreamFacts], [StreamSound], [StreamPreview]: the
      encodings of an answer, the machine that follows the projection ([simulated]), the theorems.
    - [ThreadGroups], [ThreadGroupFacts] (morphz/src/memory/mod.rs, memory/sqlite.rs): groups of
      threads, their contract and the transactions on their rows; [group_run] is a sequence of
      transactions in any order, and [completion] the ways the pending members can end.
    - [Scheduler], [SchedulerFacts] (morphz/src/scheduler/domain.rs, authority.rs): readiness of
      objectives and the audit of the rows; [broken] is the specification of the audit, one
      case for each rule.
    - [ThreadContract] (morphz/src/memory/mod.rs): the runtime's verdict on a thread that ends;
      [keeps_contract] is its specification.
    - [Objectives] (morphz/src/memory/sqlite.rs, sqlite/objective_approval_wait.rs,
      sqlite/user_input.rs): rows of objectives, their checkpoints and dependencies; a call is the
      read that decides, the statement that writes and the later query that answers, [sys_step]
      interleaves these parts of any calls and the transactions, and [at_step] runs each call at once.
    - [ObjectiveFacts], [ObjectiveLife]: [objective_step] is the machine of one objective, the
      specification of the statements; [sys_ok] is the invariant that relates the pending calls to
      the rows they read; the theorems on every run.

    ** Interfaces

    [CharClass] stands for the Unicode tables of the standard library
    ([char::is_alphanumeric] and the like); the ASCII classes are an instance.
    [AnalysisProfile] is the host's trait of the same name; [static_profile] is the
    instance of the source, [morphz_profile] that of the runtime.  The content digest
    (sha256) is a parameter, and so is the hash of a program ([program_hash]) where only its
    use matters; [identity_hash] is the one of the source.

    ** What the theorems show

    - Reading: parsing terminates, keeps within its limits, and records exact spans;
      canonical source parses back to the same expression.
    - Types: assignability decides the subtyping rules, is a partial order and has
      [common_type] as join; declarations are accepted exactly when closed and acyclic;
      the capability test is exact and agrees with the JSON boundary.
    - Values: decoding accepts exactly the values of source types and normalises the
      others; the JSON boundary admits exactly data types, produces typed values and
      loses nothing on the way in.
    - Programs: an accepted module is typed; its effect row is exactly the effects its
      nodes perform; it stays inside its declared bounds; it never decodes a capability;
      and, when its row is empty, it evaluates to a value of its output type or fails at
      an operation that is partial by nature.
    - Plans: a validated program runs safely on the machine against every host that keeps the
      types of its effects, its branches included; advancing always returns and repeats its
      answer until it is resumed; effects are numbered and accepted once; the budget bounds a
      program with all its children; the evaluator of one process ends; a model's answer and
      a model's program are accepted only at the declared type; the value of an admitted program has
      that type in the program that runs it when both declare it alike, and one theorem exhibits a
      value without it when they do not.
    - Previews: a text that is shown while a model answers is the reply of the plan, or the plan
      fails; the machine evaluates effect-free control as the pure evaluator does; one theorem exhibits a
      preview that is not the reply, with a [fallback].
    - Identity: the content hash ignores provenance, and one theorem exhibits what else it
      ignores; a document is read strictly, and the schema that a
      model is shown describes exactly the documents that are accepted.
    - Admission: the queue serves the row fairness asks for and fails only when nothing is
      admissible, survives a restart unchanged and does not depend on the order of
      recovery, and ages waiting work to the front; the controller never oversubscribes
      its slots, always serves the reserved lane, keeps one owner for each activation
      and bounds its window under [orderly] events, and loses ownership without them.
    - Context database: every reachable context is one tree whose stored hashes commit to
      all of it, audit and snapshot are complete above the depth limit, a request is
      applied once and only within its authority, and a commit advances one revision;
      two theorems exhibit what the depth limit and the node revisions do not ensure.
    - Permissions: what the gate lets pass is within the roots, or granted, or reviewed;
      protected entries, relative or absolute, literal or globs, are never authorized; what an allowed path leads to lies below a
      root, and a plain write stays there; a live change of mode equals a restart with it;
      a lease covers what it contains, a reviewer's tags grant nothing, and a human
      decision reaches the one reviewer that waits; approvals have the same identity exactly when
      the same is asked; one theorem exhibits two ways out.
    - Threads: an early decision of a group is right for every way its members can end; a
      group closes once, with one barrier, never waits for nobody, and closes with the verdict
      on its rows in any order of events; readiness, completion and the audit are exact, the
      audit leaves one primary execution for each objective and never reports an open group;
      one theorem exhibits the closed group that it reports for good.
    - Objectives: interleaved calls have the effects of calls that nothing interrupts, and answer with
      the row as it is at their last query; statuses,
      revisions and generations move as the lifecycle allows; an owner is replaced only when its lease
      is over and never while it is parked, and a stale owner changes nothing; a claim succeeds
      exactly when the scheduler finds the objective runnable and no completion is prepared;
      one theorem tells which waits for a group hold an objective back, and which are lost.

    ** Fuel

    The recursions that are not structural take fuel: [parse_loop] one unit per character
    and one more; [decode_value] and [transform] a bound from the depth of the value;
    [visit_type] one unit per declared type; [analyze_expr] one unit per node the limits
    admit.  Each bound is proved enough by an equation or a termination theorem.  The
    s-expression parser takes three units per character and three more ([parse_returns]),
    a recursive query one round per row of its table ([subtree_ids_spec],
    [ancestor_ids_spec]), [affected_node_depth] one unit per affected node and one more,
    and the recursive walks of a context one unit per level down to the limit, which is
    the code's own.  A path walk has the kernel's budget of forty links, and
    [create_dir_all] one unit per component and one more.  [advance_machine] takes one
    iteration for each unit of [machine_weight] and one more, and [evaluate_machine] fuel
    that [evaluate_terminates] proves to exist.

    ** Not modelled

    Of files and approvals: file modes and owners, trailing separators of paths, paths of
    another platform (typed_path), expiry times (chrono), the request to a reviewing model.
    Of threads: their rows, signals and outcomes, and the kernel that issues commands
    (scheduler/kernel.rs).  Of objectives: the supervisor with its timers (objective.rs), the events
    appended with a statement, and the statements that migrate old databases.  In the context database: connections and their failures, the
    limits of SQLite, the Postgres variant.  Of plans: the scheduler that persists machines and turns effects into jobs (plan_execution.rs), and the
    source form of the retired untyped language.  Deserialisation by serde, the text of JSON
    values, [Display] of messages and errors, the controller's snapshot, the formatter and the
    language card; of the crates around it, the
    runtime, orchestrator, stores, providers, tools and user
    interfaces, which are asynchronous I/O over databases, processes and networks. *)

From stdpp Require Import base list gmap strings.
From Stdlib Require Import NArith ZArith Lia Sorted.

(** ** Characters and strings *)

(** A Rust [char] is a Unicode scalar value; a Rust [String] is the sequence of
    its characters.  UTF-8 byte lengths are computed from the characters. *)
Abbreviation char := N.
Abbreviation str := (list N).

(** ASCII literals of the source. *)
Fixpoint lit (s : string) : str :=
  match s with
  | EmptyString => []
  | String a r => Ascii.N_of_ascii a :: lit r
  end.
Arguments lit : simpl never.

Declare Scope yao_scope.
Delimit Scope yao_scope with yao.
Notation "s! x" := (lit x%string) (at level 8, x at level 0) : yao_scope.
#[global] Open Scope yao_scope.

Fixpoint str_eqb (a b : str) : bool :=
  match a, b with
  | [], [] => true
  | x :: a', y :: b' => N.eqb x y && str_eqb a' b'
  | _, _ => false
  end.

Notation "a =s b" := (str_eqb a b) (at level 70, no associativity) : yao_scope.

(** [char::is_whitespace]: the Unicode [White_Space] property. *)
Definition is_whitespace (c : char) : bool :=
  (((9 <=? c) && (c <=? 13)) || (c =? 32) || (c =? 0x85) || (c =? 0xA0) || (c =? 0x1680)
   || ((0x2000 <=? c) && (c <=? 0x200A)) || (c =? 0x2028) || (c =? 0x2029)
   || (c =? 0x202F) || (c =? 0x205F) || (c =? 0x3000))%N.

(** [char::len_utf8] and [str::len]. *)
Definition len_utf8 (c : char) : N :=
  if N.ltb c 0x80 then 1 else if N.ltb c 0x800 then 2 else if N.ltb c 0x10000 then 3 else 4.

Fixpoint byte_len (s : str) : N :=
  match s with [] => 0 | c :: r => len_utf8 c + byte_len r end.

Definition len {A} (l : list A) : N := N.of_nat (length l).

(** Lexicographic comparison of lists: the derived [Ord] of Rust sequences; on
    characters it is the byte order of [str], since UTF-8 preserves it. *)
Definition list_cmp {A} (cmp : A → A → comparison) : list A → list A → comparison :=
  fix go l1 l2 :=
    match l1, l2 with
    | [], [] => Eq
    | [], _ => Lt
    | _, [] => Gt
    | x :: l1', y :: l2' =>
        match cmp x y with Eq => go l1' l2' | c => c end
    end.

Definition str_cmp : str → str → comparison := list_cmp N.compare.

(** ** Results *)

Inductive result (E A : Type) : Type :=
| Ok (a : A)
| Err (e : E).
Arguments Ok {E A} a.
Arguments Err {E A} e.

#[global] Instance result_ret {E} : MRet (result E) := λ A a, Ok a.
#[global] Instance result_bind {E} : MBind (result E) := λ A B f r,
  match r with Ok a => f a | Err e => Err e end.
#[global] Instance result_fmap {E} : FMap (result E) := λ A B f r,
  match r with Ok a => Ok (f a) | Err e => Err e end.

(** [Option::ok_or], [Result::map_err], [Result::ok], [Result::is_ok] and an
    early [return Err(..)] guarded by a condition. *)
Definition ok_or {E A} (o : option A) (e : E) : result E A :=
  match o with Some a => Ok a | None => Err e end.
Definition map_err {E F A} (f : E → F) (r : result E A) : result F A :=
  match r with Ok a => Ok a | Err e => Err (f e) end.
Definition res_ok {E A} (r : result E A) : option A :=
  match r with Ok a => Some a | Err _ => None end.
Definition is_ok {E A} (r : result E A) : bool :=
  match r with Ok _ => true | Err _ => false end.
Definition ensure {E} (b : bool) (e : E) : result E unit :=
  if b then Ok tt else Err e.
Definition is_some {A} (o : option A) : bool :=
  match o with Some _ => true | None => false end.

(** [iter().map(f).collect::<Result<Vec<_>, _>>()]: stops at the first error. *)
Definition traverse {E A B} (f : A → result E B) : list A → result E (list B) :=
  fix go l :=
    match l with
    | [] => Ok []
    | x :: r => y ← f x; ys ← go r; Ok (y :: ys)
    end.

(** [iter().try_for_each(f)]. *)
Definition try_each {E A} (f : A → result E unit) : list A → result E unit :=
  fix go l :=
    match l with
    | [] => Ok tt
    | x :: r => _ ← f x; go r
    end.

(** A loop that threads a state and may return early with an error. *)
Definition foldM {E A S} (f : S → A → result E S) : S → list A → result E S :=
  fix go s l :=
    match l with
    | [] => Ok s
    | x :: r => s' ← f s x; go s' r
    end.

(** ** Ordered maps *)

(** A [BTreeMap<String, V>] (and a [serde_json::Map] without [preserve_order])
    is its list of entries, sorted by key. *)
Section bmap.
Context {V : Type}.

Fixpoint bm_get (k : str) (m : list (str * V)) : option V :=
  match m with
  | [] => None
  | (k', v) :: r => if k =s k' then Some v else bm_get k r
  end.

Fixpoint bm_insert (k : str) (v : V) (m : list (str * V)) : list (str * V) :=
  match m with
  | [] => [(k, v)]
  | (k', v') :: r =>
      match str_cmp k k' with
      | Lt => (k, v) :: (k', v') :: r
      | Eq => (k, v) :: r
      | Gt => (k', v') :: bm_insert k v r
      end
  end.

Definition bm_remove (k : str) (m : list (str * V)) : list (str * V) :=
  List.filter (λ kv, negb (k =s kv.1)) m.

Definition bm_contains (k : str) (m : list (str * V)) : bool := is_some (bm_get k m).

(** [FromIterator]: later entries replace earlier ones. *)
Definition bm_of_list (l : list (str * V)) : list (str * V) :=
  fold_left (λ m kv, bm_insert kv.1 kv.2 m) l [].

Definition key_lt (a b : str * V) : Prop := str_cmp a.1 b.1 = Lt.
Definition bm_wf (m : list (str * V)) : Prop := StronglySorted key_lt m.
End bmap.

(** A [BTreeSet<String>] as the sorted list of its elements, and the hash sets
    of names the source only inserts into and tests. *)
Definition bs_contains (k : str) (s : list str) : bool := existsb (str_eqb k) s.

Fixpoint bs_insert (k : str) (s : list str) : list str :=
  match s with
  | [] => [k]
  | k' :: r =>
      match str_cmp k k' with
      | Lt => k :: k' :: r
      | Eq => k :: r
      | Gt => k' :: bs_insert k r
      end
  end.

(** ** Automation *)

Create HintDb yao.

(** Inverts equations between results: a bind that returned [Ok] had both of
    its halves return [Ok]. *)
Lemma bind_Ok {E A B} (r : result E A) (f : A → result E B) b :
  (r ≫= f) = Ok b → ∃ a, r = Ok a ∧ f a = Ok b.
Proof. destruct r as [a|e]; [by eauto|done]. Qed.

Lemma fmap_Ok {E A B} (r : result E A) (f : A → B) b :
  (f <$> r) = Ok b → ∃ a, r = Ok a ∧ f a = b.
Proof. destruct r as [a|e]; [|done]. intros [= <-]. by eauto. Qed.

Lemma ensure_Ok {E} b (e : E) u : ensure b e = Ok u ↔ b = true.
Proof. destruct b, u; naive_solver. Qed.

Lemma ok_or_Ok {E A} (o : option A) (e : E) a : ok_or o e = Ok a ↔ o = Some a.
Proof. destruct o; naive_solver. Qed.

Lemma map_err_Ok {E F A} (f : E → F) (r : result E A) a :
  map_err f r = Ok a ↔ r = Ok a.
Proof. destruct r; naive_solver. Qed.

Ltac res_inv_step :=
  match goal with
  | H : (?r ≫= ?f) = Ok _ |- _ =>
      apply bind_Ok in H; let a := fresh "a" in let Ha := fresh "Ha" in
      destruct H as (a & Ha & H)
  | H : (?f <$> ?r) = Ok _ |- _ =>
      apply fmap_Ok in H; let a := fresh "a" in let Ha := fresh "Ha" in
      destruct H as (a & Ha & H)
  | H : ensure _ _ = Ok _ |- _ => apply ensure_Ok in H
  | H : ok_or _ _ = Ok _ |- _ => apply ok_or_Ok in H
  | H : map_err _ _ = Ok _ |- _ => apply map_err_Ok in H
  | H : Ok _ = Ok _ |- _ => injection H as H
  | H : (match ?p with pair _ _ => _ end) = Ok _ |- _ =>
      is_var p; let x := fresh p "l" in let y := fresh p "r" in destruct p as [x y]
  | H : Err _ = Ok _ |- _ => discriminate H
  | H : Ok _ = Err _ |- _ => discriminate H
  end.
Ltac res_inv := repeat (res_inv_step; try subst).

(** Case analysis on the scrutinee of a match in a hypothesis. *)
Ltac case_match_in H :=
  match type of H with
  | context [match ?x with _ => _ end] => destruct x eqn:?; try discriminate H
  end.

(** ** Lemmas: strings *)

Lemma str_eqb_eq a b : (a =s b) = true ↔ a = b.
Proof.
  revert b; induction a as [|x a IH]; intros [|y b]; simpl; split; try done.
  - intros [Hx Ha]%andb_true_iff. apply N.eqb_eq in Hx. apply IH in Ha. by subst.
  - intros [= -> ->]. rewrite N.eqb_refl. by apply IH.
Qed.

Lemma str_eqb_refl a : (a =s a) = true.
Proof. by apply str_eqb_eq. Qed.

Lemma str_eqb_neq a b : (a =s b) = false ↔ a ≠ b.
Proof. rewrite <- str_eqb_eq. by destruct (a =s b). Qed.

Lemma str_eqb_spec a b : reflect (a = b) (a =s b).
Proof. apply iff_reflect. symmetry. apply str_eqb_eq. Qed.

Lemma str_eqb_sym a b : (a =s b) = (b =s a).
Proof. destruct (str_eqb_spec a b), (str_eqb_spec b a); naive_solver. Qed.

#[export] Hint Rewrite str_eqb_refl : yao.

(** Decides an equation between string literals of the source. *)
Ltac lit_decide := first [(apply str_eqb_neq; reflexivity) | reflexivity].

(** ** Lemmas: lexicographic order *)

Section list_cmp.
Context {A : Type} (cmp : A → A → comparison).

Lemma list_cmp_eq (l1 l2 : list A) :
  (∀ x y, x ∈ l1 → cmp x y = Eq ↔ x = y) → list_cmp cmp l1 l2 = Eq ↔ l1 = l2.
Proof.
  revert l2; induction l1 as [|x l1 IH]; intros [|y l2] Hc; simpl; try done.
  assert (Hx := Hc x y ltac:(set_solver)).
  destruct (cmp x y) eqn:E.
  - rewrite IH by (intros; apply Hc; set_solver). naive_solver.
  - naive_solver.
  - naive_solver.
Qed.

Lemma list_cmp_antisym (l1 l2 : list A) :
  (∀ x y, x ∈ l1 → cmp y x = CompOpp (cmp x y)) →
  list_cmp cmp l2 l1 = CompOpp (list_cmp cmp l1 l2).
Proof.
  revert l2; induction l1 as [|x l1 IH]; intros [|y l2] Hc; simpl; try done.
  rewrite (Hc x y) by set_solver. destruct (cmp x y); simpl; try done.
  apply IH. intros; apply Hc; set_solver.
Qed.

Lemma list_cmp_trans (l1 l2 l3 : list A) :
  (∀ x y, x ∈ l1 → cmp x y = Eq → x = y) →
  (∀ y z, y ∈ l2 → cmp y z = Eq → y = z) →
  (∀ x y z, x ∈ l1 → cmp x y = Lt → cmp y z = Lt → cmp x z = Lt) →
  list_cmp cmp l1 l2 = Lt → list_cmp cmp l2 l3 = Lt → list_cmp cmp l1 l3 = Lt.
Proof.
  revert l2 l3; induction l1 as [|x l1 IH]; intros [|y l2] [|z l3] H1 H2 Ht;
    simpl; try done.
  destruct (cmp x y) eqn:Exy; [|..]; try done; intros Hxy.
  - apply H1 in Exy as ->; [|set_solver]. destruct (cmp y z) eqn:Eyz; try done.
    intros Hyz. eapply (IH l2 l3); eauto; intros ???.
    + apply H1; set_solver.
    + apply H2; set_solver.
    + intros. eapply Ht; eauto; set_solver.
  - destruct (cmp y z) eqn:Eyz; try done; intros _.
    + apply H2 in Eyz as <-; [|set_solver]. by rewrite Exy.
    + by rewrite (Ht x y z) by (done || set_solver).
Qed.
End list_cmp.

Lemma str_cmp_eq a b : str_cmp a b = Eq ↔ a = b.
Proof. apply list_cmp_eq. intros x y _. apply N.compare_eq_iff. Qed.

Lemma str_cmp_refl a : str_cmp a a = Eq.
Proof. by apply str_cmp_eq. Qed.

Lemma str_cmp_antisym a b : str_cmp b a = CompOpp (str_cmp a b).
Proof. apply list_cmp_antisym. intros x y _. apply N.compare_antisym. Qed.

Lemma str_cmp_trans a b c : str_cmp a b = Lt → str_cmp b c = Lt → str_cmp a c = Lt.
Proof.
  apply list_cmp_trans; intros; [by apply N.compare_eq_iff..|].
  rewrite N.compare_lt_iff in *. lia.
Qed.

Lemma str_cmp_eqb a b : (a =s b) = match str_cmp a b with Eq => true | _ => false end.
Proof.
  destruct (str_eqb_spec a b) as [->|Hne]; [by rewrite str_cmp_refl|].
  destruct (str_cmp a b) eqn:E; try done. by apply str_cmp_eq in E.
Qed.

(** ** Lemmas: ordered maps *)

Section bmap_facts.
Context {V : Type}.
Implicit Types m : list (str * V).

Lemma bm_get_insert k k' v m :
  bm_get k' (bm_insert k v m) = if k' =s k then Some v else bm_get k' m.
Proof.
  induction m as [|[k1 v1] m IH]; simpl; [done|].
  destruct (str_cmp k k1) eqn:E; simpl.
  - apply str_cmp_eq in E as ->. by destruct (k' =s k1).
  - done.
  - rewrite IH. destruct (str_eqb_spec k' k) as [->|]; [|done].
    by rewrite str_cmp_eqb, E.
Qed.

Lemma bm_get_insert_eq k v m : bm_get k (bm_insert k v m) = Some v.
Proof. by rewrite bm_get_insert, str_eqb_refl. Qed.

Lemma bm_get_remove k k' m :
  bm_get k' (bm_remove k m) = if k =s k' then None else bm_get k' m.
Proof.
  unfold bm_remove. induction m as [|[k1 v1] m IH]; simpl; [by case_match|].
  destruct (str_eqb_spec k k1) as [->|Hne]; simpl; rewrite IH.
  - destruct (str_eqb_spec k1 k') as [->|]; [done|].
    destruct (str_eqb_spec k' k1); [by subst|done].
  - destruct (str_eqb_spec k k') as [->|]; [|done].
    destruct (str_eqb_spec k' k1); [by subst|done].
Qed.

Lemma bm_get_elem k v m : bm_get k m = Some v → (k, v) ∈ m.
Proof.
  induction m as [|[k1 v1] m IH]; simpl; [done|].
  destruct (str_eqb_spec k k1) as [->|]; [intros [= ->]|]; set_solver.
Qed.

Lemma bm_get_None k m : bm_get k m = None ↔ k ∉ m.*1.
Proof.
  induction m as [|[k1 v1] m IH]; simpl; [set_solver|].
  destruct (str_eqb_spec k k1) as [->|]; [set_solver|]. rewrite IH. set_solver.
Qed.

Lemma key_lt_trans (a b c : str * V) : key_lt a b → key_lt b c → key_lt a c.
Proof. apply str_cmp_trans. Qed.

Lemma key_lt_ne (a b : str * V) : key_lt a b → a.1 ≠ b.1.
Proof. unfold key_lt. intros H E. by rewrite E, str_cmp_refl in H. Qed.

Lemma bm_wf_cons_inv kv m :
  bm_wf (kv :: m) → bm_wf m ∧ Forall (key_lt kv) m.
Proof. by inversion 1. Qed.

Lemma bm_wf_NoDup m : bm_wf m → NoDup m.*1.
Proof.
  induction 1 as [|[k v] m _ IH Hall]; simpl; constructor; [|done].
  intros ([k' v'] & Hk & Hin)%list_elem_of_fmap. simpl in Hk. subst.
  rewrite Forall_forall in Hall. specialize (Hall _ Hin).
  by apply key_lt_ne in Hall.
Qed.

Lemma bm_elem_get k v m : bm_wf m → (k, v) ∈ m → bm_get k m = Some v.
Proof.
  induction m as [|[k1 v1] m IH]; intros Hwf Hin; [set_solver|].
  apply bm_wf_cons_inv in Hwf as [Hwf Hall]. simpl.
  apply elem_of_cons in Hin as [[= -> ->]|Hin]; [by rewrite str_eqb_refl|].
  destruct (str_eqb_spec k k1) as [->|]; [|by apply IH].
  rewrite Forall_forall in Hall. specialize (Hall _ Hin). by apply key_lt_ne in Hall.
Qed.

Lemma bm_insert_Forall (P : str * V → Prop) k v m :
  P (k, v) → Forall P m → Forall P (bm_insert k v m).
Proof.
  intros Hkv. induction 1 as [|[k1 v1] m Hx Hm IH]; simpl; [by constructor|].
  destruct (str_cmp k k1); repeat constructor; auto.
Qed.

Lemma bm_wf_insert k v m : bm_wf m → bm_wf (bm_insert k v m).
Proof.
  induction 1 as [|[k1 v1] m Hwf IH Hall]; simpl; [repeat constructor|].
  destruct (str_cmp k k1) eqn:E.
  - constructor; [done|]. apply str_cmp_eq in E as ->. exact Hall.
  - constructor; [by constructor|]. constructor; [exact E|].
    eapply Forall_impl; [exact Hall|]. intros x. by apply key_lt_trans.
  - constructor; [done|]. apply bm_insert_Forall; [|done].
    unfold key_lt; simpl. by rewrite str_cmp_antisym, E.
Qed.

Lemma Forall_filter' {B} (P : B → Prop) f (l : list B) :
  Forall P l → Forall P (List.filter f l).
Proof. induction 1; simpl; [constructor|]. case_match; [by constructor|done]. Qed.

Lemma bm_wf_remove k m : bm_wf m → bm_wf (bm_remove k m).
Proof.
  unfold bm_remove. induction 1 as [|kv m Hwf IH Hall]; simpl; [constructor|].
  case_match; [|done]. constructor; [done|]. by apply Forall_filter'.
Qed.

Lemma bm_wf_of_list_aux (l : list (str * V)) m : bm_wf m → bm_wf (fold_left (λ m kv, bm_insert kv.1 kv.2 m) l m).
Proof. revert m; induction l; simpl; auto using bm_wf_insert. Qed.

Lemma bm_wf_of_list (l : list (str * V)) : bm_wf (bm_of_list l).
Proof. apply bm_wf_of_list_aux. constructor. Qed.

Lemma bm_NoDup_get k v m : NoDup m.*1 → (k, v) ∈ m → bm_get k m = Some v.
Proof.
  induction m as [|[k1 v1] m IH]; intros Hnd Hin; [set_solver|]. simpl in *.
  apply NoDup_cons in Hnd as [Hk1 Hnd].
  apply elem_of_cons in Hin as [[= -> ->]|Hin]; [by rewrite str_eqb_refl|].
  destruct (str_eqb_spec k k1) as [->|]; [|by apply IH].
  destruct Hk1. apply list_elem_of_fmap. by exists (k1, v).
Qed.

Lemma bm_get_of_list k (l : list (str * V)) :
  NoDup l.*1 → bm_get k (bm_of_list l) = bm_get k l.
Proof.
  assert (∀ l acc : list (str * V), NoDup l.*1 →
            bm_get k (fold_left (λ m kv, bm_insert kv.1 kv.2 m) l acc)
            = match bm_get k l with Some v => Some v | None => bm_get k acc end) as H.
  { clear l. induction l as [|[j v] l IH]; intros acc; simpl; [done|].
    intros [Hj Hl]%NoDup_cons. rewrite IH by done. rewrite bm_get_insert.
    destruct (str_eqb_spec k j) as [->|]; [|done].
    by rewrite (proj2 (bm_get_None j l) Hj). }
  intros Hl. unfold bm_of_list. rewrite H by done. by destruct (bm_get k l).
Qed.

(** Sorted maps are extensional. *)
Lemma bm_ext m1 m2 :
  bm_wf m1 → bm_wf m2 → (∀ k, bm_get k m1 = bm_get k m2) → m1 = m2.
Proof.
  revert m2. induction m1 as [|[k1 v1] m1 IH]; intros [|[k2 v2] m2] H1 H2 Hget.
  - done.
  - specialize (Hget k2). simpl in Hget. by rewrite str_eqb_refl in Hget.
  - specialize (Hget k1). simpl in Hget. by rewrite str_eqb_refl in Hget.
  - apply bm_wf_cons_inv in H1 as [H1 A1]; apply bm_wf_cons_inv in H2 as [H2 A2].
    assert (∀ k k' (v v' : V) m m', Forall (key_lt (k, v)) m →
              (∀ j, bm_get j ((k, v) :: m) = bm_get j ((k', v') :: m')) →
              Forall (key_lt (k', v')) m' → str_cmp k' k ≠ Lt) as Hmin.
    { intros k k' v v' m m' Hm Hg Hm' Hlt. specialize (Hg k'). simpl in Hg.
      rewrite str_eqb_refl, str_cmp_eqb, Hlt in Hg.
      apply bm_get_elem in Hg. rewrite Forall_forall in Hm. apply Hm in Hg.
      assert (Hkk : str_cmp k' k' = Lt) by (eapply str_cmp_trans; eauto).
      by rewrite str_cmp_refl in Hkk. }
    assert (k1 = k2) as ->.
    { pose proof (Hmin _ _ _ _ _ _ A1 Hget A2) as N1.
      pose proof (Hmin _ _ _ _ _ _ A2 (λ j, eq_sym (Hget j)) A1) as N2.
      apply str_cmp_eq. rewrite str_cmp_antisym in N1.
      by destruct (str_cmp k1 k2). }
    assert (v1 = v2) as ->.
    { specialize (Hget k2). simpl in Hget. rewrite str_eqb_refl in Hget. congruence. }
    f_equal. apply IH; [done..|]. intros k. specialize (Hget k). simpl in Hget.
    destruct (str_eqb_spec k k2) as [Ek|]; [|done]. rewrite Ek.
    assert (∀ v m, Forall (key_lt (k2, v)) m → bm_get k2 m = None) as Hno.
    { intros v m Hm. apply bm_get_None. intros ([k' v'] & Hk & Hin)%list_elem_of_fmap.
      simpl in Hk; subst. rewrite Forall_forall in Hm. by apply Hm, key_lt_ne in Hin. }
    by rewrite (Hno _ _ A1), (Hno _ _ A2).
Qed.
End bmap_facts.

Lemma bs_contains_In k s : bs_contains k s = true ↔ k ∈ s.
Proof.
  unfold bs_contains. rewrite existsb_exists. split.
  - intros (x & Hin & ->%str_eqb_eq). by apply list_elem_of_In.
  - intros Hin. exists k. split; [by apply list_elem_of_In|apply str_eqb_refl].
Qed.

Lemma bs_insert_In k x s : x ∈ bs_insert k s ↔ x = k ∨ x ∈ s.
Proof.
  induction s as [|k' s IH]; simpl; [set_solver|].
  destruct (str_cmp k k') eqn:E; [apply str_cmp_eq in E as ->|..]; set_solver.
Qed.

Lemma bs_contains_insert k x s :
  bs_contains x (bs_insert k s) = (x =s k) || bs_contains x s.
Proof.
  apply eq_bool_prop_intro. rewrite !Is_true_true, orb_true_iff, !bs_contains_In.
  by rewrite bs_insert_In, str_eqb_eq.
Qed.

(** ** Lemmas: loops over lists *)

Lemma traverse_Ok {E A B} (f : A → result E B) l l' :
  traverse f l = Ok l' ↔ Forall2 (λ x y, f x = Ok y) l l'.
Proof.
  revert l'; induction l as [|x l IH]; intros l'; simpl.
  - split; [intros [= <-]; constructor|by inversion 1].
  - split.
    + intros H. res_inv. constructor; [done|]. by apply IH.
    + inversion 1 as [|?? y ys Hx Hl]; subst. rewrite Hx; simpl.
      apply IH in Hl as ->. done.
Qed.

Lemma try_each_Ok {E A} (f : A → result E unit) l u :
  try_each f l = Ok u ↔ Forall (λ x, f x = Ok tt) l.
Proof.
  destruct u. induction l as [|x l IH]; simpl; [by rewrite Forall_nil|].
  rewrite Forall_cons. destruct (f x) as [[]|e]; simpl; naive_solver.
Qed.

Lemma traverse_ext {E A B} (f g : A → result E B) l :
  (∀ x, x ∈ l → f x = g x) → traverse f l = traverse g l.
Proof.
  induction l as [|x l IH]; intros H; simpl; [done|].
  rewrite H, IH; [done| |set_solver]. intros; apply H; set_solver.
Qed.

Lemma Forall2_impl_in {A B} (P Q : A → B → Prop) l k :
  Forall2 P l k → (∀ x y, x ∈ l → y ∈ k → P x y → Q x y) → Forall2 Q l k.
Proof.
  induction 1 as [|x y l k Hxy _ IH]; intros H; constructor.
  - apply H; [set_solver..|done].
  - apply IH. intros. apply H; [set_solver..|done].
Qed.

(** Strong induction on the length of a list. *)
Lemma list_length_ind {A} (P : list A → Prop) :
  (∀ l, (∀ l', (length l' < length l)%nat → P l') → P l) → ∀ l, P l.
Proof.
  intros Hstep l. remember (length l) as n eqn:Hn. revert l Hn.
  induction n as [n IH] using lt_wf_ind. intros l ->. apply Hstep.
  intros l' Hl'. by eapply IH.
Qed.

(** Reduces every variable of type [unit]. *)
Ltac destruct_units := repeat match goal with u : unit |- _ => destruct u end.
