(* ===== verification/Types.v ===== *)
(** * Types and effects (yao/src/types.rs)

    The type language of Yao, the effect sets that annotate every typed
    expression, and assignability.  The theorems show that effect sets are
    canonical (sorted, extensional) finite sets and that assignability is a
    partial order. *)

From stdpp Require Import base list gmap strings.
From Stdlib Require Import Sorted.
From S2P Require Import Prelude.

(** ** Effects *)

(** yao/src/types.rs:69-76 [Effect].  The nested [EffectSet] is the sorted list
    of its elements. *)
Inductive Effect : Type :=
| EInfer
| ETool (name : str)
| EHost (name : str)
| EProgram (effects : list Effect).

(** yao/src/types.rs:78-80 [EffectSet]. *)
Abbreviation EffectSet := (list Effect).

(** The derived [Ord]: constructors in declaration order, then the payload. *)
Fixpoint effect_cmp (a b : Effect) {struct a} : comparison :=
  match a, b with
  | EInfer, EInfer => Eq
  | EInfer, _ => Lt
  | _, EInfer => Gt
  | ETool x, ETool y => str_cmp x y
  | ETool _, _ => Lt
  | _, ETool _ => Gt
  | EHost x, EHost y => str_cmp x y
  | EHost _, _ => Lt
  | _, EHost _ => Gt
  | EProgram s, EProgram t => list_cmp effect_cmp s t
  end.

Definition effect_eqb (a b : Effect) : bool :=
  match effect_cmp a b with Eq => true | _ => false end.

(** yao/src/types.rs:91-93 [EffectSet::contains]. *)
Definition es_contains (e : Effect) (s : EffectSet) : bool := existsb (effect_eqb e) s.

(** yao/src/types.rs:87-89 [EffectSet::insert].  The returned flag of the source is
    [negb (es_contains e s)]. *)
Fixpoint es_insert (e : Effect) (s : EffectSet) : EffectSet :=
  match s with
  | [] => [e]
  | e' :: r =>
      match effect_cmp e e' with
      | Lt => e :: e' :: r
      | Eq => e :: r
      | Gt => e' :: es_insert e r
      end
  end.

(** yao/src/types.rs:83-85 [EffectSet::new]. *)
Definition es_new (l : list Effect) : EffectSet := fold_left (λ s e, es_insert e s) l [].

(** yao/src/types.rs:95-97 [EffectSet::is_subset]. *)
Definition es_is_subset (s t : EffectSet) : bool := forallb (λ e, es_contains e t) s.

(** yao/src/types.rs:99-101 [EffectSet::union]. *)
Definition es_union (s t : EffectSet) : EffectSet := fold_left (λ s e, es_insert e s) t s.

(** yao/src/types.rs:107-109 [EffectSet::is_empty]. *)
Definition es_is_empty (s : EffectSet) : bool := match s with [] => true | _ => false end.

(** ** Types *)

(** yao/src/types.rs:5-31 [Type]. *)
Inductive Ty : Type :=
| TNil
| TBool
| TInt
| TFloat
| TString
| TBytes
| TJson
| TList (inner : Ty)
| TMap (inner : Ty)
| TStructuralRecord (fields : list (str * Ty))
| TOption (inner : Ty)
| TResult (ok error : Ty)
| TEvidenceCandidate
| TOutcomeCandidate
| TContextTransaction
| TRef (kind : str)
| TProgram (output : Ty) (effects : EffectSet)
| TNamed (name : str).

(** Boolean equality of the entries of two association lists. *)
Definition entries_eqb {V} (eqb : V → V → bool) : list (str * V) → list (str * V) → bool :=
  fix go l1 l2 :=
    match l1, l2 with
    | [], [] => true
    | (k1, v1) :: r1, (k2, v2) :: r2 => (k1 =s k2) && eqb v1 v2 && go r1 r2
    | _, _ => false
    end.

Definition es_eqb (s t : EffectSet) : bool :=
  match list_cmp effect_cmp s t with Eq => true | _ => false end.

(** The derived [PartialEq] of [Type]. *)
Fixpoint ty_eqb (a b : Ty) {struct a} : bool :=
  match a, b with
  | TNil, TNil | TBool, TBool | TInt, TInt | TFloat, TFloat | TString, TString
  | TBytes, TBytes | TJson, TJson | TEvidenceCandidate, TEvidenceCandidate
  | TOutcomeCandidate, TOutcomeCandidate | TContextTransaction, TContextTransaction => true
  | TList x, TList y | TMap x, TMap y | TOption x, TOption y => ty_eqb x y
  | TStructuralRecord l, TStructuralRecord r => entries_eqb ty_eqb l r
  | TResult x1 x2, TResult y1 y2 => ty_eqb x1 y1 && ty_eqb x2 y2
  | TRef k, TRef k' => k =s k'
  | TProgram o e, TProgram o' e' => ty_eqb o o' && es_eqb e e'
  | TNamed n, TNamed n' => n =s n'
  | _, _ => false
  end.

(** yao/src/types.rs:34-66 [Type::is_assignable_to].  The recursion of the source
    descends both types at once; here it is structural in the target. *)
Fixpoint is_assignable_to (self target : Ty) {struct target} : bool :=
  ty_eqb self target
  || match target with TJson => true | _ => false end
  || match self, target with
     | TInt, TFloat => true
     | TList left_, TList right_
     | TMap left_, TMap right_
     | TOption left_, TOption right_ => is_assignable_to left_ right_
     | TStructuralRecord left_, TStructuralRecord right_ =>
         forallb (λ nt, match bm_get nt.1 left_ with
                        | Some left_type => is_assignable_to left_type nt.2
                        | None => false
                        end) right_
     | TResult left_ok left_error, TResult right_ok right_error =>
         is_assignable_to left_ok right_ok && is_assignable_to left_error right_error
     | TProgram left_output left_effects, TProgram right_output right_effects =>
         is_assignable_to left_output right_output
         && es_is_subset left_effects right_effects
     | _, _ => false
     end.

(** ** Well-formed effect sets and types *)

Definition effect_lt (a b : Effect) : Prop := effect_cmp a b = Lt.

Inductive effect_wf : Effect → Prop :=
| wf_EInfer : effect_wf EInfer
| wf_ETool n : effect_wf (ETool n)
| wf_EHost n : effect_wf (EHost n)
| wf_EProgram s : StronglySorted effect_lt s → Forall effect_wf s → effect_wf (EProgram s).

Definition es_wf (s : EffectSet) : Prop := StronglySorted effect_lt s.

Inductive ty_wf : Ty → Prop :=
| wf_TNil : ty_wf TNil
| wf_TBool : ty_wf TBool
| wf_TInt : ty_wf TInt
| wf_TFloat : ty_wf TFloat
| wf_TString : ty_wf TString
| wf_TBytes : ty_wf TBytes
| wf_TJson : ty_wf TJson
| wf_TList t : ty_wf t → ty_wf (TList t)
| wf_TMap t : ty_wf t → ty_wf (TMap t)
| wf_TStructuralRecord fs :
    bm_wf fs → Forall (λ nt, ty_wf nt.2) fs → ty_wf (TStructuralRecord fs)
| wf_TOption t : ty_wf t → ty_wf (TOption t)
| wf_TResult a b : ty_wf a → ty_wf b → ty_wf (TResult a b)
| wf_TEvidenceCandidate : ty_wf TEvidenceCandidate
| wf_TOutcomeCandidate : ty_wf TOutcomeCandidate
| wf_TContextTransaction : ty_wf TContextTransaction
| wf_TRef k : ty_wf (TRef k)
| wf_TProgram o e : ty_wf o → es_wf e → ty_wf (TProgram o e)
| wf_TNamed n : ty_wf (TNamed n).

(** ** Induction principles *)

Section effect_ind.
Context (P : Effect → Prop).
Context (HInfer : P EInfer) (HTool : ∀ n, P (ETool n)) (HHost : ∀ n, P (EHost n)).
Context (HProgram : ∀ s, Forall P s → P (EProgram s)).

Fixpoint effect_nested_ind (e : Effect) : P e :=
  match e with
  | EInfer => HInfer
  | ETool n => HTool n
  | EHost n => HHost n
  | EProgram s =>
      HProgram s ((fix go l : Forall P l :=
                     match l with
                     | [] => Forall_nil_2 _
                     | x :: r => Forall_cons_2 _ _ _ (effect_nested_ind x) (go r)
                     end) s)
  end.
End effect_ind.

Section ty_ind.
Context (P : Ty → Prop).
Context (HNil : P TNil) (HBool : P TBool) (HInt : P TInt) (HFloat : P TFloat)
  (HString : P TString) (HBytes : P TBytes) (HJson : P TJson)
  (HList : ∀ t, P t → P (TList t)) (HMap : ∀ t, P t → P (TMap t))
  (HRecord : ∀ fs, Forall (λ nt, P nt.2) fs → P (TStructuralRecord fs))
  (HOption : ∀ t, P t → P (TOption t))
  (HResult : ∀ a b, P a → P b → P (TResult a b))
  (HEvidence : P TEvidenceCandidate) (HOutcome : P TOutcomeCandidate)
  (HContext : P TContextTransaction) (HRef : ∀ k, P (TRef k))
  (HProgram : ∀ o e, P o → P (TProgram o e)) (HNamed : ∀ n, P (TNamed n)).

Fixpoint ty_nested_ind (t : Ty) : P t :=
  match t with
  | TNil => HNil | TBool => HBool | TInt => HInt | TFloat => HFloat
  | TString => HString | TBytes => HBytes | TJson => HJson
  | TList t => HList t (ty_nested_ind t)
  | TMap t => HMap t (ty_nested_ind t)
  | TStructuralRecord fs =>
      HRecord fs ((fix go l : Forall (λ nt, P nt.2) l :=
                     match l with
                     | [] => Forall_nil_2 _
                     | x :: r => Forall_cons_2 _ _ _ (ty_nested_ind x.2) (go r)
                     end) fs)
  | TOption t => HOption t (ty_nested_ind t)
  | TResult a b => HResult a b (ty_nested_ind a) (ty_nested_ind b)
  | TEvidenceCandidate => HEvidence | TOutcomeCandidate => HOutcome
  | TContextTransaction => HContext
  | TRef k => HRef k
  | TProgram o e => HProgram o e (ty_nested_ind o)
  | TNamed n => HNamed n
  end.
End ty_ind.

(** ** Lemmas: effects *)

Lemma effect_cmp_eq a b : effect_cmp a b = Eq ↔ a = b.
Proof.
  revert b. induction a as [|n|n|s IH] using effect_nested_ind; intros [|m|m|t]; simpl;
    try (split; [intros H; discriminate H|intros H; discriminate H]);
    try (rewrite str_cmp_eq; split; congruence); [done|].
  rewrite list_cmp_eq; [split; congruence|].
  intros x y Hx. rewrite Forall_forall in IH. by apply IH.
Qed.

Lemma effect_cmp_refl a : effect_cmp a a = Eq.
Proof. by apply effect_cmp_eq. Qed.

Lemma effect_cmp_antisym a b : effect_cmp b a = CompOpp (effect_cmp a b).
Proof.
  revert b. induction a as [|n|n|s IH] using effect_nested_ind; intros [|m|m|t]; simpl;
    try done; try apply str_cmp_antisym.
  apply list_cmp_antisym. intros x y Hx. rewrite Forall_forall in IH. by apply IH.
Qed.

Lemma effect_cmp_trans a b c :
  effect_cmp a b = Lt → effect_cmp b c = Lt → effect_cmp a c = Lt.
Proof.
  revert b c. induction a as [|n|n|s IH] using effect_nested_ind;
    intros [|m|m|t] [|k|k|u]; simpl; try done; try apply str_cmp_trans.
  apply list_cmp_trans; intros *; [intros _; apply effect_cmp_eq..|].
  intros Hx. rewrite Forall_forall in IH. by apply IH.
Qed.

Lemma effect_eqb_spec a b : reflect (a = b) (effect_eqb a b).
Proof.
  apply iff_reflect. unfold effect_eqb. rewrite <- effect_cmp_eq.
  destruct (effect_cmp a b); split; congruence.
Qed.

#[global] Instance effect_eq_dec : EqDecision Effect.
Proof. intros a b. destruct (effect_eqb_spec a b); [by left|by right]. Defined.

Lemma es_contains_In e s : es_contains e s = true ↔ e ∈ s.
Proof.
  unfold es_contains. rewrite existsb_exists. split.
  - intros (x & Hin & Hx). destruct (effect_eqb_spec e x); [subst|done].
    by apply list_elem_of_In.
  - intros Hin. exists e. split; [by apply list_elem_of_In|].
    by destruct (effect_eqb_spec e e).
Qed.

Lemma es_insert_In e x s : x ∈ es_insert e s ↔ x = e ∨ x ∈ s.
Proof.
  induction s as [|e' s IH]; simpl; [set_solver|].
  destruct (effect_cmp e e') eqn:E; [apply effect_cmp_eq in E as ->|..]; set_solver.
Qed.

Lemma es_union_In x s t : x ∈ es_union s t ↔ x ∈ s ∨ x ∈ t.
Proof.
  unfold es_union. revert s; induction t as [|e t IH]; intros s; simpl; [set_solver|].
  rewrite IH, es_insert_In. set_solver.
Qed.

Lemma es_is_subset_spec s t : es_is_subset s t = true ↔ s ⊆ t.
Proof.
  unfold es_is_subset. rewrite forallb_forall. split.
  - intros H x Hx. apply es_contains_In, H. by apply list_elem_of_In.
  - intros H x Hx. apply es_contains_In, H. by apply list_elem_of_In.
Qed.

Lemma es_is_empty_spec s : es_is_empty s = true ↔ s = [].
Proof. by destruct s. Qed.

Lemma es_insert_wf e s : es_wf s → es_wf (es_insert e s).
Proof.
  unfold es_wf. induction 1 as [|e' s Hwf IH Hall]; simpl; [repeat constructor|].
  destruct (effect_cmp e e') eqn:E.
  - apply effect_cmp_eq in E as ->. by constructor.
  - constructor; [by constructor|]. constructor; [exact E|].
    eapply Forall_impl; [exact Hall|]. intros x. by apply effect_cmp_trans.
  - constructor; [done|]. rewrite Forall_forall in *. intros x.
    rewrite es_insert_In. intros [->|Hx]; [|by apply Hall].
    unfold effect_lt. by rewrite effect_cmp_antisym, E.
Qed.

Lemma es_union_wf s t : es_wf s → es_wf (es_union s t).
Proof. unfold es_union. revert s; induction t; simpl; auto using es_insert_wf. Qed.

(** Sorted effect sets with the same elements are equal. *)
Lemma es_ext s t : es_wf s → es_wf t → (∀ e, e ∈ s ↔ e ∈ t) → s = t.
Proof.
  unfold es_wf. intros Hs. revert t.
  induction Hs as [|a s Hs IH Ha]; intros t Ht Hext.
  - destruct t as [|b t]; [done|].
    assert (b ∈ ([] : list Effect)) as []%elem_of_nil by (apply Hext; set_solver).
  - destruct Ht as [|b t Ht Hb].
    { assert (a ∈ ([] : list Effect)) as []%elem_of_nil by (apply Hext; set_solver). }
    rewrite Forall_forall in Ha, Hb.
    assert (a = b) as ->.
    { assert (a ∈ b :: t) as [?|Hat]%elem_of_cons by (apply Hext; set_solver); [done|].
      assert (b ∈ a :: s) as [?|Hbs]%elem_of_cons by (apply Hext; set_solver); [done|].
      apply Hb in Hat. apply Ha in Hbs. unfold effect_lt in *.
      pose proof (effect_cmp_trans _ _ _ Hat Hbs) as Hbb. by rewrite effect_cmp_refl in Hbb. }
    f_equal. apply IH; [done|]. intros e.
    assert (∀ l : list Effect, (∀ x, x ∈ l → effect_lt b x) → e ∈ l → e ≠ b) as Hne.
    { intros l Hl Hin ->. apply Hl in Hin. unfold effect_lt in Hin.
      by rewrite effect_cmp_refl in Hin. }
    specialize (Hext e). rewrite !elem_of_cons in Hext.
    pose proof (Hne s Ha). pose proof (Hne t Hb). tauto.
Qed.

(** ** Lemmas: types *)

Lemma entries_eqb_spec {V} (eqb : V → V → bool) l1 l2 :
  Forall (λ kv, ∀ v, eqb kv.2 v = true ↔ kv.2 = v) l1 →
  entries_eqb eqb l1 l2 = true ↔ l1 = l2.
Proof.
  intros H; revert l2; induction H as [|[k v] l1 Hv Hl IH]; intros [|[k2 v2] l2]; simpl;
    try done.
  rewrite !andb_true_iff, str_eqb_eq, IH. simpl in Hv. rewrite Hv. naive_solver.
Qed.

Lemma es_eqb_eq s t : es_eqb s t = true ↔ s = t.
Proof.
  unfold es_eqb. rewrite <- (list_cmp_eq effect_cmp s t) by (intros; apply effect_cmp_eq).
  destruct (list_cmp effect_cmp s t); split; congruence.
Qed.

Lemma ty_eqb_eq a b : ty_eqb a b = true ↔ a = b.
Proof.
  revert b; induction a using ty_nested_ind; intros []; simpl;
    rewrite ?andb_true_iff, ?str_eqb_eq, ?es_eqb_eq; try done;
    repeat match goal with IH : ∀ b, ty_eqb _ b = true ↔ _ |- _ => rewrite IH end;
    try (split; [congruence|by inversion 1]); try (split; [intros []; congruence|by inversion 1]).
  rewrite entries_eqb_spec; [split; congruence|done].
Qed.

Lemma ty_eqb_refl a : ty_eqb a a = true.
Proof. by apply ty_eqb_eq. Qed.

#[global] Instance ty_eq_dec : EqDecision Ty.
Proof.
  intros a b. destruct (ty_eqb a b) eqn:E; [left; by apply ty_eqb_eq|right].
  intros H%ty_eqb_eq. congruence.
Defined.

(** ** Assignability *)

(** The declarative reading of the language specification: reflexivity, every
    type below [Json], [Int] below [Float], structural rules for anonymous
    types (records by width and depth), covariant Program output with an effect
    upper bound, and nothing else: named types are nominal. *)
Inductive assignable : Ty → Ty → Prop :=
| A_refl t : assignable t t
| A_json t : assignable t TJson
| A_int_float : assignable TInt TFloat
| A_list a b : assignable a b → assignable (TList a) (TList b)
| A_map a b : assignable a b → assignable (TMap a) (TMap b)
| A_option a b : assignable a b → assignable (TOption a) (TOption b)
| A_result a b c d : assignable a c → assignable b d → assignable (TResult a b) (TResult c d)
| A_record l r :
    Forall (λ nt, ∃ lt, bm_get nt.1 l = Some lt ∧ assignable lt nt.2) r →
    assignable (TStructuralRecord l) (TStructuralRecord r)
| A_program a b e f :
    assignable a b → e ⊆ f → assignable (TProgram a e) (TProgram b f).

#[export] Hint Constructors assignable : yao.

Lemma assignable_complete_record (l r : list (str * Ty)) :
  Forall (λ nt, ∀ a, is_assignable_to a nt.2 = true ↔ assignable a nt.2) r →
  forallb (λ nt, match bm_get nt.1 l with
                 | Some t => is_assignable_to t nt.2 | None => false end) r = true
  ↔ Forall (λ nt, ∃ lt, bm_get nt.1 l = Some lt ∧ assignable lt nt.2) r.
Proof.
  induction 1 as [|[n t] r Ht Hr IH]; simpl; [by rewrite Forall_nil|].
  rewrite Forall_cons, andb_true_iff, IH. simpl in *.
  destruct (bm_get n l) as [lt|]; [rewrite Ht|]; naive_solver.
Qed.

Lemma is_assignable_to_iff a b : is_assignable_to a b = true ↔ assignable a b.
Proof.
  revert a. induction b using ty_nested_ind; intros a; simpl;
    rewrite !orb_true_iff, ty_eqb_eq; (split; [intros [[->|?]|Ha]; try by constructor|]);
    try (destruct a; try done; try (by constructor));
    try (by inversion 1; subst; eauto);
    repeat match goal with H : _ && _ = true |- _ => apply andb_true_iff in H as [? ?] end;
    try (constructor; by match goal with IH : ∀ a, _ ↔ _ |- _ => apply IH end);
    try (inversion 1; subst; [by left; left|right];
         by match goal with IH : ∀ a, _ ↔ _ |- _ => apply IH end).
  - constructor. by apply assignable_complete_record.
  - inversion 1; subst; [by left; left|right]. by apply assignable_complete_record.
  - inversion 1; subst; [by left; left|right]. apply andb_true_iff.
    split; [by apply IHb1|by apply IHb2].
  - constructor; [by apply IHb|by apply es_is_subset_spec].
  - inversion 1; subst; [by left; left|right]. apply andb_true_iff.
    split; [by apply IHb|by apply es_is_subset_spec].
Qed.

Lemma assignable_json_inv t : assignable TJson t → t = TJson.
Proof. by inversion 1. Qed.

Lemma assignable_trans a b c : assignable a b → assignable b c → assignable a c.
Proof.
  revert a b. induction c using ty_nested_ind; intros x y Hxy Hyz;
    inversion Hyz; subst; try (by constructor); try done;
    try (by apply assignable_json_inv in Hxy; subst);
    try (inversion Hxy; subst; constructor; by eauto).
  - inversion Hxy as [| | | | | | |l' ? Hl|]; subst; [done|]. constructor.
    rewrite Forall_forall in *. intros [n t] Hin.
    match goal with HF : ∀ x, x ∈ fs → ∃ _, _ |- _ =>
      destruct (HF _ Hin) as (lt & Hget & Hlt) end.
    destruct (Hl _ (bm_get_elem _ _ _ Hget)) as (lt' & Hget' & Hlt'). simpl in *.
    exists lt'. split; [done|]. by eapply (H (n, t)).
  - inversion Hxy; subst; constructor; try done. + by eapply IHc. + set_solver.
Qed.

Lemma assignable_antisym_record (l r : list (str * Ty)) :
  bm_wf l → bm_wf r →
  Forall (λ nt, ∃ t, bm_get nt.1 l = Some t ∧ assignable t nt.2) r →
  Forall (λ nt, ∃ t, bm_get nt.1 r = Some t ∧ assignable t nt.2) l →
  (∀ k t u, (k, t) ∈ l → (k, u) ∈ r → assignable t u → assignable u t → t = u) →
  l = r.
Proof.
  intros Hl Hr Hlr Hrl IH. apply bm_ext; [done..|]. intros k.
  rewrite Forall_forall in Hlr, Hrl.
  destruct (bm_get k l) as [t|] eqn:El.
  - destruct (Hrl _ (bm_get_elem _ _ _ El)) as (u & Eu & Hut). simpl in *.
    destruct (Hlr _ (bm_get_elem _ _ _ Eu)) as (t' & Et & Htu). simpl in *.
    rewrite El in Et. injection Et as <-. rewrite Eu. f_equal.
    eapply (IH k); eauto using bm_get_elem.
  - destruct (bm_get k r) as [t|] eqn:Er; [|done].
    destruct (Hlr _ (bm_get_elem _ _ _ Er)) as (? & Hl' & _). simpl in Hl'. congruence.
Qed.

Lemma assignable_antisym a b :
  ty_wf a → ty_wf b → assignable a b → assignable b a → a = b.
Proof.
  revert a. induction b using ty_nested_ind; intros x Hwx Hwy Hxy Hyx;
    inversion Hxy; subst; try done; inversion Hyx; subst; try done;
    inversion Hwx; subst; inversion Hwy; subst; try (f_equal; by eauto).
  - f_equal. apply assignable_antisym_record; [done..|]. intros k t u Hin Hin'.
    repeat match goal with HF : Forall _ _ |- _ => rewrite Forall_forall in HF end.
    apply (H _ Hin'); [|by apply (H6 (k, u))]. by apply (H4 (k, t)).
  - f_equal; [by eauto|]. apply es_ext; [done..|]. set_solver.
Qed.

(** yao/src/sema.rs:4142-4150 [common_type]. *)
Definition common_type (left_ right_ : Ty) : option Ty :=
  if is_assignable_to left_ right_ then Some right_
  else if is_assignable_to right_ left_ then Some left_
  else None.

Lemma common_type_spec a b c :
  common_type a b = Some c → assignable a c ∧ assignable b c ∧ (c = a ∨ c = b).
Proof.
  unfold common_type. destruct (is_assignable_to a b) eqn:Hab.
  - intros [= <-]. apply is_assignable_to_iff in Hab. eauto with yao.
  - destruct (is_assignable_to b a) eqn:Hba; [|done].
    intros [= <-]. apply is_assignable_to_iff in Hba. eauto with yao.
Qed.

(** The common type is the least upper bound: any type both operands are
    assignable to is above it. *)
Lemma common_type_least a b c d :
  common_type a b = Some c → assignable a d → assignable b d → assignable c d.
Proof. intros (_ & _ & [->| ->])%common_type_spec; done. Qed.

(** ** Main theorems *)

(** The assignability test of the checker decides exactly the declarative subtyping
    rules: nominal named types, [Int] below [Float], everything below [Json], width
    and depth subtyping of structural records, covariant containers and programs. *)
Theorem assignability_decided a b : is_assignable_to a b = true ↔ assignable a b.
Proof. apply is_assignable_to_iff. Qed.

(** On well-formed types assignability is a partial order: reflexive, transitive,
    and antisymmetric. *)
Theorem assignability_partial_order a b c :
  ty_wf a → ty_wf b →
  is_assignable_to a a = true ∧
  (is_assignable_to a b = true → is_assignable_to b c = true → is_assignable_to a c = true) ∧
  (is_assignable_to a b = true → is_assignable_to b a = true → a = b).
Proof.
  rewrite !is_assignable_to_iff. intros Ha Hb.
  split_and!; eauto using assignable_trans, assignable_antisym with yao.
Qed.

Lemma assignability_partial_order_witness :
  is_assignable_to (TList TInt) (TList TInt) = true ∧
  (is_assignable_to (TList TInt) (TList TFloat) = true →
   is_assignable_to (TList TFloat) TJson = true → is_assignable_to (TList TInt) TJson = true) ∧
  (is_assignable_to (TList TInt) (TList TFloat) = true →
   is_assignable_to (TList TFloat) (TList TInt) = true → TList TInt = TList TFloat).
Proof. apply assignability_partial_order; repeat constructor. Defined.

(** The type two branches are joined at is their least upper bound: both are
    assignable to it, and it is assignable to every type both are assignable to. *)
Theorem common_type_is_join a b c :
  common_type a b = Some c →
  is_assignable_to a c = true ∧ is_assignable_to b c = true ∧
  ∀ d, is_assignable_to a d = true → is_assignable_to b d = true → is_assignable_to c d = true.
Proof.
  intros Hc. pose proof (common_type_spec _ _ _ Hc) as (H1 & H2 & _).
  rewrite !is_assignable_to_iff. split_and!; [done..|]. intros d.
  rewrite !is_assignable_to_iff. by eapply common_type_least.
Qed.

Lemma common_type_is_join_witness :
  is_assignable_to TInt TFloat = true ∧ is_assignable_to TFloat TFloat = true ∧
  ∀ d, is_assignable_to TInt d = true → is_assignable_to TFloat d = true →
       is_assignable_to TFloat d = true.
Proof. apply (common_type_is_join TInt TFloat TFloat). reflexivity. Defined.
