(* ===== verification/JsonValue.v ===== *)
(** * JSON values and numbers

    The transport values of Yao: [serde_json::Value] with its numbers
    ([u64]/[i64]/[f64]), the accessors the crate uses, and the standard-library
    number parsers.  [f64] is IEEE 754 binary64 as specified by [SpecFloat];
    objects are sorted association lists, since the crate's manifest does not
    enable [preserve_order]. *)

From stdpp Require Import base list gmap strings.
From Stdlib Require Import ZArith Lia SpecFloat.
From S2P Require Import Prelude Types.

Local Open Scope Z_scope.

(** ** Numbers *)

Definition i64_min : Z := - 2 ^ 63.
Definition i64_max : Z := 2 ^ 63 - 1.
Definition u64_max : Z := 2 ^ 64 - 1.
Definition in_i64 (z : Z) : bool := (i64_min <=? z) && (z <=? i64_max).

(** The checked operations of [i64]. *)
Definition checked (z : Z) : option Z := if in_i64 z then Some z else None.
Definition checked_add (a b : Z) : option Z := checked (a + b).
Definition checked_sub (a b : Z) : option Z := checked (a - b).
Definition checked_mul (a b : Z) : option Z := checked (a * b).

Abbreviation f64 := spec_float.
Definition f64_add : f64 → f64 → f64 := SFadd 53 1024.
Definition f64_sub : f64 → f64 → f64 := SFsub 53 1024.
Definition f64_mul : f64 → f64 → f64 := SFmul 53 1024.
Definition f64_div : f64 → f64 → f64 := SFdiv 53 1024.
Definition f64_of_Z (z : Z) : f64 := binary_normalize 53 1024 z 0 false.
Definition f64_is_finite (f : f64) : bool :=
  match f with S754_zero _ | S754_finite _ _ _ => true | _ => false end.

(** [serde_json::Number] without [arbitrary_precision]. *)
Inductive Number : Type :=
| PosInt (n : Z)
| NegInt (n : Z)
| NFloat (f : f64).

Definition number_of_i64 (z : Z) : Number := if z <? 0 then NegInt z else PosInt z.
Definition number_of_f64 (f : f64) : option Number :=
  if f64_is_finite f then Some (NFloat f) else None.
Definition number_as_i64 (n : Number) : option Z :=
  match n with
  | PosInt n => if n <=? i64_max then Some n else None
  | NegInt n => Some n
  | NFloat _ => None
  end.
Definition number_as_f64 (n : Number) : f64 :=
  match n with PosInt n | NegInt n => f64_of_Z n | NFloat f => f end.
Definition number_eqb (a b : Number) : bool :=
  match a, b with
  | PosInt x, PosInt y | NegInt x, NegInt y => x =? y
  | NFloat x, NFloat y => SFeqb x y
  | _, _ => false
  end.

(** A number the crate can hold: the variants at their widths. *)
Definition number_wf (n : Number) : bool :=
  match n with
  | PosInt n => (0 <=? n) && (n <=? u64_max)
  | NegInt n => (i64_min <=? n) && (n <? 0)
  | NFloat f => f64_is_finite f
  end.

(** ** Number parsing *)

Definition is_ascii_digit (c : char) : bool := (48 <=? c)%N && (c <=? 57)%N.

Fixpoint digits_value (acc : Z) (s : str) : option Z :=
  match s with
  | [] => Some acc
  | c :: r => if is_ascii_digit c then digits_value (acc * 10 + Z.of_N (c - 48)) r else None
  end.

(** [str::parse::<i64>]: an optional sign, then at least one digit, in range. *)
Definition parse_i64 (s : str) : option Z :=
  let '(sign, ds) := match s with
                     | 43%N :: r => (1, r)
                     | 45%N :: r => (-1, r)
                     | _ => (1, s)
                     end in
  match ds with
  | [] => None
  | _ => match digits_value 0 ds with Some z => checked (sign * z) | None => None end
  end.

(** Splits the leading ASCII digits off: their value, their number, the rest. *)
Fixpoint take_digits (acc : Z) (n : Z) (s : str) : Z * Z * str :=
  match s with
  | c :: r => if is_ascii_digit c then take_digits (acc * 10 + Z.of_N (c - 48)) (n + 1) r
              else (acc, n, s)
  | [] => (acc, n, [])
  end.

(** The correctly rounded value of [±m * 10^e]. *)
Definition f64_of_decimal (neg : bool) (m e : Z) : f64 :=
  if m =? 0 then S754_zero neg
  else if 0 <=? e then binary_normalize 53 1024 (cond_Zopp neg (m * 10 ^ e)) 0 neg
  else let '(mz, ez, lz) := SFdiv_core_binary 53 1024 m 0 (10 ^ (- e)) 0 in
       binary_round_aux 53 1024 neg mz ez lz.

Definition ascii_lower (c : char) : char :=
  if (65 <=? c)%N && (c <=? 90)%N then (c + 32)%N else c.

(** The exponent suffix of a float literal: [None] when malformed. *)
Definition parse_exponent (s : str) : option Z :=
  match s with
  | [] => Some 0
  | c :: r =>
      if (ascii_lower c =? 101)%N then
        let '(sign, ds) := match r with
                           | 43%N :: r' => (1, r')
                           | 45%N :: r' => (-1, r')
                           | _ => (1, r)
                           end in
        match take_digits 0 0 ds with
        | (z, n, []) => if 0 <? n then Some (sign * z) else None
        | _ => None
        end
      else None
  end.

(** [str::parse::<f64>]: sign, then [inf]/[infinity]/[nan], or digits with an
    optional point and exponent; the value is correctly rounded. *)
Definition parse_f64 (s : str) : option f64 :=
  let '(neg, body) := match s with
                      | 43%N :: r => (false, r)
                      | 45%N :: r => (true, r)
                      | _ => (false, s)
                      end in
  let lower := map ascii_lower body in
  if (lower =s s! "inf") || (lower =s s! "infinity") then Some (S754_infinity neg)
  else if lower =s s! "nan" then Some S754_nan
  else
    let '(ip, in_, r1) := take_digits 0 0 body in
    let '(m, fn, r2) := match r1 with
                        | 46%N :: r => take_digits ip 0 r
                        | _ => (ip, 0, r1)
                        end in
    if in_ + fn =? 0 then None
    else match parse_exponent r2 with
         | Some e => Some (f64_of_decimal neg m (e - fn))
         | None => None
         end.

(** ** Values *)

Inductive Json : Type :=
| JNull
| JBool (b : bool)
| JNumber (n : Number)
| JString (s : str)
| JArray (l : list Json)
| JObject (m : list (str * Json)).

(** The accessors of [serde_json::Value]. *)
Definition jget (k : str) (v : Json) : option Json :=
  match v with JObject m => bm_get k m | _ => None end.
Definition jindex (k : str) (v : Json) : Json := default JNull (jget k v).
Definition jas_object (v : Json) : option (list (str * Json)) :=
  match v with JObject m => Some m | _ => None end.
Definition jas_array (v : Json) : option (list Json) :=
  match v with JArray l => Some l | _ => None end.
Definition jas_str (v : Json) : option str :=
  match v with JString s => Some s | _ => None end.
Definition jas_bool (v : Json) : option bool :=
  match v with JBool b => Some b | _ => None end.
Definition jas_i64 (v : Json) : option Z :=
  match v with JNumber n => number_as_i64 n | _ => None end.
Definition jas_f64 (v : Json) : option f64 :=
  match v with JNumber n => Some (number_as_f64 n) | _ => None end.

Definition list_eqb {A} (eqb : A → A → bool) : list A → list A → bool :=
  fix go l1 l2 :=
    match l1, l2 with
    | [], [] => true
    | x :: r1, y :: r2 => eqb x y && go r1 r2
    | _, _ => false
    end.

(** The derived [PartialEq] of [Value]. *)
Fixpoint json_eqb (a b : Json) {struct a} : bool :=
  match a, b with
  | JNull, JNull => true
  | JBool x, JBool y => Bool.eqb x y
  | JNumber x, JNumber y => number_eqb x y
  | JString x, JString y => x =s y
  | JArray x, JArray y => list_eqb json_eqb x y
  | JObject x, JObject y => entries_eqb json_eqb x y
  | _, _ => false
  end.

(** [json!] objects with literal keys. *)
Definition jobj (l : list (string * Json)) : Json :=
  JObject (bm_of_list (map (λ kv, (lit kv.1, kv.2)) l)).
Definition jstr (s : string) : Json := JString (lit s).

(** Nesting depth of containers; every decoder below recurses into a value of
    smaller depth. *)
Fixpoint jdepth (v : Json) : nat :=
  match v with
  | JArray l => S (list_max (map jdepth l))
  | JObject m => S (list_max (map (λ kv, jdepth kv.2) m))
  | _ => 0
  end.

(** Every number at its width and every object sorted, at every level. *)
Inductive json_wf : Json → Prop :=
| wf_JNull : json_wf JNull
| wf_JBool b : json_wf (JBool b)
| wf_JNumber n : number_wf n = true → json_wf (JNumber n)
| wf_JString s : json_wf (JString s)
| wf_JArray l : Forall json_wf l → json_wf (JArray l)
| wf_JObject m : bm_wf m → Forall (λ kv, json_wf kv.2) m → json_wf (JObject m).

(** ** Lemmas *)

Section json_ind.
Context (P : Json → Prop).
Context (HNull : P JNull) (HBool : ∀ b, P (JBool b)) (HNumber : ∀ n, P (JNumber n))
  (HString : ∀ s, P (JString s)) (HArray : ∀ l, Forall P l → P (JArray l))
  (HObject : ∀ m, Forall (λ kv, P kv.2) m → P (JObject m)).

Fixpoint json_nested_ind (v : Json) : P v :=
  match v with
  | JNull => HNull
  | JBool b => HBool b
  | JNumber n => HNumber n
  | JString s => HString s
  | JArray l =>
      HArray l ((fix go l : Forall P l :=
                   match l with
                   | [] => Forall_nil_2 _
                   | x :: r => Forall_cons_2 _ _ _ (json_nested_ind x) (go r)
                   end) l)
  | JObject m =>
      HObject m ((fix go l : Forall (λ kv, P kv.2) l :=
                    match l with
                    | [] => Forall_nil_2 _
                    | x :: r => Forall_cons_2 _ _ _ (json_nested_ind x.2) (go r)
                    end) m)
  end.
End json_ind.

Lemma list_max_elem (x : nat) l : x ∈ l → (x ≤ list_max l)%nat.
Proof.
  intros Hin. pose proof (proj1 (list_max_le l (list_max l)) (Nat.le_refl _)) as H.
  rewrite Forall_forall in H. by apply H.
Qed.

Lemma jdepth_array v l : v ∈ l → (jdepth v < jdepth (JArray l))%nat.
Proof.
  intros Hin. simpl. apply Nat.lt_succ_r, list_max_elem.
  apply list_elem_of_fmap. eauto.
Qed.

Lemma jdepth_object k v m : (k, v) ∈ m → (jdepth v < jdepth (JObject m))%nat.
Proof.
  intros Hin. simpl. apply Nat.lt_succ_r, list_max_elem.
  apply list_elem_of_fmap. by exists (k, v).
Qed.

Lemma jdepth_get k v w : jget k v = Some w → (jdepth w < jdepth v)%nat.
Proof.
  destruct v; simpl; try done. intros H%bm_get_elem. by eapply jdepth_object.
Qed.

Lemma number_of_i64_as_i64 z : in_i64 z = true → number_as_i64 (number_of_i64 z) = Some z.
Proof.
  unfold in_i64, number_of_i64. intros [_ H]%andb_true_iff.
  destruct (z <? 0); simpl; [done|]. by rewrite H.
Qed.

Lemma checked_Some a z : checked a = Some z → z = a ∧ in_i64 z = true.
Proof. unfold checked. destruct (in_i64 a) eqn:E; naive_solver. Qed.

Lemma json_wf_get k v w : json_wf v → jget k v = Some w → json_wf w.
Proof.
  destruct 1 as [| | | | |m _ Hm]; simpl; try done. intros H%bm_get_elem.
  rewrite Forall_forall in Hm. by apply (Hm (k, w)).
Qed.
