(* ===== verification/Diagnostic.v ===== *)
(** * Diagnostics (yao/src/diagnostic.rs)

    Source locations and spans, the diagnostic record, and the failure record of
    the evaluator.  A message is kept as its format string and its arguments:
    rendering them ([Display] and [Debug]) is the only thing left out. *)

From stdpp Require Import base list gmap strings.
From S2P Require Import Prelude Types JsonValue.

Local Open Scope N_scope.

(** yao/src/diagnostic.rs:4-25 [DiagnosticCode]. *)
Inductive DiagnosticCode : Type :=
| InvalidCharacter
| InvalidEscape
| UnterminatedString
| UnexpectedClose
| UnclosedList
| EmptyInput
| MultipleTopLevelForms
| NestingLimit
| SourceLimit
| InvalidType
| DuplicateName
| RecursiveType
| RecursiveFunction
| TypeMismatch
| UnknownName
| UnknownOperator
| EffectEscape
| ResourceLimit.

(** yao/src/diagnostic.rs:29-34 [SourceLocation]. *)
Record SourceLocation : Type := mkLoc { byte : N; line : N; column : N }.

(** yao/src/diagnostic.rs:36-44 [SourceLocation::start]. *)
Definition loc_start : SourceLocation := mkLoc 0 1 1.

(** yao/src/diagnostic.rs:47-51 [SourceSpan]. *)
Record SourceSpan : Type := mkSpan { start : SourceLocation; end_ : SourceLocation }.

(** yao/src/diagnostic.rs:53-57 [SourceSpan::empty]. *)
Definition span_empty (at_ : SourceLocation) : SourceSpan := mkSpan at_ at_.

(** The arguments of a format string. *)
Inductive MsgArg : Type :=
| AStr (s : str)
| AStrs (l : list str)
| ANum (n : N)
| ATy (t : Ty)
| AEffects (e : EffectSet)
| AJson (v : Json)
| AMsg (m : Message)
with Message : Type :=
| Msg (template : string) (args : list MsgArg).

Definition msg_template (m : Message) : string := let 'Msg t _ := m in t.

(** yao/src/diagnostic.rs:59-68 [Diagnostic]. *)
Record Diagnostic : Type := mkDiagnostic {
  code : DiagnosticCode;
  message : Message;
  primary : SourceSpan;
  related : list SourceSpan;
  function : option str
}.

(** yao/src/diagnostic.rs:70-79 [Diagnostic::new]. *)
Definition diagnostic_new (c : DiagnosticCode) (m : Message) (p : SourceSpan) : Diagnostic :=
  mkDiagnostic c m p [] None.

(** yao/src/diagnostic.rs:81-84 [Diagnostic::with_related]. *)
Definition with_related (d : Diagnostic) (span : SourceSpan) : Diagnostic :=
  mkDiagnostic d.(code) d.(message) d.(primary) (d.(related) ++ [span]) d.(function).

(** yao/src/sema.rs:3873-3875 [diag]. *)
Definition diag (c : DiagnosticCode) (template : string) (args : list MsgArg)
    (span : SourceSpan) : Diagnostic :=
  diagnostic_new c (Msg template args) span.

(** yao/src/eval.rs:12-16 [EvalFailure]. *)
Record EvalFailure : Type := mkFailure { fmessage : Message; fspan : SourceSpan }.

(** yao/src/sema.rs:4255-4257 [empty_span]. *)
Definition empty_span : SourceSpan := span_empty loc_start.

(** ** Positions *)

(** The position after reading one character; [Lexer::bump] moves this way. *)
Definition advance (l : SourceLocation) (c : char) : SourceLocation :=
  if c =? 10 then mkLoc (byte l + len_utf8 c) (line l + 1) 1
  else mkLoc (byte l + len_utf8 c) (line l) (column l + 1).

(** The position after reading a whole string. *)
Definition advance_str (l : SourceLocation) (s : str) : SourceLocation :=
  fold_left advance s l.

Lemma advance_str_app l a b : advance_str l (a ++ b) = advance_str (advance_str l a) b.
Proof. apply fold_left_app. Qed.

Lemma advance_str_byte l s : byte (advance_str l s) = byte l + byte_len s.
Proof.
  revert l; induction s as [|c s IH]; intros l; simpl; [by rewrite N.add_0_r|].
  rewrite IH. unfold advance. case_match; simpl; lia.
Qed.
