(* ===== verification/Syntax.v ===== *)
(** * Concrete syntax (yao/src/syntax.rs)

    The lexer and the stack parser of S-expressions with source spans.  The
    lexer's state is the unread suffix of the source and the current location
    (the byte cursor of the source is [location.byte], see [bump]).  Loops whose
    recursion is not structural take fuel; [parse_loop_total] shows the fuel the
    entry point supplies is always enough. *)

From stdpp Require Import base list gmap strings.
From S2P Require Import Prelude Types JsonValue Diagnostic.

Local Open Scope N_scope.

(** ** Data *)

(** yao/src/syntax.rs:5-21 [ParseLimits]. *)
Record ParseLimits : Type := mkParseLimits { max_source_bytes : N; max_nesting : N }.
Definition parse_limits_default : ParseLimits := mkParseLimits (256 * 1024) 128.

(** yao/src/syntax.rs:23-28 [AtomKind]. *)
Inductive AtomKind : Type := Symbol | StringAtom.

(** yao/src/syntax.rs:30-35 [Atom]. *)
Record Atom : Type := mkAtom { akind : AtomKind; avalue : str; aspan : SourceSpan }.

(** yao/src/syntax.rs:37-42 [Expr]. *)
Inductive Expr : Type :=
| EAtom (a : Atom)
| EList (items : list Expr) (span : SourceSpan).

(** yao/src/syntax.rs:45-50 [Expr::span]. *)
Definition espan (e : Expr) : SourceSpan :=
  match e with EAtom a => a.(aspan) | EList _ sp => sp end.

(** yao/src/syntax.rs:52-61 [Expr::as_symbol]. *)
Definition as_symbol (e : Expr) : option str :=
  match e with
  | EAtom a => match a.(akind) with Symbol => Some a.(avalue) | StringAtom => None end
  | EList _ _ => None
  end.

(** yao/src/syntax.rs:63-68 [Expr::as_list]. *)
Definition as_list (e : Expr) : option (list Expr) :=
  match e with EList items _ => Some items | EAtom _ => None end.

(** yao/src/syntax.rs:71-76 [TokenKind]. *)
Inductive TokenKind : Type :=
| TkOpen
| TkClose
| TkAtom (k : AtomKind) (v : str).

(** yao/src/syntax.rs:78-82 [Token]. *)
Record Token : Type := mkToken { tkind : TokenKind; tspan : SourceSpan }.

(** yao/src/syntax.rs:84-97 [Lexer]. *)
Record Lexer : Type := mkLexer { rest : str; location : SourceLocation }.
Definition lexer_new (source : str) : Lexer := mkLexer source loc_start.

(** ** Character classes *)

(** The characters a symbol may contain (the loop condition of [symbol_token]). *)
Definition is_symbol_char (c : char) : bool :=
  negb (is_whitespace c) && negb ((c =? 40) || (c =? 41) || (c =? 59) || (c =? 34)).

(** ** Lexer *)

(** yao/src/syntax.rs:99-101 [Lexer::peek]. *)
Definition peek (lx : Lexer) : option char := head lx.(rest).

(** yao/src/syntax.rs:103-114 [Lexer::bump]. *)
Definition bump (lx : Lexer) : option char * Lexer :=
  match lx.(rest) with
  | [] => (None, lx)
  | c :: r => (Some c, mkLexer r (advance lx.(location) c))
  end.

(** [while self.peek().is_some_and(p) { self.bump(); }], also returning what was
    read. *)
Fixpoint bump_while (p : char → bool) (r : str) (loc : SourceLocation) : str * Lexer :=
  match r with
  | c :: r' =>
      if p c then let '(w, lx) := bump_while p r' (advance loc c) in (c :: w, lx)
      else ([], mkLexer r loc)
  | [] => ([], mkLexer [] loc)
  end.

(** yao/src/syntax.rs:116-128 [Lexer::skip_trivia].  Each round of the outer loop
    reads at least the [;], so the length of the input is enough fuel. *)
Fixpoint skip_trivia_loop (fuel : nat) (lx : Lexer) : Lexer :=
  match fuel with
  | O => lx
  | S n =>
      let '(_, lx1) := bump_while is_whitespace lx.(rest) lx.(location) in
      match peek lx1 with
      | Some c =>
          if c =? 59 then
            let '(_, lx2) := bump_while (λ c, negb (c =? 10)) lx1.(rest) lx1.(location) in
            skip_trivia_loop n lx2
          else lx1
      | None => lx1
      end
  end.
Definition skip_trivia (lx : Lexer) : Lexer := skip_trivia_loop (S (length lx.(rest))) lx.
Arguments skip_trivia : simpl never.

Definition starts_with_block (r : str) : bool :=
  match r with
  | a :: b :: c :: _ => (a =? 34) && (b =? 34) && (c =? 34)
  | _ => false
  end.
Arguments starts_with_block : simpl never.

(** yao/src/syntax.rs:168-194 [Lexer::string_token], the triple-quoted loop. *)
Fixpoint block_string (st : SourceLocation) (acc : str) (r : str) (loc : SourceLocation)
    : result Diagnostic (Token * Lexer) :=
  match r with
  | [] =>
      Err (diagnostic_new UnterminatedString
             (Msg "unterminated triple-quoted block string" []) (mkSpan st loc))
  | c :: r' =>
      if starts_with_block r then
        let lx := mkLexer (drop 3 r) (advance_str loc (take 3 r)) in
        Ok (mkToken (TkAtom StringAtom (rev acc)) (mkSpan st lx.(location)), lx)
      else block_string st (c :: acc) r' (advance loc c)
  end.

(** The decoded character of an escape. *)
Definition unescape (c : char) : option char :=
  if c =? 92 then Some 92 else if c =? 34 then Some 34 else if c =? 110 then Some 10
  else if c =? 114 then Some 13 else if c =? 116 then Some 9 else None.

(** yao/src/syntax.rs:197-266 [Lexer::string_token], the escaped-string loop. *)
Fixpoint plain_string (st : SourceLocation) (acc : str) (r : str) (loc : SourceLocation)
    : result Diagnostic (Token * Lexer) :=
  match r with
  | [] =>
      Err (diagnostic_new UnterminatedString (Msg "unterminated string literal" [])
             (mkSpan st loc))
  | c :: r' =>
      let loc' := advance loc c in
      if c =? 34 then
        Ok (mkToken (TkAtom StringAtom (rev acc)) (mkSpan st loc'), mkLexer r' loc')
      else if c =? 92 then
        let escape_start := mkLoc (byte loc' - 1) (line loc') (column loc' - 1) in
        match r' with
        | [] =>
            Err (diagnostic_new UnterminatedString
                   (Msg "unterminated string after escape" []) (mkSpan st loc'))
        | other :: r'' =>
            let loc'' := advance loc' other in
            match unescape other with
            | Some escaped => plain_string st (escaped :: acc) r'' loc''
            | None =>
                Err (diagnostic_new InvalidEscape
                       (Msg "unknown string escape '\{other}'" [AStr [other]])
                       (mkSpan escape_start loc''))
            end
        end
      else if (c =? 10) || (c =? 13) then
        Err (diagnostic_new UnterminatedString
               (Msg "unescaped newline in string literal" []) (mkSpan st loc'))
      else plain_string st (c :: acc) r' loc'
  end.

(** yao/src/syntax.rs:162-267 [Lexer::string_token]. *)
Definition string_token (st : SourceLocation) (lx : Lexer)
    : result Diagnostic (Token * Lexer) :=
  if starts_with_block lx.(rest) then
    block_string st [] (drop 3 lx.(rest)) (advance_str lx.(location) (take 3 lx.(rest)))
  else
    let '(_, lx1) := bump lx in
    plain_string st [] lx1.(rest) lx1.(location).

(** yao/src/syntax.rs:269-298 [Lexer::symbol_token]. *)
Definition symbol_token (st : SourceLocation) (lx : Lexer)
    : result Diagnostic (Token * Lexer) :=
  let '(w, lx1) := bump_while is_symbol_char lx.(rest) lx.(location) in
  match w with
  | [] =>
      let '(_, lx2) := bump lx1 in
      Err (diagnostic_new InvalidCharacter
             (Msg "unexpected character at byte {}" [ANum (byte st)])
             (mkSpan st lx2.(location)))
  | _ => Ok (mkToken (TkAtom Symbol w) (mkSpan st lx1.(location)), lx1)
  end.

(** yao/src/syntax.rs:130-160 [Lexer::next_token]. *)
Definition next_token (lx0 : Lexer) : result Diagnostic (option Token * Lexer) :=
  let lx := skip_trivia lx0 in
  let st := lx.(location) in
  match peek lx with
  | None => Ok (None, lx)
  | Some current =>
      if current =? 40 then
        let '(_, lx1) := bump lx in
        Ok (Some (mkToken TkOpen (mkSpan st lx1.(location))), lx1)
      else if current =? 41 then
        let '(_, lx1) := bump lx in
        Ok (Some (mkToken TkClose (mkSpan st lx1.(location))), lx1)
      else if current =? 34 then
        tl ← string_token st lx; Ok (Some tl.1, tl.2)
      else
        tl ← symbol_token st lx; Ok (Some tl.1, tl.2)
  end.

Arguments next_token : simpl never.

(** ** Parser *)

(** yao/src/syntax.rs:301-304 [ListBuilder]. *)
Record ListBuilder : Type := mkBuilder { open_span : SourceSpan; bitems : list Expr }.

(** yao/src/syntax.rs:396-402 [push_expression].  The stack is listed from its top. *)
Definition push_expression (stack : list ListBuilder) (forms : list Expr) (e : Expr)
    : list ListBuilder * list Expr :=
  match stack with
  | parent :: stack' => (mkBuilder parent.(open_span) (parent.(bitems) ++ [e]) :: stack', forms)
  | [] => ([], forms ++ [e])
  end.

(** yao/src/syntax.rs:322-375 [parse_all], the token loop.  [None] is fuel
    exhaustion. *)
Fixpoint parse_loop (fuel : nat) (limits : ParseLimits) (lx : Lexer)
    (stack : list ListBuilder) (forms : list Expr) : option (result Diagnostic (list Expr)) :=
  match fuel with
  | O => None
  | S n =>
      match next_token lx with
      | Err d => Some (Err d)
      | Ok (None, lx') =>
          match last stack with
          | Some builder =>
              Some (Err (diagnostic_new UnclosedList (Msg "unclosed list" [])
                           (mkSpan (start builder.(open_span)) lx'.(location))))
          | None => Some (Ok forms)
          end
      | Ok (Some token, lx') =>
          match token.(tkind) with
          | TkOpen =>
              if limits.(max_nesting) <=? len stack then
                Some (Err (diagnostic_new NestingLimit
                             (Msg "syntax nesting exceeds {}" [ANum limits.(max_nesting)])
                             token.(tspan)))
              else parse_loop n limits lx' (mkBuilder token.(tspan) [] :: stack) forms
          | TkClose =>
              match stack with
              | [] =>
                  Some (Err (diagnostic_new UnexpectedClose
                               (Msg "unexpected closing parenthesis" []) token.(tspan)))
              | builder :: stack' =>
                  let expression :=
                    EList builder.(bitems)
                      (mkSpan (start builder.(open_span)) (end_ token.(tspan))) in
                  let '(stack'', forms') := push_expression stack' forms expression in
                  parse_loop n limits lx' stack'' forms'
              end
          | TkAtom kind value =>
              let '(stack', forms') :=
                push_expression stack forms (EAtom (mkAtom kind value token.(tspan))) in
              parse_loop n limits lx' stack' forms'
          end
      end
  end.

(** Never returned: [parse_loop_total]. *)
Definition out_of_fuel_diagnostic : Diagnostic :=
  diagnostic_new ResourceLimit (Msg "" []) (span_empty loc_start).

(** yao/src/syntax.rs:306-376 [parse_all]. *)
Definition parse_all (source : str) (limits : ParseLimits) : result Diagnostic (list Expr) :=
  if limits.(max_source_bytes) <? byte_len source then
    Err (diagnostic_new SourceLimit
           (Msg "source contains {} bytes; the limit is {}"
              [ANum (byte_len source); ANum limits.(max_source_bytes)])
           (span_empty loc_start))
  else
    default (Err out_of_fuel_diagnostic)
      (parse_loop (S (length source)) limits (lexer_new source) [] []).

(** yao/src/syntax.rs:378-394 [parse_one]. *)
Definition parse_one (source : str) (limits : ParseLimits) : result Diagnostic Expr :=
  forms ← parse_all source limits;
  match forms with
  | [] =>
      Err (diagnostic_new EmptyInput (Msg "expected one top-level artifact" [])
             (span_empty loc_start))
  | [form] => Ok form
  | first :: second :: _ =>
      Err (with_related
             (diagnostic_new MultipleTopLevelForms
                (Msg "expected one top-level artifact, found {}" [ANum (len forms)])
                (espan second))
             (espan first))
  end.
