(* ===== verification/SyntaxFacts.v ===== *)
(** * Correctness of the lexer and parser

    What a token and a parsed form say about the text they came from: exact
    spans, lexical shape, bounded nesting, and termination of the token loop. *)

From stdpp Require Import base list gmap strings.
From S2P Require Import Prelude Types JsonValue Diagnostic Syntax.

Local Open Scope N_scope.

(** ** Specification *)

(** Reading the text [w] moves the lexer from [lx] to [lx']. *)
Definition reads (lx : Lexer) (w : str) (lx' : Lexer) : Prop :=
  lx.(rest) = w ++ lx'.(rest) ∧ lx'.(location) = advance_str lx.(location) w.

(** The text of an atom. *)
Definition atom_text (k : AtomKind) (v w : str) : Prop :=
  match k with
  | Symbol => w = v ∧ v ≠ [] ∧ Forall (λ c, is_symbol_char c = true) v
  | StringAtom => ∃ b, w = 34 :: b ++ [34]
  end.

Definition token_text (k : TokenKind) (w : str) : Prop :=
  match k with
  | TkOpen => w = [40]
  | TkClose => w = [41]
  | TkAtom k v => atom_text k v w
  end.

(** The span of the text [w] that follows [pre] in the source. *)
Definition span_of (pre w : str) : SourceSpan :=
  mkSpan (advance_str loc_start pre) (advance_str loc_start (pre ++ w)).

(** Every node carries the span of exactly the text it was read from. *)
Inductive spanned (src : str) : Expr → Prop :=
| spanned_atom k v pre w post :
    src = pre ++ w ++ post → atom_text k v w →
    spanned src (EAtom (mkAtom k v (span_of pre w)))
| spanned_list items pre mid post :
    src = pre ++ (40 :: mid ++ [41]) ++ post → Forall (spanned src) items →
    spanned src (EList items (span_of pre (40 :: mid ++ [41]))).

(** Nesting of lists: an atom is flat, the empty list has depth one. *)
Fixpoint depth (e : Expr) : N :=
  match e with
  | EAtom _ => 0
  | EList items _ => 1 + fold_right (λ x m, N.max (depth x) m) 0 items
  end.

Section expr_ind.
Context (P : Expr → Prop).
Context (HAtom : ∀ a, P (EAtom a)) (HList : ∀ items sp, Forall P items → P (EList items sp)).

Fixpoint expr_nested_ind (e : Expr) : P e :=
  match e with
  | EAtom a => HAtom a
  | EList items sp =>
      HList items sp ((fix go l : Forall P l :=
                         match l with
                         | [] => Forall_nil_2 _
                         | x :: r => Forall_cons_2 _ _ _ (expr_nested_ind x) (go r)
                         end) items)
  end.
End expr_ind.

(** ** Lexer *)

Lemma reads_nil lx : reads lx [] lx.
Proof. done. Qed.

Lemma reads_app lx a lx' b lx'' :
  reads lx a lx' → reads lx' b lx'' → reads lx (a ++ b) lx''.
Proof.
  intros [H1 H2] [H3 H4]. split; [by rewrite H1, H3, app_assoc|].
  by rewrite H4, H2, advance_str_app.
Qed.

Lemma bump_while_reads p r loc w lx :
  bump_while p r loc = (w, lx) →
  reads (mkLexer r loc) w lx ∧ Forall (λ c, p c = true) w ∧
  match lx.(rest) with c :: _ => p c = false | [] => True end.
Proof.
  revert loc w lx; induction r as [|c r IH]; intros loc w lx; simpl.
  { intros [= <- <-]. split; [apply reads_nil|done]. }
  destruct (p c) eqn:Hc.
  - destruct (bump_while p r (advance loc c)) as [w' lx'] eqn:E. intros [= <- <-].
    destruct (IH _ _ _ E) as ([H1 H2] & H3 & H4). simpl in *.
    repeat split; [simpl; by rewrite H1|done|by constructor|done].
  - intros [= <- <-]. split; [apply reads_nil|done].
Qed.

Lemma skip_trivia_loop_reads n lx : ∃ w, reads lx w (skip_trivia_loop n lx).
Proof.
  revert lx; induction n as [|n IH]; intros lx; simpl; [exists []; apply reads_nil|].
  destruct (bump_while is_whitespace _ _) as [w1 lx1] eqn:E1.
  destruct (bump_while_reads _ _ _ _ _ E1) as (R1 & _ & _).
  assert (reads lx w1 lx1) as R1' by (destruct lx; exact R1). clear R1.
  destruct (peek lx1) as [c|]; [|by eauto]. destruct (c =? 59); [|by eauto].
  destruct (bump_while _ _ (location lx1)) as [w2 lx2] eqn:E2.
  destruct (bump_while_reads _ _ _ _ _ E2) as (R2 & _ & _).
  destruct (IH lx2) as [w3 R3]. exists (w1 ++ w2 ++ w3).
  eapply reads_app; [done|]. eapply reads_app; [|done]. by destruct lx1.
Qed.

Lemma reads_length lx w lx' : reads lx w lx' → length (rest lx) = (length w + length (rest lx'))%nat.
Proof. intros [-> _]. apply length_app. Qed.

(** With enough fuel, what follows the trivia is neither blank nor a comment. *)
Lemma skip_trivia_loop_done n lx :
  (length (rest lx) < n)%nat →
  match peek (skip_trivia_loop n lx) with
  | Some c => is_whitespace c = false ∧ c ≠ 59
  | None => True
  end.
Proof.
  revert lx; induction n as [|n IH]; intros lx Hn; simpl; [lia|].
  destruct (bump_while is_whitespace _ _) as [w1 lx1] eqn:E1.
  destruct (bump_while_reads _ _ _ _ _ E1) as (R1 & _ & Hstop).
  apply reads_length in R1. simpl in R1.
  unfold peek. destruct (rest lx1) as [|c r] eqn:Er; simpl; [by rewrite Er|].
  destruct (N.eqb_spec c 59) as [->|Hne]; [|by rewrite Er].
  destruct (bump_while _ r _) as [w2 lx2] eqn:E2.
  destruct (bump_while_reads _ _ _ _ _ E2) as (R2%reads_length & _ & _).
  apply IH. simpl in *. lia.
Qed.

Lemma skip_trivia_reads lx : ∃ w, reads lx w (skip_trivia lx).
Proof. apply skip_trivia_loop_reads. Qed.

Lemma skip_trivia_done lx :
  match peek (skip_trivia lx) with
  | Some c => is_whitespace c = false ∧ c ≠ 59
  | None => True
  end.
Proof. apply skip_trivia_loop_done. lia. Qed.

Lemma starts_with_block_inv r :
  starts_with_block r = true → ∃ r', r = 34 :: 34 :: 34 :: r'.
Proof.
  destruct r as [|a [|b [|c r]]]; unfold starts_with_block; try done.
  rewrite !andb_true_iff, !N.eqb_eq. intros [[-> ->] ->]. by eauto.
Qed.

Lemma block_string_reads st acc r loc tok lx :
  block_string st acc r loc = Ok (tok, lx) →
  ∃ w v, reads (mkLexer r loc) (w ++ [34]) lx ∧
    tok = mkToken (TkAtom StringAtom v) (mkSpan st (location lx)).
Proof.
  revert acc loc; induction r as [|c r IH]; intros acc loc; simpl; [done|].
  destruct (starts_with_block (c :: r)) eqn:E.
  - intros [= <- <-]. apply starts_with_block_inv in E as [r' [= -> ->]].
    exists [34; 34], (rev acc). simpl. split; done.
  - intros (w & v & [H1 H2] & Ht)%IH. exists (c :: w), v. simpl in *.
    split; [|done]. split; simpl; [by rewrite H1|done].
Qed.

Lemma plain_string_reads st acc r loc tok lx :
  plain_string st acc r loc = Ok (tok, lx) →
  ∃ w v, reads (mkLexer r loc) (w ++ [34]) lx ∧
    tok = mkToken (TkAtom StringAtom v) (mkSpan st (location lx)).
Proof.
  revert acc loc.
  induction r as [r IH] using list_length_ind; intros acc loc.
  destruct r as [|c r]; simpl; [done|].
  destruct (N.eqb_spec c 34) as [->|_].
  { intros [= <- <-]. by exists [], (rev acc). }
  destruct (c =? 92).
  - destruct r as [|o r]; [done|]. destruct (unescape o); [|done].
    intros (w & v & [H1 H2] & Ht)%IH; [|simpl; lia]. exists (c :: o :: w), v.
    simpl in *. split; [|done]. split; simpl; [by rewrite H1|done].
  - destruct (_ || _); [done|].
    intros (w & v & [H1 H2] & Ht)%IH; [|simpl; lia]. exists (c :: w), v.
    simpl in *. split; [|done]. split; simpl; [by rewrite H1|done].
Qed.

Lemma string_token_reads st lx tok lx' :
  peek lx = Some 34 → string_token st lx = Ok (tok, lx') →
  ∃ w v, reads lx w lx' ∧ atom_text StringAtom v w ∧
    tok = mkToken (TkAtom StringAtom v) (mkSpan st (location lx')).
Proof.
  unfold peek, string_token. destruct lx as [r loc]; simpl. intros Hp.
  destruct (starts_with_block r) eqn:E.
  - apply starts_with_block_inv in E as [r' ->]. simpl.
    intros (w & v & [H1 H2] & Ht)%block_string_reads. simpl in *.
    rewrite drop_0 in H1.
    exists (34 :: (34 :: 34 :: w) ++ [34]), v. split_and!; [|by eexists|done].
    split; simpl; [by rewrite H1|done].
  - destruct r as [|c r]; [done|]. injection Hp as ->. simpl.
    intros (w & v & [H1 H2] & Ht)%plain_string_reads. simpl in *.
    exists (34 :: w ++ [34]), v. split_and!; [|by eexists|done].
    split; simpl; [by rewrite H1|done].
Qed.

Lemma symbol_token_reads st lx tok lx' :
  symbol_token st lx = Ok (tok, lx') →
  ∃ w, reads lx w lx' ∧ atom_text Symbol w w ∧
    tok = mkToken (TkAtom Symbol w) (mkSpan st (location lx')).
Proof.
  unfold symbol_token. destruct (bump_while _ _ _) as [w lx1] eqn:E.
  destruct (bump_while_reads _ _ _ _ _ E) as (R & Hw & _).
  destruct w as [|c w]; [by destruct (bump lx1)|]. intros [= <- <-].
  exists (c :: w). split_and!; [by destruct lx|done..].
Qed.

(** A token: its span is the span of its text, which follows the trivia. *)
Lemma next_token_reads lx tok lx' :
  next_token lx = Ok (Some tok, lx') →
  ∃ triv w, reads lx (triv ++ w) lx' ∧ token_text (tkind tok) w ∧
    tspan tok = mkSpan (advance_str (location lx) triv) (advance_str (location lx) (triv ++ w)).
Proof.
  unfold next_token. destruct (skip_trivia_reads lx) as [triv R].
  pose proof R as [_ Hloc]. set (lx1 := skip_trivia lx) in *.
  assert (∀ w lx2, reads lx1 w lx2 →
            reads lx (triv ++ w) lx2 ∧
            location lx2 = advance_str (location lx) (triv ++ w)) as Hfin.
  { intros w lx2 R2. pose proof (reads_app _ _ _ _ _ R R2) as R3. split; [done|apply R3]. }
  destruct (peek lx1) as [c|] eqn:Hp; [|done].
  assert (∃ r, rest lx1 = c :: r) as [r Hr].
  { unfold peek in Hp. destruct (rest lx1); [done|]. injection Hp as ->. by eauto. }
  assert (reads lx1 [c] (mkLexer r (advance (location lx1) c))) as Rc by (split; simpl; done).
  unfold bump. rewrite Hr.
  destruct (N.eqb_spec c 40) as [->|_].
  { intros [= <- <-]. exists triv, [40]. apply Hfin in Rc as [Rc Hl]. simpl in *.
    split_and!; [done..|]. by rewrite Hl, Hloc. }
  destruct (N.eqb_spec c 41) as [->|_].
  { intros [= <- <-]. exists triv, [41]. apply Hfin in Rc as [Rc Hl]. simpl in *.
    split_and!; [done..|]. by rewrite Hl, Hloc. }
  destruct (N.eqb_spec c 34) as [->|_]; intros H; res_inv; destruct a as [t lx2]; simplify_eq/=.
  - apply string_token_reads in Ha as (w & v & R2 & Ht & ->); [|done].
    exists triv, w. apply Hfin in R2 as [R2 Hl].
    split_and!; [exact R2|exact Ht|]. simpl. by rewrite Hl, Hloc.
  - apply symbol_token_reads in Ha as (w & R2 & Ht & ->).
    exists triv, w. apply Hfin in R2 as [R2 Hl].
    split_and!; [exact R2|exact Ht|]. simpl. by rewrite Hl, Hloc.
Qed.

(** A token consumes at least one character. *)
Lemma token_text_ne k w : token_text k w → w ≠ [].
Proof. destruct k as [| |[] v]; simpl; naive_solver. Qed.

Lemma next_token_shorter lx tok lx' :
  next_token lx = Ok (Some tok, lx') → (length (rest lx') < length (rest lx))%nat.
Proof.
  intros (triv & w & R%reads_length & Hw%token_text_ne & _)%next_token_reads.
  rewrite R, length_app. destruct w; [done|]. simpl. lia.
Qed.

Lemma next_token_end lx lx' : next_token lx = Ok (None, lx') → ∃ w, reads lx w lx' ∧ rest lx' = [].
Proof.
  unfold next_token. destruct (skip_trivia_reads lx) as [triv R].
  set (lx1 := skip_trivia lx) in *. unfold peek.
  destruct (rest lx1) as [|c r] eqn:Hr; simpl.
  { intros [= <-]. eauto. }
  unfold bump; rewrite Hr. repeat case_match; intros; res_inv; naive_solver.
Qed.

(** ** Parser *)

(** The token loop always has enough fuel. *)
Lemma parse_loop_total n limits lx stack forms :
  (length (rest lx) < n)%nat → is_Some (parse_loop n limits lx stack forms).
Proof.
  revert lx stack forms; induction n as [|n IH]; intros lx stack forms Hn; [lia|].
  simpl. destruct (next_token lx) as [[[tok|] lx']|d] eqn:Ht; [| |by eauto].
  - apply next_token_shorter in Ht.
    destruct (tkind tok); repeat case_match; try (by eauto); apply IH; lia.
  - destruct (last stack); by eauto.
Qed.

(** More fuel does not change the answer. *)
Lemma parse_loop_mono n m limits lx stack forms r :
  parse_loop n limits lx stack forms = Some r →
  parse_loop (n + m) limits lx stack forms = Some r.
Proof.
  revert lx stack forms; induction n as [|n IH]; intros lx stack forms; [done|]. simpl.
  destruct (next_token lx) as [[[tok|] lx']|d]; [|done..].
  destruct (tkind tok); repeat case_match; try done; apply IH.
Qed.

(** *** Spans *)

Definition builder_ok (src consumed : str) (b : ListBuilder) : Prop :=
  ∃ pre mid, consumed = pre ++ 40 :: mid ∧ open_span b = span_of pre [40] ∧
    Forall (spanned src) (bitems b).

Record parse_inv (src : str) (lx : Lexer) (stack : list ListBuilder) (forms : list Expr)
    (consumed : str) : Prop := {
  inv_src : src = consumed ++ rest lx;
  inv_loc : location lx = advance_str loc_start consumed;
  inv_stack : Forall (builder_ok src consumed) stack;
  inv_forms : Forall (spanned src) forms
}.

Lemma builder_ok_app src consumed w b :
  builder_ok src consumed b → builder_ok src (consumed ++ w) b.
Proof.
  intros (pre & mid & -> & Ho & Hi). exists pre, (mid ++ w). by rewrite <- app_assoc.
Qed.

Lemma push_expression_ok (P : Expr → Prop) (Q : ListBuilder → Prop) stack forms e stack' forms' :
  push_expression stack forms e = (stack', forms') →
  (∀ b, Q b → Q (mkBuilder (open_span b) (bitems b ++ [e]))) →
  P e → Forall Q stack → Forall P forms → Forall Q stack' ∧ Forall P forms'.
Proof.
  intros Hp HQ He Hs Hf. destruct Hs as [|b stack Hb Hs]; simplify_eq/=; split; try done.
  - apply Forall_app_2; [done|by constructor].
  - constructor; [by apply HQ|done].
Qed.

Lemma parse_inv_push src lx stack forms consumed e stack' forms' :
  parse_inv src lx stack forms consumed → spanned src e →
  push_expression stack forms e = (stack', forms') → parse_inv src lx stack' forms' consumed.
Proof.
  intros [H1 H2 H3 H4] He Hp.
  destruct (push_expression_ok (spanned src) (builder_ok src consumed) _ _ _ _ _ Hp)
    as [??]; [|done..|by constructor].
  intros b (pre & mid & -> & Ho & Hi). exists pre, mid. split_and!; [done..|].
  apply Forall_app_2; [done|by constructor].
Qed.

Lemma parse_inv_read src lx stack forms consumed w lx' :
  parse_inv src lx stack forms consumed → reads lx w lx' →
  parse_inv src lx' stack forms (consumed ++ w).
Proof.
  intros [H1 H2 H3 H4] [R1 R2]. constructor; [|..|done].
  - by rewrite H1, R1, app_assoc.
  - by rewrite R2, H2, advance_str_app.
  - eapply Forall_impl; [exact H3|]. intros b. apply builder_ok_app.
Qed.

(** The token just read, as a slice of the source. *)
Lemma parse_inv_token src lx stack forms consumed tok lx' :
  parse_inv src lx stack forms consumed → next_token lx = Ok (Some tok, lx') →
  ∃ pre w, parse_inv src lx' stack forms (pre ++ w) ∧ token_text (tkind tok) w ∧
    tspan tok = span_of pre w ∧ ∃ t, pre = consumed ++ t.
Proof.
  intros Hinv (triv & w & R & Hw & Hsp)%next_token_reads.
  exists (consumed ++ triv), w. rewrite <- app_assoc. split_and!; [|done| |by eexists].
  - by eapply parse_inv_read.
  - rewrite Hsp, (inv_loc _ _ _ _ _ Hinv). unfold span_of.
    by rewrite <- !advance_str_app, app_assoc.
Qed.

Lemma parse_loop_spanned n limits src lx stack forms consumed out :
  parse_inv src lx stack forms consumed →
  parse_loop n limits lx stack forms = Some (Ok out) → Forall (spanned src) out.
Proof.
  revert lx stack forms consumed.
  induction n as [|n IH]; intros lx stack forms consumed Hinv; [done|]. simpl.
  destruct (next_token lx) as [[[tok|] lx']|d] eqn:Ht; [| |done].
  2: { destruct (last stack); [done|]. intros [= <-]. apply Hinv. }
  destruct (parse_inv_token _ _ _ _ _ _ _ Hinv Ht) as (pre & w & Hinv' & Htext & Hsp & t & Hpre).
  pose proof (inv_src _ _ _ _ _ Hinv') as Hsrc.
  destruct (tkind tok) as [| |k v] eqn:Hk; simpl in Htext; [subst w|subst w|].
  - case_match; [done|]. apply IH with (consumed := pre ++ [40]).
    destruct Hinv' as [H1 H2 H3 H4]. constructor; [done..| |done].
    constructor; [|done]. exists pre, []. simpl. split_and!; [done..|constructor].
  - destruct stack as [|b stack]; [done|].
    destruct (push_expression _ _ _) as [stack' forms'] eqn:Hp.
    apply IH with (consumed := pre ++ [41]).
    destruct Hinv' as [H1 H2 [Hb Hs]%Forall_cons H4]. subst pre.
    assert (Hinv2 : parse_inv src lx' stack forms ((consumed ++ t) ++ [41]))
      by (by constructor).
    eapply parse_inv_push; [exact Hinv2| |exact Hp].
    assert (builder_ok src (consumed ++ t) b) as (pre' & mid & Hc & Ho & Hi).
    { apply builder_ok_app. by destruct Hinv as [_ _ [? _]%Forall_cons _]. }
    rewrite Ho, Hsp, Hc. simpl.
    change (advance_str loc_start pre') with (start (span_of pre' (40 :: mid ++ [41]))).
    replace ((pre' ++ 40 :: mid) ++ [41]) with (pre' ++ 40 :: mid ++ [41])
      by (by rewrite <- app_assoc).
    apply (spanned_list _ _ pre' mid (rest lx')); [|done].
    rewrite Hsrc, Hc, <- !app_assoc. simpl. by rewrite <- !app_assoc.
  - destruct (push_expression _ _ _) as [stack' forms'] eqn:Hp.
    apply IH with (consumed := pre ++ w).
    eapply parse_inv_push; [done| |exact Hp]. rewrite Hsp.
    eapply spanned_atom; [|done]. by rewrite Hsrc, <- app_assoc.
Qed.

(** *** Nesting *)

Lemma depth_list_le items sp n :
  Forall (λ e, depth e <= n) items → depth (EList items sp) <= 1 + n.
Proof. induction 1 as [|e items He Hi IH]; simpl in *; lia. Qed.

Fixpoint stack_nested (limit : N) (stack : list ListBuilder) : Prop :=
  match stack with
  | [] => True
  | b :: r => len stack <= limit ∧ Forall (λ e, depth e + len stack <= limit) (bitems b)
              ∧ stack_nested limit r
  end.

Lemma len_cons {A} (x : A) l : len (x :: l) = 1 + len l.
Proof. unfold len; simpl. lia. Qed.

Lemma push_expression_nested limit stack forms e stack' forms' :
  push_expression stack forms e = (stack', forms') →
  depth e + len stack <= limit → stack_nested limit stack →
  Forall (λ e, depth e <= limit) forms →
  stack_nested limit stack' ∧ Forall (λ e, depth e <= limit) forms'.
Proof.
  destruct stack as [|b stack]; intros [= <- <-] He Hs Hf; simpl in *.
  - split; [done|]. apply Forall_app_2; [done|]. constructor; [|done].
    unfold len in He; simpl in He. lia.
  - split; [|done]. destruct Hs as (Hl & Hb & Hs). rewrite !len_cons in *.
    split_and!; [done| |done]. apply Forall_app_2; [done|by constructor].
Qed.

Lemma parse_loop_nested n limits lx stack forms out :
  stack_nested (max_nesting limits) stack →
  Forall (λ e, depth e <= max_nesting limits) forms →
  parse_loop n limits lx stack forms = Some (Ok out) →
  Forall (λ e, depth e <= max_nesting limits) out.
Proof.
  revert lx stack forms; induction n as [|n IH]; intros lx stack forms Hs Hf; [done|]. simpl.
  destruct (next_token lx) as [[[tok|] lx']|d]; [| |done].
  2: { destruct (last stack); [done|]. by intros [= <-]. }
  destruct (tkind tok) as [| |k v].
  - destruct (N.leb_spec (max_nesting limits) (len stack)); [done|].
    apply IH; [|done]. simpl. rewrite len_cons. split_and!; [lia|constructor|done].
  - destruct stack as [|b stack]; [done|]. destruct Hs as (Hl & Hb & Hs).
    destruct (push_expression _ _ _) as [stack' forms'] eqn:Hp.
    rewrite len_cons in *. apply push_expression_nested with (limit := max_nesting limits) in Hp
      as [??]; [by apply IH| |done..].
    assert (depth (EList (bitems b) (mkSpan (start (open_span b)) (end_ (tspan tok))))
            <= 1 + (max_nesting limits - (1 + len stack))) as Hd; [|simpl in *; lia].
    apply depth_list_le. eapply Forall_impl; [exact Hb|]. simpl. lia.
  - destruct (push_expression _ _ _) as [stack' forms'] eqn:Hp.
    apply push_expression_nested with (limit := max_nesting limits) in Hp as [??];
      [by apply IH| |done..].
    simpl. destruct stack; simpl in Hs; [unfold len; simpl; lia|]. destruct Hs. lia.
Qed.

(** *** Lexical validity *)

(** Symbols are spelled with symbol characters: what printing relies on. *)
Inductive lexical : Expr → Prop :=
| lexical_symbol v sp :
    v ≠ [] → Forall (λ c, is_symbol_char c = true) v → lexical (EAtom (mkAtom Symbol v sp))
| lexical_string v sp : lexical (EAtom (mkAtom StringAtom v sp))
| lexical_list items sp : Forall lexical items → lexical (EList items sp).

Lemma spanned_lexical src e : spanned src e → lexical e.
Proof.
  induction e as [[k v sp]|items sp IH] using expr_nested_ind; inversion 1; subst.
  - destruct k; [|constructor]. match goal with Ht : atom_text _ _ _ |- _ =>
      destruct Ht as (_ & ? & ?) end. by constructor.
  - constructor. rewrite Forall_forall in *. naive_solver.
Qed.

Lemma parse_all_Ok source limits forms :
  parse_all source limits = Ok forms →
  byte_len source <= max_source_bytes limits ∧
  parse_loop (S (length source)) limits (lexer_new source) [] [] = Some (Ok forms).
Proof.
  unfold parse_all. destruct (N.ltb_spec (max_source_bytes limits) (byte_len source)); [done|].
  destruct (parse_loop_total (S (length source)) limits (lexer_new source) [] []) as [r Hr];
    [simpl; lia|].
  unfold lexer_new in *. rewrite Hr. simpl. intros ->. done.
Qed.

Lemma parse_all_spanned source limits forms :
  parse_all source limits = Ok forms → Forall (spanned source) forms.
Proof.
  intros [_ H]%parse_all_Ok. eapply (parse_loop_spanned _ _ _ _ _ _ []); [|exact H].
  by constructor.
Qed.

Lemma parse_all_nested source limits forms :
  parse_all source limits = Ok forms → Forall (λ e, depth e <= max_nesting limits) forms.
Proof. intros [_ H]%parse_all_Ok. by eapply parse_loop_nested in H. Qed.

Lemma parse_one_Ok source limits e :
  parse_one source limits = Ok e ↔ parse_all source limits = Ok [e].
Proof.
  unfold parse_one. destruct (parse_all source limits) as [[|f [|g fs]]|d]; simpl; naive_solver.
Qed.

(** *** Diagnostics *)

(** After the trivia, a character that opens no other token is a symbol
    character: the [InvalidCharacter] diagnostic is never produced. *)
Lemma next_token_valid lx d : next_token lx = Err d → code d ≠ InvalidCharacter.
Proof.
  unfold next_token. pose proof (skip_trivia_done lx) as Hdone.
  set (lx1 := skip_trivia lx) in *.
  destruct (peek lx1) as [c|] eqn:Hp; [|done]. destruct Hdone as [Hws Hsc].
  destruct (N.eqb_spec c 40) as [|H40]; [by destruct (bump lx1)|].
  destruct (N.eqb_spec c 41) as [|H41]; [by destruct (bump lx1)|].
  destruct (N.eqb_spec c 34) as [->|H34].
  - unfold string_token. case_match.
    + assert (∀ st acc r loc d, block_string st acc r loc = Err d → code d ≠ InvalidCharacter)
        as Hb.
      { clear. intros st acc r; revert acc; induction r as [|c r IH]; intros acc loc d; simpl;
          [by intros [= <-]|]. case_match; [done|]. apply IH. }
      destruct (block_string _ _ _ _) eqn:E; simpl; [done|]. intros [= ->]. by eapply Hb.
    + assert (∀ st acc r loc d, plain_string st acc r loc = Err d → code d ≠ InvalidCharacter)
        as Hb.
      { clear. intros st acc r; revert acc.
        induction r as [r IH] using list_length_ind; intros acc loc d.
        destruct r as [|c r]; simpl; [by intros [= <-]|].
        repeat case_match; intros E; simplify_eq/=; try done;
          eapply IH in E; simpl; (done || lia). }
      destruct (bump lx1). destruct (plain_string _ _ _ _) eqn:E; simpl; [done|].
      intros [= ->]. by eapply Hb.
  - unfold symbol_token, peek in *. destruct (rest lx1) as [|c' r]; [done|].
    injection Hp as ->. simpl.
    assert (is_symbol_char c = true) as Hc.
    { unfold is_symbol_char. rewrite Hws. rewrite <- N.eqb_neq in *.
      by rewrite H40, H41, H34, Hsc. }
    rewrite Hc. by destruct (bump_while _ _ _).
Qed.

(** ** Main theorems *)

(** Parsing terminates: the token loop started on a source always returns within one
    round per character and one more, and any larger bound returns the same answer. *)
Theorem parse_terminates source limits n :
  ∃ r, parse_loop (S (length source)) limits (lexer_new source) [] [] = Some r ∧
       parse_loop (S (length source) + n) limits (lexer_new source) [] [] = Some r.
Proof.
  destruct (parse_loop_total (S (length source)) limits (lexer_new source) [] []) as [r Hr];
    [simpl; lia|].
  exists r. split; [done|]. by apply parse_loop_mono.
Qed.

(** Every node of a parsed source carries the span of exactly the text it was read
    from: an atom the text that spells it, a list the text from its opening to its
    closing parenthesis, with lines, columns and byte offsets of that position. *)
Theorem parse_spans_exact source limits forms :
  parse_all source limits = Ok forms → Forall (spanned source) forms.
Proof. apply parse_all_spanned. Qed.

Lemma parse_spans_exact_witness :
  ∃ forms, parse_all s! "(add 1 x)" parse_limits_default = Ok forms ∧
           Forall (spanned s! "(add 1 x)") forms.
Proof.
  eexists. split; [vm_compute; reflexivity|].
  apply (parse_spans_exact _ parse_limits_default). vm_compute. reflexivity.
Defined.

(** The nesting of parsed expressions never exceeds the configured limit, and the
    source never exceeds the byte limit. *)
Theorem parse_limits_enforced source limits forms :
  parse_all source limits = Ok forms →
  (byte_len source <= max_source_bytes limits)%N ∧
  Forall (λ e, (depth e <= max_nesting limits)%N) forms.
Proof.
  intros Hp. split; [apply (parse_all_Ok _ _ _ Hp)|apply (parse_all_nested _ _ _ Hp)].
Qed.

Lemma parse_limits_enforced_witness :
  ∃ forms, parse_all s! "(a (b (c)) d)" (mkParseLimits 64 3) = Ok forms ∧
           (byte_len s! "(a (b (c)) d)" <= 64)%N ∧ Forall (λ e, (depth e <= 3)%N) forms.
Proof.
  eexists. split; [vm_compute; reflexivity|].
  apply (parse_limits_enforced _ (mkParseLimits 64 3)). vm_compute. reflexivity.
Defined.
