(* ===== verification/Canonical.v ===== *)
(** * Canonical source (yao/src/canonical.rs, concrete syntax)

    The task-stack printer of S-expressions, its recursive reference definition,
    and the parse/print round trip that makes the canonical encoding an identity
    of the syntax. *)

From stdpp Require Import base list gmap strings.
From S2P Require Import Prelude Types JsonValue Diagnostic Syntax SyntaxFacts.

Local Open Scope N_scope.

(** ** Definitions *)

(** yao/src/canonical.rs:88-92 [Task]. *)
Inductive Task : Type :=
| TaskExpr (e : Expr)
| TaskSpace
| TaskClose.

(** yao/src/canonical.rs:97-104 [push_string], one character. *)
Definition escape_char (c : char) : str :=
  if c =? 92 then [92; 92] else if c =? 34 then [92; 34] else if c =? 10 then [92; 110]
  else if c =? 13 then [92; 114] else if c =? 9 then [92; 116] else [c].

(** yao/src/canonical.rs:94-107 [push_string]. *)
Definition push_string (output value : str) : str :=
  output ++ 34 :: concat (map escape_char value) ++ [34].

(** The tasks of a list's items: a space before every item but the first. *)
Definition item_tasks (items : list Expr) : list Task :=
  match items with
  | [] => []
  | x :: r => TaskExpr x :: concat (map (λ y, [TaskSpace; TaskExpr y]) r)
  end.

(** yao/src/canonical.rs:11-31 [canonical_source], the loop over the task stack
    (listed from its top).  [None] is fuel exhaustion. *)
Fixpoint canonical_loop (fuel : nat) (tasks : list Task) (output : str) : option str :=
  match fuel with
  | O => None
  | S n =>
      match tasks with
      | [] => Some output
      | TaskExpr (EAtom a) :: tasks' =>
          match a.(akind) with
          | Symbol => canonical_loop n tasks' (output ++ a.(avalue))
          | StringAtom => canonical_loop n tasks' (push_string output a.(avalue))
          end
      | TaskExpr (EList items _) :: tasks' =>
          canonical_loop n (item_tasks items ++ TaskClose :: tasks') (output ++ [40])
      | TaskSpace :: tasks' => canonical_loop n tasks' (output ++ [32])
      | TaskClose :: tasks' => canonical_loop n tasks' (output ++ [41])
      end
  end.

(** Iterations the loop needs for one expression. *)
Fixpoint print_steps (e : Expr) : nat :=
  match e with
  | EAtom _ => 1
  | EList items _ => 2 + list_sum (map print_steps items) + pred (length items)
  end.

(** yao/src/canonical.rs:8-32 [canonical_source]. *)
Definition canonical_source (e : Expr) : str :=
  default [] (canonical_loop (S (print_steps e)) [TaskExpr e] []).

(** yao/src/canonical.rs:34-39 [content_hash]; [sha256_hex] is the lowercase
    hexadecimal SHA-256 of the UTF-8 text, from the sha2 crate. *)
Definition content_hash (sha256_hex : str → str) (e : Expr) : str :=
  s! "sha256:" ++ sha256_hex (canonical_source e).

(** The reference printer. *)
Definition print_atom (a : Atom) : str :=
  match a.(akind) with Symbol => a.(avalue) | StringAtom => push_string [] a.(avalue) end.

Fixpoint join (sep : str) (l : list str) : str :=
  match l with
  | [] => []
  | [x] => x
  | x :: r => x ++ sep ++ join sep r
  end.

Fixpoint print (e : Expr) : str :=
  match e with
  | EAtom a => print_atom a
  | EList items _ => 40 :: join [32] (map print items) ++ [41]
  end.

(** Syntax without positions. *)
Fixpoint erase (e : Expr) : Expr :=
  match e with
  | EAtom a => EAtom (mkAtom a.(akind) a.(avalue) (span_empty loc_start))
  | EList items _ => EList (map erase items) (span_empty loc_start)
  end.

(** ** The printer is the reference printer *)

Lemma push_string_app output v : push_string output v = output ++ push_string [] v.
Proof. done. Qed.

Lemma join_cons (sep x : str) (l : list str) :
  join sep (x :: l) = x ++ concat (map (λ y, sep ++ y) l).
Proof.
  revert x; induction l as [|y l IH]; intros x; [simpl; by rewrite app_nil_r|].
  change (join sep (x :: y :: l)) with (x ++ sep ++ join sep (y :: l)).
  rewrite IH. simpl. by rewrite <- app_assoc.
Qed.

Definition loop_prints (e : Expr) : Prop := ∀ n tasks output,
  canonical_loop (print_steps e + n) (TaskExpr e :: tasks) output
  = canonical_loop n tasks (output ++ print e).

Lemma canonical_loop_items r n tasks output :
  Forall loop_prints r →
  canonical_loop (list_sum (map print_steps r) + length r + n)
    (concat (map (λ y, [TaskSpace; TaskExpr y]) r) ++ tasks) output
  = canonical_loop n tasks (output ++ concat (map (λ y, 32 :: print y) r)).
Proof.
  intros Hr. revert output. induction Hr as [|y r Hy Hr IH]; intros output; simpl.
  { by rewrite app_nil_r. }
  replace (print_steps y + list_sum (map print_steps r) + S (length r) + n)%nat
    with (S (print_steps y + (list_sum (map print_steps r) + length r + n)))%nat by lia.
  simpl. rewrite Hy, IH. f_equal. by rewrite <- !app_assoc.
Qed.

Lemma canonical_loop_list m items sp tasks output :
  canonical_loop (S m) (TaskExpr (EList items sp) :: tasks) output
  = canonical_loop m (item_tasks items ++ TaskClose :: tasks) (output ++ [40]).
Proof. done. Qed.

Lemma canonical_loop_expr e : loop_prints e.
Proof.
  induction e as [[k v sp]|items sp IH] using expr_nested_ind; intros n tasks output.
  { by destruct k. }
  destruct IH as [|x r Hx Hr]; [simpl; by rewrite <- app_assoc|].
  replace (print_steps (EList (x :: r) sp) + n)%nat
    with (S (print_steps x + (list_sum (map print_steps r) + length r + S n)))%nat
    by (simpl; lia).
  rewrite canonical_loop_list. unfold item_tasks. rewrite <- app_comm_cons.
  rewrite Hx, canonical_loop_items by done.
  change (print (EList (x :: r) sp)) with (40 :: join [32] (print x :: map print r) ++ [41]).
  rewrite join_cons, map_map. simpl. f_equal. by rewrite <- !app_assoc.
Qed.

Lemma canonical_source_print e : canonical_source e = print e.
Proof.
  unfold canonical_source. pose proof (canonical_loop_expr e 1%nat [] []) as H.
  replace (S (print_steps e)) with (print_steps e + 1)%nat by lia. by rewrite H.
Qed.

Lemma print_erase e : print (erase e) = print e.
Proof.
  induction e as [[k v sp]|items sp IH] using expr_nested_ind; [done|]. simpl.
  do 3 f_equal. rewrite map_map. apply map_ext_Forall in IH. done.
Qed.

(** ** Round trip *)

(** What may follow an expression in canonical text. *)
Definition separated (k : str) : Prop :=
  match k with [] => True | c :: _ => c = 32 ∨ c = 41 end.

(** The first character of printed text starts a token. *)
Definition starts_token (s : str) : Prop :=
  match s with [] => False | c :: _ => is_whitespace c = false ∧ c ≠ 59 end.

Lemma symbol_char_token c : is_symbol_char c = true → is_whitespace c = false ∧ c ≠ 59.
Proof.
  unfold is_symbol_char. rewrite andb_true_iff, !negb_true_iff, !orb_false_iff, !N.eqb_neq. tauto.
Qed.

Lemma print_starts_token e k : lexical e → starts_token (print e ++ k).
Proof.
  destruct 1 as [v sp Hne Hv|v sp|items sp Hi]; simpl; [|done..].
  destruct Hv as [|c v Hc Hv]; [done|]. by apply symbol_char_token.
Qed.

Lemma skip_trivia_id s loc :
  starts_token s → skip_trivia (mkLexer s loc) = mkLexer s loc.
Proof.
  destruct s as [|c s]; [done|]. intros [Hws Hsc]. unfold skip_trivia; simpl.
  rewrite Hws. simpl. by rewrite (proj2 (N.eqb_neq c 59) Hsc).
Qed.

Lemma skip_trivia_space s loc :
  starts_token s → skip_trivia (mkLexer (32 :: s) loc) = mkLexer s (advance loc 32).
Proof.
  destruct s as [|c s]; [done|]. intros [Hws Hsc]. unfold skip_trivia; simpl.
  rewrite Hws. simpl. by rewrite (proj2 (N.eqb_neq c 59) Hsc).
Qed.

Lemma parse_loop_space n limits s loc stack forms :
  starts_token s →
  parse_loop n limits (mkLexer (32 :: s) loc) stack forms
  = parse_loop n limits (mkLexer s (advance loc 32)) stack forms.
Proof.
  intros Hs. destruct n; [done|]. simpl. unfold next_token.
  by rewrite skip_trivia_space, skip_trivia_id by done.
Qed.

Lemma bump_while_symbol v k loc :
  Forall (λ c, is_symbol_char c = true) v → separated k →
  bump_while is_symbol_char (v ++ k) loc = (v, mkLexer k (advance_str loc v)).
Proof.
  intros Hv Hk. revert loc. induction Hv as [|c v Hc Hv IH]; intros loc; simpl.
  - destruct k as [|c k]; [done|]. destruct Hk as [->| ->]; done.
  - by rewrite Hc, IH.
Qed.

Lemma unescape_escape c :
  escape_char c = [c] ∧ c ≠ 34 ∧ c ≠ 92 ∧ c ≠ 10 ∧ c ≠ 13 ∨
  ∃ d, escape_char c = [92; d] ∧ unescape d = Some c.
Proof.
  unfold escape_char. repeat (case_match; [right; eexists; split; [done|];
    match goal with H : (_ =? _) = true |- _ => apply N.eqb_eq in H; by subst end|]).
  left. rewrite !N.eqb_neq in *. done.
Qed.

Lemma plain_string_print st acc v k loc :
  ∃ loc', plain_string st acc (concat (map escape_char v) ++ 34 :: k) loc
          = Ok (mkToken (TkAtom StringAtom (rev acc ++ v)) (mkSpan st loc'), mkLexer k loc').
Proof.
  revert acc loc; induction v as [|c v IH]; intros acc loc; simpl.
  { eexists. by rewrite app_nil_r. }
  destruct (unescape_escape c) as [(-> & H34 & H92 & H10 & H13)|(d & -> & Hd)]; simpl.
  - rewrite <- N.eqb_neq in *. rewrite H34, H92, H10, H13. simpl.
    destruct (IH (c :: acc) (advance loc c)) as [loc' ->]. eexists. simpl.
    by rewrite <- app_assoc.
  - rewrite Hd. destruct (IH (c :: acc) (advance (advance loc 92) d)) as [loc' ->].
    eexists. simpl. by rewrite <- app_assoc.
Qed.

Lemma string_not_block v k :
  separated k →
  starts_with_block (34 :: concat (map escape_char v) ++ 34 :: k) = false.
Proof.
  intros Hk. destruct v as [|c v]; simpl.
  - unfold starts_with_block. destruct k as [|c k]; [done|]. by destruct Hk as [->| ->].
  - destruct (unescape_escape c) as [(-> & H34 & _)|(d & -> & _)]; simpl.
    + unfold starts_with_block. rewrite <- N.eqb_neq in H34.
      destruct (_ ++ _); [done|]. by rewrite H34.
    + unfold starts_with_block. done.
Qed.

Lemma next_token_print k v sp r loc :
  lexical (EAtom (mkAtom k v sp)) → separated r →
  ∃ loc', next_token (mkLexer (print_atom (mkAtom k v sp) ++ r) loc)
          = Ok (Some (mkToken (TkAtom k v) (mkSpan loc loc')), mkLexer r loc').
Proof.
  intros Hlex Hr. pose proof (print_starts_token _ r Hlex) as Hst. simpl in Hst.
  unfold next_token. rewrite skip_trivia_id by done. unfold print_atom in *. simpl in *.
  destruct k.
  - inversion Hlex as [? ? Hne Hv| |]; subst. pose proof Hv as Hall.
    destruct Hv as [|c v Hc Hv]; [done|]. simpl.
    unfold is_symbol_char in Hc. rewrite andb_true_iff, !negb_true_iff, !orb_false_iff in Hc.
    destruct Hc as (_ & ((-> & ->) & _) & ->).
    unfold symbol_token. simpl rest. simpl location.
    change (c :: v ++ r) with ((c :: v) ++ r).
    rewrite bump_while_symbol by done. by eexists.
  - simpl. unfold string_token. simpl rest. rewrite <- app_assoc. simpl.
    rewrite string_not_block by done. simpl.
    destruct (plain_string_print loc [] v r (advance loc 34)) as [loc' ->]. by eexists.
Qed.

(** Parsing printed text pushes an expression that differs only in its spans. *)
Definition parses_back (limits : ParseLimits) (e : Expr) : Prop :=
  ∀ k loc stack, separated k → depth e + len stack <= max_nesting limits →
  ∃ m e' loc', erase e' = erase e ∧ ∀ n forms stack' forms',
    push_expression stack forms e' = (stack', forms') →
    parse_loop (m + n) limits (mkLexer (print e ++ k) loc) stack forms
    = parse_loop n limits (mkLexer k loc') stack' forms'.

Lemma parse_loop_open n limits s loc stack forms :
  len stack < max_nesting limits →
  parse_loop (S n) limits (mkLexer (40 :: s) loc) stack forms
  = parse_loop n limits (mkLexer s (advance loc 40))
      (mkBuilder (mkSpan loc (advance loc 40)) [] :: stack) forms.
Proof.
  intros Hl. simpl. by rewrite (proj2 (N.leb_gt _ _) Hl).
Qed.

Lemma parse_loop_close n limits s loc b stack forms stack' forms' :
  push_expression stack forms
    (EList (bitems b) (mkSpan (start (open_span b)) (advance loc 41))) = (stack', forms') →
  parse_loop (S n) limits (mkLexer (41 :: s) loc) (b :: stack) forms
  = parse_loop n limits (mkLexer s (advance loc 41)) stack' forms'.
Proof.
  intros Hp. simpl. by rewrite Hp.
Qed.

(** The items of a list, each preceded by a space. *)
Lemma parse_loop_items limits items k loc o done_ stack :
  Forall lexical items → Forall (parses_back limits) items →
  Forall (λ e, depth e + (1 + len stack) <= max_nesting limits) items →
  ∃ m items' loc', map erase items' = map erase items ∧ ∀ n forms,
    parse_loop (m + n) limits
      (mkLexer (concat (map (λ y, 32 :: print y) items) ++ 41 :: k) loc)
      (mkBuilder o done_ :: stack) forms
    = parse_loop n limits (mkLexer (41 :: k) loc') (mkBuilder o (done_ ++ items') :: stack) forms.
Proof.
  intros Hlex Hback. revert Hlex loc done_.
  induction Hback as [|x items Hx Hback IH]; intros Hlex loc done_ Hdep.
  { exists 0%nat, [], loc. split; [done|]. intros. simpl. by rewrite app_nil_r. }
  apply Forall_cons in Hlex as [Hlx Hlex]. apply Forall_cons in Hdep as [Hdx Hdep].
  set (tail := concat (map (λ y, 32 :: print y) items) ++ 41 :: k).
  destruct (Hx tail (advance loc 32) (mkBuilder o done_ :: stack)) as (m1 & x' & loc1 & He & H1).
  { unfold tail. destruct items; simpl; auto. }
  { by rewrite len_cons. }
  destruct (IH Hlex loc1 (done_ ++ [x']) Hdep) as (m2 & items' & loc2 & Hes & H2).
  exists (m1 + m2)%nat, (x' :: items'), loc2. split; [simpl; by rewrite He, Hes|].
  intros n forms. simpl. rewrite <- app_assoc. fold tail.
  rewrite parse_loop_space by (by apply print_starts_token).
  replace (m1 + m2 + n)%nat with (m1 + (m2 + n))%nat by lia.
  rewrite (H1 _ _ _ _ eq_refl). simpl. unfold tail. rewrite H2. by rewrite <- app_assoc.
Qed.

Lemma depth_list_items items sp n :
  depth (EList items sp) <= n → Forall (λ e, depth e + 1 <= n) items.
Proof.
  simpl. revert n; induction items as [|x items IH]; intros n Hn; simpl in *; constructor.
  - lia.
  - apply IH. lia.
Qed.

Lemma print_parses_back limits e : lexical e → parses_back limits e.
Proof.
  induction e as [[kd v sp]|items sp IH] using expr_nested_ind; intros Hlex k loc stack Hk Hd.
  - destruct (next_token_print kd v sp k loc Hlex Hk) as [loc' Ht].
    exists 1%nat, (EAtom (mkAtom kd v (mkSpan loc loc'))), loc'. split; [done|].
    intros n forms stack' forms' Hp. simpl. simpl in Ht. rewrite Ht. simpl. by rewrite Hp.
  - inversion Hlex as [| |? ? Hl]; subst.
    assert (Forall (parses_back limits) items) as Hback.
    { rewrite Forall_forall in *. intros x Hx. by apply IH, Hl. }
    assert (Forall (λ e, depth e + (1 + len stack) <= max_nesting limits) items) as Hdi.
    { eapply Forall_impl; [apply (depth_list_items items sp (max_nesting limits - len stack)); lia|].
      simpl. simpl in Hd. lia. }
    assert (len stack < max_nesting limits) as Hopen by (simpl in Hd; lia).
    set (b0 := mkSpan loc (advance loc 40)).
    destruct items as [|x items].
    + exists 2%nat, (EList [] (mkSpan loc (advance (advance loc 40) 41))),
        (advance (advance loc 40) 41). split; [done|].
      intros n forms stack' forms' Hp.
      change (parse_loop (S (S n)) limits (mkLexer (40 :: 41 :: k) loc) stack forms
              = parse_loop n limits (mkLexer k (advance (advance loc 40) 41)) stack' forms').
      rewrite parse_loop_open by done. by apply parse_loop_close.
    + apply Forall_cons in Hl as [Hlx Hl]; apply Forall_cons in Hback as [Hx Hback];
        apply Forall_cons in Hdi as [Hdx Hdi].
      set (tail := concat (map (λ y, 32 :: print y) items) ++ 41 :: k).
      destruct (Hx tail (advance loc 40) (mkBuilder b0 [] :: stack))
        as (m1 & x' & loc1 & He & H1).
      { unfold tail. destruct items; simpl; auto. }
      { by rewrite len_cons. }
      destruct (parse_loop_items limits items k loc1 b0 [x'] stack) as
        (m2 & items' & loc2 & Hes & H2); [done..|].
      eexists (S (m1 + (m2 + 1)))%nat,
        (EList (x' :: items') (mkSpan loc (advance loc2 41))), (advance loc2 41).
      split; [simpl; by rewrite He, Hes|].
      intros n forms stack' forms' Hp.
      change (print (EList (x :: items) sp)) with (40 :: join [32] (print x :: map print items) ++ [41]).
      rewrite join_cons, map_map.
      replace ((40 :: (print x ++ concat (map (λ y, [32] ++ print y) items)) ++ [41]) ++ k)
        with (40 :: print x ++ tail)
        by (unfold tail; simpl; rewrite <- !app_assoc; done).
      rewrite Nat.add_succ_l, parse_loop_open by done.
      replace (m1 + (m2 + 1) + n)%nat with (m1 + (m2 + (S n)))%nat by lia.
      rewrite (H1 _ _ _ _ eq_refl). unfold tail. simpl. rewrite H2.
      apply parse_loop_close. simpl. exact Hp.
Qed.

(** Printing then parsing gives the expression back, up to spans. *)
Lemma parse_print_roundtrip limits e :
  lexical e → depth e <= max_nesting limits → byte_len (print e) <= max_source_bytes limits →
  ∃ e', parse_one (print e) limits = Ok e' ∧ erase e' = erase e.
Proof.
  intros Hlex Hd Hb.
  destruct (print_parses_back limits e Hlex [] loc_start []) as (m & e' & loc' & He & Hloop);
    [done|unfold len; simpl; lia|].
  exists e'. split; [|done]. apply parse_one_Ok. unfold parse_all.
  rewrite (proj2 (N.ltb_ge _ _)) by done.
  destruct (parse_loop_total (S (length (print e))) limits (lexer_new (print e)) [] [])
    as [r Hr]; [simpl; lia|].
  assert (parse_loop (m + 1) limits (mkLexer (print e ++ []) loc_start) [] [] = Some (Ok [e']))
    as Hok.
  { by rewrite (Hloop 1%nat [] _ _ eq_refl). }
  rewrite app_nil_r in Hok. rewrite Hr. simpl.
  pose proof (parse_loop_mono _ (m + 1) _ _ _ _ _ Hr) as H1.
  pose proof (parse_loop_mono _ (S (length (print e))) _ _ _ _ _ Hok) as H2.
  unfold lexer_new in *. rewrite Nat.add_comm in H1. rewrite H2 in H1. congruence.
Qed.

(** ** Main theorems *)

(** The iterative printer with its explicit task stack computes the recursive
    reference printer: single spaces between items, strings quoted and escaped. *)
Theorem canonical_source_is_print e : canonical_source e = print e.
Proof. apply canonical_source_print. Qed.

(** C40. The canonical source of a parsed expression, when it is not longer than the source limit
    (it can be longer than the source, by escapes and separating spaces), parses back under the same
    limits to the same expression up to spans, and its canonical source is itself: printing is
    stable. *)
Theorem canonical_source_roundtrip source limits e :
  parse_one source limits = Ok e →
  byte_len (canonical_source e) <= max_source_bytes limits →
  ∃ e', parse_one (canonical_source e) limits = Ok e' ∧ erase e' = erase e ∧
        canonical_source e' = canonical_source e.
Proof.
  rewrite parse_one_Ok, canonical_source_print. intros Hp Hb.
  pose proof (Forall_inv (parse_all_spanned _ _ _ Hp)) as Hs.
  pose proof (Forall_inv (parse_all_nested _ _ _ Hp)) as Hd.
  destruct (parse_print_roundtrip limits e) as (e' & H1 & H2);
    [eapply spanned_lexical, Hs|done|done|].
  exists e'. split_and!; [done..|]. rewrite canonical_source_print.
  by rewrite <- (print_erase e'), <- (print_erase e), H2.
Qed.

Lemma canonical_source_roundtrip_witness :
  ∃ e e', parse_one s! "( a  (b) ;c
 1)" parse_limits_default = Ok e ∧
       parse_one (canonical_source e) parse_limits_default = Ok e' ∧ erase e' = erase e ∧
       canonical_source e' = canonical_source e.
Proof.
  eexists.
  destruct (canonical_source_roundtrip s! "( a  (b) ;c
 1)" parse_limits_default _ ltac:(vm_compute; reflexivity)) as (e' & H');
    [vm_compute; discriminate|].
  exists e'. split; [vm_compute; reflexivity|exact H'].
Defined.
