(* ===== verification/Hir.v ===== *)
(** * Typed programs (yao/src/sema.rs, data model)

    Type definitions, the typed intermediate representation (HIR), the static
    profile a host supplies, and the traversals of the HIR. *)

From stdpp Require Import base list gmap strings.
From S2P Require Import Prelude Types JsonValue Diagnostic Syntax.

Local Open Scope N_scope.

(** ** Limits and declarations *)

(** yao/src/sema.rs:11-41 [AnalysisLimits]. *)
Record AnalysisLimits : Type := mkLimits {
  parse : ParseLimits;
  max_expression_depth : N;
  max_hir_nodes : N;
  max_fields : N;
  max_par_branches : N;
  max_functions : N;
  max_function_call_depth : N
}.
Definition analysis_limits_default : AnalysisLimits :=
  mkLimits parse_limits_default 32 4096 256 32 128 32.

(** yao/src/sema.rs:43-48 [EvaluationOwner]. *)
Inductive EvaluationOwner : Type := Runtime | Model.

(** yao/src/sema.rs:50-55 [FieldDefinition]. *)
Record FieldDefinition : Type := mkField { fname : str; fty : Ty; fspan_ : SourceSpan }.

(** yao/src/sema.rs:57-62 [VariantDefinition]. *)
Record VariantDefinition : Type :=
  mkVariant { vname : str; vfields : list FieldDefinition; vspan : SourceSpan }.

(** yao/src/sema.rs:64-77 [TypeDefinition]. *)
Inductive TypeDefinition : Type :=
| DRecord (name : str) (fields : list FieldDefinition) (span : SourceSpan)
| DUnion (name : str) (variants : list VariantDefinition) (span : SourceSpan).

(** yao/src/sema.rs:80-84 [TypeDefinition::name]. *)
Definition def_name (d : TypeDefinition) : str :=
  match d with DRecord n _ _ | DUnion n _ _ => n end.

(** yao/src/sema.rs:86-90 [TypeDefinition::span]. *)
Definition def_span (d : TypeDefinition) : SourceSpan :=
  match d with DRecord _ _ s | DUnion _ _ s => s end.

(** [BTreeMap<String, TypeDefinition>]. *)
Abbreviation Definitions := (list (str * TypeDefinition)).

(** yao/src/sema.rs:93-98 [Requirements]. *)
Record Requirements : Type := mkRequirements {
  req_tools : option (list str);
  req_effects : option EffectSet;
  req_objects : option (list str)
}.
Definition requirements_default : Requirements := mkRequirements None None None.

(** yao/src/sema.rs:120-125 [ToolSignature]. *)
Record ToolSignature : Type := mkSignature {
  sig_arguments : list (str * Ty);
  sig_required : list str;
  sig_result : Ty
}.

(** yao/src/sema.rs:127-135 [ToolSignature::dynamic_json]. *)
Definition dynamic_json : ToolSignature := mkSignature [] [] TJson.

(** yao/src/sema.rs:139-156 [AnalysisProfile]: what a host promises the analyzer. *)
Class AnalysisProfile : Type := {
  tool_signature : str → option ToolSignature;
  unavailable_tool_reason : str → option str;
  host_signature : str → option ToolSignature;
  implicit_binding : str → option Ty
}.

(** yao/src/sema.rs:158-163 [StaticProfile]. *)
Record StaticProfile : Type := mkStaticProfile {
  sp_tools : list (str * ToolSignature);
  sp_host_operations : list (str * ToolSignature);
  sp_bindings : list (str * Ty)
}.
Definition static_profile_default : StaticProfile := mkStaticProfile [] [] [].

(** yao/src/sema.rs:165-177 [impl AnalysisProfile for StaticProfile]; the trait's
    default for unavailable tools is [None]. *)
Definition static_profile (p : StaticProfile) : AnalysisProfile := {|
  tool_signature name := bm_get name p.(sp_tools);
  unavailable_tool_reason _ := None;
  host_signature name := bm_get name p.(sp_host_operations);
  implicit_binding name := bm_get name p.(sp_bindings)
|}.

(** ** Typed expressions *)

(** yao/src/sema.rs:246-255 [Literal].  A float keeps its source spelling. *)
Inductive Literal : Type :=
| LNil
| LBool (b : bool)
| LInt (z : Z)
| LFloat (source : str)
| LString (s : str).

(** yao/src/sema.rs:257-273 [PureOperator]. *)
Inductive PureOperator : Type :=
| OpEqual | OpNotEqual | OpLess | OpLessEqual | OpGreater | OpGreaterEqual
| OpAnd | OpOr | OpNot | OpAdd | OpSubtract | OpMultiply | OpDivide.

(** yao/src/sema.rs:225-229 [MatchBinding]. *)
Record MatchBinding : Type := mkMatchBinding { mb_field : str; mb_binding : str }.

(** yao/src/sema.rs:179-185 [HirExpr]. *)
Inductive HirExpr : Type :=
| Hir (kind : HirKind) (ty : Ty) (effects : EffectSet) (span : SourceSpan)
(** yao/src/sema.rs:275-431 [HirKind]. *)
with HirKind : Type :=
| KLiteral (value : Literal)
| KReference (root : str) (path : option (list str))
| KList (elements : list HirExpr)
| KDict (entries : list (str * HirExpr))
| KFromJson (target : Ty) (value : HirExpr)
| KToJson (value : HirExpr)
| KRecord (type_name : str) (fields : list (str * HirExpr))
| KVariant (type_name variant : str) (fields : list (str * HirExpr))
| KOptionSome (value : HirExpr)
| KOptionNone (inner : Ty)
| KResultOk (value : HirExpr) (error : Ty)
| KResultErr (value : HirExpr) (ok : Ty)
| KEvidenceCandidate (kind value : HirExpr) (refs : list HirExpr)
| KOutcomeCandidate (status : str) (value : HirExpr) (evidence : list HirExpr)
| KContextTransaction (context : HirExpr) (canonical_source : str)
| KGet (value : HirExpr) (field : str)
| KDecode (target : Ty) (value : HirExpr)
| KIs (target : Ty) (value : HirExpr)
| KPure (operator : PureOperator) (operands : list HirExpr)
| KSeq (steps : list HirExpr)
| KBind (name : str) (value : HirExpr)
| KIf (condition when_true when_false : HirExpr)
| KMatch (value : HirExpr) (cases : list MatchCase)
| KFallback (primary backup : HirExpr)
| KMap (collection : HirExpr) (element : str) (body : HirExpr)
| KCall (tool : str) (arguments : list NamedArgument)
| KFunctionApplication (function : str) (arguments : list NamedArgument)
    (parameters : list str) (body : HirExpr)
| KInferBody (body : HirExpr) (captures : list str) (result : Ty) (source : str)
| KPar (branches : list ParBranch)
| KRun (program : HirExpr)
| KHost (operation : str) (arguments : list NamedArgument)
(** yao/src/sema.rs:187-192 [NamedArgument]. *)
with NamedArgument : Type :=
| mkNamedArgument (name : str) (values : list HirExpr) (span : SourceSpan)
(** yao/src/sema.rs:231-237 [MatchCase]. *)
with MatchCase : Type :=
| mkMatchCase (variant : str) (bindings : list MatchBinding) (body : HirExpr)
    (span : SourceSpan)
(** yao/src/sema.rs:239-244 [ParBranch]. *)
with ParBranch : Type :=
| mkParBranch (name : str) (body : HirExpr) (span : SourceSpan).

Definition hkind (e : HirExpr) : HirKind := let 'Hir k _ _ _ := e in k.
Definition hty (e : HirExpr) : Ty := let 'Hir _ t _ _ := e in t.
Definition heffects (e : HirExpr) : EffectSet := let 'Hir _ _ f _ := e in f.
Definition hspan (e : HirExpr) : SourceSpan := let 'Hir _ _ _ s := e in s.
Definition na_name (a : NamedArgument) : str := let 'mkNamedArgument n _ _ := a in n.
Definition na_values (a : NamedArgument) : list HirExpr := let 'mkNamedArgument _ v _ := a in v.
Definition na_span (a : NamedArgument) : SourceSpan := let 'mkNamedArgument _ _ s := a in s.
Definition mc_variant (c : MatchCase) : str := let 'mkMatchCase v _ _ _ := c in v.
Definition mc_bindings (c : MatchCase) : list MatchBinding := let 'mkMatchCase _ b _ _ := c in b.
Definition mc_body (c : MatchCase) : HirExpr := let 'mkMatchCase _ _ e _ := c in e.
Definition mc_span (c : MatchCase) : SourceSpan := let 'mkMatchCase _ _ _ s := c in s.
Definition pb_name (b : ParBranch) : str := let 'mkParBranch n _ _ := b in n.
Definition pb_body (b : ParBranch) : HirExpr := let 'mkParBranch _ e _ := b in e.
Definition pb_span (b : ParBranch) : SourceSpan := let 'mkParBranch _ _ s := b in s.

(** yao/src/sema.rs:3767-3774 [hir]. *)
Definition hir (kind : HirKind) (ty : Ty) (effects : EffectSet) (span : SourceSpan) : HirExpr :=
  Hir kind ty effects span.

(** The expression children of a node, in source order: the arms of
    yao/src/sema.rs:3793-3869 [HirExpr::visit]. *)
Definition children (e : HirExpr) : list HirExpr :=
  match hkind e with
  | KLiteral _ | KReference _ _ | KOptionNone _ => []
  | KList elements => elements
  | KDict entries | KRecord _ entries | KVariant _ _ entries => map snd entries
  | KOptionSome value | KResultOk value _ | KResultErr value _ | KContextTransaction value _
  | KGet value _ | KDecode _ value | KFromJson _ value | KToJson value | KIs _ value
  | KBind _ value | KInferBody value _ _ _ | KRun value => [value]
  | KEvidenceCandidate kind value refs => kind :: value :: refs
  | KOutcomeCandidate _ value evidence => value :: evidence
  | KPure _ operands => operands
  | KSeq steps => steps
  | KIf condition when_true when_false => [condition; when_true; when_false]
  | KMatch value cases => value :: map mc_body cases
  | KFallback primary backup => [primary; backup]
  | KMap collection _ body => [collection; body]
  | KCall _ arguments | KHost _ arguments => concat (map na_values arguments)
  | KFunctionApplication _ arguments _ body => concat (map na_values arguments) ++ [body]
  | KPar branches => map pb_body branches
  end.

(** ** Program artifacts *)

(** yao/src/sema.rs:100-111 [Program]. *)
Record Program : Type := mkProgram {
  language_version : str;
  owner : EvaluationOwner;
  requirements : Requirements;
  types : Definitions;
  body : HirExpr;
  output : Ty;
  effects : EffectSet;
  program_canonical_source : str;
  source_hash : str
}.

(** yao/src/sema.rs:115-118 [ModuleAnalysis]. *)
Record ModuleAnalysis : Type := mkModuleAnalysis {
  ma_program : Program;
  ma_functions : list (str * HirExpr)
}.

(** yao/src/sema.rs:4049-4058 [definition_types]. *)
Definition definition_types (d : TypeDefinition) : list Ty :=
  match d with
  | DRecord _ fields _ => map fty fields
  | DUnion _ variants _ => concat (map (λ v, map fty (vfields v)) variants)
  end.

(** ** Traversal *)

(** yao/src/sema.rs:3785-3871 [HirExpr::visit]: the nodes given to the visitor, in
    order; a node's children are skipped when the visitor returns [false]. *)
Fixpoint visit (visitor : HirExpr → bool) (e : HirExpr) {struct e} : list HirExpr :=
  let 'Hir k _ _ _ := e in
  e :: (if visitor e then visit_kind visitor k else [])
with visit_kind (visitor : HirExpr → bool) (k : HirKind) {struct k} : list HirExpr :=
  match k with
  | KLiteral _ | KReference _ _ | KOptionNone _ => []
  | KList elements => concat (map (visit visitor) elements)
  | KDict entries | KRecord _ entries | KVariant _ _ entries =>
      concat (map (λ '(_, v), visit visitor v) entries)
  | KOptionSome value | KResultOk value _ | KResultErr value _ | KContextTransaction value _
  | KGet value _ | KDecode _ value | KFromJson _ value | KToJson value | KIs _ value
  | KBind _ value | KInferBody value _ _ _ | KRun value => visit visitor value
  | KEvidenceCandidate kind value refs =>
      visit visitor kind ++ visit visitor value ++ concat (map (visit visitor) refs)
  | KOutcomeCandidate _ value evidence =>
      visit visitor value ++ concat (map (visit visitor) evidence)
  | KPure _ operands => concat (map (visit visitor) operands)
  | KSeq steps => concat (map (visit visitor) steps)
  | KIf condition when_true when_false =>
      visit visitor condition ++ visit visitor when_true ++ visit visitor when_false
  | KMatch value cases =>
      visit visitor value ++
      concat (map (λ c, let 'mkMatchCase _ _ b _ := c in visit visitor b) cases)
  | KFallback primary backup => visit visitor primary ++ visit visitor backup
  | KMap collection _ body => visit visitor collection ++ visit visitor body
  | KCall _ arguments | KHost _ arguments =>
      concat (map (λ a, let 'mkNamedArgument _ vs _ := a in
                        concat (map (visit visitor) vs)) arguments)
  | KFunctionApplication _ arguments _ body =>
      concat (map (λ a, let 'mkNamedArgument _ vs _ := a in
                        concat (map (visit visitor) vs)) arguments)
      ++ visit visitor body
  | KPar branches => concat (map (λ b, let 'mkParBranch _ e _ := b in visit visitor e) branches)
  end.

Definition usize_max : N := 2 ^ 64 - 1.

(** yao/src/sema.rs:3776-3783 [hir_node_count]; the counter saturates at the width of
    [usize]. *)
Definition hir_node_count (e : HirExpr) : N := N.min (len (visit (λ _, true) e)) usize_max.

(** The nodes of an expression, itself included. *)
Definition nodes (e : HirExpr) : list HirExpr := visit (λ _, true) e.

(** ** Lemmas *)

Lemma concat_map_concat {A B} (f : A → list B) (l : list (list A)) :
  concat (map (λ x, concat (map f x)) l) = concat (map f (concat l)).
Proof. induction l; simpl; [done|]. rewrite map_app, concat_app. congruence. Qed.

Lemma visit_unfold f e :
  visit f e = e :: (if f e then concat (map (visit f) (children e)) else []).
Proof.
  destruct e as [k t ef sp]. simpl. f_equal. destruct (f _); [|done].
  assert (∀ l : list (str * HirExpr),
    concat (map (λ '(_, v), visit f v) l) = concat (map (visit f) (map snd l))) as Hent.
  { intros l. rewrite map_map. f_equal. apply map_ext. by intros []. }
  assert (∀ l, concat (map (λ a, let 'mkNamedArgument _ vs _ := a in concat (map (visit f) vs)) l)
               = concat (map (visit f) (concat (map na_values l)))) as Harg.
  { intros l. rewrite <- concat_map_concat, map_map. f_equal. apply map_ext. by intros []. }
  destruct k; unfold children; simpl; rewrite ?app_nil_r, ?Hent; try done.
  - rewrite map_map. do 2 f_equal. apply map_ext. by intros [].
  - rewrite map_app, concat_app, Harg. simpl. by rewrite app_nil_r.
  - rewrite map_map. f_equal. apply map_ext. by intros [].
Qed.

Lemma nodes_unfold e : nodes e = e :: concat (map nodes (children e)).
Proof. unfold nodes. by rewrite visit_unfold. Qed.

Lemma elem_of_concat {A} (x : A) (l : list (list A)) : x ∈ concat l ↔ ∃ y, y ∈ l ∧ x ∈ y.
Proof. induction l as [|y l IH]; simpl; [set_solver|]. rewrite elem_of_app, IH. set_solver. Qed.

Lemma elem_of_nodes x e : x ∈ nodes e ↔ x = e ∨ ∃ c, c ∈ children e ∧ x ∈ nodes c.
Proof.
  rewrite nodes_unfold, elem_of_cons, elem_of_concat. f_equiv.
  split; [intros (? & (c & -> & ?)%list_elem_of_fmap & ?); eauto|].
  intros (c & ? & ?). exists (nodes c). split; [|done]. apply list_elem_of_fmap; eauto.
Qed.

Lemma concat_length_elem {A} (x : list A) l : x ∈ l → (length x ≤ length (concat l))%nat.
Proof.
  induction l as [|y l IH]; [set_solver|]. intros [->|H]%elem_of_cons; simpl;
    rewrite length_app; [lia|]. specialize (IH H). lia.
Qed.

Lemma nodes_child_length c e : c ∈ children e → (length (nodes c) < length (nodes e))%nat.
Proof.
  intros Hc. rewrite (nodes_unfold e). simpl. apply Nat.lt_succ_r.
  apply concat_length_elem. apply list_elem_of_fmap; eauto.
Qed.

(** Induction on typed expressions, through their children. *)
Lemma hir_ind (P : HirExpr → Prop) :
  (∀ e, (∀ c, c ∈ children e → P c) → P e) → ∀ e, P e.
Proof.
  intros Hstep e. remember (length (nodes e)) as n eqn:Hn. revert e Hn.
  induction n as [n IH] using lt_wf_ind. intros e ->. apply Hstep.
  intros c Hc. eapply IH; [|done]. by apply nodes_child_length.
Qed.
