(* ===== verification/Decode.v ===== *)
(** * Transport values and decoding (yao/src/eval.rs, views and [decode_value])

    The private ["$yao"] encoding of nominal values, references and candidates,
    the read-only views a host uses, and [decode_value], which validates and
    normalises one transport value against a type.  [decode_value] recurses on
    sub-values only, so its fuel is the depth of the value and its fixpoint
    equation is a theorem.  [vty] is the declarative reading of the types. *)

From stdpp Require Import base list gmap strings.
From S2P Require Import Prelude Types JsonValue Diagnostic Syntax SyntaxFacts Canonical Hir.

(** yao/src/eval.rs:10-10 [YAO_TAG]. *)
Definition YAO_TAG : str := s! "$yao".

Abbreviation JsonMap := (list (str * Json)).

(** [tag.get(key).and_then(JsonValue::as_str)]. *)
Definition get_str (key : string) (m : JsonMap) : option str :=
  bm_get (lit key) m ≫= jas_str.

(** [tag.get(key).and_then(JsonValue::as_str) == Some(s)]. *)
Definition get_is (key : string) (s : str) (m : JsonMap) : bool :=
  match get_str key m with Some s' => s' =s s | None => false end.

(** [json!({YAO_TAG: {..}})]. *)
Definition tagged (l : list (string * Json)) : Json := JObject [(YAO_TAG, jobj l)].

(** ** Views *)

(** yao/src/eval.rs:723-725 [yao_object]. *)
Definition yao_object (value : Json) : option JsonMap := jget YAO_TAG value ≫= jas_object.

(** yao/src/eval.rs:727-736 [variant_parts]. *)
Definition variant_parts (value : Json) : option (str * JsonMap) :=
  tag ← yao_object value;
  if get_is "kind" s! "variant" tag then
    variant ← get_str "variant" tag;
    fields ← bm_get s! "fields" tag ≫= jas_object;
    Some (variant, fields)
  else None.

(** yao/src/eval.rs:743-752 [variant_view]. *)
Definition variant_view (value : Json) : option (str * JsonMap) :=
  '(variant, fields) ← variant_parts value;
  Some (variant, bm_of_list (map (λ '(name, value), (name, value)) fields)).

(** One entry of a structural record: [json!({"name": name, "value": value})]. *)
Definition structural_entry (name : str) (value : Json) : Json :=
  jobj [("name", JString name); ("value", value)].

(** yao/src/eval.rs:756-762 [structural_record_value]. *)
Definition structural_record_value (fields : list (str * Json)) : Json :=
  tagged [("kind", jstr "structural_record");
          ("fields", JArray (map (λ '(name, value), structural_entry name value) fields))].

(** yao/src/eval.rs:768-776 [reference_value]. *)
Definition reference_value (kind id : str) : Json :=
  tagged [("kind", jstr "ref"); ("ref_kind", JString kind); ("id", JString id)].

(** yao/src/eval.rs:780-786 [reference_view]. *)
Definition reference_view (value : Json) : option (str * str) :=
  tag ← yao_object value;
  if get_is "kind" s! "ref" tag then
    kind ← get_str "ref_kind" tag;
    id ← get_str "id" tag;
    Some (kind, id)
  else None.

(** [reference_view(v).map(|(kind, _)| kind) == Some(kind)]. *)
Definition is_reference_to (kind : str) (value : Json) : bool :=
  match reference_view value with Some (k, _) => k =s kind | None => false end.

(** yao/src/eval.rs:22-26 [EvidenceCandidateView]. *)
Record EvidenceCandidateView : Type := mkEvidenceView {
  ev_kind : str; ev_value : Json; ev_refs : list Json }.

(** yao/src/eval.rs:30-34 [OutcomeCandidateView]. *)
Record OutcomeCandidateView : Type := mkOutcomeView {
  oc_status : str; oc_value : Json; oc_evidence : list Json }.

(** yao/src/eval.rs:40-43 [ContextTransactionView]. *)
Record ContextTransactionView : Type := mkContextView {
  ct_context : Json; ct_canonical_source : str }.

(** The guards shared by the candidate views: one outer entry, the tag object
    with [n] entries of the given kind. *)
Definition sealed_tag (n : nat) (kind : str) (value : Json) : option JsonMap :=
  outer ← jas_object value;
  if Nat.eqb (length outer) 1 then
    tag ← yao_object value;
    if Nat.eqb (length tag) n && get_is "kind" kind tag then Some tag else None
  else None.

(** yao/src/eval.rs:791-816 [evidence_candidate_view]. *)
Definition evidence_candidate_view (value : Json) : option EvidenceCandidateView :=
  tag ← sealed_tag 4 s! "evidence_candidate" value;
  evidence_kind ← get_str "evidence_kind" tag;
  if bool_decide (evidence_kind = []) then None
  else
    refs ← bm_get s! "refs" tag ≫= jas_array;
    if existsb (λ r, negb (is_reference_to s! "Evidence" r)) refs then None
    else
      v ← bm_get s! "value" tag;
      Some (mkEvidenceView evidence_kind v refs).

(** The statuses of yao/src/eval.rs:829 [outcome_candidate_view]. *)
Definition outcome_status (status : str) : bool :=
  (status =s s! "succeeded") || (status =s s! "failed") || (status =s s! "blocked").

(** yao/src/eval.rs:820-845 [outcome_candidate_view]. *)
Definition outcome_candidate_view (value : Json) : option OutcomeCandidateView :=
  tag ← sealed_tag 4 s! "outcome_candidate" value;
  status ← get_str "status" tag;
  if outcome_status status then
    evidence ← bm_get s! "evidence" tag ≫= jas_array;
    if existsb (λ r, negb (is_reference_to s! "Evidence" r)) evidence then None
    else
      v ← bm_get s! "value" tag;
      Some (mkOutcomeView status v evidence)
  else None.

(** yao/src/eval.rs:850-877 [context_transaction_view]. *)
Definition context_transaction_view (value : Json) : option ContextTransactionView :=
  tag ← sealed_tag 3 s! "context_transaction" value;
  context ← bm_get s! "context" tag;
  if is_reference_to s! "Context" context then
    source ← get_str "canonical_source" tag;
    expression ← res_ok (parse_one source parse_limits_default);
    items ← as_list expression;
    if match head items ≫= as_symbol with Some s => s =s s! "context-tx" | None => false end
       && (canonical_source expression =s source)
    then Some (mkContextView context source)
    else None
  else None.

(** yao/src/eval.rs:881-897 [optional_reference_value]. *)
Definition optional_reference_value (kind : str) (id : option str) : Json :=
  match id with
  | Some id => tagged [("kind", jstr "option"); ("variant", jstr "some");
                       ("value", reference_value kind id)]
  | None => tagged [("kind", jstr "option"); ("variant", jstr "none")]
  end.

(** The loop of yao/src/eval.rs:904-910: the entries' names and values. *)
Fixpoint structural_entries (entries : list Json) : option (list (str * Json)) :=
  match entries with
  | [] => Some []
  | field :: rest =>
      name ← jget s! "name" field ≫= jas_str;
      value ← jget s! "value" field;
      output ← structural_entries rest;
      Some ((name, value) :: output)
  end.

(** yao/src/eval.rs:899-912 [structural_fields]. *)
Definition structural_fields (value : Json) : option JsonMap :=
  tag ← yao_object value;
  if get_is "kind" s! "structural_record" tag then
    entries ← bm_get s! "fields" tag ≫= jas_array;
    bm_of_list <$> structural_entries entries
  else None.

(** yao/src/eval.rs:916-926 [structural_record_field]. *)
Definition structural_record_field (value : Json) (name : str) : option Json :=
  tag ← yao_object value;
  if get_is "kind" s! "structural_record" tag then
    entries ← bm_get s! "fields" tag ≫= jas_array;
    entry ← List.find (λ entry, match jget s! "name" entry ≫= jas_str with
                                | Some n => n =s name
                                | None => false
                                end) entries;
    jget s! "value" entry
  else None.

(** ** Decoding *)

Section decode.
Context (definitions : Definitions) (span : SourceSpan).

(** yao/src/eval.rs:1084-1093 [type_failure]. *)
Definition type_failure {A} (target : Ty) (value : Json) : result EvalFailure A :=
  Err (mkFailure (Msg "value {value} does not satisfy {target:?}" [AJson value; ATy target])
         span).

Definition failure (template : string) (args : list MsgArg) : EvalFailure :=
  mkFailure (Msg template args) span.

(** The recursive occurrences of [decode_value] are the argument [rec]. *)
Section step.
Context (rec : Ty → Json → result EvalFailure Json).

(** The loops over declared fields of yao/src/eval.rs:444-456 and 459-470; the
    second removes each field from the object, which is the state. *)
Fixpoint decode_encoded_fields (encoded : JsonMap) (fields : list (str * Ty))
    : result EvalFailure (list Json) :=
  match fields with
  | [] => Ok []
  | (name, ty) :: rest =>
      field_value ← ok_or (bm_get name encoded)
                      (failure "record is missing field '{name}'" [AStr name]);
      decoded ← rec ty field_value;
      output ← decode_encoded_fields encoded rest;
      Ok (structural_entry name decoded :: output)
  end.

Fixpoint decode_object_fields (object : JsonMap) (fields : list (str * Ty))
    : result EvalFailure (JsonMap * list Json) :=
  match fields with
  | [] => Ok (object, [])
  | (name, ty) :: rest =>
      field_value ← ok_or (bm_get name object)
                      (failure "record is missing field '{name}'" [AStr name]);
      decoded ← rec ty field_value;
      '(object', output) ← decode_object_fields (bm_remove name object) rest;
      Ok (object', structural_entry name decoded :: output)
  end.

(** yao/src/eval.rs:442-483 [decode_value, the StructuralRecord arm]. *)
Definition decode_structural (fields : list (str * Ty)) (value : Json)
    : result EvalFailure Json :=
  let record output :=
    tagged [("kind", jstr "structural_record"); ("fields", JArray output)] in
  match structural_fields value with
  | Some encoded => record <$> decode_encoded_fields encoded fields
  | None =>
      match value with
      | JObject object =>
          '(rest, output) ← decode_object_fields object fields;
          match rest with
          | [] => Ok (record output)
          | _ => Err (failure "record contains unknown fields: {}" [AStrs (map fst rest)])
          end
      | _ => type_failure (TStructuralRecord fields) value
      end
  end.

(** yao/src/eval.rs:978-1009 [validate_named_fields]. *)
Definition validate_named_fields (to_check : list FieldDefinition) (tag : JsonMap)
    : result EvalFailure unit :=
  fields ← ok_or (bm_get s! "fields" tag ≫= jas_object)
             (failure "named value has no fields object" []);
  _ ← ensure (Nat.eqb (length fields) (length to_check))
        (failure "named value field count does not match its type" []);
  try_each (λ d,
    value ← ok_or (bm_get (fname d) fields)
              (failure "named value is missing field '{}'" [AStr (fname d)]);
    _ ← rec (fty d) value; Ok tt) to_check.

(** yao/src/eval.rs:928-976 [decode_named]. *)
Definition decode_named (name : str) (value : Json) : result EvalFailure Json :=
  definition ← ok_or (bm_get name definitions)
                 (failure "unknown named type '{name}' during decode" [AStr name]);
  match yao_object value with
  | None => type_failure (TNamed name) value
  | Some tag =>
      if negb (get_is "type" name tag) then type_failure (TNamed name) value
      else
        _ ← match definition with
            | DRecord _ fields _ =>
                if negb (get_is "kind" s! "record" tag)
                then type_failure (TNamed name) value
                else validate_named_fields fields tag
            | DUnion _ variants _ =>
                if negb (get_is "kind" s! "variant" tag)
                then type_failure (TNamed name) value
                else
                  variant ← ok_or (get_str "variant" tag)
                              (failure "union '{name}' value has no variant" [AStr name]);
                  d ← ok_or (List.find (λ item, vname item =s variant) variants)
                        (failure "union '{name}' has no variant '{variant}'"
                           [AStr name; AStr variant]);
                  validate_named_fields (vfields d) tag
            end;
        Ok value
  end.

(** yao/src/eval.rs:1011-1037 [decode_tagged_unary]. *)
Definition decode_tagged_unary (kind : str) (inner : Ty) (value : Json)
    : result EvalFailure Json :=
  match yao_object value with
  | None => type_failure (TOption inner) value
  | Some tag =>
      if negb (get_is "kind" kind tag) then type_failure (TOption inner) value
      else if get_is "variant" s! "none" tag then Ok value
      else if get_is "variant" s! "some" tag then
        inner_value ← ok_or (bm_get s! "value" tag)
                        (failure "some value is missing its payload" []);
        _ ← rec inner inner_value;
        Ok value
      else type_failure (TOption inner) value
  end.

(** yao/src/eval.rs:1039-1082 [decode_result]. *)
Definition decode_result (ok error : Ty) (value : Json) : result EvalFailure Json :=
  match yao_object value with
  | None => type_failure (TResult ok error) value
  | Some tag =>
      if negb (get_is "kind" s! "result" tag) then type_failure (TResult ok error) value
      else
        payload ← ok_or (bm_get s! "value" tag)
                    (failure "Result value is missing its payload" []);
        if get_is "variant" s! "ok" tag then _ ← rec ok payload; Ok value
        else if get_is "variant" s! "err" tag then _ ← rec error payload; Ok value
        else type_failure (TResult ok error) value
  end.

(** yao/src/eval.rs:489-515 [decode_value, the Ref and Program arms]. *)
Definition decode_opaque (target : Ty) (value : Json) : result EvalFailure Json :=
  match yao_object value with
  | None => type_failure target value
  | Some tag =>
      if match target with
         | TRef kind => get_is "kind" s! "ref" tag && get_is "ref_kind" kind tag
                        && is_some (get_str "id" tag)
         | _ => get_is "kind" s! "program" tag && is_some (get_str "hash" tag)
         end
      then Ok value
      else type_failure target value
  end.

(** yao/src/eval.rs:403-518 [decode_value]. *)
Definition decode_step (target : Ty) (value : Json) : result EvalFailure Json :=
  let when (b : bool) := if b then Ok value else type_failure target value in
  match target with
  | TJson => Ok value
  | TNil => when (match value with JNull => true | _ => false end)
  | TBool => when (is_some (jas_bool value))
  | TInt => when (is_some (jas_i64 value))
  | TFloat => when (is_some (jas_f64 value))
  | TString | TBytes => when (is_some (jas_str value))
  | TList element =>
      match value with
      | JArray values => JArray <$> traverse (rec element) values
      | _ => type_failure target value
      end
  | TMap element =>
      match value with
      | JObject values =>
          (λ l, JObject (bm_of_list l)) <$>
            traverse (λ '(name, value), pair name <$> rec element value) values
      | _ => type_failure target value
      end
  | TStructuralRecord fields => decode_structural fields value
  | TOption inner => decode_tagged_unary s! "option" inner value
  | TResult ok error => decode_result ok error value
  | TEvidenceCandidate => when (is_some (evidence_candidate_view value))
  | TOutcomeCandidate => when (is_some (outcome_candidate_view value))
  | TContextTransaction => when (is_some (context_transaction_view value))
  | TNamed name => decode_named name value
  | TRef _ | TProgram _ _ => decode_opaque target value
  end.
End step.

(** The recursion, on at most [fuel] nested values. *)
Fixpoint decode_fuel (fuel : nat) (target : Ty) (value : Json) : result EvalFailure Json :=
  match fuel with
  | O => type_failure target value
  | S n => decode_step (decode_fuel n) target value
  end.

(** yao/src/eval.rs:403-518 [decode_value]; the depth of the value is enough fuel:
    see [decode_value_eq]. *)
Definition decode_value (target : Ty) (value : Json) : result EvalFailure Json :=
  decode_fuel (S (jdepth value)) target value.
End decode.
