(* ===== verification/DecodeFacts.v ===== *)
(** * Facts about decoding

    The fixpoint equation of [decode_value]; the declarative typing [vty] of
    transport values; decoding is sound for it, complete on source types, the
    identity on source types, and idempotent; every view reads back what the
    matching constructor built. *)

From stdpp Require Import base list gmap strings.
From S2P Require Import Prelude Types JsonValue Diagnostic Syntax SyntaxFacts Canonical Hir Decode.

(** ** Sub-values *)

Lemma bm_of_list_elem {V} (l : list (str * V)) kv : kv ∈ bm_of_list l → kv ∈ l.
Proof.
  unfold bm_of_list. assert (∀ m, kv ∈ fold_left (λ m kv, bm_insert kv.1 kv.2 m) l m →
    kv ∈ l ∨ kv ∈ m) as H; [|intros [?|?%elem_of_nil]%H; done].
  induction l as [|[k v] l IH]; intros m; simpl; [by right|].
  intros [?|Hin]%IH; [set_solver|].
  assert (Forall (λ x, x ∈ (k, v) :: m) (bm_insert k v m)) as HF.
  { apply bm_insert_Forall; [set_solver|]. apply Forall_forall. set_solver. }
  rewrite Forall_forall in HF. apply HF in Hin. set_solver.
Qed.

Lemma bm_get_of_list_elem {V} (l : list (str * V)) k v :
  bm_get k (bm_of_list l) = Some v → (k, v) ∈ l.
Proof. intros H%bm_get_elem. by apply bm_of_list_elem. Qed.

Lemma yao_object_depth v tag : yao_object v = Some tag → (jdepth (JObject tag) < jdepth v)%nat.
Proof.
  unfold yao_object. destruct (jget YAO_TAG v) as [w|] eqn:E; simpl; [|done].
  destruct w; simpl; try done. intros [= ->]. exact (jdepth_get _ _ _ E).
Qed.

Lemma tag_get_depth v tag k w :
  yao_object v = Some tag → bm_get k tag = Some w → (S (jdepth w) < jdepth v)%nat.
Proof.
  intros H%yao_object_depth Hw%bm_get_elem. apply jdepth_object in Hw. simpl in *. lia.
Qed.

Lemma structural_entries_depth entries l k v :
  structural_entries entries = Some l → (k, v) ∈ l → (jdepth v < jdepth (JArray entries))%nat.
Proof.
  revert l. induction entries as [|e es IH]; intros l; simpl.
  { intros [= <-]. by intros []%elem_of_nil. }
  destruct (jget s! "name" e ≫= jas_str) as [n|]; simpl; [|done].
  destruct (jget s! "value" e) as [w|] eqn:Ew; simpl; [|done].
  destruct (structural_entries es) as [o|]; simpl; [|done]. intros [= <-].
  intros [[= -> ->]|Hin]%elem_of_cons.
  - apply jdepth_get in Ew. simpl in *. lia.
  - specialize (IH _ eq_refl Hin). simpl in *. lia.
Qed.

Lemma structural_fields_depth v m k w :
  structural_fields v = Some m → bm_get k m = Some w → (jdepth w < jdepth v)%nat.
Proof.
  unfold structural_fields. destruct (yao_object v) as [tag|] eqn:Et; simpl; [|done].
  case_match; [|done]. destruct (bm_get s! "fields" tag) as [fv|] eqn:Ef; simpl; [|done].
  destruct fv; simpl; try done. destruct (structural_entries l) as [es|] eqn:Es; simpl; [|done].
  intros [= <-] Hk%bm_get_of_list_elem.
  pose proof (structural_entries_depth _ _ _ _ Es Hk).
  pose proof (tag_get_depth _ _ _ _ Et Ef). lia.
Qed.

Lemma bind_ext {E A B} (r1 r2 : result E A) (f g : A → result E B) :
  r1 = r2 → (∀ a, r2 = Ok a → f a = g a) → (r1 ≫= f) = (r2 ≫= g).
Proof. intros -> H. destruct r2; simpl; auto. Qed.

Lemma try_each_ext {E A} (f g : A → result E unit) l :
  (∀ x, x ∈ l → f x = g x) → try_each f l = try_each g l.
Proof.
  induction l as [|x l IH]; intros H; simpl; [done|].
  rewrite H, IH; [done| |set_solver]. intros; apply H; set_solver.
Qed.

Lemma traverse_id {E A} (f : A → result E A) (P : A → Prop) l l' :
  (∀ x y, x ∈ l → f x = Ok y → y = x ∧ P x) → traverse f l = Ok l' → l' = l ∧ Forall P l.
Proof.
  intros Hf H%traverse_Ok. induction H as [|x y l l' Hxy _ IH]; [by split; constructor|].
  destruct (Hf x y) as [-> ?]; [set_solver|done|].
  destruct IH as [-> ?]; [|by split; [|constructor]]. intros; apply Hf; set_solver.
Qed.

(** ** The fixpoint equation *)

Section fixpoint.
Context (definitions : Definitions) (span : SourceSpan).
Implicit Types rec : Ty → Json → result EvalFailure Json.

Section ext.
Context (rec1 rec2 : Ty → Json → result EvalFailure Json) (d : nat)
  (Hrec : ∀ t w, (jdepth w < d)%nat → rec1 t w = rec2 t w).

Lemma decode_encoded_fields_ext m fs :
  (∀ k w, bm_get k m = Some w → (jdepth w < d)%nat) →
  decode_encoded_fields span rec1 m fs = decode_encoded_fields span rec2 m fs.
Proof.
  intros Hm. induction fs as [|[n t] fs IH]; simpl; [done|].
  apply bind_ext; [done|]. intros a Ha%ok_or_Ok. rewrite Hrec by eauto.
  by rewrite IH.
Qed.

Lemma decode_object_fields_ext m fs :
  (∀ k w, bm_get k m = Some w → (jdepth w < d)%nat) →
  decode_object_fields span rec1 m fs = decode_object_fields span rec2 m fs.
Proof.
  revert m. induction fs as [|[n t] fs IH]; intros m Hm; simpl; [done|].
  apply bind_ext; [done|]. intros a Ha%ok_or_Ok. rewrite Hrec by eauto.
  rewrite IH; [done|]. intros k w. rewrite bm_get_remove. case_match; [done|]. apply Hm.
Qed.

Lemma validate_named_fields_ext ds tag :
  (jdepth (JObject tag) < d)%nat →
  validate_named_fields span rec1 ds tag = validate_named_fields span rec2 ds tag.
Proof.
  intros Htag. unfold validate_named_fields. apply bind_ext; [done|].
  intros fields Hf%ok_or_Ok. apply bind_ext; [done|]. intros _ _.
  apply try_each_ext. intros fd _. apply bind_ext; [done|]. intros w Hw%ok_or_Ok.
  rewrite Hrec; [done|]. destruct (bm_get s! "fields" tag) as [fv|] eqn:Ef; simpl in Hf; [|done].
  destruct fv; try done. injection Hf as ->. apply bm_get_elem, jdepth_object in Ef, Hw. lia.
Qed.
End ext.

Lemma decode_step_ext rec1 rec2 t v :
  (∀ t w, (jdepth w < jdepth v)%nat → rec1 t w = rec2 t w) →
  decode_step definitions span rec1 t v = decode_step definitions span rec2 t v.
Proof.
  intros Hrec. destruct t; simpl; try done.
  - destruct v; try done. f_equal. apply traverse_ext. intros w Hw.
    by apply Hrec, jdepth_array.
  - destruct v; try done. f_equal. apply traverse_ext. intros [k w] Hw. f_equal.
    eapply Hrec, jdepth_object, Hw.
  - unfold decode_structural. destruct (structural_fields v) as [m|] eqn:E.
    + f_equal. eapply decode_encoded_fields_ext; [exact Hrec|].
      intros. by eapply structural_fields_depth.
    + destruct v; try done. f_equal. eapply decode_object_fields_ext; [exact Hrec|].
      intros k w Hw%bm_get_elem. by eapply jdepth_object.
  - unfold decode_tagged_unary. destruct (yao_object v) as [tag|] eqn:E; [|done].
    repeat (case_match; try done). apply bind_ext; [done|]. intros w Hw%ok_or_Ok.
    rewrite Hrec; [done|]. pose proof (tag_get_depth _ _ _ _ E Hw). lia.
  - unfold decode_result. destruct (yao_object v) as [tag|] eqn:E; [|done].
    case_match; [done|]. apply bind_ext; [done|]. intros w Hw%ok_or_Ok.
    pose proof (tag_get_depth _ _ _ _ E Hw). rewrite !Hrec by lia. done.
  - unfold decode_named. apply bind_ext; [done|]. intros def _.
    destruct (yao_object v) as [tag|] eqn:E; [|done]. apply yao_object_depth in E.
    case_match; [done|]. f_equal. destruct def; (case_match; [done|]).
    + by eapply validate_named_fields_ext.
    + apply bind_ext; [done|]. intros ? _. apply bind_ext; [done|]. intros ? _.
      by eapply validate_named_fields_ext.
Qed.

Lemma decode_fuel_enough n m t v :
  (jdepth v < n)%nat → (jdepth v < m)%nat →
  decode_fuel definitions span n t v = decode_fuel definitions span m t v.
Proof.
  revert m t v. induction n as [|n IH]; intros m t v Hn Hm; [lia|].
  destruct m as [|m]; [lia|]. cbn [decode_fuel]. apply decode_step_ext.
  intros t' w Hw. apply IH; lia.
Qed.

Lemma decode_value_eq t v :
  decode_value definitions span t v
  = decode_step definitions span (decode_value definitions span) t v.
Proof.
  unfold decode_value at 1. cbn [decode_fuel]. apply decode_step_ext.
  intros t' w Hw. unfold decode_value. apply decode_fuel_enough; lia.
Qed.
End fixpoint.

(** ** Typing of transport values *)

(** [v] is a value of type [t]: what the language promises of a value that has
    passed a boundary.  Nominal values carry their type's name and exactly its
    fields; structural records may carry more fields than the type names, and the two
    readers of their entries agree on every field. *)
Section vty.
Context (definitions : Definitions).

Inductive vty : Ty → Json → Prop :=
| V_json v : vty TJson v
| V_nil : vty TNil JNull
| V_bool b : vty TBool (JBool b)
| V_int v z : jas_i64 v = Some z → vty TInt v
| V_float n : vty TFloat (JNumber n)
| V_string s : vty TString (JString s)
| V_bytes s : vty TBytes (JString s)
| V_list t l : Forall (vty t) l → vty (TList t) (JArray l)
| V_map t m : Forall (λ kv, vty t kv.2) m → vty (TMap t) (JObject m)
| V_structural fs v m :
    structural_fields v = Some m → (∀ n, structural_record_field v n = bm_get n m) →
    Forall (λ nt, ∃ w, bm_get nt.1 m = Some w ∧ vty nt.2 w) fs →
    vty (TStructuralRecord fs) v
| V_none t v tag :
    yao_object v = Some tag → get_is "kind" s! "option" tag = true →
    get_is "variant" s! "none" tag = true → vty (TOption t) v
| V_some t v tag w :
    yao_object v = Some tag → get_is "kind" s! "option" tag = true →
    get_is "variant" s! "some" tag = true → bm_get s! "value" tag = Some w →
    vty t w → vty (TOption t) v
| V_ok a b v tag w :
    yao_object v = Some tag → get_is "kind" s! "result" tag = true →
    get_is "variant" s! "ok" tag = true → bm_get s! "value" tag = Some w →
    vty a w → vty (TResult a b) v
| V_err a b v tag w :
    yao_object v = Some tag → get_is "kind" s! "result" tag = true →
    get_is "variant" s! "err" tag = true → bm_get s! "value" tag = Some w →
    vty b w → vty (TResult a b) v
| V_evidence v view : evidence_candidate_view v = Some view → vty TEvidenceCandidate v
| V_outcome v view : outcome_candidate_view v = Some view → vty TOutcomeCandidate v
| V_context v view : context_transaction_view v = Some view → vty TContextTransaction v
| V_ref kind v id : reference_view v = Some (kind, id) → vty (TRef kind) v
| V_program o e v tag h :
    yao_object v = Some tag → get_is "kind" s! "program" tag = true →
    get_str "hash" tag = Some h → vty (TProgram o e) v
| V_record name n fs sp v tag m :
    bm_get name definitions = Some (DRecord n fs sp) →
    yao_object v = Some tag → get_is "type" name tag = true →
    get_is "kind" s! "record" tag = true →
    bm_get s! "fields" tag = Some (JObject m) → length m = length fs →
    Forall (λ d, ∃ w, bm_get (fname d) m = Some w ∧ vty (fty d) w) fs →
    vty (TNamed name) v
| V_variant name n vs sp v tag variant d m :
    bm_get name definitions = Some (DUnion n vs sp) →
    yao_object v = Some tag → get_is "type" name tag = true →
    get_is "kind" s! "variant" tag = true → get_str "variant" tag = Some variant →
    List.find (λ item, vname item =s variant) vs = Some d →
    bm_get s! "fields" tag = Some (JObject m) → length m = length (vfields d) →
    Forall (λ d, ∃ w, bm_get (fname d) m = Some w ∧ vty (fty d) w) (vfields d) →
    vty (TNamed name) v.
End vty.

(** No structural record inside: the types a program can write. *)
Fixpoint source_ty (t : Ty) : bool :=
  match t with
  | TStructuralRecord _ => false
  | TList t | TMap t | TOption t => source_ty t
  | TResult a b => source_ty a && source_ty b
  | TProgram o _ => source_ty o
  | _ => true
  end.

(** Structural records only under lists, maps and structural records: the types
    the checker infers for [par] results and their projections. *)
Fixpoint spine_ty (t : Ty) : bool :=
  match t with
  | TStructuralRecord fs => forallb (λ nt, spine_ty nt.2) fs
  | TList t | TMap t => spine_ty t
  | TOption t | TProgram t _ => source_ty t
  | TResult a b => source_ty a && source_ty b
  | _ => true
  end.

Definition source_definition (d : TypeDefinition) : Prop :=
  Forall (λ t, source_ty t = true) (definition_types d).
Definition source_definitions (ds : Definitions) : Prop :=
  Forall (λ nd, source_definition nd.2) ds.

Lemma source_spine t : source_ty t = true → spine_ty t = true.
Proof. induction t using ty_nested_ind; simpl; auto. done. Qed.

Lemma get_is_str key s m : get_is key s m = true ↔ get_str key m = Some s.
Proof.
  unfold get_is. destruct (get_str key m); [|done]. rewrite str_eqb_eq. naive_solver.
Qed.

Lemma reference_view_Some v kind id :
  reference_view v = Some (kind, id) ↔
  ∃ tag, yao_object v = Some tag ∧ get_is "kind" s! "ref" tag = true
         ∧ get_is "ref_kind" kind tag = true ∧ get_str "id" tag = Some id.
Proof.
  unfold reference_view. destruct (yao_object v) as [tag|]; simpl; [|naive_solver].
  split.
  - destruct (get_is "kind" _ tag) eqn:?; [|done].
    destruct (get_str "ref_kind" tag) eqn:E1; simpl; [|done].
    destruct (get_str "id" tag) eqn:E2; simpl; [|done]. intros [= -> ->].
    exists tag. split_and!; try done. by apply get_is_str.
  - intros (? & [= <-] & -> & H%get_is_str & H2). by rewrite H, H2.
Qed.

Lemma bm_of_list_sorted {V} (m : list (str * V)) : bm_wf m → bm_of_list m = m.
Proof.
  intros Hm. apply bm_ext; [apply bm_wf_of_list|done|]. intros k.
  by apply bm_get_of_list, bm_wf_NoDup.
Qed.

Lemma json_depth_ind (P : Json → Prop) :
  (∀ v, (∀ w, (jdepth w < jdepth v)%nat → P w) → P v) → ∀ v, P v.
Proof.
  intros Hstep v. remember (jdepth v) as n eqn:Hn. revert v Hn.
  induction n as [n IH] using lt_wf_ind. intros v ->. apply Hstep. intros w Hw. by eapply IH.
Qed.

Lemma yao_object_wf v tag : json_wf v → yao_object v = Some tag → json_wf (JObject tag).
Proof.
  unfold yao_object. intros Hv. destruct (jget YAO_TAG v) as [w|] eqn:E; simpl; [|done].
  apply json_wf_get in E; [|done]. destruct w; simpl; try done. by intros [= ->].
Qed.

Lemma tag_get_wf v tag k w :
  json_wf v → yao_object v = Some tag → bm_get k tag = Some w → json_wf w.
Proof. intros Hv Ht Hw. eapply (json_wf_get k (JObject tag)); [by eapply yao_object_wf|done]. Qed.

Lemma structural_entries_wf entries l k v :
  Forall json_wf entries → structural_entries entries = Some l → (k, v) ∈ l → json_wf v.
Proof.
  intros Hall. revert l. induction Hall as [|e es He Hes IH]; intros l; simpl.
  { intros [= <-]. by intros []%elem_of_nil. }
  destruct (jget s! "name" e ≫= jas_str) as [n|]; simpl; [|done].
  destruct (jget s! "value" e) as [w|] eqn:Ew; simpl; [|done].
  destruct (structural_entries es) as [o|]; simpl; [|done]. intros [= <-].
  intros [[= -> ->]|Hin]%elem_of_cons; [by eapply json_wf_get|by eapply IH].
Qed.

Lemma structural_fields_wf v m k w :
  json_wf v → structural_fields v = Some m → bm_get k m = Some w → json_wf w.
Proof.
  unfold structural_fields. intros Hv.
  destruct (yao_object v) as [tag|] eqn:Et; simpl; [|done].
  case_match; [|done]. destruct (bm_get s! "fields" tag) as [fv|] eqn:Ef; simpl; [|done].
  pose proof (tag_get_wf _ _ _ _ Hv Et Ef) as Hfv.
  destruct fv; simpl; try done. destruct (structural_entries l) as [es|] eqn:Es; simpl; [|done].
  intros [= <-] Hk%bm_get_of_list_elem. inversion Hfv; subst.
  by eapply structural_entries_wf.
Qed.

(** Types without components: decoding tests the value and returns it. *)
Definition leaf_ty (t : Ty) : bool :=
  match t with
  | TList _ | TMap _ | TStructuralRecord _ | TOption _ | TResult _ _ | TNamed _ => false
  | _ => true
  end.

Lemma decode_opaque_sound definitions span t v w :
  match t with TRef _ | TProgram _ _ => True | _ => False end →
  decode_opaque span t v = Ok w → w = v ∧ vty definitions t v.
Proof.
  unfold decode_opaque. intros Ht H. destruct (yao_object v) as [tag|] eqn:E; [|done].
  case_match_in H. injection H as <-. split; [done|].
  destruct t; try done; apply andb_true_iff in Heqb as [Hk Hid].
  - apply andb_true_iff in Hk as [Hk ?].
    destruct (get_str "id" tag) eqn:?; [|done]. eapply V_ref, reference_view_Some; eauto.
  - destruct (get_str "hash" tag) eqn:?; [|done]. by eapply V_program.
Qed.

Lemma decode_leaf_sound definitions span t v w :
  leaf_ty t = true → decode_value definitions span t v = Ok w → w = v ∧ vty definitions t v.
Proof.
  intros Hleaf H. rewrite decode_value_eq in H. destruct t; try discriminate Hleaf; simpl in H;
    try (by eapply decode_opaque_sound);
    try (case_match_in H; injection H as <-; split; [done|];
         first [ by econstructor
               | match goal with H : is_some ?x = true |- _ =>
                   destruct x eqn:?; simpl in H; [by econstructor|done] end
               | destruct v; simpl in *; try done; by econstructor ]).
  injection H as <-. split; [done|constructor].
Qed.

Section decode_source.
Context (definitions : Definitions) (span : SourceSpan)
  (Hdefs : source_definitions definitions).
Local Abbreviation decode := (decode_value definitions span).

Definition decodes_to_itself (v : Json) : Prop := ∀ t w,
  source_ty t = true → json_wf v → decode t v = Ok w → w = v ∧ vty definitions t v.

Lemma validate_named_fields_vty fs tag v u :
  (∀ w, (jdepth w < jdepth v)%nat → decodes_to_itself w) →
  Forall (λ d, source_ty (fty d) = true) fs → json_wf v → yao_object v = Some tag →
  validate_named_fields span decode fs tag = Ok u →
  ∃ m, bm_get s! "fields" tag = Some (JObject m) ∧ length m = length fs
       ∧ Forall (λ d, ∃ w, bm_get (fname d) m = Some w ∧ vty definitions (fty d) w) fs.
Proof.
  intros IH Hsrc Hv Htag H. unfold validate_named_fields in H. res_inv.
  destruct (bm_get s! "fields" tag) as [fv|] eqn:Ef; simpl in *; [|done].
  destruct fv; try done. simplify_eq. simpl in *; simplify_eq. exists a. split_and!; [done|by apply Nat.eqb_eq|].
  apply try_each_Ok in H. rewrite Forall_forall in *. intros d Hd.
  specialize (H d Hd). simpl in H. res_inv. eexists. split; [done|].
  pose proof (tag_get_depth _ _ _ _ Htag Ef).
  pose proof (jdepth_object _ _ _ (bm_get_elem _ _ _ Ha)).
  eapply IH; [|exact (Hsrc d Hd)| |eassumption]; [simpl in *; lia|].
  eapply (json_wf_get (fname d) (JObject a)); [by eapply tag_get_wf|done].
Qed.

Lemma source_definition_fields name d :
  bm_get name definitions = Some d →
  match d with
  | DRecord _ fs _ => Forall (λ d, source_ty (fty d) = true) fs
  | DUnion _ vs _ => Forall (λ v, Forall (λ d, source_ty (fty d) = true) (vfields v)) vs
  end.
Proof.
  intros H%bm_get_elem. unfold source_definitions in Hdefs.
  rewrite Forall_forall in Hdefs. apply Hdefs in H. unfold source_definition in H. simpl in H.
  destruct d; simpl in H; [by rewrite Forall_map in H|].
  apply Forall_concat in H. rewrite Forall_map in H. eapply Forall_impl; [done|].
  intros v. simpl. by rewrite Forall_map.
Qed.

(** The cases of the induction: [v] is fixed, its sub-values already decode. *)
Section cases.
Context (v : Json) (IH : ∀ w, (jdepth w < jdepth v)%nat → decodes_to_itself w)
  (Hwf : json_wf v).

Lemma decode_source_list t l w :
  v = JArray l → source_ty t = true → JArray <$> traverse (decode t) l = Ok w →
  w = v ∧ vty definitions (TList t) v.
Proof.
  intros -> Ht H. res_inv. inversion Hwf as [| | | |? Hl|]; subst.
  rewrite Forall_forall in Hl.
  eapply (traverse_id _ (vty definitions t)) in Ha as [-> ?]; [by split; [|constructor]|].
  intros x y Hx Hy. apply IH in Hy; [done|by apply jdepth_array|done|by apply Hl].
Qed.

Lemma decode_source_map t m w :
  v = JObject m → source_ty t = true →
  (λ l, JObject (bm_of_list l)) <$>
    traverse (λ '(name, value), pair name <$> decode t value) m = Ok w →
  w = v ∧ vty definitions (TMap t) v.
Proof.
  intros -> Ht H. res_inv. inversion Hwf as [| | | | |? Hs Hl]; subst.
  rewrite Forall_forall in Hl.
  eapply (traverse_id _ (λ kv, vty definitions t kv.2)) in Ha as [-> ?];
    [split; [by rewrite bm_of_list_sorted|by constructor]|].
  intros [k x] y Hx Hy. res_inv. apply IH in Ha0 as [-> ?]; [done| |done|by apply (Hl (k, x))].
  by eapply jdepth_object.
Qed.

Lemma decode_source_option t w :
  source_ty t = true → decode_tagged_unary span decode s! "option" t v = Ok w →
  w = v ∧ vty definitions (TOption t) v.
Proof.
  unfold decode_tagged_unary. intros Ht H.
  destruct (yao_object v) as [tag|] eqn:E; [|done].
  destruct (get_is "kind" _ tag) eqn:Hk; [|done]. simpl in H.
  destruct (get_is "variant" s! "none" tag) eqn:Hn.
  { injection H as <-. split; [done|]. by eapply V_none. }
  destruct (get_is "variant" s! "some" tag) eqn:Hs; [|done]. res_inv. split; [done|].
  pose proof (tag_get_depth _ _ _ _ E Ha). eapply V_some; [done..|].
  eapply IH; [lia|done|by eapply tag_get_wf|done].
Qed.

Lemma decode_source_result t1 t2 w :
  source_ty t1 = true → source_ty t2 = true → decode_result span decode t1 t2 v = Ok w →
  w = v ∧ vty definitions (TResult t1 t2) v.
Proof.
  unfold decode_result. intros Ht1 Ht2 H.
  destruct (yao_object v) as [tag|] eqn:E; [|done].
  destruct (get_is "kind" _ tag) eqn:Hk; [|done]. simpl in H. res_inv.
  pose proof (tag_get_depth _ _ _ _ E Ha). pose proof (tag_get_wf _ _ _ _ Hwf E Ha).
  destruct (get_is "variant" s! "ok" tag) eqn:Hn.
  { res_inv. split; [done|]. eapply V_ok; [done..|]. eapply IH; [lia|done..]. }
  destruct (get_is "variant" s! "err" tag) eqn:Hs; [|done]. res_inv. split; [done|].
  eapply V_err; [done..|]. eapply IH; [lia|done..].
Qed.

Lemma decode_source_named name w :
  decode_named definitions span decode name v = Ok w →
  w = v ∧ vty definitions (TNamed name) v.
Proof.
  unfold decode_named. intros H. res_inv. apply source_definition_fields in Ha as Hfs.
  destruct (yao_object v) as [tag|] eqn:E; [|done].
  destruct (get_is "type" name tag) eqn:Hty; [|done]. simpl in H. res_inv. split; [done|].
  destruct a as [n fs sp|n vs sp].
  - destruct (get_is "kind" s! "record" tag) eqn:Hk; [|done]. simpl in Ha0.
    eapply validate_named_fields_vty in Ha0 as (m & ? & ? & ?); [|done..]. by eapply V_record.
  - destruct (get_is "kind" s! "variant" tag) eqn:Hk; [|done]. simpl in Ha0. res_inv.
    eapply validate_named_fields_vty in Ha0 as (m & ? & ? & ?); [|done| |done..].
    + by eapply V_variant.
    + rewrite Forall_forall in Hfs. eapply Hfs, list_elem_of_In, find_some; done.
Qed.
End cases.

Lemma decode_source_sound v : decodes_to_itself v.
Proof.
  induction v as [v IH] using json_depth_ind. intros t w Hsrc Hwf H.
  destruct (leaf_ty t) eqn:Hleaf; [by eapply decode_leaf_sound|].
  rewrite decode_value_eq in H. destruct t; try discriminate Hleaf; simpl in H, Hsrc.
  - destruct v; try done. by eapply decode_source_list.
  - destruct v; try done. by eapply decode_source_map.
  - done.
  - by apply decode_source_option.
  - apply andb_true_iff in Hsrc as []. by apply decode_source_result.
  - by apply decode_source_named.
Qed.
End decode_source.

(** ** Completeness *)

Section decode_complete.
Context (definitions : Definitions) (span : SourceSpan).
Local Abbreviation decode := (decode_value definitions span).

Lemma traverse_total {E A B} (f : A → result E B) l :
  (∀ x, x ∈ l → ∃ y, f x = Ok y) → ∃ l', traverse f l = Ok l'.
Proof.
  induction l as [|x l IH]; intros Hf; simpl; [eauto|].
  destruct (Hf x) as [y ->]; [set_solver|]. simpl.
  destruct IH as [l' ->]; [set_solver|]. simpl. eauto.
Qed.

Lemma validate_named_fields_total fs tag m :
  bm_get s! "fields" tag = Some (JObject m) → length m = length fs →
  Forall (λ d, ∃ w w', bm_get (fname d) m = Some w ∧ decode (fty d) w = Ok w') fs →
  validate_named_fields span decode fs tag = Ok tt.
Proof.
  intros Hm Hlen Hall. unfold validate_named_fields. rewrite Hm. simpl.
  rewrite Hlen, Nat.eqb_refl. simpl. apply try_each_Ok. eapply Forall_impl; [exact Hall|].
  intros d (w & w' & Hw & Hdec). simpl. rewrite Hw. simpl. by rewrite Hdec.
Qed.

Lemma decode_encoded_fields_total m fs :
  Forall (λ nt, ∃ w w', bm_get nt.1 m = Some w ∧ decode nt.2 w = Ok w') fs →
  ∃ o, decode_encoded_fields span decode m fs = Ok o.
Proof.
  induction 1 as [|[n t] fs (w & w' & Hw & Hdec) _ [o IH]]; simpl in *; [eauto|].
  rewrite Hw. simpl. rewrite Hdec. simpl. rewrite IH. simpl. eauto.
Qed.

Lemma decode_value_total v t : vty definitions t v → ∃ w, decode t v = Ok w.
Proof.
  revert t. induction v as [v IH] using json_depth_ind. intros t Hv.
  rewrite decode_value_eq. destruct Hv; simpl; try (by eauto).
  - rewrite H. simpl. eauto.
  - destruct (traverse_total (decode t) l) as [l' Hl']; [|by rewrite Hl'; simpl; eauto].
    rewrite Forall_forall in H. intros x Hx. apply IH; [by apply jdepth_array|by apply H].
  - destruct (traverse_total (λ '(name, value), pair name <$> decode t value) m) as [l' Hl'];
      [|rewrite Hl'; simpl; eauto].
    rewrite Forall_forall in H. intros [k x] Hx.
    destruct (IH x) with (t := t) as [y ->]; [by eapply jdepth_object|by apply (H (k, x))|].
    simpl. eauto.
  - unfold decode_structural. rewrite H.
    destruct (decode_encoded_fields_total m fs) as [o ->]; [|simpl; eauto].
    eapply Forall_impl; [exact H1|]. intros [n t] (w & Hw & Ht). simpl in *.
    destruct (IH w) with (t := t) as [y Hy]; [by eapply structural_fields_depth|done|]. eauto.
  - unfold decode_tagged_unary. rewrite H, H0, H1. simpl. eauto.
  - unfold decode_tagged_unary. rewrite H, H0. simpl. case_match; [eauto|].
    rewrite H1, H2. simpl. pose proof (tag_get_depth _ _ _ _ H H2).
    destruct (IH w) with (t := t) as [y ->]; [lia|done|]. simpl. eauto.
  - unfold decode_result. rewrite H, H0, H2, H1. simpl.
    pose proof (tag_get_depth _ _ _ _ H H2).
    destruct (IH w) with (t := a) as [y ->]; [lia|done|]. simpl. eauto.
  - unfold decode_result. rewrite H, H0, H2. simpl.
    assert (get_is "variant" s! "ok" tag = false) as ->.
    { apply get_is_str in H1. unfold get_is. rewrite H1. by vm_compute. }
    rewrite H1. pose proof (tag_get_depth _ _ _ _ H H2).
    destruct (IH w) with (t := b) as [y ->]; [lia|done|]. simpl. eauto.
  - rewrite H. simpl. eauto.
  - rewrite H. simpl. eauto.
  - rewrite H. simpl. eauto.
  - apply reference_view_Some in H as (tag & H1 & H2 & H3 & H4).
    unfold decode_opaque. rewrite H1, H2, H3, H4. simpl. eauto.
  - unfold decode_opaque. rewrite H, H0, H1. simpl. eauto.
  - unfold decode_named. rewrite H, H0, H1, H2. simpl.
    rewrite (validate_named_fields_total _ _ _ H3 H4); [simpl; eauto|].
    eapply Forall_impl; [exact H5|]. intros d (w & Hw & Ht). simpl in *.
    pose proof (tag_get_depth _ _ _ _ H0 H3). apply bm_get_elem in Hw as Hd.
    apply jdepth_object in Hd. destruct (IH w) with (t := fty d) as [y Hy]; [lia|done|]. eauto.
  - unfold decode_named. rewrite H, H0, H1, H2, H3. simpl. rewrite H4. simpl.
    rewrite (validate_named_fields_total _ _ _ H5 H6); [simpl; eauto|].
    eapply Forall_impl; [exact H7|]. intros d' (w & Hw & Ht). simpl in *.
    pose proof (tag_get_depth _ _ _ _ H0 H5). apply bm_get_elem in Hw as Hd.
    apply jdepth_object in Hd. destruct (IH w) with (t := fty d') as [y Hy]; [lia|done|]. eauto.
Qed.
End decode_complete.

(** ** Structural records *)

Lemma structural_entries_map l :
  structural_entries (map (λ '(name, value), structural_entry name value) l) = Some l.
Proof. induction l as [|[n v] l IH]; simpl; [done|]. by rewrite IH. Qed.

Lemma structural_fields_value l :
  structural_fields (structural_record_value l) = Some (bm_of_list l).
Proof.
  unfold structural_fields, structural_record_value, tagged, yao_object. simpl.
  change (get_is "kind" _ _) with true. simpl.
  change (bm_get s! "fields" _) with
    (Some (JArray (map (λ '(name, value), structural_entry name value) l))).
  simpl. by rewrite structural_entries_map.
Qed.

Lemma structural_record_field_value m n :
  structural_record_field (structural_record_value m) n = bm_get n m.
Proof.
  unfold structural_record_field, structural_record_value, tagged, yao_object. simpl.
  change (get_is "kind" _ _) with true. simpl.
  change (bm_get s! "fields" _) with
    (Some (JArray (map (λ '(name, value), structural_entry name value) m))).
  simpl. induction m as [|[k v] m IH]; simpl; [done|].
  change (jget s! "name" (structural_entry k v)) with (Some (JString k)). simpl.
  rewrite str_eqb_sym. by destruct (n =s k).
Qed.

(** With distinct names the two readers of a structural record agree. *)
Lemma structural_record_readers l n :
  NoDup l.*1 → structural_record_field (structural_record_value l) n = bm_get n (bm_of_list l).
Proof. intros Hl. by rewrite structural_record_field_value, bm_get_of_list. Qed.

Lemma jobj_wf l : Forall (λ kv, json_wf kv.2) l → json_wf (jobj l).
Proof.
  rewrite Forall_forall. intros Hl. constructor; [apply bm_wf_of_list|]. apply Forall_forall.
  intros kv Hkv%bm_of_list_elem. apply list_elem_of_fmap in Hkv as (kv' & -> & Hin).
  by apply (Hl kv').
Qed.

Lemma tagged_wf l : Forall (λ kv, json_wf kv.2) l → json_wf (tagged l).
Proof.
  intros Hl. constructor; [repeat constructor|]. constructor; [by apply jobj_wf|constructor].
Qed.

Lemma structural_record_value_wf l :
  Forall (λ nv, json_wf nv.2) l → json_wf (structural_record_value l).
Proof.
  intros Hl. apply tagged_wf. repeat (constructor; simpl). rewrite Forall_map.
  eapply Forall_impl; [exact Hl|]. intros [n v] Hv. apply jobj_wf. by repeat constructor.
Qed.

Section decode_spine.
Context (definitions : Definitions) (span : SourceSpan)
  (Hdefs : source_definitions definitions).
Local Abbreviation decode := (decode_value definitions span).

(** What decoding a structural record returns: the declared fields, in order. *)
Lemma decode_encoded_fields_inv m fs o :
  decode_encoded_fields span decode m fs = Ok o →
  ∃ l, o = map (λ '(name, value), structural_entry name value) l
       ∧ Forall2 (λ nt nv, nt.1 = nv.1 ∧
                    ∃ x, bm_get nt.1 m = Some x ∧ decode nt.2 x = Ok nv.2) fs l.
Proof.
  revert o. induction fs as [|[n t] fs IH]; intros o H; simpl in H; res_inv.
  - exists []. by split.
  - destruct (IH _ Ha1) as (l & -> & Hl). exists ((n, a0) :: l).
    split; [done|]. constructor; [|done]. simpl. eauto.
Qed.

Lemma decode_object_fields_inv m fs m' o :
  decode_object_fields span decode m fs = Ok (m', o) →
  ∃ l, o = map (λ '(name, value), structural_entry name value) l
       ∧ Forall2 (λ nt nv, nt.1 = nv.1 ∧
                    ∃ x, bm_get nt.1 m = Some x ∧ decode nt.2 x = Ok nv.2) fs l.
Proof.
  revert m m' o. induction fs as [|[n t] fs IH]; intros m m' o H; simpl in H; res_inv.
  - simplify_eq. exists []. by split.
  - simplify_eq. destruct (IH _ _ _ Ha1) as (l & -> & Hl).
    exists ((n, a0) :: l). split; [done|]. constructor; simpl; [eauto|].
    eapply Forall2_impl; [exact Hl|]. intros nt nv (-> & x & Hx & ?). split; [done|].
    rewrite bm_get_remove in Hx. case_match; [done|]. eauto.
Qed.

Lemma decode_structural_inv fs v w :
  json_wf v → decode_structural span decode fs v = Ok w →
  ∃ l, w = structural_record_value l
       ∧ Forall2 (λ nt nv, nt.1 = nv.1 ∧ ∃ x, (jdepth x < jdepth v)%nat ∧ json_wf x ∧
                    decode nt.2 x = Ok nv.2) fs l.
Proof.
  unfold decode_structural. intros Hwf H.
  destruct (structural_fields v) as [m|] eqn:E.
  - res_inv. apply decode_encoded_fields_inv in Ha as (l & -> & Hl).
    exists l. split; [done|]. eapply Forall2_impl; [exact Hl|].
    intros nt nv (-> & x & Hx & ?). eauto 10 using structural_fields_depth, structural_fields_wf.
  - destruct v; try done. res_inv. rename al into rest.
    apply decode_object_fields_inv in Ha as (l & -> & Hl).
    destruct rest; [|done]. res_inv. exists l. split; [done|].
    eapply Forall2_impl; [exact Hl|]. intros nt nv (-> & x & Hx & ?).
    split; [done|]. exists x. split_and!; [|by eapply json_wf_get|done].
    by eapply (jdepth_get nv.1).
Qed.

Lemma traverse_fixed {E A} (f : A → result E A) l :
  (∀ x, x ∈ l → f x = Ok x) → traverse f l = Ok l.
Proof.
  induction l as [|x l IH]; intros Hf; simpl; [done|].
  rewrite Hf by set_solver. simpl. rewrite IH by set_solver. done.
Qed.

(** A decoded value is a value of the type, and decodes to itself. *)
Definition normalises (v : Json) : Prop := ∀ t w,
  spine_ty t = true → ty_wf t → json_wf v → decode t v = Ok w →
  json_wf w ∧ vty definitions t w ∧ decode t w = Ok w.

Section cases.
Context (v : Json) (IH : ∀ w, (jdepth w < jdepth v)%nat → normalises w)
  (Hwf : json_wf v).

Lemma decode_spine_list t w :
  spine_ty t = true → ty_wf t → decode (TList t) v = Ok w →
  json_wf w ∧ vty definitions (TList t) w ∧ decode (TList t) w = Ok w.
Proof.
  intros Ht Htwf H. rewrite decode_value_eq in H. destruct v; try done. simpl in H. res_inv.
  assert (∀ y, y ∈ a → json_wf y ∧ vty definitions t y ∧ decode t y = Ok y) as Hall.
  { intros y Hy. apply traverse_Ok in Ha. inversion Hwf as [| | | |? Hl|]; subst.
    apply list_elem_of_lookup in Hy as [i Hi].
    destruct (Forall2_lookup_r _ _ _ _ _ Ha Hi) as (x & Hx & Hxy).
    apply list_elem_of_lookup_2 in Hx. rewrite Forall_forall in Hl.
    eapply IH; [by apply jdepth_array|done|done|by apply Hl|done]. }
  split_and!; [constructor; apply Forall_forall; naive_solver..|].
  rewrite decode_value_eq. simpl. rewrite traverse_fixed; naive_solver.
Qed.

Lemma decode_spine_map t w :
  spine_ty t = true → ty_wf t → decode (TMap t) v = Ok w →
  json_wf w ∧ vty definitions (TMap t) w ∧ decode (TMap t) w = Ok w.
Proof.
  intros Ht Htwf H. rewrite decode_value_eq in H. destruct v; try done. simpl in H. res_inv.
  assert (∀ kv, kv ∈ bm_of_list a →
            json_wf kv.2 ∧ vty definitions t kv.2 ∧ decode t kv.2 = Ok kv.2) as Hall.
  { intros [k y] Hy%bm_of_list_elem. apply traverse_Ok in Ha.
    inversion Hwf as [| | | | |? _ Hl]; subst.
    apply list_elem_of_lookup in Hy as [i Hi].
    destruct (Forall2_lookup_r _ _ _ _ _ Ha Hi) as ([k' x] & Hx & Hxy).
    apply list_elem_of_lookup_2 in Hx. rewrite Forall_forall in Hl. res_inv. simplify_eq.
    eapply IH; [by eapply jdepth_object|done|done|by apply (Hl (k, x))|done]. }
  split_and!.
  - constructor; [apply bm_wf_of_list|]. apply Forall_forall. naive_solver.
  - constructor. apply Forall_forall. naive_solver.
  - rewrite decode_value_eq. simpl. rewrite traverse_fixed.
    + simpl. by rewrite (bm_of_list_sorted (bm_of_list a)) by apply bm_wf_of_list.
    + intros [k y] Hy. apply Hall in Hy as (_ & _ & Hd). simpl in Hd. by rewrite Hd.
Qed.

Lemma decode_encoded_fields_fixed m fs l :
  Forall2 (λ nt nv, nt.1 = nv.1 ∧ bm_get nv.1 m = Some nv.2 ∧ decode nt.2 nv.2 = Ok nv.2) fs l →
  decode_encoded_fields span decode m fs
  = Ok (map (λ '(name, value), structural_entry name value) l).
Proof.
  induction 1 as [|[n t] [n' x] fs l (Hn & Hg & Hd) _ IHl]; simpl in *; [done|].
  subst. rewrite Hg. simpl. rewrite Hd. simpl. by rewrite IHl.
Qed.

Lemma decode_spine_record fs w :
  forallb (λ nt, spine_ty nt.2) fs = true → ty_wf (TStructuralRecord fs) →
  decode (TStructuralRecord fs) v = Ok w →
  json_wf w ∧ vty definitions (TStructuralRecord fs) w
  ∧ decode (TStructuralRecord fs) w = Ok w.
Proof.
  intros Hspine Hty H. rewrite decode_value_eq in H. simpl in H.
  apply decode_structural_inv in H as (l & -> & Hl); [|done].
  inversion Hty as [| | | | | | | | |? Hsorted Hfs| | | | | | | |]; subst.
  assert (Forall2 (λ nt nv, nt.1 = nv.1 ∧ json_wf nv.2 ∧ vty definitions nt.2 nv.2
                            ∧ decode nt.2 nv.2 = Ok nv.2) fs l) as Hl'.
  { rewrite forallb_forall in Hspine. rewrite Forall_forall in Hfs.
    eapply Forall2_impl_in; [exact Hl|]. intros nt nv Hnt _ (Hn & x & Hx & Hxwf & Hd).
    split; [done|]. eapply IH; [exact Hx| |by apply Hfs|done|done].
    apply Hspine. by apply list_elem_of_In. }
  assert (Hkeys : l.*1 = fs.*1).
  { clear -Hl'. induction Hl' as [|?? ?? (Hn & _) _ IH]; [done|]. by rewrite !fmap_cons, Hn, IH. }
  assert (∀ nv, nv ∈ l → bm_get nv.1 (bm_of_list l) = Some nv.2) as Hget.
  { intros [n x] Hin. rewrite bm_get_of_list, (bm_NoDup_get n x); try done;
      rewrite Hkeys; by apply bm_wf_NoDup. }
  split_and!.
  - apply structural_record_value_wf. clear -Hl'.
    induction Hl' as [|?? ?? (_ & ? & _) _ IH]; by constructor.
  - eapply V_structural; [apply structural_fields_value| |].
    { intros n. apply structural_record_readers. rewrite Hkeys. by apply bm_wf_NoDup. }
    clear -Hl' Hget.
    apply Forall_forall. intros nt (i & Hi)%list_elem_of_lookup.
    destruct (Forall2_lookup_l _ _ _ _ _ Hl' Hi) as (nv & Hnv & Hn & _ & Hv & _).
    exists nv.2. rewrite Hn. split; [|done]. apply Hget. by eapply list_elem_of_lookup_2.
  - rewrite decode_value_eq. simpl. unfold decode_structural.
    rewrite structural_fields_value, (decode_encoded_fields_fixed _ _ l); [done|].
    eapply Forall2_impl_in; [exact Hl'|]. naive_solver.
Qed.
End cases.

Lemma decode_spine v : normalises v.
Proof.
  induction v as [v IH] using json_depth_ind. intros t w Ht Htwf Hwf H.
  destruct (source_ty t) eqn:Hs.
  { destruct (decode_source_sound _ span Hdefs v t w) as [-> ?]; done. }
  destruct t; simpl in Ht, Hs; try congruence.
  - apply (decode_spine_list v); try done. by inversion Htwf.
  - apply (decode_spine_map v); try done. by inversion Htwf.
  - by apply (decode_spine_record v).
Qed.
End decode_spine.

(** ** Main theorems *)

(** Decoding terminates and is the recursive function of the source: with fuel bounded by
    the depth of the value it satisfies its own one-step equation. *)
Theorem decode_value_equation definitions span t v :
  decode_value definitions span t v
  = decode_step definitions span (decode_value definitions span) t v.
Proof. apply decode_value_eq. Qed.

(** C5. On the types a program can write, decoding accepts exactly the values of the type,
    and returns them unchanged. *)
Theorem decode_accepts_exactly definitions span t v w :
  source_definitions definitions → source_ty t = true → json_wf v →
  decode_value definitions span t v = Ok w ↔ w = v ∧ vty definitions t v.
Proof.
  intros Hd Ht Hwf. split; [by apply decode_source_sound|].
  intros [-> Hv]. destruct (decode_value_total definitions span v t Hv) as [w Hw].
  pose proof (decode_source_sound definitions span Hd v t w Ht Hwf Hw) as [-> _]. done.
Qed.

Definition sample_definitions : Definitions :=
  [(s! "Note", DRecord s! "Note" [mkField s! "body" TString empty_span] empty_span)].
Definition sample_note : Json :=
  tagged [("kind", JString s! "record"); ("type", JString s! "Note");
          ("fields", jobj [("body", JString s! "hi")])].

Lemma decode_accepts_exactly_witness :
  decode_value sample_definitions empty_span (TNamed s! "Note") sample_note = Ok sample_note ∧
  vty sample_definitions (TNamed s! "Note") sample_note.
Proof.
  assert (decode_value sample_definitions empty_span (TNamed s! "Note") sample_note
          = Ok sample_note) as Hd by (vm_compute; reflexivity).
  split; [exact Hd|].
  apply (decode_accepts_exactly sample_definitions empty_span (TNamed s! "Note") sample_note
           sample_note) in Hd as [_ Hv]; [exact Hv| |reflexivity|].
  - repeat constructor.
  - apply tagged_wf. repeat constructor.
Defined.

(** Decoding normalises: at every type the checker infers, a decoded value is a value of
    the type and decoding it again returns it unchanged. *)
Theorem decode_normalises definitions span t v w :
  source_definitions definitions → spine_ty t = true → ty_wf t → json_wf v →
  decode_value definitions span t v = Ok w →
  vty definitions t w ∧ decode_value definitions span t w = Ok w.
Proof. intros Hd Ht Hw Hv Hok. by apply (decode_spine definitions span Hd v t w). Qed.

Lemma decode_normalises_witness :
  let v := structural_record_value [(s! "x", JNumber (PosInt 1)); (s! "y", JNull)] in
  let w := structural_record_value [(s! "x", JNumber (PosInt 1))] in
  let t := TStructuralRecord [(s! "x", TInt)] in
  vty [] t w ∧ decode_value [] empty_span t w = Ok w.
Proof.
  intros v w t. apply (decode_normalises [] empty_span t v w).
  - constructor.
  - reflexivity.
  - repeat constructor.
  - apply structural_record_value_wf. repeat constructor.
  - vm_compute. reflexivity.
Defined.

(** Building a structural record and viewing it gives back the fields, with a later
    field of the same name replacing an earlier one. *)
Theorem structural_record_roundtrip l :
  structural_fields (structural_record_value l) = Some (bm_of_list l).
Proof. apply structural_fields_value. Qed.
