(* ===== verification/JsonBoundary.v ===== *)
(** * The JSON boundary (yao/src/json.rs)

    Strict adapters between ordinary JSON and Yao values: the check that no
    authority-bearing type crosses ([validate_json_type]), and the two-way
    conversion ([from_json], [to_json]) with its error paths.  The visit recurses
    through declared types, so its fuel counts definitions; the conversion
    recurses on sub-values, so its fuel is the depth of the value. *)

From stdpp Require Import base list gmap strings pretty.
From S2P Require Import Prelude Types JsonValue Diagnostic Syntax SyntaxFacts Canonical Hir Decode DecodeFacts.

(** ** Types that may cross *)

(** The visitor's state: the names on the stack and the names finished. *)
Definition VisitState : Type := (list str * list str)%type.

Definition names_remove (n : str) (s : list str) : list str := List.filter (λ k, negb (n =s k)) s.

Definition out_of_fuel : Message := Msg "out of fuel" [].

Section visit.
Context (defs : Definitions).

(** The Named arm, yao/src/json.rs:102-114; [visit_fields] is the loop over the
    definition's field types. *)
Definition visit_named (visit_fields : list Ty → VisitState → result Message VisitState)
    (name : str) (st : VisitState) : result Message VisitState :=
  let '(stack, done_) := st in
  if bs_contains name done_ then Ok st
  else if bs_contains name stack then Err (Msg "recursive JSON type '{name}'" [AStr name])
  else
    definition ← ok_or (bm_get name defs) (Msg "unknown JSON type '{name}'" [AStr name]);
    '(stack', done') ← visit_fields (definition_types definition) (bs_insert name stack, done_);
    Ok (names_remove name stack', bs_insert name done').

(** yao/src/json.rs:91-117 [validate_json_type::visit].  [fuel] bounds the nesting of
    named types; within one definition the recursion is on the type. *)
Fixpoint visit_type (fuel : nat) : Ty → VisitState → result Message VisitState :=
  fix go (ty : Ty) (st : VisitState) {struct ty} : result Message VisitState :=
    match ty with
    | TNil | TBool | TInt | TFloat | TString | TBytes | TJson => Ok st
    | TList inner | TMap inner | TOption inner => go inner st
    | TResult ok error => st' ← go ok st; go error st'
    | TStructuralRecord fields => foldM (λ st nt, go nt.2 st) st fields
    | TNamed name =>
        match fuel with
        | O => Err out_of_fuel
        | S n => visit_named (λ tys st, foldM (λ st t, visit_type n t st) st tys) name st
        end
    | TEvidenceCandidate | TOutcomeCandidate | TContextTransaction | TRef _ | TProgram _ _ =>
        Err (Msg "{ty:?} cannot cross an ordinary JSON boundary; authority-bearing values require Runtime admission" [ATy ty])
    end.

(** yao/src/json.rs:90-119 [validate_json_type]; one unit of fuel per definition and
    one for the name that closes a cycle or is missing. *)
Definition validate_json_type (ty : Ty) : result Message unit :=
  _ ← visit_type (S (length defs)) ty ([], []); Ok tt.
End visit.

(** ** Paths and shapes *)

Definition hex_digit (n : N) : char := if (n <? 10)%N then (48 + n)%N else (87 + n)%N.

(** [serde_json::to_string] on a string: the characters JSON requires escaped. *)
Definition json_escape_char (c : char) : str :=
  if (c =? 34)%N then s! "\"++[34%N]
  else if (c =? 92)%N then s! "\\"
  else if (c =? 8)%N then s! "\b"
  else if (c =? 9)%N then s! "\t"
  else if (c =? 10)%N then s! "\n"
  else if (c =? 12)%N then s! "\f"
  else if (c =? 13)%N then s! "\r"
  else if (c <? 32)%N then s! "\u00" ++ [hex_digit (c / 16)%N; hex_digit (c mod 16)%N]
  else [c].
Definition json_string (s : str) : str :=
  [34%N] ++ concat (map json_escape_char s) ++ [34%N].

(** yao/src/json.rs:150-155 [field_path]. *)
Definition field_path (path name : str) : str := path ++ s! "[" ++ json_string name ++ s! "]".

(** [format!("{path}[{i}]")]. *)
Definition index_path (path : str) (i : nat) : str :=
  path ++ s! "[" ++ lit (pretty i) ++ s! "]".

(** yao/src/json.rs:164-173 [shape]. *)
Definition shape (value : Json) : str :=
  match value with
  | JNull => s! "null"
  | JBool _ => s! "boolean"
  | JNumber _ => s! "number"
  | JString _ => s! "string"
  | JArray _ => s! "array"
  | JObject _ => s! "object"
  end.

(** yao/src/json.rs:157-162 [object]. *)
Definition object (value : Json) (path : str) : result Message JsonMap :=
  match value with
  | JObject m => Ok m
  | other => Err (Msg "{path}: expected object, found {}" [AStr path; AStr (shape other)])
  end.

(** yao/src/json.rs:175-179 [take]: the value and the remaining fields. *)
Definition take (fields : JsonMap) (name path : str) : result Message (Json * JsonMap) :=
  value ← ok_or (bm_get name fields)
            (Msg "{}: missing required field" [AStr (field_path path name)]);
  Ok (value, bm_remove name fields).

(** yao/src/json.rs:181-186 [empty]. *)
Definition empty_fields (fields : JsonMap) (path : str) : result Message unit :=
  match fields with
  | (key, _) :: _ => Err (Msg "{}: unknown field" [AStr (field_path path key)])
  | [] => Ok tt
  end.

(** ** Conversion *)

Section transform.
Context (defs : Definitions) (span : SourceSpan) (outward : bool).

Section step.
(** The recursive occurrences of [transform]. *)
Context (rec : Ty → Json → str → result Message Json).

(** The loop of yao/src/json.rs:198-204 over the declared fields: the remaining
    input and the output built so far. *)
Fixpoint transform_field_loop (fields : list (str * Ty)) (path : str)
    (input output : JsonMap) : result Message (JsonMap * JsonMap) :=
  match fields with
  | [] => Ok (input, output)
  | (name, ty) :: rest =>
      '(value, input') ← take input name path;
      converted ← rec ty value (field_path path name);
      transform_field_loop rest path input' (bm_insert name converted output)
  end.

(** yao/src/json.rs:188-207 [transform_fields]. *)
Definition transform_fields (fields : list (str * Ty)) (value : Json) (path : str)
    : result Message Json :=
  input ← object value path;
  '(rest, output) ← transform_field_loop fields path input [];
  _ ← empty_fields rest path;
  Ok (JObject output).

Definition field_types (fields : list FieldDefinition) : list (str * Ty) :=
  map (λ f, (fname f, fty f)) fields.

(** yao/src/json.rs:242-265 [transform, the Named arm: discriminant and fields]. *)
Definition named_parts (name : str) (definition : TypeDefinition) (value : Json) (path : str)
    : result Message (option str * Json) :=
  if outward then
    _ ← map_err (λ _, Msg "{path}: expected canonical {ty:?}" [AStr path; ATy (TNamed name)])
          (decode_value defs span (TNamed name) value);
    let tag := jindex YAO_TAG value in
    Ok (jas_str (jindex s! "variant" tag), jindex s! "fields" tag)
  else
    match definition with
    | DUnion _ _ _ =>
        envelope ← object value path;
        '(case_, envelope1) ← take envelope s! "case" path;
        variant ← ok_or (jas_str case_)
                    (Msg "{}: expected variant name" [AStr (field_path path s! "case")]);
        '(fields, envelope2) ← take envelope1 s! "fields" path;
        _ ← empty_fields envelope2 path;
        Ok (Some variant, fields)
    | DRecord _ _ _ => Ok (None, value)
    end.

(** yao/src/json.rs:240-304 [transform, the Named arm].  [defs[name]] panics when the
    name is not declared; [convert] has validated the type before. *)
Definition transform_named (name : str) (value : Json) (path : str) : result Message Json :=
  definition ← ok_or (bm_get name defs) (Msg "panic: no entry found for key" [AStr name]);
  '(variant, fields_value) ← named_parts name definition value path;
  fields ← match definition with
           | DRecord _ fields _ => Ok fields
           | DUnion _ variants _ =>
               vfields <$> ok_or
                 (List.find (λ item, match variant with
                                     | Some v => vname item =s v
                                     | None => false
                                     end) variants)
                 (Msg "{}: unknown variant for {name}"
                    [AStr (field_path path s! "case"); AStr name])
           end;
  let fields_path := if is_some variant then field_path path s! "fields" else path in
  fields' ← transform_fields (field_types fields) fields_value fields_path;
  Ok (if outward then
        match variant with
        | Some v => jobj [("case", JString v); ("fields", fields')]
        | None => fields'
        end
      else
        match variant with
        | Some v => tagged [("kind", jstr "variant"); ("type", JString name);
                            ("variant", JString v); ("fields", fields')]
        | None => tagged [("kind", jstr "record"); ("type", JString name);
                          ("fields", fields')]
        end).

(** yao/src/json.rs:305-333 [transform, the StructuralRecord arm]. *)
Definition transform_structural (fields : list (str * Ty)) (value : Json) (path : str)
    : result Message Json :=
  value' ← (if outward then
              _ ← map_err (λ _, Msg "{path}: expected canonical structural record" [AStr path])
                    (decode_value defs span (TStructuralRecord fields) value);
              Ok (JObject (bm_of_list (map (λ nt,
                    (nt.1, default JNull (structural_record_field value nt.1))) fields)))
            else Ok value);
  fields_value ← transform_fields fields value' path;
  Ok (if outward then fields_value
      else structural_record_value (default [] (jas_object fields_value))).

(** The payload type a case selects, yao/src/json.rs:355-366. *)
Definition case_payload (ty : Ty) (case_ : str) : option (option Ty) :=
  match ty with
  | TOption inner =>
      if case_ =s s! "none" then Some None
      else if case_ =s s! "some" then Some (Some inner) else None
  | TResult ok error =>
      if case_ =s s! "ok" then Some (Some ok)
      else if case_ =s s! "err" then Some (Some error) else None
  | _ => None
  end.

(** yao/src/json.rs:340-350 [transform, the Option and Result arm: the envelope]. *)
Definition tagged_envelope (ty : Ty) (value : Json) (path : str) : result Message JsonMap :=
  if outward then
    _ ← map_err (λ _, Msg "{path}: expected canonical {ty:?}" [AStr path; ATy ty])
          (decode_value defs span ty value);
    tag ← object (jindex YAO_TAG value) path;
    '(case_, tag') ← take (bm_remove s! "kind" tag) s! "variant" path;
    Ok (bm_insert s! "case" case_ tag')
  else object value path.

(** yao/src/json.rs:334-393 [transform, the Option and Result arm]. *)
Definition transform_tagged (ty : Ty) (value : Json) (path : str) : result Message Json :=
  let kind := match ty with TOption _ => "option"%string | _ => "result"%string end in
  envelope ← tagged_envelope ty value path;
  '(case_value, envelope1) ← take envelope s! "case" path;
  case_ ← ok_or (jas_str case_value)
            (Msg "{}: expected string" [AStr (field_path path s! "case")]);
  inner ← ok_or (case_payload ty case_)
            (Msg "{}: invalid case for {ty:?}" [AStr (field_path path s! "case"); ATy ty]);
  let result0 := [(if outward then s! "case" else s! "variant", JString case_)] in
  '(result, envelope2) ←
    match inner with
    | Some inner =>
        '(payload, rest) ← take envelope1 s! "value" path;
        converted ← rec inner payload (field_path path s! "value");
        Ok (bm_insert s! "value" converted result0, rest)
    | None => Ok (result0, envelope1)
    end;
  _ ← empty_fields envelope2 path;
  Ok (if outward then JObject result
      else JObject [(YAO_TAG, JObject (bm_insert s! "kind" (jstr kind) result))]).

(** yao/src/json.rs:219-231 [transform, the List arm], with the index of the element. *)
Fixpoint transform_elements (inner : Ty) (path : str) (i : nat) (values : list Json)
    : result Message (list Json) :=
  match values with
  | [] => Ok []
  | value :: rest =>
      converted ← rec inner value (index_path path i);
      output ← transform_elements inner path (S i) rest;
      Ok (converted :: output)
  end.

(** yao/src/json.rs:209-397 [transform]. *)
Definition transform_step (ty : Ty) (value : Json) (path : str) : result Message Json :=
  match ty with
  | TJson => Ok value
  | TList inner =>
      match value with
      | JArray values => JArray <$> transform_elements inner path 0 values
      | _ => Err (Msg "{path}: expected array, found {}" [AStr path; AStr (shape value)])
      end
  | TMap inner =>
      values ← object value path;
      (λ l, JObject (bm_of_list l)) <$>
        traverse (λ '(name, value), pair name <$> rec inner value (field_path path name)) values
  | TNamed name => transform_named name value path
  | TStructuralRecord fields => transform_structural fields value path
  | TOption _ | TResult _ _ => transform_tagged ty value path
  | _ =>
      map_err (λ _, Msg "{path}: expected {ty:?}, found {}"
                      [AStr path; ATy ty; AStr (shape value)])
        (decode_value defs span ty value)
  end.
End step.

Fixpoint transform_fuel (fuel : nat) (ty : Ty) (value : Json) (path : str)
    : result Message Json :=
  match fuel with
  | O => Err out_of_fuel
  | S n => transform_step (transform_fuel n) ty value path
  end.

(** yao/src/json.rs:209-397 [transform]; the depth of the value is enough fuel: see
    [transform_eq]. *)
Definition transform (ty : Ty) (value : Json) (path : str) : result Message Json :=
  transform_fuel (S (jdepth value)) ty value path.

(** yao/src/json.rs:139-148 [convert]. *)
Definition convert (ty : Ty) (value : Json) : result EvalFailure Json :=
  _ ← map_err (λ m, mkFailure m span) (validate_json_type defs ty);
  map_err (λ m, mkFailure m span) (transform ty value s! "$").
End transform.

(** yao/src/json.rs:121-128 [from_json]. *)
Definition from_json (ty : Ty) (value : Json) (definitions : Definitions) (span : SourceSpan)
    : result EvalFailure Json :=
  convert definitions span false ty value.

(** yao/src/json.rs:130-137 [to_json]. *)
Definition to_json (ty : Ty) (value : Json) (definitions : Definitions) (span : SourceSpan)
    : result EvalFailure Json :=
  convert definitions span true ty value.
