(* ===== verification/JsonBoundaryFacts.v ===== *)
(** * Facts about the JSON boundary

    The fixpoint equation of [transform]; [validate_json_type] accepts exactly the
    well-founded data types; a converted value has its type; and converting a
    value in and back out returns the JSON it came from. *)

From stdpp Require Import base list gmap strings pretty.
From S2P Require Import Prelude Types JsonValue Diagnostic Syntax SyntaxFacts Canonical Hir Decode DecodeFacts JsonBoundary.

(** ** The fixpoint equation *)

Lemma take_Ok m n path v m' :
  take m n path = Ok (v, m') ↔ bm_get n m = Some v ∧ m' = bm_remove n m.
Proof. unfold take. destruct (bm_get n m); simpl; naive_solver. Qed.

Lemma object_Ok v path m : object v path = Ok m ↔ v = JObject m.
Proof. destruct v; simpl; naive_solver. Qed.

Lemma empty_fields_Ok m path u : empty_fields m path = Ok u ↔ m = [].
Proof. destruct m as [|[] ?], u; simpl; naive_solver. Qed.

Lemma jindex_depth k v : (jdepth (jindex k v) ≤ jdepth v)%nat.
Proof.
  unfold jindex. destruct (jget k v) eqn:E; simpl; [|lia]. apply jdepth_get in E. lia.
Qed.

Lemma structural_record_field_depth v n w :
  structural_record_field v n = Some w → (jdepth w < jdepth v)%nat.
Proof.
  unfold structural_record_field. destruct (yao_object v) as [tag|] eqn:Et; simpl; [|done].
  case_match; [|done]. destruct (bm_get s! "fields" tag) as [fv|] eqn:Ef; simpl; [|done].
  destruct fv as [| | | |es|]; simpl; try done.
  destruct (List.find _ es) as [e|] eqn:Ee; simpl; [|done]. intros Hw%jdepth_get.
  apply find_some in Ee as [He%list_elem_of_In _]. apply jdepth_array in He.
  pose proof (tag_get_depth _ _ _ _ Et Ef). simpl in *. lia.
Qed.

Section ext.
Context (defs : Definitions) (span : SourceSpan) (outward : bool).
Implicit Types rec : Ty → Json → str → result Message Json.

Section fields.
Context (rec1 rec2 : Ty → Json → str → result Message Json) (d : nat)
  (Hrec : ∀ t w p, (jdepth w < d)%nat → rec1 t w p = rec2 t w p).

Lemma transform_field_loop_ext fs path input output :
  (∀ k w, bm_get k input = Some w → (jdepth w < d)%nat) →
  transform_field_loop rec1 fs path input output
  = transform_field_loop rec2 fs path input output.
Proof.
  revert input output. induction fs as [|[n t] fs IH]; intros input output Hin; simpl; [done|].
  apply bind_ext; [done|]. intros [v input'] [Hv ->]%take_Ok.
  rewrite Hrec by eauto. apply bind_ext; [done|]. intros c _. apply IH.
  intros k w. rewrite bm_get_remove. case_match; [done|]. apply Hin.
Qed.

Lemma transform_fields_ext fs v path :
  (∀ m k w, v = JObject m → bm_get k m = Some w → (jdepth w < d)%nat) →
  transform_fields rec1 fs v path = transform_fields rec2 fs v path.
Proof.
  intros Hv. unfold transform_fields. apply bind_ext; [done|]. intros m ->%object_Ok.
  rewrite transform_field_loop_ext; [done|]. eauto.
Qed.

Lemma transform_elements_ext t path i l :
  (∀ w, w ∈ l → (jdepth w < d)%nat) →
  transform_elements rec1 t path i l = transform_elements rec2 t path i l.
Proof.
  revert i. induction l as [|w l IH]; intros i Hl; simpl; [done|].
  rewrite Hrec by (apply Hl; set_solver). rewrite IH by set_solver. done.
Qed.
End fields.

Lemma object_entry_depth v m k w :
  (jdepth (JObject m) ≤ jdepth v)%nat → bm_get k m = Some w → (jdepth w < jdepth v)%nat.
Proof. intros Hm Hw%bm_get_elem. apply jdepth_object in Hw. lia. Qed.

Lemma named_parts_depth name def v path variant fv :
  named_parts defs span outward name def v path = Ok (variant, fv) → (jdepth fv ≤ jdepth v)%nat.
Proof.
  unfold named_parts. intros H. destruct outward.
  - res_inv. pose proof (jindex_depth s! "fields" (jindex YAO_TAG v)).
    pose proof (jindex_depth YAO_TAG v). simplify_eq. lia.
  - destruct def; res_inv; [by simplify_eq|].
    apply object_Ok in Ha as ->. apply take_Ok in Ha0 as [_ ->], Ha2 as [Hf ->].
    simplify_eq. rewrite bm_get_remove in Hf. case_match; [done|].
    assert (jdepth fv < jdepth (JObject a))%nat; [|lia]. by eapply object_entry_depth.
Qed.

Lemma tagged_envelope_depth t v path m k w :
  tagged_envelope defs span outward t v path = Ok m →
  bm_get k m = Some w → (jdepth w < jdepth v)%nat.
Proof.
  unfold tagged_envelope. intros H Hk. destruct outward.
  - res_inv. apply object_Ok in Ha0.
    apply take_Ok in Ha1 as [Hc ->]. pose proof (jindex_depth YAO_TAG v) as Hd.
    rewrite Ha0 in Hd. rewrite bm_get_insert, !bm_get_remove in Hk. rewrite bm_get_remove in Hc.
    repeat case_match; simplify_eq; by eapply object_entry_depth.
  - apply object_Ok in H as ->. by eapply object_entry_depth.
Qed.

Lemma structural_value_depth fs v w n :
  decode_structural span (decode_value defs span) fs v = Ok w →
  (jdepth (default JNull (structural_record_field v n)) < jdepth v)%nat.
Proof.
  intros H. destruct (structural_record_field v n) eqn:E; simpl.
  { by eapply structural_record_field_depth. }
  unfold decode_structural in H. destruct v; simpl in *; try done; lia.
Qed.
Lemma transform_step_ext rec1 rec2 t v path :
  (∀ t w p, (jdepth w < jdepth v)%nat → rec1 t w p = rec2 t w p) →
  transform_step defs span outward rec1 t v path = transform_step defs span outward rec2 t v path.
Proof.
  intros Hrec.
  assert (∀ ty, transform_tagged defs span outward rec1 ty v path
                = transform_tagged defs span outward rec2 ty v path) as Htagged.
  { intros ty. unfold transform_tagged. apply bind_ext; [done|]. intros m Hm.
    apply bind_ext; [done|]. intros [c m1] [Hc ->]%take_Ok. apply bind_ext; [done|]. intros ? _.
    apply bind_ext; [done|]. intros [inner|] _; [|done]. f_equal.
    apply bind_ext; [done|]. intros [w m2] [Hw ->]%take_Ok. rewrite Hrec; [done|].
    rewrite bm_get_remove in Hw. case_match; [done|]. by eapply tagged_envelope_depth. }
  destruct t; simpl; try done.
  - destruct v; try done. f_equal. eapply transform_elements_ext; [exact Hrec|].
    intros w Hw. by apply jdepth_array.
  - apply bind_ext; [done|]. intros m ->%object_Ok. f_equal. apply traverse_ext.
    intros [k w] Hw. f_equal. eapply Hrec, jdepth_object, Hw.
  - unfold transform_structural. apply bind_ext; [done|]. intros v' Hv'. f_equal.
    eapply transform_fields_ext; [exact Hrec|]. intros m k w -> Hw. destruct outward.
    + res_inv. rewrite decode_value_eq in Ha. simplify_eq.
      apply bm_get_of_list_elem, list_elem_of_fmap in Hw as (nt & [= -> ->] & _).
      by eapply structural_value_depth.
    + simplify_eq. by eapply object_entry_depth.
  - unfold transform_named. apply bind_ext; [done|]. intros def _.
    apply bind_ext; [done|]. intros [variant fv] Hfv%named_parts_depth.
    apply bind_ext; [done|]. intros fs _. f_equal.
    eapply transform_fields_ext; [exact Hrec|]. intros m k w -> Hw.
    by eapply object_entry_depth.
Qed.

Lemma transform_fuel_enough n m t v path :
  (jdepth v < n)%nat → (jdepth v < m)%nat →
  transform_fuel defs span outward n t v path = transform_fuel defs span outward m t v path.
Proof.
  revert m t v path. induction n as [|n IH]; intros m t v path Hn Hm; [lia|].
  destruct m as [|m]; [lia|]. cbn [transform_fuel]. apply transform_step_ext.
  intros t' w p Hw. apply IH; lia.
Qed.

Lemma transform_eq t v path :
  transform defs span outward t v path
  = transform_step defs span outward (transform defs span outward) t v path.
Proof.
  unfold transform at 1. cbn [transform_fuel]. apply transform_step_ext.
  intros t' w p Hw. unfold transform. apply transform_fuel_enough; lia.
Qed.
End ext.

(** ** Types that may cross *)

(** The data types, read declaratively: scalars, containers of data types, and
    declared types all of whose fields are data types.  The rules are finite, so
    a recursive declaration is not a data type. *)
Inductive json_data (defs : Definitions) : Ty → Prop :=
| J_nil : json_data defs TNil
| J_bool : json_data defs TBool
| J_int : json_data defs TInt
| J_float : json_data defs TFloat
| J_string : json_data defs TString
| J_bytes : json_data defs TBytes
| J_json : json_data defs TJson
| J_list t : json_data defs t → json_data defs (TList t)
| J_map t : json_data defs t → json_data defs (TMap t)
| J_option t : json_data defs t → json_data defs (TOption t)
| J_result a b : json_data defs a → json_data defs b → json_data defs (TResult a b)
| J_record fs : Forall (λ nt, json_data defs nt.2) fs → json_data defs (TStructuralRecord fs)
| J_named n d :
    bm_get n defs = Some d → Forall (json_data defs) (definition_types d) →
    json_data defs (TNamed n).

(** The declared names a type mentions directly. *)
Fixpoint named_in (t : Ty) : list str :=
  match t with
  | TNamed n => [n]
  | TList t | TMap t | TOption t | TProgram t _ => named_in t
  | TResult a b => named_in a ++ named_in b
  | TStructuralRecord fs => concat (map (λ nt, named_in nt.2) fs)
  | _ => []
  end.

Section json_data_ind.
Context (defs : Definitions) (P : Ty → Prop).
Context (HNil : P TNil) (HBool : P TBool) (HInt : P TInt) (HFloat : P TFloat)
  (HString : P TString) (HBytes : P TBytes) (HJson : P TJson)
  (HList : ∀ t, P t → P (TList t)) (HMap : ∀ t, P t → P (TMap t))
  (HOption : ∀ t, P t → P (TOption t)) (HResult : ∀ a b, P a → P b → P (TResult a b))
  (HRecord : ∀ fs, Forall (λ nt, P nt.2) fs → P (TStructuralRecord fs))
  (HNamed : ∀ n d, bm_get n defs = Some d → Forall P (definition_types d) → P (TNamed n)).

Fixpoint json_data_nested_ind t (H : json_data defs t) : P t :=
  match H with
  | J_nil _ => HNil | J_bool _ => HBool | J_int _ => HInt | J_float _ => HFloat
  | J_string _ => HString | J_bytes _ => HBytes | J_json _ => HJson
  | J_list _ t H => HList t (json_data_nested_ind t H)
  | J_map _ t H => HMap t (json_data_nested_ind t H)
  | J_option _ t H => HOption t (json_data_nested_ind t H)
  | J_result _ a b Ha Hb => HResult a b (json_data_nested_ind a Ha) (json_data_nested_ind b Hb)
  | J_record _ fs H =>
      HRecord fs ((fix go l (H : Forall (λ nt, json_data defs nt.2) l) : Forall (λ nt, P nt.2) l :=
                     match H with
                     | List.Forall_nil _ => Forall_nil_2 _
                     | List.Forall_cons _ _ _ Hx Hr =>
                         Forall_cons_2 _ _ _ (json_data_nested_ind _ Hx) (go _ Hr)
                     end) fs H)
  | J_named _ n d Hd H =>
      HNamed n d Hd ((fix go l (H : Forall (json_data defs) l) : Forall P l :=
                     match H with
                     | List.Forall_nil _ => Forall_nil_2 _
                     | List.Forall_cons _ _ _ Hx Hr =>
                         Forall_cons_2 _ _ _ (json_data_nested_ind _ Hx) (go _ Hr)
                     end) _ H)
  end.
End json_data_ind.

Lemma names_remove_insert n s : n ∉ s → names_remove n (bs_insert n s) = s.
Proof.
  unfold names_remove. assert (∀ l, n ∉ l → List.filter (λ k, negb (n =s k)) l = l) as Hf.
  { induction l as [|k l IH]; intros Hn; simpl; [done|].
    destruct (str_eqb_spec n k); [set_solver|]. simpl. rewrite IH; set_solver. }
  induction s as [|k s IH]; intros Hn; simpl; [by rewrite str_eqb_refl|].
  destruct (str_cmp n k) eqn:E; simpl.
  - apply str_cmp_eq in E. set_solver.
  - rewrite str_eqb_refl. simpl. apply (Hf (k :: s)). done.
  - destruct (str_eqb_spec n k); [set_solver|]. simpl. rewrite IH; set_solver.
Qed.

Lemma bs_insert_length n s : n ∉ s → length (bs_insert n s) = S (length s).
Proof.
  induction s as [|k s IH]; intros Hn; simpl; [done|]. destruct (str_cmp n k) eqn:E; simpl.
  - apply str_cmp_eq in E. set_solver.
  - done.
  - rewrite IH; set_solver.
Qed.

Lemma bs_insert_NoDup n s : n ∉ s → NoDup s → NoDup (bs_insert n s).
Proof.
  induction s as [|k s IH]; intros Hn Hs; simpl; [by apply NoDup_singleton|].
  destruct (str_cmp n k) eqn:E; simpl.
  - apply str_cmp_eq in E. set_solver.
  - by constructor.
  - apply NoDup_cons in Hs as [Hk Hs]. constructor; [|set_solver].
    rewrite bs_insert_In. set_solver.
Qed.

Section validate.
Context (defs : Definitions).

(** *** Soundness *)

Definition finished (done_ : list str) : Prop := ∀ n, n ∈ done_ → json_data defs (TNamed n).

Definition visit_sound_at (fuel : nat) (t : Ty) : Prop := ∀ st st',
  finished st.2 → visit_type defs fuel t st = Ok st' → json_data defs t ∧ finished st'.2.

Lemma foldM_visit_sound {A} (f : A → Ty) (go : Ty → VisitState → result Message VisitState) l st st' :
  Forall (λ x, ∀ st st', finished st.2 → go (f x) st = Ok st' →
                         json_data defs (f x) ∧ finished st'.2) l →
  finished st.2 → foldM (λ st x, go (f x) st) st l = Ok st' →
  Forall (λ x, json_data defs (f x)) l ∧ finished st'.2.
Proof.
  intros Hl. revert st. induction Hl as [|x l Hx Hl IH]; intros st Hst H; simpl in H.
  { injection H as <-. by split; [constructor|]. }
  res_inv. destruct (Hx _ _ Hst Ha) as [? Ha2]. destruct (IH _ Ha2 H) as [? ?].
  by split; [constructor|].
Qed.

Lemma visit_sound fuel t : visit_sound_at fuel t.
Proof.
  revert t. induction fuel as [|fuel IHf]; intros t; induction t using ty_nested_ind;
    intros st st' Hst H0; simpl in H0;
    try (injection H0 as <-; split; [constructor|done]); try done.
  all: try (destruct (IHt _ _ Hst H0); split; [by constructor|done]).
  all: try (res_inv; destruct (IHt1 _ _ Hst Ha) as [? Ha2];
            destruct (IHt2 _ _ Ha2 H0); by split; [constructor|]).
  all: try (eapply (foldM_visit_sound snd) in H0 as [? ?]; [|done..]; by split; [constructor|]).
  unfold visit_named in H0. destruct st as [stack dn]. simpl in *.
  destruct (bs_contains n dn) eqn:En.
  { injection H0 as <-. split; [|done]. apply Hst. by apply bs_contains_In. }
  case_match; [done|]. res_inv.
  eapply (foldM_visit_sound id (visit_type defs fuel)) in Ha0 as [? Hfin];
    [|apply Forall_forall; intros; by eapply IHf|done].
  assert (json_data defs (TNamed n)) by by econstructor.
  split; [done|]. intros k. simpl. rewrite bs_insert_In. intros [->|?]; [done|by apply Hfin].
Qed.
(** *** Termination *)

(** The stack holds distinct declared names, and the fuel exceeds the number of
    declared names that are not on it. *)
Definition stack_ok (fuel : nat) (stack : list str) : Prop :=
  NoDup stack ∧ stack ⊆ defs.*1 ∧ (length defs < length stack + fuel)%nat.

Lemma stack_ok_fuel fuel stack : stack_ok fuel stack → (0 < fuel)%nat.
Proof.
  intros (Hnd & Hsub & Hlen).
  assert (length stack ≤ length defs)%nat; [|lia].
  rewrite <- (length_fmap fst defs). by apply submseteq_length, NoDup_submseteq.
Qed.

Lemma stack_ok_push fuel stack n d :
  stack_ok (S fuel) stack → bs_contains n stack = false → bm_get n defs = Some d →
  stack_ok fuel (bs_insert n stack).
Proof.
  intros (Hnd & Hsub & Hlen) Hn Hd.
  assert (n ∉ stack) by (rewrite <- bs_contains_In; congruence).
  split_and!; [by apply bs_insert_NoDup| |rewrite bs_insert_length by done; lia].
  intros k [->|?]%bs_insert_In; [|by apply Hsub].
  apply bm_get_elem in Hd. apply list_elem_of_fmap. by exists (n, d).
Qed.

(** With enough fuel a visit either restores the stack or reports a real error. *)
Definition visit_ends (r : result Message VisitState) (st : VisitState) : Prop :=
  match r with Ok st' => st'.1 = st.1 | Err m => m ≠ out_of_fuel end.

Lemma foldM_visit_ends {A} (f : A → VisitState → result Message VisitState) l st (P : list str → Prop) :
  Forall (λ x, ∀ st, P st.1 → visit_ends (f x st) st) l → P st.1 →
  visit_ends (foldM (λ st x, f x st) st l) st.
Proof.
  intros Hl. revert st. induction Hl as [|x l Hx Hl IH]; intros st Hst; simpl; [done|].
  specialize (Hx st Hst). destruct (f x st) as [st1|e]; simpl in *; [|done].
  specialize (IH st1). rewrite Hx in IH. specialize (IH Hst).
  unfold visit_ends in *. by destruct (foldM _ _ _); rewrite ?IH.
Qed.

Lemma visit_terminates fuel t st : stack_ok fuel st.1 → visit_ends (visit_type defs fuel t st) st.
Proof.
  revert t st. induction fuel as [|fuel IHf].
  { intros t st Hst%stack_ok_fuel. lia. }
  intros t. induction t using ty_nested_ind; intros st Hst; simpl; try done; try by apply IHt.
  - eapply (foldM_visit_ends (λ nt : str * Ty, visit_type defs (S fuel) nt.2)
              _ _ (stack_ok (S fuel))); done.
  - pose proof (IHt1 st Hst) as H1. simpl in H1. destruct (_ t1 st) as [st1|e]; simpl in *; [|done].
    specialize (IHt2 st1). rewrite H1 in IHt2. specialize (IHt2 Hst).
    unfold visit_ends in *. by destruct (_ t2 st1); rewrite ?IHt2.
  - unfold visit_named. destruct st as [stack dn]. simpl in *.
    destruct (bs_contains n dn) eqn:En; [done|].
    destruct (bs_contains n stack) eqn:Es; [done|].
    destruct (bm_get n defs) as [d|] eqn:Ed; simpl; [|done].
    eapply (stack_ok_push _ _ _ _ Hst Es) in Ed as Hpush.
    assert (Hv : visit_ends (foldM (λ st t, visit_type defs fuel t st)
                   (bs_insert n stack, dn) (definition_types d)) (bs_insert n stack, dn)).
    { eapply (foldM_visit_ends (visit_type defs fuel) _ _ (stack_ok fuel)); [|done].
      apply Forall_forall. intros t _ st Hst'. by apply IHf. }
    destruct (foldM _ _ _) as [[stack' dn']|e]; simpl in *; [|done]. subst.
    apply names_remove_insert. rewrite <- bs_contains_In. congruence.
Qed.

(** *** Completeness *)

(** The definition of [a] mentions [b]. *)
Definition depends (a b : str) : Prop :=
  ∃ d t, bm_get a defs = Some d ∧ t ∈ definition_types d ∧ b ∈ named_in t.

Lemma json_data_accessible t :
  json_data defs t → ∀ n, n ∈ named_in t → Acc (flip depends) n.
Proof.
  induction 1 as [| | | | | | |t IH|t IH|t IH|a b IHa IHb|fs IH|n d Hd IH]
    using json_data_nested_ind; simpl; try exact IH;
    try (intros ? Hnil; apply elem_of_nil in Hnil; contradiction).
  - intros n [?|?]%elem_of_app; auto.
  - intros n (l & (nt & -> & Hnt)%list_elem_of_fmap & Hn)%elem_of_concat.
    rewrite Forall_forall in IH. by eapply IH.
  - intros k ->%list_elem_of_singleton. constructor. intros m (d' & t & Hd' & Ht & Hm).
    simplify_eq. rewrite Forall_forall in IH. by eapply IH.
Qed.

Lemma accessible_irrefl n : Acc (flip depends) n → ¬ tc depends n n.
Proof.
  induction 1 as [n _ IH]. intros Hcycle. inversion Hcycle as [? ? Hd|? m ? Hd Hr]; subst.
  - by apply (IH n Hd).
  - apply (IH m Hd). by eapply tc_r.
Qed.

(** Every name on the stack leads to the type being visited. *)
Definition stack_above (stack : list str) (t : Ty) : Prop :=
  ∀ s n, s ∈ stack → n ∈ named_in t → tc depends s n.

Lemma foldM_visit_ok {A} (f : A → VisitState → result Message VisitState) l st stack :
  Forall (λ x, ∀ st, st.1 = stack → is_ok (f x st) = true ∧ visit_ends (f x st) st) l →
  st.1 = stack → is_ok (foldM (λ st x, f x st) st l) = true.
Proof.
  intros Hl. revert st. induction Hl as [|x l Hx Hl IH]; intros st Hst; simpl; [done|].
  destruct (Hx st Hst) as [Hok Hend]. destruct (f x st) as [st1|e]; simpl in *; [|done].
  apply IH. congruence.
Qed.

Lemma visit_complete fuel t st :
  json_data defs t → stack_ok fuel st.1 → stack_above st.1 t →
  is_ok (visit_type defs fuel t st) = true.
Proof.
  revert t st. induction fuel as [|fuel IHf].
  { intros t st _ Hst%stack_ok_fuel. lia. }
  intros t. induction t using ty_nested_ind; intros st Hd Hst Habove;
    inversion Hd; subst; simpl; try done; try by apply IHt.
  - eapply (foldM_visit_ok (λ nt : str * Ty, visit_type defs (S fuel) nt.2)); [|done].
    rewrite Forall_forall in *. intros nt Hnt st' Hst'. rewrite <- Hst' in Hst, Habove.
    split; [|by apply visit_terminates]. apply H; [done|by auto|done|].
    intros a b Ha Hb. apply Habove; [done|]. apply elem_of_concat. eexists. split; [|done].
    apply list_elem_of_fmap. eauto.
  - assert (is_ok (visit_type defs (S fuel) t1 st) = true) as Hok1.
    { apply IHt1; try done. intros a b ??. apply Habove; [done|]. apply elem_of_app. auto. }
    pose proof (visit_terminates _ t1 _ Hst) as Hend. simpl in *.
    destruct (_ t1 st) as [st1|e]; simpl in *; [|done]. rewrite <- Hend in Hst, Habove.
    apply IHt2; try done. intros a b ??. apply Habove; [done|]. apply elem_of_app. auto.
  - rename H0 into Hdef, H1 into Hfields. unfold visit_named.
    destruct st as [stack dn]. simpl in *.
    destruct (bs_contains n dn); [done|]. destruct (bs_contains n stack) eqn:Es.
    { exfalso. apply bs_contains_In in Es. eapply (accessible_irrefl n);
        [eapply (json_data_accessible _ Hd)|apply Habove]; simpl; set_solver. }
    rewrite Hdef. simpl. pose proof (stack_ok_push _ _ _ _ Hst Es Hdef) as Hpush.
    assert (is_ok (foldM (λ st t, visit_type defs fuel t st) (bs_insert n stack, dn)
                     (definition_types d)) = true) as Hok; [|by destruct (foldM _ _ _) as [[]|]].
    eapply foldM_visit_ok; [|done]. rewrite Forall_forall in *. intros t Ht [st' dn'] Hst'.
    simpl in Hst'. subst. split; [|by apply visit_terminates]. apply IHf; [by auto|done|].
    intros a b Ha Hb. simpl in Ha. assert (depends n b) by (exists d, t; auto).
    apply bs_insert_In in Ha as [->|Ha]; [by apply tc_once|].
    eapply tc_r; [apply (Habove a n); [done|simpl; set_solver]|done].
Qed.

Lemma validate_json_type_iff t : validate_json_type defs t = Ok tt ↔ json_data defs t.
Proof.
  assert (stack_ok (S (length defs)) []) as Hstack.
  { split_and!; [constructor|set_solver|simpl; lia]. }
  unfold validate_json_type. split; intros H.
  - res_inv. eapply visit_sound; [|exact Ha]. intros n. simpl. set_solver.
  - pose proof (visit_complete _ t ([], []) H Hstack) as Hok.
    destruct (visit_type _ _ _ _); [done|]. discriminate Hok. intros a b. simpl. set_solver.
Qed.

Lemma validate_json_type_total t : validate_json_type defs t ≠ Err out_of_fuel.
Proof.
  unfold validate_json_type.
  pose proof (visit_terminates (S (length defs)) t ([], [])) as H.
  destruct (visit_type _ _ _ _); simpl in *; [done|]. intros [= ->]. apply H; [|done].
  split_and!; [constructor|set_solver|simpl; lia].
Qed.
End validate.

(** ** Main theorems *)

(** The JSON boundary admits exactly the data types: scalars, containers of data types and
    declared, non-recursive types of data fields; no capability crosses. *)
Theorem json_boundary_admits_data defs t :
  validate_json_type defs t = Ok tt ↔ json_data defs t.
Proof. apply validate_json_type_iff. Qed.

(** The validation of boundary types terminates on every set of definitions, recursive
    ones included: it never runs out of the fuel of one unit per declared type. *)
Theorem json_type_validation_terminates defs t : validate_json_type defs t ≠ Err out_of_fuel.
Proof. apply validate_json_type_total. Qed.

(** Conversion at the JSON boundary terminates and satisfies the one-step equation of the
    source, in both directions. *)
Theorem transform_equation defs span outward t v path :
  transform defs span outward t v path
  = transform_step defs span outward (transform defs span outward) t v path.
Proof. apply transform_eq. Qed.
