(* ===== verification/JsonRoundTrip.v ===== *)
(** * Converting JSON in and back out

    [from_json] builds values of the requested type, and [to_json] on what it built
    returns the JSON it was given: nothing is lost, reordered or defaulted. *)

From stdpp Require Import base list gmap strings pretty.
From S2P Require Import Prelude Types JsonValue Diagnostic Syntax SyntaxFacts Canonical Hir Decode DecodeFacts JsonBoundary JsonBoundaryFacts.

(** ** Ordered maps *)

Lemma bm_insert_perm {V} k (v : V) m : bm_get k m = None → bm_insert k v m ≡ₚ (k, v) :: m.
Proof.
  induction m as [|[j w] m IH]; simpl; [done|].
  destruct (str_eqb_spec k j) as [->|Hne]; [done|]. intros Hm.
  destruct (str_cmp k j) eqn:E; [|done|].
  - by apply str_cmp_eq in E.
  - rewrite IH by done. apply Permutation_swap.
Qed.

Lemma bm_of_list_perm {V} (l : list (str * V)) : NoDup l.*1 → bm_of_list l ≡ₚ l.
Proof.
  unfold bm_of_list. cut (∀ m, NoDup (l.*1 ++ m.*1) →
    fold_left (λ m kv, bm_insert kv.1 kv.2 m) l m ≡ₚ l ++ m).
  { intros H Hl. rewrite H; [by rewrite app_nil_r|]. by rewrite app_nil_r. }
  induction l as [|[k v] l IH]; intros m Hnd; simpl in *; [done|].
  apply NoDup_cons in Hnd as [Hk Hnd]. apply not_elem_of_app in Hk as [Hkl Hkm].
  assert (bm_insert k v m ≡ₚ (k, v) :: m) as Hp by by apply bm_insert_perm, bm_get_None.
  rewrite IH; rewrite Hp; simpl; [by rewrite Permutation_middle|].
  rewrite <- Permutation_middle. by constructor; [apply not_elem_of_app|].
Qed.

Lemma bm_of_list_length {V} (l : list (str * V)) :
  NoDup l.*1 → length (bm_of_list l) = length l.
Proof. intros H. by rewrite bm_of_list_perm. Qed.

(** A sorted map with exactly the listed entries is the map of the list. *)
Lemma bm_of_list_eq {V} (l : list (str * V)) m :
  bm_wf m → NoDup l.*1 → (∀ k v, (k, v) ∈ l → bm_get k m = Some v) →
  (∀ k, k ∈ m.*1 → k ∈ l.*1) → bm_of_list l = m.
Proof.
  intros Hm Hnd Hin Hkeys. apply bm_ext; [apply bm_wf_of_list|done|]. intros k.
  rewrite bm_get_of_list by done. destruct (bm_get k l) as [v|] eqn:E.
  - apply bm_get_elem in E. by rewrite (Hin _ _ E).
  - symmetry. apply bm_get_None. apply bm_get_None in E. auto.
Qed.

(** ** The field loop *)

Section fields.
Context (rec : Ty → Json → str → result Message Json).

(** The converted fields [l] of the declared fields [fs], read from [m]. *)
Definition converted (m : JsonMap) (path : str) (fs : list (str * Ty)) (l : JsonMap) : Prop :=
  Forall2 (λ nt nw, nt.1 = nw.1 ∧
    ∃ x, bm_get nt.1 m = Some x ∧ rec nt.2 x (field_path path nt.1) = Ok nw.2) fs l.

Lemma converted_keys m path fs l : converted m path fs l → l.*1 = fs.*1.
Proof. induction 1 as [|?? ?? (Hn & _) _ IH]; [done|]. by rewrite !fmap_cons, Hn, IH. Qed.

Lemma transform_field_loop_Ok fs path m out rest out' :
  transform_field_loop rec fs path m out = Ok (rest, out') ↔
  ∃ l, converted m path fs l ∧ NoDup fs.*1
       ∧ rest = fold_left (λ m n, bm_remove n m) fs.*1 m
       ∧ out' = fold_left (λ m kv, bm_insert kv.1 kv.2 m) l out.
Proof.
  revert m out. induction fs as [|[n t] fs IH]; intros m out; simpl.
  { split; [intros [= -> ->]; exists []; repeat (constructor || done)|].
    intros (l & Hl & _ & -> & ->). by inversion Hl. }
  split.
  - intros H. res_inv. apply take_Ok in Ha as [Hg ->].
    apply IH in H as (l & Hl & Hnd & -> & ->). exists ((n, a) :: l). split_and!; [| |done..].
    + constructor; [by eauto|]. eapply Forall2_impl; [exact Hl|].
      intros nt nw (Hn & x & Hx & Hr). split; [done|]. rewrite bm_get_remove in Hx.
      case_match; [done|]. eauto.
    + constructor; [|done]. intros Hn%list_elem_of_fmap. destruct Hn as (nt & -> & Hnt).
      apply list_elem_of_lookup in Hnt as [i Hi].
      destruct (Forall2_lookup_l _ _ _ _ _ Hl Hi) as (nw & _ & _ & x & Hx & _).
      by rewrite bm_get_remove, str_eqb_refl in Hx.
  - intros (l & Hl & Hnd & -> & ->). inversion Hl as [|? [k w] ? l' (Hk & x & Hx & Hr) Hl']; subst.
    simpl in *. subst. apply NoDup_cons in Hnd as [Hk Hnd].
    unfold take. rewrite Hx. simpl. rewrite Hr. simpl. apply IH. exists l'.
    split_and!; [|done..]. eapply Forall2_impl_in; [exact Hl'|].
    intros nt nw Hnt _ (Hn & y & Hy & Hry). split; [done|]. exists y. split; [|done].
    rewrite bm_get_remove. destruct (str_eqb_spec k nt.1) as [->|]; [|done].
    destruct Hk. apply list_elem_of_fmap. eauto.
Qed.

Lemma fold_remove_nil (m : JsonMap) (ns : list str) :
  fold_left (λ m n, bm_remove n m) ns m = [] ↔ ∀ k, k ∈ m.*1 → k ∈ ns.
Proof.
  revert m. induction ns as [|n ns IH]; intros m; simpl.
  - split; [intros ->; set_solver|]. destruct m as [|kv m]; [done|]. intros H.
    specialize (H kv.1). set_solver.
  - rewrite IH. assert (∀ k, k ∈ (bm_remove n m).*1 ↔ k ∈ m.*1 ∧ k ≠ n) as Hrem.
    { intros k. assert (∀ (m : JsonMap), k ∈ m.*1 ↔ is_Some (bm_get k m)) as Hs.
      { intros m'. rewrite <- not_eq_None_Some, bm_get_None.
        destruct (decide (k ∈ m'.*1)); tauto. }
      rewrite !Hs, bm_get_remove. destruct (str_eqb_spec n k) as [->|];
        unfold is_Some; naive_solver. }
    setoid_rewrite Hrem. split; intros H k Hk.
    + destruct (decide (k = n)); [set_solver|]. set_solver.
    + destruct Hk. apply H in H0. set_solver.
Qed.

Lemma transform_fields_Ok fs v path w :
  transform_fields rec fs v path = Ok w ↔
  ∃ m l, v = JObject m ∧ w = JObject (bm_of_list l) ∧ NoDup fs.*1 ∧ converted m path fs l
         ∧ ∀ k, k ∈ m.*1 → k ∈ fs.*1.
Proof.
  unfold transform_fields. split.
  - intros H. res_inv. apply object_Ok in Ha as ->.
    apply transform_field_loop_Ok in Ha0 as (l & Hl & Hnd & -> & ->).
    apply empty_fields_Ok in Ha1. exists a, l. split_and!; try done.
    by apply fold_remove_nil.
  - intros (m & l & -> & -> & Hnd & Hl & Hkeys). simpl.
    rewrite (proj2 (transform_field_loop_Ok fs path m [] [] (bm_of_list l))); [done|].
    exists l. split_and!; try done. symmetry. by apply fold_remove_nil.
Qed.
End fields.

(** ** The round trip *)

Lemma transform_elements_inv rec t path i l l' :
  transform_elements rec t path i l = Ok l' → Forall2 (λ x y, ∃ p, rec t x p = Ok y) l l'.
Proof.
  revert i l'. induction l as [|x l IH]; intros i l' H; simpl in H; res_inv; constructor; eauto.
Qed.

Lemma transform_elements_intro rec t path i l l' :
  Forall2 (λ x y, ∀ p, rec t x p = Ok y) l l' → transform_elements rec t path i l = Ok l'.
Proof.
  intros H. revert i. induction H as [|x y l l' Hxy _ IH]; intros i; simpl; [done|].
  rewrite Hxy. simpl. by rewrite IH.
Qed.

Lemma bm_wf_keys {V W} (l : list (str * V)) (m : list (str * W)) :
  l.*1 = m.*1 → bm_wf m → bm_wf l.
Proof.
  intros Hkeys Hm. revert l Hkeys. induction Hm as [|[k w] m Hm IH Hall]; intros l Hkeys.
  - destruct l; [constructor|done].
  - destruct l as [|[k' v] l]; [done|]. rewrite !fmap_cons in Hkeys.
    injection Hkeys as -> Hkeys. constructor; [by apply IH|].
    assert (Forall (λ n, str_cmp k n = Lt) l.*1) as Hl; [|by rewrite Forall_fmap in Hl].
    rewrite Hkeys, Forall_fmap. exact Hall.
Qed.

(** An object with exactly two fields. *)
Lemma object_two_fields k1 k2 (m : JsonMap) a b :
  bm_remove k2 (bm_remove k1 m) = [] → bm_wf m → bm_get k1 m = Some a →
  bm_get k2 (bm_remove k1 m) = Some b → bm_of_list [(k1, a); (k2, b)] = m.
Proof.
  intros Hnil Hm H1 H2. rewrite bm_get_remove in H2.
  destruct (str_eqb_spec k1 k2) as [|Hne]; [done|].
  apply bm_of_list_eq; [done| | |].
  - simpl. repeat constructor; set_solver.
  - intros k v. rewrite !elem_of_cons, elem_of_nil. naive_solver.
  - by apply (fold_remove_nil m [k1; k2]).
Qed.

Lemma object_one_field k (m : JsonMap) a :
  bm_remove k m = [] → bm_wf m → bm_get k m = Some a → m = [(k, a)].
Proof.
  intros Hnil Hm H1. symmetry. change [(k, a)] with (bm_of_list [(k, a)]).
  apply bm_of_list_eq; [done| | |].
  - apply NoDup_singleton.
  - intros k' v. rewrite !elem_of_cons, elem_of_nil. naive_solver.
  - by apply (fold_remove_nil m [k]).
Qed.

Section roundtrip.
Context (defs : Definitions) (span : SourceSpan).
Local Abbreviation inward := (transform defs span false).

(** What converting [j] inwards achieves, at any type and path. *)
Definition comes_back (j : Json) : Prop := ∀ t path v,
  json_wf j → inward t j path = Ok v →
  vty defs t v ∧ ∀ span' path', transform defs span' true t v path' = Ok j.

Section cases.
Context (j : Json) (IH : ∀ w, (jdepth w < jdepth j)%nat → comes_back w) (Hwf : json_wf j).

Lemma comes_back_list t l path v :
  j = JArray l → JArray <$> transform_elements inward t path 0 l = Ok v →
  vty defs (TList t) v ∧ ∀ span' path', transform defs span' true (TList t) v path' = Ok j.
Proof.
  intros -> H. res_inv. apply transform_elements_inv in Ha.
  inversion Hwf as [| | | |? Hl|]; subst. rewrite Forall_forall in Hl.
  assert (Forall2 (λ x y, vty defs t y ∧
            ∀ span' p, transform defs span' true t y p = Ok x) l a) as Hall.
  { eapply Forall2_impl_in; [exact Ha|]. intros x y Hx _ (p & Hp).
    eapply IH; [by apply jdepth_array|by apply Hl|exact Hp]. }
  split.
  - constructor. apply Forall_forall. intros y (i & Hi)%list_elem_of_lookup.
    by destruct (Forall2_lookup_r _ _ _ _ _ Hall Hi) as (x & _ & ? & _).
  - intros span' path'. rewrite transform_eq. simpl.
    rewrite (transform_elements_intro _ _ _ _ a l); [done|].
    clear -Hall. induction Hall; constructor; naive_solver.
Qed.

Lemma comes_back_map t m path v :
  j = JObject m →
  (λ l, JObject (bm_of_list l)) <$>
    traverse (λ '(name, value), pair name <$> inward t value (field_path path name)) m = Ok v →
  vty defs (TMap t) v ∧ ∀ span' path', transform defs span' true (TMap t) v path' = Ok j.
Proof.
  intros -> H. res_inv. apply traverse_Ok in Ha.
  inversion Hwf as [| | | | |? Hs Hl]; subst. rewrite Forall_forall in Hl.
  assert (Forall2 (λ x y, x.1 = y.1 ∧ vty defs t y.2 ∧
            ∀ span' p, transform defs span' true t y.2 p = Ok x.2) m a) as Hall.
  { eapply Forall2_impl_in; [exact Ha|]. intros [k x] y Hx _ Hp. res_inv. split; [done|].
    eapply IH; [by eapply jdepth_object|by apply (Hl (k, x))|eassumption]. }
  assert (Hkeys : a.*1 = m.*1).
  { clear -Hall. induction Hall as [|?? ?? (Hn & _) _ IH]; [done|].
    by rewrite !fmap_cons, Hn, IH. }
  rewrite (bm_of_list_sorted a) by by eapply bm_wf_keys. split.
  - constructor. apply Forall_forall. intros y (i & Hi)%list_elem_of_lookup.
    by destruct (Forall2_lookup_r _ _ _ _ _ Hall Hi) as (x & _ & _ & ? & _).
  - intros span' path'. rewrite transform_eq. simpl.
    rewrite (proj2 (traverse_Ok _ a m)); [simpl; by rewrite bm_of_list_sorted|].
    clear -Hall. induction Hall as [|[k x] [k' y] m a (Hk & _ & Hy) _ IH]; constructor; [|done].
    simpl in *. rewrite Hy. simpl. by rewrite Hk.
Qed.

(** Declared fields: the object built inwards holds values of the field types,
    and converting it outwards gives the object back. *)
Lemma comes_back_fields fs fv path w :
  (jdepth fv ≤ jdepth j)%nat → json_wf fv → transform_fields inward fs fv path = Ok w →
  ∃ m, w = JObject m ∧ bm_wf m ∧ m.*1 ≡ₚ fs.*1 ∧
       Forall (λ nt, ∃ x, bm_get nt.1 m = Some x ∧ vty defs nt.2 x) fs ∧
       ∀ span' path', transform_fields (transform defs span' true) fs w path' = Ok fv.
Proof.
  intros Hd Hfv H. apply transform_fields_Ok in H as (m & l & -> & -> & Hnd & Hl & Hkeys).
  inversion Hfv as [| | | | |? Hs Hm]; subst. rewrite Forall_forall in Hm.
  pose proof (converted_keys _ _ _ _ _ Hl) as Hlk. rewrite <- Hlk in Hnd.
  assert (Forall2 (λ nt nw, nt.1 = nw.1 ∧ ∃ x, bm_get nt.1 m = Some x ∧ vty defs nt.2 nw.2 ∧
            ∀ span' p, transform defs span' true nt.2 nw.2 p = Ok x) fs l) as Hall.
  { eapply Forall2_impl; [exact Hl|]. intros nt nw (Hn & x & Hx & Hr). split; [done|].
    exists x. split; [done|]. eapply IH; [|by eapply (json_wf_get nt.1)|exact Hr].
    by eapply object_entry_depth. }
  assert (∀ nw, nw ∈ l → bm_get nw.1 (bm_of_list l) = Some nw.2) as Hget.
  { intros [n x] Hin. rewrite bm_get_of_list by done. by apply bm_NoDup_get. }
  exists (bm_of_list l). split_and!; [done|apply bm_wf_of_list| | |].
  - rewrite <- Hlk. by rewrite bm_of_list_perm.
  - apply Forall_forall. intros nt (i & Hi)%list_elem_of_lookup.
    destruct (Forall2_lookup_l _ _ _ _ _ Hall Hi) as (nw & Hnw & Hn & x & _ & Hv & _).
    exists nw.2. rewrite Hn. split; [|done]. apply Hget. by eapply list_elem_of_lookup_2.
  - intros span' path'. apply transform_fields_Ok.
    exists (bm_of_list l), (map (λ nt, (nt.1, default JNull (bm_get nt.1 m))) fs).
    assert (Hk2 : (map (λ nt, (nt.1, default JNull (bm_get nt.1 m))) fs).*1 = fs.*1).
    { clear. induction fs as [|nt fs IH]; [done|]. simpl. f_equal. exact IH. }
    split_and!; [done| |by rewrite <- Hlk| |].
    + f_equal. symmetry. apply bm_of_list_eq; [done|by rewrite Hk2, <- Hlk| |by rewrite Hk2].
      intros k v (nt & [= -> ->] & Hnt)%list_elem_of_fmap.
      apply list_elem_of_lookup in Hnt as [i Hi].
      destruct (Forall2_lookup_l _ _ _ _ _ Hall Hi) as (nw & _ & _ & x & Hx & _).
      by rewrite Hx.
    + clear -Hall Hget. unfold converted. revert Hget. generalize (bm_of_list l) as b.
      induction Hall as [|nt nw fs l (Hn & x & Hx & _ & Hr) _ IHl]; intros b Hget;
        constructor; [|apply IHl; set_solver].
      simpl. split; [done|]. exists nw.2. rewrite Hn at 1. split; [apply Hget; set_solver|].
      by rewrite Hr, Hx.
    + intros k Hk. by rewrite <- Hlk, <- (bm_of_list_perm l).
Qed.
Lemma comes_back_structural fs path v :
  transform_structural defs span false inward fs j path = Ok v →
  vty defs (TStructuralRecord fs) v ∧
  ∀ span' path', transform defs span' true (TStructuralRecord fs) v path' = Ok j.
Proof.
  unfold transform_structural. simpl. intros H. res_inv.
  apply comes_back_fields in Ha as (m & -> & Hm & Hkeys & Hvals & Hout); [|lia|done].
  simpl. assert (vty defs (TStructuralRecord fs) (structural_record_value m)) as Hv.
  { eapply V_structural; [apply structural_fields_value| |]; rewrite bm_of_list_sorted by done;
    [apply structural_record_field_value|done]. }
  split; [done|]. intros span' path'. rewrite transform_eq. simpl. unfold transform_structural.
  destruct (decode_value_total _ span' _ _ Hv) as [w ->]. simpl.
  rewrite (bm_of_list_eq _ m), Hout; [done|done| | |].
  - assert ((map (λ nt, (nt.1, default JNull (structural_record_field
               (structural_record_value m) nt.1))) fs).*1 = fs.*1) as ->.
    { clear. induction fs as [|nt fs IH]; [done|]. simpl. f_equal. exact IH. }
    rewrite <- Hkeys. by apply bm_wf_NoDup.
  - intros k x (nt & [= -> ->] & Hnt)%list_elem_of_fmap.
    rewrite structural_record_field_value. rewrite Forall_forall in Hvals.
    destruct (Hvals nt Hnt) as (y & -> & _). done.
  - intros k Hk. rewrite Hkeys in Hk. apply list_elem_of_fmap in Hk as (nt & -> & Hnt).
    apply list_elem_of_fmap. eexists. split; [|apply list_elem_of_fmap; eauto]. done.
Qed.

Lemma field_types_vty fs m :
  m.*1 ≡ₚ (field_types fs).*1 →
  Forall (λ nt, ∃ x, bm_get nt.1 m = Some x ∧ vty defs nt.2 x) (field_types fs) →
  length m = length fs ∧
  Forall (λ d, ∃ w, bm_get (fname d) m = Some w ∧ vty defs (fty d) w) fs.
Proof.
  intros Hk Hall. unfold field_types in *. rewrite Forall_map in Hall. split; [|exact Hall].
  apply Permutation_length in Hk. by rewrite !length_fmap in Hk.
Qed.

Lemma comes_back_named name path v :
  transform_named defs span false inward name j path = Ok v →
  vty defs (TNamed name) v ∧
  ∀ span' path', transform defs span' true (TNamed name) v path' = Ok j.
Proof.
  unfold transform_named. intros (d & Hd%ok_or_Ok & H)%bind_Ok.
  destruct d as [n fs sp|n vs sp]; simpl in H.
  - res_inv.
    apply comes_back_fields in Ha as (m & -> & Hm & Hkeys & Hvals & Hout); [|lia|done].
    destruct (field_types_vty _ _ Hkeys Hvals) as [Hlen Hvals'].
    assert (vty defs (TNamed name) (tagged [("kind", jstr "record");
      ("type", JString name); ("fields", JObject m)]%string)) as Hv.
    { eapply (V_record _ name _ _ _ _ _ m Hd); try reflexivity; try done.
      by apply get_is_str. }
    split; [done|]. intros span' path'. rewrite transform_eq. simpl. unfold transform_named.
    rewrite Hd. simpl. destruct (decode_value_total _ span' _ _ Hv) as [w ->]. simpl.
    change (jindex YAO_TAG _) with (jobj [("kind", jstr "record"); ("type", JString name);
      ("fields", JObject m)]%string).
    change (jas_str _) with (@None str). simpl.
    change (jindex _ _) with (JObject m). rewrite Hout. done.
  - res_inv. simpl in *. apply object_Ok in Ha0 as Hj.
    apply take_Ok in Ha1 as [Hcase ->], Ha5 as [Hfields ->]. apply empty_fields_Ok in Ha6.
    destruct a1l; try done. injection Ha2 as ->.
    pose proof Hwf as Hwf'. rewrite Hj in Hwf'. inversion Hwf' as [| | | | |? Hs _]; subst a0.
    eapply object_two_fields in Ha6; [|done..]. rewrite bm_get_remove in Hfields.
    change (s! "case" =s s! "fields") with false in Hfields. simpl in Hfields.
    apply comes_back_fields in Ha3 as (m' & -> & Hm & Hkeys & Hvals & Hout);
      [|rewrite Hj; by apply Nat.lt_le_incl, (jdepth_get s! "fields")
       |by eapply (json_wf_get s! "fields")].
    destruct (field_types_vty _ _ Hkeys Hvals) as [Hlen Hvals'].
    assert (vty defs (TNamed name) (tagged [("kind", jstr "variant");
      ("type", JString name); ("variant", JString a); ("fields", JObject m')]%string)) as Hv.
    { eapply (V_variant _ name _ _ _ _ _ a a3 m' Hd); try reflexivity; try done.
      by apply get_is_str. }
    split; [done|]. intros span' path'. rewrite transform_eq. simpl. unfold transform_named.
    rewrite Hd. simpl. destruct (decode_value_total _ span' _ _ Hv) as [w ->]. simpl.
    change (jindex YAO_TAG _) with (jobj [("kind", jstr "variant"); ("type", JString name);
      ("variant", JString a); ("fields", JObject m')]%string).
    change (jas_str _) with (Some a). simpl. rewrite Ha4. simpl.
    change (jindex _ _) with (JObject m'). rewrite Hout. simpl. by rewrite Hj, <- Ha6.
Qed.
(** The canonical encodings the inward conversion builds. *)
Definition tag_none (kind : str) (c : str) : JsonMap :=
  [(s! "kind", JString kind); (s! "variant", JString c)].
Definition tag_some (kind : str) (c : str) (w : Json) : JsonMap :=
  [(s! "kind", JString kind); (s! "value", w); (s! "variant", JString c)].

Definition tag_kind (t : Ty) : str :=
  match t with TOption _ => s! "option" | _ => s! "result" end.

Lemma case_payload_vty t c inner w :
  case_payload t c = Some (Some inner) → vty defs inner w →
  vty defs t (JObject [(YAO_TAG, JObject (tag_some (tag_kind t) c w))]).
Proof.
  intros Hc Hw. destruct t; try done; simpl in Hc.
  - destruct (c =s s! "none"); [done|]. destruct (str_eqb_spec c s! "some") as [->|]; [|done].
    injection Hc as <-. eapply V_some; [reflexivity..|done].
  - destruct (str_eqb_spec c s! "ok") as [->|].
    + injection Hc as <-. eapply V_ok; [reflexivity..|done].
    + destruct (str_eqb_spec c s! "err") as [->|]; [|done].
      injection Hc as <-. eapply V_err; [reflexivity..|done].
Qed.

Lemma case_none_vty t c :
  case_payload t c = Some None →
  vty defs t (JObject [(YAO_TAG, JObject (tag_none (tag_kind t) c))]).
Proof.
  intros Hc. destruct t; try done; simpl in Hc.
  - destruct (str_eqb_spec c s! "none") as [Hn|]; [|by destruct (c =s s! "some")].
    rewrite Hn. eapply V_none; reflexivity.
  - destruct (c =s s! "ok"); [done|]. by destruct (c =s s! "err").
Qed.

Lemma transform_tagged_out span' rec t c w inner x path :
  case_payload t c = Some (Some inner) → vty defs inner w → (∀ p, rec inner w p = Ok x) →
  transform_tagged defs span' true rec t
    (JObject [(YAO_TAG, JObject (tag_some (tag_kind t) c w))]) path
  = Ok (JObject [(s! "case", JString c); (s! "value", x)]).
Proof.
  intros Hc Hw Hrec. unfold transform_tagged, tagged_envelope.
  destruct (decode_value_total _ span' _ _ (case_payload_vty _ _ _ _ Hc Hw)) as [y ->].
  simpl.
  change (jindex YAO_TAG _) with (JObject (tag_some (tag_kind t) c w)). simpl.
  change (take (bm_remove _ _) _ path) with
    (Ok (JString c, [(s! "value", w)]) : result Message _). simpl.
  change (take _ s! "case" path) with (Ok (JString c, [(s! "value", w)]) : result Message _).
  simpl. rewrite Hc. simpl.
  change (take _ _ path) with (Ok (w, [] : JsonMap) : result Message _). simpl.
  rewrite Hrec. reflexivity.
Qed.

Lemma transform_tagged_out_none span' rec t c path :
  case_payload t c = Some None →
  transform_tagged defs span' true rec t
    (JObject [(YAO_TAG, JObject (tag_none (tag_kind t) c))]) path
  = Ok (JObject [(s! "case", JString c)]).
Proof.
  intros Hc. unfold transform_tagged, tagged_envelope.
  destruct (decode_value_total _ span' _ _ (case_none_vty _ _ Hc)) as [y ->]. simpl.
  change (jindex YAO_TAG _) with (JObject (tag_none (tag_kind t) c)). simpl.
  change (take (bm_remove _ _) _ path) with
    (Ok (JString c, [] : JsonMap) : result Message _). simpl.
  change (take _ s! "case" path) with (Ok (JString c, [] : JsonMap) : result Message _).
  simpl. by rewrite Hc.
Qed.

Lemma comes_back_tagged t path v :
  match t with TOption _ | TResult _ _ => True | _ => False end →
  transform_tagged defs span false inward t j path = Ok v →
  vty defs t v ∧ ∀ span' path', transform defs span' true t v path' = Ok j.
Proof.
  intros Ht. unfold transform_tagged, tagged_envelope. intros H.
  apply bind_Ok in H as (m & Hj%object_Ok & H).
  apply bind_Ok in H as ([cv m1] & [Hcase ->]%take_Ok & H).
  apply bind_Ok in H as (c & Hc%ok_or_Ok & H). destruct cv; try done. injection Hc as ->.
  apply bind_Ok in H as (inner & Hpay%ok_or_Ok & H).
  assert (bm_wf m) as Hm by (rewrite Hj in Hwf; by inversion Hwf).
  assert (∀ span' v path', transform defs span' true t v path'
            = transform_tagged defs span' true (transform defs span' true) t v path') as Heq.
  { intros. rewrite transform_eq. by destruct t. }
  assert (lit match t with TOption _ => "option" | _ => "result" end = tag_kind t) as Hk
    by by destruct t.
  destruct inner as [inner|]; simpl in H.
  - res_inv. apply take_Ok in Ha0 as [Hval ->]. apply empty_fields_Ok in Ha1.
    pose proof (object_two_fields _ _ _ _ _ Ha1 Hm Hcase Hval) as Hm2.
    rewrite bm_get_remove in Hval. change (s! "case" =s s! "value") with false in Hval.
    destruct (IH a0l) with (t := inner) (path := field_path path s! "value") (v := a0)
      as [Hv Hback]; [|by eapply (json_wf_get s! "value" (JObject m))|done|].
    { by apply (jdepth_get s! "value" (JObject m)). }
    change (bm_insert s! "kind" _ _) with
      (tag_some (lit match t with TOption _ => "option" | _ => "result" end) c a0).
    rewrite Hk. split; [by eapply case_payload_vty|]. intros span' path'.
    rewrite Heq. erewrite transform_tagged_out; [|done..|]; [by rewrite <- Hm2|]. auto.
  - res_inv. apply empty_fields_Ok in Ha.
    pose proof (object_one_field _ _ _ Ha Hm Hcase) as Hm2.
    unfold jstr. rewrite Hk.
    change [(s! "kind", _); (s! "variant", _)] with (tag_none (tag_kind t) c). split; [by eapply case_none_vty|]. intros span' path'.
    rewrite Heq. erewrite transform_tagged_out_none; [|done]. by rewrite Hm2.
Qed.
End cases.

Lemma transform_comes_back j : comes_back j.
Proof.
  induction j as [j IH] using json_depth_ind. intros t path v Hwf H.
  rewrite transform_eq in H. destruct (leaf_ty t) eqn:Hleaf.
  - assert (∀ span' o v path', transform defs span' o t v path'
      = map_err (λ _, Msg "{path}: expected {ty:?}, found {}"
                        [AStr path'; ATy t; AStr (shape v)]) (decode_value defs span' t v)) as Heq.
    { intros. rewrite transform_eq. destruct t; done. }
    rewrite <- transform_eq, Heq in H. res_inv. apply decode_leaf_sound in H as [-> Hv]; [|done].
    split; [done|]. intros span' path'. rewrite Heq.
    destruct (decode_value_total _ span' _ _ Hv) as [w Hw]. rewrite Hw.
    by apply decode_leaf_sound in Hw as [-> _].
  - destruct t; try done; simpl in H.
    + destruct j; try done. by eapply comes_back_list.
    + apply bind_Ok in H as (m & Hj%object_Ok & H). by eapply comes_back_map.
    + by eapply comes_back_structural.
    + by eapply comes_back_tagged.
    + by eapply comes_back_tagged.
    + by eapply comes_back_named.
Qed.
End roundtrip.

Lemma from_json_sound defs sp t j v :
  json_wf j → from_json t j defs sp = Ok v → json_data defs t ∧ vty defs t v.
Proof.
  unfold from_json, convert. intros Hwf H. res_inv. destruct a. split.
  - by apply validate_json_type_iff.
  - by eapply transform_comes_back.
Qed.

Lemma from_json_to_json defs sp sp' t j v :
  json_wf j → from_json t j defs sp = Ok v → to_json t v defs sp' = Ok j.
Proof.
  unfold from_json, to_json, convert. intros Hwf H. res_inv. rewrite Ha. simpl.
  eapply transform_comes_back in H as [_ ->]; done.
Qed.

(** ** Main theorems *)

(** A value accepted from JSON has the declared type, and the type is a data type. *)
Theorem from_json_typed defs sp t j v :
  json_wf j → from_json t j defs sp = Ok v → json_data defs t ∧ vty defs t v.
Proof. apply from_json_sound. Qed.

Definition sample_json : Json := jobj [("body", JString s! "hi")].

Lemma from_json_typed_witness :
  from_json (TNamed s! "Note") sample_json sample_definitions empty_span = Ok sample_note ∧
  json_data sample_definitions (TNamed s! "Note") ∧
  vty sample_definitions (TNamed s! "Note") sample_note.
Proof.
  split; [vm_compute; reflexivity|].
  apply (from_json_typed sample_definitions empty_span (TNamed s! "Note") sample_json).
  - apply jobj_wf. repeat constructor.
  - vm_compute. reflexivity.
Defined.

(** C6. Converting a JSON value to a typed value and back returns the JSON value: the inward
    conversion loses nothing. *)
Theorem json_boundary_roundtrip defs sp sp' t j v :
  json_wf j → from_json t j defs sp = Ok v → to_json t v defs sp' = Ok j.
Proof. apply from_json_to_json. Qed.

Lemma json_boundary_roundtrip_witness :
  to_json (TNamed s! "Note") sample_note sample_definitions empty_span = Ok sample_json.
Proof.
  apply (json_boundary_roundtrip sample_definitions empty_span).
  - apply jobj_wf. repeat constructor.
  - vm_compute. reflexivity.
Defined.
