(* ===== verification/Eval.v ===== *)
(** * The pure evaluator (yao/src/eval.rs)

    [evaluate_pure] on typed expressions.  The mutable environment is passed
    through as a state; a cloned environment is a value used twice.  Failures
    propagate, and only [fallback] catches them, on a cloned environment, so the
    environment after a failure is not part of the result.  An indexing panic of
    the source is the failure [panicked]. *)

From stdpp Require Import base list gmap strings.
From Stdlib Require Import ZArith SpecFloat.
From S2P Require Import Prelude Types JsonValue Diagnostic Syntax SyntaxFacts Canonical Hir Decode DecodeFacts JsonBoundary.

(** [HashMap<String, JsonValue>]. *)
Abbreviation Env := (gmap str Json).

(** yao/src/eval.rs:1095-1100 [fail]. *)
Definition fail {A} (expression : HirExpr) (template : string) (args : list MsgArg)
    : result EvalFailure A :=
  Err (mkFailure (Msg template args) (hspan expression)).

(** [values[i]] with [i] out of range. *)
Definition panicked {A} (expression : HirExpr) : result EvalFailure A :=
  fail expression "panic: index out of bounds" [].

Definition index {A} (expression : HirExpr) (l : list A) (i : nat) : result EvalFailure A :=
  match l !! i with Some x => Ok x | None => panicked expression end.

(** yao/src/eval.rs:371-400 [persisted_record_field]. *)
Definition persisted_record_field (value : Json) (field : str) (definitions : Definitions)
    (span : SourceSpan) : result EvalFailure Json :=
  selected ←
    match yao_object value with
    | Some tag =>
        if get_is "kind" s! "record" tag then
          match get_str "type" tag with
          | Some name =>
              match bm_get name definitions with
              | Some (DRecord _ _ _) =>
                  _ ← decode_value definitions span (TNamed name) value;
                  Ok (bm_get s! "fields" tag ≫= jget field)
              | _ => Ok None
              end
          | None => Ok None
          end
        else if get_is "kind" s! "structural_record" tag then
          Ok (structural_record_field value field)
        else Ok None
    | None => Ok None
    end;
  ok_or selected
    (mkFailure (Msg "persisted record reference has no typed field '{field}'" [AStr field]) span).

(** yao/src/eval.rs:520-543 [literal_value]. *)
Definition literal_value (value : Literal) (expression : HirExpr) : result EvalFailure Json :=
  match value with
  | LNil => Ok JNull
  | LBool b => Ok (JBool b)
  | LInt z => Ok (JNumber (number_of_i64 z))
  | LFloat source =>
      match parse_f64 source with
      | None => fail expression "invalid Float literal '{source}'" [AStr source]
      | Some f =>
          if negb (f64_is_finite f) then fail expression "Float literal is not finite" []
          else match number_of_f64 f with
               | Some n => Ok (JNumber n)
               | None => fail expression "Float literal cannot be represented" []
               end
      end
  | LString s => Ok (JString s)
  end.

(** yao/src/eval.rs:716-721 [as_bool]. *)
Definition as_bool (value : Json) (expression : HirExpr) : result EvalFailure bool :=
  match jas_bool value with
  | Some b => Ok b
  | None => fail expression "boolean operator received a non-Bool value" []
  end.

(** [Ordering::is_lt] and its siblings. *)
Definition ordering_holds (operator : PureOperator) (o : comparison) : bool :=
  match operator, o with
  | OpLess, Lt | OpLessEqual, (Lt | Eq) | OpGreater, Gt | OpGreaterEqual, (Gt | Eq) => true
  | _, _ => false
  end.

(** yao/src/eval.rs:639-662 [compare]. *)
Definition compare (operator : PureOperator) (values : list Json) (expression : HirExpr)
    : result EvalFailure Json :=
  v0 ← index expression values 0;
  v1 ← index expression values 1;
  let ordering :=
    match jas_f64 v0, jas_f64 v1 with
    | Some left_, Some right_ => SFcompare left_ right_
    | _, _ =>
        match jas_str v0, jas_str v1 with
        | Some left_, Some right_ => Some (str_cmp left_ right_)
        | _, _ => None
        end
    end in
  match ordering with
  | Some o => Ok (JBool (ordering_holds operator o))
  | None => fail expression "ordered comparison received incomparable values" []
  end.

(** [Iterator::try_fold] with a checked operation. *)
Definition try_fold (f : Z → Z → option Z) (init : Z) (l : list Z) : option Z :=
  fold_left (λ acc z, a ← acc; f a z) l (Some init).

Definition operator_eqb (a b : PureOperator) : bool :=
  match a, b with
  | OpEqual, OpEqual | OpNotEqual, OpNotEqual | OpLess, OpLess | OpLessEqual, OpLessEqual
  | OpGreater, OpGreater | OpGreaterEqual, OpGreaterEqual | OpAnd, OpAnd | OpOr, OpOr
  | OpNot, OpNot | OpAdd, OpAdd | OpSubtract, OpSubtract | OpMultiply, OpMultiply
  | OpDivide, OpDivide => true
  | _, _ => false
  end.

(** The values as [i64], when all of them are. *)
Fixpoint all_i64 (values : list Json) : option (list Z) :=
  match values with
  | [] => Some []
  | v :: r => z ← jas_i64 v; zs ← all_i64 r; Some (z :: zs)
  end.

(** yao/src/eval.rs:670-685 [numeric, integer operands]. *)
Definition integer_result (operator : PureOperator) (integers : list Z) (expression : HirExpr)
    : result EvalFailure Json :=
  r ← match operator with
      | OpAdd => Ok (try_fold checked_add 0 integers)
      | OpSubtract =>
          a ← index expression integers 0;
          b ← index expression integers 1;
          Ok (checked_sub a b)
      | OpMultiply => Ok (try_fold checked_mul 1 integers)
      | _ => panicked expression
      end;
  match r with
  | Some z => Ok (JNumber (number_of_i64 z))
  | None => fail expression "integer arithmetic overflow" []
  end.

(** yao/src/eval.rs:696-714 [numeric, floating-point operands]; the sum of floats starts
    from negative zero, their product from one. *)
Definition float_result (operator : PureOperator) (numbers : list f64) (expression : HirExpr)
    : result EvalFailure Json :=
  _ ← match operator with
      | OpDivide =>
          d ← index expression numbers 1;
          if SFeqb d (S754_zero false) then fail expression "division by zero" [] else Ok tt
      | _ => Ok tt
      end;
  r ← match operator with
      | OpAdd => Ok (fold_left f64_add numbers (S754_zero true))
      | OpSubtract =>
          a ← index expression numbers 0;
          b ← index expression numbers 1;
          Ok (f64_sub a b)
      | OpMultiply => Ok (fold_left f64_mul numbers (f64_of_Z 1))
      | OpDivide =>
          a ← index expression numbers 0;
          b ← index expression numbers 1;
          Ok (f64_div a b)
      | _ => panicked expression
      end;
  if negb (f64_is_finite r) then fail expression "floating-point result is not finite" []
  else match number_of_f64 r with
       | Some n => Ok (JNumber n)
       | None => fail expression "floating-point result cannot be represented" []
       end.

(** yao/src/eval.rs:664-714 [numeric]. *)
Definition numeric (operator : PureOperator) (values : list Json) (expression : HirExpr)
    : result EvalFailure Json :=
  match all_i64 values, operator with
  | Some integers, (OpAdd | OpSubtract | OpMultiply) =>
      integer_result operator integers expression
  | _, _ =>
      numbers ← traverse (λ v, match jas_f64 v with
                               | Some f => Ok f
                               | None => fail expression "numeric operator received a non-number" []
                               end) values;
      float_result operator numbers expression
  end.

(** yao/src/eval.rs:617-635 [evaluate_operator, strict operators]. *)
Definition apply_strict (operator : PureOperator) (values : list Json) (expression : HirExpr)
    : result EvalFailure Json :=
  match operator with
  | OpEqual =>
      a ← index expression values 0; b ← index expression values 1;
      Ok (JBool (json_eqb a b))
  | OpNotEqual =>
      a ← index expression values 0; b ← index expression values 1;
      Ok (JBool (negb (json_eqb a b)))
  | OpLess | OpLessEqual | OpGreater | OpGreaterEqual => compare operator values expression
  | OpAdd | OpSubtract | OpMultiply | OpDivide => numeric operator values expression
  | OpAnd | OpOr | OpNot => panicked expression
  end.

(** ** Evaluation of sub-expressions *)

Section loops.
(** The recursive occurrences of [evaluate_pure]. *)
Context (eval : HirExpr → Env → result EvalFailure (Json * Env)).

(** [iter().map(evaluate_pure).collect()]. *)
Definition eval_all : list HirExpr → Env → result EvalFailure (list Json * Env) :=
  fix go l env :=
    match l with
    | [] => Ok ([], env)
    | e :: r =>
        '(v, env1) ← eval e env;
        '(vs, env2) ← go r env1;
        Ok (v :: vs, env2)
    end.

(** The loop of [Dict] and of [tagged_fields]: entries inserted in order. *)
Definition eval_entries
    : list (str * HirExpr) → Env → JsonMap → result EvalFailure (JsonMap * Env) :=
  fix go l env output :=
    match l with
    | [] => Ok (output, env)
    | (name, e) :: r =>
        '(v, env1) ← eval e env;
        go r env1 (bm_insert name v output)
    end.

(** yao/src/eval.rs:545-574 [tagged_fields]. *)
Definition tagged_fields (kind : string) (type_name : str) (variant : option str)
    (fields : list (str * HirExpr)) (env : Env) : result EvalFailure (Json * Env) :=
  '(encoded, env') ← eval_entries fields env [];
  let tag := bm_of_list [(s! "kind", jstr kind); (s! "type", JString type_name);
                         (s! "fields", JObject encoded)] in
  let tag' := match variant with
              | Some v => bm_insert s! "variant" (JString v) tag
              | None => tag
              end in
  Ok (JObject [(YAO_TAG, JObject tag')], env').

(** yao/src/eval.rs:576-584 [evaluate_branch]: the caller's environment is untouched. *)
Definition evaluate_branch (e : HirExpr) (env : Env) : result EvalFailure Json :=
  fst <$> eval e env.

(** The short-circuiting loops of yao/src/eval.rs:590-612: [stop] is the operand value
    that ends the loop with the result [stop]. *)
Definition eval_until (stop : bool) (expression : HirExpr)
    : list HirExpr → Env → result EvalFailure (Json * Env) :=
  fix go l env :=
    match l with
    | [] => Ok (JBool (negb stop), env)
    | e :: r =>
        '(v, env1) ← eval e env;
        b ← as_bool v expression;
        if Bool.eqb b stop then Ok (JBool stop, env1) else go r env1
    end.

(** yao/src/eval.rs:586-637 [evaluate_operator]. *)
Definition evaluate_operator (operator : PureOperator) (operands : list HirExpr) (env : Env)
    (expression : HirExpr) : result EvalFailure (Json * Env) :=
  match operator with
  | OpAnd => eval_until false expression operands env
  | OpOr => eval_until true expression operands env
  | OpNot =>
      match operands with
      | e :: _ =>
          '(v, env1) ← eval e env;
          b ← as_bool v expression;
          Ok (JBool (negb b), env1)
      | [] => panicked expression
      end
  | _ =>
      '(values, env1) ← eval_all operands env;
      v ← apply_strict operator values expression;
      Ok (v, env1)
  end.

(** yao/src/eval.rs:220-226 [evaluate_pure, Seq]. *)
Definition eval_steps : list HirExpr → Json → Env → result EvalFailure (Json * Env) :=
  fix go l result env :=
    match l with
    | [] => Ok (result, env)
    | e :: r => '(v, env1) ← eval e env; go r v env1
    end.

(** The bindings of a selected case, yao/src/eval.rs:260-273. *)
Fixpoint bind_case_fields (variant : str) (span : SourceSpan) (bindings : list MatchBinding)
    (fields : JsonMap) (env : Env) : result EvalFailure Env :=
  match bindings with
  | [] => Ok env
  | b :: r =>
      value ← ok_or (bm_get (mb_field b) fields)
                (mkFailure (Msg "variant '{}' is missing field '{}'"
                              [AStr variant; AStr (mb_field b)]) span);
      bind_case_fields variant span r fields (<[mb_binding b := value]> env)
  end.

(** yao/src/eval.rs:247-275 [evaluate_pure, Match]: the case of the variant, with its
    bindings, in a cloned environment. *)
Definition eval_cases (variant : str) (fields : JsonMap) (expression : HirExpr) (env : Env)
    : list MatchCase → result EvalFailure Json :=
  fix go cases :=
    match cases with
    | [] => fail expression "no match case for variant '{variant}'" [AStr variant]
    | mkMatchCase v bindings body span :: r =>
        if v =s variant then
          branch_env ← bind_case_fields v span bindings fields env;
          fst <$> eval body branch_env
        else go r
    end.

(** yao/src/eval.rs:295-301 [evaluate_pure, Map]: the body once per item, each in a
    clone of the environment. *)
Definition eval_items (element : str) (body : HirExpr) (env : Env)
    : list Json → result EvalFailure (list Json) :=
  fix go items :=
    match items with
    | [] => Ok []
    | item :: r =>
        '(v, _) ← eval body (<[element := item]> env);
        vs ← go r;
        Ok (v :: vs)
    end.

(** yao/src/eval.rs:309-324 [evaluate_pure, FunctionApplication: the argument values]. *)
Definition eval_arguments (function : str) (expression : HirExpr)
    : list NamedArgument → Env → Env → result EvalFailure (Env * Env) :=
  fix go arguments values env :=
    match arguments with
    | [] => Ok (values, env)
    | mkNamedArgument name vs _ :: r =>
        match vs with
        | [e] =>
            '(v, env1) ← eval e env;
            go r (<[name := v]> values) env1
        | _ => fail expression
                 "function '{function}' argument '{}' does not contain exactly one value"
                 [AStr function; AStr name]
        end
    end.

(** yao/src/eval.rs:325-337 [evaluate_pure, FunctionApplication: the local environment];
    the argument values that remain and the environment built. *)
Fixpoint link_parameters (function : str) (expression : HirExpr) (parameters : list str)
    (values local : Env) : result EvalFailure (Env * Env) :=
  match parameters with
  | [] => Ok (values, local)
  | parameter :: r =>
      match values !! parameter with
      | Some v => link_parameters function expression r (delete parameter values)
                    (<[parameter := v]> local)
      | None => fail expression "function '{function}' is missing linked argument '{parameter}'"
                  [AStr function; AStr parameter]
      end
  end.

(** yao/src/eval.rs:303-347 [evaluate_pure, FunctionApplication].  The reported
    unexpected argument is some remaining key. *)
Definition eval_application (function : str) (arguments : list NamedArgument)
    (parameters : list str) (body expression : HirExpr) (env : Env)
    : result EvalFailure (Json * Env) :=
  '(values, env1) ← eval_arguments function expression arguments ∅ env;
  let local := match env1 !! s! "runtime" with
               | Some runtime => {[s! "runtime" := runtime]}
               | None => ∅
               end in
  '(rest, local1) ← link_parameters function expression parameters values local;
  match map_to_list rest with
  | (unexpected, _) :: _ =>
      fail expression "function '{function}' received unexpected linked argument '{unexpected}'"
        [AStr function; AStr unexpected]
  | [] => '(v, _) ← eval body local1; Ok (v, env1)
  end.

(** yao/src/eval.rs:348-360 [evaluate_pure, Par]. *)
Definition eval_branches (env : Env) : list ParBranch → result EvalFailure (list (str * Json)) :=
  fix go branches :=
    match branches with
    | [] => Ok []
    | mkParBranch name body _ :: r =>
        v ← evaluate_branch body env;
        vs ← go r;
        Ok ((name, v) :: vs)
    end.
End loops.

(** yao/src/eval.rs:190-206 [evaluate_pure, Get]: the selected field, if any. *)
Definition select_field (definitions : Definitions) (value : HirExpr) (receiver : Json)
    (field : str) : option Json :=
  match hty value with
  | TMap _ => jget field receiver
  | TStructuralRecord _ => structural_record_field receiver field
  | TNamed _ =>
      if is_ok (decode_value definitions (hspan value) (hty value) receiver) then
        tag ← jget YAO_TAG receiver;
        fields ← jget s! "fields" tag;
        jget field fields
      else None
  | _ => None
  end.

(** yao/src/eval.rs:76-88 [evaluate_pure, Reference]. *)
Definition eval_reference (definitions : Definitions) (root : str) (path : option (list str))
    (expression : HirExpr) (env : Env) : result EvalFailure Json :=
  value ← match env !! root with
          | Some v => Ok v
          | None => fail expression "binding '{root}' is unavailable at runtime" [AStr root]
          end;
  foldM (λ v field, persisted_record_field v field definitions (hspan expression)) value
    (default [] path).

(** yao/src/eval.rs:60-369 [evaluate_pure]. *)
Fixpoint evaluate_pure (definitions : Definitions) (expression : HirExpr) (env : Env)
    {struct expression} : result EvalFailure (Json * Env) :=
  let eval := evaluate_pure definitions in
  let 'Hir kind ty effects span := expression in
  if negb (es_is_empty effects) then
    fail expression "pure evaluator received effectful expression {:?}" [AEffects effects]
  else
    match kind with
    | KLiteral value => v ← literal_value value expression; Ok (v, env)
    | KReference root path => v ← eval_reference definitions root path expression env; Ok (v, env)
    | KList elements => '(vs, env1) ← eval_all eval elements env; Ok (JArray vs, env1)
    | KDict entries => '(m, env1) ← eval_entries eval entries env []; Ok (JObject m, env1)
    | KRecord type_name fields => tagged_fields eval "record" type_name None fields env
    | KFromJson target value =>
        '(v, env1) ← eval value env;
        r ← from_json target v definitions span; Ok (r, env1)
    | KToJson value =>
        '(v, env1) ← eval value env;
        r ← to_json (hty value) v definitions span; Ok (r, env1)
    | KVariant type_name variant fields =>
        tagged_fields eval "variant" type_name (Some variant) fields env
    | KOptionSome value =>
        '(v, env1) ← eval value env;
        Ok (tagged [("kind", jstr "option"); ("variant", jstr "some"); ("value", v)], env1)
    | KOptionNone _ => Ok (tagged [("kind", jstr "option"); ("variant", jstr "none")], env)
    | KResultOk value _ =>
        '(v, env1) ← eval value env;
        Ok (tagged [("kind", jstr "result"); ("variant", jstr "ok"); ("value", v)], env1)
    | KResultErr value _ =>
        '(v, env1) ← eval value env;
        Ok (tagged [("kind", jstr "result"); ("variant", jstr "err"); ("value", v)], env1)
    | KEvidenceCandidate kind value refs =>
        '(k, env1) ← eval kind env;
        '(v, env2) ← eval value env1;
        '(rs, env3) ← eval_all eval refs env2;
        Ok (tagged [("kind", jstr "evidence_candidate"); ("evidence_kind", k); ("value", v);
                    ("refs", JArray rs)], env3)
    | KOutcomeCandidate status value evidence =>
        '(v, env1) ← eval value env;
        '(es, env2) ← eval_all eval evidence env1;
        Ok (tagged [("kind", jstr "outcome_candidate"); ("status", JString status); ("value", v);
                    ("evidence", JArray es)], env2)
    | KContextTransaction context source =>
        '(c, env1) ← eval context env;
        Ok (tagged [("kind", jstr "context_transaction"); ("context", c);
                    ("canonical_source", JString source)], env1)
    | KGet value field =>
        '(receiver, env1) ← eval value env;
        match select_field definitions value receiver field with
        | Some v => Ok (v, env1)
        | None => fail expression "value has no field '{field}'" [AStr field]
        end
    | KDecode target value =>
        '(v, env1) ← eval value env;
        r ← decode_value definitions span target v; Ok (r, env1)
    | KIs target value =>
        '(v, env1) ← eval value env;
        Ok (JBool (is_ok (decode_value definitions span target v)), env1)
    | KPure operator operands => evaluate_operator eval operator operands env expression
    | KSeq steps => eval_steps eval steps JNull env
    | KBind name value =>
        '(v, env1) ← eval value env;
        if is_some (env1 !! name) then fail expression "binding '{name}' was overwritten" [AStr name]
        else Ok (JNull, <[name := v]> env1)
    | KIf condition when_true when_false =>
        '(c, env1) ← eval condition env;
        match c with
        | JBool true => v ← evaluate_branch eval when_true env1; Ok (v, env1)
        | JBool false => v ← evaluate_branch eval when_false env1; Ok (v, env1)
        | _ => fail expression "if condition was not Bool after type checking" []
        end
    | KMatch value cases =>
        '(v, env1) ← eval value env;
        match variant_parts v with
        | None => fail expression "match value is not a Yao union variant" []
        | Some (variant, fields) =>
            r ← eval_cases eval variant fields expression env1 cases; Ok (r, env1)
        end
    | KFallback primary backup =>
        match eval primary env with
        | Ok (v, _) => Ok (v, env)
        | Err _ => v ← evaluate_branch eval backup env; Ok (v, env)
        end
    | KMap collection element body =>
        '(v, env1) ← eval collection env;
        match v with
        | JArray items => vs ← eval_items eval element body env1 items; Ok (JArray vs, env1)
        | _ => fail expression "map collection was not a List after type checking" []
        end
    | KFunctionApplication function arguments parameters body =>
        eval_application eval function arguments parameters body expression env
    | KPar branches =>
        vs ← eval_branches eval env branches; Ok (structural_record_value vs, env)
    | KCall _ _ | KInferBody _ _ _ _ | KRun _ | KHost _ _ =>
        fail expression "effectful node reached the pure evaluator after semantic analysis" []
    end.
