(* ===== verification/Declarations.v ===== *)
(** * Declarations (yao/src/sema.rs, forms and declarations)

    The analyzer's helpers on concrete syntax and types, the parsers of types,
    effects, type declarations, requirements and function declarations, and the
    checks on type declarations (known names, no recursion).  Unicode character
    classes are a parameter, [CharClass]. *)

From stdpp Require Import base list gmap strings.
From S2P Require Import Prelude Types JsonValue Diagnostic Syntax SyntaxFacts Canonical Hir Decode JsonBoundary.

Local Open Scope N_scope.

(** [char::is_alphabetic] and [char::is_alphanumeric]: Unicode tables. *)
Class CharClass : Type := {
  is_alphabetic : char → bool;
  is_alphanumeric : char → bool
}.

Definition ascii_alphabetic (c : char) : bool :=
  ((65 <=? c) && (c <=? 90)) || ((97 <=? c) && (c <=? 122)).

(** The two classes restricted to ASCII. *)
Definition ascii_classes : CharClass := {|
  is_alphabetic := ascii_alphabetic;
  is_alphanumeric c := ascii_alphabetic c || is_ascii_digit c
|}.

Abbreviation R := (result Diagnostic).

(** ** Functions *)

(** yao/src/sema.rs:194-199 [FunctionVisibility]. *)
Inductive FunctionVisibility : Type := Internal | Exported.

(** yao/src/sema.rs:201-206 [FunctionParameter]. *)
Record FunctionParameter : Type := mkParameter { p_name : str; p_ty : Ty; p_span : SourceSpan }.

(** yao/src/sema.rs:208-217 [FunctionDeclaration]. *)
Record FunctionDeclaration : Type := mkFunctionDeclaration {
  fd_name : str;
  fd_visibility : FunctionVisibility;
  fd_parameters : list FunctionParameter;
  fd_returns : Ty;
  fd_declared_effects : option EffectSet;
  fd_body : Expr;
  fd_span : SourceSpan
}.

(** yao/src/sema.rs:219-223 [CompiledFunction]. *)
Record CompiledFunction : Type := mkCompiled {
  cf_declaration : FunctionDeclaration;
  cf_body : HirExpr
}.

(** ** Helpers on syntax *)

(** yao/src/sema.rs:4261-4263 [key_span]. *)
Definition key_span (key : str) (span : SourceSpan) : SourceSpan := span.

(** yao/src/sema.rs:3877-3881 [expect_list]. *)
Definition expect_list (e : Expr) (message : string) : R (list Expr) :=
  ok_or (as_list e) (diag TypeMismatch message [] (espan e)).

(** yao/src/sema.rs:3883-3887 [expect_symbol]. *)
Definition expect_symbol (e : Expr) (message : string) : R str :=
  ok_or (as_symbol e) (diag UnknownName message [] (espan e)).

(** yao/src/sema.rs:3889-3898 [atom_text]. *)
Definition atom_text (e : Expr) (message : string) : R str :=
  match e with
  | EAtom a => Ok (avalue a)
  | EList _ _ => Err (diag TypeMismatch message [] (espan e))
  end.

(** [items.first().and_then(Expr::as_symbol)]. *)
Definition head_symbol (items : list Expr) : option str := head items ≫= as_symbol.

(** [items.first().and_then(Expr::as_symbol) == Some(name)]. *)
Definition head_is (items : list Expr) (name : str) : bool :=
  match head_symbol items with Some s => s =s name | None => false end.

(** yao/src/sema.rs:3912-3918 [is_form]. *)
Definition is_form (e : option Expr) (name : str) : bool :=
  match e ≫= as_list with Some items => head_is items name | None => false end.

(** yao/src/sema.rs:3929-3949 [is_builtin_type]. *)
Definition is_builtin_type (value : str) : bool :=
  existsb (str_eqb value)
    [s! "Nil"; s! "Bool"; s! "Int"; s! "Float"; s! "String"; s! "Bytes"; s! "Json"; s! "List";
     s! "Map"; s! "Option"; s! "Result"; s! "Ref"; s! "Program"; s! "EvidenceCandidate";
     s! "OutcomeCandidate"; s! "ContextTransaction"].

Definition str_contains (c : char) (s : str) : bool := existsb (N.eqb c) s.

(** yao/src/sema.rs:3951-3962 [looks_like_float_literal]. *)
Definition looks_like_float_literal (value : str) : bool :=
  let unsigned := match value with
                  | 45 :: r => r
                  | 43 :: r => r
                  | _ => value
                  end in
  let starts_numeric := match unsigned with
                        | c :: _ => is_ascii_digit c || (c =? 46)
                        | [] => false
                        end in
  starts_numeric && (str_contains 46 value || str_contains 101 value || str_contains 69 value).

(** The loop of [parse_symbol_set]. *)
Fixpoint parse_symbols (description : str) (l : list Expr) (output : list str) : R (list str) :=
  match l with
  | [] => Ok output
  | e :: r =>
      name ← map_err (λ _, diag UnknownName "{description} must be a symbol" [AStr description]
                             (espan e)) (expect_symbol e "");
      if bs_contains name output then
        Err (diag DuplicateName "duplicate {description} '{name}'" [AStr description; AStr name]
               (espan e))
      else parse_symbols description r (bs_insert name output)
  end.

(** yao/src/sema.rs:3964-3980 [parse_symbol_set]. *)
Definition parse_symbol_set (l : list Expr) (description : str) : R (list str) :=
  parse_symbols description l [].

(** yao/src/sema.rs:3982-3988 [duplicate_declaration]. *)
Definition duplicate_declaration (name : str) (span : SourceSpan) : Diagnostic :=
  diag DuplicateName "duplicate requires.{name} declaration" [AStr name] span.

(** yao/src/sema.rs:3990-3996 [duplicate_function_clause]. *)
Definition duplicate_function_clause (name : str) (span : SourceSpan) : Diagnostic :=
  diag DuplicateName "duplicate fn.{name} declaration" [AStr name] span.

(** yao/src/sema.rs:3998-4047 [is_reserved_operator]. *)
Definition is_reserved_operator (value : str) : bool :=
  existsb (str_eqb value)
    [s! "eval"; s! "fn"; s! "requires"; s! "types"; s! "list"; s! "dict"; s! "record";
     s! "variant"; s! "some"; s! "none"; s! "ok"; s! "err"; s! "evidence"; s! "outcome";
     s! "context-transaction"; s! "get"; s! "decode"; s! "is"; s! "eq"; s! "ne"; s! "lt";
     s! "le"; s! "gt"; s! "ge"; s! "and"; s! "or"; s! "not"; s! "add"; s! "sub"; s! "mul";
     s! "div"; s! "seq"; s! "bind"; s! "if"; s! "match"; s! "fallback"; s! "map"; s! "call";
     s! "infer"; s! "par"; s! "run"; s! "host.view"; s! "evidence.commit"; s! "outcome.commit";
     s! "context.propose"].

(** yao/src/sema.rs:4066-4084 [collect_named_dependencies], and 4060-4064
    [named_dependencies]. *)
Fixpoint named_dependencies (ty : Ty) : list str :=
  match ty with
  | TNamed name => [name]
  | TList inner | TMap inner | TOption inner => named_dependencies inner
  | TStructuralRecord fields => concat (map (λ nt, named_dependencies nt.2) fields)
  | TResult ok error => named_dependencies ok ++ named_dependencies error
  | TProgram output _ => named_dependencies output
  | _ => []
  end.

(** yao/src/sema.rs:4222-4228 [resource_fields]. *)
Definition resource_fields (actual limit : N) (span : SourceSpan) : Diagnostic :=
  diag ResourceLimit "field count {actual} exceeds {limit}" [ANum actual; ANum limit] span.

Section identifiers.
Context `{CharClass}.

(** yao/src/sema.rs:3920-3927 [is_identifier]. *)
Definition is_identifier (value : str) : bool :=
  match value with
  | [] => false
  | first :: rest =>
      (is_alphabetic first || (first =? 95))
      && forallb (λ c, is_alphanumeric c || (c =? 95) || (c =? 45)) rest
  end.

(** yao/src/sema.rs:3900-3910 [expect_binding_name]. *)
Definition expect_binding_name (e : Expr) : R str :=
  name ← expect_symbol e "binding name must be a symbol without '$'";
  if match name with 36 :: _ => true | _ => false end || negb (is_identifier name) then
    Err (diag UnknownName "invalid binding name '{name}'" [AStr name] (espan e))
  else Ok name.
End identifiers.

(** ** Effects and types *)

(** The loop of [parse_effects]: each effect parsed by [parse1] and inserted once. *)
Definition collect_effects (parse1 : Expr → R Effect) : list Expr → EffectSet → R EffectSet :=
  fix go l effects :=
    match l with
    | [] => Ok effects
    | e :: r =>
        effect ← parse1 e;
        if es_contains effect effects then
          Err (diag DuplicateName "duplicate effect declaration" [] (espan e))
        else go r (es_insert effect effects)
    end.

(** One iteration of yao/src/sema.rs:3691-3740 [parse_effects]. *)
Fixpoint parse_effect (e : Expr) : R Effect :=
  match e with
  | EAtom _ =>
      if match as_symbol e with Some s => s =s s! "infer" | None => false end then Ok EInfer
      else Err (diag TypeMismatch "effect must be infer or a list" [] (espan e))
  | EList items span =>
      match items with
      | [] => Err (diag InvalidType "effect list has no kind" [] span)
      | k :: rest =>
          match as_symbol k with
          | None => Err (diag InvalidType "effect list has no kind" [] span)
          | Some kind =>
              if (kind =s s! "tool") || (kind =s s! "host") then
                match rest with
                | [name_expr] =>
                    name ← expect_symbol name_expr "effect name must be a symbol";
                    Ok (if kind =s s! "tool" then ETool name else EHost name)
                | _ => Err (diag InvalidType "{kind} effect requires one name" [AStr kind] span)
                end
              else if kind =s s! "program" then
                EProgram <$> collect_effects parse_effect rest []
              else Err (diag InvalidType "unknown effect kind '{other}'" [AStr kind] (espan k))
          end
      end
  end.

(** yao/src/sema.rs:3691-3740 [parse_effects]. *)
Definition parse_effects (l : list Expr) : R EffectSet := collect_effects parse_effect l [].

Section types.
Context `{CharClass}.

(** yao/src/sema.rs:3597-3617 [parse_type, a symbol]. *)
Definition parse_type_name (name : str) (span : SourceSpan) : R Ty :=
  if name =s s! "Nil" then Ok TNil
  else if name =s s! "Bool" then Ok TBool
  else if name =s s! "Int" then Ok TInt
  else if name =s s! "Float" then Ok TFloat
  else if name =s s! "String" then Ok TString
  else if name =s s! "Bytes" then Ok TBytes
  else if name =s s! "Json" then Ok TJson
  else if name =s s! "EvidenceCandidate" then Ok TEvidenceCandidate
  else if name =s s! "OutcomeCandidate" then Ok TOutcomeCandidate
  else if name =s s! "ContextTransaction" then Ok TContextTransaction
  else if is_identifier name then Ok (TNamed name)
  else Err (diag InvalidType "invalid type '{other}'" [AStr name] span).

(** yao/src/sema.rs:3596-3689 [parse_type]. *)
Fixpoint parse_type (e : Expr) : R Ty :=
  match e with
  | EAtom a =>
      match as_symbol e with
      | Some name => parse_type_name name (espan e)
      | None => Err (diag TypeMismatch "type must be a symbol or parameterized list" [] (espan e))
      end
  | EList items span =>
      match items with
      | [] => Err (diag InvalidType "parameterized type has no constructor" [] span)
      | c :: args =>
          match as_symbol c with
          | None => Err (diag InvalidType "parameterized type has no constructor" [] span)
          | Some constructor =>
              if constructor =s s! "Ref" then
                match args with
                | [inner] => TRef <$> expect_symbol inner "Ref kind must be a symbol"
                | _ => Err (diag InvalidType "{constructor} requires one type argument"
                              [AStr constructor] span)
                end
              else if (constructor =s s! "List") || (constructor =s s! "Map")
                      || (constructor =s s! "Option") then
                match args with
                | [inner] =>
                    t ← parse_type inner;
                    Ok (if constructor =s s! "List" then TList t
                        else if constructor =s s! "Map" then TMap t else TOption t)
                | _ => Err (diag InvalidType "{constructor} requires one type argument"
                              [AStr constructor] span)
                end
              else if constructor =s s! "Result" then
                match args with
                | [ok; error] =>
                    t1 ← parse_type ok; t2 ← parse_type error; Ok (TResult t1 t2)
                | _ => Err (diag InvalidType "Result requires success and error types" [] span)
                end
              else if constructor =s s! "Program" then
                match args with
                | [output; effects] =>
                    effect_items ← expect_list effects "Program effects must be a list";
                    if head_is effect_items s! "effects" then
                      t ← parse_type output;
                      es ← parse_effects (tail effect_items);
                      Ok (TProgram t es)
                    else Err (diag InvalidType "Program second argument must be (effects ...)" []
                                (espan effects))
                | _ => Err (diag InvalidType "Program requires output type and (effects ...)" []
                              span)
                end
              else Err (diag InvalidType "unknown type constructor '{other}'" [AStr constructor]
                          (espan c))
          end
      end
  end.
End types.

(** ** Type declarations *)

Section declarations.
Context `{CharClass} (limits : AnalysisLimits).

(** The loop of [parse_field_definitions]; [names] are the fields seen. *)
Fixpoint parse_fields (l : list Expr) (names : list str) : R (list FieldDefinition) :=
  match l with
  | [] => Ok []
  | e :: r =>
      items ← expect_list e "field definition must be (NAME TYPE)";
      match items with
      | [name_expr; type_expr] =>
          name ← expect_symbol name_expr "field name must be a symbol";
          if negb (is_identifier name) || bs_contains name names then
            Err (diag DuplicateName "invalid or duplicate field '{name}'" [AStr name]
                   (espan name_expr))
          else
            ty ← parse_type type_expr;
            rest ← parse_fields r (bs_insert name names);
            Ok (mkField name ty (espan e) :: rest)
      | _ => Err (diag InvalidType "field definition must contain NAME and TYPE" [] (espan e))
      end
  end.

(** yao/src/sema.rs:3451-3488 [parse_field_definitions]. *)
Definition parse_field_definitions (l : list Expr) : R (list FieldDefinition) :=
  if max_fields limits <? len l then
    Err (resource_fields (len l) (max_fields limits)
           (match l with e :: _ => espan e | [] => empty_span end))
  else parse_fields l [].

(** yao/src/sema.rs:3396-3424 [parse_type_definitions, the variants of a union]. *)
Fixpoint parse_variants (l : list Expr) (names : list str) : R (list VariantDefinition) :=
  match l with
  | [] => Ok []
  | e :: r =>
      parts ← expect_list e "union variant must be a list";
      match parts with
      | [] => Err (diag InvalidType "union variant has no name" [] (espan e))
      | name_expr :: fields_expr =>
          name ← expect_symbol name_expr "union variant name must be a symbol";
          if negb (is_identifier name) || bs_contains name names then
            Err (diag DuplicateName "invalid or duplicate union variant '{variant_name}'"
                   [AStr name] (espan name_expr))
          else
            fields ← parse_field_definitions fields_expr;
            rest ← parse_variants r (bs_insert name names);
            Ok (mkVariant name fields (espan e) :: rest)
      end
  end.

(** yao/src/sema.rs:3389-3445 [parse_type_definitions, one definition]. *)
Definition parse_definition (kind name : str) (declaration : Expr) (parts : list Expr)
    : R TypeDefinition :=
  if kind =s s! "record" then
    fields ← parse_field_definitions (drop 2 parts);
    Ok (DRecord name fields (espan declaration))
  else if kind =s s! "union" then
    variants ← parse_variants (drop 2 parts) [];
    match variants with
    | [] => Err (diag InvalidType "union '{name}' must define at least one variant" [AStr name]
                   (espan declaration))
    | _ => Ok (DUnion name variants (espan declaration))
    end
  else Err (diag InvalidType "unknown type declaration kind '{other}'" [AStr kind]
              (match parts with e :: _ => espan e | [] => empty_span end)).

(** yao/src/sema.rs:3358-3388 [parse_type_definitions, one declaration]. *)
Definition parse_type_declaration (output : Definitions) (declaration : Expr) : R Definitions :=
  parts ← expect_list declaration "type declaration must be a list";
  match head_symbol parts, parts !! 1%nat with
  | None, _ => Err (diag InvalidType "type declaration has no kind" [] (espan declaration))
  | _, None => Err (diag InvalidType "type declaration has no name" [] (espan declaration))
  | Some kind, Some name_expr =>
      name ← expect_symbol name_expr "type name must be a symbol";
      if is_builtin_type name || negb (is_identifier name) then
        Err (diag InvalidType "invalid or reserved type name '{name}'" [AStr name]
               (espan name_expr))
      else if bm_contains name output then
        Err (diag DuplicateName "duplicate type '{name}'" [AStr name] (espan name_expr))
      else
        definition ← parse_definition kind name declaration parts;
        Ok (bm_insert name definition output)
  end.

(** yao/src/sema.rs:3352-3449 [parse_type_definitions]. *)
Definition parse_type_definitions (e : Expr) : R Definitions :=
  items ← expect_list e "types must be a list";
  foldM parse_type_declaration [] (tail items).
End declarations.

(** ** Checks on type declarations *)

Section checks.
Context (definitions : Definitions).

(** yao/src/sema.rs:3511-3534 [validate_type_names]. *)
Fixpoint validate_type_names (ty : Ty) (span : SourceSpan) : R unit :=
  match ty with
  | TNamed name =>
      if bm_contains name definitions then Ok tt
      else Err (diag InvalidType "unknown type '{name}'" [AStr name] span)
  | TList inner | TMap inner | TOption inner => validate_type_names inner span
  | TStructuralRecord fields => try_each (λ nt, validate_type_names nt.2 span) fields
  | TResult ok error => _ ← validate_type_names ok span; validate_type_names error span
  | TProgram output _ => validate_type_names output span
  | _ => Ok tt
  end.

(** yao/src/sema.rs:3536-3566 [contains_nonforgeable_type].  [fuel] bounds the nesting
    of named types; [visiting] grows with it, so one unit per definition is enough. *)
Fixpoint nonforgeable (fuel : nat) : list str → Ty → bool :=
  fix go (visiting : list str) (ty : Ty) {struct ty} : bool :=
    match ty with
    | TEvidenceCandidate | TOutcomeCandidate | TContextTransaction | TRef _ | TProgram _ _ => true
    | TList inner | TMap inner | TOption inner => go visiting inner
    | TStructuralRecord fields => existsb (λ nt, go visiting nt.2) fields
    | TResult ok error => go visiting ok || go visiting error
    | TNamed name =>
        if bs_contains name visiting then false
        else match bm_get name definitions, fuel with
             | Some definition, S n =>
                 existsb (nonforgeable n (bs_insert name visiting)) (definition_types definition)
             | _, _ => false
             end
    | _ => false
    end.

Definition contains_nonforgeable_type (ty : Ty) : bool :=
  nonforgeable (length definitions) [] ty.

(** The loop over the dependencies of one definition, yao/src/sema.rs:3581-3590. *)
Definition reaches_any (start : str)
    (reach : str → VisitState → option (bool * VisitState))
    : list str → VisitState → option (bool * VisitState) :=
  fix go l st :=
    match l with
    | [] => Some (false, st)
    | d :: r =>
        if d =s start then Some (true, st)
        else if bs_contains d st.2 then go r st
        else
          '(found, st') ← reach d st;
          if (found : bool) then Some (true, st') else go r st'
    end.

(** yao/src/sema.rs:3568-3594 [type_reaches]: the answer and the sets visiting and
    visited; [None] when the fuel runs out. *)
Fixpoint type_reaches (fuel : nat) (start current : str) (st : VisitState)
    : option (bool * VisitState) :=
  match fuel with
  | O => None
  | S n =>
      let '(visiting, visited) := st in
      if bs_contains current visiting then Some (false, st)
      else
        let visiting' := bs_insert current visiting in
        match bm_get current definitions with
        | None => Some (false, (visiting', visited))
        | Some definition =>
            '(found, st') ←
              reaches_any start (type_reaches n start)
                (concat (map named_dependencies (definition_types definition)))
                (visiting', visited);
            if (found : bool) then Some (true, st')
            else Some (false, (names_remove current st'.1, bs_insert current st'.2))
        end
  end.

(** [type_reaches(name, name, {}, {})]; the visiting set holds distinct names and all
    but the last are declared, which bounds the depth. *)
Definition is_recursive (name : str) : bool :=
  match type_reaches (S (S (length definitions))) name name ([], []) with
  | Some (found, _) => found
  | None => true
  end.

(** yao/src/sema.rs:3490-3509 [validate_type_definitions]. *)
Definition validate_type_definitions : R unit :=
  _ ← try_each (λ nd, try_each (λ ty, validate_type_names ty (def_span nd.2))
                        (definition_types nd.2)) definitions;
  try_each (λ nd, if is_recursive nd.1
                  then Err (diag RecursiveType "recursive type '{name}' is not supported in Yao v0.1"
                              [AStr nd.1] (def_span nd.2))
                  else Ok tt) definitions.

(** yao/src/sema.rs:3742-3764 [field_type]. *)
Definition field_type (ty : Ty) (field : str) (span : SourceSpan) : R Ty :=
  ok_or
    match ty with
    | TMap value => Some value
    | TStructuralRecord fields => bm_get field fields
    | TNamed name =>
        match bm_get name definitions with
        | Some (DRecord _ fields _) =>
            fty <$> List.find (λ d, fname d =s field) fields
        | _ => None
        end
    | _ => None
    end
    (diag TypeMismatch "type {ty:?} has no readable field '{field}'" [ATy ty; AStr field] span).
End checks.

(** ** Requirements *)

(** One clause of yao/src/sema.rs:3309-3350 [parse_requirements]. *)
Definition parse_requirement (output : Requirements) (clause : Expr) : R Requirements :=
  fields ← expect_list clause "requires clauses must be lists";
  match fields with
  | [] => Err (diag UnknownName "requires clause has no name" [] (espan clause))
  | head :: args =>
      match as_symbol head with
      | None => Err (diag UnknownName "requires clause has no name" [] (espan clause))
      | Some name =>
          if name =s s! "tools" then
            _ ← ensure (negb (is_some (req_tools output)))
                  (duplicate_declaration s! "tools" (espan clause));
            tools ← parse_symbol_set args s! "tool";
            Ok (mkRequirements (Some tools) (req_effects output) (req_objects output))
          else if name =s s! "objects" then
            _ ← ensure (negb (is_some (req_objects output)))
                  (duplicate_declaration s! "objects" (espan clause));
            objects ← parse_symbol_set args s! "object kind";
            Ok (mkRequirements (req_tools output) (req_effects output) (Some objects))
          else if name =s s! "effects" then
            _ ← ensure (negb (is_some (req_effects output)))
                  (duplicate_declaration s! "effects" (espan clause));
            effects ← parse_effects args;
            Ok (mkRequirements (req_tools output) (Some effects) (req_objects output))
          else Err (diag UnknownName "unknown requires clause '{other}'" [AStr name] (espan head))
      end
  end.

(** yao/src/sema.rs:3309-3350 [parse_requirements]. *)
Definition parse_requirements (e : Expr) : R Requirements :=
  items ← expect_list e "requires must be a list";
  foldM parse_requirement requirements_default (tail items).

(** ** Function declarations *)

Definition is_blank (s : str) : bool := forallb is_whitespace s.

(** The local variables of [parse_function_declaration]. *)
Record FunctionClauses : Type := mkClauses {
  cl_visibility : option FunctionVisibility;
  cl_description : option str;
  cl_parameters : option (list FunctionParameter);
  cl_returns : option Ty;
  cl_effects : option EffectSet;
  cl_body : option Expr
}.
Definition no_clauses : FunctionClauses := mkClauses None None None None None None.

Section functions.
Context `{CharClass} (definitions : Definitions).

(** A clause that may occur once. *)
Definition once {A} (previous : option A) (name : str) (clause : Expr) : R unit :=
  ensure (negb (is_some previous)) (duplicate_function_clause name (espan clause)).

(** yao/src/sema.rs:892-916 [parse_function_declaration, visibility]. *)
Definition parse_visibility (clause : Expr) (args : list Expr) : R FunctionVisibility :=
  match args with
  | [value] =>
      v ← expect_symbol value "fn visibility must be internal or exported";
      if v =s s! "internal" then Ok Internal
      else if v =s s! "exported" then Ok Exported
      else Err (diag InvalidType "unknown fn visibility '{other}'" [AStr v] (espan value))
  | _ => Err (diag InvalidType "fn visibility must be (visibility internal|exported)" []
                (espan clause))
  end.

(** yao/src/sema.rs:917-943 [parse_function_declaration, description]. *)
Definition parse_description (clause : Expr) (args : list Expr) : R str :=
  match args with
  | [value] =>
      match value with
      | EAtom atom =>
          match akind atom with
          | StringAtom =>
              if is_blank (avalue atom)
              then Err (diag InvalidType "fn description must be a non-empty string" [] (aspan atom))
              else Ok (avalue atom)
          | Symbol =>
              Err (diag InvalidType "fn description must be a non-empty string" [] (aspan atom))
          end
      | EList _ _ => Err (diag InvalidType "fn description must be a string" [] (espan value))
      end
  | _ => Err (diag InvalidType "fn description must contain exactly one string" [] (espan clause))
  end.

(** yao/src/sema.rs:944-977 [parse_function_declaration, params]; [names] are the
    parameters seen. *)
Fixpoint parse_parameters (l : list Expr) (names : list str) : R (list FunctionParameter) :=
  match l with
  | [] => Ok []
  | parameter :: r =>
      parts ← expect_list parameter "fn parameter must be (NAME TYPE)";
      match parts with
      | [name_expr; type_expr] =>
          name ← expect_binding_name name_expr;
          if (name =s s! "runtime") || bs_contains name names then
            Err (diag DuplicateName "invalid or duplicate fn parameter '{parameter_name}'"
                   [AStr name] (espan parameter))
          else
            ty ← parse_type type_expr;
            _ ← validate_type_names definitions ty (espan type_expr);
            rest ← parse_parameters r (bs_insert name names);
            Ok (mkParameter name ty (espan parameter) :: rest)
      | _ => Err (diag InvalidType "fn parameter must contain exactly NAME and TYPE" []
                    (espan parameter))
      end
  end.

(** yao/src/sema.rs:978-992 [parse_function_declaration, returns]. *)
Definition parse_returns (clause : Expr) (args : list Expr) : R Ty :=
  match args with
  | [value] =>
      ty ← parse_type value;
      _ ← validate_type_names definitions ty (espan value);
      Ok ty
  | _ => Err (diag InvalidType "fn returns must be (returns TYPE)" [] (espan clause))
  end.

(** yao/src/sema.rs:882-1020 [parse_function_declaration, one clause]. *)
Definition parse_function_clause (cl : FunctionClauses) (clause : Expr) : R FunctionClauses :=
  let 'mkClauses visibility description parameters returns effects body := cl in
  fields ← expect_list clause "fn clauses must be lists";
  match fields with
  | [] => Err (diag UnknownName "fn clause has no name" [] (espan clause))
  | head :: args =>
      match as_symbol head with
      | None => Err (diag UnknownName "fn clause has no name" [] (espan clause))
      | Some name =>
          if name =s s! "visibility" then
            _ ← once visibility name clause;
            v ← parse_visibility clause args;
            Ok (mkClauses (Some v) description parameters returns effects body)
          else if name =s s! "description" then
            _ ← once description name clause;
            d ← parse_description clause args;
            Ok (mkClauses visibility (Some d) parameters returns effects body)
          else if name =s s! "params" then
            _ ← once parameters name clause;
            ps ← parse_parameters args [];
            Ok (mkClauses visibility description (Some ps) returns effects body)
          else if name =s s! "returns" then
            _ ← once returns name clause;
            ty ← parse_returns clause args;
            Ok (mkClauses visibility description parameters (Some ty) effects body)
          else if name =s s! "effects" then
            _ ← once effects name clause;
            es ← parse_effects args;
            Ok (mkClauses visibility description parameters returns (Some es) body)
          else if name =s s! "body" then
            _ ← once body name clause;
            match args with
            | [value] => Ok (mkClauses visibility description parameters returns effects (Some value))
            | _ => Err (diag InvalidType "fn body must contain exactly one Yao expression" []
                          (espan clause))
            end
          else Err (diag UnknownName "unknown fn clause '{other}'" [AStr name] (espan head))
      end
  end.

Definition is_exported (v : FunctionVisibility) : bool :=
  match v with Exported => true | Internal => false end.

(** yao/src/sema.rs:1021-1063 [parse_function_declaration, after the clauses]. *)
Definition finish_function (name : str) (e : Expr) (cl : FunctionClauses)
    : R FunctionDeclaration :=
  let visibility := default Internal (cl_visibility cl) in
  _ ← ensure (negb (is_exported visibility && negb (is_some (cl_description cl))))
        (diag InvalidType "exported fn '{name}' requires a non-empty description" [AStr name]
           (espan e));
  _ ← ensure (negb (is_exported visibility && negb (is_some (cl_effects cl))))
        (diag InvalidType "exported fn '{name}' requires an explicit (effects ...) upper bound"
           [AStr name] (espan e));
  parameters ← ok_or (cl_parameters cl)
                 (diag InvalidType "fn '{name}' is missing (params ...)" [AStr name] (espan e));
  returns ← ok_or (cl_returns cl)
              (diag InvalidType "fn '{name}' is missing (returns TYPE)" [AStr name] (espan e));
  body ← ok_or (cl_body cl)
           (diag InvalidType "fn '{name}' is missing (body EXPR)" [AStr name] (espan e));
  Ok (mkFunctionDeclaration name visibility parameters returns (cl_effects cl) body (espan e)).

(** yao/src/sema.rs:848-1063 [parse_function_declaration]. *)
Definition parse_function_declaration (e : Expr) : R FunctionDeclaration :=
  items ← expect_list e "HNS function must be (fn NAME ...)";
  if negb (head_is items s! "fn") then
    Err (diag UnknownOperator "HNS function must have an (fn ...) root" [] (espan e))
  else
    match items !! 1%nat with
    | None => Err (diag UnknownName "fn declaration is missing its name" [] (espan e))
    | Some name_expr =>
        name ← expect_symbol name_expr "fn name must be a symbol";
        if negb (is_identifier name) || is_reserved_operator name then
          Err (diag DuplicateName "invalid or reserved HNS function name '{name}'" [AStr name]
                 (espan name_expr))
        else
          cl ← foldM parse_function_clause no_clauses (drop 2 items);
          finish_function name e cl
    end.
End functions.

(** ** Checks on typed operands *)

(** yao/src/sema.rs:4086-4092 [union_effects]. *)
Definition union_effects (l : list HirExpr) : EffectSet :=
  fold_left (λ effects e, es_union effects (heffects e)) l [].

(** yao/src/sema.rs:4094-4112 [common_types]. *)
Definition common_types (types : list Ty) (span : SourceSpan) : R (option Ty) :=
  match types with
  | [] => Ok None
  | first :: rest =>
      Some <$> foldM (λ current next,
        ok_or (common_type current next)
          (diag TypeMismatch "types {current:?} and {next:?} have no common type"
             [ATy current; ATy next] span)) first rest
  end.

(** The loop of [infer_dict_value_type]: the type so far and the entry it came from. *)
Fixpoint dict_value_loop (l : list (str * HirExpr)) (current : Ty) (representative : SourceSpan)
    : R Ty :=
  match l with
  | [] => Ok current
  | (key, value) :: r =>
      match common_type current (hty value) with
      | None =>
          Err (with_related
                 (diag TypeMismatch "dict field '{key}' has type {:?}, which has no common type with the inferred value type {current:?}; dict is a homogeneous Map<T>, so use a named record for fixed heterogeneous fields or an explicit Json boundary for dynamic data"
                    [AStr key; ATy (hty value); ATy current] (hspan value)) representative)
      | Some common =>
          if ty_eqb common current then dict_value_loop r current representative
          else dict_value_loop r common (hspan value)
      end
  end.

(** yao/src/sema.rs:4114-4140 [infer_dict_value_type]. *)
Definition infer_dict_value_type (entries : list (str * HirExpr)) : R (option Ty) :=
  match entries with
  | [] => Ok None
  | (_, first) :: rest => Some <$> dict_value_loop rest (hty first) (hspan first)
  end.

(** yao/src/sema.rs:4152-4162 [require_assignable]. *)
Definition require_assignable (actual expected : Ty) (span : SourceSpan) : R unit :=
  ensure (is_assignable_to actual expected)
    (diag TypeMismatch "expected {expected:?}, found {actual:?}" [ATy expected; ATy actual] span).

(** yao/src/sema.rs:4164-4182 [require_arity]. *)
Definition require_arity (name : str) (operands : list HirExpr) (expected : N) (span : SourceSpan)
    : R unit :=
  ensure (len operands =? expected)
    (diag TypeMismatch "{name} requires {expected} operands, found {}"
       [AStr name; ANum expected; ANum (len operands)] span).

(** yao/src/sema.rs:4184-4202 [require_comparable]. *)
Definition require_comparable (left_ right_ : Ty) (span : SourceSpan) : R unit :=
  ensure
    match left_, right_ with
    | TInt, TInt | TInt, TFloat | TFloat, TInt | TFloat, TFloat | TString, TString => true
    | _, _ => false
    end
    (diag TypeMismatch "types {left:?} and {right:?} are not ordered" [ATy left_; ATy right_] span).

(** yao/src/sema.rs:4204-4220 [numeric_result]. *)
Definition numeric_result (operands : list HirExpr) (span : SourceSpan) : R Ty :=
  foldM (λ result operand,
    match hty operand with
    | TInt => Ok result
    | TFloat => Ok TFloat
    | t => Err (diag TypeMismatch "numeric operator received {:?}" [ATy t] span)
    end) TInt operands.

(** yao/src/sema.rs:4230-4243 [require_pure]. *)
Definition require_pure (e : HirExpr) (position : string) : R unit :=
  ensure (es_is_empty (heffects e))
    (diag EffectEscape "{position} must be pure; bind the effectful result first (found {:?})"
       [AStr (lit position); AEffects (heffects e)] (hspan e)).

(** yao/src/sema.rs:4245-4253 [require_pure_all]. *)
Definition require_pure_all (l : list HirExpr) (position : string) : R unit :=
  try_each (λ e, require_pure e position) l.

(** The type of one argument, yao/src/sema.rs:3296-3303. *)
Definition argument_type (a : NamedArgument) : R Ty :=
  match na_values a with
  | [e] => Ok (hty e)
  | vs =>
      t ← common_types (map hty vs) (na_span a);
      Ok (TList (default TJson t))
  end.

(** yao/src/sema.rs:3266-3307 [check_signature]. *)
Definition check_signature (arguments : list NamedArgument) (signature : ToolSignature)
    (span : SourceSpan) : R unit :=
  if match sig_arguments signature, sig_required signature with [], [] => true | _, _ => false end
  then Ok tt
  else
    _ ← try_each (λ required,
          ensure (existsb (λ a, na_name a =s required) arguments)
            (diag TypeMismatch "missing required argument '{required}'" [AStr required] span))
          (sig_required signature);
    try_each (λ a,
      expected ← ok_or (bm_get (na_name a) (sig_arguments signature))
                   (diag UnknownName "unknown argument '{}'" [AStr (na_name a)] (na_span a));
      actual ← argument_type a;
      require_assignable actual expected (na_span a)) arguments.
