(* ===== verification/Analyzer.v ===== *)
(** * The semantic analyzer (yao/src/sema.rs, [Analyzer])

    The elaboration of concrete syntax into typed expressions.  What the
    analyzer mutates while it walks an expression is the state [St]: the lexical
    scope, the compiled functions, the function stack and the node counter; the
    other fields of [Analyzer] do not change during the walk and form [Ctx].
    A cloned scope is [isolated].  The recursion of [analyze_expr] goes through
    every operator and through [compile_function]; the operators are written over
    it and the recursion takes one unit of fuel per node: every call counts a
    node, and counting past [max_hir_nodes] is an error. *)

From stdpp Require Import base list gmap strings.
From S2P Require Import Prelude Types JsonValue Diagnostic Syntax SyntaxFacts Canonical Hir Decode JsonBoundary Declarations.

Local Open Scope N_scope.

(** ** State *)

(** yao/src/sema.rs:433-437 [Scope]. *)
Record Scope : Type := mkScope { bindings : gmap str Ty; allow_implicit_bindings : bool }.

(** yao/src/sema.rs:439-451 [Scope::new]. *)
Definition scope_new `{AnalysisProfile} : Scope :=
  mkScope (match implicit_binding s! "runtime" with
           | Some ty => {[s! "runtime" := ty]}
           | None => ∅
           end) true.

(** yao/src/sema.rs:453-458 [Scope::empty]. *)
Definition scope_empty : Scope := mkScope ∅ false.

Record St : Type := mkSt {
  scope : Scope;
  compiled_functions : list (str * CompiledFunction);
  function_stack : list str;
  node_count : N
}.

(** yao/src/sema.rs:588-600 [Analyzer], the fields that are fixed while expressions are
    analyzed; the profile and the character classes are class arguments. *)
Record Ctx : Type := mkCtx {
  ctx_limits : AnalysisLimits;
  ctx_requirements : Requirements;
  ctx_definitions : Definitions;
  function_declarations : list (str * FunctionDeclaration);
  allow_internal_functions : bool
}.

(** ** The analyzer's computations *)

Definition M (A : Type) : Type := St → R (A * St).

#[global] Instance M_ret : MRet M := λ A a st, Ok (a, st).
#[global] Instance M_bind : MBind M := λ A B f m st, '(a, st') ← m st; f a st'.

Definition lift {A} (r : R A) : M A := λ st, a ← r; Ok (a, st).
Definition throw {A} (d : Diagnostic) : M A := λ _, Err d.
Definition get_scope : M Scope := λ st, Ok (scope st, st).
Definition set_scope (s : Scope) : M unit := λ st,
  Ok (tt, mkSt s (compiled_functions st) (function_stack st) (node_count st)).
Definition get_stack : M (list str) := λ st, Ok (function_stack st, st).
Definition set_stack (s : list str) : M unit := λ st,
  Ok (tt, mkSt (scope st) (compiled_functions st) s (node_count st)).
Definition get_compiled : M (list (str * CompiledFunction)) := λ st, Ok (compiled_functions st, st).
Definition set_compiled (c : list (str * CompiledFunction)) : M unit := λ st,
  Ok (tt, mkSt (scope st) c (function_stack st) (node_count st)).

(** Runs [m] in the scope [s] and restores the caller's scope. *)
Definition with_scope {A} (s : Scope) (m : M A) : M A :=
  outer ← get_scope;
  _ ← set_scope s;
  a ← m;
  _ ← set_scope outer;
  mret a.

(** [&mut scope.clone()]. *)
Definition isolated {A} (m : M A) : M A := s ← get_scope; with_scope s m.

(** Adds [name] to the scope; [false] when it was bound before. *)
Definition scope_insert (name : str) (ty : Ty) (s : Scope) : Scope :=
  mkScope (<[name := ty]> (bindings s)) (allow_implicit_bindings s).

Definition mapM {A B} (f : A → M B) : list A → M (list B) :=
  fix go l :=
    match l with
    | [] => mret []
    | x :: r => y ← f x; ys ← go r; mret (y :: ys)
    end.

(** ** Pure parts *)

(** [str::split('.')]. *)
Fixpoint split_dots (s : str) (acc : str) : list str :=
  match s with
  | [] => [rev acc]
  | c :: r => if c =? 46 then rev acc :: split_dots r [] else split_dots r (c :: acc)
  end.

(** [str::rsplit_once('.')]. *)
Fixpoint split_last_dot (s : str) : option (str * str) :=
  match s with
  | [] => None
  | c :: r =>
      match split_last_dot r with
      | Some (a, b) => Some (c :: a, b)
      | None => if c =? 46 then Some ([], r) else None
      end
  end.

Section analyzer.
Context `{CharClass} `{AnalysisProfile} (cx : Ctx).

Local Abbreviation definitions := (ctx_definitions cx).
Local Abbreviation limits := (ctx_limits cx).

(** yao/src/sema.rs:1379-1393 [analyze_reference, the path]. *)
Fixpoint project_path (segments : list str) (value : HirExpr) (span : SourceSpan) : R HirExpr :=
  match segments with
  | [] => Ok value
  | field :: r =>
      ty ← field_type definitions (hty value) field span;
      project_path r (hir (KGet value field) ty [] span) span
  end.

(** yao/src/sema.rs:1357-1362 [analyze_reference, the root]. *)
Definition lookup_binding (s : Scope) (root : str) : option Ty :=
  match bindings s !! root with
  | Some ty => Some ty
  | None => if allow_implicit_bindings s then implicit_binding root else None
  end.

(** yao/src/sema.rs:1342-1393 [analyze_reference]. *)
Definition analyze_reference (reference : str) (span : SourceSpan) (s : Scope) : R HirExpr :=
  match split_dots reference [] with
  | [] | [] :: _ => Err (diag UnknownName "binding reference must contain a name" [] span)
  | root :: segments =>
      ty ← ok_or (lookup_binding s root)
             (diag UnknownName "unknown binding '{root}'" [AStr root] span);
      project_path segments (hir (KReference root None) ty [] span) span
  end.

(** yao/src/sema.rs:1285-1340 [analyze_atom]. *)
Definition analyze_atom (atom : Atom) (s : Scope) : R HirExpr :=
  let literal l ty := Ok (hir (KLiteral l) ty [] (aspan atom)) in
  match akind atom with
  | StringAtom => literal (LString (avalue atom)) TString
  | Symbol =>
      match avalue atom with
      | 36 :: reference =>
          Err (diag UnknownName
                 "binding references do not use '$'; replace '{}' with {replacement}"
                 [AStr (avalue atom);
                  AStr (match reference with
                        | [] => s! "a bare binding name"
                        | _ => s! "'" ++ reference ++ s! "'"
                        end)] (aspan atom))
      | value =>
          if value =s s! "nil" then literal LNil TNil
          else if value =s s! "true" then literal (LBool true) TBool
          else if value =s s! "false" then literal (LBool false) TBool
          else
            match parse_i64 value with
            | Some z => literal (LInt z) TInt
            | None =>
                if looks_like_float_literal value then
                  match parse_f64 value with
                  | None => Err (diag TypeMismatch "invalid Float literal '{value}'" [AStr value]
                                   (aspan atom))
                  | Some _ => literal (LFloat value) TFloat
                  end
                else analyze_reference value (aspan atom) s
            end
      end
  end.

(** yao/src/sema.rs:1463-1467 [require_json_type]. *)
Definition require_json_type (ty : Ty) (span : SourceSpan) : R unit :=
  _ ← validate_type_names definitions ty span;
  map_err (λ m, diagnostic_new InvalidType m span) (validate_json_type definitions ty).

(** yao/src/sema.rs:1692-1710 [analyze_none]. *)
Definition analyze_none (arguments : list Expr) (span : SourceSpan) : R HirExpr :=
  match arguments with
  | [inner_expr] =>
      inner ← parse_type inner_expr;
      _ ← validate_type_names definitions inner span;
      Ok (hir (KOptionNone inner) (TOption inner) [] span)
  | _ => Err (diag TypeMismatch "none requires exactly one element type" [] span)
  end.

(** yao/src/sema.rs:3223-3263 [parse_match_bindings, the loop]. *)
Fixpoint match_bindings (l : list Expr) (fields : list FieldDefinition) (seen : list str)
    (s : Scope) : R (list MatchBinding * Scope) :=
  match l with
  | [] => Ok ([], s)
  | e :: r =>
      items ← expect_list e "match field binding must be (FIELD NAME)";
      match items with
      | [field_expr; binding_expr] =>
          field ← expect_symbol field_expr "match field must be a symbol";
          binding ← expect_binding_name binding_expr;
          definition ← ok_or (List.find (λ d, fname d =s field) fields)
                         (diag UnknownName "variant has no field '{field}'" [AStr field]
                            (espan field_expr));
          if bs_contains field seen then
            Err (diag DuplicateName "match repeats field '{field}'" [AStr field] (espan field_expr))
          else if is_some (bindings s !! binding) then
            Err (diag DuplicateName "match binding '{binding}' shadows an existing binding"
                   [AStr binding] (espan binding_expr))
          else
            '(rest, s') ← match_bindings r fields (bs_insert field seen)
                            (scope_insert binding (fty definition) s);
            Ok (mkMatchBinding field binding :: rest, s')
      | _ => Err (diag TypeMismatch "match field binding must contain FIELD and NAME" [] (espan e))
      end
  end.

(** yao/src/sema.rs:3207-3264 [parse_match_bindings]. *)
Definition parse_match_bindings (l : list Expr) (fields : list FieldDefinition) (s : Scope)
    : R (list MatchBinding * Scope) :=
  if negb (len l =? len fields) then
    Err (diag TypeMismatch "match pattern must bind every variant field exactly once" []
           (match l with e :: _ => espan e | [] => empty_span end))
  else match_bindings l fields [] s.

(** yao/src/sema.rs:2166-2180 [analyze_pure, the operator]. *)
Definition pure_operator (name : str) : option PureOperator :=
  if name =s s! "eq" then Some OpEqual
  else if name =s s! "ne" then Some OpNotEqual
  else if name =s s! "lt" then Some OpLess
  else if name =s s! "le" then Some OpLessEqual
  else if name =s s! "gt" then Some OpGreater
  else if name =s s! "ge" then Some OpGreaterEqual
  else if name =s s! "and" then Some OpAnd
  else if name =s s! "or" then Some OpOr
  else if name =s s! "not" then Some OpNot
  else if name =s s! "add" then Some OpAdd
  else if name =s s! "sub" then Some OpSubtract
  else if name =s s! "mul" then Some OpMultiply
  else if name =s s! "div" then Some OpDivide
  else None.

Definition at_least_two (name : str) (operands : list HirExpr) (span : SourceSpan) : R unit :=
  ensure (2 <=? len operands)
    (diag TypeMismatch "{name} requires at least two operands" [AStr name] span).

(** [operands[0].ty] and [operands[1].ty], after the arity check. *)
Definition operand_types (operands : list HirExpr) : option (Ty * Ty) :=
  match operands with a :: b :: _ => Some (hty a, hty b) | _ => None end.

Definition index_panic (span : SourceSpan) : Diagnostic :=
  diag TypeMismatch "panic: index out of bounds" [] span.

(** yao/src/sema.rs:2181-2233 [analyze_pure, the result type]. *)
Definition pure_type (operator : PureOperator) (name : str) (operands : list HirExpr)
    (span : SourceSpan) : R Ty :=
  match operator with
  | OpEqual | OpNotEqual =>
      _ ← require_arity name operands 2 span;
      '(a, b) ← ok_or (operand_types operands) (index_panic span);
      _ ← ok_or (common_type a b)
            (diag TypeMismatch "{name} operands have incompatible types" [AStr name] span);
      Ok TBool
  | OpLess | OpLessEqual | OpGreater | OpGreaterEqual =>
      _ ← require_arity name operands 2 span;
      '(a, b) ← ok_or (operand_types operands) (index_panic span);
      _ ← require_comparable a b span;
      Ok TBool
  | OpAnd | OpOr =>
      _ ← at_least_two name operands span;
      _ ← try_each (λ e, require_assignable (hty e) TBool (hspan e)) operands;
      Ok TBool
  | OpNot =>
      _ ← require_arity name operands 1 span;
      match operands with
      | e :: _ => _ ← require_assignable (hty e) TBool (hspan e); Ok TBool
      | [] => Err (index_panic span)
      end
  | OpAdd | OpMultiply =>
      _ ← at_least_two name operands span;
      numeric_result operands span
  | OpSubtract | OpDivide =>
      _ ← require_arity name operands 2 span;
      numeric_result operands span
  end.

(** ** Operators *)

Section operators.
(** The recursive occurrences of [analyze_expr], at a source depth. *)
Context (rec : Expr → N → M HirExpr).

(** yao/src/sema.rs:3091-3101 [analyze_many]. *)
Definition analyze_many (l : list Expr) (depth : N) : M (list HirExpr) :=
  mapM (λ e, rec e depth) l.

(** yao/src/sema.rs:3103-3142 [analyze_named_arguments, the loop]. *)
Fixpoint named_arguments (l : list Expr) (seen : list str) (depth : N)
    : M (list NamedArgument) :=
  match l with
  | [] => mret []
  | argument :: r =>
      items ← lift (expect_list argument "named argument must be (NAME EXPR...)");
      match items with
      | [] => throw (diag TypeMismatch "named argument is empty" [] (espan argument))
      | name_expr :: exprs =>
          name ← lift (expect_symbol name_expr "argument name must be a symbol");
          match exprs with
          | [] => throw (diag TypeMismatch "argument '{name}' has no value" [AStr name]
                           (espan argument))
          | _ =>
              if bs_contains name seen then
                throw (diag DuplicateName "duplicate argument '{name}'" [AStr name]
                         (espan name_expr))
              else
                values ← analyze_many exprs depth;
                rest ← named_arguments r (bs_insert name seen) depth;
                mret (mkNamedArgument name values (espan argument) :: rest)
          end
      end
  end.

(** yao/src/sema.rs:3103-3142 [analyze_named_arguments]. *)
Definition analyze_named_arguments (l : list Expr) (depth : N) : M (list NamedArgument) :=
  named_arguments l [] depth.

(** yao/src/sema.rs:3165-3193 [analyze_named_fields, the loop]. *)
Fixpoint named_fields (l : list Expr) (definitions : list FieldDefinition) (seen : list str)
    (depth : N) : M (list (str * HirExpr)) :=
  match l with
  | [] => mret []
  | argument :: r =>
      items ← lift (expect_list argument "field value must be (FIELD EXPR)");
      match items with
      | [name_expr; value_expr] =>
          name ← lift (expect_symbol name_expr "field name must be a symbol");
          if bs_contains name seen then
            throw (diag DuplicateName "duplicate field '{name}'" [AStr name] (espan name_expr))
          else
            definition ← lift (ok_or (List.find (λ d, fname d =s name) definitions)
                           (diag UnknownName "unknown field '{name}'" [AStr name]
                              (espan name_expr)));
            value ← rec value_expr depth;
            _ ← lift (require_assignable (hty value) (fty definition) (hspan value));
            rest ← named_fields r definitions (bs_insert name seen) depth;
            mret ((name, value) :: rest)
      | _ => throw (diag TypeMismatch "field value must contain exactly FIELD and EXPR" []
                      (espan argument))
      end
  end.

(** yao/src/sema.rs:3144-3205 [analyze_named_fields]. *)
Definition analyze_named_fields (l : list Expr) (definitions : list FieldDefinition) (depth : N)
    : M (list (str * HirExpr)) :=
  if negb (len l =? len definitions) then
    throw (diag TypeMismatch "constructor requires {} fields, received {}"
             [ANum (len definitions); ANum (len l)]
             (match l, definitions with
              | e :: _, _ => espan e
              | [], d :: _ => fspan_ d
              | [], [] => empty_span
              end))
  else
    values ← named_fields l definitions [] depth;
    _ ← lift (try_each (λ d,
          ensure (existsb (λ nv, nv.1 =s fname d) values)
            (diag TypeMismatch "missing field '{}'" [AStr (fname d)] (fspan_ d))) definitions);
    mret values.

(** yao/src/sema.rs:1395-1414 [analyze_list]. *)
Definition analyze_list (arguments : list Expr) (span : SourceSpan) (depth : N) : M HirExpr :=
  elements ← analyze_many arguments (depth + 1);
  _ ← lift (require_pure_all elements "list elements");
  t ← lift (common_types (map hty elements) span);
  mret (hir (KList elements) (TList (default TJson t)) (union_effects elements) span).

(** yao/src/sema.rs:1430-1449 [analyze_dict, the loop]. *)
Fixpoint dict_entries (l : list Expr) (names : list str) (depth : N)
    : M (list (str * HirExpr)) :=
  match l with
  | [] => mret []
  | argument :: r =>
      items ← lift (expect_list argument "dict entries must be (KEY EXPR)");
      match items with
      | [key_expr; value_expr] =>
          key ← lift (atom_text key_expr "dict key must be a symbol or string");
          if bs_contains key names then
            throw (diag DuplicateName "duplicate dict key '{key}'" [AStr key]
                     (key_span key (espan key_expr)))
          else
            value ← rec value_expr (depth + 1);
            rest ← dict_entries r (bs_insert key names) depth;
            mret ((key, value) :: rest)
      | _ => throw (diag TypeMismatch "dict entries must contain exactly a key and value" []
                      (espan argument))
      end
  end.

Definition check_field_count (arguments : list Expr) (span : SourceSpan) : R unit :=
  ensure (len arguments <=? max_fields limits)
    (resource_fields (len arguments) (max_fields limits) span).

(** yao/src/sema.rs:1416-1461 [analyze_dict]. *)
Definition analyze_dict (arguments : list Expr) (span : SourceSpan) (depth : N) : M HirExpr :=
  _ ← lift (check_field_count arguments span);
  entries ← dict_entries arguments [] depth;
  t ← lift (infer_dict_value_type entries);
  _ ← lift (require_pure_all (map snd entries) "dict values");
  mret (hir (KDict entries) (TMap (default TJson t)) (union_effects (map snd entries)) span).

(** yao/src/sema.rs:1485-1517 [analyze_json_object, the loop]. *)
Fixpoint json_entries (l : list Expr) (names : list str) (depth : N)
    : M (list (str * HirExpr)) :=
  match l with
  | [] => mret []
  | argument :: r =>
      items ← lift (expect_list argument "json-object entries must be (KEY EXPR)");
      match items with
      | [key_expr; value_expr] =>
          name ← lift (atom_text key_expr "json-object key must be a symbol or string");
          if bs_contains name names then
            throw (diag DuplicateName "duplicate JSON key '{name}'" [AStr name] (espan key_expr))
          else
            value ← rec value_expr (depth + 1);
            _ ← lift (require_pure value "json-object field");
            _ ← lift (require_json_type (hty value) (hspan value));
            rest ← json_entries r (bs_insert name names) depth;
            mret ((name, hir (KToJson value) TJson [] (hspan value)) :: rest)
      | _ => throw (diag TypeMismatch "json-object entries require exactly a key and value" []
                      (espan argument))
      end
  end.

(** yao/src/sema.rs:1469-1524 [analyze_json_object]. *)
Definition analyze_json_object (arguments : list Expr) (span : SourceSpan) (depth : N)
    : M HirExpr :=
  _ ← lift (check_field_count arguments span);
  entries ← json_entries arguments [] depth;
  mret (hir (KDict entries) (TMap TJson) [] span).

(** yao/src/sema.rs:1526-1576 [analyze_json_conversion]. *)
Definition analyze_json_conversion (operator : str) (arguments : list Expr) (span : SourceSpan)
    (depth : N) : M HirExpr :=
  if operator =s s! "from-json" then
    match arguments with
    | [target_expr; value_expr] =>
        target ← lift (parse_type target_expr);
        _ ← lift (require_json_type target span);
        value ← rec value_expr (depth + 1);
        _ ← lift (require_pure value "from-json operand");
        _ ← lift (require_assignable (hty value) TJson (hspan value));
        mret (hir (KFromJson target value) target [] span)
    | _ => throw (diag TypeMismatch "from-json requires TYPE and JSON-EXPR" [] span)
    end
  else
    match arguments with
    | [value_expr] =>
        value ← rec value_expr (depth + 1);
        _ ← lift (require_pure value "to-json operand");
        _ ← lift (require_json_type (hty value) (hspan value));
        mret (hir (KToJson value) TJson [] span)
    | _ => throw (diag TypeMismatch "to-json requires exactly one expression" [] span)
    end.

(** yao/src/sema.rs:1578-1612 [analyze_record]. *)
Definition analyze_record (arguments : list Expr) (span : SourceSpan) (depth : N) : M HirExpr :=
  match arguments with
  | [] => throw (diag TypeMismatch "record requires a nominal type name" [] span)
  | type_expr :: rest =>
      type_name ← lift (expect_symbol type_expr "record type must be a symbol");
      match bm_get type_name definitions with
      | Some (DRecord _ fields _) =>
          values ← analyze_named_fields rest fields (depth + 1);
          _ ← lift (require_pure_all (map snd values) "record fields");
          mret (hir (KRecord type_name values) (TNamed type_name)
                  (union_effects (map snd values)) span)
      | _ => throw (diag InvalidType "'{type_name}' is not a declared record type"
                      [AStr type_name] (espan type_expr))
      end
  end.

(** yao/src/sema.rs:1614-1664 [analyze_variant]. *)
Definition analyze_variant (arguments : list Expr) (span : SourceSpan) (depth : N) : M HirExpr :=
  match arguments with
  | [] => throw (diag TypeMismatch "variant requires TYPE.VARIANT" [] span)
  | constructor_expr :: rest =>
      constructor ← lift (expect_symbol constructor_expr
                            "variant constructor must be TYPE.VARIANT");
      '(type_name, variant_name) ←
        lift (ok_or (split_last_dot constructor)
                (diag InvalidType "variant constructor must be TYPE.VARIANT" []
                   (espan constructor_expr)));
      match bm_get type_name definitions with
      | Some (DUnion _ variants _) =>
          variant ← lift (ok_or (List.find (λ v, vname v =s variant_name) variants)
                      (diag InvalidType "union '{type_name}' has no variant '{variant_name}'"
                         [AStr type_name; AStr variant_name] (espan constructor_expr)));
          values ← analyze_named_fields rest (vfields variant) (depth + 1);
          _ ← lift (require_pure_all (map snd values) "variant fields");
          mret (hir (KVariant type_name variant_name values) (TNamed type_name)
                  (union_effects (map snd values)) span)
      | _ => throw (diag InvalidType "'{type_name}' is not a declared union type"
                      [AStr type_name] (espan constructor_expr))
      end
  end.

(** yao/src/sema.rs:1666-1690 [analyze_some]. *)
Definition analyze_some (arguments : list Expr) (span : SourceSpan) (depth : N) : M HirExpr :=
  match arguments with
  | [value_expr] =>
      value ← rec value_expr (depth + 1);
      _ ← lift (require_pure value "some payload");
      mret (hir (KOptionSome value) (TOption (hty value)) (heffects value) span)
  | _ => throw (diag TypeMismatch "some requires exactly one value" [] span)
  end.

(** yao/src/sema.rs:1712-1742 [analyze_ok]. *)
Definition analyze_ok (arguments : list Expr) (span : SourceSpan) (depth : N) : M HirExpr :=
  match arguments with
  | [value_expr; error_expr] =>
      value ← rec value_expr (depth + 1);
      _ ← lift (require_pure value "ok payload");
      error ← lift (parse_type error_expr);
      _ ← lift (validate_type_names definitions error span);
      mret (hir (KResultOk value error) (TResult (hty value) error) (heffects value) span)
  | _ => throw (diag TypeMismatch "ok requires a value and the Result error type" [] span)
  end.

(** yao/src/sema.rs:1744-1774 [analyze_err]. *)
Definition analyze_err (arguments : list Expr) (span : SourceSpan) (depth : N) : M HirExpr :=
  match arguments with
  | [value_expr; ok_expr] =>
      value ← rec value_expr (depth + 1);
      _ ← lift (require_pure value "err payload");
      ok ← lift (parse_type ok_expr);
      _ ← lift (validate_type_names definitions ok span);
      mret (hir (KResultErr value ok) (TResult ok (hty value)) (heffects value) span)
  | _ => throw (diag TypeMismatch "err requires a value and the Result success type" [] span)
  end.

(** The clauses of [evidence], [outcome] and [context-transaction]: the list, its
    name, and the names seen. *)
Definition clause_parts (clause : Expr) (seen : list str) (shape no_name : string)
    : R (str * list Expr) :=
  items ← expect_list clause shape;
  match items with
  | [] => Err (diag TypeMismatch no_name [] (espan clause))
  | head :: args =>
      match as_symbol head with
      | None => Err (diag TypeMismatch no_name [] (espan clause))
      | Some name =>
          if bs_contains name seen then Err (duplicate_declaration name (espan clause))
          else Ok (name, args)
      end
  end.

(** [refs] and [evidence] clauses: pure expressions of type [Ref<Evidence>]. *)
Definition analyze_evidence_refs (l : list Expr) (position : string) (depth : N)
    : M (list HirExpr) :=
  refs ← analyze_many l depth;
  _ ← lift (require_pure_all refs position);
  _ ← lift (try_each (λ r, require_assignable (hty r) (TRef s! "Evidence") (hspan r)) refs);
  mret refs.

(** yao/src/sema.rs:1783-1840 [analyze_evidence, the clauses]: kind, value, refs. *)
Fixpoint evidence_clauses (l : list Expr) (seen : list str)
    (kind value : option HirExpr) (refs : list HirExpr) (depth : N)
    : M (option HirExpr * option HirExpr * list HirExpr) :=
  match l with
  | [] => mret (kind, value, refs)
  | clause :: r =>
      '(name, args) ← lift (clause_parts clause seen "evidence fields must be (NAME EXPR...)"
                              "evidence field has no name");
      let seen' := bs_insert name seen in
      if (name =s s! "kind") || (name =s s! "value") then
        match args with
        | [expr] =>
            e ← rec expr (depth + 1);
            _ ← lift (require_pure e "evidence candidate field");
            if name =s s! "kind" then
              _ ← lift (require_assignable (hty e) TString (hspan e));
              evidence_clauses r seen' (Some e) value refs depth
            else evidence_clauses r seen' kind (Some e) refs depth
        | _ => throw (diag TypeMismatch "evidence {name} requires exactly one value" [AStr name]
                        (espan clause))
        end
      else if name =s s! "refs" then
        refs' ← analyze_evidence_refs args "evidence refs" (depth + 1);
        evidence_clauses r seen' kind value refs' depth
      else throw (diag UnknownName "unknown evidence field '{other}'" [AStr name] (espan clause))
  end.

(** yao/src/sema.rs:1776-1861 [analyze_evidence]. *)
Definition analyze_evidence (arguments : list Expr) (span : SourceSpan) (depth : N)
    : M HirExpr :=
  '(kind, value, refs) ← evidence_clauses arguments [] None None [] depth;
  kind ← lift (ok_or kind (diag TypeMismatch "evidence requires (kind String)" [] span));
  value ← lift (ok_or value (diag TypeMismatch "evidence requires (value EXPR)" [] span));
  mret (hir (KEvidenceCandidate kind value refs) TEvidenceCandidate [] span).

(** yao/src/sema.rs:1870-1934 [analyze_outcome, the clauses]: status, value, evidence. *)
Fixpoint outcome_clauses (l : list Expr) (seen : list str)
    (status : option str) (value : option HirExpr) (evidence : list HirExpr) (depth : N)
    : M (option str * option HirExpr * list HirExpr) :=
  match l with
  | [] => mret (status, value, evidence)
  | clause :: r =>
      '(name, args) ← lift (clause_parts clause seen "outcome fields must be (NAME EXPR...)"
                              "outcome field has no name");
      let seen' := bs_insert name seen in
      if name =s s! "status" then
        match args with
        | [status_expr] =>
            candidate ← lift (expect_symbol status_expr "outcome status must be a symbol");
            if outcome_status candidate then
              outcome_clauses r seen' (Some candidate) value evidence depth
            else throw (diag InvalidType "outcome status must be succeeded, failed, or blocked"
                          [] (espan status_expr))
        | _ => throw (diag TypeMismatch "outcome status requires exactly one symbol" []
                        (espan clause))
        end
      else if name =s s! "value" then
        match args with
        | [expr] =>
            e ← rec expr (depth + 1);
            _ ← lift (require_pure e "outcome value");
            outcome_clauses r seen' status (Some e) evidence depth
        | _ => throw (diag TypeMismatch "outcome value requires exactly one expression" []
                        (espan clause))
        end
      else if name =s s! "evidence" then
        evidence' ← analyze_evidence_refs args "outcome evidence" (depth + 1);
        outcome_clauses r seen' status value evidence' depth
      else throw (diag UnknownName "unknown outcome field '{other}'" [AStr name] (espan clause))
  end.

(** yao/src/sema.rs:1863-1964 [analyze_outcome]. *)
Definition analyze_outcome (arguments : list Expr) (span : SourceSpan) (depth : N) : M HirExpr :=
  '(status, value, evidence) ← outcome_clauses arguments [] None None [] depth;
  status ← lift (ok_or status
             (diag TypeMismatch "outcome requires (status succeeded|failed|blocked)" [] span));
  mret (hir (KOutcomeCandidate status (default (hir (KLiteral LNil) TNil [] span) value) evidence)
          TOutcomeCandidate [] span).

(** yao/src/sema.rs:1973-2036 [analyze_context_transaction, the clauses]: context and
    canonical transaction source. *)
Fixpoint context_clauses (l : list Expr) (seen : list str)
    (context : option HirExpr) (transaction : option str) (depth : N)
    : M (option HirExpr * option str) :=
  match l with
  | [] => mret (context, transaction)
  | clause :: r =>
      '(name, args) ← lift (clause_parts clause seen
          "context-transaction fields must be (context EXPR) and (transaction (context-tx ...))"
          "context-transaction field has no name");
      let seen' := bs_insert name seen in
      if name =s s! "context" then
        match args with
        | [expr] =>
            e ← rec expr (depth + 1);
            _ ← lift (require_pure e "context-transaction context");
            _ ← lift (require_assignable (hty e) (TRef s! "Context") (hspan e));
            context_clauses r seen' (Some e) transaction depth
        | _ => throw (diag TypeMismatch
                        "context-transaction context requires exactly one Ref<Context>" []
                        (espan clause))
        end
      else if name =s s! "transaction" then
        match args with
        | [source] =>
            source_items ← lift (expect_list source "transaction must be (context-tx ...)");
            if head_is source_items s! "context-tx" then
              context_clauses r seen' context (Some (canonical_source source)) depth
            else throw (diag TypeMismatch "transaction must start with context-tx" []
                          (espan source))
        | _ => throw (diag TypeMismatch
                        "context-transaction transaction requires exactly one (context-tx ...) form"
                        [] (espan clause))
        end
      else throw (diag UnknownName "unknown context-transaction field '{other}'" [AStr name]
                    (espan clause))
  end.

(** yao/src/sema.rs:1966-2059 [analyze_context_transaction]. *)
Definition analyze_context_transaction (arguments : list Expr) (span : SourceSpan) (depth : N)
    : M HirExpr :=
  '(context, transaction) ← context_clauses arguments [] None None depth;
  context ← lift (ok_or context
              (diag TypeMismatch "context-transaction requires (context Ref<Context>)" [] span));
  source ← lift (ok_or transaction
             (diag TypeMismatch "context-transaction requires (transaction (context-tx ...))" []
                span));
  mret (hir (KContextTransaction context source) TContextTransaction [] span).

(** yao/src/sema.rs:2061-2088 [analyze_get]. *)
Definition analyze_get (arguments : list Expr) (span : SourceSpan) (depth : N) : M HirExpr :=
  match arguments with
  | [value_expr; field_expr] =>
      value ← rec value_expr (depth + 1);
      _ ← lift (require_pure value "get operand");
      field ← lift (atom_text field_expr "get field must be a symbol or string");
      ty ← lift (field_type definitions (hty value) field span);
      mret (hir (KGet value field) ty (heffects value) span)
  | _ => throw (diag TypeMismatch "get requires a value and static field name" [] span)
  end.

(** yao/src/sema.rs:2090-2125 [analyze_decode]. *)
Definition analyze_decode (arguments : list Expr) (span : SourceSpan) (depth : N) : M HirExpr :=
  match arguments with
  | [target_expr; value_expr] =>
      target ← lift (parse_type target_expr);
      _ ← lift (validate_type_names definitions target span);
      if contains_nonforgeable_type definitions target then
        throw (diag InvalidType "decode cannot construct Ref or Program values; they require host injection or Runtime admission" [] span)
      else
        value ← rec value_expr (depth + 1);
        _ ← lift (require_pure value "decode operand");
        _ ← lift (require_assignable (hty value) TJson (hspan value));
        mret (hir (KDecode target value) target (heffects value) span)
  | _ => throw (diag TypeMismatch "decode requires TYPE and JSON-EXPR" [] span)
  end.

(** yao/src/sema.rs:2127-2153 [analyze_is]. *)
Definition analyze_is (arguments : list Expr) (span : SourceSpan) (depth : N) : M HirExpr :=
  match arguments with
  | [target_expr; value_expr] =>
      target ← lift (parse_type target_expr);
      value ← rec value_expr (depth + 1);
      _ ← lift (require_pure value "is operand");
      mret (hir (KIs target value) TBool (heffects value) span)
  | _ => throw (diag TypeMismatch "is requires TYPE and EXPR" [] span)
  end.

(** yao/src/sema.rs:2155-2243 [analyze_pure]. *)
Definition analyze_pure (name : str) (operator : PureOperator) (arguments : list Expr)
    (span : SourceSpan) (depth : N) : M HirExpr :=
  operands ← analyze_many arguments (depth + 1);
  _ ← lift (require_pure_all operands "pure operator operands");
  ty ← lift (pure_type operator name operands span);
  mret (hir (KPure operator operands) ty (union_effects operands) span).

(** yao/src/sema.rs:2245-2269 [analyze_seq]. *)
Definition analyze_seq (arguments : list Expr) (span : SourceSpan) (depth : N) : M HirExpr :=
  match arguments with
  | [] => throw (diag TypeMismatch "seq requires at least one step" [] span)
  | _ =>
      steps ← analyze_many arguments (depth + 1);
      mret (hir (KSeq steps) (List.last (map hty steps) TNil) (union_effects steps) span)
  end.

(** yao/src/sema.rs:2271-2304 [analyze_bind]. *)
Definition analyze_bind (arguments : list Expr) (span : SourceSpan) (depth : N) : M HirExpr :=
  match arguments with
  | [name_expr; value_expr] =>
      name ← lift (expect_binding_name name_expr);
      s ← get_scope;
      if is_some (bindings s !! name) then
        throw (diag DuplicateName "binding '{name}' cannot be overwritten" [AStr name]
                 (espan name_expr))
      else
        value ← rec value_expr (depth + 1);
        s' ← get_scope;
        _ ← set_scope (scope_insert name (hty value) s');
        mret (hir (KBind name value) TNil (heffects value) span)
  | _ => throw (diag TypeMismatch "bind requires NAME and EXPR" [] span)
  end.

(** yao/src/sema.rs:2306-2346 [analyze_if]. *)
Definition analyze_if (arguments : list Expr) (span : SourceSpan) (depth : N) : M HirExpr :=
  match arguments with
  | [condition_expr; true_expr; false_expr] =>
      condition ← rec condition_expr (depth + 1);
      _ ← lift (require_pure condition "if condition");
      _ ← lift (require_assignable (hty condition) TBool (hspan condition));
      when_true ← isolated (rec true_expr (depth + 1));
      when_false ← isolated (rec false_expr (depth + 1));
      ty ← lift (ok_or (common_type (hty when_true) (hty when_false))
             (diag TypeMismatch "if branches have no common result type" [] span));
      mret (hir (KIf condition when_true when_false) ty
              (es_union (es_union (heffects condition) (heffects when_true))
                 (heffects when_false)) span)
  | _ => throw (diag TypeMismatch "if requires CONDITION, THEN, and ELSE" [] span)
  end.

(** yao/src/sema.rs:2348-2381 [analyze_fallback]. *)
Definition analyze_fallback (arguments : list Expr) (span : SourceSpan) (depth : N) : M HirExpr :=
  match arguments with
  | [primary_expr; backup_expr] =>
      primary ← isolated (rec primary_expr (depth + 1));
      backup ← isolated (rec backup_expr (depth + 1));
      ty ← lift (ok_or (common_type (hty primary) (hty backup))
             (diag TypeMismatch "fallback branches have no common result type" [] span));
      mret (hir (KFallback primary backup) ty
              (es_union (heffects primary) (heffects backup)) span)
  | _ => throw (diag TypeMismatch "fallback requires PRIMARY and BACKUP" [] span)
  end.

(** yao/src/sema.rs:2383-2431 [analyze_map]. *)
Definition analyze_map (arguments : list Expr) (span : SourceSpan) (depth : N) : M HirExpr :=
  match arguments with
  | [collection_expr; element_expr; body_expr] =>
      collection ← rec collection_expr (depth + 1);
      _ ← lift (require_pure collection "map collection");
      match hty collection with
      | TList element_type =>
          element ← lift (expect_binding_name element_expr);
          s ← get_scope;
          if is_some (bindings s !! element) then
            throw (diag DuplicateName "map element '{element_name}' shadows an existing binding"
                     [AStr element] (espan element_expr))
          else
            body ← with_scope (scope_insert element element_type s) (rec body_expr (depth + 1));
            mret (hir (KMap collection element body) (TList (hty body))
                    (es_union (heffects collection) (heffects body)) span)
      | _ => throw (diag TypeMismatch "map collection must be List<T>" [] (hspan collection))
      end
  | _ => throw (diag TypeMismatch "map requires COLLECTION, ELEMENT, and BODY" [] span)
  end.

(** The values of named arguments, in order. *)
Definition argument_values (l : list NamedArgument) : list HirExpr := concat (map na_values l).

(** [requires.tools] restricts [tool], yao/src/sema.rs:2448-2460. *)
Definition tool_excluded (tool : str) : bool :=
  match req_tools (ctx_requirements cx) with
  | Some tools => negb (bs_contains tool tools)
  | None => false
  end.

(** yao/src/sema.rs:2433-2488 [analyze_call]. *)
Definition analyze_call (arguments : list Expr) (span : SourceSpan) (depth : N) : M HirExpr :=
  match arguments with
  | [] => throw (diag TypeMismatch "call requires a static tool name" [] span)
  | tool_expr :: rest =>
      tool ← lift (expect_symbol tool_expr "tool name must be a symbol");
      stack ← get_stack;
      if bool_decide (stack = []) && tool_excluded tool then
        throw (diag EffectEscape "tool '{tool}' is outside the program requires.tools set"
                 [AStr tool] (espan tool_expr))
      else
        match tool_signature tool with
        | None =>
            match unavailable_tool_reason tool with
            | Some reason => throw (diag EffectEscape "{reason}" [AStr reason] (espan tool_expr))
            | None => throw (diag UnknownName "unknown tool '{tool}'" [AStr tool]
                               (espan tool_expr))
            end
        | Some signature =>
            named ← analyze_named_arguments rest (depth + 1);
            _ ← lift (require_pure_all (argument_values named) "call arguments");
            _ ← lift (check_signature named signature span);
            mret (hir (KCall tool named) (sig_result signature)
                    (es_insert (ETool tool) (union_effects (argument_values named))) span)
        end
  end.

(** yao/src/sema.rs:1098-1115 [compile_function, the parameters]. *)
Fixpoint bind_parameters (l : list FunctionParameter) (s : Scope) : R Scope :=
  match l with
  | [] => Ok s
  | p :: r =>
      if is_some (bindings s !! p_name p) then
        Err (diag DuplicateName "fn parameter '{}' shadows an implicit binding"
               [AStr (p_name p)] (p_span p))
      else bind_parameters r (scope_insert (p_name p) (p_ty p) s)
  end.

Definition missing_effects (actual declared : EffectSet) : EffectSet :=
  es_new (List.filter (λ e, negb (es_contains e declared)) actual).

(** yao/src/sema.rs:1097-1142 [compile_function, the body]. *)
Definition compile_body (declaration : FunctionDeclaration) : M CompiledFunction :=
  s ← lift (bind_parameters (fd_parameters declaration) scope_new);
  body ← with_scope s (rec (fd_body declaration) 0);
  _ ← lift (require_assignable (hty body) (fd_returns declaration) (hspan body));
  _ ← lift match fd_declared_effects declaration with
           | Some declared =>
               ensure (es_is_subset (heffects body) declared)
                 (diag EffectEscape
                    "fn '{}' effects {:?} exceed declared upper bound {:?}; missing {:?}"
                    [AStr (fd_name declaration); AEffects (heffects body); AEffects declared;
                     AEffects (missing_effects (heffects body) declared)] (hspan body))
           | None => Ok tt
           end;
  mret (mkCompiled declaration body).

(** yao/src/sema.rs:1144-1150 [compile_function]: an error names the function. *)
Definition in_function (name : str) (d : Diagnostic) : Diagnostic :=
  mkDiagnostic (code d) (Msg "in fn '{name}': {}" [AStr name; AMsg (message d)]) (primary d)
    (related d) (match function d with Some f => Some f | None => Some name end).

(** The names from the first occurrence of [name] on. *)
Fixpoint cycle_from (name : str) (stack : list str) : option (list str) :=
  match stack with
  | [] => None
  | x :: r => if x =s name then Some (x :: r) else cycle_from name r
  end.

Definition declaration_span (name : str) : SourceSpan :=
  match bm_get name (function_declarations cx) with
  | Some d => fd_span d
  | None => empty_span
  end.

(** yao/src/sema.rs:1065-1154 [compile_function]. *)
Definition compile_function (name : str) : M CompiledFunction :=
  compiled ← get_compiled;
  match bm_get name compiled with
  | Some f => mret f
  | None =>
      stack ← get_stack;
      match cycle_from name stack with
      | Some cycle =>
          throw (diag RecursiveFunction "recursive HNS function cycle is not supported: {}"
                   [AStrs (cycle ++ [name])] (declaration_span name))
      | None =>
          if max_function_call_depth limits <=? len stack then
            throw (diag ResourceLimit "HNS function call depth exceeds {}"
                     [ANum (max_function_call_depth limits)] (declaration_span name))
          else
            declaration ← lift (ok_or (bm_get name (function_declarations cx))
                (diag UnknownName "unknown HNS function '{name}'" [AStr name] empty_span));
            _ ← set_stack (stack ++ [name]);
            f ← (λ st, map_err (in_function name) (compile_body declaration st));
            _ ← set_stack stack;
            compiled' ← get_compiled;
            _ ← set_compiled (bm_insert name f compiled');
            mret f
      end
  end.

(** yao/src/sema.rs:2520-2550 [analyze_function_application, the arguments]. *)
Definition check_application (parameters : list FunctionParameter) (named : list NamedArgument)
    (span : SourceSpan) : R unit :=
  _ ← try_each (λ p,
        ensure (existsb (λ a, na_name a =s p_name p) named)
          (diag TypeMismatch "missing required fn argument '{}'" [AStr (p_name p)] span))
        parameters;
  try_each (λ a,
    p ← ok_or (List.find (λ p, p_name p =s na_name a) parameters)
          (diag UnknownName "unknown fn argument '{}'" [AStr (na_name a)] (na_span a));
    match na_values a with
    | [value] => require_assignable (hty value) (p_ty p) (hspan value)
    | _ => Err (diag TypeMismatch "fn argument '{}' requires exactly one value"
                  [AStr (na_name a)] (na_span a))
    end) named.

(** A tool effect of [effects] outside [requires.tools], yao/src/sema.rs:2551-2568. *)
Definition excluded_tool (effects : EffectSet) : option str :=
  List.find tool_excluded
    (concat (map (λ e, match e with ETool t => [t] | _ => [] end) effects)).

(** yao/src/sema.rs:2490-2585 [analyze_function_application]. *)
Definition analyze_function_application (name : str) (arguments : list Expr) (span : SourceSpan)
    (depth : N) : M HirExpr :=
  f ← compile_function name;
  stack ← get_stack;
  let d := cf_declaration f in
  if bool_decide (stack = []) && negb (allow_internal_functions cx)
     && negb (is_exported (fd_visibility d)) then
    throw (diag UnknownName "HNS function '{name}' is internal and cannot be called by this program"
             [AStr name] span)
  else
    named ← analyze_named_arguments arguments (depth + 1);
    _ ← lift (require_pure_all (argument_values named) "function arguments");
    _ ← lift (check_application (fd_parameters d) named span);
    _ ← lift match stack, excluded_tool (heffects (cf_body f)) with
             | [], Some tool =>
                 Err (diag EffectEscape "fn '{name}' reaches tool '{tool}' outside the program requires.tools set"
                        [AStr name; AStr tool] span)
             | _, _ => Ok tt
             end;
    mret (hir (KFunctionApplication name named (map p_name (fd_parameters d)) (cf_body f))
            (fd_returns d)
            (es_union (union_effects (argument_values named)) (heffects (cf_body f))) span).

(** yao/src/sema.rs:2607-2631 [analyze_infer_body, the captures]: names and types. *)
Fixpoint infer_captures (l : list Expr) (seen : list str) (s : Scope) : R (list (str * Ty)) :=
  match l with
  | [] => Ok []
  | capture :: r =>
      name ← expect_symbol capture "captures entries must be lexical names";
      if bs_contains name seen then
        Err (diag DuplicateName "infer captures lexical name '{name}' more than once"
               [AStr name] (espan capture))
      else
        ty ← ok_or (bindings s !! name)
               (diag UnknownName "infer capture '{name}' is not bound in the parent scope"
                  [AStr name] (espan capture));
        rest ← infer_captures r (bs_insert name seen) s;
        Ok ((name, ty) :: rest)
  end.

(** yao/src/sema.rs:2634-2648 [analyze_infer_body, the result contract]. *)
Definition infer_result (e : Expr) : R Ty :=
  items ← expect_list e "result contract must be a list";
  match items with
  | [_; ty_expr] =>
      ty ← parse_type ty_expr;
      _ ← validate_type_names definitions ty (espan e);
      Ok ty
  | _ => Err (diag InvalidType "infer result declaration must be exactly (returns TYPE)" []
                (espan e))
  end.

(** yao/src/sema.rs:2598-2694 [analyze_infer_body]; yao/src/sema.rs:2587-2596
    [analyze_infer] calls it.  The body sees only the captured bindings. *)
Definition analyze_infer_body (arguments : list Expr) (span : SourceSpan)
    (root_model_owned : bool) (depth : N) : M HirExpr :=
  outer ← get_scope;
  '(captures, rest1) ←
    lift (if is_form (head arguments) s! "captures" then
            items ← expect_list (default (EList [] span) (head arguments))
                      "captures must be a list";
            cs ← infer_captures (tail items) [] outer;
            Ok (cs, tail arguments)
          else Ok ([], arguments));
  '(declared, rest2) ←
    lift (if is_form (head rest1) s! "returns" then
            t ← infer_result (default (EList [] span) (head rest1));
            Ok (Some t, tail rest1)
          else Ok (None, rest1));
  match rest2 with
  | [body_source] =>
      body ← with_scope (mkScope (list_to_map captures) false) (rec body_source (depth + 1));
      let result := default (hty body) declared in
      let effects := if root_model_owned then heffects body
                     else es_insert EInfer (heffects body) in
      mret (hir (KInferBody body (map fst captures) result
                   (s! "(infer " ++ join s! " " (map canonical_source arguments) ++ s! ")"))
              result effects span)
  | _ => throw (diag InvalidType "infer requires exactly one complete Yao body after optional captures/returns declarations; use seq for multiple steps" [] span)
  end.

(** yao/src/sema.rs:2719-2761 [analyze_par, the branches]. *)
Fixpoint par_branches (l : list Expr) (names : list str) (depth : N) : M (list ParBranch) :=
  match l with
  | [] => mret []
  | branch :: r =>
      items ← lift (expect_list branch "par members must be (branch NAME EXPR)");
      match items with
      | [tag; name_expr; body_expr] =>
          if negb match as_symbol tag with Some t => t =s s! "branch" | None => false end then
            throw (diag UnknownOperator "par members must start with branch" [] (espan tag))
          else
            name ← lift (expect_symbol name_expr "branch name must be a symbol");
            if negb (is_identifier name) then
              throw (diag UnknownName "invalid branch name '{name}'" [AStr name]
                       (espan name_expr))
            else if bs_contains name names then
              throw (diag DuplicateName "duplicate par branch '{name}'" [AStr name]
                       (espan name_expr))
            else
              body ← isolated (rec body_expr (depth + 1));
              rest ← par_branches r (bs_insert name names) depth;
              mret (mkParBranch name body (espan branch) :: rest)
      | _ => throw (diag TypeMismatch "par members must be (branch NAME EXPR)" []
                      (espan branch))
      end
  end.

(** yao/src/sema.rs:2696-2771 [analyze_par]. *)
Definition analyze_par (arguments : list Expr) (span : SourceSpan) (depth : N) : M HirExpr :=
  if len arguments <? 2 then
    throw (diag TypeMismatch "par requires at least two branches" [] span)
  else if max_par_branches limits <? len arguments then
    throw (diag ResourceLimit "par contains {} branches; the limit is {}"
             [ANum (len arguments); ANum (max_par_branches limits)] span)
  else
    branches ← par_branches arguments [] depth;
    mret (hir (KPar branches)
            (TStructuralRecord (bm_of_list (map (λ b, (pb_name b, hty (pb_body b))) branches)))
            (union_effects (map pb_body branches)) span).

(** yao/src/sema.rs:2773-2808 [analyze_run]. *)
Definition analyze_run (arguments : list Expr) (span : SourceSpan) (depth : N) : M HirExpr :=
  match arguments with
  | [program_expr] =>
      program ← rec program_expr (depth + 1);
      _ ← lift (require_pure program "run operand");
      match hty program with
      | TProgram output effects =>
          mret (hir (KRun program) output (es_insert (EProgram effects) (heffects program)) span)
      | _ => throw (diag TypeMismatch "run operand must have Program<T, E> type" []
                      (hspan program))
      end
  | _ => throw (diag TypeMismatch "run requires one Program Value" [] span)
  end.

Definition lookup_host (operation : str) (span : SourceSpan) : R ToolSignature :=
  ok_or (host_signature operation)
    (diag UnknownName "unknown host operation '{operation}'" [AStr operation] span).

(** yao/src/sema.rs:2810-2842 [analyze_host]. *)
Definition analyze_host (operation : str) (arguments : list Expr) (span : SourceSpan) (depth : N)
    : M HirExpr :=
  signature ← lift (lookup_host operation span);
  named ← analyze_named_arguments arguments (depth + 1);
  _ ← lift (require_pure_all (argument_values named) "host operation arguments");
  _ ← lift (check_signature named signature span);
  mret (hir (KHost operation named) (sig_result signature)
          (es_insert (EHost operation) (union_effects (argument_values named))) span).

(** yao/src/sema.rs:2844-2884 [analyze_host_unary]. *)
Definition analyze_host_unary (operation argument_name : str) (arguments : list Expr)
    (span : SourceSpan) (depth : N) : M HirExpr :=
  match arguments with
  | [argument] =>
      signature ← lift (lookup_host operation span);
      value ← rec argument (depth + 1);
      _ ← lift (require_pure value "host operation operand");
      let named := [mkNamedArgument argument_name [value] (espan argument)] in
      _ ← lift (check_signature named signature span);
      mret (hir (KHost operation named) (sig_result signature) [EHost operation] span)
  | _ => throw (diag TypeMismatch "{operation} requires exactly one operand" [AStr operation]
                  span)
  end.

(** yao/src/sema.rs:2939-2955 [analyze_host_view, the projection type]. *)
Definition projection_type (t : Ty) : bool :=
  match t with
  | TJson | TStructuralRecord _ => true
  | TNamed name =>
      match bm_get name definitions with Some (DRecord _ _ _) => true | _ => false end
  | _ => false
  end.

(** yao/src/sema.rs:2917-2955 [analyze_host_view, the result]. *)
Definition view_result (returns : Expr) : R Ty :=
  items ← expect_list returns "host.view result must be (returns TYPE)";
  match items with
  | [tag; result_expr] =>
      if negb match as_symbol tag with Some t => t =s s! "returns" | None => false end then
        Err (diag InvalidType "host.view second operand must be (returns TYPE)" [] (espan returns))
      else
        result ← parse_type result_expr;
        _ ← validate_type_names definitions result (espan returns);
        _ ← ensure (projection_type result)
              (diag InvalidType "host.view return type must be Json, a structural record, or a named record" [] (espan returns));
        Ok result
  | _ => Err (diag InvalidType "host.view result must be (returns TYPE)" [] (espan returns))
  end.

(** yao/src/sema.rs:2886-2967 [analyze_host_view]. *)
Definition analyze_host_view (arguments : list Expr) (span : SourceSpan) (depth : N)
    : M HirExpr :=
  match arguments with
  | [reference_expr; returns] =>
      reference ← rec reference_expr (depth + 1);
      _ ← lift (require_pure reference "host.view reference");
      match hty reference with
      | TRef kind =>
          _ ← lift match req_objects (ctx_requirements cx) with
                   | Some objects =>
                       ensure (bs_contains kind objects)
                         (diag EffectEscape "host.view Ref<{kind}> exceeds declared object upper bound {:?}"
                            [AStr kind; AStrs objects] (hspan reference))
                   | None => Ok tt
                   end;
          result ← lift (view_result returns);
          mret (hir (KHost s! "host.view"
                       [mkNamedArgument s! "ref" [reference] (espan reference_expr)])
                  result [EHost (s! "view." ++ kind)] span)
      | _ => throw (diag TypeMismatch "host.view first operand must be Ref<K>" []
                      (hspan reference))
      end
  | _ => throw (diag TypeMismatch "host.view requires REF and (returns TYPE)" [] span)
  end.

(** yao/src/sema.rs:3011-3054 [analyze_match, one pattern]: the variant and the
    expressions of its field bindings. *)
Definition match_pattern (type_name : str) (variants : list VariantDefinition)
    (seen : list str) (pattern : Expr) : R (VariantDefinition * list Expr) :=
  items ← expect_list pattern "match pattern must be (case TYPE.VARIANT ...)";
  match items with
  | tag :: constructor_expr :: fields =>
      if negb match as_symbol tag with Some t => t =s s! "case" | None => false end then
        Err (diag TypeMismatch "match pattern must start with (case TYPE.VARIANT ...)" []
               (espan pattern))
      else
        constructor ← expect_symbol constructor_expr "match constructor must be TYPE.VARIANT";
        '(case_type, variant_name) ←
          ok_or (split_last_dot constructor)
            (diag InvalidType "match constructor must be TYPE.VARIANT" []
               (espan constructor_expr));
        if negb (case_type =s type_name) then
          Err (diag TypeMismatch "case for '{case_type}' cannot match '{type_name}'"
                 [AStr case_type; AStr type_name] (espan constructor_expr))
        else if bs_contains variant_name seen then
          Err (diag DuplicateName "duplicate match case '{variant_name}'" [AStr variant_name]
                 (espan constructor_expr))
        else
          variant ← ok_or (List.find (λ v, vname v =s variant_name) variants)
                      (diag InvalidType "unknown variant '{type_name}.{variant_name}'"
                         [AStr type_name; AStr variant_name] (espan constructor_expr));
          Ok (variant, fields)
  | _ => Err (diag TypeMismatch "match pattern must start with (case TYPE.VARIANT ...)" []
                (espan pattern))
  end.

(** yao/src/sema.rs:3000-3063 [analyze_match, the cases]. *)
Fixpoint match_cases (type_name : str) (variants : list VariantDefinition) (l : list Expr)
    (seen : list str) (depth : N) : M (list MatchCase) :=
  match l with
  | [] => mret []
  | case_expr :: r =>
      items ← lift (expect_list case_expr "match case must be (PATTERN BODY)");
      match items with
      | [pattern; body_expr] =>
          '(variant, fields) ← lift (match_pattern type_name variants seen pattern);
          s ← get_scope;
          '(bs, case_scope) ← lift (parse_match_bindings fields (vfields variant) s);
          body ← with_scope case_scope (rec body_expr (depth + 1));
          rest ← match_cases type_name variants r (bs_insert (vname variant) seen) depth;
          mret (mkMatchCase (vname variant) bs body (espan case_expr) :: rest)
      | _ => throw (diag TypeMismatch "match case must contain pattern and body" []
                      (espan case_expr))
      end
  end.

(** yao/src/sema.rs:2969-3089 [analyze_match]. *)
Definition analyze_match (arguments : list Expr) (span : SourceSpan) (depth : N) : M HirExpr :=
  match arguments with
  | [] => throw (diag TypeMismatch "match requires a value and cases" [] span)
  | value_expr :: case_exprs =>
      value ← rec value_expr (depth + 1);
      _ ← lift (require_pure value "match value");
      match hty value with
      | TNamed type_name =>
          match bm_get type_name definitions with
          | Some (DUnion _ variants _) =>
              cases ← match_cases type_name variants case_exprs [] depth;
              let missing := List.filter
                (λ v, negb (existsb (λ c, mc_variant c =s vname v) cases)) variants in
              _ ← lift match missing with
                       | [] => Ok tt
                       | _ => Err (diag TypeMismatch "non-exhaustive match; missing {}"
                                     [AStrs (map vname missing)] span)
                       end;
              t ← lift (common_types (map (λ c, hty (mc_body c)) cases) span);
              ty ← lift (ok_or t (diag TypeMismatch "match has no cases" [] span));
              mret (hir (KMatch value cases) ty
                      (es_union (heffects value) (union_effects (map mc_body cases))) span)
          | _ => throw (diag InvalidType "'{type_name}' is not a union" [AStr type_name]
                          (hspan value))
          end
      | _ => throw (diag TypeMismatch "match value must be a named union" [] (hspan value))
      end
  end.

(** yao/src/sema.rs:1184-1281 [analyze_expr, the operator]. *)
Definition analyze_operator (operator : str) (operator_span : SourceSpan)
    (arguments : list Expr) (span : SourceSpan) (depth : N) : M HirExpr :=
  if operator =s s! "list" then analyze_list arguments span depth
  else if operator =s s! "dict" then analyze_dict arguments span depth
  else if operator =s s! "json-object" then analyze_json_object arguments span depth
  else if (operator =s s! "from-json") || (operator =s s! "to-json") then
    analyze_json_conversion operator arguments span depth
  else if operator =s s! "record" then analyze_record arguments span depth
  else if operator =s s! "variant" then analyze_variant arguments span depth
  else if operator =s s! "some" then analyze_some arguments span depth
  else if operator =s s! "none" then lift (analyze_none arguments span)
  else if operator =s s! "ok" then analyze_ok arguments span depth
  else if operator =s s! "err" then analyze_err arguments span depth
  else if operator =s s! "evidence" then analyze_evidence arguments span depth
  else if operator =s s! "outcome" then analyze_outcome arguments span depth
  else if operator =s s! "context-transaction" then
    analyze_context_transaction arguments span depth
  else if operator =s s! "get" then analyze_get arguments span depth
  else if operator =s s! "decode" then analyze_decode arguments span depth
  else if operator =s s! "is" then analyze_is arguments span depth
  else
    match pure_operator operator with
    | Some op => analyze_pure operator op arguments span depth
    | None =>
        if operator =s s! "seq" then analyze_seq arguments span depth
        else if operator =s s! "bind" then analyze_bind arguments span depth
        else if operator =s s! "if" then analyze_if arguments span depth
        else if operator =s s! "match" then analyze_match arguments span depth
        else if operator =s s! "fallback" then analyze_fallback arguments span depth
        else if operator =s s! "map" then analyze_map arguments span depth
        else if operator =s s! "call" then analyze_call arguments span depth
        else if operator =s s! "infer" then analyze_infer_body arguments span false depth
        else if operator =s s! "par" then analyze_par arguments span depth
        else if operator =s s! "run" then analyze_run arguments span depth
        else if operator =s s! "host.view" then analyze_host_view arguments span depth
        else if (operator =s s! "evidence.commit") || (operator =s s! "outcome.commit") then
          analyze_host_unary operator s! "candidate" arguments span depth
        else if operator =s s! "context.propose" then
          analyze_host_unary operator s! "transaction" arguments span depth
        else if str_contains 46 operator then analyze_host operator arguments span depth
        else if bm_contains operator (function_declarations cx) then
          analyze_function_application operator arguments span depth
        else throw (diag UnknownOperator "unknown Yao operator '{other}'" [AStr operator]
                      operator_span)
    end.

(** yao/src/sema.rs:1156-1283 [analyze_expr], one level. *)
Definition analyze_expr_step (e : Expr) (depth : N) : M HirExpr := λ st,
  if max_expression_depth limits <? depth then
    Err (diag ResourceLimit "expression depth exceeds {}" [ANum (max_expression_depth limits)]
           (espan e))
  else
    let st' := mkSt (scope st) (compiled_functions st) (function_stack st) (node_count st + 1) in
    if max_hir_nodes limits <? node_count st' then
      Err (diag ResourceLimit "typed HIR exceeds {} nodes" [ANum (max_hir_nodes limits)]
             (espan e))
    else
      match e with
      | EAtom a => lift (analyze_atom a (scope st')) st'
      | EList items span =>
          match items with
          | [] => Err (diag UnknownOperator "expression list must start with an operator symbol"
                         [] span)
          | head :: arguments =>
              match as_symbol head with
              | None => Err (diag UnknownOperator
                               "expression list must start with an operator symbol" [] span)
              | Some operator => analyze_operator operator (espan head) arguments span depth st'
              end
          end
      end.
End operators.

Definition analysis_out_of_fuel : Diagnostic := diag ResourceLimit "out of fuel" [] empty_span.

Fixpoint analyze_expr_fuel (fuel : nat) (e : Expr) (depth : N) : M HirExpr :=
  match fuel with
  | O => throw analysis_out_of_fuel
  | S n => analyze_expr_step (analyze_expr_fuel n) e depth
  end.

(** yao/src/sema.rs:1156-1283 [analyze_expr]; every level counts a node before it
    recurses, so the node limit is enough fuel: see [analyze_expr_eq]. *)
Definition analyze_expr (e : Expr) (depth : N) : M HirExpr :=
  analyze_expr_fuel (S (N.to_nat (max_hir_nodes limits))) e depth.
End analyzer.

(** ** Programs and modules *)

Definition st_initial (s : Scope) : St := mkSt s [] [] 0.

Section modules.
Context `{CharClass} `{AnalysisProfile}.
(** yao/src/canonical.rs:52-57 [program_hash]: SHA-256 of the serialized program. *)
Context (program_hash : Program → str).

(** The parts of [Analyzer] set up before the walk. *)
Record Setup : Type := mkSetup {
  su_limits : AnalysisLimits;
  su_type_forms : list Expr;
  su_function_forms : list Expr;
  su_allow_internal : bool
}.

(** yao/src/sema.rs:602-617 [Analyzer::new]. *)
Definition analyzer_new (limits : AnalysisLimits) : Setup := mkSetup limits [] [] false.

(** yao/src/sema.rs:619-622 [with_types]. *)
Definition with_types (su : Setup) (forms : list Expr) : Setup :=
  mkSetup (su_limits su) forms (su_function_forms su) (su_allow_internal su).

(** yao/src/sema.rs:624-628 [with_functions]. *)
Definition with_functions (su : Setup) (forms : list Expr) (allow_internal : bool) : Setup :=
  mkSetup (su_limits su) (su_type_forms su) forms allow_internal.

(** The insertion loops of yao/src/sema.rs:672-680 and 742-750: no name twice. *)
Fixpoint add_definitions (fresh : Definitions) (template : string) (span : SourceSpan)
    (definitions : Definitions) : R Definitions :=
  match fresh with
  | [] => Ok definitions
  | (name, d) :: r =>
      if bm_contains name definitions then
        Err (diag DuplicateName template [AStr name] span)
      else add_definitions r template span (bm_insert name d definitions)
  end.

(** yao/src/sema.rs:731-754 [prepare_external_type_definitions]. *)
Definition prepare_external_type_definitions (limits : AnalysisLimits) (forms : list Expr)
    : R Definitions :=
  foldM (λ definitions form,
    if negb (is_form (Some form) s! "types") then
      Err (diag InvalidType "HNS module type source must have a (types ...) root" [] (espan form))
    else
      fresh ← parse_type_definitions limits form;
      add_definitions fresh "bound HNS module declares type '{name}' more than once" (espan form)
        definitions) [] forms.

(** yao/src/sema.rs:829-846 [prepare_function_declarations]. *)
Definition prepare_function_declarations (definitions : Definitions) (forms : list Expr)
    : R (list (str * FunctionDeclaration)) :=
  foldM (λ declarations form,
    d ← parse_function_declaration definitions form;
    if bm_contains (fd_name d) declarations then
      Err (diag DuplicateName "duplicate HNS function '{}'" [AStr (fd_name d)] (fd_span d))
    else Ok (bm_insert (fd_name d) d declarations)) [] forms.

(** yao/src/sema.rs:756-780 [validate_bound_function_tool_upper_bound]. *)
Definition validate_bound_function_tool_upper_bound (requirements : Requirements)
    (compiled : list (str * CompiledFunction)) : R unit :=
  match req_tools requirements with
  | None => Ok tt
  | Some tools =>
      try_each (λ nf : str * CompiledFunction,
        try_each (λ effect,
          match effect with
          | ETool tool =>
              ensure (bs_contains tool tools)
                (diag EffectEscape "HNS function '{}' reaches tool '{tool}' outside the package entry requires.tools set"
                   [AStr (fd_name (cf_declaration nf.2)); AStr tool]
                   (fd_span (cf_declaration nf.2)))
          | _ => Ok tt
          end) (heffects (cf_body nf.2))) compiled
  end.

(** yao/src/sema.rs:782-827 [finish_program]. *)
Definition finish_program (limits : AnalysisLimits) (requirements : Requirements)
    (definitions : Definitions) (root : Expr) (owner : EvaluationOwner) (body : HirExpr)
    : R Program :=
  _ ← match req_effects requirements with
      | Some declared =>
          ensure (es_is_subset (heffects body) declared)
            (diag EffectEscape "program effects {:?} exceed declared upper bound {:?}; missing {:?}. Remove requires.effects to let Yao infer the complete set, or add every missing effect explicitly"
               [AEffects (heffects body); AEffects declared;
                AEffects (missing_effects (heffects body) declared)] (hspan body))
      | None => Ok tt
      end;
  let linked_nodes := hir_node_count body in
  if max_hir_nodes limits <? linked_nodes then
    Err (diag ResourceLimit "statically linked Yao HIR contains {linked_nodes} nodes, exceeding the limit of {}"
           [ANum linked_nodes; ANum (max_hir_nodes limits)] (hspan body))
  else
    let program source_hash :=
      mkProgram s! "0.1" owner requirements definitions body (hty body) (heffects body)
        (canonical_source root) source_hash in
    Ok (program (program_hash (program []))).

(** yao/src/sema.rs:634-656 [analyze_module, the owner]. *)
Definition program_owner (root : Expr) : R (EvaluationOwner * list Expr) :=
  items ← expect_list root "program root must be (eval ...) or (infer ...)";
  match items with
  | [] => Err (diag UnknownOperator "program root is missing an evaluation owner" [] (espan root))
  | head :: rest =>
      match as_symbol head with
      | None => Err (diag UnknownOperator "program root is missing an evaluation owner" []
                       (espan root))
      | Some name =>
          if name =s s! "eval" then Ok (Runtime, rest)
          else if name =s s! "infer" then Ok (Model, rest)
          else Err (diag UnknownOperator "unknown program root '{other}'; expected eval or infer"
                      [AStr name] (espan head))
      end
  end.

(** yao/src/sema.rs:658-681 [analyze_module, the declarations]: the requirements, the type
    definitions and the forms that remain. *)
Definition program_declarations (su : Setup) (items : list Expr)
    : R (Requirements * Definitions * list Expr) :=
  _ ← ensure (negb (is_form (head items) s! "version"))
        (diag InvalidType "Yao source has no in-band version declaration; remove (version ...)" []
           (match items with e :: _ => espan e | [] => empty_span end));
  '(requirements, rest1) ←
    match items with
    | e :: r => if is_form (Some e) s! "requires"
                then rq ← parse_requirements e; Ok (rq, r)
                else Ok (requirements_default, items)
    | [] => Ok (requirements_default, [])
    end;
  external ← prepare_external_type_definitions (su_limits su) (su_type_forms su);
  '(definitions, rest2) ←
    match rest1 with
    | e :: r =>
        if is_form (Some e) s! "types" then
          local ← parse_type_definitions (su_limits su) e;
          ds ← add_definitions local
                 "program type '{name}' conflicts with the bound HNS module type" (espan e) external;
          Ok (ds, r)
        else Ok (external, rest1)
    | [] => Ok (external, [])
    end;
  Ok (requirements, definitions, rest2).

(** The loop of yao/src/sema.rs:690-692 over the declared functions. *)
Definition compile_all (cx : Ctx) : M unit :=
  _ ← mapM (λ nd, compile_function cx (analyze_expr cx) nd.1) (function_declarations cx);
  mret tt.

(** yao/src/sema.rs:697-723 [analyze_module, the body]. *)
Definition analyze_body (cx : Ctx) (owner : EvaluationOwner) (root : Expr) (items : list Expr)
    : M HirExpr :=
  match owner with
  | Runtime =>
      match items with
      | [body] => analyze_expr cx body 0
      | _ => throw (diag InvalidType "eval requires exactly one body after declarations; use seq for multiple steps" [] (espan root))
      end
  | Model =>
      match items with
      | [] => throw (diag InvalidType "infer requires one Yao body" [] (espan root))
      | _ =>
          body ← analyze_infer_body cx (analyze_expr cx) items (espan root) true 0;
          mret match hkind body with
               | KInferBody b captures result _ =>
                   hir (KInferBody b captures result (canonical_source root)) (hty body)
                     (heffects body) (hspan body)
               | _ => body
               end
      end
  end.

(** yao/src/sema.rs:634-729 [analyze_module]. *)
Definition analyze_module (su : Setup) (root : Expr) : R ModuleAnalysis :=
  '(owner, items) ← program_owner root;
  '(requirements, definitions, rest) ← program_declarations su items;
  _ ← validate_type_definitions definitions;
  declarations ← prepare_function_declarations definitions (su_function_forms su);
  let cx := mkCtx (su_limits su) requirements definitions declarations (su_allow_internal su) in
  '(_, st) ← compile_all cx (st_initial scope_new);
  _ ← (if su_allow_internal su
       then validate_bound_function_tool_upper_bound requirements (compiled_functions st)
       else Ok tt);
  '(body, st') ← analyze_body cx owner root rest
                   (mkSt scope_new (compiled_functions st) (function_stack st) (node_count st));
  program ← finish_program (su_limits su) requirements definitions root owner body;
  Ok (mkModuleAnalysis program
        (map (λ nf, (nf.1, cf_body nf.2)) (compiled_functions st'))).

(** yao/src/sema.rs:630-632 [analyze_program]. *)
Definition analyze_program (su : Setup) (root : Expr) : R Program :=
  ma_program <$> analyze_module su root.

(** yao/src/sema.rs:461-468 [analyze]. *)
Definition analyze (source : str) (limits : AnalysisLimits) : R Program :=
  root ← parse_one source (parse limits);
  analyze_program (analyzer_new limits) root.

(** [try_fold(.., checked_add)] over byte lengths. *)
Definition checked_sum (init : N) (l : list str) : option N :=
  fold_left (λ acc s, total ← acc;
                      if (total + byte_len s <=? usize_max) then Some (total + byte_len s) else None)
    l (Some init).

(** yao/src/sema.rs:498-552 [analyze_with_module]. *)
Definition analyze_with_module (source : str) (type_sources function_sources : list str)
    (allow_internal : bool) (limits : AnalysisLimits) : R Program :=
  total ← ok_or (checked_sum (byte_len source) type_sources ≫=
                 λ t, checked_sum t function_sources)
            (diag ResourceLimit "Yao module source size overflow" [] empty_span);
  if max_source_bytes (parse limits) <? total then
    Err (diag ResourceLimit "Yao module source is {total_source_bytes} bytes, exceeding the limit of {}"
           [ANum total; ANum (max_source_bytes (parse limits))] empty_span)
  else if max_functions limits <? len function_sources then
    Err (diag ResourceLimit "Yao module declares {} functions, exceeding the limit of {}"
           [ANum (len function_sources); ANum (max_functions limits)] empty_span)
  else
    root ← parse_one source (parse limits);
    type_forms ← traverse (λ s, parse_one s (parse limits)) type_sources;
    function_forms ← traverse (λ s, parse_one s (parse limits)) function_sources;
    analyze_program
      (with_functions (with_types (analyzer_new limits) type_forms) function_forms allow_internal)
      root.

(** yao/src/sema.rs:474-490 [analyze_with_functions]. *)
Definition analyze_with_functions (source : str) (function_sources : list str)
    (allow_internal : bool) (limits : AnalysisLimits) : R Program :=
  analyze_with_module source [] function_sources allow_internal limits.

(** yao/src/sema.rs:556-586 [analyze_module_forms]. *)
Definition analyze_module_forms (root : Expr) (functions : list Expr) (limits : AnalysisLimits)
    : R ModuleAnalysis :=
  if max_functions limits <? len functions then
    Err (diag ResourceLimit "too many package functions" [] (espan root))
  else
    let source_bytes :=
      fold_left (λ size f, N.min (size + byte_len (canonical_source f)) usize_max) functions
        (byte_len (canonical_source root)) in
    if max_source_bytes (parse limits) <? source_bytes then
      Err (diag ResourceLimit "combined package program exceeds source byte limit" [] (espan root))
    else analyze_module (with_functions (analyzer_new limits) functions true) root.
End modules.
