(* ===== verification/Typing.v ===== *)
(** * The type and effect system of typed expressions

    [typed top e s s']: the expression [e] is well typed in the scope [s] and
    leaves the scope [s'].  It is the specification the analyzer is checked
    against: it reads like the typing rules, with bounds instead of the
    analyzer's computed joins, and is defined by recursion on the expression.
    [top] says that the expression is outside any function body, where the
    program's [requires.tools] applies. *)

From stdpp Require Import base list gmap strings.
From S2P Require Import Prelude Types JsonValue Diagnostic Syntax SyntaxFacts Canonical Hir Decode DecodeFacts JsonBoundary JsonBoundaryFacts Declarations Analyzer.

(** ** Bindings of a match case *)

(** [sc] extends [s] with one new name per binding, at the type of its field. *)
Fixpoint bindings_extend (fields : list FieldDefinition) (bs : list MatchBinding) (s sc : Scope)
    : Prop :=
  match bs with
  | [] => sc = s
  | b :: r => ∃ d, List.find (λ f, fname f =s mb_field b) fields = Some d ∧
                   bindings s !! mb_binding b = None ∧
                   bindings_extend fields r (scope_insert (mb_binding b) (fty d) s) sc
  end.

(** The scopes before and after the clauses of a constructor, in the order the clauses
    are written: a path from [s] to [s']. *)
Fixpoint linked (s : Scope) (path : list (Scope * Scope)) (s' : Scope) : Prop :=
  match path with
  | [] => s' = s
  | (a, b) :: r => a = s ∧ linked b r s'
  end.

(** ** Rules on lists of expressions *)

Section lists.
Context (R : HirExpr → Scope → Scope → Prop).

(** Expressions evaluated in order, each in the scope its predecessor left. *)
Definition seq_typed : list HirExpr → Scope → Scope → Prop :=
  fix go l s s' :=
    match l with
    | [] => s' = s
    | e :: r => ∃ s1, R e s s1 ∧ go r s1 s'
    end.

(** Entries of constructors, in order. *)
Definition entries_typed : list (str * HirExpr) → Scope → Scope → Prop :=
  fix go l s s' :=
    match l with
    | [] => s' = s
    | (_, e) :: r => ∃ s1, R e s s1 ∧ go r s1 s'
    end.

(** Values of named arguments, in order. *)
Definition arguments_typed : list NamedArgument → Scope → Scope → Prop :=
  fix go l s s' :=
    match l with
    | [] => s' = s
    | mkNamedArgument _ vs _ :: r => ∃ s1, seq_typed vs s s1 ∧ go r s1 s'
    end.

(** Isolated branches: each in the same scope. *)
Definition branches_typed : list ParBranch → Scope → Prop :=
  fix go l s :=
    match l with
    | [] => True
    | mkParBranch _ e _ :: r => (∃ s1, R e s s1) ∧ go r s
    end.

(** Cases of a match: each in the scope extended with its bindings. *)
Definition cases_typed (variants : list VariantDefinition)
    : list MatchCase → Scope → Prop :=
  fix go l s :=
    match l with
    | [] => True
    | mkMatchCase v bs e _ :: r =>
        (∃ d sc s1,
           List.find (λ item, vname item =s v) variants = Some d ∧
           length bs = length (vfields d) ∧ NoDup (map mb_field bs) ∧
           bindings_extend (vfields d) bs s sc ∧ R e sc s1) ∧
        go r s
    end.
End lists.

(** ** Side conditions *)

(** A literal and its type; an integer literal is an [i64], a float literal parses. *)
Definition literal_typed (l : Literal) (t : Ty) : Prop :=
  match l with
  | LNil => t = TNil
  | LBool _ => t = TBool
  | LInt z => t = TInt ∧ in_i64 z = true
  | LFloat source => t = TFloat ∧ is_some (parse_f64 source) = true
  | LString _ => t = TString
  end.

Definition pure (e : HirExpr) : Prop := heffects e = [].
Definition below (t : Ty) (e : HirExpr) : Prop := assignable (hty e) t.

(** The fields of a constructor: each declared field once, at its type. *)
Definition fields_typed (declared : list FieldDefinition) (fields : list (str * HirExpr)) : Prop :=
  length fields = length declared ∧ NoDup fields.*1 ∧
  (∀ d, d ∈ declared → fname d ∈ fields.*1) ∧
  Forall (λ ne, ∃ d, List.find (λ d, fname d =s ne.1) declared = Some d ∧ below (fty d) ne.2) fields.

Section typed.
Context `{CharClass} `{AnalysisProfile} (cx : Ctx).
Local Abbreviation definitions := (ctx_definitions cx).

(** The signature of a pure operator. *)
Definition operator_typed (op : PureOperator) (operands : list HirExpr) (t : Ty) : Prop :=
  match op with
  | OpEqual | OpNotEqual => t = TBool ∧ ∃ a b, operands = [a; b]
  | OpLess | OpLessEqual | OpGreater | OpGreaterEqual =>
      t = TBool ∧ ∃ a b, operands = [a; b] ∧
        ((below TFloat a ∧ below TFloat b) ∨ (hty a = TString ∧ hty b = TString))
  | OpAnd | OpOr => t = TBool ∧ Forall (λ e, hty e = TBool) operands
  | OpNot => t = TBool ∧ ∃ a, operands = [a] ∧ hty a = TBool
  | OpAdd | OpMultiply =>
      (t = TInt ∨ t = TFloat) ∧ Forall (λ e, hty e = TInt ∨ (hty e = TFloat ∧ t = TFloat)) operands
  | OpSubtract | OpDivide =>
      (t = TInt ∨ t = TFloat) ∧ (∃ a b, operands = [a; b]) ∧
      Forall (λ e, hty e = TInt ∨ (hty e = TFloat ∧ t = TFloat)) operands
  end.

(** Named arguments of a function application. *)
Definition application_typed (parameters : list FunctionParameter) (named : list NamedArgument)
    : Prop :=
  NoDup (map na_name named) ∧
  (∀ p, p ∈ parameters → p_name p ∈ map na_name named) ∧
  Forall (λ a, ∃ p e, List.find (λ p, p_name p =s na_name a) parameters = Some p ∧
                      na_values a = [e] ∧ below (p_ty p) e) named.

Fixpoint typed (top : bool) (e : HirExpr) (s s' : Scope) {struct e} : Prop :=
  let 'Hir kind ty effects _ := e in
  match kind with
  | KLiteral l => literal_typed l ty ∧ effects = [] ∧ s' = s
  | KReference root path =>
      path = None ∧ lookup_binding s root = Some ty ∧ effects = [] ∧ s' = s
  | KList es =>
      seq_typed (typed top) es s s' ∧ Forall pure es ∧ effects = [] ∧
      ∃ t, ty = TList t ∧ Forall (below t) es
  | KDict entries =>
      entries_typed (typed top) entries s s' ∧ Forall pure (map snd entries) ∧ effects = [] ∧
      NoDup entries.*1 ∧ ∃ t, ty = TMap t ∧ Forall (below t) (map snd entries)
  | KFromJson target v =>
      typed top v s s' ∧ pure v ∧ json_data definitions target ∧ ty = target ∧ effects = []
  | KToJson v =>
      typed top v s s' ∧ pure v ∧ json_data definitions (hty v) ∧ ty = TJson ∧ effects = []
  | KRecord n fields =>
      entries_typed (typed top) fields s s' ∧ Forall pure (map snd fields) ∧ effects = [] ∧
      ty = TNamed n ∧
      ∃ n' fs sp, bm_get n definitions = Some (DRecord n' fs sp) ∧ fields_typed fs fields
  | KVariant n variant fields =>
      entries_typed (typed top) fields s s' ∧ Forall pure (map snd fields) ∧ effects = [] ∧
      ty = TNamed n ∧
      ∃ n' vs sp d, bm_get n definitions = Some (DUnion n' vs sp) ∧
        List.find (λ v, vname v =s variant) vs = Some d ∧ fields_typed (vfields d) fields
  | KOptionSome v => typed top v s s' ∧ pure v ∧ ty = TOption (hty v) ∧ effects = []
  | KOptionNone inner => ty = TOption inner ∧ effects = [] ∧ s' = s
  | KResultOk v error => typed top v s s' ∧ pure v ∧ ty = TResult (hty v) error ∧ effects = []
  | KResultErr v ok => typed top v s s' ∧ pure v ∧ ty = TResult ok (hty v) ∧ effects = []
  | KEvidenceCandidate k v refs =>
      ty = TEvidenceCandidate ∧ effects = [] ∧ pure k ∧ pure v ∧ Forall pure refs ∧
      hty k = TString ∧ Forall (λ r, hty r = TRef s! "Evidence") refs ∧
      ∃ pk pv pr path,
        typed top k pk.1 pk.2 ∧ typed top v pv.1 pv.2 ∧ seq_typed (typed top) refs pr.1 pr.2 ∧
        path ≡ₚ [pk; pv; pr] ∧ linked s path s'
  | KOutcomeCandidate status v evidence =>
      ty = TOutcomeCandidate ∧ effects = [] ∧ pure v ∧ Forall pure evidence ∧
      outcome_status status = true ∧ Forall (λ r, hty r = TRef s! "Evidence") evidence ∧
      ∃ pv pr path,
        typed top v pv.1 pv.2 ∧ seq_typed (typed top) evidence pr.1 pr.2 ∧
        path ≡ₚ [pv; pr] ∧ linked s path s'
  | KContextTransaction c source =>
      typed top c s s' ∧ pure c ∧ ty = TContextTransaction ∧ effects = [] ∧
      hty c = TRef s! "Context" ∧
      ∃ e items, as_list e = Some items ∧ head_is items s! "context-tx" = true ∧
                 source = canonical_source e
  | KGet v field =>
      typed top v s s' ∧ pure v ∧ effects = [] ∧
      ∃ sp, field_type definitions (hty v) field sp = Ok ty
  | KDecode target v =>
      typed top v s s' ∧ pure v ∧ ty = target ∧ effects = [] ∧ source_ty target = true ∧
      contains_nonforgeable_type definitions target = false
  | KIs _ v => typed top v s s' ∧ pure v ∧ ty = TBool ∧ effects = []
  | KPure op operands =>
      seq_typed (typed top) operands s s' ∧ Forall pure operands ∧ effects = [] ∧
      operator_typed op operands ty
  | KSeq steps =>
      steps ≠ [] ∧ seq_typed (typed top) steps s s' ∧ ty = List.last (map hty steps) TNil ∧
      effects = union_effects steps
  | KBind n v =>
      bindings s !! n = None ∧ ty = TNil ∧ effects = heffects v ∧
      ∃ s1, typed top v s s1 ∧ s' = scope_insert n (hty v) s1
  | KIf c a b =>
      typed top c s s' ∧ pure c ∧ hty c = TBool ∧
      (∃ s1, typed top a s' s1) ∧ (∃ s1, typed top b s' s1) ∧ below ty a ∧ below ty b ∧
      effects = es_union (es_union (heffects c) (heffects a)) (heffects b)
  | KMatch v cases =>
      typed top v s s' ∧ pure v ∧
      (∃ n n' vs sp, hty v = TNamed n ∧ bm_get n definitions = Some (DUnion n' vs sp) ∧
         cases_typed (typed top) vs cases s' ∧
         (∀ d, d ∈ vs → vname d ∈ map mc_variant cases)) ∧
      Forall (λ c, below ty (mc_body c)) cases ∧
      effects = es_union (heffects v) (union_effects (map mc_body cases))
  | KFallback a b =>
      (∃ s1, typed top a s s1) ∧ (∃ s1, typed top b s s1) ∧ below ty a ∧ below ty b ∧
      effects = es_union (heffects a) (heffects b) ∧ s' = s
  | KMap c element body =>
      typed top c s s' ∧ pure c ∧ bindings s' !! element = None ∧
      (∃ t s1, hty c = TList t ∧ typed top body (scope_insert element t s') s1) ∧
      ty = TList (hty body) ∧ effects = es_union (heffects c) (heffects body)
  | KCall tool args =>
      arguments_typed (typed top) args s s' ∧ Forall pure (argument_values args) ∧
      NoDup (map na_name args) ∧ effects = [ETool tool] ∧ (top = true → tool_excluded cx tool = false) ∧
      ∃ sg sp, tool_signature tool = Some sg ∧ check_signature args sg sp = Ok tt ∧
               ty = sig_result sg
  | KFunctionApplication f args params body =>
      arguments_typed (typed top) args s s' ∧ Forall pure (argument_values args) ∧
      effects = es_union (union_effects (argument_values args)) (heffects body) ∧
      (top = true → excluded_tool cx (heffects body) = None) ∧
      ∃ d, bm_get f (function_declarations cx) = Some d ∧
           params = map p_name (fd_parameters d) ∧ ty = fd_returns d ∧
           application_typed (fd_parameters d) args ∧ below (fd_returns d) body ∧
           match fd_declared_effects d with Some es => heffects body ⊆ es | None => True end ∧
           (∃ s0 s1, bind_parameters (fd_parameters d) scope_new = Ok s0 ∧
                     typed false body s0 s1)
  | KInferBody body captures result _ =>
      ty = result ∧ effects = es_insert EInfer (heffects body) ∧ s' = s ∧
      ∃ cs s1, map fst cs = captures ∧ Forall (λ nt, bindings s !! nt.1 = Some nt.2) cs ∧
               typed top body (mkScope (list_to_map cs) false) s1
  | KPar branches =>
      branches_typed (typed top) branches s ∧ NoDup (map pb_name branches) ∧ s' = s ∧
      ty = TStructuralRecord (bm_of_list (map (λ b, (pb_name b, hty (pb_body b))) branches)) ∧
      effects = union_effects (map pb_body branches)
  | KRun p =>
      typed top p s s' ∧ pure p ∧
      ∃ o es, hty p = TProgram o es ∧ ty = o ∧ effects = [EProgram es]
  | KHost op args =>
      arguments_typed (typed top) args s s' ∧ Forall pure (argument_values args) ∧
      NoDup (map na_name args) ∧
      ∃ n, effects = [EHost n] ∧
           ((op = n ∧ op ≠ s! "host.view" ∧ ∃ sg sp, host_signature op = Some sg ∧ check_signature args sg sp = Ok tt ∧
                               ty = sig_result sg)
            ∨ (op = s! "host.view" ∧ ∃ r kind sp, args = [mkNamedArgument s! "ref" [r] sp] ∧
                 hty r = TRef kind ∧ n = s! "view." ++ kind ∧
                 match req_objects (ctx_requirements cx) with
                 | Some objects => kind ∈ objects
                 | None => True
                 end))
  end.
End typed.
