(* ===== verification/TypeGraph.v ===== *)
(** * Declared types as a graph

    The two depth-first searches the analyzer runs over type declarations, against
    the graph they search: [type_reaches] finds exactly the recursive declarations, and
    [contains_nonforgeable_type] exactly the types from which a capability can be
    reached.  On accepted declarations the graph is well founded, so that the types
    free of capabilities are exactly those that may cross the JSON boundary. *)

From stdpp Require Import base list gmap strings relations.
From S2P Require Import Prelude Types JsonValue Diagnostic Syntax SyntaxFacts Canonical Hir Decode DecodeFacts JsonBoundary JsonBoundaryFacts Declarations.

(** ** Capabilities *)

(** The type of a value the host alone can make. *)
Definition capability (t : Ty) : bool :=
  match t with
  | TEvidenceCandidate | TOutcomeCandidate | TContextTransaction | TRef _ | TProgram _ _ => true
  | _ => false
  end.

(** The types a value of the type is directly made of. *)
Definition parts (t : Ty) : list Ty :=
  match t with
  | TList t | TMap t | TOption t => [t]
  | TResult a b => [a; b]
  | TStructuralRecord fs => map snd fs
  | _ => []
  end.

Lemma ty_parts_ind (P : Ty → Prop) : (∀ t, (∀ t', t' ∈ parts t → P t') → P t) → ∀ t, P t.
Proof.
  intros Hstep t. induction t using ty_nested_ind; apply Hstep; simpl; intros t' Ht';
    try (by apply elem_of_nil in Ht').
  - by apply list_elem_of_singleton in Ht' as ->.
  - by apply list_elem_of_singleton in Ht' as ->.
  - apply list_elem_of_fmap in Ht' as (nt & -> & Hnt).
    match goal with HF : Forall _ _ |- _ => rewrite Forall_forall in HF; by apply HF end.
  - by apply list_elem_of_singleton in Ht' as ->.
  - rewrite !elem_of_cons, elem_of_nil in Ht'. by destruct Ht' as [->|[->|[]]].
Qed.

Lemma existsb_elem {A} (f : A → bool) l : existsb f l = true ↔ ∃ x, x ∈ l ∧ f x = true.
Proof. rewrite existsb_exists. by setoid_rewrite list_elem_of_In. Qed.

Lemma existsb_map {A B} (f : B → bool) (g : A → B) l : existsb f (map g l) = existsb (λ x, f (g x)) l.
Proof. induction l; simpl; congruence. Qed.

Section capabilities.
Context (defs : Definitions).

(** A value of the type has, at some depth, a place for a capability. *)
Inductive holds_capability : Ty → Prop :=
| H_capability t : capability t = true → holds_capability t
| H_part t t' : t' ∈ parts t → holds_capability t' → holds_capability t
| H_named n d t :
    bm_get n defs = Some d → t ∈ definition_types d → holds_capability t →
    holds_capability (TNamed n).

(** One level of a search: [named] is what it does at a declared name. *)
Definition search_step (named : str → bool) (go : Ty → bool) (t : Ty) : bool :=
  match t with
  | TNamed n => named n
  | _ => capability t || existsb go (parts t)
  end.

(** The search at most [k] declarations deep. *)
Fixpoint reaches_capability (k : nat) : Ty → bool :=
  fix go t :=
    match t with
    | TList t | TMap t | TOption t => go t
    | TStructuralRecord fs => existsb (λ nt, go nt.2) fs
    | TResult a b => go a || go b
    | TNamed n =>
        match bm_get n defs, k with
        | Some d, S k' => existsb (reaches_capability k') (definition_types d)
        | _, _ => false
        end
    | _ => capability t
    end.

Definition reaches_named (k : nat) (n : str) : bool :=
  match bm_get n defs, k with
  | Some d, S k' => existsb (reaches_capability k') (definition_types d)
  | _, _ => false
  end.

Definition nonforgeable_named (fuel : nat) (visiting : list str) (n : str) : bool :=
  if bs_contains n visiting then false
  else match bm_get n defs, fuel with
       | Some d, S f => existsb (nonforgeable defs f (bs_insert n visiting)) (definition_types d)
       | _, _ => false
       end.

Lemma reaches_capability_unfold k t :
  reaches_capability k t = search_step (reaches_named k) (reaches_capability k) t.
Proof. destruct k, t; simpl; rewrite ?existsb_map, ?orb_false_r; reflexivity. Qed.

Lemma nonforgeable_unfold fuel V t :
  nonforgeable defs fuel V t = search_step (nonforgeable_named fuel V) (nonforgeable defs fuel V) t.
Proof. destruct fuel, t; simpl; rewrite ?existsb_map, ?orb_false_r; reflexivity. Qed.

Lemma search_step_true named go t :
  search_step named go t = true ↔
  (∃ n, t = TNamed n ∧ named n = true) ∨ capability t = true ∨ ∃ t', t' ∈ parts t ∧ go t' = true.
Proof.
  assert (capability t || existsb go (parts t) = true ↔
    capability t = true ∨ ∃ t', t' ∈ parts t ∧ go t' = true) as Hother.
  { by rewrite orb_true_iff, existsb_elem. }
  destruct t; try (change (search_step named go ?t) with (capability t || existsb go (parts t));
    rewrite Hother; split; [by right|intros [(? & ? & _)|?]; done]).
  simpl in *. split; [by eauto|]. intros [(? & [= ->] & ?)|?]; [done|]. by apply Hother in H.
Qed.

Lemma nonforgeable_sound fuel V t : nonforgeable defs fuel V t = true → holds_capability t.
Proof.
  revert V t. induction fuel as [|f IH]; intros V t; induction t as [t IHt] using ty_parts_ind;
    rewrite nonforgeable_unfold, search_step_true;
    (intros [(n & -> & Hn)|[Hc|(t' & Ht' & Hgo)]]; [|by constructor|by eapply H_part; eauto]);
    unfold nonforgeable_named in Hn; destruct (bs_contains n V); try done;
    destruct (bm_get n defs) as [d|] eqn:Hd; try done.
  apply existsb_elem in Hn as (t & Ht & Hr). eapply H_named; eauto.
Qed.

Lemma holds_capability_reaches t : holds_capability t → ∃ k, reaches_capability k t = true.
Proof.
  induction 1 as [t Hc|t t' Ht' _ [k Hk]|n d t Hd Ht _ [k Hk]].
  - exists 0%nat. rewrite reaches_capability_unfold, search_step_true. auto.
  - exists k. rewrite reaches_capability_unfold, search_step_true. eauto.
  - exists (S k). rewrite reaches_capability_unfold, search_step_true. left. exists n.
    split; [done|]. unfold reaches_named. rewrite Hd. apply existsb_elem. eauto.
Qed.

(** The set of names being visited is a set of declared names, and the fuel covers the
    others. *)
Definition visiting_ok (fuel : nat) (V : list str) : Prop :=
  NoDup V ∧ (∀ n, n ∈ V → bm_contains n defs = true) ∧ (length defs ≤ fuel + length V)%nat.

Lemma declared_keys n : bm_contains n defs = true → n ∈ defs.*1.
Proof.
  unfold bm_contains. destruct (bm_get n defs) eqn:E; [|done]. intros _.
  apply bm_get_elem in E. apply list_elem_of_fmap. by exists (n, t).
Qed.

Lemma visiting_ok_push fuel V n :
  visiting_ok fuel V → n ∉ V → bm_contains n defs = true →
  ∃ f, fuel = S f ∧ visiting_ok f (bs_insert n V).
Proof.
  intros (Hnd & Hin & Hlen) Hn Hd.
  assert (length (n :: V) ≤ length defs)%nat as Hle.
  { rewrite <- (length_fmap fst defs). apply submseteq_length, NoDup_submseteq; [by constructor|].
    intros x [->|Hx]%elem_of_cons; apply declared_keys; auto. }
  simpl in Hle. destruct fuel as [|f]; [lia|]. exists f. split; [done|]. split_and!.
  - by apply bs_insert_NoDup.
  - intros x [->|Hx]%bs_insert_In; auto.
  - rewrite bs_insert_length by done. lia.
Qed.

(** A name on the current path hides a capability only if a shorter search finds it
    there. *)
Lemma nonforgeable_complete k t fuel V :
  visiting_ok fuel V → reaches_capability k t = true →
  nonforgeable defs fuel V t = true ∨
  ∃ v k', v ∈ V ∧ (k' ≤ k)%nat ∧ reaches_capability k' (TNamed v) = true.
Proof.
  revert t fuel V. induction k as [k IHk] using lt_wf_ind. intros t.
  induction t as [t IHt] using ty_parts_ind. intros fuel V HV Hr. pose proof Hr as Hr'.
  rewrite reaches_capability_unfold, search_step_true in Hr'.
  rewrite nonforgeable_unfold, search_step_true.
  destruct Hr' as [(n & -> & Hn)|[Hc|(t' & Ht' & Hgo)]]; [|by auto|].
  2: { destruct (IHt t' Ht' fuel V HV Hgo) as [?|?]; eauto 6. }
  destruct (bs_contains n V) eqn:HnV; [right; exists n, k; by rewrite <- bs_contains_In|].
  unfold reaches_named in Hn. destruct (bm_get n defs) as [d|] eqn:Hd; [|done].
  destruct k as [|k0]; [done|]. apply existsb_elem in Hn as (t & Ht & Hrt).
  assert (n ∉ V) as HnV' by (rewrite <- bs_contains_In; congruence).
  destruct (visiting_ok_push fuel V n HV HnV') as (f & -> & HV');
    [unfold bm_contains; by rewrite Hd|].
  destruct (IHk k0 ltac:(lia) t f _ HV' Hrt) as [Hnf|(v & k' & Hv & Hk' & Hrv)].
  - left. left. exists n. split; [done|]. unfold nonforgeable_named.
    rewrite HnV, Hd. apply existsb_elem. eauto.
  - apply bs_insert_In in Hv as [->|Hv]; [|right; exists v, k'; split_and!; [done|lia|done]].
    destruct (IHk k' ltac:(lia) (TNamed n) (S f) V HV Hrv) as [Hnf|(v & k2 & ? & ? & ?)].
    + left. by rewrite nonforgeable_unfold, search_step_true in Hnf.
    + right. exists v, k2. split_and!; [done|lia|done].
Qed.

Lemma contains_nonforgeable_iff t :
  contains_nonforgeable_type defs t = true ↔ holds_capability t.
Proof.
  unfold contains_nonforgeable_type. split; [apply nonforgeable_sound|].
  intros [k Hk]%holds_capability_reaches.
  destruct (nonforgeable_complete k t (length defs) []) as [?|(v & ? & Hv & _)]; [|done|done|].
  - split_and!; [constructor|set_solver|simpl; lia].
  - by apply elem_of_nil in Hv.
Qed.
End capabilities.

(** ** Recursive declarations *)

Section recursion.
Context (defs : Definitions).
Local Abbreviation depends := (depends defs).

Lemma named_in_dependencies t : named_in t = named_dependencies t.
Proof. induction t using ty_nested_ind; simpl; congruence || reflexivity. Qed.

Lemma depends_spec a b d : bm_get a defs = Some d →
  depends a b ↔ b ∈ concat (map named_dependencies (definition_types d)).
Proof.
  intros Hd. rewrite elem_of_concat. split.
  - intros (d' & t & Hd' & Ht & Hb). simplify_eq. rewrite named_in_dependencies in Hb.
    exists (named_dependencies t). split; [|done]. apply list_elem_of_fmap. eauto.
  - intros (l & (t & -> & Ht)%list_elem_of_fmap & Hb). exists d, t.
    rewrite named_in_dependencies. auto.
Qed.

Lemma names_remove_In x n (s : list str) : x ∈ names_remove n s ↔ x ∈ s ∧ x ≠ n.
Proof.
  unfold names_remove. rewrite !list_elem_of_In, filter_In, negb_true_iff, str_eqb_neq.
  split; intros [??]; auto.
Qed.

(** A finished name depends on finished names and on names being visited, never on the
    start. *)
Definition search_inv (start : str) (st : VisitState) : Prop :=
  ∀ x y, x ∈ st.2 → depends x y → y ≠ start ∧ (y ∈ st.2 ∨ y ∈ st.1).

(** What a search without success adds: finished names, and undeclared ones. *)
Definition search_grows (st st' : VisitState) : Prop :=
  st.2 ⊆ st'.2 ∧ st.1 ⊆ st'.1 ∧ ∀ y, y ∈ st'.1 → y ∈ st.1 ∨ bm_get y defs = None.

Definition search_ok (start current : str) (st : VisitState) (r : option (bool * VisitState))
    : Prop :=
  match r with
  | Some (true, _) => tc depends current start
  | Some (false, st') =>
      search_inv start st' ∧ search_grows st st' ∧ (current ∈ st'.2 ∨ current ∈ st'.1)
  | None => False
  end.

Lemma search_grows_trans a b c : search_grows a b → search_grows b c → search_grows a c.
Proof.
  intros (H1 & H2 & H3) (H4 & H5 & H6). split_and!; [set_solver..|].
  intros y [Hy|Hy]%H6; auto.
Qed.

(** Declared names not being visited: each nested call takes one. *)
Definition unvisited (st : VisitState) : nat :=
  length (List.filter (λ n, negb (bs_contains n st.1)) defs.*1).

Lemma reaches_any_ok start current reach l st :
  (∀ d, d ∈ l → depends current d) →
  (∀ d st', d ∈ l → search_inv start st' → search_grows st st' →
     search_ok start d st' (reach d st')) →
  search_inv start st →
  match reaches_any start reach l st with
  | Some (true, _) => tc depends current start
  | Some (false, st') =>
      search_inv start st' ∧ search_grows st st' ∧
      ∀ d, d ∈ l → d ≠ start ∧ (d ∈ st'.2 ∨ d ∈ st'.1)
  | None => False
  end.
Proof.
  intros Hdep Hreach Hinv.
  assert (∀ l0 st0, l0 ⊆ l → search_inv start st0 → search_grows st st0 →
    match reaches_any start reach l0 st0 with
    | Some (true, _) => tc depends current start
    | Some (false, st') =>
        search_inv start st' ∧ search_grows st0 st' ∧
        ∀ d, d ∈ l0 → d ≠ start ∧ (d ∈ st'.2 ∨ d ∈ st'.1)
    | None => False
    end) as Hgo.
  2: { apply Hgo; [done..|]. split_and!; auto. }
  induction l0 as [|d l0 IH]; intros st0 Hl Hi Hg; simpl.
  { split_and!; [done|split_and!; auto|set_solver]. }
  destruct (d =s start) eqn:Hds.
  { apply str_eqb_eq in Hds as ->. apply tc_once, Hdep. set_solver. }
  apply str_eqb_neq in Hds. destruct (bs_contains d st0.2) eqn:Hv.
  - apply bs_contains_In in Hv. specialize (IH st0 ltac:(set_solver) Hi Hg).
    destruct (reaches_any _ _ _ _) as [[[] st']|]; [done| |done].
    destruct IH as (? & Hg' & Hall). split_and!; [done..|].
    intros x [->|Hx]%elem_of_cons; [|auto]. destruct Hg' as (? & _). set_solver.
  - pose proof (Hreach d st0 ltac:(set_solver) Hi Hg) as Hr.
    destruct (reach d st0) as [[[] st1]|]; simpl in Hr; [| |done].
    + simpl. apply (tc_l _ _ d); [|done]. apply Hdep. set_solver.
    + destruct Hr as (Hi1 & Hg1 & Hd1). simpl.
      specialize (IH st1 ltac:(set_solver) Hi1 (search_grows_trans _ _ _ Hg Hg1)).
      destruct (reaches_any _ _ _ _) as [[[] st']|]; [done| |done].
      destruct IH as (? & Hg' & Hall). split_and!; [done|by eapply search_grows_trans|].
      intros x [->|Hx]%elem_of_cons; [|auto]. destruct Hg' as (? & ? & _). set_solver.
Qed.

Lemma unvisited_push st n d :
  bm_get n defs = Some d → bs_contains n st.1 = false →
  (unvisited (bs_insert n st.1, st.2) < unvisited st)%nat.
Proof.
  intros Hd Hn. unfold unvisited. simpl.
  assert (n ∈ defs.*1) as Hin.
  { apply bm_get_elem in Hd. apply list_elem_of_fmap. by exists (n, d). }
  assert (∀ x, bs_contains x (bs_insert n st.1) = false → bs_contains x st.1 = false) as Himp.
  { intros x. rewrite <- !not_true_iff_false, !bs_contains_In, bs_insert_In. tauto. }
  assert (bs_contains n (bs_insert n st.1) = true) as Hself.
  { apply bs_contains_In, bs_insert_In. by left. }
  assert (∀ l, (length (List.filter (λ x, negb (bs_contains x (bs_insert n st.1))) l)
                ≤ length (List.filter (λ x, negb (bs_contains x st.1)) l))%nat) as Hle.
  { induction l as [|x l IH]; simpl; [lia|]. destruct (bs_contains x (bs_insert _ _)) eqn:E1; simpl.
    - destruct (bs_contains x st.1); simpl; lia.
    - rewrite (Himp _ E1). simpl. lia. }
  induction defs.*1 as [|x l IH]; [by apply elem_of_nil in Hin|]. simpl.
  apply elem_of_cons in Hin as [<-|Hin].
  - rewrite Hself, Hn. simpl. specialize (Hle l). lia.
  - specialize (IH Hin). destruct (bs_contains x (bs_insert _ _)) eqn:E1; simpl.
    + destruct (bs_contains x st.1); simpl; lia.
    + rewrite (Himp _ E1). simpl. lia.
Qed.

Lemma unvisited_grows st st' : search_grows st st' → (unvisited st' ≤ unvisited st)%nat.
Proof.
  intros (_ & Hsub & _). unfold unvisited. induction defs.*1 as [|x l IH]; simpl; [lia|].
  destruct (bs_contains x st'.1) eqn:E1; simpl.
  - destruct (bs_contains x st.1); simpl; lia.
  - destruct (bs_contains x st.1) eqn:E2; simpl; [|lia].
    apply bs_contains_In, Hsub, bs_contains_In in E2. congruence.
Qed.

Lemma type_reaches_ok n start current st :
  (unvisited st < n)%nat → search_inv start st →
  search_ok start current st (type_reaches defs n start current st).
Proof.
  revert current st. induction n as [|n IH]; intros current st Hn Hinv; [lia|].
  destruct st as [vg vd]. cbn [type_reaches]. destruct (bs_contains current vg) eqn:Hc.
  { simpl. apply bs_contains_In in Hc. split_and!; [done|split_and!; auto|by right]. }
  destruct (bm_get current defs) as [d|] eqn:Hd.
  2: { simpl. assert (∀ y, y ∈ bs_insert current vg ↔ y = current ∨ y ∈ vg) as Hins
         by (intros; apply bs_insert_In).
    split_and!; [| |by right; apply Hins; left].
    - intros x y Hx Hy. destruct (Hinv x y Hx Hy) as [? [?|?]]; split; auto.
      right. simpl. apply Hins. auto.
    - split_and!; [done|intros y Hy; simpl; apply Hins; auto|].
      intros y [->|Hy]%Hins; auto. }
  pose proof (unvisited_push (vg, vd) current d Hd Hc) as Hlt. simpl in Hlt.
  assert (∀ y, y ∈ bs_insert current vg ↔ y = current ∨ y ∈ vg) as Hins
    by (intros; apply bs_insert_In).
  assert (current ∉ vg) as Hcvg by (rewrite <- bs_contains_In; congruence).
  opose proof* (reaches_any_ok start current (type_reaches defs n start)
    (concat (map named_dependencies (definition_types d))) (bs_insert current vg, vd)) as Hany.
  { intros x Hx. by apply (depends_spec current x d). }
  { intros x st' Hx Hi Hg. apply IH; [|done]. apply unvisited_grows in Hg. lia. }
  { intros x y Hx Hy. destruct (Hinv x y Hx Hy) as [? [?|?]]; split; auto.
    right. simpl. apply Hins. auto. }
  destruct (reaches_any _ _ _ _) as [[[] st']|]; [done| |done].
  destruct Hany as (Hi & (Hg1 & Hg2 & Hg3) & Hall). simpl. simpl in Hg1, Hg2, Hg3.
  split_and!.
  - intros x y Hx Hy. simpl in *. rewrite names_remove_In, bs_insert_In.
    apply bs_insert_In in Hx as [->|Hx].
    + apply (depends_spec current y d Hd) in Hy. destruct (Hall y Hy) as [? [?|?]]; [by auto|].
      destruct (decide (y = current)); auto.
    + destruct (Hi x y Hx Hy) as [? [?|?]]; [by auto|].
      destruct (decide (y = current)); auto.
  - split_and!; simpl.
    + intros y Hy. apply bs_insert_In. auto.
    + intros y Hy. apply names_remove_In. split; [apply Hg2, Hins; auto|]. by intros ->.
    + intros y [Hy Hne]%names_remove_In. apply Hg3 in Hy as [Hy|?]; [|by auto].
      apply Hins in Hy as [->|?]; [done|auto].
  - left. simpl. apply bs_insert_In. auto.
Qed.

(** A closed set of names without the start is not left by dependencies. *)
Lemma search_inv_closed start (vd : list str) x y :
  (∀ a b, a ∈ vd → depends a b → b ≠ start ∧ (b ∈ vd ∨ bm_get b defs = None)) →
  tc depends x y → x ∈ vd → y ≠ start.
Proof.
  intros Hclosed Hpath. induction Hpath as [x y Hxy|x y z Hxy Hyz IH]; intros Hx.
  - by apply (Hclosed x y).
  - destruct (Hclosed x y Hx Hxy) as [_ [Hy|Hy]]; [auto|].
    inversion Hyz as [? ? (d & ? & Hd & _)|? ? ? (d & ? & Hd & _)]; congruence.
Qed.

Lemma is_recursive_iff n : is_recursive defs n = true ↔ tc depends n n.
Proof.
  unfold is_recursive.
  opose proof* (type_reaches_ok (S (S (length defs))) n n ([], [])) as Hok.
  { unfold unvisited. simpl. etrans; [apply Nat.lt_succ_r, List.filter_length_le|].
    rewrite length_fmap. lia. }
  { intros x y Hx. simpl in Hx. by apply elem_of_nil in Hx. }
  destruct (type_reaches _ _ _ _ _) as [[[] [vg vd]]|]; simpl in Hok; [done| |done].
  split; [done|]. intros Hcycle. exfalso. destruct Hok as (Hinv & (_ & _ & Hund) & Hn).
  simpl in *.
  assert (∀ y, y ∈ vg → bm_get y defs = None) as Hvg.
  { intros y [Hy|Hy]%Hund; [by apply elem_of_nil in Hy|done]. }
  destruct Hn as [Hn|Hn].
  - eapply (search_inv_closed n vd n n); [|done..].
    intros a b Ha Hab. destruct (Hinv a b Ha Hab) as [? [?|?]]; auto.
  - apply Hvg in Hn. inversion Hcycle as [? ? (d & ? & Hd & _)|? ? ? (d & ? & Hd & _)]; congruence.
Qed.
End recursion.

(** ** Accepted declarations *)

Section accepted.
Context (defs : Definitions).
Local Abbreviation depends := (depends defs).

Definition names_known (t : Ty) : Prop := ∀ m, m ∈ named_in t → bm_contains m defs = true.

Lemma validate_type_names_iff t sp : validate_type_names defs t sp = Ok tt ↔ names_known t.
Proof.
  unfold names_known.
  induction t as [| | | | | | |t IH|t IH|fs IH|t IH|a b IHa IHb| | | | |o es IH|n] using ty_nested_ind;
    simpl; try (split; [by intros _ ? ?%elem_of_nil|done]); try done.
  - rewrite try_each_Ok, Forall_forall. rewrite Forall_forall in IH. split.
    + intros Hall m (l & (nt & -> & Hnt)%list_elem_of_fmap & Hm)%elem_of_concat.
      by apply (IH nt Hnt), Hm; apply Hall.
    + intros Hall nt Hnt. apply (IH nt Hnt). intros m Hm. apply Hall, elem_of_concat.
      exists (named_in nt.2). split; [apply list_elem_of_fmap; eauto|done].
  - setoid_rewrite elem_of_app. split.
    + intros Hm. res_inv. destruct_units. intros m [?|?]; [by apply IHa|by apply IHb].
    + intros Hm. rewrite (proj2 IHa) by auto. simpl. apply IHb. auto.
  - setoid_rewrite list_elem_of_singleton. destruct (bm_contains n defs) eqn:E; simpl.
    + split; [by intros _ ? ->|done].
    + split; [done|]. intros Hn. by rewrite Hn in E.
Qed.

Lemma declared_get n : bm_contains n defs = true ↔ ∃ d, bm_get n defs = Some d.
Proof.
  unfold bm_contains. destruct (bm_get n defs); split; intros Hn; eauto; [done|].
  by destruct Hn.
Qed.

Lemma validate_type_definitions_iff :
  bm_wf defs →
  validate_type_definitions defs = Ok tt ↔
  (∀ n d t, bm_get n defs = Some d → t ∈ definition_types d → names_known t) ∧
  (∀ n, ¬ tc depends n n).
Proof.
  intros Hwf. assert (∀ n d, (n, d) ∈ defs ↔ bm_get n defs = Some d) as Hget.
  { intros n d. split; [apply bm_NoDup_get; by apply bm_wf_NoDup|apply bm_get_elem]. }
  assert (try_each (λ nd, try_each (λ ty, validate_type_names defs ty (def_span nd.2))
            (definition_types nd.2)) defs = Ok tt ↔
    ∀ n d t, bm_get n defs = Some d → t ∈ definition_types d → names_known t) as Hnames.
  { rewrite try_each_Ok, Forall_forall. setoid_rewrite try_each_Ok.
    setoid_rewrite Forall_forall. split.
    - intros Hall n d t Hd Ht. apply Hget in Hd.
      by eapply validate_type_names_iff, (Hall (n, d)).
    - intros Hall [n d] Hnd t Ht. apply Hget in Hnd.
      by eapply validate_type_names_iff, Hall. }
  assert (∀ n d, is_recursive defs n = false →
    (if is_recursive defs n then Err d else Ok tt) = (Ok tt : R unit)) as Hif by (by intros ?? ->).
  unfold validate_type_definitions. split.
  - intros Hm. res_inv. destruct_units. split; [by apply Hnames|]. intros n Hcycle.
    apply try_each_Ok in Hm. rewrite Forall_forall in Hm.
    assert (∃ d, bm_get n defs = Some d) as (d & Hd).
    { inversion Hcycle as [? ? (d & ? & Hd & _)|? ? ? (d & ? & Hd & _)]; eauto. }
    apply Hget, Hm in Hd. simpl in Hd. apply is_recursive_iff in Hcycle. by rewrite Hcycle in Hd.
  - intros [Hn Hc]. apply Hnames in Hn. rewrite Hn. simpl. apply try_each_Ok, Forall_forall.
    intros [n d] Hnd. simpl. apply Hif. apply not_true_iff_false. rewrite is_recursive_iff. apply Hc.
Qed.

(** *** Data types *)

Lemma holds_capability_named_in t m :
  m ∈ named_in t → holds_capability defs (TNamed m) → holds_capability defs t.
Proof.
  intros Hm Hc.
  induction t as [| | | | | | |t IH|t IH|fs IH|t IH|a b IHa IHb| | | | |o es IH|n] using ty_nested_ind;
    simpl in Hm; try (by apply elem_of_nil in Hm);
    try (eapply H_part; [by left|by apply IH]).
  - apply elem_of_concat in Hm as (l & (nt & -> & Hnt)%list_elem_of_fmap & Hm).
    rewrite Forall_forall in IH. apply (H_part _ _ nt.2); [|by apply IH].
    simpl. apply list_elem_of_fmap. eauto.
  - apply elem_of_app in Hm as [Hm|Hm].
    + apply (H_part _ _ a); [by left|auto].
    + apply (H_part _ _ b); [by right; left|auto].
  - by constructor.
  - by apply list_elem_of_singleton in Hm as ->.
Qed.

Lemma json_data_capability_free t : json_data defs t → ¬ holds_capability defs t.
Proof.
  induction 1 as [| | | | | | |t Ht IH|t Ht IH|t Ht IH|a b Ha IHa Hb IHb|fs IH|n d Hd IH]
    using json_data_nested_ind; inversion 1 as [? Hc|? t' Ht' Hc|? ? ? Hd' Ht' Hc]; subst;
    simpl in *; try done; try (by apply elem_of_nil in Ht');
    try (apply list_elem_of_singleton in Ht' as ->; done).
  - rewrite !elem_of_cons, elem_of_nil in Ht'. by destruct Ht' as [->|[->|[]]].
  - apply list_elem_of_fmap in Ht' as (nt & -> & Hnt). rewrite Forall_forall in IH.
    by eapply IH.
  - simplify_eq. rewrite Forall_forall in IH. by eapply IH.
Qed.

Section valid.
Context (Hknown : ∀ n d t, bm_get n defs = Some d → t ∈ definition_types d → names_known t)
  (Hacyclic : ∀ n, ¬ tc depends n n).

Lemma depends_declared a b : depends a b → b ∈ defs.*1.
Proof. intros (d & t & Hd & Ht & Hb). eapply declared_keys, Hknown; eauto. Qed.

Lemma reached_declared a b : tc depends a b → b ∈ defs.*1.
Proof. induction 1; [by eapply depends_declared|done]. Qed.

(** The declared types of an accepted set have a bounded depth. *)
Lemma declarations_well_founded n : sn depends n.
Proof.
  apply tc_finite_sn; [intros x; apply Hacyclic|].
  exists defs.*1. intros x. apply reached_declared.
Qed.

Lemma named_in_part t t' m : t' ∈ parts t → m ∈ named_in t' → m ∈ named_in t.
Proof.
  destruct t; simpl; try (by intros ?%elem_of_nil); try (by intros ->%list_elem_of_singleton).
  - intros (nt & -> & Hnt)%list_elem_of_fmap Hm. apply elem_of_concat.
    exists (named_in nt.2). split; [apply list_elem_of_fmap; eauto|done].
  - rewrite !elem_of_cons, elem_of_nil, elem_of_app. intros [->|[->|[]]]; auto.
Qed.

Lemma json_data_of_names t :
  ¬ holds_capability defs t → (∀ m, m ∈ named_in t → json_data defs (TNamed m)) →
  json_data defs t.
Proof.
  induction t as [t IH] using ty_parts_ind. intros Hc Hj.
  assert (Forall (json_data defs) (parts t)) as Hparts.
  { apply Forall_forall. intros t' Ht'. apply IH; [done| |].
    - intros Hh. apply Hc. by eapply H_part.
    - intros m Hm. by eapply Hj, named_in_part. }
  destruct t; simpl in *; try (exfalso; apply Hc; by constructor); try (by constructor);
    try (constructor; by inversion Hparts).
  - constructor. by rewrite Forall_map in Hparts.
  - inversion Hparts as [|? ? ? Hrest]; subst. inversion Hrest; subst. by constructor.
  - apply Hj. by left.
Qed.

Lemma json_data_iff_capability_free t :
  names_known t → json_data defs t ↔ ¬ holds_capability defs t.
Proof.
  intros Hn. split; [apply json_data_capability_free|]. intros Hc.
  apply json_data_of_names; [done|]. intros m Hm.
  assert (¬ holds_capability defs (TNamed m)) as Hcm
    by (intros Hh; apply Hc; by eapply holds_capability_named_in).
  apply Hn, declared_get in Hm as (d & Hd). clear Hn Hc t.
  revert d Hd Hcm. induction (declarations_well_founded m) as [m _ IH]. intros d Hd Hcm.
  econstructor; [exact Hd|]. apply Forall_forall. intros t Ht.
  assert (¬ holds_capability defs t) as Hct by (intros Hh; apply Hcm; by eapply H_named).
  apply json_data_of_names; [done|]. intros k Hk.
  pose proof (Hknown m d t Hd Ht k Hk) as (dk & Hdk)%declared_get.
  apply (IH k) with dk; [by exists d, t|done|].
  intros Hh. apply Hct. by eapply holds_capability_named_in.
Qed.
End valid.
End accepted.

(** ** Main theorems *)

(** C8. Type declarations are accepted if and only if every name they mention is declared and
    no declared type reaches itself; the depth-first search is exact. *)
Theorem type_definitions_accepted_iff defs :
  bm_wf defs →
  validate_type_definitions defs = Ok tt ↔
  (∀ n d t m, bm_get n defs = Some d → t ∈ definition_types d → m ∈ named_in t →
     bm_contains m defs = true) ∧
  (∀ n, ¬ tc (depends defs) n n).
Proof.
  intros Hwf. rewrite validate_type_definitions_iff by done. unfold names_known. naive_solver.
Qed.

Lemma type_definitions_accepted_iff_witness :
  validate_type_definitions sample_definitions = Ok tt ∧
  ∀ n, ¬ tc (depends sample_definitions) n n.
Proof.
  split; [vm_compute; reflexivity|].
  apply (type_definitions_accepted_iff sample_definitions).
  - repeat constructor.
  - vm_compute. reflexivity.
Defined.

(** The test for nonforgeable content is exact, on recursive declarations too: it answers
    yes if and only if a capability can be reached through the fields of the type. *)
Theorem nonforgeable_exact defs t :
  contains_nonforgeable_type defs t = true ↔ holds_capability defs t.
Proof. apply contains_nonforgeable_iff. Qed.

(** On accepted declarations the two gates agree: a type may cross the JSON boundary if and
    only if it contains no nonforgeable capability. *)
Theorem boundary_types_are_forgeable defs t sp :
  bm_wf defs → validate_type_definitions defs = Ok tt → validate_type_names defs t sp = Ok tt →
  validate_json_type defs t = Ok tt ↔ contains_nonforgeable_type defs t = false.
Proof.
  intros Hwf [Hk Ha]%validate_type_definitions_iff Hn%validate_type_names_iff; [|done].
  rewrite validate_json_type_iff, json_data_iff_capability_free by done.
  by rewrite <- contains_nonforgeable_iff, not_true_iff_false.
Qed.

Lemma boundary_types_are_forgeable_witness :
  validate_json_type sample_definitions (TList (TNamed s! "Note")) = Ok tt ↔
  contains_nonforgeable_type sample_definitions (TList (TNamed s! "Note")) = false.
Proof.
  apply (boundary_types_are_forgeable sample_definitions _ empty_span).
  - repeat constructor.
  - vm_compute. reflexivity.
  - vm_compute. reflexivity.
Defined.
