(* ===== verification/DeclarationFacts.v ===== *)
(** * Parsed declarations

    What the declaration parsers guarantee: a parsed type contains no structural
    record and is well formed, a parsed set of definitions is sorted by name and made
    of parsed types, the fields of a declaration are distinct. *)

From stdpp Require Import base list gmap strings relations.
From S2P Require Import Prelude Types JsonValue Diagnostic Syntax SyntaxFacts Canonical Hir Decode DecodeFacts JsonBoundary JsonBoundaryFacts Declarations TypeGraph Analyzer.

Section facts.
Context `{CharClass}.

(** *** Types *)

Lemma parse_type_name_source name sp t : parse_type_name name sp = Ok t → source_ty t = true.
Proof.
  unfold parse_type_name. intros Hm.
  repeat (case_match_in Hm; [by injection Hm as <-|]). case_match_in Hm. by injection Hm as <-.
Qed.

Lemma parse_type_source e t : parse_type e = Ok t → source_ty t = true.
Proof.
  revert t. induction e as [a|items sp IH] using expr_nested_ind; intros t Hm; simpl in Hm.
  { case_match_in Hm. by eapply parse_type_name_source. }
  destruct items as [|c args]; [done|]. destruct (as_symbol c) as [k|]; [|done].
  inversion IH as [|? ? _ IHargs]; subst. rewrite Forall_forall in IHargs.
  case_match_in Hm.
  { destruct args as [|i [|]]; try done. by res_inv. }
  case_match_in Hm.
  { destruct args as [|i [|]]; try done. res_inv. apply IHargs in Ha; [|by left].
    by repeat case_match. }
  case_match_in Hm.
  { destruct args as [|a [|b [|]]]; try done. res_inv. simpl. apply andb_true_iff.
    split; [eapply (IHargs a)|eapply (IHargs b)]; try done; set_solver. }
  case_match_in Hm. destruct args as [|a [|b [|]]]; try done. res_inv.
  case_match_in Hm. res_inv. simpl. by eapply (IHargs a); [by left|].
Qed.

(** *** Definitions *)

Context (limits : AnalysisLimits).

(** The fields of one declaration: distinct names, source types. *)
Definition fields_ok (fs : list FieldDefinition) : Prop :=
  NoDup (map fname fs) ∧ Forall (λ d, source_ty (fty d) = true) fs.

Lemma parse_fields_ok l names fs : parse_fields l names = Ok fs →
  fields_ok fs ∧ ∀ n, n ∈ map fname fs → n ∉ names.
Proof.
  revert names fs. induction l as [|e l IH]; intros names fs Hm; simpl in Hm; res_inv.
  { repeat split; try constructor. by intros ? ?%elem_of_nil. }
  destruct a as [|n [|t [|]]]; try done. res_inv. case_match_in Hm. res_inv.
  apply orb_false_iff in Heqb as [_ Hn].
  match goal with Hf : parse_fields _ _ = _ |- _ => apply IH in Hf as [[Hnd Hs] Hout] end.
  match goal with Ht : parse_type _ = _ |- _ => apply parse_type_source in Ht end.
  match goal with Hn : bs_contains ?x names = false |- _ =>
    assert (x ∉ names) by (rewrite <- bs_contains_In; congruence) end.
  split; [split|].
  - simpl. constructor; [|done]. intros Hin%Hout. rewrite bs_insert_In in Hin. tauto.
  - by constructor.
  - simpl. intros m [->|Hm]%elem_of_cons; [done|]. apply Hout in Hm. rewrite bs_insert_In in Hm. tauto.
Qed.

Lemma parse_field_definitions_ok l fs : parse_field_definitions limits l = Ok fs → fields_ok fs.
Proof.
  unfold parse_field_definitions. destruct (_ <? _)%N; [done|]. intros Hm.
  by apply parse_fields_ok in Hm as [? _].
Qed.

Lemma parse_variants_ok l names vs : parse_variants limits l names = Ok vs →
  Forall (λ v, fields_ok (vfields v)) vs.
Proof.
  revert names vs. induction l as [|e l IH]; intros names vs Hm; simpl in Hm; res_inv; [constructor|].
  destruct a as [|n fs]; [done|]. res_inv. case_match_in Hm. res_inv.
  constructor; [|by eapply IH]. by eapply parse_field_definitions_ok.
Qed.

Definition definition_ok (d : TypeDefinition) : Prop :=
  match d with
  | DRecord _ fs _ => fields_ok fs
  | DUnion _ vs _ => Forall (λ v, fields_ok (vfields v)) vs
  end.

Lemma parse_definition_ok kind name e parts d :
  parse_definition limits kind name e parts = Ok d → definition_ok d.
Proof.
  unfold parse_definition. intros Hm. case_match_in Hm.
  { res_inv. by eapply parse_field_definitions_ok. }
  case_match_in Hm. res_inv. destruct a; [done|]. injection Hm as <-.
  by eapply parse_variants_ok.
Qed.

(** A set of declarations: sorted by name, each in order. *)
Definition definitions_ok (ds : Definitions) : Prop :=
  bm_wf ds ∧ Forall (λ nd, definition_ok nd.2) ds.

Lemma definitions_ok_insert n d ds :
  definition_ok d → definitions_ok ds → definitions_ok (bm_insert n d ds).
Proof. intros Hd [Hw Hall]. split; [by apply bm_wf_insert|by apply bm_insert_Forall]. Qed.

Lemma parse_type_declaration_ok ds e ds' :
  definitions_ok ds → parse_type_declaration limits ds e = Ok ds' → definitions_ok ds'.
Proof.
  unfold parse_type_declaration. intros Hds Hm. res_inv.
  destruct (head_symbol a) as [k|]; [|done]. destruct (a !! 1%nat); [|done]. res_inv.
  case_match_in Hm. case_match_in Hm. res_inv.
  apply definitions_ok_insert; [|done]. by eapply parse_definition_ok.
Qed.

Lemma foldM_inv {E A B} (P : B → Prop) (f : B → A → result E B) l b b' :
  (∀ b a b', P b → f b a = Ok b' → P b') → P b → foldM f b l = Ok b' → P b'.
Proof.
  intros Hf. revert b. induction l as [|a l IH]; intros b Hb Hm; simpl in Hm; [by injection Hm as <-|].
  res_inv. eauto.
Qed.

Lemma definitions_ok_nil : definitions_ok [].
Proof. split; constructor. Qed.

Lemma parse_type_definitions_ok e ds :
  parse_type_definitions limits e = Ok ds → definitions_ok ds.
Proof.
  unfold parse_type_definitions. intros Hm. res_inv.
  eapply (foldM_inv definitions_ok); [|apply definitions_ok_nil|exact Hm].
  intros. by eapply parse_type_declaration_ok.
Qed.

Lemma add_definitions_ok fresh tm sp ds ds' :
  definitions_ok fresh → definitions_ok ds → add_definitions fresh tm sp ds = Ok ds' →
  definitions_ok ds'.
Proof.
  revert ds. induction fresh as [|[n d] fresh IH]; intros ds [Hw Hf] Hds Hm; simpl in Hm.
  { by injection Hm as <-. }
  case_match_in Hm. inversion Hf; subst. inversion Hw; subst.
  eapply IH; [by split| |exact Hm]. by apply definitions_ok_insert.
Qed.

Lemma prepare_external_ok forms ds :
  prepare_external_type_definitions limits forms = Ok ds → definitions_ok ds.
Proof.
  intros Hm. eapply (foldM_inv definitions_ok); [|apply definitions_ok_nil|exact Hm].
  intros b e b' Hb Hs. simpl in Hs. case_match_in Hs. res_inv.
  eapply add_definitions_ok; [|exact Hb|exact Hs]. by eapply parse_type_definitions_ok.
Qed.

(** The consequence decoding relies on. *)
Lemma definitions_ok_source ds : definitions_ok ds → source_definitions ds.
Proof.
  intros [_ Hall]. eapply Forall_impl; [exact Hall|]. intros [n d] Hd. simpl in *.
  unfold source_definition. destruct d as [m fs sp|m vs sp]; simpl in *.
  - destruct Hd as [_ Hs]. by apply Forall_map.
  - apply Forall_concat, Forall_map. eapply Forall_impl; [exact Hd|].
    intros v [_ Hs]. by apply Forall_map.
Qed.
End facts.

Lemma program_declarations_ok `{CharClass} su items rq ds rest :
  program_declarations su items = Ok (rq, ds, rest) → definitions_ok ds.
Proof.
  unfold program_declarations. intros Hm. res_inv.
  match goal with Hp : prepare_external_type_definitions _ _ = _ |- _ =>
    apply prepare_external_ok in Hp as Hext end.
  match goal with Hd : match ?l with _ => _ end = Ok (_, rest) |- _ => destruct l as [|e r] end;
    [by simplify_eq|].
  case_match_in Ha2; [|by simplify_eq]. res_inv. simplify_eq.
  eapply add_definitions_ok; [|done|eassumption]. by eapply parse_type_definitions_ok.
Qed.
