(* ===== verification/AnalyzerSound.v ===== *)
(** * The analyzer implements the type and effect system

    Every expression [analyze_expr] accepts is [typed], in the scope it was analyzed
    in and with the scope it leaves; compiled functions are typed in their own
    scope.  One lemma per operator; the recursion is induction on the fuel. *)

From stdpp Require Import base list gmap strings.
From S2P Require Import Prelude Types JsonValue Diagnostic Syntax SyntaxFacts Canonical Hir Decode DecodeFacts JsonBoundary JsonBoundaryFacts Declarations TypeGraph Analyzer DeclarationFacts Typing.

(** ** Inverting computations *)

Lemma M_bind_Ok {A B} (m : M A) (f : A → M B) st b st' :
  (m ≫= f) st = Ok (b, st') → ∃ a st1, m st = Ok (a, st1) ∧ f a st1 = Ok (b, st').
Proof. unfold mbind, M_bind. intros H. res_inv. eauto. Qed.

Lemma lift_Ok {A} (r : R A) st a st' : lift r st = Ok (a, st') → r = Ok a ∧ st' = st.
Proof. unfold lift. intros H. res_inv. by simplify_eq. Qed.

Lemma mret_Ok {A} (a b : A) st st' : (mret a : M A) st = Ok (b, st') → b = a ∧ st' = st.
Proof. intros H. by injection H. Qed.

Definition set_st_scope (s : Scope) (st : St) : St :=
  mkSt s (compiled_functions st) (function_stack st) (node_count st).

Lemma with_scope_Ok {A} s (m : M A) st a st' :
  with_scope s m st = Ok (a, st') →
  ∃ st1, m (set_st_scope s st) = Ok (a, st1) ∧ st' = set_st_scope (scope st) st1.
Proof.
  unfold with_scope. intros H. apply M_bind_Ok in H as (? & ? & H1 & H).
  injection H1 as <- <-. apply M_bind_Ok in H as (? & ? & H1 & H). injection H1 as <- <-.
  apply M_bind_Ok in H as (a' & st1 & H1 & H). apply M_bind_Ok in H as (? & ? & H2 & H).
  injection H2 as <- <-. apply mret_Ok in H as [-> ->]. eauto.
Qed.

Lemma isolated_Ok {A} (m : M A) st a st' :
  isolated m st = Ok (a, st') →
  ∃ st1, m st = Ok (a, st1) ∧ st' = set_st_scope (scope st) st1.
Proof.
  unfold isolated. intros H. apply M_bind_Ok in H as (? & ? & H1 & H). injection H1 as <- <-.
  apply with_scope_Ok in H as (st1 & H1 & ->). destruct st; eauto.
Qed.

Ltac m_inv_step :=
  match goal with
  | H : mbind ?f ?m ?st = Ok (_, _) |- _ =>
      apply M_bind_Ok in H;
      let a := fresh "a" in let st1 := fresh "st" in let H1 := fresh "Hm" in
      destruct H as (a & st1 & H1 & H)
  | H : lift ?r ?st = Ok (_, _) |- _ => apply lift_Ok in H; destruct H as [H ->]
  | H : (mret ?a : M _) ?st = Ok (_, _) |- _ => apply mret_Ok in H; destruct H as [-> ->]
  | H : throw _ _ = Ok _ |- _ => discriminate H
  | H : get_scope _ = Ok _ |- _ => injection H as <- <-
  | H : set_scope _ _ = Ok _ |- _ => injection H as <- <-
  | H : get_stack _ = Ok _ |- _ => injection H as <- <-
  | H : set_stack _ _ = Ok _ |- _ => injection H as <- <-
  | H : get_compiled _ = Ok _ |- _ => injection H as <- <-
  | H : set_compiled _ _ = Ok _ |- _ => injection H as <- <-
  | H : with_scope _ _ _ = Ok (_, _) |- _ =>
      apply with_scope_Ok in H; let st1 := fresh "st" in destruct H as (st1 & H & ->)
  | H : isolated _ _ = Ok (_, _) |- _ =>
      apply isolated_Ok in H; let st1 := fresh "st" in destruct H as (st1 & H & ->)
  end.
Ltac m_inv := repeat m_inv_step.

(** ** Side conditions the analyzer checks *)

Lemma require_pure_Ok e p u : require_pure e p = Ok u → pure e.
Proof. intros H%ensure_Ok. by apply es_is_empty_spec. Qed.

Lemma require_pure_all_Ok l p u : require_pure_all l p = Ok u → Forall pure l.
Proof.
  intros H%try_each_Ok. eapply Forall_impl; [exact H|]. intros e. apply require_pure_Ok.
Qed.

Lemma require_assignable_Ok a t sp u : require_assignable a t sp = Ok u → assignable a t.
Proof. intros H%ensure_Ok. by apply is_assignable_to_iff. Qed.

Lemma union_effects_In l x : x ∈ union_effects l ↔ ∃ e, e ∈ l ∧ x ∈ heffects e.
Proof.
  unfold union_effects. assert (∀ acc, x ∈ fold_left (λ effects e, es_union effects (heffects e)) l acc
    ↔ x ∈ acc ∨ ∃ e, e ∈ l ∧ x ∈ heffects e) as H; [|rewrite H; set_solver].
  induction l as [|e l IH]; intros acc; simpl; [set_solver|]. rewrite IH, es_union_In. set_solver.
Qed.

Lemma union_effects_pure l : Forall pure l → union_effects l = [].
Proof.
  intros H. destruct (union_effects l) as [|x r] eqn:E; [done|].
  assert (x ∈ union_effects l) as (e & He & Hx)%union_effects_In by (rewrite E; set_solver).
  rewrite Forall_forall in H. rewrite (H e He) in Hx. by apply elem_of_nil in Hx.
Qed.

Lemma foldM_common_type l t t' sp :
  foldM (λ current next, ok_or (common_type current next)
    (diag TypeMismatch "types {current:?} and {next:?} have no common type"
       [ATy current; ATy next] sp)) t l = Ok t' →
  assignable t t' ∧ Forall (λ x, assignable x t') l.
Proof.
  revert t. induction l as [|x l IH]; intros t H; simpl in H.
  - injection H as ->. split; [constructor|constructor].
  - res_inv. apply common_type_spec in Ha as (H1 & H2 & _). destruct (IH _ H) as [H3 H4].
    split; [by eapply assignable_trans|]. constructor; [by eapply assignable_trans|done].
Qed.

Lemma common_types_Ok l sp t : common_types l sp = Ok t →
  match t with Some t => Forall (λ x, assignable x t) l | None => l = [] end.
Proof.
  destruct l as [|x l]; simpl; intros H; [by injection H as <-|]. res_inv.
  apply foldM_common_type in Ha as [??]. by constructor.
Qed.

Lemma dict_value_loop_Ok l t sp t' : dict_value_loop l t sp = Ok t' →
  assignable t t' ∧ Forall (λ ne, assignable (hty ne.2) t') l.
Proof.
  revert t sp. induction l as [|[k e] l IH]; intros t sp H; simpl in H.
  - injection H as ->. split; constructor.
  - destruct (common_type t (hty e)) as [c|] eqn:E; [|done].
    apply common_type_spec in E as (H1 & H2 & _).
    assert (assignable c t' ∧ Forall (λ ne, assignable (hty ne.2) t') l) as [H3 H4].
    { destruct (ty_eqb c t) eqn:Ec; [apply ty_eqb_eq in Ec; subst|]; by eapply IH. }
    split; [by eapply assignable_trans|]. constructor; [by eapply assignable_trans|done].
Qed.

Lemma infer_dict_Ok l t : infer_dict_value_type l = Ok t →
  match t with Some t => Forall (λ e, assignable (hty e) t) (map snd l) | None => l = [] end.
Proof.
  destruct l as [|[k e] l]; simpl; intros H; [by injection H as <-|]. res_inv.
  apply dict_value_loop_Ok in Ha as [??]. constructor; [done|]. by apply Forall_map.
Qed.

Lemma require_json_type_Ok cx t sp u :
  require_json_type cx t sp = Ok u → json_data (ctx_definitions cx) t.
Proof.
  unfold require_json_type. intros H. res_inv. destruct u. by apply validate_json_type_iff.
Qed.

Lemma assignable_base t b :
  match b with TBool | TString | TRef _ => True | _ => False end → assignable t b → t = b.
Proof. intros Hb H. destruct H; done. Qed.

(** ** Operators *)

(** Outside any function body. *)
Definition topb (stack : list str) : bool := match stack with [] => true | _ => false end.

Section sound.
Context `{CharClass} `{AnalysisProfile} (cx : Ctx).
(** Names that have been compiled already. *)
Context (base : list str).
Local Abbreviation definitions := (ctx_definitions cx).

(** A compiled function is its declaration with a typed body. *)
Definition function_typed (name : str) (f : CompiledFunction) : Prop :=
  bm_get name (function_declarations cx) = Some (cf_declaration f) ∧
  below (fd_returns (cf_declaration f)) (cf_body f) ∧
  match fd_declared_effects (cf_declaration f) with
  | Some es => heffects (cf_body f) ⊆ es
  | None => True
  end ∧
  ∃ s0 s1, bind_parameters (fd_parameters (cf_declaration f)) scope_new = Ok s0 ∧
           typed cx false (cf_body f) s0 s1.

Definition compiled_ok (l : list (str * CompiledFunction)) : Prop :=
  Forall (λ nf, function_typed nf.1 nf.2) l.

Definition st_ok (st : St) : Prop :=
  compiled_ok (compiled_functions st) ∧ ∀ n, n ∈ base → bm_get n (compiled_functions st) ≠ None.

(** The effect of a successful computation on the state: compiled functions stay
    typed and the function stack is restored. *)
Definition steps (st st' : St) : Prop := st_ok st' ∧ function_stack st' = function_stack st.

Definition sound (m : M HirExpr) : Prop := ∀ st h st',
  st_ok st → m st = Ok (h, st') →
  typed cx (topb (function_stack st)) h (scope st) (scope st') ∧ steps st st'.

Section operators.
Context (rec : Expr → N → M HirExpr) (Hrec : ∀ e d, sound (rec e d)).

(** Applies the induction hypothesis to every recursive call in the context. *)
Ltac rec_step :=
  match goal with
  | Hst : st_ok ?st, H : rec ?e ?d ?st = Ok (?h, ?st') |- _ =>
      let Ht := fresh "Ht" in let Hok := fresh "Hok" in let Hstk := fresh "Hstk" in
      destruct (Hrec e d st h st' Hst H) as [Ht [Hok Hstk]]; clear H; simpl in Ht, Hstk;
      try (match goal with E : function_stack st = _ |- _ => rewrite E in Ht, Hstk end);
      try rewrite Hstk in *
  | Hst : st_ok ?st, H : rec ?e ?d (set_st_scope ?s ?st) = Ok (?h, ?st') |- _ =>
      let Ht := fresh "Ht" in let Hok := fresh "Hok" in let Hstk := fresh "Hstk" in
      destruct (Hrec e d (set_st_scope s st) h st' Hst H) as [Ht [Hok Hstk]]; clear H;
      simpl in Ht, Hstk;
      try (match goal with E : function_stack st = _ |- _ => rewrite E in Ht, Hstk end);
      try rewrite Hstk in *
  end.

Lemma mapM_rec_sound l d st es st' :
  st_ok st → analyze_many rec l d st = Ok (es, st') →
  seq_typed (typed cx (topb (function_stack st))) es (scope st) (scope st') ∧ steps st st'.
Proof.
  unfold analyze_many. revert st es. induction l as [|e l IH]; intros st es Hst Hm; simpl in Hm.
  - m_inv. by split; [|split].
  - m_inv. rec_step. destruct (IH _ _ Hok Hm1) as [Hs [Hok' Hstk']].
    rewrite Hstk in *. split; [|by split]. simpl. eauto.
Qed.

Lemma analyze_list_sound l sp d : sound (analyze_list rec l sp d).
Proof.
  intros st h st' Hst Hm. unfold analyze_list in Hm. m_inv.
  apply mapM_rec_sound in Hm0 as [Hs Hsteps]; [|done].
  apply require_pure_all_Ok in Hm1. apply common_types_Ok in Hm2.
  split; [|done]. simpl. rewrite union_effects_pure by done. split_and!; try done.
  exists (default TJson a1). split; [done|]. destruct a1 as [t|]; simpl.
  - by rewrite Forall_map in Hm2.
  - destruct a; [constructor|done].
Qed.

Lemma analyze_some_sound l sp d : sound (analyze_some rec l sp d).
Proof.
  intros st h st' Hst Hm. unfold analyze_some in Hm. destruct l as [|v [|]]; try done. m_inv.
  rec_step. apply require_pure_Ok in Hm1. split; [|by split]. simpl. by split_and!.
Qed.

Lemma analyze_ok_sound l sp d : sound (analyze_ok cx rec l sp d).
Proof.
  intros st h st' Hst Hm. unfold analyze_ok in Hm. destruct l as [|v [|e [|]]]; try done. m_inv.
  rec_step. apply require_pure_Ok in Hm1. split; [|by split]. simpl. by split_and!.
Qed.

Lemma analyze_err_sound l sp d : sound (analyze_err cx rec l sp d).
Proof.
  intros st h st' Hst Hm. unfold analyze_err in Hm. destruct l as [|v [|e [|]]]; try done. m_inv.
  rec_step. apply require_pure_Ok in Hm1. split; [|by split]. simpl. by split_and!.
Qed.

Lemma analyze_get_sound l sp d : sound (analyze_get cx rec l sp d).
Proof.
  intros st h st' Hst Hm. unfold analyze_get in Hm. destruct l as [|v [|e [|]]]; try done. m_inv.
  rec_step. apply require_pure_Ok in Hm1. split; [|by split]. simpl. split_and!; eauto.
Qed.

Lemma analyze_is_sound l sp d : sound (analyze_is rec l sp d).
Proof.
  intros st h st' Hst Hm. unfold analyze_is in Hm. destruct l as [|v [|e [|]]]; try done. m_inv.
  rec_step. apply require_pure_Ok in Hm2. split; [|by split]. simpl. by split_and!.
Qed.

Lemma analyze_decode_sound l sp d : sound (analyze_decode cx rec l sp d).
Proof.
  intros st h st' Hst Hm. unfold analyze_decode in Hm. destruct l as [|v [|e [|]]]; try done.
  m_inv. destruct (contains_nonforgeable_type _ _) eqn:Hnf; [done|]. m_inv.
  rec_step. apply require_pure_Ok in Hm3. apply parse_type_source in Hm0.
  split; [|by split]. simpl. by split_and!.
Qed.

Lemma analyze_json_conversion_sound op l sp d : sound (analyze_json_conversion cx rec op l sp d).
Proof.
  intros st h st' Hst Hm. unfold analyze_json_conversion in Hm. destruct (op =s _).
  - destruct l as [|v [|e [|]]]; try done. m_inv. rec_step. apply require_pure_Ok in Hm3.
    apply require_json_type_Ok in Hm1. split; [|by split]. simpl. by split_and!.
  - destruct l as [|v [|]]; try done. m_inv. rec_step. apply require_pure_Ok in Hm1.
    apply require_json_type_Ok in Hm2. split; [|by split]. simpl. by split_and!.
Qed.

Lemma analyze_none_sound l sp : sound (lift (analyze_none cx l sp)).
Proof.
  intros st h st' Hst Hm. m_inv. unfold analyze_none in Hm. destruct l as [|v [|]]; try done.
  res_inv. split; [|by split]. simpl. by split_and!.
Qed.

(** The key lists of dictionaries and constructors have no duplicates. *)
Lemma NoDup_seen (k : str) (seen l : list str) :
  bs_contains k seen = false →
  NoDup l ∧ (∀ n, n ∈ l → n ∉ bs_insert k seen) →
  NoDup (k :: l) ∧ (∀ n, n ∈ k :: l → n ∉ seen).
Proof.
  intros Hk [Hnd Hout]. assert (k ∉ seen) by (rewrite <- bs_contains_In; congruence).
  split.
  - constructor; [|done]. intros Hin%Hout. rewrite bs_insert_In in Hin. tauto.
  - intros n [->|Hn]%elem_of_cons; [done|]. apply Hout in Hn. rewrite bs_insert_In in Hn. tauto.
Qed.

Lemma dict_entries_sound l seen d st es st' :
  st_ok st → dict_entries rec l seen d st = Ok (es, st') →
  entries_typed (typed cx (topb (function_stack st))) es (scope st) (scope st') ∧ steps st st' ∧
  NoDup es.*1 ∧ (∀ n, n ∈ es.*1 → n ∉ seen).
Proof.
  revert seen st es. induction l as [|e l IH]; intros seen st es Hst Hm; simpl in Hm.
  { m_inv. split_and!; try done; try constructor; set_solver. }
  m_inv. destruct a as [|key [|value [|]]]; try done. m_inv.
  destruct (bs_contains a seen) eqn:Hseen; [done|]. m_inv. rec_step.
  destruct (IH _ _ _ Hok Hm3) as (Hs & [Hok' Hstk'] & Hnd). rewrite Hstk in *.
  destruct (NoDup_seen _ _ _ Hseen Hnd). split_and!; try done. simpl; eauto.
Qed.

Lemma analyze_dict_sound l sp d : sound (analyze_dict cx rec l sp d).
Proof.
  intros st h st' Hst Hm. unfold analyze_dict in Hm. m_inv.
  apply dict_entries_sound in Hm1 as (Hs & Hsteps & Hnd & _); [|done].
  apply infer_dict_Ok in Hm2. apply require_pure_all_Ok in Hm3.
  split; [|done]. simpl. rewrite union_effects_pure by done. split_and!; try done.
  exists (default TJson a1). split; [done|]. destruct a1 as [t|]; simpl; [done|].
  subst. constructor.
Qed.

Lemma json_entries_sound l seen d st es st' :
  st_ok st → json_entries cx rec l seen d st = Ok (es, st') →
  entries_typed (typed cx (topb (function_stack st))) es (scope st) (scope st') ∧ steps st st' ∧
  (NoDup es.*1 ∧ (∀ n, n ∈ es.*1 → n ∉ seen)) ∧
  Forall pure (map snd es) ∧ Forall (below TJson) (map snd es).
Proof.
  revert seen st es. induction l as [|e l IH]; intros seen st es Hst Hm; simpl in Hm.
  { m_inv. split_and!; try done; try constructor; set_solver. }
  m_inv. destruct a as [|key [|value [|]]]; try done. m_inv.
  destruct (bs_contains a seen) eqn:Hseen; [done|]. m_inv. rec_step.
  apply require_pure_Ok in Hm3. apply require_json_type_Ok in Hm4.
  destruct (IH _ _ _ Hok Hm5) as (Hs & [Hok' Hstk'] & Hnd & ? & ?). rewrite Hstk in *.
  destruct (NoDup_seen _ _ _ Hseen Hnd). split_and!; try done.
  - simpl. eexists. split; [|done]. by split_and!.
  - by constructor.
  - constructor; [constructor|done].
Qed.

Lemma analyze_json_object_sound l sp d : sound (analyze_json_object cx rec l sp d).
Proof.
  intros st h st' Hst Hm. unfold analyze_json_object in Hm. m_inv.
  apply json_entries_sound in Hm1 as (Hs & Hsteps & [Hnd _] & ? & ?); [|done].
  split; [|done]. simpl. split_and!; eauto.
Qed.

Lemma named_fields_sound l ds seen d st es st' :
  st_ok st → named_fields rec l ds seen d st = Ok (es, st') →
  entries_typed (typed cx (topb (function_stack st))) es (scope st) (scope st') ∧ steps st st' ∧
  (NoDup es.*1 ∧ (∀ n, n ∈ es.*1 → n ∉ seen)) ∧ length es = length l ∧
  Forall (λ ne, ∃ d, List.find (λ d, fname d =s ne.1) ds = Some d ∧ below (fty d) ne.2) es.
Proof.
  revert seen st es. induction l as [|e l IH]; intros seen st es Hst Hm; simpl in Hm.
  { m_inv. split_and!; try done; try constructor; set_solver. }
  m_inv. destruct a as [|key [|value [|]]]; try done. m_inv.
  destruct (bs_contains a seen) eqn:Hseen; [done|]. m_inv. rec_step.
  apply ok_or_Ok in Hm2. apply require_assignable_Ok in Hm4.
  destruct (IH _ _ _ Hok Hm5) as (Hs & [Hok' Hstk'] & Hnd & Hlen & Hall). rewrite Hstk in *.
  destruct (NoDup_seen _ _ _ Hseen Hnd). split_and!; try done.
  - simpl. eauto.
  - simpl. by rewrite Hlen.
  - constructor; [|done]. simpl. eauto.
Qed.

Lemma analyze_named_fields_sound l ds d st es st' :
  st_ok st → analyze_named_fields rec l ds d st = Ok (es, st') →
  entries_typed (typed cx (topb (function_stack st))) es (scope st) (scope st') ∧ steps st st' ∧
  fields_typed ds es.
Proof.
  intros Hst Hm. unfold analyze_named_fields in Hm.
  destruct (len l =? len ds)%N eqn:Hlen; [|done]. simpl in Hm. m_inv.
  apply named_fields_sound in Hm0 as (Hs & Hsteps & [Hnd _] & Hl & Hall); [|done].
  apply try_each_Ok in Hm1. split_and!; try done. split_and!; try done.
  - rewrite Hl. unfold len in Hlen. apply N.eqb_eq in Hlen. lia.
  - intros dd Hdd. rewrite Forall_forall in Hm1. apply Hm1, ensure_Ok in Hdd.
    apply existsb_exists in Hdd as (nv & Hin & Heq%str_eqb_eq). rewrite <- Heq.
    apply list_elem_of_fmap. exists nv. split; [done|]. by apply list_elem_of_In.
Qed.

Lemma analyze_record_sound l sp d : sound (analyze_record cx rec l sp d).
Proof.
  intros st h st' Hst Hm. unfold analyze_record in Hm. destruct l as [|te l]; [done|]. m_inv.
  destruct (bm_get a definitions) as [[n' fs sp'|]|] eqn:Hd; try done. m_inv.
  apply analyze_named_fields_sound in Hm1 as (Hs & Hsteps & Hf); [|done].
  apply require_pure_all_Ok in Hm2. split; [|done]. simpl.
  rewrite union_effects_pure by done. split_and!; try done. eauto.
Qed.

Lemma analyze_variant_sound l sp d : sound (analyze_variant cx rec l sp d).
Proof.
  intros st h st' Hst Hm. unfold analyze_variant in Hm. destruct l as [|te l]; [done|]. m_inv.
  destruct a0 as [tn vn]. destruct (bm_get tn definitions) as [[|n' vs sp']|] eqn:Hd; try done.
  m_inv. apply ok_or_Ok in Hm2.
  apply analyze_named_fields_sound in Hm3 as (Hs & Hsteps & Hf); [|done].
  apply require_pure_all_Ok in Hm4. split; [|done]. simpl.
  rewrite union_effects_pure by done. split_and!; try done. eauto 10.
Qed.

(** *** Clauses *)

Lemma linked_snoc s path s1 s2 : linked s path s1 → linked s (path ++ [(s1, s2)]) s2.
Proof.
  revert s. induction path as [|[a b] path IH]; intros s; simpl; [by intros ->|].
  intros [-> Hl]. split; [done|]. by apply IH.
Qed.

Lemma clause_parts_Ok clause seen shape no_name name args :
  clause_parts clause seen shape no_name = Ok (name, args) → name ∉ seen.
Proof.
  unfold clause_parts. intros Hc. res_inv. destruct a as [|hd tl]; [done|].
  destruct (as_symbol hd); [|done]. destruct (bs_contains _ seen) eqn:E; [done|].
  simplify_eq. rewrite <- bs_contains_In. congruence.
Qed.

Lemma evidence_refs_sound l p d st es st' :
  st_ok st → analyze_evidence_refs rec l p d st = Ok (es, st') →
  seq_typed (typed cx (topb (function_stack st))) es (scope st) (scope st') ∧ steps st st' ∧
  Forall pure es ∧ Forall (λ r, hty r = TRef s! "Evidence") es.
Proof.
  intros Hst Hm. unfold analyze_evidence_refs in Hm. m_inv.
  apply mapM_rec_sound in Hm0 as [Hs Hsteps]; [|done].
  apply require_pure_all_Ok in Hm1. apply try_each_Ok in Hm2. split_and!; try done; try apply Hsteps.
  eapply Forall_impl; [exact Hm2|]. intros r Hr%require_assignable_Ok.
  by apply assignable_base in Hr.
Qed.

(** An optional clause with the scopes around it; it is on the path when present. *)
Definition clause_inv (name : str) (seen : list str) {A} (o : option A)
    (P : A → Scope * Scope → Prop) (p : Scope * Scope) : Prop :=
  match o with Some a => name ∈ seen ∧ P a p | None => name ∉ seen end.
Definition on_path {A} (o : option A) (p : Scope * Scope) : list (Scope * Scope) :=
  match o with Some _ => [p] | None => [] end.

Lemma clause_inv_seen name n seen {A} (o : option A) P p :
  n ≠ name → clause_inv name seen o P p → clause_inv name (bs_insert n seen) o P p.
Proof.
  intros Hne. unfold clause_inv. destruct o; rewrite bs_insert_In; intuition congruence.
Qed.

Lemma clause_inv_new name seen {A} (a : A) (P : A → Scope * Scope → Prop) p :
  P a p → clause_inv name (bs_insert name seen) (Some a) P p.
Proof. intros HP. split; [rewrite bs_insert_In; by left|done]. Qed.

Lemma clause_inv_unseen name seen {A} (o : option A) P p :
  clause_inv name seen o P p → name ∉ seen → o = None.
Proof. destruct o; [|done]. by intros [? _]. Qed.

(** The list clauses start empty, so their presence is [seen]. *)
Definition refs_opt (name : str) (seen : list str) (refs : list HirExpr) : option (list HirExpr) :=
  if bs_contains name seen then Some refs else None.

Section clauses.
Context (top : bool) (s0 : Scope).
Definition kind_ok (e : HirExpr) (p : Scope * Scope) : Prop :=
  typed cx top e p.1 p.2 ∧ pure e ∧ hty e = TString.
Definition value_ok (e : HirExpr) (p : Scope * Scope) : Prop :=
  typed cx top e p.1 p.2 ∧ pure e.
Definition refs_ok (l : list HirExpr) (p : Scope * Scope) : Prop :=
  seq_typed (typed cx top) l p.1 p.2 ∧ Forall pure l ∧
  Forall (λ r, hty r = TRef s! "Evidence") l.

Definition evidence_inv (seen : list str) (kind value : option HirExpr) (refs : list HirExpr)
    (s : Scope) : Prop :=
  ∃ pk pv pr path,
    path ≡ₚ on_path kind pk ++ on_path value pv ++ on_path (refs_opt s! "refs" seen refs) pr ∧
    linked s0 path s ∧
    clause_inv s! "kind" seen kind kind_ok pk ∧ clause_inv s! "value" seen value value_ok pv ∧
    clause_inv s! "refs" seen (refs_opt s! "refs" seen refs) refs_ok pr ∧
    (s! "refs" ∉ seen → refs = []).
End clauses.

Lemma refs_opt_insert name n seen refs :
  n ≠ name → refs_opt name (bs_insert n seen) refs = refs_opt name seen refs.
Proof.
  intros Hne. unfold refs_opt. rewrite bs_contains_insert.
  destruct (str_eqb_spec name n); [congruence|done].
Qed.

Lemma refs_opt_new name seen refs : refs_opt name (bs_insert name seen) refs = Some refs.
Proof. unfold refs_opt. by rewrite bs_contains_insert, str_eqb_refl. Qed.

Lemma unseen_old {P : Prop} n k seen : (k ∉ seen → P) → k ∉ bs_insert n seen → P.
Proof. rewrite bs_insert_In. tauto. Qed.

Lemma unseen_new {P : Prop} k seen : k ∉ bs_insert k seen → P.
Proof. rewrite bs_insert_In. tauto. Qed.

(** Extends an invariant with the clause just analyzed, between two scopes. *)
Ltac add_clause Hperm :=
  simpl; rewrite ?refs_opt_new, ?refs_opt_insert by lit_decide; simpl;
  repeat match goal with |- _ ∧ _ => split end;
  lazymatch goal with
  | |- _ ≡ₚ _ => rewrite Hperm; simpl; solve_Permutation
  | |- linked _ _ _ => first [assumption | by apply linked_snoc]
  | |- _ ∈ bs_insert _ _ => rewrite bs_insert_In; by left
  | |- kind_ok _ _ _ => by split_and!
  | |- value_ok _ _ _ => by split_and!
  | |- refs_ok _ _ _ => by split_and!
  | |- clause_inv _ _ _ _ _ => apply clause_inv_seen; [lit_decide|done]
  | |- _ ∉ _ → _ => first [exact (unseen_new _ _) | by apply unseen_old]
  | |- _ => try assumption
  end.

Lemma evidence_clauses_sound l seen kind value refs d st r st' s0 :
  st_ok st → evidence_inv (topb (function_stack st)) s0 seen kind value refs (scope st) →
  evidence_clauses rec l seen kind value refs d st = Ok (r, st') →
  steps st st' ∧ ∃ seen', evidence_inv (topb (function_stack st)) s0 seen' r.1.1 r.1.2 r.2 (scope st').
Proof.
  revert seen kind value refs st. induction l as [|c l IH];
    intros seen kind value refs st Hst Hinv Hm; simpl in Hm.
  { m_inv. split; [by split|]. eauto. }
  m_inv. destruct a as [name args]. apply clause_parts_Ok in Hm0.
  destruct Hinv as (pk & pv & pr & path & Hperm & Hlink & Hk & Hv & Hr & Hr0).
  destruct ((name =s s! "kind") || (name =s s! "value")) eqn:Hname.
  - destruct args as [|e [|]]; try done. m_inv. rec_step. apply require_pure_Ok in Hm2.
    destruct (str_eqb_spec name s! "kind") as [->|Hne].
    + m_inv. apply require_assignable_Ok, assignable_base in Hm1; [|done].
      pose proof (clause_inv_unseen _ _ _ _ _ Hk Hm0) as ->.
      apply IH in Hm as [[? ?] ?]; [rewrite Hstk in *; by split|done|]. rewrite Hstk.
      exists (scope st, scope st0), pv, pr, (path ++ [(scope st, scope st0)]). add_clause Hperm.
    + simpl in Hname. apply str_eqb_eq in Hname as ->.
      pose proof (clause_inv_unseen _ _ _ _ _ Hv Hm0) as ->.
      apply IH in Hm as [[? ?] ?]; [rewrite Hstk in *; by split|done|]. rewrite Hstk.
      exists pk, (scope st, scope st0), pr, (path ++ [(scope st, scope st0)]). add_clause Hperm.
  - destruct (str_eqb_spec name s! "refs") as [->|Hne]; [|done]. m_inv.
    apply evidence_refs_sound in Hm1 as (Hs & [Hok Hstk] & Hp & Href); [|done].
    pose proof (clause_inv_unseen _ _ _ _ _ Hr Hm0) as Hnone. rewrite Hnone in Hperm.
    apply IH in Hm as [[? ?] ?]; [rewrite Hstk in *; by split|done|]. rewrite Hstk.
    exists pk, pv, (scope st, scope st0), (path ++ [(scope st, scope st0)]). add_clause Hperm.
Qed.

Lemma evidence_inv_initial top s : evidence_inv top s [] None None [] s.
Proof. exists (s, s), (s, s), (s, s), []. split_and!; try done; apply not_elem_of_nil. Qed.

Lemma analyze_evidence_sound l sp d : sound (analyze_evidence rec l sp d).
Proof.
  intros st h st' Hst Hm. unfold analyze_evidence in Hm. m_inv. destruct a as [[k v] refs]. m_inv.
  apply ok_or_Ok in Hm1, Hm2. subst.
  eapply (evidence_clauses_sound _ _ _ _ _ _ _ _ _ (scope st)) in Hm0 as [Hsteps (seen & Hinv)];
    [|done|by apply evidence_inv_initial].
  destruct Hinv as (pk & pv & pr & path & Hperm & Hlink & [_ Hk] & [_ Hv] & Hr & Hr0).
  simpl in *. split; [|done]. simpl. destruct Hk as (? & ? & ?), Hv as [? ?].
  unfold refs_opt in *. destruct (bs_contains s! "refs" seen) eqn:Hseen; simpl in *.
  - destruct Hr as (_ & ? & ? & ?). split_and!; try done. by exists pk, pv, pr, path.
  - rewrite (Hr0 Hr). split_and!; try done.
    exists pk, pv, (scope st0, scope st0), (path ++ [(scope st0, scope st0)]). split_and!; try done.
    + rewrite Hperm. solve_Permutation.
    + by apply linked_snoc.
Qed.

Section clauses.
Context (top : bool) (s0 : Scope).
Definition outcome_inv (seen : list str) (status : option str) (value : option HirExpr)
    (refs : list HirExpr) (s : Scope) : Prop :=
  ∃ pv pr path,
    path ≡ₚ on_path value pv ++ on_path (refs_opt s! "evidence" seen refs) pr ∧
    linked s0 path s ∧
    (∀ x, status = Some x → outcome_status x = true) ∧
    clause_inv s! "value" seen value (value_ok top) pv ∧
    clause_inv s! "evidence" seen (refs_opt s! "evidence" seen refs) (refs_ok top) pr ∧
    (s! "evidence" ∉ seen → refs = []).
End clauses.

Lemma outcome_clauses_sound l seen status value refs d st r st' s0 :
  st_ok st → outcome_inv (topb (function_stack st)) s0 seen status value refs (scope st) →
  outcome_clauses rec l seen status value refs d st = Ok (r, st') →
  steps st st' ∧ ∃ seen', outcome_inv (topb (function_stack st)) s0 seen' r.1.1 r.1.2 r.2 (scope st').
Proof.
  revert seen status value refs st. induction l as [|c l IH];
    intros seen status value refs st Hst Hinv Hm; simpl in Hm.
  { m_inv. split; [by split|]. eauto. }
  m_inv. destruct a as [name args]. apply clause_parts_Ok in Hm0.
  destruct Hinv as (pv & pr & path & Hperm & Hlink & Hs & Hv & Hr & Hr0).
  destruct (str_eqb_spec name s! "status") as [->|Hne1].
  { destruct args as [|e [|]]; try done. m_inv. destruct (outcome_status a) eqn:Hstatus; [|done].
    apply IH in Hm; [done|done|]. exists pv, pr, path. add_clause Hperm. naive_solver. }
  destruct (str_eqb_spec name s! "value") as [->|Hne2].
  { destruct args as [|e [|]]; try done. m_inv. rec_step. apply require_pure_Ok in Hm2.
    pose proof (clause_inv_unseen _ _ _ _ _ Hv Hm0) as ->.
    apply IH in Hm as [[? ?] ?]; [rewrite Hstk in *; by split|done|]. rewrite Hstk.
    exists (scope st, scope st0), pr, (path ++ [(scope st, scope st0)]). add_clause Hperm. }
  destruct (str_eqb_spec name s! "evidence") as [->|Hne]; [|done]. m_inv.
  apply evidence_refs_sound in Hm1 as (Hs' & [Hok Hstk] & Hp & Href); [|done].
  pose proof (clause_inv_unseen _ _ _ _ _ Hr Hm0) as Hnone. rewrite Hnone in Hperm.
  apply IH in Hm as [[? ?] ?]; [rewrite Hstk in *; by split|done|]. rewrite Hstk.
  exists pv, (scope st, scope st0), (path ++ [(scope st, scope st0)]). add_clause Hperm.
Qed.

Lemma outcome_inv_initial top s : outcome_inv top s [] None None [] s.
Proof. exists (s, s), (s, s), []. split_and!; try done; apply not_elem_of_nil. Qed.

Lemma analyze_outcome_sound l sp d : sound (analyze_outcome rec l sp d).
Proof.
  intros st h st' Hst Hm. unfold analyze_outcome in Hm. m_inv. destruct a as [[k v] refs]. m_inv.
  apply ok_or_Ok in Hm1. subst.
  eapply (outcome_clauses_sound _ _ _ _ _ _ _ _ _ (scope st)) in Hm0 as [Hsteps (seen & Hinv)];
    [|done|by apply outcome_inv_initial].
  destruct Hinv as (pv & pr & path & Hperm & Hlink & Hs & Hv & Hr & Hr0).
  simpl in *. split; [|done]. simpl.
  set (s1 := scope st0) in *. set (top := topb (function_stack st)) in *.
  (* a missing clause leaves the scope as it is *)
  assert (∃ pv' path1, path1 ≡ₚ pv' :: on_path (refs_opt s! "evidence" seen refs) pr ∧
            linked (scope st) path1 s1 ∧
            value_ok top (default (hir (KLiteral LNil) TNil [] sp) v) pv')
    as (pv' & path1 & Hperm1 & Hlink1 & Hv1 & Hp1).
  { destruct v as [v|]; simpl in *.
    - destruct Hv as [_ Hv]. by exists pv, path.
    - exists (s1, s1), (path ++ [(s1, s1)]). split_and!; [rewrite Hperm; solve_Permutation| |by split_and!].
      by apply linked_snoc. }
  unfold refs_opt in *. destruct (bs_contains s! "evidence" seen) eqn:Hseen; simpl in *.
  - destruct Hr as (_ & ? & ? & ?). split_and!; try done; [by eapply Hs|]. by exists pv', pr, path1.
  - rewrite (Hr0 Hr). split_and!; try done; [by eapply Hs|].
    exists pv', (s1, s1), (path1 ++ [(s1, s1)]). split_and!; try done.
    + rewrite Hperm1. solve_Permutation.
    + by apply linked_snoc.
Qed.

(** The transaction is a [context-tx] form, in canonical spelling. *)
Definition transaction_ok (source : str) : Prop :=
  ∃ e items, as_list e = Some items ∧ head_is items s! "context-tx" = true ∧
             source = canonical_source e.

Definition context_inv (top : bool) (s0 : Scope) (seen : list str) (context : option HirExpr)
    (transaction : option str) (s : Scope) : Prop :=
  match context with
  | Some c => s! "context" ∈ seen ∧ typed cx top c s0 s ∧ pure c ∧ hty c = TRef s! "Context"
  | None => s! "context" ∉ seen ∧ s = s0
  end ∧ (∀ t, transaction = Some t → transaction_ok t).

Lemma context_clauses_sound l seen context transaction d st r st' s0 :
  st_ok st → context_inv (topb (function_stack st)) s0 seen context transaction (scope st) →
  context_clauses rec l seen context transaction d st = Ok (r, st') →
  steps st st' ∧ ∃ seen', context_inv (topb (function_stack st)) s0 seen' r.1 r.2 (scope st').
Proof.
  revert seen context transaction st. induction l as [|c l IH];
    intros seen context transaction st Hst Hinv Hm; simpl in Hm.
  { m_inv. split; [by split|]. eauto. }
  m_inv. destruct a as [name args]. apply clause_parts_Ok in Hm0. destruct Hinv as [Hc Ht].
  destruct (str_eqb_spec name s! "context") as [->|Hne1].
  - destruct args as [|e [|]]; try done. m_inv. destruct context as [c'|]; [by destruct Hc|].
    destruct Hc as [_ Hc]. rec_step. apply require_pure_Ok in Hm2.
    apply require_assignable_Ok, assignable_base in Hm3; [|done].
    apply IH in Hm as [[? ?] ?]; [rewrite Hstk in *; by split|done|]. rewrite Hstk.
    split; [|done]. split_and!; [rewrite bs_insert_In; by left|by rewrite <- Hc|done|done].
  - destruct (str_eqb_spec name s! "transaction") as [->|Hne2]; [|done].
    destruct args as [|e [|]]; try done. m_inv. destruct (head_is a _) eqn:Hhead; [|done].
    apply ok_or_Ok in Hm1. apply IH in Hm; [done|done|]. split.
    + destruct context; rewrite bs_insert_In; intuition congruence.
    + intros t [= <-]. by exists e, a.
Qed.

Lemma analyze_context_transaction_sound l sp d :
  sound (analyze_context_transaction rec l sp d).
Proof.
  intros st h st' Hst Hm. unfold analyze_context_transaction in Hm. m_inv.
  destruct a as [c t]. m_inv. apply ok_or_Ok in Hm1, Hm2. subst.
  eapply (context_clauses_sound _ _ _ _ _ _ _ _ (scope st)) in Hm0 as [Hsteps (seen & Hinv & Ht)];
    [|done|split; [split; [apply not_elem_of_nil|done]|done]].
  simpl in *. split; [|done]. simpl. destruct Hinv as (_ & ? & ? & ?).
  split_and!; try done. by apply Ht.
Qed.

(** *** Control *)

Lemma numeric_result_Ok l sp t :
  numeric_result l sp = Ok t →
  (t = TInt ∨ t = TFloat) ∧ Forall (λ e, hty e = TInt ∨ (hty e = TFloat ∧ t = TFloat)) l.
Proof.
  unfold numeric_result. cut (∀ t0, t0 = TInt ∨ t0 = TFloat →
    foldM (λ result operand,
      match hty operand with
      | TInt => Ok result
      | TFloat => Ok TFloat
      | t => Err (diag TypeMismatch "numeric operator received {:?}" [ATy t] sp)
      end) t0 l = Ok t →
    (t = TInt ∨ t = TFloat) ∧ (t0 = TFloat → t = TFloat) ∧
    Forall (λ e, hty e = TInt ∨ (hty e = TFloat ∧ t = TFloat)) l).
  { intros Hg Hn. destruct (Hg TInt) as (? & _ & ?); auto. }
  induction l as [|e l IH]; intros t0 Ht0 Hn; simpl in Hn.
  { injection Hn as ->. split_and!; [done|done|constructor]. }
  res_inv. destruct (hty e) eqn:He; try done; res_inv.
  - destruct (IH _ Ht0 Hn) as (? & ? & ?). split_and!; try done. constructor; auto.
  - destruct (IH TFloat) as (? & Hf & ?); auto. split_and!; auto.
Qed.

Lemma require_arity_Ok name l n sp u : require_arity name l n sp = Ok u → len l = n.
Proof. intros Ha%ensure_Ok. by apply N.eqb_eq. Qed.

Lemma arity_two (l : list HirExpr) : len l = 2%N → ∃ a b, l = [a; b].
Proof. unfold len. destruct l as [|a [|b [|]]]; simpl; try lia. eauto. Qed.

Lemma pure_type_Ok op name l sp t : pure_type op name l sp = Ok t → operator_typed op l t.
Proof.
  unfold pure_type, operator_typed. intros Hp. destruct op; res_inv;
    repeat match goal with
    | Ha : require_arity _ _ 2 _ = Ok _ |- _ =>
        apply require_arity_Ok, arity_two in Ha as (x & y & ->); simpl in *
    | Ha : require_comparable _ _ _ = Ok _ |- _ => apply ensure_Ok in Ha
    | Hn : numeric_result _ _ = Ok _ |- _ => apply numeric_result_Ok in Hn as [? ?]
    end; simplify_eq; split_and!; eauto.
  all: try (eexists _, _; split; [done|]).
  all: try (match goal with Ha : match hty ?x with _ => _ end = true |- _ =>
      unfold below; destruct (hty x) eqn:?, (hty y) eqn:?; try done; eauto with yao end).
  all: try (match goal with Ha : try_each _ _ = Ok _ |- _ => apply try_each_Ok in Ha end;
    eapply Forall_impl; [eassumption|]; intros e He%require_assignable_Ok;
    by apply assignable_base in He).
  all: destruct l as [|e l]; try done; res_inv; try done. apply require_arity_Ok in Ha.
  destruct l; [|unfold len in Ha; simpl in Ha; lia].
  exists e. split; [done|]. apply require_assignable_Ok in Ha0. by apply assignable_base in Ha0.
Qed.

Lemma analyze_pure_sound name op l sp d : sound (analyze_pure rec name op l sp d).
Proof.
  intros st h st' Hst Hm. unfold analyze_pure in Hm. m_inv.
  apply mapM_rec_sound in Hm0 as [Hs Hsteps]; [|done].
  apply require_pure_all_Ok in Hm1. apply pure_type_Ok in Hm2.
  split; [|done]. simpl. rewrite union_effects_pure by done. by split_and!.
Qed.

Lemma analyze_seq_sound l sp d : sound (analyze_seq rec l sp d).
Proof.
  intros st h st' Hst Hm. unfold analyze_seq in Hm. destruct l as [|e l]; [done|]. m_inv.
  pose proof Hm0 as Hlen. apply mapM_rec_sound in Hm0 as [Hs Hsteps]; [|done].
  split; [|done]. simpl. split_and!; try done. intros ->.
  unfold analyze_many in Hlen. simpl in Hlen. by m_inv.
Qed.

Lemma analyze_bind_sound l sp d : sound (analyze_bind rec l sp d).
Proof.
  intros st h st' Hst Hm. unfold analyze_bind in Hm. destruct l as [|n [|v [|]]]; try done.
  m_inv. destruct (bindings (scope st) !! a) eqn:Hfree; [done|]. simpl in Hm. m_inv. rec_step.
  split; [|by split]. simpl. split_and!; try done. eauto.
Qed.

Lemma analyze_if_sound l sp d : sound (analyze_if rec l sp d).
Proof.
  intros st h st' Hst Hm. unfold analyze_if in Hm. destruct l as [|c [|x [|y [|]]]]; try done.
  m_inv. rec_step. rec_step. rec_step. apply require_pure_Ok in Hm1.
  apply require_assignable_Ok, assignable_base in Hm2; [|done].
  apply ok_or_Ok, common_type_spec in Hm5 as (? & ? & _).
  split; [|by split]. simpl. split_and!; eauto.
Qed.

Lemma analyze_fallback_sound l sp d : sound (analyze_fallback rec l sp d).
Proof.
  intros st h st' Hst Hm. unfold analyze_fallback in Hm. destruct l as [|x [|y [|]]]; try done.
  m_inv. rec_step. rec_step. apply ok_or_Ok, common_type_spec in Hm2 as (? & ? & _).
  split; [|by split]. simpl. split_and!; eauto.
Qed.

Lemma analyze_map_sound l sp d : sound (analyze_map rec l sp d).
Proof.
  intros st h st' Hst Hm. unfold analyze_map in Hm. destruct l as [|c [|x [|y [|]]]]; try done.
  m_inv. rec_step. apply require_pure_Ok in Hm1. destruct (hty a) eqn:Hty; try done. m_inv.
  destruct (bindings _ !! a1) eqn:Hfree; [done|]. simpl in Hm. m_inv. rec_step.
  split; [|by split]. simpl. split_and!; eauto.
Qed.

(** *** Calls *)

Lemma named_arguments_sound l seen d st args st' :
  st_ok st → named_arguments rec l seen d st = Ok (args, st') →
  arguments_typed (typed cx (topb (function_stack st))) args (scope st) (scope st') ∧
  steps st st' ∧ NoDup (map na_name args) ∧ (∀ n, n ∈ map na_name args → n ∉ seen).
Proof.
  revert seen st args. induction l as [|e l IH]; intros seen st args Hst Hm; simpl in Hm.
  { m_inv. split_and!; try done; try constructor; set_solver. }
  m_inv. destruct a as [|key exprs]; [done|]. m_inv. destruct exprs as [|e1 exprs]; [done|].
  destruct (bs_contains a seen) eqn:Hseen; [done|]. m_inv.
  apply mapM_rec_sound in Hm2 as [Hs [Hok Hstk]]; [|done].
  destruct (IH _ _ _ Hok Hm3) as (Hs' & [Hok' Hstk'] & Hnd). rewrite Hstk in *.
  destruct (NoDup_seen _ _ _ Hseen Hnd). split_and!; try done. simpl; eauto.
Qed.

Lemma bool_decide_topb (stack : list str) : bool_decide (stack = []) = topb stack.
Proof. by destruct stack. Qed.

Lemma analyze_call_sound l sp d : sound (analyze_call cx rec l sp d).
Proof.
  intros st h st' Hst Hm. unfold analyze_call in Hm. destruct l as [|t l]; [done|]. m_inv.
  rewrite bool_decide_topb in Hm.
  destruct (topb (function_stack st) && tool_excluded cx a) eqn:Hex; [done|].
  destruct (tool_signature a) as [sg|] eqn:Hsig; [|by destruct (unavailable_tool_reason a)].
  m_inv. apply named_arguments_sound in Hm1 as (Hs & Hsteps & Hnd & _); [|done].
  apply require_pure_all_Ok in Hm2. split; [|done]. simpl.
  rewrite union_effects_pure by done. split_and!; try done.
  - intros Htop. by rewrite Htop in Hex.
  - destruct_units. eauto.
Qed.

Lemma analyze_run_sound l sp d : sound (analyze_run rec l sp d).
Proof.
  intros st h st' Hst Hm. unfold analyze_run in Hm. destruct l as [|x [|]]; try done. m_inv.
  rec_step. apply require_pure_Ok in Hm1. destruct (hty a) eqn:Hty; try done. m_inv.
  split; [|by split]. simpl. rewrite Hm1. split_and!; try done. eauto.
Qed.

Lemma analyze_host_sound op l sp d :
  (op =s s! "host.view") = false → sound (analyze_host rec op l sp d).
Proof.
  intros Hop%str_eqb_neq st h st' Hst Hm. unfold analyze_host in Hm. m_inv. apply ok_or_Ok in Hm0.
  apply named_arguments_sound in Hm1 as (Hs & Hsteps & Hnd & _); [|done].
  apply require_pure_all_Ok in Hm2. split; [|done]. simpl.
  rewrite union_effects_pure by done. split_and!; try done. destruct_units.
  exists op. split; [done|]. left. split_and!; [done..|]. eauto.
Qed.

Lemma analyze_host_unary_sound op n l sp d :
  (op =s s! "host.view") = false → sound (analyze_host_unary rec op n l sp d).
Proof.
  intros Hop%str_eqb_neq st h st' Hst Hm. unfold analyze_host_unary in Hm. destruct l as [|x [|]]; try done. m_inv.
  apply ok_or_Ok in Hm0. rec_step. apply require_pure_Ok in Hm2. split; [|by split]. simpl.
  split_and!; [eauto|by repeat constructor|by apply NoDup_singleton|]. exists op. split; [done|]. left. split_and!; [done..|]. destruct_units. eauto.
Qed.

Lemma analyze_host_view_sound l sp d : sound (analyze_host_view cx rec l sp d).
Proof.
  intros st h st' Hst Hm. unfold analyze_host_view in Hm. destruct l as [|x [|y [|]]]; try done.
  m_inv. rec_step. apply require_pure_Ok in Hm1. destruct (hty a) eqn:Hty; try done. m_inv.
  split; [|by split]. simpl. split_and!; [eauto|by repeat constructor|by apply NoDup_singleton|].
  eexists. split; [done|]. right. split; [done|]. exists a, kind. eexists. split_and!; try done.
  destruct (req_objects _); [|done]. apply ensure_Ok in Hm0. by apply bs_contains_In.
Qed.

(** *** Functions *)

Lemma compile_body_sound name dcl st f st' :
  st_ok st → function_stack st ≠ [] → bm_get name (function_declarations cx) = Some dcl →
  compile_body rec dcl st = Ok (f, st') →
  function_typed name f ∧ cf_declaration f = dcl ∧ steps st st' ∧ scope st' = scope st.
Proof.
  intros Hst Hstack Hd Hm. unfold compile_body in Hm. m_inv. rec_step.
  apply require_assignable_Ok in Hm2. split; [|split; [done|split; [by split|done]]]. split_and!; try done.
  - simpl. destruct (fd_declared_effects dcl); [|done]. apply ensure_Ok in Hm3.
    by apply es_is_subset_spec.
  - exists a. eexists. split; [done|]. by destruct (function_stack st).
Qed.

Lemma compile_function_sound name st f st' :
  st_ok st → compile_function cx rec name st = Ok (f, st') →
  function_typed name f ∧ steps st st' ∧ scope st' = scope st ∧ bm_get name (compiled_functions st') = Some f.
Proof.
  intros Hst Hm. unfold compile_function in Hm. m_inv.
  destruct (bm_get name (compiled_functions st)) as [g|] eqn:Hg.
  { m_inv. split_and!; try done. apply bm_get_elem in Hg. destruct Hst as [Hst _]. unfold compiled_ok in Hst.
    rewrite Forall_forall in Hst. by apply (Hst (name, g)). }
  m_inv. destruct (cycle_from name (function_stack st)); [done|].
  destruct (_ <=? _)%N; [done|]. m_inv. apply ok_or_Ok in Hm0. apply map_err_Ok in Hm2.
  apply (compile_body_sound name) in Hm2 as (Hf & Hdecl & [Hok Hstk] & Hsc);
    [|done|simpl; by destruct (function_stack st)|done].
  simpl in *. split_and!; try done; [|apply bm_get_insert_eq]. split; [|done]. destruct Hok as [Hok Hbase].
  split; [by apply bm_insert_Forall|]. intros n Hn. cbn [compiled_functions]. rewrite bm_get_insert. destruct (n =s name); [done|by apply Hbase].
Qed.

Lemma check_application_Ok params named sp u :
  check_application params named sp = Ok u → NoDup (map na_name named) →
  application_typed params named.
Proof.
  unfold check_application. intros Hm Hnd. res_inv. apply try_each_Ok in Ha, Hm.
  rewrite Forall_forall in Ha. split_and!; [done| |].
  - intros p Hp. specialize (Ha p Hp). apply ensure_Ok, existsb_exists in Ha as (x & Hx & E).
    apply str_eqb_eq in E. rewrite <- E. apply list_elem_of_fmap. exists x. split; [done|]. by apply list_elem_of_In.
  - eapply Forall_impl; [exact Hm|]. intros x Hx. simpl in Hx. res_inv.
    destruct (na_values x) as [|v [|]] eqn:Hv; try done. apply require_assignable_Ok in Hx. eauto.
Qed.

Lemma analyze_function_application_sound f l sp d :
  sound (analyze_function_application cx rec f l sp d).
Proof.
  intros st h st' Hst Hm. unfold analyze_function_application in Hm. m_inv.
  apply compile_function_sound in Hm0 as (Hf & [Hok Hstk] & Hsc & _); [|done].
  destruct (_ && _); [done|]. m_inv. unfold analyze_named_arguments in Hm0.
  apply named_arguments_sound in Hm0 as (Hs & Hsteps & Hnd & _); [|done].
  rewrite Hsc, Hstk in *. apply require_pure_all_Ok in Hm1.
  apply check_application_Ok in Hm2; [|done]. destruct Hf as (Hd & Hb & He & s0 & s1 & Hp & Hbody).
  split; [|by destruct Hsteps; split; [|congruence]]. simpl. split_and!; try done.
  - intros Htop. destruct (function_stack st); [|done]. by destruct (excluded_tool _ _).
  - eexists. split_and!; eauto.
Qed.

(** *** Nested evaluations *)

Lemma infer_captures_Ok l seen s cs :
  infer_captures l seen s = Ok cs → Forall (λ nt, bindings s !! nt.1 = Some nt.2) cs.
Proof.
  revert seen cs. induction l as [|e l IH]; intros seen cs Hm; simpl in Hm; res_inv; [constructor|].
  destruct (bs_contains a seen); [done|]. res_inv. constructor; [done|]. by eapply IH.
Qed.

(** The captured names and the body of [infer]; a root model program is the same
    without the [infer] effect. *)
Lemma analyze_infer_body_sound l sp root d st h st' :
  st_ok st → analyze_infer_body cx rec l sp root d st = Ok (h, st') →
  (∃ body cs result source s1,
     h = hir (KInferBody body (map fst cs) result source) result
           (if root then heffects body else es_insert EInfer (heffects body)) sp ∧
     Forall (λ nt, bindings (scope st) !! nt.1 = Some nt.2) cs ∧
     typed cx (topb (function_stack st)) body (mkScope (list_to_map cs) false) s1) ∧
  scope st' = scope st ∧ steps st st'.
Proof.
  intros Hst Hm. unfold analyze_infer_body in Hm. m_inv. destruct a0 as [cs rest1]. m_inv.
  destruct a as [declared rest2]. destruct rest2 as [|b [|]]; try done. m_inv. rec_step.
  split; [|split; [done|by split]]. eexists a, cs, _, _, _. split_and!; [done| |done].
  destruct (is_form (head l) _); res_inv; [by eapply infer_captures_Ok|constructor].
Qed.

Lemma par_branches_sound l names d st bs st' :
  st_ok st → par_branches rec l names d st = Ok (bs, st') →
  branches_typed (typed cx (topb (function_stack st))) bs (scope st) ∧
  scope st' = scope st ∧ steps st st' ∧
  NoDup (map pb_name bs) ∧ (∀ n, n ∈ map pb_name bs → n ∉ names).
Proof.
  revert names st bs. induction l as [|e l IH]; intros names st bs Hst Hm; simpl in Hm.
  { m_inv. split_and!; try done; try constructor; set_solver. }
  m_inv. destruct a as [|tag [|ne [|be [|]]]]; try done. destruct (negb _); [done|]. m_inv.
  destruct (negb _); [done|]. destruct (bs_contains a names) eqn:Hseen; [done|]. m_inv. rec_step.
  match goal with H : par_branches _ _ _ _ _ = _ |- _ =>
    apply IH in H as (Hs & Hsc & [Hok' Hstk'] & Hnd); [|exact Hok] end.
  simpl in *. rewrite Hstk in *.
  destruct (NoDup_seen _ _ _ Hseen Hnd). split_and!; try done. simpl; eauto.
Qed.

Lemma analyze_par_sound l sp d : sound (analyze_par cx rec l sp d).
Proof.
  intros st h st' Hst Hm. unfold analyze_par in Hm. destruct (_ <? _)%N; [done|].
  destruct (_ <? _)%N; [done|]. m_inv.
  apply par_branches_sound in Hm0 as (Hs & Hsc & Hsteps & Hnd & _); [|done].
  split; [|done]. simpl. by split_and!.
Qed.

Lemma match_bindings_Ok l fields seen s bs sc :
  match_bindings l fields seen s = Ok (bs, sc) →
  bindings_extend fields bs s sc ∧ length bs = length l ∧ NoDup (map mb_field bs) ∧
  (∀ n, n ∈ map mb_field bs → n ∉ seen).
Proof.
  revert seen s bs. induction l as [|e l IH]; intros seen s bs Hm; simpl in Hm.
  { injection Hm as <- <-. split_and!; try done; try constructor; set_solver. }
  res_inv. destruct a as [|fe [|be [|]]]; try done. res_inv.
  destruct (bs_contains a seen) eqn:Hseen; [done|].
  destruct (bindings s !! a0) eqn:Hb; [done|]. simpl in Hm. res_inv. simplify_eq.
  edestruct IH as (Hx & Hl & Hnd); [eassumption|].
  destruct (NoDup_seen _ _ _ Hseen Hnd). split_and!; try done; [|simpl; congruence].
  simpl. eauto.
Qed.

Lemma match_pattern_Ok n vs seen p v fs :
  match_pattern n vs seen p = Ok (v, fs) →
  v ∈ vs ∧ List.find (λ item, vname item =s vname v) vs = Some v.
Proof.
  unfold match_pattern. intros Hm. res_inv. destruct a as [|tag [|c fields]]; try done.
  destruct (negb _); [done|]. res_inv. destruct (negb _); [done|].
  destruct (bs_contains _ _); [done|]. res_inv.
  match goal with H : List.find _ _ = Some _ |- _ => rename H into Hf end.
  pose proof (find_some _ _ Hf) as [Hin Hname]. apply str_eqb_eq in Hname.
  split; [by apply list_elem_of_In|]. by rewrite Hname.
Qed.

Lemma match_cases_sound n vs l seen d st cs st' :
  st_ok st → match_cases rec n vs l seen d st = Ok (cs, st') →
  cases_typed (typed cx (topb (function_stack st))) vs cs (scope st) ∧
  scope st' = scope st ∧ steps st st'.
Proof.
  revert seen st cs. induction l as [|e l IH]; intros seen st cs Hst Hm; simpl in Hm.
  { by m_inv. }
  m_inv. destruct a as [|p [|b [|]]]; try done. m_inv. destruct a as [v fields]. m_inv.
  destruct a0 as [bs sc]. m_inv. apply match_pattern_Ok in Hm1 as [Hin Hfind].
  unfold parse_match_bindings in Hm3.
  destruct (len fields =? len (vfields v))%N eqn:Hlen; [|done]. simpl in Hm3.
  apply N.eqb_eq in Hlen. apply match_bindings_Ok in Hm3 as (Hx & Hl & Hnd & _). rec_step.
  match goal with H : match_cases _ _ _ _ _ _ _ = _ |- _ =>
    apply IH in H as (Hs & Hsc & [Hok' Hstk']); [|exact Hok] end.
  simpl in *. rewrite Hstk in *. split; [|split; [done|by split]]. split; [|done].
  exists v, sc. eexists. split_and!; try done. unfold len in Hlen. lia.
Qed.

Lemma analyze_match_sound l sp d : sound (analyze_match cx rec l sp d).
Proof.
  intros st h st' Hst Hm. unfold analyze_match in Hm. destruct l as [|v l]; [done|]. m_inv.
  rec_step. apply require_pure_Ok in Hm1. destruct (hty a) eqn:Hty; try done.
  destruct (bm_get _ _) as [[|n' vs sp']|] eqn:Hd; try done. m_inv.
  apply match_cases_sound in Hm0 as (Hs & Hsc & [Hok' Hstk']); [|done].
  rewrite Hstk in *. apply ok_or_Ok in Hm4 as ->. apply common_types_Ok in Hm3.
  rewrite Forall_map in Hm3. split; [|by split]. simpl. rewrite Hsc. split_and!; try done.
  exists name, n', vs, sp'. split_and!; try done. intros x Hx.
  destruct (List.filter _ _) eqn:Hmiss in Hm2; [|done].
  destruct (existsb (λ c, mc_variant c =s vname x) a1) eqn:Hex.
  - apply existsb_exists in Hex as (c & Hc & E). apply str_eqb_eq in E. rewrite <- E.
    apply list_elem_of_fmap. exists c. split; [done|]. by apply list_elem_of_In.
  - assert (In x []) as []. rewrite <- Hmiss. apply filter_In.
    split; [by apply list_elem_of_In|]. by rewrite Hex.
Qed.

(** *** Atoms *)

Lemma project_path_sound segments v sp s s' top h :
  project_path cx segments v sp = Ok h → typed cx top v s s' → pure v → typed cx top h s s'.
Proof.
  revert v. induction segments as [|f r IH]; intros v Hm Ht Hp; simpl in Hm; [by injection Hm as <-|].
  res_inv. eapply IH; [exact Hm| |done]. simpl. split_and!; eauto.
Qed.

Lemma analyze_reference_sound r sp s h top : analyze_reference cx r sp s = Ok h → typed cx top h s s.
Proof.
  unfold analyze_reference. intros Hm. destruct (split_dots r []) as [|[|c root] segments]; [done..|].
  res_inv. eapply project_path_sound; [exact Hm| |done]. by split_and!.
Qed.

Lemma parse_i64_range s z : parse_i64 s = Some z → in_i64 z = true.
Proof.
  unfold parse_i64. destruct (match s with 43%N :: r => _ | _ => _ end) as [sign ds].
  destruct ds; [done|]. destruct (digits_value _ _); [|done]. unfold checked.
  destruct (in_i64 (sign * _)) eqn:E; [|done]. by intros [= <-].
Qed.

(** A symbol that does not start with a dollar sign. *)
Definition symbol_hir (value : str) (sp : SourceSpan) (s : Scope) : R HirExpr :=
  if value =s s! "nil" then Ok (hir (KLiteral LNil) TNil [] sp)
  else if value =s s! "true" then Ok (hir (KLiteral (LBool true)) TBool [] sp)
  else if value =s s! "false" then Ok (hir (KLiteral (LBool false)) TBool [] sp)
  else
    match parse_i64 value with
    | Some z => Ok (hir (KLiteral (LInt z)) TInt [] sp)
    | None =>
        if looks_like_float_literal value then
          match parse_f64 value with
          | None => Err (diag TypeMismatch "invalid Float literal '{value}'" [AStr value] sp)
          | Some _ => Ok (hir (KLiteral (LFloat value)) TFloat [] sp)
          end
        else analyze_reference cx value sp s
    end.

Lemma analyze_atom_symbol a s h :
  analyze_atom cx a s = Ok h → akind a = Symbol → symbol_hir (avalue a) (aspan a) s = Ok h.
Proof.
  unfold analyze_atom. intros Hm Hk. rewrite Hk in Hm. destruct (avalue a) as [|c r]; [exact Hm|].
  destruct c as [|p]; [exact Hm|].
  do 6 (try (destruct p as [p|p|]; try exact Hm)). discriminate.
Qed.

Lemma analyze_atom_sound a s h top : analyze_atom cx a s = Ok h → typed cx top h s s.
Proof.
  intros Hm. destruct (akind a) eqn:Hk; [|unfold analyze_atom in Hm; rewrite Hk in Hm; by injection Hm as <-].
  apply analyze_atom_symbol in Hm; [|done]. unfold symbol_hir in Hm.
  repeat (case_match_in Hm; [by injection Hm as <-|]).
  destruct (parse_i64 _) eqn:Hz.
  { injection Hm as <-. simpl. split_and!; try done. by eapply parse_i64_range. }
  destruct (looks_like_float_literal _); [|by eapply analyze_reference_sound].
  destruct (parse_f64 _) eqn:Hf; [|done]. injection Hm as <-. simpl. rewrite Hf. by split_and!.
Qed.

(** *** The dispatch *)

Lemma analyze_infer_sound l sp d : sound (analyze_infer_body cx rec l sp false d).
Proof.
  intros st h st' Hst Hm.
  apply analyze_infer_body_sound in Hm as ((body & cs & t & src & s1 & -> & Hcs & Ht) & Hsc & Hs);
    [|done]. split; [|done]. simpl. split_and!; eauto.
Qed.

Lemma analyze_operator_sound op osp l sp d : sound (analyze_operator cx rec op osp l sp d).
Proof.
  unfold analyze_operator.
  repeat match goal with |- sound (if ?b then _ else _) => destruct b end;
    try (by intros ???? ?); auto using analyze_list_sound, analyze_dict_sound,
      analyze_json_object_sound, analyze_json_conversion_sound, analyze_record_sound,
      analyze_variant_sound, analyze_some_sound, analyze_none_sound, analyze_ok_sound,
      analyze_err_sound, analyze_evidence_sound, analyze_outcome_sound,
      analyze_context_transaction_sound, analyze_get_sound, analyze_decode_sound,
      analyze_is_sound.
  destruct (pure_operator op); [apply analyze_pure_sound|].
  repeat match goal with |- sound (if ?b then _ else _) => destruct b eqn:? end;
    try (by intros ???? ?); auto using analyze_seq_sound, analyze_bind_sound, analyze_if_sound,
      analyze_match_sound, analyze_fallback_sound, analyze_map_sound, analyze_call_sound,
      analyze_infer_sound, analyze_par_sound, analyze_run_sound, analyze_host_view_sound,
      analyze_host_unary_sound, analyze_host_sound, analyze_function_application_sound.
Qed.

Lemma analyze_expr_step_sound e d : sound (analyze_expr_step cx rec e d).
Proof.
  intros st h st' Hst Hm. unfold analyze_expr_step in Hm. destruct (_ <? _)%N; [done|].
  cbv zeta in Hm. destruct (_ <? _)%N; [done|]. destruct e as [a|items sp].
  - m_inv. split; [|by split]. eapply analyze_atom_sound, Hm.
  - destruct items as [|hd l]; [done|]. destruct (as_symbol hd); [|done].
    by apply analyze_operator_sound in Hm.
Qed.
End operators.

Lemma analyze_expr_fuel_sound n e d : sound (analyze_expr_fuel cx n e d).
Proof.
  revert e d. induction n as [|n IH]; intros e d; [by intros ?????|].
  by apply analyze_expr_step_sound.
Qed.

Lemma analyze_expr_sound e d : sound (analyze_expr cx e d).
Proof. apply analyze_expr_fuel_sound. Qed.
End sound.
