(* ===== verification/AnalyzerFuel.v ===== *)
(** * The recursion of the analyzer is total

    [analyze_expr] recurses through every operator and, at a function application,
    into the body of another function: not on a structurally smaller expression.  What
    bounds it is the node counter, which every call advances and which is never reset.
    Two recursions that agree above a count make every operator agree above it
    ([agree]), so that more fuel than nodes left changes nothing and the analyzer
    satisfies the recursion equation of the source. *)

From stdpp Require Import base list gmap strings.
From S2P Require Import Prelude Types JsonValue Diagnostic Syntax SyntaxFacts Canonical Hir Decode JsonBoundary Declarations Analyzer.

Local Open Scope N_scope.

(** From states that counted at least [k] nodes, the computations are the same, and do not
    lower the counter. *)
Definition agree (k : N) {A} (m1 m2 : M A) : Prop := ∀ st,
  k <= node_count st →
  m1 st = m2 st ∧ ∀ a st', m1 st = Ok (a, st') → node_count st <= node_count st'.

Create HintDb agree.

Section agree.
Context (k : N).

Lemma agree_ret {A} (a : A) : agree k (mret a) (mret a).
Proof. intros st _. split; [done|]. by intros ? ? [= _ <-]. Qed.

Lemma agree_lift {A} (r : R A) : agree k (lift r) (lift r).
Proof. intros st _. split; [done|]. unfold lift. destruct r; simpl; [|done]. by intros ? ? [= _ <-]. Qed.

Lemma agree_throw {A} d : agree k (throw d : M A) (throw d).
Proof. intros st _. by split. Qed.

Lemma agree_get_scope : agree k get_scope get_scope.
Proof. intros st _. split; [done|]. by intros ? ? [= _ <-]. Qed.
Lemma agree_get_stack : agree k get_stack get_stack.
Proof. intros st _. split; [done|]. by intros ? ? [= _ <-]. Qed.
Lemma agree_get_compiled : agree k get_compiled get_compiled.
Proof. intros st _. split; [done|]. by intros ? ? [= _ <-]. Qed.
Lemma agree_set_scope s : agree k (set_scope s) (set_scope s).
Proof. intros st _. split; [done|]. by intros ? ? [= _ <-]. Qed.
Lemma agree_set_stack s : agree k (set_stack s) (set_stack s).
Proof. intros st _. split; [done|]. by intros ? ? [= _ <-]. Qed.
Lemma agree_set_compiled s : agree k (set_compiled s) (set_compiled s).
Proof. intros st _. split; [done|]. by intros ? ? [= _ <-]. Qed.

Lemma agree_bind {A B} (m1 m2 : M A) (f1 f2 : A → M B) :
  agree k m1 m2 → (∀ a, agree k (f1 a) (f2 a)) → agree k (m1 ≫= f1) (m2 ≫= f2).
Proof.
  intros Hm Hf st Hst. destruct (Hm st Hst) as [E Hmono]. unfold mbind, M_bind. rewrite <- E.
  destruct (m1 st) as [[a st1]|d]; simpl; [|by split].
  specialize (Hmono a st1 eq_refl). destruct (Hf a st1) as [E' Hmono']; [lia|].
  split; [done|]. intros b st' Hb. specialize (Hmono' b st' Hb). lia.
Qed.

Lemma agree_map_err {A} f (m1 m2 : M A) :
  agree k m1 m2 → agree k (λ st, map_err f (m1 st)) (λ st, map_err f (m2 st)).
Proof.
  intros Hm st Hst. destruct (Hm st Hst) as [E Hmono]. rewrite <- E. split; [done|].
  intros a st' H%map_err_Ok. eauto.
Qed.
End agree.

#[export] Hint Resolve agree_ret agree_lift agree_throw agree_get_scope agree_get_stack
  agree_get_compiled agree_set_scope agree_set_stack agree_set_compiled agree_map_err : agree.

(** Walks two copies of a computation that differ in the recursion only. *)
Ltac agree_step :=
  match goal with
  | |- agree _ (mbind _ _) (mbind _ _) => apply agree_bind; [|intros ?]
  | |- agree _ (match ?x with _ => _ end) _ => destruct x
  | |- agree _ (let _ := _ in _) _ => cbv zeta
  | |- agree _ _ _ => solve [auto with agree]
  end.
Ltac agree_auto := cbv beta; repeat (cbv zeta; agree_step).

Section operators.
Context `{CharClass} `{AnalysisProfile} (cx : Ctx) (k : N).
Context (rec1 rec2 : Expr → N → M HirExpr) (Hrec : ∀ e d, agree k (rec1 e d) (rec2 e d)).
Local Hint Resolve Hrec : agree.

Lemma agree_with_scope {A} s (m1 m2 : M A) : agree k m1 m2 → agree k (with_scope s m1) (with_scope s m2).
Proof. intros Hm. unfold with_scope. agree_auto. Qed.
Local Hint Resolve agree_with_scope : agree.

Lemma agree_isolated {A} (m1 m2 : M A) : agree k m1 m2 → agree k (isolated m1) (isolated m2).
Proof. intros Hm. unfold isolated. agree_auto. Qed.
Local Hint Resolve agree_isolated : agree.

Lemma agree_many l d : agree k (analyze_many rec1 l d) (analyze_many rec2 l d).
Proof. unfold analyze_many. induction l; simpl; agree_auto. Qed.
Local Hint Resolve agree_many : agree.

Lemma agree_named_arguments l seen d :
  agree k (named_arguments rec1 l seen d) (named_arguments rec2 l seen d).
Proof. revert seen. induction l; intros; simpl; agree_auto. Qed.
Local Hint Resolve agree_named_arguments : agree.

Lemma agree_named_fields l ds seen d :
  agree k (named_fields rec1 l ds seen d) (named_fields rec2 l ds seen d).
Proof. revert seen. induction l; intros; simpl; agree_auto. Qed.
Local Hint Resolve agree_named_fields : agree.

Lemma agree_analyze_named_fields l ds d :
  agree k (analyze_named_fields rec1 l ds d) (analyze_named_fields rec2 l ds d).
Proof. unfold analyze_named_fields. agree_auto. Qed.
Local Hint Resolve agree_analyze_named_fields : agree.

Lemma agree_dict_entries l seen d : agree k (dict_entries rec1 l seen d) (dict_entries rec2 l seen d).
Proof. revert seen. induction l; intros; simpl; agree_auto. Qed.

Lemma agree_json_entries l seen d :
  agree k (json_entries cx rec1 l seen d) (json_entries cx rec2 l seen d).
Proof. revert seen. induction l; intros; simpl; agree_auto. Qed.

Lemma agree_evidence_refs l p d :
  agree k (analyze_evidence_refs rec1 l p d) (analyze_evidence_refs rec2 l p d).
Proof. unfold analyze_evidence_refs. agree_auto. Qed.
Local Hint Resolve agree_dict_entries agree_json_entries agree_evidence_refs : agree.

Lemma agree_evidence_clauses l seen a b c d :
  agree k (evidence_clauses rec1 l seen a b c d) (evidence_clauses rec2 l seen a b c d).
Proof. revert seen a b c. induction l; intros; simpl; agree_auto. Qed.

Lemma agree_outcome_clauses l seen a b c d :
  agree k (outcome_clauses rec1 l seen a b c d) (outcome_clauses rec2 l seen a b c d).
Proof. revert seen a b c. induction l; intros; simpl; agree_auto. Qed.

Lemma agree_context_clauses l seen a b d :
  agree k (context_clauses rec1 l seen a b d) (context_clauses rec2 l seen a b d).
Proof. revert seen a b. induction l; intros; simpl; agree_auto. Qed.

Lemma agree_par_branches l seen d : agree k (par_branches rec1 l seen d) (par_branches rec2 l seen d).
Proof. revert seen. induction l; intros; simpl; agree_auto. Qed.

Lemma agree_match_cases n vs l seen d :
  agree k (match_cases rec1 n vs l seen d) (match_cases rec2 n vs l seen d).
Proof. revert seen. induction l; intros; simpl; agree_auto. Qed.
Local Hint Resolve agree_evidence_clauses agree_outcome_clauses agree_context_clauses
  agree_par_branches agree_match_cases : agree.

Lemma agree_compile_function n : agree k (compile_function cx rec1 n) (compile_function cx rec2 n).
Proof.
  assert (∀ dcl, agree k (compile_body rec1 dcl) (compile_body rec2 dcl)) as Hbody.
  { intros dcl. unfold compile_body. agree_auto. }
  unfold compile_function. agree_auto.
Qed.
Local Hint Resolve agree_compile_function : agree.

Lemma agree_infer l sp root d :
  agree k (analyze_infer_body cx rec1 l sp root d) (analyze_infer_body cx rec2 l sp root d).
Proof. unfold analyze_infer_body. agree_auto. Qed.
Local Hint Resolve agree_infer : agree.

(** One lemma for all operators: their bodies are composed of the computations above. *)
Lemma agree_operator op osp l sp d :
  agree k (analyze_operator cx rec1 op osp l sp d) (analyze_operator cx rec2 op osp l sp d).
Proof.
  unfold analyze_operator, analyze_list, analyze_dict, analyze_json_object,
    analyze_json_conversion, analyze_record, analyze_variant, analyze_some, analyze_ok,
    analyze_err, analyze_evidence, analyze_outcome, analyze_context_transaction, analyze_get,
    analyze_decode, analyze_is, analyze_pure, analyze_seq, analyze_bind, analyze_if,
    analyze_match, analyze_fallback, analyze_map, analyze_call, analyze_par, analyze_run,
    analyze_host_view, analyze_host_unary, analyze_host, analyze_function_application,
    analyze_named_arguments.
  agree_auto.
Qed.
End operators.

(** ** The recursion equation *)

Section fuel.
Context `{CharClass} `{AnalysisProfile} (cx : Ctx).
Local Abbreviation nodes_max := (max_hir_nodes (ctx_limits cx)).

Definition count_node (st : St) : St :=
  mkSt (scope st) (compiled_functions st) (function_stack st) (node_count st + 1).

(** One level agrees when the recursion agrees on states that have counted its node,
    and the count is within the limit. *)
Lemma agree_expr_step rec1 rec2 e d k :
  (k + 1 <= nodes_max → ∀ e d, agree (k + 1) (rec1 e d) (rec2 e d)) →
  ∀ st, node_count st = k →
  analyze_expr_step cx rec1 e d st = analyze_expr_step cx rec2 e d st ∧
  ∀ a st', analyze_expr_step cx rec1 e d st = Ok (a, st') → k <= node_count st'.
Proof.
  intros Hrec st Hk. unfold analyze_expr_step. destruct (_ <? d)%N; [by split|]. cbv zeta. simpl.
  destruct (N.ltb_spec nodes_max (node_count st + 1)); [by split|].
  specialize (Hrec ltac:(lia)).
  assert (∀ m1 m2 : M HirExpr, agree (k + 1) m1 m2 → m1 (count_node st) = m2 (count_node st) ∧
    ∀ a st', m1 (count_node st) = Ok (a, st') → k <= node_count st') as Hstep.
  { intros m1 m2 Hm. destruct (Hm (count_node st)) as [E Hmono]; [simpl; lia|].
    split; [done|]. intros a st' Ha. specialize (Hmono a st' Ha). simpl in Hmono. lia. }
  destruct e as [a|[|h l] sp]; [apply Hstep, agree_lift|by split|].
  destruct (as_symbol h); [|by split]. apply Hstep, agree_operator, Hrec.
Qed.

(** Fuel for the nodes left: one unit, and one more for each node the limit still
    admits. *)
Definition enough (n : nat) (k : N) : Prop :=
  (0 < n)%nat ∧ (N.to_nat nodes_max < n + N.to_nat k)%nat.

Lemma enough_step n k k' : enough (S n) k → k <= k' → k' + 1 <= nodes_max → enough n (k' + 1).
Proof. unfold enough. lia. Qed.

Lemma analyze_expr_fuel_enough n m k : enough n k → enough m k →
  ∀ e d, agree k (analyze_expr_fuel cx n e d) (analyze_expr_fuel cx m e d).
Proof.
  revert m k. induction n as [|n IH]; intros m k Hn Hm e d st Hst; [by destruct Hn; lia|].
  destruct m as [|m]; [by destruct Hm; lia|]. cbn [analyze_expr_fuel].
  assert (node_count st + 1 <= nodes_max → ∀ e d,
    agree (node_count st + 1) (analyze_expr_fuel cx n e d) (analyze_expr_fuel cx m e d)) as Hrec.
  { intros Hmax. apply IH; by eapply enough_step. }
  exact (agree_expr_step _ _ e d (node_count st) Hrec st eq_refl).
Qed.

Lemma analyze_expr_eq e d st : analyze_expr cx e d st = analyze_expr_step cx (analyze_expr cx) e d st.
Proof.
  unfold analyze_expr at 1. cbn [analyze_expr_fuel].
  apply agree_expr_step with (k := node_count st); [|done].
  intros Hmax e' d'. apply analyze_expr_fuel_enough; unfold enough; lia.
Qed.
End fuel.

(** ** Main theorems *)

Section claims.
Context `{CharClass} `{AnalysisProfile} (cx : Ctx).

(** Analysis terminates and is the recursive function of the source: although it recurses
    into the bodies of called functions, the fuel of one unit per admitted node is enough,
    so that the fuelled function satisfies the one-step equation and any larger fuel gives
    the same result. *)
Theorem analyze_expr_equation e d st n :
  analyze_expr cx e d st = analyze_expr_step cx (analyze_expr cx) e d st ∧
  analyze_expr_fuel cx (S (N.to_nat (max_hir_nodes (ctx_limits cx))) + n) e d st
  = analyze_expr cx e d st.
Proof.
  split; [apply analyze_expr_eq|].
  apply (analyze_expr_fuel_enough cx _ _ 0); unfold enough; lia.
Qed.
End claims.
