(* ===== verification/ProgramSound.v ===== *)
(** * What an accepted program guarantees

    [analyze_module] accepts a module only when its body and every compiled function
    are typed ([Typing]), when the program's effects stay inside the declared upper
    bounds, and when the linked tree is inside the node limit.  The effect row of
    an expression is exactly the union of the effects its nodes perform, so that an
    empty row means that no node performs one. *)

From stdpp Require Import base list gmap strings.
From S2P Require Import Prelude Types JsonValue Diagnostic Syntax SyntaxFacts Canonical Hir Decode DecodeFacts JsonBoundary JsonBoundaryFacts Declarations Analyzer Typing AnalyzerSound.

(** ** Effects *)

Definition somewhere (R : HirExpr → Scope → Scope → Prop) (e : HirExpr) : Prop :=
  ∃ s s', R e s s'.

Ltac open_hyps :=
  repeat match goal with
    | H : _ ∧ _ |- _ => destruct H
    | H : ∃ _, _ |- _ => destruct H
    end.

Lemma typed_somewhere (R : HirExpr → Scope → Scope → Prop) e s s' : R e s s' → somewhere R e.
Proof. by exists s, s'. Qed.

Section somewhere.
Context (R : HirExpr → Scope → Scope → Prop).

Lemma seq_typed_somewhere l s s' : seq_typed R l s s' → Forall (somewhere R) l.
Proof.
  revert s. induction l as [|e l IH]; intros s; simpl; [constructor|].
  intros (s1 & He & Hl). constructor; [by exists s, s1|eauto].
Qed.

Lemma entries_typed_somewhere l s s' : entries_typed R l s s' → Forall (somewhere R) (map snd l).
Proof.
  revert s. induction l as [|[n e] l IH]; intros s; simpl; [constructor|].
  intros (s1 & He & Hl). constructor; [by exists s, s1|eauto].
Qed.

Lemma arguments_typed_somewhere l s s' :
  arguments_typed R l s s' → Forall (somewhere R) (concat (map na_values l)).
Proof.
  revert s. induction l as [|[n vs sp] l IH]; intros s; simpl; [constructor|].
  intros (s1 & He%seq_typed_somewhere & Hl). apply Forall_app; eauto.
Qed.

Lemma branches_typed_somewhere l s : branches_typed R l s → Forall (somewhere R) (map pb_body l).
Proof.
  induction l as [|[n e sp] l IH]; simpl; [constructor|].
  intros [[s1 He] Hl]. constructor; [by exists s, s1|eauto].
Qed.

Lemma cases_typed_somewhere vs l s : cases_typed R vs l s → Forall (somewhere R) (map mc_body l).
Proof.
  induction l as [|[v bs e sp] l IH]; simpl; [constructor|].
  intros [(d & sc & s1 & _ & _ & _ & _ & He) Hl]. constructor; [by exists sc, s1|eauto].
Qed.
End somewhere.

(** The effect a node itself performs when it is evaluated. *)
Definition performs (e : HirExpr) : list Effect :=
  match hkind e with
  | KCall tool _ => [ETool tool]
  | KInferBody _ _ _ _ => [EInfer]
  | KRun p => match hty p with TProgram _ es => [EProgram es] | _ => [] end
  | KHost op args =>
      if op =s s! "host.view" then
        match concat (map na_values args) with
        | r :: _ => match hty r with TRef kind => [EHost (s! "view." ++ kind)] | _ => [EHost op] end
        | [] => [EHost op]
        end
      else [EHost op]
  | _ => []
  end.

Lemma ex_cons (P : HirExpr → Prop) a l : (∃ c, c ∈ a :: l ∧ P c) ↔ P a ∨ ∃ c, c ∈ l ∧ P c.
Proof. setoid_rewrite elem_of_cons. naive_solver. Qed.

Lemma ex_app (P : HirExpr → Prop) l l' :
  (∃ c, c ∈ l ++ l' ∧ P c) ↔ (∃ c, c ∈ l ∧ P c) ∨ ∃ c, c ∈ l' ∧ P c.
Proof. setoid_rewrite elem_of_app. naive_solver. Qed.

Lemma ex_nil (P : HirExpr → Prop) : (∃ c, c ∈ [] ∧ P c) ↔ False.
Proof. set_solver. Qed.

Section effects.
Context `{CharClass} `{AnalysisProfile} (cx : Ctx).

(** The children of a typed expression are typed: in some scope, and outside function
    bodies when the expression is, except for the linked body of an application. *)
Lemma typed_children top e s s' : typed cx top e s s' →
  Forall (λ c, somewhere (typed cx top) c ∨
               ((∃ f args ps, hkind e = KFunctionApplication f args ps c) ∧
                somewhere (typed cx false) c)) (children e).
Proof.
  destruct e as [k t ef sp]. intros Ht.
  assert (∀ l, Forall (somewhere (typed cx top)) l →
    Forall (λ c, somewhere (typed cx top) c ∨
      ((∃ f args ps, k = KFunctionApplication f args ps c) ∧ somewhere (typed cx false) c)) l)
    as Hleft by (intros l Hl; eapply Forall_impl; [exact Hl|by left]).
  destruct k; simpl in Ht; unfold children; simpl; open_hyps;
    try (apply Hleft; repeat (apply Forall_nil_2 || apply Forall_cons_2);
         eauto using seq_typed_somewhere, entries_typed_somewhere, arguments_typed_somewhere,
           branches_typed_somewhere, cases_typed_somewhere, typed_somewhere; fail).
  apply Forall_app. split; [eauto using arguments_typed_somewhere|].
  apply Forall_cons_2; [|apply Forall_nil_2]. right. split; eauto using typed_somewhere.
Qed.

(** The effects of a typed expression: its own and those of its children. *)
Lemma typed_own_effects top e s s' x : typed cx top e s s' →
  x ∈ heffects e ↔ x ∈ performs e ∨ ∃ c, c ∈ children e ∧ x ∈ heffects c.
Proof.
  destruct e as [k t ef sp]. intros Ht.
  assert (∀ P l, Forall pure l → (P ↔ P ∨ ∃ c, c ∈ l ∧ x ∈ heffects c)) as Hpure.
  { intros P l Hl. rewrite Forall_forall in Hl. split; [by left|]. intros [?|(c & Hc & Hx)]; [done|].
    rewrite (Hl c Hc) in Hx. by apply elem_of_nil in Hx. }
  destruct k; simpl in Ht; unfold children, performs; cbn [hkind heffects]; open_hyps; subst;
    rewrite ?es_union_In, ?es_insert_In, ?union_effects_In;
    try (apply Hpure; repeat (apply Forall_cons_2 || apply Forall_nil_2); done);
    rewrite ?ex_app, ?ex_cons, ?ex_nil, ?elem_of_nil, ?list_elem_of_singleton; try tauto.
  - rewrite H3, list_elem_of_singleton, H2, elem_of_nil. tauto.
  - rewrite <- Hpure by done.
    match goal with Hk : (_ = _ ∧ _) ∨ (_ = _ ∧ _) |- _ => rename Hk into Hcase end.
    destruct Hcase as [(-> & Hop%str_eqb_neq & _)|(-> & r & kind & sp' & -> & Hr & -> & _)].
    + by rewrite Hop, list_elem_of_singleton.
    + cbn [map na_values concat app]. rewrite Hr, str_eqb_refl, list_elem_of_singleton. done.
Qed.

Lemma typed_effects_exact top e s s' x : typed cx top e s s' →
  x ∈ heffects e ↔ ∃ n, n ∈ nodes e ∧ x ∈ performs n.
Proof.
  revert top s s'. induction e as [e IH] using hir_ind. intros top s s' Ht.
  rewrite (typed_own_effects _ _ _ _ _ Ht). apply typed_children in Ht.
  rewrite Forall_forall in Ht. setoid_rewrite elem_of_nodes. split.
  - intros [Hx|(c & Hc & Hx)]; [by exists e; auto|].
    destruct (Ht c Hc) as [(a & b & H1)|[_ (a & b & H1)]];
      apply (IH c Hc _ _ _ H1) in Hx as (n & Hn & Hx); eauto 6.
  - intros (n & [->|(c & Hc & Hn)] & Hx); [by left|right]. exists c. split; [done|].
    destruct (Ht c Hc) as [(a & b & H1)|[_ (a & b & H1)]]; apply (IH c Hc _ _ _ H1); eauto.
Qed.

Lemma typed_nodes top e s s' n : typed cx top e s s' → n ∈ nodes e →
  ∃ top', somewhere (typed cx top') n.
Proof.
  revert top s s'. induction e as [e IH] using hir_ind. intros top s s' Ht Hn.
  apply elem_of_nodes in Hn as [->|(c & Hc & Hn)]; [by exists top, s, s'|].
  apply typed_children in Ht. rewrite Forall_forall in Ht.
  destruct (Ht c Hc) as [(a & b & H1)|[_ (a & b & H1)]]; eauto.
Qed.

(** Outside function bodies every tool effect passed [requires.tools]. *)
Lemma typed_tools_allowed e s s' tool : typed cx true e s s' → ETool tool ∈ heffects e →
  tool_excluded cx tool = false.
Proof.
  revert s s'. induction e as [e IH] using hir_ind. intros s s' Ht Hx.
  apply (typed_own_effects _ _ _ _ _ Ht) in Hx as [Hx|(c & Hc & Hx)].
  - destruct e as [k t ef sp]. destruct k; unfold performs in Hx; cbn [hkind] in Hx;
      repeat case_match_in Hx; rewrite ?elem_of_nil, ?list_elem_of_singleton in Hx; try done.
    simplify_eq. simpl in Ht. open_hyps. auto.
  - pose proof (typed_children _ _ _ _ Ht) as Hcs. rewrite Forall_forall in Hcs.
    destruct (Hcs c Hc) as [(a & b & H1)|[(f & args & ps & Hk) _]]; [eauto|].
    destruct e as [k t ef sp]. simpl in Hk. subst. simpl in Ht. open_hyps.
    specialize (H4 eq_refl). unfold excluded_tool in H4.
    apply (find_none _ _ H4). apply list_elem_of_In, elem_of_concat. exists [tool].
    split; [|set_solver]. apply list_elem_of_fmap. by exists (ETool tool).
Qed.
End effects.

Section module.
Context `{CharClass} `{AnalysisProfile} (program_hash : Program → str).

(** ** The module *)

(** The body of a program: an ordinary expression for [(eval ..)], a nested
    evaluation without the [infer] effect for [(infer ..)]. *)
Definition root_typed (cx : Ctx) (o : EvaluationOwner) (e : HirExpr) : Prop :=
  match o with
  | Runtime => ∃ s1, typed cx true e scope_new s1
  | Model => ∃ b cs t source sp s1,
      e = hir (KInferBody b (map fst cs) t source) t (heffects b) sp ∧
      Forall (λ nt, bindings scope_new !! nt.1 = Some nt.2) cs ∧
      typed cx true b (mkScope (list_to_map cs) false) s1
  end.

Lemma mapM_compile_sound cx base (l : list (str * FunctionDeclaration)) st fs st' :
  st_ok cx base st →
  mapM (λ nd, compile_function cx (analyze_expr cx) nd.1) l st = Ok (fs, st') →
  st_ok cx (l.*1 ++ base) st' ∧ function_stack st' = function_stack st.
Proof.
  revert base st fs. induction l as [|nd l IH]; intros base st fs Hst Hm; simpl in Hm; m_inv; [by split|].
  apply (compile_function_sound cx base) in Hm0 as (_ & [[Hok Hbase] Hstk] & _ & Hf); [|apply analyze_expr_sound|done].
  apply (IH (nd.1 :: base)) in Hm1 as [Hok' Hstk'].
  - split; [|congruence]. destruct Hok' as [Hok' Hb']. split; [done|]. intros n Hn. apply Hb'. set_solver.
  - split; [done|]. intros n [->|Hn]%elem_of_cons; [by rewrite Hf|by apply Hbase].
Qed.

Lemma compile_all_sound cx s u st :
  compile_all cx (st_initial s) = Ok (u, st) → st_ok cx (function_declarations cx).*1 st ∧ function_stack st = [].
Proof.
  unfold compile_all. intros Hm. m_inv. apply (mapM_compile_sound _ []) in Hm0 as [??]; [by rewrite app_nil_r in *|].
  split; [constructor|]. intros n ?%elem_of_nil. done.
Qed.

Lemma analyze_body_sound cx base o root items st e st' :
  st_ok cx base st → function_stack st = [] → scope st = scope_new →
  analyze_body cx o root items st = Ok (e, st') → root_typed cx o e ∧ st_ok cx base st'.
Proof.
  intros Hst Hstk Hsc Hm. destruct o; simpl in Hm.
  - destruct items as [|b [|]]; try done.
    apply (analyze_expr_sound cx base) in Hm as [Ht [Hok _]]; [|done].
    rewrite Hstk, Hsc in Ht. split; [|done]. eexists; exact Ht.
  - destruct items; [done|]. m_inv.
    apply (analyze_infer_body_sound cx base) in Hm0
      as ((b & cs & t & src & s1 & -> & Hcs & Ht) & _ & [Hok _]); [|apply analyze_expr_sound|done].
    rewrite Hstk, Hsc in *. split; [|done]. exists b, cs, t. eexists _, _, _. by split_and!.
Qed.

(** ** Declarations *)

(** The declarations of a context are those of the given forms. *)
Definition declares (definitions : Definitions) (forms : list Expr) (declarations : list (str * FunctionDeclaration)) : Prop :=
  ∀ name d, bm_get name declarations = Some d ↔
    ∃ form, form ∈ forms ∧ parse_function_declaration definitions form = Ok d ∧ fd_name d = name.

Lemma foldM_snoc {E A S} (f : S → A → result E S) s l x : foldM f s (l ++ [x]) = (s' ← foldM f s l; f s' x).
Proof.
  revert s. induction l as [|y l IH]; intros s; simpl; [by destruct (f s x)|].
  destruct (f s y) as [s1|]; simpl; [apply IH|done].
Qed.

Lemma prepare_declares definitions forms declarations :
  prepare_function_declarations definitions forms = Ok declarations →
  declares definitions forms declarations ∧
  ∀ form, form ∈ forms → ∃ d, parse_function_declaration definitions form = Ok d.
Proof.
  unfold prepare_function_declarations. revert declarations. induction forms as [|form forms IH] using rev_ind.
  - intros ? [= <-]. split; [|by intros ? ?%elem_of_nil]. intros name d. split; [done|]. intros (? & ?%elem_of_nil & _). done.
  - intros declarations. rewrite foldM_snoc. intros Hm. apply bind_Ok in Hm as (m & Hm & Hl). res_inv.
    destruct (bm_contains (fd_name a) m) eqn:Hc; [done|]. injection Hl as <-. destruct (IH m Hm) as [Hd Hp].
    assert (bm_get (fd_name a) m = None) as Hn by (unfold bm_contains in Hc; by destruct (bm_get _ m)).
    split.
    + intros name d. rewrite bm_get_insert. setoid_rewrite elem_of_app. setoid_rewrite list_elem_of_singleton.
      destruct (name =s fd_name a) eqn:E; [apply str_eqb_eq in E as ->|apply str_eqb_neq in E].
      * split; [intros [= <-]; exists form; auto|]. intros (f & [Hf| ->] & Hfd & Hname); [|congruence].
        assert (bm_get (fd_name a) m = Some d) by (apply Hd; eauto). congruence.
      * rewrite (Hd name d). split; [intros (f & ? & ?); exists f; auto|].
        intros (f & [Hf| ->] & Hfd & Hname); [eauto|]. congruence.
    + intros f [Hf| ->%list_elem_of_singleton]%elem_of_app; eauto.
Qed.

Definition with_source_hash (h : str) (p : Program) : Program :=
  mkProgram (language_version p) (owner p) (requirements p) (types p) (body p) (output p)
    (effects p) (program_canonical_source p) h.

(** The context of an accepted module and what the analysis established in it. *)
Definition module_ok (su : Setup) (root : Expr) (m : ModuleAnalysis) (cx : Ctx) : Prop :=
  let p := ma_program m in
  root_typed cx (owner p) (body p) ∧
  Forall (λ nb, ∃ f, cf_body f = nb.2 ∧ function_typed cx nb.1 f) (ma_functions m) ∧
  (∃ items rest, program_owner root = Ok (owner p, items) ∧ program_declarations su items = Ok (requirements p, types p, rest)) ∧
  prepare_function_declarations (types p) (su_function_forms su) = Ok (function_declarations cx) ∧
  (∀ n, n ∈ (function_declarations cx).*1 → n ∈ (ma_functions m).*1) ∧
  ctx_limits cx = su_limits su ∧ ctx_requirements cx = requirements p ∧
  ctx_definitions cx = types p ∧ allow_internal_functions cx = su_allow_internal su ∧
  output p = hty (body p) ∧ effects p = heffects (body p) ∧
  program_canonical_source p = canonical_source root ∧
  match req_effects (requirements p) with Some es => effects p ⊆ es | None => True end ∧
  (hir_node_count (body p) <= max_hir_nodes (su_limits su))%N ∧
  validate_type_definitions (types p) = Ok tt ∧
  source_hash p = program_hash (with_source_hash [] p).

Lemma finish_program_Ok limits rq defs root o b p :
  finish_program program_hash limits rq defs root o b = Ok p →
  p = (λ h, mkProgram s! "0.1" o rq defs b (hty b) (heffects b) (canonical_source root) h)
        (program_hash (mkProgram s! "0.1" o rq defs b (hty b) (heffects b) (canonical_source root) [])) ∧
  match req_effects rq with Some es => heffects b ⊆ es | None => True end ∧
  (hir_node_count b <= max_hir_nodes limits)%N.
Proof.
  unfold finish_program. intros Hm. res_inv. cbv zeta in Hm.
  destruct (max_hir_nodes limits <? hir_node_count b)%N eqn:Hn; [done|]. injection Hm as <-.
  split_and!; [done| |by apply N.ltb_ge]. destruct (req_effects rq); [|done].
  apply ensure_Ok in Ha. by apply es_is_subset_spec.
Qed.

Lemma analyze_module_ok su root m :
  analyze_module program_hash su root = Ok m → ∃ cx, module_ok su root m cx.
Proof.
  unfold analyze_module. intros Hm. res_inv.
  apply compile_all_sound in Ha3 as [Hst Hstk].
  eapply analyze_body_sound in Ha5 as [Hroot [Hok Hall]]; [|done..].
  apply finish_program_Ok in Ha6 as (-> & Heff & Hnodes). destruct_units.
  eexists. unfold module_ok. cbv zeta. simpl. split_and!; try done.
  - apply Forall_map. eapply Forall_impl; [exact Hok|]. intros nf Hf. by exists nf.2.
  - by eexists _, _.
  - intros n Hn%Hall. rewrite <- list_fmap_compose. change (_ ∘ _) with (@fst str CompiledFunction).
    apply dec_stable. intros Hno. by apply Hn, bm_get_None.
Qed.
End module.

(** ** Sample program *)

(** One tool [read : (id Int) -> String]. *)
Definition sample_profile : AnalysisProfile := static_profile (mkStaticProfile
  [(s! "read", mkSignature [(s! "id", TInt)] [s! "id"] TString)] [] []).

Definition sample_function : str :=
  s! "(fn fetch (visibility internal) (params (n Note)) (returns String) (effects (tool read)) (body (call read (id n.id))))".
Definition sample_program : str :=
  s! "(eval (requires (tools read) (effects (tool read))) (types (record Note (id Int) (done Bool))) (seq (bind n (decode Note (record Note (id 7) (done false)))) (if n.done (call read (id 1)) (fetch (n n)))))".

Definition sample_setup : Setup :=
  match parse_one sample_function parse_limits_default with
  | Ok f => with_functions (analyzer_new analysis_limits_default) [f] true
  | Err _ => analyzer_new analysis_limits_default
  end.
Definition sample_root : Expr :=
  match parse_one sample_program parse_limits_default with Ok e => e | Err _ => EList [] empty_span end.
Definition sample_module : ModuleAnalysis :=
  match @analyze_module ascii_classes sample_profile (λ _, []) sample_setup sample_root with
  | Ok m => m
  | Err _ => mkModuleAnalysis (mkProgram [] Runtime requirements_default [] (hir (KLiteral LNil) TNil [] empty_span)
                                 TNil [] [] []) []
  end.

Lemma sample_module_ok :
  @analyze_module ascii_classes sample_profile (λ _, []) sample_setup sample_root = Ok sample_module.
Proof. vm_compute. reflexivity. Qed.

(** ** Main theorems *)

Section claims.
Context `{CharClass} `{AnalysisProfile} (program_hash : Program → str).

(** The nodes whose effects make up the effect row of a program: all of them, except that
    the nested evaluation a model-owned root stands for is not itself an effect. *)
Definition effect_nodes (p : Program) : list HirExpr :=
  match owner p with
  | Runtime => nodes (body p)
  | Model => concat (map nodes (children (body p)))
  end.

(** The body of a function under its declaration. *)
Definition body_typed (cx : Ctx) (d : FunctionDeclaration) (b : HirExpr) : Prop :=
  assignable (hty b) (fd_returns d) ∧
  match fd_declared_effects d with Some es => heffects b ⊆ es | None => True end ∧
  ∃ s0 s1, bind_parameters (fd_parameters d) scope_new = Ok s0 ∧ typed cx false b s0 s1.

(** C3. The analyzer implements the type and effect system.  When a module is accepted, its owner, its
    requirements and its types are those the source declares, and in the context that these and the function
    declarations of the unit determine (a name is declared as [d] if and only if a function form of the unit
    parses to [d] under that name) the body is typed in the scope a program starts with; every function
    form of the unit has a compiled body that is typed in the scope of the form's own parameters, with a
    type below its declared result and effects inside its declared row; nothing else is compiled; and the
    program records the type, effects and canonical source. *)
Theorem accepted_module_is_typed su root m :
  analyze_module program_hash su root = Ok m →
  let p := ma_program m in
  (∃ items rest, program_owner root = Ok (owner p, items) ∧
     program_declarations su items = Ok (requirements p, types p, rest)) ∧
  (∃ declarations, declares (types p) (su_function_forms su) declarations ∧
     let cx := mkCtx (su_limits su) (requirements p) (types p) declarations (su_allow_internal su) in
     root_typed cx (owner p) (body p) ∧
     (∀ form, form ∈ su_function_forms su → ∃ d b,
        parse_function_declaration (types p) form = Ok d ∧ (fd_name d, b) ∈ ma_functions m ∧ body_typed cx d b) ∧
     (∀ name b, (name, b) ∈ ma_functions m → ∃ form d,
        form ∈ su_function_forms su ∧ parse_function_declaration (types p) form = Ok d ∧ fd_name d = name ∧
        body_typed cx d b)) ∧
  output p = hty (body p) ∧ effects p = heffects (body p) ∧
  program_canonical_source p = canonical_source root.
Proof.
  intros (cx & Hm)%analyze_module_ok. unfold module_ok in Hm. cbv zeta in *.
  destruct Hm as (Hroot & Hfs & Hdecl & Hprep & Hall & El & Er & Ed & Ea & Eo & Ee & Ec & _).
  split; [done|]. split; [|done]. apply prepare_declares in Hprep as [Hd Hp].
  assert (mkCtx (su_limits su) (requirements (ma_program m)) (types (ma_program m)) (function_declarations cx) (su_allow_internal su) = cx)
    as Ecx by (destruct cx; simpl in *; congruence).
  exists (function_declarations cx). split; [done|]. rewrite Ecx.
  assert (Hin : ∀ name b, (name, b) ∈ ma_functions m → ∃ d, bm_get name (function_declarations cx) = Some d ∧ body_typed cx d b).
  { intros name b Hb. rewrite Forall_forall in Hfs. destruct (Hfs _ Hb) as (f & Ef & Hg & Hbelow & Heff & Ht). simpl in *. subst b.
    by exists (cf_declaration f). }
  split; [done|]. split.
  - intros form Hform. destruct (Hp form Hform) as [d Hfd]. assert (Hg : bm_get (fd_name d) (function_declarations cx) = Some d) by (apply Hd; eauto).
    assert (fd_name d ∈ (ma_functions m).*1) as ([n b] & En & Hb)%list_elem_of_fmap.
    { apply Hall, list_elem_of_fmap. exists (fd_name d, d). split; [done|by apply bm_get_elem]. }
    simpl in En. subst n. destruct (Hin _ _ Hb) as (d' & Hg' & Ht). exists d, b. by simplify_eq.
  - intros name b Hb. destruct (Hin _ _ Hb) as (d & (form & ? & ? & ?)%Hd & Ht). exists form, d. done.
Qed.

(** C4. The effect row of an accepted program is exact: an effect is in the row if and only
    if some node of the linked tree, function bodies included, performs it. *)
Theorem program_effects_exact su root m x :
  analyze_module program_hash su root = Ok m →
  let p := ma_program m in
  x ∈ effects p ↔ ∃ n, n ∈ effect_nodes p ∧ x ∈ performs n.
Proof.
  intros (cx & Hm)%analyze_module_ok. unfold module_ok in Hm. cbv zeta in *.
  generalize dependent (ma_program m). intros p Hm. open_hyps.
  unfold effect_nodes. match goal with E : effects p = _ |- _ => rewrite E end.
  match goal with Hr : root_typed _ _ _ |- _ => rename Hr into Hroot end.
  destruct (owner p); simpl in Hroot; open_hyps.
  - by eapply typed_effects_exact.
  - match goal with E : body p = _ |- _ => rewrite E end. unfold children, hir. simpl.
    rewrite app_nil_r. by eapply typed_effects_exact.
Qed.

(** C38. An accepted program stays inside every upper bound it declares: when it states
    [requires.tools], each tool of its effect row is one of them; when it states
    [requires.effects], its row is contained in them; and the nodes of its body, with all function
    bodies linked in and counted up to the largest usize, are at most the limit of the setup. *)
Theorem program_within_bounds su root m :
  analyze_module program_hash su root = Ok m →
  let p := ma_program m in
  (∀ tools tool, req_tools (requirements p) = Some tools → ETool tool ∈ effects p → tool ∈ tools) ∧
  (∀ es, req_effects (requirements p) = Some es → effects p ⊆ es) ∧
  (N.min (len (nodes (body p))) usize_max <= max_hir_nodes (su_limits su))%N.
Proof.
  intros (cx & Hm)%analyze_module_ok. unfold module_ok in Hm. cbv zeta in *.
  generalize dependent (ma_program m). intros p Hm. open_hyps.
  split_and!; [|by intros es Hes; rewrite Hes in *|done].
  intros tools tool Htools Hx. assert (tool_excluded cx tool = false) as Hin.
  { match goal with E : effects p = _, Hr : root_typed _ _ _ |- _ => rewrite E in Hx; rename Hr into Hroot end.
    destruct (owner p); simpl in Hroot; open_hyps; [by eapply typed_tools_allowed|].
    match goal with E : body p = _ |- _ => rewrite E in Hx end. by eapply typed_tools_allowed. }
  unfold tool_excluded in Hin.
  match goal with E : ctx_requirements cx = _ |- _ => rewrite E, Htools in Hin end.
  apply bs_contains_In. by destruct (bs_contains tool tools).
Qed.

(** No accepted program decodes into a nonforgeable capability: the target of every
    [decode] node of the body and of every function is free of nonforgeable types. *)
Theorem decode_targets_forgeable su root m e target v :
  analyze_module program_hash su root = Ok m →
  e ∈ body (ma_program m) :: map snd (ma_functions m) →
  ∀ n, n ∈ nodes e → hkind n = KDecode target v →
  contains_nonforgeable_type (types (ma_program m)) target = false.
Proof.
  intros (cx & Hm)%analyze_module_ok He n Hn Hk. unfold module_ok in Hm. open_hyps.
  match goal with E : ctx_definitions cx = _ |- _ => rewrite <- E end.
  assert (∃ top, somewhere (typed cx top) n) as (top & s & s' & Ht).
  2: { destruct n as [k t ef sp]. simpl in Hk. subst. simpl in Ht. by open_hyps. }
  apply elem_of_cons in He as [->|He].
  - match goal with Hr : root_typed _ _ _ |- _ => rename Hr into Hroot end.
    destruct (owner _); simpl in Hroot; open_hyps; [by eapply typed_nodes|].
    match goal with E : body _ = _ |- _ => rewrite E in Hn end.
    apply elem_of_nodes in Hn as [->|(c & Hc & Hn)]; [done|].
    unfold children in Hc. simpl in Hc. apply list_elem_of_singleton in Hc as ->.
    by eapply typed_nodes.
  - match goal with Hf : Forall _ (ma_functions m) |- _ => rewrite Forall_forall in Hf; rename Hf into Hfs end.
    apply list_elem_of_fmap in He as (nb & -> & Hin). destruct (Hfs nb Hin) as (f & Hb & Hf).
    rewrite <- Hb in Hn.
    destruct Hf as (_ & _ & _ & s0 & s1 & _ & Ht). by eapply typed_nodes.
Qed.
End claims.

Definition sample_form : Expr := Eval vm_compute in hd (EList [] empty_span) (su_function_forms sample_setup).
Lemma sample_forms : su_function_forms sample_setup = [sample_form].
Proof. vm_compute. reflexivity. Qed.

(** The sample unit has one function, of type [String], that may only call [read]. *)
Lemma accepted_module_is_typed_witness :
  ∃ b, (s! "fetch", b) ∈ ma_functions sample_module ∧ assignable (hty b) TString ∧ heffects b ⊆ [ETool s! "read"].
Proof.
  destruct (@accepted_module_is_typed ascii_classes sample_profile (λ _, []) sample_setup
              sample_root sample_module sample_module_ok) as (_ & (ds & _ & _ & Hfs & _) & _).
  assert (Hin : sample_form ∈ su_function_forms sample_setup) by (rewrite sample_forms; left).
  destruct (Hfs sample_form Hin) as (d & b & Hd & Hb & Ht & He & _).
  vm_compute in Hd. injection Hd as <-. exists b. split; [exact Hb|]. split; [exact Ht|exact He].
Defined.

Lemma program_effects_exact_witness :
  let p := ma_program sample_module in
  ETool s! "read" ∈ effects p ↔ ∃ n, n ∈ effect_nodes p ∧ ETool s! "read" ∈ performs n.
Proof.
  exact (@program_effects_exact ascii_classes sample_profile (λ _, []) sample_setup
           sample_root sample_module (ETool s! "read") sample_module_ok).
Defined.

Lemma program_within_bounds_witness :
  let p := ma_program sample_module in
  (∀ tools tool, req_tools (requirements p) = Some tools → ETool tool ∈ effects p → tool ∈ tools) ∧
  (∀ es, req_effects (requirements p) = Some es → effects p ⊆ es) ∧
  (N.min (len (nodes (body p))) usize_max <= max_hir_nodes (su_limits sample_setup))%N.
Proof.
  exact (@program_within_bounds ascii_classes sample_profile (λ _, []) sample_setup
           sample_root sample_module sample_module_ok).
Defined.

Lemma decode_targets_forgeable_witness :
  ∃ n v, n ∈ nodes (body (ma_program sample_module)) ∧ hkind n = KDecode (TNamed s! "Note") v ∧
    contains_nonforgeable_type (types (ma_program sample_module)) (TNamed s! "Note") = false.
Proof.
  destruct (List.find (λ n, match hkind n with KDecode _ _ => true | _ => false end)
              (nodes (body (ma_program sample_module)))) as [n|] eqn:Hn.
  2: { vm_compute in Hn. discriminate. }
  pose proof (find_some _ _ Hn) as [Hin%list_elem_of_In Hk].
  assert (∃ v, hkind n = KDecode (TNamed s! "Note") v) as [v Hv].
  { clear Hin Hk. vm_compute in Hn. injection Hn as <-. eexists. vm_compute. reflexivity. }
  exists n, v. split; [exact Hin|split; [exact Hv|]].
  refine (@decode_targets_forgeable ascii_classes sample_profile (λ _, []) sample_setup sample_root
           sample_module (body (ma_program sample_module)) _ v sample_module_ok _ n Hin Hv).
  by left.
Defined.
