(* ===== verification/ValueFacts.v ===== *)
(** * Typed values

    What the evaluator needs of values: a value of a type is a value of every type
    above it, conversion at the JSON boundary keeps numbers at their width and
    objects sorted, and the constructors of the evaluator build values of their types. *)

From stdpp Require Import base list gmap strings.
From Stdlib Require Import ZArith Lia SpecFloat.
From S2P Require Import Prelude Types JsonValue Diagnostic Syntax SyntaxFacts Canonical Hir Decode DecodeFacts JsonBoundary JsonBoundaryFacts JsonRoundTrip.

(** ** Subsumption *)

Lemma vty_subsume defs a t v : assignable a t → vty defs a v → vty defs t v.
Proof.
  revert a v. induction t as [| | | | | | |t IH|t IH|fs IH|t IH|a b IHa IHb| | | | |o es IH|n]
    using ty_nested_ind; intros a' v Ha Hv; inversion Ha; subst; try done; try (by constructor).
  - inversion Hv as [| | |? z Hz| | | | | | | | | | | | | | | | |]; subst.
    destruct v; try done. constructor.
  - inversion Hv; subst. constructor. eapply Forall_impl; [eassumption|]. eauto.
  - inversion Hv; subst. constructor. eapply Forall_impl; [eassumption|]. eauto.
  - inversion Hv as [| | | | | | | | |fs' ? m Hs Hread Hall| | | | | | | | | | |]; subst.
    eapply V_structural; [done..|]. rewrite Forall_forall in *. intros nt Hnt.
    match goal with HF : ∀ x, x ∈ fs → ∃ _, _ |- _ => destruct (HF nt Hnt) as (lt & Hget & Hlt) end.
    apply bm_get_elem, Hall in Hget as (w & Hw & Hvw). simpl in *. eauto.
  - inversion Hv; subst; [eapply V_none|eapply V_some]; eauto.
  - inversion Hv; subst; [eapply V_ok|eapply V_err]; eauto.
  - inversion Hv; subst. eapply V_program; eauto.
Qed.

(** ** Conversion keeps values well formed *)

Lemma bm_insert_Forall_snd {V} (P : V → Prop) k v (m : list (str * V)) :
  P v → Forall (λ kv, P kv.2) m → Forall (λ kv, P kv.2) (bm_insert k v m).
Proof. intros. by apply bm_insert_Forall. Qed.

Lemma bm_of_list_Forall {V} (P : V → Prop) (l : list (str * V)) :
  Forall (λ kv, P kv.2) l → Forall (λ kv, P kv.2) (bm_of_list l).
Proof. rewrite !Forall_forall. intros Hl kv Hkv%bm_of_list_elem. auto. Qed.

Lemma bm_remove_Forall {V} (P : V → Prop) k (m : list (str * V)) :
  Forall (λ kv, P kv.2) m → Forall (λ kv, P kv.2) (bm_remove k m).
Proof.
  unfold bm_remove. rewrite !Forall_forall. intros Hm kv Hkv. apply Hm.
  rewrite list_elem_of_In, filter_In, <- list_elem_of_In in Hkv. by destruct Hkv.
Qed.

Lemma json_wf_object m : bm_wf m → Forall (λ kv, json_wf kv.2) m → json_wf (JObject m).
Proof. by constructor. Qed.

Section transform_wf.
Context (defs : Definitions) (span : SourceSpan) (outward : bool).
Context (rec : Ty → Json → str → result Message Json)
  (Hrec : ∀ t v p w, json_wf v → rec t v p = Ok w → json_wf w).

Lemma transform_fields_wf fs v path w :
  json_wf v → transform_fields rec fs v path = Ok w → json_wf w.
Proof.
  intros Hv (m & l & -> & -> & _ & Hl & _)%transform_fields_Ok.
  apply json_wf_object; [apply bm_wf_of_list|]. apply bm_of_list_Forall.
  unfold converted in Hl. induction Hl as [|nt nw fs l (_ & x & Hx & Hr) _ IH]; constructor; [|done].
  eapply Hrec; [|exact Hr]. by eapply (json_wf_get nt.1 (JObject m)).
Qed.

Lemma jindex_wf k v : json_wf v → json_wf (jindex k v).
Proof.
  intros Hv. unfold jindex. destruct (jget k v) eqn:E; simpl; [|constructor].
  by eapply json_wf_get.
Qed.

Lemma take_wf m n path v m' : json_wf (JObject m) → take m n path = Ok (v, m') →
  json_wf v ∧ json_wf (JObject m').
Proof.
  intros Hm [Hg ->]%take_Ok. split; [by eapply (json_wf_get n (JObject m))|].
  inversion Hm; subst. apply json_wf_object; [by apply bm_wf_remove|].
  by apply bm_remove_Forall.
Qed.

Lemma tagged_entries_wf l : Forall (λ kv, json_wf kv.2) l → json_wf (JObject (bm_of_list l)).
Proof. intros Hl. apply json_wf_object; [apply bm_wf_of_list|by apply bm_of_list_Forall]. Qed.

Lemma named_parts_wf name d v path variant fv :
  json_wf v → named_parts defs span outward name d v path = Ok (variant, fv) → json_wf fv.
Proof.
  unfold named_parts. intros Hv H. destruct outward.
  - res_inv. simplify_eq. by repeat apply jindex_wf.
  - destruct d; [by simplify_eq|]. res_inv; simplify_eq.
    apply object_Ok in Ha as ->. apply take_wf in Ha0 as [_ H1]; [|done].
    by apply take_wf in Ha2 as [? _].
Qed.

Lemma transform_named_wf name v path w :
  json_wf v → transform_named defs span outward rec name v path = Ok w → json_wf w.
Proof.
  unfold transform_named. intros Hv H. res_inv.
  apply named_parts_wf in Ha0; [|done]. apply transform_fields_wf in Ha2; [|done].
  destruct outward, a0l; try done; first [apply tagged_wf|apply jobj_wf]; repeat (constructor; simpl; try done).
Qed.

Lemma structural_record_field_wf v n w :
  json_wf v → structural_record_field v n = Some w → json_wf w.
Proof.
  unfold structural_record_field. intros Hv.
  destruct (yao_object v) as [tag|] eqn:Et; simpl; [|done]. case_match; [|done].
  destruct (bm_get s! "fields" tag) as [fv|] eqn:Ef; simpl; [|done].
  pose proof (tag_get_wf _ _ _ _ Hv Et Ef) as Hfv. destruct fv; simpl; try done.
  destruct (List.find _ _) as [e|] eqn:He; simpl; [|done]. intros Hw.
  apply find_some in He as [He _]. inversion Hfv as [| | | |? Hl|]; subst.
  rewrite Forall_forall in Hl. eapply json_wf_get; [|exact Hw]. apply Hl. by apply list_elem_of_In.
Qed.

Lemma transform_structural_wf fs v path w :
  json_wf v → transform_structural defs span outward rec fs v path = Ok w → json_wf w.
Proof.
  unfold transform_structural. intros Hv H. res_inv.
  assert (json_wf a) as Hwf.
  { destruct outward; [|by simplify_eq]. res_inv. apply tagged_entries_wf.
    apply Forall_map, Forall_forall. intros nt _. simpl.
    destruct (structural_record_field v nt.1) eqn:E; simpl; [|constructor].
    by eapply structural_record_field_wf. }
  pose proof (transform_fields_wf _ _ _ _ Hwf Ha0) as Hout. destruct outward; [done|].
  apply structural_record_value_wf. destruct a0; simpl; try constructor.
  by inversion Hout.
Qed.

Lemma tagged_envelope_wf t v path m :
  json_wf v → tagged_envelope defs span outward t v path = Ok m → json_wf (JObject m).
Proof.
  unfold tagged_envelope. intros Hv H. destruct outward; [|by apply object_Ok in H as ->].
  res_inv. apply object_Ok in Ha0.
  assert (json_wf (JObject a0)) as Hm by (rewrite <- Ha0; by apply jindex_wf).
  inversion Hm; subst. apply take_wf in Ha1 as [Hc Hr].
  - inversion Hr; subst. apply json_wf_object; [by apply bm_wf_insert|by apply bm_insert_Forall].
  - apply json_wf_object; [by apply bm_wf_remove|by apply bm_remove_Forall].
Qed.

Lemma transform_tagged_wf t v path w :
  json_wf v → transform_tagged defs span outward rec t v path = Ok w → json_wf w.
Proof.
  unfold transform_tagged. intros Hv H. res_inv.
  apply tagged_envelope_wf in Ha; [|done]. apply take_wf in Ha0 as [_ Hrest]; [|done].
  assert (bm_wf a2l ∧ Forall (λ kv, json_wf kv.2) a2l) as [H1 H2].
  { clear -Hrec Ha3 Hrest. revert Ha3. generalize (if outward then s! "case" else s! "variant").
    generalize (s! "value"). intros vk key Ha3.
    destruct a1 as [inner|]; res_inv; simplify_eq; [|split; repeat constructor].
    match goal with Ht : take _ _ _ = _ |- _ => apply take_wf in Ht as [Hp _]; [|done] end.
    match goal with Hr : rec _ _ _ = Ok ?y |- _ => apply Hrec in Hr; [|done];
      split; [apply (bm_wf_insert vk y [(key, JString a0)])
             |apply (bm_insert_Forall_snd json_wf vk y [(key, JString a0)])] end;
      repeat constructor; done. }
  destruct outward; [by apply json_wf_object|].
  apply json_wf_object; [repeat constructor|]. constructor; [|constructor]. simpl.
  apply json_wf_object; [by apply bm_wf_insert|apply bm_insert_Forall; repeat constructor; done].
Qed.

Lemma transform_step_wf t v path w :
  json_wf v → transform_step defs span outward rec t v path = Ok w → json_wf w.
Proof.
  intros Hv H. destruct (leaf_ty t) eqn:Hleaf.
  - assert (v = w) as ->; [|done]. destruct t; try discriminate Hleaf; simpl in H; try congruence;
      apply map_err_Ok, decode_leaf_sound in H as [-> _]; done.
  - destruct t; try discriminate Hleaf; simpl in H.
    + destruct v; try done. res_inv. apply transform_elements_inv in Ha.
      constructor. inversion Hv as [| | | |? Hl|]; subst. clear -Ha Hl Hrec.
      induction Ha as [|x y l l' [p Hxy] _ IH]; inversion Hl; subst; constructor; eauto.
    + res_inv. apply object_Ok in Ha as ->. apply tagged_entries_wf.
      inversion Hv as [| | | | |? _ Hm]; subst. clear -Ha0 Hm Hrec. revert a0 Ha0.
      induction a as [|[k x] m IH]; intros l Hl; simpl in Hl; res_inv; [constructor|].
      inversion Hm; subst. constructor; [|by apply IH]. simpl in *. eauto.
    + by eapply transform_structural_wf.
    + by eapply transform_tagged_wf.
    + by eapply transform_tagged_wf.
    + by eapply transform_named_wf.
Qed.
End transform_wf.

Lemma transform_fuel_wf defs span outward n t v path w :
  json_wf v → transform_fuel defs span outward n t v path = Ok w → json_wf w.
Proof.
  revert t v path w. induction n as [|n IH]; intros t v path w Hv H; [done|].
  by eapply transform_step_wf.
Qed.

Lemma convert_wf defs span outward t v w :
  json_wf v → convert defs span outward t v = Ok w → json_wf w.
Proof. unfold convert. intros Hv H. res_inv. by eapply transform_fuel_wf. Qed.

(** ** Floating-point values *)

Lemma shr_1_nonneg r : (0 <= shr_m r)%Z → (0 <= shr_m (shr_1 r))%Z.
Proof. destruct r as [[|[p|p|]|[p|p|]] b c]; simpl; lia. Qed.

Lemma iter_shr_nonneg p r : (0 <= shr_m r)%Z → (0 <= shr_m (iter_pos shr_1 p r))%Z.
Proof. revert r. induction p; intros r Hr; simpl; auto using shr_1_nonneg. Qed.

Lemma shr_nonneg r e n : (0 <= shr_m r)%Z → (0 <= shr_m (shr r e n).1)%Z.
Proof. destruct n; simpl; auto using iter_shr_nonneg. Qed.

Lemma shr_fexp_nonneg prec emax m e l : (0 <= m)%Z → (0 <= shr_m (shr_fexp prec emax m e l).1)%Z.
Proof. intros Hm. apply shr_nonneg. by destruct l as [|[]]. Qed.

Lemma round_nearest_even_nonneg m l : (0 <= m)%Z → (0 <= round_nearest_even m l)%Z.
Proof. destruct l as [|[]]; simpl; try lia. by destruct (Z.even m); lia. Qed.

(** Rounding a finite value never makes a NaN. *)
Lemma binary_round_aux_number prec emax s m e l :
  (0 <= m)%Z → binary_round_aux prec emax s m e l ≠ S754_nan.
Proof.
  intros Hm. unfold binary_round_aux.
  pose proof (shr_fexp_nonneg prec emax m e l Hm) as H1.
  destruct (shr_fexp prec emax m e l) as [r1 e1]. simpl in H1.
  pose proof (shr_fexp_nonneg prec emax _ e1 loc_Exact
    (round_nearest_even_nonneg _ (loc_of_shr_record r1) H1)) as H2.
  destruct (shr_fexp _ _ _ e1 _) as [r2 e2]. simpl in H2.
  destruct (shr_m r2); [done| |lia]. by destruct (_ <=? _)%Z.
Qed.

Lemma f64_of_Z_number z : f64_of_Z z ≠ S754_nan.
Proof.
  unfold f64_of_Z, binary_normalize. destruct z; [done| |]; unfold binary_round;
    destruct (shl_align _ _ _); by apply binary_round_aux_number.
Qed.

Lemma number_as_f64_number n : number_wf n = true → number_as_f64 n ≠ S754_nan.
Proof. destruct n as [z|z|f]; simpl; try (intros; apply f64_of_Z_number). by destruct f. Qed.

Lemma SFcompare_number a b : a ≠ S754_nan → b ≠ S754_nan → is_Some (SFcompare a b).
Proof. destruct a, b; simpl; eauto; done. Qed.
