(* ===== verification/EvalSound.v ===== *)
(** * Well-typed pure expressions evaluate

    Type soundness of [evaluate_pure] against the type system of [Typing]: a typed
    expression without effects, in an environment of the types of its scope, evaluates
    to a value of its type and leaves an environment of the scope it leaves, or
    fails at a node whose operation is partial by nature ([blame]): arithmetic
    overflow, division by zero, a result that is not finite, a missing key of a
    map, a rejected decode or boundary conversion.  None of the evaluator's internal
    failures ("unavailable at runtime", "non-Bool", "no match case", ...) occurs.

    The expressions excluded by [tame_node] are exactly those where the evaluator
    departs from the types; each exclusion is one of the findings of the manifest. *)

From stdpp Require Import base list gmap strings.
From Stdlib Require Import ZArith Lia SpecFloat.
From S2P Require Import Prelude Types JsonValue Diagnostic Syntax SyntaxFacts Canonical Hir Decode DecodeFacts JsonBoundary JsonBoundaryFacts JsonRoundTrip ValueFacts Eval Declarations Analyzer DeclarationFacts Typing ProgramSound.

(** ** Definitions *)

Definition is_bind (n : HirExpr) : bool := match hkind n with KBind _ _ => true | _ => false end.
Definition is_bind_of (x : str) (n : HirExpr) : bool :=
  match hkind n with KBind y _ => x =s y | _ => false end.

(** No [bind] inside. *)
Definition bind_free (e : HirExpr) : bool := negb (existsb is_bind (nodes e)).

(** A transaction source that its view accepts. *)
Definition readable_transaction (source : str) : bool :=
  match parse_one source parse_limits_default with
  | Ok e =>
      match as_list e with
      | Some items => head_is items s! "context-tx" && (canonical_source e =s source)
      | None => false
      end
  | Err _ => false
  end.

(** What the evaluator treats as the types say: a division is typed [Float], the
    operands a connective may skip bind nothing, a [bind] value does not bind its own
    name, the clauses evaluated out of their written order bind nothing, and a
    candidate has a kind its view accepts. *)
Definition tame_node (n : HirExpr) : bool :=
  match hkind n with
  | KPure OpDivide _ => negb (ty_eqb (hty n) TInt)
  | KPure (OpAnd | OpOr) operands => forallb bind_free (tail operands)
  | KBind x v => negb (existsb (is_bind_of x) (nodes v))
  | KEvidenceCandidate k v refs =>
      match hkind k with KLiteral (LString (_ :: _)) => true | _ => false end
      && forallb bind_free (v :: refs)
  | KOutcomeCandidate _ v evidence => forallb bind_free (v :: evidence)
  | KContextTransaction _ source => readable_transaction source
  | _ => true
  end.
Definition tame (e : HirExpr) : bool := forallb tame_node (nodes e).

Section blame.
Context (defs : Definitions).

(** The failures a typed program can have, and the node each is blamed on. *)
Inductive blame (n : HirExpr) : EvalFailure → Prop :=
| B_float source :
    hkind n = KLiteral (LFloat source) →
    blame n (mkFailure (Msg "Float literal is not finite" []) (hspan n))
| B_overflow op operands :
    hkind n = KPure op operands →
    blame n (mkFailure (Msg "integer arithmetic overflow" []) (hspan n))
| B_zero operands :
    hkind n = KPure OpDivide operands →
    blame n (mkFailure (Msg "division by zero" []) (hspan n))
| B_not_finite op operands :
    hkind n = KPure op operands →
    blame n (mkFailure (Msg "floating-point result is not finite" []) (hspan n))
| B_key v field t :
    hkind n = KGet v field → hty v = TMap t →
    blame n (mkFailure (Msg "value has no field '{field}'" [AStr field]) (hspan n))
| B_decode target v w f :
    hkind n = KDecode target v → decode_value defs (hspan n) target w = Err f → blame n f
| B_from_json target v w f :
    hkind n = KFromJson target v → from_json target w defs (hspan n) = Err f → blame n f
| B_to_json v w f :
    hkind n = KToJson v → to_json (hty v) w defs (hspan n) = Err f → blame n f.

Definition blamed (e : HirExpr) (f : EvalFailure) : Prop := ∃ n, n ∈ nodes e ∧ blame n f.

Lemma blamed_here e f : blame e f → blamed e f.
Proof. intros Hb. exists e. split; [|done]. apply elem_of_nodes. by left. Qed.

Lemma blamed_child c e f : c ∈ children e → blamed c f → blamed e f.
Proof. intros Hc (n & Hn & Hb). exists n. split; [|done]. apply elem_of_nodes. eauto. Qed.

(** A value in an environment, at the type of its binding. *)
Definition has_type (t : Ty) (v : Json) : Prop := json_wf v ∧ vty defs t v.

(** The environment binds the names of the scope, at their types, and no others. *)
Definition env_typed (s : Scope) (env : Env) : Prop :=
  ∀ n, option_Forall2 has_type (bindings s !! n) (env !! n).

(** The outcome promised of an expression. *)
Definition good (e : HirExpr) (s' : Scope) (r : result EvalFailure (Json * Env)) : Prop :=
  match r with
  | Ok (v, env') => has_type (hty e) v ∧ env_typed s' env'
  | Err f => blamed e f
  end.
End blame.

(** ** Scopes *)

Section scopes.
Context `{CharClass} `{AnalysisProfile} (cx : Ctx).

Definition binds (e : HirExpr) (x : str) : Prop := ∃ n, n ∈ nodes e ∧ is_bind_of x n = true.

(** Every name the expression adds to the scope is bound by a [bind] inside it. *)
Definition grows (R : str → Prop) (s s' : Scope) : Prop :=
  bindings s ⊆ bindings s' ∧ allow_implicit_bindings s' = allow_implicit_bindings s ∧
  ∀ x, is_Some (bindings s' !! x) → is_Some (bindings s !! x) ∨ R x.

Lemma grows_refl R s : grows R s s.
Proof. split_and!; auto. Qed.

Lemma grows_trans R s1 s2 s3 : grows R s1 s2 → grows R s2 s3 → grows R s1 s3.
Proof.
  intros (H1 & H2 & H3) (H4 & H5 & H6). split_and!; [by etrans|congruence|].
  intros x [Hx|?]%H6; auto.
Qed.

Lemma grows_impl (R R' : str → Prop) s s' : (∀ x, R x → R' x) → grows R s s' → grows R' s s'.
Proof. intros HR (? & ? & H3). split_and!; [done..|]. intros x [?|?]%H3; auto. Qed.

Lemma grows_seq R T l s s' :
  (∀ e, e ∈ l → ∀ a b, T e a b → grows R a b) → seq_typed T l s s' → grows R s s'.
Proof.
  revert s. induction l as [|e l IH]; intros s HT; simpl; [intros ->; apply grows_refl|].
  intros (s1 & He & Hl). eapply grows_trans; [by eapply HT; [left|]|].
  apply IH; [|done]. intros. eapply HT; [by right|done].
Qed.

Lemma grows_entries R T l s s' :
  (∀ e, e ∈ map snd l → ∀ a b, T e a b → grows R a b) → entries_typed T l s s' → grows R s s'.
Proof.
  revert s. induction l as [|[n e] l IH]; intros s HT; simpl; [intros ->; apply grows_refl|].
  intros (s1 & He & Hl). eapply grows_trans; [by eapply HT; [left|]|].
  apply IH; [|done]. intros. eapply HT; [by right|done].
Qed.

Lemma grows_arguments R T l s s' :
  (∀ e, e ∈ concat (map na_values l) → ∀ a b, T e a b → grows R a b) →
  arguments_typed T l s s' → grows R s s'.
Proof.
  revert s. induction l as [|[n vs sp] l IH]; intros s HT; simpl; [intros ->; apply grows_refl|].
  intros (s1 & He & Hl). simpl in HT. eapply grows_trans.
  - eapply grows_seq; [|exact He]. intros. eapply HT; [|done]. set_solver.
  - apply IH; [|done]. intros. eapply HT; [|done]. set_solver.
Qed.

Lemma grows_linked R path s s' :
  linked s path s' → Forall (λ p, grows R p.1 p.2) path → grows R s s'.
Proof.
  revert s. induction path as [|[a b] path IH]; intros s; simpl; [intros -> _; apply grows_refl|].
  intros [-> Hl] Hp. inversion Hp; subst. eapply grows_trans; eauto.
Qed.

Lemma binds_child c e x : c ∈ children e → binds c x → binds e x.
Proof. intros Hc (n & Hn & Hb). exists n. split; [|done]. apply elem_of_nodes. eauto. Qed.

Lemma tame_child c e : c ∈ children e → tame e = true → tame c = true.
Proof.
  unfold tame. rewrite !forallb_forall. intros Hc Ht n Hn%list_elem_of_In. apply Ht.
  apply list_elem_of_In, elem_of_nodes. eauto.
Qed.

Lemma tame_here e : tame e = true → tame_node e = true.
Proof.
  unfold tame. rewrite forallb_forall. intros Ht. apply Ht, list_elem_of_In, elem_of_nodes. by left.
Qed.

(** The name of a tame [bind] is still free when its value has been analyzed. *)
Lemma tame_bind_free top x v t ef sp s s1 :
  tame_node (Hir (KBind x v) t ef sp) = true → grows (binds v) s s1 →
  bindings s !! x = None → typed cx top v s s1 → bindings s1 !! x = None.
Proof.
  intros Ht (_ & _ & Hg) Hx _. apply eq_None_not_Some. intros Hs%Hg.
  destruct Hs as [[? Hs]|(n & Hn & Hb)]; [congruence|].
  unfold tame_node in Ht. simpl in Ht. apply negb_true_iff in Ht.
  assert (existsb (is_bind_of x) (nodes v) = true) as Hex; [|congruence].
  apply existsb_exists. exists n. by rewrite <- list_elem_of_In.
Qed.

Lemma typed_grows top e s s' : typed cx top e s s' → tame e = true → grows (binds e) s s'.
Proof.
  revert top s s'. induction e as [e IH] using hir_ind. intros top s s' Ht Htame.
  assert (∀ c, c ∈ children e → ∀ a b, typed cx top c a b → grows (binds e) a b) as Hc.
  { intros c Hc a b Hab. eapply grows_impl; [|eapply IH; [done|exact Hab|by eapply tame_child]].
    intros x. by apply binds_child. }
  pose proof (tame_here _ Htame) as Hnode.
  destruct e as [k t ef sp]. destruct k; simpl in Ht; unfold children in Hc; simpl in Hc; open_hyps;
    subst; try apply grows_refl;
    try (eapply Hc; [|eassumption]; set_solver);
    try (by eapply grows_seq); try (by eapply grows_entries); try (by eapply grows_arguments).
  - eapply grows_linked; [eassumption|].
    match goal with HP : _ ≡ₚ _ |- _ => rewrite HP end.
    repeat (apply Forall_cons_2 || apply Forall_nil_2);
      [eapply Hc; [|eassumption]; set_solver..|eapply grows_seq; [|eassumption]].
    intros e He. apply Hc. set_solver.
  - eapply grows_linked; [eassumption|].
    match goal with HP : _ ≡ₚ _ |- _ => rewrite HP end.
    repeat (apply Forall_cons_2 || apply Forall_nil_2);
      [eapply Hc; [|eassumption]; set_solver..|eapply grows_seq; [|eassumption]].
    intros e He. apply Hc. set_solver.
  - match goal with Hv : typed cx top value s _ |- _ => rename Hv into Hvalue end.
    assert (bindings x !! name = None) as Hfree.
    { eapply tame_bind_free; [exact Hnode| |done|exact Hvalue].
      eapply IH; [by left|exact Hvalue|]. eapply tame_child; [|exact Htame]. by left. }
    eapply grows_trans; [eapply Hc; [|exact Hvalue]; set_solver|].
    split_and!; simpl; [by apply insert_subseteq|done|].
    intros y Hy. destruct (decide (name = y)) as [->|Hne].
    + right. eexists. split; [apply elem_of_nodes; by left|]. by apply str_eqb_eq.
    + left. by rewrite lookup_insert_ne in Hy.
  - eapply grows_arguments; [|eassumption]. intros c Hc'. apply Hc. set_solver.
Qed.

(** An expression without [bind] leaves its scope. *)
Lemma bind_free_typed top e s s' :
  typed cx top e s s' → tame e = true → bind_free e = true → s' = s.
Proof.
  intros Ht Htame Hfree. destruct (typed_grows _ _ _ _ Ht Htame) as (Hsub & Himp & Hg).
  assert (∀ x, ¬ binds e x) as Hno.
  { intros x (n & Hn & Hb). unfold bind_free in Hfree. apply negb_true_iff in Hfree.
    assert (existsb is_bind (nodes e) = true) as Hex; [|congruence].
    apply existsb_exists. exists n. split; [by apply list_elem_of_In|].
    unfold is_bind_of in Hb. unfold is_bind. by destruct (hkind n). }
  destruct s as [b a], s' as [b' a']. simpl in *. subst a'. f_equal.
  apply map_eq. intros x. destruct (b' !! x) as [t|] eqn:Hx.
  - destruct (Hg x ltac:(by eexists)) as [[u Hu]|Hb]; [|by apply Hno in Hb].
    rewrite Hu. symmetry. rewrite <- Hx. symmetry. by eapply lookup_weaken.
  - destruct (b !! x) as [t|] eqn:Hx'; [|done]. by rewrite (lookup_weaken _ _ _ _ Hx' Hsub) in Hx.
Qed.
End scopes.

(** ** Environments and loops *)

Lemma last_default {A} (x d : A) l :
  List.last l x = match l with [] => x | _ :: _ => List.last l d end.
Proof. destruct l as [|y l]; [done|]. revert y. induction l; intros; simpl in *; auto. Qed.

Lemma NoDup_map_inj {A B} (f : A → B) l x y :
  NoDup (map f l) → x ∈ l → y ∈ l → f x = f y → x = y.
Proof.
  induction l as [|z l IH]; simpl; [by intros _ ?%elem_of_nil|].
  intros Hnd. inversion Hnd as [|? ? Hz Hnd']; subst.
  rewrite !elem_of_cons. intros [->|Hx] [->|Hy] Hf; [done| | |auto].
  - destruct Hz. rewrite Hf. apply list_elem_of_fmap. eauto.
  - destruct Hz. rewrite <- Hf. apply list_elem_of_fmap. eauto.
Qed.

Section soundness.
Context `{CharClass} `{AnalysisProfile} (cx : Ctx) (rt : Ty).
(** The declarations of the program, and a host that offers [runtime] and nothing else
    implicitly, as the source's host does (morphz/src/sexpr_eval.rs, [implicit_binding]). *)
Context (Hdefs : definitions_ok (ctx_definitions cx))
  (Hhost : ∀ n, implicit_binding n = if n =s s! "runtime" then Some rt else None).
Local Abbreviation defs := (ctx_definitions cx).
Local Abbreviation eval := (evaluate_pure defs).
Local Abbreviation has_type := (has_type defs).
Local Abbreviation env_typed := (env_typed defs).

Definition host_scope (s : Scope) : Prop := bindings s !! s! "runtime" = Some rt.

Lemma host_lookup s n t : host_scope s → lookup_binding s n = Some t → bindings s !! n = Some t.
Proof.
  unfold lookup_binding, host_scope. intros Hs. destruct (bindings s !! n) eqn:E; [done|].
  destruct (allow_implicit_bindings s); [|done]. rewrite Hhost. case_match; [|done].
  rewrite str_eqb_eq in *. subst. congruence.
Qed.

Lemma env_lookup s env n t :
  env_typed s env → bindings s !! n = Some t → ∃ v, env !! n = Some v ∧ has_type t v.
Proof. intros He Hn. specialize (He n). rewrite Hn in He. inversion He; eauto. Qed.

Lemma env_fresh s env n : env_typed s env → bindings s !! n = None → env !! n = None.
Proof. intros He Hn. specialize (He n). rewrite Hn in He. by inversion He. Qed.

Lemma env_insert s env n t v :
  env_typed s env → has_type t v → env_typed (scope_insert n t s) (<[n := v]> env).
Proof.
  intros He Hv m. simpl. destruct (decide (n = m)) as [->|Hne].
  - rewrite !lookup_insert_eq. by constructor.
  - rewrite !lookup_insert_ne by done. apply He.
Qed.

(** What the induction provides of a sub-expression. *)
Definition safe (e : HirExpr) : Prop :=
  tame e = true ∧ ∀ top s s' env,
    typed cx top e s s' → host_scope s → env_typed s env → good defs e s' (eval e env).

Lemma safe_host e top s s' : safe e → typed cx top e s s' → host_scope s → host_scope s'.
Proof.
  intros [Ht _] Hty Hs. destruct (typed_grows cx _ _ _ _ Hty Ht) as (Hsub & _).
  by eapply lookup_weaken.
Qed.

(** Runs a safe sub-expression: on success its value and environment, on failure blame. *)
Lemma safe_run e top s s' env r :
  safe e → typed cx top e s s' → host_scope s → env_typed s env → eval e env = r →
  match r with
  | Ok (v, env') => has_type (hty e) v ∧ env_typed s' env' ∧ host_scope s'
  | Err f => blamed defs e f
  end.
Proof.
  intros Hsafe Ht Hs He <-. pose proof (safe_host _ _ _ _ Hsafe Ht Hs) as Hs'.
  destruct Hsafe as [_ Hsafe]. specialize (Hsafe _ _ _ _ Ht Hs He).
  unfold good in Hsafe. destruct (eval e env) as [[v env']|f]; [|done]. tauto.
Qed.

Definition blamed_in (l : list HirExpr) (f : EvalFailure) : Prop := ∃ c, c ∈ l ∧ blamed defs c f.

Lemma blamed_in_head e l f : blamed defs e f → blamed_in (e :: l) f.
Proof. exists e. split; [by left|done]. Qed.
Lemma blamed_in_tail e l f : blamed_in l f → blamed_in (e :: l) f.
Proof. intros (c & Hc & ?). exists c. split; [by right|done]. Qed.
Hint Resolve blamed_in_head blamed_in_tail : core.

Ltac run e H :=
  let r := fresh "r" in let E := fresh "E" in
  match goal with
  | |- context [evaluate_pure _ e ?env] =>
      destruct (evaluate_pure defs e env) as r eqn:E
  end.

Lemma eval_all_safe top l s s' env :
  Forall safe l → seq_typed (typed cx top) l s s' → host_scope s → env_typed s env →
  match eval_all eval l env with
  | Ok (vs, env') => Forall2 (λ e v, has_type (hty e) v) l vs ∧ env_typed s' env' ∧ host_scope s'
  | Err f => blamed_in l f
  end.
Proof.
  intros Hl. revert s env. induction Hl as [|e l He Hl IH]; intros s env; simpl.
  { intros -> Hs Henv. by split_and!. }
  intros (s1 & Ht & Hts) Hs Henv. pose proof (safe_run _ _ _ _ _ _ He Ht Hs Henv eq_refl) as Hr.
  destruct (eval e env) as [[v env1]|f]; simpl; [|auto]. destruct Hr as (Hv & Henv1 & Hs1).
  specialize (IH s1 env1 Hts Hs1 Henv1).
  destruct (eval_all eval l env1) as [[vs env2]|f]; simpl; [|auto].
  destruct IH as (Hvs & ? & ?). split_and!; [by constructor|done..].
Qed.

Lemma eval_entries_safe top l s s' env out :
  Forall safe (map snd l) → entries_typed (typed cx top) l s s' → host_scope s → env_typed s env →
  match eval_entries eval l env out with
  | Ok (m, env') =>
      ∃ kvs, Forall2 (λ ne kv, ne.1 = kv.1 ∧ has_type (hty ne.2) kv.2) l kvs ∧
             m = fold_left (λ m kv, bm_insert kv.1 kv.2 m) kvs out ∧
             env_typed s' env' ∧ host_scope s'
  | Err f => blamed_in (map snd l) f
  end.
Proof.
  revert s env out. induction l as [|[n e] l IH]; intros s env out Hl; simpl.
  { intros -> Hs Henv. exists []. by split_and!. }
  simpl in Hl. inversion Hl as [|? ? He Hl']; subst.
  intros (s1 & Ht & Hts) Hs Henv. pose proof (safe_run _ _ _ _ _ _ He Ht Hs Henv eq_refl) as Hr.
  destruct (eval e env) as [[v env1]|f]; simpl; [|auto]. destruct Hr as (Hv & Henv1 & Hs1).
  specialize (IH s1 env1 (bm_insert n v out) Hl' Hts Hs1 Henv1).
  destruct (eval_entries eval l env1 _) as [[m env2]|f]; simpl; [|auto].
  destruct IH as (kvs & Hk & -> & ? & ?). exists ((n, v) :: kvs).
  split_and!; [by constructor|done..].
Qed.

Lemma eval_steps_safe top l s s' env result t :
  Forall safe l → seq_typed (typed cx top) l s s' → host_scope s → env_typed s env →
  has_type t result →
  match eval_steps eval l result env with
  | Ok (v, env') => has_type (List.last (map hty l) t) v ∧ env_typed s' env'
  | Err f => blamed_in l f
  end.
Proof.
  intros Hl. revert s env result t. induction Hl as [|e l He Hl IH]; intros s env result t; simpl.
  { intros -> Hs Henv Hr. by split. }
  intros (s1 & Ht & Hts) Hs Henv _. pose proof (safe_run _ _ _ _ _ _ He Ht Hs Henv eq_refl) as Hr.
  destruct (eval e env) as [[v env1]|f]; simpl; [|auto]. destruct Hr as (Hv & Henv1 & Hs1).
  specialize (IH s1 env1 v (hty e) Hts Hs1 Henv1 Hv).
  destruct (eval_steps eval l v env1) as [[w env2]|f]; simpl; [|auto].
  by rewrite (last_default _ t) in IH.
Qed.

(** The operands a connective may skip do not change the scope. *)
Lemma eval_until_safe top stop expr l s s' env :
  Forall safe l → seq_typed (typed cx top) l s s' → host_scope s → env_typed s env →
  Forall (λ e, hty e = TBool) l → forallb bind_free l = true →
  match eval_until eval stop expr l env with
  | Ok (v, env') => has_type TBool v ∧ env_typed s' env'
  | Err f => blamed_in l f
  end.
Proof.
  intros Hl. revert s env. induction Hl as [|e l He Hl IH]; intros s env; simpl.
  { intros -> Hs Henv _ _. split; [split; constructor|done]. }
  intros (s1 & Ht & Hts) Hs Henv Hb [Hf Hfs]%andb_true_iff. inversion Hb as [|? ? Hbe Hbl]; subst.
  pose proof (safe_run _ _ _ _ _ _ He Ht Hs Henv eq_refl) as Hr.
  destruct (eval e env) as [[v env1]|f]; simpl; [|auto]. destruct Hr as ([Hw Hv] & Henv1 & Hs1).
  rewrite Hbe in Hv. inversion Hv; subst. simpl. destruct (Bool.eqb b stop).
  - split; [split; constructor|].
    assert (∀ l s s', seq_typed (typed cx top) l s s' → Forall safe l →
      forallb bind_free l = true → s' = s) as Hsame.
    { clear -Hl. induction l0 as [|x l0 IH]; intros a b; simpl; [done|].
      intros (c & Hx & Hr) Hsafe [Hxf Hrf]%andb_true_iff. inversion Hsafe as [|? ? [Htame _]]; subst.
      apply bind_free_typed in Hx as ->; [|done..]. by eapply IH. }
    by rewrite (Hsame _ _ _ Hts Hl Hfs).
  - specialize (IH s1 env1 Hts Hs1 Henv1 Hbl Hfs).
    destruct (eval_until eval stop expr l env1) as [[w env2]|f]; simpl; auto.
Qed.

Lemma eval_items_safe top x body t s s1 env items :
  safe body → typed cx top body (scope_insert x t s) s1 → host_scope (scope_insert x t s) →
  env_typed s env → Forall (has_type t) items →
  match eval_items eval x body env items with
  | Ok vs => Forall (has_type (hty body)) vs
  | Err f => blamed defs body f
  end.
Proof.
  intros Hb Ht Hs Henv Hi. induction Hi as [|item items Hitem Hi IH]; simpl; [constructor|].
  pose proof (safe_run _ _ _ _ _ _ Hb Ht Hs (env_insert _ _ _ _ _ Henv Hitem) eq_refl) as Hr.
  destruct (eval body (<[x:=item]> env)) as [[v env1]|f]; simpl; [|done]. destruct Hr as (Hv & _).
  destruct (eval_items eval x body env items) as [vs|f]; simpl; [|done]. by constructor.
Qed.

(** The environment of a selected case. *)
Lemma bind_case_fields_safe variant sp fs bs m s sc env :
  bindings_extend fs bs s sc → env_typed s env → host_scope s →
  Forall (λ d, ∃ w, bm_get (fname d) m = Some w ∧ has_type (fty d) w) fs →
  ∃ env', bind_case_fields variant sp bs m env = Ok env' ∧ env_typed sc env' ∧ host_scope sc.
Proof.
  intros Hbs Henv Hs Hfs. revert s env Hbs Henv Hs.
  induction bs as [|b bs IH]; intros s env; simpl; [intros -> ??; eauto|].
  intros (d & Hd & Hfree & Hext) Henv Hs. pose proof (find_some _ _ Hd) as [Hin Hname].
  apply str_eqb_eq in Hname. rewrite Forall_forall in Hfs.
  destruct (Hfs d ltac:(by apply list_elem_of_In)) as (w & Hw & Hty). rewrite <- Hname, Hw. simpl.
  eapply IH; [exact Hext|by apply env_insert|].
  unfold host_scope in *. simpl. rewrite lookup_insert_ne; [done|]. intros E. congruence.
Qed.

Lemma eval_cases_safe top v m expr cs vs s env d t :
  Forall safe (map mc_body cs) → cases_typed (typed cx top) vs cs s → host_scope s →
  env_typed s env →
  List.find (λ item, vname item =s v) vs = Some d → v ∈ map mc_variant cs →
  Forall (λ d, ∃ w, bm_get (fname d) m = Some w ∧ has_type (fty d) w) (vfields d) →
  Forall (λ c, assignable (hty (mc_body c)) t) cs →
  match eval_cases eval v m expr env cs with
  | Ok w => has_type t w
  | Err f => blamed_in (map mc_body cs) f
  end.
Proof.
  intros Hsafe Hc Hs Henv Hd Hin Hm Ht.
  induction cs as [|[v' bs e sp] cs IH]; simpl in *; [by apply elem_of_nil in Hin|].
  inversion Hsafe as [|? ? He Hsafe']; subst. inversion Ht as [|? ? Hte Ht']; subst.
  destruct Hc as [(d' & sc & s1 & Hfind & Hlen & _ & Hext & Hty) Hc].
  destruct (str_eqb_spec v' v) as [->|Hne].
  - rewrite Hd in Hfind. injection Hfind as <-.
    destruct (bind_case_fields_safe v sp _ _ m _ _ env Hext Henv Hs Hm)
      as (env' & -> & Henv' & Hsc). simpl.
    pose proof (safe_run _ _ _ _ _ _ He Hty Hsc Henv' eq_refl) as Hr.
    destruct (eval e env') as [[w env2]|f]; simpl; [|by apply blamed_in_head].
    destruct Hr as ([Hw Hvw] & _). split; [done|]. by eapply vty_subsume.
  - apply elem_of_cons in Hin as [->|Hin]; [done|].
    specialize (IH Hsafe' Hc Hin Ht'). case_match; [done|by apply blamed_in_tail].
Qed.

Lemma eval_branches_safe top bs s env :
  Forall safe (map pb_body bs) → branches_typed (typed cx top) bs s → host_scope s →
  env_typed s env →
  match eval_branches eval env bs with
  | Ok kvs => Forall2 (λ b kv, pb_name b = kv.1 ∧ has_type (hty (pb_body b)) kv.2) bs kvs
  | Err f => blamed_in (map pb_body bs) f
  end.
Proof.
  intros Hsafe Hb Hs Henv. induction bs as [|[n e sp] bs IH]; simpl in *; [constructor|].
  inversion Hsafe as [|? ? He Hsafe']; subst. destruct Hb as [[s1 Ht] Hb].
  pose proof (safe_run _ _ _ _ _ _ He Ht Hs Henv eq_refl) as Hr. unfold evaluate_branch.
  destruct (eval e env) as [[v env1]|f]; simpl; [|auto]. destruct Hr as (Hv & _).
  specialize (IH Hsafe' Hb). destruct (eval_branches eval env bs) as [kvs|f]; simpl; [|auto].
  by constructor.
Qed.

(** *** Linked functions *)

(** The values of named arguments: one per argument, at the type of its expression. *)
Definition argument_of (l : list NamedArgument) (n : str) (v : Json) : Prop :=
  ∃ a e, a ∈ l ∧ na_name a = n ∧ na_values a = [e] ∧ has_type (hty e) v.

Lemma eval_arguments_safe top f expr l s s' env values :
  Forall safe (argument_values l) → arguments_typed (typed cx top) l s s' →
  Forall (λ a, ∃ e, na_values a = [e]) l → NoDup (map na_name l) →
  host_scope s → env_typed s env →
  match eval_arguments eval f expr l values env with
  | Ok (values', env') =>
      (∀ a, a ∈ l → ∃ v, values' !! na_name a = Some v) ∧
      (∀ n v, values' !! n = Some v →
         (values !! n = Some v ∧ n ∉ map na_name l) ∨ argument_of l n v) ∧
      (∀ n, n ∉ map na_name l → values' !! n = values !! n) ∧
      env_typed s' env' ∧ host_scope s'
  | Err f => blamed_in (argument_values l) f
  end.
Proof.
  revert s env values. induction l as [|[n vs sp] l IH]; intros s env values; simpl.
  { intros _ -> _ _ Hs Henv. split_and!; try done; [by intros ? ?%elem_of_nil|].
    intros m v Hm. left. split; [done|]. by intros ?%elem_of_nil. }
  unfold argument_values. simpl. intros Hsafe (s1 & Hty & Htys) Hone Hnd Hs Henv.
  inversion Hone as [|? ? (e & He) Hone']; subst. simpl in He. subst vs. simpl in *.
  inversion Hsafe as [|? ? Hse Hsafe']; subst. inversion Hnd as [|? ? Hn Hnd']; subst.
  destruct Hty as (s2 & Hty & ->).
  pose proof (safe_run _ _ _ _ _ _ Hse Hty Hs Henv eq_refl) as Hr.
  destruct (eval e env) as [[v env1]|fl]; simpl; [|by apply blamed_in_head].
  destruct Hr as (Hv & Henv1 & Hs1).
  specialize (IH s2 env1 (<[n:=v]> values) Hsafe' Htys Hone' Hnd' Hs1 Henv1).
  destruct (eval_arguments eval f expr l _ env1) as [[values' env2]|fl]; simpl;
    [|by apply blamed_in_tail].
  destruct IH as (Hall & Hinv & Hother & ? & ?). split_and!; [| | |done..].
  - intros a [->|Ha]%elem_of_cons; [|auto]. simpl. rewrite Hother by done.
    rewrite lookup_insert_eq. eauto.
  - intros m w [[Hm Hnot]|(a & e' & Ha & ?)]%Hinv.
    + destruct (decide (n = m)) as [->|Hne].
      * rewrite lookup_insert_eq in Hm. injection Hm as ->. right.
        eexists _, e. split; [by left|]. by simpl.
      * rewrite lookup_insert_ne in Hm by done. left. split; [done|].
        intros [->|?]%elem_of_cons; done.
    + right. exists a, e'. split; [by right|done].
  - intros m Hm. rewrite Hother by (intros ?; apply Hm; by right).
    apply lookup_insert_ne. intros ->. apply Hm. by left.
Qed.

Lemma bind_parameters_fresh ps s s0 p :
  bind_parameters ps s = Ok s0 → p ∈ ps → bindings s !! p_name p = None.
Proof.
  revert s. induction ps as [|q ps IH]; intros s Hb; simpl in Hb; [by intros ?%elem_of_nil|].
  destruct (bindings s !! p_name q) eqn:Hq; [done|]. simpl in Hb.
  intros [->|Hp]%elem_of_cons; [done|]. pose proof (IH _ Hb Hp) as Hf. simpl in Hf.
  by apply lookup_insert_None in Hf as [? _].
Qed.

Lemma bind_parameters_NoDup ps s s0 : bind_parameters ps s = Ok s0 → NoDup (map p_name ps).
Proof.
  revert s. induction ps as [|p ps IH]; intros s Hb; simpl in *; [constructor|].
  destruct (bindings s !! p_name p) eqn:Hp; [done|]. simpl in Hb. constructor; [|by eapply IH].
  intros (q & Hq & Hin)%list_elem_of_fmap.
  pose proof (bind_parameters_fresh _ _ _ _ Hb Hin) as Hf. simpl in Hf.
  apply lookup_insert_None in Hf as [_ Hne]. done.
Qed.

Lemma link_parameters_safe f expr ps s s0 values local :
  bind_parameters ps s = Ok s0 → env_typed s local → host_scope s →
  (∀ p, p ∈ ps → ∃ v, values !! p_name p = Some v ∧ has_type (p_ty p) v) →
  ∃ rest local', link_parameters f expr (map p_name ps) values local = Ok (rest, local') ∧
    env_typed s0 local' ∧ host_scope s0 ∧
    ∀ n v, rest !! n = Some v → values !! n = Some v ∧ n ∉ map p_name ps.
Proof.
  revert s values local. induction ps as [|p ps IH]; intros s values local Hb Henv Hs Hv; simpl in *.
  { injection Hb as <-. eexists _, _. split_and!; [done..|]. intros n v Hn.
    split; [done|]. by intros ?%elem_of_nil. }
  destruct (bindings s !! p_name p) eqn:Hp; [done|]. simpl in Hb.
  pose proof (λ q, bind_parameters_fresh ps _ s0 q Hb) as Hfresh.
  destruct (Hv p ltac:(by left)) as (v & -> & Hty).
  edestruct (IH _ (delete (p_name p) values) (<[p_name p:=v]> local) Hb)
    as (rest & local' & Hlink & ? & ? & Hrest).
  - by apply env_insert.
  - unfold host_scope in *. simpl. rewrite lookup_insert_ne; [done|]. congruence.
  - intros q Hq. destruct (Hv q ltac:(by right)) as (w & Hw & Hwt). exists w. split; [|done].
    specialize (Hfresh q Hq). simpl in Hfresh.
    apply lookup_insert_None in Hfresh as [_ ?]. by rewrite lookup_delete_ne.
  - exists rest, local'. split_and!; [exact Hlink|done..|]. intros n w Hn.
    apply Hrest in Hn as [Hn Hnot]. apply lookup_delete_Some in Hn as [Hne Hn].
    split; [done|]. intros [->|?]%elem_of_cons; done.
Qed.

Lemma scope_new_host : host_scope scope_new.
Proof.
  unfold host_scope, scope_new. simpl. rewrite Hhost, str_eqb_refl. apply lookup_singleton_eq.
Qed.

Lemma scope_new_env v : has_type rt v → env_typed scope_new {[s! "runtime" := v]}.
Proof.
  intros Hv n. unfold scope_new. simpl. rewrite Hhost, str_eqb_refl.
  destruct (decide (s! "runtime" = n)) as [<-|Hne].
  - rewrite !lookup_singleton_eq. by constructor.
  - rewrite !lookup_singleton_ne by done. constructor.
Qed.

(** ** Values of the constructors *)

Lemma has_subsume a t v : assignable a t → has_type a v → has_type t v.
Proof. intros Ha [Hw Hv]. split; [done|]. by eapply vty_subsume. Qed.

Lemma has_list t vs : Forall (has_type t) vs → has_type (TList t) (JArray vs).
Proof.
  intros Hvs. split; constructor; (eapply Forall_impl; [exact Hvs|]); by intros v [??].
Qed.

Lemma has_map t (l : list (str * Json)) :
  Forall (λ kv, has_type t kv.2) l → has_type (TMap t) (JObject (bm_of_list l)).
Proof.
  intros Hl. split; constructor; try apply bm_wf_of_list; apply bm_of_list_Forall;
    (eapply Forall_impl; [exact Hl|]); by intros v [??].
Qed.

Lemma has_list_values t es vs :
  Forall2 (λ e v, has_type (hty e) v) es vs → Forall (below t) es → has_type (TList t) (JArray vs).
Proof.
  intros Hvs Ht. apply has_list. induction Hvs; inversion Ht; subst; constructor; [|auto].
  by eapply has_subsume.
Qed.

Lemma has_map_values t (es : list (str * HirExpr)) (kvs : list (str * Json)) :
  Forall2 (λ ne kv, ne.1 = kv.1 ∧ has_type (hty ne.2) kv.2) es kvs →
  Forall (below t) (map snd es) → has_type (TMap t) (JObject (bm_of_list kvs)).
Proof.
  intros Hvs Ht. apply has_map. induction Hvs as [|? ? ? ? [_ ?]]; simpl in *; inversion Ht; subst;
    constructor; [|auto]. by eapply has_subsume.
Qed.

Lemma tagged_json_wf l : Forall (λ kv, json_wf kv.2) l → json_wf (tagged l).
Proof. apply tagged_wf. Qed.

Lemma has_some t v :
  has_type t v →
  has_type (TOption t) (tagged [("kind", jstr "option"); ("variant", jstr "some"); ("value", v)]).
Proof.
  intros [Hw Hv]. split; [apply tagged_wf; repeat (constructor; simpl; try done)|].
  eapply V_some; try reflexivity. done.
Qed.

Lemma has_none t : has_type (TOption t) (tagged [("kind", jstr "option"); ("variant", jstr "none")]).
Proof. split; [apply tagged_wf; repeat constructor|]. eapply V_none; reflexivity. Qed.

Lemma has_ok a b v :
  has_type a v →
  has_type (TResult a b) (tagged [("kind", jstr "result"); ("variant", jstr "ok"); ("value", v)]).
Proof.
  intros [Hw Hv]. split; [apply tagged_wf; repeat (constructor; simpl; try done)|].
  eapply V_ok; try reflexivity. done.
Qed.

Lemma has_err a b v :
  has_type b v →
  has_type (TResult a b) (tagged [("kind", jstr "result"); ("variant", jstr "err"); ("value", v)]).
Proof.
  intros [Hw Hv]. split; [apply tagged_wf; repeat (constructor; simpl; try done)|].
  eapply V_err; try reflexivity. done.
Qed.

(** *** Nominal values *)

Lemma find_unique fs d : NoDup (map fname fs) → d ∈ fs →
  List.find (λ d', fname d' =s fname d) fs = Some d.
Proof.
  induction fs as [|f fs IH]; simpl; intros Hnd Hd; [by apply elem_of_nil in Hd|].
  inversion Hnd as [|? ? Hf Hnd']; subst. apply elem_of_cons in Hd as [->|Hd].
  - by rewrite str_eqb_refl.
  - destruct (str_eqb_spec (fname f) (fname d)) as [E|]; [|auto].
    destruct Hf. rewrite E. apply list_elem_of_fmap. eauto.
Qed.

(** The encoded fields of a constructor: exactly the declared ones, at their types. *)
Definition encoded_fields (fs : list FieldDefinition) (m : JsonMap) : Prop :=
  bm_wf m ∧ Forall (λ kv, json_wf kv.2) m ∧ length m = length fs ∧
  Forall (λ d, ∃ w, bm_get (fname d) m = Some w ∧ vty defs (fty d) w) fs.

Lemma constructor_fields fs fields (kvs : list (str * Json)) :
  fields_ok fs → fields_typed fs fields →
  Forall2 (λ ne kv, ne.1 = kv.1 ∧ has_type (hty ne.2) kv.2) fields kvs →
  encoded_fields fs (bm_of_list kvs).
Proof.
  intros [Hnames _] (Hlen & Hnd & Hall & Hbelow) Hvs.
  assert (kvs.*1 = fields.*1) as Hkeys.
  { clear -Hvs. induction Hvs as [|?? ?? [E _] _ IH]; [done|]. by rewrite !fmap_cons, E, IH. }
  assert (NoDup kvs.*1) as Hndk by (by rewrite Hkeys). split_and!; [apply bm_wf_of_list| | |].
  - apply bm_of_list_Forall. clear -Hvs. induction Hvs as [|?? ?? [_ [? _]] _ IH]; by constructor.
  - rewrite (bm_of_list_perm _ Hndk), <- Hlen. symmetry. by eapply Forall2_length.
  - apply Forall_forall. intros d Hd. pose proof (Hall d Hd) as Hin.
    apply list_elem_of_fmap in Hin as (ne & Hn & Hne).
    apply list_elem_of_lookup in Hne as [i Hi].
    destruct (Forall2_lookup_l _ _ _ _ _ Hvs Hi) as (kv & Hkv & Hk & Hw & Hv).
    rewrite Forall_forall in Hbelow.
    destruct (Hbelow ne ltac:(by eapply list_elem_of_lookup_2)) as (d' & Hfind & Hb).
    rewrite <- Hn, (find_unique _ _ Hnames Hd) in Hfind. injection Hfind as <-.
    exists kv.2. split; [|by eapply vty_subsume].
    rewrite bm_get_of_list by done. apply bm_NoDup_get; [done|].
    rewrite Hn, Hk, <- surjective_pairing. by eapply list_elem_of_lookup_2.
Qed.

Lemma definition_fields_ok n d : bm_get n defs = Some d → definition_ok d.
Proof.
  intros Hd%bm_get_elem. destruct Hdefs as [_ Hall]. rewrite Forall_forall in Hall.
  by apply (Hall (n, d)).
Qed.

Lemma has_record n n' fs sp m :
  bm_get n defs = Some (DRecord n' fs sp) → encoded_fields fs m →
  has_type (TNamed n) (JObject [(YAO_TAG, JObject (bm_of_list
    [(s! "kind", jstr "record"); (s! "type", JString n); (s! "fields", JObject m)]))]).
Proof.
  intros Hd (Hw & Hm & Hlen & Hf). split.
  - apply json_wf_object; [repeat constructor|]. constructor; [|constructor]. simpl.
    apply tagged_entries_wf. repeat constructor; done.
  - eapply V_record; [exact Hd|reflexivity| |reflexivity|reflexivity|done|done].
    apply get_is_str. reflexivity.
Qed.

Lemma has_variant n n' vs sp v d m :
  bm_get n defs = Some (DUnion n' vs sp) → List.find (λ item, vname item =s v) vs = Some d →
  encoded_fields (vfields d) m →
  has_type (TNamed n) (JObject [(YAO_TAG, JObject (bm_insert s! "variant" (JString v) (bm_of_list
    [(s! "kind", jstr "variant"); (s! "type", JString n); (s! "fields", JObject m)])))]).
Proof.
  intros Hd Hv (Hw & Hm & Hlen & Hf). split.
  - apply json_wf_object; [repeat constructor|]. constructor; [|constructor]. simpl.
    apply json_wf_object; repeat constructor; done.
  - eapply V_variant; [exact Hd|reflexivity| |reflexivity|reflexivity|exact Hv|reflexivity|done|done].
    apply get_is_str. reflexivity.
Qed.

(** *** Candidates *)

Lemma reference_list rs :
  Forall (vty defs (TRef s! "Evidence")) rs →
  existsb (λ r, negb (is_reference_to s! "Evidence" r)) rs = false.
Proof.
  intros Hrs. apply not_true_iff_false. rewrite existsb_exists. intros (r & Hr & Hn).
  rewrite Forall_forall in Hrs. apply list_elem_of_In, Hrs in Hr. inversion Hr; subst.
  unfold is_reference_to in Hn. match goal with E : reference_view r = _ |- _ => rewrite E in Hn end.
  by rewrite str_eqb_refl in Hn.
Qed.

Lemma has_evidence k v rs :
  k ≠ [] → json_wf v → Forall (has_type (TRef s! "Evidence")) rs →
  has_type TEvidenceCandidate (tagged [("kind", jstr "evidence_candidate");
    ("evidence_kind", JString k); ("value", v); ("refs", JArray rs)]).
Proof.
  intros Hk Hv Hrs. assert (Forall json_wf rs) as Hw by (eapply Forall_impl; [exact Hrs|]; by intros ? []).
  split; [apply tagged_wf; repeat (constructor; simpl; try done)|].
  eapply V_evidence. unfold evidence_candidate_view.
  change (sealed_tag 4 _ _) with (Some (bm_of_list (map (λ kv, (lit kv.1, kv.2))
    [("kind", jstr "evidence_candidate"); ("evidence_kind", JString k); ("value", v);
     ("refs", JArray rs)]))). simpl.
  change (get_str "evidence_kind" _) with (Some k). simpl.
  rewrite bool_decide_eq_false_2 by done.
  change (bm_get s! "refs" _) with (Some (JArray rs)). simpl. rewrite reference_list; [reflexivity|].
  eapply Forall_impl; [exact Hrs|]. by intros ? [].
Qed.

Lemma has_outcome status v rs :
  outcome_status status = true → json_wf v → Forall (has_type (TRef s! "Evidence")) rs →
  has_type TOutcomeCandidate (tagged [("kind", jstr "outcome_candidate");
    ("status", JString status); ("value", v); ("evidence", JArray rs)]).
Proof.
  intros Hs Hv Hrs. assert (Forall json_wf rs) as Hw by (eapply Forall_impl; [exact Hrs|]; by intros ? []).
  split; [apply tagged_wf; repeat (constructor; simpl; try done)|].
  eapply V_outcome. unfold outcome_candidate_view.
  change (sealed_tag 4 _ _) with (Some (bm_of_list (map (λ kv, (lit kv.1, kv.2))
    [("kind", jstr "outcome_candidate"); ("status", JString status); ("value", v);
     ("evidence", JArray rs)]))). simpl.
  change (get_str "status" _) with (Some status). simpl. rewrite Hs.
  change (bm_get s! "evidence" _) with (Some (JArray rs)). simpl. rewrite reference_list; [reflexivity|].
  eapply Forall_impl; [exact Hrs|]. by intros ? [].
Qed.

Lemma has_transaction c source :
  has_type (TRef s! "Context") c → readable_transaction source = true →
  has_type TContextTransaction (tagged [("kind", jstr "context_transaction"); ("context", c);
    ("canonical_source", JString source)]).
Proof.
  intros [Hw Hc] Hr. split; [apply tagged_wf; repeat (constructor; simpl; try done)|].
  unfold readable_transaction in Hr. destruct (parse_one source _) as [e|] eqn:Hp; [|done].
  destruct (as_list e) as [items|] eqn:Hi; [|done]. apply andb_true_iff in Hr as [Hhd Hcs].
  eapply V_context. unfold context_transaction_view.
  change (sealed_tag 3 _ _) with (Some (bm_of_list (map (λ kv, (lit kv.1, kv.2))
    [("kind", jstr "context_transaction"); ("context", c); ("canonical_source", JString source)]))).
  simpl. change (bm_get s! "context" _) with (Some c). simpl.
  inversion Hc; subst. unfold is_reference_to.
  match goal with E : reference_view c = _ |- _ => rewrite E, str_eqb_refl end.
  change (get_str "canonical_source" _) with (Some source). simpl. rewrite Hp. simpl.
  rewrite Hi. simpl. unfold head_is, head_symbol in Hhd. rewrite Hhd, Hcs. reflexivity.
Qed.

(** ** Operators *)

Lemma has_bool b : has_type TBool (JBool b).
Proof. split; constructor. Qed.

Lemma has_int z : in_i64 z = true → has_type TInt (JNumber (number_of_i64 z)).
Proof.
  intros Hz. pose proof (number_of_i64_as_i64 z Hz) as Has.
  split; [|by eapply V_int]. constructor. unfold number_of_i64 in *. unfold in_i64 in Hz.
  apply andb_true_iff in Hz as [H1 H2]. apply Z.leb_le in H1, H2.
  unfold i64_min, i64_max in *. destruct (z <? 0)%Z eqn:E; simpl;
    apply andb_true_iff; rewrite !Z.leb_le || rewrite Z.leb_le, Z.ltb_lt;
    unfold i64_min, i64_max, u64_max; lia.
Qed.

Lemma has_number n : number_wf n = true → has_type TFloat (JNumber n).
Proof. intros Hn. split; by constructor. Qed.

(** A failure with one of the messages, at the expression. *)
Definition fails_with (e : HirExpr) (templates : list string) (f : EvalFailure) : Prop :=
  ∃ t, t ∈ templates ∧ f = mkFailure (Msg t []) (hspan e).

Lemma has_number_inv t v : has_type t v → t = TInt ∨ t = TFloat →
  ∃ n, v = JNumber n ∧ number_wf n = true.
Proof.
  intros [Hw Hv] [->| ->]; inversion Hv as [| | |? z Hz| | | | | | | | | | | | | | | | |]; subst.
  - destruct v; try done. inversion Hw; subst; eauto.
  - inversion Hw; subst; eauto.
Qed.

Lemma compare_safe op e v w :
  (has_type TFloat v ∧ has_type TFloat w) ∨ (has_type TString v ∧ has_type TString w) →
  match compare op [v; w] e with Ok r => has_type TBool r | Err _ => False end.
Proof.
  unfold compare, index. simpl. intros [[Hv Hw]|[[_ Hv] [_ Hw]]].
  - apply has_number_inv in Hv as (n & -> & Hn); [|by right].
    apply has_number_inv in Hw as (m & -> & Hm); [|by right]. simpl.
    destruct (SFcompare_number (number_as_f64 n) (number_as_f64 m)) as [o ->];
      [by apply number_as_f64_number..|]. apply has_bool.
  - inversion Hv; subst. inversion Hw; subst. simpl. apply has_bool.
Qed.

Lemma all_i64_ints vs : Forall (has_type TInt) vs → ∃ zs, all_i64 vs = Some zs ∧ length zs = length vs.
Proof.
  induction 1 as [|v vs [_ Hv] _ (zs & IH & Hlen)]; [by exists []|]. simpl.
  inversion Hv; subst. match goal with E : jas_i64 v = Some _ |- _ => rewrite E end. simpl.
  rewrite IH. simpl. eexists. split; [done|]. simpl. by rewrite Hlen.
Qed.

Lemma all_i64_length vs zs : all_i64 vs = Some zs → length zs = length vs.
Proof.
  revert zs. induction vs as [|v vs IH]; intros zs; simpl; [by intros [= <-]|].
  destruct (jas_i64 v); simpl; [|done]. destruct (all_i64 vs) eqn:E; simpl; [|done].
  intros [= <-]. simpl. by rewrite (IH _ eq_refl).
Qed.

Lemma try_fold_in_i64 f l init z :
  (∀ a b c, f a b = Some c → in_i64 c = true) → in_i64 init = true →
  try_fold f init l = Some z → in_i64 z = true.
Proof.
  intros Hf. unfold try_fold. revert init. induction l as [|x l IH]; intros init Hi; simpl.
  { by intros [= <-]. }
  destruct (f init x) as [c|] eqn:E; simpl; [by eapply IH, Hf|].
  assert (∀ l, fold_left (λ acc z, acc ≫= λ a, f a z) l None = None) as Hnone
    by (clear; induction l; simpl; auto).
  by rewrite Hnone.
Qed.

Lemma index_lt {A} e (l : list A) i : (i < length l)%nat → ∃ x, index e l i = Ok x.
Proof. intros Hi. unfold index. destruct (lookup_lt_is_Some_2 l i Hi) as [x ->]. eauto. Qed.

Definition binary (op : PureOperator) : bool :=
  match op with OpSubtract | OpDivide => true | _ => false end.

Lemma integer_result_safe op zs e :
  op = OpAdd ∨ op = OpSubtract ∨ op = OpMultiply → (binary op = true → length zs = 2%nat) →
  match integer_result op zs e with
  | Ok v => has_type TInt v
  | Err f => fails_with e ["integer arithmetic overflow"%string] f
  end.
Proof.
  intros Hop Hlen. unfold integer_result.
  assert (∃ r, match op with
               | OpAdd => Ok (try_fold checked_add 0 zs)
               | OpSubtract => a ← index e zs 0; b ← index e zs 1; Ok (checked_sub a b)
               | OpMultiply => Ok (try_fold checked_mul 1 zs)
               | _ => panicked e
               end = Ok r ∧ ∀ z, r = Some z → in_i64 z = true) as (r & -> & Hr).
  { destruct Hop as [->|[->| ->]]; simpl in Hlen.
    - eexists. split; [done|]. intros z. apply try_fold_in_i64; [|done].
      intros a b c. apply checked_Some.
    - specialize (Hlen eq_refl).
      destruct (index_lt e zs 0) as [a ->]; [lia|]. destruct (index_lt e zs 1) as [b ->]; [lia|].
      simpl. eexists. split; [done|]. intros z. apply checked_Some.
    - eexists. split; [done|]. intros z. apply try_fold_in_i64; [|done].
      intros a b c. apply checked_Some. }
  simpl. destruct r as [z|]; [by apply has_int, Hr|].
  eexists. split; [by left|reflexivity].
Qed.

Definition float_failures : list string :=
  ["division by zero"%string; "floating-point result is not finite"%string].

Lemma float_result_safe op ns e :
  op = OpAdd ∨ op = OpSubtract ∨ op = OpMultiply ∨ op = OpDivide →
  (binary op = true → length ns = 2%nat) →
  match float_result op ns e with
  | Ok v => has_type TFloat v
  | Err f => fails_with e (if op is OpDivide then float_failures else tail float_failures) f
  end.
Proof.
  intros Hop Hlen. unfold float_result.
  assert (∀ r, match (if negb (f64_is_finite r) then fail e "floating-point result is not finite" []
                      else match number_of_f64 r with
                           | Some n => Ok (JNumber n)
                           | None => fail e "floating-point result cannot be represented" []
                           end) with
               | Ok v => has_type TFloat v
               | Err f => fails_with e (tail float_failures) f
               end) as Hend.
  { intros r. unfold number_of_f64. destruct (f64_is_finite r) eqn:Hf; simpl.
    - by apply has_number.
    - eexists. split; [by left|reflexivity]. }
  destruct Hop as [->|[->|[->| ->]]]; simpl in Hlen |- *; try apply Hend; specialize (Hlen eq_refl).
  - destruct (index_lt e ns 0) as [a ->]; [lia|]. destruct (index_lt e ns 1) as [b ->]; [lia|].
    simpl. apply Hend.
  - destruct (index_lt e ns 1) as [b ->]; [lia|]. simpl. destruct (SFeqb b _); simpl.
    { eexists. split; [by left|reflexivity]. }
    destruct (index_lt e ns 0) as [a ->]; [lia|]. simpl. specialize (Hend (f64_div a b)).
    destruct (if negb _ then _ else _); [done|]. destruct Hend as (t & Ht & ->).
    exists t. split; [by right|done].
Qed.

Definition arithmetic (op : PureOperator) : Prop :=
  op = OpAdd ∨ op = OpSubtract ∨ op = OpMultiply ∨ op = OpDivide.

Lemma traverse_numbers e vs :
  Forall (λ v, ∃ n, v = JNumber n) vs →
  ∃ ns, traverse (λ v, match jas_f64 v with
                       | Some f => Ok f
                       | None => fail e "numeric operator received a non-number" []
                       end) vs = Ok ns ∧ length ns = length vs.
Proof.
  induction 1 as [|v vs (n & ->) _ (ns & IH & Hlen)]; [by exists []|]. simpl. rewrite IH. simpl.
  eexists. split; [done|]. simpl. by rewrite Hlen.
Qed.

(** The failures of arithmetic at an expression with the operator. *)
Lemma arithmetic_blame e op operands f ts :
  hkind e = KPure op operands → fails_with e ts f →
  (∀ t, t ∈ ts → t = "integer arithmetic overflow"%string ∨
     t = "floating-point result is not finite"%string ∨
     (op = OpDivide ∧ t = "division by zero"%string)) →
  blamed defs e f.
Proof.
  intros Hk (t & Ht & ->) Hts. apply blamed_here.
  destruct (Hts t Ht) as [->|[->|[-> ->]]]; [eapply B_overflow|eapply B_not_finite|eapply B_zero];
    exact Hk.
Qed.

Lemma numeric_safe op t e operands vs :
  hkind e = KPure op operands → arithmetic op → (op = OpDivide → t = TFloat) →
  (t = TInt ∨ t = TFloat) → (binary op = true → length vs = 2%nat) →
  Forall (λ v, has_type TInt v ∨ (has_type TFloat v ∧ t = TFloat)) vs →
  match numeric op vs e with
  | Ok v => has_type t v
  | Err f => blamed defs e f
  end.
Proof.
  intros Hk Hop Hdiv Ht Hlen Hvs. unfold numeric.
  assert (Forall (λ v, ∃ n, v = JNumber n) vs) as Hnum.
  { eapply Forall_impl; [exact Hvs|]. intros v [Hv|[Hv _]]; apply has_number_inv in Hv as (n & -> & _);
      eauto. }
  assert (∀ zs, all_i64 vs = Some zs → op = OpAdd ∨ op = OpSubtract ∨ op = OpMultiply →
    match integer_result op zs e with Ok v => has_type t v | Err f => blamed defs e f end) as Hint.
  { intros zs Hzs Hop'. apply all_i64_length in Hzs as Hl.
    pose proof (integer_result_safe op zs e Hop' ltac:(by rewrite Hl)) as Hr.
    destruct (integer_result op zs e) as [v|f].
    - eapply has_subsume; [|exact Hr]. destruct Ht as [->| ->]; constructor.
    - eapply arithmetic_blame; [exact Hk|exact Hr|]. intros s Hs%list_elem_of_singleton. auto. }
  assert (t = TFloat → match
    (numbers ← traverse (λ v, match jas_f64 v with
                             | Some f => Ok f
                             | None => fail e "numeric operator received a non-number" []
                             end) vs;
     float_result op numbers e) with Ok v => has_type t v | Err f => blamed defs e f end) as Hfloat.
  { intros ->. destruct (traverse_numbers e vs Hnum) as (ns & -> & Hl). simpl.
    pose proof (float_result_safe op ns e Hop ltac:(by rewrite Hl)) as Hr.
    destruct (float_result op ns e) as [v|f]; [done|].
    eapply arithmetic_blame; [exact Hk|exact Hr|]. unfold float_failures.
    destruct Hop as [->|[->|[->| ->]]]; simpl; intros s Hs;
      rewrite ?elem_of_cons, ?elem_of_nil in Hs; naive_solver. }
  destruct (all_i64 vs) as [zs|] eqn:Hzs.
  - destruct Hop as [->|[->|[->| ->]]]; [apply Hint; auto..|]. apply Hfloat. auto.
  - assert (t = TFloat) as Htf.
    { destruct Ht as [->|?]; [|done]. destruct (all_i64_ints vs) as (zs & Hz & _); [|congruence].
      eapply Forall_impl; [exact Hvs|]. by intros v [?|[_ ?]]. }
    destruct op; by apply Hfloat.
Qed.

(** ** Expressions *)

(** Failures of the children are failures of the expression. *)
Lemma blamed_children e f : blamed_in (children e) f → blamed defs e f.
Proof. intros (c & Hc & Hb). by eapply blamed_child. Qed.

Section node.
Context (top : bool) (s s' : Scope) (env : Env).
Context (Hs : host_scope s) (Henv : env_typed s env).

(** The promise for a node of a given kind. *)
Definition node_safe (k : HirKind) : Prop := ∀ t sp,
  let e := Hir k t [] sp in
  Forall safe (children e) → tame_node e = true → typed cx top e s s' →
  good defs e s' (eval e env).

Ltac child Hc H := pose proof (safe_run _ _ _ _ _ _ Hc H Hs Henv eq_refl).

Lemma node_literal l : node_safe (KLiteral l).
Proof.
  intros t sp e _ _ (Hl & _ & ->). unfold good, e. cbn [evaluate_pure es_is_empty negb hty].
  destruct l as [|b|z|source|str0]; simpl in Hl |- *.
  - subst. repeat constructor; done.
  - subst. split; [apply has_bool|done].
  - destruct Hl as [-> Hz]. split; [by apply has_int|done].
  - destruct Hl as [-> Hf]. destruct (parse_f64 source) as [f|]; [|done]. simpl.
    unfold number_of_f64. destruct (f64_is_finite f) eqn:Hfin; simpl.
    + split; [by apply has_number|done].
    + apply blamed_here. by eapply B_float.
  - subst. repeat constructor; done.
Qed.

Lemma node_reference root path : node_safe (KReference root path).
Proof.
  intros t sp e _ _ (-> & Hl & _ & ->). unfold good, e.
  cbn [evaluate_pure es_is_empty negb hty]. apply host_lookup in Hl; [|done].
  destruct (env_lookup _ _ _ _ Henv Hl) as (v & Hv & Hty).
  unfold eval_reference. rewrite Hv. simpl. by split.
Qed.

Lemma node_list es : node_safe (KList es).
Proof.
  intros t sp e Hc _ (Hts & _ & _ & u & -> & Hb). unfold good, e.
  cbn [evaluate_pure es_is_empty negb hty].
  pose proof (eval_all_safe top es s s' env Hc Hts Hs Henv) as Hr.
  destruct (eval_all eval es env) as [[vs env1]|f]; simpl; [|by apply blamed_children].
  destruct Hr as (Hvs & Henv1 & _). split; [|done]. by eapply has_list_values.
Qed.

Lemma node_dict es : node_safe (KDict es).
Proof.
  intros t sp e Hc _ (Hts & _ & _ & _ & u & -> & Hb). unfold good, e.
  cbn [evaluate_pure es_is_empty negb hty].
  pose proof (eval_entries_safe top es s s' env [] Hc Hts Hs Henv) as Hr.
  destruct (eval_entries eval es env []) as [[m env1]|f]; simpl; [|by apply blamed_children].
  destruct Hr as (kvs & Hk & -> & Henv1 & _). split; [|done]. by eapply has_map_values.
Qed.

Lemma node_none t0 : node_safe (KOptionNone t0).
Proof. intros t sp e _ _ (-> & _ & ->). split; [apply has_none|done]. Qed.

Lemma node_seq es : node_safe (KSeq es).
Proof.
  intros t sp e Hc _ (Hne & Hts & -> & _). unfold good, e.
  cbn [evaluate_pure es_is_empty negb hty].
  pose proof (eval_steps_safe top es s s' env JNull TNil Hc Hts Hs Henv) as Hr.
  destruct (eval_steps eval es JNull env) as [[v env1]|f]; simpl;
    [|by apply blamed_children, Hr; repeat constructor].
  apply Hr. repeat constructor.
Qed.

(** Nodes with one operand, evaluated in the scope of the node. *)
Ltac unary Hc Ht v :=
  let x := fresh "x" in let env1 := fresh "env" in let f := fresh "f" in let Hr := fresh "Hr" in
  let Hx := fresh "Hx" in let Henv1 := fresh "Henv" in let Hs1 := fresh "Hs" in
  pose proof (safe_run _ _ _ _ _ _ (Forall_inv Hc) Ht Hs Henv eq_refl) as Hr;
  unfold good; cbn [evaluate_pure es_is_empty negb hty];
  destruct (evaluate_pure defs v env) as [[x env1]|f]; simpl;
  [destruct Hr as (Hx & Henv1 & Hs1)
  |eapply blamed_child; [left; reflexivity|exact Hr]].

Lemma node_some v : node_safe (KOptionSome v).
Proof.
  intros t sp e Hc _ (Ht & _ & -> & _). unfold e. unary Hc Ht v.
  split; [by apply has_some|done].
Qed.

Lemma node_ok v b : node_safe (KResultOk v b).
Proof.
  intros t sp e Hc _ (Ht & _ & -> & _). unfold e. unary Hc Ht v.
  split; [by apply has_ok|done].
Qed.

Lemma node_err v a : node_safe (KResultErr v a).
Proof.
  intros t sp e Hc _ (Ht & _ & -> & _). unfold e. unary Hc Ht v.
  split; [by apply has_err|done].
Qed.

Lemma node_is target v : node_safe (KIs target v).
Proof.
  intros t sp e Hc _ (Ht & _ & -> & _). unfold e. unary Hc Ht v.
  split; [apply has_bool|done].
Qed.

Lemma node_from_json target v : node_safe (KFromJson target v).
Proof.
  intros t sp e Hc _ (Ht & _ & _ & -> & _). unfold e. unary Hc Ht v.
  destruct (from_json target x defs sp) as [w|f] eqn:Hf; simpl.
  - split; [|done]. destruct Hx as [Hw _]. split; [by eapply convert_wf|].
    by apply from_json_sound in Hf as [_ ?].
  - apply blamed_here. by eapply B_from_json.
Qed.

Lemma node_to_json v : node_safe (KToJson v).
Proof.
  intros t sp e Hc _ (Ht & _ & _ & -> & _). unfold e. unary Hc Ht v.
  destruct (to_json (hty v) x defs sp) as [w|f] eqn:Hf; simpl.
  - split; [|done]. destruct Hx as [Hw _]. split; [by eapply convert_wf|constructor].
  - apply blamed_here. by eapply B_to_json.
Qed.

Lemma node_decode target v : node_safe (KDecode target v).
Proof.
  intros t sp e Hc _ (Ht & _ & -> & _ & Hsrc & _). unfold e. unary Hc Ht v.
  destruct (decode_value defs sp target x) as [w|f] eqn:Hf; simpl.
  - split; [|done]. destruct Hx as [Hw _].
    apply decode_source_sound in Hf as [-> ?]; [done|by apply definitions_ok_source|done..].
  - apply blamed_here. by eapply B_decode.
Qed.

Lemma node_context c source : node_safe (KContextTransaction c source).
Proof.
  intros t sp e Hc Hn (Ht & _ & -> & _ & Hty & _). unfold e. unary Hc Ht c.
  split; [|done]. rewrite Hty in Hx. by apply has_transaction.
Qed.

(** The selected field of a typed receiver, or a missing key of a map. *)
Lemma select_field_safe v x field t sp' :
  has_type (hty v) x → field_type defs (hty v) field sp' = Ok t →
  match select_field defs v x field with
  | Some w => has_type t w
  | None => ∃ u, hty v = TMap u
  end.
Proof.
  unfold select_field, field_type. intros [Hw Hx] Hf. apply ok_or_Ok in Hf.
  destruct (hty v) as [| | | | | | |u|u|fs| | | | | | | |n] eqn:Hty; try done.
  - injection Hf as ->. inversion Hx as [| | | | | | | |? m Hm| | | | | | | | | | | |]; subst.
    simpl. destruct (bm_get field m) as [w|] eqn:Hg; [|eauto].
    split; [by eapply (json_wf_get field (JObject m))|]. apply bm_get_elem in Hg.
    rewrite Forall_forall in Hm. by apply (Hm (field, w)).
  - inversion Hx as [| | | | | | | | |? ? m Hsf Hread Hm| | | | | | | | | | |]; subst.
    rewrite Hread. rewrite Forall_forall in Hm. apply bm_get_elem in Hf.
    destruct (Hm _ Hf) as (w & Hgw & Hvw). simpl in *. rewrite Hgw. split; [|done].
    eapply structural_fields_wf; [exact Hw|exact Hsf|exact Hgw].
  - destruct (bm_get n defs) as [[n' fs sp0|]|] eqn:Hd; try done.
    destruct (List.find (λ d, fname d =s field) fs) as [d|] eqn:Hfind; [|done].
    injection Hf as <-.
    destruct (decode_value_total defs (hspan v) x (TNamed n) Hx) as [y ->]. simpl.
    inversion Hx as [| | | | | | | | | | | | | | | | | | |? ? ? ? ? tag m Hd' Ht Hk1 Hk2 Hfs Hl Hall|
      ? ? ? ? ? ? ? ? ? Hd']; subst; [|congruence].
    rewrite Hd in Hd'. injection Hd' as <- <- <-.
    pose proof (find_some _ _ Hfind) as [Hin Hname]. apply str_eqb_eq in Hname.
    rewrite Forall_forall in Hall. destruct (Hall d ltac:(by apply list_elem_of_In)) as (w & Hgw & Hvw).
    rewrite Hname in Hgw. unfold yao_object in Ht. destruct (jget YAO_TAG x) as [y0|] eqn:Hy; [|done].
    simpl in Ht. destruct y0; try done. injection Ht as ->. simpl. rewrite Hfs. simpl. rewrite Hgw.
    split; [|done]. eapply (json_wf_get field (JObject m)); [|exact Hgw].
    eapply (json_wf_get s! "fields" (JObject tag)); [|exact Hfs]. by eapply json_wf_get.
Qed.

Lemma node_get v field : node_safe (KGet v field).
Proof.
  intros t sp e Hc _ (Ht & _ & _ & sp' & Hf). unfold e. unary Hc Ht v.
  pose proof (select_field_safe v x field t sp' Hx Hf) as Hsel.
  destruct (select_field defs v x field) as [w|]; [by split|].
  destruct Hsel as [u Hu]. apply blamed_here. by eapply B_key.
Qed.

(** Constructors of declared types. *)
Lemma node_record n fields : node_safe (KRecord n fields).
Proof.
  intros t sp e Hc _ (Hts & _ & _ & -> & n' & fs & sp' & Hd & Hf). unfold good, e.
  cbn [evaluate_pure es_is_empty negb hty]. unfold tagged_fields.
  pose proof (eval_entries_safe top fields s s' env [] Hc Hts Hs Henv) as Hr.
  destruct (eval_entries eval fields env []) as [[m env1]|f]; simpl; [|by apply blamed_children].
  destruct Hr as (kvs & Hk & -> & Henv1 & _). split; [|done].
  eapply has_record; [exact Hd|]. eapply constructor_fields; [|done..].
  by apply (definition_fields_ok _ _ Hd).
Qed.

Lemma node_variant n v fields : node_safe (KVariant n v fields).
Proof.
  intros t sp e Hc _ (Hts & _ & _ & -> & n' & vs & sp' & d & Hd & Hv & Hf). unfold good, e.
  cbn [evaluate_pure es_is_empty negb hty]. unfold tagged_fields.
  pose proof (eval_entries_safe top fields s s' env [] Hc Hts Hs Henv) as Hr.
  destruct (eval_entries eval fields env []) as [[m env1]|f]; simpl; [|by apply blamed_children].
  destruct Hr as (kvs & Hk & -> & Henv1 & _). split; [|done].
  eapply has_variant; [exact Hd|exact Hv|]. eapply constructor_fields; [|done..].
  pose proof (definition_fields_ok _ _ Hd) as Hok. simpl in Hok. rewrite Forall_forall in Hok.
  apply Hok. apply find_some in Hv as [Hv _]. by apply list_elem_of_In.
Qed.

(** Clauses evaluated out of their written order leave the scope as it is. *)
Lemma linked_same path : linked s path s' → Forall (λ p, p.2 = p.1) path →
  s' = s ∧ Forall (λ p, p.1 = s ∧ p.2 = s) path.
Proof.
  clear Hs Henv. revert s. induction path as [|[a b] path IH]; intros s0; simpl; [by intros ->|].
  intros [-> Hl] Hp. inversion Hp as [|? ? Hab Hp']; subst. simpl in Hab. subst.
  destruct (IH _ Hl Hp') as [-> Hall]. split; [done|]. by constructor.
Qed.

Lemma seq_bind_free l a b : seq_typed (typed cx top) l a b → Forall safe l →
  forallb bind_free l = true → b = a.
Proof.
  revert a. induction l as [|x l IH]; intros a; simpl; [done|].
  intros (c & Hx & Hr) Hsafe [Hxf Hrf]%andb_true_iff. inversion Hsafe as [|? ? [Htame _]]; subst.
  apply bind_free_typed in Hx as ->; [|done..]. by eapply IH.
Qed.

Lemma has_references refs rs :
  Forall2 (λ e v, has_type (hty e) v) refs rs → Forall (λ r, hty r = TRef s! "Evidence") refs →
  Forall (has_type (TRef s! "Evidence")) rs.
Proof.
  induction 1 as [|r v refs rs Hv _ IH]; intros Hty; inversion Hty as [|? ? Hr Hrs]; subst; constructor; [|auto].
  by rewrite Hr in Hv.
Qed.

Lemma node_evidence k v refs : node_safe (KEvidenceCandidate k v refs).
Proof.
  intros t sp e Hc Hn (-> & _ & _ & _ & _ & Hk & Hrefs & pk & pv & pr & path & Tk & Tv & Tr & HP & HL).
  unfold tame_node in Hn. cbn [hkind] in Hn. apply andb_true_iff in Hn as [Hlit Hfree].
  unfold e in *. simpl in Hc. inversion Hc as [|? ? Sk Hc1]; subst.
  inversion Hc1 as [|? ? Sv Sr]; subst. cbn [forallb] in Hfree.
  apply andb_true_iff in Hfree as [Fv Fr].
  destruct k as [kk kt kf ksp]. simpl in Hlit, Hk. destruct kk as [l| | | | | | | | | | | | | | | | | | | | | | | | | | | | | |]; try done.
  destruct l as [| | | |[|c str0]]; try done. simpl in Tk. destruct Tk as (-> & -> & Hpk).
  apply bind_free_typed in Tv as Hpv; [|apply Sv|done]. apply seq_bind_free in Tr as Hpr; [|done..].
  apply linked_same in HL as [-> Hall]; [|rewrite HP; repeat constructor; done].
  rewrite HP, !Forall_cons in Hall. destruct Hall as (_ & [Hv1 Hv2] & [Hr1 Hr2] & _).
  rewrite Hv1, Hv2 in Tv. rewrite Hr1, Hr2 in Tr.
  unfold good. cbn [evaluate_pure es_is_empty negb hty literal_value mbind result_bind].
  pose proof (safe_run _ _ _ _ _ _ Sv Tv Hs Henv eq_refl) as Hr.
  simpl. destruct (eval v env) as [[x env1]|f]; simpl;
    [|eapply blamed_child; [right; left|exact Hr]].
  destruct Hr as ([Hx _] & Henv1 & Hs1).
  pose proof (eval_all_safe top refs s s env1 Sr Tr Hs1 Henv1) as Hra.
  destruct (eval_all eval refs env1) as [[rs env2]|f]; simpl;
    [|destruct Hra as (c0 & Hc0 & Hb); eapply blamed_child; [right; right; exact Hc0|exact Hb]].
  destruct Hra as (Hrs & Henv2 & _). split; [|done]. apply has_evidence; [done..|].
  by eapply has_references.
Qed.

Lemma node_outcome status v refs : node_safe (KOutcomeCandidate status v refs).
Proof.
  intros t sp e Hc Hn (-> & _ & _ & _ & Hst & Hrefs & pv & pr & path & Tv & Tr & HP & HL).
  unfold tame_node in Hn. cbn [hkind forallb] in Hn. apply andb_true_iff in Hn as [Fv Fr].
  unfold e in *. simpl in Hc. inversion Hc as [|? ? Sv Sr]; subst.
  apply bind_free_typed in Tv as Hpv; [|apply Sv|done]. apply seq_bind_free in Tr as Hpr; [|done..].
  apply linked_same in HL as [-> Hall]; [|rewrite HP; repeat constructor; done].
  rewrite HP, !Forall_cons in Hall. destruct Hall as ([Hv1 Hv2] & [Hr1 Hr2] & _).
  rewrite Hv1, Hv2 in Tv. rewrite Hr1, Hr2 in Tr.
  unfold good. cbn [evaluate_pure es_is_empty negb hty].
  pose proof (safe_run _ _ _ _ _ _ Sv Tv Hs Henv eq_refl) as Hr.
  destruct (eval v env) as [[x env1]|f]; simpl; [|eapply blamed_child; [left; reflexivity|exact Hr]].
  destruct Hr as ([Hx _] & Henv1 & Hs1).
  pose proof (eval_all_safe top refs s s env1 Sr Tr Hs1 Henv1) as Hra.
  destruct (eval_all eval refs env1) as [[rs env2]|f]; simpl;
    [|destruct Hra as (c0 & Hc0 & Hb); eapply blamed_child; [right; exact Hc0|exact Hb]].
  destruct Hra as (Hrs & Henv2 & _). split; [|done]. apply has_outcome; [done..|].
  by eapply has_references.
Qed.

(** The operands of a strict operator. *)
Lemma strict_operands op operands t sp :
  let e := Hir (KPure op operands) t [] sp in
  Forall safe operands → seq_typed (typed cx top) operands s s' →
  (∀ vs env1, Forall2 (λ x v, has_type (hty x) v) operands vs → env_typed s' env1 →
     match apply_strict op vs e with Ok v => has_type t v | Err f => blamed defs e f end) →
  match (op : PureOperator) with OpAnd | OpOr | OpNot => False | _ => True end →
  good defs e s' (eval e env).
Proof.
  intros e Hc Hts Happly Hop. unfold good, e. cbn [evaluate_pure es_is_empty negb hty].
  pose proof (eval_all_safe top operands s s' env Hc Hts Hs Henv) as Hr.
  assert (evaluate_operator eval op operands env e =
          ('(values, env1) ← eval_all eval operands env;
           v ← apply_strict op values e; Ok (v, env1))) as Heq by (by destruct op).
  unfold e in Heq. rewrite Heq.
  destruct (eval_all eval operands env) as [[vs env1]|f]; simpl; [|by apply blamed_children].
  destruct Hr as (Hvs & Henv1 & _). specialize (Happly vs env1 Hvs Henv1).
  fold e. destruct (apply_strict op vs e); simpl; [by split|done].
Qed.

Lemma two_values (a b : HirExpr) vs :
  Forall2 (λ x v, has_type (hty x) v) [a; b] vs →
  ∃ v w, vs = [v; w] ∧ has_type (hty a) v ∧ has_type (hty b) w.
Proof.
  intros Hvs. inversion Hvs as [|? v ? vs1 Hv Hvs1]; subst.
  inversion Hvs1 as [|? w ? vs2 Hw Hvs2]; subst. inversion Hvs2; subst. eauto.
Qed.

Lemma numeric_values op t (operands : list HirExpr) vs :
  Forall2 (λ x v, has_type (hty x) v) operands vs →
  Forall (λ e, hty e = TInt ∨ (hty e = TFloat ∧ t = TFloat)) operands →
  (binary op = true → ∃ a b, operands = [a; b]) →
  (binary op = true → length vs = 2%nat) ∧
  Forall (λ v, has_type TInt v ∨ (has_type TFloat v ∧ t = TFloat)) vs.
Proof.
  intros Hvs Hty Hbin. split.
  - intros (a & b & ->)%Hbin. by apply Forall2_length in Hvs.
  - clear Hbin. induction Hvs as [|x v l vs Hv _ IH]; inversion Hty as [|? ? Hx Hl]; subst;
      constructor; [|auto]. destruct Hx as [E|[E ->]]; rewrite E in Hv; auto.
Qed.

Lemma node_numeric op operands : arithmetic op → node_safe (KPure op operands).
Proof.
  intros Hop t sp e Hc Hn (Hts & _ & _ & Ht). apply strict_operands; [done..| |].
  2: { by destruct Hop as [->|[->|[->| ->]]]. }
  intros vs env1 Hvs _.
  assert ((t = TInt ∨ t = TFloat) ∧
    Forall (λ e, hty e = TInt ∨ (hty e = TFloat ∧ t = TFloat)) operands ∧
    (binary op = true → ∃ a b, operands = [a; b])) as (Hty & Hops & Hbin).
  { destruct Hop as [->|[->|[->| ->]]]; simpl in Ht |- *; open_hyps; split_and!; eauto; done. }
  destruct (numeric_values op t operands vs Hvs Hops Hbin) as [Hlen Hnum].
  assert (∀ x, apply_strict op vs x = numeric op vs x) as Heq
    by (intros; by destruct Hop as [->|[->|[->| ->]]]).
  rewrite Heq. eapply numeric_safe; try done. intros ->. unfold tame_node in Hn. simpl in Hn.
  destruct Hty as [->|?]; done.
Qed.

Lemma node_comparison op operands :
  match (op : PureOperator) with
  | OpEqual | OpNotEqual | OpLess | OpLessEqual | OpGreater | OpGreaterEqual => True
  | _ => False
  end → node_safe (KPure op operands).
Proof.
  intros Hop t sp e Hc Hn (Hts & _ & _ & Ht). apply strict_operands; [done..| |by destruct op].
  intros vs env1 Hvs _.
  assert (t = TBool ∧ ∃ a b, operands = [a; b] ∧
    (match op with OpEqual | OpNotEqual => True
     | _ => (below TFloat a ∧ below TFloat b) ∨ (hty a = TString ∧ hty b = TString) end))
    as (-> & a & b & -> & Hab).
  { destruct op; try done; simpl in Ht; open_hyps; subst; split; eauto. }
  apply two_values in Hvs as (v & w & -> & Hv & Hw).
  assert (∀ x, match op with OpEqual | OpNotEqual => True
          | _ => match compare op [v; w] x with Ok r => has_type TBool r | Err _ => False end end)
    as Hcmp.
  { intros x. destruct op; try done; apply compare_safe;
      (destruct Hab as [[Ha Hb]|[Ha Hb]];
       [left; split; [exact (has_subsume _ _ _ Ha Hv)|exact (has_subsume _ _ _ Hb Hw)]|right; rewrite Ha in Hv; rewrite Hb in Hw; done]). }
  destruct op; try done; try apply has_bool; cbn [apply_strict];
    match goal with |- context [compare _ _ ?x] => specialize (Hcmp x); cbv beta iota in Hcmp end;
    (destruct (compare _ _ _); [done|by exfalso]).
Qed.

Lemma node_connective op operands :
  (op = OpAnd ∨ op = OpOr) → node_safe (KPure op operands).
Proof.
  intros Hop t sp e Hc Hn (Hts & _ & _ & Ht).
  assert (t = TBool ∧ Forall (λ e, hty e = TBool) operands) as (-> & Hb)
    by (by destruct Hop as [->| ->]).
  assert (forallb bind_free (tail operands) = true) as Hfree
    by (unfold tame_node in Hn; by destruct Hop as [->| ->]).
  set (stop := match op with OpAnd => false | _ => true end).
  assert (eval e env = eval_until eval stop e operands env) as Heq.
  { unfold e, stop. by destruct Hop as [->| ->]. }
  unfold good. rewrite Heq. simpl in Hc.
  destruct operands as [|o l].
  { simpl in Hts |- *. subst. split; [apply has_bool|done]. }
  simpl in Hts. destruct Hts as (s1 & Ho & Hl). inversion Hc as [|? ? So Sl]; subst.
  inversion Hb as [|? ? Hbo Hbl]; subst. simpl.
  pose proof (safe_run _ _ _ _ _ _ So Ho Hs Henv eq_refl) as Hr.
  destruct (eval o env) as [[v env1]|f]; simpl; [|eapply blamed_child; [left; reflexivity|exact Hr]].
  destruct Hr as ([Hw Hv] & Henv1 & Hs1). rewrite Hbo in Hv. inversion Hv; subst. simpl.
  pose proof (eval_until_safe top stop e l s1 s' env1 Sl Hl Hs1 Henv1 Hbl Hfree) as Hrest.
  simpl in Hfree. apply seq_bind_free in Hl as ->; [|done..].
  destruct (Bool.eqb b stop); [split; [apply has_bool|done]|].
  destruct (eval_until eval stop e l env1) as [[w env2]|f]; [done|].
  destruct Hrest as (c0 & Hc0 & Hb0). eapply blamed_child; [right; exact Hc0|exact Hb0].
Qed.

Lemma node_not operands : node_safe (KPure OpNot operands).
Proof.
  intros t sp e Hc Hn (Hts & _ & _ & -> & a & -> & Ha). unfold e in *.
  simpl in Hts. destruct Hts as (s1 & Ht & ->).
  pose proof (safe_run _ _ _ _ _ _ (Forall_inv Hc) Ht Hs Henv eq_refl) as Hr.
  unfold good. cbn [evaluate_pure es_is_empty negb hty evaluate_operator].
  destruct (eval a env) as [[x env1]|f]; simpl; [|eapply blamed_child; [left; reflexivity|exact Hr]].
  destruct Hr as (Hx & Henv1 & _). rewrite Ha in Hx. destruct Hx as [_ Hx]. inversion Hx; subst. simpl.
  split; [apply has_bool|done].
Qed.

Lemma node_pure op operands : node_safe (KPure op operands).
Proof.
  destruct op; first [by apply node_comparison|by apply node_connective; auto|apply node_not|
    by apply node_numeric; unfold arithmetic; auto].
Qed.

(** *** Bindings and control *)

Lemma node_bind n v : node_safe (KBind n v).
Proof.
  intros t sp e Hc Hn (Hfree & -> & _ & s1 & Ht & ->). unfold e in *. unary Hc Ht v.
  assert (bindings s1 !! n = None) as Hfree1.
  { eapply tame_bind_free; [exact Hn|eapply typed_grows; [exact Ht|apply (Forall_inv Hc)]|done|exact Ht]. }
  rewrite (env_fresh _ _ _ Henv0 Hfree1). simpl.
  split; [repeat constructor|by apply env_insert].
Qed.

Lemma node_if c a b : node_safe (KIf c a b).
Proof.
  intros t sp e Hc Hn (Ht & _ & Hb & (s1 & Ta) & (s2 & Tb) & Ba & Bb & _). unfold e in *.
  unary Hc Ht c. rewrite Hb in Hx. destruct Hx as [_ Hx]. inversion Hx; subst.
  inversion Hc as [|? ? _ Hc1]; subst. inversion Hc1 as [|? ? Sa Hc2]; subst.
  inversion Hc2 as [|? ? Sb _]; subst. unfold evaluate_branch.
  pose proof (safe_run _ _ _ _ _ _ Sa Ta Hs0 Henv0 eq_refl) as Ha.
  pose proof (safe_run _ _ _ _ _ _ Sb Tb Hs0 Henv0 eq_refl) as Hbr.
  destruct b0.
  - destruct (eval a env0) as [[w env2]|f]; simpl; [|eapply blamed_child; [right; left|exact Ha]].
    split; [|done]. eapply has_subsume; [exact Ba|apply Ha].
  - destruct (eval b env0) as [[w env2]|f]; simpl;
      [|eapply blamed_child; [right; right; left|exact Hbr]].
    split; [|done]. eapply has_subsume; [exact Bb|apply Hbr].
Qed.

Lemma node_fallback a b : node_safe (KFallback a b).
Proof.
  intros t sp e Hc Hn ((s1 & Ta) & (s2 & Tb) & Ba & Bb & _ & ->). unfold e in *.
  simpl in Hc. inversion Hc as [|? ? Sa Hc1]; subst. inversion Hc1 as [|? ? Sb _]; subst.
  unfold good. cbn [evaluate_pure es_is_empty negb hty]. unfold evaluate_branch.
  pose proof (safe_run _ _ _ _ _ _ Sa Ta Hs Henv eq_refl) as Ha.
  pose proof (safe_run _ _ _ _ _ _ Sb Tb Hs Henv eq_refl) as Hb.
  destruct (eval a env) as [[w env2]|f].
  - split; [|done]. eapply has_subsume; [exact Ba|apply Ha].
  - destruct (eval b env) as [[w env2]|f']; simpl; [|eapply blamed_child; [right; left|exact Hb]].
    split; [|done]. eapply has_subsume; [exact Bb|apply Hb].
Qed.

(** The parts of a value of a declared union. *)
Lemma union_value n n' vs sp' x :
  bm_get n defs = Some (DUnion n' vs sp') → has_type (TNamed n) x →
  ∃ v m d, variant_parts x = Some (v, m) ∧ List.find (λ item, vname item =s v) vs = Some d ∧
    Forall (λ d, ∃ w, bm_get (fname d) m = Some w ∧ has_type (fty d) w) (vfields d).
Proof.
  intros Hd [Hw Hx].
  inversion Hx as [| | | | | | | | | | | | | | | | | | |? ? ? ? ? ? ? Hd'|
    ? ? ? ? ? tag variant d m Hd' Htag Htype Hkind Hvar Hfind Hfs Hlen Hall]; subst; [congruence|].
  rewrite Hd in Hd'. injection Hd' as <- <- <-. exists variant, m, d.
  split_and!; [|done|].
  - unfold variant_parts. rewrite Htag. simpl. rewrite Hkind. simpl. rewrite Hvar. simpl.
    by rewrite Hfs.
  - eapply Forall_impl; [exact Hall|]. intros fd (w & Hg & Hv). exists w. split; [done|].
    split; [|done]. eapply (json_wf_get (fname fd) (JObject m)); [|exact Hg].
    by eapply tag_get_wf.
Qed.

Lemma node_match v cs : node_safe (KMatch v cs).
Proof.
  intros t sp e Hc Hn (Ht & _ & (n & n' & vs & sp' & Hty & Hd & Hcs & Hex) & Hb & _).
  unfold e in *. unary Hc Ht v. rewrite Hty in Hx.
  destruct (union_value _ _ _ _ _ Hd Hx) as (variant & m & d & -> & Hfind & Hm).
  pose proof (eval_cases_safe top variant m (Hir (KMatch v cs) t [] sp) cs vs s' env0 d t
    (Forall_inv_tail Hc) Hcs Hs0 Henv0 Hfind) as Hr.
  destruct (eval_cases _ _ _ _ _ _) as [w|f]; simpl.
  - split; [|done]. apply Hr; [|done..]. apply find_some in Hfind as [Hin Hname].
    apply str_eqb_eq in Hname. rewrite <- Hname. by apply Hex, list_elem_of_In.
  - destruct Hr as (c & Hcin & Hbl); [|done..|eapply blamed_child; [right; exact Hcin|exact Hbl]].
    apply find_some in Hfind as [Hin Hname].
    apply str_eqb_eq in Hname. rewrite <- Hname. by apply Hex, list_elem_of_In.
Qed.

Lemma node_map c x body : node_safe (KMap c x body).
Proof.
  intros t sp e Hc Hn (Ht & _ & Hfree & (u & s1 & Hty & Tb) & -> & _). unfold e in *.
  unary Hc Ht c. rewrite Hty in Hx. destruct Hx as [Hw Hx].
  inversion Hx as [| | | | | | |? items Hitems| | | | | | | | | | | | |]; subst.
  assert (Forall (has_type u) items) as Hall.
  { inversion Hw as [| | | |? Hwl|]; subst. rewrite Forall_forall in Hwl, Hitems |- *.
    intros y Hy. split; auto. }
  pose proof (eval_items_safe top x body u s' s1 env0 items) as Hr.
  destruct (eval_items _ _ _ _ _) as [vs|f]; simpl.
  - split; [|done]. apply has_list. apply Hr; try done; [by inversion Hc as [|? ? ? Hc1]; inversion Hc1|].
    unfold host_scope in *. simpl. rewrite lookup_insert_ne; [done|]. intros ->. congruence.
  - eapply blamed_child; [right; left; reflexivity|].
    apply Hr; try done; [by inversion Hc as [|? ? ? Hc1]; inversion Hc1|].
    unfold host_scope in *. simpl. rewrite lookup_insert_ne; [done|]. intros ->. congruence.
Qed.

Lemma node_par bs : node_safe (KPar bs).
Proof.
  intros t sp e Hc Hn (Hb & Hnd & -> & -> & _). unfold good, e.
  cbn [evaluate_pure es_is_empty negb hty].
  pose proof (eval_branches_safe top bs s env Hc Hb Hs Henv) as Hr.
  destruct (eval_branches _ _ _) as [kvs|f]; simpl; [|by apply blamed_children].
  split; [|done]. assert (kvs.*1 = map pb_name bs) as Hkeys.
  { clear -Hr. induction Hr as [|?? ?? [E _] _ IH]; [done|]. rewrite fmap_cons, IH, <- E. done. }
  assert (NoDup kvs.*1) as Hndk by (by rewrite Hkeys). split.
  - apply structural_record_value_wf. clear -Hr.
    induction Hr as [|?? ?? [_ [? _]] _ IH]; by constructor.
  - eapply V_structural; [apply structural_fields_value|intros n; by apply structural_record_readers|].
    apply Forall_forall. intros [n u] Hnu%bm_of_list_elem.
    apply list_elem_of_fmap in Hnu as (b & [= -> ->] & Hbin).
    apply list_elem_of_lookup in Hbin as [i Hi].
    destruct (Forall2_lookup_l _ _ _ _ _ Hr Hi) as (kv & Hkv & Hk & _ & Hv).
    exists kv.2. split; [|done]. rewrite bm_get_of_list by done. apply bm_NoDup_get; [done|].
    simpl. rewrite Hk, <- surjective_pairing. by eapply list_elem_of_lookup_2.
Qed.

Lemma node_application f args ps body : node_safe (KFunctionApplication f args ps body).
Proof.
  intros t sp e Hc Hn (Hargs & _ & _ & _ & d & Hd & -> & -> & Happ & Hbelow & _ & s0 & s1 & Hbind & Hbody).
  unfold good, e in *. cbn [evaluate_pure es_is_empty negb hty]. unfold eval_application.
  unfold children in Hc. simpl in Hc. apply Forall_app in Hc as [Sargs Sb%Forall_inv].
  destruct Happ as (Hnd & Hall & Heach).
  assert (Forall (λ a, ∃ e, na_values a = [e]) args) as Hone.
  { eapply Forall_impl; [exact Heach|]. intros a (p & x & _ & Hx & _). eauto. }
  pose proof (eval_arguments_safe top f (Hir (KFunctionApplication f args (map p_name (fd_parameters d)) body)
    (fd_returns d) [] sp) args s s' env ∅ Sargs Hargs Hone Hnd Hs Henv) as Hr.
  destruct (eval_arguments _ _ _ _ _ _) as [[values env1]|fl]; simpl.
  2: { destruct Hr as (c & Hcin & Hbl). eapply blamed_child; [|exact Hbl].
       unfold children. simpl. apply elem_of_app. by left. }
  destruct Hr as (Hpresent & Hinv & _ & Henv1 & Hs1).
  destruct (env_lookup _ _ _ _ Henv1 Hs1) as (rv & Hrv & Hrt). rewrite Hrv.
  edestruct (link_parameters_safe f (Hir (KFunctionApplication f args (map p_name (fd_parameters d)) body)
    (fd_returns d) [] sp) (fd_parameters d) scope_new s0 values {[s! "runtime" := rv]})
    as (rest & local & -> & Hlocal & Hs0 & Hrest); [done|by apply scope_new_env|apply scope_new_host| |].
  { intros p Hp. pose proof (Hall p Hp) as Hin. apply list_elem_of_fmap in Hin as (a & Hna & Ha).
    destruct (Hpresent a Ha) as (v & Hv). rewrite Hna. exists v. split; [done|].
    destruct (Hinv _ _ Hv) as [[Hbad _]|(a' & x & Ha' & Hn' & Hx & Htv)]; [by rewrite lookup_empty in Hbad|].
    assert (a' = a) as -> by (by eapply (NoDup_map_inj na_name)).
    rewrite Forall_forall in Heach. destruct (Heach a Ha) as (p' & x' & Hfind & Hx' & Hb).
    rewrite Hx in Hx'. injection Hx' as <-.
    assert (p' = p) as ->; [|by eapply has_subsume].
    pose proof (find_some _ _ Hfind) as [Hp' Hname]. apply str_eqb_eq in Hname.
    eapply (NoDup_map_inj p_name); [by eapply bind_parameters_NoDup|by apply list_elem_of_In|done|].
    congruence. }
  simpl. destruct (map_to_list rest) as [|[bad w] ?] eqn:Hempty.
  2: { exfalso. assert (rest !! bad = Some w) as Hb.
       { apply elem_of_map_to_list. rewrite Hempty. by left. }
       apply Hrest in Hb as [Hb Hnot].
       destruct (Hinv _ _ Hb) as [[Hbad _]|(a & x & Ha & <- & Hx & _)]; [by rewrite lookup_empty in Hbad|].
       rewrite Forall_forall in Heach. destruct (Heach a Ha) as (p' & x' & Hfind & _).
       pose proof (find_some _ _ Hfind) as [Hp' Hname]. apply str_eqb_eq in Hname. apply Hnot.
       rewrite <- Hname. apply list_elem_of_fmap. exists p'. split; [done|]. by apply list_elem_of_In. }
  pose proof (safe_run _ _ _ _ _ _ Sb Hbody Hs0 Hlocal eq_refl) as Hrb.
  destruct (eval body local) as [[w env2]|fl]; simpl.
  - split; [|done]. eapply has_subsume; [exact Hbelow|apply Hrb].
  - eapply blamed_child; [|exact Hrb]. unfold children. simpl. apply elem_of_app. right. by left.
Qed.
(** The kinds that perform an effect of their own. *)
Definition effectful (k : HirKind) : bool :=
  match k with KCall _ _ | KInferBody _ _ _ _ | KRun _ | KHost _ _ => true | _ => false end.

Lemma node_kind k : effectful k = false → node_safe k.
Proof.
  destruct k; intros He; try discriminate He;
    [exact (node_literal _)|exact (node_reference _ _)|exact (node_list _)|exact (node_dict _)
    |exact (node_from_json _ _)|exact (node_to_json _)|exact (node_record _ _)
    |exact (node_variant _ _ _)|exact (node_some _)|exact (node_none _)|exact (node_ok _ _)
    |exact (node_err _ _)|exact (node_evidence _ _ _)|exact (node_outcome _ _ _)
    |exact (node_context _ _)|exact (node_get _ _)|exact (node_decode _ _)|exact (node_is _ _)
    |exact (node_pure _ _)|exact (node_seq _)|exact (node_bind _ _)|exact (node_if _ _ _)
    |exact (node_match _ _)|exact (node_fallback _ _)|exact (node_map _ _ _)
    |exact (node_application _ _ _ _)|exact (node_par _)].
Qed.
End node.

(** ** The induction *)

(** A typed pure expression has typed pure children. *)
Lemma typed_pure_children top e s s' c :
  typed cx top e s s' → heffects e = [] → c ∈ children e → heffects c = [].
Proof.
  intros Ht He Hc. destruct (heffects c) as [|x l] eqn:Hx; [done|]. exfalso.
  assert (x ∈ heffects e) as Hin; [|rewrite He in Hin; by apply elem_of_nil in Hin].
  apply (typed_own_effects cx _ _ _ _ x Ht). right. exists c. split; [done|]. rewrite Hx. by left.
Qed.

Lemma eval_sound e top s s' env :
  typed cx top e s s' → tame e = true → heffects e = [] →
  host_scope s → env_typed s env → good defs e s' (eval e env).
Proof.
  revert top s s' env. induction e as [e IH] using hir_ind. intros top s s' env Ht Htame He Hs Henv.
  assert (Forall safe (children e)) as Hc.
  { apply Forall_forall. intros c Hc. split; [by eapply tame_child|]. intros.
    eapply (IH c Hc); [eassumption|by eapply tame_child|by eapply (typed_pure_children top e)|done|done]. }
  apply tame_here in Htame as Hn. destruct e as [k t ef sp]. simpl in He. subst ef.
  destruct (effectful k) eqn:Hk; [exfalso|by eapply (node_kind top s s' env Hs Henv k Hk)].
  destruct k; try discriminate Hk; simpl in Ht; open_hyps; try discriminate.
  match goal with Hi : [] = es_insert EInfer _ |- _ =>
    assert (EInfer ∈ @nil Effect) as Hin by (rewrite Hi; apply es_insert_In; by left) end.
  by apply elem_of_nil in Hin.
Qed.
End soundness.

Lemma analyze_module_definitions `{CharClass} `{AnalysisProfile} (program_hash : Program → str) su root m :
  analyze_module program_hash su root = Ok m → definitions_ok (types (ma_program m)).
Proof.
  unfold analyze_module. intros Hm. res_inv.
  apply finish_program_Ok in Ha6 as (-> & _). simpl. by eapply program_declarations_ok.
Qed.

(** ** Sample program *)

(** A host whose [runtime] binding is an integer. *)
Definition sound_profile : AnalysisProfile :=
  static_profile (mkStaticProfile [] [] [(s! "runtime", TInt)]).

Definition sound_source : str :=
  s! "(eval (types (union Shape (circle (r Int)) (empty))) (seq (bind s (variant Shape.circle (r (add runtime 1)))) (match s ((case Shape.circle (r n)) (if (lt n 10) (mul n 2) 0)) ((case Shape.empty) -1))))".
Definition sound_root : Expr :=
  match parse_one sound_source parse_limits_default with Ok e => e | Err _ => EList [] empty_span end.
Definition sound_setup : Setup := analyzer_new analysis_limits_default.
Definition sound_module : ModuleAnalysis :=
  match @analyze_module ascii_classes sound_profile (λ _, []) sound_setup sound_root with
  | Ok m => m
  | Err _ => mkModuleAnalysis (mkProgram [] Runtime requirements_default [] (hir (KLiteral LNil) TNil [] empty_span)
                                 TNil [] [] []) []
  end.

(** ** Main theorems *)

(** C1. Type soundness of the pure fragment, for tame programs.  Take an accepted program whose host announces
    [runtime] as its only implicit name, which the runtime owns, whose effect row is empty and whose body is
    tame ([tame], checked on every node, linked function bodies included): no division is typed [Int]; the
    operands after the first of an [and] or [or] bind nothing; the value of a [bind] does not bind the same name;
    in an evidence or outcome candidate the value and the references bind nothing, and the kind
    of evidence is a literal that is not empty; and the source of a context transaction is canonical.  Run
    on a [runtime] value of the announced type it evaluates to a value of the program's output type, or
    fails at a node whose operation is partial (overflow, division by zero, a result that is not finite, a
    missing map key, a rejected decode or boundary conversion); the evaluator's internal failures do not
    occur.  Programs that are not tame are accepted too, and for them this fails: [(div 4 2)] has type [Int]
    and gives [2.0], and a name bound under a skipped operand is missing (the findings on [sema.rs] and
    [eval.rs] list these cases). *)
Theorem accepted_program_evaluates `{CharClass} `{AnalysisProfile} (program_hash : Program → str)
    su root m rt v :
  analyze_module program_hash su root = Ok m →
  let p := ma_program m in
  (∀ n, implicit_binding n = if n =s s! "runtime" then Some rt else None) →
  owner p = Runtime → effects p = [] → tame (body p) = true → has_type (types p) rt v →
  match evaluate_pure (types p) (body p) {[s! "runtime" := v]} with
  | Ok (w, _) => has_type (types p) (output p) w
  | Err f => blamed (types p) (body p) f
  end.
Proof.
  intros Hm p Hhost Howner Heff Htame Hv.
  pose proof (analyze_module_definitions _ _ _ _ Hm) as Hdefs.
  apply analyze_module_ok in Hm as (cx & Hm). unfold module_ok in Hm. cbv zeta in Hm. fold p in Hm, Hdefs.
  open_hyps. match goal with Hr : root_typed _ _ _ |- _ => rename Hr into Hroot end.
  rewrite Howner in Hroot. destruct Hroot as [s1 Ht].
  assert (heffects (body p) = []) as Hpure by congruence.
  match goal with E : ctx_definitions cx = _ |- _ => rewrite <- E in * end.
  match goal with E : output p = _ |- _ => rewrite E end.
  pose proof (eval_sound cx rt Hdefs Hhost _ _ _ _ {[s! "runtime" := v]} Ht Htame Hpure
                (scope_new_host rt Hhost) (scope_new_env cx rt Hhost v Hv)) as Hg.
  unfold good in Hg. destruct (evaluate_pure _ _ _) as [[w ?]|f]; [apply Hg|exact Hg].
Qed.

Lemma accepted_program_evaluates_witness :
  let p := ma_program sound_module in
  match evaluate_pure (types p) (body p) {[s! "runtime" := JNumber (number_of_i64 4)]} with
  | Ok (w, _) => has_type (types p) (output p) w
  | Err f => blamed (types p) (body p) f
  end.
Proof.
  apply (@accepted_program_evaluates ascii_classes sound_profile (λ _, []) sound_setup sound_root
           sound_module TInt).
  - vm_compute. reflexivity.
  - intros n. unfold sound_profile. simpl. destruct (n =s _); reflexivity.
  - vm_compute. reflexivity.
  - vm_compute. reflexivity.
  - vm_compute. reflexivity.
  - split; [by apply wf_JNumber|by apply (V_int _ _ 4%Z)].
Defined.

(** The sample evaluates to [10]. *)
Example sound_sample_value :
  fst <$> evaluate_pure (types (ma_program sound_module)) (body (ma_program sound_module))
    {[s! "runtime" := JNumber (number_of_i64 4)]} = Ok (JNumber (number_of_i64 10)).
Proof. vm_compute. reflexivity. Qed.
