(* ===== verification/Text.v ===== *)
(** * Text, bytes and digests

    The string functions of the standard library that the files below share, UTF-8, and the
    interface of the sha2 crate. *)

From stdpp Require Import base list.
From Stdlib Require Import NArith ZArith Lia.
From S2P Require Import Prelude JsonValue.

Local Open Scope Z_scope.

(** ** Libraries *)

(** The sha2 crate, with its digests as lowercase hexadecimal. *)
Class Digest : Type := { sha256_hex : list N → str }.

(** ** Bytes *)

(** UTF-8, which [String] stores. *)
Definition utf8_char (c : char) : list N :=
  (if c <? 0x80 then [c]
   else if c <? 0x800 then [0xC0 + c / 64; 0x80 + c mod 64]
   else if c <? 0x10000 then [0xE0 + c / 4096; 0x80 + c / 64 mod 64; 0x80 + c mod 64]
   else [0xF0 + c / 262144; 0x80 + c / 4096 mod 64; 0x80 + c / 64 mod 64; 0x80 + c mod 64])%N.
Definition utf8 (s : str) : list N := concat (map utf8_char s).

(** [i64::to_be_bytes] and [u64::to_be_bytes]. *)
Definition be_bytes (z : Z) : list N :=
  map (λ i, Z.to_N ((z mod 2 ^ 64) / 2 ^ (8 * i) mod 256)) [7; 6; 5; 4; 3; 2; 1; 0].

(** ** Strings *)

Fixpoint drop_spaces (s : str) : str :=
  match s with
  | [] => []
  | c :: r => if is_whitespace c then drop_spaces r else s
  end.

(** [str::trim]. *)
Definition trim (s : str) : str := reverse (drop_spaces (reverse (drop_spaces s))).

(** [str::to_ascii_lowercase]. *)
Definition to_ascii_lowercase (s : str) : str := map ascii_lower s.

(** [str::strip_prefix]. *)
Fixpoint strip_prefix (prefix s : str) : option str :=
  match prefix, s with
  | [], _ => Some s
  | _ :: _, [] => None
  | a :: p, b :: r => if (a =? b)%N then strip_prefix p r else None
  end.
Definition starts_with (prefix s : str) : bool := is_some (strip_prefix prefix s).

(** Decimal digits of a number. *)
Fixpoint digits_of (fuel : nat) (z : Z) : str :=
  match fuel with
  | O => []
  | S n => if z <? 10 then [Z.to_N (48 + z)] else digits_of n (z / 10) ++ [Z.to_N (48 + z mod 10)]
  end.
(** [u64] in decimal: at most twenty digits. *)
Definition decimal (z : Z) : str := digits_of 20 z.

(** [str::parse::<u64>]: an optional plus sign, then at least one digit, in range. *)
Definition parse_u64 (s : str) : option Z :=
  let ds := match s with 43%N :: r => r | _ => s end in
  match ds with
  | [] => None
  | _ => match digits_value 0 ds with
         | Some z => if z <=? u64_max then Some z else None
         | None => None
         end
  end.
