(* ===== verification/Ordering.v ===== *)
(** * Comparison functions

    Orders given by a three-way comparison, as [Ord] and [sort_by] use them: lexicographic
    composition, the order a sort follows, and what a lawful comparison guarantees of sorts
    and minima. *)

From stdpp Require Import base list sets sorting strings.
From Stdlib Require Import ZArith Lia.
From S2P Require Import Prelude.

(** ** Definitions *)

(** [Ordering::then_with]. *)
Definition then_with (a b : comparison) : comparison := match a with Eq => b | _ => a end.

(** The order that [sort_by] establishes. *)
Definition not_gt {A} (cmp : A → A → comparison) (a b : A) : Prop := cmp a b ≠ Gt.
#[export] Instance not_gt_dec {A} (cmp : A → A → comparison) : RelDecision (not_gt cmp).
Proof. intros a b. unfold not_gt. apply _. Defined.

(** [Iterator::min_by]: the first of the least elements. *)
Definition min_by {A} (cmp : A → A → comparison) (l : list A) : option A :=
  match l with
  | [] => None
  | x :: r => Some (fold_left (λ m y, match cmp m y with Gt => y | _ => m end) r x)
  end.

(** ** Lawful comparisons *)

(** What sorting and taking minima need of a comparison. *)
Class Comparison {A} (cmp : A → A → comparison) : Prop := {
  cmp_antisym a b : cmp b a = CompOpp (cmp a b);
  cmp_le_trans a b c : not_gt cmp a b → not_gt cmp b c → not_gt cmp a c
}.
Arguments cmp_antisym {A} cmp {_}.
Arguments cmp_le_trans {A} cmp {_}.

#[export] Instance Z_compare_on {A} (f : A → Z) : Comparison (λ a b, Z.compare (f a) (f b)).
Proof.
  split; [intros; apply Z.compare_antisym|]. unfold not_gt. intros a b c.
  unfold not. rewrite !Z.compare_gt_iff. lia.
Qed.

Lemma str_cmp_le_trans a b c : str_cmp a b ≠ Gt → str_cmp b c ≠ Gt → str_cmp a c ≠ Gt.
Proof.
  destruct (str_cmp a b) eqn:H1; [apply str_cmp_eq in H1 as ->; done| |done].
  destruct (str_cmp b c) eqn:H2; [apply str_cmp_eq in H2 as ->; by rewrite H1| |done].
  intros _ _. by rewrite (str_cmp_trans _ _ _ H1 H2).
Qed.

#[export] Instance str_cmp_on {A} (f : A → str) : Comparison (λ a b, str_cmp (f a) (f b)).
Proof. split; [intros; apply str_cmp_antisym|intros a b c; apply str_cmp_le_trans]. Qed.

Section comparison.
Context {A} (cmp : A → A → comparison) `{!Comparison cmp}.

Lemma cmp_refl a : cmp a a = Eq.
Proof. pose proof (cmp_antisym cmp a a) as H. by destruct (cmp a a). Qed.

Lemma cmp_eq_trans a b c : cmp a b = Eq → cmp b c = Eq → cmp a c = Eq.
Proof.
  intros H1 H2. pose proof (cmp_le_trans cmp a b c) as H. pose proof (cmp_le_trans cmp c b a) as H'.
  unfold not_gt in *. rewrite (cmp_antisym cmp b c), (cmp_antisym cmp a b), (cmp_antisym cmp a c) in H'.
  rewrite H1, H2 in *. destruct (cmp a c); simpl in *; [done| |]; exfalso; [by apply H'|by apply H].
Qed.

Lemma cmp_eq_inv a b c :
  not_gt cmp a b → not_gt cmp b c → cmp a c = Eq → cmp a b = Eq ∧ cmp b c = Eq.
Proof.
  intros H1 H2 H3. pose proof (cmp_le_trans cmp b c a H2) as H4. pose proof (cmp_le_trans cmp c a b) as H5.
  unfold not_gt in *. rewrite (cmp_antisym cmp a c), H3 in *. simpl in *.
  rewrite (cmp_antisym cmp a b) in H4. rewrite (cmp_antisym cmp b c) in H5.
  destruct (cmp a b), (cmp b c); simpl in *; try done; exfalso; first [by apply H4|by apply H5].
Qed.

#[export] Instance not_gt_total : Total (not_gt cmp).
Proof. intros a b. unfold not_gt. rewrite (cmp_antisym cmp a b). destruct (cmp a b); simpl; auto. Qed.

#[export] Instance not_gt_trans : Transitive (not_gt cmp).
Proof. intros a b c. apply (cmp_le_trans cmp). Qed.

Lemma not_gt_refl a : not_gt cmp a a.
Proof. unfold not_gt. by rewrite cmp_refl. Qed.

Lemma not_gt_antisym a b : not_gt cmp a b → not_gt cmp b a → cmp a b = Eq.
Proof. unfold not_gt. rewrite (cmp_antisym cmp a b). by destruct (cmp a b). Qed.

Lemma not_not_gt a b : ¬ not_gt cmp a b → not_gt cmp b a.
Proof. intros H. destruct (total (not_gt cmp) a b); done. Qed.

(** A sort by a comparison that separates the elements is determined by its elements. *)
Lemma sort_permutation l l' :
  (∀ x y, x ∈ l → y ∈ l → cmp x y = Eq → x = y) → l ≡ₚ l' →
  merge_sort (not_gt cmp) l = merge_sort (not_gt cmp) l'.
Proof.
  intros Hsep Hl. apply (StronglySorted_unique_strong (not_gt cmp)).
  - intros x y. rewrite !merge_sort_Permutation, <- Hl. intros Hx Hy H1 H2.
    by apply Hsep, not_gt_antisym.
  - apply StronglySorted_merge_sort; apply _.
  - apply StronglySorted_merge_sort; apply _.
  - by rewrite !merge_sort_Permutation.
Qed.

Lemma min_by_spec l :
  match min_by cmp l with
  | None => l = []
  | Some m => m ∈ l ∧ ∀ x, x ∈ l → not_gt cmp m x
  end.
Proof.
  destruct l as [|x l]; [done|]. simpl. revert x. induction l as [|y l IH]; intros x; simpl.
  - split; [by left|]. intros ? ->%list_elem_of_singleton. apply not_gt_refl.
  - set (z := match cmp x y with Gt => y | _ => x end).
    assert ((z = x ∨ z = y) ∧ not_gt cmp z x ∧ not_gt cmp z y) as (Hz & Hx & Hy).
    { subst z. pose proof (not_gt_refl x). pose proof (not_gt_refl y).
      destruct (cmp x y) eqn:E; (split; [tauto|split]); try done; unfold not_gt;
        rewrite ?(cmp_antisym cmp x y), ?E; done. }
    destruct (IH z) as [Hin Hle]. clearbody z. split.
    + apply elem_of_cons in Hin as [->|Hin]; [|set_solver]. destruct Hz as [->| ->]; set_solver.
    + intros w. rewrite !elem_of_cons. intros [->|[->|Hw]].
      * trans z; [apply Hle; by left|done].
      * trans z; [apply Hle; by left|done].
      * apply Hle. by right.
Qed.

Lemma min_by_permutation l l' :
  (∀ x y, x ∈ l → y ∈ l → cmp x y = Eq → x = y) → l ≡ₚ l' → min_by cmp l = min_by cmp l'.
Proof.
  intros Hsep Hl. pose proof (min_by_spec l) as H1. pose proof (min_by_spec l') as H2.
  destruct (min_by cmp l) as [m|], (min_by cmp l') as [m'|]; subst.
  - destruct H1 as [Hm Hle], H2 as [Hm' Hle']. f_equal. rewrite <- Hl in Hm'.
    apply Hsep; [done..|]. apply not_gt_antisym; [by apply Hle|]. apply Hle'. by rewrite <- Hl.
  - destruct H1 as [Hm _]. rewrite Hl in Hm. by apply elem_of_nil in Hm.
  - destruct H2 as [Hm _]. rewrite <- Hl in Hm. by apply elem_of_nil in Hm.
  - done.
Qed.
End comparison.

#[export] Instance then_with_cmp {A} (c1 c2 : A → A → comparison) :
  Comparison c1 → Comparison c2 → Comparison (λ a b, then_with (c1 a b) (c2 a b)).
Proof.
  intros H1 H2. split.
  - intros a b. rewrite (cmp_antisym c1 a b), (cmp_antisym c2 a b).
    by destruct (c1 a b).
  - intros a b c. unfold not_gt, then_with.
    destruct (c1 a b) eqn:E1; [| |done]; (destruct (c1 b c) eqn:E2; [| |done]); intros Ha Hb.
    + rewrite (cmp_eq_trans c1 a b c) by done. by eapply (cmp_le_trans c2).
    + assert (c1 a c = Lt) as ->; [|done].
      destruct (c1 a c) eqn:E3; [|done|].
      * destruct (cmp_eq_inv c1 a b c); unfold not_gt; congruence.
      * exfalso. apply (cmp_le_trans c1 a b c); unfold not_gt; congruence.
    + assert (c1 a c = Lt) as ->; [|done].
      destruct (c1 a c) eqn:E3; [|done|].
      * destruct (cmp_eq_inv c1 a b c); unfold not_gt; congruence.
      * exfalso. apply (cmp_le_trans c1 a b c); unfold not_gt; congruence.
    + assert (c1 a c = Lt) as ->; [|done].
      destruct (c1 a c) eqn:E3; [|done|].
      * destruct (cmp_eq_inv c1 a b c); unfold not_gt; congruence.
      * exfalso. apply (cmp_le_trans c1 a b c); unfold not_gt; congruence.
Qed.

Lemma then_with_eq a b : then_with a b = Eq ↔ a = Eq ∧ b = Eq.
Proof. destruct a; naive_solver. Qed.
