(* ===== verification/Admission.v ===== *)
(** * Deterministic admission policy

    The in-memory queue of morphz/src/admission.rs: fixed priority classes, aging that
    promotes a waiting row one class per interval, and hierarchical round robin over
    agents, contexts and sessions with first-in first-out order inside a session, with the
    capacity decision of the reserved lane.  The queue is polymorphic in the payload its
    caller keeps, as in the source. *)

From stdpp Require Import base list gmap sorting strings.
From Stdlib Require Import ZArith Lia.
From S2P Require Import Prelude Ordering JsonValue.

(** ** Classes *)

(** morphz/src/admission.rs:29-35 [AdmissionClass]. *)
Inductive AdmissionClass : Type :=
| InteractiveControl
| Delivery
| Objective
| ScheduledBackground
| Maintenance.

(** morphz/src/admission.rs:46-48 [AdmissionClass::rank]. *)
Definition rank (c : AdmissionClass) : Z :=
  match c with
  | InteractiveControl => 0
  | Delivery => 1
  | Objective => 2
  | ScheduledBackground => 3
  | Maintenance => 4
  end.

(** morphz/src/admission.rs:60-68 [AdmissionClass::from_rank]. *)
Definition from_rank (rank : Z) : AdmissionClass :=
  match rank with
  | 0%Z => InteractiveControl
  | 1%Z => Delivery
  | 2%Z => Objective
  | 3%Z => ScheduledBackground
  | _ => Maintenance
  end.

(** morphz/src/admission.rs:50-58 [AdmissionClass::as_str]. *)
Definition class_as_str (c : AdmissionClass) : str :=
  match c with
  | InteractiveControl => s! "interactive_control"
  | Delivery => s! "delivery"
  | Objective => s! "objective"
  | ScheduledBackground => s! "scheduled_background"
  | Maintenance => s! "maintenance"
  end.

(** morphz/src/admission.rs:72-74 [AdmissionClass::uses_reserved_lane]. *)
Definition uses_reserved_lane (c : AdmissionClass) : bool :=
  match c with InteractiveControl | Delivery => true | _ => false end.

(** The derived order of the discriminants. *)
Definition class_cmp (a b : AdmissionClass) : comparison := Z.compare (rank a) (rank b).

#[export] Instance class_eq_dec : EqDecision AdmissionClass.
Proof. solve_decision. Defined.

Lemma from_rank_rank c : from_rank (rank c) = c.
Proof. by destruct c. Qed.

#[export] Instance class_countable : Countable AdmissionClass.
Proof. exact (inj_countable' rank from_rank from_rank_rank). Defined.

(** ** Keys and entries *)

(** morphz/src/admission.rs:82-89 [AdmissionKey]. *)
Record AdmissionKey : Type := mkKey {
  k_id : str;
  k_agent_id : str;
  k_context_id : str;
  k_session_id : str;
  k_class : AdmissionClass;
  k_created_at_ms : Z
}.

(** morphz/src/admission.rs:114-117 [AdmissionEntry]. *)
Record AdmissionEntry (T : Type) : Type := mkEntry { e_key : AdmissionKey; e_payload : T }.
Arguments mkEntry {T}.
Arguments e_key {T}.
Arguments e_payload {T}.

#[export] Instance key_eq_dec : EqDecision AdmissionKey.
Proof. solve_decision. Defined.

(** ** Aging *)

(** morphz/src/admission.rs:131-133 [AgingPolicy]. *)
Record AgingPolicy : Type := mkAging { promotion_interval_ms : option Z }.

(** morphz/src/admission.rs:136-140 [AgingPolicy::disabled]. *)
Definition aging_disabled : AgingPolicy := mkAging None.

(** morphz/src/admission.rs:142-146 [AgingPolicy::every]. *)
Definition aging_every (interval : Z) : AgingPolicy := mkAging (Some interval).

(** [i64::saturating_sub]. *)
Definition i64_saturating_sub (a b : Z) : Z := Z.max i64_min (Z.min i64_max (a - b)).

(** morphz/src/admission.rs:148-161 [AgingPolicy::effective_class]; the casts to unsigned
    widths are of values in range. *)
Definition effective_class (aging : AgingPolicy) (declared : AdmissionClass)
    (created_at_ms now_ms : Z) : AdmissionClass :=
  match promotion_interval_ms aging with
  | None => declared
  | Some interval =>
      let interval := Z.max interval 1 in
      let waited_ms := Z.max (i64_saturating_sub now_ms created_at_ms) 0 in
      let promotions := Z.min (waited_ms / interval) (rank declared) in
      from_rank (Z.max (rank declared - promotions) 0)
  end.

(** ** Errors and validation *)

(** morphz/src/admission.rs:173-176 [AdmissionQueueError]. *)
Inductive AdmissionQueueError : Type :=
| EmptyField (id : str) (field : string)
| DuplicateId (id : str).

(** morphz/src/admission.rs:447-462 [validate_key]. *)
Definition validate_key (key : AdmissionKey) : result AdmissionQueueError unit :=
  try_each (λ fv, match fv.2 with [] => Err (EmptyField (k_id key) fv.1) | _ :: _ => Ok tt end)
    [("id"%string, k_id key); ("agent_id"%string, k_agent_id key);
     ("context_id"%string, k_context_id key); ("session_id"%string, k_session_id key)].

(** morphz/src/admission.rs:464-471 [fifo_cmp]. *)
Definition fifo_cmp (left right : AdmissionKey) : comparison :=
  then_with (Z.compare (k_created_at_ms left) (k_created_at_ms right))
    (then_with (str_cmp (k_id left) (k_id right))
       (then_with (str_cmp (k_agent_id left) (k_agent_id right))
          (then_with (str_cmp (k_context_id left) (k_context_id right))
             (str_cmp (k_session_id left) (k_session_id right))))).

(** ** Fairness cursor *)

(** morphz/src/admission.rs:198-202 [FairnessCheckpoint]. *)
Record FairnessCheckpoint : Type := mkCheckpoint {
  last_agent_by_class : list (AdmissionClass * str);
  last_context_by_agent : list (AdmissionClass * str * str);
  last_session_by_context : list (AdmissionClass * str * str * str)
}.
Definition checkpoint_default : FairnessCheckpoint := mkCheckpoint [] [] [].

(** morphz/src/admission.rs:205-209 [FairnessCursor]; a [BTreeMap] is a finite map read in
    key order by [btree_entries]. *)
Record FairnessCursor : Type := mkCursor {
  agents : gmap AdmissionClass str;
  contexts : gmap (AdmissionClass * str) str;
  sessions : gmap (AdmissionClass * str * str) str
}.
Definition cursor_default : FairnessCursor := mkCursor ∅ ∅ ∅.

(** [collect] into a [BTreeMap]: a later entry replaces an earlier one. *)
Definition btree_collect `{Countable K} {V} (l : list (K * V)) : gmap K V :=
  fold_left (λ m kv, <[kv.1 := kv.2]> m) l ∅.

(** The entries of a [BTreeMap] in key order. *)
Definition btree_entries `{Countable K} {V} (cmp : K → K → comparison) (m : gmap K V)
    : list (K * V) :=
  merge_sort (not_gt (λ a b, cmp a.1 b.1)) (map_to_list m).

Definition agent_cmp (a b : AdmissionClass * str) : comparison :=
  then_with (class_cmp a.1 b.1) (str_cmp a.2 b.2).
Definition context_cmp (a b : AdmissionClass * str * str) : comparison :=
  then_with (agent_cmp a.1 b.1) (str_cmp a.2 b.2).

(** morphz/src/admission.rs:212-226 [FairnessCursor::from_checkpoint]. *)
Definition from_checkpoint (c : FairnessCheckpoint) : FairnessCursor :=
  mkCursor (btree_collect (last_agent_by_class c)) (btree_collect (last_context_by_agent c))
    (btree_collect (last_session_by_context c)).

(** morphz/src/admission.rs:228-248 [FairnessCursor::checkpoint]. *)
Definition checkpoint (c : FairnessCursor) : FairnessCheckpoint :=
  mkCheckpoint (btree_entries class_cmp (agents c)) (btree_entries agent_cmp (contexts c))
    (btree_entries context_cmp (sessions c)).

(** ** Groups *)

(** morphz/src/admission.rs:474-478 [GroupHead]. *)
Record GroupHead : Type := mkHead {
  gh_id : str;
  oldest_created_at_ms : Z;
  oldest_id : str
}.

(** morphz/src/admission.rs:481-488 [GroupHead::update_if_older]. *)
Definition update_if_older (head : GroupHead) (key : AdmissionKey) : GroupHead :=
  match then_with (Z.compare (k_created_at_ms key) (oldest_created_at_ms head))
          (str_cmp (k_id key) (oldest_id head)) with
  | Lt => mkHead (gh_id head) (k_created_at_ms key) (k_id key)
  | _ => head
  end.

(** morphz/src/admission.rs:493-498 [ordered_group_ids, the order]. *)
Definition head_cmp (left right : GroupHead) : comparison :=
  then_with (Z.compare (oldest_created_at_ms left) (oldest_created_at_ms right))
    (then_with (str_cmp (oldest_id left) (oldest_id right))
       (str_cmp (gh_id left) (gh_id right))).

(** morphz/src/admission.rs:491-500 [ordered_group_ids]. *)
Definition ordered_group_ids (groups : gmap str GroupHead) : list str :=
  map gh_id (merge_sort (not_gt head_cmp) (map snd (map_to_list groups))).

(** [Iterator::position]. *)
Fixpoint position {A} (p : A → bool) (l : list A) : option nat :=
  match l with
  | [] => None
  | x :: r => if p x then Some 0%nat else S <$> position p r
  end.

(** morphz/src/admission.rs:502-511 [next_group]. *)
Definition next_group (groups : list str) (last : option str) : option str :=
  match groups with
  | [] => None
  | _ :: _ =>
      let index :=
        match last ≫= λ l, position (λ group, group =s l) groups with
        | Some i => ((i + 1) mod length groups)%nat
        | None => 0%nat
        end in
      groups !! index
  end.

(** morphz/src/admission.rs:513-532 [group_heads]; an index of the source is kept with the
    entry's key it denotes, so that the loop runs over the keys. *)
Definition group_heads (keys : list AdmissionKey) (id : AdmissionKey → str)
    : gmap str GroupHead :=
  fold_left (λ groups key,
    let group_id := id key in
    <[group_id := match groups !! group_id with
                  | Some head => update_if_older head key
                  | None => mkHead group_id (k_created_at_ms key) (k_id key)
                  end]> groups) keys ∅.

(** ** The queue *)

(** morphz/src/admission.rs:259-264 [FairAdmissionQueue]. *)
Record FairAdmissionQueue (T : Type) : Type := mkQueue {
  entries : list (AdmissionEntry T);
  ids : gset str;
  q_cursor : FairnessCursor;
  q_aging : AgingPolicy
}.
Arguments mkQueue {T}.
Arguments entries {T}.
Arguments ids {T}.
Arguments q_cursor {T}.
Arguments q_aging {T}.

(** [Vec::swap_remove]; [None] stands for its panic on an index out of range. *)
Definition swap_remove {A} (l : list A) (index : nat) : option (A * list A) :=
  x ← l !! index; y ← last l; Some (x, removelast (<[index := y]> l)).

Section queue.
Context {T : Type}.
Implicit Types (q : FairAdmissionQueue T) (aging : AgingPolicy).

(** morphz/src/admission.rs:267-274 [FairAdmissionQueue::new]. *)
Definition queue_new aging : FairAdmissionQueue T := mkQueue [] ∅ cursor_default aging.

(** morphz/src/admission.rs:305-312 [FairAdmissionQueue::push]. *)
Definition push q (entry : AdmissionEntry T) : result AdmissionQueueError (FairAdmissionQueue T) :=
  _ ← validate_key (e_key entry);
  if decide (k_id (e_key entry) ∈ ids q) then Err (DuplicateId (k_id (e_key entry)))
  else Ok (mkQueue (entries q ++ [entry]) ({[k_id (e_key entry)]} ∪ ids q) (q_cursor q) (q_aging q)).

(** morphz/src/admission.rs:283-303 [FairAdmissionQueue::rebuild_with_checkpoint]. *)
Definition rebuild_with_checkpoint (rows : list (AdmissionEntry T)) aging (c : FairnessCheckpoint)
    : result AdmissionQueueError (FairAdmissionQueue T) :=
  q ← foldM push (mkQueue [] ∅ (from_checkpoint c) aging) rows;
  Ok (mkQueue (merge_sort (not_gt (λ l r, fifo_cmp (e_key l) (e_key r))) (entries q))
        (ids q) (q_cursor q) (q_aging q)).

(** morphz/src/admission.rs:276-281 [FairAdmissionQueue::rebuild]. *)
Definition rebuild (rows : list (AdmissionEntry T)) aging
    : result AdmissionQueueError (FairAdmissionQueue T) :=
  rebuild_with_checkpoint rows aging checkpoint_default.

(** morphz/src/admission.rs:330-334 [FairAdmissionQueue::remove]. *)
Definition remove q (id : str) : option (AdmissionEntry T) * FairAdmissionQueue T :=
  match position (λ entry, k_id (e_key entry) =s id) (entries q) with
  | None => (None, q)
  | Some index =>
      match swap_remove (entries q) index with
      | Some (entry, rest) =>
          (Some entry, mkQueue rest (ids q ∖ {[id]}) (q_cursor q) (q_aging q))
      | None => (None, q)
      end
  end.

(** morphz/src/admission.rs:541-551 [select_index]: the admissible entries with their index
    and effective class. *)
Definition eligible (es : list (AdmissionEntry T)) aging (now_ms : Z)
    (admissible : AdmissionKey → T → bool) : list (nat * AdmissionKey * AdmissionClass) :=
  map (λ ie, (ie.1, e_key ie.2, effective_class aging (k_class (e_key ie.2))
                                  (k_created_at_ms (e_key ie.2)) now_ms))
    (filter (λ ie, admissible (e_key ie.2) (e_payload ie.2) = true) (imap pair es)).

(** morphz/src/admission.rs:558-566 [select_index]: one level of the round robin, the group
    served next and its members; the levels of contexts (568-576) and sessions (578-592)
    are the same computation on another field. *)
Definition narrow (id : AdmissionKey → str) (last : option str) (rows : list (nat * AdmissionKey))
    : option (str * list (nat * AdmissionKey)) :=
  g ← next_group (ordered_group_ids (group_heads (map snd rows) id)) last;
  Some (g, filter (λ row, id row.2 = g) rows).

(** morphz/src/admission.rs:534-594 [select_index]. *)
Definition select_index (es : list (AdmissionEntry T)) (cursor : FairnessCursor) aging
    (now_ms : Z) (admissible : AdmissionKey → T → bool) : option nat :=
  let candidates := eligible es aging now_ms admissible in
  class ← min_by class_cmp (map snd candidates);
  let class_rows := map fst (filter (λ row, row.2 = class) candidates) in
  '(agent, agent_rows) ← narrow k_agent_id (agents cursor !! class) class_rows;
  '(context, context_rows) ← narrow k_context_id (contexts cursor !! (class, agent)) agent_rows;
  '(_, session_rows) ← narrow k_session_id (sessions cursor !! (class, agent, context)) context_rows;
  fst <$> min_by (λ l r, fifo_cmp l.2 r.2) session_rows.

(** morphz/src/admission.rs:340-353 [FairAdmissionQueue::peek_next_where]. *)
Definition peek_next_where q (now_ms : Z) (admissible : AdmissionKey → T → bool)
    : option (AdmissionEntry T) :=
  index ← select_index (entries q) (q_cursor q) (q_aging q) now_ms admissible;
  entries q !! index.

(** morphz/src/admission.rs:336-338 [FairAdmissionQueue::peek_next]. *)
Definition peek_next q (now_ms : Z) : option (AdmissionEntry T) :=
  peek_next_where q now_ms (λ _ _, true).

(** morphz/src/admission.rs:377-389 [pop_next_where, the cursor after a row is served]. *)
Definition advance_cursor (class : AdmissionClass) (key : AdmissionKey) (c : FairnessCursor)
    : FairnessCursor :=
  mkCursor (<[class := k_agent_id key]> (agents c))
    (<[(class, k_agent_id key) := k_context_id key]> (contexts c))
    (<[(class, k_agent_id key, k_context_id key) := k_session_id key]> (sessions c)).

(** morphz/src/admission.rs:361-392 [FairAdmissionQueue::pop_next_where]; the option also
    covers the index panics, which [pop_peek] shows unreachable. *)
Definition pop_next_where q (now_ms : Z) (admissible : AdmissionKey → T → bool)
    : option (AdmissionEntry T * FairAdmissionQueue T) :=
  index ← select_index (entries q) (q_cursor q) (q_aging q) now_ms admissible;
  selected ← entries q !! index;
  let key := e_key selected in
  let class := effective_class (q_aging q) (k_class key) (k_created_at_ms key) now_ms in
  '(entry, rest) ← swap_remove (entries q) index;
  Some (entry, mkQueue rest (ids q ∖ {[k_id key]}) (advance_cursor class key (q_cursor q)) (q_aging q)).

(** morphz/src/admission.rs:355-357 [FairAdmissionQueue::pop_next]. *)
Definition pop_next q (now_ms : Z) : option (AdmissionEntry T * FairAdmissionQueue T) :=
  pop_next_where q now_ms (λ _ _, true).
End queue.

(** ** Capacity *)

(** morphz/src/admission.rs:396-401 [ReservedLaneCapacity]. *)
Record ReservedLaneCapacity : Type := mkCapacity {
  total_slots : N;
  dialogue_delivery_slots : N
}.

(** morphz/src/admission.rs:404-407 [InFlightUsage]. *)
Record InFlightUsage : Type := mkUsage { u_total : N; u_dialogue_delivery : N }.

(** morphz/src/admission.rs:410-414 [CapacityDecision]. *)
Inductive CapacityDecision : Type :=
| Admit
| AtCapacity
| ReservedForDialogueDelivery.

#[export] Instance decision_eq_dec : EqDecision CapacityDecision.
Proof. solve_decision. Defined.

(** morphz/src/admission.rs:421-445 [reserved_lane_decision]; [N] subtraction saturates. *)
Definition reserved_lane_decision (class : AdmissionClass) (capacity : ReservedLaneCapacity)
    (in_flight : InFlightUsage) : CapacityDecision :=
  if (total_slots capacity =? 0)%N || (total_slots capacity <=? u_total in_flight)%N
  then AtCapacity
  else if uses_reserved_lane class then Admit
  else
    let reserved :=
      if (total_slots capacity <? dialogue_delivery_slots capacity)%N
      then total_slots capacity else dialogue_delivery_slots capacity in
    let unused_reservation := (reserved - u_dialogue_delivery in_flight)%N in
    let free_slots := (total_slots capacity - u_total in_flight)%N in
    if (unused_reservation <? free_slots)%N then Admit else ReservedForDialogueDelivery.
