(* ===== verification/AdmissionFacts.v ===== *)
(** * The admission queue: order, fairness and recovery

    Facts of the admission policy: its comparisons are total preorders, the groups of
    a round-robin level depend only on the set of waiting rows, and the row a pop
    serves is characterised by [fair_choice]. *)

From stdpp Require Import base list gmap sorting strings.
From Stdlib Require Import ZArith Lia.
From S2P Require Import Prelude Ordering JsonValue Admission.

(** ** Comparison functions *)

#[export] Instance class_cmp_on {A} (f : A → AdmissionClass) : Comparison (λ a b, class_cmp (f a) (f b)).
Proof. exact (Z_compare_on (λ a, rank (f a))). Qed.

#[export] Instance fifo_cmp_on {A} (f : A → AdmissionKey) : Comparison (λ a b, fifo_cmp (f a) (f b)).
Proof. unfold fifo_cmp. apply _. Qed.

#[export] Instance head_cmp_ok : Comparison head_cmp.
Proof. unfold head_cmp. apply _. Qed.

Lemma class_cmp_eq a b : class_cmp a b = Eq ↔ a = b.
Proof. unfold class_cmp. rewrite Z.compare_eq_iff. destruct a, b; simpl; split; congruence || done. Qed.

Lemma fifo_cmp_id a b : fifo_cmp a b = Eq → k_id a = k_id b.
Proof. unfold fifo_cmp. rewrite !then_with_eq, !str_cmp_eq. tauto. Qed.

(** ** Groups *)

(** The age of a row: its persisted time and identifier. *)
Definition age_cmp (a b : Z * str) : comparison := then_with (Z.compare a.1 b.1) (str_cmp a.2 b.2).
#[export] Instance age_cmp_ok : Comparison age_cmp.
Proof. apply (then_with_cmp (λ a b, Z.compare (fst a) (fst b)) (λ a b, str_cmp (snd a) (snd b))); apply _. Qed.

Lemma age_cmp_eq a b : age_cmp a b = Eq ↔ a = b.
Proof.
  unfold age_cmp. rewrite then_with_eq, Z.compare_eq_iff, str_cmp_eq. destruct a, b; simpl.
  naive_solver.
Qed.

Definition older (a b : Z * str) : Z * str := match age_cmp b a with Lt => b | _ => a end.
Definition key_age (k : AdmissionKey) : Z * str := (k_created_at_ms k, k_id k).
Definition head_age (h : GroupHead) : Z * str := (oldest_created_at_ms h, oldest_id h).

Lemma older_le_l a b : not_gt age_cmp (older a b) a.
Proof.
  unfold older. destruct (age_cmp b a) eqn:E; [apply not_gt_refl, _|by unfold not_gt; rewrite E|apply not_gt_refl, _].
Qed.

Lemma older_le_r a b : not_gt age_cmp (older a b) b.
Proof.
  unfold older. destruct (age_cmp b a) eqn:E; [|apply not_gt_refl, _|];
    unfold not_gt; rewrite (cmp_antisym age_cmp b a), E; done.
Qed.

Lemma older_cases a b : older a b = a ∨ older a b = b.
Proof. unfold older. destruct (age_cmp b a); auto. Qed.

Lemma older_least a b c : not_gt age_cmp c a → not_gt age_cmp c b → not_gt age_cmp c (older a b).
Proof. destruct (older_cases a b) as [-> | ->]; done. Qed.

Lemma older_right_comm a b c : older (older a b) c = older (older a c) b.
Proof.
  assert (∀ a b c, not_gt age_cmp (older (older a b) c) (older (older a c) b)) as Hle.
  { intros x y z. apply older_least; [apply older_least|].
    - trans (older x y); [apply older_le_l|apply older_le_l].
    - apply older_le_r.
    - trans (older x y); [apply older_le_l|apply older_le_r]. }
  by apply age_cmp_eq, not_gt_antisym; [apply _|..].
Qed.

Lemma update_if_older_age h k :
  update_if_older h k = mkHead (gh_id h) (older (head_age h) (key_age k)).1
                          (older (head_age h) (key_age k)).2.
Proof.
  destruct h as [g c i]. unfold update_if_older, older, age_cmp, head_age, key_age. simpl.
  by destruct (then_with _ _).
Qed.

Definition head_of (g : str) (a : Z * str) : GroupHead := mkHead g a.1 a.2.

Lemma update_head_of g a k : update_if_older (head_of g a) k = head_of g (older a (key_age k)).
Proof. rewrite update_if_older_age. unfold head_age. simpl. by destruct a. Qed.

Lemma head_of_age h : head_of (gh_id h) (head_age h) = h.
Proof. by destruct h. Qed.

Lemma head_of_key g k : mkHead g (k_created_at_ms k) (k_id k) = head_of g (key_age k).
Proof. done. Qed.

Lemma older_comm a b : older a b = older b a.
Proof.
  apply age_cmp_eq, not_gt_antisym; [apply _|apply older_least..];
    first [apply older_le_l|apply older_le_r].
Qed.

Definition group_step (id : AdmissionKey → str) (groups : gmap str GroupHead) (key : AdmissionKey)
    : gmap str GroupHead :=
  <[id key := match groups !! id key with
              | Some head => update_if_older head key
              | None => mkHead (id key) (k_created_at_ms key) (k_id key)
              end]> groups.

Lemma group_heads_snoc keys k id : group_heads (keys ++ [k]) id = group_step id (group_heads keys id) k.
Proof. unfold group_heads. by rewrite fold_left_app. Qed.

Lemma group_step_comm id m x y : group_step id (group_step id m x) y = group_step id (group_step id m y) x.
Proof.
  unfold group_step. destruct (decide (id x = id y)) as [Hxy|Hne].
  - rewrite <- Hxy, !lookup_insert_eq, !insert_insert_eq. f_equal.
    destruct (m !! id x) as [h|].
    + rewrite <- (head_of_age h), !update_head_of. f_equal. apply older_right_comm.
    + rewrite !head_of_key, !update_head_of. f_equal. apply older_comm.
  - rewrite !lookup_insert_ne by done. by apply insert_insert_ne.
Qed.

Lemma group_heads_permutation l l' id : l ≡ₚ l' → group_heads l id = group_heads l' id.
Proof.
  unfold group_heads. generalize (∅ : gmap str GroupHead). intros m Hl. revert m.
  induction Hl as [|x l l' _ IH|x y l|l1 l2 l3 _ IH1 _ IH2]; intros m; simpl; [done|apply IH| |by rewrite IH1].
  f_equal. apply (group_step_comm id m y x).
Qed.

(** The groups of a level: one per value of the field, named by it, with the age of its
    oldest row. *)
Lemma group_heads_lookup keys id g :
  match group_heads keys id !! g with
  | Some h => gh_id h = g ∧ (∃ k, k ∈ keys ∧ id k = g ∧ head_age h = key_age k) ∧
              ∀ k, k ∈ keys → id k = g → not_gt age_cmp (head_age h) (key_age k)
  | None => ∀ k, k ∈ keys → id k ≠ g
  end.
Proof.
  induction keys as [|k keys IH] using rev_ind.
  { unfold group_heads. simpl. rewrite lookup_empty. by intros k ?%elem_of_nil. }
  rewrite group_heads_snoc. unfold group_step. destruct (decide (id k = g)) as [<-|Hne].
  - rewrite lookup_insert_eq. destruct (group_heads keys id !! id k) as [h|].
    + destruct IH as (Hid & (k0 & Hk0 & Hg0 & Hage) & Hle). rewrite update_if_older_age.
      split_and!; [done| |].
      * unfold head_age at 1. simpl. rewrite <- surjective_pairing.
        destruct (older_cases (head_age h) (key_age k)) as [-> | ->]; [exists k0|exists k]; set_solver.
      * unfold head_age at 1. simpl. rewrite <- surjective_pairing.
        intros k1 [Hk1|Hk1]%elem_of_app Hg1.
        { trans (head_age h); [apply older_le_l|by apply Hle]. }
        apply list_elem_of_singleton in Hk1 as ->. apply older_le_r.
    + split_and!; [done|exists k; set_solver|].
      intros k1 [Hk1|Hk1]%elem_of_app Hg1; [by apply IH in Hk1|].
      apply list_elem_of_singleton in Hk1 as ->. apply not_gt_refl, _.
  - rewrite lookup_insert_ne by done. destruct (group_heads keys id !! g) as [h|]; set_solver.
Qed.

Lemma group_heads_named keys id g h : group_heads keys id !! g = Some h → gh_id h = g.
Proof. intros Hg. pose proof (group_heads_lookup keys id g) as Hl. rewrite Hg in Hl. apply Hl. Qed.

(** The values of a group map, in any order. *)
Definition named_groups (m : gmap str GroupHead) : Prop := ∀ g h, m !! g = Some h → gh_id h = g.

Lemma named_values m x : x ∈ map snd (map_to_list m) → named_groups m → m !! gh_id x = Some x.
Proof.
  intros ([g h] & -> & Hx%elem_of_map_to_list)%list_elem_of_fmap Hm. simpl in *.
  by rewrite (Hm _ _ Hx).
Qed.

Lemma head_cmp_named m x y :
  named_groups m → x ∈ map snd (map_to_list m) → y ∈ map snd (map_to_list m) →
  head_cmp x y = Eq → x = y.
Proof.
  intros Hm Hx Hy. unfold head_cmp. rewrite !then_with_eq, !str_cmp_eq. intros (_ & _ & Hid).
  apply named_values in Hx, Hy; try done. congruence.
Qed.

Lemma ordered_group_elem m g : named_groups m → g ∈ ordered_group_ids m ↔ is_Some (m !! g).
Proof.
  intros Hm. unfold ordered_group_ids. rewrite list_elem_of_fmap. split.
  - intros (h & -> & Hh). rewrite merge_sort_Permutation in Hh. apply named_values in Hh; eauto.
  - intros [h Hh]. exists h. split; [symmetry; by apply Hm|]. rewrite merge_sort_Permutation.
    apply list_elem_of_fmap. exists (g, h). split; [done|]. by apply elem_of_map_to_list.
Qed.

Lemma ordered_group_NoDup m : named_groups m → NoDup (ordered_group_ids m).
Proof.
  intros Hm. unfold ordered_group_ids. change (NoDup (gh_id <$> merge_sort (not_gt head_cmp) (snd <$> map_to_list m))).
  rewrite merge_sort_Permutation, <- list_fmap_compose.
  assert (∀ l : list (str * GroupHead), Forall (λ gh, gh_id gh.2 = gh.1) l → (gh_id ∘ snd) <$> l = l.*1) as Heq.
  { induction 1 as [|[g h] l E _ IH]; [done|]. rewrite !fmap_cons, IH. simpl in *. by rewrite E. }
  rewrite Heq; [apply NoDup_fst_map_to_list|].
  apply Forall_forall. intros [g h] Hgh%elem_of_map_to_list. by apply Hm.
Qed.

(** The first group has the oldest row. *)
Lemma ordered_group_head m g gs h' g' :
  named_groups m → ordered_group_ids m = g :: gs → m !! g' = Some h' →
  ∃ h, m !! g = Some h ∧ not_gt age_cmp (head_age h) (head_age h').
Proof.
  unfold ordered_group_ids. intros Hm Heq Hg'.
  pose proof (StronglySorted_merge_sort (not_gt head_cmp) (map snd (map_to_list m))) as Hs.
  pose proof (merge_sort_Permutation (not_gt head_cmp) (map snd (map_to_list m))) as Hp.
  destruct (merge_sort _ _) as [|h hs]; [done|]. simpl in Heq. injection Heq as Hgh Hgs.
  exists h. split.
  - rewrite <- Hgh. apply named_values; [|done]. rewrite <- Hp. by left.
  - assert (h' ∈ h :: hs) as Hin.
    { rewrite Hp. apply list_elem_of_fmap. exists (g', h'). split; [done|]. by apply elem_of_map_to_list. }
    assert (not_gt head_cmp h h') as Hle.
    { apply elem_of_cons in Hin as [->|Hin]; [apply not_gt_refl, _|].
      inversion Hs as [|? ? _ Hall]; subst. rewrite Forall_forall in Hall. by apply Hall. }
    unfold not_gt, head_cmp, age_cmp in *. simpl. destruct (Z.compare _ _); simpl in *; try done.
    by destruct (str_cmp (oldest_id h) (oldest_id h')).
Qed.

(** ** One level of the round robin *)

Lemma position_spec {A} (p : A → bool) l :
  match position p l with
  | Some i => ∃ x, l !! i = Some x ∧ p x = true
  | None => ∀ x, x ∈ l → p x = false
  end.
Proof.
  induction l as [|x l IH]; simpl; [by intros ? ?%elem_of_nil|].
  destruct (p x) eqn:E; [by exists x|]. destruct (position p l) as [i|]; simpl; [done|].
  intros y [->|Hy]%elem_of_cons; auto.
Qed.

(** The next group exists unless there is none, is another one than the last served
    unless that is alone, and is the first one when the last served has left. *)
Lemma next_group_spec gs last :
  match next_group gs last with
  | None => gs = []
  | Some g => g ∈ gs ∧ (NoDup gs → last = Some g → gs = [g]) ∧
              ((∀ l, last = Some l → l ∉ gs) → head gs = Some g)
  end.
Proof.
  destruct gs as [|g0 gs]; [done|]. unfold next_group.
  set (index := match last ≫= _ with Some i => _ | None => _ end).
  assert (index < length (g0 :: gs))%nat as Hlt.
  { subst index. destruct (_ ≫= _); [apply Nat.mod_upper_bound; discriminate|apply Nat.lt_0_succ]. }
  destruct ((g0 :: gs) !! index) as [g|] eqn:Hg.
  2: { by apply lookup_ge_None in Hg; lia. }
  split; [by eapply list_elem_of_lookup_2|split].
  - intros Hnd ->. subst index. cbn [mbind option_bind] in Hg.
    pose proof (position_spec (λ group, group =s g) (g0 :: gs)) as Hp.
    destruct (position _ (g0 :: gs)) as [i|].
    2: { exfalso. apply list_elem_of_lookup_2, Hp in Hg. by rewrite str_eqb_refl in Hg. }
    destruct Hp as (x & Hx & ->%str_eqb_eq).
    pose proof (NoDup_lookup _ _ _ _ Hnd Hx Hg) as Hi. apply lookup_lt_Some in Hx.
    destruct (decide (i + 1 = length (g0 :: gs))%nat) as [Hend|Hin].
    + rewrite Hend, Nat.Div0.mod_same in Hi. subst i.
      destruct gs; [simpl in Hg; congruence|simpl in Hend; lia].
    + rewrite Nat.mod_small in Hi by lia. lia.
  - intros Hno. subst index. destruct last as [l|]; cbn [mbind option_bind] in Hg; [|simpl in *; congruence].
    pose proof (position_spec (λ group, group =s l) (g0 :: gs)) as Hp.
    destruct (position _ (g0 :: gs)) as [i|]; [|simpl in *; congruence].
    destruct Hp as (x & Hx & ->%str_eqb_eq). exfalso. eapply Hno; [done|].
    by eapply list_elem_of_lookup_2.
Qed.

Section level.
Context (id : AdmissionKey → str).
Implicit Types (rows : list (nat * AdmissionKey)).

Lemma groups_named keys : named_groups (group_heads keys id).
Proof. intros g h. apply group_heads_named. Qed.

Lemma groups_elem keys g : g ∈ ordered_group_ids (group_heads keys id) ↔ ∃ k, k ∈ keys ∧ id k = g.
Proof.
  rewrite ordered_group_elem by apply groups_named.
  pose proof (group_heads_lookup keys id g) as H. destruct (group_heads keys id !! g) as [h|].
  - destruct H as (_ & (k & Hk & Hg & _) & _). split; eauto.
  - split; [by intros [? ?]|]. intros (k & Hk & Hg). by apply H in Hk.
Qed.

(** What one level of the round robin chooses. *)
Lemma narrow_spec last rows :
  match narrow id last rows with
  | None => rows = []
  | Some (g, rows') =>
      rows' = filter (λ row, id row.2 = g) rows ∧ (∃ r, r ∈ rows ∧ id r.2 = g) ∧
      (last = Some g → ∀ r, r ∈ rows → id r.2 = g) ∧
      (last = None → ∃ r, r ∈ rows ∧ id r.2 = g ∧
                          ∀ r', r' ∈ rows → not_gt age_cmp (key_age r.2) (key_age r'.2))
  end.
Proof.
  unfold narrow. set (keys := map snd rows). set (gs := ordered_group_ids (group_heads keys id)).
  pose proof (next_group_spec gs last) as Hn.
  assert (∀ r, r ∈ rows → r.2 ∈ keys) as Hkeys by (intros r Hr; by apply list_elem_of_fmap_2).
  destruct (next_group gs last) as [g|]; simpl.
  - destruct Hn as (Hg & Hlast & Hhead).
    assert (∃ r, r ∈ rows ∧ id r.2 = g) as Hr.
    { apply groups_elem in Hg as (k & (r & -> & Hr)%list_elem_of_fmap & Hid). eauto. }
    split_and!; [done|done| |].
    + intros ->. rewrite (Hlast (ordered_group_NoDup _ (groups_named keys)) eq_refl) in *.
      intros r Hrow. assert (id r.2 ∈ gs) as Hin by (apply groups_elem; eauto).
      subst gs. rewrite (Hlast (ordered_group_NoDup _ (groups_named keys)) eq_refl) in Hin.
      by apply list_elem_of_singleton in Hin.
    + intros ->. assert (head gs = Some g) as Hh by (by apply Hhead). subst gs.
      destruct (ordered_group_ids _) as [|g0 gs] eqn:Hgs; [done|]. simpl in Hh. injection Hh as ->.
      pose proof (group_heads_lookup keys id g) as Hlk.
      destruct (group_heads keys id !! g) as [h|] eqn:Hgh.
      2: { destruct Hr as (r & Hr & Hid). exfalso. by apply (Hlk r.2); auto. }
      destruct Hlk as (_ & (k & Hk & Hid & Hage) & _).
      apply list_elem_of_fmap in Hk as (r & -> & Hrow). exists r. split_and!; [done..|].
      intros r' Hr'. pose proof (group_heads_lookup keys id (id r'.2)) as Hlk'.
      destruct (group_heads keys id !! id r'.2) as [h'|] eqn:Hgh'.
      2: { exfalso. by apply (Hlk' r'.2); auto. }
      destruct Hlk' as (_ & _ & Hle).
      destruct (ordered_group_head _ _ _ _ _ (groups_named keys) Hgs Hgh') as (h0 & Hh0 & Hle0).
      rewrite Hgh in Hh0. injection Hh0 as <-. rewrite <- Hage.
      trans (head_age h'); [done|by apply Hle; auto].
  - destruct rows as [|r rows]; [done|]. exfalso.
    assert (id r.2 ∈ gs) as Hin by (apply groups_elem; exists r.2; split; [by left|done]).
    rewrite Hn in Hin. by apply elem_of_nil in Hin.
Qed.

Lemma narrow_sub last rows g rows' r : narrow id last rows = Some (g, rows') → r ∈ rows' → r ∈ rows.
Proof.
  intros Hn. pose proof (narrow_spec last rows) as Hs. rewrite Hn in Hs. destruct Hs as [-> _].
  by intros [_ Hr]%list_elem_of_filter.
Qed.

(** The chosen group depends only on the keys of the rows, not on their order. *)
Lemma narrow_permutation last rows rows' :
  map snd rows ≡ₚ map snd rows' →
  match narrow id last rows, narrow id last rows' with
  | Some (g, s), Some (g', s') => g = g' ∧ map snd s ≡ₚ map snd s'
  | None, None => True
  | _, _ => False
  end.
Proof.
  intros Hp. unfold narrow. rewrite (group_heads_permutation _ _ id Hp).
  destruct (next_group _ last) as [g|]; simpl; [|done]. split; [done|].
  assert (∀ l : list (nat * AdmissionKey), map snd (filter (λ row, id row.2 = g) l) = filter (λ k, id k = g) (map snd l)) as Hf.
  { clear. induction l as [|r l IH]; [done|]. simpl. rewrite !filter_cons.
    destruct (decide (id r.2 = g)); simpl; by rewrite IH. }
  rewrite !Hf. by apply filter_Permutation.
Qed.
End level.

(** ** The selected row *)

(** Whose turn it is among the peers of a level: the last served group only when it is
    alone, and the group of the oldest peer when none was served yet. *)
Definition turn (last : option str) (id : AdmissionKey → str) (key : AdmissionKey)
    (peers : AdmissionKey → Prop) : Prop :=
  (last = Some (id key) → ∀ k, peers k → id k = id key) ∧
  (last = None → ∃ k0, peers k0 ∧ id k0 = id key ∧
                       ∀ k, peers k → not_gt age_cmp (key_age k0) (key_age k)).

Section select.
Context {T : Type}.
Implicit Types (es : list (AdmissionEntry T)) (e : AdmissionEntry T).

Section choice.
Context (es : list (AdmissionEntry T)) (cursor : FairnessCursor) (aging : AgingPolicy) (now_ms : Z)
  (admissible : AdmissionKey → T → bool).

Definition admitted e : Prop := e ∈ es ∧ admissible (e_key e) (e_payload e) = true.
Definition eff (k : AdmissionKey) : AdmissionClass :=
  effective_class aging (k_class k) (k_created_at_ms k) now_ms.

(** The keys of the admissible rows of a class. *)
Definition of_class (c : AdmissionClass) (k : AdmissionKey) : Prop :=
  ∃ e, admitted e ∧ e_key e = k ∧ eff k = c.

(** The row a pop serves: an admissible row of the most urgent effective class, of the agent,
    context and session whose turn it is, and the oldest of that session. *)
Definition fair_choice (e : AdmissionEntry T) : Prop :=
  let key := e_key e in
  let class := eff key in
  let of_agent k := of_class class k ∧ k_agent_id k = k_agent_id key in
  let of_context k := of_agent k ∧ k_context_id k = k_context_id key in
  let of_session k := of_context k ∧ k_session_id k = k_session_id key in
  admitted e ∧
  (∀ e', admitted e' → (rank class <= rank (eff (e_key e')))%Z) ∧
  turn (agents cursor !! class) k_agent_id key (of_class class) ∧
  turn (contexts cursor !! (class, k_agent_id key)) k_context_id key of_agent ∧
  turn (sessions cursor !! (class, k_agent_id key, k_context_id key)) k_session_id key of_context ∧
  (∀ k, of_session k → not_gt fifo_cmp key k).

Definition select : option nat := select_index es cursor aging now_ms admissible.

Lemma eligible_elem i k c :
  (i, k, c) ∈ eligible es aging now_ms admissible ↔
  ∃ e, es !! i = Some e ∧ admissible (e_key e) (e_payload e) = true ∧ k = e_key e ∧ c = eff k.
Proof.
  unfold eligible. rewrite list_elem_of_fmap. split.
  - intros ([i' e] & [= -> -> ->] & Hin). apply list_elem_of_filter in Hin as [Hadm Hin].
    apply elem_of_lookup_imap in Hin as (j & e' & [= -> ->] & Hj). eauto.
  - intros (e & Hi & Hadm & -> & ->). exists (i, e). split; [done|].
    apply list_elem_of_filter. split; [done|]. apply elem_of_lookup_imap. eauto.
Qed.

Definition class_rows (c : AdmissionClass) : list (nat * AdmissionKey) :=
  map fst (filter (λ row, row.2 = c) (eligible es aging now_ms admissible)).

Lemma class_rows_elem c i k :
  (i, k) ∈ class_rows c ↔
  ∃ e, es !! i = Some e ∧ admissible (e_key e) (e_payload e) = true ∧ k = e_key e ∧ c = eff k.
Proof.
  unfold class_rows. rewrite list_elem_of_fmap. split.
  - intros ([[i' k'] c'] & [= -> ->] & [Hc Hin]%list_elem_of_filter). simpl in Hc. subst.
    by apply eligible_elem in Hin.
  - intros He. exists (i, k, c). split; [done|]. apply list_elem_of_filter.
    split; [done|]. by apply eligible_elem.
Qed.

Lemma class_rows_of_class c k : (∃ i, (i, k) ∈ class_rows c) ↔ of_class c k.
Proof.
  split.
  - intros (i & (e & Hi & Hadm & -> & ->)%class_rows_elem). exists e.
    split_and!; [|done|done]. split; [by eapply list_elem_of_lookup_2|done].
  - intros (e & [(i & Hi)%list_elem_of_lookup Hadm] & <- & <-). exists i.
    apply class_rows_elem. eauto.
Qed.

Lemma turn_narrow last id rows g rows' (peers : AdmissionKey → Prop) key :
  (∀ k, peers k ↔ ∃ i, (i, k) ∈ rows) → narrow id last rows = Some (g, rows') → id key = g →
  turn last id key peers.
Proof.
  intros Hpeers Hn <-. pose proof (narrow_spec id last rows) as Hs. rewrite Hn in Hs.
  destruct Hs as (_ & _ & Hlast & Hnone). split.
  - intros Hl k (i & Hi)%Hpeers. by apply (Hlast Hl (i, k)).
  - intros Hl. destruct (Hnone Hl) as ([i k0] & Hr & Hid & Hle). exists k0.
    split_and!; [apply Hpeers; eauto|done|]. intros k (j & Hj)%Hpeers. by apply (Hle (j, k)).
Qed.

Lemma narrow_peers last id rows g rows' (peers : AdmissionKey → Prop) :
  (∀ k, peers k ↔ ∃ i, (i, k) ∈ rows) → narrow id last rows = Some (g, rows') →
  ∀ k, peers k ∧ id k = g ↔ ∃ i, (i, k) ∈ rows'.
Proof.
  intros Hpeers Hn k. pose proof (narrow_spec id last rows) as Hs. rewrite Hn in Hs.
  destruct Hs as (-> & _). setoid_rewrite list_elem_of_filter. rewrite Hpeers. simpl. naive_solver.
Qed.

Lemma narrow_nonempty last id rows : rows ≠ [] → ∃ g rows', narrow id last rows = Some (g, rows') ∧ rows' ≠ [].
Proof.
  intros Hne. pose proof (narrow_spec id last rows) as Hs.
  destruct (narrow id last rows) as [[g rows']|]; [|done]. exists g, rows'. split; [done|].
  destruct Hs as (-> & (r & Hr & Hid) & _). intros Hnil.
  assert (r ∈ filter (λ row, id row.2 = g) rows) as Hin by (by apply list_elem_of_filter).
  rewrite Hnil in Hin. by apply elem_of_nil in Hin.
Qed.

Lemma select_spec :
  match select with
  | None => ∀ e, ¬ admitted e
  | Some i => ∃ e, es !! i = Some e ∧ fair_choice e
  end.
Proof.
  unfold select, select_index. cbv zeta.
  pose proof (min_by_spec class_cmp (map snd (eligible es aging now_ms admissible))) as Hmin.
  destruct (min_by class_cmp _) as [c|].
  2: { cbn [mbind option_bind]. intros e [(i & Hi)%list_elem_of_lookup Hadm].
       assert ((i, e_key e, eff (e_key e)) ∈ eligible es aging now_ms admissible) as Hin
         by (apply eligible_elem; eauto).
       apply map_eq_nil in Hmin. rewrite Hmin in Hin. by apply elem_of_nil in Hin. }
  destruct Hmin as [Hc Hle]. cbn [mbind option_bind]. fold (class_rows c).
  assert (class_rows c ≠ []) as Hne.
  { apply list_elem_of_fmap in Hc as ([[i k] c'] & -> & Hin). simpl. intros Hnil.
    assert ((i, k) ∈ class_rows c') as Hin'.
    { apply class_rows_elem. by apply eligible_elem in Hin. }
    rewrite Hnil in Hin'. by apply elem_of_nil in Hin'. }
  destruct (narrow_nonempty (agents cursor !! c) k_agent_id _ Hne) as (a & ra & Ha & Hnea).
  rewrite Ha. cbn [mbind option_bind].
  destruct (narrow_nonempty (contexts cursor !! (c, a)) k_context_id _ Hnea) as (x & rx & Hx & Hnex).
  rewrite Hx. cbn [mbind option_bind].
  destruct (narrow_nonempty (sessions cursor !! (c, a, x)) k_session_id _ Hnex) as (s & rs & Hs & Hnes).
  rewrite Hs. cbn [mbind option_bind].
  assert (∀ k, of_class c k ↔ ∃ i, (i, k) ∈ class_rows c) as P0 by (intros; symmetry; apply class_rows_of_class).
  pose proof (narrow_peers _ _ _ _ _ _ P0 Ha) as P1.
  pose proof (narrow_peers _ _ _ _ _ _ P1 Hx) as P2.
  pose proof (narrow_peers _ _ _ _ _ _ P2 Hs) as P3.
  pose proof (min_by_spec (λ l r, fifo_cmp (snd l) (snd r)) rs) as Hm.
  destruct (min_by _ rs) as [[i k]|]; [|done]. cbn [fmap option_fmap option_map fst].
  destruct Hm as [Hin Hfifo].
  assert (∃ i, (i, k) ∈ rs) as ((((e & _ & Hk & Hek) & Ek1) & Ek2) & Ek3)%P3 by eauto.
  assert (∃ e, es !! i = Some e ∧ admissible (e_key e) (e_payload e) = true ∧ k = e_key e ∧ c = eff k)
    as (e0 & Hi & Hadm & Hk0 & Hc0).
  { apply class_rows_elem. by repeat (eapply narrow_sub; [eassumption|]). }
  exists e0. split; [done|]. unfold fair_choice. cbv zeta. rewrite <- Hk0, <- Hc0, Ek1, Ek2, Ek3.
  split_and!.
  - split; [by eapply list_elem_of_lookup_2|done].
  - intros e' [(j & Hj)%list_elem_of_lookup Hadm'].
    assert (not_gt class_cmp c (eff (e_key e'))) as Hcle.
    { apply Hle. apply list_elem_of_fmap. exists (j, e_key e', eff (e_key e')). split; [done|].
      apply eligible_elem. eauto. }
    unfold not_gt, class_cmp in Hcle. rewrite Z.compare_gt_iff in Hcle. lia.
  - eapply turn_narrow; [exact P0|exact Ha|done].
  - eapply turn_narrow; [exact P1|exact Hx|done].
  - eapply turn_narrow; [exact P2|exact Hs|done].
  - intros k' (j & Hj)%P3. exact (Hfifo (j, k') Hj).
Qed.
End choice.
End select.

(** ** The queue *)

Lemma swap_remove_spec {A} (l : list A) i :
  match swap_remove l i with
  | Some (x, rest) => l !! i = Some x ∧ l ≡ₚ x :: rest
  | None => (length l <= i)%nat
  end.
Proof.
  unfold swap_remove. destruct (l !! i) as [x|] eqn:Hi; cbn [mbind option_bind]; [|by apply lookup_ge_None].
  destruct l as [|y l _] using rev_ind; [done|]. rewrite last_snoc. cbn [mbind option_bind].
  split; [done|]. destruct (decide (i < length l)%nat) as [Hlt|Hge].
  - rewrite insert_app_l by done. rewrite removelast_last.
    rewrite lookup_app_l in Hi by done. rewrite <- (take_drop_middle l i x Hi) at 1.
    rewrite (insert_take_drop l i y Hlt). rewrite <- !app_assoc. simpl.
    etrans; [symmetry; apply Permutation_middle|]. constructor. apply Permutation_app_head.
    symmetry. apply Permutation_cons_append.
  - apply lookup_lt_Some in Hi as Hlen. rewrite length_app in Hlen. simpl in Hlen.
    assert (i = length l) as -> by lia. rewrite lookup_app_r, Nat.sub_diag in Hi by lia.
    injection Hi as ->. rewrite insert_app_r_alt, Nat.sub_diag by lia. simpl.
    rewrite removelast_last. by rewrite Permutation_app_comm.
Qed.

Section queue.
Context {T : Type}.
Implicit Types (q : FairAdmissionQueue T) (e : AdmissionEntry T) (es : list (AdmissionEntry T)).

Definition entry_id e : str := k_id (e_key e).

(** The index of identifiers mirrors the rows, and no identifier is queued twice. *)
Definition queue_ok q : Prop :=
  ids q = list_to_set (map entry_id (entries q)) ∧ NoDup (map entry_id (entries q)) ∧
  Forall (λ e, validate_key (e_key e) = Ok tt) (entries q).

(** Queues with the same rows, in any order. *)
#[export] Instance queue_equiv : Equiv (FairAdmissionQueue T) := λ q q',
  entries q ≡ₚ entries q' ∧ ids q = ids q' ∧ q_cursor q = q_cursor q' ∧ q_aging q = q_aging q'.

#[export] Instance queue_equivalence : Equivalence (≡@{FairAdmissionQueue T}).
Proof.
  split.
  - by intros q.
  - intros q q' (? & ? & ? & ?). by split_and!.
  - intros q1 q2 q3 (Hp & ? & ? & ?) (Hp' & ? & ? & ?). split_and!; [by rewrite Hp|congruence..].
Qed.

Lemma map_id_inj es e e' :
  NoDup (map entry_id es) → e ∈ es → e' ∈ es → entry_id e = entry_id e' → e = e'.
Proof.
  induction es as [|x es IH]; simpl; [by intros _ ?%elem_of_nil|]. intros Hnd.
  inversion Hnd as [|? ? Hx Hnd']; subst. rewrite !elem_of_cons.
  intros [->|He] [->|He'] Hid; [done| | |auto].
  - destruct Hx. rewrite Hid. apply list_elem_of_fmap. eauto.
  - destruct Hx. rewrite <- Hid. apply list_elem_of_fmap. eauto.
Qed.

Lemma queue_ok_equiv q q' : q ≡ q' → queue_ok q → queue_ok q'.
Proof.
  intros (Hp & Hids & _) (H1 & H2 & H3). unfold queue_ok. rewrite <- Hids.
  assert (map entry_id (entries q) ≡ₚ map entry_id (entries q')) as Hm by (by rewrite Hp).
  split_and!; [|by rewrite <- Hm|by rewrite <- Hp].
  rewrite H1. apply leibniz_equiv. by rewrite Hm.
Qed.

Lemma push_ok q e q' : queue_ok q → push q e = Ok q' → queue_ok q'.
Proof.
  unfold push. intros (H1 & H2 & H3) Hp. res_inv. case_match_in Hp. injection Hp as <-.
  destruct a. unfold queue_ok. simpl. rewrite map_app. simpl. split_and!.
  - rewrite H1, list_to_set_app_L. simpl. unfold entry_id. set_solver.
  - apply NoDup_app. split_and!; [done| |apply NoDup_singleton].
    intros x Hx ->%list_elem_of_singleton. apply n. rewrite H1. by apply elem_of_list_to_set.
  - apply Forall_app. split; [done|by repeat constructor].
Qed.

(** A push fails exactly on an invalid key or an identifier that is already queued. *)
Lemma push_cases q e :
  match validate_key (e_key e) with
  | Err f => push q e = Err f
  | Ok _ => if decide (entry_id e ∈ ids q) then push q e = Err (DuplicateId (entry_id e))
            else ∃ q', push q e = Ok q' ∧ entries q' = entries q ++ [e] ∧
                       ids q' = {[entry_id e]} ∪ ids q ∧ q_cursor q' = q_cursor q ∧ q_aging q' = q_aging q
  end.
Proof.
  unfold push, entry_id. destruct (validate_key (e_key e)) as [[]|f]; simpl; [|done].
  destruct (decide _); [done|]. eexists. split_and!; done.
Qed.

Lemma take_ok q e rest c a :
  queue_ok q → entries q ≡ₚ e :: rest →
  queue_ok (mkQueue rest (ids q ∖ {[entry_id e]}) c a).
Proof.
  intros (H1 & H2 & H3) Hp. unfold queue_ok. simpl.
  assert (map entry_id (entries q) ≡ₚ entry_id e :: map entry_id rest) as Hm by (by rewrite Hp).
  rewrite Hm in H2. rewrite Hp in H3. inversion H2 as [|? ? Hno Hnd]; subst. inversion H3; subst.
  split_and!; try done. rewrite H1. apply leibniz_equiv. rewrite Hm. simpl.
  intros x. rewrite elem_of_difference, elem_of_union, !elem_of_singleton, elem_of_list_to_set.
  split; [tauto|]. intros Hx. split; [by right|]. by intros ->.
Qed.

Lemma remove_spec q id :
  queue_ok q →
  match remove q id with
  | (Some e, q') => entry_id e = id ∧ entries q ≡ₚ e :: entries q' ∧ queue_ok q'
  | (None, q') => q' = q ∧ id ∉ map entry_id (entries q)
  end.
Proof.
  intros Hq. unfold remove.
  pose proof (position_spec (λ entry, k_id (e_key entry) =s id) (entries q)) as Hp.
  destruct (position _ _) as [i|].
  - destruct Hp as (e & Hi & Hid%str_eqb_eq). pose proof (swap_remove_spec (entries q) i) as Hs.
    destruct (swap_remove (entries q) i) as [[e' rest]|].
    2: { apply lookup_lt_Some in Hi. lia. }
    destruct Hs as [Hi' Hperm]. rewrite Hi in Hi'. injection Hi' as <-. subst id.
    split_and!; [done|done|]. by apply (take_ok q e rest).
  - split; [done|]. intros (e & -> & He)%list_elem_of_fmap. apply Hp in He.
    unfold entry_id in He. by rewrite str_eqb_refl in He.
Qed.

(** A pop serves the selected row, removes it and moves the cursor; it fails when no row
    is admissible. *)
Lemma pop_spec q now_ms admissible :
  match pop_next_where q now_ms admissible with
  | Some (e, q') =>
      fair_choice (entries q) (q_cursor q) (q_aging q) now_ms admissible e ∧
      entries q ≡ₚ e :: entries q' ∧ ids q' = ids q ∖ {[entry_id e]} ∧ q_aging q' = q_aging q ∧
      q_cursor q' = advance_cursor (eff (q_aging q) now_ms (e_key e)) (e_key e) (q_cursor q)
  | None => ∀ e, ¬ admitted (entries q) admissible e
  end.
Proof.
  unfold pop_next_where. pose proof (select_spec (entries q) (q_cursor q) (q_aging q) now_ms admissible) as Hs.
  unfold select in Hs. destruct (select_index _ _ _ _ _) as [i|]; cbn [mbind option_bind]; [|done].
  destruct Hs as (e & Hi & Hfair). rewrite Hi. cbn [mbind option_bind].
  pose proof (swap_remove_spec (entries q) i) as Hsw.
  destruct (swap_remove (entries q) i) as [[e' rest]|].
  2: { apply lookup_lt_Some in Hi. lia. }
  destruct Hsw as [Hi' Hp]. rewrite Hi in Hi'. injection Hi' as <-. simpl. by split_and!.
Qed.

Lemma pop_ok q now_ms admissible e q' :
  queue_ok q → pop_next_where q now_ms admissible = Some (e, q') → queue_ok q'.
Proof.
  intros Hq Hpop. pose proof (pop_spec q now_ms admissible) as Hs. rewrite Hpop in Hs.
  destruct Hs as (_ & Hp & Hids & _). destruct q' as [es' ids' c' a']. simpl in *. subst ids'.
  by eapply take_ok.
Qed.

(** What is peeked is what is popped. *)
Lemma peek_pop q now_ms admissible :
  peek_next_where q now_ms admissible = fst <$> pop_next_where q now_ms admissible.
Proof.
  unfold peek_next_where, pop_next_where.
  destruct (select_index _ _ _ _ _) as [i|]; cbn [mbind option_bind]; [|done].
  destruct (entries q !! i) as [e|] eqn:Hi; cbn [mbind option_bind]; [|done].
  pose proof (swap_remove_spec (entries q) i) as Hsw.
  destruct (swap_remove (entries q) i) as [[e' rest]|]; simpl.
  - destruct Hsw as [Hi' _]. congruence.
  - apply lookup_lt_Some in Hi. lia.
Qed.
End queue.

(** ** Independence of the storage order *)

Section order.
Context {T : Type}.
Implicit Types (q : FairAdmissionQueue T) (e : AdmissionEntry T) (es : list (AdmissionEntry T)).

Lemma imap_pair_snd es : map snd (imap pair es) = es.
Proof.
  assert (∀ f : nat → nat, map snd (imap (λ i, pair (f i)) es) = es) as Hgen; [|apply (Hgen id)].
  induction es as [|e es IH]; intros f; [done|]. rewrite imap_cons. simpl. f_equal. apply (IH (f ∘ S)).
Qed.

Lemma eligible_keys es aging now_ms (admissible : AdmissionKey → T → bool) :
  map (λ row, (row.1.2, row.2)) (eligible es aging now_ms admissible)
  = map (λ k, (k, eff aging now_ms k))
      (map e_key (filter (λ e, admissible (e_key e) (e_payload e) = true) es)).
Proof.
  unfold eligible. rewrite !map_map. rewrite <- (imap_pair_snd es) at 2.
  induction (imap pair es) as [|ie l IH]; [done|]. simpl. rewrite !filter_cons. simpl.
  destruct (decide (admissible (e_key ie.2) (e_payload ie.2) = true)); simpl; [f_equal|]; exact IH.
Qed.

Lemma class_rows_keys es aging now_ms (admissible : AdmissionKey → T → bool) c :
  map snd (class_rows es aging now_ms admissible c)
  = map fst (filter (λ kc, kc.2 = c)
      (map (λ row, (row.1.2, row.2)) (eligible es aging now_ms admissible))).
Proof.
  unfold class_rows. rewrite map_map. induction (eligible _ _ _ _) as [|row l IH]; [done|].
  simpl. rewrite !filter_cons. simpl. destruct (decide _); simpl; [f_equal|]; exact IH.
Qed.

Lemma eligible_classes es aging now_ms (admissible : AdmissionKey → T → bool) :
  map snd (eligible es aging now_ms admissible)
  = map snd (map (λ row, (row.1.2, row.2)) (eligible es aging now_ms admissible)).
Proof. by rewrite map_map. Qed.

(** The oldest row of a session, by keys. *)
Lemma min_row_permutation (l l' : list (nat * AdmissionKey)) :
  map snd l ≡ₚ map snd l' →
  (∀ k k', k ∈ map snd l → k' ∈ map snd l → k_id k = k_id k' → k = k') →
  match min_by (λ a b, fifo_cmp (snd a) (snd b)) l, min_by (λ a b, fifo_cmp (snd a) (snd b)) l' with
  | Some m, Some m' => m.2 = m'.2 ∧ m ∈ l ∧ m' ∈ l'
  | None, None => True
  | _, _ => False
  end.
Proof.
  intros Hp Hinj. pose proof (min_by_spec (λ a b, fifo_cmp (snd a) (snd b)) l) as H1.
  pose proof (min_by_spec (λ a b, fifo_cmp (snd a) (snd b)) l') as H2.
  destruct (min_by _ l) as [m|], (min_by _ l') as [m'|]; [| | |done].
  - destruct H1 as [Hm Hle], H2 as [Hm' Hle']. split; [|done].
    assert (m.2 ∈ map snd l) as Hin by (by apply list_elem_of_fmap_2).
    assert (m'.2 ∈ map snd l) as Hin' by (rewrite Hp; by apply list_elem_of_fmap_2).
    apply Hinj; [done..|]. apply fifo_cmp_id.
    apply (not_gt_antisym fifo_cmp).
    + apply list_elem_of_fmap in Hin' as (r & -> & Hr). by apply Hle.
    + rewrite Hp in Hin. apply list_elem_of_fmap in Hin as (r & -> & Hr). by apply Hle'.
  - subst l'. destruct H1 as [Hm _]. apply (list_elem_of_fmap_2 snd) in Hm.
    change (snd <$> l) with (map snd l) in Hm. rewrite Hp in Hm. by apply elem_of_nil in Hm.
  - subst l. destruct H2 as [Hm _]. apply (list_elem_of_fmap_2 snd) in Hm.
    change (snd <$> l') with (map snd l') in Hm. rewrite <- Hp in Hm. by apply elem_of_nil in Hm.
Qed.

Lemma class_row_entry es aging now_ms (admissible : AdmissionKey → T → bool) c r :
  r ∈ class_rows es aging now_ms admissible c → ∃ e, es !! r.1 = Some e ∧ e_key e = r.2.
Proof. destruct r as [i k]. intros (e & Hi & _ & -> & _)%class_rows_elem. eauto. Qed.

Lemma select_permutation es es' cursor aging now_ms (admissible : AdmissionKey → T → bool) :
  es ≡ₚ es' → NoDup (map entry_id es) →
  match select_index es cursor aging now_ms admissible,
        select_index es' cursor aging now_ms admissible with
  | Some i, Some i' => ∃ e, es !! i = Some e ∧ es' !! i' = Some e
  | None, None => True
  | _, _ => False
  end.
Proof.
  intros Hp Hnd. unfold select_index. cbv zeta.
  assert (filter (λ e, admissible (e_key e) (e_payload e) = true) es
          ≡ₚ filter (λ e, admissible (e_key e) (e_payload e) = true) es') as Hf by (by rewrite Hp).
  assert (map snd (eligible es aging now_ms admissible)
          ≡ₚ map snd (eligible es' aging now_ms admissible)) as Hc by (by rewrite !eligible_classes, !eligible_keys, Hf).
  rewrite <- (min_by_permutation class_cmp _ _ (λ x y _ _ H, proj1 (class_cmp_eq x y) H) Hc).
  destruct (min_by class_cmp _) as [c|]; cbn [mbind option_bind]; [|done].
  fold (class_rows es aging now_ms admissible c) (class_rows es' aging now_ms admissible c).
  assert (map snd (class_rows es aging now_ms admissible c)
          ≡ₚ map snd (class_rows es' aging now_ms admissible c)) as H0 by (by rewrite !class_rows_keys, !eligible_keys, Hf).
  pose proof (narrow_permutation k_agent_id (agents cursor !! c) _ _ H0) as H1.
  destruct (narrow k_agent_id _ (class_rows es _ _ _ _)) as [[a ra]|] eqn:Ha,
    (narrow k_agent_id _ (class_rows es' _ _ _ _)) as [[a' ra']|] eqn:Ha'; try done.
  destruct H1 as [<- H1]. cbn [mbind option_bind].
  pose proof (narrow_permutation k_context_id (contexts cursor !! (c, a)) _ _ H1) as H2.
  destruct (narrow k_context_id _ ra) as [[x rx]|] eqn:Hx,
    (narrow k_context_id _ ra') as [[x' rx']|] eqn:Hx'; try done.
  destruct H2 as [<- H2]. cbn [mbind option_bind].
  pose proof (narrow_permutation k_session_id (sessions cursor !! (c, a, x)) _ _ H2) as H3.
  destruct (narrow k_session_id _ rx) as [[s rs]|] eqn:Hs,
    (narrow k_session_id _ rx') as [[s' rs']|] eqn:Hs'; try done.
  destruct H3 as [_ H3]. cbn [mbind option_bind].
  assert (∀ r, r ∈ rs → ∃ e, es !! r.1 = Some e ∧ e_key e = r.2) as Hr.
  { intros r Hr. apply (narrow_sub _ _ _ _ _ _ Hs), (narrow_sub _ _ _ _ _ _ Hx), (narrow_sub _ _ _ _ _ _ Ha) in Hr.
    by eapply class_row_entry. }
  assert (∀ r, r ∈ rs' → ∃ e, es' !! r.1 = Some e ∧ e_key e = r.2) as Hr'.
  { intros r Hr'. apply (narrow_sub _ _ _ _ _ _ Hs'), (narrow_sub _ _ _ _ _ _ Hx'), (narrow_sub _ _ _ _ _ _ Ha') in Hr'.
    by eapply class_row_entry. }
  assert (∀ i j e e', es !! i = Some e → es' !! j = Some e' → k_id (e_key e) = k_id (e_key e') → e = e') as Hsame.
  { intros i j e e' Hi Hj Hid. apply (map_id_inj es); [done| | |done];
      [by eapply list_elem_of_lookup_2|rewrite Hp; by eapply list_elem_of_lookup_2]. }
  assert (∀ k k', k ∈ map snd rs → k' ∈ map snd rs → k_id k = k_id k' → k = k') as Hinj.
  { intros ? ? (r1 & -> & (e1 & ? & <-)%Hr)%list_elem_of_fmap (r2 & -> & (e2 & ? & <-)%Hr)%list_elem_of_fmap Hid.
    f_equal. eapply map_id_inj; [exact Hnd|by eapply list_elem_of_lookup_2..|done]. }
  pose proof (min_row_permutation rs rs' H3 Hinj) as Hm.
  destruct (min_by _ rs) as [[i k]|], (min_by _ rs') as [[i' k']|]; simpl in *; try done.
  destruct Hm as (-> & (e & He & Hk)%Hr & (e' & He' & Hk')%Hr'). simpl in *.
  exists e. split; [done|]. rewrite He'. f_equal. symmetry. eapply Hsame; [done..|]. by rewrite Hk, Hk'.
Qed.

(** Popping respects the equivalence of queues. *)
Lemma pop_equiv q q' now_ms admissible :
  queue_ok q → q ≡ q' →
  match pop_next_where q now_ms admissible, pop_next_where q' now_ms admissible with
  | Some (e, r), Some (e', r') => e = e' ∧ r ≡ r'
  | None, None => True
  | _, _ => False
  end.
Proof.
  intros (_ & Hnd & _) (Hp & Hids & Hc & Ha). unfold pop_next_where. rewrite <- Hc, <- Ha, <- Hids.
  pose proof (select_permutation (entries q) (entries q') (q_cursor q) (q_aging q) now_ms admissible Hp Hnd) as Hs.
  destruct (select_index (entries q) _ _ _ _) as [i|], (select_index (entries q') _ _ _ _) as [i'|];
    cbn [mbind option_bind]; try done.
  destruct Hs as (e & Hi & Hi'). rewrite Hi, Hi'. cbn [mbind option_bind].
  pose proof (swap_remove_spec (entries q) i) as S1. pose proof (swap_remove_spec (entries q') i') as S2.
  destruct (swap_remove (entries q) i) as [[e1 r1]|], (swap_remove (entries q') i') as [[e2 r2]|].
  - destruct S1 as [E1 P1], S2 as [E2 P2]. simpl. split; [congruence|]. split_and!; try done. simpl.
    apply (Permutation_cons_inv (a:=e)). assert (e1 = e) as -> by congruence.
    assert (e2 = e) as -> by congruence. by rewrite <- P1, <- P2.
  - apply lookup_lt_Some in Hi'. lia.
  - apply lookup_lt_Some in Hi. lia.
  - apply lookup_lt_Some in Hi. lia.
Qed.

(** The rows served by a sequence of pops, each with its time and its capacity predicate. *)
Fixpoint schedule q (requests : list (Z * (AdmissionKey → T → bool))) : list (option (AdmissionEntry T)) :=
  match requests with
  | [] => []
  | (now_ms, admissible) :: rest =>
      match pop_next_where q now_ms admissible with
      | Some (e, q') => Some e :: schedule q' rest
      | None => None :: schedule q rest
      end
  end.

Lemma schedule_equiv requests q q' : queue_ok q → q ≡ q' → schedule q requests = schedule q' requests.
Proof.
  revert q q'. induction requests as [|[now_ms admissible] rest IH]; intros q q' Hq Heq; [done|].
  simpl. pose proof (pop_equiv q q' now_ms admissible Hq Heq) as Hs.
  destruct (pop_next_where q now_ms admissible) as [[e r]|] eqn:Hpop,
    (pop_next_where q' now_ms admissible) as [[e' r']|]; try done.
  - destruct Hs as [<- Hr]. f_equal. apply IH; [by eapply pop_ok|done].
  - f_equal. by apply IH.
Qed.

(** ** Rebuilding *)

Definition rows_ok es : Prop :=
  NoDup (map entry_id es) ∧ Forall (λ e, validate_key (e_key e) = Ok tt) es.

Lemma foldM_push_ok es q :
  queue_ok q → rows_ok (entries q ++ es) →
  ∃ q', foldM push q es = Ok q' ∧ queue_ok q' ∧ entries q' = entries q ++ es ∧
        q_cursor q' = q_cursor q ∧ q_aging q' = q_aging q.
Proof.
  revert q. induction es as [|e es IH]; intros q Hq [Hnd Hval]; simpl.
  { exists q. by rewrite app_nil_r. }
  pose proof (push_cases q e) as Hp. apply Forall_app in Hval as Hval'.
  destruct Hval' as [_ Hval']. inversion Hval' as [|? ? He Hes]; subst. rewrite He in Hp.
  rewrite decide_False in Hp.
  - destruct Hp as (q1 & Hp & Hes1 & _ & Hc & Ha). rewrite Hp. simpl.
    destruct (IH q1) as (q' & Hf & Hok & Hent & Hc' & Ha').
    + by eapply push_ok.
    + rewrite Hes1, <- app_assoc. by split.
    + exists q'. rewrite Hes1, <- app_assoc in Hent. split_and!; [done..|congruence|congruence].
  - destruct Hq as (Hids & _ & _). rewrite Hids, elem_of_list_to_set. intros Hin.
    rewrite map_app in Hnd. apply NoDup_app in Hnd as (_ & Hdis & _).
    apply (Hdis _ Hin). simpl. by left.
Qed.

Lemma foldM_push_inv es q q' : foldM push q es = Ok q' → queue_ok q → rows_ok (entries q ++ es).
Proof.
  intros Hf Hq. assert (queue_ok q' ∧ entries q' = entries q ++ es) as [(_ & H2 & H3) <-]; [|by split].
  revert q Hq Hf. induction es as [|e es IH]; intros q Hq Hf; simpl in Hf.
  { injection Hf as <-. by rewrite app_nil_r. }
  res_inv. pose proof (push_ok _ _ _ Hq Ha) as Hok. destruct (IH _ Hok Hf) as [Hok' ->]. split; [done|].
  pose proof (push_cases q e) as Hp. destruct (validate_key (e_key e)); [|congruence].
  destruct (decide _); [congruence|]. destruct Hp as (q1 & Hp & Hent & _).
  assert (a = q1) as -> by congruence. by rewrite Hent, <- app_assoc.
Qed.

Lemma rebuild_spec es aging c :
  match rebuild_with_checkpoint es aging c with
  | Ok q => rows_ok es ∧ queue_ok q ∧ entries q ≡ₚ es ∧ q_cursor q = from_checkpoint c ∧ q_aging q = aging
  | Err _ => ¬ rows_ok es
  end.
Proof.
  unfold rebuild_with_checkpoint.
  assert (queue_ok (mkQueue (T:=T) [] ∅ (from_checkpoint c) aging)) as H0.
  { split_and!; [done|constructor|constructor]. }
  destruct (foldM push _ es) as [q|f] eqn:Hf; simpl.
  - pose proof (foldM_push_inv _ _ _ Hf H0) as Hrows.
    destruct (foldM_push_ok es _ H0 Hrows) as (q' & Hf' & Hok & Hent & Hc & Ha).
    assert (q' = q) as -> by congruence. split_and!; try done.
    + eapply queue_ok_equiv; [|exact Hok]. split_and!; simpl; try done.
      by rewrite merge_sort_Permutation.
    + simpl. rewrite merge_sort_Permutation. by rewrite Hent.
  - intros Hrows. destruct (foldM_push_ok es _ H0 Hrows) as (q' & Hf' & _). congruence.
Qed.

Lemma queue_ok_rows q : queue_ok q → rows_ok (entries q).
Proof. intros (_ & ? & ?). by split. Qed.

Lemma rows_ok_permutation es es' : es ≡ₚ es' → rows_ok es → rows_ok es'.
Proof. intros Hp [H1 H2]. split; by rewrite <- Hp. Qed.
End order.

(** ** The checkpoint *)

Lemma btree_collect_spec `{Countable K} {V} (l : list (K * V)) :
  NoDup l.*1 → btree_collect l = list_to_map l.
Proof.
  unfold btree_collect. intros Hnd.
  assert (∀ m : gmap K V, (∀ k, k ∈ l.*1 → m !! k = None) →
            fold_left (λ m kv, <[kv.1 := kv.2]> m) l m = list_to_map l ∪ m) as Hgen.
  { induction l as [|[k v] l IH]; intros m Hm; simpl; [by rewrite map_empty_union|].
    rewrite fmap_cons in Hnd, Hm. inversion Hnd as [|? ? Hk Hnd']; subst. simpl in *.
    rewrite IH; [|done|].
    - rewrite <- insert_union_l. apply map_eq. intros k'. destruct (decide (k = k')) as [<-|Hne].
      + rewrite lookup_insert_eq, lookup_union_r, lookup_insert_eq; [done|].
        by apply not_elem_of_list_to_map_1.
      + rewrite (lookup_insert_ne _ k) by done. rewrite !lookup_union, lookup_insert_ne by done. done.
    - intros k' Hk'. rewrite lookup_insert_ne by set_solver. apply Hm. by right. }
  rewrite Hgen; [by rewrite map_union_empty|]. intros. apply lookup_empty.
Qed.

Lemma btree_entries_collect `{Countable K} {V} cmp (m : gmap K V) :
  btree_collect (btree_entries cmp m) = m.
Proof.
  unfold btree_entries. set (l := merge_sort _ _).
  assert (l ≡ₚ map_to_list m) as Hl by apply merge_sort_Permutation.
  assert (NoDup l.*1) as Hnd by (rewrite Hl; apply NoDup_fst_map_to_list).
  rewrite btree_collect_spec by done. rewrite (list_to_map_proper l (map_to_list m)) by done.
  apply list_to_map_to_list.
Qed.

Lemma cursor_checkpoint c : from_checkpoint (checkpoint c) = c.
Proof. destruct c. unfold from_checkpoint, checkpoint. simpl. by rewrite !btree_entries_collect. Qed.

(** ** Aging and capacity *)

Lemma rank_range c : (0 <= rank c <= 4)%Z.
Proof. destruct c; simpl; lia. Qed.

Lemma rank_from_rank r : (0 <= r <= 4)%Z → rank (from_rank r) = r.
Proof.
  intros Hr. assert (r = 0 ∨ r = 1 ∨ r = 2 ∨ r = 3 ∨ r = 4)%Z as Hc by lia.
  by destruct Hc as [-> |[-> |[-> |[-> | ->]]]].
Qed.

(** The full intervals a row has waited, with the clock arithmetic of the source. *)
Definition promotions (interval created_at_ms now_ms : Z) : Z :=
  Z.max (i64_saturating_sub now_ms created_at_ms) 0 / Z.max interval 1.

Lemma promotions_nonneg i t now : (0 <= promotions i t now)%Z.
Proof. unfold promotions. apply Z.div_pos; lia. Qed.

Lemma effective_rank i c t now :
  rank (effective_class (mkAging (Some i)) c t now) = Z.max 0 (rank c - promotions i t now).
Proof.
  pose proof (promotions_nonneg i t now). pose proof (rank_range c).
  unfold effective_class. simpl. fold (promotions i t now). rewrite rank_from_rank; lia.
Qed.

Lemma promotions_mono i t now now' : (now <= now')%Z → (promotions i t now <= promotions i t now')%Z.
Proof. intros Hle. unfold promotions, i64_saturating_sub. apply Z.div_le_mono; lia. Qed.

Lemma promotions_enough i t now n :
  in_i64 t = true → in_i64 now = true → (0 <= n)%Z → (n * Z.max i 1 <= i64_max)%Z →
  (t + n * Z.max i 1 <= now)%Z → (n <= promotions i t now)%Z.
Proof.
  unfold in_i64. rewrite !andb_true_iff, !Z.leb_le. intros Ht Hnow Hn Hmax Hwait.
  unfold promotions, i64_saturating_sub. apply Z.div_le_lower_bound; [lia|].
  assert (i64_min <= 0)%Z by (unfold i64_min; lia). nia.
Qed.

Lemma reserved_lane_spec class capacity usage :
  (u_dialogue_delivery usage <= u_total usage)%N →
  let reserved := N.min (dialogue_delivery_slots capacity) (total_slots capacity) in
  let general := (u_total usage - u_dialogue_delivery usage)%N in
  reserved_lane_decision class capacity usage = Admit ↔
  if uses_reserved_lane class then (u_total usage < total_slots capacity)%N
  else (general + 1 + N.max reserved (u_dialogue_delivery usage) <= total_slots capacity)%N.
Proof.
  destruct capacity as [slots dd], usage as [total held]. simpl. intros Hle.
  unfold reserved_lane_decision. simpl.
  destruct (N.eqb_spec slots 0), (N.leb_spec slots total); simpl;
    destruct (uses_reserved_lane class); try (split; [done|lia]); try (split; [lia|done]).
  destruct (N.ltb_spec slots dd); match goal with |- context [(?a <? ?b)%N] => destruct (N.ltb_spec a b) end;
    (split; [intros; try done|intros; try done]); lia.
Qed.

(** ** Main theorems *)

Section claims.
Context {T : Type}.
Implicit Types (q : FairAdmissionQueue T) (e : AdmissionEntry T).

(** C10. A pop is fair and work conserving.  It fails only when no queued row is admissible;
    otherwise it removes exactly one admissible row, of the most urgent effective class, of
    the agent, context and session whose turn it is (the last served one only when it is
    alone, the one with the oldest row when none was served yet), and the oldest of that
    session, and it records the row in the fairness cursor of its class. *)
Theorem pop_is_fair q now_ms admissible :
  match pop_next_where q now_ms admissible with
  | Some (e, q') =>
      fair_choice (entries q) (q_cursor q) (q_aging q) now_ms admissible e ∧
      entries q ≡ₚ e :: entries q' ∧ ids q' = ids q ∖ {[entry_id e]} ∧ q_aging q' = q_aging q ∧
      q_cursor q' = advance_cursor (eff (q_aging q) now_ms (e_key e)) (e_key e) (q_cursor q)
  | None => ∀ e, ¬ admitted (entries q) admissible e
  end.
Proof. apply pop_spec. Qed.

(** Recovery does not depend on the order rows come back from the database: two loads of
    the same rows are both rejected or build queues that serve the same rows at every
    sequence of pops. *)
Theorem rebuild_order_independent (rows rows' : list (AdmissionEntry T)) aging c requests :
  rows ≡ₚ rows' →
  match rebuild_with_checkpoint rows aging c, rebuild_with_checkpoint rows' aging c with
  | Ok q, Ok q' => schedule q requests = schedule q' requests
  | Err _, Err _ => True
  | _, _ => False
  end.
Proof.
  intros Hp. pose proof (rebuild_spec rows aging c) as H1. pose proof (rebuild_spec rows' aging c) as H2.
  destruct (rebuild_with_checkpoint rows aging c) as [q|], (rebuild_with_checkpoint rows' aging c) as [q'|].
  - destruct H1 as (_ & Hq & Hent & Hc & Ha), H2 as (_ & Hq' & Hent' & Hc' & Ha').
    apply schedule_equiv; [done|].
    assert (entries q ≡ₚ entries q') as He by (by rewrite Hent, Hent').
    split_and!; [done| |congruence..]. destruct Hq as [-> _], Hq' as [-> _].
    apply leibniz_equiv. by rewrite He.
  - destruct H1 as [Hr _]. by eapply H2, rows_ok_permutation.
  - destruct H2 as [Hr _]. by eapply H1, rows_ok_permutation; [symmetry|].
  - done.
Qed.

(** A restart with the persisted checkpoint is invisible: rebuilding from the queued rows,
    in any order, and the checkpoint of the running queue succeeds, and the rebuilt queue
    serves the same rows as the running one at every sequence of pops. *)
Theorem restart_transparent q (rows : list (AdmissionEntry T)) requests :
  queue_ok q → rows ≡ₚ entries q →
  ∃ q', rebuild_with_checkpoint rows (q_aging q) (checkpoint (q_cursor q)) = Ok q' ∧
        schedule q' requests = schedule q requests.
Proof.
  intros Hq Hp. pose proof (rebuild_spec rows (q_aging q) (checkpoint (q_cursor q))) as Hs.
  destruct (rebuild_with_checkpoint _ _ _) as [q'|].
  2: { exfalso. apply Hs. eapply rows_ok_permutation; [symmetry; exact Hp|by apply queue_ok_rows]. }
  destruct Hs as (_ & Hq' & Hent & Hc & Ha). exists q'. split; [done|].
  apply schedule_equiv; [done|]. assert (entries q' ≡ₚ entries q) as He by (by rewrite Hent).
  rewrite cursor_checkpoint in Hc. split_and!; try done.
  destruct Hq as [-> _], Hq' as [-> _]. apply leibniz_equiv. by rewrite He.
Qed.

(** The queues the operations can build. *)
Inductive built : FairAdmissionQueue T → Prop :=
| built_new aging : built (queue_new aging)
| built_rebuild rows aging c q : rebuild_with_checkpoint rows aging c = Ok q → built q
| built_push q e q' : built q → push q e = Ok q' → built q'
| built_remove q id r q' : built q → remove q id = (r, q') → built q'
| built_pop q now_ms admissible e q' :
    built q → pop_next_where q now_ms admissible = Some (e, q') → built q'.

(** In every queue the operations can build no identifier is queued twice, the index of
    identifiers is exactly the identifiers of the queued rows, and every row is valid. *)
Theorem queue_invariant q : built q → queue_ok q.
Proof.
  induction 1 as [aging|rows aging c q Hr|q e q' _ IH Hp|q id r q' _ IH Hr|q now_ms admissible e q' _ IH Hp].
  - split_and!; [done|constructor|constructor].
  - pose proof (rebuild_spec rows aging c) as Hs. rewrite Hr in Hs. tauto.
  - by eapply push_ok.
  - pose proof (remove_spec q id IH) as Hs. rewrite Hr in Hs. destruct r; [tauto|].
    by destruct Hs as [-> _].
  - by eapply pop_ok.
Qed.

(** Aging prevents starvation by class: once a row has waited one interval per class above
    it, no admissible pop serves a row of a less urgent class than the most urgent one. *)
Theorem aging_bounds_wait q now_ms admissible e q' i e' :
  pop_next_where q now_ms admissible = Some (e, q') →
  promotion_interval_ms (q_aging q) = Some i → admitted (entries q) admissible e' →
  in_i64 (k_created_at_ms (e_key e')) = true → in_i64 now_ms = true →
  (rank (k_class (e_key e')) * Z.max i 1 <= i64_max)%Z →
  (k_created_at_ms (e_key e') + rank (k_class (e_key e')) * Z.max i 1 <= now_ms)%Z →
  eff (q_aging q) now_ms (e_key e') = InteractiveControl ∧
  eff (q_aging q) now_ms (e_key e) = InteractiveControl.
Proof.
  intros Hpop Hi Hadm Ht Hnow Hmax Hwait. pose proof (pop_spec q now_ms admissible) as Hs.
  rewrite Hpop in Hs. destruct Hs as ((_ & Hmin & _) & _). specialize (Hmin _ Hadm).
  destruct (q_aging q) as [iv]. simpl in Hi. subst iv.
  pose proof (rank_range (k_class (e_key e'))).
  assert (rank (k_class (e_key e')) <= promotions i (k_created_at_ms (e_key e')) now_ms)%Z as Hp
    by (apply promotions_enough; first [done|lia]).
  assert (rank (eff (mkAging (Some i)) now_ms (e_key e')) = 0)%Z as H0 by (unfold eff; rewrite effective_rank; lia).
  rewrite H0 in Hmin. pose proof (rank_range (eff (mkAging (Some i)) now_ms (e_key e))).
  assert (∀ c, (rank c <= 0)%Z → c = InteractiveControl) as Hc by (intros []; simpl; lia || done).
  split; apply Hc; lia.
Qed.

(** Aging only promotes and never demotes: the effective class is never less urgent than
    the declared one, never less urgent later than earlier, and is the declared class
    raised by one class per full interval waited. *)
Theorem aging_only_promotes i c t now now' :
  (now <= now')%Z →
  let at_ time := rank (effective_class (aging_every i) c t time) in
  (at_ now' <= at_ now <= rank c)%Z ∧ at_ now = Z.max 0 (rank c - promotions i t now).
Proof.
  intros Hle. cbv zeta. unfold aging_every. rewrite !effective_rank.
  pose proof (promotions_mono i t now now' Hle). pose proof (promotions_nonneg i t now).
  pose proof (rank_range c). lia.
Qed.

(** The reserved lane is exact: dialogue and delivery are admitted whenever a slot is
    physically free, and other work exactly when the general work in flight after it would
    still leave the reserved slots, or those dialogue and delivery already hold if they are
    more, to dialogue and delivery. *)
Theorem reserved_lane_exact class capacity usage :
  (u_dialogue_delivery usage <= u_total usage)%N →
  let reserved := N.min (dialogue_delivery_slots capacity) (total_slots capacity) in
  let general := (u_total usage - u_dialogue_delivery usage)%N in
  reserved_lane_decision class capacity usage = Admit ↔
  if uses_reserved_lane class then (u_total usage < total_slots capacity)%N
  else (general + 1 + N.max reserved (u_dialogue_delivery usage) <= total_slots capacity)%N.
Proof. apply reserved_lane_spec. Qed.
End claims.

(** ** Witnesses *)

Definition sample_row (id agent : string) (class : AdmissionClass) (created : Z) : AdmissionEntry unit :=
  mkEntry (mkKey (lit id) (lit agent) s! "context" s! "session" class created) tt.
Definition sample_rows : list (AdmissionEntry unit) :=
  [sample_row "b" "busy" Objective 2; sample_row "a" "busy" Objective 1; sample_row "c" "calm" Maintenance 3].
Definition sample_requests : list (Z * (AdmissionKey → unit → bool)) :=
  [(10, λ _ _, true); (20, λ _ _, true); (90000, λ _ _, true)]%Z.
Definition sample_queue : FairAdmissionQueue unit :=
  match rebuild sample_rows (aging_every 30000) with
  | Ok q => match pop_next q 5 with Some (_, q') => q' | None => q end
  | Err _ => queue_new aging_disabled
  end.

Lemma sample_queue_built : built sample_queue.
Proof.
  destruct (rebuild sample_rows (aging_every 30000)) as [q|] eqn:Hq; [|vm_compute in Hq; discriminate].
  destruct (pop_next q 5) as [[e q']|] eqn:Hp.
  - assert (sample_queue = q') as -> by (unfold sample_queue; by rewrite Hq, Hp).
    eapply (built_pop q 5); [|exact Hp]. by eapply built_rebuild.
  - exfalso. revert Hp. injection Hq as <-. vm_compute. discriminate.
Qed.

Lemma rebuild_order_independent_witness :
  match rebuild_with_checkpoint sample_rows (aging_every 30000) checkpoint_default,
        rebuild_with_checkpoint (reverse sample_rows) (aging_every 30000) checkpoint_default with
  | Ok q, Ok q' => schedule q sample_requests = schedule q' sample_requests
  | Err _, Err _ => True
  | _, _ => False
  end.
Proof. apply rebuild_order_independent. symmetry. apply reverse_Permutation. Defined.

Lemma queue_invariant_witness : queue_ok sample_queue.
Proof. apply queue_invariant, sample_queue_built. Defined.

Lemma restart_transparent_witness :
  ∃ q', rebuild_with_checkpoint (reverse (entries sample_queue)) (q_aging sample_queue)
          (checkpoint (q_cursor sample_queue)) = Ok q' ∧
        schedule q' sample_requests = schedule sample_queue sample_requests.
Proof.
  apply restart_transparent; [|apply reverse_Permutation].
  split_and!; [vm_compute; reflexivity|apply (bool_decide_unpack _); vm_compute; exact I|].
  vm_compute. repeat constructor.
Defined.

Lemma aging_bounds_wait_witness :
  ∃ e q', pop_next_where sample_queue 200000 (λ _ _, true) = Some (e, q') ∧
          eff (q_aging sample_queue) 200000 (e_key (sample_row "c" "calm" Maintenance 3)) = InteractiveControl ∧
          eff (q_aging sample_queue) 200000 (e_key e) = InteractiveControl.
Proof.
  destruct (pop_next_where sample_queue 200000 (λ _ _, true)) as [[e q']|] eqn:Hp.
  2: { exfalso. vm_compute in Hp. discriminate. }
  exists e, q'. split; [reflexivity|].
  apply (aging_bounds_wait sample_queue 200000 (λ _ _, true) e q' 30000 (sample_row "c" "calm" Maintenance 3)).
  - exact Hp.
  - reflexivity.
  - split; [|reflexivity]. apply list_elem_of_In. vm_compute. auto.
  - reflexivity.
  - reflexivity.
  - vm_compute. discriminate.
  - vm_compute. discriminate.
Defined.

Lemma aging_only_promotes_witness :
  let at_ time := rank (effective_class (aging_every 30000) Maintenance 0 time) in
  (at_ 70000 <= at_ 40000 <= 4)%Z ∧ at_ 40000%Z = Z.max 0 (4 - promotions 30000 0 40000).
Proof. apply (aging_only_promotes 30000 Maintenance 0 40000 70000). lia. Defined.

Lemma reserved_lane_exact_witness :
  reserved_lane_decision Objective (mkCapacity 4 2) (mkUsage 2 1) = Admit ↔ (2 - 1 + 1 + 2 <= 4)%N.
Proof. apply (reserved_lane_exact Objective (mkCapacity 4 2) (mkUsage 2 1)). simpl. lia. Defined.
