(* ===== verification/ActivationAdmission.v ===== *)
(** * The activation admission controller

    The process-local controller of morphz/src/activation_admission.rs around the admission
    queue.  Every access to the state is a critical section of one mutex, so each method is
    a function on the state, or several where the method releases the lock in between;
    [step] interleaves the critical sections of any number of concurrent tasks, the drops of
    cancelled futures included.  Wakeups (tokio's [Notify]) carry no state: a task may
    re-check at any time. *)

From stdpp Require Import base list gmap sorting strings.
From Stdlib Require Import ZArith Lia.
From S2P Require Import Prelude Ordering JsonValue Admission.

(** ** Limits *)

(** morphz/src/activation_admission.rs:20-26 [ActivationAdmissionLimits]. *)
Record ActivationAdmissionLimits : Type := mkLimits {
  al_total_slots : N;
  al_dialogue_delivery_slots : N;
  al_max_queued : N;
  al_dialogue_delivery_queue_slots : N;
  al_aging_promotion_interval_ms : Z
}.

(** morphz/src/activation_admission.rs:47-68 [ActivationAdmissionLimits::normalized]. *)
Definition normalized (l : ActivationAdmissionLimits) : ActivationAdmissionLimits :=
  let total_slots := N.max (al_total_slots l) 1 in
  let max_queued := N.max (al_max_queued l) 1 in
  mkLimits total_slots (N.min (al_dialogue_delivery_slots l) (total_slots - 1)) max_queued
    (N.min (al_dialogue_delivery_queue_slots l) (max_queued - 1))
    (Z.max (al_aging_promotion_interval_ms l) 1).

(** morphz/src/activation_admission.rs:70-73 [ActivationAdmissionLimits::general_queue_limit]. *)
Definition general_queue_limit (l : ActivationAdmissionLimits) : N :=
  al_max_queued l - al_dialogue_delivery_queue_slots l.

(** ** State *)

(** morphz/src/activation_admission.rs:77-92 [ActivationAdmissionError]. *)
Inductive ActivationAdmissionError : Type :=
| QueueFailure (e : AdmissionQueueError)
| AlreadyLocal (id : str)
| WindowFull (id : str) (class : AdmissionClass) (queued limit reserved_for_dialogue_delivery : N).

(** morphz/src/activation_admission.rs:127-136 [ControllerState]. *)
Record ControllerState : Type := mkState {
  c_queue : FairAdmissionQueue unit;
  c_waiters : gset str;
  c_in_flight : gmap str AdmissionKey;
  c_suspended : gmap str AdmissionKey
}.

(** morphz/src/activation_admission.rs:165-169 [RestoreQueuedOutcome]. *)
Inductive RestoreQueuedOutcome : Type :=
| Restored
| AlreadyTracked
| DeferredWindowFull.

(** morphz/src/activation_admission.rs:172-189 [ActivationAdmissionController::new]. *)
Definition controller_new (limits : ActivationAdmissionLimits) : ActivationAdmissionLimits * ControllerState :=
  let limits := normalized limits in
  (limits, mkState (queue_new (aging_every (al_aging_promotion_interval_ms limits))) ∅ ∅ ∅).

Definition reserved_rows (m : gmap str AdmissionKey) : gmap str AdmissionKey :=
  filter (λ ik, uses_reserved_lane (k_class ik.2) = true) m.

(** morphz/src/activation_admission.rs:627-635 [in_flight_usage]. *)
Definition in_flight_usage (in_flight : gmap str AdmissionKey) : InFlightUsage :=
  mkUsage (N.of_nat (size in_flight)) (N.of_nat (size (reserved_rows in_flight))).

Definition queued (st : ControllerState) (id : str) : Prop :=
  id ∈ map (λ e, k_id (e_key e)) (entries (c_queue st)).
#[export] Instance queued_dec st id : Decision (queued st id).
Proof. unfold queued. apply _. Defined.

(** The rows outside the reserved lane. *)
Definition general_rows (es : list (AdmissionEntry unit)) : list (AdmissionEntry unit) :=
  filter (λ e, uses_reserved_lane (k_class (e_key e)) = false) es.

Section controller.
Context (limits : ActivationAdmissionLimits).
Implicit Types (st : ControllerState) (key : AdmissionKey) (id : str).

(** morphz/src/activation_admission.rs:389-419 [check_queue_capacity]. *)
Definition check_queue_capacity st key : result ActivationAdmissionError unit :=
  let len := N.of_nat (length (entries (c_queue st))) in
  let '(queued, limit) :=
    if uses_reserved_lane (k_class key) then (len, al_max_queued limits)
    else
      let general_queued := N.of_nat (length (general_rows (entries (c_queue st)))) in
      if (al_max_queued limits <=? len)%N then (len, al_max_queued limits)
      else (general_queued, general_queue_limit limits) in
  if (limit <=? queued)%N
  then Err (WindowFull (k_id key) (k_class key) queued limit (al_dialogue_delivery_queue_slots limits))
  else Ok tt.

Definition with_queue (q : FairAdmissionQueue unit) st : ControllerState :=
  mkState q (c_waiters st) (c_in_flight st) (c_suspended st).

Definition push_row st key : result ActivationAdmissionError ControllerState :=
  q ← map_err QueueFailure (push (c_queue st) (mkEntry key tt)); Ok (with_queue q st).

(** morphz/src/activation_admission.rs:198-216 [restore_queued]. *)
Definition restore_queued st key : result ActivationAdmissionError (RestoreQueuedOutcome * ControllerState) :=
  if decide (is_Some (c_in_flight st !! k_id key) ∨ is_Some (c_suspended st !! k_id key) ∨ queued st (k_id key))
  then Ok (AlreadyTracked, st)
  else
    match check_queue_capacity st key with
    | Err _ => Ok (DeferredWindowFull, st)
    | Ok _ => st' ← push_row st key; Ok (Restored, st')
    end.

(** morphz/src/activation_admission.rs:220-229 [forget]; [||] keeps the suspended row when a
    queued one was removed. *)
Definition forget st id : bool * ControllerState :=
  let waiters := c_waiters st ∖ {[id]} in
  match remove (c_queue st) id with
  | (Some _, q) => (true, mkState q waiters (c_in_flight st) (c_suspended st))
  | (None, q) =>
      (is_some (c_suspended st !! id), mkState q waiters (c_in_flight st) (delete id (c_suspended st)))
  end.

(** morphz/src/activation_admission.rs:284-287 [is_in_flight]. *)
Definition is_in_flight st id : bool :=
  is_some (c_in_flight st !! id) || is_some (c_suspended st !! id).

(** morphz/src/activation_admission.rs:289-294 [contains]. *)
Definition contains st id : bool := is_in_flight st id || bool_decide (queued st id).

(** morphz/src/activation_admission.rs:311-330 [acquire, the registration]. *)
Definition acquire_register st key : result ActivationAdmissionError ControllerState :=
  let id := k_id key in
  if decide (is_Some (c_in_flight st !! id) ∨ is_Some (c_suspended st !! id) ∨ id ∈ c_waiters st)
  then Err (AlreadyLocal id)
  else
    st' ← (if decide (queued st id) then Ok st
           else _ ← check_queue_capacity st key; push_row st key);
    Ok (mkState (c_queue st') ({[id]} ∪ c_waiters st') (c_in_flight st') (c_suspended st')).

(** morphz/src/activation_admission.rs:345-357 [acquire, the capacity predicate]: a registered
    waiter for which a slot may be used. *)
Definition selectable st (candidate : AdmissionKey) (_ : unit) : bool :=
  bool_decide (k_id candidate ∈ c_waiters st) &&
  bool_decide (reserved_lane_decision (k_class candidate)
                 (mkCapacity (al_total_slots limits) (al_dialogue_delivery_slots limits))
                 (in_flight_usage (c_in_flight st)) = Admit).

(** morphz/src/activation_admission.rs:343-374 [acquire, one check of the loop]: the row
    next in turn is peeked, and popped when it is the task's own.  The clock is read twice,
    [peek_ms] for the peek and [pop_ms] for the pop.  [None]: the task goes on waiting. *)
Definition poll_acquire st id (peek_ms pop_ms : Z) : option ControllerState :=
  next ← peek_next_where (c_queue st) peek_ms (selectable st);
  if k_id (e_key next) =s id then
    '(entry, q) ← pop_next_where (c_queue st) pop_ms (selectable st);
    Some (mkState q (c_waiters st ∖ {[id]}) (<[id := e_key entry]> (c_in_flight st)) (c_suspended st))
  else None.

(** morphz/src/activation_admission.rs:447-467 [ActivationAdmissionPermit::suspend]. *)
Definition suspend st key : ControllerState :=
  mkState (c_queue st) (c_waiters st) (delete (k_id key) (c_in_flight st))
    (<[k_id key := key]> (c_suspended st)).

(** morphz/src/activation_admission.rs:469-482 [ActivationAdmissionPermit::release]. *)
Definition release st id : ControllerState :=
  mkState (c_queue st) (c_waiters st) (delete id (c_in_flight st)) (c_suspended st).

(** morphz/src/activation_admission.rs:501-522 [resume, the registration]. *)
Definition resume_register st key : result ActivationAdmissionError ControllerState :=
  let id := k_id key in
  if decide (is_Some (c_suspended st !! id)) then
    st' ← (if decide (queued st id) then Ok st else push_row st key);
    Ok (mkState (c_queue st') ({[id]} ∪ c_waiters st') (c_in_flight st') (c_suspended st'))
  else Err (AlreadyLocal id).

(** morphz/src/activation_admission.rs:535-569 [resume, one check of the loop]. *)
Definition poll_resume st id (peek_ms pop_ms : Z) : option ControllerState :=
  st' ← poll_acquire st id peek_ms pop_ms;
  Some (mkState (c_queue st') (c_waiters st') (c_in_flight st') (delete id (c_suspended st'))).

(** morphz/src/activation_admission.rs:586-600 [SuspendedActivationAdmission::drop]. *)
Definition drop_suspended st id : ControllerState :=
  mkState (remove (c_queue st) id).2 (c_waiters st ∖ {[id]}) (c_in_flight st)
    (delete id (c_suspended st)).

(** morphz/src/activation_admission.rs:612-624 [WaitingRegistration::drop]. *)
Definition cancel_wait st id : ControllerState :=
  mkState (c_queue st) (c_waiters st ∖ {[id]}) (c_in_flight st) (c_suspended st).

(** ** Concurrent tasks *)

(** The owned values of the API: a future in [acquire], a permit, a suspended admission, a
    future in [resume]. *)
Inductive Handle : Type :=
| Acquiring (key : AdmissionKey)
| Permit (key : AdmissionKey)
| Suspended (key : AdmissionKey)
| Resuming (key : AdmissionKey).

Definition handle_key (h : Handle) : AdmissionKey :=
  match h with Acquiring k | Permit k | Suspended k | Resuming k => k end.

Record System : Type := mkSystem { sys_state : ControllerState; handles : list Handle }.

(** The critical sections, by the task that runs them. *)
Inductive event : Type :=
| EvRestore (key : AdmissionKey)
| EvForget (id : str)
| EvAcquire (key : AdmissionKey)
| EvAcquired (key : AdmissionKey) (peek_ms pop_ms : Z)
| EvCancelAcquire (key : AdmissionKey)
| EvRelease (key : AdmissionKey)
| EvSuspend (key : AdmissionKey)
| EvResume (key : AdmissionKey)
| EvResumed (key : AdmissionKey) (peek_ms pop_ms : Z)
| EvCancelResume (key : AdmissionKey)
| EvDropSuspended (key : AdmissionKey).

(** One critical section of one task; a handle is consumed and produced the way the
    method's receiver and result are.  A rejected call changes nothing. *)
Inductive step : event → System → System → Prop :=
| step_restore key st o st' hs :
    restore_queued st key = Ok (o, st') →
    step (EvRestore key) (mkSystem st hs) (mkSystem st' hs)
| step_forget id st hs :
    step (EvForget id) (mkSystem st hs) (mkSystem (forget st id).2 hs)
| step_acquire key st st' hs :
    acquire_register st key = Ok st' →
    step (EvAcquire key) (mkSystem st hs) (mkSystem st' (Acquiring key :: hs))
| step_acquired key peek_ms pop_ms st st' hs hs' :
    hs ≡ₚ Acquiring key :: hs' → poll_acquire st (k_id key) peek_ms pop_ms = Some st' →
    step (EvAcquired key peek_ms pop_ms) (mkSystem st hs) (mkSystem st' (Permit key :: hs'))
| step_cancel_acquire key st hs hs' :
    hs ≡ₚ Acquiring key :: hs' →
    step (EvCancelAcquire key) (mkSystem st hs) (mkSystem (cancel_wait st (k_id key)) hs')
| step_release key st hs hs' :
    hs ≡ₚ Permit key :: hs' →
    step (EvRelease key) (mkSystem st hs) (mkSystem (release st (k_id key)) hs')
| step_suspend key st hs hs' :
    hs ≡ₚ Permit key :: hs' →
    step (EvSuspend key) (mkSystem st hs) (mkSystem (suspend st key) (Suspended key :: hs'))
| step_resume key st st' hs hs' :
    hs ≡ₚ Suspended key :: hs' → resume_register st key = Ok st' →
    step (EvResume key) (mkSystem st hs) (mkSystem st' (Resuming key :: hs'))
| step_resumed key peek_ms pop_ms st st' hs hs' :
    hs ≡ₚ Resuming key :: hs' → poll_resume st (k_id key) peek_ms pop_ms = Some st' →
    step (EvResumed key peek_ms pop_ms) (mkSystem st hs) (mkSystem st' (Permit key :: hs'))
| step_cancel_resume key st hs hs' :
    hs ≡ₚ Resuming key :: hs' →
    step (EvCancelResume key) (mkSystem st hs) (mkSystem (cancel_wait st (k_id key)) (Suspended key :: hs'))
| step_drop_suspended key st hs hs' :
    hs ≡ₚ Suspended key :: hs' →
    step (EvDropSuspended key) (mkSystem st hs) (mkSystem (drop_suspended st (k_id key)) hs').

Definition initial : System :=
  mkSystem (mkState (queue_new (aging_every (al_aging_promotion_interval_ms limits))) ∅ ∅ ∅) [].

(** The systems reached by events that satisfy a condition. *)
Inductive reachable (allowed : event → System → Prop) : System → Prop :=
| reach_initial : reachable allowed initial
| reach_step e s s' : reachable allowed s → allowed e s → step e s s' → reachable allowed s'.
End controller.
