(* ===== verification/ActivationFacts.v ===== *)
(** * The activation admission controller: capacity, progress and exclusive ownership

    Invariants of every interleaving of the controller's critical sections, proved by
    induction on [reachable]. *)

From stdpp Require Import base list gmap sorting strings.
From Stdlib Require Import ZArith Lia.
From S2P Require Import Prelude Ordering JsonValue Admission AdmissionFacts ActivationAdmission.

(** ** Sizes *)

Definition general_in_flight (m : gmap str AdmissionKey) : gmap str AdmissionKey :=
  filter (λ ik, ¬ uses_reserved_lane (k_class ik.2) = true) m.

Lemma usage_split (m : gmap str AdmissionKey) :
  size m = (size (reserved_rows m) + size (general_in_flight m))%nat.
Proof.
  unfold reserved_rows, general_in_flight.
  rewrite <- map_size_disj_union by apply map_disjoint_filter_complement.
  by rewrite map_filter_union_complement.
Qed.

Lemma size_insert_le {A} (m : gmap str A) i x : (size (<[i := x]> m) <= S (size m))%nat.
Proof. rewrite map_size_insert. destruct (m !! i); simpl; lia. Qed.

Lemma size_delete_le {A} (m : gmap str A) i : (size (delete i m) <= size m)%nat.
Proof. rewrite map_size_delete. destruct (m !! i); simpl; lia. Qed.

Lemma general_insert m i k :
  (size (general_in_flight (<[i := k]> m))
   <= size (general_in_flight m) + if uses_reserved_lane (k_class k) then 0 else 1)%nat.
Proof.
  unfold general_in_flight. rewrite map_filter_insert. case_decide as Hd; simpl in Hd.
  - apply not_true_is_false in Hd as ->.
    etrans; [apply size_insert_le|]. lia.
  - rewrite map_filter_delete. etrans; [apply size_delete_le|]. lia.
Qed.

Lemma general_delete m i : (size (general_in_flight (delete i m)) <= size (general_in_flight m))%nat.
Proof. unfold general_in_flight. rewrite map_filter_delete. apply size_delete_le. Qed.

(** ** Critical sections *)

Section controller.
Context (limits : ActivationAdmissionLimits).
Implicit Types (st : ControllerState) (key : AdmissionKey) (id : str).

Lemma push_row_Ok st key st' :
  push_row st key = Ok st' →
  queued st (k_id key) ∨
  (entries (c_queue st') = entries (c_queue st) ++ [mkEntry key tt] ∧
   c_waiters st' = c_waiters st ∧ c_in_flight st' = c_in_flight st ∧ c_suspended st' = c_suspended st ∧
   (queue_ok (c_queue st) → queue_ok (c_queue st'))).
Proof.
  unfold push_row. intros Hp. res_inv. right. simpl.
  match goal with Hq : push _ _ = Ok _ |- _ => rename Hq into Hpush end.
  pose proof (push_cases (c_queue st) (mkEntry key tt)) as Hc. simpl in Hc.
  destruct (validate_key key); [|congruence]. destruct (decide _); [congruence|].
  destruct Hc as (q & Hq & He & _). split_and!; try done; [congruence|]. intros Hok.
  by eapply push_ok.
Qed.

Lemma in_flight_register st key st' : acquire_register limits st key = Ok st' → c_in_flight st' = c_in_flight st.
Proof.
  unfold acquire_register. intros Hr. case_match_in Hr. res_inv. simpl.
  destruct (decide (queued st (k_id key))); [by injection Ha as <-|]. res_inv.
  by destruct (push_row_Ok _ _ _ Ha) as [?|(_ & _ & ? & _)].
Qed.

Lemma in_flight_resume st key st' : resume_register st key = Ok st' → c_in_flight st' = c_in_flight st.
Proof.
  unfold resume_register. intros Hr. case_match_in Hr. res_inv. simpl.
  destruct (decide (queued st (k_id key))); [by injection Ha as <-|].
  by destruct (push_row_Ok _ _ _ Ha) as [?|(_ & _ & ? & _)].
Qed.

Lemma in_flight_restore st key o st' : restore_queued limits st key = Ok (o, st') → c_in_flight st' = c_in_flight st.
Proof.
  unfold restore_queued. intros Hr. destruct (decide _) as [|Hno]; [by injection Hr as <- <-|].
  destruct (check_queue_capacity limits st key); [|by injection Hr as <- <-]. res_inv.
  destruct (push_row_Ok _ _ _ Ha) as [?|(_ & _ & ? & _)]; [|congruence]. naive_solver.
Qed.

Lemma in_flight_forget st id : c_in_flight (forget st id).2 = c_in_flight st.
Proof. unfold forget. by destruct (remove (c_queue st) id) as [[?|] ?]. Qed.

(** A granted task: the clock readings may select different rows, but the row that is
    popped is a registered waiter that capacity admits. *)
Lemma poll_acquire_Some st id peek_ms pop_ms st' :
  poll_acquire limits st id peek_ms pop_ms = Some st' →
  ∃ next entry q,
    peek_next_where (c_queue st) peek_ms (selectable limits st) = Some next ∧ entry_id next = id ∧
    pop_next_where (c_queue st) pop_ms (selectable limits st) = Some (entry, q) ∧
    admitted (entries (c_queue st)) (selectable limits st) entry ∧
    st' = mkState q (c_waiters st ∖ {[id]}) (<[id := e_key entry]> (c_in_flight st)) (c_suspended st).
Proof.
  unfold poll_acquire. destruct (peek_next_where _ _ _) as [next|] eqn:Hpeek; cbn [mbind option_bind]; [|done].
  destruct (str_eqb_spec (k_id (e_key next)) id) as [Hid|]; [|done].
  destruct (pop_next_where _ pop_ms _) as [[entry q]|] eqn:Hpop; cbn [mbind option_bind]; [|done].
  intros [= <-]. exists next, entry, q. split_and!; try done.
  pose proof (pop_spec (c_queue st) pop_ms (selectable limits st)) as Hs. rewrite Hpop in Hs. apply Hs.
Qed.

Lemma selectable_true st k u :
  selectable limits st k u = true ↔
  k_id k ∈ c_waiters st ∧
  reserved_lane_decision (k_class k) (mkCapacity (al_total_slots limits) (al_dialogue_delivery_slots limits))
    (in_flight_usage (c_in_flight st)) = Admit.
Proof. unfold selectable. by rewrite andb_true_iff, !bool_decide_eq_true. Qed.

(** The expectation of the source that a peeked row can be popped: whatever the clock reads,
    the pop finds a row. *)
Lemma pop_after_peek st peek_ms pop_ms next :
  peek_next_where (c_queue st) peek_ms (selectable limits st) = Some next →
  is_Some (pop_next_where (c_queue st) pop_ms (selectable limits st)).
Proof.
  rewrite peek_pop. intros Hpeek.
  destruct (pop_next_where (c_queue st) peek_ms _) as [[e q]|] eqn:Hpop; [|done].
  pose proof (pop_spec (c_queue st) peek_ms (selectable limits st)) as Hs. rewrite Hpop in Hs.
  pose proof (pop_spec (c_queue st) pop_ms (selectable limits st)) as Hs'.
  destruct (pop_next_where (c_queue st) pop_ms _); [by eexists|].
  exfalso. eapply Hs', Hs.
Qed.

(** ** Capacity *)

Definition within_capacity st : Prop :=
  (N.of_nat (size (c_in_flight st)) <= al_total_slots limits)%N ∧
  (N.of_nat (size (general_in_flight (c_in_flight st))) + al_dialogue_delivery_slots limits
   <= al_total_slots limits)%N.

Lemma within_capacity_delete st st' id :
  c_in_flight st' = delete id (c_in_flight st) → within_capacity st → within_capacity st'.
Proof.
  unfold within_capacity. intros -> [H1 H2]. pose proof (size_delete_le (c_in_flight st) id).
  pose proof (general_delete (c_in_flight st) id). lia.
Qed.

Lemma within_capacity_poll st id peek_ms pop_ms st' :
  within_capacity st → poll_acquire limits st id peek_ms pop_ms = Some st' → within_capacity st'.
Proof.
  intros [H1 H2] (next & entry & q & _ & _ & _ & [_ Hsel] & ->)%poll_acquire_Some.
  apply selectable_true in Hsel as [_ Hadm].
  pose proof (usage_split (c_in_flight st)) as Hsplit.
  apply reserved_lane_spec in Hadm; [|simpl; lia]. simpl in Hadm.
  pose proof (size_insert_le (c_in_flight st) id (e_key entry)).
  pose proof (general_insert (c_in_flight st) id (e_key entry)).
  unfold within_capacity. simpl. destruct (uses_reserved_lane (k_class (e_key entry))); lia.
Qed.

Lemma reachable_capacity allowed s :
  (al_dialogue_delivery_slots limits <= al_total_slots limits)%N →
  reachable limits allowed s → within_capacity (sys_state s).
Proof.
  intros Hlim. induction 1 as [|e s s' _ IH _ Hstep].
  { unfold within_capacity, general_in_flight. simpl. rewrite map_filter_empty, !map_size_empty. lia. }
  destruct Hstep; simpl in *;
    try (by eapply within_capacity_delete; [reflexivity|]);
    try (by eapply within_capacity_poll);
    unfold within_capacity in *.
  - by erewrite in_flight_restore.
  - by rewrite in_flight_forget.
  - by erewrite in_flight_register.
  - done.
  - by erewrite in_flight_resume.
  - unfold poll_resume in *.
    destruct (poll_acquire limits st (k_id key) peek_ms pop_ms) as [st1|] eqn:Hp; [|done].
    simplify_option_eq. simpl. by eapply within_capacity_poll.
  - done.
  - done.
Qed.

(** ** Progress *)

Lemma waiter_served st now_ms e :
  e ∈ entries (c_queue st) → selectable limits st (e_key e) tt = true →
  ∃ id st', id ∈ c_waiters st ∧ queued st id ∧ poll_acquire limits st id now_ms now_ms = Some st'.
Proof.
  intros He Hsel. unfold poll_acquire. rewrite peek_pop.
  pose proof (pop_spec (c_queue st) now_ms (selectable limits st)) as Hs.
  destruct (pop_next_where _ _ _) as [[e' q']|].
  - destruct Hs as (([Hin Hadm] & _) & _). cbn [fmap option_fmap option_map fst mbind option_bind].
    exists (k_id (e_key e')). rewrite str_eqb_refl. eexists. split_and!; [| |done].
    + by apply selectable_true in Hadm as [? _].
    + unfold queued. apply list_elem_of_fmap. eauto.
  - exfalso. apply (Hs e). split; [done|]. by destruct (e_payload e).
Qed.
End controller.

(** ** Exclusive ownership *)

Definition hid (h : Handle) : str := k_id (handle_key h).
Definition is_permit (h : Handle) : bool := match h with Permit _ => true | _ => false end.
Definition is_parked (h : Handle) : bool := match h with Suspended _ | Resuming _ => true | _ => false end.
Definition is_waiting (h : Handle) : bool := match h with Acquiring _ | Resuming _ => true | _ => false end.

(** A live handle of a kind for an activation. *)
Definition owns (p : Handle → bool) (hs : list Handle) (id : str) : Prop :=
  ∃ h, h ∈ hs ∧ p h = true ∧ hid h = id.

Lemma owns_cons p h hs id : owns p (h :: hs) id ↔ (p h = true ∧ hid h = id) ∨ owns p hs id.
Proof. unfold owns. setoid_rewrite elem_of_cons. naive_solver. Qed.

Lemma owns_nil p id : owns p [] id ↔ False.
Proof. unfold owns. set_solver. Qed.

Lemma owns_permutation p hs hs' id : hs ≡ₚ hs' → owns p hs id ↔ owns p hs' id.
Proof. unfold owns. intros Hp. by setoid_rewrite Hp. Qed.

Lemma not_owned p hs id : id ∉ map hid hs → ¬ owns p hs id.
Proof. intros Hno (h & Hh & _ & <-). apply Hno, list_elem_of_fmap. eauto. Qed.

Lemma owned_somehow hs id :
  id ∈ map hid hs → owns is_permit hs id ∨ owns is_parked hs id ∨ owns is_waiting hs id.
Proof.
  intros (h & -> & Hh)%list_elem_of_fmap. unfold owns.
  destruct h; [right; right|left|right; left|right; left]; eauto.
Qed.

(** Every activation has at most one live handle, and the state records exactly the handles. *)
Record exclusive (st : ControllerState) (hs : list Handle) : Prop := {
  ex_queue : queue_ok (c_queue st);
  ex_nodup : NoDup (map hid hs);
  ex_permit id : is_Some (c_in_flight st !! id) ↔ owns is_permit hs id;
  ex_parked id : is_Some (c_suspended st !! id) ↔ owns is_parked hs id;
  ex_waiting id : id ∈ c_waiters st ↔ owns is_waiting hs id;
  ex_queued id : id ∈ c_waiters st → queued st id;
  ex_running id : queued st id → c_in_flight st !! id = None
}.

Lemma exclusive_permutation st hs hs' : hs ≡ₚ hs' → exclusive st hs → exclusive st hs'.
Proof.
  intros Hp [? Hnd]. split; try done; [by rewrite <- Hp| | |]; intros id;
    rewrite <- (owns_permutation _ _ _ id Hp); auto.
Qed.

Section exclusive.
Context (limits : ActivationAdmissionLimits).
Implicit Types (st : ControllerState) (hs : list Handle).

(** The events of a runtime that reads one clock per critical section and forgets no
    activation that is still owned. *)
Definition orderly (e : event) (s : System) : Prop :=
  match e with
  | EvAcquired _ peek_ms pop_ms | EvResumed _ peek_ms pop_ms => peek_ms = pop_ms
  | EvForget id => id ∉ map hid (handles s)
  | _ => True
  end.

Lemma take_queued st (e : AdmissionEntry unit) q x :
  queue_ok (c_queue st) → entries (c_queue st) ≡ₚ e :: entries q →
  x ∈ map entry_id (entries q) ↔ queued st x ∧ x ≠ entry_id e.
Proof.
  intros (_ & Hnd & _) Hp.
  assert (map entry_id (entries (c_queue st)) ≡ₚ entry_id e :: map entry_id (entries q)) as Hm by (by rewrite Hp).
  unfold queued. change (λ e, k_id (e_key e)) with (entry_id (T:=unit)).
  rewrite Hm in Hnd |- *. inversion Hnd as [|? ? Hno _]; subst. rewrite elem_of_cons. naive_solver.
Qed.

Lemma poll_same st id now_ms st' :
  queue_ok (c_queue st) → poll_acquire limits st id now_ms now_ms = Some st' →
  ∃ e q, entry_id e = id ∧ entries (c_queue st) ≡ₚ e :: entries q ∧ queue_ok q ∧ id ∈ c_waiters st ∧
    st' = mkState q (c_waiters st ∖ {[id]}) (<[id := e_key e]> (c_in_flight st)) (c_suspended st).
Proof.
  intros Hok (next & e & q & Hpeek & Hid & Hpop & [_ Hsel] & ->)%poll_acquire_Some.
  rewrite peek_pop, Hpop in Hpeek. injection Hpeek as <-.
  pose proof (pop_spec (c_queue st) now_ms (selectable limits st)) as Hs. rewrite Hpop in Hs.
  exists e, q. split_and!; [done|apply Hs|by eapply pop_ok| |done].
  rewrite <- Hid. by apply selectable_true in Hsel as [? _].
Qed.

Lemma queued_snoc st st' key x :
  entries (c_queue st') = entries (c_queue st) ++ [mkEntry key tt] → queued st' x ↔ queued st x ∨ x = k_id key.
Proof. intros He. unfold queued. rewrite He, map_app, elem_of_app. simpl. by rewrite list_elem_of_singleton. Qed.

(** A row that is queued for an activation that is neither running nor queued. *)
Lemma exclusive_push st key st' hs :
  exclusive st hs → c_in_flight st !! k_id key = None → ¬ queued st (k_id key) →
  push_row st key = Ok st' →
  exclusive st' hs ∧ queued st' (k_id key) ∧ c_waiters st' = c_waiters st ∧
  c_in_flight st' = c_in_flight st ∧ c_suspended st' = c_suspended st.
Proof.
  intros [H1 H2 H3 H4 H5 H6 H7] Hfree Hnq Hp.
  destruct (push_row_Ok _ _ _ Hp) as [?|(He & Hw & Hi & Hs & Hok)]; [done|].
  pose proof (queued_snoc st st' key) as Hq.
  split; [|split_and!; try done; apply Hq; [done|by right]].
  split; [auto|done|by rewrite Hi|by rewrite Hs|by rewrite Hw|rewrite Hw|rewrite Hi]; intros x Hx.
  - apply Hq; auto.
  - apply Hq in Hx as [Hx| ->]; auto.
Qed.

Lemma exclusive_register st key st' hs :
  exclusive st hs → acquire_register limits st key = Ok st' → exclusive st' (Acquiring key :: hs).
Proof.
  intros Hex. unfold acquire_register. case_decide as Hno; [done|]. intros Hr. res_inv.
  assert (exclusive a hs ∧ queued a (k_id key) ∧ c_waiters a = c_waiters st ∧
          c_in_flight a = c_in_flight st ∧ c_suspended a = c_suspended st) as (Hexa & Hq & Hw & Hi & Hs).
  { case_decide as Hq; [by injection Ha as <-|]. res_inv. eapply exclusive_push; try done.
    apply eq_None_not_Some. tauto. }
  destruct Hexa as [H1 H2 H3 H4 H5 H6 H7].
  assert (k_id key ∉ map hid hs) as Hnew.
  { intros Hin. apply owned_somehow in Hin. rewrite <- H3, <- H4, <- H5, Hw, Hi, Hs in Hin. tauto. }
  split; simpl; [done|by constructor| | | | |done].
  - intros x. rewrite owns_cons, H3. simpl. naive_solver.
  - intros x. rewrite owns_cons, H4. simpl. naive_solver.
  - intros x. rewrite owns_cons, elem_of_union, elem_of_singleton, H5. unfold hid. simpl. naive_solver.
  - intros x [->%elem_of_singleton|Hx]%elem_of_union; [done|]. by apply H6.
Qed.

Lemma exclusive_restore st key o st' hs :
  exclusive st hs → restore_queued limits st key = Ok (o, st') → exclusive st' hs.
Proof.
  intros Hex. unfold restore_queued. case_decide as Hno; [by intros [= <- <-]|].
  destruct (check_queue_capacity limits st key); [|by intros [= <- <-]]. intros Hr. res_inv.
  eapply exclusive_push; try done; [|tauto]. apply eq_None_not_Some. tauto.
Qed.

(** Granting the task of a waiting handle. *)
Lemma exclusive_grant st key now_ms st' h hs susp :
  exclusive st (h :: hs) → is_waiting h = true → handle_key h = key →
  poll_acquire limits st (k_id key) now_ms now_ms = Some st' →
  susp = (if is_parked h then delete (k_id key) (c_suspended st) else c_suspended st) →
  exclusive (mkState (c_queue st') (c_waiters st') (c_in_flight st') susp) (Permit key :: hs).
Proof.
  intros [H1 H2 H3 H4 H5 H6 H7] Hwait <- Hpoll ->.
  apply poll_same in Hpoll as (e & q & Hid & Hp & Hq & _ & ->); [|done].
  fold (hid h) in *. simpl in H2. apply NoDup_cons in H2 as [Hno Hnd].
  assert (∀ p, ¬ owns p hs (hid h)) as Hnone by (intros p; by apply not_owned).
  assert (∀ p x, owns p hs x → x ≠ hid h) as Hne by (intros p x Hx ->; by eapply Hnone).
  setoid_rewrite owns_cons in H3. setoid_rewrite owns_cons in H4. setoid_rewrite owns_cons in H5.
  assert (is_permit h = false) as Hnp by (by destruct h).
  split; simpl; [done|by apply NoDup_cons| | | | |].
  - intros x. rewrite owns_cons, lookup_insert_is_Some', H3, Hnp. unfold hid. simpl. naive_solver.
  - intros x. rewrite owns_cons. simpl. destruct (is_parked h) eqn:E.
    + rewrite lookup_delete_is_Some, H4. naive_solver.
    + rewrite H4. naive_solver.
  - intros x. rewrite owns_cons, elem_of_difference, elem_of_singleton, H5. simpl. naive_solver.
  - intros x [Hx Hxn]%elem_of_difference. unfold queued. simpl.
    apply (take_queued st e q x H1 Hp). rewrite Hid. set_solver.
  - intros x Hx. unfold queued in Hx. simpl in Hx. apply (take_queued st e q x H1 Hp) in Hx as [Hx Hxn].
    rewrite lookup_insert_ne by congruence. by apply H7.
Qed.

(** Removing the queued row of an activation. *)
Lemma remove_queued st id :
  queue_ok (c_queue st) →
  queue_ok (remove (c_queue st) id).2 ∧
  ∀ x, x ∈ map entry_id (entries (remove (c_queue st) id).2) ↔ queued st x ∧ x ≠ id.
Proof.
  intros Hok. pose proof (remove_spec (c_queue st) id Hok) as Hs.
  destruct (remove (c_queue st) id) as [[e|] q]; simpl.
  - destruct Hs as (<- & Hp & Hq). split; [done|]. intros x. by apply take_queued.
  - destruct Hs as [-> Hno]. split; [done|]. unfold queued.
    change (λ e, k_id (e_key e)) with (entry_id (T:=unit)). intros x. naive_solver.
Qed.

(** The handle of an exclusive state, split off: its activation has no other handle. *)
Lemma exclusive_handle st h hs :
  exclusive st (h :: hs) →
  queue_ok (c_queue st) ∧ NoDup (map hid hs) ∧ (∀ p, ¬ owns p hs (hid h)) ∧
  (∀ x, is_Some (c_in_flight st !! x) ↔ (is_permit h = true ∧ hid h = x) ∨ owns is_permit hs x) ∧
  (∀ x, is_Some (c_suspended st !! x) ↔ (is_parked h = true ∧ hid h = x) ∨ owns is_parked hs x) ∧
  (∀ x, x ∈ c_waiters st ↔ (is_waiting h = true ∧ hid h = x) ∨ owns is_waiting hs x) ∧
  (∀ x, x ∈ c_waiters st → queued st x) ∧ (∀ x, queued st x → c_in_flight st !! x = None) ∧
  hid h ∉ map hid hs.
Proof.
  intros [H1 H2 H3 H4 H5 H6 H7]. simpl in H2. apply NoDup_cons in H2 as [Hno Hnd].
  setoid_rewrite owns_cons in H3. setoid_rewrite owns_cons in H4. setoid_rewrite owns_cons in H5.
  split_and!; try done. intros p. by apply not_owned.
Qed.

Ltac owned Hn := let x := fresh "x" in
  intros x; rewrite ?owns_cons, ?lookup_delete_is_Some, ?lookup_insert_is_Some', ?elem_of_difference,
    ?elem_of_union, ?elem_of_singleton; unfold hid in *; simpl in *; naive_solver.

Lemma exclusive_forget st id hs :
  exclusive st hs → id ∉ map hid hs → exclusive (forget st id).2 hs.
Proof.
  intros [H1 H2 H3 H4 H5 H6 H7] Hno. destruct (remove_queued st id H1) as [Hok Hrow].
  assert (∀ p, ¬ owns p hs id) as Hnone by (intros p; by apply not_owned).
  assert (c_suspended st !! id = None) as Hs.
  { apply eq_None_not_Some. rewrite H4. apply Hnone. }
  assert ((forget st id).2 = mkState (remove (c_queue st) id).2 (c_waiters st ∖ {[id]})
            (c_in_flight st) (c_suspended st)) as ->.
  { unfold forget. destruct (remove (c_queue st) id) as [[e|] q]; simpl; [done|].
    by rewrite delete_id. }
  split; simpl; try done.
  - intros x. rewrite elem_of_difference, elem_of_singleton, H5. split; [tauto|].
    intros Hx. split; [done|]. intros ->. by eapply Hnone.
  - intros x [Hx Hxn]%elem_of_difference. apply Hrow. set_solver.
  - intros x Hx. apply Hrow in Hx as [Hx _]. by apply H7.
Qed.

Lemma exclusive_cancel st key hs :
  exclusive st (Acquiring key :: hs) → exclusive (cancel_wait st (k_id key)) hs.
Proof.
  intros (H1 & Hnd & Hnone & H3 & H4 & H5 & H6 & H7 & _)%exclusive_handle.
  split; simpl; [done|done|owned Hnone..| |done].
  intros x [Hx _]%elem_of_difference. by apply H6.
Qed.

Lemma exclusive_cancel_resume st key hs :
  exclusive st (Resuming key :: hs) → exclusive (cancel_wait st (k_id key)) (Suspended key :: hs).
Proof.
  intros (H1 & Hnd & Hnone & H3 & H4 & H5 & H6 & H7 & Hno)%exclusive_handle.
  split; simpl; [done|by apply NoDup_cons|owned Hnone..| |done].
  intros x [Hx _]%elem_of_difference. by apply H6.
Qed.

Lemma exclusive_release st key hs :
  exclusive st (Permit key :: hs) → exclusive (release st (k_id key)) hs.
Proof.
  intros (H1 & Hnd & Hnone & H3 & H4 & H5 & H6 & H7 & _)%exclusive_handle.
  split; simpl; [done|done|owned Hnone..|done|].
  intros x Hx. apply lookup_delete_None. right. by apply H7.
Qed.

Lemma exclusive_suspend st key hs :
  exclusive st (Permit key :: hs) → exclusive (suspend st key) (Suspended key :: hs).
Proof.
  intros (H1 & Hnd & Hnone & H3 & H4 & H5 & H6 & H7 & Hno)%exclusive_handle.
  split; simpl; [done|by apply NoDup_cons|owned Hnone..|done|].
  intros x Hx. apply lookup_delete_None. right. by apply H7.
Qed.

Lemma exclusive_drop st key hs :
  exclusive st (Suspended key :: hs) → exclusive (drop_suspended st (k_id key)) hs.
Proof.
  intros (H1 & Hnd & Hnone & H3 & H4 & H5 & H6 & H7 & _)%exclusive_handle.
  destruct (remove_queued st (k_id key) H1) as [Hok Hrow].
  split; simpl; [done|done|owned Hnone..| |].
  - intros x [Hx Hxn]%elem_of_difference. apply Hrow. set_solver.
  - intros x Hx. apply Hrow in Hx as [Hx _]. by apply H7.
Qed.

Lemma exclusive_resume st key st' hs :
  exclusive st (Suspended key :: hs) → resume_register st key = Ok st' →
  exclusive st' (Resuming key :: hs).
Proof.
  intros Hex. unfold resume_register. case_decide as Hs; [|done]. intros Hr. res_inv.
  assert (c_in_flight st !! k_id key = None) as Hfree.
  { apply exclusive_handle in Hex as (_ & _ & Hnone & H3 & _). apply eq_None_not_Some.
    rewrite H3. intros [[? _]|Ho]; [done|]. by eapply Hnone. }
  assert (exclusive a (Suspended key :: hs) ∧ queued a (k_id key)) as [Hexa Hq].
  { case_decide as Hq; [by injection Ha as <-|]. by destruct (exclusive_push st key a _ Hex Hfree Hq Ha) as (? & ? & _). }
  apply exclusive_handle in Hexa as (H1 & Hnd & Hnone & H3 & H4 & H5 & H6 & H7 & Hno).
  split; simpl; [done|by apply NoDup_cons|owned Hnone..| |done].
  intros x [->%elem_of_singleton|Hx]%elem_of_union; [done|]. by apply H6.
Qed.

Lemma exclusive_step e s s' :
  exclusive (sys_state s) (handles s) → orderly e s → step limits e s s' →
  exclusive (sys_state s') (handles s').
Proof.
  intros Hex Ho Hstep.
  destruct Hstep; simpl in *; subst;
    try match goal with Hp : _ ≡ₚ _ |- _ => apply (exclusive_permutation _ _ _ Hp) in Hex end.
  - by eapply exclusive_restore.
  - by apply exclusive_forget.
  - by eapply exclusive_register.
  - match goal with Hp : poll_acquire _ _ _ _ _ = _ |- _ => rename Hp into Hpoll end.
    pose proof (exclusive_grant st key pop_ms st' (Acquiring key) hs' (c_suspended st) Hex
                  eq_refl eq_refl Hpoll eq_refl) as Hg.
    apply poll_same in Hpoll as (e & q & _ & _ & _ & _ & ->); [exact Hg|apply Hex].
  - by apply exclusive_cancel.
  - by apply exclusive_release.
  - by apply exclusive_suspend.
  - by eapply exclusive_resume.
  - match goal with Hp : poll_resume _ _ _ _ _ = _ |- _ => unfold poll_resume in Hp end.
    destruct (poll_acquire limits st (k_id key) pop_ms pop_ms) as [st1|] eqn:Hpoll; [|done].
    simplify_option_eq.
    pose proof (exclusive_grant st key pop_ms st1 (Resuming key) hs'
                  (delete (k_id key) (c_suspended st)) Hex eq_refl eq_refl Hpoll eq_refl) as Hg.
    apply poll_same in Hpoll as (e & q & _ & _ & _ & _ & ->); [exact Hg|apply Hex].
  - by apply exclusive_cancel_resume.
  - by apply exclusive_drop.
Qed.

Lemma reachable_exclusive s : reachable limits orderly s → exclusive (sys_state s) (handles s).
Proof.
  induction 1 as [|e s s' _ IH Ho Hs]; [|by eapply exclusive_step].
  split; simpl; [split_and!; [done|constructor|constructor]|constructor| | | | |]; intros id.
  - rewrite owns_nil, lookup_empty. split; [by intros [? ?]|done].
  - rewrite owns_nil, lookup_empty. split; [by intros [? ?]|done].
  - rewrite owns_nil. set_solver.
  - by intros ?%elem_of_empty.
  - by intros ?%elem_of_nil.
Qed.
End exclusive.

(** ** The scheduling window *)

Lemma filter_length_le {A} (P Q : A → Prop) `{!∀ x, Decision (P x), !∀ x, Decision (Q x)} l l' :
  l' ⊆+ l → (∀ x, x ∈ l' → P x → Q x) → (length (filter P l') <= length (filter Q l))%nat.
Proof.
  intros [k ->]%submseteq_Permutation HPQ. rewrite filter_app, length_app.
  induction l' as [|x l' IH]; simpl; [lia|]. rewrite !filter_cons.
  specialize (IH (λ y Hy, HPQ y (list_elem_of_further _ _ _ Hy))).
  pose proof (HPQ x ltac:(by left)). repeat case_decide; simpl; try lia. tauto.
Qed.

Section window.
Context (limits : ActivationAdmissionLimits).
Implicit Types (st : ControllerState) (hs : list Handle).

(** The rows that entered through the window: not those of a suspended activation, whose
    resumption is never refused. *)
Definition fresh st (e : AdmissionEntry unit) : Prop := c_suspended st !! entry_id e = None.
Definition fresh_general st (e : AdmissionEntry unit) : Prop :=
  fresh st e ∧ uses_reserved_lane (k_class (e_key e)) = false.
#[export] Instance fresh_dec st e : Decision (fresh st e).
Proof. unfold fresh. apply _. Defined.
#[export] Instance fresh_general_dec st e : Decision (fresh_general st e).
Proof. unfold fresh_general. apply _. Defined.

Definition within_window st : Prop :=
  (N.of_nat (length (filter (fresh st) (entries (c_queue st)))) <= al_max_queued limits)%N ∧
  (N.of_nat (length (filter (fresh_general st) (entries (c_queue st)))) <= general_queue_limit limits)%N.

Lemma window_mono st st' :
  entries (c_queue st') ⊆+ entries (c_queue st) →
  (∀ e, e ∈ entries (c_queue st') → fresh st' e → fresh st e) →
  within_window st → within_window st'.
Proof.
  intros Hsub Hf [H1 H2].
  pose proof (filter_length_le (fresh st') (fresh st) _ _ Hsub Hf).
  pose proof (filter_length_le (fresh_general st') (fresh_general st) _ _ Hsub
                (λ e He H, conj (Hf e He (proj1 H)) (proj2 H))).
  unfold within_window. lia.
Qed.

Lemma window_same st st' :
  entries (c_queue st') = entries (c_queue st) → c_suspended st' = c_suspended st →
  within_window st → within_window st'.
Proof. intros He Hs. apply window_mono; [by rewrite He|]. unfold fresh. by rewrite Hs. Qed.

(** A checked push stays inside the window. *)
Lemma window_push st key st' :
  ¬ queued st (k_id key) → check_queue_capacity limits st key = Ok tt → push_row st key = Ok st' →
  within_window st → within_window st'.
Proof.
  intros Hnq Hcheck Hp [H1 H2].
  destruct (push_row_Ok _ _ _ Hp) as [?|(He & _ & _ & Hs & _)]; [done|].
  unfold within_window. rewrite He, !filter_app, !length_app.
  assert (∀ e, fresh st' e ↔ fresh st e) as Hf by (intros e; unfold fresh; by rewrite Hs).
  pose proof (filter_length_le (fresh st') (fresh st) (entries (c_queue st)) _ ltac:(done) (λ e _, proj1 (Hf e))).
  pose proof (filter_length_le (fresh_general st') (fresh_general st) (entries (c_queue st)) _ ltac:(done)
                (λ e _ H, conj (proj1 (Hf e) (proj1 H)) (proj2 H))).
  pose proof (length_filter (fresh st) (entries (c_queue st))).
  pose proof (filter_length_le (fresh_general st) (λ e, uses_reserved_lane (k_class (e_key e)) = false)
                (entries (c_queue st)) _ ltac:(done) (λ e _ H, proj2 H)) as Hg.
  fold (general_rows (entries (c_queue st))) in Hg.
  pose proof (length_filter (fresh st') [mkEntry key tt]) as Hone. simpl length in Hone at 2.
  assert (length (filter (fresh_general st') [mkEntry key tt])
          <= if uses_reserved_lane (k_class key) then 0 else 1)%nat as Hgone.
  { rewrite filter_cons, filter_nil. case_decide as Hd; [|simpl; lia]. destruct Hd as [_ Hd]. simpl in *. by rewrite Hd. }
  unfold check_queue_capacity in Hcheck.
  destruct (uses_reserved_lane (k_class key)).
  - destruct (N.leb_spec (al_max_queued limits) (N.of_nat (length (entries (c_queue st))))); [done|lia].
  - destruct (N.leb_spec (al_max_queued limits) (N.of_nat (length (entries (c_queue st))))) as [Hle|Hlt].
    + destruct (N.leb_spec (al_max_queued limits) (N.of_nat (length (entries (c_queue st))))); [done|lia].
    + destruct (N.leb_spec (general_queue_limit limits) (N.of_nat (length (general_rows (entries (c_queue st)))))); [done|lia].
Qed.

Lemma remove_submseteq st id : entries (remove (c_queue st) id).2 ⊆+ entries (c_queue st).
Proof.
  unfold remove. destruct (position _ _) as [i|]; [|done].
  pose proof (swap_remove_spec (entries (c_queue st)) i) as Hs.
  destruct (swap_remove _ _) as [[e rest]|]; simpl; [|done]. destruct Hs as [_ ->].
  by apply submseteq_cons.
Qed.

Lemma window_removed st q id w m s :
  queue_ok (c_queue st) → entries q ⊆+ entries (c_queue st) →
  (∀ e, e ∈ entries q → entry_id e ≠ id) →
  s = c_suspended st ∨ s = delete id (c_suspended st) →
  within_window st → within_window (mkState q w m s).
Proof.
  intros Hok Hsub Hne Hs. apply window_mono; [done|]. simpl. intros e He. unfold fresh. simpl.
  destruct Hs as [-> | ->]; [done|]. rewrite lookup_delete_ne; [done|]. by apply not_eq_sym, Hne.
Qed.

(** A resumption adds a row that does not count. *)
Lemma window_resume st key st' :
  resume_register st key = Ok st' → within_window st → within_window st'.
Proof.
  unfold resume_register. case_decide as Hs; [|done]. intros Hr Hw. res_inv.
  eapply (window_same a); [done..|]. case_decide; [by simplify_eq|].
  destruct (push_row_Ok _ _ _ Ha) as [?|(He & _ & _ & Hsu & _)]; [done|].
  destruct Hw as [H1 H2]. unfold within_window. rewrite He, !filter_app.
  assert (∀ e, fresh a e ↔ fresh st e) as Hf by (intros e; unfold fresh; by rewrite Hsu).
  assert (¬ fresh a (mkEntry key tt)) as Hnf.
  { rewrite Hf. unfold fresh, entry_id. simpl. intros Hn. rewrite Hn in Hs. by destruct Hs. }
  rewrite !filter_cons, !filter_nil, !decide_False by (unfold fresh_general; tauto).
  rewrite !app_nil_r.
  pose proof (filter_length_le (fresh a) (fresh st) (entries (c_queue st)) _ ltac:(done) (λ e _, proj1 (Hf e))).
  pose proof (filter_length_le (fresh_general a) (fresh_general st) (entries (c_queue st)) _ ltac:(done)
                (λ e _ H, conj (proj1 (Hf e) (proj1 H)) (proj2 H))). lia.
Qed.

Lemma window_step e s s' :
  exclusive (sys_state s) (handles s) → orderly e s → within_window (sys_state s) →
  step limits e s s' → within_window (sys_state s').
Proof.
  intros Hex Ho Hw Hstep. pose proof (ex_queue _ _ Hex) as Hok.
  assert (∀ id, ∀ e, e ∈ entries (remove (c_queue (sys_state s)) id).2 → entry_id e ≠ id) as Hrm.
  { intros id e0 He0. destruct (remove_queued (sys_state s) id Hok) as [_ Hrow].
    apply (Hrow (entry_id e0)). apply list_elem_of_fmap. eauto. }
  destruct Hstep; simpl in *; subst; try (by eapply window_same; [| |exact Hw]).
  - unfold restore_queued in *. case_decide as Hno; [by simplify_eq|].
    destruct (check_queue_capacity limits st key) as [[]|] eqn:Hc; [|by simplify_eq]. res_inv.
    eapply window_push; try done. tauto.
  - pose proof (remove_submseteq st id) as Hsub. specialize (Hrm id). unfold forget.
    destruct (remove (c_queue st) id) as [[r|] q]; simpl in *; eapply (window_removed st q id); eauto.
  - unfold acquire_register in *. case_decide; [done|]. res_inv.
    eapply (window_same a); [done..|]. case_decide; [by simplify_eq|]. res_inv.
    eapply window_push; try done. by destruct a0.
  - match goal with Hp : poll_acquire _ _ _ _ _ = _ |- _ => rename Hp into Hpoll end.
    apply poll_same in Hpoll as (e & q & Hid & Hp & _ & _ & ->); [|done].
    apply (window_mono st); [|by intros ?|exact Hw]. simpl. rewrite Hp. by apply submseteq_cons.
  - apply (window_mono st); [done| |exact Hw]. simpl. intros e _. unfold fresh. simpl.
    by intros [? _]%lookup_insert_None.
  - by eapply window_resume.
  - match goal with Hp : poll_resume _ _ _ _ _ = _ |- _ => unfold poll_resume in Hp end.
    destruct (poll_acquire limits st (k_id key) pop_ms pop_ms) as [st1|] eqn:Hpoll; [|done].
    simplify_option_eq.
    apply poll_same in Hpoll as (e & q & Hid & Hp & _ & _ & ->); [|done]. simpl.
    apply (window_removed st q (k_id key)); [done| | |by right|done].
    + rewrite Hp. by apply submseteq_cons.
    + intros e' He'. rewrite <- Hid. apply (take_queued st e q (entry_id e') Hok Hp).
      apply list_elem_of_fmap. eauto.
  - apply (window_removed st _ (k_id key)); [done|apply remove_submseteq|apply Hrm|by right|done].
Qed.

Lemma reachable_window s : reachable limits orderly s → within_window (sys_state s).
Proof.
  induction 1 as [|e s s' Hr IH Ho Hs]; [unfold within_window; simpl; lia|].
  eapply window_step; try done. by eapply reachable_exclusive.
Qed.
End window.

Lemma normalized_reserved l :
  (al_dialogue_delivery_slots (normalized l) <= al_total_slots (normalized l))%N.
Proof. unfold normalized. simpl. lia. Qed.

(** ** Samples *)

(** A runtime with one slot; [late_key] is background work about to be promoted to the most urgent
    class, [control_key] is interactive control that arrived last. *)
Definition sample_limits : ActivationAdmissionLimits := normalized (mkLimits 1 0 8 0 30000).
Definition control_key : AdmissionKey :=
  mkKey s! "control" s! "agent-1" s! "context" s! "session" InteractiveControl 119000.
Definition late_key : AdmissionKey :=
  mkKey s! "late" s! "agent-2" s! "context" s! "session" Maintenance 0.

Definition or_else {E} (r : result E ControllerState) (st : ControllerState) : ControllerState :=
  match r with Ok st' => st' | Err _ => st end.
Definition sample_state0 : ControllerState := sys_state (initial sample_limits).
Definition sample_state1 : ControllerState :=
  or_else (acquire_register sample_limits sample_state0 control_key) sample_state0.
Definition sample_state2 : ControllerState :=
  or_else (acquire_register sample_limits sample_state1 late_key) sample_state1.

(** The events with a clock that advances at most a millisecond inside a critical section. *)
Definition ticking (e : event) (s : System) : Prop :=
  match e with
  | EvAcquired _ peek_ms pop_ms | EvResumed _ peek_ms pop_ms => (peek_ms <= pop_ms <= peek_ms + 1)%Z
  | EvForget _ => False
  | _ => True
  end.

Lemma sample_reachable allowed :
  (∀ k s, allowed (EvAcquire k) s) →
  reachable sample_limits allowed (mkSystem sample_state2 [Acquiring late_key; Acquiring control_key]).
Proof.
  intros Hall. eapply reach_step; [|apply (Hall late_key)|].
  - eapply reach_step; [apply reach_initial|apply (Hall control_key)|].
    apply step_acquire. change (mkState _ _ _ _) with sample_state0. reflexivity.
  - apply step_acquire. vm_compute. reflexivity.
Qed.

(** The grant of [control_key] with the peek one millisecond before the promotion of
    [late_key] and the pop at it. *)
Definition misgranted_state : ControllerState :=
  default sample_state2 (poll_acquire sample_limits sample_state2 (k_id control_key) 119999 120000).

(** ** Main theorems *)

(** C12. The slots are never oversubscribed: in every interleaving of the controller's
    critical sections, whatever the clock reads and whatever is forgotten or cancelled, the
    work in flight fits the slots, and the general work in flight leaves the reserved ones. *)
Theorem capacity_never_exceeded l s :
  let limits := normalized l in
  reachable limits (λ _ _, True) s →
  (N.of_nat (size (c_in_flight (sys_state s))) <= al_total_slots limits)%N ∧
  (N.of_nat (size (general_in_flight (c_in_flight (sys_state s))))
   <= al_total_slots limits - al_dialogue_delivery_slots limits)%N.
Proof.
  intros limits Hr. pose proof (normalized_reserved l) as Hl. fold limits in Hl. clearbody limits.
  apply reachable_capacity in Hr as [H1 H2]; [|done]. lia.
Qed.

Lemma capacity_never_exceeded_witness :
  (N.of_nat (size (c_in_flight sample_state2)) <= 1)%N ∧
  (N.of_nat (size (general_in_flight (c_in_flight sample_state2))) <= 1 - 0)%N.
Proof.
  apply (capacity_never_exceeded (mkLimits 1 0 8 0 30000)
           (mkSystem sample_state2 [Acquiring late_key; Acquiring control_key])).
  apply sample_reachable. done.
Defined.

(** C13. Dialogue and delivery are never blocked by other work: in every reachable state in
    which such a task waits with its row queued and the reserved slots are not all used by
    dialogue and delivery, some waiting task is granted at the next check. *)
Theorem reserved_lane_never_blocked l s now_ms e :
  let limits := normalized l in
  reachable limits (λ _ _, True) s →
  e ∈ entries (c_queue (sys_state s)) → k_id (e_key e) ∈ c_waiters (sys_state s) →
  uses_reserved_lane (k_class (e_key e)) = true →
  (N.of_nat (size (reserved_rows (c_in_flight (sys_state s)))) < al_dialogue_delivery_slots limits)%N →
  ∃ id st', id ∈ c_waiters (sys_state s) ∧ queued (sys_state s) id ∧
            poll_acquire limits (sys_state s) id now_ms now_ms = Some st'.
Proof.
  intros limits Hr He Hw Hclass Hfree. pose proof (normalized_reserved l) as Hl. fold limits in Hl.
  clearbody limits. apply reachable_capacity in Hr as [_ H2]; [|done].
  apply (waiter_served _ _ _ e He), selectable_true. split; [done|].
  pose proof (usage_split (c_in_flight (sys_state s))) as Hsplit.
  apply reserved_lane_spec; [simpl; lia|]. rewrite Hclass. simpl. lia.
Qed.

Definition dialogue_limits : ActivationAdmissionLimits := normalized (mkLimits 2 1 8 1 30000).
Definition dialogue_state : ControllerState :=
  or_else (acquire_register dialogue_limits (sys_state (initial dialogue_limits)) control_key)
    (sys_state (initial dialogue_limits)).

Lemma reserved_lane_never_blocked_witness :
  ∃ id st', id ∈ c_waiters dialogue_state ∧ queued dialogue_state id ∧
            poll_acquire dialogue_limits dialogue_state id 120000 120000 = Some st'.
Proof.
  apply (reserved_lane_never_blocked (mkLimits 2 1 8 1 30000) (mkSystem dialogue_state [Acquiring control_key])
           120000 (mkEntry control_key tt)).
  - eapply reach_step; [apply reach_initial|exact I|]. apply (step_acquire _ control_key). vm_compute. reflexivity.
  - apply list_elem_of_In. vm_compute. auto.
  - apply (bool_decide_unpack _). vm_compute. exact I.
  - reflexivity.
  - vm_compute. reflexivity.
Defined.

(** C11. Exclusive ownership: when each critical section reads the clock once and only
    activations without a live handle are forgotten, every activation has at most one live
    future, permit or suspended admission; the in-flight rows are exactly the permits, the
    suspended rows exactly the parked admissions, the waiters exactly the waiting futures,
    each with its row queued; and no queued activation is in flight. *)
Theorem one_owner_per_activation limits s :
  reachable limits orderly s →
  let st := sys_state s in
  NoDup (map hid (handles s)) ∧
  (∀ id, is_Some (c_in_flight st !! id) ↔ owns is_permit (handles s) id) ∧
  (∀ id, is_Some (c_suspended st !! id) ↔ owns is_parked (handles s) id) ∧
  (∀ id, id ∈ c_waiters st ↔ owns is_waiting (handles s) id) ∧
  (∀ id, id ∈ c_waiters st → queued st id) ∧ (∀ id, queued st id → c_in_flight st !! id = None).
Proof. intros [? ? ? ? ? ? ?]%reachable_exclusive. by split_and!. Qed.

Lemma one_owner_per_activation_witness : NoDup (map hid [Acquiring late_key; Acquiring control_key]).
Proof.
  apply (one_owner_per_activation sample_limits (mkSystem sample_state2 [Acquiring late_key; Acquiring control_key])).
  apply sample_reachable. done.
Defined.

(** The scheduling window is bounded: under the same conditions the queued rows, apart
    from those of suspended activations that resume, fit the window, and those outside
    the reserved lane fit the part of it that is not reserved. *)
Theorem window_bounded limits s :
  reachable limits orderly s →
  let rows := entries (c_queue (sys_state s)) in
  (N.of_nat (length (filter (fresh (sys_state s)) rows)) <= al_max_queued limits)%N ∧
  (N.of_nat (length (filter (fresh_general (sys_state s)) rows)) <= general_queue_limit limits)%N.
Proof. apply reachable_window. Qed.

Lemma window_bounded_witness :
  (N.of_nat (length (filter (fresh sample_state2) (entries (c_queue sample_state2)))) <= 8)%N ∧
  (N.of_nat (length (filter (fresh_general sample_state2) (entries (c_queue sample_state2)))) <= 8)%N.
Proof.
  apply (window_bounded sample_limits (mkSystem sample_state2 [Acquiring late_key; Acquiring control_key])).
  apply sample_reachable. done.
Defined.

(** The two clock readings of one grant break that ownership: with a clock that advances
    one millisecond between the peek and the pop, past a promotion of another row, a task
    is granted while the popped row is the other task's; the other task then waits
    with no row queued, and the granted task's own row stays queued while it runs. *)
Theorem two_clock_readings_misgrant :
  ∃ s, reachable sample_limits ticking s ∧
       Permit control_key ∈ handles s ∧ Acquiring late_key ∈ handles s ∧
       c_in_flight (sys_state s) !! k_id control_key = Some late_key ∧
       ¬ queued (sys_state s) (k_id late_key) ∧ queued (sys_state s) (k_id control_key).
Proof.
  exists (mkSystem misgranted_state [Permit control_key; Acquiring late_key]). split.
  - eapply reach_step; [apply (sample_reachable ticking); done| |].
    + instantiate (1 := EvAcquired control_key 119999 120000). simpl. lia.
    + apply step_acquired; [apply Permutation_swap|vm_compute; reflexivity].
  - assert (map (λ e, k_id (e_key e)) (entries (c_queue misgranted_state)) = [k_id control_key]) as Hq
      by (vm_compute; reflexivity).
    unfold queued. cbn [sys_state handles]. rewrite Hq.
    split_and!; [by left|right; by left|vm_compute; reflexivity| |by left].
    intros Hin%list_elem_of_singleton. discriminate.
Qed.
