(* ===== verification/Sexpr.v ===== *)
(** * S-expressions of the runtime

    The reader and printer of morphz/src/sexpr.rs, which stores and exchanges context nodes:
    a forgiving parser (missing closing parentheses and quotes are supplied, quote marks are
    skipped) with positions for its errors, the task-stack printer, and paths into a tree. *)

From stdpp Require Import base list strings.
From Stdlib Require Import Lia.
From S2P Require Import Prelude.

Local Open Scope N_scope.

(** ** Syntax *)

(** morphz/src/sexpr.rs:2-5 [SExpr]. *)
Inductive SExpr : Type :=
| Atom (s : str)
| List (items : list SExpr).

Section nested_ind.
Context (P : SExpr → Prop) (HA : ∀ s, P (Atom s)) (HL : ∀ items, Forall P items → P (List items)).

Fixpoint sexpr_nested_ind (e : SExpr) : P e :=
  match e with
  | Atom s => HA s
  | List items => HL items ((fix go l : Forall P l :=
      match l with
      | [] => Forall_nil_2 _
      | x :: r => Forall_cons_2 _ _ _ (sexpr_nested_ind x) (go r)
      end) items)
  end.
End nested_ind.

(** Lists around the deepest one. *)
Fixpoint sdepth (e : SExpr) : N :=
  match e with
  | Atom _ => 0
  | List items => 1 + fold_right N.max 0 (map sdepth items)
  end.

(** morphz/src/sexpr.rs:12 [MAX_SEXPR_NESTING_DEPTH]. *)
Definition MAX_SEXPR_NESTING_DEPTH : N := 128.

(** ** Printing *)

(** morphz/src/sexpr.rs:16-20 [Task]. *)
Inductive Task : Type :=
| TValue (e : SExpr)
| TSpace
| TCloseList.

(** [str::contains] and [str::replace] of one character. *)
Definition contains_char (s : str) (c : char) : bool := existsb (N.eqb c) s.
Definition replace_char (s : str) (c : char) (by_ : str) : str :=
  concat (map (λ x, if x =? c then by_ else [x]) s).

(** morphz/src/sexpr.rs:28-36 [SExpr::fmt, the condition that quotes an atom]. *)
Definition needs_quotes (s : str) : bool :=
  existsb is_whitespace s
  || contains_char s 40 || contains_char s 41 || contains_char s 39
  || contains_char s 10 || contains_char s 13 || contains_char s 9
  || contains_char s 34
  || match s with [] => true | _ => false end.

(** morphz/src/sexpr.rs:25-41 [SExpr::fmt, one atom]. *)
Definition fmt_atom (s : str) : str :=
  if needs_quotes s
  then 34 :: replace_char (replace_char s 92 [92; 92]) 34 [92; 34] ++ [34]
  else s.

(** morphz/src/sexpr.rs:46-51 [SExpr::fmt, the tasks of a list's items]. *)
Definition list_tasks (items : list SExpr) : list Task :=
  match items with
  | [] => []
  | x :: r => TValue x :: concat (map (λ y, [TSpace; TValue y]) r)
  end.

(** morphz/src/sexpr.rs:22-57 [SExpr::fmt, the loop over the task stack], listed from its
    top; [None] is fuel exhaustion. *)
Fixpoint fmt_loop (fuel : nat) (tasks : list Task) (f : str) : option str :=
  match fuel with
  | O => None
  | S n =>
      match tasks with
      | [] => Some f
      | TValue (Atom s) :: tasks' => fmt_loop n tasks' (f ++ fmt_atom s)
      | TValue (List items) :: tasks' =>
          fmt_loop n (list_tasks items ++ TCloseList :: tasks') (f ++ [40])
      | TSpace :: tasks' => fmt_loop n tasks' (f ++ [32])
      | TCloseList :: tasks' => fmt_loop n tasks' (f ++ [41])
      end
  end.

(** Iterations the loop needs for one expression. *)
Fixpoint fmt_steps (e : SExpr) : nat :=
  match e with
  | Atom _ => 1
  | List items => 2 + list_sum (map fmt_steps items) + pred (length items)
  end.

(** morphz/src/sexpr.rs:14-59 [SExpr::fmt]. *)
Definition to_string (e : SExpr) : str := default [] (fmt_loop (S (fmt_steps e)) [TValue e] []).

(** ** Paths *)

(** morphz/src/sexpr.rs:146-160 [find_sub_idx_in_list]. *)
Definition find_sub_idx_in_list (l : list SExpr) (key : str) : option nat :=
  let fix go (idx : nat) (l : list SExpr) : option nat :=
    match l with
    | [] => None
    | item :: r =>
        match item with
        | List (Atom k :: _) => if k =s key then Some idx else go (S idx) r
        | _ => go (S idx) r
        end
    end in
  match l with [] => None | _ :: r => go 1%nat r end.

(** morphz/src/sexpr.rs:63-87 [SExpr::get_path]. *)
Fixpoint get_path (e : SExpr) (path : list str) {struct path} : option SExpr :=
  match path with
  | [] => Some e
  | key :: rest =>
      match e with
      | List l =>
          idx ← find_sub_idx_in_list l key;
          sub_node ← l !! idx;
          match rest with
          | [] => match sub_node with List [_; value] => Some value | _ => Some sub_node end
          | _ => get_path sub_node rest
          end
      | Atom _ => None
      end
  end.

(** morphz/src/sexpr.rs:111-142 [SExpr::set_path]. *)
Fixpoint set_path (e : SExpr) (path : list str) (value : SExpr) {struct path} : result str SExpr :=
  match path with
  | [] => Err s! "path must not be empty"
  | key :: rest =>
      match e with
      | List [] => Err s! "cannot set_path on an empty List node"
      | List l =>
          match find_sub_idx_in_list l key with
          | Some idx =>
              match rest with
              | [] => Ok (List (<[idx := List [Atom key; value]]> l))
              | _ =>
                  sub ← set_path (default (Atom []) (l !! idx)) rest value;
                  Ok (List (<[idx := sub]> l))
              end
          | None =>
              new_node ← match rest with
                         | [] => Ok (List [Atom key; value])
                         | _ => set_path (List [Atom key]) rest value
                         end;
              Ok (List (l ++ [new_node]))
          end
      | Atom _ => Err s! "set_path is supported only on List nodes"
      end
  end.

(** morphz/src/sexpr.rs:90-108 [SExpr::get_path_mut]: the borrowed node, with the tree a
    write through the borrow leaves. *)
Fixpoint get_path_mut (e : SExpr) (path : list str) {struct path}
    : option (SExpr * (SExpr → SExpr)) :=
  match path with
  | [] => Some (e, λ e', e')
  | key :: rest =>
      match e with
      | List l =>
          idx ← find_sub_idx_in_list l key;
          sub_node ← l !! idx;
          match rest with
          | [] => Some (sub_node, λ e', List (<[idx := e']> l))
          | _ =>
              '(node, write) ← get_path_mut sub_node rest;
              Some (node, λ e', List (<[idx := write e']> l))
          end
      | Atom _ => None
      end
  end.

(** ** Reading *)

(** morphz/src/sexpr.rs:164-169 [ParserError]. *)
Record ParserError : Type := mkParserError {
  pe_line : N; pe_column : N; pe_message : str; pe_context : str
}.

(** morphz/src/sexpr.rs:184-190 [Parser]: the characters already read, latest first, and
    those ahead, in place of the input with an offset. *)
Record Parser : Type := mkParser { seen : str; rest : str; p_line : N; p_column : N }.

(** morphz/src/sexpr.rs:193-203 [Parser::new]. *)
Definition parser_new (input : str) : Parser := mkParser [] input 1 1.

(** morphz/src/sexpr.rs:205-215 [Parser::advance]. *)
Definition advance (p : Parser) : Parser :=
  match rest p with
  | [] => p
  | c :: r =>
      if c =? 10 then mkParser (c :: seen p) r (p_line p + 1) 1
      else mkParser (c :: seen p) r (p_line p) (p_column p + 1)
  end.

(** morphz/src/sexpr.rs:217-219 [Parser::peek_char]. *)
Definition peek_char (p : Parser) : option char := head (rest p).

(** morphz/src/sexpr.rs:225-249 [Parser::get_context]: up to fifteen characters on each
    side of the position. *)
Definition get_context (p : Parser) : str :=
  (if 15 <? len (seen p) then s! "..." else [])
  ++ rev (take 15 (seen p)) ++ take 15 (rest p)
  ++ (if 15 <? len (rest p) then s! "..." else []).

(** morphz/src/sexpr.rs:251-259 [Parser::make_error]. *)
Definition make_error (p : Parser) (message : string) : ParserError :=
  mkParserError (p_line p) (p_column p) (lit message) (get_context p).

(** Advances past the leading characters that satisfy a test. *)
Fixpoint advance_while (test : char → bool) (r : str) (p : Parser) : Parser :=
  match r with
  | c :: r' => if test c then advance_while test r' (advance p) else p
  | [] => p
  end.

(** morphz/src/sexpr.rs:261-269 [Parser::skip_whitespace]. *)
Definition skip_whitespace (p : Parser) : Parser := advance_while is_whitespace (rest p) p.

(** morphz/src/sexpr.rs:348-357 [Parser::parse_value, the end of an atom]. *)
Definition is_atom_char (c : char) : bool :=
  negb (is_whitespace c || (c =? 40) || (c =? 41) || (c =? 34) || (c =? 39)).

(** morphz/src/sexpr.rs:345-364 [Parser::parse_value, a bare atom]. *)
Definition parse_atom (p : Parser) : result ParserError (SExpr * Parser) :=
  let p' := advance_while is_atom_char (rest p) p in
  match take (length (rest p) - length (rest p')) (rest p) with
  | [] => Err (make_error p' "Empty atom")
  | s => Ok (Atom s, p')
  end.

(** morphz/src/sexpr.rs:323-334 [Parser::parse_value, an escape]. *)
Definition unescape (c : char) : str :=
  if c =? 110 then [10] else if c =? 116 then [9] else if c =? 114 then [13]
  else if c =? 92 then [92] else if c =? 34 then [34] else [92; c].

(** morphz/src/sexpr.rs:312-344 [Parser::parse_value, the characters of a quoted string]; the
    end of the input closes it. *)
Fixpoint parse_string (r : str) (s : str) (p : Parser) : SExpr * Parser :=
  match r with
  | [] => (Atom s, p)
  | c :: r' =>
      if c =? 34 then (Atom s, advance p)
      else if c =? 92 then
        let p1 := advance p in
        match r' with
        | escaped :: r'' => parse_string r'' (s ++ unescape escaped) (advance p1)
        | [] => (Atom (s ++ [92]), p1)
        end
      else parse_string r' (s ++ [c]) (advance p)
  end.

(** morphz/src/sexpr.rs:271-365 [Parser::parse_value]: [parse_value] reads up to the first
    character, [parse_from] goes on from it, [parse_items] is the loop over the items of a
    list.  [None] is fuel exhaustion. *)
Fixpoint parse_value (fuel : nat) (parent_depth : N) (p : Parser)
    : option (result ParserError (SExpr * Parser)) :=
  match fuel with
  | O => None
  | S n =>
      let p1 := skip_whitespace p in
      match peek_char p1 with
      | None => Some (Err (make_error p1 "Unexpected EOF"))
      | Some c => parse_from n parent_depth c p1
      end
  end
with parse_from (fuel : nat) (parent_depth : N) (c : char) (p : Parser)
    : option (result ParserError (SExpr * Parser)) :=
  match fuel with
  | O => None
  | S n =>
      if c =? 39 then
        let p1 := skip_whitespace (advance p) in
        match peek_char p1 with
        | None => Some (Err (make_error p1 "Unexpected EOF after quote"))
        | Some next => parse_from n parent_depth next p1
        end
      else if c =? 40 then
        if MAX_SEXPR_NESTING_DEPTH <=? parent_depth then
          Some (Err (make_error p "S-expression nesting exceeds the safe limit of 128"))
        else parse_items n parent_depth [] (advance p)
      else if c =? 34 then
        let p1 := advance p in Some (Ok (parse_string (rest p1) [] p1))
      else Some (parse_atom p)
  end
with parse_items (fuel : nat) (parent_depth : N) (acc : list SExpr) (p : Parser)
    : option (result ParserError (SExpr * Parser)) :=
  match fuel with
  | O => None
  | S n =>
      let p1 := skip_whitespace p in
      match peek_char p1 with
      | None => Some (Ok (List acc, p1))
      | Some next_c =>
          if next_c =? 41 then Some (Ok (List acc, advance p1))
          else
            match parse_value n (parent_depth + 1) p1 with
            | None => None
            | Some (Err e) => Some (Err e)
            | Some (Ok (child, p2)) => parse_items n parent_depth (acc ++ [child]) p2
            end
      end
  end.

(** Enough fuel for an input. *)
Definition parse_fuel (p : Parser) : nat := 3 * length (rest p) + 3.

(** morphz/src/sexpr.rs:371-379 [parse_all, the loop over the top-level forms]. *)
Fixpoint parse_forms (fuel : nat) (forms : list SExpr) (p : Parser)
    : option (result ParserError (list SExpr * Parser)) :=
  match fuel with
  | O => None
  | S n =>
      let p1 := skip_whitespace p in
      match peek_char p1 with
      | None => Some (Ok (forms, p1))
      | Some _ =>
          match parse_value (parse_fuel p1) 0 p1 with
          | None => None
          | Some (Err e) => Some (Err e)
          | Some (Ok (form, p2)) => parse_forms n (forms ++ [form]) p2
          end
      end
  end.

(** The value of a computation whose fuel suffices; the other case does not occur
    ([parse_total]). *)
Definition run {A} (p : Parser) (o : option (result ParserError A)) : result ParserError A :=
  default (Err (make_error p "out of fuel")) o.

(** morphz/src/sexpr.rs:370-384 [parse_all]. *)
Definition parse_all (input : str) : result ParserError (list SExpr) :=
  let p := parser_new input in
  '(forms, p') ← run p (parse_forms (S (length input)) [] p);
  match forms with
  | [] => Err (make_error p' "input is empty or contains only whitespace")
  | _ => Ok forms
  end.

(** morphz/src/sexpr.rs:387-394 [parse]. *)
Definition parse (input : str) : result ParserError SExpr :=
  let p := skip_whitespace (parser_new input) in
  match peek_char p with
  | None => Err (make_error p "input is empty or contains only whitespace")
  | Some _ => fst <$> run p (parse_value (parse_fuel p) 0 p)
  end.
