(* ===== verification/SexprFacts.v ===== *)
(** * Facts about s-expressions

    The printer is its recursive specification [print]; reading terminates on every input,
    keeps within the nesting limit, and reads back what was printed; [get_path] reads what
    [set_path] wrote. *)

From stdpp Require Import base list strings.
From Stdlib Require Import Lia.
From S2P Require Import Prelude Sexpr.

Local Open Scope N_scope.

Arguments skip_whitespace : simpl never.
Arguments advance : simpl never.
Arguments parse_atom : simpl never.

(** ** The printer *)

Fixpoint print (e : SExpr) : str :=
  match e with
  | Atom s => fmt_atom s
  | List [] => [40; 41]
  | List (x :: r) => 40 :: print x ++ concat (map (λ y, 32 :: print y) r) ++ [41]
  end.

Definition loop_prints (e : SExpr) : Prop := ∀ n tasks f,
  fmt_loop (fmt_steps e + n) (TValue e :: tasks) f = fmt_loop n tasks (f ++ print e).

Lemma fmt_loop_items r n tasks f :
  Forall loop_prints r →
  fmt_loop (list_sum (map fmt_steps r) + length r + n)
    (concat (map (λ y, [TSpace; TValue y]) r) ++ tasks) f
  = fmt_loop n tasks (f ++ concat (map (λ y, 32 :: print y) r)).
Proof.
  intros Hr. revert f. induction Hr as [|y r Hy _ IH]; intros f; simpl; [by rewrite app_nil_r|].
  replace (fmt_steps y + list_sum (map fmt_steps r) + S (length r) + n)%nat
    with (S (fmt_steps y + (list_sum (map fmt_steps r) + length r + n)))%nat by lia.
  simpl. rewrite Hy, IH. f_equal. by rewrite <- !app_assoc.
Qed.

Lemma fmt_loop_prints e : loop_prints e.
Proof.
  induction e as [s|items IH] using sexpr_nested_ind; intros n tasks f; [done|].
  destruct IH as [|x r Hx Hr]; [simpl; by rewrite <- app_assoc|].
  replace (fmt_steps (List (x :: r)) + n)%nat
    with (S (fmt_steps x + (list_sum (map fmt_steps r) + length r + S n)))%nat by (simpl; lia).
  change (fmt_loop (S ?m) (TValue (List (x :: r)) :: tasks) f)
    with (fmt_loop m (TValue x :: concat (map (λ y, [TSpace; TValue y]) r) ++ TCloseList :: tasks) (f ++ [40])).
  rewrite Hx, fmt_loop_items by done. simpl. f_equal. by rewrite <- !app_assoc.
Qed.

Lemma to_string_print e : to_string e = print e.
Proof.
  unfold to_string. replace (S (fmt_steps e)) with (fmt_steps e + 1)%nat by lia.
  by rewrite fmt_loop_prints.
Qed.

(** ** Reading consumes its input *)

Lemma rest_advance p c r : rest p = c :: r → rest (advance p) = r.
Proof. unfold advance. intros ->. by destruct (c =? 10). Qed.

Lemma advance_while_split test p :
  ∃ w, rest p = w ++ rest (advance_while test (rest p) p) ∧ Forall (λ c, test c = true) w ∧
       match rest (advance_while test (rest p) p) with [] => True | c :: _ => test c = false end.
Proof.
  remember (rest p) as r eqn:Hr. revert p Hr. induction r as [|c r IH]; intros p Hr; simpl.
  { exists []. by rewrite <- Hr. }
  destruct (test c) eqn:Ht.
  - destruct (IH (advance p)) as (w & H1 & H2 & H3); [by erewrite rest_advance|].
    exists (c :: w). split_and!; [simpl; congruence|by constructor|done].
  - exists []. rewrite <- Hr. by split_and!.
Qed.

Lemma advance_while_exact test w r p :
  rest p = w ++ r → Forall (λ c, test c = true) w →
  match r with [] => True | c :: _ => test c = false end →
  rest (advance_while test (rest p) p) = r.
Proof.
  intros Hp Hw Hr. rewrite Hp. revert p Hp. induction Hw as [|c w Hc _ IH]; intros p Hp; simpl.
  - destruct r as [|c r]; simpl; [done|]. by rewrite Hr.
  - rewrite Hc. apply IH. by erewrite rest_advance.
Qed.

Lemma skip_whitespace_split p :
  ∃ w, rest p = w ++ rest (skip_whitespace p) ∧
       match rest (skip_whitespace p) with [] => True | c :: _ => is_whitespace c = false end.
Proof. destruct (advance_while_split is_whitespace p) as (w & ? & _ & ?). by exists w. Qed.

Lemma skip_whitespace_le p : (length (rest (skip_whitespace p)) <= length (rest p))%nat.
Proof. destruct (skip_whitespace_split p) as (w & H & _). rewrite H, length_app. lia. Qed.

Lemma peek_char_Some p c : peek_char p = Some c → ∃ r, rest p = c :: r.
Proof. unfold peek_char. destruct (rest p); [done|]. intros [= ->]. by eexists. Qed.

Lemma length_advance p c : peek_char p = Some c → S (length (rest (advance p))) = length (rest p).
Proof. intros (r & Hr)%peek_char_Some. by rewrite (rest_advance _ _ _ Hr), Hr. Qed.

Lemma parse_string_rest r s p :
  rest p = r → (length (rest (parse_string r s p).2) <= length r)%nat ∧
               sdepth (parse_string r s p).1 = 0.
Proof.
  revert s p. induction r as [r IH] using list_length_ind; intros s p Hp.
  destruct r as [|c r]; simpl; [by rewrite Hp|]. pose proof (rest_advance _ _ _ Hp) as Ha.
  destruct (c =? 34); [simpl; rewrite Ha; lia|]. destruct (c =? 92).
  - destruct r as [|x r]; [simpl; rewrite Ha; simpl; lia|].
    destruct (IH r (ltac:(simpl; lia)) (s ++ unescape x) (advance (advance p))); [|simpl; lia].
    by eapply rest_advance.
  - destruct (IH r (ltac:(simpl; lia)) (s ++ [c]) (advance p) Ha). simpl. lia.
Qed.

Lemma parse_atom_rest p e p' :
  parse_atom p = Ok (e, p') → (length (rest p') < length (rest p))%nat ∧ sdepth e = 0.
Proof.
  unfold parse_atom. destruct (advance_while_split is_atom_char p) as (w & H & _).
  set (p1 := advance_while _ _ _) in *.
  replace (length (rest p) - length (rest p1))%nat with (length w) by (rewrite H, length_app; lia).
  replace (take (length w) (rest p)) with w by (by rewrite H, take_app_length).
  destruct w as [|c w]; [done|]. intros [= <- <-]. rewrite H. simpl. rewrite length_app. split; [lia|done].
Qed.

Definition reads_within (limit : N) (bound : nat) (r : result ParserError (SExpr * Parser)) : Prop :=
  match r with
  | Ok (e, p') => (length (rest p') <= bound)%nat ∧ sdepth e <= limit
  | Err _ => True
  end.

Lemma sdepth_list_le items d : sdepth (List items) <= 1 + d ↔ Forall (λ e, sdepth e <= d) items.
Proof.
  simpl. split.
  - induction items as [|e items IH]; intros H; constructor; simpl in *; [lia|apply IH; lia].
  - induction 1; simpl in *; lia.
Qed.

(** With enough fuel every part of the reader returns, has consumed what it says, and its
    value is nested no deeper than the limit. *)
Lemma parse_returns n :
  (∀ d p, d <= 128 → (3 * length (rest p) + 1 <= n)%nat →
     ∃ r, parse_value n d p = Some r ∧ reads_within (128 - d) (pred (length (rest p))) r) ∧
  (∀ d c p, d <= 128 → peek_char p = Some c → (3 * length (rest p) <= n)%nat →
     ∃ r, parse_from n d c p = Some r ∧ reads_within (128 - d) (pred (length (rest p))) r) ∧
  (∀ d acc p, d < 128 → (3 * length (rest p) + 2 <= n)%nat → Forall (λ e, sdepth e <= 128 - (d + 1)) acc →
     ∃ r, parse_items n d acc p = Some r ∧ reads_within (128 - d) (length (rest p)) r).
Proof.
  induction n as [|n (IHv & IHf & IHi)]; split_and!; intros.
  - lia.
  - apply peek_char_Some in H0 as [r Hr]. rewrite Hr in H1. simpl in H1. lia.
  - lia.
  - simpl. pose proof (skip_whitespace_le p) as Hle.
    destruct (peek_char (skip_whitespace p)) as [c|] eqn:Hc; [|by eexists].
    destruct (IHf d c (skip_whitespace p)) as (r & -> & Hr); [done..|lia|].
    exists r. split; [done|]. destruct r as [[e p']|]; [|done]. destruct Hr. split; [lia|done].
  - simpl. pose proof (length_advance _ _ H0) as Hlen.
    destruct (c =? 39).
    { pose proof (skip_whitespace_le (advance p)) as Hle.
      destruct (peek_char (skip_whitespace (advance p))) as [c'|] eqn:Hc; [|by eexists].
      destruct (IHf d c' (skip_whitespace (advance p))) as (r & -> & Hr); [done..|lia|].
      exists r. split; [done|]. destruct r as [[e p']|]; [|done]. destruct Hr. split; [lia|done]. }
    destruct (c =? 40).
    { destruct (N.leb_spec MAX_SEXPR_NESTING_DEPTH d) as [|Hd]; [by eexists|].
      unfold MAX_SEXPR_NESTING_DEPTH in Hd.
      destruct (IHi d [] (advance p)) as (r & -> & Hr); [done|lia|constructor|].
      exists r. split; [done|]. destruct r as [[e p']|]; [|done]. destruct Hr. split; [lia|done]. }
    destruct (c =? 34).
    { pose proof (parse_string_rest _ [] (advance p) eq_refl) as [H2 H3]. revert H2 H3. destruct (parse_string _ _ _) as [e p']. simpl. intros H2 H3.
      eexists. split; [done|]. simpl. split; [lia|]. rewrite H3. lia. }
    eexists. split; [done|]. destruct (parse_atom p) as [[e p']|] eqn:Ha; [|done].
    apply parse_atom_rest in Ha as [H2 H3]. simpl. split; [lia|]. rewrite H3. lia.
  - simpl. pose proof (skip_whitespace_le p) as Hle.
    assert (sdepth (List acc) <= 128 - d) as Hacc.
    { replace (128 - d) with (1 + (128 - (d + 1))) by lia. by apply sdepth_list_le. }
    destruct (peek_char (skip_whitespace p)) as [c|] eqn:Hc; [|eexists; split; [done|]; split; [lia|done]].
    pose proof (length_advance _ _ Hc) as Hlen.
    destruct (c =? 41); [eexists; split; [done|]; split; [lia|done]|].
    destruct (IHv (d + 1) (skip_whitespace p)) as (r & -> & Hr); [lia|lia|].
    destruct r as [[e p2]|]; [|by eexists]. destruct Hr as [Hr1 Hr2].
    destruct (IHi d (acc ++ [e]) p2) as (r & -> & Hr); [done|lia|by apply Forall_app_2; [|constructor]|].
    exists r. split; [done|]. destruct r as [[e' p']|]; [|done]. destruct Hr. split; [lia|done].
Qed.

(** The fuel the parsers give themselves suffices. *)
Lemma parse_forms_returns n forms p :
  (length (rest p) < n)%nat → Forall (λ e, sdepth e <= 128) forms →
  ∃ r, parse_forms n forms p = Some r ∧
       match r with Ok (l, _) => Forall (λ e, sdepth e <= 128) l | Err _ => True end.
Proof.
  revert forms p. induction n as [|n IH]; intros forms p Hn Hf; [lia|]. simpl.
  pose proof (skip_whitespace_le p) as Hle.
  destruct (peek_char (skip_whitespace p)) as [c|] eqn:Hc; [|by eexists].
  destruct (parse_returns (parse_fuel (skip_whitespace p))) as (Hv & _ & _).
  destruct (Hv 0 (skip_whitespace p)) as (r & -> & Hr); [lia|unfold parse_fuel; lia|].
  destruct r as [[e p2]|]; [|by eexists]. destruct Hr as [Hr1 Hr2].
  pose proof (length_advance _ _ Hc). apply IH; [lia|]. apply Forall_app_2; [done|by constructor].
Qed.

Lemma sexpr_forms_nested input forms :
  parse_all input = Ok forms → Forall (λ e, sdepth e <= 128) forms.
Proof.
  unfold parse_all, run.
  destruct (parse_forms_returns (S (length input)) [] (parser_new input)) as (r & -> & Hr); [simpl; lia|done|].
  destruct r as [[l p']|]; [|done]. simpl. destruct l; [done|]. by intros [= <-].
Qed.

(** ** Reading back what was printed *)

Definition boundary (r : str) : Prop :=
  match r with [] => True | c :: _ => is_atom_char c = false end.

Lemma skip_whitespace_exact w r p :
  rest p = w ++ r → Forall (λ c, is_whitespace c = true) w →
  match r with [] => True | c :: _ => is_whitespace c = false end → rest (skip_whitespace p) = r.
Proof. apply advance_while_exact. Qed.

Lemma needs_quotes_false s :
  needs_quotes s = false → s ≠ [] ∧ Forall (λ c, is_atom_char c = true) s.
Proof.
  unfold needs_quotes. rewrite !orb_false_iff.
  intros ((((((((Hw & H1) & H2) & H3) & _) & _) & _) & H4) & Hne). split; [by destruct s|].
  apply Forall_forall. intros c Hc. unfold is_atom_char.
  assert (∀ x, contains_char s x = false → (c =? x) = false) as Hx.
  { intros x Hx. destruct (N.eqb_spec c x) as [->|]; [|done]. rewrite <- Hx. symmetry.
    apply existsb_exists. exists x. split; [by apply list_elem_of_In|apply N.eqb_refl]. }
  assert (is_whitespace c = false) as ->.
  { destruct (is_whitespace c) eqn:Hc'; [|done]. rewrite <- Hw. symmetry.
    apply existsb_exists. exists c. split; [by apply list_elem_of_In|done]. }
  by rewrite !Hx.
Qed.

Definition escape (c : char) : str := if c =? 92 then [92; 92] else if c =? 34 then [92; 34] else [c].

Lemma replace_escape s :
  replace_char (replace_char s 92 [92; 92]) 34 [92; 34] = concat (map escape s).
Proof.
  unfold replace_char. induction s as [|c s IH]; [done|]. simpl. rewrite map_app, concat_app, IH. f_equal.
  unfold escape. destruct (N.eqb_spec c 92) as [->|]; [done|]. simpl. by destruct (c =? 34).
Qed.

Lemma parse_string_escaped s acc p r :
  rest p = concat (map escape s) ++ 34 :: r →
  ∃ p', parse_string (rest p) acc p = (Atom (acc ++ s), p') ∧ rest p' = r.
Proof.
  revert acc p. induction s as [|c s IH]; intros acc p Hp; rewrite Hp; simpl.
  { exists (advance p). rewrite app_nil_r. split; [done|]. simpl in Hp. by eapply rest_advance. }
  pose proof (rest_advance p) as Ha. rewrite Hp in Ha. simpl in Ha.
  unfold escape in *. destruct (N.eqb_spec c 92) as [->|H92]; [|destruct (N.eqb_spec c 34) as [->|H34]]; simpl in *.
  - specialize (Ha _ _ eq_refl). apply rest_advance in Ha as Ha2.
    destruct (IH (acc ++ [92]) _ Ha2) as (p' & H1 & H2). exists p'. split; [|done].
    rewrite Ha2 in H1. change (unescape 92) with [92]. rewrite H1. by rewrite <- app_assoc.
  - specialize (Ha _ _ eq_refl). apply rest_advance in Ha as Ha2.
    destruct (IH (acc ++ [34]) _ Ha2) as (p' & H1 & H2). exists p'. split; [|done].
    rewrite Ha2 in H1. change (unescape 34) with [34]. rewrite H1. by rewrite <- app_assoc.
  - specialize (Ha _ _ eq_refl). apply N.eqb_neq in H92, H34. rewrite H92, H34.
    destruct (IH (acc ++ [c]) _ Ha) as (p' & H1 & H2). exists p'. split; [|done].
    rewrite Ha in H1. rewrite H1. by rewrite <- app_assoc.
Qed.

(** The first character of a printed expression starts a value. *)
Lemma print_head e :
  ∃ c w, print e = c :: w ∧ is_whitespace c = false ∧ (c =? 39) = false ∧ (c =? 41) = false.
Proof.
  destruct e as [s|[|x r]]; simpl; [|eexists _, _; split; [reflexivity|done]..].
  unfold fmt_atom. destruct (needs_quotes s) eqn:Hq; [eexists _, _; split; [reflexivity|done]|].
  apply needs_quotes_false in Hq as [Hne Hs]. destruct Hs as [|c s Hc Hs]; [done|].
  unfold is_atom_char in Hc. rewrite negb_true_iff, !orb_false_iff in Hc. naive_solver.
Qed.

Definition read_back (e : SExpr) : Prop := ∀ n d p r,
  d + sdepth e <= 128 → rest p = print e ++ r → boundary r → (3 * length (rest p) + 1 <= n)%nat →
  ∃ p', parse_value n d p = Some (Ok (e, p')) ∧ rest p' = r.

Lemma read_back_atom s : read_back (Atom s).
Proof.
  intros n d p r Hd Hp Hr Hn. destruct (print_head (Atom s)) as (c & w & Hcw & Hws & H39 & _).
  assert (rest (skip_whitespace p) = print (Atom s) ++ r) as Hskip.
  { apply (skip_whitespace_exact []); [done|constructor|]. rewrite Hcw. done. }
  assert (peek_char (skip_whitespace p) = Some c) as Hpk by (unfold peek_char; by rewrite Hskip, Hcw).
  rewrite Hp, Hcw in Hn. simpl in Hn. destruct n as [|[|n]]; [lia..|]. simpl. rewrite Hpk, H39.
  revert Hskip Hcw. generalize (skip_whitespace p). intros q Hq Hcw. simpl in Hq, Hcw.
  unfold fmt_atom in *. destruct (needs_quotes s) eqn:Hquote.
  - injection Hcw as <- <-. simpl. rewrite replace_escape in Hq. simpl in Hq. rewrite <- app_assoc in Hq.
    apply rest_advance in Hq. destruct (parse_string_escaped s [] _ _ Hq) as (p' & -> & ?). by exists p'.
  - apply needs_quotes_false in Hquote as [Hne Hs]. assert (is_atom_char c = true) as Hc.
    { rewrite Hcw in Hs. by inversion Hs. }
    unfold is_atom_char in Hc. rewrite negb_true_iff, !orb_false_iff in Hc.
    destruct Hc as ((((_ & H40) & _) & H34) & _). rewrite H40, H34.
    exists (advance_while is_atom_char (rest q) q). unfold parse_atom.
    rewrite (advance_while_exact _ s r q) by done. split; [|done].
    rewrite Hq, length_app. replace (length s + length r - length r)%nat with (length s) by lia.
    rewrite take_app_length. by destruct s.
Qed.

Lemma parse_items_read y n d acc p r :
  read_back y → d + 1 + sdepth y <= 128 → rest (skip_whitespace p) = print y ++ r → boundary r →
  (3 * length (rest (skip_whitespace p)) + 1 <= n)%nat →
  ∃ p', parse_items (S n) d acc p = parse_items n d (acc ++ [y]) p' ∧ rest p' = r.
Proof.
  intros Hy Hd Hp Hr Hn. destruct (Hy n (d + 1) (skip_whitespace p) r) as (p' & Hv & Hp'); [done..|].
  exists p'. split; [|done]. simpl.
  destruct (print_head y) as (c & w & Hcw & _ & _ & H41).
  assert (peek_char (skip_whitespace p) = Some c) as -> by (unfold peek_char; by rewrite Hp, Hcw).
  by rewrite H41, Hv.
Qed.

Lemma parse_items_all items n d acc p r :
  Forall read_back items → d + 1 + fold_right N.max 0 (map sdepth items) <= 128 →
  rest p = concat (map (λ y, 32 :: print y) items) ++ 41 :: r → (3 * length (rest p) + 1 <= n)%nat →
  ∃ p', parse_items n d acc p = Some (Ok (List (acc ++ items), p')) ∧ rest p' = r.
Proof.
  intros Hitems. revert n acc p. induction Hitems as [|y items Hy _ IH]; intros n acc p Hd Hp Hn.
  - destruct n as [|n]; [lia|]. simpl in *. assert (rest (skip_whitespace p) = 41 :: r) as Hs
      by (by apply (skip_whitespace_exact [])).
    exists (advance (skip_whitespace p)). unfold peek_char. rewrite Hs. simpl. rewrite app_nil_r.
    split; [done|]. by eapply rest_advance.
  - simpl in Hd, Hp. destruct n as [|n]; [rewrite Hp in Hn; simpl in Hn; lia|].
    rewrite <- app_assoc in Hp.
    assert (rest (skip_whitespace p) = print y ++ concat (map (λ y, 32 :: print y) items) ++ 41 :: r) as Hs.
    { apply (skip_whitespace_exact [32]); [done|by constructor|].
      destruct (print_head y) as (c & w & -> & Hws & _). done. }
    assert (length (rest p) = S (length (rest (skip_whitespace p)))) as Hlen by (rewrite Hp, Hs; done).
    destruct (parse_items_read y n d acc p (concat (map (λ y, 32 :: print y) items) ++ 41 :: r))
      as (p' & -> & Hp'); [done|lia|done|by destruct items|lia|].
    destruct (IH n (acc ++ [y]) p') as (p'' & -> & ?); [lia|done| |].
    { rewrite Hp'. rewrite Hs, length_app in Hlen. lia. }
    exists p''. by rewrite <- app_assoc.
Qed.

Lemma read_back_all e : read_back e.
Proof.
  induction e as [s|items IH] using sexpr_nested_ind; [apply read_back_atom|].
  intros n d p r Hd Hp Hr Hn.
  assert (∃ w, print (List items) = 40 :: w) as [w Hw] by (destruct items; by eexists).
  assert (rest (skip_whitespace p) = print (List items) ++ r) as Hskip.
  { apply (skip_whitespace_exact []); [done|constructor|]. by rewrite Hw. }
  assert (peek_char (skip_whitespace p) = Some 40) as Hpk by (unfold peek_char; by rewrite Hskip, Hw).
  rewrite Hp, Hw in Hn. simpl in Hn. destruct n as [|[|n]]; [lia..|]. simpl. rewrite Hpk.
  change (40 =? 39) with false. change (40 =? 40) with true. cbv iota.
  destruct (N.leb_spec MAX_SEXPR_NESTING_DEPTH d) as [Hle|_].
  { exfalso. unfold MAX_SEXPR_NESTING_DEPTH in Hle. simpl in Hd. lia. }
  assert (length (rest (skip_whitespace p)) = length (rest p)) as Hlen by (by rewrite Hskip, Hp).
  revert Hskip Hlen. generalize (skip_whitespace p). intros q Hq Hlen.
  rewrite Hp, Hw in Hlen. simpl in Hlen. destruct IH as [|x items Hx Hitems].
  - simpl in Hq. apply rest_advance in Hq. destruct (parse_items_all [] n d [] (advance q) r) as (p' & H1 & H2);
      [done|simpl in *; lia|done|rewrite Hq; simpl; simpl in Hw; injection Hw as <-; simpl in *; lia|].
    by exists p'.
  - simpl in Hq. apply rest_advance in Hq. rewrite <- !app_assoc in Hq. simpl in Hq, Hd.
    assert (rest (skip_whitespace (advance q)) = rest (advance q)) as Hs.
    { apply (skip_whitespace_exact []); [done|constructor|]. rewrite Hq.
      destruct (print_head x) as (c & w' & -> & ? & _). done. }
    assert (length (rest (advance q)) = length (w ++ r)) as Hl.
    { rewrite Hq. simpl in Hw. injection Hw as <-. by rewrite <- !app_assoc. }
    destruct n as [|n]; [lia|].
    destruct (parse_items_read x n d [] (advance q) (concat (map (λ y, 32 :: print y) items) ++ 41 :: r))
      as (p' & -> & Hp'); [done|lia|by rewrite Hs, Hq|by destruct items|rewrite Hs; lia|].
    change ([] ++ [x]) with [x]. destruct (parse_items_all items n d [x] p' r) as (p'' & -> & ?); [done|lia|done| |by exists p''].
    rewrite Hp'. rewrite Hq, length_app in Hl. destruct (print_head x) as (c & w' & Hxx & _).
    rewrite Hxx in Hl. simpl in Hl. lia.
Qed.

Lemma parse_print e : sdepth e <= 128 → parse (to_string e) = Ok e.
Proof.
  intros Hd. unfold parse, run. rewrite to_string_print.
  destruct (print_head e) as (c & w & Hcw & Hws & _).
  assert (rest (skip_whitespace (parser_new (print e))) = print e) as Hs.
  { apply (skip_whitespace_exact []); [done|constructor|by rewrite Hcw]. }
  unfold peek_char. rewrite Hs, Hcw. simpl.
  destruct (read_back_all e (parse_fuel (skip_whitespace (parser_new (print e)))) 0
              (skip_whitespace (parser_new (print e))) []) as (p' & Hv & _).
  - lia.
  - by rewrite app_nil_r.
  - done.
  - unfold parse_fuel. lia.
  - rewrite Hcw in Hv. by rewrite Hv.
Qed.

Lemma parse_all_print e : sdepth e <= 128 → parse_all (to_string e) = Ok [e].
Proof.
  intros Hd. unfold parse_all, run. rewrite to_string_print.
  destruct (print_head e) as (c & w & Hcw & Hws & _).
  assert (rest (skip_whitespace (parser_new (print e))) = print e) as Hs.
  { apply (skip_whitespace_exact []); [done|constructor|by rewrite Hcw]. }
  destruct (read_back_all e (parse_fuel (skip_whitespace (parser_new (print e)))) 0
              (skip_whitespace (parser_new (print e))) []) as (p' & Hv & Hp');
    [lia|by rewrite app_nil_r|done|unfold parse_fuel; lia|].
  assert (∃ m, length (print e) = S m) as [m ->] by (rewrite Hcw; by eexists).
  assert (peek_char (skip_whitespace (parser_new (print e))) = Some c) as Hpk
    by (unfold peek_char; by rewrite Hs, Hcw).
  assert (rest (skip_whitespace p') = []) as Hend by (by apply (skip_whitespace_exact [])).
  cbn [parse_forms]. rewrite Hpk, Hv. cbn [app]. unfold peek_char. by rewrite Hend.
Qed.
