(* ===== verification/ContextDb.v ===== *)
(** * The context database

    The authoritative store of context trees, morphz/src/context_db.rs.  The three SQL
    tables are finite maps on their primary keys and each SQL statement is the function it
    denotes; a call runs in one transaction, so that it either returns the next database or
    an error and the unchanged one.  Nodes commit to their subtrees by a hash
    (morphz/src/context_ast.rs). *)

From stdpp Require Import base list gmap sets sorting strings.
From Stdlib Require Import ZArith Lia.
From S2P Require Import Prelude Ordering JsonValue Types Diagnostic Text Sexpr.

Local Open Scope Z_scope.

(** ** Data *)

(** morphz/src/context_db.rs:107-113 [AuthorityDomain]. *)
Inductive AuthorityDomain : Type :=
| RuntimeInput
| AgentMind
| RuntimeControl
| AgentControl
| SystemPolicy.

#[export] Instance authority_domain_eq_dec : EqDecision AuthorityDomain.
Proof. solve_decision. Defined.

(** morphz/src/context_db.rs:116-124 [AuthorityDomain::as_str]. *)
Definition as_str (d : AuthorityDomain) : str :=
  match d with
  | RuntimeInput => s! "runtime_input"
  | AgentMind => s! "agent_mind"
  | RuntimeControl => s! "runtime_control"
  | AgentControl => s! "agent_control"
  | SystemPolicy => s! "system_policy"
  end.

(** morphz/src/context_db.rs:28-47 [ContextDbError]. *)
Inductive ContextDbError : Type :=
| Invalid (m : Message)
| NotFound (m : Message)
| AlreadyExists (m : Message)
| Conflict (context_id : str) (expected actual : Z)
| Precondition (m : Message)
| AuthorityDenied (actor_id : str) (domain : AuthorityDomain)
| IdempotencyReuse (key : str)
| Corrupt (m : Message)
| Storage (m : Message)
| Syntax (e : ParserError)
| Codec (m : Message).

Abbreviation ContextDbResult := (result ContextDbError).

Definition invalid {A} (template : string) (args : list MsgArg) : ContextDbResult A :=
  Err (Invalid (Msg template args)).
Definition corrupt {A} (template : string) (args : list MsgArg) : ContextDbResult A :=
  Err (Corrupt (Msg template args)).

(** morphz/src/context_db.rs:126-137 [AuthorityDomain::from_storage]. *)
Definition from_storage (value : str) : ContextDbResult AuthorityDomain :=
  if value =s s! "runtime_input" then Ok RuntimeInput
  else if value =s s! "agent_mind" then Ok AgentMind
  else if value =s s! "runtime_control" then Ok RuntimeControl
  else if value =s s! "agent_control" then Ok AgentControl
  else if value =s s! "system_policy" then Ok SystemPolicy
  else corrupt "unknown authority domain '{other}'" [AStr value].

(** morphz/src/context_db.rs:147-150 [ContextAuthority]. *)
Record ContextAuthority : Type := mkAuthority {
  actor_id : str; granted_domains : list AuthorityDomain
}.

(** morphz/src/context_db.rs:163-172 [ContextAuthority::require]. *)
Definition require (a : ContextAuthority) (domain : AuthorityDomain) : ContextDbResult unit :=
  if bool_decide (domain ∈ granted_domains a) then Ok tt
  else Err (AuthorityDenied (actor_id a) domain).

(** morphz/src/context_db.rs:176-184 [ContextNodeDraft]. *)
Record ContextNodeDraft : Type := mkDraft {
  d_node_id : str;
  d_parent_id : option str;
  d_order_key : Z;
  d_owner_domain : AuthorityDomain;
  d_body_sexpr : str
}.

(** morphz/src/context_db.rs:187-193 [CreateContextRequest]. *)
Record CreateContextRequest : Type := mkCreate {
  cr_context_id : str;
  cr_tenant_id : str;
  cr_agent_id : str;
  cr_authority : ContextAuthority;
  cr_root : ContextNodeDraft
}.

(** morphz/src/context_db.rs:197-217 [ContextOperation]. *)
Inductive ContextOperation : Type :=
| InsertNode (node : ContextNodeDraft)
| ReplaceNode (node_id : str) (expected_node_revision : Z) (body_sexpr : str)
| DeleteSubtree (node_id : str) (expected_subtree_hash : str)
| MoveSubtree (node_id : str) (expected_node_revision : Z) (expected_subtree_hash : str)
    (new_parent_id : str) (new_order_key : Z).

(** morphz/src/context_db.rs:220-229 [ContextTransaction]. *)
Record ContextTransaction : Type := mkTransaction {
  tx_transaction_id : str;
  tx_idempotency_key : str;
  tx_context_id : str;
  tx_base_revision : Z;
  tx_authority : ContextAuthority;
  tx_operations : list ContextOperation
}.

(** morphz/src/context_db.rs:232-243 [TransactionReceipt]. *)
Record TransactionReceipt : Type := mkReceipt {
  re_transaction_id : str;
  re_context_id : str;
  re_before_revision : Z;
  re_after_revision : Z;
  re_rebased : bool;
  re_changed_node_ids : list str;
  re_root_hash : str;
  re_committed_at : str;
  re_idempotent_replay : bool
}.

(** morphz/src/context_db.rs:656-665 [StoredNode]. *)
Record StoredNode : Type := mkNode {
  node_id : str;
  parent_id : option str;
  order_key : Z;
  owner_domain : AuthorityDomain;
  node_revision : Z;
  body_sexpr : str;
  content_hash : str;
  subtree_hash : str
}.

(** morphz/src/context_db.rs:683-690 [ContextMeta]. *)
Record ContextMeta : Type := mkMeta {
  m_context_id : str;
  m_tenant_id : str;
  m_agent_id : str;
  m_revision : Z;
  m_root_node_id : str;
  m_root_hash : str
}.

(** morphz/src/context_db.rs:258-267 [ContextSnapshot]; a public node record has the fields
    of a [StoredNode]. *)
Record ContextSnapshot : Type := mkSnapshot {
  s_context_id : str;
  s_tenant_id : str;
  s_agent_id : str;
  s_revision : Z;
  s_root_node_id : str;
  s_root_hash : str;
  s_canonical_sexpr : str;
  s_nodes : list StoredNode
}.

(** morphz/src/context_db.rs:269-273 [ContextSnapshot::node]. *)
Definition snapshot_node (s : ContextSnapshot) (id : str) : option StoredNode :=
  find (λ n, node_id n =s id) (s_nodes s).

(** morphz/src/context_db.rs:276-282 [ContextDbStats]. *)
Record ContextDbStats : Type := mkStats {
  st_context_id : str;
  st_revision : Z;
  st_node_count : N;
  st_logical_body_bytes : N;
  st_receipt_count : N
}.

(** morphz/src/context_db.rs:285-293 [ContextIntegrityReport]. *)
Record ContextIntegrityReport : Type := mkReport {
  i_context_id : str;
  i_revision : Z;
  i_node_count : N;
  i_root_hash : str;
  i_recomputed_root_hash : str;
  i_mismatched_node_ids : list str;
  i_matches : bool
}.

(** serde_json on the request and the receipt. *)
Class ContextCodec : Type := {
  request_to_vec : ContextTransaction → list N;
  receipt_to_string : TransactionReceipt → str;
  receipt_from_str : str → option TransactionReceipt
}.

(** ** Tables *)

(** morphz/src/context_db.rs:360-374 [initialize, the contexts table], by [context_id]. *)
Record ContextRow : Type := mkContextRow {
  x_tenant_id : str;
  x_agent_id : str;
  x_revision : Z;
  x_root_node_id : str;
  x_root_hash : str;
  x_schema_version : Z;
  x_created_at : str;
  x_updated_at : str
}.

(** morphz/src/context_db.rs:375-393 [initialize, the nodes table], by [node_id] within a
    context. *)
Record NodeRow : Type := mkRow {
  r_parent_id : option str;
  r_order_key : Z;
  r_owner_domain : str;
  r_node_revision : Z;
  r_body_sexpr : str;
  r_content_hash : str;
  r_subtree_hash : str
}.

(** morphz/src/context_db.rs:403-417 [initialize, the receipts table], by context and
    idempotency key. *)
Record ReceiptRow : Type := mkReceiptRow {
  q_request_hash : str; q_receipt_json : str; q_committed_at : str
}.

(** The rows of one context in the nodes table. *)
Abbreviation Table := (gmap str NodeRow).

Record Db : Type := mkDb {
  contexts : gmap str ContextRow;
  nodes : gmap str Table;
  receipts : gmap (str * str) ReceiptRow
}.

(** morphz/src/context_db.rs:359-419 [SqliteContextDb::initialize], on an empty file. *)
Definition initialize : Db := mkDb ∅ ∅ ∅.

Definition table (db : Db) (context_id : str) : Table := default ∅ (nodes db !! context_id).

(** ** Hashes *)

Section hashes.
Context `{Digest}.

(** morphz/src/context_db.rs:887-895 [digest_bytes]. *)
Definition digest_bytes (bytes : list N) : str := sha256_hex bytes.

(** morphz/src/context_ast.rs:274-280 [hash_context_node, a child]. *)
Definition child_material (child : Z * str * str) : list N :=
  let '(order_key, child_id, child_hash) := child in
  0%N :: utf8 s! "child" ++ 0%N :: be_bytes order_key ++ utf8 child_id ++ 0%N :: utf8 child_hash.

(** morphz/src/context_ast.rs:267-280 [hash_context_node, the hashed bytes]. *)
Definition node_material (id owner body : str) (children : list (Z * str * str)) : list N :=
  utf8 s! "morphz-contextdb-node-v1" ++ 0%N :: utf8 id ++ 0%N :: utf8 owner ++ 0%N :: utf8 body
  ++ concat (map child_material children).

(** morphz/src/context_ast.rs:261-282 [hash_context_node]. *)
Definition hash_context_node (id owner body : str) (children : list (Z * str * str)) : str :=
  sha256_hex (node_material id owner body children).

(** morphz/src/context_db.rs:897-904 [calculate_subtree_hash]. *)
Definition calculate_subtree_hash (id : str) (owner : AuthorityDomain) (body : str)
    (children : list (Z * str * str)) : str :=
  hash_context_node id (as_str owner) body children.

(** ** Validation *)

(** morphz/src/context_db.rs:783-791 [validate_identifier]. *)
Definition validate_identifier (name : string) (value : str) : ContextDbResult unit :=
  if forallb is_whitespace value then invalid "{name} must not be empty" [AStr (lit name)]
  else if (512 <? byte_len value)%N then invalid "{name} exceeds 512 bytes" [AStr (lit name)]
  else Ok tt.

(** morphz/src/context_db.rs:22-24 [the limits]. *)
Definition MAX_TREE_DEPTH : N := 128.
Definition MAX_TRANSACTION_OPERATIONS : N := 4096.
Definition MAX_TRANSACTION_BODY_BYTES : N := 64 * 1024 * 1024.
Definition SCHEMA_VERSION : Z := 1.

(** morphz/src/context_db.rs:793-809 [validate_transaction]. *)
Definition validate_transaction (t : ContextTransaction) : ContextDbResult unit :=
  _ ← validate_identifier "transaction_id" (tx_transaction_id t);
  _ ← validate_identifier "idempotency_key" (tx_idempotency_key t);
  _ ← validate_identifier "context_id" (tx_context_id t);
  _ ← validate_identifier "authority.actor_id" (actor_id (tx_authority t));
  match tx_operations t with
  | [] => invalid "a Context transaction must contain at least one operation" []
  | _ =>
      if (MAX_TRANSACTION_OPERATIONS <? len (tx_operations t))%N then
        invalid "a Context transaction may contain at most {MAX_TRANSACTION_OPERATIONS} operations" []
      else Ok tt
  end.

(** morphz/src/context_db.rs:846-870 [canonicalize_body]. *)
Definition canonicalize_body (input : str) : ContextDbResult (str * str) :=
  parsed_forms ← map_err Syntax (parse_all input);
  match parsed_forms with
  | [parsed] =>
      match parsed with
      | List items =>
          match items with
          | Atom (_ :: _) :: _ =>
              let canonical := to_string parsed in
              Ok (canonical, digest_bytes (utf8 canonical))
          | _ => invalid "a Context Node body must start with a non-empty atom" []
          end
      | Atom _ => invalid "a Context Node body must be an S-expression list" []
      end
  | _ => invalid "a Context Node body must contain exactly one top-level S-expression, got {}"
           [ANum (len parsed_forms)]
  end.

(** morphz/src/context_db.rs:872-885 [sexpr_head]. *)
Definition sexpr_head (canonical : str) : ContextDbResult str :=
  parsed ← map_err Syntax (parse canonical);
  match parsed with
  | List (Atom head :: _) => Ok head
  | List _ => corrupt "stored Node has no S-expression head" []
  | Atom _ => corrupt "stored Node body is not a list" []
  end.

(** [usize::checked_add]. *)
Definition usize_checked_add (a b : N) : option N :=
  if (Z.to_N u64_max <? a + b)%N then None else Some (a + b)%N.

(** morphz/src/context_db.rs:821-842 [normalize_transaction_bodies, one body], with the
    bytes seen so far. *)
Definition normalize_body (sizes : N * N) (body : str) : ContextDbResult (N * N * str) :=
  let '(input_body_bytes, canonical_body_bytes) := sizes in
  input_body_bytes ← ok_or (usize_checked_add input_body_bytes (byte_len body))
    (Invalid (Msg "Context transaction body size overflow" []));
  _ ← ensure (input_body_bytes <=? MAX_TRANSACTION_BODY_BYTES)%N
        (Invalid (Msg "Context transaction Node bodies exceed {MAX_TRANSACTION_BODY_BYTES} bytes" []));
  '(canonical, _) ← canonicalize_body body;
  canonical_body_bytes ← ok_or (usize_checked_add canonical_body_bytes (byte_len canonical))
    (Invalid (Msg "canonical Context body size overflow" []));
  _ ← ensure (canonical_body_bytes <=? MAX_TRANSACTION_BODY_BYTES)%N
        (Invalid (Msg "canonical Context transaction Node bodies exceed {MAX_TRANSACTION_BODY_BYTES} bytes" []));
  Ok (input_body_bytes, canonical_body_bytes, canonical).

(** morphz/src/context_db.rs:814-843 [normalize_transaction_bodies, the loop]. *)
Fixpoint normalize_operations (sizes : N * N) (operations : list ContextOperation)
    : ContextDbResult (list ContextOperation) :=
  match operations with
  | [] => Ok []
  | operation :: rest =>
      match operation with
      | InsertNode (mkDraft id parent order owner body) =>
          '(sizes', body') ← normalize_body sizes body;
          rest' ← normalize_operations sizes' rest;
          Ok (InsertNode (mkDraft id parent order owner body') :: rest')
      | ReplaceNode id expected body =>
          '(sizes', body') ← normalize_body sizes body;
          rest' ← normalize_operations sizes' rest;
          Ok (ReplaceNode id expected body' :: rest')
      | DeleteSubtree _ _ | MoveSubtree _ _ _ _ _ =>
          rest' ← normalize_operations sizes rest;
          Ok (operation :: rest')
      end
  end.

(** morphz/src/context_db.rs:811-844 [normalize_transaction_bodies]. *)
Definition normalize_transaction_bodies (t : ContextTransaction) : ContextDbResult ContextTransaction :=
  operations ← normalize_operations (0, 0)%N (tx_operations t);
  Ok (mkTransaction (tx_transaction_id t) (tx_idempotency_key t) (tx_context_id t)
        (tx_base_revision t) (tx_authority t) operations).

(** ** Queries *)

(** [i64::try_from(u64)]. *)
Definition i64_try_from {E} (z : Z) (e : E) : result E Z := if z <=? i64_max then Ok z else Err e.
(** [u64::try_from(i64)]. *)
Definition u64_try_from {E} (z : Z) (e : E) : result E Z := if 0 <=? z then Ok z else Err e.
(** [u64::checked_add] of one. *)
Definition u64_checked_succ (z : Z) : option Z := if z <? u64_max then Some (z + 1) else None.

(** morphz/src/context_db.rs:926-942 [context_meta_from_row]. *)
Definition context_meta_from_row (context_id : str) (row : ContextRow) : ContextDbResult ContextMeta :=
  if negb (x_schema_version row =? SCHEMA_VERSION) then
    corrupt "unsupported ContextDB schema version {schema_version}" []
  else
    revision ← u64_try_from (x_revision row) (Corrupt (Msg "invalid Context revision" []));
    Ok (mkMeta context_id (x_tenant_id row) (x_agent_id row) revision (x_root_node_id row) (x_root_hash row)).

(** morphz/src/context_db.rs:910-924 [load_context_meta_tx]. *)
Definition load_context_meta (db : Db) (context_id : str) : ContextDbResult ContextMeta :=
  match contexts db !! context_id with
  | None => Err (NotFound (Msg "Context '{context_id}'" [AStr context_id]))
  | Some row => context_meta_from_row context_id row
  end.

(** morphz/src/context_db.rs:961-973 [stored_node_from_row]. *)
Definition stored_node_from_row (id : str) (row : NodeRow) : ContextDbResult StoredNode :=
  owner ← from_storage (r_owner_domain row);
  revision ← u64_try_from (r_node_revision row) (Corrupt (Msg "invalid Node revision" []));
  Ok (mkNode id (r_parent_id row) (r_order_key row) owner revision (r_body_sexpr row)
        (r_content_hash row) (r_subtree_hash row)).

Definition load_rows (l : list (str * NodeRow)) : ContextDbResult (list StoredNode) :=
  traverse (λ r, stored_node_from_row r.1 r.2) l.

(** SQLite orders NULL first and text by its bytes, which is the order of code points. *)
Definition parent_cmp (a b : option str) : comparison :=
  match a, b with
  | None, None => Eq
  | None, Some _ => Lt
  | Some _, None => Gt
  | Some x, Some y => str_cmp x y
  end.
Definition row_cmp (a b : str * NodeRow) : comparison :=
  then_with (parent_cmp (r_parent_id a.2) (r_parent_id b.2))
    (then_with (Z.compare (r_order_key a.2) (r_order_key b.2)) (str_cmp a.1 b.1)).

(** morphz/src/context_db.rs:944-959 [load_nodes_tx]. *)
Definition load_nodes (t : Table) : ContextDbResult (list StoredNode) :=
  load_rows (merge_sort (not_gt row_cmp) (map_to_list t)).

(** morphz/src/context_db.rs:1103-1120 [load_node_tx]. *)
Definition load_node (t : Table) (id : str) : ContextDbResult StoredNode :=
  match t !! id with
  | None => Err (NotFound (Msg "Node '{node_id}'" [AStr id]))
  | Some row => stored_node_from_row id row
  end.

(** ORDER BY order_key, node_id. *)
Definition child_cmp (a b : Z * str * str) : comparison :=
  then_with (Z.compare a.1.1 b.1.1) (str_cmp a.1.2 b.1.2).

(** The child descriptors of a node, in the order of the table. *)
Definition child_descriptors (t : Table) (parent : str) : list (Z * str * str) :=
  map (λ r, (r_order_key r.2, r.1, r_subtree_hash r.2))
    (filter (λ r, r_parent_id r.2 = Some parent) (map_to_list t)).

(** morphz/src/context_db.rs:1122-1147 [load_child_hashes_tx]. *)
Definition load_child_hashes (t : Table) (parent : str) : list (Z * str * str) :=
  merge_sort (not_gt child_cmp) (child_descriptors t parent).

(** morphz/src/context_db.rs:1149-1163 [node_exists_tx]. *)
Definition node_exists (t : Table) (id : str) : bool := is_some (t !! id).

(** Rounds of a recursive query, which ends when a round adds nothing. *)
Fixpoint saturate (rounds : nat) (f : gset str → gset str) (known : gset str) : gset str :=
  match rounds with
  | O => known
  | S n => let known' := f known in if bool_decide (known' = known) then known else saturate n f known'
  end.

(** One round of the recursive part of the subtree query: the children of known nodes. *)
Definition child_of (known : gset str) (row : NodeRow) : Prop :=
  match r_parent_id row with Some p => p ∈ known | None => False end.
#[export] Instance child_of_dec known row : Decision (child_of known row).
Proof. unfold child_of. destruct (r_parent_id row); apply _. Defined.

Definition descend (t : Table) (known : gset str) : gset str :=
  known ∪ dom (filter (λ r, child_of known r.2) t).

(** morphz/src/context_db.rs:1376-1384 [load_subtree_tx, the recursive query]: rounds for
    every row reach its fixpoint. *)
Definition subtree_ids (t : Table) (root : str) : gset str :=
  saturate (size t) (descend t) {[ root ]}.

(** morphz/src/context_db.rs:1370-1395 [load_subtree_tx]; the query leaves the order of the
    rows open. *)
Definition load_subtree (t : Table) (root : str) : ContextDbResult (list StoredNode) :=
  let ids := subtree_ids t root in
  load_rows (filter (λ r, r.1 ∈ ids) (map_to_list t)).

(** morphz/src/context_db.rs:1397-1432 [ensure_move_is_acyclic, the loop], for the bounded
    number of rounds left. *)
Fixpoint move_chain (rounds : nat) (t : Table) (id new_parent : str) (current : option str)
    (visited : gset str) : ContextDbResult unit :=
  match rounds with
  | O => corrupt "parent chain exceeds {MAX_TREE_DEPTH} levels" []
  | S n =>
      match current with
      | None => Ok tt
      | Some candidate =>
          if candidate =s id then
            invalid "moving Node '{node_id}' below '{new_parent_id}' would create a cycle"
              [AStr id; AStr new_parent]
          else if bool_decide (candidate ∈ visited) then
            corrupt "existing parent chain contains a cycle at Node '{candidate}'" [AStr candidate]
          else
            match t !! candidate with
            | None => Err (NotFound (Msg "Node '{candidate}'" [AStr candidate]))
            | Some row => move_chain n t id new_parent (r_parent_id row) ({[ candidate ]} ∪ visited)
            end
      end
  end.

(** morphz/src/context_db.rs:1397-1432 [ensure_move_is_acyclic]. *)
Definition ensure_move_is_acyclic (t : Table) (id new_parent : str) : ContextDbResult unit :=
  move_chain (S (N.to_nat MAX_TREE_DEPTH)) t id new_parent (Some new_parent) ∅.

(** ** Operations *)

(** What the operations of one transaction accumulate: the rows of the context, the nodes
    whose hash must be computed again, and the changed nodes. *)
Record Progress : Type := mkProgress { rows : Table; dirty : list str; changed : list str }.

(** UPDATE of the row of a node at a revision. *)
Definition update_at (t : Table) (id : str) (revision : Z) (f : NodeRow → NodeRow) : Table :=
  match t !! id with
  | Some row => if r_node_revision row =? revision then <[id := f row]> t else t
  | None => t
  end.

Definition require_all (authority : ContextAuthority) (subtree : list StoredNode) : ContextDbResult unit :=
  try_each (λ n, require authority (owner_domain n)) subtree.

(** morphz/src/context_db.rs:1175-1214 [apply_operation, InsertNode]. *)
Definition insert_node (authority : ContextAuthority) (p : Progress) (node : ContextNodeDraft)
    : ContextDbResult Progress :=
  let t := rows p in
  let id := d_node_id node in
  _ ← validate_identifier "node.node_id" id;
  parent_id ← ok_or (d_parent_id node)
    (Invalid (Msg "only Context creation may insert a root Node" []));
  _ ← validate_identifier "node.parent_id" parent_id;
  if node_exists t id then Err (AlreadyExists (Msg "Node '{}'" [AStr id]))
  else
    parent ← load_node t parent_id;
    _ ← require authority (d_owner_domain node);
    _ ← (if bool_decide (owner_domain parent = d_owner_domain node) then Ok tt
         else require authority (owner_domain parent));
    let body := d_body_sexpr node in
    let content_hash := digest_bytes (utf8 body) in
    let subtree_hash := calculate_subtree_hash id (d_owner_domain node) body [] in
    Ok (mkProgress
          (<[id := mkRow (Some parent_id) (d_order_key node) (as_str (d_owner_domain node)) 1 body
                     content_hash subtree_hash]> t)
          (bs_insert parent_id (dirty p)) (bs_insert id (changed p))).

(** The revision after a change of a node. *)
Definition next_revision (n : StoredNode) : ContextDbResult Z :=
  next ← ok_or (u64_checked_succ (node_revision n)) (Invalid (Msg "Node revision overflow" []));
  next ← i64_try_from next (Invalid (Msg "Node revision exceeds SQLite INTEGER" []));
  _ ← i64_try_from (node_revision n) (Corrupt (Msg "invalid Node revision" []));
  Ok next.

(** morphz/src/context_db.rs:1215-1260 [apply_operation, ReplaceNode]. *)
Definition replace_node (authority : ContextAuthority) (p : Progress) (id : str)
    (expected_node_revision : Z) (body : str) : ContextDbResult Progress :=
  let t := rows p in
  current ← load_node t id;
  _ ← require authority (owner_domain current);
  if negb (node_revision current =? expected_node_revision) then
    Err (Precondition (Msg "Node '{node_id}' revision is {}, expected {expected_node_revision}" [AStr id]))
  else
    let content_hash := digest_bytes (utf8 body) in
    let children := load_child_hashes t id in
    let subtree_hash := calculate_subtree_hash id (owner_domain current) body children in
    next ← next_revision current;
    Ok (mkProgress
          (update_at t id (node_revision current) (λ row,
             mkRow (r_parent_id row) (r_order_key row) (r_owner_domain row) next body
               content_hash subtree_hash))
          (match parent_id current with Some parent => bs_insert parent (dirty p) | None => dirty p end)
          (bs_insert id (changed p))).

(** morphz/src/context_db.rs:1261-1308 [apply_operation, DeleteSubtree]. *)
Definition delete_subtree (root_node_id : str) (authority : ContextAuthority) (p : Progress) (id : str)
    (expected_subtree_hash : str) : ContextDbResult Progress :=
  let t := rows p in
  if id =s root_node_id then invalid "the Context root cannot be retired by DeleteSubtree" []
  else
    target ← load_node t id;
    if negb (subtree_hash target =s expected_subtree_hash) then
      Err (Precondition (Msg "Node '{node_id}' subtree changed since it was read" [AStr id]))
    else
      subtree ← load_subtree t id;
      _ ← require_all authority subtree;
      dirty' ←
        match parent_id target with
        | Some parent_id =>
            parent ← load_node t parent_id;
            _ ← (if bool_decide (owner_domain parent = owner_domain target) then Ok tt
                 else require authority (owner_domain parent));
            Ok (bs_insert parent_id (dirty p))
        | None => Ok (dirty p)
        end;
      let ids := subtree_ids t id in
      Ok (mkProgress (filter (λ r, r.1 ∉ ids) t) dirty'
            (fold_left (λ c n, bs_insert (node_id n) c) subtree (changed p))).

(** morphz/src/context_db.rs:1309-1365 [apply_operation, MoveSubtree]. *)
Definition move_subtree (root_node_id : str) (authority : ContextAuthority) (p : Progress) (id : str)
    (expected_node_revision : Z) (expected_subtree_hash new_parent_id : str) (new_order_key : Z)
    : ContextDbResult Progress :=
  let t := rows p in
  if id =s root_node_id then invalid "the Context root cannot be moved" []
  else
    target ← load_node t id;
    if negb (node_revision target =? expected_node_revision)
       || negb (subtree_hash target =s expected_subtree_hash) then
      Err (Precondition (Msg "Node '{node_id}' changed since it was read" [AStr id]))
    else
      subtree ← load_subtree t id;
      _ ← require_all authority subtree;
      new_parent ← load_node t new_parent_id;
      _ ← require authority (owner_domain new_parent);
      _ ← ensure_move_is_acyclic t id new_parent_id;
      dirty' ←
        match parent_id target with
        | Some old_parent_id =>
            old_parent ← load_node t old_parent_id;
            _ ← require authority (owner_domain old_parent);
            Ok (bs_insert old_parent_id (dirty p))
        | None => Ok (dirty p)
        end;
      next ← next_revision target;
      Ok (mkProgress
            (update_at t id (node_revision target) (λ row,
               mkRow (Some new_parent_id) new_order_key (r_owner_domain row) next (r_body_sexpr row)
                 (r_content_hash row) (r_subtree_hash row)))
            (bs_insert new_parent_id dirty') (bs_insert id (changed p))).

(** morphz/src/context_db.rs:1165-1368 [apply_operation]. *)
Definition apply_operation (root_node_id : str) (authority : ContextAuthority) (p : Progress)
    (operation : ContextOperation) : ContextDbResult Progress :=
  match operation with
  | InsertNode node => insert_node authority p node
  | ReplaceNode id expected body => replace_node authority p id expected body
  | DeleteSubtree id expected => delete_subtree root_node_id authority p id expected
  | MoveSubtree id revision hash new_parent new_order =>
      move_subtree root_node_id authority p id revision hash new_parent new_order
  end.
(** ** Hashes after a transaction *)

(** One round of the recursive part of the ancestor query: the parents of known nodes. *)
Definition ascend (t : Table) (known : gset str) : gset str :=
  known ∪ filter (λ p, is_Some (t !! p)) (set_omap (λ id, row ← t !! id; r_parent_id row) known).

(** morphz/src/context_db.rs:1449-1476 [recompute_dirty_hashes, the recursive query]: the
    requested nodes that exist and all their ancestors. *)
Definition ancestor_ids (t : Table) (requested : list str) : gset str :=
  saturate (size t) (ascend t) (filter (λ p, is_Some (t !! p)) (list_to_set requested)).

Definition by_id (l : list StoredNode) : gmap str StoredNode :=
  list_to_map (map (λ n, (node_id n, n)) l).

(** morphz/src/context_db.rs:1583-1621 [affected_node_depth], with the cache it fills;
    [visiting] is restored on success.  The fuel suffices when it exceeds the nodes. *)
Fixpoint affected_node_depth (fuel : nat) (affected : gmap str StoredNode) (id : str)
    (cache : gmap str N) (visiting : gset str) : ContextDbResult (N * gmap str N) :=
  match fuel with
  | O => corrupt "out of fuel" []
  | S n =>
      match cache !! id with
      | Some depth => Ok (depth, cache)
      | None =>
          if bool_decide (id ∈ visiting) then
            corrupt "parent chain contains a cycle at Node '{node_id}'" [AStr id]
          else
            node ← ok_or (affected !! id) (Corrupt (Msg "affected Node '{node_id}' is missing" [AStr id]));
            '(depth, cache) ←
              match parent_id node with
              | Some parent =>
                  if negb (is_some (affected !! parent)) then
                    corrupt "affected ancestor closure omits parent '{parent_id}' of Node '{node_id}'"
                      [AStr parent; AStr id]
                  else
                    '(d, cache) ← affected_node_depth n affected parent cache ({[ id ]} ∪ visiting);
                    depth ← ok_or (usize_checked_add d 1) (Corrupt (Msg "Node depth overflow" []));
                    Ok (depth, cache)
              | None => Ok (0%N, cache)
              end;
            if (MAX_TREE_DEPTH <? depth)%N then
              corrupt "parent chain exceeds {MAX_TREE_DEPTH} levels" []
            else Ok (depth, <[id := depth]> cache)
      end
  end.

(** [Option::cmp]. *)
Definition option_cmp {A} (cmp : A → A → comparison) (a b : option A) : comparison :=
  match a, b with
  | None, None => Eq
  | None, Some _ => Lt
  | Some _, None => Gt
  | Some x, Some y => cmp x y
  end.

(** morphz/src/context_db.rs:1530-1535 [recompute_dirty_hashes, the order of the nodes]. *)
Definition deepest_first (cache : gmap str N) (left right : str) : comparison :=
  then_with (option_cmp N.compare (cache !! right) (cache !! left)) (str_cmp left right).

Definition with_hash (hash : str) (row : NodeRow) : NodeRow :=
  mkRow (r_parent_id row) (r_order_key row) (r_owner_domain row) (r_node_revision row)
    (r_body_sexpr row) (r_content_hash row) hash.

(** UPDATE of the hash of a node. *)
Definition set_hash (t : Table) (id hash : str) : Table := alter (with_hash hash) id t.

(** morphz/src/context_db.rs:1538-1572 [recompute_dirty_hashes, one node]: the children
    come from the table before the loop, with the hashes computed since. *)
Definition rehash_node (affected : gmap str StoredNode) (children : str → list (Z * str * str))
    (progress : Table * gmap str str) (id : str) : ContextDbResult (Table * gmap str str) :=
  let '(t, computed) := progress in
  node ← ok_or (affected !! id) (Corrupt (Msg "affected Node '{node_id}' disappeared" [AStr id]));
  let child_hashes :=
    map (λ c, (c.1, default c.2 (computed !! c.1.2))) (children id) in
  let hash := calculate_subtree_hash (node_id node) (owner_domain node) (body_sexpr node) child_hashes in
  Ok (if hash =s subtree_hash node then t else set_hash t id hash, <[id := hash]> computed).

(** morphz/src/context_db.rs:1434-1581 [recompute_dirty_hashes]. *)
Definition recompute_dirty_hashes (t : Table) (root_node_id : str) (dirty : list str)
    : ContextDbResult (str * Table) :=
  let stored t := root ← load_node t root_node_id; Ok (subtree_hash root, t) in
  match dirty with
  | [] => stored t
  | _ =>
      let requested := ancestor_ids t dirty in
      affected_rows ← load_rows (filter (λ r, r.1 ∈ requested) (map_to_list t));
      let affected := by_id affected_rows in
      if bool_decide (affected = ∅) then stored t
      else
        let keys := map fst (map_to_list affected) in
        depth_cache ← foldM (λ cache id,
            '(_, cache) ← affected_node_depth (S (size affected)) affected id cache ∅; Ok cache) ∅ keys;
        let ordered := merge_sort (not_gt (deepest_first depth_cache)) keys in
        '(t', computed) ← foldM (rehash_node affected (load_child_hashes t)) (t, ∅) ordered;
        match computed !! root_node_id with
        | Some root_hash => Ok (root_hash, t')
        | None => stored t'
        end
  end.

(** ** Snapshots *)

Definition node_cmp (a b : StoredNode) : comparison :=
  then_with (Z.compare (order_key a) (order_key b)) (str_cmp (node_id a) (node_id b)).

(** morphz/src/context_db.rs:1032-1045 [render_loaded_tree, the children of a node]. *)
Definition sorted_children (l : list StoredNode) (parent : str) : list StoredNode :=
  merge_sort (not_gt node_cmp) (filter (λ n, parent_id n = Some parent) l).

(** morphz/src/context_db.rs:1059-1101 [render_loaded_node], with the levels left below the
    limit in place of the depth; [visiting] is restored on success. *)
Fixpoint render_loaded_node (levels : nat) (nodes : gmap str StoredNode)
    (children : str → list StoredNode) (id : str) (visiting visited : gset str)
    : ContextDbResult (SExpr * gset str) :=
  match levels with
  | O => corrupt "Context tree exceeds {MAX_TREE_DEPTH} levels" []
  | S n =>
      if bool_decide (id ∈ visiting) then
        corrupt "Context tree contains a cycle at Node '{node_id}'" [AStr id]
      else
        node ← ok_or (nodes !! id)
          (Corrupt (Msg "Context tree references missing Node '{node_id}'" [AStr id]));
        parsed ← map_err Syntax (parse (body_sexpr node));
        match parsed with
        | Atom _ => corrupt "Node '{node_id}' body is not a list" [AStr id]
        | List items =>
            '(items, visited) ← foldM (λ acc child,
                '(e, visited) ← render_loaded_node n nodes children (node_id child)
                                  ({[ id ]} ∪ visiting) acc.2;
                Ok (acc.1 ++ [e], visited)) (items, visited) (children id);
            Ok (List items, {[ id ]} ∪ visited)
        end
  end.

Definition tree_levels : nat := S (N.to_nat MAX_TREE_DEPTH).

(** morphz/src/context_db.rs:1024-1057 [render_loaded_tree]. *)
Definition render_loaded_tree (root_node_id : str) (l : list StoredNode)
    : ContextDbResult (str * gset str) :=
  '(rendered, visited) ← render_loaded_node tree_levels (by_id l) (sorted_children l) root_node_id ∅ ∅;
  Ok (to_string rendered, visited).

(** [sort] followed by [dedup]. *)
Definition sort_dedup (l : list str) : list str := fold_left (λ s x, bs_insert x s) l [].

(** morphz/src/context_db.rs:975-1022 [build_snapshot]. *)
Definition build_snapshot (meta : ContextMeta) (l : list StoredNode) : ContextDbResult ContextSnapshot :=
  '(canonical_sexpr, visited) ← render_loaded_tree (m_root_node_id meta) l;
  if negb (size visited =? length l)%nat then
    corrupt "Context '{}' contains Nodes unreachable from root '{}': {}"
      [AStr (m_context_id meta); AStr (m_root_node_id meta);
       AStrs (sort_dedup (map node_id (filter (λ n, node_id n ∉ visited) l)))]
  else
    root ← ok_or (find (λ n, node_id n =s m_root_node_id meta) l)
      (Corrupt (Msg "Context '{}' root Node '{}' is missing" [AStr (m_context_id meta); AStr (m_root_node_id meta)]));
    if is_some (parent_id root) then
      corrupt "Context '{}' root Node has a parent" [AStr (m_context_id meta)]
    else if negb (subtree_hash root =s m_root_hash meta) then
      corrupt "Context '{}' root hash does not match its root Node" [AStr (m_context_id meta)]
    else
      Ok (mkSnapshot (m_context_id meta) (m_tenant_id meta) (m_agent_id meta) (m_revision meta)
            (m_root_node_id meta) (m_root_hash meta) canonical_sexpr l).

(** ** Audit *)

(** morphz/src/context_db.rs:1699-1749 [audit_node_hash], with the levels left below the
    limit in place of the depth; [visiting] is restored on success. *)
Fixpoint audit_node_hash (levels : nat) (nodes : gmap str StoredNode)
    (children : str → list StoredNode) (id : str) (visiting : gset str) (computed : gmap str str)
    : ContextDbResult (str * gmap str str) :=
  match levels with
  | O => corrupt "Context tree exceeds {MAX_TREE_DEPTH} levels" []
  | S n =>
      match computed !! id with
      | Some hash => Ok (hash, computed)
      | None =>
          if bool_decide (id ∈ visiting) then
            corrupt "Context tree contains a cycle at Node '{node_id}'" [AStr id]
          else
            node ← ok_or (nodes !! id)
              (Corrupt (Msg "Context tree references missing Node '{node_id}'" [AStr id]));
            '(child_hashes, computed) ← foldM (λ acc child,
                '(h, computed) ← audit_node_hash n nodes children (node_id child) ({[ id ]} ∪ visiting) acc.2;
                Ok (acc.1 ++ [(order_key child, node_id child, h)], computed)) ([], computed) (children id);
            let hash := calculate_subtree_hash (node_id node) (owner_domain node) (body_sexpr node) child_hashes in
            Ok (hash, <[id := hash]> computed)
      end
  end.

(** morphz/src/context_db.rs:1662-1672 [audit_loaded_context, the body of a node]. *)
Definition body_matches (n : StoredNode) : bool :=
  match canonicalize_body (body_sexpr n) with
  | Ok (canonical, hash) => (canonical =s body_sexpr n) && (hash =s content_hash n)
  | Err _ => false
  end.

(** morphz/src/context_db.rs:1623-1697 [audit_loaded_context]. *)
Definition audit_loaded_context (meta : ContextMeta) (l : list StoredNode)
    : ContextDbResult ContextIntegrityReport :=
  let nodes := by_id l in
  _ ← try_each (λ n,
        match parent_id n with
        | Some parent =>
            if is_some (nodes !! parent) then Ok tt
            else corrupt "Node '{}' references missing parent '{parent_id}'" [AStr (node_id n); AStr parent]
        | None => Ok tt
        end) l;
  '(recomputed_root_hash, computed) ←
    audit_node_hash tree_levels nodes (sorted_children l) (m_root_node_id meta) ∅ ∅;
  let wrong_hash := filter (λ n, computed !! node_id n ≠ Some (subtree_hash n)) l in
  let wrong_body := filter (λ n, body_matches n = false) l in
  let unreached := filter (λ n, computed !! node_id n = None) l in
  let mismatched := sort_dedup (map node_id (wrong_hash ++ wrong_body ++ unreached)) in
  Ok (mkReport (m_context_id meta) (m_revision meta) (len l) (m_root_hash meta) recomputed_root_hash
        mismatched
        (match mismatched with [] => true | _ => false end
         && (recomputed_root_hash =s m_root_hash meta) && (size computed =? length l)%nat)).
End hashes.

(** ** The store *)

Section store.
Context `{Digest} `{ContextCodec}.

(** Clock readings of one call, in order. *)
Abbreviation Clock := (nat → str).

(** morphz/src/context_db.rs:421-508 [SqliteContextDb::create_context_in_transaction]. *)
Definition create_context (db : Db) (now : Clock) (request : CreateContextRequest)
    : ContextDbResult (ContextSnapshot * Db) :=
  let id := cr_context_id request in
  let root := cr_root request in
  _ ← validate_identifier "context_id" id;
  _ ← validate_identifier "tenant_id" (cr_tenant_id request);
  _ ← validate_identifier "agent_id" (cr_agent_id request);
  _ ← validate_identifier "authority.actor_id" (actor_id (cr_authority request));
  _ ← validate_identifier "root.node_id" (d_node_id root);
  if is_some (d_parent_id root) then invalid "the Context root must not have a parent" []
  else
    _ ← require (cr_authority request) (d_owner_domain root);
    '(body, content) ← canonicalize_body (d_body_sexpr root);
    root_head ← sexpr_head body;
    if negb (root_head =s s! "context") then
      invalid "the root Node must be a (context ...) expression, got ({root_head} ...)" [AStr root_head]
    else
      let root_hash := calculate_subtree_hash (d_node_id root) (d_owner_domain root) body [] in
      if is_some (contexts db !! id) then Err (AlreadyExists (Msg "Context '{}'" [AStr id]))
      else if is_some (table db id !! d_node_id root) then
        Err (Storage (Msg "UNIQUE constraint failed" []))
      else
        let row := mkRow None (d_order_key root) (as_str (d_owner_domain root)) 1 body content root_hash in
        let db' := mkDb
          (<[id := mkContextRow (cr_tenant_id request) (cr_agent_id request) 1 (d_node_id root) root_hash
                     SCHEMA_VERSION (now 0%nat) (now 0%nat)]> (contexts db))
          (<[id := <[d_node_id root := row]> (table db id)]> (nodes db)) (receipts db) in
        snapshot ← build_snapshot
          (mkMeta id (cr_tenant_id request) (cr_agent_id request) 1 (d_node_id root) root_hash)
          [mkNode (d_node_id root) None (d_order_key root) (d_owner_domain root) 1 body content root_hash];
        Ok (snapshot, db').

(** morphz/src/context_db.rs:510-519 [SqliteContextDb::get_context_in_transaction]. *)
Definition get_context (db : Db) (context_id : str) : ContextDbResult ContextSnapshot :=
  _ ← validate_identifier "context_id" context_id;
  meta ← load_context_meta db context_id;
  l ← load_nodes (table db context_id);
  build_snapshot meta l.

(** morphz/src/context_db.rs:566-591 [apply_transaction_in_transaction, the claim of the
    next revision]; the context may not have moved since [meta] was read. *)
Definition claim_revision (db : Db) (now : Clock) (context_id : str) (meta : ContextMeta)
    (after_revision : Z) : ContextDbResult Db :=
  after ← i64_try_from after_revision (Invalid (Msg "Context revision exceeds SQLite INTEGER" []));
  before ← i64_try_from (m_revision meta) (Corrupt (Msg "negative or overflowing Context revision" []));
  let lost :=
    actual ← load_context_meta db context_id;
    Err (Conflict context_id (m_revision meta) (m_revision actual)) in
  match contexts db !! context_id with
  | Some x =>
      if x_revision x =? before then
        Ok (mkDb (<[context_id := mkContextRow (x_tenant_id x) (x_agent_id x) after (x_root_node_id x)
                      (x_root_hash x) (x_schema_version x) (x_created_at x) (now 0%nat)]> (contexts db))
              (nodes db) (receipts db))
      else lost
  | None => lost
  end.

(** morphz/src/context_db.rs:613-625 [apply_transaction_in_transaction, the root hash]. *)
Definition store_root_hash (db : Db) (now : Clock) (context_id root_hash : str) (after_revision : Z) : Db :=
  match contexts db !! context_id with
  | Some x =>
      if x_revision x =? after_revision then
        mkDb (<[context_id := mkContextRow (x_tenant_id x) (x_agent_id x) (x_revision x) (x_root_node_id x)
                  root_hash (x_schema_version x) (x_created_at x) (now 1%nat)]> (contexts db))
          (nodes db) (receipts db)
      else db
  | None => db
  end.

(** morphz/src/context_db.rs:553-651 [apply_transaction_in_transaction, an unknown
    idempotency key]. *)
Definition commit_transaction (db : Db) (now : Clock) (request_hash : str) (request : ContextTransaction)
    : ContextDbResult (TransactionReceipt * Db) :=
  let id := tx_context_id request in
  meta ← load_context_meta db id;
  if m_revision meta <? tx_base_revision request then
    Err (Conflict id (tx_base_revision request) (m_revision meta))
  else
    let rebased := negb (tx_base_revision request =? m_revision meta) in
    after_revision ← ok_or (u64_checked_succ (m_revision meta))
      (Invalid (Msg "Context revision overflow" []));
    db ← claim_revision db now id meta after_revision;
    progress ← foldM (apply_operation (m_root_node_id meta) (tx_authority request))
      (mkProgress (table db id) [] []) (tx_operations request);
    '(root_hash, t) ← recompute_dirty_hashes (rows progress) (m_root_node_id meta) (dirty progress);
    let db := mkDb (contexts db) (<[id := t]> (nodes db)) (receipts db) in
    let db := store_root_hash db now id root_hash after_revision in
    let receipt := mkReceipt (tx_transaction_id request) id (m_revision meta) after_revision rebased
                     (changed progress) root_hash (now 2%nat) false in
    Ok (receipt, mkDb (contexts db) (nodes db)
                   (<[(id, tx_idempotency_key request) :=
                        mkReceiptRow request_hash (receipt_to_string receipt) (now 2%nat)]> (receipts db))).

Definition replayed (r : TransactionReceipt) : TransactionReceipt :=
  mkReceipt (re_transaction_id r) (re_context_id r) (re_before_revision r) (re_after_revision r)
    (re_rebased r) (re_changed_node_ids r) (re_root_hash r) (re_committed_at r) true.

(** morphz/src/context_db.rs:521-652 [SqliteContextDb::apply_transaction_in_transaction]. *)
Definition apply_in_transaction (db : Db) (now : Clock) (request : ContextTransaction)
    : ContextDbResult (TransactionReceipt * Db) :=
  _ ← validate_transaction request;
  request ← normalize_transaction_bodies request;
  let request_hash := digest_bytes (request_to_vec request) in
  match receipts db !! (tx_context_id request, tx_idempotency_key request) with
  | Some row =>
      if negb (q_request_hash row =s request_hash) then
        Err (IdempotencyReuse (tx_idempotency_key request))
      else
        receipt ← ok_or (receipt_from_str (q_receipt_json row)) (Codec (Msg "receipt" []));
        Ok (replayed receipt, db)
  | None => commit_transaction db now request_hash request
  end.

(** morphz/src/context_db.rs:719-736 [SqliteContextDb::apply_transaction]. *)
Definition apply_transaction (db : Db) (now : Clock) (request : ContextTransaction)
    : ContextDbResult (TransactionReceipt * Db) :=
  _ ← validate_transaction request;
  request ← normalize_transaction_bodies request;
  apply_in_transaction db now request.

(** morphz/src/context_db.rs:738-770 [SqliteContextDb::inspect_context]. *)
Definition inspect_context (db : Db) (context_id : str) : ContextDbResult ContextDbStats :=
  _ ← validate_identifier "context_id" context_id;
  meta ← load_context_meta db context_id;
  let t := table db context_id in
  Ok (mkStats context_id (m_revision meta) (N.of_nat (size t))
        (map_fold (λ _ row n, byte_len (r_body_sexpr row) + n)%N 0%N t)
        (N.of_nat (size (filter (λ r, r.1.1 = context_id) (receipts db))))).

(** morphz/src/context_db.rs:772-780 [SqliteContextDb::audit_context]. *)
Definition audit_context (db : Db) (context_id : str) : ContextDbResult ContextIntegrityReport :=
  _ ← validate_identifier "context_id" context_id;
  meta ← load_context_meta db context_id;
  l ← load_nodes (table db context_id);
  audit_loaded_context meta l.

(** ** Histories *)

(** A transaction that fails is rolled back, so that only successful calls make a step. *)
Inductive db_step : Db → Db → Prop :=
| step_create db now request snapshot db' :
    create_context db now request = Ok (snapshot, db') → db_step db db'
| step_apply db now request receipt db' :
    apply_transaction db now request = Ok (receipt, db') → db_step db db'.

(** The databases that calls on an empty file can reach. *)
Inductive reachable : Db → Prop :=
| reach_initialize : reachable initialize
| reach_step db db' : reachable db → db_step db db' → reachable db'.
End store.
