(* ===== verification/ContextTree.v ===== *)
(** * The trees of the context database

    The recursive queries compute reachability, and the operations of a transaction keep the
    rows of a context a tree whose stored hashes are right outside the dirty nodes. *)

From stdpp Require Import base list gmap sets sorting relations strings.
From Stdlib Require Import ZArith Lia.
From S2P Require Import Prelude Ordering JsonValue Types Diagnostic Text Sexpr SexprFacts ContextDb.

(** ** Iteration to a fixpoint *)

(** As many rounds of an inflationary function as there are elements it may add reach a
    fixpoint. *)
Section iteration.
Context (f : gset str → gset str) (start universe : gset str).
Hypothesis Hgrow : ∀ s, s ⊆ f s.
Hypothesis Hbound : ∀ s, f s ⊆ s ∪ universe.

Lemma iter_subseteq n : Nat.iter n f start ⊆ start ∪ universe.
Proof using Hbound.
  clear Hgrow. induction n as [|n IH]; simpl; [set_solver|]. pose proof (Hbound (Nat.iter n f start)). set_solver. Qed.

Lemma iter_grows n : start ⊆ Nat.iter n f start.
Proof using Hgrow.
  clear Hbound. induction n as [|n IH]; simpl; [done|]. pose proof (Hgrow (Nat.iter n f start)). set_solver. Qed.

Lemma iter_stable n m : f (Nat.iter n f start) = Nat.iter n f start → n ≤ m →
  Nat.iter m f start = Nat.iter n f start.
Proof.
  intros Hf. induction 1 as [|m _ IH]; [done|]. simpl. by rewrite IH.
Qed.

Lemma saturate_iter n : saturate n f start = Nat.iter n f start.
Proof using Type.
  clear Hgrow Hbound. revert start. induction n as [|n IH]; intros s; simpl; [done|].
  case_bool_decide as Hs.
  - clear IH. induction n as [|n IH]; simpl; [done|]. by rewrite <- IH.
  - by rewrite IH, <- Nat.iter_succ_r.
Qed.

Lemma iter_size n :
  (∃ k, k ≤ n ∧ f (Nat.iter k f start) = Nat.iter k f start) ∨
  size start + S n ≤ size (Nat.iter (S n) f start).
Proof.
  induction n as [|n [(k & Hk & Hf)|IH]].
  - destruct (decide (f start = start)) as [Hf|Hf]; [left; by exists 0|right].
    simpl. assert (start ⊂ f start) as Hs by (split; [apply Hgrow|set_solver]).
    apply subset_size in Hs. lia.
  - left. exists k. split; [lia|done].
  - destruct (decide (f (Nat.iter (S n) f start) = Nat.iter (S n) f start)) as [Hf|Hf]; [left; by exists (S n)|right].
    assert (Nat.iter (S n) f start ⊂ f (Nat.iter (S n) f start)) as Hs by (split; [apply Hgrow|set_solver]).
    apply subset_size in Hs. simpl in *. lia.
Qed.

Lemma iter_fixpoint : f (Nat.iter (size universe) f start) = Nat.iter (size universe) f start.
Proof.
  destruct (iter_size (size universe)) as [(k & Hk & Hf)|Hlarge].
  - by rewrite (iter_stable k (size universe)).
  - exfalso. pose proof (iter_subseteq (S (size universe))) as Hsub. apply subseteq_size in Hsub.
    rewrite size_union_alt in Hsub. pose proof (subseteq_size (universe ∖ start) universe ltac:(set_solver)). lia.
Qed.
End iteration.

(** ** The recursive queries *)

Definition parent_of (t : Table) (x y : str) : Prop :=
  ∃ row, t !! x = Some row ∧ r_parent_id row = Some y.

Lemma parent_of_det t x y z : parent_of t x y → parent_of t x z → y = z.
Proof. intros (r & Hr & Hy) (r' & Hr' & Hz). congruence. Qed.

Lemma descend_spec t known x : x ∈ descend t known ↔ x ∈ known ∨ ∃ p, parent_of t x p ∧ p ∈ known.
Proof.
  unfold descend. rewrite elem_of_union, elem_of_dom. apply or_iff_compat_l. split.
  - intros [row [Hrow Hc]%map_lookup_filter_Some]. unfold child_of in Hc. simpl in Hc.
    destruct (r_parent_id row) as [p|] eqn:Hp; [|done]. exists p. split; [by exists row|done].
  - intros (p & (row & Hrow & Hp) & Hin). exists row. apply map_lookup_filter_Some. split; [done|].
    unfold child_of. simpl. by rewrite Hp.
Qed.

Lemma ascend_spec t known x :
  x ∈ ascend t known ↔ x ∈ known ∨ is_Some (t !! x) ∧ ∃ c, c ∈ known ∧ parent_of t c x.
Proof.
  unfold ascend. rewrite elem_of_union, elem_of_filter. apply or_iff_compat_l, and_iff_compat_l.
  rewrite elem_of_set_omap. split.
  - intros (c & Hc & Hp). destruct (t !! c) as [row|] eqn:Hrow; [|done]. exists c. split; [done|by exists row].
  - intros (c & Hc & (row & Hrow & Hp)). exists c. split; [done|]. by rewrite Hrow.
Qed.

Lemma subtree_ids_spec t root x : x ∈ subtree_ids t root ↔ rtc (parent_of t) x root.
Proof.
  unfold subtree_ids. rewrite saturate_iter. split.
  - generalize (size t). intros n. revert x. induction n as [|n IH]; intros x; simpl.
    + intros ->%elem_of_singleton. reflexivity.
    + intros [Hx|(p & Hp & Hin)]%descend_spec; [by apply IH|]. eapply rtc_l; [done|]. by apply IH.
  - assert (descend t (Nat.iter (size t) (descend t) {[root]}) = Nat.iter (size t) (descend t) {[root]}) as Hfix.
    { rewrite <- (size_dom t). apply iter_fixpoint.
      - intros s y Hy. apply descend_spec. by left.
      - intros s y [Hy|(p & (row & Hrow & _) & _)]%descend_spec; [set_solver|].
        apply elem_of_union_r, elem_of_dom. by eexists. }
    intros Hx. induction Hx as [x|x y z Hxy _ IH].
    + eapply iter_grows; [|set_solver]. intros s y Hy. apply descend_spec. by left.
    + rewrite <- Hfix. apply descend_spec. right. exists y. split; [done|by apply IH].
Qed.

Lemma ancestor_ids_spec t requested :
  (∀ x, x ∈ ancestor_ids t requested → is_Some (t !! x)) ∧
  (∀ x, x ∈ requested → is_Some (t !! x) → x ∈ ancestor_ids t requested) ∧
  (∀ x p, x ∈ ancestor_ids t requested → parent_of t x p → is_Some (t !! p) →
     p ∈ ancestor_ids t requested).
Proof.
  unfold ancestor_ids. rewrite saturate_iter. set (start := filter _ _).
  assert (∀ s, s ⊆ ascend t s) as Hgrow by (intros s y Hy; apply ascend_spec; by left).
  assert (ascend t (Nat.iter (size t) (ascend t) start) = Nat.iter (size t) (ascend t) start) as Hfix.
  { rewrite <- (size_dom t). apply iter_fixpoint; [done|].
    intros s y [Hy|[Hp _]]%ascend_spec; [set_solver|]. by apply elem_of_union_r, elem_of_dom. }
  split_and!.
  - generalize (size t). intros n. induction n as [|n IH]; intros x; simpl.
    + intros [Hx _]%elem_of_filter. done.
    + intros [Hx|[Hx _]]%ascend_spec; [by apply IH|done].
  - intros x Hx Hp. apply (iter_grows _ _ Hgrow). apply elem_of_filter. set_solver.
  - intros x p Hx Hp Hs. rewrite <- Hfix. apply ascend_spec. right. split; [done|]. by exists x.
Qed.

(** ** Trees of rows *)

Record tree_ok (t : Table) (root : str) : Prop := {
  tree_root : ∃ row, t !! root = Some row ∧ r_parent_id row = None;
  tree_reaches id : is_Some (t !! id) → rtc (parent_of t) id root
}.

Lemma tree_parent t root id p : tree_ok t root → parent_of t id p → is_Some (t !! p).
Proof.
  intros [(row & Hroot & Hnone) Hreach] Hp. destruct Hp as (r & Hr & Hp).
  destruct (Hreach id) as [x|x y z Hxy Hyz]; [by eexists|congruence|].
  assert (y = p) as -> by (eapply parent_of_det; [done|by exists r]).
  inversion Hyz; subst; [by eexists|]. destruct H as (r' & ? & _). by eexists.
Qed.

Lemma chain_mono t t' x y :
  (∀ a b, parent_of t a b → parent_of t' a b) → rtc (parent_of t) x y → rtc (parent_of t') x y.
Proof. intros Hsub. induction 1 as [|a b c Hab _ IH]; [reflexivity|]. eapply rtc_l; eauto. Qed.

Lemma tree_no_cycle t root id : tree_ok t root → ¬ tc (parent_of t) id id.
Proof.
  intros [(row & Hroot & Hnone) Hreach] Hcycle.
  assert (is_Some (t !! id)) as Hid by (inversion Hcycle as [? ? (r & ? & _)|? ? ? (r & ? & _)]; by eexists).
  (* a cycle is closed under the unique parent, so that it would contain the root *)
  assert (∀ x, rtc (parent_of t) id x → tc (parent_of t) x x) as Hall.
  { intros x Hx. induction Hx as [x|x y z Hxy _ IH]; [done|]. apply IH; clear IH.
    - inversion Hcycle as [? ? Hxx|? y' ? Hxy' Hyx]; subst.
      + assert (y = x) as -> by (by eapply parent_of_det). done.
      + assert (y' = y) as -> by (by eapply parent_of_det). eapply tc_r; done.
    - destruct Hxy as (r & Hr & Hp). eapply tree_parent; [split; [by exists row|exact Hreach]|by exists r]. }
  specialize (Hall root (Hreach id Hid)).
  inversion Hall as [? ? (r & ? & ?)|? ? ? (r & ? & ?)]; congruence.
Qed.

(** ** Rows and nodes *)

Local Open Scope Z_scope.

Lemma from_storage_Ok s d : from_storage s = Ok d ↔ s = as_str d.
Proof.
  split; [|intros ->; by destruct d]. unfold from_storage, corrupt.
  repeat match goal with
  | |- context [if ?a =s ?b then _ else _] => destruct (str_eqb_spec a b) as [->|_]; [by intros [= <-]|]
  end. done.
Qed.

Lemma stored_node_from_row_Ok id row n :
  stored_node_from_row id row = Ok n ↔
  ∃ d, r_owner_domain row = as_str d ∧ 0 <= r_node_revision row ∧
       n = mkNode id (r_parent_id row) (r_order_key row) d (r_node_revision row) (r_body_sexpr row)
             (r_content_hash row) (r_subtree_hash row).
Proof.
  unfold stored_node_from_row, u64_try_from. split.
  - intros (d & Hd & (r & Hr & Hn)%bind_Ok)%bind_Ok. apply from_storage_Ok in Hd.
    destruct (Z.leb_spec 0 (r_node_revision row)); [|done]. injection Hr as <-. injection Hn as <-.
    by exists d.
  - intros (d & Hd & Hr & ->). apply from_storage_Ok in Hd. rewrite Hd. simpl.
    destruct (Z.leb_spec 0 (r_node_revision row)); [done|lia].
Qed.

Lemma load_node_Ok t id n :
  load_node t id = Ok n → ∃ row, t !! id = Some row ∧ stored_node_from_row id row = Ok n.
Proof. unfold load_node. destruct (t !! id) as [row|]; [|done]. by exists row. Qed.

(** ** Children *)

Lemma elem_child_descriptors t p k c h :
  (k, c, h) ∈ child_descriptors t p ↔
  ∃ row, t !! c = Some row ∧ r_parent_id row = Some p ∧ k = r_order_key row ∧ h = r_subtree_hash row.
Proof.
  unfold child_descriptors. rewrite list_elem_of_fmap. split.
  - intros ((c' & row) & [= -> -> ->] & Hin). apply list_elem_of_filter in Hin as [Hp Hin].
    apply elem_of_map_to_list in Hin. by exists row.
  - intros (row & Hrow & Hp & -> & ->). exists (c, row). split; [done|].
    apply list_elem_of_filter. split; [done|]. by apply elem_of_map_to_list.
Qed.

Lemma child_descriptors_NoDup t p : NoDup (child_descriptors t p).
Proof.
  apply NoDup_fmap_2_strong.
  - intros [c row] [c' row'] H1 H2 [= Hk Hc Hh]. subst c'.
    apply list_elem_of_filter in H1 as [_ H1], H2 as [_ H2]. apply elem_of_map_to_list in H1, H2.
    simpl in *. congruence.
  - apply NoDup_filter, NoDup_map_to_list.
Qed.

#[export] Instance child_cmp_ok : Comparison child_cmp.
Proof. unfold child_cmp. apply _. Qed.

Lemma child_cmp_Eq a b : child_cmp a b = Eq → a.1.2 = b.1.2.
Proof. unfold child_cmp. by intros [_ ?%str_cmp_eq]%then_with_eq. Qed.

Lemma child_descriptors_separated t p x y :
  x ∈ child_descriptors t p → y ∈ child_descriptors t p → child_cmp x y = Eq → x = y.
Proof.
  destruct x as [[k c] h], y as [[k' c'] h']. rewrite !elem_child_descriptors.
  intros (r & Hr & _ & -> & ->) (r' & Hr' & _ & -> & ->) Hc%child_cmp_Eq. simpl in Hc. congruence.
Qed.

Lemma load_child_hashes_elem t p d : d ∈ load_child_hashes t p ↔ d ∈ child_descriptors t p.
Proof. unfold load_child_hashes. by rewrite merge_sort_Permutation. Qed.

(** A sorted list of children is determined by its elements. *)
Lemma load_child_hashes_unique t p l :
  NoDup l → (∀ d, d ∈ l ↔ d ∈ child_descriptors t p) → StronglySorted (not_gt child_cmp) l →
  load_child_hashes t p = l.
Proof.
  intros Hnd Hl Hs. apply (StronglySorted_unique_strong (not_gt child_cmp)).
  - intros x y. rewrite load_child_hashes_elem, Hl. intros Hx Hy H1 H2.
    eapply child_descriptors_separated; [done..|]. by apply not_gt_antisym; [apply _|..].
  - apply StronglySorted_merge_sort; apply _.
  - done.
  - unfold load_child_hashes. rewrite merge_sort_Permutation. apply NoDup_Permutation; [|done|].
    + apply child_descriptors_NoDup.
    + intros d. by rewrite Hl.
Qed.

Lemma load_child_hashes_NoDup t p : NoDup (load_child_hashes t p).
Proof. unfold load_child_hashes. rewrite merge_sort_Permutation. apply child_descriptors_NoDup. Qed.

Lemma load_child_hashes_sorted t p : StronglySorted (not_gt child_cmp) (load_child_hashes t p).
Proof. apply StronglySorted_merge_sort; apply _. Qed.

Lemma load_child_hashes_ext t t' p :
  (∀ c row, r_parent_id row = Some p → t !! c = Some row ↔ t' !! c = Some row) →
  load_child_hashes t p = load_child_hashes t' p.
Proof.
  intros H. apply load_child_hashes_unique; [apply load_child_hashes_NoDup| |apply load_child_hashes_sorted].
  intros [[k c] h]. rewrite load_child_hashes_elem, !elem_child_descriptors.
  split; intros (row & Hrow & Hp & Hk & Hh); exists row; (split; [by apply H|done]).
Qed.

Lemma load_child_hashes_nil t p : (∀ c, ¬ parent_of t c p) → load_child_hashes t p = [].
Proof.
  intros H. apply load_child_hashes_unique; [constructor| |constructor].
  intros [[k c] h]. rewrite elem_child_descriptors. split; [by intros ?%elem_of_nil|].
  intros (row & Hrow & Hp & _). exfalso. apply (H c). by exists row.
Qed.

(** ** The invariant of a transaction *)

Section invariant.
Context `{Digest}.

(** The text of a canonical node body: a list that starts with a non-empty atom. *)
Definition body_ok (body : str) : Prop :=
  ∃ c s items, body = to_string (List (Atom (c :: s) :: items)) ∧
               (sdepth (List (Atom (c :: s) :: items)) <= 128)%N.

Record row_ok (row : NodeRow) : Prop := {
  row_owner : ∃ d, r_owner_domain row = as_str d;
  row_revision : 1 <= r_node_revision row <= i64_max;
  row_body : body_ok (r_body_sexpr row);
  row_content : r_content_hash row = digest_bytes (utf8 (r_body_sexpr row))
}.

(** The hash a row should have, from the stored hashes of its children. *)
Definition row_hash (t : Table) (id : str) (row : NodeRow) : str :=
  hash_context_node id (r_owner_domain row) (r_body_sexpr row) (load_child_hashes t id).

Record progress_ok (root : str) (p : Progress) : Prop := {
  progress_tree : tree_ok (rows p) root;
  progress_rows : map_Forall (λ _, row_ok) (rows p);
  progress_hashes id row :
    rows p !! id = Some row → id ∉ dirty p → r_subtree_hash row = row_hash (rows p) id row
}.

Definition operation_ok (o : ContextOperation) : Prop :=
  match o with
  | InsertNode node => body_ok (d_body_sexpr node)
  | ReplaceNode _ _ body => body_ok body
  | _ => True
  end.

Lemma canonicalize_body_Ok input b h :
  canonicalize_body input = Ok (b, h) → body_ok b ∧ h = digest_bytes (utf8 b).
Proof.
  unfold canonicalize_body, invalid. intros (forms & Hp & Hc)%bind_Ok. apply map_err_Ok, sexpr_forms_nested in Hp.
  destruct forms as [|[s|items] [|? ?]]; try done. destruct items as [|[[|c s]|l] items]; try done.
  injection Hc as <- <-. split; [|done]. exists c, s, items. split; [done|]. by inversion Hp.
Qed.

Lemma canonicalize_body_canonical b : body_ok b → canonicalize_body b = Ok (b, digest_bytes (utf8 b)).
Proof.
  intros (c & s & items & -> & Hd). unfold canonicalize_body. by rewrite parse_all_print.
Qed.

Lemma root_not_below t root id : tree_ok t root → id ≠ root → ¬ rtc (parent_of t) root id.
Proof.
  intros [(row & Hroot & Hnone) _] Hne Hr. destruct Hr as [|x y z (r & ? & ?) _]; congruence.
Qed.

(** *** Insert *)

Lemma tree_ok_insert t root id parent row :
  tree_ok t root → t !! id = None → is_Some (t !! parent) → r_parent_id row = Some parent →
  tree_ok (<[id := row]> t) root.
Proof.
  intros [(r0 & Hroot & Hnone) Hreach] Hid Hparent Hp.
  assert (∀ x, is_Some (t !! x) → rtc (parent_of (<[id := row]> t)) x root) as Hold.
  { intros x Hx. apply (chain_mono t); [|by apply Hreach]. intros a b (r & Hr & Hb).
    exists r. split; [|done]. rewrite lookup_insert_ne; [done|congruence]. }
  split.
  - exists r0. split; [|done]. rewrite lookup_insert_ne; [done|congruence].
  - intros x Hx. destruct (decide (x = id)) as [->|Hne]; [|apply Hold; by rewrite lookup_insert_ne in Hx].
    eapply rtc_l; [|by apply Hold]. exists row. by rewrite lookup_insert_eq.
Qed.

Lemma insert_node_ok root authority p node p' :
  progress_ok root p → body_ok (d_body_sexpr node) → insert_node authority p node = Ok p' →
  progress_ok root p'.
Proof.
  intros [Htree Hrows Hhash] Hbody Hi. unfold insert_node in Hi. res_inv.
  unfold node_exists in Hi. destruct (rows p !! d_node_id node) eqn:Hid; [done|]. simpl in Hi. res_inv.
  match goal with HH : load_node _ _ = Ok _ |- _ => apply load_node_Ok in HH as (prow & Hprow & _) end.
  match goal with |- progress_ok _ (mkProgress (<[_ := mkRow (Some ?q) _ _ _ _ _ _]> _) _ _) => set (parent := q) in * end.
  assert (parent ≠ d_node_id node) as Hne by congruence.
  assert (∀ c, ¬ parent_of (rows p) c (d_node_id node)) as Hnochild.
  { intros c Hc. apply (tree_parent _ _ _ _ Htree) in Hc as [? ?]. congruence. }
  split; simpl.
  - eapply tree_ok_insert; [done..|by eexists|done].
  - apply map_Forall_insert_2; [|done]. split; simpl; [by eexists|unfold i64_max; lia|done|done].
  - intros id row Hrow Hdirty. rewrite bs_insert_In in Hdirty. unfold row_hash.
    destruct (decide (id = d_node_id node)) as [->|Hid'].
    + rewrite lookup_insert_eq in Hrow. injection Hrow as <-. simpl.
      rewrite load_child_hashes_nil; [done|]. intros c (r & Hr & Hp).
      destruct (decide (c = d_node_id node)) as [->|Hc].
      * rewrite lookup_insert_eq in Hr. injection Hr as <-. simpl in Hp. congruence.
      * rewrite lookup_insert_ne in Hr by done. apply (Hnochild c). by exists r.
    + rewrite lookup_insert_ne in Hrow by done. rewrite (Hhash id row) by tauto. unfold row_hash. f_equal.
      apply load_child_hashes_ext. intros c r Hp. destruct (decide (c = d_node_id node)) as [->|Hc].
      * rewrite lookup_insert_eq, Hid. split; [done|]. intros [= <-]. simpl in Hp. exfalso. apply Hdirty. left. congruence.
      * by rewrite lookup_insert_ne.
Qed.

(** *** Replace *)

Lemma next_revision_Ok n next :
  next_revision n = Ok next → next = node_revision n + 1 ∧ next <= i64_max.
Proof.
  unfold next_revision, u64_checked_succ, i64_try_from. intros Hn. res_inv.
  destruct (_ <? _); [|done]. injection Ha as <-.
  destruct (Z.leb_spec (node_revision n + 1) i64_max); [|done]. injection Ha0 as <-. done.
Qed.

Lemma update_at_loaded t id n f row :
  t !! id = Some row → stored_node_from_row id row = Ok n →
  update_at t id (node_revision n) f = <[id := f row]> t.
Proof.
  intros Hrow (d & _ & _ & ->)%stored_node_from_row_Ok. unfold update_at. rewrite Hrow. simpl.
  by rewrite Z.eqb_refl.
Qed.

(** Rows that keep their parents keep the tree. *)
Lemma tree_ok_same_parent t root id row row' :
  tree_ok t root → t !! id = Some row → r_parent_id row' = r_parent_id row →
  tree_ok (<[id := row']> t) root.
Proof.
  intros [(r0 & Hroot & Hnone) Hreach] Hid Hp.
  assert (∀ a b, parent_of t a b → parent_of (<[id := row']> t) a b) as Hsub.
  { intros a b (r & Hr & Hb). destruct (decide (a = id)) as [->|Hne].
    - exists row'. rewrite lookup_insert_eq. split; [done|congruence].
    - exists r. by rewrite lookup_insert_ne. }
  split.
  - destruct (decide (root = id)) as [->|Hne].
    + exists row'. rewrite lookup_insert_eq. split; [done|congruence].
    + exists r0. by rewrite lookup_insert_ne.
  - intros x Hx. apply (chain_mono t); [done|]. apply Hreach.
    destruct (decide (x = id)) as [->|Hne]; [by eexists|by rewrite lookup_insert_ne in Hx].
Qed.

Lemma tree_no_loop t root id row : tree_ok t root → t !! id = Some row → r_parent_id row ≠ Some id.
Proof. intros Ht Hrow Hp. apply (tree_no_cycle t root id Ht). apply tc_once. by exists row. Qed.

Lemma replace_node_ok root authority p id expected body p' :
  progress_ok root p → body_ok body → replace_node authority p id expected body = Ok p' →
  progress_ok root p'.
Proof.
  intros [Htree Hrows Hhash] Hbody Hr. unfold replace_node in Hr.
  apply bind_Ok in Hr as (cur & (row & Hrow & Hcur)%load_node_Ok & Hr).
  apply bind_Ok in Hr as (u & _ & Hr). destruct (negb _); [done|].
  apply bind_Ok in Hr as (next & [-> Hnext]%next_revision_Ok & [= <-]).
  pose proof (Hrows id row Hrow) as [[d Hd] Hrev _ _].
  pose proof Hcur as Hcur'. apply stored_node_from_row_Ok in Hcur' as (d' & Hd' & _ & Hn).
  split; simpl; rewrite (update_at_loaded _ _ _ _ row) by done.
  - by eapply tree_ok_same_parent.
  - apply map_Forall_insert_2; [|done]. subst cur. simpl in *. split; simpl; [by exists d|lia|done|done].
  - intros x rx Hrx Hdirty. unfold row_hash.
    assert (r_parent_id row ≠ Some x) as Hpx.
    { intros Hpx. apply Hdirty. subst cur. simpl. rewrite Hpx. apply bs_insert_In. by left. }
    rewrite <- (load_child_hashes_ext (rows p) (<[id := _]> (rows p)) x).
    2: { intros c r Hp. destruct (decide (c = id)) as [->|Hc]; [|by rewrite lookup_insert_ne].
         rewrite lookup_insert_eq, Hrow. split; [congruence|]. intros [= <-]. simpl in Hp. congruence. }
    destruct (decide (x = id)) as [->|Hx].
    + rewrite lookup_insert_eq in Hrx. injection Hrx as <-. simpl. subst cur. simpl.
      unfold calculate_subtree_hash. congruence.
    + rewrite lookup_insert_ne in Hrx by done. apply Hhash; [done|]. intros Hin. apply Hdirty.
      destruct (parent_id cur); [apply bs_insert_In; by right|done].
Qed.

(** *** Delete *)

Lemma dirty_subset (o : option str) (d : list str) x :
  x ∈ d → x ∈ match o with Some q => bs_insert q d | None => d end.
Proof. destruct o; [rewrite bs_insert_In; by right|done]. Qed.

Lemma tree_ok_delete t root id :
  tree_ok t root → ¬ rtc (parent_of t) root id →
  tree_ok (filter (λ r, r.1 ∉ subtree_ids t id) t) root.
Proof.
  intros [(r0 & Hroot & Hnone) Hreach] Hbelow. split.
  - exists r0. split; [|done]. apply map_lookup_filter_Some. split; [done|]. simpl. by rewrite subtree_ids_spec.
  - intros x [rx [Hrx Hx]%map_lookup_filter_Some]. simpl in Hx. rewrite subtree_ids_spec in Hx.
    assert (rtc (parent_of t) x root) as Hchain by (apply Hreach; by eexists). clear rx Hrx.
    revert Hx. pattern x. revert x Hchain. apply rtc_ind_l; [reflexivity|]. intros x y Hxy Hyz IH Hx.
    assert (¬ rtc (parent_of t) y id) as Hy by (intros Hy; apply Hx; by eapply rtc_l).
    eapply rtc_l; [|by apply IH]. destruct Hxy as (r & Hr & Hp). exists r. split; [|done].
    apply map_lookup_filter_Some. split; [done|]. simpl. by rewrite subtree_ids_spec.
Qed.

Lemma delete_subtree_ok root authority p id expected p' :
  progress_ok root p → delete_subtree root authority p id expected = Ok p' → progress_ok root p'.
Proof.
  intros [Htree Hrows Hhash] Hd. unfold delete_subtree in Hd.
  destruct (str_eqb_spec id root) as [|Hne]; [done|].
  apply bind_Ok in Hd as (target & (row & Hrow & Htarget)%load_node_Ok & Hd).
  destruct (negb _); [done|]. apply bind_Ok in Hd as (subtree & _ & Hd).
  apply bind_Ok in Hd as (u & _ & Hd). apply bind_Ok in Hd as (dirty' & Hdirty' & [= <-]).
  assert (dirty' = match r_parent_id row with Some q => bs_insert q (dirty p) | None => dirty p end) as ->.
  { apply stored_node_from_row_Ok in Htarget as (d & _ & _ & ->). simpl in Hdirty'.
    destruct (r_parent_id row); res_inv; done. }
  pose proof (root_not_below _ _ id Htree Hne) as Hbelow. split; simpl.
  - by apply tree_ok_delete.
  - intros x rx [Hrx _]%map_lookup_filter_Some. by eapply Hrows.
  - intros x rx [Hrx Hx]%map_lookup_filter_Some Hdirty. simpl in Hx. rewrite subtree_ids_spec in Hx.
    rewrite (Hhash x rx Hrx) by (intros Hin; apply Hdirty; by apply dirty_subset). unfold row_hash. f_equal.
    apply load_child_hashes_ext. intros c r Hp. rewrite map_lookup_filter_Some. simpl.
    split; [|tauto]. intros Hr. split; [done|]. rewrite subtree_ids_spec. intros Hc.
    apply rtc_inv in Hc as [->|(y & (r' & Hr' & Hy) & Hyid)].
    + apply Hdirty. replace row with r by congruence. rewrite Hp. apply bs_insert_In. by left.
    + apply Hx. by replace x with y by congruence.
Qed.

(** *** Move *)

Lemma move_chain_Ok n t id new_parent current visited :
  move_chain n t id new_parent current visited = Ok tt →
  match current with Some c => ¬ rtc (parent_of t) c id | None => True end.
Proof.
  revert current visited. induction n as [|n IH]; intros current visited; [done|]. simpl.
  destruct current as [c|]; [|done]. destruct (str_eqb_spec c id) as [|Hne]; [done|].
  case_bool_decide; [done|]. destruct (t !! c) as [row|] eqn:Hrow; [|done].
  intros Hn%IH Hc. apply rtc_inv in Hc as [|(y & (r & Hr & Hy) & Hrest)]; [done|].
  rewrite Hrow in Hr. injection Hr as <-. by rewrite Hy in Hn.
Qed.

Lemma tree_ok_move t root id row row' new_parent :
  tree_ok t root → id ≠ root → t !! id = Some row → is_Some (t !! new_parent) →
  ¬ rtc (parent_of t) new_parent id → r_parent_id row' = Some new_parent →
  tree_ok (<[id := row']> t) root.
Proof.
  intros [(r0 & Hroot & Hnone) Hreach] Hne Hid Hnew Hacyclic Hp'.
  assert (∀ x, rtc (parent_of t) x root → ¬ rtc (parent_of t) x id →
               rtc (parent_of (<[id := row']> t)) x root) as Haway.
  { intros x Hchain. pattern x. revert x Hchain. apply rtc_ind_l; [reflexivity|]. intros x y Hxy _ IH Hx.
    assert (x ≠ id) as Hxid by (intros ->; by apply Hx). destruct Hxy as (r & Hr & Hy).
    eapply rtc_l; [exists r; rewrite lookup_insert_ne by done; split; [exact Hr|exact Hy]|].
    apply IH. intros Hyid. apply Hx. eapply rtc_l; [by exists r|done]. }
  assert (rtc (parent_of (<[id := row']> t)) id root) as Hmoved.
  { eapply rtc_l; [exists row'; by rewrite lookup_insert_eq|]. by apply Haway; [apply Hreach|]. }
  split; [exists r0; by rewrite lookup_insert_ne|].
  intros x Hx. destruct (decide (x = id)) as [->|Hxid]; [done|]. rewrite lookup_insert_ne in Hx by done.
  specialize (Hreach x Hx). clear Hx. revert Hxid. pattern x. revert x Hreach.
  apply rtc_ind_l; [reflexivity|]. intros x y (r & Hr & Hy) _ IH Hxid.
  eapply rtc_l; [exists r; rewrite lookup_insert_ne by done; split; [exact Hr|exact Hy]|].
  destruct (decide (y = id)) as [->|Hyid]; [done|]. by apply IH.
Qed.

Lemma move_subtree_ok root authority p id revision hash new_parent new_order p' :
  progress_ok root p →
  move_subtree root authority p id revision hash new_parent new_order = Ok p' → progress_ok root p'.
Proof.
  intros [Htree Hrows Hhash] Hm. unfold move_subtree in Hm.
  destruct (str_eqb_spec id root) as [|Hne]; [done|].
  apply bind_Ok in Hm as (target & (row & Hrow & Htarget)%load_node_Ok & Hm).
  destruct (_ || _); [done|]. apply bind_Ok in Hm as (subtree & _ & Hm).
  apply bind_Ok in Hm as (u1 & _ & Hm). apply bind_Ok in Hm as (np & (nrow & Hnrow & _)%load_node_Ok & Hm).
  apply bind_Ok in Hm as (u2 & _ & Hm). apply bind_Ok in Hm as ([] & Hacyclic%move_chain_Ok & Hm).
  apply bind_Ok in Hm as (dirty' & Hdirty' & Hm).
  apply bind_Ok in Hm as (next & [-> Hnext]%next_revision_Ok & [= <-]).
  assert (dirty' = match r_parent_id row with Some q => bs_insert q (dirty p) | None => dirty p end) as ->.
  { apply stored_node_from_row_Ok in Htarget as (d & _ & _ & ->). simpl in Hdirty'.
    destruct (r_parent_id row); res_inv; done. }
  pose proof (Hrows id row Hrow) as [[d Hd] Hrev Hbody Hcontent].
  assert (node_revision target = r_node_revision row) as Hnrev
    by (apply stored_node_from_row_Ok in Htarget as (? & _ & _ & ->); done).
  split; simpl; rewrite (update_at_loaded _ _ _ _ row) by done.
  - eapply tree_ok_move; [done..|by eexists|done|done].
  - apply map_Forall_insert_2; [|done]. split; simpl; [by exists d|lia|done|done].
  - intros x rx Hrx Hdirty. rewrite bs_insert_In in Hdirty. unfold row_hash.
    rewrite <- (load_child_hashes_ext (rows p) (<[id := _]> (rows p)) x).
    2: { intros c r Hp. destruct (decide (c = id)) as [->|Hc]; [|by rewrite lookup_insert_ne].
         rewrite lookup_insert_eq, Hrow. split.
         - intros [= <-]. exfalso. apply Hdirty. right. rewrite Hp. apply bs_insert_In. by left.
         - intros [= <-]. simpl in Hp. exfalso. apply Hdirty. left. congruence. }
    assert (x ∉ dirty p) as Hold by (intros Hin; apply Hdirty; right; by apply dirty_subset).
    destruct (decide (x = id)) as [->|Hx].
    + rewrite lookup_insert_eq in Hrx. injection Hrx as <-. simpl. by apply Hhash.
    + rewrite lookup_insert_ne in Hrx by done. by apply Hhash.
Qed.

Lemma apply_operation_ok root authority p o p' :
  progress_ok root p → operation_ok o → apply_operation root authority p o = Ok p' → progress_ok root p'.
Proof.
  intros Hp Ho. destruct o as [node|id e body|id h|id e h np order]; simpl in *.
  - by apply insert_node_ok.
  - by apply replace_node_ok.
  - by apply delete_subtree_ok.
  - by apply move_subtree_ok.
Qed.

Lemma apply_operations_ok root authority l p p' :
  progress_ok root p → Forall operation_ok l →
  foldM (apply_operation root authority) p l = Ok p' → progress_ok root p'.
Proof.
  intros Hp Hl. revert p Hp. induction Hl as [|o l Ho _ IH]; intros p Hp; simpl.
  - by intros [= <-].
  - intros (q & Hq & Hr)%bind_Ok. eapply IH; [|exact Hr]. by eapply apply_operation_ok.
Qed.
End invariant.
