(* ===== verification/ContextHashes.v ===== *)
(** * The hashes after a transaction

    [recompute_dirty_hashes] visits the dirty nodes and their ancestors, children before
    parents, and leaves every stored hash right; nothing else of a row changes. *)

From stdpp Require Import base list gmap sets sorting relations strings.
From Stdlib Require Import ZArith Lia.
From S2P Require Import Prelude Ordering JsonValue Types Diagnostic Text Sexpr SexprFacts ContextDb ContextTree.

(** ** Loops and rows *)

Lemma foldM_ind {E A S} (f : S → A → result E S) (P : list A → S → Prop) l s0 s :
  P [] s0 →
  (∀ d x r s s', l = d ++ x :: r → P d s → f s x = Ok s' → P (d ++ [x]) s') →
  foldM f s0 l = Ok s → P l s.
Proof.
  intros H0 Hstep. assert (∀ d r s0, l = d ++ r → P d s0 → foldM f s0 r = Ok s → P l s) as Hgen.
  { intros d r. revert d. induction r as [|x r IH]; intros d s1 Hl Hd; simpl.
    - intros [= <-]. by rewrite Hl, app_nil_r.
    - intros (s2 & Hf & Hr)%bind_Ok. apply (IH (d ++ [x]) s2); [by rewrite <- app_assoc| |done].
      by eapply Hstep. }
  by apply (Hgen [] l).
Qed.

Lemma foldM_each {E A S} (f : S → A → result E S) l s0 s x :
  foldM f s0 l = Ok s → x ∈ l → ∃ s1 s2, f s1 x = Ok s2.
Proof.
  revert s0. induction l as [|y l IH]; intros s0; simpl; [by intros _ ?%elem_of_nil|].
  intros (s1 & H1 & H2)%bind_Ok [->|Hx]%elem_of_cons; [by exists s0, s1|by eapply IH].
Qed.

Lemma load_rows_ids l ns : load_rows l = Ok ns → map node_id ns = map fst l.
Proof.
  intros Hl%traverse_Ok. induction Hl as [|[id row] n l ns Hn _ IH]; [done|]. simpl. rewrite IH. f_equal.
  simpl in Hn. apply stored_node_from_row_Ok in Hn as (d & _ & _ & ->). done.
Qed.

Lemma load_rows_elem l ns n :
  load_rows l = Ok ns → n ∈ ns ↔ ∃ row, (node_id n, row) ∈ l ∧ stored_node_from_row (node_id n) row = Ok n.
Proof.
  intros Hl%traverse_Ok. induction Hl as [|[id row] m l ns Hm _ IH].
  { split; [by intros ?%elem_of_nil|]. by intros (row & ?%elem_of_nil & _). }
  simpl in Hm. assert (node_id m = id) as Hid by (apply stored_node_from_row_Ok in Hm as (d & _ & _ & ->); done).
  rewrite elem_of_cons, IH. split.
  - intros [->|(r & Hr & Hn)]; [exists row; rewrite Hid; split; [by left|done]|exists r; split; [by right|done]].
  - intros (r & [Heq|Hr]%elem_of_cons & Hn); [left; congruence|right; by exists r].
Qed.

Lemma by_id_lookup l ns id n :
  NoDup (map fst l) → load_rows l = Ok ns →
  by_id ns !! id = Some n ↔ ∃ row, (id, row) ∈ l ∧ stored_node_from_row id row = Ok n.
Proof.
  intros Hnd Hl. unfold by_id. rewrite <- elem_of_list_to_map.
  2: { rewrite <- (load_rows_ids _ _ Hl) in Hnd. by rewrite map_map. }
  rewrite list_elem_of_fmap. split.
  - intros (m & [= -> ->] & Hm). by apply (load_rows_elem _ _ _ Hl) in Hm.
  - intros (row & Hrow & Hn). exists n.
    assert (node_id n = id) as Hid by (apply stored_node_from_row_Ok in Hn as (d & _ & _ & ->); done).
    split; [by rewrite Hid|]. apply (load_rows_elem _ _ _ Hl). exists row. by rewrite Hid.
Qed.

(** ** Depths *)

Section depth.
Context (affected : gmap str StoredNode).

(** The cache holds true depths. *)
Definition cache_ok (cache : gmap str N) : Prop :=
  ∀ id d, cache !! id = Some d →
    ∃ n, affected !! id = Some n ∧
         match parent_id n with
         | None => d = 0%N
         | Some p => ∃ dp, cache !! p = Some dp ∧ d = (dp + 1)%N
         end.

Lemma cache_ok_insert cache id n d :
  cache_ok cache → cache !! id = None → affected !! id = Some n →
  match parent_id n with None => d = 0%N | Some p => ∃ dp, cache !! p = Some dp ∧ d = (dp + 1)%N end →
  cache_ok (<[id := d]> cache).
Proof.
  intros Hc Hid Hn Hd x dx Hx. destruct (decide (x = id)) as [->|Hne].
  - rewrite lookup_insert_eq in Hx. injection Hx as <-. exists n. split; [done|].
    destruct (parent_id n) as [p|]; [|done]. destruct Hd as (dp & Hdp & ->). exists dp.
    split; [|done]. rewrite lookup_insert_ne; [done|congruence].
  - rewrite lookup_insert_ne in Hx by done. destruct (Hc x dx Hx) as (m & Hm & Hdm). exists m.
    split; [done|]. destruct (parent_id m) as [p|]; [|done]. destruct Hdm as (dp & Hdp & ->). exists dp.
    split; [|done]. rewrite lookup_insert_ne; [done|congruence].
Qed.

Lemma affected_node_depth_ok fuel id cache visiting d cache' :
  cache_ok cache → affected_node_depth fuel affected id cache visiting = Ok (d, cache') →
  cache_ok cache' ∧ cache ⊆ cache' ∧ cache' !! id = Some d ∧
  ∀ x, is_Some (cache' !! x) → is_Some (cache !! x) ∨ x ∉ visiting.
Proof.
  revert id cache visiting d cache'. induction fuel as [|fuel IH]; intros id cache visiting d cache' Hc; [done|].
  simpl. destruct (cache !! id) as [d0|] eqn:Hid; [intros [= <- <-]; split_and!; auto|].
  case_bool_decide as Hvisit; [done|]. intros (n & Hn%ok_or_Ok & Hr)%bind_Ok.
  apply bind_Ok in Hr as ([depth cache1] & Hdepth & Hr).
  destruct (_ <? _)%N; [done|]. injection Hr as <- <-.
  assert (cache_ok cache1 ∧ cache ⊆ cache1 ∧ cache1 !! id = None ∧
          match parent_id n with None => depth = 0%N | Some p => ∃ dp, cache1 !! p = Some dp ∧ depth = (dp + 1)%N end ∧
          ∀ x, is_Some (cache1 !! x) → is_Some (cache !! x) ∨ x ∉ visiting) as (Hc1 & Hsub & Hnone & Hd & Hvis).
  { destruct (parent_id n) as [p|]; [|by injection Hdepth as <- <-; split_and!; auto].
    destruct (negb _); [done|]. apply bind_Ok in Hdepth as ([dp cache2] & Hrec & Hdepth).
    apply bind_Ok in Hdepth as (dd & Hadd & [= <- <-]). apply ok_or_Ok in Hadd. unfold usize_checked_add in Hadd.
    destruct (_ <? _)%N; [done|]. injection Hadd as <-.
    destruct (IH _ _ _ _ _ Hc Hrec) as (H1 & H2 & H3 & H4). split_and!; [done|done| |by exists dp|].
    - apply eq_None_not_Some. intros Hs. destruct (H4 id Hs) as [[? ?]|Hv]; [congruence|set_solver].
    - intros x Hx. destruct (H4 x Hx) as [|Hv]; [by left|right; set_solver]. }
  split_and!.
  - by eapply cache_ok_insert.
  - by apply insert_subseteq_r.
  - by rewrite lookup_insert_eq.
  - intros x Hx. destruct (decide (x = id)) as [->|Hne]; [by right|].
    rewrite lookup_insert_ne in Hx by done. by apply Hvis.
Qed.

Lemma depths_ok fuel keys cache :
  foldM (λ cache id, '(_, cache) ← affected_node_depth fuel affected id cache ∅; Ok cache) ∅ keys = Ok cache →
  cache_ok cache ∧ ∀ id, id ∈ keys → is_Some (cache !! id).
Proof.
  intros Hf. pattern keys, cache. eapply foldM_ind; [| |exact Hf].
  - split; [intros id d Hd; by rewrite lookup_empty in Hd|by intros ? ?%elem_of_nil].
  - intros done_ x rest_ c c' _ [Hc Hall] ([d c1] & Hd & [= <-])%bind_Ok.
    destruct (affected_node_depth_ok _ _ _ _ _ _ Hc Hd) as (H1 & H2 & H3 & _). split; [done|].
    intros id [Hin|Hin]%elem_of_app.
    + destruct (Hall id Hin) as [d' Hd']. exists d'. by eapply lookup_weaken.
    + apply list_elem_of_singleton in Hin as ->. by eexists.
Qed.
End depth.

(** ** The loop over the affected nodes *)

Section rehash.
Context `{Digest} (t : Table) (root : str) (affected : gmap str StoredNode) (cache : gmap str N)
  (ordered : list str).
Hypothesis Htree : tree_ok t root.
Hypothesis Haffected : ∀ id n, affected !! id = Some n →
  ∃ row, t !! id = Some row ∧ stored_node_from_row id row = Ok n.
Hypothesis Hcache : cache_ok affected cache.
Hypothesis Hcached : ∀ id, id ∈ ordered → is_Some (cache !! id).
Hypothesis Hkeys : ∀ id, id ∈ ordered ↔ is_Some (affected !! id).
Hypothesis Hnodup : NoDup ordered.
Hypothesis Hsorted : StronglySorted (not_gt (deepest_first cache)) ordered.

(** The children of a node with the hashes computed so far. *)
Definition with_computed (computed : gmap str str) (l : list (Z * str * str)) : list (Z * str * str) :=
  map (λ c, (c.1, default c.2 (computed !! c.1.2))) l.

Lemma deeper_first p c d1 r : ordered = d1 ++ p :: r → c ∈ ordered → parent_of t c p → c ∈ d1.
Proof.
  intros Hord Hc Hp. pose proof Hsorted as Hs. pose proof Hc as Hc0. rewrite Hord in Hc.
  apply elem_of_app in Hc as [|[->|Hr]%elem_of_cons]; [done|exfalso; by eapply (tree_no_cycle t root), tc_once|].
  exfalso. rewrite Hord in Hs. apply StronglySorted_app_1_r in Hs.
  inversion Hs as [|? ? _ Hall]; subst. rewrite Forall_forall in Hall. specialize (Hall c Hr).
  destruct (Hcached c Hc0) as [dc Hdc]. destruct (Hcache c dc Hdc) as (n & Hn & Hd).
  destruct (Haffected c n Hn) as (row & Hrow & (d & _ & _ & ->)%stored_node_from_row_Ok). simpl in Hd.
  destruct Hp as (row' & Hrow' & Hp). replace (r_parent_id row) with (Some p) in Hd by congruence.
  destruct Hd as (dp & Hdp & ->). unfold not_gt, deepest_first, then_with in Hall. rewrite Hdc, Hdp in Hall.
  simpl in Hall. destruct (N.compare_spec (dp + 1) dp); [lia|lia|done].
Qed.

Record rehashed (done_ : list str) (s : Table * gmap str str) : Prop := {
  rehashed_keys id : is_Some (s.2 !! id) ↔ id ∈ done_;
  rehashed_rows id :
    s.1 !! id = (λ row, with_hash (default (r_subtree_hash row) (s.2 !! id)) row) <$> t !! id;
  rehashed_hash id hash :
    s.2 !! id = Some hash →
    ∃ row, t !! id = Some row ∧
      hash = hash_context_node id (r_owner_domain row) (r_body_sexpr row)
               (with_computed s.2 (load_child_hashes t id))
}.

Lemma with_hash_id row : with_hash (r_subtree_hash row) row = row.
Proof. by destruct row. Qed.

Lemma with_computed_fresh computed id hash l :
  (∀ c, c ∈ l → c.1.2 ≠ id) → with_computed (<[id := hash]> computed) l = with_computed computed l.
Proof.
  intros Hl. apply map_ext_in. intros c Hc%list_elem_of_In. rewrite lookup_insert_ne; [done|].
  intros Heq. by apply (Hl c).
Qed.

Lemma rehash_step done_ x rest_ s s' :
  ordered = done_ ++ x :: rest_ → rehashed done_ s →
  rehash_node affected (load_child_hashes t) s x = Ok s' → rehashed (done_ ++ [x]) s'.
Proof.
  intros Hord Hs Hstep. destruct s as [tc computed]. unfold rehash_node in Hstep.
  apply bind_Ok in Hstep as (n & Hn%ok_or_Ok & [= <-]).
  destruct (Haffected x n Hn) as (row & Hrow & (d & Hd & _ & ->)%stored_node_from_row_Ok). simpl.
  set (hash := calculate_subtree_hash _ _ _ _).
  assert (x ∉ done_) as Hx.
  { pose proof Hnodup as Hnd. rewrite Hord in Hnd. apply NoDup_app in Hnd as (_ & Hdisj & _).
    intros Hin. by apply (Hdisj x Hin), elem_of_cons; left. }
  destruct Hs as [Hk Hr Hh]. simpl in *.
  assert (computed !! x = None) as Hnone by (apply eq_None_not_Some; by rewrite Hk).
  (* the descriptors of a node handled before do not mention the new one *)
  assert (∀ id, id ∈ x :: done_ → ∀ c, c ∈ load_child_hashes t id → c.1.2 ≠ x) as Hfresh.
  { intros id Hid [[k c] h] Hc Heq. simpl in Heq. subst c.
    rewrite load_child_hashes_elem, elem_child_descriptors in Hc. destruct Hc as (r & Hr' & Hp & _).
    assert (parent_of t x id) as Hpar by (by exists r).
    apply elem_of_cons in Hid as [->|Hid]; [by eapply (tree_no_cycle t root), tc_once|].
    apply list_elem_of_split in Hid as (l1 & l2 & ->). apply Hx.
    rewrite <- app_assoc in Hord. simpl in Hord. apply elem_of_app. left.
    eapply (deeper_first id x l1); [exact Hord| |done]. rewrite Hord. set_solver. }
  split; simpl.
  - intros id. destruct (decide (id = x)) as [->|Hne].
    + rewrite lookup_insert_eq. split; [set_solver|by eexists].
    + rewrite lookup_insert_ne, Hk by done. set_solver.
  - intros id. assert (tc !! x = Some row) as Hx'.
    { rewrite Hr, Hrow, Hnone. simpl. by rewrite with_hash_id. }
    destruct (decide (id = x)) as [->|Hne].
    + rewrite lookup_insert_eq, Hrow. simpl. destruct (str_eqb_spec hash (r_subtree_hash row)) as [->|_].
      * by rewrite with_hash_id.
      * unfold set_hash. by rewrite lookup_alter_eq, Hx'.
    + rewrite lookup_insert_ne by done. rewrite <- Hr. destruct (hash =s _); [done|].
      unfold set_hash. by rewrite lookup_alter_ne.
  - intros id hash'. destruct (decide (id = x)) as [->|Hne].
    + rewrite lookup_insert_eq. intros [= <-]. exists row. split; [done|].
      rewrite with_computed_fresh by (apply Hfresh; by left). subst hash. unfold calculate_subtree_hash.
      by rewrite Hd.
    + rewrite lookup_insert_ne by done. intros Hid. destruct (Hh id hash' Hid) as (r & Hr' & ->).
      exists r. split; [done|]. rewrite with_computed_fresh; [done|]. apply Hfresh. right. apply Hk. by eexists.
Qed.

Lemma rehash_loop s :
  foldM (rehash_node affected (load_child_hashes t)) (t, ∅) ordered = Ok s → rehashed ordered s.
Proof.
  intros Hf. pattern ordered, s. eapply foldM_ind; [| |exact Hf].
  - split; simpl.
    + intros id. rewrite lookup_empty. split; [by intros [? ?]|by intros ?%elem_of_nil].
    + intros id. rewrite lookup_empty. destruct (t !! id); simpl; [by rewrite with_hash_id|done].
    + intros id hash Hid. by rewrite lookup_empty in Hid.
  - intros d x r s1 s2. apply rehash_step.
Qed.
End rehash.

(** Replacing hashes commutes with reading the children. *)
Lemma load_child_hashes_rehash (t t' : Table) (computed : gmap str str) p :
  (∀ id, t' !! id = (λ row, with_hash (default (r_subtree_hash row) (computed !! id)) row) <$> t !! id) →
  load_child_hashes t' p = with_computed computed (load_child_hashes t p).
Proof.
  intros Ht. apply load_child_hashes_unique.
  - apply NoDup_fmap_2_strong; [|apply load_child_hashes_NoDup].
    intros x y Hx Hy Heq. rewrite load_child_hashes_elem in Hx, Hy.
    apply (child_descriptors_separated t p); [done..|]. injection Heq as Heq _. unfold child_cmp.
    rewrite Heq. apply then_with_eq. rewrite Z.compare_eq_iff, str_cmp_eq. done.
  - intros [[k c] h]. unfold with_computed. rewrite list_elem_of_fmap, elem_child_descriptors. split.
    + intros ([[k' c'] h'] & [= -> -> ->] & Hin). rewrite load_child_hashes_elem, elem_child_descriptors in Hin.
      destruct Hin as (row & Hrow & Hp & -> & ->). simpl. rewrite Ht, Hrow. simpl. by eexists.
    + intros (row & Hrow & Hp & -> & ->). rewrite Ht in Hrow. destruct (t !! c) as [row0|] eqn:Hrow0; [|done].
      injection Hrow as <-. exists (r_order_key row0, c, r_subtree_hash row0). split; [done|].
      rewrite load_child_hashes_elem, elem_child_descriptors. by exists row0.
  - pose proof (load_child_hashes_sorted t p) as Hs.
    induction Hs as [|c l Hs IH Hall]; simpl; constructor; [exact IH|]. apply Forall_map.
    eapply Forall_impl; [exact Hall|]. intros d Hd. exact Hd.
Qed.

(** ** The whole recomputation *)

#[export] Instance option_cmp_N_on {A} (f : A → option N) :
  Comparison (λ a b, option_cmp N.compare (f b) (f a)).
Proof.
  split; intros.
  - destruct (f a), (f b); simpl; try done. apply N.compare_antisym.
  - revert H H0. unfold not_gt. destruct (f a), (f b), (f c); simpl; try done.
    rewrite !N.compare_le_iff. lia.
Qed.

#[export] Instance deepest_first_ok cache : Comparison (deepest_first cache).
Proof. unfold deepest_first. apply then_with_cmp; [apply option_cmp_N_on|apply (str_cmp_on (λ x, x))]. Qed.

Section recompute.
Context `{Digest}.

(** Every stored hash is the hash of its row and the stored hashes of its children. *)
Definition hashes_ok (t : Table) : Prop :=
  ∀ id row, t !! id = Some row → r_subtree_hash row = row_hash t id row.

(** A table with other hashes in the same rows. *)
Definition same_rows (t t' : Table) : Prop :=
  ∃ computed : gmap str str,
    ∀ id, t' !! id = (λ row, with_hash (default (r_subtree_hash row) (computed !! id)) row) <$> t !! id.

Lemma same_rows_refl t : same_rows t t.
Proof.
  exists ∅. intros id. rewrite lookup_empty. destruct (t !! id); simpl; [by rewrite with_hash_id|done].
Qed.

Lemma affected_lookup t ids ns id n :
  load_rows (filter (λ r : str * NodeRow, r.1 ∈ ids) (map_to_list t)) = Ok ns →
  by_id ns !! id = Some n ↔ id ∈ (ids : gset str) ∧ ∃ row, t !! id = Some row ∧ stored_node_from_row id row = Ok n.
Proof.
  intros Hl. rewrite (by_id_lookup (filter (λ r : str * NodeRow, r.1 ∈ ids) (map_to_list t))); [|  |done].
  2: { apply NoDup_fmap_2_strong; [|apply NoDup_filter, NoDup_map_to_list].
       intros [i r] [i' r'] [_ H1]%list_elem_of_filter [_ H2]%list_elem_of_filter Hi.
       apply elem_of_map_to_list in H1, H2. simpl in Hi. congruence. }
  split.
  - intros (row & [Hin Hrow]%list_elem_of_filter & Hn). apply elem_of_map_to_list in Hrow.
    split; [done|by exists row].
  - intros (Hid & row & Hrow & Hn). exists row. split; [|done]. apply list_elem_of_filter.
    split; [done|by apply elem_of_map_to_list].
Qed.

Lemma stored_root_ok root t h t' :
  (root ← load_node t root; Ok (subtree_hash root, t)) = Ok (h, t') →
  t' = t ∧ ∃ row, t !! root = Some row ∧ r_subtree_hash row = h.
Proof.
  intros (n & (row & Hrow & (d & _ & _ & ->)%stored_node_from_row_Ok)%load_node_Ok & [= <- <-])%bind_Ok.
  split; [done|by exists row].
Qed.

Lemma load_rows_total l ns id row :
  load_rows l = Ok ns → (id, row) ∈ l → ∃ n, stored_node_from_row id row = Ok n.
Proof.
  intros Hl%traverse_Ok Hin. induction Hl as [|[i r] n l ns Hn _ IH]; [by apply elem_of_nil in Hin|].
  apply elem_of_cons in Hin as [[= -> ->]|Hin]; [by exists n|by apply IH].
Qed.

Lemma recompute_ok root p h t' :
  progress_ok root p → recompute_dirty_hashes (rows p) root (dirty p) = Ok (h, t') →
  same_rows (rows p) t' ∧ hashes_ok t' ∧ ∃ row, t' !! root = Some row ∧ r_subtree_hash row = h.
Proof.
  intros [Htree Hrows Hhash] Hr. set (t := rows p) in *. unfold recompute_dirty_hashes in Hr.
  assert (∀ id row, t !! id = Some row → id ∉ ancestor_ids t (dirty p) → r_subtree_hash row = row_hash t id row)
    as Hclean.
  { intros id row Hrow Hid. apply Hhash; [done|]. intros Hin. apply Hid.
    apply (ancestor_ids_spec t (dirty p)); [done|by eexists]. }
  destruct (dirty p) as [|d0 ds] eqn:Hdirty.
  { apply stored_root_ok in Hr as [-> Hroot]. split_and!; [apply same_rows_refl| |done].
    intros id row Hrow. apply Hhash; [done|]. apply not_elem_of_nil. }
  rewrite <- Hdirty in *. clear d0 ds Hdirty. set (ids := ancestor_ids t (dirty p)) in *.
  destruct (ancestor_ids_spec t (dirty p)) as (Hpresent & _ & Hclosed). fold ids in Hpresent, Hclosed.
  apply bind_Ok in Hr as (ns & Hns & Hr). pose proof (affected_lookup t ids ns) as Haff.
  set (affected := by_id ns) in *.
  assert (∀ id, is_Some (affected !! id) ↔ id ∈ ids) as Hdom.
  { intros id. split; [intros [n Hn]; by apply (Haff id n Hns) in Hn as [? _]|]. intros Hid.
    destruct (Hpresent id Hid) as [row Hrow].
    destruct (load_rows_total _ _ id row Hns) as [n Hn].
    - apply list_elem_of_filter. split; [done|by apply elem_of_map_to_list].
    - exists n. apply (Haff id n Hns). split; [done|by exists row]. }
  case_bool_decide as Hempty.
  { apply stored_root_ok in Hr as [-> Hroot]. split_and!; [apply same_rows_refl| |done].
    intros id row Hrow. apply Hclean; [done|]. intros Hid. apply Hdom in Hid as [n Hn].
    by rewrite Hempty, lookup_empty in Hn. }
  apply bind_Ok in Hr as (cache & Hcache & Hr). apply depths_ok in Hcache as [Hcache Hcached].
  set (ordered := merge_sort _ _) in Hr. apply bind_Ok in Hr as ([tc computed] & Hloop & Hr).
  assert (∀ id, id ∈ ordered ↔ is_Some (affected !! id)) as Hkeys.
  { intros id. unfold ordered. rewrite merge_sort_Permutation, list_elem_of_fmap. split.
    - intros ([id' n] & -> & Hin). apply elem_of_map_to_list in Hin. by eexists.
    - intros [n Hn]. exists (id, n). split; [done|by apply elem_of_map_to_list]. }
  apply (rehash_loop t root affected cache ordered) in Hloop as [Hk Hrehash Hcomp]; simpl in *.
  2: done.
  2: { intros id n Hn. by apply (Haff id n Hns) in Hn as [_ ?]. }
  2: done.
  2: { intros id Hid. apply Hcached. unfold ordered in Hid. by rewrite merge_sort_Permutation in Hid. }
  2: done.
  2: { unfold ordered. rewrite merge_sort_Permutation. apply (NoDup_fst_map_to_list affected). }
  2: { unfold ordered. apply StronglySorted_merge_sort; apply _. }
  assert (hashes_ok tc) as Hok.
  { intros id row Hrow. unfold row_hash. rewrite (load_child_hashes_rehash t tc computed) by done.
    rewrite Hrehash in Hrow. destruct (t !! id) as [row0|] eqn:Hrow0; [|done]. injection Hrow as <-. simpl.
    destruct (computed !! id) as [hash|] eqn:Hid; simpl.
    - destruct (Hcomp id hash Hid) as (r & Hr0 & ->). by replace r with row0 by congruence.
    - rewrite (Hclean id row0) by (try done; rewrite <- Hdom, <- Hkeys, <- Hk, Hid; by intros [? ?]).
      unfold row_hash. f_equal. symmetry. rewrite <- (map_id (load_child_hashes t id)) at 2.
      apply map_ext_in. intros [[k c] hc] Hc%list_elem_of_In. simpl.
      rewrite load_child_hashes_elem, elem_child_descriptors in Hc. destruct Hc as (rc & Hrc & Hp & _).
      assert (computed !! c = None) as ->; [|done]. apply eq_None_not_Some. rewrite Hk, Hkeys, Hdom.
      intros Hc. assert (id ∈ ids) as Hin by (eapply Hclosed; [exact Hc|by exists rc|by eexists]).
      rewrite <- Hdom, <- Hkeys, <- Hk, Hid in Hin. by destruct Hin. }
  assert (same_rows t tc) as Hsame by (by exists computed).
  destruct (tree_root t root Htree) as (rrow & Hrrow & _).
  destruct (computed !! root) as [hash|] eqn:Hroot.
  - injection Hr as <- <-. split_and!; [done..|]. eexists. rewrite Hrehash, Hrrow, Hroot. done.
  - apply stored_root_ok in Hr as [-> Hr]. done.
Qed.

(** Whatever the rows, only hashes change. *)
Lemma rehash_node_rows affected children s id s' :
  rehash_node affected children s id = Ok s' → same_rows s.1 s'.1.
Proof.
  destruct s as [t computed]. unfold rehash_node. intros (n & _ & [= <-])%bind_Ok. simpl.
  set (hash := calculate_subtree_hash _ _ _ _). destruct (hash =s _); [apply same_rows_refl|].
  exists {[ id := hash ]}. intros x. unfold set_hash. destruct (decide (x = id)) as [->|Hne].
  - by rewrite lookup_alter_eq, lookup_singleton_eq.
  - rewrite lookup_alter_ne, lookup_singleton_ne by done. destruct (t !! x); simpl; [by rewrite with_hash_id|done].
Qed.

Lemma same_rows_trans t1 t2 t3 : same_rows t1 t2 → same_rows t2 t3 → same_rows t1 t3.
Proof.
  intros [c1 H1] [c2 H2]. exists (c2 ∪ c1). intros id. rewrite H2, H1. destruct (t1 !! id) as [row|]; [|done].
  simpl. f_equal. rewrite lookup_union. destruct (c2 !! id), (c1 !! id); done.
Qed.

Lemma recompute_same_rows t root d h t' :
  recompute_dirty_hashes t root d = Ok (h, t') → same_rows t t'.
Proof.
  unfold recompute_dirty_hashes. intros Hr. destruct d as [|d0 ds].
  { apply stored_root_ok in Hr as [-> _]. apply same_rows_refl. }
  apply bind_Ok in Hr as (ns & _ & Hr). case_bool_decide.
  { apply stored_root_ok in Hr as [-> _]. apply same_rows_refl. }
  apply bind_Ok in Hr as (cache & _ & Hr). apply bind_Ok in Hr as ([tc computed] & Hf & Hr).
  assert (same_rows t tc) as Hsame.
  { revert Hf. generalize (merge_sort (not_gt (deepest_first cache)) (map fst (map_to_list (by_id ns)))).
    intros l Hf. change tc with (tc, computed).1. revert Hf. generalize (tc, computed). intros s Hf.
    pattern l, s. eapply foldM_ind; [| |exact Hf]; [apply same_rows_refl|].
    intros d x r s1 s2 _ H1 H2. eapply same_rows_trans; [exact H1|]. by eapply rehash_node_rows. }
  destruct (computed !! root); [by injection Hr as _ <-|]. by apply stored_root_ok in Hr as [-> _].
Qed.
End recompute.
