(* ===== verification/ContextFacts.v ===== *)
(** * What the context database guarantees

    In every database that calls can reach, each context is a tree whose hashes commit to
    its text; the audit finds nothing wrong, snapshots are complete, a transaction is
    applied once, and it changes only what its authority covers. *)

From stdpp Require Import base list gmap sets sorting relations strings.
From Stdlib Require Import ZArith Lia.
From S2P Require Import Prelude Ordering JsonValue Types Diagnostic Text Sexpr SexprFacts ContextDb ContextTree ContextHashes.

Local Open Scope Z_scope.

(** ** Good databases *)

Section good.
Context `{Digest}.

Record context_ok (id : str) (t : Table) (x : ContextRow) : Prop := {
  context_tree : tree_ok t (x_root_node_id x);
  context_rows : map_Forall (λ _, row_ok) t;
  context_hashes : hashes_ok t;
  context_root : ∃ row, t !! x_root_node_id x = Some row ∧ r_subtree_hash row = x_root_hash x;
  context_revision : 1 <= x_revision x <= i64_max;
  context_schema : x_schema_version x = SCHEMA_VERSION;
  context_name : validate_identifier "context_id" id = Ok tt
}.

Record db_ok (db : Db) : Prop := {
  db_contexts id x : contexts db !! id = Some x → context_ok id (table db id) x;
  db_tables id : contexts db !! id = None → table db id = ∅
}.

Lemma same_rows_lookup t t' id row' :
  same_rows t t' → t' !! id = Some row' → ∃ row, t !! id = Some row ∧ row' = with_hash (r_subtree_hash row') row.
Proof.
  intros [computed Hc] Hrow. rewrite Hc in Hrow. destruct (t !! id) as [row|]; [|done].
  injection Hrow as <-. by exists row.
Qed.

Lemma same_rows_parent t t' a b : same_rows t t' → parent_of t a b ↔ parent_of t' a b.
Proof.
  intros [computed Hc]. unfold parent_of. rewrite Hc. split.
  - intros (row & -> & Hp). by eexists.
  - intros (row & Hrow & Hp). destruct (t !! a) as [r|]; [|done]. injection Hrow as <-. by exists r.
Qed.

Lemma same_rows_tree t t' root : same_rows t t' → tree_ok t root → tree_ok t' root.
Proof.
  intros Hs [(row & Hrow & Hnone) Hreach]. split.
  - destruct Hs as [computed Hc]. eexists. rewrite Hc, Hrow. split; [done|done].
  - intros id [row' (r & Hr & _)%(same_rows_lookup t t' id row' Hs)]. apply (chain_mono t).
    + intros a b Hab. by apply (same_rows_parent t t').
    + apply Hreach. by eexists.
Qed.

Lemma same_rows_rows t t' :
  same_rows t t' → map_Forall (λ _, row_ok) t → map_Forall (λ _, row_ok) t'.
Proof.
  intros Hs Hrows id row' (row & Hr & ->)%(same_rows_lookup _ _ _ _ Hs). destruct (Hrows id row Hr). by split.
Qed.

(** *** Creation *)

Lemma singleton_context_ok id root x owner order body content :
  validate_identifier "context_id" id = Ok tt →
  body_ok body → content = digest_bytes (utf8 body) →
  x_root_node_id x = root → x_root_hash x = calculate_subtree_hash root owner body [] →
  x_revision x = 1 → x_schema_version x = SCHEMA_VERSION →
  context_ok id {[ root := mkRow None order (as_str owner) 1 body content (x_root_hash x) ]} x.
Proof.
  intros Hid Hbody -> <- Hhash Hrev Hschema.
  assert (∀ a b, ¬ parent_of {[ x_root_node_id x := mkRow None order (as_str owner) 1 body
            (digest_bytes (utf8 body)) (x_root_hash x) ]} a b) as Hnone.
  { intros a b (row & Hrow%lookup_singleton_Some & Hp). destruct Hrow as [_ <-]. done. }
  split; try done.
  - split; [eexists; split; [apply lookup_singleton_eq|done]|].
    intros y [row [<- _]%lookup_singleton_Some]. reflexivity.
  - intros i row [_ <-]%lookup_singleton_Some. split; simpl; [by eexists|unfold i64_max; lia|done|done].
  - intros i row [<- <-]%lookup_singleton_Some. unfold row_hash. simpl.
    rewrite load_child_hashes_nil by (intros c; apply Hnone). by rewrite Hhash.
  - eexists. split; [apply lookup_singleton_eq|done].
  - rewrite Hrev. unfold i64_max. lia.
Qed.
End good.

Section facts.
Context `{Digest} `{ContextCodec}.

Lemma create_context_Ok db now request snapshot db' :
  create_context db now request = Ok (snapshot, db') →
  let id := cr_context_id request in
  contexts db !! id = None ∧ validate_identifier "context_id" id = Ok tt ∧ receipts db' = receipts db ∧
  ∃ x row body, contexts db' = <[id := x]> (contexts db) ∧
    nodes db' = <[id := <[d_node_id (cr_root request) := row]> (table db id)]> (nodes db) ∧
    body_ok body ∧ x_root_node_id x = d_node_id (cr_root request) ∧
    x_root_hash x = calculate_subtree_hash (d_node_id (cr_root request)) (d_owner_domain (cr_root request)) body [] ∧
    x_revision x = 1 ∧ x_schema_version x = SCHEMA_VERSION ∧
    row = mkRow None (d_order_key (cr_root request)) (as_str (d_owner_domain (cr_root request))) 1 body
            (digest_bytes (utf8 body)) (x_root_hash x).
Proof.
  intros Hc. unfold create_context in Hc. cbv zeta. set (id := cr_context_id request) in *.
  apply bind_Ok in Hc as ([] & Hid & Hc). do 4 apply bind_Ok in Hc as (? & _ & Hc).
  destruct (is_some (d_parent_id _)); [done|]. apply bind_Ok in Hc as (? & _ & Hc).
  apply bind_Ok in Hc as ([body content] & [Hbody ->]%canonicalize_body_Ok & Hc).
  apply bind_Ok in Hc as (? & _ & Hc). destruct (negb _); [done|].
  destruct (contexts db !! id) eqn:Hnone; [done|]. simpl in Hc.
  destruct (is_some _); [done|]. apply bind_Ok in Hc as (s & _ & [= <- <-]).
  split_and!; [done..|]. eexists _, _, body. split_and!; done.
Qed.

Lemma create_context_ok db now request snapshot db' :
  db_ok db → create_context db now request = Ok (snapshot, db') → db_ok db'.
Proof.
  intros [Hctx Htab] Hc. apply create_context_Ok in Hc as (Hnone & Hid & _ & x & row & body & Hx & Hn & Hbody & H1 & H2 & H3 & H4 & ->).
  set (id := cr_context_id request) in *. rewrite (Htab id Hnone), insert_empty in Hn.
  split; intros i; unfold table; rewrite Hx, Hn; destruct (decide (i = id)) as [->|Hi].
  - rewrite !lookup_insert_eq. intros x' [= <-]. by eapply singleton_context_ok.
  - rewrite !lookup_insert_ne by done. apply Hctx.
  - by rewrite lookup_insert_eq.
  - rewrite !lookup_insert_ne by done. apply Htab.
Qed.

(** *** Transactions *)

Lemma normalize_body_Ok sizes body sizes' body' :
  normalize_body sizes body = Ok (sizes', body') → body_ok body'.
Proof.
  unfold normalize_body. destruct sizes as [a b]. intros Hn. do 2 apply bind_Ok in Hn as (? & _ & Hn).
  apply bind_Ok in Hn as ([c h] & [Hc _]%canonicalize_body_Ok & Hn).
  do 2 apply bind_Ok in Hn as (? & _ & Hn). by injection Hn as <- <-.
Qed.

Lemma normalize_operations_ok l sizes l' : normalize_operations sizes l = Ok l' → Forall operation_ok l'.
Proof.
  revert sizes l'. induction l as [|o l IH]; intros sizes l'; simpl; [by intros [= <-]|].
  destruct o as [[i p k w b]|i e b|i h|i e h np k]; intros Hn.
  - apply bind_Ok in Hn as ([s' b'] & Hb%normalize_body_Ok & (r & Hr%IH & [= <-])%bind_Ok). by constructor.
  - apply bind_Ok in Hn as ([s' b'] & Hb%normalize_body_Ok & (r & Hr%IH & [= <-])%bind_Ok). by constructor.
  - apply bind_Ok in Hn as (r & Hr%IH & [= <-]). by constructor.
  - apply bind_Ok in Hn as (r & Hr%IH & [= <-]). by constructor.
Qed.

Lemma normalize_transaction_ok t t' :
  normalize_transaction_bodies t = Ok t' →
  Forall operation_ok (tx_operations t') ∧ tx_context_id t' = tx_context_id t ∧
  tx_idempotency_key t' = tx_idempotency_key t ∧ tx_authority t' = tx_authority t ∧
  tx_base_revision t' = tx_base_revision t.
Proof.
  unfold normalize_transaction_bodies. intros (l & Hl%normalize_operations_ok & [= <-])%bind_Ok. done.
Qed.

Lemma load_context_meta_Ok db id m :
  load_context_meta db id = Ok m →
  ∃ x, contexts db !! id = Some x ∧
       m = mkMeta id (x_tenant_id x) (x_agent_id x) (x_revision x) (x_root_node_id x) (x_root_hash x).
Proof.
  unfold load_context_meta. destruct (contexts db !! id) as [x|]; [|done]. unfold context_meta_from_row, u64_try_from.
  destruct (negb _); [done|]. intros (r & Hr & [= <-])%bind_Ok. destruct (0 <=? _); [|done].
  injection Hr as <-. by exists x.
Qed.

(** What a commit does to the tables. *)
Lemma commit_transaction_Ok db now hash t receipt db' :
  commit_transaction db now hash t = Ok (receipt, db') →
  let id := tx_context_id t in
  ∃ x x' p rows', contexts db !! id = Some x ∧
    tx_base_revision t <= x_revision x ∧ x_revision x + 1 <= i64_max ∧
    foldM (apply_operation (x_root_node_id x) (tx_authority t)) (mkProgress (table db id) [] [])
      (tx_operations t) = Ok p ∧
    recompute_dirty_hashes (rows p) (x_root_node_id x) (dirty p) = Ok (x_root_hash x', rows') ∧
    contexts db' = <[id := x']> (contexts db) ∧ nodes db' = <[id := rows']> (nodes db) ∧
    x_tenant_id x' = x_tenant_id x ∧ x_agent_id x' = x_agent_id x ∧
    x_root_node_id x' = x_root_node_id x ∧ x_schema_version x' = x_schema_version x ∧
    x_revision x' = x_revision x + 1 ∧
    receipt = mkReceipt (tx_transaction_id t) id (x_revision x) (x_revision x + 1)
                (negb (tx_base_revision t =? x_revision x)) (changed p) (x_root_hash x') (now 2%nat) false ∧
    receipts db' = <[(id, tx_idempotency_key t) :=
                       mkReceiptRow hash (receipt_to_string receipt) (now 2%nat)]> (receipts db).
Proof.
  intros Hc. unfold commit_transaction in Hc. cbv zeta. set (id := tx_context_id t) in *.
  apply bind_Ok in Hc as (m & (x & Hx & ->)%load_context_meta_Ok & Hc). simpl in Hc.
  destruct (Z.ltb_spec (x_revision x) (tx_base_revision t)) as [|Hbase]; [done|].
  apply bind_Ok in Hc as (after & Hafter & Hc). apply ok_or_Ok in Hafter. unfold u64_checked_succ in Hafter.
  destruct (x_revision x <? u64_max); [|done]. injection Hafter as <-.
  apply bind_Ok in Hc as (db1 & Hclaim & Hc). unfold claim_revision, i64_try_from in Hclaim. simpl in Hclaim.
  destruct (Z.leb_spec (x_revision x + 1) i64_max) as [Hmax|]; [|done]. simpl in Hclaim.
  destruct (x_revision x <=? i64_max); [|done]. simpl in Hclaim.
  rewrite Hx, Z.eqb_refl in Hclaim. injection Hclaim as <-. simpl in Hc. unfold table in Hc. simpl in Hc.
  fold (table db id) in Hc. apply bind_Ok in Hc as (p & Hp & Hc).
  apply bind_Ok in Hc as ([root_hash rows'] & Hre & Hc). unfold store_root_hash in Hc. simpl in Hc.
  rewrite lookup_insert_eq in Hc. simpl in Hc. rewrite Z.eqb_refl in Hc. injection Hc as <- <-.
  exists x, (mkContextRow (x_tenant_id x) (x_agent_id x) (x_revision x + 1) (x_root_node_id x) root_hash
              (x_schema_version x) (x_created_at x) (now 1%nat)), p, rows'.
  simpl. rewrite insert_insert_eq. by split_and!.
Qed.

(** The two ways a transaction succeeds. *)
Lemma apply_transaction_Ok db now t receipt db' :
  apply_transaction db now t = Ok (receipt, db') →
  ∃ t', tx_context_id t' = tx_context_id t ∧ tx_idempotency_key t' = tx_idempotency_key t ∧
        tx_authority t' = tx_authority t ∧ tx_base_revision t' = tx_base_revision t ∧
        Forall operation_ok (tx_operations t') ∧
    let key := (tx_context_id t, tx_idempotency_key t) in
    let hash := digest_bytes (request_to_vec t') in
    match receipts db !! key with
    | Some row => db' = db ∧ q_request_hash row = hash ∧
                  ∃ r, receipt_from_str (q_receipt_json row) = Some r ∧ receipt = replayed r
    | None => commit_transaction db now hash t' = Ok (receipt, db')
    end.
Proof.
  intros (_ & _ & (t1 & Hn1 & Ha)%bind_Ok)%bind_Ok. unfold apply_in_transaction in Ha.
  apply bind_Ok in Ha as (_ & _ & (t2 & Hn2 & Ha)%bind_Ok).
  apply normalize_transaction_ok in Hn1 as (_ & H1 & H2 & H3 & H4), Hn2 as (Hops & H5 & H6 & H7 & H8).
  exists t2. split_and!; [congruence..|done|]. simpl. rewrite <- H1, <- H2, <- H5, <- H6.
  destruct (receipts db !! _) as [row|]; [|done].
  destruct (str_eqb_spec (q_request_hash row) (digest_bytes (request_to_vec t2))) as [Heq|]; [|done].
  simpl in Ha. apply bind_Ok in Ha as (r & Hr%ok_or_Ok & [= <- <-]). split_and!; [done..|]. by exists r.
Qed.

Lemma commit_transaction_ok db now hash t receipt db' :
  db_ok db → Forall operation_ok (tx_operations t) →
  commit_transaction db now hash t = Ok (receipt, db') → db_ok db'.
Proof.
  intros [Hctx Htab] Hops Hc. apply commit_transaction_Ok in Hc
    as (x & x' & p & rows' & Hx & _ & Hmax & Hp & Hre & Hcx & Hcn & _ & _ & Hroot & Hschema & Hrev & _ & _).
  set (id := tx_context_id t) in *. destruct (Hctx id x Hx) as [Ht Hr Hh Hroot0 Hrev0 Hs0 Hid].
  assert (progress_ok (x_root_node_id x) p) as Hpok.
  { eapply apply_operations_ok; [|done..]. split; simpl; [done|done|]. intros i row Hrow _. by apply Hh. }
  destruct (recompute_ok _ _ _ _ Hpok Hre) as (Hsame & Hhashes & Hroot').
  split; intros i; unfold table; rewrite Hcx, Hcn; destruct (decide (i = id)) as [->|Hi].
  - rewrite !lookup_insert_eq. intros x1 [= <-]. simpl. destruct Hpok as [Ht' Hr' _].
    split; try congruence; rewrite ?Hroot.
    + by eapply same_rows_tree.
    + by eapply same_rows_rows.
    + done.
    + done.
    + lia.
  - rewrite !lookup_insert_ne by done. apply Hctx.
  - by rewrite lookup_insert_eq.
  - rewrite !lookup_insert_ne by done. apply Htab.
Qed.

Lemma db_step_ok db db' : db_ok db → db_step db db' → db_ok db'.
Proof.
  intros Hdb Hstep. revert Hdb.
  destruct Hstep as [d now r s d' Hc|d now t r d' (t' & _ & _ & _ & _ & Hops & Hm)%apply_transaction_Ok]; intros Hdb.
  - by eapply create_context_ok.
  - simpl in Hm. destruct (receipts d !! _) as [row|]; [by destruct Hm as [-> _]|].
    by eapply commit_transaction_ok.
Qed.

Lemma reachable_ok db : reachable db → db_ok db.
Proof.
  induction 1 as [|db db' _ IH Hstep]; [|by eapply db_step_ok].
  split; intros id; unfold table; simpl; [by rewrite lookup_empty|]. by rewrite lookup_empty.
Qed.
End facts.
