(* ===== verification/ContextAudit.v ===== *)
(** * Reading and auditing a context

    On the rows of a good context that is not too deep, the recursive reader and the
    recursive audit visit every node once and return what the tree says. *)

From stdpp Require Import base list gmap sets sorting relations strings.
From Stdlib Require Import ZArith Lia.
From S2P Require Import Prelude Ordering JsonValue Types Diagnostic Text Sexpr SexprFacts ContextDb ContextTree ContextHashes ContextFacts.

(** ** Commitments *)

Lemma tc_flip_parent t x y : tc (flip (parent_of t)) x y → tc (parent_of t) y x.
Proof.
  induction 1 as [x y Hxy|x y z Hxy _ IH]; [by apply tc_once|]. eapply tc_r; [exact IH|exact Hxy].
Qed.

Lemma children_first t root id : tree_ok t root → Acc (parent_of t) id.
Proof.
  intros Ht. apply (tc_finite_sn (R := flip (parent_of t)) id).
  - intros x Hx%tc_flip_parent. by eapply tree_no_cycle.
  - exists (elements (dom t)). intros x Hx%tc_flip_parent. apply elem_of_elements, elem_of_dom.
    inversion Hx as [? ? (r & Hr & _)|? ? ? (r & Hr & _)]; by eexists.
Qed.

(** Depth of a context: no chain of parents to the root is longer than the limit. *)
Definition within_depth (t : Table) (root : str) (n : nat) : Prop :=
  ∀ id k, nsteps (parent_of t) k id root → k <= n.

Section audit.
Context `{Digest}.

(** The hash of a whole subtree, by recursion over the tree. *)
Inductive merkle (t : Table) : str → str → Prop :=
| merkle_node id row (sub : str → str) :
    t !! id = Some row → (∀ c, parent_of t c id → merkle t c (sub c)) →
    merkle t id (hash_context_node id (r_owner_domain row) (r_body_sexpr row)
                   (map (λ d, (d.1, sub d.1.2)) (load_child_hashes t id))).

Lemma hashes_merkle t root id row :
  tree_ok t root → hashes_ok t → t !! id = Some row → merkle t id (r_subtree_hash row).
Proof.
  intros Ht Hh. revert row. induction (children_first t root id Ht) as [id _ IH]. intros row Hrow.
  rewrite (Hh id row Hrow). unfold row_hash.
  set (sub c := default [] (r_subtree_hash <$> t !! c)).
  replace (load_child_hashes t id) with (map (λ d, (d.1, sub d.1.2)) (load_child_hashes t id)).
  - apply merkle_node; [done|]. intros c Hc. destruct Hc as (rc & Hrc & Hp). unfold sub. rewrite Hrc. simpl.
    apply IH; [by exists rc|done].
  - rewrite <- (map_id (load_child_hashes t id)) at 2. apply map_ext_in. intros [[k c] h] Hin%list_elem_of_In.
    rewrite load_child_hashes_elem, elem_child_descriptors in Hin. destruct Hin as (rc & Hrc & _ & -> & ->).
    unfold sub. simpl. by rewrite Hrc.
Qed.

(** The text of a whole subtree: the items of a node, then those of its children in order. *)
Inductive renders (t : Table) : str → SExpr → Prop :=
| renders_node id row items (sub : str → SExpr) :
    t !! id = Some row → parse (r_body_sexpr row) = Ok (List items) →
    (∀ c, parent_of t c id → renders t c (sub c)) →
    renders t id (List (items ++ map (λ d, sub d.1.2) (load_child_hashes t id))).

(** ** The nodes of a table *)

#[export] Instance parent_cmp_on {A} (f : A → option str) : Comparison (λ a b, parent_cmp (f a) (f b)).
Proof.
  split; intros; [destruct (f a), (f b); simpl; try done; apply str_cmp_antisym|].
  unfold not_gt in *. destruct (f a), (f b), (f c); simpl in *; try done.
  eapply str_cmp_le_trans; done.
Qed.

#[export] Instance node_cmp_ok : Comparison node_cmp.
Proof. unfold node_cmp. apply _. Qed.

Lemma row_decodes id row : row_ok row → ∃ n, stored_node_from_row id row = Ok n.
Proof.
  intros [[d Hd] Hr _ _]. eexists. apply stored_node_from_row_Ok. exists d. split_and!; [done|lia|done].
Qed.

Lemma load_rows_decodes l : (∀ id row, (id, row) ∈ l → row_ok row) → ∃ ns, load_rows l = Ok ns.
Proof.
  unfold load_rows. induction l as [|[id row] l IH]; intros Hl; simpl; [by eexists|].
  destruct (row_decodes id row) as [n Hn]; [apply (Hl id); by left|].
  destruct IH as [ns Hns]; [intros i r Hir; apply (Hl i); by right|]. rewrite Hn. simpl. rewrite Hns. by eexists.
Qed.

Record nodes_of (t : Table) (l : list StoredNode) : Prop := {
  nodes_elem n : n ∈ l ↔ ∃ row, t !! node_id n = Some row ∧ stored_node_from_row (node_id n) row = Ok n;
  nodes_NoDup : NoDup (map node_id l);
  nodes_length : length l = size t
}.

Lemma load_nodes_ok t :
  map_Forall (λ _, row_ok) t → ∃ l, load_nodes t = Ok l ∧ nodes_of t l.
Proof.
  intros Hrows. unfold load_nodes. set (sorted := merge_sort _ _).
  assert (sorted ≡ₚ map_to_list t) as Hperm by apply merge_sort_Permutation.
  destruct (load_rows_decodes sorted) as [l Hl].
  { intros id row. rewrite Hperm, elem_of_map_to_list. apply Hrows. }
  exists l. split; [done|]. pose proof (load_rows_ids _ _ Hl) as Hids. split.
  - intros n. rewrite (load_rows_elem _ _ _ Hl). apply exist_proper. intros row.
    by rewrite Hperm, elem_of_map_to_list.
  - rewrite Hids. change (map fst sorted) with (sorted.*1). rewrite Hperm. apply NoDup_fst_map_to_list.
  - rewrite <- (length_map node_id), Hids, length_map, Hperm. apply length_map_to_list.
Qed.

Lemma nodes_by_id t l id n :
  nodes_of t l → by_id l !! id = Some n ↔ ∃ row, t !! id = Some row ∧ stored_node_from_row id row = Ok n.
Proof.
  intros [Helem Hnd _]. unfold by_id. rewrite <- elem_of_list_to_map.
  2: { change (NoDup (map fst (map (λ n, (node_id n, n)) l))). by rewrite map_map. }
  rewrite list_elem_of_fmap. split.
  - intros (m & [= -> ->] & Hm). by apply Helem in Hm.
  - intros (row & Hrow & Hn).
    assert (node_id n = id) as Hid by (apply stored_node_from_row_Ok in Hn as (d & _ & _ & ->); done).
    exists n. split; [by rewrite Hid|]. apply Helem. exists row. by rewrite Hid.
Qed.

Lemma sorted_children_elem t l p n :
  nodes_of t l → n ∈ sorted_children l p ↔
    ∃ row, t !! node_id n = Some row ∧ stored_node_from_row (node_id n) row = Ok n ∧ r_parent_id row = Some p.
Proof.
  intros [Helem _ _]. unfold sorted_children. rewrite merge_sort_Permutation, list_elem_of_filter, Helem. split.
  - intros (Hp & row & Hrow & Hn). exists row. split_and!; [done..|].
    apply stored_node_from_row_Ok in Hn as (d & _ & _ & Hn). by rewrite Hn in Hp.
  - intros (row & Hrow & Hn & Hp). split; [|by exists row].
    apply stored_node_from_row_Ok in Hn as (d & _ & _ & Hn). by rewrite Hn.
Qed.

Definition descriptor (n : StoredNode) : Z * str * str := (order_key n, node_id n, subtree_hash n).

(** The audit reads the same children as the incremental hashes. *)
Lemma sorted_children_descriptors t l p :
  nodes_of t l → map_Forall (λ _, row_ok) t →
  map descriptor (sorted_children l p) = load_child_hashes t p.
Proof.
  intros Hl Hrows. symmetry. apply load_child_hashes_unique.
  - apply (NoDup_fmap_1 (λ d, d.1.2)). change (NoDup (map (λ d, d.1.2) (map descriptor (sorted_children l p)))).
    rewrite map_map. change (NoDup ((λ n, node_id n) <$> sorted_children l p)). unfold sorted_children.
    rewrite merge_sort_Permutation. eapply sublist_NoDup; [exact (nodes_NoDup _ _ Hl)|].
    change (map node_id l) with (node_id <$> l).
    generalize l. intros l0. induction l0 as [|n l0 IH]; [constructor|].
    rewrite filter_cons. destruct (decide _); simpl; [by apply sublist_skip|by apply sublist_cons].
  - intros [[k c] h]. rewrite list_elem_of_fmap, elem_child_descriptors. split.
    + intros (n & [= -> -> ->] & Hn). apply (sorted_children_elem t) in Hn as (row & Hrow & Hn & Hp); [|done].
      exists row. apply stored_node_from_row_Ok in Hn as (d & _ & _ & Hn). split_and!; [done..| |]; by rewrite Hn.
    + intros (row & Hrow & Hp & -> & ->). destruct (row_decodes c row) as [n Hn]; [by eapply Hrows|].
      pose proof Hn as (d & _ & _ & ->)%stored_node_from_row_Ok.
      match type of Hn with _ = Ok ?n => exists n end. split; [done|].
      apply (sorted_children_elem t); [done|]. simpl. by exists row.
  - unfold sorted_children. set (m := filter _ _).
    pose proof (StronglySorted_merge_sort (not_gt node_cmp) m) as Hs. revert Hs.
    generalize (merge_sort (not_gt node_cmp) m). intros s Hs.
    induction Hs as [|n s Hs IH Hall]; simpl; constructor; [done|]. apply Forall_map.
    eapply Forall_impl; [exact Hall|]. intros x Hx. exact Hx.
Qed.
End audit.

(** ** Walking the tree *)

Section walk.
Context `{Digest} (t : Table) (root : str) (l : list StoredNode).
Hypothesis Htree : tree_ok t root.
Hypothesis Hrows : map_Forall (λ _, row_ok) t.
Hypothesis Hhashes : hashes_ok t.
Hypothesis Hl : nodes_of t l.

Lemma child_is_child id c : c ∈ sorted_children l id → parent_of t (node_id c) id.
Proof. intros (row & Hrow & _ & Hp)%(sorted_children_elem t); [by exists row|done]. Qed.

(** What a walk below a node requires, inherited by its children. *)
Record may_walk (levels : nat) (id : str) (visiting : gset str) : Prop := {
  walk_present : is_Some (t !! id);
  walk_levels x k : nsteps (parent_of t) k x id → (k < levels)%nat;
  walk_visiting v : v ∈ visiting → ¬ rtc (parent_of t) v id
}.

Lemma may_walk_child levels id visiting c :
  may_walk (S levels) id visiting → parent_of t c id → may_walk levels c ({[ id ]} ∪ visiting).
Proof.
  intros [Hid Hlev Hvis] Hc. split.
  - destruct Hc as (row & Hrow & _). by eexists.
  - intros x k Hk. assert (S k < S levels)%nat; [|lia]. apply (Hlev x). by eapply nsteps_r.
  - intros v [->%elem_of_singleton|Hv]%elem_of_union Hr.
    + apply (tree_no_cycle t root id Htree). eapply tc_rtc_l; [exact Hr|by apply tc_once].
    + apply (Hvis v Hv). by eapply rtc_r.
Qed.

(** The subtrees of two children of a node are disjoint. *)
Lemma siblings_disjoint id c d x :
  parent_of t c id → parent_of t d id → c ≠ d →
  rtc (parent_of t) x c → ¬ rtc (parent_of t) x d.
Proof.
  intros Hc Hd Hne Hxc Hxd. assert (rtc (parent_of t) c d ∨ rtc (parent_of t) d c) as Hcmp.
  { clear Hc Hd Hne. induction Hxc as [x|x y z Hxy Hyz IH]; [by left|].
    apply rtc_inv in Hxd as [->|(y' & Hxy' & Hyd)]; [right; by eapply rtc_l|].
    assert (y' = y) as -> by (by apply (parent_of_det t x)). by apply IH. }
  assert (∀ a b, parent_of t a id → parent_of t b id → a ≠ b → ¬ rtc (parent_of t) a b) as Hno.
  { intros a b Ha Hb Hab Hr. apply rtc_inv in Hr as [|(y & Hay & Hyb)]; [done|].
    assert (y = id) as -> by (by apply (parent_of_det t a)).
    apply (tree_no_cycle t root id Htree). eapply tc_rtc_l; [exact Hyb|by apply tc_once]. }
  destruct Hcmp as [Hr|Hr]; [exact (Hno c d Hc Hd Hne Hr)|]. exact (Hno d c Hd Hc (not_eq_sym Hne) Hr).
Qed.

Lemma sorted_children_NoDup id : NoDup (map node_id (sorted_children l id)).
Proof.
  unfold sorted_children. change (NoDup (node_id <$> merge_sort (not_gt node_cmp)
    (filter (λ n, parent_id n = Some id) l))). rewrite merge_sort_Permutation.
  apply (NoDup_fmap_2_strong (A := StoredNode)).
  - intros a b [_ Ha]%list_elem_of_filter [_ Hb]%list_elem_of_filter Heq.
    apply (nodes_elem _ _ Hl) in Ha as (ra & Hra & Ha), Hb as (rb & Hrb & Hb). rewrite Heq in Hra, Ha. congruence.
  - apply NoDup_filter. apply (NoDup_fmap_1 node_id). apply (nodes_NoDup _ _ Hl).
Qed.

(** *** The audit *)

Definition audits (levels : nat) (id : str) : Prop := ∀ visiting computed row,
  may_walk levels id visiting → t !! id = Some row →
  (∀ x, rtc (parent_of t) x id → computed !! x = None) →
  ∃ computed', audit_node_hash levels (by_id l) (sorted_children l) id visiting computed
               = Ok (r_subtree_hash row, computed') ∧
    (∀ x, rtc (parent_of t) x id → computed' !! x = r_subtree_hash <$> t !! x) ∧
    (∀ x, ¬ rtc (parent_of t) x id → computed' !! x = computed !! x).

Lemma audit_children levels id visiting cs acc computed :
  may_walk (S levels) id visiting → (∀ c, audits levels c) →
  (∀ c, c ∈ cs → c ∈ sorted_children l id) → NoDup (map node_id cs) →
  (∀ c x, c ∈ cs → rtc (parent_of t) x (node_id c) → computed !! x = None) →
  ∃ computed',
    foldM (λ acc child,
        '(h, computed) ← audit_node_hash levels (by_id l) (sorted_children l) (node_id child)
                           ({[ id ]} ∪ visiting) acc.2;
        Ok (acc.1 ++ [(order_key child, node_id child, h)], computed)) (acc, computed) cs
    = Ok (acc ++ map descriptor cs, computed') ∧
    (∀ c x, c ∈ cs → rtc (parent_of t) x (node_id c) → computed' !! x = r_subtree_hash <$> t !! x) ∧
    (∀ x, (∀ c, c ∈ cs → ¬ rtc (parent_of t) x (node_id c)) → computed' !! x = computed !! x).
Proof.
  intros Hw IH. revert acc computed. induction cs as [|c cs IHcs]; intros acc computed Hcs Hnd Hnone.
  { exists computed. simpl. rewrite app_nil_r. split_and!; [done| |done]. by intros c x ?%elem_of_nil. }
  simpl in Hnd. apply NoDup_cons in Hnd as [Hc Hnd].
  assert (c ∈ sorted_children l id) as Hcc by (apply Hcs; by left).
  pose proof (child_is_child id c Hcc) as Hpar.
  apply (sorted_children_elem t) in Hcc as (row & Hrow & Hn & _); [|done].
  destruct (IH (node_id c) ({[ id ]} ∪ visiting) computed row) as (computed1 & H1 & Hin1 & Hout1).
  { by apply may_walk_child. }
  { done. }
  { intros x Hx. eapply Hnone; [by left|done]. }
  assert (∀ d x, d ∈ cs → rtc (parent_of t) x (node_id d) → ¬ rtc (parent_of t) x (node_id c)) as Hdisj.
  { intros d x Hd Hx. apply (siblings_disjoint id (node_id d)); [|done| |done].
    - apply child_is_child, Hcs. by right.
    - intros Heq. apply Hc. rewrite <- Heq. apply list_elem_of_fmap. by exists d. }
  destruct (IHcs (acc ++ [descriptor c]) computed1) as (computed2 & H2 & Hin2 & Hout2).
  { intros d Hd. apply Hcs. by right. }
  { done. }
  { intros d x Hd Hx. rewrite Hout1 by (by eapply Hdisj). eapply Hnone; [by right|done]. }
  exists computed2. simpl. rewrite H1. simpl.
  assert (r_subtree_hash row = subtree_hash c) as ->
    by (apply stored_node_from_row_Ok in Hn as (d & _ & _ & ->); done).
  split_and!.
  - unfold descriptor in H2. rewrite H2. by rewrite <- app_assoc.
  - intros d x [->|Hd]%elem_of_cons Hx; [|by eapply Hin2]. rewrite Hout2; [by apply Hin1|].
    intros d Hd Hxd. exact (Hdisj d x Hd Hxd Hx).
  - intros x Hx. rewrite Hout2 by (intros d Hd; apply Hx; by right). apply Hout1. apply Hx. by left.
Qed.

Lemma rtc_below x id :
  rtc (parent_of t) x id → x = id ∨ ∃ c, c ∈ sorted_children l id ∧ rtc (parent_of t) x (node_id c).
Proof.
  intros [->|(y & Hxy & (row & Hrow & Hp))]%rtc_inv_r; [by left|]. right.
  destruct (row_decodes y row) as [n Hn]; [by eapply Hrows|].
  assert (node_id n = y) as Hid by (apply stored_node_from_row_Ok in Hn as (d & _ & _ & ->); done).
  exists n. rewrite Hid. split; [|done]. apply (sorted_children_elem t); [done|]. rewrite Hid. by exists row.
Qed.

Lemma audit_walk levels id : audits levels id.
Proof.
  revert id. induction levels as [|levels IH]; intros id visiting computed row Hw Hrow Hnone.
  { exfalso. pose proof (walk_levels _ _ _ Hw id 0 (nsteps_O _ _)). lia. }
  destruct (audit_children levels id visiting (sorted_children l id) [] computed) as (computed' & Hf & Hin & Hout).
  { done. } { done. } { done. }
  { apply sorted_children_NoDup. }
  { intros c x Hc Hx. apply Hnone. eapply rtc_r; [exact Hx|]. by apply child_is_child. }
  destruct (row_decodes id row) as [n Hn]; [by eapply Hrows|].
  simpl. rewrite (Hnone id) by reflexivity.
  rewrite bool_decide_false by (intros Hv; by apply (walk_visiting _ _ _ Hw id Hv)).
  assert (by_id l !! id = Some n) as -> by (apply (nodes_by_id t); [done|by exists row]). simpl.
  rewrite Hf. simpl. pose proof Hn as (d & Hd & _ & ->)%stored_node_from_row_Ok. simpl.
  rewrite (sorted_children_descriptors t) by done. unfold calculate_subtree_hash. rewrite <- Hd.
  rewrite (Hhashes id row Hrow). unfold row_hash. eexists. split; [done|]. split.
  - intros x [->|(c & Hc & Hx)]%rtc_below.
    + rewrite lookup_insert_eq, Hrow. simpl. by rewrite (Hhashes id row Hrow).
    + rewrite lookup_insert_ne; [by eapply Hin|]. intros ->.
      apply (tree_no_cycle t root x Htree). eapply tc_rtc_l; [exact Hx|]. by apply tc_once, child_is_child.
  - intros x Hx. rewrite lookup_insert_ne by (intros ->; by apply Hx). apply Hout.
    intros c Hc Hxc. apply Hx. eapply rtc_r; [exact Hxc|]. by apply child_is_child.
Qed.
(** *** The reader *)

Definition reads (levels : nat) (id : str) : Prop := ∀ visiting visited,
  may_walk levels id visiting →
  ∃ e visited', render_loaded_node levels (by_id l) (sorted_children l) id visiting visited = Ok (e, visited') ∧
    renders t id e ∧ ∀ x, x ∈ visited' ↔ x ∈ visited ∨ rtc (parent_of t) x id.

Lemma read_children levels id visiting cs items visited :
  may_walk (S levels) id visiting → (∀ c, reads levels c) →
  (∀ c, c ∈ cs → c ∈ sorted_children l id) →
  ∃ es visited',
    foldM (λ acc child,
        '(e, visited) ← render_loaded_node levels (by_id l) (sorted_children l) (node_id child)
                          ({[ id ]} ∪ visiting) acc.2;
        Ok (acc.1 ++ [e], visited)) (items, visited) cs = Ok (items ++ es, visited') ∧
    Forall2 (λ c e, renders t (node_id c) e) cs es ∧
    ∀ x, x ∈ visited' ↔ x ∈ visited ∨ ∃ c, c ∈ cs ∧ rtc (parent_of t) x (node_id c).
Proof.
  intros Hw IH. revert items visited. induction cs as [|c cs IHcs]; intros items visited Hcs.
  { exists [], visited. simpl. rewrite app_nil_r. split_and!; [done|constructor|]. intros x.
    split; [by left|]. by intros [|(c & ?%elem_of_nil & _)]. }
  destruct (IH (node_id c) ({[ id ]} ∪ visiting) visited) as (e & visited1 & H1 & He & Hv1).
  { apply may_walk_child; [done|]. apply child_is_child, Hcs. by left. }
  destruct (IHcs (items ++ [e]) visited1) as (es & visited2 & H2 & Hes & Hv2).
  { intros d Hd. apply Hcs. by right. }
  exists (e :: es), visited2. simpl. rewrite H1. simpl. rewrite H2, <- app_assoc. split_and!; [done|by constructor|].
  intros x. rewrite Hv2, Hv1. setoid_rewrite elem_of_cons. naive_solver.
Qed.

(** The texts of the children as a function of their identifiers. *)
Lemma Forall2_by_id cs es :
  NoDup (map node_id cs) → Forall2 (λ c e, renders t (node_id c) e) cs es →
  ∃ sub, es = map (λ c, sub (node_id c)) cs ∧ ∀ c, c ∈ cs → renders t (node_id c) (sub (node_id c)).
Proof.
  intros Hnd Hf. revert Hnd. induction Hf as [|c e cs es He _ IH]; simpl.
  { exists (λ _, Atom []). split; [done|]. by intros c ?%elem_of_nil. }
  intros [Hc Hnd]%NoDup_cons. destruct (IH Hnd) as (sub & -> & Hsub).
  assert (∀ d, d ∈ cs → node_id d ≠ node_id c) as Hne.
  { intros d Hd Heq. apply Hc. rewrite <- Heq. apply list_elem_of_fmap. by exists d. }
  exists (λ i, if decide (i = node_id c) then e else sub i). split.
  - rewrite decide_True by done. f_equal. apply map_ext_in. intros d Hd%list_elem_of_In.
    by rewrite decide_False by (by apply Hne).
  - intros d [->|Hd]%elem_of_cons; [by rewrite decide_True|]. rewrite decide_False by (by apply Hne). by apply Hsub.
Qed.

Lemma body_ok_parses body : body_ok body → ∃ items, parse body = Ok (List items).
Proof. intros (c & s & items & -> & Hd). eexists. by rewrite parse_print. Qed.

Lemma read_walk levels id : reads levels id.
Proof.
  revert id. induction levels as [|levels IH]; intros id visiting visited Hw.
  { exfalso. pose proof (walk_levels _ _ _ Hw id 0 (nsteps_O _ _)). lia. }
  destruct (walk_present _ _ _ Hw) as [row Hrow].
  destruct (row_decodes id row) as [n Hn]; [by eapply Hrows|].
  destruct (body_ok_parses (r_body_sexpr row)) as [items Hitems]; [by destruct (Hrows id row Hrow)|].
  destruct (read_children levels id visiting (sorted_children l id) items visited) as (es & visited' & Hf & Hes & Hv).
  { done. } { done. } { done. }
  destruct (Forall2_by_id _ _ (sorted_children_NoDup id) Hes) as (sub & -> & Hsub).
  simpl. rewrite bool_decide_false by (intros Hin; by apply (walk_visiting _ _ _ Hw id Hin)).
  assert (by_id l !! id = Some n) as -> by (apply (nodes_by_id t); [done|by exists row]). simpl.
  assert (body_sexpr n = r_body_sexpr row) as -> by (apply stored_node_from_row_Ok in Hn as (d & _ & _ & ->); done).
  rewrite Hitems. simpl. rewrite Hf. simpl. eexists _, _. split_and!; [done| |].
  - replace (map (λ c, sub (node_id c)) (sorted_children l id))
      with (map (λ d, sub d.1.2) (load_child_hashes t id)).
    + apply (renders_node t id row); [done..|]. intros c Hc.
      destruct (rtc_below c id) as [->|(d & Hd & Hcd)]; [by apply rtc_once| |].
      * exfalso. eapply (tree_no_cycle t root), tc_once; done.
      * apply rtc_inv in Hcd as [->|(y & Hcy & Hyd)]; [by apply Hsub|]. exfalso.
        assert (y = id) as -> by (by apply (parent_of_det t c)).
        apply (tree_no_cycle t root id Htree). eapply tc_rtc_l; [exact Hyd|]. by apply tc_once, child_is_child.
    + rewrite <- (sorted_children_descriptors t l id) by done. by rewrite map_map.
  - intros x. rewrite elem_of_union, elem_of_singleton, Hv. split.
    + intros [->|[Hx|(c & Hc & Hx)]]; [right; reflexivity|by left|right].
      eapply rtc_r; [exact Hx|by apply child_is_child].
    + intros [Hx|[->|Hx]%rtc_below]; [by right; left|by left|by right; right].
Qed.

(** The reader succeeds only above the depth limit. *)
Lemma read_depth levels id visiting visited r x k :
  render_loaded_node levels (by_id l) (sorted_children l) id visiting visited = Ok r →
  nsteps (parent_of t) k x id → (k < levels)%nat.
Proof.
  revert id visiting visited r k. induction levels as [|levels IH]; intros id visiting visited r k; simpl; [done|].
  case_bool_decide; [done|]. intros (n & _ & (e & _ & Hr)%bind_Ok)%bind_Ok. destruct e as [|items]; [done|].
  apply bind_Ok in Hr as (s & Hf & _). destruct k as [|k]; [lia|].
  intros (c & Hxc & Hc)%nsteps_inv_r. destruct Hc as (row & Hrow & Hp).
  destruct (row_decodes c row) as [m Hm]; [by eapply Hrows|].
  assert (node_id m = c) as Hid by (apply stored_node_from_row_Ok in Hm as (d & _ & _ & ->); done).
  assert (m ∈ sorted_children l id) as Hin
    by (apply (sorted_children_elem t); [done|]; rewrite Hid; by exists row).
  destruct (foldM_each _ _ _ _ _ Hf Hin) as (s1 & s2 & (r1 & H1 & _)%bind_Ok).
  rewrite Hid in H1. pose proof (IH _ _ _ _ _ H1 Hxc). lia.
Qed.
End walk.
