(* ===== verification/ContextSamples.v ===== *)
(** * Sample contexts

    A digest and a codec that evaluate, and small databases built by the operations, on
    which the theorems on the context database are instantiated. *)

From stdpp Require Import base list countable gmap sets sorting relations strings.
From Stdlib Require Import ZArith Lia.
From S2P Require Import Prelude Ordering JsonValue Types Diagnostic Text Sexpr ContextDb.

Local Open Scope Z_scope.

(** ** Libraries *)

(** Lowercase hexadecimal digits of a byte. *)
Definition hex_digit (n : N) : char := (if n <? 10 then 48 + n else 87 + n)%N.
Definition hex_byte (b : N) : str := [hex_digit (b / 16); hex_digit (b mod 16)]%N.

(** A checksum of four bytes in place of a digest. *)
Definition checksum (bytes : list N) : N := fold_left (λ h b, (h * 257 + b + 1) mod 2 ^ 32)%N bytes 5%N.

#[local] Instance sample_digest : Digest := {
  sha256_hex bytes :=
    let h := checksum bytes in
    hex_byte (h / 2 ^ 24)%N ++ hex_byte ((h / 2 ^ 16) mod 256)%N ++ hex_byte ((h / 2 ^ 8) mod 256)%N
    ++ hex_byte (h mod 256)%N
}.

(** A receipt as a tuple of countable components. *)
Definition receipt_tuple (r : TransactionReceipt) :=
  (re_rebased r, re_idempotent_replay r, re_before_revision r, re_after_revision r,
   (re_transaction_id r, re_context_id r, (re_changed_node_ids r, re_root_hash r, re_committed_at r))).
Definition receipt_of_tuple (x : bool * bool * Z * Z * (str * str * (list str * str * str)))
    : TransactionReceipt :=
  let '(rebased, replay, before, after, (tid, cid, (changed, root, at_))) := x in
  mkReceipt tid cid before after rebased changed root at_ replay.

#[local] Instance receipt_eq_dec : EqDecision TransactionReceipt.
Proof. solve_decision. Defined.
#[local] Instance receipt_countable : Countable TransactionReceipt :=
  inj_countable' receipt_tuple receipt_of_tuple (λ r, ltac:(by destruct r)).

#[local] Instance sample_codec : ContextCodec := {
  request_to_vec t :=
    utf8 (tx_transaction_id t) ++ [0%N] ++ be_bytes (tx_base_revision t) ++
    concat (map (λ o, match o with
      | InsertNode d => 1%N :: utf8 (d_node_id d) ++ utf8 (d_body_sexpr d)
      | ReplaceNode id r b => 2%N :: utf8 id ++ be_bytes r ++ utf8 b
      | DeleteSubtree id h => 3%N :: utf8 id ++ utf8 h
      | MoveSubtree id r h p k => 4%N :: utf8 id ++ be_bytes r ++ utf8 h ++ utf8 p ++ be_bytes k
      end) (tx_operations t));
  receipt_to_string r := [Npos (encode r)];
  receipt_from_str s := match s with [Npos p] => decode p | _ => None end
}.

(** ** Histories *)

Definition sample_clock (i : nat) : str := [N.of_nat i + 48]%N.

Definition everything : ContextAuthority :=
  mkAuthority s! "runtime" [RuntimeInput; AgentMind; RuntimeControl; AgentControl; SystemPolicy].

Definition ctx : str := s! "ctx".

Definition draft (id parent body : string) (order : Z) (owner : AuthorityDomain) : ContextNodeDraft :=
  mkDraft (lit id) (Some (lit parent)) order owner (lit body).

Definition transaction (id : string) (base : Z) (authority : ContextAuthority) (l : list ContextOperation)
    : ContextTransaction :=
  mkTransaction (lit id) (lit id) ctx base authority l.

Definition create_request : CreateContextRequest :=
  mkCreate ctx s! "tenant" s! "agent" everything
    (mkDraft s! "root" None 0 SystemPolicy s! "(context)").

(** The database after a successful call, and the one before a failed call. *)
Definition after {A} (db : Db) (r : ContextDbResult (A * Db)) : Db :=
  match r with Ok (_, db') => db' | Err _ => db end.

Definition applied (db : Db) (t : ContextTransaction) : Db := after db (apply_transaction db sample_clock t).

Definition created : Db := after initialize (create_context initialize sample_clock create_request).

(** Two children under the root, and a child of the first. *)
Definition grow : ContextTransaction :=
  transaction "grow" 1 everything
    [InsertNode (draft "a" "root" "(plan   one)" 2 AgentMind);
     InsertNode (draft "b" "root" "(facts)" 1 RuntimeInput);
     InsertNode (draft "c" "a" "(step two)" 0 AgentMind)].
Definition grown : Db := applied created grow.

Definition revise : ContextTransaction :=
  transaction "revise" 2 (mkAuthority s! "agent" [AgentMind]) [ReplaceNode s! "c" 1 s! "(step three)"].
Definition revised : Db := applied grown revise.

(** A chain of nodes below the root, one level deeper than the limit. *)
Definition deep_id (i : nat) : str := match i with O => s! "root" | _ => [110; N.of_nat i + 256]%N end.
Definition deepen : ContextTransaction :=
  transaction "deepen" 1 everything
    (map (λ i, InsertNode (mkDraft (deep_id (S i)) (Some (deep_id i)) 0 AgentMind s! "(n)")) (seq 0 129)).
Definition deepened : Db := applied created deepen.

(** Two revisions of one node prepared against the same state, and between them a
    replacement of the node itself. *)
Definition hash_of (db : Db) (id : str) : str :=
  match table db ctx !! id with Some row => r_subtree_hash row | None => [] end.
Definition first_replace : ContextTransaction :=
  transaction "first" 2 everything [ReplaceNode s! "c" 1 s! "(step first)"].
Definition replaced : Db := applied grown first_replace.
Definition swap : ContextTransaction :=
  transaction "swap" 3 everything
    [DeleteSubtree s! "c" (hash_of replaced s! "c"); InsertNode (draft "c" "a" "(step other)" 0 AgentMind)].
Definition swapped : Db := applied replaced swap.
Definition second_replace : ContextTransaction :=
  transaction "second" 2 everything [ReplaceNode s! "c" 1 s! "(step second)"].
Definition overwritten : Db := applied swapped second_replace.

(** Whatever the calls return, the database stays reachable. *)
Lemma created_reachable : reachable created.
Proof.
  unfold created. destruct (create_context _ _ _) as [[s db]|] eqn:Hc; [|apply reach_initialize].
  eapply reach_step; [apply reach_initialize|]. by eapply step_create.
Qed.

Lemma applied_reachable db t : reachable db → reachable (applied db t).
Proof.
  intros Hr. unfold applied. destruct (apply_transaction db sample_clock t) as [[r db']|] eqn:Ha; [|done].
  eapply reach_step; [exact Hr|]. by eapply step_apply.
Qed.

(** The receipt and the database of a call, when it succeeds. *)
Lemma applied_Ok db t (f : TransactionReceipt → bool) :
  match apply_transaction db sample_clock t with Ok (r, _) => f r | Err _ => false end = true →
  ∃ r, apply_transaction db sample_clock t = Ok (r, applied db t) ∧ f r = true.
Proof.
  unfold applied. destruct (apply_transaction db sample_clock t) as [[r db']|]; [|done]. by exists r.
Qed.
