(* ===== verification/ContextSound.v ===== *)
(** * The main theorems on the context database

    Integrity of every reachable database, completeness of audit and snapshot, exactly-once
    application, the reach of an authority, stability of canonical bodies, and two
    behaviours that break what callers may expect. *)

From stdpp Require Import base list gmap sets sorting relations strings.
From Stdlib Require Import ZArith Lia.
From S2P Require Import Prelude Ordering JsonValue Types Diagnostic Text Sexpr SexprFacts ContextDb ContextTree ContextHashes ContextFacts ContextAudit ContextSamples.

Local Open Scope Z_scope.

(** ** Audit and snapshot *)

Section reading.
Context `{Digest}.

Lemma filter_none {A} (P : A → Prop) `{!∀ x, Decision (P x)} (l : list A) :
  (∀ x, x ∈ l → ¬ P x) → filter P l = [].
Proof.
  induction l as [|x l IH]; intros Hl; [done|]. rewrite filter_cons, decide_False by (apply Hl; by left).
  apply IH. intros y Hy. apply Hl. by right.
Qed.

Lemma root_may_walk t root :
  tree_ok t root → within_depth t root (N.to_nat MAX_TREE_DEPTH) → may_walk t tree_levels root ∅.
Proof.
  intros [(row & Hrow & _) _] Hd. split; [by eexists| |set_solver].
  intros x k Hk. specialize (Hd x k Hk). unfold tree_levels. lia.
Qed.

#[local] Opaque tree_levels.

Lemma audit_loaded_ok id t x l :
  context_ok id t x → nodes_of t l → within_depth t (x_root_node_id x) (N.to_nat MAX_TREE_DEPTH) →
  audit_loaded_context
    (mkMeta id (x_tenant_id x) (x_agent_id x) (x_revision x) (x_root_node_id x) (x_root_hash x)) l
  = Ok (mkReport id (x_revision x) (N.of_nat (size t)) (x_root_hash x) (x_root_hash x) [] true).
Proof.
  intros [Ht Hrows Hh (rrow & Hrrow & Hroot) _ _ _] Hl Hd. unfold audit_loaded_context. simpl.
  assert (∀ n, n ∈ l → ∃ row, t !! node_id n = Some row ∧ row_ok row ∧ r_parent_id row = parent_id n ∧
            r_subtree_hash row = subtree_hash n ∧ r_body_sexpr row = body_sexpr n ∧ r_content_hash row = content_hash n)
    as Hnode.
  { intros n (row & Hrow & (d & _ & _ & Hn)%stored_node_from_row_Ok)%(nodes_elem t l Hl).
    exists row. split; [done|]. split; [by eapply Hrows|]. by rewrite Hn. }
  assert (try_each (λ n, match parent_id n with
            | Some parent => if is_some (by_id l !! parent) then Ok tt
                else corrupt "Node '{}' references missing parent '{parent_id}'" [AStr (node_id n); AStr parent]
            | None => Ok tt end) l = Ok tt) as ->.
  { apply try_each_Ok. apply Forall_forall. intros n (row & Hrow & _ & Hp & _)%Hnode.
    destruct (parent_id n) as [p|]; [|done].
    destruct (tree_parent t _ (node_id n) p Ht) as [prow Hprow]; [by exists row|].
    destruct (row_decodes p prow) as [pn Hpn]; [by eapply Hrows|].
    assert (by_id l !! p = Some pn) as -> by (apply (nodes_by_id t); [done|by exists prow]). done. }
  simpl. destruct (audit_walk t _ l Ht Hrows Hh Hl tree_levels (x_root_node_id x) ∅ ∅ rrow)
    as (computed & -> & Hin & Hout); [by apply root_may_walk|done|by intros; apply lookup_empty|]. simpl.
  assert (∀ i, computed !! i = r_subtree_hash <$> t !! i) as Hcomp.
  { intros i. destruct (decide (i ∈ subtree_ids t (x_root_node_id x))) as [Hr|Hr]; rewrite subtree_ids_spec in Hr.
    - by apply Hin.
    - rewrite Hout, lookup_empty by done. destruct (t !! i) eqn:Hi; [|done].
      exfalso. apply Hr, (tree_reaches t _ Ht). by eexists. }
  rewrite !filter_none.
  - simpl. rewrite Hroot, str_eqb_refl. replace (size computed =? length l)%nat with true.
    + unfold len. by rewrite (nodes_length t l Hl).
    + symmetry. apply Nat.eqb_eq. rewrite (nodes_length t l Hl), <- !(size_dom (D := gset str)). f_equal.
      apply set_eq. intros i. by rewrite !elem_of_dom, Hcomp, fmap_is_Some.
  - intros n (row & Hrow & _)%Hnode. by rewrite Hcomp, Hrow.
  - intros n (row & _ & [_ _ Hbody Hcontent] & _ & _ & Hb & Hc)%Hnode. rewrite Hb, Hc in *.
    unfold body_matches. rewrite canonicalize_body_canonical by done. by rewrite Hcontent, !str_eqb_refl.
  - intros n (row & Hrow & _ & _ & Hs & _)%Hnode. rewrite Hcomp, Hrow. simpl. rewrite Hs. by intros [].
Qed.

Lemma find_by_id t l id n :
  nodes_of t l → n ∈ l → node_id n = id → find (λ m, node_id m =s id) l = Some n.
Proof.
  intros Hl Hn Hid. destruct (find _ l) as [m|] eqn:Hf.
  - apply find_some in Hf as [Hm Hmid]. apply list_elem_of_In in Hm. apply str_eqb_eq in Hmid.
    apply (nodes_elem t l Hl) in Hn as (rn & Hrn & Hn), Hm as (rm & Hrm & Hm). rewrite Hid in *. rewrite Hmid in *. congruence.
  - exfalso. apply list_elem_of_In in Hn. pose proof (find_none _ _ Hf n Hn) as Hne. simpl in Hne.
    by rewrite Hid, str_eqb_refl in Hne.
Qed.

Lemma build_snapshot_ok id t x l :
  context_ok id t x → nodes_of t l → within_depth t (x_root_node_id x) (N.to_nat MAX_TREE_DEPTH) →
  ∃ e, renders t (x_root_node_id x) e ∧
    build_snapshot
      (mkMeta id (x_tenant_id x) (x_agent_id x) (x_revision x) (x_root_node_id x) (x_root_hash x)) l
    = Ok (mkSnapshot id (x_tenant_id x) (x_agent_id x) (x_revision x) (x_root_node_id x) (x_root_hash x)
            (to_string e) l).
Proof.
  intros [Ht Hrows Hh (rrow & Hrrow & Hroot) _ _ _] Hl Hd. unfold build_snapshot, render_loaded_tree. simpl.
  destruct (read_walk t _ l Ht Hrows Hl tree_levels (x_root_node_id x) ∅ ∅) as (e & visited & -> & He & Hv);
    [by apply root_may_walk|]. simpl. exists e. split; [done|].
  assert (size visited = length l) as ->.
  { rewrite (nodes_length t l Hl), <- (size_dom t). f_equal. apply set_eq. intros i.
    rewrite Hv, elem_of_dom. split.
    - intros [?|Hr]; [set_solver|]. apply rtc_inv in Hr as [->|(y & (r & Hr & _) & _)]; by eexists.
    - intros Hi. right. by apply (tree_reaches t _ Ht). }
  rewrite Nat.eqb_refl. simpl. destruct (row_decodes (x_root_node_id x) rrow) as [n Hn]; [by eapply Hrows|].
  assert (node_id n = x_root_node_id x) as Hid by (apply stored_node_from_row_Ok in Hn as (d & _ & _ & ->); done).
  rewrite (find_by_id t l _ n); [|done| |done].
  2: { apply (nodes_elem t l Hl). exists rrow. by rewrite Hid. }
  simpl. destruct (tree_root t _ Ht) as (r & Hr & Hnone). assert (r = rrow) as -> by congruence.
  apply stored_node_from_row_Ok in Hn as (d & _ & _ & ->). simpl. by rewrite Hnone, Hroot, str_eqb_refl.
Qed.
End reading.

(** ** Receipts *)

Section receipts.
Context `{Digest} `{ContextCodec}.

(** serde_json reads back the receipt it wrote. *)
Class ContextCodecLaws : Prop := {
  receipt_roundtrip r : receipt_from_str (receipt_to_string r) = Some r
}.

(** The request as it is compared and committed. *)
Definition prepare (t : ContextTransaction) : ContextDbResult ContextTransaction :=
  _ ← validate_transaction t;
  t1 ← normalize_transaction_bodies t;
  _ ← validate_transaction t1;
  normalize_transaction_bodies t1.

Definition request_key (t : ContextTransaction) : str * str := (tx_context_id t, tx_idempotency_key t).

(** What a prepared request does. *)
Definition finish (db : Db) (now : nat → str) (t : ContextTransaction)
    : ContextDbResult (TransactionReceipt * Db) :=
  let hash := digest_bytes (request_to_vec t) in
  match receipts db !! request_key t with
  | Some row =>
      if negb (q_request_hash row =s hash) then Err (IdempotencyReuse (tx_idempotency_key t))
      else
        receipt ← ok_or (receipt_from_str (q_receipt_json row)) (Codec (Msg "receipt" []));
        Ok (replayed receipt, db)
  | None => commit_transaction db now hash t
  end.

Lemma apply_transaction_prepare db now t : apply_transaction db now t = (t' ← prepare t; finish db now t').
Proof.
  unfold apply_transaction, apply_in_transaction, prepare.
  destruct (validate_transaction t); [|done]. simpl.
  destruct (normalize_transaction_bodies t) as [t1|]; [|done]. simpl.
  destruct (validate_transaction t1); [|done]. simpl.
  destruct (normalize_transaction_bodies t1); done.
Qed.

Lemma prepare_key t t' : prepare t = Ok t' → request_key t' = request_key t ∧ tx_authority t' = tx_authority t.
Proof.
  unfold prepare. intros (_ & _ & (t1 & Hn1 & (_ & _ & Hn2)%bind_Ok)%bind_Ok)%bind_Ok.
  apply normalize_transaction_ok in Hn1 as (_ & H1 & H2 & H3 & _), Hn2 as (_ & H4 & H5 & H6 & _).
  unfold request_key. split; congruence.
Qed.

(** Steps never lose a receipt. *)
Lemma db_step_receipts db db' : db_step db db' → receipts db ⊆ receipts db'.
Proof.
  intros [d now r s d' (_ & _ & -> & _)%create_context_Ok|d now t r d' Ha]; [done|].
  rewrite apply_transaction_prepare in Ha. apply bind_Ok in Ha as (t' & _ & Ha). unfold finish in Ha.
  destruct (receipts d !! request_key t') as [row|] eqn:Hrow.
  - destruct (negb _); [done|]. by apply bind_Ok in Ha as (? & _ & [= _ <-]).
  - apply commit_transaction_Ok in Ha as (x & x' & p & rows' & _ & _ & _ & _ & _ & _ & _ & _ & _ & _ & _ & _ & _ & ->).
    by apply insert_subseteq.
Qed.

Lemma db_steps_receipts db db' : rtc db_step db db' → receipts db ⊆ receipts db'.
Proof. induction 1 as [|a b c Hab _ IH]; [done|]. etrans; [by apply db_step_receipts|done]. Qed.

Lemma finish_stored `{!ContextCodecLaws} db now t r db' :
  finish db now t = Ok (r, db') →
  ∃ row r0, receipts db' !! request_key t = Some row ∧
    q_request_hash row = digest_bytes (request_to_vec t) ∧
    receipt_from_str (q_receipt_json row) = Some r0 ∧ replayed r0 = replayed r.
Proof.
  unfold finish. destruct (receipts db !! request_key t) as [row|] eqn:Hrow.
  - destruct (str_eqb_spec (q_request_hash row) (digest_bytes (request_to_vec t))); [|done]. simpl.
    intros (r0 & Hr0%ok_or_Ok & [= <- <-])%bind_Ok. by exists row, r0.
  - intros (x & x' & p & rows' & _ & _ & _ & _ & _ & _ & _ & _ & _ & _ & _ & _ & _ & Hr)%commit_transaction_Ok.
    rewrite Hr. eexists _, r. unfold request_key. rewrite lookup_insert_eq. split_and!; [done|done| |done].
    apply receipt_roundtrip.
Qed.
End receipts.

(** ** Authority *)

Section authority.
Context `{Digest}.

(** A row whose owner is not among the granted domains. *)
Definition protected (authority : ContextAuthority) (row : NodeRow) : Prop :=
  ∀ d, r_owner_domain row = as_str d → d ∉ granted_domains authority.

(** Tables with the same protected rows. *)
Definition keeps (authority : ContextAuthority) (t t' : Table) : Prop :=
  ∀ n row, protected authority row → t !! n = Some row ↔ t' !! n = Some row.

Lemma require_Ok a d u : require a d = Ok u → d ∈ granted_domains a.
Proof. unfold require. by case_bool_decide. Qed.

(** Replacing a row of a granted owner by another of a granted owner. *)
Lemma keeps_insert a t id row' d' :
  (∀ row, t !! id = Some row → ∃ d, r_owner_domain row = as_str d ∧ d ∈ granted_domains a) →
  r_owner_domain row' = as_str d' → d' ∈ granted_domains a → keeps a t (<[id := row']> t).
Proof.
  intros Hold Hd Hin n row Hp. destruct (decide (n = id)) as [->|Hne]; [|by rewrite lookup_insert_ne].
  rewrite lookup_insert_eq. split.
  - intros Hrow. destruct (Hold row Hrow) as (d & Ho & Hg). by destruct (Hp d Ho).
  - intros [= ->]. by destruct (Hp d' Hd).
Qed.

Lemma loaded_owner id row n : stored_node_from_row id row = Ok n → r_owner_domain row = as_str (owner_domain n).
Proof. by intros (d & Hd & _ & ->)%stored_node_from_row_Ok. Qed.

Lemma require_all_subtree a t id subtree u x row :
  load_subtree t id = Ok subtree → require_all a subtree = Ok u →
  x ∈ subtree_ids t id → t !! x = Some row → ∃ d, r_owner_domain row = as_str d ∧ d ∈ granted_domains a.
Proof.
  intros Hl Hreq Hx Hrow. unfold require_all in Hreq. apply try_each_Ok in Hreq. rewrite Forall_forall in Hreq.
  unfold load_subtree in Hl.
  assert ((x, row) ∈ filter (λ r : str * NodeRow, r.1 ∈ subtree_ids t id) (map_to_list t)) as Hin
    by (apply list_elem_of_filter; split; [done|by apply elem_of_map_to_list]).
  destruct (load_rows_total _ _ _ _ Hl Hin) as [n Hn].
  assert (node_id n = x) as Hid by (apply stored_node_from_row_Ok in Hn as (d & _ & _ & ->); done).
  exists (owner_domain n). split; [by eapply loaded_owner|].
  eapply require_Ok, Hreq. apply (load_rows_elem _ _ _ Hl). exists row. by rewrite Hid.
Qed.

Lemma update_at_keeps a t id rev f :
  (∀ row, t !! id = Some row → ∃ d, r_owner_domain row = as_str d ∧ d ∈ granted_domains a) →
  (∀ row, r_owner_domain (f row) = r_owner_domain row) → keeps a t (update_at t id rev f).
Proof.
  intros Hold Hf. unfold update_at. destruct (t !! id) as [row|] eqn:Hrow; [|by intros n r _].
  destruct (_ =? _); [|by intros n r _]. destruct (Hold row eq_refl) as (d & Hd & Hin).
  eapply (keeps_insert _ _ _ _ d); [|by rewrite Hf|done]. intros r Hr. exists d. split; [congruence|done].
Qed.

Lemma apply_operation_keeps root a p o p' :
  apply_operation root a p o = Ok p' → keeps a (rows p) (rows p').
Proof.
  destruct o as [node|id e body|id h|id e h np order]; simpl; intros Ho.
  - unfold insert_node in Ho. res_inv. unfold node_exists in Ho.
    destruct (rows p !! d_node_id node) eqn:Hid; [done|]. simpl in Ho. res_inv. simpl.
    match goal with HH : require a (d_owner_domain node) = Ok _ |- _ => apply require_Ok in HH as Hin end.
    eapply keeps_insert; [by rewrite Hid|done|done].
  - unfold replace_node in Ho.
    apply bind_Ok in Ho as (cur & (row & Hrow & Hcur)%load_node_Ok & Ho).
    apply bind_Ok in Ho as (u & Hreq%require_Ok & Ho). destruct (negb _); [done|].
    apply bind_Ok in Ho as (next & _ & [= <-]). simpl. apply update_at_keeps; [|done].
    intros r Hr. exists (owner_domain cur). split; [|done]. eapply loaded_owner. by replace r with row by congruence.
  - unfold delete_subtree in Ho. destruct (id =s root); [done|].
    apply bind_Ok in Ho as (target & _ & Ho). destruct (negb _); [done|].
    apply bind_Ok in Ho as (subtree & Hsub & Ho). apply bind_Ok in Ho as (u & Hreq & Ho).
    apply bind_Ok in Ho as (dirty' & _ & [= <-]). simpl. intros n row Hp. rewrite map_lookup_filter_Some. simpl.
    split; [|tauto]. intros Hrow. split; [done|]. intros Hin.
    destruct (require_all_subtree _ _ _ _ _ _ _ Hsub Hreq Hin Hrow) as (d & Hd & Hg). by destruct (Hp d Hd).
  - unfold move_subtree in Ho. destruct (id =s root); [done|].
    apply bind_Ok in Ho as (target & _ & Ho). destruct (_ || _); [done|].
    apply bind_Ok in Ho as (subtree & Hsub & Ho). apply bind_Ok in Ho as (u & Hreq & Ho).
    apply bind_Ok in Ho as (np' & _ & Ho). apply bind_Ok in Ho as (? & _ & Ho).
    apply bind_Ok in Ho as (? & _ & Ho). apply bind_Ok in Ho as (dirty' & _ & Ho).
    apply bind_Ok in Ho as (next & _ & [= <-]). simpl. apply update_at_keeps; [|done].
    intros r Hr. eapply (require_all_subtree _ _ id); [done|done| |done]. by apply subtree_ids_spec.
Qed.

Lemma apply_operations_keep root a l p p' :
  foldM (apply_operation root a) p l = Ok p' → keeps a (rows p) (rows p').
Proof.
  revert p. induction l as [|o l IH]; intros p; simpl; [by intros [= <-] n row _|].
  intros (q & Hq%apply_operation_keeps & Hr%IH)%bind_Ok n row Hp. rewrite (Hq n row Hp). by apply Hr.
Qed.
End authority.

Section claims.
Context `{Digest} `{ContextCodec}.

Lemma load_meta_ok db id x :
  db_ok db → contexts db !! id = Some x →
  load_context_meta db id =
  Ok (mkMeta id (x_tenant_id x) (x_agent_id x) (x_revision x) (x_root_node_id x) (x_root_hash x)).
Proof.
  intros Hdb Hx. destruct (db_contexts db Hdb id x Hx) as [_ _ _ _ Hrev Hs _].
  unfold load_context_meta. rewrite Hx. unfold context_meta_from_row, u64_try_from. rewrite Hs. simpl.
  destruct (Z.leb_spec 0 (x_revision x)); [done|lia].
Qed.

(** C14. Integrity: in every database that calls can reach each context is one tree that
    hangs from its root, every stored hash is the hash of the whole subtree below its node,
    the recorded root hash commits to the whole context, and every body is canonical text
    with its content hash. *)
Theorem context_integrity db id x :
  reachable db → contexts db !! id = Some x →
  let t := table db id in
  tree_ok t (x_root_node_id x) ∧ merkle t (x_root_node_id x) (x_root_hash x) ∧
  ∀ n row, t !! n = Some row →
    merkle t n (r_subtree_hash row) ∧
    canonicalize_body (r_body_sexpr row) = Ok (r_body_sexpr row, r_content_hash row) ∧
    1 <= r_node_revision row <= i64_max ∧ ∃ d, from_storage (r_owner_domain row) = Ok d.
Proof.
  intros Hr Hx. destruct (db_contexts db (reachable_ok db Hr) id x Hx) as [Ht Hrows Hh (rr & Hrr & Hroot) _ _ _].
  split; [done|]. split.
  - rewrite <- Hroot. by eapply hashes_merkle.
  - intros n row Hrow. destruct (Hrows n row Hrow) as [[d Hd] Hrev Hbody Hcontent].
    split_and!; [by eapply hashes_merkle| |lia..|exists d; by apply from_storage_Ok].
    rewrite canonicalize_body_canonical by done. by rewrite Hcontent.
Qed.

(** The audit is complete on every reachable context within the depth limit: it
    recomputes the recorded root hash, finds no mismatched node and reports a match. *)
Theorem audit_passes db id x :
  reachable db → contexts db !! id = Some x →
  within_depth (table db id) (x_root_node_id x) (N.to_nat MAX_TREE_DEPTH) →
  audit_context db id =
  Ok (mkReport id (x_revision x) (N.of_nat (size (table db id))) (x_root_hash x) (x_root_hash x) [] true).
Proof.
  intros Hr Hx Hd. pose proof (reachable_ok db Hr) as Hdb. pose proof (db_contexts db Hdb id x Hx) as Hok.
  unfold audit_context. rewrite (context_name _ _ _ Hok). simpl. rewrite (load_meta_ok db id x) by done. simpl.
  destruct (load_nodes_ok (table db id) (context_rows _ _ _ Hok)) as (l & -> & Hl). simpl.
  by apply audit_loaded_ok.
Qed.

(** Snapshots are complete and readable within the depth limit: [get_context] succeeds on
    every reachable context, returns exactly its nodes with the recorded revision and root
    hash, and its text renders the whole tree, children in order below their parents. *)
Theorem snapshot_complete db id x :
  reachable db → contexts db !! id = Some x →
  within_depth (table db id) (x_root_node_id x) (N.to_nat MAX_TREE_DEPTH) →
  ∃ s e, get_context db id = Ok s ∧ renders (table db id) (x_root_node_id x) e ∧
    s_canonical_sexpr s = to_string e ∧ s_revision s = x_revision x ∧ s_root_hash s = x_root_hash x ∧
    NoDup (map node_id (s_nodes s)) ∧
    ∀ n, n ∈ s_nodes s ↔
      ∃ row, table db id !! node_id n = Some row ∧ stored_node_from_row (node_id n) row = Ok n.
Proof.
  intros Hr Hx Hd. pose proof (reachable_ok db Hr) as Hdb. pose proof (db_contexts db Hdb id x Hx) as Hok.
  unfold get_context. rewrite (context_name _ _ _ Hok). simpl. rewrite (load_meta_ok db id x) by done. simpl.
  destruct (load_nodes_ok (table db id) (context_rows _ _ _ Hok)) as (l & -> & Hl). simpl.
  destruct (build_snapshot_ok id (table db id) x l Hok Hl Hd) as (e & He & ->).
  eexists _, e. split_and!; try done; simpl; [apply (nodes_NoDup _ _ Hl)|]. apply (nodes_elem _ _ Hl).
Qed.

Lemma get_context_depth db id x s :
  reachable db → contexts db !! id = Some x → get_context db id = Ok s →
  within_depth (table db id) (x_root_node_id x) (N.to_nat MAX_TREE_DEPTH).
Proof.
  intros Hr Hx. pose proof (reachable_ok db Hr) as Hdb. pose proof (db_contexts db Hdb id x Hx) as Hok.
  unfold get_context. rewrite (context_name _ _ _ Hok). simpl. rewrite (load_meta_ok db id x) by done. simpl.
  destruct (load_nodes_ok (table db id) (context_rows _ _ _ Hok)) as (l & -> & Hl). simpl.
  unfold build_snapshot, render_loaded_tree. intros ([e v] & ([e' v'] & He & _)%bind_Ok & _)%bind_Ok y k Hk.
  pose proof (read_depth _ l (context_rows _ _ _ Hok) Hl _ _ _ _ _ _ _ He Hk). unfold tree_levels in *. lia.
Qed.

(** A reachable context can be read exactly when no node lies deeper than the limit of
    128 levels. *)
Theorem readable_iff_shallow db id x :
  reachable db → contexts db !! id = Some x →
  (∃ s, get_context db id = Ok s) ↔
  within_depth (table db id) (x_root_node_id x) (N.to_nat MAX_TREE_DEPTH).
Proof.
  intros Hr Hx. split; [intros [s Hs]; by eapply get_context_depth|]. intros Hd.
  pose proof (reachable_ok db Hr) as Hdb. pose proof (db_contexts db Hdb id x Hx) as Hok.
  unfold get_context. rewrite (context_name _ _ _ Hok). simpl. rewrite (load_meta_ok db id x) by done. simpl.
  destruct (load_nodes_ok (table db id) (context_rows _ _ _ Hok)) as (l & -> & Hl). simpl.
  destruct (build_snapshot_ok id (table db id) x l Hok Hl Hd) as (e & _ & He). by eexists.
Qed.

(** C15. A transaction is applied once: after it has committed, the same request returns the
    stored receipt as a replay and changes nothing, whatever other calls committed in
    between, and another request under its idempotency key is never applied. *)
Theorem applied_once `{!ContextCodecLaws} db now t receipt db' db'' now' :
  apply_transaction db now t = Ok (receipt, db') → rtc db_step db' db'' →
  apply_transaction db'' now' t = Ok (replayed receipt, db'') ∧
  ∀ t2 r2 db2, request_key t2 = request_key t → apply_transaction db'' now' t2 = Ok (r2, db2) →
    db2 = db'' ∧ r2 = replayed receipt.
Proof.
  intros Ha Hsteps%db_steps_receipts. rewrite apply_transaction_prepare in Ha.
  apply bind_Ok in Ha as (t' & Ht & Hf). destruct (prepare_key t t' Ht) as [Hkey _].
  apply finish_stored in Hf as (row & r0 & Hrow & Hhash & Hr0 & Hrep).
  pose proof (lookup_weaken _ _ _ _ Hrow Hsteps) as Hrow'. split.
  - rewrite apply_transaction_prepare, Ht. simpl. unfold finish. rewrite Hrow', Hhash, str_eqb_refl. simpl.
    rewrite Hr0. simpl. by rewrite Hrep.
  - intros t2 r2 db2 Hk Ha2. rewrite apply_transaction_prepare in Ha2.
    apply bind_Ok in Ha2 as (t2' & Ht2 & Hf2). destruct (prepare_key t2 t2' Ht2) as [Hkey2 _].
    unfold finish in Hf2. rewrite Hkey2, Hk, <- Hkey, Hrow' in Hf2. destruct (negb _); [done|].
    apply bind_Ok in Hf2 as (r & Hr & [= <- <-]). apply ok_or_Ok in Hr. rewrite Hr0 in Hr. injection Hr as <-. done.
Qed.

(** C16. A transaction changes only what its authority covers: the nodes of every domain that
    was not granted keep their place, body, owner and revision, none appears and none
    disappears, and no other context changes. *)
Theorem authority_respected db now t receipt db' :
  apply_transaction db now t = Ok (receipt, db') →
  (∀ n row, protected (tx_authority t) row →
     (table db (tx_context_id t) !! n = Some row →
        ∃ h, table db' (tx_context_id t) !! n = Some (with_hash h row)) ∧
     (table db' (tx_context_id t) !! n = Some row →
        ∃ h, table db (tx_context_id t) !! n = Some (with_hash h row))) ∧
  ∀ id, id ≠ tx_context_id t → table db' id = table db id ∧ contexts db' !! id = contexts db !! id.
Proof.
  intros Ha. rewrite apply_transaction_prepare in Ha. apply bind_Ok in Ha as (t' & Ht & Hf).
  destruct (prepare_key t t' Ht) as [Hkey Hauth]. unfold finish in Hf.
  assert (tx_context_id t' = tx_context_id t) as Hid by (unfold request_key in Hkey; congruence).
  destruct (receipts db !! request_key t') as [row|].
  { destruct (negb _); [done|]. apply bind_Ok in Hf as (r & _ & [= <- <-]).
    split; [|done]. intros n r' _. split; intros Hr; exists (r_subtree_hash r'); by rewrite with_hash_id. }
  apply commit_transaction_Ok in Hf as (x & x' & p & rows' & _ & _ & _ & Hp & Hre & Hcx & Hcn & _).
  rewrite Hid in *. apply apply_operations_keep in Hp. simpl in Hp. rewrite Hauth in Hp. split.
  - intros n row Hprot. apply recompute_same_rows in Hre as [computed Hc]. unfold table at 2 3.
    rewrite Hcn, lookup_insert_eq. simpl. rewrite Hc. split.
    + intros Hrow%(Hp n row Hprot). rewrite Hrow. by eexists.
    + intros Hrow. destruct (rows p !! n) as [row0|] eqn:Hrow0; [|done]. injection Hrow as <-.
      exists (r_subtree_hash row0). apply (Hp n); [done|]. rewrite Hrow0. by destruct row0.
  - intros id Hne. unfold table. by rewrite Hcx, Hcn, !lookup_insert_ne.
Qed.

(** A commit advances the context by exactly one revision, from a state no older than the
    base the request was prepared against; the receipt records the revisions, whether the
    request was rebased, and the new root hash; and the identity of the context stays. *)
Theorem commit_advances_revision db now t receipt db' :
  apply_transaction db now t = Ok (receipt, db') → re_idempotent_replay receipt = false →
  ∃ x x', contexts db !! tx_context_id t = Some x ∧ contexts db' !! tx_context_id t = Some x' ∧
    tx_base_revision t <= x_revision x < x_revision x' ∧ x_revision x' = x_revision x + 1 ∧
    x_revision x' <= i64_max ∧
    re_before_revision receipt = x_revision x ∧ re_after_revision receipt = x_revision x' ∧
    (re_rebased receipt = true ↔ tx_base_revision t ≠ x_revision x) ∧
    re_root_hash receipt = x_root_hash x' ∧ x_root_node_id x' = x_root_node_id x ∧
    x_tenant_id x' = x_tenant_id x ∧ x_agent_id x' = x_agent_id x.
Proof.
  intros (t' & Hid & _ & _ & Hbase & _ & Hf)%apply_transaction_Ok Hrep. simpl in Hf.
  destruct (receipts db !! _) as [row|].
  { destruct Hf as (_ & _ & r & _ & ->). done. }
  apply commit_transaction_Ok in Hf as (x & x' & p & rows' & Hx & Hb & Hmax & _ & _ & Hcx & _ & H1 & H2 & H3 & _ & H4 & -> & _).
  rewrite Hid, Hbase in *. exists x, x'. rewrite Hcx, lookup_insert_eq. simpl. split_and!; try done; try lia.
Qed.

(** Canonical bodies are stable: canonicalizing a canonical body gives it back with the
    same content hash, and both texts read as the same expression. *)
Theorem canonical_body_stable input body hash :
  canonicalize_body input = Ok (body, hash) →
  canonicalize_body body = Ok (body, hash) ∧ ∃ e, parse_all input = Ok [e] ∧ parse_all body = Ok [e].
Proof.
  intros Hc. pose proof Hc as [Hb ->]%canonicalize_body_Ok. split; [by apply canonicalize_body_canonical|].
  unfold canonicalize_body in Hc. apply bind_Ok in Hc as (forms & Hp%map_err_Ok & Hc).
  pose proof (sexpr_forms_nested _ _ Hp) as Hd.
  destruct forms as [|[s|items] [|? ?]]; try done. destruct items as [|[[|c s]|l] items]; try done.
  injection Hc as <-. eexists. split; [exact Hp|]. apply parse_all_print. by inversion Hd.
Qed.
End claims.

(** ** Samples *)

#[local] Existing Instance sample_digest.
#[local] Existing Instance sample_codec.

#[local] Instance sample_codec_laws : ContextCodecLaws.
Proof. split. intros r. simpl. apply decode_encode. Qed.

Lemma grown_reachable : reachable grown.
Proof. apply applied_reachable, created_reachable. Qed.

Lemma grown_context : ∃ x, contexts grown !! ctx = Some x ∧
  within_depth (table grown ctx) (x_root_node_id x) (N.to_nat MAX_TREE_DEPTH).
Proof.
  destruct (contexts grown !! ctx) as [x|] eqn:Hx; [|vm_compute in Hx; discriminate].
  exists x. split; [reflexivity|]. destruct (get_context grown ctx) as [s|] eqn:Hs; [|vm_compute in Hs; discriminate].
  exact (get_context_depth grown ctx x s grown_reachable Hx Hs).
Qed.

Lemma context_integrity_witness :
  ∃ x, contexts grown !! ctx = Some x ∧ tree_ok (table grown ctx) (x_root_node_id x) ∧
       merkle (table grown ctx) (x_root_node_id x) (x_root_hash x).
Proof.
  destruct grown_context as (x & Hx & _). exists x. split; [exact Hx|].
  destruct (context_integrity grown ctx x grown_reachable Hx) as (Ht & Hm & _). split; [exact Ht|exact Hm].
Defined.

Lemma audit_passes_witness :
  ∃ x, contexts grown !! ctx = Some x ∧
    audit_context grown ctx =
    Ok (mkReport ctx (x_revision x) (N.of_nat (size (table grown ctx))) (x_root_hash x) (x_root_hash x) [] true).
Proof.
  destruct grown_context as (x & Hx & Hd). exists x. split; [exact Hx|].
  exact (audit_passes grown ctx x grown_reachable Hx Hd).
Defined.

Lemma snapshot_complete_witness :
  ∃ x s, contexts grown !! ctx = Some x ∧ get_context grown ctx = Ok s ∧ s_root_hash s = x_root_hash x.
Proof.
  destruct grown_context as (x & Hx & Hd).
  destruct (snapshot_complete grown ctx x grown_reachable Hx Hd) as (s & e & Hs & _ & _ & _ & Hh & _).
  exists x, s. split; [exact Hx|split; [exact Hs|exact Hh]].
Defined.

Lemma readable_iff_shallow_witness : ∃ s, get_context grown ctx = Ok s.
Proof.
  destruct grown_context as (x & Hx & Hd). apply (readable_iff_shallow grown ctx x grown_reachable Hx), Hd.
Defined.

Lemma applied_once_witness :
  ∃ r, apply_transaction created sample_clock grow = Ok (r, grown) ∧
       apply_transaction revised (λ _, []) grow = Ok (replayed r, revised).
Proof.
  destruct (applied_Ok created grow (λ _, true)) as (r & Hr & _); [by vm_compute|].
  destruct (applied_Ok grown revise (λ _, true)) as (r' & Hr' & _); [by vm_compute|].
  exists r. split; [exact Hr|].
  apply (applied_once created sample_clock grow r grown revised (λ _, []) Hr).
  exact (rtc_l _ _ _ _ (step_apply _ _ _ _ _ Hr') (rtc_refl _ _)).
Defined.

Lemma authority_respected_witness :
  ∃ r row, apply_transaction grown sample_clock revise = Ok (r, revised) ∧
    table grown ctx !! s! "b" = Some row ∧ r_owner_domain row = as_str RuntimeInput ∧
    ∃ h, table revised ctx !! s! "b" = Some (with_hash h row).
Proof.
  destruct (applied_Ok grown revise (λ _, true)) as (r & Hr & _); [by vm_compute|].
  assert (∃ row, table grown ctx !! s! "b" = Some row ∧ r_owner_domain row = as_str RuntimeInput)
    as (row & Hrow & Ho) by (vm_compute; eexists; split; reflexivity).
  exists r, row. split; [exact Hr|]. split; [exact Hrow|]. split; [exact Ho|].
  destruct (authority_respected grown sample_clock revise r revised Hr) as [Hk _].
  apply (Hk s! "b" row); [|exact Hrow].
  intros d Hd. rewrite Ho in Hd. clear - Hd. destruct d; try discriminate Hd.
  simpl. intros Hin%list_elem_of_singleton. discriminate Hin.
Defined.

Lemma commit_advances_revision_witness :
  ∃ x x', contexts grown !! ctx = Some x ∧ contexts revised !! ctx = Some x' ∧ x_revision x' = x_revision x + 1.
Proof.
  destruct (applied_Ok grown revise (λ r, negb (re_idempotent_replay r))) as (r & Hr & Hn%negb_true_iff); [by vm_compute|].
  destruct (commit_advances_revision grown sample_clock revise r revised Hr Hn) as (x & x' & Hx & Hx' & _ & He & _).
  exists x, x'. split; [exact Hx|split; [exact Hx'|exact He]].
Defined.

Lemma canonical_body_stable_witness :
  ∃ hash, canonicalize_body s! "(plan   one)" = Ok (s! "(plan one)", hash) ∧
          canonicalize_body s! "(plan one)" = Ok (s! "(plan one)", hash).
Proof.
  eexists. split; [vm_compute; reflexivity|].
  refine (proj1 (canonical_body_stable s! "(plan   one)" s! "(plan one)" _ _)). vm_compute. reflexivity.
Defined.

(** ** What callers may not expect *)

(** The depth limit is not enforced where it is needed: one accepted transaction puts a
    node below the limit of 128 levels, and the context can then neither be read nor
    audited. *)
Theorem deep_insert_unreadable :
  reachable created ∧
  ∃ r m1 m2, apply_transaction created sample_clock deepen = Ok (r, deepened) ∧
    re_idempotent_replay r = false ∧
    get_context deepened ctx = Err (Corrupt m1) ∧ audit_context deepened ctx = Err (Corrupt m2).
Proof.
  split; [apply created_reachable|]. unfold deepened, applied.
  assert (match apply_transaction created sample_clock deepen with
          | Ok (r, db') => match re_idempotent_replay r, get_context db' ctx, audit_context db' ctx with
                           | false, Err (Corrupt _), Err (Corrupt _) => true | _, _, _ => false end
          | Err _ => false end = true) as Hc by (vm_compute; reflexivity).
  destruct (apply_transaction created sample_clock deepen) as [[r db']|]; [|done]. unfold after. exists r.
  destruct (re_idempotent_replay r); [done|].
  destruct (get_context db' ctx) as [|[]]; try done. destruct (audit_context db' ctx) as [|[]]; try done.
  by eexists _, _.
Qed.

(** A node revision does not identify a state of a node: two replacements of one node,
    prepared against the same context revision with the same expected node revision, are
    both committed when the node is deleted and inserted again in between, and the second
    overwrites a body that its author has not read. *)
Theorem stale_replace_overwrites :
  reachable grown ∧
  ∃ r1 r2 r3 row, apply_transaction grown sample_clock first_replace = Ok (r1, replaced) ∧
    apply_transaction replaced sample_clock swap = Ok (r2, swapped) ∧
    table swapped ctx !! s! "c" = Some row ∧ r_body_sexpr row = s! "(step other)" ∧ r_node_revision row = 1 ∧
    apply_transaction swapped sample_clock second_replace = Ok (r3, overwritten) ∧
    re_idempotent_replay r3 = false ∧ re_rebased r3 = true ∧
    r_body_sexpr <$> table overwritten ctx !! s! "c" = Some s! "(step second)".
Proof.
  split; [apply grown_reachable|].
  destruct (applied_Ok grown first_replace (λ _, true)) as (r1 & H1 & _); [by vm_compute|].
  destruct (applied_Ok replaced swap (λ _, true)) as (r2 & H2 & _); [by vm_compute|].
  destruct (applied_Ok swapped second_replace (λ r, negb (re_idempotent_replay r) && re_rebased r))
    as (r3 & H3 & Hn); [by vm_compute|].
  assert (∃ row, table swapped ctx !! s! "c" = Some row ∧ r_body_sexpr row = s! "(step other)" ∧
            r_node_revision row = 1) as (row & Hrow & Hb & Hv)
    by (vm_compute; eexists; split; [reflexivity|split; reflexivity]).
  exists r1, r2, r3, row. apply andb_true_iff in Hn as [Hn%negb_true_iff Hr].
  split; [exact H1|]. split; [exact H2|]. split; [exact Hrow|].
  split; [exact Hb|]. split; [exact Hv|]. split; [exact H3|]. split; [exact Hn|]. split; [exact Hr|].
  vm_compute. reflexivity.
Qed.
