(* ===== verification/Paths.v ===== *)
(** * Paths and the file system

    [std::path] on Unix and the part of [std::fs] that decides where a path leads, with the
    resolution of denied paths (morphz/src/sandbox.rs) and the atomic write of the file tools
    (morphz/src/tool.rs).  A path is its components, so that repeated and trailing separators
    are not represented; file permissions are not modelled. *)

From stdpp Require Import base list gmap strings.
From Stdlib Require Import NArith ZArith Lia.
From S2P Require Import Prelude JsonValue Types Diagnostic Text.

(** ** Paths *)

(** [std::path::Component] on Unix; the root is [absolute]. *)
Inductive Component : Type :=
| Normal (name : str)
| ParentDir
| CurDir.

Record Path : Type := mkPath { absolute : bool; components : list Component }.

#[export] Instance component_eq_dec : EqDecision Component.
Proof. solve_decision. Defined.
#[export] Instance path_eq_dec : EqDecision Path.
Proof. solve_decision. Defined.

(** The parts of a text between slashes. *)
Fixpoint split_slash (part : str) (s : str) : list str :=
  match s with
  | [] => [reverse part]
  | c :: r => if (c =? 47)%N then reverse part :: split_slash [] r else split_slash (c :: part) r
  end.

(** A part inside a path: empty parts and single dots vanish. *)
Definition inner_component (part : str) : list Component :=
  match part with
  | [] => []
  | _ => if part =s s! "." then [] else if part =s s! ".." then [ParentDir] else [Normal part]
  end.

(** [Path::new] and [Path::components]: a dot that leads a relative path is kept. *)
Definition path_new (s : str) : Path :=
  let is_absolute := match s with 47%N :: _ => true | _ => false end in
  match split_slash [] s with
  | [] => mkPath is_absolute []
  | first :: rest =>
      mkPath is_absolute
        ((if negb is_absolute && (first =s s! ".") then [CurDir] else inner_component first)
         ++ concat (map inner_component rest))
  end.

(** [Path::to_string_lossy]. *)
Definition component_text (c : Component) : str :=
  match c with Normal name => name | ParentDir => s! ".." | CurDir => s! "." end.
Fixpoint join_slash (l : list Component) : str :=
  match l with
  | [] => []
  | [c] => component_text c
  | c :: r => component_text c ++ 47%N :: join_slash r
  end.
Definition path_text (p : Path) : str :=
  (if absolute p then [47%N] else []) ++ join_slash (components p).

Definition empty_path : Path := mkPath false [].
Definition is_empty_path (p : Path) : bool := bool_decide (p = empty_path).

(** [Path::join]. *)
Definition join (base relative : Path) : Path :=
  if absolute relative then relative
  else mkPath (absolute base)
         (components base ++ (if is_empty_path base then components relative
                              else List.filter (λ c, bool_decide (c ≠ CurDir)) (components relative))).

(** [Path::parent]. *)
Definition parent (p : Path) : option Path :=
  match components p with
  | [] => None
  | cs => Some (mkPath (absolute p) (removelast cs))
  end.

(** [Path::ancestors]: the path and its prefixes, the shortest last. *)
Definition ancestors (p : Path) : list Path :=
  map (λ n, mkPath (absolute p) (take n (components p))) (reverse (seq 0 (S (length (components p))))).

(** [Path::file_name]. *)
Definition file_name (p : Path) : option str :=
  match last (components p) with Some (Normal name) => Some name | _ => None end.

Fixpoint is_prefix (l1 l2 : list Component) : bool :=
  match l1, l2 with
  | [], _ => true
  | c1 :: r1, c2 :: r2 => bool_decide (c1 = c2) && is_prefix r1 r2
  | _, [] => false
  end.

(** [Path::starts_with], [Path::ends_with], [Path::strip_prefix]. *)
Definition path_starts_with (p base : Path) : bool :=
  eqb (absolute p) (absolute base) && is_prefix (components base) (components p).
Definition path_ends_with (p child : Path) : bool :=
  if absolute child then bool_decide (p = child)
  else is_prefix (reverse (components child)) (reverse (components p)).
Definition path_strip_prefix (p base : Path) : option Path :=
  if path_starts_with p base then Some (mkPath false (drop (length (components base)) (components p)))
  else None.

(** ** The file system *)

Inductive Entry : Type :=
| Dir
| File (content : str)
| Symlink (target : Path).

#[export] Instance entry_eq_dec : EqDecision Entry.
Proof. solve_decision. Defined.

(** A real path is the list of its names from the root, none of them a link on the way; the
    root is a directory. *)
Abbreviation RealPath := (list str).
Record FileSystem : Type := mkFs { cwd : RealPath; entries : gmap RealPath Entry }.

Inductive IoError : Type := NotFound | AlreadyExists | NotADirectory | IsADirectory | TooManyLinks.

Definition entry_of (fs : FileSystem) (r : RealPath) : option Entry :=
  match r with [] => Some Dir | _ => entries fs !! r end.

(** The walk of the kernel from a directory along components; links in the middle are always
    followed, a last one when [follow]. *)
Fixpoint walk (links : nat) (fs : FileSystem) (follow : bool) (start : RealPath) (cs : list Component)
    : result IoError RealPath :=
  (fix go (at_ : RealPath) (cs : list Component) : result IoError RealPath :=
     match cs with
     | [] => Ok at_
     | CurDir :: r => go at_ r
     | ParentDir :: r => go (removelast at_) r
     | Normal name :: r =>
         let here := at_ ++ [name] in
         match entries fs !! here with
         | None => Err NotFound
         | Some Dir => go here r
         | Some (File _) => match r with [] => Ok here | _ => Err NotADirectory end
         | Some (Symlink target) =>
             match r, follow with
             | [], false => Ok here
             | _, _ =>
                 match links with
                 | O => Err TooManyLinks
                 | S n => walk n fs follow (if absolute target then [] else at_) (components target ++ r)
                 end
             end
         end
     end) start cs.

Definition max_links : nat := 40.

Definition start_of (fs : FileSystem) (p : Path) : RealPath := if absolute p then [] else cwd fs.

(** Where a path leads; the empty path leads nowhere. *)
Definition locate (fs : FileSystem) (follow : bool) (p : Path) : result IoError RealPath :=
  if is_empty_path p then Err NotFound
  else walk max_links fs follow (start_of fs p) (components p).

Definition real (r : RealPath) : Path := mkPath true (map Normal r).

(** [Path::exists], [std::fs::canonicalize], [Path::is_dir], [Path::is_file],
    [std::fs::symlink_metadata]. *)
Definition path_exists (fs : FileSystem) (p : Path) : bool := is_ok (locate fs true p).
Definition canonicalize (fs : FileSystem) (p : Path) : result IoError Path := real <$> locate fs true p.
Definition is_dir (fs : FileSystem) (p : Path) : bool :=
  match locate fs true p with Ok r => bool_decide (entry_of fs r = Some Dir) | Err _ => false end.
Definition symlink_metadata (fs : FileSystem) (p : Path) : result IoError Entry :=
  r ← locate fs false p; ok_or (entry_of fs r) NotFound.

Definition set_entry (fs : FileSystem) (r : RealPath) (e : Entry) : FileSystem :=
  mkFs (cwd fs) (<[r := e]> (entries fs)).

(** The directory in which the last name of a path stands, and that name. *)
Definition place (fs : FileSystem) (p : Path) : result IoError (RealPath * str) :=
  match file_name p with
  | Some name =>
      d ← walk max_links fs true (start_of fs p) (removelast (components p));
      match entry_of fs d with
      | Some Dir => Ok (d, name)
      | _ => Err NotADirectory
      end
  | None => _ ← locate fs true p; Err AlreadyExists
  end.

(** mkdir(2). *)
Definition mkdir (fs : FileSystem) (p : Path) : result IoError FileSystem :=
  '(d, name) ← place fs p;
  match entries fs !! (d ++ [name]) with
  | Some _ => Err AlreadyExists
  | None => Ok (set_entry fs (d ++ [name]) Dir)
  end.

(** [std::fs::create_dir_all], which keeps the directories it made when it fails; the fuel
    suffices when it exceeds the components. *)
Fixpoint create_dir_all (fuel : nat) (fs : FileSystem) (p : Path) : FileSystem * result IoError unit :=
  match fuel with
  | O => (fs, Err NotFound)
  | S n =>
      if is_empty_path p then (fs, Ok tt)
      else
        match mkdir fs p with
        | Ok fs' => (fs', Ok tt)
        | Err NotFound =>
            match parent p with
            | None => (fs, Err NotFound)
            | Some q =>
                match create_dir_all n fs q with
                | (fs1, Err e) => (fs1, Err e)
                | (fs1, Ok _) =>
                    match mkdir fs1 p with
                    | Ok fs' => (fs', Ok tt)
                    | Err e => if is_dir fs1 p then (fs1, Ok tt) else (fs1, Err e)
                    end
                end
            end
        | Err e => if is_dir fs p then (fs, Ok tt) else (fs, Err e)
        end
  end.

(** [OpenOptions::create_new]. *)
Definition create_new (fs : FileSystem) (p : Path) (content : str) : result IoError FileSystem :=
  '(d, name) ← place fs p;
  match entries fs !! (d ++ [name]) with
  | Some _ => Err AlreadyExists
  | None => Ok (set_entry fs (d ++ [name]) (File content))
  end.

(** rename(2) of a file: a link at the new place is replaced. *)
Definition rename (fs : FileSystem) (from to : Path) : result IoError FileSystem :=
  '(d, name) ← place fs from;
  '(d', name') ← place fs to;
  e ← ok_or (entries fs !! (d ++ [name])) NotFound;
  match entries fs !! (d' ++ [name']) with
  | Some Dir => Err IsADirectory
  | _ => Ok (mkFs (cwd fs) (<[d' ++ [name'] := e]> (delete (d ++ [name]) (entries fs))))
  end.

(** [std::fs::remove_file], ignoring its error. *)
Definition remove_file (fs : FileSystem) (p : Path) : FileSystem :=
  match place fs p with
  | Ok (d, name) => mkFs (cwd fs) (delete (d ++ [name]) (entries fs))
  | Err _ => fs
  end.

(** ** Denied paths *)

(** morphz/src/sandbox.rs:476-493 [absolute_lexical_path, the loop]; the root cannot be
    left. *)
Fixpoint normalize_components (normalized : list Component) (cs : list Component)
    : option (list Component) :=
  match cs with
  | [] => Some normalized
  | CurDir :: r => normalize_components normalized r
  | ParentDir :: r =>
      match normalized with
      | [] => None
      | _ => normalize_components (removelast normalized) r
      end
  | Normal name :: r => normalize_components (normalized ++ [Normal name]) r
  end.

(** morphz/src/sandbox.rs:466-495 [absolute_lexical_path]. *)
Definition absolute_lexical_path (fs : FileSystem) (p : Path) : result Message Path :=
  let absolute_ := if absolute p then p else join (real (cwd fs)) p in
  match normalize_components [] (components absolute_) with
  | Some cs => Ok (mkPath true cs)
  | None => Err (Msg "sandbox deny path cannot be normalized: '{}'" [AStr (path_text p)])
  end.

(** morphz/src/sandbox.rs:435-464 [resolve_denied_path, the loop over the ancestors]. *)
Fixpoint resolve_denied_loop (fs : FileSystem) (absolute_ : Path) (l : list Path) : result Message Path :=
  let failure := Msg "failed to resolve sandbox {kind} root '{}': {detail}" [AStr (path_text absolute_)] in
  match l with
  | [] => Err failure
  | ancestor :: rest =>
      match canonicalize fs ancestor with
      | Ok canonical =>
          suffix ← ok_or (path_strip_prefix absolute_ ancestor) failure;
          absolute_lexical_path fs (join canonical suffix)
      | Err NotFound =>
          match symlink_metadata fs ancestor with
          | Ok (Symlink _) => Err failure
          | Ok _ | Err NotFound => resolve_denied_loop fs absolute_ rest
          | Err _ => Err failure
          end
      | Err _ => Err failure
      end
  end.

(** morphz/src/sandbox.rs:419-464 [resolve_denied_path]. *)
Definition resolve_denied_path (fs : FileSystem) (p : Path) : result Message Path :=
  let absolute_ := if absolute p then p else join (real (cwd fs)) p in
  resolve_denied_loop fs absolute_ (ancestors absolute_).

(** ** Writing a file *)

(** morphz/src/tool.rs:6441-6500 [atomic_write_text], with the name of the temporary file;
    directories that were created stay when a later step fails. *)
Definition atomic_write_text (fs : FileSystem) (p : Path) (content temp : str)
    : FileSystem * result Message unit :=
  match parent p with
  | None => (fs, Err (Msg "Write path '{}' has no parent directory" [AStr (path_text p)]))
  | Some directory =>
      match create_dir_all (S (length (components directory))) fs directory with
      | (fs1, Err _) => (fs1, Err (Msg "Failed to create directory '{}': {}" [AStr (path_text directory)]))
      | (fs1, Ok _) =>
          let temp_path := join directory (mkPath false [Normal temp]) in
          match create_new fs1 temp_path content with
          | Err _ => (remove_file fs1 temp_path, Err (Msg "failed to create atomic-write temporary file '{}': {}" []))
          | Ok fs2 =>
              match rename fs2 temp_path p with
              | Err _ => (remove_file fs2 temp_path, Err (Msg "atomic replacement '{}' -> '{}' failed: {}" []))
              | Ok fs3 => (fs3, Ok tt)
              end
          end
      end
  end.
