(* ===== verification/PathFacts.v ===== *)
(** * Where a write lands

    The walk along a path, and the directories that an atomic write changes: for a path of
    plain names they all lie below the longest prefix that existed before. *)

From stdpp Require Import base list gmap strings.
From Stdlib Require Import NArith ZArith Lia.
From S2P Require Import Prelude JsonValue Types Diagnostic Text Paths.

(** ** The walk *)

Definition is_link (e : Entry) : bool := match e with Symlink _ => true | _ => false end.

(** Every entry stands in a directory. *)
Definition fs_ok (fs : FileSystem) : Prop :=
  ∀ d n, is_Some (entries fs !! (d ++ [n])) → entry_of fs d = Some Dir.

Lemma entry_of_snoc fs d n : entry_of fs (d ++ [n]) = entries fs !! (d ++ [n]).
Proof. unfold entry_of. destruct (d ++ [n]) eqn:Hd; [|done]. by destruct (app_cons_not_nil d [] n). Qed.

Lemma dir_up fs d : fs_ok fs → is_Some (entry_of fs d) → entry_of fs (removelast d) = Some Dir.
Proof.
  intros Hok Hd. destruct d as [|n d _] using rev_ind; [done|]. rewrite removelast_last. apply Hok with n.
  by rewrite <- entry_of_snoc.
Qed.

(** The induction of the walk: over the links that may still be followed, then over the
    components. *)
Lemma walk_ind (P : nat → RealPath → list Component → Prop) :
  (∀ links at_, P links at_ []) →
  (∀ links at_ r, P links at_ r → P links at_ (CurDir :: r)) →
  (∀ links at_ r, P links (removelast at_) r → P links at_ (ParentDir :: r)) →
  (∀ links at_ name r, P links (at_ ++ [name]) r →
     (∀ n at' cs, links = S n → P n at' cs) → P links at_ (Normal name :: r)) →
  ∀ links at_ cs, P links at_ cs.
Proof.
  intros Hnil Hcur Hup Hname links. induction links as [|links IH]; intros at_ cs; revert at_.
  - induction cs as [|[name| |] r IHr]; intros at_; auto. apply Hname; [done|]. intros ? ? ? [=].
  - induction cs as [|[name| |] r IHr]; intros at_; auto. apply Hname; [done|]. intros ? ? ? [= <-]. apply IH.
Qed.

(** The walk, step by step. *)
Lemma walk_cur links fs follow at_ r : walk links fs follow at_ (CurDir :: r) = walk links fs follow at_ r.
Proof. by destruct links. Qed.
Lemma walk_up links fs follow at_ r :
  walk links fs follow at_ (ParentDir :: r) = walk links fs follow (removelast at_) r.
Proof. by destruct links. Qed.
Lemma walk_name links fs at_ name r :
  walk links fs true at_ (Normal name :: r) =
  match entries fs !! (at_ ++ [name]) with
  | None => Err NotFound
  | Some Dir => walk links fs true (at_ ++ [name]) r
  | Some (File _) => match r with [] => Ok (at_ ++ [name]) | _ => Err NotADirectory end
  | Some (Symlink target) =>
      match links with
      | O => Err TooManyLinks
      | S n => walk n fs true (if absolute target then [] else at_) (components target ++ r)
      end
  end.
Proof. destruct links; simpl; destruct (entries fs !! (at_ ++ [name])) as [[]|]; destruct r; done. Qed.
Lemma walk_nil links fs follow at_ : walk links fs follow at_ [] = Ok at_.
Proof. by destruct links. Qed.

#[local] Opaque walk.

(** More entries do not change where a path leads. *)
Lemma walk_mono fs fs' links at_ cs d :
  entries fs ⊆ entries fs' → walk links fs true at_ cs = Ok d → walk links fs' true at_ cs = Ok d.
Proof.
  intros Hsub. revert d. pattern links, at_, cs. revert links at_ cs. apply walk_ind.
  - intros. by rewrite !walk_nil in *.
  - intros links at_ r IH d. rewrite !walk_cur. apply IH.
  - intros links at_ r IH d. rewrite !walk_up. apply IH.
  - intros links at_ name r IH IHlink d. rewrite !walk_name.
    destruct (entries fs !! (at_ ++ [name])) as [e|] eqn:He; [|done]. rewrite (lookup_weaken _ _ _ _ He Hsub).
    destruct e as [|c|t]; [by apply IH|by destruct r|]. destruct links as [|n]; [done|]. by apply IHlink.
Qed.

(** An error on a prefix is the error of the path. *)
Lemma walk_error fs links at_ cs e c :
  walk links fs true at_ cs = Err e → walk links fs true at_ (cs ++ [c]) = Err e.
Proof.
  pattern links, at_, cs. revert links at_ cs. apply walk_ind.
  - intros links at_. by rewrite walk_nil.
  - intros links at_ r IH. simpl. rewrite !walk_cur. apply IH.
  - intros links at_ r IH. simpl. rewrite !walk_up. apply IH.
  - intros links at_ name r IH IHlink. simpl. rewrite !walk_name.
    destruct (entries fs !! (at_ ++ [name])) as [[|ct|t]|]; [by apply IH| |destruct links as [|n]|]; try done.
    + by destruct r.
    + rewrite app_assoc. by apply IHlink.
Qed.

(** One more name after a directory. *)
Lemma walk_snoc fs links at_ cs d name :
  walk links fs true at_ cs = Ok d → entry_of fs d = Some Dir →
  (entries fs !! (d ++ [name]) = None → walk links fs true at_ (cs ++ [Normal name]) = Err NotFound) ∧
  (∀ e, entries fs !! (d ++ [name]) = Some e → is_link e = false →
     walk links fs true at_ (cs ++ [Normal name]) = Ok (d ++ [name])).
Proof.
  pattern links, at_, cs. revert links at_ cs. apply walk_ind.
  - intros links at_. rewrite walk_nil. intros [= ->] Hd. simpl. rewrite walk_name. split.
    + by intros ->.
    + intros e -> He. destruct e; [by rewrite walk_nil|done|done].
  - intros links at_ r IH. simpl. rewrite !walk_cur. apply IH.
  - intros links at_ r IH. simpl. rewrite !walk_up. apply IH.
  - intros links at_ name' r IH IHlink. simpl. rewrite !walk_name.
    destruct (entries fs !! (at_ ++ [name'])) as [[|c|t]|] eqn:He; [by apply IH| | |done].
    + destruct r; [|done]. intros [= <-]. rewrite entry_of_snoc, He. done.
    + destruct links as [|n]; [done|]. rewrite app_assoc. by apply IHlink.
Qed.

(** A name can only be found in a directory. *)
Lemma walk_init fs links at_ cs name x :
  fs_ok fs → entry_of fs at_ = Some Dir → walk links fs true at_ (cs ++ [Normal name]) = Ok x →
  ∃ d, walk links fs true at_ cs = Ok d ∧ entry_of fs d = Some Dir.
Proof.
  intros Hok. pattern links, at_, cs. revert links at_ cs. apply walk_ind.
  - intros links at_ Hd _. exists at_. by rewrite walk_nil.
  - intros links at_ r IH Hd. simpl. rewrite !walk_cur. by apply IH.
  - intros links at_ r IH Hd. simpl. rewrite !walk_up. apply IH. apply dir_up; [done|]. by rewrite Hd.
  - intros links at_ name' r IH IHlink Hd. simpl. rewrite !walk_name.
    destruct (entries fs !! (at_ ++ [name'])) as [[|c|t]|] eqn:He; [| | |done].
    + apply IH. by rewrite entry_of_snoc.
    + by destruct r.
    + destruct links as [|n]; [done|]. rewrite app_assoc. apply IHlink; [done|]. by destruct (absolute t).
Qed.

(** ** Creating directories *)

(** An absolute path of plain names, and where it leads. *)
Definition plain (ns : list str) : Path := mkPath true (map Normal ns).
Definition leads (fs : FileSystem) (ns : list str) : result IoError RealPath :=
  walk max_links fs true [] (map Normal ns).

Lemma leads_locate fs ns : locate fs true (plain ns) = leads fs ns.
Proof. unfold locate, is_empty_path. by rewrite bool_decide_false. Qed.

Lemma place_plain fs ns n :
  place fs (plain (ns ++ [n])) =
  (d ← leads fs ns; match entry_of fs d with Some Dir => Ok (d, n) | _ => Err NotADirectory end).
Proof.
  unfold place, file_name, leads. simpl. rewrite map_app. simpl. rewrite last_snoc. by rewrite removelast_last.
Qed.

Lemma parent_plain ns n : parent (plain (ns ++ [n])) = Some (plain ns).
Proof.
  unfold parent, plain. cbn [components absolute]. rewrite map_app.
  assert (removelast (map Normal ns ++ map Normal [n]) = map Normal ns) as Hr by apply removelast_last.
  destruct (map Normal ns ++ map Normal [n]) eqn:H; [by destruct (app_cons_not_nil (map Normal ns) [] (Normal n))|].
  by rewrite <- Hr.
Qed.

Lemma leads_mono fs fs' ns d : entries fs ⊆ entries fs' → leads fs ns = Ok d → leads fs' ns = Ok d.
Proof. apply walk_mono. Qed.

Lemma leads_error fs ns e n : leads fs ns = Err e → leads fs (ns ++ [n]) = Err e.
Proof. unfold leads. rewrite map_app. apply walk_error. Qed.

Lemma leads_snoc fs ns d n :
  leads fs ns = Ok d → entry_of fs d = Some Dir →
  (entries fs !! (d ++ [n]) = None → leads fs (ns ++ [n]) = Err NotFound) ∧
  (∀ e, entries fs !! (d ++ [n]) = Some e → is_link e = false → leads fs (ns ++ [n]) = Ok (d ++ [n])).
Proof. unfold leads. rewrite map_app. apply walk_snoc. Qed.

Lemma leads_init fs ns n x :
  fs_ok fs → leads fs (ns ++ [n]) = Ok x → ∃ d, leads fs ns = Ok d ∧ entry_of fs d = Some Dir.
Proof. unfold leads. rewrite map_app. intros Hok. by apply walk_init. Qed.

(** The longest prefix of a path that leads somewhere. *)
Inductive anchored (fs : FileSystem) (ns : list str) (a : RealPath) : Prop :=
| anchored_whole : leads fs ns = Ok a → anchored fs ns a
| anchored_prefix ns1 n ns2 e :
    ns = ns1 ++ n :: ns2 → leads fs ns1 = Ok a → leads fs (ns1 ++ [n]) = Err e → anchored fs ns a.

Lemma leads_errors fs ns1 ns2 e : leads fs ns1 = Err e → leads fs (ns1 ++ ns2) = Err e.
Proof.
  intros He. induction ns2 as [|n ns2 IH] using rev_ind; [by rewrite app_nil_r|].
  rewrite app_assoc. by apply leads_error.
Qed.

Lemma anchored_init fs ns n a e : anchored fs (ns ++ [n]) a → leads fs (ns ++ [n]) = Err e → anchored fs ns a.
Proof.
  intros [Ha|ns1 n' ns2 e' Heq Ha He'] He; [congruence|].
  destruct ns2 as [|m ns2 _] using rev_ind.
  - apply app_inj_tail in Heq as [-> _]. by apply anchored_whole.
  - rewrite app_comm_cons, app_assoc in Heq. apply app_inj_tail in Heq as [-> _].
    by eapply anchored_prefix.
Qed.

Lemma anchored_leads fs ns a d : anchored fs ns a → leads fs ns = Ok d → a = d.
Proof.
  intros [Ha|ns1 n ns2 e -> Ha He] Hd; [congruence|].
  replace (ns1 ++ n :: ns2) with ((ns1 ++ [n]) ++ ns2) in Hd by (by rewrite <- app_assoc).
  rewrite (leads_errors _ _ _ _ He) in Hd. done.
Qed.

(** The entries that differ all lie below a place. *)
Definition changed_below (a : RealPath) (fs fs' : FileSystem) : Prop :=
  ∀ k, entries fs' !! k ≠ entries fs !! k → a `prefix_of` k.

Lemma changed_below_refl a fs : changed_below a fs fs.
Proof. by intros k. Qed.
Lemma changed_below_trans a fs1 fs2 fs3 :
  changed_below a fs1 fs2 → changed_below a fs2 fs3 → changed_below a fs1 fs3.
Proof.
  intros H1 H2 k Hk. destruct (decide (entries fs2 !! k = entries fs1 !! k)) as [He|He]; [|by apply H1].
  apply H2. by rewrite He.
Qed.
Lemma changed_below_set a fs r e : a `prefix_of` r → changed_below a fs (set_entry fs r e).
Proof.
  intros Hr k Hk. simpl in Hk. destruct (decide (k = r)) as [->|Hne]; [done|]. by rewrite lookup_insert_ne in Hk.
Qed.

Lemma fs_ok_set fs d n e :
  fs_ok fs → entry_of fs d = Some Dir → (e = Dir ∨ entries fs !! (d ++ [n]) ≠ Some Dir) →
  fs_ok (set_entry fs (d ++ [n]) e).
Proof.
  intros Hok Hd He d' n' Hs. simpl in Hs.
  assert (entry_of fs d' = Some Dir) as Hd'.
  { destruct (decide (d' ++ [n'] = d ++ [n])) as [Heq|Hne].
    - by apply app_inj_tail in Heq as [-> _].
    - rewrite lookup_insert_ne in Hs by done. by apply Hok with n'. }
  unfold entry_of in *. destruct d' as [|m d']; [done|]. simpl.
  destruct (decide (m :: d' = d ++ [n])) as [Heq|Hne]; [|by rewrite lookup_insert_ne].
  rewrite Heq, lookup_insert_eq. rewrite Heq in Hd'. destruct He as [->|He]; [done|]. by destruct He.
Qed.

(** What creating a directory with its parents does. *)
Record creates (fs fs' : FileSystem) (ns : list str) (a : RealPath) (r : result IoError unit) : Prop := {
  creates_ok : fs_ok fs';
  creates_grows : entries fs ⊆ entries fs';
  creates_below : changed_below a fs fs';
  creates_dir : r = Ok tt → ∃ d, leads fs' ns = Ok d ∧ entry_of fs' d = Some Dir ∧ a `prefix_of` d ∧
    ((leads fs ns = Ok d ∧ fs' = fs) ∨ (∀ n, entries fs' !! (d ++ [n]) = None))
}.

Lemma creates_nothing fs ns a r :
  fs_ok fs → (r = Ok tt → is_dir fs (plain ns) = true) → anchored fs ns a → creates fs fs ns a r.
Proof.
  intros Hok Hr Ha. split; [done|done|apply changed_below_refl|]. intros Hd%Hr.
  unfold is_dir in Hd. rewrite leads_locate in Hd. destruct (leads fs ns) as [d|] eqn:Hl; [|done].
  apply bool_decide_eq_true in Hd. exists d. split_and!; [done|done| |by left].
  by rewrite (anchored_leads _ _ _ _ Ha Hl).
Qed.

(** A new directory at the end of a path whose parent was found or made. *)
Lemma creates_new fs fs1 ns n a d :
  fs_ok fs1 → entries fs ⊆ entries fs1 → changed_below a fs fs1 → a `prefix_of` d →
  leads fs1 ns = Ok d → entry_of fs1 d = Some Dir → entries fs1 !! (d ++ [n]) = None →
  creates fs (set_entry fs1 (d ++ [n]) Dir) (ns ++ [n]) a (Ok tt).
Proof.
  intros Hok Hsub Hbelow Ha Hl Hd Hnone. set (fs' := set_entry fs1 (d ++ [n]) Dir).
  assert (entries fs1 ⊆ entries fs') as Hsub' by (by apply insert_subseteq).
  assert (fs_ok fs') as Hok' by (apply fs_ok_set; [done|done|by left]).
  assert (entries fs' !! (d ++ [n]) = Some Dir) as Hnew by (simpl; by rewrite lookup_insert_eq).
  assert (a `prefix_of` d ++ [n]) as Hpre by (by apply prefix_app_r).
  split; [done|by etrans| |].
  - eapply changed_below_trans; [done|]. by apply changed_below_set.
  - intros _. exists (d ++ [n]). rewrite entry_of_snoc. split_and!; [|done|done|right].
    + assert (leads fs' ns = Ok d) as Hl' by (by eapply leads_mono).
      assert (entry_of fs' d = Some Dir) as Hd'
        by (unfold entry_of in *; destruct d; [done|by eapply lookup_weaken]).
      by apply (leads_snoc fs' ns d n Hl' Hd') with Dir.
    + intros m. simpl. rewrite lookup_insert_ne by (intros Heq; apply (f_equal length) in Heq;
        rewrite !length_app in Heq; simpl in Heq; lia).
      destruct (entries fs1 !! ((d ++ [n]) ++ [m])) eqn:Hm; [|done].
      assert (entry_of fs1 (d ++ [n]) = Some Dir) as Hdn by (by apply Hok with m; rewrite Hm).
      rewrite entry_of_snoc in Hdn. congruence.
Qed.

Lemma mkdir_plain fs ns n fs' :
  mkdir fs (plain (ns ++ [n])) = Ok fs' →
  ∃ d, leads fs ns = Ok d ∧ entry_of fs d = Some Dir ∧ entries fs !! (d ++ [n]) = None ∧
    fs' = set_entry fs (d ++ [n]) Dir.
Proof.
  unfold mkdir. rewrite place_plain. intros ([d' n'] & (d & Hd & Hp)%bind_Ok & Hm)%bind_Ok.
  destruct (entry_of fs d) as [[]|] eqn:Hdir; try done. injection Hp as <- <-.
  destruct (entries fs !! (d ++ [n])) eqn:He; [done|]. injection Hm as <-. by exists d.
Qed.

Lemma create_dir_all_creates fuel fs ns a fs' r :
  fs_ok fs → anchored fs ns a → length ns < fuel →
  create_dir_all fuel fs (plain ns) = (fs', r) → creates fs fs' ns a r.
Proof.
  revert ns fs' r. induction fuel as [|fuel IH]; intros ns fs' r Hok Ha Hlen; [lia|].
  destruct ns as [|n ns _] using rev_ind.
  { simpl. intros [= <- <-]. apply creates_nothing; [done| |done]. intros _. reflexivity. }
  rewrite length_app in Hlen. simpl in Hlen. cbn [create_dir_all]. unfold is_empty_path.
  rewrite bool_decide_false by done.
  destruct (mkdir fs (plain (ns ++ [n]))) as [fs1|e] eqn:Hm.
  { intros [= <- <-]. apply mkdir_plain in Hm as (d & Hl & Hd & Hnone & ->).
    apply creates_new; try done.
    - apply changed_below_refl.
    - destruct (leads_snoc fs ns d n Hl Hd) as [He _]. specialize (He Hnone).
      by rewrite (anchored_leads _ _ _ _ (anchored_init _ _ _ _ _ Ha He) Hl). }
  assert (∀ e, (if is_dir fs (plain (ns ++ [n])) then (fs, Ok tt) else (fs, Err e)) = (fs', r) →
            creates fs fs' (ns ++ [n]) a r) as Hkeep.
  { intros e0. destruct (is_dir fs (plain (ns ++ [n]))) eqn:Hdir; intros [= <- <-]; by apply creates_nothing. }
  destruct e; try (by apply Hkeep). clear Hkeep. rewrite parent_plain.
  assert (∃ e, leads fs ns = Err e) as [e He].
  { unfold mkdir in Hm. rewrite place_plain in Hm. destruct (leads fs ns) as [d|e]; [|by exists e].
    simpl in Hm. destruct (entry_of fs d) as [[]|]; try done. simpl in Hm.
    by destruct (entries fs !! (d ++ [n])). }
  assert (leads fs (ns ++ [n]) = Err e) as He' by (by apply leads_error).
  pose proof (anchored_init _ _ _ _ _ Ha He') as Ha'.
  destruct (create_dir_all fuel fs (plain ns)) as [fs1 r1] eqn:Hc.
  apply IH in Hc as [Hok1 Hsub Hbelow Hdir]; [|done|done|lia].
  destruct r1 as [[]|e1]; [|intros [= <- <-]; by split].
  destruct (Hdir eq_refl) as (d & Hd & Hdd & Hpre & Hnew). clear Hdir.
  destruct Hnew as [[Hd' _]|Hnew]; [congruence|].
  destruct (mkdir fs1 (plain (ns ++ [n]))) as [fs2|e2] eqn:Hm2.
  - intros [= <- <-]. apply mkdir_plain in Hm2 as (d2 & Hd2 & _ & _ & ->).
    assert (d2 = d) as -> by congruence. by apply creates_new.
  - assert (leads fs1 (ns ++ [n]) = Err NotFound) as Hnf by (by apply (leads_snoc fs1 ns d n)).
    unfold is_dir. rewrite leads_locate, Hnf. intros [= <- <-]. by split.
Qed.

(** ** Atomic writes *)

Lemma anchored_exists fs ns : ∃ a, anchored fs ns a.
Proof.
  induction ns as [|n ns [a Ha]] using rev_ind.
  { exists []. apply anchored_whole. apply walk_nil. }
  destruct (leads fs (ns ++ [n])) as [d|e] eqn:Hl; [exists d; by apply anchored_whole|].
  exists a. destruct Ha as [Ha|ns1 m ns2 e' -> Ha He'].
  - by apply (anchored_prefix _ _ _ ns n [] e).
  - apply (anchored_prefix _ _ _ ns1 m (ns2 ++ [n]) e'); [|done|done]. by rewrite <- app_assoc.
Qed.

Lemma leads_join ns temp :
  join (plain ns) (mkPath false [Normal temp]) = plain (ns ++ [temp]).
Proof.
  unfold join, plain, is_empty_path. simpl. by rewrite map_app.
Qed.

(** After the directories are there, only the entry of the written file changes. *)
Lemma write_in_directory fs1 ns n d content temp :
  fs_ok fs1 → leads fs1 ns = Ok d → entry_of fs1 d = Some Dir → entries fs1 !! (d ++ [temp]) = None →
  let temp_path := join (plain ns) (mkPath false [Normal temp]) in
  ∃ fs2, create_new fs1 temp_path content = Ok fs2 ∧
    match rename fs2 temp_path (plain (ns ++ [n])) with
    | Ok fs3 => fs3 = set_entry fs1 (d ++ [n]) (File content)
    | Err _ => remove_file fs2 temp_path = fs1
    end.
Proof.
  intros Hok Hl Hd Hfresh. rewrite leads_join.
  set (fs2 := set_entry fs1 (d ++ [temp]) (File content)). exists fs2. split.
  { unfold create_new. rewrite place_plain, Hl. simpl. rewrite Hd. simpl. by rewrite Hfresh. }
  assert (entries fs1 ⊆ entries fs2) as Hsub by (by apply insert_subseteq).
  assert (leads fs2 ns = Ok d) as Hl2 by (by eapply leads_mono).
  assert (entry_of fs2 d = Some Dir) as Hd2 by (unfold entry_of in *; destruct d; [done|by eapply lookup_weaken]).
  assert (∀ m, place fs2 (plain (ns ++ [m])) = Ok (d, m)) as Hplace
    by (intros m; rewrite place_plain, Hl2; simpl; by rewrite Hd2).
  assert (delete (d ++ [temp]) (entries fs2) = entries fs1) as Hdel
    by (simpl; by rewrite delete_insert_id).
  unfold rename, remove_file. rewrite !Hplace. simpl. rewrite lookup_insert_eq. simpl.
  destruct (<[d ++ [temp]:=File content]> (entries fs1) !! (d ++ [n])) as [[]|];
    simpl in Hdel |- *; rewrite Hdel; [by destruct fs1|done..].
Qed.

Lemma create_dir_all_exists fuel fs ns d :
  fs_ok fs → leads fs ns = Ok d → entry_of fs d = Some Dir →
  create_dir_all (S fuel) fs (plain ns) = (fs, Ok tt).
Proof.
  intros Hok Hl Hd. cbn [create_dir_all]. unfold is_empty_path. rewrite bool_decide_false by done.
  assert (is_dir fs (plain ns) = true) as ->
    by (unfold is_dir; rewrite leads_locate, Hl; by apply bool_decide_eq_true).
  destruct ns as [|n ns _] using rev_ind; [done|].
  destruct (mkdir fs (plain (ns ++ [n]))) as [fs1|e] eqn:Hm.
  - apply mkdir_plain in Hm as (d' & Hl' & Hd' & Hnone & _).
    destruct (leads_snoc fs ns d' n Hl' Hd') as [He _]. by rewrite He in Hl.
  - destruct e; try done. exfalso. destruct (leads_init _ _ _ _ Hok Hl) as (d' & Hl' & Hd').
    unfold mkdir in Hm. rewrite place_plain, Hl' in Hm. simpl in Hm. rewrite Hd' in Hm. simpl in Hm.
    by destruct (entries fs !! (d' ++ [n])).
Qed.

Lemma atomic_write_below fs ns n content temp fs' r a :
  fs_ok fs → anchored fs (ns ++ [n]) a →
  (∀ d, entries fs !! (d ++ [temp]) = None) →
  (∀ d t, leads fs ns = Ok d → entries fs !! (d ++ [n]) ≠ Some (Symlink t)) →
  atomic_write_text fs (plain (ns ++ [n])) content temp = (fs', r) →
  changed_below a fs fs' ∧
  (r = Ok tt → ∃ k, a `prefix_of` k ∧ entries fs' !! k = Some (File content)).
Proof.
  intros Hok Ha Hfresh Hlink. unfold atomic_write_text. rewrite parent_plain.
  change (components (plain ns)) with (map Normal ns). rewrite length_map.
  assert (∀ fs1 d, fs_ok fs1 → leads fs1 ns = Ok d → entry_of fs1 d = Some Dir →
    entries fs1 !! (d ++ [temp]) = None → changed_below a fs fs1 → a `prefix_of` (d ++ [n]) →
    match create_new fs1 (join (plain ns) (mkPath false [Normal temp])) content with
    | Ok fs2 =>
        match rename fs2 (join (plain ns) (mkPath false [Normal temp])) (plain (ns ++ [n])) with
        | Ok fs3 => (fs3, Ok tt)
        | Err _ => (remove_file fs2 (join (plain ns) (mkPath false [Normal temp])),
                    Err (Msg "atomic replacement '{}' -> '{}' failed: {}" []))
        end
    | Err _ => (remove_file fs1 (join (plain ns) (mkPath false [Normal temp])),
                Err (Msg "failed to create atomic-write temporary file '{}': {}" []))
    end = (fs', r) →
    changed_below a fs fs' ∧ (r = Ok tt → ∃ k, a `prefix_of` k ∧ entries fs' !! k = Some (File content)))
    as Hwrite.
  { intros fs1 d Hok1 Hd Hdd Hnone Hbelow Hpre.
    destruct (write_in_directory fs1 ns n d content temp Hok1 Hd Hdd Hnone) as (fs2 & -> & Hr).
    destruct (rename _ _ _) as [fs3|] eqn:Hren; intros [= <- <-].
    - subst fs3. split; [eapply changed_below_trans; [done|by apply changed_below_set]|].
      intros _. exists (d ++ [n]). split; [done|]. simpl. by rewrite lookup_insert_eq.
    - by rewrite Hr. }
  destruct (leads fs (ns ++ [n])) as [x|e] eqn:Hx.
  - destruct (leads_init _ _ _ _ Hok Hx) as (d0 & Hd0 & Hdir0).
    rewrite (create_dir_all_exists _ _ _ _ Hok Hd0 Hdir0).
    apply (Hwrite fs d0); try done; [apply changed_below_refl|].
    rewrite (anchored_leads _ _ _ _ Ha Hx). destruct (leads_snoc fs ns d0 n Hd0 Hdir0) as [Hnone Hsome].
    destruct (entries fs !! (d0 ++ [n])) as [e|] eqn:He; [|by rewrite Hnone in Hx].
    assert (is_link e = false) as Hnl by (destruct e as [| |t]; [done|done|by destruct (Hlink d0 t Hd0)]).
    specialize (Hsome e eq_refl Hnl). by replace x with (d0 ++ [n]) by congruence.
  - pose proof (anchored_init _ _ _ _ _ Ha Hx) as Ha'.
    destruct (create_dir_all (S (length ns)) fs (plain ns)) as [fs1 r1] eqn:Hc.
    apply (create_dir_all_creates _ _ _ a) in Hc as [Hok1 Hsub Hbelow Hdir]; [|done|done|lia].
    destruct r1 as [[]|e1]; [|by intros [= <- <-]].
    destruct (Hdir eq_refl) as (d & Hd & Hdd & Hpre & Hcase).
    apply (Hwrite fs1 d); try done; [|by apply prefix_app_r].
    destruct Hcase as [[_ ->]|Hnone]; [apply Hfresh|apply Hnone].
Qed.

(** ** Ancestors and roots *)

Lemma anchored_extend fs ns n a e : anchored fs ns a → leads fs (ns ++ [n]) = Err e → anchored fs (ns ++ [n]) a.
Proof.
  intros [Ha|ns1 m ns2 e' -> Ha He'] He.
  - by apply (anchored_prefix _ _ _ ns n [] e).
  - apply (anchored_prefix _ _ _ ns1 m (ns2 ++ [n]) e'); [|done|done]. by rewrite <- app_assoc.
Qed.

Lemma ancestors_plain ns n : ancestors (plain (ns ++ [n])) = plain (ns ++ [n]) :: ancestors (plain ns).
Proof.
  unfold ancestors, plain. cbn [absolute components]. rewrite !length_map, length_app. cbn [length].
  rewrite Nat.add_1_r, (seq_S (S (length ns)) 0), reverse_snoc. cbn [map]. f_equal.
  - f_equal. apply take_ge. rewrite length_map, length_app. simpl. lia.
  - apply map_ext_in. intros k Hk. apply list_elem_of_In, elem_of_reverse, elem_of_seq in Hk.
    rewrite map_app, take_app_le; [done|]. rewrite length_map. lia.
Qed.

Lemma is_prefix_names rs a : is_prefix (map Normal rs) (map Normal a) = true ↔ rs `prefix_of` a.
Proof.
  revert a. induction rs as [|r rs IH]; intros [|x a]; simpl.
  - split; [intros _; apply prefix_nil|done].
  - split; [intros _; apply prefix_nil|done].
  - split; [done|]. intros H. by apply prefix_nil_not in H.
  - rewrite andb_true_iff, bool_decide_eq_true, IH. split.
    + intros [[= ->] H]. by apply prefix_cons.
    + intros H. split; [f_equal; by apply prefix_cons_inv_1 in H|by apply prefix_cons_inv_2 in H].
Qed.

Lemma real_below a rs : path_starts_with (real a) (real rs) = true ↔ rs `prefix_of` a.
Proof. unfold path_starts_with. simpl. apply is_prefix_names. Qed.
