(* ===== verification/Approval.v ===== *)
(** * Approvals and capability leases

    Capability deltas, the authority that risk tags carry, approval requests and decisions,
    and the hub that hands human decisions to waiting reviewers
    (morphz/src/approval.rs). *)

From stdpp Require Import base list gmap strings.
From Stdlib Require Import NArith ZArith Lia.
From S2P Require Import Prelude JsonValue Types Diagnostic Text Paths.

Local Open Scope Z_scope.

(** ** Risk tags *)

(** morphz/src/memory/mod.rs:4485-4489 [CapabilityLeaseScope]. *)
Inductive CapabilityLeaseScope : Type := ScopeThread | ScopeObjective | ScopeSession.

(** morphz/src/approval.rs:40-46 [the risk tags that carry authority]. *)
Definition APPROVED_TAG : str := s! "capability-lease-approved".
Definition THREAD_TAG : str := s! "capability-lease-scope:thread".
Definition OBJECTIVE_TAG : str := s! "capability-lease-scope:objective".
Definition SESSION_TAG : str := s! "capability-lease-scope:session".
Definition SCOPE_PREFIX : str := s! "capability-lease-scope:".
Definition DURATION_PREFIX : str := s! "capability-lease-duration-secs:".

Definition has_tag (tag : str) (risk_tags : list str) : bool := existsb (str_eqb tag) risk_tags.
Definition retain (keep : str → bool) (risk_tags : list str) : list str := List.filter keep risk_tags.

(** morphz/src/approval.rs:49-56 [without_capability_lease_authority]. *)
Definition without_capability_lease_authority (risk_tags : list str) : list str :=
  retain (λ tag, negb (tag =s APPROVED_TAG) && negb (starts_with SCOPE_PREFIX tag)
                 && negb (starts_with DURATION_PREFIX tag)) risk_tags.

(** morphz/src/approval.rs:60-69 [bind_capability_lease_duration]. *)
Definition bind_capability_lease_duration (risk_tags : list str) (duration_secs : Z) : list str :=
  retain (λ tag, negb (starts_with DURATION_PREFIX tag)) risk_tags
  ++ [DURATION_PREFIX ++ decimal duration_secs].

(** morphz/src/approval.rs:71-87 [approved_capability_lease_duration]. *)
Definition approved_capability_lease_duration (risk_tags : list str) : result Message (option Z) :=
  match omap (strip_prefix DURATION_PREFIX) risk_tags with
  | [] => Ok None
  | duration :: more =>
      duration ← ok_or (d ← parse_u64 duration; if 0 <? d then Some d else None)
        (Msg "Capability Lease decision has an invalid duration" []);
      match more with
      | [] => Ok (Some duration)
      | _ => Err (Msg "Capability Lease decision has conflicting durations" [])
      end
  end.

(** morphz/src/approval.rs:110-118 [mark_capability_lease_approved]. *)
Definition mark_capability_lease_approved (risk_tags : list str) : list str :=
  if has_tag APPROVED_TAG risk_tags then risk_tags else risk_tags ++ [APPROVED_TAG].

(** morphz/src/approval.rs:120-124 [capability_lease_was_approved]. *)
Definition capability_lease_was_approved (risk_tags : list str) : bool := has_tag APPROVED_TAG risk_tags.

(** morphz/src/approval.rs:126-130 [capability_lease_is_session_scoped]. *)
Definition capability_lease_is_session_scoped (risk_tags : list str) : bool := has_tag SESSION_TAG risk_tags.

(** morphz/src/approval.rs:132-154 [capability_lease_scope]. *)
Definition capability_lease_scope (risk_tags : list str) (offered : CapabilityLeaseScope)
    : CapabilityLeaseScope :=
  if has_tag SESSION_TAG risk_tags then ScopeSession
  else if has_tag OBJECTIVE_TAG risk_tags then ScopeObjective
  else if has_tag THREAD_TAG risk_tags then ScopeThread
  else offered.

(** morphz/src/approval.rs:156-162 [capability_lease_scope_risk_tag]. *)
Definition capability_lease_scope_risk_tag (scope : CapabilityLeaseScope) : str :=
  match scope with
  | ScopeThread => THREAD_TAG
  | ScopeObjective => OBJECTIVE_TAG
  | ScopeSession => SESSION_TAG
  end.

(** morphz/src/approval.rs:167-178 [bind_capability_lease_scope_risk_tags]. *)
Definition bind_capability_lease_scope_risk_tags (risk_tags : list str) (scope : CapabilityLeaseScope)
    : list str :=
  retain (λ tag, negb (tag =s THREAD_TAG) && negb (tag =s OBJECTIVE_TAG) && negb (tag =s SESSION_TAG))
    risk_tags
  ++ [capability_lease_scope_risk_tag scope].

(** ** Identities *)

Section identities.
Context `{Digest}.

(** [usize::to_be_bytes] of a length, then the bytes. *)
Definition length_prefixed (bytes : list N) : list N := be_bytes (Z.of_nat (length bytes)) ++ bytes.

(** morphz/src/approval.rs:180-188 [capability_lease_policy_digest]. *)
Definition capability_lease_policy_digest (permission_policy target_policy : str) : str :=
  s! "sha256:" ++ sha256_hex (utf8 s! "morphz.capability-lease-policy.v1" ++ [0%N]
    ++ length_prefixed (utf8 permission_policy) ++ length_prefixed (utf8 target_policy)).

(** morphz/src/approval.rs:190-196 [stable_capability_lease_id]. *)
Definition stable_capability_lease_id (approval_id : str) : str :=
  s! "lease_" ++ sha256_hex (utf8 s! "morphz.capability-lease.v1" ++ [0%N]
    ++ length_prefixed (utf8 approval_id)).
End identities.

(** ** Capabilities *)

(** morphz/src/approval.rs:199-210 [CapabilityDelta]. *)
Record CapabilityDelta : Type := mkDelta {
  network : bool;
  read_roots : list Path;
  write_roots : list Path;
  secret_env : list str
}.

Definition empty_delta : CapabilityDelta := mkDelta false [] [] [].

Definition is_nil {A} (l : list A) : bool := match l with [] => true | _ => false end.

(** morphz/src/approval.rs:213-218 [CapabilityDelta::is_empty]. *)
Definition delta_is_empty (d : CapabilityDelta) : bool :=
  negb (network d) && is_nil (read_roots d) && is_nil (write_roots d) && is_nil (secret_env d).

Definition has_parent_dir (p : Path) : bool := bool_decide (ParentDir ∈ components p).

(** morphz/src/approval.rs:255-273 [CapabilityDelta::is_subset_with]. *)
Definition is_subset_with (requested granted : CapabilityDelta) (contains : Path → Path → bool) : bool :=
  (negb (network requested) || network granted)
  && forallb (λ path, existsb (contains path) (read_roots granted)
                      || existsb (contains path) (write_roots granted)) (read_roots requested)
  && forallb (λ path, existsb (contains path) (write_roots granted)) (write_roots requested)
  && forallb (λ name, existsb (str_eqb name) (secret_env granted)) (secret_env requested).

(** morphz/src/approval.rs:223-231 [CapabilityDelta::is_subset_of]. *)
Definition is_subset_of (requested granted : CapabilityDelta) : bool :=
  is_subset_with requested granted
    (λ path root, forallb (λ value, negb (has_parent_dir value)) [path; root] && path_starts_with path root).

(** morphz/src/approval.rs:329-335 [ApprovalScope]. *)
Inductive ApprovalScope : Type := Once | OnThread | OnObjective | OnSession.

(** morphz/src/approval.rs:347-354 [ApprovalScope::lease_scope]. *)
Definition lease_scope (s : ApprovalScope) : option CapabilityLeaseScope :=
  match s with
  | Once => None
  | OnThread => Some ScopeThread
  | OnObjective => Some ScopeObjective
  | OnSession => Some ScopeSession
  end.

(** morphz/src/approval.rs:359-369 [ApprovalAction]. *)
Inductive ApprovalAction : Type :=
| Shell (command : str) (cwd : Path)
| ToolOperation (tool operation : str) (target : option Path).

(** morphz/src/approval.rs:375-382 [ApprovalAction::lease_capability]. *)
Definition lease_capability (a : ApprovalAction) : str :=
  match a with
  | Shell _ _ => s! "exec"
  | ToolOperation tool operation _ => tool ++ s! ":" ++ operation
  end.

(** morphz/src/approval.rs:389-407 [reusable_capabilities]. *)
Definition reusable_capabilities (action : ApprovalAction) (requested : CapabilityDelta) : list str :=
  let capabilities :=
    (if network requested then [s! "network"] else [])
    ++ (if negb (is_nil (read_roots requested)) || negb (is_nil (write_roots requested))
        then [s! "filesystem.read"] else [])
    ++ (if negb (is_nil (write_roots requested)) then [s! "filesystem.write"] else [])
    ++ (if negb (is_nil (secret_env requested)) then [s! "secret_env"] else []) in
  match capabilities with [] => [lease_capability action] | _ => capabilities end.

(** morphz/src/approval.rs:409-413 [reusable_capabilities_cover]. *)
Definition reusable_capabilities_cover (granted required : list str) : bool :=
  forallb (λ capability, existsb (str_eqb capability) granted) required.

(** ** Requests and decisions *)

(** morphz/src/approval.rs:441-461 [CapabilityLeaseOffer]. *)
Record CapabilityLeaseOffer : Type := mkOffer {
  of_principal_id : str;
  of_agent_id : str;
  of_session_id : str;
  of_thread_id : str;
  of_scope : CapabilityLeaseScope;
  of_scope_id : str;
  of_objective_id : option str;
  of_target_id : str;
  of_capability : str;
  of_capabilities : list str;
  of_requested : CapabilityDelta;
  of_policy_digest : str;
  of_duration_secs : Z
}.

(** morphz/src/approval.rs:464-470 [CapabilityLeaseOffer::effective_capabilities]. *)
Definition effective_capabilities (o : CapabilityLeaseOffer) : list str :=
  match of_capabilities o with [] => [of_capability o] | l => l end.

(** morphz/src/approval.rs:416-438 [ApprovalRequest]. *)
Record ApprovalRequest : Type := mkRequest {
  ar_approval_id : str;
  ar_context_id : str;
  ar_session_id : str;
  ar_attempt_id : str;
  ar_thread_id : str;
  ar_root_turn_id : str;
  ar_trigger_event_id : str;
  ar_trigger_sequence : Z;
  ar_model_alias : option str;
  ar_action : ApprovalAction;
  ar_requested : CapabilityDelta;
  ar_justification : str;
  ar_lease_offer : option CapabilityLeaseOffer
}.

(** morphz/src/approval.rs:482-499 [ApprovalDecision]. *)
Inductive ApprovalDecision : Type :=
| AllowOnce (rationale : str) (risk_tags : list str)
| AllowLease (rationale : str) (risk_tags : list str)
| Deny (rationale : str) (risk_tags : list str)
| AskHuman (rationale : str) (risk_tags : list str).

(** morphz/src/approval.rs:530-536 [ApprovalProvider]; the answer of a review. *)
Abbreviation ApprovalProvider := (ApprovalRequest → result Message ApprovalDecision).

(** morphz/src/approval.rs:825-835 [EscalatingApprovalProvider::review]. *)
Definition escalating_review (primary human : ApprovalProvider) : ApprovalProvider := λ request,
  decision ← primary request;
  match decision with
  | AskHuman _ _ => human request
  | decision => Ok decision
  end.

(** morphz/src/approval.rs:1084-1094 [DenyAllApprovalProvider::review]. *)
Definition deny_all_review (reason : str) : ApprovalProvider := λ _,
  Ok (Deny reason [s! "approval-disabled"]).

(** ** Reviewer output *)

(** morphz/src/approval.rs:960-965 [ReviewerOutput]. *)
Record ReviewerOutput : Type := mkOutput { o_decision : str; o_rationale : str; o_risk_tags : list str }.

(** serde_json on the output of a reviewer. *)
Class ReviewerCodec : Type := { reviewer_output_from_str : str → option ReviewerOutput }.

(** The text from the first opening to the last closing brace. *)
Fixpoint from_brace (s : str) : option str :=
  match s with
  | [] => None
  | c :: r => if (c =? 123)%N then Some s else from_brace r
  end.
Fixpoint last_brace (s : str) : option nat :=
  match s with
  | [] => None
  | c :: r => match last_brace r with
              | Some n => Some (S n)
              | None => if (c =? 125)%N then Some O else None
              end
  end.

Section reviewer.
Context `{ReviewerCodec}.

(** morphz/src/approval.rs:1096-1116 [parse_reviewer_output]; the slice panics when the last
    closing brace comes before the first opening one. *)
Definition parse_reviewer_output (content : str) : option (result Message ReviewerOutput) :=
  let trimmed := trim content in
  let read json_text :=
    Some (output ← ok_or (reviewer_output_from_str json_text) (Msg "serde_json" []);
          if forallb is_whitespace (o_rationale output) then
            Err (Msg "automatic approval Reviewer must return a non-empty rationale" [])
          else Ok output) in
  match trimmed, last trimmed with
  | 123%N :: _, Some 125%N => read trimmed
  | _, _ =>
      match from_brace trimmed with
      | None => Some (Err (Msg "automatic approval Reviewer response contains no JSON object" []))
      | Some tail =>
          match last_brace trimmed with
          | None => Some (Err (Msg "automatic approval Reviewer response contains incomplete JSON" []))
          | Some last =>
              let start := (length trimmed - length tail)%nat in
              if (last + 1 <? start)%nat then None
              else read (take (last + 1 - start) tail)
          end
      end
  end.

(** morphz/src/approval.rs:1035-1068 [AiAutoReviewProvider::review, the decision]. *)
Definition reviewer_decision (request : ApprovalRequest) (output : ReviewerOutput)
    : result Message ApprovalDecision :=
  let d := o_decision output in
  if d =s s! "allow_once" then Ok (AllowOnce (o_rationale output) (o_risk_tags output))
  else if d =s s! "allow_lease" then
    match ar_lease_offer request with
    | None => Err (Msg "automatic approval Reviewer returned allow_lease without a lease_offer" [])
    | Some _ => Ok (AllowLease (o_rationale output) (mark_capability_lease_approved (o_risk_tags output)))
    end
  else if d =s s! "deny" then Ok (Deny (o_rationale output) (o_risk_tags output))
  else if d =s s! "ask_human" then Ok (AskHuman (o_rationale output) (o_risk_tags output))
  else Err (Msg "automatic approval Reviewer returned unknown decision: {other}" [AStr d]).
End reviewer.
