(* ===== verification/ApprovalHub.v ===== *)
(** * The hub of human approvals

    The process-local attachment of waiting reviewers to durable approvals
    (morphz/src/approval.rs).  Every access to the map holds its lock, so that the hub is a
    state machine over the critical sections; a oneshot channel is its message and whether
    its receiver still lives. *)

From stdpp Require Import base list gmap sets relations strings.
From Stdlib Require Import NArith ZArith Lia.
From S2P Require Import Prelude JsonValue Types Diagnostic Text Paths Approval.

Local Open Scope N_scope.

(** ** State *)

(** [tokio::sync::oneshot]. *)
Record Channel : Type := mkChannel { message : option ApprovalDecision; open : bool }.

(** morphz/src/approval.rs:551-555 [PendingHumanApprovalEntry]; the response sender is the
    channel of the waiter. *)
Record PendingEntry : Type := mkEntry { waiter_id : N; request : ApprovalRequest }.

(** morphz/src/approval.rs:558-561 [HumanApprovalHub], with the channels it made. *)
Record Hub : Type := mkHub {
  pending : gmap str PendingEntry;
  next_waiter_id : N;
  channels : gmap N Channel
}.

(** morphz/src/approval.rs:563-572 [HumanApprovalHub::default]. *)
Definition hub_default : Hub := mkHub ∅ 1 ∅.

Definition receiver_open (h : Hub) (w : N) : bool :=
  match channels h !! w with Some c => open c | None => false end.

(** ** Operations *)

(** morphz/src/approval.rs:658-700 [HumanApprovalHub::attach]; the waiter identifier is the
    guard that the caller holds. *)
Definition attach (h : Hub) (req : ApprovalRequest) : Hub * result Message N :=
  let id := ar_approval_id req in
  let w := next_waiter_id h in
  let h1 := mkHub (pending h) (w + 1) (channels h) in
  let h2 := mkHub (<[id := mkEntry w req]> (pending h)) (w + 1)
              (<[w := mkChannel None true]> (channels h)) in
  match pending h !! id with
  | None => (h2, Ok w)
  | Some entry =>
      if negb (receiver_open h (waiter_id entry)) then (h2, Ok w)
      else (h1, Err (Msg "human approval ID '{approval_id}' already has an active waiter" [AStr id]))
  end.

(** morphz/src/approval.rs:702-714 [HumanApprovalHub::detach_if_current]. *)
Definition detach_if_current (h : Hub) (id : str) (w : N) : Hub * bool :=
  match pending h !! id with
  | Some entry =>
      if waiter_id entry =? w then (mkHub (delete id (pending h)) (next_waiter_id h) (channels h), true)
      else (h, false)
  | None => (h, false)
  end.

(** [oneshot::Sender::send]. *)
Definition send (h : Hub) (w : N) (d : ApprovalDecision) : Hub * bool :=
  match channels h !! w with
  | Some c =>
      if open c then
        (mkHub (pending h) (next_waiter_id h) (<[w := mkChannel (Some d) true]> (channels h)), true)
      else (h, false)
  | None => (h, false)
  end.

Definition offers_no_lease (h : Hub) (id : str) : bool :=
  match pending h !! id with
  | Some entry => negb (is_some (ar_lease_offer (request entry)))
  | None => false
  end.

(** morphz/src/approval.rs:626-656 [HumanApprovalHub::notify_decision]. *)
Definition notify_decision (h : Hub) (id : str) (d : ApprovalDecision) : Hub * result Message bool :=
  match d with
  | AskHuman _ _ => (h, Err (Msg "human approval decision must be allow_once, allow_lease, or deny" []))
  | _ =>
      if match d with AllowLease _ _ => true | _ => false end && offers_no_lease h id then
        (h, Err (Msg "this approval request has no Capability Lease offer and cannot approve a lease" []))
      else
        match pending h !! id with
        | None => (h, Ok false)
        | Some entry =>
            let h' := mkHub (delete id (pending h)) (next_waiter_id h) (channels h) in
            let '(h'', sent) := send h' (waiter_id entry) d in (h'', Ok sent)
        end
  end.

(** The receiver of a waiter goes away: its future completed or was cancelled. *)
Definition close (h : Hub) (w : N) : Hub :=
  match channels h !! w with
  | Some c => mkHub (pending h) (next_waiter_id h) (<[w := mkChannel (message c) false]> (channels h))
  | None => h
  end.

(** ** Durable decisions *)

(** morphz/src/memory/mod.rs:4373-4379 [ApprovalStatus]. *)
Inductive ApprovalStatus : Type := PendingAuto | PendingHuman | Allowed | Denied | Cancelled.

(** morphz/src/memory/mod.rs:4438-4461 [ApprovalRecord, the fields of a decision]. *)
Record ApprovalRecord : Type := mkRecord {
  p_status : ApprovalStatus;
  p_rationale : option str;
  p_risk_tags : list str;
  p_cancel_reason : option str
}.

(** morphz/src/approval.rs:738-771 [HumanApprovalProvider::durable_decision, a record]. *)
Definition durable_decision (req : ApprovalRequest) (record : ApprovalRecord) : option ApprovalDecision :=
  let rationale :=
    match p_rationale record, p_cancel_reason record with
    | Some r, _ => r
    | None, Some r => r
    | None, None => s! "persisted Approval is terminal"
    end in
  match p_status record with
  | Allowed =>
      if is_some (ar_lease_offer req) && capability_lease_was_approved (p_risk_tags record)
      then Some (AllowLease rationale (p_risk_tags record))
      else Some (AllowOnce rationale (p_risk_tags record))
  | Denied | Cancelled => Some (Deny rationale (p_risk_tags record))
  | PendingAuto | PendingHuman => None
  end.

(** ** Interleavings *)

(** A guard is live from its attachment until its [drop] has run. *)
Record World : Type := mkWorld { hub : Hub; guards : gmap N str }.

(** morphz/src/approval.rs:579-608 [HumanApprovalWaiter] with morphz/src/approval.rs:775-811
    [HumanApprovalProvider::review]: reviewers attach, are notified, lose their receiver and
    drop their guard in any order, each step being one critical section; a guard may be
    dropped before or after its receiver. *)
Inductive hub_step : World → World → Prop :=
| hub_attach w req h' id :
    attach (hub w) req = (h', Ok id) →
    hub_step w (mkWorld h' (<[id := ar_approval_id req]> (guards w)))
| hub_attach_refused w req h' e :
    attach (hub w) req = (h', Err e) → hub_step w (mkWorld h' (guards w))
| hub_notify w id d h' r :
    notify_decision (hub w) id d = (h', r) → hub_step w (mkWorld h' (guards w))
| hub_close w g :
    hub_step w (mkWorld (close (hub w) g) (guards w))
| hub_drop w g id h' b :
    guards w !! g = Some id → detach_if_current (hub w) id g = (h', b) →
    hub_step w (mkWorld h' (delete g (guards w))).

Definition hub_reachable : World → Prop := rtc hub_step (mkWorld hub_default ∅).
