(* ===== verification/ApprovalFacts.v ===== *)
(** * What approvals and leases guarantee

    The hub loses no waiting reviewer, tags written by a reviewer carry no authority, and a
    lease covers what a request inside its delta needs. *)

From stdpp Require Import base list gmap sets relations strings.
From Stdlib Require Import NArith ZArith Lia.
From S2P Require Import Prelude JsonValue Types Diagnostic Text Paths Approval ApprovalHub.

(** ** The hub *)

(** A reviewer that still waits: its guard is live, its receiver open and empty. *)
Definition waits (w : World) (g : N) (id : str) : Prop :=
  guards w !! g = Some id ∧ channels (hub w) !! g = Some (mkChannel None true).

Record hub_ok (w : World) : Prop := {
  hub_entry id e : pending (hub w) !! id = Some e →
    guards w !! waiter_id e = Some id ∧ ar_approval_id (request e) = id ∧
    message <$> channels (hub w) !! waiter_id e = Some None;
  hub_waits g id : waits w g id → ∃ e, pending (hub w) !! id = Some e ∧ waiter_id e = g;
  hub_fresh g : (next_waiter_id (hub w) <= g)%N → guards w !! g = None ∧ channels (hub w) !! g = None
}.

Lemma hub_ok_initial : hub_ok (mkWorld hub_default ∅).
Proof.
  split; simpl; [done| |done]. by intros g id [? _].
Qed.

Lemma attach_ok w req h' g :
  hub_ok w → attach (hub w) req = (h', Ok g) → hub_ok (mkWorld h' (<[g := ar_approval_id req]> (guards w))).
Proof.
  intros [He Hw Hf] Ha. unfold attach in Ha. set (id := ar_approval_id req) in *.
  assert (g = next_waiter_id (hub w) ∧
    h' = mkHub (<[id := mkEntry g req]> (pending (hub w))) (g + 1) (<[g := mkChannel None true]> (channels (hub w))) ∧
    (∀ g', waits w g' id → False)) as (-> & -> & Hnone).
  { destruct (pending (hub w) !! id) as [e|] eqn:Hp.
    - destruct (receiver_open (hub w) (waiter_id e)) eqn:Ho; [done|]. injection Ha as <- <-.
      split_and!; [done|done|]. intros g' Hg'. destruct (Hw _ _ Hg') as (e' & He' & <-).
      assert (e' = e) as -> by congruence. destruct Hg' as [_ Hc]. unfold receiver_open in Ho. by rewrite Hc in Ho.
    - injection Ha as <- <-. split_and!; [done|done|]. intros g' Hg'. destruct (Hw _ _ Hg') as (e' & He' & _). congruence. }
  destruct (Hf (next_waiter_id (hub w))) as [Hfg Hfc]; [lia|]. split; simpl.
  - intros i e. destruct (decide (i = id)) as [->|Hi].
    + rewrite lookup_insert_eq. intros [= <-]. simpl. by rewrite !lookup_insert_eq.
    + rewrite lookup_insert_ne by done. intros Hp. destruct (He i e Hp) as (Hg & Hid & Hm).
      rewrite !lookup_insert_ne by congruence. done.
  - intros g' i [Hg Hc]. simpl in *. destruct (decide (g' = next_waiter_id (hub w))) as [->|Hne].
    + rewrite lookup_insert_eq in Hg. injection Hg as <-. rewrite lookup_insert_eq. by eexists.
    + rewrite lookup_insert_ne in Hg by done. rewrite lookup_insert_ne in Hc by done.
      destruct (decide (i = id)) as [->|Hi]; [by destruct (Hnone g')|].
      rewrite lookup_insert_ne by done. by apply Hw.
  - intros g' Hg'. rewrite !lookup_insert_ne by lia. apply Hf. lia.
Qed.

(** Steps that only take away entries, messages or receivers. *)
Lemma hub_ok_send w id e d :
  hub_ok w → pending (hub w) !! id = Some e →
  hub_ok (mkWorld (send (mkHub (delete id (pending (hub w))) (next_waiter_id (hub w)) (channels (hub w)))
                     (waiter_id e) d).1 (guards w)).
Proof.
  intros [He Hw Hf] Hp. destruct (He id e Hp) as (Hg & _ & Hm). unfold send. simpl.
  destruct (channels (hub w) !! waiter_id e) as [c|] eqn:Hc; [|done].
  assert (∀ i e', delete id (pending (hub w)) !! i = Some e' → waiter_id e' ≠ waiter_id e) as Hother.
  { intros i e' [Hi Hp']%lookup_delete_Some Heq. destruct (He i e' Hp') as (Hg' & _ & _). rewrite Heq in Hg'. congruence. }
  assert (∀ i e', delete id (pending (hub w)) !! i = Some e' → pending (hub w) !! i = Some e') as Hsub
    by (intros i e' [_ Hp']%lookup_delete_Some; done).
  destruct (open c) eqn:Ho; split; simpl.
  - intros i e' Hi. rewrite lookup_insert_ne by (symmetry; by eapply Hother). by apply He, Hsub.
  - intros g i [Hgi Hci]. simpl in *. destruct (decide (g = waiter_id e)) as [->|Hne].
    { by rewrite lookup_insert_eq in Hci. }
    rewrite lookup_insert_ne in Hci by done. destruct (Hw g i) as (e' & He' & <-); [done|].
    exists e'. split; [|done]. apply lookup_delete_Some. split; [|done]. intros <-. congruence.
  - intros g Hlt. destruct (Hf g Hlt) as [-> Hcg]. split; [done|]. rewrite lookup_insert_ne; [done|]. congruence.
  - intros i e' Hi. by apply He, Hsub.
  - intros g i [Hgi Hci]. simpl in *. destruct (Hw g i) as (e' & He' & <-); [done|].
    exists e'. split; [|done]. apply lookup_delete_Some. split; [|done]. intros <-.
    assert (e' = e) as -> by congruence. rewrite Hc in Hci. injection Hci as ->. done.
  - done.
Qed.

Lemma notify_cases h id d h' r :
  notify_decision h id d = (h', r) →
  h' = h ∨ ∃ e, pending h !! id = Some e ∧
    send (mkHub (delete id (pending h)) (next_waiter_id h) (channels h)) (waiter_id e) d =
    (h', match r with Ok b => b | Err _ => false end).
Proof.
  unfold notify_decision. intros Hn.
  destruct d; try (by injection Hn as <- <-; left); simpl in Hn;
    repeat match type of Hn with
    | (if ?b then _ else _) = _ => destruct b
    | (match pending h !! id with _ => _ end) = _ => destruct (pending h !! id) as [e|] eqn:Hp
    end; try (by injection Hn as <- <-; left);
    right; exists e; (split; [done|]); destruct (send _ _ _) as [h2 b]; by injection Hn as <- <-.
Qed.

Lemma close_ok w g : hub_ok w → hub_ok (mkWorld (close (hub w) g) (guards w)).
Proof.
  intros [He Hw Hf]. unfold close. destruct (channels (hub w) !! g) as [c|] eqn:Hc; [|by split]. split; simpl.
  - intros i e Hi. destruct (He i e Hi) as (Hg & Hid & Hm). split_and!; [done|done|].
    destruct (decide (waiter_id e = g)) as [Heq|Hne]; [|by rewrite lookup_insert_ne].
    rewrite Heq in *. rewrite lookup_insert_eq. rewrite Hc in Hm. done.
  - intros g' i [Hg Hci]. simpl in *. apply Hw. destruct (decide (g' = g)) as [->|Hne].
    + by rewrite lookup_insert_eq in Hci.
    + rewrite lookup_insert_ne in Hci by done. done.
  - intros g' Hlt. destruct (Hf g' Hlt) as [Hg Hcg]. split; [done|]. rewrite lookup_insert_ne; [done|]. congruence.
Qed.

Lemma drop_ok w g id h' b :
  hub_ok w → guards w !! g = Some id → detach_if_current (hub w) id g = (h', b) →
  hub_ok (mkWorld h' (delete g (guards w))).
Proof.
  intros [He Hw Hf] Hg Hd. unfold detach_if_current in Hd.
  assert ((∃ e, pending (hub w) !! id = Some e ∧ waiter_id e = g ∧
            h' = mkHub (delete id (pending (hub w))) (next_waiter_id (hub w)) (channels (hub w))) ∨
          (h' = hub w ∧ ∀ e, pending (hub w) !! id = Some e → waiter_id e ≠ g)) as Hcase.
  { destruct (pending (hub w) !! id) as [e|] eqn:Hp.
    - destruct (N.eqb_spec (waiter_id e) g) as [Heq|Hne]; injection Hd as <- <-; [left; by exists e|right].
      split; [done|]. by intros e' [= <-].
    - injection Hd as <- <-. right. done. }
  assert (∀ i e, pending h' !! i = Some e → pending (hub w) !! i = Some e ∧ waiter_id e ≠ g) as Hsub.
  { destruct Hcase as [(e0 & He0 & Heq & ->)|[-> Hne]]; intros i e Hi.
    - simpl in Hi. apply lookup_delete_Some in Hi as [Hi Hp]. split; [done|]. intros He'.
      destruct (He i e Hp) as (Hgi & _). rewrite He' in Hgi. congruence.
    - split; [done|]. intros He'. destruct (He i e Hi) as (Hgi & _). rewrite He' in Hgi.
      assert (i = id) as -> by congruence. by apply (Hne e). }
  assert (channels h' = channels (hub w) ∧ next_waiter_id h' = next_waiter_id (hub w)) as [Hch Hnx]
    by (destruct Hcase as [(? & _ & _ & ->)|[-> _]]; done).
  split; simpl.
  - intros i e [Hp Hne]%Hsub. rewrite lookup_delete_ne by done. rewrite Hch. by apply He.
  - intros g' i [Hg' Hc]. simpl in *. apply lookup_delete_Some in Hg' as [Hne Hg']. rewrite Hch in Hc.
    destruct (Hw g' i) as (e & Hp & Heq); [done|]. exists e. split; [|done].
    destruct Hcase as [(e0 & He0 & Heq0 & ->)|[-> _]]; [|done]. simpl. apply lookup_delete_Some.
    split; [|done]. intros <-. congruence.
  - intros g' Hlt. rewrite Hnx in Hlt. destruct (Hf g' Hlt) as [H1 H2]. rewrite Hch. split; [|done].
    rewrite lookup_delete_ne; [done|]. congruence.
Qed.

Lemma hub_step_ok w w' : hub_ok w → hub_step w w' → hub_ok w'.
Proof.
  intros Hok Hs. revert Hok.
  destruct Hs as [w0 req h' g Ha|w0 req h' e Ha|w0 id d h' r Hn|w0 g|w0 g id h' b Hg Hd]; intros Hok.
  - by eapply attach_ok.
  - destruct Hok as [He Hw Hf]. unfold attach in Ha.
    assert (h' = mkHub (pending (hub w0)) (next_waiter_id (hub w0) + 1) (channels (hub w0))) as ->
      by (destruct (pending (hub w0) !! _); [destruct (negb _)|]; by injection Ha).
    split; simpl; [done|done|]. intros g Hg. apply Hf. lia.
  - apply notify_cases in Hn as [->|(e & Hp & Hs)]; [by destruct w0|].
    pose proof (hub_ok_send _ _ _ d Hok Hp) as Hs'. by rewrite Hs in Hs'.
  - by apply close_ok.
  - by eapply drop_ok.
Qed.

Lemma hub_reachable_ok w : hub_reachable w → hub_ok w.
Proof.
  unfold hub_reachable. generalize hub_ok_initial. generalize (mkWorld hub_default ∅). intros w0 Hw0 Hr.
  induction Hr as [|w1 w2 w3 Hs _ IH]; [done|]. apply IH. by eapply hub_step_ok.
Qed.

(** A message, once sent, stays. *)
Lemma message_step w w' g d :
  hub_ok w → hub_step w w' → message <$> channels (hub w) !! g = Some (Some d) →
  message <$> channels (hub w') !! g = Some (Some d).
Proof.
  intros Hok Hs Hm. revert Hok Hm.
  destruct Hs as [w0 req h' g0 Ha|w0 req h' e Ha|w0 id d0 h' r Hn|w0 g0|w0 g0 id h' b Hg Hd];
    intros Hok Hm; simpl.
  - assert (g ≠ g0 ∧ channels h' = <[g0 := mkChannel None true]> (channels (hub w0))) as [Hne ->].
    { unfold attach in Ha. destruct (hub_fresh _ Hok (next_waiter_id (hub w0))) as [_ Hf]; [lia|].
      destruct (pending (hub w0) !! _); [destruct (negb _)|]; try done; injection Ha as <- <-;
        (split; [|done]); intros ->; by rewrite Hf in Hm. }
    by rewrite lookup_insert_ne.
  - unfold attach in Ha. destruct (pending (hub w0) !! _); [destruct (negb _)|]; try done; by injection Ha as <- _.
  - apply notify_cases in Hn as [->|(e & Hp & Hs)]; [done|].
    destruct (hub_entry _ Hok id e Hp) as (_ & _ & Hnone). unfold send in Hs. simpl in Hs.
    destruct (channels (hub w0) !! waiter_id e) as [c|] eqn:Hc; [|by injection Hs as <- _].
    destruct (open c); injection Hs as <- _; [|done]. simpl. rewrite lookup_insert_ne; [done|].
    intros <-. rewrite Hc in Hm. simpl in *. congruence.
  - unfold close. destruct (channels (hub w0) !! g0) as [c|] eqn:Hc; [|done]. simpl.
    destruct (decide (g0 = g)) as [->|Hne]; [|by rewrite lookup_insert_ne].
    rewrite lookup_insert_eq. rewrite Hc in Hm. done.
  - unfold detach_if_current in Hd. destruct (pending (hub w0) !! id) as [e|]; [|by injection Hd as <- _].
    destruct (_ =? _)%N; by injection Hd as <- _.
Qed.

Lemma message_steps w w' g d :
  hub_ok w → rtc hub_step w w' → message <$> channels (hub w) !! g = Some (Some d) →
  message <$> channels (hub w') !! g = Some (Some d).
Proof.
  intros Hok Hr. induction Hr as [|w1 w2 w3 Hs _ IH]; [done|]. intros Hm.
  apply IH; [by eapply hub_step_ok|by eapply message_step].
Qed.

(** ** Risk tags *)

Lemma digits_value_app acc a b :
  digits_value acc (a ++ b) = match digits_value acc a with Some v => digits_value v b | None => None end.
Proof.
  revert acc. induction a as [|c a IH]; intros acc; simpl; [done|]. destruct (is_ascii_digit c); [apply IH|done].
Qed.

Lemma digit_char (z : Z) : (0 <= z < 10)%Z →
  is_ascii_digit (Z.to_N (48 + z)) = true ∧ Z.of_N (Z.to_N (48 + z) - 48) = z.
Proof. intros Hz. unfold is_ascii_digit. split; [|lia]. apply andb_true_iff. rewrite !N.leb_le. lia. Qed.

Lemma digits_of_value fuel (z : Z) :
  (0 <= z < 10 ^ Z.of_nat fuel)%Z → digits_value 0 (digits_of fuel z) = Some z ∧ (fuel ≠ O → digits_of fuel z ≠ []).
Proof.
  revert z. induction fuel as [|fuel IH]; intros z Hz.
  { assert (z = 0%Z) as -> by (simpl in Hz; lia). done. }
  simpl. destruct (Z.ltb_spec z 10).
  - destruct (digit_char z) as [Hd Hv]; [lia|]. cbn [digits_value]. rewrite Hd, Hv. split; [f_equal; lia|done].
  - rewrite Nat2Z.inj_succ, Z.pow_succ_r in Hz by lia.
    destruct (IH (z / 10)%Z) as [Hq _].
    { split; [apply Z.div_pos; lia|]. apply Z.div_lt_upper_bound; lia. }
    rewrite digits_value_app, Hq. destruct (digit_char (z mod 10)%Z) as [Hd Hv]; [apply Z.mod_pos_bound; lia|].
    cbn [digits_value]. rewrite Hd, Hv. split; [f_equal; pose proof (Z.div_mod z 10); lia|].
    intros _. intros Happ%app_eq_nil. by destruct Happ.
Qed.

Lemma digits_of_digit fuel z c r : (0 <= z)%Z → digits_of fuel z = c :: r → is_ascii_digit c = true.
Proof.
  revert z c r. induction fuel as [|fuel IH]; intros z c r Hz; simpl; [done|]. destruct (Z.ltb_spec z 10).
  - intros [= <- _]. by apply digit_char.
  - destruct (digits_of fuel (z / 10)) as [|c' r'] eqn:Hd; simpl.
    + intros [= <- _]. apply digit_char. apply Z.mod_pos_bound. lia.
    + intros [= <- _]. eapply IH; [|done]. apply Z.div_pos; lia.
Qed.

Lemma no_plus (c : char) (r : str) : c ≠ 43%N → match c with 43%N => r | _ => c :: r end = c :: r.
Proof.
  intros Hc. destruct c as [|p]; [done|].
  do 6 (destruct p as [p|p|]; try reflexivity). by destruct Hc.
Qed.

Lemma parse_decimal (z : Z) : (0 <= z <= u64_max)%Z → parse_u64 (decimal z) = Some z.
Proof.
  intros Hz. unfold parse_u64, decimal.
  destruct (digits_of_value 20 z) as [Hv Hn]; [unfold u64_max in Hz; simpl; lia|]. specialize (Hn ltac:(done)).
  destruct (digits_of 20 z) as [|c r] eqn:Hd; [done|].
  assert (c ≠ 43%N) as Hc.
  { intros ->. pose proof (digits_of_digit 20 z 43 r ltac:(lia) Hd). done. }
  rewrite (no_plus c r Hc), Hv. destruct (Z.leb_spec z u64_max); [done|lia].
Qed.

Lemma strip_prefix_app p s : strip_prefix p (p ++ s) = Some s.
Proof. induction p as [|c p IH]; simpl; [done|]. by rewrite N.eqb_refl. Qed.

Lemma strip_prefix_Some p s r : strip_prefix p s = Some r → s = p ++ r.
Proof.
  revert s. induction p as [|c p IH]; intros [|b s]; simpl; try (by intros [= ->]).
  destruct (N.eqb_spec c b) as [->|]; [|done]. intros ->%IH. done.
Qed.

Lemma has_tag_In tag tags : has_tag tag tags = true ↔ tag ∈ tags.
Proof.
  unfold has_tag. rewrite existsb_exists. split.
  - intros (x & Hx & ->%str_eqb_eq). by apply list_elem_of_In.
  - intros Hin. exists tag. split; [by apply list_elem_of_In|apply str_eqb_refl].
Qed.

Lemma has_tag_retain tag keep tags :
  has_tag tag (retain keep tags) = has_tag tag tags && keep tag.
Proof.
  apply eq_true_iff_eq. rewrite andb_true_iff, !has_tag_In. unfold retain.
  rewrite !list_elem_of_In, filter_In. done.
Qed.

Lemma has_tag_app tag a b : has_tag tag (a ++ b) = has_tag tag a || has_tag tag b.
Proof. apply existsb_app. Qed.

Lemma retain_no_prefix prefix keep tags :
  (∀ tag, keep tag = true → starts_with prefix tag = false) →
  omap (strip_prefix prefix) (retain keep tags) = [].
Proof.
  intros Hk. unfold retain. induction tags as [|t tags IH]; [done|]. simpl. destruct (keep t) eqn:Ht; [|done].
  simpl. specialize (Hk t Ht). unfold starts_with in Hk. destruct (strip_prefix prefix t); [done|]. exact IH.
Qed.

(** Tags that a reviewer writes carry no authority: stripping them leaves no approval, no
    scope and no duration, and binding the offered scope and a duration makes exactly those
    readable, whatever the reviewer had written, without approving a lease. *)
Theorem reviewer_tags_carry_no_authority tags scope offered duration :
  (0 < duration <= u64_max)%Z →
  let stripped := without_capability_lease_authority tags in
  capability_lease_was_approved stripped = false ∧ capability_lease_scope stripped offered = offered ∧
  approved_capability_lease_duration stripped = Ok None ∧
  capability_lease_scope (bind_capability_lease_scope_risk_tags tags scope) offered = scope ∧
  approved_capability_lease_duration (bind_capability_lease_duration tags duration) = Ok (Some duration) ∧
  capability_lease_was_approved (bind_capability_lease_scope_risk_tags tags scope)
    = capability_lease_was_approved tags ∧
  capability_lease_was_approved (bind_capability_lease_duration tags duration)
    = capability_lease_was_approved tags.
Proof.
  intros Hd. cbn zeta. unfold capability_lease_was_approved, capability_lease_scope,
    without_capability_lease_authority, bind_capability_lease_scope_risk_tags, bind_capability_lease_duration.
  rewrite !has_tag_app, !has_tag_retain. split_and!.
  - rewrite str_eqb_refl. apply andb_false_r.
  - by rewrite !andb_false_r.
  - unfold approved_capability_lease_duration. rewrite retain_no_prefix; [done|].
    intros tag. rewrite !andb_true_iff, !negb_true_iff. tauto.
  - rewrite !str_eqb_refl. rewrite !andb_false_r. by destruct scope.
  - unfold approved_capability_lease_duration. rewrite omap_app, retain_no_prefix
      by (intros tag; apply negb_true_iff). cbn [app omap list_omap].
    rewrite strip_prefix_app, parse_decimal by lia. simpl. destruct (Z.ltb_spec 0 duration); [done|lia].
  - assert (has_tag APPROVED_TAG [capability_lease_scope_risk_tag scope] = false) as -> by (by destruct scope).
    by rewrite andb_true_r, orb_false_r.
  - rewrite andb_true_r. apply orb_false_r.
Qed.

(** ** Leases *)

Lemma is_prefix_trans a b c : is_prefix a b = true → is_prefix b c = true → is_prefix a c = true.
Proof.
  revert b c. induction a as [|x a IH]; intros [|y b] [|z c]; simpl; try done.
  rewrite !andb_true_iff, !bool_decide_eq_true. intros [-> Ha] [-> Hb]. split; [done|]. by eapply IH.
Qed.

Lemma path_starts_with_trans p q r :
  path_starts_with p q = true → path_starts_with q r = true → path_starts_with p r = true.
Proof.
  unfold path_starts_with. rewrite !andb_true_iff, !eqb_true_iff. intros [-> Hp] [-> Hq]. split; [done|].
  by eapply is_prefix_trans.
Qed.

(** A path below a root, neither of which leaves its place. *)
Definition lies_below (path root : Path) : Prop :=
  has_parent_dir path = false ∧ has_parent_dir root = false ∧ path_starts_with path root = true.

(** What it means that a request stays inside a grant. *)
Record stays_inside (r g : CapabilityDelta) : Prop := {
  inside_network : network r = true → network g = true;
  inside_read p : p ∈ read_roots r → ∃ root, root ∈ read_roots g ++ write_roots g ∧ lies_below p root;
  inside_write p : p ∈ write_roots r → ∃ root, root ∈ write_roots g ∧ lies_below p root;
  inside_secrets n : n ∈ secret_env r → n ∈ secret_env g
}.

Lemma existsb_elem_of {A} (f : A → bool) l : existsb f l = true ↔ ∃ x, x ∈ l ∧ f x = true.
Proof. rewrite existsb_exists. setoid_rewrite list_elem_of_In. done. Qed.

Lemma forallb_elem_of {A} (f : A → bool) l : forallb f l = true ↔ ∀ x, x ∈ l → f x = true.
Proof. rewrite forallb_forall. setoid_rewrite list_elem_of_In. done. Qed.

Lemma contains_below path root :
  forallb (λ value, negb (has_parent_dir value)) [path; root] && path_starts_with path root = true ↔
  lies_below path root.
Proof. unfold lies_below. simpl. rewrite !andb_true_iff, !negb_true_iff. tauto. Qed.

Lemma is_subset_of_iff r g : is_subset_of r g = true ↔ stays_inside r g.
Proof.
  unfold is_subset_of, is_subset_with. rewrite !andb_true_iff, !forallb_elem_of. split.
  - intros [[[Hn Hr] Hw] Hs]. split.
    + destruct (network r); [by simpl in Hn|done].
    + intros p Hp. specialize (Hr p Hp). apply orb_true_iff in Hr as [Hr|Hr];
        apply existsb_elem_of in Hr as (root & Hroot & Hb%contains_below); exists root; (split; [|done]);
        apply elem_of_app; tauto.
    + intros p Hp. specialize (Hw p Hp). apply existsb_elem_of in Hw as (root & Hroot & Hb%contains_below). by exists root.
    + intros n Hx. specialize (Hs n Hx). by apply existsb_elem_of in Hs as (m & Hm & ->%str_eqb_eq).
  - intros [Hn Hr Hw Hs]. split_and!.
    + destruct (network r); [by rewrite Hn|done].
    + intros p Hp. destruct (Hr p Hp) as (root & [Hroot|Hroot]%elem_of_app & Hb); apply orb_true_iff; [left|right];
        apply existsb_elem_of; exists root; (split; [done|by apply contains_below]).
    + intros p Hp. destruct (Hw p Hp) as (root & Hroot & Hb). apply existsb_elem_of. exists root.
      split; [done|by apply contains_below].
    + intros n Hx. apply existsb_elem_of. exists n. split; [by apply Hs|apply str_eqb_refl].
Qed.

Lemma lies_below_trans p q r : lies_below p q → lies_below q r → lies_below p r.
Proof.
  intros (Hp & _ & H1) (_ & Hr & H2). split_and!; [done|done|]. by eapply path_starts_with_trans.
Qed.

Lemma cover_iff granted required :
  reusable_capabilities_cover granted required = true ↔ ∀ c, c ∈ required → c ∈ granted.
Proof.
  unfold reusable_capabilities_cover. rewrite forallb_elem_of. split; intros Hc c Hin; specialize (Hc c Hin).
  - by apply existsb_elem_of in Hc as (x & Hx & ->%str_eqb_eq).
  - apply existsb_elem_of. exists c. split; [done|apply str_eqb_refl].
Qed.

(** The capability families of a delta. *)
Definition family (d : CapabilityDelta) (c : str) : Prop :=
  (c = s! "network" ∧ network d = true) ∨
  (c = s! "filesystem.read" ∧ (read_roots d ≠ [] ∨ write_roots d ≠ [])) ∨
  (c = s! "filesystem.write" ∧ write_roots d ≠ []) ∨
  (c = s! "secret_env" ∧ secret_env d ≠ []).

Lemma reusable_capabilities_family a d c :
  delta_is_empty d = false → c ∈ reusable_capabilities a d ↔ family d c.
Proof.
  unfold delta_is_empty, reusable_capabilities, family. destruct d as [n r w e]. simpl.
  generalize (s! "network") (s! "filesystem.read") (s! "filesystem.write") (s! "secret_env").
  intros s1 s2 s3 s4.
  destruct n, r as [|r0 r], w as [|w0 w], e as [|e0 e]; simpl; try done; intros _;
    rewrite ?elem_of_cons, ?elem_of_nil; intuition congruence.
Qed.

(** A lease covers the requests inside its delta: such a request needs only capability
    families that the lease names, each of its roots lies below a granted one and neither
    leaves its place, and what is inside an inner grant is inside an outer one. *)
Theorem lease_covers_request action action' requested granted :
  is_subset_of requested granted = true →
  stays_inside requested granted ∧
  (delta_is_empty requested = false →
     reusable_capabilities_cover (reusable_capabilities action granted)
       (reusable_capabilities action' requested) = true) ∧
  ∀ outer, is_subset_of granted outer = true → is_subset_of requested outer = true.
Proof.
  intros Hin%is_subset_of_iff. pose proof Hin as [Hn Hr Hw Hs]. split_and!; [done| |].
  - intros Hne. assert (∀ c, family requested c → family granted c) as Hfam.
    { assert (write_roots requested ≠ [] → write_roots granted ≠ []) as Hww.
      { destruct (write_roots requested) as [|p l]; [done|]. intros _ Hnil.
        destruct (Hw p) as (root & Hroot & _); [by left|]. rewrite Hnil in Hroot. by apply elem_of_nil in Hroot. }
      assert (read_roots requested ≠ [] → read_roots granted ≠ [] ∨ write_roots granted ≠ []) as Hrr.
      { destruct (read_roots requested) as [|p l]; [done|]. intros _.
        destruct (Hr p) as (root & Hroot & _); [by left|].
        destruct (read_roots granted); [right|by left]. intros Hnil. rewrite Hnil in Hroot. by apply elem_of_nil in Hroot. }
      assert (secret_env requested ≠ [] → secret_env granted ≠ []) as Hss.
      { destruct (secret_env requested) as [|x l]; [done|]. intros _ Hnil.
        specialize (Hs x ltac:(by left)). rewrite Hnil in Hs. by apply elem_of_nil in Hs. }
      intros c [[-> ?]|[[-> Hc]|[[-> ?]|[-> ?]]]]; unfold family.
      - left. split; [done|by apply Hn].
      - right; left. split; [done|]. destruct Hc as [Hc|Hc]; [by apply Hrr|right; by apply Hww].
      - right; right; left. split; [done|by apply Hww].
      - right; right; right. split; [done|by apply Hss]. }
    assert (delta_is_empty granted = false) as Hne'.
    { destruct (delta_is_empty granted) eqn:He; [|done]. exfalso.
      assert (∃ c, family requested c) as [c Hc].
      { unfold family, delta_is_empty in *. destruct requested as [n r ws e]. simpl in *.
        destruct n; [eexists; by left|]. destruct r; [|eexists; right; left; split; [done|by left]].
        destruct ws; [|eexists; right; right; left; by split]. destruct e; [done|].
        eexists; right; right; right; by split. }
      apply Hfam in Hc. unfold family, delta_is_empty in *.
      destruct granted as [[] [] [] []]; simpl in *; naive_solver. }
    apply cover_iff. intros c Hc. apply (reusable_capabilities_family action granted c Hne').
    apply Hfam. by apply (reusable_capabilities_family action' requested c Hne).
  - intros outer [On Or Ow Os]%is_subset_of_iff. apply is_subset_of_iff. split.
    + intros H. by apply On, Hn.
    + intros p Hp. destruct (Hr p Hp) as (root & [Hroot|Hroot]%elem_of_app & Hb).
      * destruct (Or root Hroot) as (o & Ho & Hb'). exists o. split; [done|by eapply lies_below_trans].
      * destruct (Ow root Hroot) as (o & Ho & Hb'). exists o. split; [apply elem_of_app; by right|by eapply lies_below_trans].
    + intros p Hp. destruct (Hw p Hp) as (root & Hroot & Hb). destruct (Ow root Hroot) as (o & Ho & Hb').
      exists o. split; [done|by eapply lies_below_trans].
    + intros n Hx. by apply Os, Hs.
Qed.

(** ** Delivery *)

(** A decision a human may give to the request that waits under an identifier. *)
Definition may_decide (h : Hub) (id : str) (d : ApprovalDecision) : Prop :=
  match d with
  | AskHuman _ _ => False
  | AllowLease _ _ => offers_no_lease h id = false
  | _ => True
  end.

(** C36. No decision is lost and none is given twice: at most one reviewer waits under an
    approval, whatever attachments, cancellations and late guards came before; a decision
    for it is delivered to exactly that reviewer, and its message never changes after. *)
Theorem human_decision_delivered w g id d :
  hub_reachable w → waits w g id → may_decide (hub w) id d →
  (∀ g', waits w g' id → g' = g) ∧
  ∃ h', notify_decision (hub w) id d = (h', Ok true) ∧
    channels h' !! g = Some (mkChannel (Some d) true) ∧ pending h' !! id = None ∧
    ∀ w', rtc hub_step (mkWorld h' (guards w)) w' → message <$> channels (hub w') !! g = Some (Some d).
Proof.
  intros Hr Hg Hd. pose proof (hub_reachable_ok w Hr) as Hok.
  destruct (hub_waits w Hok g id Hg) as (e & Hp & He). split.
  { intros g' Hg'. destruct (hub_waits w Hok g' id Hg') as (e' & Hp' & <-). congruence. }
  assert (send (mkHub (delete id (pending (hub w))) (next_waiter_id (hub w)) (channels (hub w))) (waiter_id e) d
          = (mkHub (delete id (pending (hub w))) (next_waiter_id (hub w))
               (<[g := mkChannel (Some d) true]> (channels (hub w))), true)) as Hs.
  { unfold send. simpl. rewrite He. destruct Hg as [_ ->]. done. }
  assert (notify_decision (hub w) id d =
          (mkHub (delete id (pending (hub w))) (next_waiter_id (hub w))
             (<[g := mkChannel (Some d) true]> (channels (hub w))), Ok true)) as Hn.
  { unfold notify_decision. destruct d; try done; simpl in Hd |- *; rewrite ?Hd, Hp, Hs; done. }
  eexists. split_and!; [exact Hn|simpl; by rewrite lookup_insert_eq|simpl; by rewrite lookup_delete_eq|].
  intros w' Hw'. eapply message_steps; [|exact Hw'|simpl; by rewrite lookup_insert_eq].
  eapply hub_step_ok; [exact Hok|]. by eapply hub_notify.
Qed.

(** ** Reviewer output *)

(** The reading of an automatic reviewer is not total: when the last closing brace of its
    answer comes before the first opening one, the slice is out of order and the reader
    panics instead of refusing the answer. *)
Theorem reviewer_output_panics `{ReviewerCodec} :
  parse_reviewer_output s! "no} decision {here" = None.
Proof. reflexivity. Qed.

(** ** Samples *)

Definition sample_request (id : string) : ApprovalRequest :=
  mkRequest (lit id) [] [] [] [] [] [] 0 None (Shell s! "make" (path_new s! "/w")) empty_delta [] None.

Definition waiting : World := mkWorld (attach hub_default (sample_request "a")).1 {[ 1%N := s! "a" ]}.

Lemma human_decision_delivered_witness :
  ∃ h', notify_decision (hub waiting) s! "a" (AllowOnce s! "fine" []) = (h', Ok true) ∧ pending h' !! s! "a" = None.
Proof.
  destruct (human_decision_delivered waiting 1%N s! "a" (AllowOnce s! "fine" [])) as [_ (h' & Hn & _ & Hp & _)].
  - unfold hub_reachable. eapply rtc_l; [|reflexivity].
    exact (hub_attach (mkWorld hub_default ∅) (sample_request "a") _ 1%N eq_refl).
  - split; vm_compute; reflexivity.
  - exact I.
  - exists h'. split; [exact Hn|exact Hp].
Defined.

Lemma reviewer_tags_carry_no_authority_witness :
  approved_capability_lease_duration
    (bind_capability_lease_duration [DURATION_PREFIX ++ s! "99"; s! "risky"] 3600) = Ok (Some 3600%Z).
Proof.
  refine (proj1 (proj2 (proj2 (proj2 (proj2 (reviewer_tags_carry_no_authority
    [DURATION_PREFIX ++ s! "99"; s! "risky"] ScopeThread ScopeThread 3600 _)))))).
  unfold u64_max. lia.
Defined.

Definition sample_delta (root : string) : CapabilityDelta := mkDelta true [] [path_new (lit root)] [].

Lemma lease_covers_request_witness :
  is_subset_of (sample_delta "/w/src") (sample_delta "/w") = true ∧
  stays_inside (sample_delta "/w/src") (sample_delta "/w").
Proof.
  split; [vm_compute; reflexivity|].
  refine (proj1 (lease_covers_request (Shell [] empty_path) (Shell [] empty_path) _ _ _)). vm_compute. reflexivity.
Defined.
