(* ===== verification/Permission.v ===== *)
(** * Permissions

    Profiles, the decision on a path, and the broker that authorizes what a profile does not
    allow (morphz/src/permission.rs).  The file system and the current session are
    arguments; a reviewer is the answer it gives; glob patterns and serde_json are
    parameters. *)

From stdpp Require Import base list gmap strings.
From Stdlib Require Import NArith ZArith Lia.
From S2P Require Import Prelude JsonValue Types Diagnostic Text Paths Approval ApprovalHub.

(** ** Libraries *)

(** The glob crate with the options of [path_matches_pattern]. *)
Class Glob : Type := {
  pattern_new : str → bool;
  pattern_matches : str → str → bool
}.

(** serde_json. *)
Class JsonCodec : Type := { json_to_vec : Json → list N }.

Abbreviation PermissionError := Message.
Definition deny {A} (template : string) (args : list MsgArg) : result PermissionError A :=
  Err (Msg template args).

(** ** Modes *)

(** morphz/src/permission.rs:96-101 [PermissionMode]. *)
Inductive PermissionMode : Type := RequestApproval | AutoReview | FullAccess | Custom.
(** morphz/src/permission.rs:164-167 [SandboxMode]. *)
Inductive SandboxMode : Type := WorkspaceWrite | DangerFullAccess.
(** morphz/src/permission.rs:189-192 [ApprovalPolicy]. *)
Inductive ApprovalPolicy : Type := OnRequest | Never.
(** morphz/src/permission.rs:196-200 [ReviewerKind]. *)
Inductive ReviewerKind : Type := ByUser | ByAutoReview | ByDeny.
(** morphz/src/permission.rs:204-207 [ShellEnvironmentPolicy]. *)
Inductive ShellEnvironmentPolicy : Type := RemoveSensitive | InheritAll.

#[export] Instance permission_mode_eq_dec : EqDecision PermissionMode.
Proof. solve_decision. Defined.
#[export] Instance sandbox_mode_eq_dec : EqDecision SandboxMode.
Proof. solve_decision. Defined.
#[export] Instance approval_policy_eq_dec : EqDecision ApprovalPolicy.
Proof. solve_decision. Defined.

(** morphz/src/permission.rs:104-114 [PermissionMode::parse]. *)
Definition permission_mode_parse (value : str) : result Message PermissionMode :=
  let v := to_ascii_lowercase (trim value) in
  let is_one_of l := existsb (str_eqb v) l in
  if is_one_of [s! "request_approval"; s! "request-approval"; s! "human"] then Ok RequestApproval
  else if is_one_of [s! "auto_review"; s! "auto-review"; s! "auto_approval"; s! "auto-approval"] then Ok AutoReview
  else if is_one_of [s! "full_access"; s! "full-access"; s! "full"] then Ok FullAccess
  else if is_one_of [s! "custom"] then Ok Custom
  else deny "unsupported permission mode '{other}'" [AStr v].

(** morphz/src/permission.rs:116-123 [PermissionMode::as_str]. *)
Definition permission_mode_str (m : PermissionMode) : str :=
  match m with
  | RequestApproval => s! "request_approval"
  | AutoReview => s! "auto_review"
  | FullAccess => s! "full_access"
  | Custom => s! "custom"
  end.

(** morphz/src/permission.rs:125-144 [PermissionMode::preset]. *)
Definition mode_preset (m : PermissionMode) : option (SandboxMode * ApprovalPolicy * ReviewerKind) :=
  match m with
  | RequestApproval => Some (WorkspaceWrite, OnRequest, ByUser)
  | AutoReview => Some (WorkspaceWrite, OnRequest, ByAutoReview)
  | FullAccess => Some (DangerFullAccess, Never, ByDeny)
  | Custom => None
  end.

(** morphz/src/permission.rs:146-159 [PermissionMode::from_effective_controls]. *)
Definition from_effective_controls (s : SandboxMode) (p : ApprovalPolicy) (r : ReviewerKind) : PermissionMode :=
  match s with
  | DangerFullAccess => FullAccess
  | WorkspaceWrite =>
      match p, r with
      | OnRequest, ByAutoReview => AutoReview
      | OnRequest, ByUser => RequestApproval
      | _, _ => Custom
      end
  end.

(** morphz/src/permission.rs:170-177 [SandboxMode::parse]. *)
Definition sandbox_mode_parse (value : str) : result Message SandboxMode :=
  let v := to_ascii_lowercase (trim value) in
  let is_one_of l := existsb (str_eqb v) l in
  if is_one_of [s! "workspace-write"; s! "workspace_write"; s! "workspace"] then Ok WorkspaceWrite
  else if is_one_of [s! "danger-full-access"; s! "danger_full_access"; s! "full-access"; s! "full_access"; s! "full"]
    then Ok DangerFullAccess
  else deny "unsupported Sandbox mode '{other}'" [AStr v].

(** morphz/src/permission.rs:179-184 [SandboxMode::as_str]. *)
Definition sandbox_mode_str (m : SandboxMode) : str :=
  match m with WorkspaceWrite => s! "workspace-write" | DangerFullAccess => s! "danger-full-access" end.

(** ** Profiles *)

(** morphz/src/permission.rs:213-232 [PermissionConfig]. *)
Record PermissionConfig : Type := mkConfig {
  c_mode : PermissionMode;
  c_workspace_root : str;
  c_read_only_outside_workspace : bool;
  c_read_roots : list str;
  c_write_roots : list str;
  c_protected_paths : list str;
  c_network : bool;
  c_sandbox_mode : SandboxMode;
  c_approval_policy : ApprovalPolicy;
  c_reviewer : ReviewerKind;
  c_auto_review_model : option str;
  c_shell_environment_policy : ShellEnvironmentPolicy
}.

(** morphz/src/permission.rs:234-264 [PermissionConfig::default]. *)
Definition config_default : PermissionConfig :=
  mkConfig AutoReview s! "." true [] []
    [s! ".env"; s! ".env.local"; s! ".env.development"; s! ".env.development.local"; s! ".env.test";
     s! ".env.test.local"; s! ".env.production"; s! ".env.production.local"; s! ".git"; s! ".ssh";
     s! ".morphz/config.toml"; s! ".morphz/morphz.toml"]
    true WorkspaceWrite OnRequest ByAutoReview None RemoveSensitive.

(** morphz/src/permission.rs:267-271 [PermissionConfig::preset]. *)
Definition config_preset (c : PermissionConfig) : SandboxMode * ApprovalPolicy * ReviewerKind :=
  default (c_sandbox_mode c, c_approval_policy c, c_reviewer c) (mode_preset (c_mode c)).

(** morphz/src/permission.rs:273-276 [PermissionConfig::effective_mode]. *)
Definition config_effective_mode (c : PermissionConfig) : PermissionMode :=
  let '(s, p, r) := config_preset c in from_effective_controls s p r.

(** morphz/src/permission.rs:280-300 [PermissionProfile]. *)
Record PermissionProfile : Type := mkProfile {
  mode : PermissionMode;
  sandbox_mode : SandboxMode;
  approval_policy : ApprovalPolicy;
  reviewer : ReviewerKind;
  auto_review_model : option str;
  workspace_root : Path;
  profile_read_roots : list Path;
  profile_write_roots : list Path;
  protected_paths : list str;
  workspace_boundary : bool;
  configured_network : bool;
  profile_network : bool;
  shell_environment_policy : ShellEnvironmentPolicy
}.

(** morphz/src/permission.rs:554-559 [filesystem_root]. *)
Definition filesystem_root (p : Path) : Path := default p (last (ancestors p)).

(** morphz/src/permission.rs:561-563 [is_filesystem_root]. *)
Definition is_filesystem_root (p : Path) : bool := bool_decide (filesystem_root p = p).

(** morphz/src/permission.rs:565-569 [has_glob_metacharacters]. *)
Definition has_glob_metacharacters (value : str) : bool :=
  existsb (λ c, existsb (N.eqb c) (lit "*?[]")) value.

(** morphz/src/permission.rs:1121-1125 [push_unique]. *)
Definition push_unique (paths : list Path) (p : Path) : list Path :=
  if existsb (λ existing, bool_decide (existing = p)) paths then paths else paths ++ [p].

(** morphz/src/permission.rs:1028-1036 [canonicalize_existing]. *)
Definition canonicalize_existing (fs : FileSystem) (p : Path) (kind : string) : result PermissionError Path :=
  map_err (λ _, Msg "failed to resolve permission configuration {kind} '{}': {error}"
                  [AStr (lit kind); AStr (path_text p)]) (canonicalize fs p).

(** morphz/src/permission.rs:1045-1062 [resolve_existing_or_parent, the loop]. *)
Fixpoint resolve_ancestor (fs : FileSystem) (p : Path) (l : list Path) : result PermissionError Path :=
  match l with
  | [] => deny "path '{}' has no resolvable ancestor directory" [AStr (path_text p)]
  | current :: rest =>
      if path_exists fs current then
        map_err (λ _, Msg "failed to resolve path ancestor '{}': {error}" [AStr (path_text current)])
          (canonicalize fs current)
      else resolve_ancestor fs p rest
  end.

(** morphz/src/permission.rs:1038-1062 [resolve_existing_or_parent]. *)
Definition resolve_existing_or_parent (fs : FileSystem) (p : Path) : result PermissionError Path :=
  if path_exists fs p then
    map_err (λ _, Msg "failed to resolve path '{}': {error}" [AStr (path_text p)]) (canonicalize fs p)
  else resolve_ancestor fs p (ancestors (default (path_new s! ".") (parent p))).

Section profiles.
Context `{Glob}.

(** morphz/src/permission.rs:303-357 [PermissionProfile::from_config]. *)
Definition from_config (fs : FileSystem) (c : PermissionConfig) : result PermissionError PermissionProfile :=
  let model :=
    m ← c_auto_review_model c;
    let m := trim m in
    match m with [] => None | _ => Some m end in
  if is_some (c_auto_review_model c) && negb (is_some model) then
    deny "permissions.auto_review_model must not be empty" []
  else
    root ← canonicalize_existing fs (path_new (c_workspace_root c)) "workspace";
    if negb (is_dir fs root) then
      deny "permission configuration workspace_root '{}' is not a directory" [AStr (path_text root)]
    else
      let '(sandbox, policy, reviewer_) := config_preset c in
      let read := [root] in
      let read := if c_read_only_outside_workspace c then push_unique read (filesystem_root root) else read in
      read ← foldM (λ read r,
        r ← canonicalize_existing fs (path_new r) "read root"; Ok (push_unique read r)) read (c_read_roots c);
      '(read, write) ← foldM (λ acc w,
        w ← canonicalize_existing fs (path_new w) "write root";
        Ok (push_unique acc.1 w, push_unique acc.2 w)) (read, [root]) (c_write_roots c);
      _ ← try_each (λ pattern,
        if pattern_new pattern then Ok tt
        else deny "invalid protected_paths glob '{pattern}': {error}" [AStr pattern]) (c_protected_paths c);
      Ok (mkProfile (c_mode c) sandbox policy reviewer_ model root read write (c_protected_paths c) false
            (c_network c) (bool_decide (sandbox = DangerFullAccess) || c_network c)
            (c_shell_environment_policy c)).

(** morphz/src/permission.rs:359-361 [PermissionProfile::full_access]. *)
Definition full_access (p : PermissionProfile) : bool := bool_decide (sandbox_mode p = DangerFullAccess).

(** morphz/src/permission.rs:363-366 [PermissionProfile::confine_to_workspace]. *)
Definition confine_to_workspace (p : PermissionProfile) : PermissionProfile :=
  mkProfile (mode p) (sandbox_mode p) (approval_policy p) (reviewer p) (auto_review_model p)
    (workspace_root p) (profile_read_roots p) (profile_write_roots p) (protected_paths p) true
    (configured_network p) (profile_network p) (shell_environment_policy p).

(** morphz/src/permission.rs:401-407 [PermissionProfile::effective_mode]. *)
Definition effective_mode (p : PermissionProfile) : PermissionMode :=
  from_effective_controls (sandbox_mode p) (approval_policy p) (reviewer p).

(** morphz/src/permission.rs:409-412 [PermissionProfile::permission_request_available]. *)
Definition permission_request_available (p : PermissionProfile) : bool :=
  bool_decide (sandbox_mode p = WorkspaceWrite) && bool_decide (approval_policy p = OnRequest).

(** [str::replace('\\', "/")] and [trim_start_matches('/')]. *)
Definition forward_slashes (s : str) : str := map (λ c, if (c =? 92)%N then 47%N else c) s.
Fixpoint trim_slashes (s : str) : str :=
  match s with 47%N :: r => trim_slashes r | _ => s end.

(** morphz/src/permission.rs:1089-1105 [path_matches_pattern, a glob]. *)
Definition glob_matches (p : Path) (pattern : str) : bool :=
  let normalized := forward_slashes (path_text p) in
  pattern_matches pattern normalized
  || pattern_matches pattern (trim_slashes normalized)
  || match file_name p with Some name => pattern_matches pattern name | None => false end.

(** morphz/src/permission.rs:1064-1106 [path_matches_pattern]. *)
Definition path_matches_pattern (fs : FileSystem) (candidate resolved : Path) (pattern : str) : bool :=
  if negb (has_glob_metacharacters pattern) then
    let protected := path_new pattern in
    let literal_match :=
      existsb (λ path, existsb (λ ancestor,
          if absolute protected then bool_decide (ancestor = protected)
          else path_ends_with ancestor protected) (ancestors path)) [candidate; resolved] in
    if literal_match || negb (absolute protected) then literal_match
    else
      match resolve_denied_path fs protected, resolve_denied_path fs candidate with
      | Ok protected, Ok candidate => path_starts_with candidate protected
      | _, _ => true
      end
  else if negb (pattern_new pattern) then true
  else existsb (λ path, glob_matches path pattern) [candidate; resolved].

(** morphz/src/permission.rs:587-591 [ResolvedPath]. *)
Record ResolvedPath : Type := mkResolved { candidate : Path; resolved_anchor : Path; protected : bool }.

(** morphz/src/permission.rs:414-441 [PermissionProfile::resolve_candidate]. *)
Definition resolve_candidate (fs : FileSystem) (p : PermissionProfile) (input : str)
    : result PermissionError ResolvedPath :=
  match trim input with
  | [] => deny "path must not be empty" []
  | trimmed =>
      let raw := path_new trimmed in
      let candidate := if absolute raw then raw else join (workspace_root p) raw in
      anchor ← resolve_existing_or_parent fs candidate;
      if workspace_boundary p && negb (path_starts_with anchor (workspace_root p)) then
        deny "Runtime Artifact path is outside the non-overridable workspace boundary" []
      else
        let protected := (negb (full_access p) || workspace_boundary p)
          && existsb (path_matches_pattern fs candidate anchor) (protected_paths p) in
        Ok (mkResolved candidate anchor protected)
  end.

(** morphz/src/permission.rs:572-575 [FilesystemAccess]. *)
Inductive FilesystemAccess : Type := ReadAccess | WriteAccess.

(** morphz/src/permission.rs:594-601 [PathDecision]. *)
Inductive PathDecision : Type :=
| PathAllowed (p : Path)
| NeedsApproval (candidate resolved_anchor : Path)
| PathDenied (reason : Message).

Definition roots_for (p : PermissionProfile) (access : FilesystemAccess) : list Path :=
  match access with ReadAccess => profile_read_roots p | WriteAccess => profile_write_roots p end.

(** morphz/src/permission.rs:443-473 [PermissionProfile::inspect_path]. *)
Definition inspect_path (fs : FileSystem) (p : PermissionProfile) (input : str) (access : FilesystemAccess)
    : result PermissionError PathDecision :=
  resolved ← resolve_candidate fs p input;
  if full_access p && negb (workspace_boundary p) then Ok (PathAllowed (candidate resolved))
  else if protected resolved then
    Ok (PathDenied (Msg "path '{}' matches a non-overridable protected_paths rule"
                      [AStr (path_text (candidate resolved))]))
  else if existsb (path_starts_with (resolved_anchor resolved)) (roots_for p access) then
    Ok (PathAllowed (candidate resolved))
  else Ok (NeedsApproval (candidate resolved) (resolved_anchor resolved)).

(** morphz/src/permission.rs:475-491 [PermissionProfile::canonical_permission_root]. *)
Definition canonical_permission_root (fs : FileSystem) (p : PermissionProfile) (input : str)
    : result PermissionError Path :=
  resolved ← resolve_candidate fs p input;
  if protected resolved then
    deny "additional permissions cannot override protected_paths: {}" [AStr (path_text (candidate resolved))]
  else
    map_err (λ _, Msg "additional permission path must already exist and be resolvable '{}': {error}"
                    [AStr (path_text (candidate resolved))]) (canonicalize fs (candidate resolved)).

(** morphz/src/permission.rs:493-496 [PermissionProfile::path_allowed]. *)
Definition path_allowed (fs : FileSystem) (p : PermissionProfile) (path : Path) (access : FilesystemAccess) : bool :=
  match inspect_path fs p (path_text path) access with Ok (PathAllowed _) => true | _ => false end.

(** An entry that walkdir visits, without following links. *)
Record WalkEntry : Type := mkWalked { walked_path : Path; walked_kind : Entry }.

(** morphz/src/permission.rs:372-399 [PermissionProfile::enforce_transfer_tree], over the
    entries of the walk. *)
Definition enforce_transfer_tree (fs : FileSystem) (p : PermissionProfile) (tree location : Path)
    (walked : list (result PermissionError WalkEntry)) : result PermissionError unit :=
  try_each (λ entry,
    entry ← entry;
    if workspace_boundary p && match walked_kind entry with Symlink _ => true | _ => false end then
      deny "confined Artifact transfer cannot contain links or special files" []
    else
      relative ← ok_or (path_strip_prefix (walked_path entry) tree) (Msg "prefix not found" []);
      let path := if is_empty_path relative then location else join location relative in
      resolved ← resolve_candidate fs p (path_text path);
      if protected resolved then deny "Artifact transfer contains a protected path" []
      else Ok tt) walked.

(** morphz/src/permission.rs:503-522 [PermissionProfile::sandbox_protected_paths]. *)
Definition sandbox_protected_paths (p : PermissionProfile) (roots : list Path) : list Path :=
  fold_left (λ paths protected,
    if has_glob_metacharacters protected then paths
    else
      let protected := path_new protected in
      if absolute protected then push_unique paths protected
      else fold_left (λ paths root,
             if is_filesystem_root root then paths else push_unique paths (join root protected)) roots paths)
    (protected_paths p) [].
End profiles.

(** morphz/src/sandbox.rs:56-62 [SandboxPathPattern]. *)
Record SandboxPathPattern : Type := mkPattern { pattern_root : Path; pattern_glob : str }.

#[export] Instance sandbox_path_pattern_eq_dec : EqDecision SandboxPathPattern.
Proof. solve_decision. Defined.

(** morphz/src/permission.rs:1112-1119 [push_unique_sandbox_pattern]. *)
Definition push_unique_pattern (l : list SandboxPathPattern) (x : SandboxPathPattern) : list SandboxPathPattern :=
  if existsb (λ existing, bool_decide (existing = x)) l then l else l ++ [x].

(** morphz/src/permission.rs:527-551 [PermissionProfile::sandbox_protected_patterns]. *)
Definition sandbox_protected_patterns (p : PermissionProfile) (roots : list Path) : list SandboxPathPattern :=
  fold_left (λ rules pattern,
    if negb (has_glob_metacharacters pattern) then rules
    else
      let path := path_new pattern in
      if absolute path then
        let root := filesystem_root path in
        let relative := default path (path_strip_prefix path root) in
        push_unique_pattern rules (mkPattern root (forward_slashes (path_text relative)))
      else fold_left (λ rules root,
             push_unique_pattern rules (mkPattern root (forward_slashes (path_text path)))) roots rules)
    (protected_paths p) [].

(** ** Durable grants *)

(** morphz/src/permission.rs:33-39 [DurableApprovalGrant]. *)
Record DurableApprovalGrant : Type := mkGrant {
  g_approval_id : str;
  g_grant_id : str;
  g_policy_digest : str;
  g_action : ApprovalAction;
  g_requested : CapabilityDelta
}.

Definition path_in (p : Path) (l : list Path) : bool := existsb (λ q, bool_decide (q = p)) l.

(** morphz/src/permission.rs:51-76 [DurableApprovalGrant::covers, the action]. *)
Definition action_matches (granted action : ApprovalAction) : bool :=
  match granted, action with
  | Shell granted_command granted_cwd, Shell command cwd =>
      (granted_command =s command) && bool_decide (granted_cwd = cwd)
  | ToolOperation granted_tool granted_operation granted_target, ToolOperation tool operation target =>
      (granted_tool =s tool) && (granted_operation =s operation)
      && (negb (is_some granted_target) || bool_decide (granted_target = target))
  | _, _ => false
  end.

(** morphz/src/permission.rs:42-91 [DurableApprovalGrant::covers]. *)
Definition covers (g : DurableApprovalGrant) (action : ApprovalAction) (requested : CapabilityDelta)
    (policy_digest : str) : bool :=
  if negb (g_policy_digest g =s policy_digest) then false
  else
    action_matches (g_action g) action
    && (negb (network requested) || network (g_requested g))
    && forallb (λ root, path_in root (read_roots (g_requested g))) (read_roots requested)
    && forallb (λ root, path_in root (write_roots (g_requested g))) (write_roots requested)
    && forallb (λ name, existsb (str_eqb name) (secret_env (g_requested g))) (secret_env requested).

(** ** The broker *)

(** morphz/src/permission.rs:614-624 [PermissionBroker]. *)
Record PermissionBroker : Type := mkBroker {
  b_profile : PermissionProfile;
  b_automatic_approval : ApprovalProvider;
  b_human_approval : ApprovalProvider;
  b_auto_review_model : option str;
  b_session_sandbox_modes : gmap str SandboxMode;
  b_session_permission_modes : gmap str PermissionMode
}.

(** morphz/src/permission.rs:631-645 [PermissionBroker::new_with_reviewers]. *)
Definition new_with_reviewers (p : PermissionProfile) (automatic human : ApprovalProvider) : PermissionBroker :=
  mkBroker p automatic human (auto_review_model p) ∅ ∅.

(** morphz/src/permission.rs:647-660 [PermissionBroker::set_session_permission_mode]. *)
Definition set_session_permission_mode (b : PermissionBroker) (session : str) (m : option PermissionMode)
    : PermissionBroker :=
  mkBroker (b_profile b) (b_automatic_approval b) (b_human_approval b) (b_auto_review_model b)
    (b_session_sandbox_modes b)
    (match m with
     | Some m => <[session := m]> (b_session_permission_modes b)
     | None => delete session (b_session_permission_modes b)
     end).

(** morphz/src/permission.rs:670-683 [PermissionBroker::set_session_sandbox_mode]. *)
Definition set_session_sandbox_mode (b : PermissionBroker) (session : str) (m : option SandboxMode)
    : PermissionBroker :=
  mkBroker (b_profile b) (b_automatic_approval b) (b_human_approval b) (b_auto_review_model b)
    (match m with
     | Some m => <[session := m]> (b_session_sandbox_modes b)
     | None => delete session (b_session_sandbox_modes b)
     end) (b_session_permission_modes b).

(** morphz/src/permission.rs:791-796 [PermissionBroker::set_auto_review_model]. *)
Definition set_auto_review_model (b : PermissionBroker) (m : option str) : PermissionBroker :=
  mkBroker (b_profile b) (b_automatic_approval b) (b_human_approval b) m
    (b_session_sandbox_modes b) (b_session_permission_modes b).

Definition with_controls (p : PermissionProfile) (m : PermissionMode) (s : SandboxMode)
    (policy : ApprovalPolicy) (r : ReviewerKind) : PermissionProfile :=
  mkProfile m s policy r (auto_review_model p) (workspace_root p) (profile_read_roots p)
    (profile_write_roots p) (protected_paths p) (workspace_boundary p) (configured_network p)
    (match s with DangerFullAccess => true | WorkspaceWrite => configured_network p end)
    (shell_environment_policy p).

(** morphz/src/permission.rs:716-755 [PermissionBroker::profile_with_overrides]. *)
Definition profile_with_overrides (p : PermissionProfile) (permission : option PermissionMode)
    (sandbox : option SandboxMode) : PermissionProfile :=
  match permission with
  | Some m =>
      match mode_preset m with
      | None => p
      | Some (s, policy, r) =>
          if bool_decide (m = mode p) && bool_decide (s = sandbox_mode p) then p
          else with_controls p m s policy r
      end
  | None =>
      match sandbox with
      | None => p
      | Some s =>
          if bool_decide (s = sandbox_mode p) then p
          else with_controls p Custom s (approval_policy p) (reviewer p)
      end
  end.

(** morphz/src/permission.rs:693-714 [PermissionBroker::profile, PermissionBroker::profile_for_session],
    with the session of the current task. *)
Definition broker_profile (b : PermissionBroker) (session : option str) : PermissionProfile :=
  match session with
  | Some s => profile_with_overrides (b_profile b) (b_session_permission_modes b !! s)
                (b_session_sandbox_modes b !! s)
  | None => profile_with_overrides (b_profile b) None None
  end.

Definition approval_policy_str (p : ApprovalPolicy) : str :=
  match p with OnRequest => s! "on_request" | Never => s! "never" end.
Definition reviewer_str (r : ReviewerKind) : str :=
  match r with ByUser => s! "user" | ByAutoReview => s! "auto_review" | ByDeny => s! "deny" end.
Definition shell_environment_str (p : ShellEnvironmentPolicy) : str :=
  match p with RemoveSensitive => s! "remove_sensitive" | InheritAll => s! "inherit_all" end.
Definition json_paths (l : list Path) : Json := JArray (map (λ p, JString (path_text p)) l).

(** morphz/src/permission.rs:764-779 [PermissionBroker::policy_digest, the material]. *)
Definition policy_material (p : PermissionProfile) (model : option str) : Json :=
  JObject (bm_of_list (
    [(s! "mode", JString (permission_mode_str (mode p)));
     (s! "sandbox_mode", JString (sandbox_mode_str (sandbox_mode p)));
     (s! "approval_policy", JString (approval_policy_str (approval_policy p)));
     (s! "reviewer", JString (reviewer_str (reviewer p)));
     (s! "auto_review_model", match model with Some m => JString m | None => JNull end);
     (s! "workspace_root", JString (path_text (workspace_root p)));
     (s! "read_roots", json_paths (profile_read_roots p));
     (s! "write_roots", json_paths (profile_write_roots p));
     (s! "protected_paths", JArray (map JString (protected_paths p)));
     (s! "network", JBool (profile_network p));
     (s! "shell_environment_policy", JString (shell_environment_str (shell_environment_policy p)))]
    ++ if workspace_boundary p then [(s! "workspace_boundary", JBool true)] else [])).

(** morphz/src/permission.rs:604-612 [ApprovalContext]. *)
Record ApprovalContext : Type := mkApprovalContext {
  ac_context_id : str;
  ac_session_id : str;
  ac_attempt_id : str;
  ac_thread_id : str;
  ac_root_turn_id : str;
  ac_trigger_event_id : str;
  ac_trigger_sequence : Z
}.

(** morphz/src/permission.rs:1020-1026 [nonempty]. *)
Definition nonempty (value : str) (fallback : string) : str :=
  match trim value with [] => lit fallback | _ => value end.

(** morphz/src/permission.rs:832-844 [PermissionBroker::review_automatic]. *)
Definition review_automatic (b : PermissionBroker) : ApprovalProvider := λ request,
  decision ← b_automatic_approval b request;
  match decision, ar_lease_offer request with
  | AllowLease rationale tags, Some offer =>
      Ok (AllowLease rationale (bind_capability_lease_scope_risk_tags tags (of_scope offer)))
  | decision, _ => Ok decision
  end.

(** morphz/src/permission.rs:846-851 [PermissionBroker::review_human]. *)
Definition review_human (b : PermissionBroker) : ApprovalProvider := b_human_approval b.

(** morphz/src/permission.rs:805-830 [PermissionBroker::review]. *)
Definition review (b : PermissionBroker) (session : option str) : ApprovalProvider := λ request,
  match reviewer (broker_profile b session) with
  | ByUser => review_human b request
  | ByAutoReview =>
      match review_automatic b request with
      | Ok (AskHuman _ _) => review_human b request
      | Ok decision => Ok decision
      | Err _ => review_human b request
      end
  | ByDeny => Ok (Deny s! "the current permission Profile forbids capability expansion"
                    [s! "permission_profile_deny"])
  end.

(** morphz/src/permission.rs:798-803 [PermissionBroker::pending_approval_status]. *)
Definition pending_approval_status (b : PermissionBroker) (session : option str) : ApprovalStatus :=
  match reviewer (broker_profile b session) with
  | ByUser => PendingHuman
  | ByAutoReview | ByDeny => PendingAuto
  end.

(** morphz/src/permission.rs:25-30 [ApprovalRequirement]. *)
Record ApprovalRequirement : Type := mkRequirement {
  req_action : ApprovalAction;
  req_requested : CapabilityDelta;
  req_justification : Message;
  req_scope : ApprovalScope
}.

Definition no_expansion {A} : result PermissionError A :=
  deny "the current permission Profile does not allow out-of-bound capabilities" [].

Section broker.
Context `{Glob} `{JsonCodec} `{Digest}.

(** morphz/src/permission.rs:757-782 [PermissionBroker::policy_digest]. *)
Definition policy_digest (b : PermissionBroker) (session : option str) : str :=
  s! "policy_" ++ sha256_hex (json_to_vec (policy_material (broker_profile b session) (b_auto_review_model b))).

(** morphz/src/permission.rs:853-903 [PermissionBroker::approval_requirement_for_path]. *)
Definition approval_requirement_for_path (b : PermissionBroker) (session : option str) (fs : FileSystem)
    (input : str) (access : FilesystemAccess) (tool operation : str)
    : result PermissionError (Path * option ApprovalRequirement) :=
  let p := broker_profile b session in
  decision ← inspect_path fs p input access;
  match decision with
  | PathAllowed path => Ok (path, None)
  | PathDenied reason => Err reason
  | NeedsApproval candidate anchor =>
      if bool_decide (approval_policy p = Never) then no_expansion
      else
        let requested :=
          match access with
          | ReadAccess => mkDelta false [anchor] [] []
          | WriteAccess => mkDelta false [] [anchor] []
          end in
        Ok (candidate, Some (mkRequirement (ToolOperation tool operation (Some candidate)) requested
                               (Msg "tool {tool} requires {} access to '{}'" [AStr tool; AStr (path_text candidate)])
                               OnThread))
  end.

(** morphz/src/permission.rs:905-926 [PermissionBroker::approval_requirement_for_delta]. *)
Definition approval_requirement_for_delta (b : PermissionBroker) (session : option str)
    (action : ApprovalAction) (requested : CapabilityDelta) (justification : Message)
    : result PermissionError (option ApprovalRequirement) :=
  let p := broker_profile b session in
  if delta_is_empty requested || full_access p then Ok None
  else if bool_decide (approval_policy p = Never) then no_expansion
  else Ok (Some (mkRequirement action requested justification OnThread)).

(** What is in scope of a task: its session, its durable grant, the identifier that the
    clock gives a new approval, and its causal context. *)
Record Task : Type := mkTask {
  t_session : option str;
  t_grant : option DurableApprovalGrant;
  t_approval_id : str;
  t_context : ApprovalContext
}.

(** morphz/src/permission.rs:985-1000 [PermissionBroker::authorize_delta, the request]. *)
Definition review_request (t : Task) (action : ApprovalAction) (requested : CapabilityDelta)
    (justification : str) : ApprovalRequest :=
  let c := t_context t in
  mkRequest (t_approval_id t) (nonempty (ac_context_id c) "default-context")
    (nonempty (ac_session_id c) "default-session") (nonempty (ac_attempt_id c) "unknown-attempt")
    (nonempty (ac_thread_id c) "unknown-thread") (nonempty (ac_root_turn_id c) "unknown-root-turn")
    (nonempty (ac_trigger_event_id c) "unknown-trigger") (ac_trigger_sequence c) None action requested
    justification None.

(** morphz/src/permission.rs:953-1017 [PermissionBroker::authorize_delta]. *)
Definition authorize_delta (b : PermissionBroker) (t : Task) (action : ApprovalAction)
    (requested : CapabilityDelta) (justification : str) : result PermissionError unit :=
  let p := broker_profile b (t_session t) in
  if delta_is_empty requested || full_access p then Ok tt
  else if bool_decide (approval_policy p = Never) then no_expansion
  else if match t_grant t with
          | Some grant => covers grant action requested (policy_digest b (t_session t))
          | None => false
          end then Ok tt
  else
    decision ← review b (t_session t) (review_request t action requested justification);
    match decision with
    | AllowOnce _ _ => Ok tt
    | AllowLease _ _ =>
        deny "the current direct permission request has no Capability Lease offer; the reviewer cannot approve a lease" []
    | Deny rationale _ => deny "permission review rejected this operation: {rationale}" [AStr rationale]
    | AskHuman rationale _ =>
        deny "the reviewer requested human confirmation, but the current approval chain has no available human channel: {rationale}"
          [AStr rationale]
    end.

(** morphz/src/permission.rs:928-951 [PermissionBroker::authorize_path]; [display] is the
    text of a justification. *)
Definition authorize_path (display : Message → str) (b : PermissionBroker) (t : Task) (fs : FileSystem)
    (input : str) (access : FilesystemAccess) (tool operation : str) : result PermissionError Path :=
  '(candidate, requirement) ←
    approval_requirement_for_path b (t_session t) fs input access tool operation;
  match requirement with
  | None => Ok candidate
  | Some r =>
      _ ← authorize_delta b t (req_action r) (req_requested r) (display (req_justification r));
      Ok candidate
  end.
End broker.
