(* ===== verification/PermissionFacts.v ===== *)
(** * What the permission gate guarantees

    Exactly which paths are authorized, what protection and the workspace boundary rule out,
    where authorized reads and writes land in the file system, and two ways in which a write
    leaves the roots it was authorized for. *)

From stdpp Require Import base list gmap relations strings.
From Stdlib Require Import NArith ZArith Lia.
From S2P Require Import Prelude JsonValue Types Diagnostic Text Paths PathFacts Approval ApprovalHub ApprovalFacts Permission.

(** ** Decisions *)

Section gate.
Context `{Glob} `{JsonCodec} `{Digest}.

Lemma full_access_iff p : full_access p = true ↔ sandbox_mode p = DangerFullAccess.
Proof. unfold full_access. apply bool_decide_eq_true. Qed.

(** The capability that an access outside the roots asks for. *)
Definition access_delta (access : FilesystemAccess) (anchor : Path) : CapabilityDelta :=
  match access with
  | ReadAccess => mkDelta false [anchor] [] []
  | WriteAccess => mkDelta false [] [anchor] []
  end.

Lemma access_delta_nonempty access anchor : delta_is_empty (access_delta access anchor) = false.
Proof. by destruct access. Qed.

(** Who may let a request pass that the profile does not allow: a durable grant issued under
    the present policy, or the reviewer that the profile names. *)
Inductive expansion (b : PermissionBroker) (t : Task) (action : ApprovalAction) (requested : CapabilityDelta)
    (justification : str) : Prop :=
| by_grant g :
    t_grant t = Some g → g_policy_digest g = policy_digest b (t_session t) →
    covers g action requested (g_policy_digest g) = true →
    expansion b t action requested justification
| by_review rationale tags :
    reviewer (broker_profile b (t_session t)) ≠ ByDeny →
    review b (t_session t) (review_request t action requested justification) = Ok (AllowOnce rationale tags) →
    expansion b t action requested justification.

Lemma authorize_delta_iff b t action requested justification :
  authorize_delta b t action requested justification = Ok tt ↔
  delta_is_empty requested = true ∨ full_access (broker_profile b (t_session t)) = true ∨
  (approval_policy (broker_profile b (t_session t)) = OnRequest ∧
   expansion b t action requested justification).
Proof.
  unfold authorize_delta. set (p := broker_profile b (t_session t)).
  destruct (delta_is_empty requested) eqn:He; simpl; [by split; [left|]|].
  destruct (full_access p) eqn:Hf; simpl; [by split; [right; left|]|].
  destruct (approval_policy p) eqn:Hp; simpl; [|split; [done|naive_solver]].
  destruct (match t_grant t with Some g => covers g action requested _ | None => false end) eqn:Hg.
  - split; [|done]. intros _. right; right. split; [done|].
    destruct (t_grant t) as [g|] eqn:Ht; [|done]. apply (by_grant _ _ _ _ _ g Ht).
    + unfold covers in Hg. destruct (str_eqb_spec (g_policy_digest g) (policy_digest b (t_session t))); done.
    + assert (g_policy_digest g = policy_digest b (t_session t)) as ->; [|done].
      unfold covers in Hg. destruct (str_eqb_spec (g_policy_digest g) (policy_digest b (t_session t))); done.
  - split.
    + destruct (review b (t_session t) _) as [[]|e] eqn:Hr; simpl; try done. intros _. right; right.
      split; [done|]. eapply by_review; [|exact Hr]. intros Hd. unfold review in Hr. by rewrite Hd in Hr.
    + intros [|[|[_ [g Ht Hd Hc|rationale tags _ ->]]]]; try done.
      rewrite Ht, <- Hd, Hc in Hg. done.
Qed.

(** What the gate decides, step by step. *)
Lemma requirement_cases b session fs input access tool operation c q :
  approval_requirement_for_path b session fs input access tool operation = Ok (c, q) →
  let p := broker_profile b session in
  ∃ r, resolve_candidate fs p input = Ok r ∧ c = candidate r ∧
    match q with
    | None => (full_access p = true ∧ workspace_boundary p = false) ∨
              (protected r = false ∧ ∃ root, root ∈ roots_for p access ∧ path_starts_with (resolved_anchor r) root = true)
    | Some q => protected r = false ∧ approval_policy p = OnRequest ∧
                req_action q = ToolOperation tool operation (Some c) ∧
                req_requested q = access_delta access (resolved_anchor r) ∧
                (full_access p = false ∨ workspace_boundary p = true) ∧
                ∀ root, root ∈ roots_for p access → path_starts_with (resolved_anchor r) root = false
    end.
Proof.
  unfold approval_requirement_for_path, inspect_path. set (p := broker_profile b session).
  intros (d & (r & Hr & Hd)%bind_Ok & Hq)%bind_Ok. cbn zeta. exists r. split; [done|].
  destruct (full_access p && negb (workspace_boundary p)) eqn:Hfull.
  { injection Hd as <-. injection Hq as <- <-. split; [done|]. left.
    by apply andb_true_iff in Hfull as [? ?%negb_true_iff]. }
  destruct (protected r) eqn:Hp; [by injection Hd as <-|].
  destruct (existsb (path_starts_with (resolved_anchor r)) (roots_for p access)) eqn:Hroot.
  { injection Hd as <-. injection Hq as <- <-. split; [done|]. right. split; [done|].
    by apply existsb_elem_of in Hroot. }
  injection Hd as <-. destruct (approval_policy p) eqn:Hpol; [|done]. simpl in Hq. injection Hq as <- <-. simpl.
  split_and!; try done.
  - apply andb_false_iff in Hfull as [Hf|Hf%negb_false_iff]; [by left|by right].
  - intros root Hin. destruct (path_starts_with (resolved_anchor r) root) eqn:Hs; [|done].
    assert (existsb (path_starts_with (resolved_anchor r)) (roots_for p access) = true) as Ht
      by (apply existsb_elem_of; by exists root). congruence.
Qed.

(** C34. The permission gate is exact for what it lets pass: a path is authorized only when the
    profile has full access without a workspace boundary, or the path is not protected and
    its resolved anchor lies below a root of the profile, or a durable grant issued under
    the present policy or the profile's reviewer allowed this very operation, or full
    access lifts the roots inside a boundary. *)
Theorem authorize_path_sound display b t fs input access tool operation c :
  authorize_path display b t fs input access tool operation = Ok c →
  let p := broker_profile b (t_session t) in
  ∃ r, resolve_candidate fs p input = Ok r ∧ c = candidate r ∧
    ((full_access p = true ∧ workspace_boundary p = false) ∨
     (protected r = false ∧
      ((∃ root, root ∈ roots_for p access ∧ path_starts_with (resolved_anchor r) root = true) ∨
       (approval_policy p = OnRequest ∧
        (full_access p = true ∧ workspace_boundary p = true ∨
         ∃ justification, expansion b t (ToolOperation tool operation (Some c))
                            (access_delta access (resolved_anchor r)) justification))))).
Proof.
  unfold authorize_path. intros ([c' q] & (r & Hr & Hc & Hq)%requirement_cases & Hauth)%bind_Ok.
  cbn zeta. exists r. split; [done|].
  destruct q as [q|]; [|injection Hauth as <-; split; [done|]; tauto].
  apply bind_Ok in Hauth as ([] & Hd%authorize_delta_iff & [= <-]). split; [done|].
  destruct Hq as (Hp & Hpol & Ha & Hreq & Hfull & _). right. split; [done|]. right. split; [done|].
  rewrite Ha, Hreq, access_delta_nonempty in Hd. destruct Hd as [|[Hf|[_ He]]]; [done| |right; by eexists].
  left. split; [done|]. destruct Hfull; [congruence|done].
Qed.

(** ** Protection *)

Lemma is_prefix_app l r : is_prefix l (l ++ r) = true.
Proof. induction l as [|c l IH]; simpl; [done|]. by rewrite bool_decide_true. Qed.

Lemma ancestors_take p n : (n <= length (components p))%nat → mkPath (absolute p) (take n (components p)) ∈ ancestors p.
Proof.
  intros Hn. unfold ancestors. apply list_elem_of_fmap. exists n. split; [done|].
  apply elem_of_reverse, elem_of_seq. lia.
Qed.

(** A relative literal matches every path through it. *)
Lemma literal_matches fs c a pattern q l1 l2 :
  has_glob_metacharacters pattern = false → absolute (path_new pattern) = false →
  q ∈ [c; a] → components q = l1 ++ components (path_new pattern) ++ l2 →
  path_matches_pattern fs c a pattern = true.
Proof.
  intros Hg Habs Hq Hcs. unfold path_matches_pattern. rewrite Hg, Habs. cbn [negb].
  rewrite orb_true_r.
  assert (existsb (λ path, existsb (λ ancestor, path_ends_with ancestor (path_new pattern)) (ancestors path)) [c; a]
          = true) as ->; [|done].
  apply existsb_elem_of. exists q. split; [done|]. apply existsb_elem_of.
  exists (mkPath (absolute q) (take (length (l1 ++ components (path_new pattern))) (components q))). split.
  - apply ancestors_take. rewrite Hcs, !length_app. lia.
  - unfold path_ends_with. rewrite Habs. cbn [components]. rewrite Hcs, app_assoc, take_app_length, reverse_app.
    apply is_prefix_app.
Qed.

Lemma ancestors_snoc b cs c :
  ancestors (mkPath b (cs ++ [c])) = mkPath b (cs ++ [c]) :: ancestors (mkPath b cs).
Proof.
  unfold ancestors. cbn [absolute components]. rewrite length_app. cbn [length].
  rewrite Nat.add_1_r, (seq_S (S (length cs)) 0), reverse_snoc. cbn [map]. f_equal.
  - f_equal. apply take_ge. rewrite length_app. simpl. lia.
  - apply map_ext_in. intros k Hk. apply list_elem_of_In, elem_of_reverse, elem_of_seq in Hk.
    rewrite take_app_le; [done|]. lia.
Qed.

Lemma ancestors_head p : ∃ rest, ancestors p = p :: rest.
Proof.
  destruct p as [b cs]. destruct cs as [|c cs _] using rev_ind; [by eexists|]. rewrite ancestors_snoc. by eexists.
Qed.

(** The place that a path denotes: its existing part leads to a place, through any links and
    parent components, and names that are missing there follow. *)
Inductive designates (fs : FileSystem) (p : Path) : RealPath → Prop :=
| designates_existing place : absolute p = true → locate fs true p = Ok place → designates fs p place
| designates_missing cs d m ms :
    p = mkPath true (cs ++ map Normal (m :: ms)) → locate fs true (mkPath true cs) = Ok d →
    entry_of fs d = Some Dir → entries fs !! (d ++ [m]) = None → designates fs p (d ++ m :: ms).

Lemma normalize_names l ns : normalize_components l (map Normal ns) = Some (l ++ map Normal ns).
Proof.
  revert l. induction ns as [|n ns IH]; intros l; simpl; [by rewrite app_nil_r|]. by rewrite IH, <- app_assoc.
Qed.

Lemma filter_names ns : List.filter (λ c, bool_decide (c ≠ CurDir)) (map Normal ns) = map Normal ns.
Proof. induction ns as [|n ns IH]; simpl; [done|]. by rewrite IH. Qed.

Lemma path_strip_prefix_app b cs l : path_strip_prefix (mkPath b (cs ++ l)) (mkPath b cs) = Some (mkPath false l).
Proof.
  unfold path_strip_prefix, path_starts_with. cbn [absolute components].
  rewrite is_prefix_app, drop_app_length. by destruct b.
Qed.

Lemma locate_absolute fs cs : locate fs true (mkPath true cs) = walk max_links fs true [] cs.
Proof. unfold locate, is_empty_path. by rewrite bool_decide_false. Qed.

Lemma locate_missing fs cs d m ms :
  locate fs true (mkPath true cs) = Ok d → entry_of fs d = Some Dir → entries fs !! (d ++ [m]) = None →
  locate fs true (mkPath true (cs ++ map Normal (m :: ms))) = Err NotFound.
Proof.
  rewrite !locate_absolute. intros Hd Hdir Hnone. induction ms as [|n ms IH] using rev_ind.
  - by apply (walk_snoc _ _ _ _ _ _ Hd Hdir).
  - change (m :: ms ++ [n]) with ((m :: ms) ++ [n]). rewrite map_app, app_assoc. by apply walk_error.
Qed.

(** The resolution of a denied path that has an existing part. *)
Lemma resolve_denied_found fs cs d ms1 ms2 x :
  locate fs true (mkPath true cs) = Ok d →
  (∀ m ms, ms1 = m :: ms → entry_of fs d = Some Dir ∧ entries fs !! (d ++ [m]) = None) →
  resolve_denied_loop fs (mkPath true (cs ++ map Normal (ms1 ++ ms2)))
    (ancestors (mkPath true (cs ++ map Normal ms1))) = Ok x →
  x = real (d ++ ms1 ++ ms2).
Proof.
  intros Hd. revert ms2. induction ms1 as [|n ms1 IH] using rev_ind; intros ms2 Hm.
  - rewrite app_nil_r. destruct (ancestors_head (mkPath true cs)) as [rest ->]. cbn [resolve_denied_loop].
    unfold canonicalize. rewrite Hd. cbn [fmap]. rewrite app_nil_l, path_strip_prefix_app. simpl.
    unfold join, absolute_lexical_path. simpl. rewrite filter_names, <- map_app, (normalize_names []).
    by intros [= <-].
  - replace (cs ++ map Normal (ms1 ++ [n])) with ((cs ++ map Normal ms1) ++ [Normal n])
      by (by rewrite map_app, app_assoc).
    rewrite ancestors_snoc. cbn [resolve_denied_loop].
    assert (locate fs true (mkPath true ((cs ++ map Normal ms1) ++ [Normal n])) = Err NotFound) as Hn.
    { replace ((cs ++ map Normal ms1) ++ [Normal n]) with (cs ++ map Normal (ms1 ++ [n]))
        by (by rewrite map_app, app_assoc).
      destruct ms1 as [|m ms1]; [destruct (Hm n [] eq_refl)|destruct (Hm m (ms1 ++ [n]) eq_refl)]; by eapply locate_missing. }
    unfold canonicalize. rewrite Hn. cbn [fmap].
    assert (∀ m ms, ms1 = m :: ms → entry_of fs d = Some Dir ∧ entries fs !! (d ++ [m]) = None) as Hm'
      by (intros m ms ->; by eapply Hm).
    specialize (IH (n :: ms2) Hm'). rewrite <- app_assoc. cbn [app].
    destruct (symlink_metadata fs _) as [[| |t]|[]]; try done.
Qed.

Lemma resolve_designated fs p y x : designates fs p y → resolve_denied_path fs p = Ok x → x = real y.
Proof.
  unfold resolve_denied_path. intros [place Habs Hl|cs d m ms -> Hl Hdir Hnone].
  - rewrite Habs. destruct p as [b cs]. cbn in Habs. subst b.
    pose proof (resolve_denied_found fs cs place [] [] x Hl ltac:(done)) as Hf. cbn [map app] in Hf.
    rewrite !app_nil_r in Hf. exact Hf.
  - cbn [absolute]. pose proof (resolve_denied_found fs cs d (m :: ms) [] x Hl) as Hf.
    rewrite !app_nil_r in Hf. apply Hf. by intros m' ms' [= <- <-].
Qed.

(** How a protected entry covers a path: a literal relative entry lies anywhere along the path
    as written or as resolved; a literal absolute one is its beginning, or denotes a place at
    or above the one that the path denotes, or one of the two cannot be resolved; a glob
    matches the path or its last name, or is malformed. *)
Inductive covered (fs : FileSystem) (r : ResolvedPath) (pattern : str) : Prop :=
| by_name q l1 l2 :
    has_glob_metacharacters pattern = false → absolute (path_new pattern) = false →
    q ∈ [candidate r; resolved_anchor r] → components q = l1 ++ components (path_new pattern) ++ l2 →
    covered fs r pattern
| by_prefix q l2 :
    has_glob_metacharacters pattern = false → absolute (path_new pattern) = true →
    q ∈ [candidate r; resolved_anchor r] → absolute q = true →
    components q = components (path_new pattern) ++ l2 → covered fs r pattern
| by_place x y :
    has_glob_metacharacters pattern = false → designates fs (path_new pattern) x →
    designates fs (candidate r) y → x `prefix_of` y → covered fs r pattern
| by_unresolved q :
    has_glob_metacharacters pattern = false → absolute (path_new pattern) = true →
    q ∈ [path_new pattern; candidate r] → is_ok (resolve_denied_path fs q) = false → covered fs r pattern
| by_bad_glob : has_glob_metacharacters pattern = true → pattern_new pattern = false → covered fs r pattern
| by_glob q :
    has_glob_metacharacters pattern = true → q ∈ [candidate r; resolved_anchor r] →
    glob_matches q pattern = true → covered fs r pattern.

Lemma designates_absolute fs p x : designates fs p x → absolute p = true.
Proof. by intros [|cs d m ms ->]. Qed.

Lemma covered_matches fs r pattern :
  covered fs r pattern → path_matches_pattern fs (candidate r) (resolved_anchor r) pattern = true.
Proof.
  intros [q l1 l2 Hg Habs Hq Hcs|q l2 Hg Habs Hq Hqa Hcs|x y Hg Hx Hy Hxy|q Hg Habs Hq Hr|Hg Hp|q Hg Hq Hm].
  - by eapply literal_matches.
  - unfold path_matches_pattern. rewrite Hg, Habs. cbn [negb].
    assert (existsb (λ path, existsb (λ ancestor, bool_decide (ancestor = path_new pattern)) (ancestors path))
              [candidate r; resolved_anchor r] = true) as ->; [|done].
    apply existsb_elem_of. exists q. split; [done|]. apply existsb_elem_of.
    exists (mkPath (absolute q) (take (length (components (path_new pattern))) (components q))). split.
    + apply ancestors_take. rewrite Hcs, length_app. lia.
    + apply bool_decide_eq_true. rewrite Hcs, take_app_length, Hqa, <- Habs. by destruct (path_new pattern).
  - unfold path_matches_pattern. rewrite Hg, (designates_absolute _ _ _ Hx). cbn [negb].
    destruct (_ || false) eqn:Hlit; [by rewrite orb_false_r in Hlit|].
    destruct (resolve_denied_path fs (path_new pattern)) as [p1|] eqn:Hpat; [|done].
    destruct (resolve_denied_path fs (candidate r)) as [p2|] eqn:Hcand; [|done].
    rewrite (resolve_designated _ _ _ _ Hx Hpat), (resolve_designated _ _ _ _ Hy Hcand). by apply real_below.
  - unfold path_matches_pattern. rewrite Hg, Habs. cbn [negb].
    destruct (_ || false) eqn:Hlit; [by rewrite orb_false_r in Hlit|].
    apply elem_of_cons in Hq as [Hq|Hq%list_elem_of_singleton]; subst q.
    + by destruct (resolve_denied_path fs (path_new pattern)).
    + destruct (resolve_denied_path fs (path_new pattern)); [|done].
      by destruct (resolve_denied_path fs (candidate r)).
  - unfold path_matches_pattern. rewrite Hg, Hp. done.
  - unfold path_matches_pattern. rewrite Hg. cbn [negb]. destruct (pattern_new pattern); [|done]. cbn [negb].
    apply existsb_elem_of. by exists q.
Qed.

(** C35. Protection cannot be overridden: unless the profile in force gives full access without
    a workspace boundary, no session mode, no durable grant and no reviewer authorizes a path
    that a protected entry covers, and no such path can become a root of additional
    permissions. A literal relative entry covers a path that has it anywhere along its
    components, as written or as its existing part resolves; a literal absolute entry one that
    begins with it, one that denotes a place at or below the entry's through any links, also
    when its last names do not exist yet, and every path when the entry or the path itself cannot
    be resolved; a glob one that it matches in full or by its last name, and a malformed glob
    every path. *)
Theorem protected_never_authorized display b t fs input access tool operation pattern r :
  let p := broker_profile b (t_session t) in
  full_access p = false ∨ workspace_boundary p = true →
  pattern ∈ protected_paths p → resolve_candidate fs p input = Ok r → covered fs r pattern →
  is_ok (authorize_path display b t fs input access tool operation) = false ∧
  is_ok (canonical_permission_root fs p input) = false.
Proof.
  cbn zeta. set (p := broker_profile b (t_session t)). intros Hfull Hin Hr Hcov.
  assert (protected r = true) as Hp.
  { unfold resolve_candidate in Hr. destruct (trim input); [done|].
    apply bind_Ok in Hr as (anchor & _ & Hr). destruct (_ && _) in Hr; [done|]. injection Hr as <-.
    apply andb_true_iff. split.
    - apply orb_true_iff. destruct Hfull as [->| ->]; [by left|by right].
    - apply existsb_elem_of. exists pattern. split; [done|]. exact (covered_matches _ _ _ Hcov). }
  split.
  - destruct (authorize_path _ _ _ _ _ _ _ _) as [c|] eqn:Ha; [|done]. exfalso.
    unfold authorize_path in Ha. apply bind_Ok in Ha as ([c' q'] & (r' & Hr' & _ & Hc)%requirement_cases & _).
    fold p in Hr', Hc. assert (r' = r) as -> by congruence.
    destruct q' as [q'|]; [destruct Hc; congruence|].
    destruct Hc as [[Hf Hb]|[Hn _]]; [destruct Hfull|]; congruence.
  - unfold canonical_permission_root. rewrite Hr. simpl. by rewrite Hp.
Qed.

(** ** Sessions *)

Definition with_mode (c : PermissionConfig) (m : PermissionMode) : PermissionConfig :=
  mkConfig m (c_workspace_root c) (c_read_only_outside_workspace c) (c_read_roots c) (c_write_roots c)
    (c_protected_paths c) (c_network c) (c_sandbox_mode c) (c_approval_policy c) (c_reviewer c)
    (c_auto_review_model c) (c_shell_environment_policy c).

(** The part of a profile that does not depend on the mode. *)
Lemma from_config_mode fs c m s policy r p :
  from_config fs c = Ok p → mode_preset m = Some (s, policy, r) →
  from_config fs (with_mode c m) = Ok (with_controls p m s policy r) ∧
  mode p = c_mode c ∧ workspace_boundary p = false ∧
  (sandbox_mode p, approval_policy p, reviewer p) = config_preset c ∧
  profile_network p = bool_decide (sandbox_mode p = DangerFullAccess) || configured_network p.
Proof.
  intros Hc Hm. unfold from_config in *. cbn [with_mode c_auto_review_model c_workspace_root
    c_read_only_outside_workspace c_read_roots c_write_roots c_protected_paths c_mode c_network c_shell_environment_policy].
  destruct (is_some (c_auto_review_model c) && _); [done|].
  apply bind_Ok in Hc as (root & -> & Hc). simpl. destruct (negb (is_dir fs root)); [done|].
  destruct (config_preset c) as [[s0 policy0] r0] eqn:Hpre.
  unfold config_preset. cbn [with_mode c_mode]. rewrite Hm. cbn [default].
  apply bind_Ok in Hc as (read & -> & Hc). simpl.
  apply bind_Ok in Hc as ([read' write] & -> & Hc). simpl.
  apply bind_Ok in Hc as (u & -> & Hc). simpl. injection Hc as <-. simpl. split_and!; try done.
  unfold with_controls. simpl. do 2 f_equal. by destruct s.
Qed.

(** A session that switches to a preset mode runs under exactly the profile that the
    configuration gives in that mode: the live override and a restart with the changed
    configuration agree, on every field. *)
Theorem session_mode_is_configuration fs c p b session m :
  from_config fs c = Ok p → b_profile b = p → m ≠ Custom →
  Ok (broker_profile (set_session_permission_mode b session (Some m)) (Some session))
  = from_config fs (with_mode c m).
Proof.
  intros Hc Hb Hm. destruct (mode_preset m) as [[[s policy] r]|] eqn:Hpre; [|by destruct m].
  destruct (from_config_mode fs c m s policy r p Hc Hpre) as (-> & Hmode & Hbound & Hctl & Hnet).
  unfold broker_profile, profile_with_overrides. simpl. rewrite lookup_insert_eq, Hpre, Hb.
  destruct (bool_decide (m = mode p)) eqn:Hsame; [|done]. apply bool_decide_eq_true in Hsame.
  destruct (bool_decide (s = sandbox_mode p)) eqn:Hs; [|done]. simpl. do 2 f_equal.
  unfold config_preset in Hctl. rewrite <- Hmode, <- Hsame, Hpre in Hctl. simpl in Hctl.
  injection Hctl as Hs' Hpol Hrev. unfold with_controls. destruct p; simpl in *. subst. f_equal.
  by destruct s.
Qed.
End gate.

(** ** Where authorized accesses land *)

Section confinement.
Context `{Glob}.

Lemma resolve_ancestor_anchored fs p ns n e anchor :
  leads fs (ns ++ [n]) = Err e → resolve_ancestor fs p (ancestors (plain ns)) = Ok anchor →
  ∃ a, anchor = real a ∧ anchored fs (ns ++ [n]) a.
Proof.
  revert n e. induction ns as [|m ns IH] using rev_ind; intros n e He.
  - change (ancestors (plain [])) with [plain []]. cbn [resolve_ancestor]. unfold path_exists, canonicalize.
    rewrite leads_locate. unfold leads. cbn [map]. rewrite walk_nil. simpl. intros [= <-]. exists []. split; [done|].
    apply (anchored_prefix _ _ _ [] n [] e); [done| |done]. apply walk_nil.
  - rewrite ancestors_plain. cbn [resolve_ancestor]. unfold path_exists, canonicalize. rewrite leads_locate.
    destruct (leads fs (ns ++ [m])) as [d|e'] eqn:Hm; simpl.
    + intros [= <-]. exists d. split; [done|]. by apply (anchored_prefix _ _ _ (ns ++ [m]) n [] e).
    + intros Hr. destruct (IH m e' Hm Hr) as (a & -> & Ha). exists a. split; [done|]. by eapply anchored_extend.
Qed.

Lemma resolve_anchored fs ns n anchor :
  resolve_existing_or_parent fs (plain (ns ++ [n])) = Ok anchor →
  ∃ a, anchor = real a ∧ anchored fs (ns ++ [n]) a.
Proof.
  unfold resolve_existing_or_parent, path_exists, canonicalize. rewrite leads_locate.
  destruct (leads fs (ns ++ [n])) as [d|e] eqn:Hl; simpl.
  - intros [= <-]. exists d. split; [done|]. by apply anchored_whole.
  - rewrite parent_plain. simpl. by eapply resolve_ancestor_anchored.
Qed.

Lemma resolve_existing fs c r anchor :
  locate fs true c = Ok r → resolve_existing_or_parent fs c = Ok anchor → anchor = real r.
Proof.
  intros Hl. unfold resolve_existing_or_parent, path_exists, canonicalize. rewrite Hl. by intros [= <-].
Qed.

(** The roots of a profile are real paths, in every mode. *)
Definition real_roots (p : PermissionProfile) : Prop :=
  ∀ access root, root ∈ roots_for p access → ∃ rs, root = real rs.

Lemma push_unique_elem l q x : x ∈ push_unique l q → x ∈ l ∨ x = q.
Proof.
  unfold push_unique. destruct (existsb _ _); [by left|]. intros [|Hx]%elem_of_app; [by left|].
  apply list_elem_of_singleton in Hx. by right.
Qed.

Lemma canonicalize_existing_real fs q kind x : canonicalize_existing fs q kind = Ok x → ∃ rs, x = real rs.
Proof.
  unfold canonicalize_existing. intros Hx%map_err_Ok. unfold canonicalize in Hx.
  apply fmap_Ok in Hx as (rs & _ & <-). by exists rs.
Qed.

Lemma filesystem_root_real rs : filesystem_root (real rs) = real [].
Proof.
  unfold filesystem_root, ancestors. cbn [absolute components real].
  change (seq 0 (S (length (map Normal rs)))) with (0 :: seq 1 (length (map Normal rs))).
  rewrite reverse_cons, map_app. cbn [map]. by rewrite last_snoc.
Qed.

Lemma foldM_push {S} (f : S → str → result PermissionError S) (P : S → Prop) l s0 s :
  P s0 → (∀ s x s', P s → f s x = Ok s' → P s') → foldM f s0 l = Ok s → P s.
Proof.
  intros H0 Hf. revert s0 H0. induction l as [|x l IH]; intros s0 H0; simpl; [by intros [= <-]|].
  intros (s1 & H1 & H2)%bind_Ok. eapply IH; [|exact H2]. by eapply Hf.
Qed.

Lemma from_config_real_roots fs c p : from_config fs c = Ok p → real_roots p.
Proof.
  unfold from_config. destruct (is_some (c_auto_review_model c) && _); [done|].
  intros (root & [rs ->]%canonicalize_existing_real & Hc)%bind_Ok. destruct (negb _) in Hc; [done|].
  destruct (config_preset c) as [[s policy] r].
  set (all_real := λ l : list Path, ∀ x, x ∈ l → ∃ rs, x = real rs).
  assert (∀ l x, all_real l → (∃ rs, x = real rs) → all_real (push_unique l x)) as Hpush.
  { intros l x Hl Hx y [Hy| ->]%push_unique_elem; [by apply Hl|done]. }
  assert (all_real [real rs]) as H0 by (intros x ->%list_elem_of_singleton; by eexists).
  apply bind_Ok in Hc as (read & Hread & Hc).
  apply (foldM_push _ all_real) in Hread; [| |intros l x l' Hl (y & Hy%canonicalize_existing_real & [= <-])%bind_Ok; by apply Hpush].
  2: { destruct (c_read_only_outside_workspace c); [|done]. apply Hpush; [done|]. rewrite filesystem_root_real. by eexists. }
  apply bind_Ok in Hc as ([read' write] & Hw & Hc).
  apply (foldM_push _ (λ acc, all_real acc.1 ∧ all_real acc.2)) in Hw as [Hr' Hw']; [|done|].
  2: { intros [l1 l2] x l' [Hl1 Hl2] (y & Hy%canonicalize_existing_real & [= <-])%bind_Ok. simpl. split; by apply Hpush. }
  apply bind_Ok in Hc as (u & _ & [= <-]). intros []; [apply Hr'|apply Hw'].
Qed.

Lemma overrides_real_roots p m s : real_roots p → real_roots (profile_with_overrides p m s).
Proof.
  intros Hr. unfold profile_with_overrides.
  destruct m as [m|]; [destruct (mode_preset m) as [[[s' policy] r]|]; [destruct (_ && _)|]|
    destruct s as [s|]; [destruct (bool_decide _)|]]; try exact Hr; intros access; exact (Hr access).
Qed.

(** C33. Authorized accesses stay inside the roots. The profile is one that a configuration
    gives, with any session override, and whose sandbox is not danger-full-access (under that
    mode every path is allowed). A path that it allows by itself and that leads somewhere leads
    below one of its roots, through any links and parent components. Writing to an allowed path
    that is absolute and consists of plain names creates and changes entries only below one
    write root, provided every entry of the file system stands in a directory, no directory has
    an entry with the name of the temporary file, and the path is not itself a link. *)
Theorem allowed_access_confined fs0 c p0 m s fs input p r :
  from_config fs0 c = Ok p0 → p = profile_with_overrides p0 m s → full_access p = false →
  ∀ access, inspect_path fs p input access = Ok (PathAllowed r) →
  (∀ place, locate fs true r = Ok place →
     ∃ root, real root ∈ roots_for p access ∧ root `prefix_of` place) ∧
  (access = WriteAccess → ∀ ns n content temp fs' result,
     r = plain (ns ++ [n]) → fs_ok fs → (∀ d, entries fs !! (d ++ [temp]) = None) →
     (∀ d t, leads fs ns = Ok d → entries fs !! (d ++ [n]) ≠ Some (Symlink t)) →
     atomic_write_text fs r content temp = (fs', result) →
     ∃ root, real root ∈ roots_for p access ∧ changed_below root fs fs' ∧
       (result = Ok tt → ∃ k, root `prefix_of` k ∧ entries fs' !! k = Some (File content))).
Proof.
  intros Hc -> Hfull access Hi. set (p := profile_with_overrides p0 m s) in *.
  assert (real_roots p) as Hreal by (by eapply overrides_real_roots, from_config_real_roots).
  unfold inspect_path in Hi. apply bind_Ok in Hi as (res & Hres & Hi). rewrite Hfull in Hi. simpl in Hi.
  destruct (protected res); [done|].
  destruct (existsb (path_starts_with (resolved_anchor res)) (roots_for p access)) eqn:Hroots; [|done].
  injection Hi as <-. apply existsb_elem_of in Hroots as (root & Hroot & Hbelow).
  destruct (Hreal access root Hroot) as [rs ->].
  assert (resolve_existing_or_parent fs (candidate res) = Ok (resolved_anchor res)) as Hanchor.
  { unfold resolve_candidate in Hres. destruct (trim input); [done|].
    apply bind_Ok in Hres as (anchor & Ha & Hres). destruct (_ && _) in Hres; [done|]. by injection Hres as <-. }
  split.
  - intros place Hplace. exists rs. split; [done|].
    rewrite (resolve_existing _ _ _ _ Hplace Hanchor) in Hbelow. by apply real_below.
  - intros _ ns n content temp fs' result Hns Hok Hfresh Hlink Hw. rewrite Hns in *.
    apply resolve_anchored in Hanchor as (a & Ha & Hanch). rewrite Ha in Hbelow.
    apply real_below in Hbelow. exists rs. split; [done|].
    destruct (atomic_write_below _ _ _ _ _ _ _ _ Hok Hanch Hfresh Hlink Hw) as [Hch Hfile]. split.
    + intros k Hk. etrans; [exact Hbelow|by apply Hch].
    + intros (k & Hk & Hf)%Hfile. exists k. split; [by etrans|done].
Qed.
End confinement.

(** ** Samples *)

#[local] Instance sample_glob : Glob := {| pattern_new := λ _, true; pattern_matches := str_eqb |}.
#[local] Instance sample_json : JsonCodec := {| json_to_vec := λ _, [] |}.
#[local] Instance sample_sha : Digest := {| sha256_hex := λ _, s! "0" |}.

Definition names (l : list string) : RealPath := map lit l.

(** A workspace, and outside of it a directory with a link into the workspace. *)
Definition sample_fs : FileSystem :=
  mkFs (names ["ws"]) (list_to_map
    [(names ["ws"], Dir); (names ["ws"; "a"], File s! "old"); (names ["out"], Dir);
     (names ["out"; "link"], Symlink (path_new s! "/ws/a"))]).

Definition sample_config : PermissionConfig :=
  mkConfig AutoReview s! "/ws" true [] [] [s! ".ssh"] false WorkspaceWrite OnRequest ByAutoReview None RemoveSensitive.

Definition sample_profile : PermissionProfile :=
  mkProfile AutoReview WorkspaceWrite OnRequest ByAutoReview None (real (names ["ws"]))
    [real (names ["ws"]); real []] [real (names ["ws"])] [s! ".ssh"] false false false RemoveSensitive.

Example sample_profile_made : from_config sample_fs sample_config = Ok sample_profile.
Proof. vm_compute. reflexivity. Qed.

(** Two ways out of the write roots on a sample: with the workspace as the only write root, a path with
    parent components behind a directory that does not exist yet is allowed, and the write
    creates that directory and then a file outside; and a link outside that leads into the
    workspace is allowed, and the write replaces the link itself. *)
Theorem allowed_write_escapes :
  from_config sample_fs sample_config = Ok sample_profile ∧
  profile_write_roots sample_profile = [real (names ["ws"])] ∧
  (∃ c fs', inspect_path sample_fs sample_profile s! "missing/../../out/new" WriteAccess = Ok (PathAllowed c) ∧
     atomic_write_text sample_fs c s! "text" s! "tmp" = (fs', Ok tt) ∧
     entries sample_fs !! names ["out"; "new"] = None ∧
     entries fs' !! names ["out"; "new"] = Some (File s! "text")) ∧
  (∃ c fs', inspect_path sample_fs sample_profile s! "/out/link" WriteAccess = Ok (PathAllowed c) ∧
     atomic_write_text sample_fs c s! "text" s! "tmp" = (fs', Ok tt) ∧
     entries fs' !! names ["out"; "link"] = Some (File s! "text") ∧
     entries fs' !! names ["ws"; "a"] = Some (File s! "old")).
Proof.
  split; [exact sample_profile_made|]. split; [reflexivity|].
  split; eexists _, _; (split; [vm_compute; reflexivity|]); (split; [vm_compute; reflexivity|]);
    (split; vm_compute; reflexivity).
Qed.

Lemma fs_ok_check fs : map_Forall (λ k _, entry_of fs (removelast k) = Some Dir) (entries fs) → fs_ok fs.
Proof. intros Hf d n [e He]. specialize (Hf _ _ He). simpl in Hf. by rewrite removelast_last in Hf. Qed.

Lemma fresh_check fs temp : map_Forall (λ k _, last k ≠ Some temp) (entries fs) →
  ∀ d, entries fs !! (d ++ [temp]) = None.
Proof.
  intros Hf d. destruct (entries fs !! (d ++ [temp])) as [e|] eqn:He; [|done].
  specialize (Hf _ _ He). simpl in Hf. by rewrite last_snoc in Hf.
Qed.

Definition sample_write : FileSystem * result Message unit :=
  atomic_write_text sample_fs (plain (names ["ws"; "new"; "f"])) s! "text" s! "tmp".

Lemma allowed_access_confined_witness :
  changed_below (names ["ws"]) sample_fs sample_write.1.
Proof.
  destruct (allowed_access_confined sample_fs sample_config sample_profile None None sample_fs s! "new/f"
    sample_profile (plain (names ["ws"; "new"; "f"])) sample_profile_made eq_refl eq_refl WriteAccess) as [_ Hw];
    [vm_compute; reflexivity|].
  destruct (Hw eq_refl (names ["ws"; "new"]) s! "f" s! "text" s! "tmp" sample_write.1 sample_write.2)
    as (root & Hroot & Hch & _).
  - reflexivity.
  - apply fs_ok_check. apply (bool_decide_unpack _). vm_compute. exact I.
  - apply fresh_check. apply (bool_decide_unpack _). vm_compute. exact I.
  - intros d t Hd. vm_compute in Hd. discriminate.
  - unfold sample_write. apply surjective_pairing.
  - assert (root = names ["ws"]) as ->; [|exact Hch].
    simpl in Hroot. apply list_elem_of_singleton in Hroot. unfold real in Hroot. injection Hroot as Hr.
    destruct root as [|x [|y root]]; try discriminate Hr. injection Hr as ->. reflexivity.
Defined.

Definition sample_broker : PermissionBroker :=
  new_with_reviewers sample_profile (λ _, Ok (AskHuman [] [])) (λ _, Ok (AllowOnce s! "fine" [])).
Definition sample_task : Task :=
  mkTask (Some s! "session") None s! "approval" (mkApprovalContext [] [] [] [] [] [] 0).

Lemma authorize_path_sound_witness :
  ∃ c, authorize_path (λ _, []) sample_broker sample_task sample_fs s! "/out/new" WriteAccess s! "write" s! "create"
       = Ok c ∧
    ∃ justification, expansion sample_broker sample_task (ToolOperation s! "write" s! "create" (Some c))
                       (access_delta WriteAccess (real (names ["out"]))) justification.
Proof.
  assert (authorize_path (λ _, []) sample_broker sample_task sample_fs s! "/out/new" WriteAccess s! "write"
            s! "create" = Ok (plain (names ["out"; "new"]))) as Ha by (vm_compute; reflexivity).
  eexists. split; [exact Ha|].
  destruct (authorize_path_sound _ _ _ _ _ _ _ _ _ Ha) as (r & Hr & _ & Hcase).
  vm_compute in Hr. injection Hr as <-. destruct Hcase as [[Hf _]|[_ [(root & Hroot & Hs)|[_ [[Hf _]|He]]]]].
  - vm_compute in Hf. discriminate.
  - vm_compute in Hroot. apply list_elem_of_singleton in Hroot. subst root. vm_compute in Hs. discriminate.
  - vm_compute in Hf. discriminate.
  - exact He.
Defined.

(** The same profile with the file in the workspace protected by its absolute path. *)
Definition guarded_broker : PermissionBroker :=
  new_with_reviewers
    (mkProfile AutoReview WorkspaceWrite OnRequest ByAutoReview None (real (names ["ws"]))
      [real (names ["ws"]); real []] [real (names ["ws"])] [s! "/ws/a"] false false false RemoveSensitive)
    (λ _, Ok (AskHuman [] [])) (λ _, Ok (AllowOnce s! "fine" [])).

Lemma protected_never_authorized_witness :
  is_ok (authorize_path (λ _, []) sample_broker sample_task sample_fs s! "deep/.ssh/key" ReadAccess s! "read" s! "read")
  = false ∧
  is_ok (authorize_path (λ _, []) guarded_broker sample_task sample_fs s! "/out/link" WriteAccess s! "write" s! "edit")
  = false.
Proof.
  split.
  - refine (proj1 (protected_never_authorized (λ _, []) sample_broker sample_task sample_fs s! "deep/.ssh/key"
      ReadAccess s! "read" s! "read" s! ".ssh"
      (mkResolved (plain (names ["ws"; "deep"; ".ssh"; "key"])) (real (names ["ws"])) true) _ _ _ _)).
    + left. reflexivity.
    + apply list_elem_of_singleton. reflexivity.
    + vm_compute. reflexivity.
    + apply (by_name _ _ _ (plain (names ["ws"; "deep"; ".ssh"; "key"])) (map Normal (names ["ws"; "deep"]))
        [Normal s! "key"]); [reflexivity|reflexivity|left|reflexivity].
  - refine (proj1 (protected_never_authorized (λ _, []) guarded_broker sample_task sample_fs s! "/out/link"
      WriteAccess s! "write" s! "edit" s! "/ws/a"
      (mkResolved (plain (names ["out"; "link"])) (real (names ["ws"; "a"])) true) _ _ _ _)).
    + left. reflexivity.
    + apply list_elem_of_singleton. reflexivity.
    + vm_compute. reflexivity.
    + apply (by_place _ _ _ (names ["ws"; "a"]) (names ["ws"; "a"])); [reflexivity| | |reflexivity];
        apply designates_existing; vm_compute; reflexivity.
Defined.

Lemma session_mode_is_configuration_witness :
  Ok (broker_profile (set_session_permission_mode sample_broker s! "session" (Some FullAccess)) (Some s! "session"))
  = from_config sample_fs (with_mode sample_config FullAccess).
Proof.
  exact (session_mode_is_configuration sample_fs sample_config sample_profile sample_broker s! "session" FullAccess
           sample_profile_made eq_refl ltac:(discriminate)).
Defined.
