(* ===== verification/StrictJson.v ===== *)
(** * Strict JSON documents (yao/src/json.rs)

    The text of a model's answer is read from the document as it was written, so that duplicate
    members are rejected instead of overwritten, and nesting is bounded. *)

From stdpp Require Import base list gmap strings.
From Stdlib Require Import NArith ZArith Lia.
From S2P Require Import Prelude Types JsonValue Diagnostic Decode DecodeFacts ValueFacts.

Local Open Scope N_scope.

(** A JSON document as written: members in order, duplicates included; a number or a string that
    does not denote a value is [None]. *)
Inductive RawJson : Type :=
| RawNull
| RawBool (b : bool)
| RawNumber (n : option Number)
| RawString (s : option str)
| RawArray (items : list RawJson)
| RawObject (members : list (option str * RawJson)).

(** serde_json on text: the document of a text, its value, and the text of an object. *)
Class JsonText : Type := {
  raw_document : str → option RawJson;
  json_from_str : str → option Json;
  json_to_string : JsonMap → str
}.

Definition MAX_CONTAINER_DEPTH : N := 127.

(** yao/src/json.rs:26-79 [materialize, ContainerVisitor]. *)
Fixpoint materialize (raw : RawJson) (depth : N) : result Message Json :=
  match raw with
  | RawNull => Ok JNull
  | RawBool b => Ok (JBool b)
  | RawNumber n => ok_or (JNumber <$> n) (Msg "number out of range" [])
  | RawString s => ok_or (JString <$> s) (Msg "invalid string" [])
  | RawArray items =>
      if MAX_CONTAINER_DEPTH <=? depth then Err (Msg "recursion limit exceeded" [])
      else JArray <$> traverse (λ raw, materialize raw (depth + 1)) items
  | RawObject members =>
      if MAX_CONTAINER_DEPTH <=? depth then Err (Msg "recursion limit exceeded" [])
      else
        JObject <$> (fix visit (members : list (option str * RawJson)) (values : JsonMap) : result Message JsonMap :=
          match members with
          | [] => Ok values
          | (key, raw) :: members =>
              match key with
              | None => Err (Msg "invalid string" [])
              | Some key =>
                  if bm_contains key values then Err (Msg "duplicate JSON field {key:?}" [AStr key])
                  else
                    value ← materialize raw (depth + 1);
                    visit members (bm_insert key value values)
              end
          end) members []
  end.

(** yao/src/json.rs:17-87 [parse_strict_json]. *)
Definition parse_strict_json `{JsonText} (text : str) : result Message Json :=
  raw ← ok_or (raw_document text) (Msg "invalid JSON" []);
  materialize raw 0.

(** ** Induction on documents *)

Section raw_ind.
Context (P : RawJson → Prop).
Context (HNull : P RawNull) (HBool : ∀ b, P (RawBool b)) (HNumber : ∀ n, P (RawNumber n))
  (HString : ∀ s, P (RawString s)) (HArray : ∀ l, Forall P l → P (RawArray l))
  (HObject : ∀ m, Forall (λ kv, P kv.2) m → P (RawObject m)).

Fixpoint raw_nested_ind (r : RawJson) : P r :=
  match r with
  | RawNull => HNull
  | RawBool b => HBool b
  | RawNumber n => HNumber n
  | RawString s => HString s
  | RawArray l => HArray l ((fix go l : Forall P l :=
      match l with [] => Forall_nil_2 _ | x :: l => Forall_cons_2 _ _ _ (raw_nested_ind x) (go l) end) l)
  | RawObject m => HObject m ((fix go m : Forall (λ kv, P kv.2) m :=
      match m with [] => Forall_nil_2 _ | x :: m => Forall_cons_2 (λ kv, P kv.2) _ _ (raw_nested_ind x.2) (go m) end) m)
  end.
End raw_ind.

(** ** Exactness *)

(** The members of an object, read one by one. *)
Definition visit (depth : N) : list (option str * RawJson) → JsonMap → result Message JsonMap :=
  fix visit members values :=
    match members with
    | [] => Ok values
    | (key, raw) :: members =>
        match key with
        | None => Err (Msg "invalid string" [])
        | Some key =>
            if bm_contains key values then Err (Msg "duplicate JSON field {key:?}" [AStr key])
            else value ← materialize raw (depth + 1); visit members (bm_insert key value values)
        end
    end.

Lemma materialize_object members depth :
  materialize (RawObject members) depth =
  if MAX_CONTAINER_DEPTH <=? depth then Err (Msg "recursion limit exceeded" [])
  else JObject <$> visit depth members [].
Proof. done. Qed.

(** A document that says one thing: every scalar denotes a value, no object repeats a member,
    and containers nest at most 127 deep. *)
Inductive strict : RawJson → N → Prop :=
| strict_null d : strict RawNull d
| strict_bool b d : strict (RawBool b) d
| strict_number n d : strict (RawNumber (Some n)) d
| strict_string s d : strict (RawString (Some s)) d
| strict_array l d : d < 127 → Forall (λ r, strict r (d + 1)) l → strict (RawArray l) d
| strict_object m d :
    d < 127 → NoDup m.*1 → None ∉ m.*1 → Forall (λ kr, strict kr.2 (d + 1)) m → strict (RawObject m) d.

(** The value a strict document denotes. *)
Fixpoint denotes (r : RawJson) : Json :=
  match r with
  | RawNull => JNull
  | RawBool b => JBool b
  | RawNumber n => default JNull (JNumber <$> n)
  | RawString s => JString (default [] s)
  | RawArray l => JArray (map denotes l)
  | RawObject m => JObject (bm_of_list (map (λ kr, let '(k, r) := kr in (default [] k, denotes r)) m))
  end.

Definition exact (r : RawJson) : Prop := ∀ d j, materialize r d = Ok j ↔ strict r d ∧ j = denotes r.

Lemma items_exact d l js :
  Forall exact l →
  traverse (λ raw, materialize raw (d + 1)) l = Ok js ↔ Forall (λ r, strict r (d + 1)) l ∧ js = map denotes l.
Proof.
  intros Hall. revert js. induction Hall as [|r l Hr _ IH]; intros js; simpl.
  { split; [by intros [= <-]|by intros [_ ->]]. }
  rewrite Forall_cons. split.
  - intros (j & [Hs ->]%Hr & Hj)%bind_Ok. apply bind_Ok in Hj as (js' & [Hss ->]%IH & [= <-]). done.
  - intros [[Hs Hss] ->]. rewrite (proj2 (Hr (d + 1) (denotes r))) by done. simpl.
    by rewrite (proj2 (IH (map denotes l))).
Qed.

Lemma visit_exact d members values out :
  Forall (λ kr, exact kr.2) members →
  visit d members values = Ok out ↔
  NoDup members.*1 ∧ None ∉ members.*1 ∧ (∀ k, Some k ∈ members.*1 → bm_get k values = None) ∧
  Forall (λ kr, strict kr.2 (d + 1)) members ∧
  out = fold_left (λ m kv, bm_insert kv.1 kv.2 m)
          (map (λ kr, let '(k, r) := kr in (default [] k, denotes r)) members) values.
Proof.
  intros Hall. revert values. induction Hall as [|[[k|] r] members Hr _ IH]; intros values; cbn [visit].
  - split; [intros [= <-]; split_and!; [constructor|by intros ?%elem_of_nil|by intros ? ?%elem_of_nil|constructor|done]|].
    by intros (_ & _ & _ & _ & ->).
  - simpl in Hr. rewrite fmap_cons, NoDup_cons, Forall_cons. simpl. unfold bm_contains.
    setoid_rewrite elem_of_cons. split.
    + destruct (bm_get k values) eqn:Hk; [done|]. simpl. intros (j & [Hs ->]%Hr & Hv)%bind_Ok.
      apply IH in Hv as (Hnd & Hno & Hfr & Hall & ->). split_and!; [|done|intros [|]; done| |done|done|done].
      * intros Hin. specialize (Hfr k Hin). by rewrite bm_get_insert_eq in Hfr.
      * intros k' [[= ->]|Hin]; [done|]. specialize (Hfr k' Hin). rewrite bm_get_insert in Hfr. by destruct (_ =s _).
    + intros ([Hnin Hnd] & Hno & Hfr & [Hs Hall] & ->). rewrite (Hfr k) by (by left). simpl.
      rewrite (proj2 (Hr (d + 1) (denotes r))) by done. simpl. apply IH. split_and!; try done.
      * intros Hin. apply Hno. by right.
      * intros k' Hin. rewrite bm_get_insert. destruct (str_eqb_spec k' k) as [->|]; [done|]. apply Hfr. by right.
  - split; [done|]. intros (_ & Hno & _). exfalso. apply Hno. by left.
Qed.

Lemma materialize_exact r : exact r.
Proof.
  unfold exact. induction r as [|b|n|s|l IH|m IH] using raw_nested_ind; intros d j.
  - simpl. split; [intros [= <-]; by split; [constructor|]|by intros [_ ->]].
  - simpl. split; [intros [= <-]; by split; [constructor|]|by intros [_ ->]].
  - simpl. destruct n; simpl; [split; [intros [= <-]; by split; [constructor|]|by intros [_ ->]]|].
    split; [done|]. intros [Hs _]. inversion Hs.
  - simpl. destruct s; simpl; [split; [intros [= <-]; by split; [constructor|]|by intros [_ ->]]|].
    split; [done|]. intros [Hs _]. inversion Hs.
  - simpl. unfold MAX_CONTAINER_DEPTH. destruct (N.leb_spec 127 d).
    { split; [done|]. intros [Hs _]. inversion Hs. lia. }
    pose proof (items_exact d l) as Hi. destruct (traverse _ _) as [js|] eqn:Hj.
    + destruct (proj1 (Hi js IH) eq_refl) as [Hs ->]. simpl. split; [intros [= <-]; by split; [constructor|]|by intros [_ ->]].
    + split; [done|]. intros [Hs _]. inversion Hs as [| | | |? ? _ Hl|]; subst.
      by discriminate (proj2 (Hi (map denotes l) IH) (conj Hl eq_refl)).
  - rewrite materialize_object. unfold MAX_CONTAINER_DEPTH. destruct (N.leb_spec 127 d).
    { split; [done|]. intros [Hs _]. inversion Hs. lia. }
    pose proof (visit_exact d m []) as Hi. destruct (visit d m []) as [out|] eqn:Hj.
    + destruct (proj1 (Hi out IH) eq_refl) as (Hnd & Hno & _ & Hs & ->). simpl.
      split; [intros [= <-]; by split; [constructor|]|by intros [_ ->]].
    + split; [done|]. intros [Hs _]. inversion Hs as [| | | | |? ? _ Hnd Hno Hl]; subst. exfalso.
      refine (_ (proj2 (Hi _ IH) (conj Hnd (conj Hno (conj _ (conj Hl eq_refl)))))); done.
Qed.

(** The values of a document are well formed when its numbers are. *)
Inductive numbers_wf : RawJson → Prop :=
| nwf_null : numbers_wf RawNull
| nwf_bool b : numbers_wf (RawBool b)
| nwf_number n : (∀ m, n = Some m → number_wf m = true) → numbers_wf (RawNumber n)
| nwf_string s : numbers_wf (RawString s)
| nwf_array l : Forall numbers_wf l → numbers_wf (RawArray l)
| nwf_object m : Forall (λ kr, numbers_wf kr.2) m → numbers_wf (RawObject m).

Lemma denotes_wf r : numbers_wf r → json_wf (denotes r).
Proof.
  induction r as [|b|n|s|l IH|m IH] using raw_nested_ind; intros Hn; inversion Hn as [| |? Hw| |? Hl|? Hm]; subst; simpl;
    try constructor.
  - destruct n as [n|]; constructor. by apply Hw.
  - apply Forall_map. eapply Forall_impl; [apply Forall_and; split; [exact IH|exact Hl]|]. simpl. naive_solver.
  - apply bm_wf_of_list.
  - apply bm_of_list_Forall. apply Forall_map.
    eapply Forall_impl; [apply Forall_and; split; [exact IH|exact Hm]|]. intros []. simpl. naive_solver.
Qed.

(** What serde_json promises: the numbers it reads are numbers it can represent. *)
Class JsonTextLaws `{JsonText} : Prop := {
  raw_document_wf text raw : raw_document text = Some raw → numbers_wf raw;
  json_from_str_wf text j : json_from_str text = Some j → json_wf j
}.

Lemma parse_strict_json_wf `{JsonTextLaws} text j : parse_strict_json text = Ok j → json_wf j.
Proof.
  unfold parse_strict_json. destruct (raw_document text) as [raw|] eqn:Hr; [|done]. simpl.
  intros [_ ->]%materialize_exact. by eapply denotes_wf, raw_document_wf.
Qed.

(** ** Main theorem *)

(** A model's answer is read strictly: the text is accepted exactly when it is one JSON
    document in which no object repeats a member, every scalar denotes a value and containers
    nest at most 127 deep, and the result is the value of that document. *)
Theorem strict_json_exact `{JsonText} text j :
  parse_strict_json text = Ok j ↔ ∃ raw, raw_document text = Some raw ∧ strict raw 0 ∧ j = denotes raw.
Proof.
  unfold parse_strict_json. destruct (raw_document text) as [raw|]; simpl.
  - rewrite (materialize_exact raw 0 j). naive_solver.
  - naive_solver.
Qed.
