(* ===== verification/Identity.v ===== *)
(** * The content identity of a program (yao/src/canonical.rs)

    The hash of a program is taken of its serde_json value with the source provenance removed.
    This file writes out that value, as the derived [Serialize] implementations of
    yao/src/sema.rs, yao/src/types.rs and yao/src/diagnostic.rs produce it, the normalisation,
    and what the identity does not depend on. *)

From stdpp Require Import base list gmap strings.
From Stdlib Require Import NArith ZArith.
From S2P Require Import Prelude Types JsonValue Diagnostic Syntax Canonical Hir Decode Declarations Analyzer Eval Text.

Local Open Scope N_scope.

(** ** Serialisation *)

(** [#[serde(tag = .., content = ..)]] for a variant without and with content. *)
Definition adjacent0 (kind : string) : Json := jobj [("kind", jstr kind)].
Definition adjacent (content kind : string) (v : Json) : Json := jobj [("kind", jstr kind); (content, v)].
Definition strings_value (l : list str) : Json := JArray (map JString l).
Definition option_value {A} (f : A → Json) (o : option A) : Json := default JNull (f <$> o).
Definition size_value (n : N) : Json := JNumber (PosInt (Z.of_N n)).

(** yao/src/types.rs:76-83 [Effect: Serialize]. *)
Fixpoint effect_value (e : Effect) : Json :=
  match e with
  | EInfer => adjacent0 "infer"
  | ETool name => adjacent "name" "tool" (JString name)
  | EHost name => adjacent "name" "host" (JString name)
  | EProgram es => adjacent "name" "program" (JArray (map effect_value es))
  end.
Definition effects_value (es : EffectSet) : Json := JArray (map effect_value es).

(** yao/src/types.rs:5-32 [Type: Serialize]. *)
Fixpoint type_value (t : Ty) : Json :=
  match t with
  | TNil => adjacent0 "nil"
  | TBool => adjacent0 "bool"
  | TInt => adjacent0 "int"
  | TFloat => adjacent0 "float"
  | TString => adjacent0 "string"
  | TBytes => adjacent0 "bytes"
  | TJson => adjacent0 "json"
  | TList t => adjacent "value" "list" (type_value t)
  | TMap t => adjacent "value" "map" (type_value t)
  | TStructuralRecord fs =>
      adjacent "value" "structural_record"
        (JObject (bm_of_list (map (λ nt, let '(n, t) := nt in (n, type_value t)) fs)))
  | TOption t => adjacent "value" "option" (type_value t)
  | TResult a b => adjacent "value" "result" (jobj [("ok", type_value a); ("error", type_value b)])
  | TEvidenceCandidate => adjacent0 "evidence_candidate"
  | TOutcomeCandidate => adjacent0 "outcome_candidate"
  | TContextTransaction => adjacent0 "context_transaction"
  | TRef kind => adjacent "value" "ref" (JString kind)
  | TProgram o es => adjacent "value" "program" (jobj [("output", type_value o); ("effects", effects_value es)])
  | TNamed name => adjacent "value" "named" (JString name)
  end.

(** yao/src/diagnostic.rs:28-51 [SourceLocation, SourceSpan: Serialize]. *)
Definition location_value (l : SourceLocation) : Json :=
  jobj [("byte", size_value (byte l)); ("line", size_value (line l)); ("column", size_value (column l))].
Definition span_value (s : SourceSpan) : Json :=
  jobj [("start", location_value (start s)); ("end", location_value (end_ s))].

(** yao/src/sema.rs:246-255 [Literal: Serialize]. *)
Definition literal_json (l : Literal) : Json :=
  match l with
  | LNil => adjacent0 "nil"
  | LBool b => adjacent "value" "bool" (JBool b)
  | LInt z => adjacent "value" "int" (JNumber (number_of_i64 z))
  | LFloat s => adjacent "value" "float" (JString s)
  | LString s => adjacent "value" "string" (JString s)
  end.

(** yao/src/sema.rs:257-273 [PureOperator: Serialize]. *)
Definition operator_value (o : PureOperator) : Json :=
  jstr match o with
       | OpEqual => "equal" | OpNotEqual => "not_equal" | OpLess => "less" | OpLessEqual => "less_equal"
       | OpGreater => "greater" | OpGreaterEqual => "greater_equal" | OpAnd => "and" | OpOr => "or"
       | OpNot => "not" | OpAdd => "add" | OpSubtract => "subtract" | OpMultiply => "multiply"
       | OpDivide => "divide"
       end.

(** yao/src/sema.rs:225-229 [MatchBinding: Serialize]. *)
Definition binding_value (b : MatchBinding) : Json :=
  jobj [("field", JString (mb_field b)); ("binding", JString (mb_binding b))].

(** [#[serde(tag = "op")]]. *)
Definition op (name : string) (fields : list (string * Json)) : Json := jobj (("op", jstr name) :: fields).

(** yao/src/sema.rs:179-185 [HirExpr: Serialize]. *)
Fixpoint hir_value (e : HirExpr) : Json :=
  let 'Hir kind ty effects span := e in
  jobj [("kind", kind_value kind); ("ty", type_value ty); ("effects", effects_value effects);
        ("span", span_value span)]
(** yao/src/sema.rs:275-431 [HirKind: Serialize]. *)
with kind_value (k : HirKind) : Json :=
  let entries := map (λ ne, let '(n, e) := ne in JArray [JString n; hir_value e]) in
  let list l := JArray (map hir_value l) in
  let arguments l := JArray (map argument_json l) in
  match k with
  | KLiteral v => op "literal" [("value", literal_json v)]
  | KReference root path =>
      op "reference" (("root", JString root)
                      :: match path with Some p => [("path", strings_value p)] | None => [] end)
  | KList l => op "list" [("elements", list l)]
  | KDict l => op "dict" [("entries", JArray (entries l))]
  | KFromJson t v => op "from_json" [("target", type_value t); ("value", hir_value v)]
  | KToJson v => op "to_json" [("value", hir_value v)]
  | KRecord n l => op "record" [("type_name", JString n); ("fields", JArray (entries l))]
  | KVariant n v l =>
      op "variant" [("type_name", JString n); ("variant", JString v); ("fields", JArray (entries l))]
  | KOptionSome v => op "option_some" [("value", hir_value v)]
  | KOptionNone t => op "option_none" [("inner", type_value t)]
  | KResultOk v t => op "result_ok" [("value", hir_value v); ("error", type_value t)]
  | KResultErr v t => op "result_err" [("value", hir_value v); ("ok", type_value t)]
  | KEvidenceCandidate k v l =>
      op "evidence_candidate" [("kind", hir_value k); ("value", hir_value v); ("refs", list l)]
  | KOutcomeCandidate s v l =>
      op "outcome_candidate" [("status", JString s); ("value", hir_value v); ("evidence", list l)]
  | KContextTransaction c s =>
      op "context_transaction" [("context", hir_value c); ("canonical_source", JString s)]
  | KGet v f => op "get" [("value", hir_value v); ("field", JString f)]
  | KDecode t v => op "decode" [("target", type_value t); ("value", hir_value v)]
  | KIs t v => op "is" [("target", type_value t); ("value", hir_value v)]
  | KPure o l => op "pure" [("operator", operator_value o); ("operands", list l)]
  | KSeq l => op "seq" [("steps", list l)]
  | KBind n v => op "bind" [("name", JString n); ("value", hir_value v)]
  | KIf c a b => op "if" [("condition", hir_value c); ("when_true", hir_value a); ("when_false", hir_value b)]
  | KMatch v cs => op "match" [("value", hir_value v); ("cases", JArray (map case_json cs))]
  | KFallback a b => op "fallback" [("primary", hir_value a); ("backup", hir_value b)]
  | KMap c x b => op "map" [("collection", hir_value c); ("element", JString x); ("body", hir_value b)]
  | KCall t l => op "call" [("tool", JString t); ("arguments", arguments l)]
  | KFunctionApplication f l ps b =>
      op "function_application" [("function", JString f); ("arguments", arguments l);
                                 ("parameters", strings_value ps); ("body", hir_value b)]
  | KInferBody b cs t s =>
      op "infer_body" [("body", hir_value b); ("captures", strings_value cs); ("result", type_value t);
                       ("source", JString s)]
  | KPar bs => op "par" [("branches", JArray (map branch_json bs))]
  | KRun p => op "run" [("program", hir_value p)]
  | KHost o l => op "host" [("operation", JString o); ("arguments", arguments l)]
  end
(** yao/src/sema.rs:187-192 [NamedArgument: Serialize]. *)
with argument_json (a : NamedArgument) : Json :=
  let 'mkNamedArgument n vs sp := a in
  jobj [("name", JString n); ("values", JArray (map hir_value vs)); ("span", span_value sp)]
(** yao/src/sema.rs:231-237 [MatchCase: Serialize]. *)
with case_json (c : MatchCase) : Json :=
  let 'mkMatchCase v bs e sp := c in
  jobj [("variant", JString v); ("bindings", JArray (map binding_value bs)); ("body", hir_value e);
        ("span", span_value sp)]
(** yao/src/sema.rs:239-244 [ParBranch: Serialize]. *)
with branch_json (b : ParBranch) : Json :=
  let 'mkParBranch n e sp := b in
  jobj [("name", JString n); ("body", hir_value e); ("span", span_value sp)].

(** yao/src/sema.rs:50-62 [FieldDefinition, VariantDefinition: Serialize]. *)
Definition field_json (f : FieldDefinition) : Json :=
  jobj [("name", JString (fname f)); ("ty", type_value (fty f)); ("span", span_value (fspan_ f))].
Definition variant_json (v : VariantDefinition) : Json :=
  jobj [("name", JString (vname v)); ("fields", JArray (map field_json (vfields v))); ("span", span_value (vspan v))].

(** yao/src/sema.rs:64-77 [TypeDefinition: Serialize]. *)
Definition definition_value (d : TypeDefinition) : Json :=
  match d with
  | DRecord n fs sp =>
      jobj [("kind", jstr "record"); ("name", JString n); ("fields", JArray (map field_json fs)); ("span", span_value sp)]
  | DUnion n vs sp =>
      jobj [("kind", jstr "union"); ("name", JString n); ("variants", JArray (map variant_json vs)); ("span", span_value sp)]
  end.

(** yao/src/sema.rs:93-98 [Requirements: Serialize]. *)
Definition requirements_value (r : Requirements) : Json :=
  jobj [("tools", option_value strings_value (req_tools r)); ("effects", option_value effects_value (req_effects r));
        ("objects", option_value strings_value (req_objects r))].

(** yao/src/sema.rs:43-48 [EvaluationOwner: Serialize]. *)
Definition owner_value (o : EvaluationOwner) : Json :=
  match o with Runtime => jstr "runtime" | Model => jstr "model" end.

(** yao/src/sema.rs:100-111 [Program: Serialize]. *)
Definition program_to_value (p : Program) : Json :=
  jobj [("language_version", JString (language_version p)); ("owner", owner_value (owner p));
        ("requirements", requirements_value (requirements p));
        ("types", JObject (bm_of_list (map (λ nd, (nd.1, definition_value nd.2)) (types p))));
        ("body", hir_value (body p)); ("output", type_value (output p)); ("effects", effects_value (effects p));
        ("canonical_source", JString (program_canonical_source p)); ("source_hash", JString (source_hash p))].

(** ** Normalisation *)

(** [left.get(0).and_then(Value::as_str)]. *)
Definition entry_key (entry : Json) : option str :=
  match entry with JArray (key :: _) => jas_str key | _ => None end.

(** The order of [Option<&str>]. *)
Definition key_leb (a b : option str) : bool :=
  match a, b with
  | None, _ => true
  | Some _, None => false
  | Some a, Some b => match str_cmp a b with Gt => false | _ => true end
  end.

(** [sort_by], which is stable: an entry goes before the first one with a greater key. *)
Fixpoint insert_entry (entry : Json) (l : list Json) : list Json :=
  match l with
  | [] => [entry]
  | x :: l => if key_leb (entry_key entry) (entry_key x) then entry :: x :: l else x :: insert_entry entry l
  end.
Definition sort_entries (l : list Json) : list Json := foldr insert_entry [] l.

Definition sort_dict (fields : JsonMap) : JsonMap :=
  match get_is "op" s! "dict" fields, bm_get s! "entries" fields with
  | true, Some (JArray entries) => bm_insert s! "entries" (JArray (sort_entries entries)) fields
  | _, _ => fields
  end.

(** The three keys that count as provenance. *)
Definition is_provenance (key : str) : bool :=
  (key =s s! "span") || (key =s s! "canonical_source") || (key =s s! "source_hash").

(** yao/src/canonical.rs:59-88 [normalize_typed_identity].  The values of the removed keys are
    normalised too, and then removed. *)
Fixpoint normalize_typed_identity (v : Json) : Json :=
  match v with
  | JArray l => JArray (map normalize_typed_identity l)
  | JObject m =>
      JObject (sort_dict (List.filter (λ kv, negb (is_provenance kv.1))
        (map (λ kv, let '(k, v) := kv in (k, normalize_typed_identity v)) m)))
  | v => v
  end.

Section hash.
Context `{Digest} (json_to_text : Json → str).

(** yao/src/canonical.rs:46-50 [canonical_program]; the text of a value is serde_json's. *)
Definition canonical_program (p : Program) : str :=
  json_to_text (normalize_typed_identity (program_to_value p)).

(** yao/src/canonical.rs:52-57 [program_hash]. *)
Definition identity_hash (p : Program) : str := s! "sha256:" ++ sha256_hex (utf8 (canonical_program p)).
End hash.

(** ** What the identity does not depend on *)

(** The program without its provenance: no spans, no concrete spelling, no stored hash, and, as
    the normalisation treats every field of that name alike, no sources of context transactions. *)
Fixpoint without_spans (e : HirExpr) : HirExpr :=
  let 'Hir kind ty effects _ := e in Hir (kind_without_spans kind) ty effects empty_span
with kind_without_spans (k : HirKind) : HirKind :=
  let entries := map (λ ne, let '(n, e) := ne in (n, without_spans e)) in
  let list := map without_spans in
  let arguments := map argument_without_spans in
  match k with
  | KLiteral v => KLiteral v
  | KReference root path => KReference root path
  | KList l => KList (list l)
  | KDict l => KDict (entries l)
  | KFromJson t v => KFromJson t (without_spans v)
  | KToJson v => KToJson (without_spans v)
  | KRecord n l => KRecord n (entries l)
  | KVariant n v l => KVariant n v (entries l)
  | KOptionSome v => KOptionSome (without_spans v)
  | KOptionNone t => KOptionNone t
  | KResultOk v t => KResultOk (without_spans v) t
  | KResultErr v t => KResultErr (without_spans v) t
  | KEvidenceCandidate k v l => KEvidenceCandidate (without_spans k) (without_spans v) (list l)
  | KOutcomeCandidate s v l => KOutcomeCandidate s (without_spans v) (list l)
  | KContextTransaction c _ => KContextTransaction (without_spans c) []
  | KGet v f => KGet (without_spans v) f
  | KDecode t v => KDecode t (without_spans v)
  | KIs t v => KIs t (without_spans v)
  | KPure o l => KPure o (list l)
  | KSeq l => KSeq (list l)
  | KBind n v => KBind n (without_spans v)
  | KIf c a b => KIf (without_spans c) (without_spans a) (without_spans b)
  | KMatch v cs => KMatch (without_spans v) (map case_without_spans cs)
  | KFallback a b => KFallback (without_spans a) (without_spans b)
  | KMap c x b => KMap (without_spans c) x (without_spans b)
  | KCall t l => KCall t (arguments l)
  | KFunctionApplication f l ps b => KFunctionApplication f (arguments l) ps (without_spans b)
  | KInferBody b cs t s => KInferBody (without_spans b) cs t s
  | KPar bs => KPar (map branch_without_spans bs)
  | KRun p => KRun (without_spans p)
  | KHost o l => KHost o (arguments l)
  end
with argument_without_spans (a : NamedArgument) : NamedArgument :=
  let 'mkNamedArgument n vs _ := a in mkNamedArgument n (map without_spans vs) empty_span
with case_without_spans (c : MatchCase) : MatchCase :=
  let 'mkMatchCase v bs e _ := c in mkMatchCase v bs (without_spans e) empty_span
with branch_without_spans (b : ParBranch) : ParBranch :=
  let 'mkParBranch n e _ := b in mkParBranch n (without_spans e) empty_span.

Local Abbreviation norm := normalize_typed_identity.

(** Values that normalise alike, and fields that do unless they are provenance. *)
Definition alike (a b : Json) : Prop := norm a = norm b.
Definition fields_alike {K} (key : K → str) (a b : K * Json) : Prop :=
  a.1 = b.1 ∧ (is_provenance (key a.1) = true ∨ alike a.2 b.2).

#[local] Instance alike_equiv : Equivalence alike.
Proof. split; unfold alike; [done|congruence|congruence]. Qed.

Lemma insert_alike k v v' m m' :
  fields_alike id (k, v) (k, v') → Forall2 (fields_alike id) m m' →
  Forall2 (fields_alike id) (bm_insert k v m) (bm_insert k v' m').
Proof.
  intros Hv. induction 1 as [|[k1 v1] [k2 v2] m m' [Hk H1] Hm IH]; simpl in *; [by constructor; [|constructor]|]. subst k2.
  destruct (str_cmp k k1); constructor; try done. by constructor.
Qed.

Lemma object_alike m m' : Forall2 (fields_alike id) m m' → alike (JObject m) (JObject m').
Proof.
  intros Hm. unfold alike. simpl. do 2 f_equal.
  induction Hm as [|[k v] [k' v'] m m' [Hk Hv] _ IH]; [done|]. simpl in *. subst k'. unfold id in Hv.
  destruct (is_provenance k); simpl; [exact IH|]. destruct Hv as [|Hv]; [done|]. unfold alike in Hv. by rewrite Hv, IH.
Qed.

Lemma of_list_alike (l l' : list (str * Json)) :
  Forall2 (fields_alike id) l l' → alike (JObject (bm_of_list l)) (JObject (bm_of_list l')).
Proof.
  intros Hl. apply object_alike. unfold bm_of_list. assert (Forall2 (fields_alike id) (@nil (str * Json)) []) as Hm by constructor.
  revert Hm. generalize (@nil (str * Json)) at 1 3. generalize (@nil (str * Json)).
  induction Hl as [|[k v] [k' v'] l l' Hv _ IH]; intros m' m Hm; simpl; [done|]. apply IH.
  pose proof Hv as [Hk _]. simpl in Hk. subst k'. by apply insert_alike.
Qed.

Lemma jobj_alike l l' : Forall2 (fields_alike lit) l l' → alike (jobj l) (jobj l').
Proof.
  intros Hl. apply of_list_alike. induction Hl as [|[k v] [k' v'] l l' [Hk Hv] _ IH]; constructor; [|done].
  simpl in *. by subst k'.
Qed.

Lemma array_alike {A} (f g : A → Json) l :
  (∀ x, x ∈ l → alike (f x) (g x)) → alike (JArray (map f l)) (JArray (map g l)).
Proof.
  intros Hl. unfold alike. simpl. f_equal. rewrite !List.map_map. apply map_ext_in. intros x Hx. by apply Hl, list_elem_of_In.
Qed.

Lemma pair_alike n a b : alike a b → alike (JArray [JString n; a]) (JArray [JString n; b]).
Proof. unfold alike. simpl. by intros ->. Qed.

(** Fields of the same names. *)
Ltac fields :=
  apply jobj_alike; repeat (apply Forall2_cons; split); try apply Forall2_nil_2;
  (split; [reflexivity|]); first [left; reflexivity|right; cbn [snd]].

Lemma span_alike e : alike (hir_value e) (hir_value (without_spans e)).
Proof.
  induction e as [e IH] using hir_ind. destruct e as [k t ef sp]. unfold children in IH. simpl in IH.
  simpl. fields; try reflexivity.
  assert (∀ l, (∀ c, c ∈ l → alike (hir_value c) (hir_value (without_spans c))) →
    alike (JArray (map hir_value l)) (JArray (map hir_value (map without_spans l)))) as Hlist.
  { intros l Hl. rewrite List.map_map. by apply array_alike. }
  assert (∀ l, (∀ c, c ∈ map snd l → alike (hir_value c) (hir_value (without_spans c))) →
    alike (JArray (map (λ ne, let '(n, e) := ne in JArray [JString n; hir_value e]) l))
      (JArray (map (λ ne, let '(n, e) := ne in JArray [JString n; hir_value e])
                (map (λ ne, let '(n, e) := ne in (n, without_spans e)) l)))) as Hentries.
  { intros l Hl. rewrite List.map_map. apply array_alike. intros [n e] Hne. apply pair_alike, Hl.
    apply list_elem_of_fmap. by exists (n, e). }
  assert (∀ l, (∀ c, c ∈ concat (map na_values l) → alike (hir_value c) (hir_value (without_spans c))) →
    alike (JArray (map argument_json l)) (JArray (map argument_json (map argument_without_spans l)))) as Harguments.
  { intros l Hl. rewrite List.map_map. apply array_alike. intros [n vs sp'] Ha. simpl. fields; try reflexivity.
    apply Hlist. intros c Hc. apply Hl. apply list_elem_of_In, in_concat. exists vs.
    split; [|by apply list_elem_of_In]. apply in_map_iff. exists (mkNamedArgument n vs sp'). split; [done|]. by apply list_elem_of_In. }
  destruct k; simpl in *; unfold op; try reflexivity; fields; try reflexivity;
    try (apply IH; set_solver); try (apply Hlist; set_solver); try (apply Hentries; set_solver);
    try (apply Harguments; set_solver).
  - rewrite List.map_map. apply array_alike. intros [v bs b sp'] Hc. simpl. fields; try reflexivity.
    apply IH. right. apply list_elem_of_fmap. by exists (mkMatchCase v bs b sp').
  - rewrite List.map_map. apply array_alike. intros [n b sp'] Hb. simpl. fields; try reflexivity.
    apply IH. apply list_elem_of_fmap. by exists (mkParBranch n b sp').
Qed.

Definition field_without_span (f : FieldDefinition) : FieldDefinition := mkField (fname f) (fty f) empty_span.
Definition variant_without_spans (v : VariantDefinition) : VariantDefinition :=
  mkVariant (vname v) (map field_without_span (vfields v)) empty_span.
Definition definition_without_spans (d : TypeDefinition) : TypeDefinition :=
  match d with
  | DRecord n fs _ => DRecord n (map field_without_span fs) empty_span
  | DUnion n vs _ => DUnion n (map variant_without_spans vs) empty_span
  end.

Lemma fields_json_alike l : alike (JArray (map field_json l)) (JArray (map field_json (map field_without_span l))).
Proof. rewrite List.map_map. apply array_alike. intros f _. unfold field_json. fields; reflexivity. Qed.

Lemma definition_alike d : alike (definition_value d) (definition_value (definition_without_spans d)).
Proof.
  destruct d as [n fs sp|n vs sp]; unfold definition_value; simpl; fields; try reflexivity; [apply fields_json_alike|].
  rewrite List.map_map. apply array_alike. intros v _. unfold variant_json. fields; try reflexivity. apply fields_json_alike.
Qed.

Definition provenance_free (p : Program) : Program :=
  mkProgram (language_version p) (owner p) (requirements p)
    (map (λ nd, (nd.1, definition_without_spans nd.2)) (types p)) (without_spans (body p)) (output p) (effects p) [] [].

Lemma provenance_free_alike p : alike (program_to_value p) (program_to_value (provenance_free p)).
Proof.
  unfold program_to_value. fields; try reflexivity; [|apply span_alike].
  apply of_list_alike. simpl. rewrite List.map_map. induction (types p) as [|[n d] l IH]; simpl; constructor; [|done].
  split; [done|]. right. apply definition_alike.
Qed.

Lemma identity_alike `{Digest} json_to_text p q :
  alike (program_to_value p) (program_to_value q) → identity_hash json_to_text p = identity_hash json_to_text q.
Proof. unfold identity_hash, canonical_program. by intros ->. Qed.

(** The program with another stored hash. *)
Definition with_stored_hash (h : str) (p : Program) : Program :=
  mkProgram (language_version p) (owner p) (requirements p) (types p) (body p) (output p) (effects p)
    (program_canonical_source p) h.

Lemma identity_stored_hash `{Digest} json_to_text h p :
  identity_hash json_to_text (with_stored_hash h p) = identity_hash json_to_text p.
Proof. done. Qed.

(** ** Main theorems *)

(** The identity of a program does not depend on its provenance: removing every span of the
    tree and of the type declarations, the concrete source and the stored hash leaves the
    content hash unchanged. *)
Theorem identity_ignores_provenance `{Digest} json_to_text p :
  identity_hash json_to_text (provenance_free p) = identity_hash json_to_text p.
Proof. symmetry. apply identity_alike, provenance_free_alike. Qed.

(** Two programs that delete different nodes of the context. *)
Definition context_profile : AnalysisProfile := static_profile (mkStaticProfile [] []
  [(s! "runtime", TStructuralRecord [(s! "context", TRef s! "Context")])]).
Definition delete_first : str :=
  s! "(eval (context-transaction (context runtime.context) (transaction (context-tx (delete first)))))".
Definition delete_second : str :=
  s! "(eval (context-transaction (context runtime.context) (transaction (context-tx (delete second)))))".

Definition context_program (program_hash : Program → str) (source : str) : Program :=
  match @analyze ascii_classes context_profile program_hash source analysis_limits_default with
  | Ok p => p
  | Err _ => mkProgram [] Runtime requirements_default [] (hir (KLiteral LNil) TNil [] empty_span) TNil [] [] []
  end.
Definition context_environment : Env :=
  {[s! "runtime" := structural_record_value [(s! "context", reference_value s! "Context" s! "c")]]}.

(** Both are accepted, with the hash of their content. *)
Lemma context_programs_accepted program_hash source :
  source = delete_first ∨ source = delete_second →
  @analyze ascii_classes context_profile program_hash source analysis_limits_default
    = Ok (context_program program_hash source) ∧
  source_hash (context_program program_hash source)
    = program_hash (with_stored_hash [] (context_program program_hash source)).
Proof. intros [-> | ->]; split; vm_compute; reflexivity. Qed.

Lemma context_programs_alike program_hash :
  alike (program_to_value (context_program program_hash delete_first))
    (program_to_value (context_program program_hash delete_second)).
Proof. vm_compute. reflexivity. Qed.

(** The operations of a context transaction are outside the identity of the program that
    proposes it: they are kept in a field that the normalisation removes as provenance, so that
    two accepted programs that edit a context differently have the same content hash. *)
Theorem transaction_outside_identity `{Digest} json_to_text :
  let program_hash := identity_hash json_to_text in
  let p := context_program program_hash delete_first in
  let q := context_program program_hash delete_second in
  @analyze ascii_classes context_profile program_hash delete_first analysis_limits_default = Ok p ∧
  @analyze ascii_classes context_profile program_hash delete_second analysis_limits_default = Ok q ∧
  source_hash p = source_hash q ∧
  evaluate_pure (types p) (body p) context_environment ≠ evaluate_pure (types q) (body q) context_environment.
Proof.
  intros program_hash p q. destruct (context_programs_accepted program_hash delete_first) as [Hp Hsp]; [by left|].
  destruct (context_programs_accepted program_hash delete_second) as [Hq Hsq]; [by right|].
  split_and!; [exact Hp|exact Hq| |].
  - unfold p, q. rewrite Hsp, Hsq. unfold program_hash. rewrite !identity_stored_hash.
    apply identity_alike, context_programs_alike.
  - unfold p, q. clearbody program_hash. clear. vm_compute. discriminate.
Qed.
