(* ===== verification/Plan.v ===== *)
(** * The plan machine, data (morphz/src/sexpr_eval.rs)

    A validated program is run by a machine whose whole control state is data: a stack of
    frames, an environment, the signal of the last finished expression, the effect it
    waits for, and what is left of its budget.  This file holds that data; [PlanSteps]
    holds its operations.

    A [Vec] used as a stack is a list with its top first, a [HashMap] is a finite map, and
    a message is its template with its arguments. *)

From stdpp Require Import base list gmap strings.
From Stdlib Require Import NArith ZArith.
From S2P Require Import Prelude Types JsonValue Diagnostic Hir Decode Eval Text.

Local Open Scope N_scope.

(** ** Limits *)

(** morphz/src/sexpr_eval.rs:32-35 [MAX_MAP_ELEMENTS]. *)
Definition MAX_MAP_ELEMENTS : nat := 64.
(** morphz/src/sexpr_eval.rs:37-38 [MAX_PROGRAM_CALLS]. *)
Definition MAX_PROGRAM_CALLS : N := 128.
(** morphz/src/sexpr_eval.rs:40-42 [MAX_PROGRAM_INFERS]. *)
Definition MAX_PROGRAM_INFERS : N := 8.
(** morphz/src/sexpr_eval.rs:44-47 [MAX_PROGRAM_VALUE_NESTING]. *)
Definition MAX_PROGRAM_VALUE_NESTING : N := 4.

(** ** Programs *)

(** morphz/src/sexpr_eval.rs:209-214 [PlanValue]. *)
Inductive PlanValue : Type := PlanLiteral (atom : str) | PlanReference (reference : str).

(** morphz/src/sexpr_eval.rs:216-220 [PlanArgument]. *)
Record PlanArgument : Type := mkPlanArgument { pa_name : str; pa_values : list PlanValue }.

(** morphz/src/sexpr_eval.rs:228-244 [InferResultKind]. *)
Inductive InferResultKind : Type :=
| JsonResult (ty : Ty) (definitions : Definitions) (span : SourceSpan)
| YaoResult (ty : Ty) (definitions : Definitions) (span : SourceSpan).

(** morphz/src/sexpr_eval.rs:262-296 [PlanNode]. *)
Inductive PlanNode : Type :=
| NTyped (program : Program)
| NValue (value : PlanValue)
| NSeq (steps : list PlanNode)
| NBind (name : str) (value : PlanNode)
| NIf (condition : PlanValue) (when_true when_false : PlanNode)
| NFallback (primary backup : PlanNode)
| NMap (collection : PlanValue) (element : str) (body : PlanNode)
| NCall (tool : str) (arguments : list PlanArgument).

(** morphz/src/sexpr_eval.rs:300-324 [Program]. *)
Record PlanProgram : Type := mkPlanProgram {
  pp_owner : EvaluationOwner;
  pp_root : PlanNode;
  pp_tools : list str;
  pp_declared : option (list str)
}.

(** morphz/src/sexpr_eval.rs:343-348 [Program::typed_program]. *)
Definition typed_program (p : PlanProgram) : option Program :=
  match pp_root p with NTyped program => Some program | _ => None end.

(** morphz/src/sexpr_eval.rs:354-359 [ProgramValueProvenance]. *)
Record ProgramValueProvenance : Type := mkProvenance {
  parent_plan_execution_id : str;
  producer_evaluation_id : str;
  terminal_event_id : option str;
  validation_version : str
}.

(** morphz/src/sexpr_eval.rs:366-373 [PlanProgramValue]. *)
Record PlanProgramValue : Type := mkProgramValue {
  pv_hash : str;
  pv_source : str;
  pv_program : PlanProgram;
  pv_output : Ty;
  pv_effects : EffectSet;
  pv_provenance : ProgramValueProvenance
}.

(** ** Control state *)

(** morphz/src/sexpr_eval.rs:1497-1502 [PlanBudget]. *)
Record PlanBudget : Type := mkBudget { calls_left : N; infers_left : N; programs_left : N }.

(** morphz/src/sexpr_eval.rs:1510-1513 [MachineSignal]. *)
Inductive MachineSignal : Type := SValue (value : Json) | SFailure (message : Message).

(** morphz/src/sexpr_eval.rs:1517-1520 [MachineTerminal]. *)
Inductive MachineTerminal : Type := TComplete (value : Json) | TFailed (message : Message).

(** morphz/src/sexpr_eval.rs:1525-1528 [ValueProvenance]. *)
Record ValueProvenance : Type := mkSource { effect_sequence : N; path : list str }.

Abbreviation Sources := (gmap str ValueProvenance).

(** morphz/src/sexpr_eval.rs:1534-1594 [MachineFrame]. *)
Inductive MachineFrame : Type :=
| FEval (node : PlanNode)
| FSeq (steps : list PlanNode) (next : nat)
| FBind (name : str)
| FRestoreScope (saved_env : Env) (saved_provenance : Sources)
| FFallbackPrimary (backup : PlanNode) (saved_env : Env)
| FMapItem (items : list Json) (next : nat) (element : str) (body : PlanNode)
    (results : list Json) (saved_env : Env)
| FTypedEval (expression : HirExpr)
| FTypedModelRoot (expression : HirExpr)
| FTypedSeq (steps : list HirExpr) (next : nat)
| FTypedBind (name : str)
| FTypedFallbackPrimary (backup : HirExpr) (saved_env : Env) (saved_provenance : Sources)
| FTypedMapItem (items : list Json) (next : nat) (element : str) (body : HirExpr)
    (results : list Json) (saved_env : Env) (saved_provenance : Sources).

(** morphz/src/sexpr_eval.rs:1608-1625 [PlanMachine].  The effect type is a parameter because
    an effect contains the machines of its children. *)
Record Machine (E : Type) : Type := mkMachine {
  frames : list MachineFrame;
  env : Env;
  signal : option MachineSignal;
  value_provenance : option ValueProvenance;
  binding_provenance : Sources;
  pending : option E;
  terminal : option MachineTerminal;
  declared_tools : option (list str);
  budget : PlanBudget;
  next_effect_sequence : N;
  typed_definitions : Definitions
}.
Arguments mkMachine {E}.
Arguments frames {E}.
Arguments env {E}.
Arguments signal {E}.
Arguments value_provenance {E}.
Arguments binding_provenance {E}.
Arguments pending {E}.
Arguments terminal {E}.
Arguments declared_tools {E}.
Arguments budget {E}.
Arguments next_effect_sequence {E}.
Arguments typed_definitions {E}.

(** morphz/src/sexpr_eval.rs:1459-1463 [PlanParallelBranch]. *)
Record ParallelBranch (M : Type) : Type := mkBranch {
  br_name : str;
  br_program : PlanProgram;
  br_machine : M
}.
Arguments mkBranch {M}.
Arguments br_name {M}.
Arguments br_program {M}.
Arguments br_machine {M}.

(** morphz/src/sexpr_eval.rs:1426-1454 [PlanEffect]. *)
Inductive PlanEffect : Type :=
| PCall (sequence : N) (tool : str) (arguments : JsonMap)
| PInfer (sequence : N) (request : JsonMap) (tools : option (list str)) (result : InferResultKind)
| PParallel (sequence : N) (branches : list (ParallelBranch (Machine PlanEffect)))
| PProgram (sequence : N) (value : PlanProgramValue) (machine : Machine PlanEffect)
| PHost (sequence : N) (operation : str) (arguments : JsonMap) (result : InferResultKind).

Abbreviation PlanMachine := (Machine PlanEffect).
Abbreviation PlanParallelBranch := (ParallelBranch PlanMachine).

(** morphz/src/sexpr_eval.rs:1466-1474 [PlanEffect::sequence]. *)
Definition sequence (e : PlanEffect) : N :=
  match e with
  | PCall n _ _ | PInfer n _ _ _ | PParallel n _ | PProgram n _ _ | PHost n _ _ _ => n
  end.

(** morphz/src/sexpr_eval.rs:1476-1486 [PlanEffect::failure]. *)
Definition effect_failure (e : PlanEffect) (message : Message) : Message :=
  match e with
  | PCall _ tool _ => Msg "(call {tool} ...) failed: {message}" [AStr tool; AMsg message]
  | PInfer _ _ _ _ => Msg "(infer ...) failed: {message}" [AMsg message]
  | PParallel _ _ => Msg "(par ...) failed: {message}" [AMsg message]
  | PProgram _ _ _ => Msg "(run ...) failed: {message}" [AMsg message]
  | PHost _ operation _ _ =>
      Msg "host operation '{operation}' failed: {message}" [AStr operation; AMsg message]
  end.

(** morphz/src/sexpr_eval.rs:1490-1494 [PlanAdvance]. *)
Inductive PlanAdvance : Type :=
| Suspended (effect : PlanEffect)
| Complete (value : Json)
| Failed (message : Message).

(** morphz/src/sexpr_eval.rs:2739-2746 [PlanAdvance::from]. *)
Definition advance_of_terminal (t : MachineTerminal) : PlanAdvance :=
  match t with TComplete value => Complete value | TFailed message => Failed message end.

(** ** Updates of one field *)

Section updates.
Context (m : PlanMachine).

Definition set_frames (fs : list MachineFrame) : PlanMachine :=
  mkMachine fs (env m) (signal m) (value_provenance m) (binding_provenance m) (pending m)
    (terminal m) (declared_tools m) (budget m) (next_effect_sequence m) (typed_definitions m).
Definition set_env (e : Env) : PlanMachine :=
  mkMachine (frames m) e (signal m) (value_provenance m) (binding_provenance m) (pending m)
    (terminal m) (declared_tools m) (budget m) (next_effect_sequence m) (typed_definitions m).
Definition set_signal (s : option MachineSignal) : PlanMachine :=
  mkMachine (frames m) (env m) s (value_provenance m) (binding_provenance m) (pending m)
    (terminal m) (declared_tools m) (budget m) (next_effect_sequence m) (typed_definitions m).
Definition set_source (v : option ValueProvenance) : PlanMachine :=
  mkMachine (frames m) (env m) (signal m) v (binding_provenance m) (pending m)
    (terminal m) (declared_tools m) (budget m) (next_effect_sequence m) (typed_definitions m).
Definition set_sources (b : Sources) : PlanMachine :=
  mkMachine (frames m) (env m) (signal m) (value_provenance m) b (pending m)
    (terminal m) (declared_tools m) (budget m) (next_effect_sequence m) (typed_definitions m).
Definition set_pending (p : option PlanEffect) : PlanMachine :=
  mkMachine (frames m) (env m) (signal m) (value_provenance m) (binding_provenance m) p
    (terminal m) (declared_tools m) (budget m) (next_effect_sequence m) (typed_definitions m).
Definition set_terminal (t : option MachineTerminal) : PlanMachine :=
  mkMachine (frames m) (env m) (signal m) (value_provenance m) (binding_provenance m) (pending m)
    t (declared_tools m) (budget m) (next_effect_sequence m) (typed_definitions m).
Definition set_budget (b : PlanBudget) : PlanMachine :=
  mkMachine (frames m) (env m) (signal m) (value_provenance m) (binding_provenance m) (pending m)
    (terminal m) (declared_tools m) b (next_effect_sequence m) (typed_definitions m).
Definition set_sequence (n : N) : PlanMachine :=
  mkMachine (frames m) (env m) (signal m) (value_provenance m) (binding_provenance m) (pending m)
    (terminal m) (declared_tools m) (budget m) n (typed_definitions m).
Definition set_definitions (d : Definitions) : PlanMachine :=
  mkMachine (frames m) (env m) (signal m) (value_provenance m) (binding_provenance m) (pending m)
    (terminal m) (declared_tools m) (budget m) (next_effect_sequence m) d.
End updates.

(** [self.frames.push]. *)
Definition push (f : MachineFrame) (m : PlanMachine) : PlanMachine := set_frames m (f :: frames m).

(** ** Interfaces *)

(** A registered tool, as far as programs see it: whether it runs as a physical job, and the
    JSON schema of its parameters. *)
Record RuntimeTool : Type := mkTool { tool_physical : bool; tool_parameters : Json }.

(** morphz/src/tool.rs, [Registry::get]. *)
Abbreviation Registry := (gmap str RuntimeTool).

(** serde_json on the machine's data: the bytes of a typed expression, the values of type
    definitions and of a program value, and the reading of the latter. *)
Class PlanCodec : Type := {
  hir_to_vec : HirExpr → list N;
  definitions_to_value : Definitions → option Json;
  program_value_to_value : PlanProgramValue → option Json;
  program_value_from_value : Json → option PlanProgramValue
}.

(** What is written is JSON, and reads back. *)
Class PlanCodecLaws `{PlanCodec} : Prop := {
  program_value_reads_back v j : program_value_to_value v = Some j → program_value_from_value j = Some v;
  program_value_wf v j : program_value_to_value v = Some j → json_wf j
}.
