(* ===== verification/PlanSteps.v ===== *)
(** * The plan machine, operations (morphz/src/sexpr_eval.rs)

    [step] is one iteration of the loop of [PlanMachine::advance]: it pops the top frame and
    either goes on or returns to the scheduler.  [advance_machine] runs the loop; the bound on
    its iterations is [machine_weight], which [PlanFacts] proves enough.

    An expression that fails leaves the environment as it was: what the source's environment
    holds after a failure is overwritten before it is read, by the frame that catches the
    failure.  An [expect] that does not hold is [Panic]. *)

From stdpp Require Import base list gmap strings.
From Stdlib Require Import NArith ZArith SpecFloat.
From S2P Require Import Prelude Types JsonValue Diagnostic Hir Decode JsonBoundary Eval Text Plan.

Local Open Scope N_scope.

(** The result of one iteration. *)
Inductive Outcome : Type :=
| Continue (m : PlanMachine)
| Return (m : PlanMachine) (a : PlanAdvance)
| Panic.

(** ** Small operations *)

(** morphz/src/sexpr_eval.rs:2697-2701 [take_effect_sequence]. *)
Definition take_effect_sequence (m : PlanMachine) : PlanMachine * N :=
  let sequence := next_effect_sequence m in
  (set_sequence m (N.min (sequence + 1) (2 ^ 64 - 1)), sequence).

(** morphz/src/sexpr_eval.rs:2703-2708 [raise]. *)
Definition raise (m : PlanMachine) (message : Message) : Outcome :=
  Continue (set_signal (set_source m None) (Some (SFailure message))).

(** morphz/src/sexpr_eval.rs:2730-2736 [fail_internal]. *)
Definition fail_internal (m : PlanMachine) (template : string) : Outcome :=
  let t := TFailed (Msg template []) in Return (set_terminal m (Some t)) (advance_of_terminal t).

(** Suspension: [self.pending = Some(effect.clone()); return Suspended(effect)]. *)
Definition suspend (m : PlanMachine) (e : PlanEffect) : Outcome :=
  Return (set_pending m (Some e)) (Suspended e).

(** [self.signal = Some(MachineSignal::Value { value })]. *)
Definition yield_value (m : PlanMachine) (value : Json) : PlanMachine :=
  set_signal m (Some (SValue value)).

(** morphz/src/sexpr_eval.rs:2714-2728 [provenance_for]. *)
Fixpoint provenance_for (sources : Sources) (expression : HirExpr) : option ValueProvenance :=
  let 'Hir kind _ _ _ := expression in
  match kind with
  | KReference root fields =>
      source ← sources !! root;
      Some (mkSource (effect_sequence source) (path source ++ default [] fields))
  | KGet value field =>
      source ← provenance_for sources value;
      Some (mkSource (effect_sequence source) (path source ++ [field]))
  | _ => None
  end.

(** morphz/src/sexpr_eval.rs:3049-3058 [truthy]. *)
Definition truthy (value : Json) : bool :=
  match value with
  | JNull => false
  | JBool flag => flag
  | JNumber _ => match jas_f64 value with Some f => negb (SFeqb f (S754_zero false)) | None => false end
  | JString text => match text with [] => false | _ => true end
  | JArray items => match items with [] => false | _ => true end
  | JObject fields => match fields with [] => false | _ => true end
  end.

(** morphz/src/sexpr_eval.rs:3060-3069 [type_name]. *)
Definition type_name (value : Json) : str :=
  match value with
  | JNull => s! "null"
  | JBool _ => s! "boolean"
  | JNumber _ => s! "number"
  | JString _ => s! "string"
  | JArray _ => s! "array"
  | JObject _ => s! "object"
  end.

(** morphz/src/sexpr_eval.rs:2957-2968 [literal]; a number that JSON cannot hold is [null]. *)
Definition plan_literal (atom : str) : Json :=
  if atom =s s! "true" then JBool true
  else if atom =s s! "false" then JBool false
  else if atom =s s! "null" then JNull
  else
    match parse_i64 atom with
    | Some z => JNumber (number_of_i64 z)
    | None =>
        match parse_f64 atom with
        | Some f => match number_of_f64 f with Some n => JNumber n | None => JNull end
        | None => JString atom
        end
    end.

(** [str::split('.')]. *)
Fixpoint split_dot (s : str) : list str :=
  match s with
  | [] => [[]]
  | c :: r =>
      match split_dot r with
      | [] => [[c]]
      | part :: rest => if c =? 46 then [] :: part :: rest else (c :: part) :: rest
      end
  end.

(** The selection loop of morphz/src/sexpr_eval.rs:2941-2951. *)
Fixpoint select_fields (reference name : str) (current : Json) (fields : list str)
    : result Message Json :=
  match fields with
  | [] => Ok current
  | field :: rest =>
      match current with
      | JObject m => select_fields reference name (default JNull (bm_get field m)) rest
      | other => Err (Msg "cannot select a field from '{reference}': '{name}' is {}"
                        [AStr reference; AStr name; AStr (type_name other)])
      end
  end.

(** morphz/src/sexpr_eval.rs:2925-2953 [resolve_value]. *)
Definition resolve_value (value : PlanValue) (env : Env) : result Message Json :=
  match value with
  | PlanLiteral atom => Ok (plan_literal atom)
  | PlanReference reference =>
      let parts := split_dot reference in
      let name := default [] (head parts) in
      current ← ok_or (env !! name) (Msg "binding '{name}' is unavailable" [AStr name]);
      select_fields reference name current (tail parts)
  end.

(** ** Arguments *)

(** [schema.properties.<name>.type == array], morphz/src/sexpr_eval.rs:2866-2879. *)
Definition expects_array (schema : Json) (name : str) : bool :=
  let kind : option str :=
    properties ← jget s! "properties" schema;
    fields ← jas_object properties;
    property ← bm_get name fields;
    kind ← jget s! "type" property;
    jas_str kind in
  match kind with Some k => k =s s! "array" | None => false end.

(** One argument, morphz/src/sexpr_eval.rs:2880-2890; [None] is the failed [expect] on an
    argument without values. *)
Definition argument_value (array : bool) (values : list Json) : option Json :=
  match values with
  | [] => None
  | [single] =>
      Some (if array then match single with JArray existing => JArray existing | scalar => JArray [scalar] end
            else single)
  | _ => Some (JArray values)
  end.

(** morphz/src/sexpr_eval.rs:2861-2894 [build_arguments]; the inner option is a panic. *)
Fixpoint build_arguments (args : list PlanArgument) (env : Env) (schema : Json) (arguments : JsonMap)
    : result Message (option JsonMap) :=
  match args with
  | [] => Ok (Some arguments)
  | argument :: rest =>
      values ← traverse (λ value, resolve_value value env) (pa_values argument);
      match argument_value (expects_array schema (pa_name argument)) values with
      | Some value => build_arguments rest env schema (bm_insert (pa_name argument) value arguments)
      | None => Ok None
      end
  end.

(** morphz/src/sexpr_eval.rs:2896-2921 [build_typed_arguments], with the environment it leaves. *)
Fixpoint build_typed_arguments (definitions : Definitions) (args : list NamedArgument) (env : Env)
    (output : JsonMap) : result Message (JsonMap * Env) :=
  match args with
  | [] => Ok (output, env)
  | mkNamedArgument name values _ :: rest =>
      '(vs, env') ← map_err (λ f, Msg "Yao argument failure: {error}" [AMsg (fmessage f)])
                      (eval_all (evaluate_pure definitions) values env);
      let value := match vs with [v] => v | _ => JArray vs end in
      if bm_contains name output then Err (Msg "typed argument '{}' is duplicated" [AStr name])
      else build_typed_arguments definitions rest env' (bm_insert name value output)
  end.

(** The linking loop of morphz/src/sexpr_eval.rs:2397-2405: the arguments that remain and the
    local environment, or the parameter that has no argument. *)
Fixpoint link_arguments (parameters : list str) (arguments : JsonMap) (local : Env)
    : result str (JsonMap * Env) :=
  match parameters with
  | [] => Ok (arguments, local)
  | parameter :: rest =>
      match bm_get parameter arguments with
      | Some value => link_arguments rest (bm_remove parameter arguments) (<[parameter := value]> local)
      | None => Err parameter
      end
  end.

(** The sources of the arguments, morphz/src/sexpr_eval.rs:2380-2388. *)
Definition argument_sources (sources : Sources) (arguments : list NamedArgument) : Sources :=
  fold_left (λ local argument,
      match na_values argument with
      | [value] => match provenance_for sources value with
                   | Some source => <[na_name argument := source]> local
                   | None => local
                   end
      | _ => local
      end) arguments ∅.

(** The bindings of a case, morphz/src/sexpr_eval.rs:2267-2282: the environment and sources
    reached, and the field that is missing, if any. *)
Fixpoint bind_case (bindings : list MatchBinding) (fields : JsonMap) (matched : option ValueProvenance)
    (env : Env) (sources : Sources) : Env * Sources * option str :=
  match bindings with
  | [] => (env, sources, None)
  | b :: rest =>
      match bm_get (mb_field b) fields with
      | None => (env, sources, Some (mb_field b))
      | Some value =>
          let sources' :=
            match matched with
            | Some source => <[mb_binding b := mkSource (effect_sequence source)
                                                 (path source ++ [mb_field b])]> sources
            | None => delete (mb_binding b) sources
            end in
          bind_case rest fields matched (<[mb_binding b := value]> env) sources'
      end
  end.

(** The captures of an infer, morphz/src/sexpr_eval.rs:2445-2453: the values, or the name that
    is not bound. *)
Fixpoint capture_values (captures : list str) (env : Env) (captured : JsonMap) : result str JsonMap :=
  match captures with
  | [] => Ok captured
  | name :: rest =>
      match env !! name with
      | Some value => capture_values rest env (bm_insert name value captured)
      | None => Err name
      end
  end.

(** The tools of an effect row, as in morphz/src/sexpr_eval.rs:2435-2443. *)
Definition row_tools (effects : EffectSet) : list str :=
  omap (λ e, match e with ETool name => Some name | _ => None end) effects.
Definition is_tool (e : Effect) : bool := match e with ETool _ => true | _ => false end.
Definition is_program (e : Effect) : bool := match e with EProgram _ => true | _ => false end.

(** ** New machines *)

Section machine.
Context `{Digest} `{PlanCodec}.

(** morphz/src/sexpr_eval.rs:1628-1666 [PlanMachine::new]. *)
Definition machine_new (program : PlanProgram) : result Message PlanMachine :=
  let definitions := match pp_root program with NTyped p => types p | _ => [] end in
  fs ← match pp_owner program, pp_root program with
       | Model, NTyped p =>
           match hkind (body p) with
           | KInferBody _ _ _ _ => Ok [FTypedModelRoot (body p)]
           | _ => Err (Msg "model-owned Yao Program does not contain an infer root after validation" [])
           end
       | _, node => Ok [FEval node]
       end;
  Ok (mkMachine fs ∅ None None ∅ None None (pp_declared program)
        (mkBudget MAX_PROGRAM_CALLS MAX_PROGRAM_INFERS MAX_PROGRAM_VALUE_NESTING) 1 definitions).

(** morphz/src/sexpr_eval.rs:1705-1766 [typed_parallel_branch]. *)
Definition typed_parallel_branch (m : PlanMachine) (name : str) (e : HirExpr) (b : PlanBudget)
    : PlanParallelBranch :=
  let hash := s! "sha256:" ++ sha256_hex (hir_to_vec e) in
  let requirements :=
    mkRequirements ((λ tools, fold_left (λ s t, bs_insert t s) tools []) <$> declared_tools m)
      (Some (heffects e)) None in
  let typed :=
    mkProgram s! "0.1" Runtime requirements (typed_definitions m) e (hty e) (heffects e)
      (s! "(generated-par-branch " ++ name ++ s! " " ++ hash ++ s! ")") hash in
  mkBranch name (mkPlanProgram Runtime (NTyped typed) (row_tools (heffects e)) (declared_tools m))
    (mkMachine [FTypedEval e] (env m) None None (binding_provenance m) None None (declared_tools m) b 1
       (typed_definitions m)).

(** morphz/src/sexpr_eval.rs:839-872 [runtime_environment_type]. *)
Definition runtime_environment_type : Ty :=
  TStructuralRecord (bm_of_list
    [(s! "agent", TRef s! "Agent"); (s! "evaluation", TRef s! "Evaluation");
     (s! "context", TRef s! "Context"); (s! "objective", TOption (TRef s! "Objective"));
     (s! "harness", TOption (TRef s! "HarnessBinding")); (s! "capabilities", TRef s! "CapabilitySet");
     (s! "principal", TOption (TRef s! "Principal"));
     (s! "execution_target", TOption (TRef s! "ExecutionTarget"))]).

(** morphz/src/sexpr_eval.rs:1675-1693 [bind_runtime_environment]. *)
Definition bind_runtime_environment (m : PlanMachine) (value : Json) : result Message PlanMachine :=
  if is_some (env m !! s! "runtime") then
    Err (Msg "Plan Machine runtime environment is already bound" [])
  else
    v ← map_err (λ f, Msg "runtime environment does not satisfy the Profile type: {error}" [AMsg (fmessage f)])
          (decode_value (typed_definitions m) empty_span runtime_environment_type value);
    Ok (set_env m (<[s! "runtime" := v]> (env m))).

(** The runtime snapshot of the caller, morphz/src/sexpr_eval.rs:2611-2618. *)
Definition inherit_runtime (caller : Env) (child : PlanMachine) : result Message PlanMachine :=
  match caller !! s! "runtime" with
  | Some runtime => bind_runtime_environment child runtime
  | None => Ok child
  end.

(** morphz/src/sexpr_eval.rs:1699-1703 [runtime_reference_id]. *)
Definition runtime_reference_id (m : PlanMachine) (field : str) : option str :=
  runtime ← env m !! s! "runtime";
  value ← structural_record_field runtime field;
  snd <$> reference_view value.

(** morphz/src/sexpr_eval.rs:431-437 [program_value_effects]. *)
Definition program_value_effects (program : PlanProgram) (typed : Program) : EffectSet :=
  match pp_owner program with
  | Model => es_insert EInfer (effects typed)
  | Runtime => effects typed
  end.

(** ** Typed expressions *)

Context (program_hash : Program → str) (registry : Registry).

(** morphz/src/sexpr_eval.rs:388-422 [decode_program_value]. *)
Definition decode_program_value (value : Json) : result Message PlanProgramValue :=
  tag ← ok_or (yao_object value) (Msg "run operand is not a Runtime-admitted Program Value" []);
  if negb (get_is "kind" s! "program" tag) then Err (Msg "run operand is not a Program Value" [])
  else
    declared_hash ← ok_or (get_str "hash" tag) (Msg "Program Value is missing its content hash" []);
    representation ← ok_or (bm_get s! "value" tag)
                       (Msg "Program Value is missing its admitted representation" []);
    admitted ← ok_or (program_value_from_value representation)
                 (Msg "Program Value representation is invalid: {error}" []);
    typed ← ok_or (typed_program (pv_program admitted))
              (Msg "Program Value does not carry a typed Yao Program" []);
    if negb (declared_hash =s pv_hash admitted) || negb (pv_hash admitted =s source_hash typed)
       || negb (pv_hash admitted =s program_hash typed)
       || negb (pv_source admitted =s program_canonical_source typed)
       || negb (ty_eqb (pv_output admitted) (output typed))
       || negb (es_eqb (pv_effects admitted) (program_value_effects (pv_program admitted) typed)) then
      Err (Msg "Program Value content hash or typed contract validation failed" [])
    else Ok admitted.

(** The message of a failed evaluation, as in morphz/src/sexpr_eval.rs:2201. *)
Definition value_failure (f : EvalFailure) : Message :=
  Msg "Yao value failure: {error}" [AMsg (fmessage f)].

(** The kinds that always go through frames, morphz/src/sexpr_eval.rs:2182-2193. *)
Definition is_control (k : HirKind) : bool :=
  match k with
  | KSeq _ | KBind _ _ | KIf _ _ _ | KMatch _ _ | KFunctionApplication _ _ _ _ | KFallback _ _
  | KMap _ _ _ => true
  | _ => false
  end.

(** morphz/src/sexpr_eval.rs:2194-2203 [advance_typed: effect-free expressions]. *)
Definition typed_value (m : PlanMachine) (e : HirExpr) : Outcome :=
  let source := provenance_for (binding_provenance m) e in
  match evaluate_pure (typed_definitions m) e (env m) with
  | Ok (value, env') => Continue (yield_value (set_source (set_env m env') source) value)
  | Err f => raise m (value_failure f)
  end.

(** morphz/src/sexpr_eval.rs:2223-2247 [advance_typed: If]. *)
Definition typed_if (m : PlanMachine) (condition when_true when_false : HirExpr) : Outcome :=
  match evaluate_pure (typed_definitions m) condition (env m) with
  | Ok (JBool value, env') =>
      let m1 := set_env m env' in
      Continue (push (FTypedEval (if value then when_true else when_false))
                  (push (FRestoreScope (env m1) (binding_provenance m1)) m1))
  | Ok (_, env') => raise (set_env m env') (Msg "typed if condition is not Bool at runtime" [])
  | Err f => raise m (value_failure f)
  end.

(** morphz/src/sexpr_eval.rs:2248-2295 [advance_typed: Match]. *)
Definition typed_match (m : PlanMachine) (value : HirExpr) (cases : list MatchCase) : Outcome :=
  let matched := provenance_for (binding_provenance m) value in
  match evaluate_pure (typed_definitions m) value (env m) with
  | Err f => raise m (value_failure f)
  | Ok (v, env') =>
      let m1 := set_env m env' in
      match variant_parts v with
      | None => raise m1 (Msg "typed match value is not a Yao union variant" [])
      | Some (variant, fields) =>
          match List.find (λ c, mc_variant c =s variant) cases with
          | None => raise m1 (Msg "typed match has no branch for variant '{variant}'" [AStr variant])
          | Some c =>
              match bind_case (mc_bindings c) fields matched env' (binding_provenance m1) with
              | (env2, sources2, Some field) =>
                  raise (set_sources (set_env m1 env2) sources2)
                    (Msg "variant '{variant}' is missing field '{}'" [AStr variant; AStr field])
              | (env2, sources2, None) =>
                  Continue (push (FTypedEval (mc_body c))
                              (push (FRestoreScope env' (binding_provenance m1))
                                 (set_sources (set_env m1 env2) sources2)))
              end
          end
      end
  end.

(** morphz/src/sexpr_eval.rs:2306-2348 [advance_typed: Map]. *)
Definition typed_map (m : PlanMachine) (collection : HirExpr) (element : str) (e : HirExpr) : Outcome :=
  match evaluate_pure (typed_definitions m) collection (env m) with
  | Ok (JArray items, env') =>
      let m1 := set_env m env' in
      if (length items <=? MAX_MAP_ELEMENTS)%nat then
        let m2 := set_source m1 None in
        match items with
        | [] => Continue (yield_value m2 (JArray []))
        | item :: _ =>
            let m3 := set_env (set_sources m2 (delete element (binding_provenance m2)))
                        (<[element := item]> env') in
            Continue (push (FTypedEval e)
                        (push (FTypedMapItem items 1 element e [] env' (binding_provenance m2)) m3))
        end
      else raise m1 (Msg "typed map collection has {} elements, exceeding the limit of {MAX_MAP_ELEMENTS}"
                       [ANum (N.of_nat (length items))])
  | Ok (_, env') => raise (set_env m env') (Msg "typed map collection is not a List at runtime" [])
  | Err f => raise m (value_failure f)
  end.

(** morphz/src/sexpr_eval.rs:2349-2373 [advance_typed: Call]. *)
Definition typed_call (m : PlanMachine) (tool : str) (arguments : list NamedArgument) : Outcome :=
  if calls_left (budget m) =? 0 then
    raise m (Msg "program exceeds the tool-call limit of {MAX_PROGRAM_CALLS}" [])
  else if negb (is_some (registry !! tool)) then raise m (Msg "tool '{tool}' does not exist" [AStr tool])
  else
    match build_typed_arguments (typed_definitions m) arguments (env m) [] with
    | Err e => raise m e
    | Ok (arguments', env') =>
        let b := budget m in
        let m1 := set_budget (set_env m env') (mkBudget (calls_left b - 1) (infers_left b) (programs_left b)) in
        let '(m2, n) := take_effect_sequence m1 in
        suspend m2 (PCall n tool arguments')
    end.

(** morphz/src/sexpr_eval.rs:2374-2423 [advance_typed: FunctionApplication]. *)
Definition typed_application (m : PlanMachine) (function : str) (arguments : list NamedArgument)
    (parameters : list str) (e : HirExpr) : Outcome :=
  let local_sources := argument_sources (binding_provenance m) arguments in
  match build_typed_arguments (typed_definitions m) arguments (env m) [] with
  | Err e => raise m e
  | Ok (values, env') =>
      let m1 := set_env m env' in
      let local := match env' !! s! "runtime" with
                   | Some runtime => {[s! "runtime" := runtime]}
                   | None => ∅
                   end in
      match link_arguments parameters values local with
      | Err parameter =>
          raise m1 (Msg "function '{function}' is missing linked argument '{parameter}'"
                      [AStr function; AStr parameter])
      | Ok ((unexpected, _) :: _, _) =>
          raise m1 (Msg "function '{function}' received unexpected linked argument '{unexpected}'"
                      [AStr function; AStr unexpected])
      | Ok ([], local') =>
          Continue (push (FTypedEval e)
                      (push (FRestoreScope env' (binding_provenance m1))
                         (set_sources (set_env m1 local') local_sources)))
      end
  end.

(** The request of an infer, morphz/src/sexpr_eval.rs:2454-2470. *)
Definition infer_request (source : str) (captured : JsonMap) (definitions : Definitions) : option JsonMap :=
  let request := [(s! "program", JString source)] in
  let request1 := match captured with [] => request | _ => bm_insert s! "captures" (JObject captured) request end in
  match definitions with
  | [] => Some request1
  | _ => (λ d, bm_insert s! "type_definitions" d request1) <$> definitions_to_value definitions
  end.

(** morphz/src/sexpr_eval.rs:2424-2497 [advance_typed: InferBody]. *)
Definition typed_infer (m : PlanMachine) (e : HirExpr) (captures : list str) (result : Ty) (source : str)
    (span : SourceSpan) : Outcome :=
  if infers_left (budget m) =? 0 then
    raise m (Msg "program exceeds the infer limit of {MAX_PROGRAM_INFERS}" [])
  else
    match capture_values captures (env m) [] with
    | Err name =>
        raise m (Msg "infer capture '{name}' is unavailable at the ownership boundary" [AStr name])
    | Ok captured =>
        match infer_request source captured (typed_definitions m) with
        | None => raise m (Msg "Yao type definitions cannot cross the infer boundary: {error}" [])
        | Some request =>
            let b := budget m in
            let m1 := set_budget m (mkBudget (calls_left b) (infers_left b - 1) (programs_left b)) in
            let kind := if is_ok (validate_json_type (typed_definitions m) result)
                        then JsonResult result (typed_definitions m) span
                        else YaoResult result (typed_definitions m) span in
            let '(m2, n) := take_effect_sequence m1 in
            suspend m2 (PInfer n request (Some (row_tools (heffects e))) kind)
        end
    end.

(** morphz/src/sexpr_eval.rs:2523-2537 [advance_typed: Par, per branch]: [checked_div(count).unwrap_or(0)]. *)
Definition share (left count : N) : N := if count =? 0 then 0 else left / count.

(** morphz/src/sexpr_eval.rs:2538-2549 [advance_typed: Par, the parent's budget]:
    [left.saturating_sub(share.saturating_mul(count))]. *)
Definition keep (left count : N) : N := left - N.min (share left count * count) usize_max.

(** The effect classes a budget counts, of a branch. *)
Definition branch_calls (b : ParBranch) : bool := existsb is_tool (heffects (pb_body b)).
Definition branch_infers (b : ParBranch) : bool := es_contains EInfer (heffects (pb_body b)).
Definition branch_programs (b : ParBranch) : bool := existsb is_program (heffects (pb_body b)).
(** morphz/src/sexpr_eval.rs:2499-2522 [advance_typed: Par, counts]. *)
Definition count (f : ParBranch → bool) (branches : list ParBranch) : N := len (filter f branches).

(** morphz/src/sexpr_eval.rs:2498-2590 [advance_typed: Par]. *)
Definition typed_par (m : PlanMachine) (branches : list ParBranch) : Outcome :=
  let b := budget m in
  let tools := count branch_calls branches in
  let infers := count branch_infers branches in
  let programs := count branch_programs branches in
  let m1 := set_budget m (mkBudget (keep (calls_left b) tools) (keep (infers_left b) infers)
                            (keep (programs_left b) programs)) in
  let children :=
    map (λ branch,
           typed_parallel_branch m1 (pb_name branch) (pb_body branch)
             (mkBudget (if branch_calls branch then share (calls_left b) tools else 0)
                (if branch_infers branch then share (infers_left b) infers else 0)
                (if branch_programs branch then share (programs_left b) programs else 0))) branches in
  let '(m2, n) := take_effect_sequence m1 in
  suspend m2 (PParallel n children).

(** morphz/src/sexpr_eval.rs:2591-2637 [advance_typed: Run]. *)
Definition typed_run (m : PlanMachine) (program : HirExpr) : Outcome :=
  if programs_left (budget m) =? 0 then
    raise m (Msg "Program Value nesting exceeds the limit of {MAX_PROGRAM_VALUE_NESTING}" [])
  else
    match evaluate_pure (typed_definitions m) program (env m) with
    | Err f => raise m (value_failure f)
    | Ok (v, env') =>
        let m1 := set_env m env' in
        match decode_program_value v with
        | Err e => raise m1 e
        | Ok value =>
            let b := mkBudget (calls_left (budget m1)) (infers_left (budget m1)) (programs_left (budget m1) - 1) in
            let m2 := set_budget m1 b in
            match machine_new (pv_program value) with
            | Err e => raise m2 e
            | Ok child =>
                match inherit_runtime (env m2) child with
                | Err e => raise m2 e
                | Ok child =>
                    let '(m3, n) := take_effect_sequence (set_budget m2 (mkBudget 0 0 0)) in
                    suspend m3 (PProgram n value (set_budget child b))
                end
            end
        end
    end.

(** morphz/src/sexpr_eval.rs:2638-2657 [advance_typed: Host]. *)
Definition typed_host (m : PlanMachine) (operation : str) (arguments : list NamedArgument) (ty : Ty)
    (span : SourceSpan) : Outcome :=
  match build_typed_arguments (typed_definitions m) arguments (env m) [] with
  | Err e => raise m e
  | Ok (arguments', env') =>
      let '(m1, n) := take_effect_sequence (set_env m env') in
      suspend m1 (PHost n operation arguments' (YaoResult ty (typed_definitions m) span))
  end.

(** morphz/src/sexpr_eval.rs:2177-2664 [advance_typed]. *)
Definition advance_typed (m : PlanMachine) (expression : HirExpr) : Outcome :=
  let 'Hir kind ty effects span := expression in
  if es_is_empty effects && negb (is_control kind) then typed_value m expression
  else
    match kind with
    | KSeq steps =>
        match steps with
        | [] => raise m (Msg "typed HIR seq must not be empty" [])
        | first :: _ => Continue (push (FTypedEval first) (push (FTypedSeq steps 1) m))
        end
    | KBind name value => Continue (push (FTypedEval value) (push (FTypedBind name) m))
    | KIf condition when_true when_false => typed_if m condition when_true when_false
    | KMatch value cases => typed_match m value cases
    | KFallback primary backup =>
        Continue (push (FTypedEval primary)
                    (push (FTypedFallbackPrimary backup (env m) (binding_provenance m)) m))
    | KMap collection element e => typed_map m collection element e
    | KCall tool arguments => typed_call m tool arguments
    | KFunctionApplication function arguments parameters e =>
        typed_application m function arguments parameters e
    | KInferBody e captures result source => typed_infer m e captures result source span
    | KPar branches => typed_par m branches
    | KRun program => typed_run m program
    | KHost operation arguments => typed_host m operation arguments ty span
    | _ => raise m (Msg "effectful marker appeared on a typed HIR node that cannot produce effects" [])
    end.

(** ** Persisted plans without types *)

(** morphz/src/sexpr_eval.rs:1873-1906 [advance: Map]. *)
Definition node_map (m : PlanMachine) (collection : PlanValue) (element : str) (e : PlanNode) : Outcome :=
  match resolve_value collection (env m) with
  | Ok (JArray items) =>
      if (length items <=? MAX_MAP_ELEMENTS)%nat then
        match items with
        | [] => Continue (yield_value m (JArray []))
        | item :: _ =>
            Continue (push (FEval e)
                        (push (FMapItem items 1 element e [] (env m)) (set_env m (<[element := item]> (env m)))))
        end
      else raise m (Msg "(map ...) collection has {} elements, exceeding the per-map limit of {MAX_MAP_ELEMENTS}; narrow it first"
                      [ANum (N.of_nat (length items))])
  | Ok other => raise m (Msg "(map ...) can iterate only an array; found {}" [AStr (type_name other)])
  | Err e => raise m e
  end.

(** morphz/src/sexpr_eval.rs:1907-1933 [advance: Call]. *)
Definition node_call (m : PlanMachine) (tool : str) (arguments : list PlanArgument) : Outcome :=
  if calls_left (budget m) =? 0 then
    raise m (Msg "program exceeds the tool-call limit of {MAX_PROGRAM_CALLS}" [])
  else
    match registry !! tool with
    | None => raise m (Msg "tool '{tool}' does not exist" [AStr tool])
    | Some runtime_tool =>
        match build_arguments arguments (env m) (tool_parameters runtime_tool) [] with
        | Err e => raise m e
        | Ok None => Panic
        | Ok (Some arguments') =>
            let b := budget m in
            let m1 := set_budget m (mkBudget (calls_left b - 1) (infers_left b) (programs_left b)) in
            let '(m2, n) := take_effect_sequence m1 in
            suspend m2 (PCall n tool arguments')
        end
    end.

(** morphz/src/sexpr_eval.rs:1819-1934 [advance: Eval]. *)
Definition advance_node (m : PlanMachine) (node : PlanNode) : Outcome :=
  match node with
  | NTyped program => Continue (push (FTypedEval (body program)) (set_definitions m (types program)))
  | NValue value =>
      match resolve_value value (env m) with
      | Ok v => Continue (yield_value m v)
      | Err e => raise m e
      end
  | NSeq steps =>
      match steps with
      | [] => raise m (Msg "seq in Plan IR must not be empty; validator failed to preserve the boundary" [])
      | first :: _ => Continue (push (FEval first) (push (FSeq steps 1) m))
      end
  | NBind name value => Continue (push (FEval value) (push (FBind name) m))
  | NIf condition when_true when_false =>
      match resolve_value condition (env m) with
      | Ok c => Continue (push (FEval (if truthy c then when_true else when_false))
                            (push (FRestoreScope (env m) (binding_provenance m)) m))
      | Err e => raise m e
      end
  | NFallback primary backup => Continue (push (FEval primary) (push (FFallbackPrimary backup (env m)) m))
  | NMap collection element e => node_map m collection element e
  | NCall tool arguments => node_call m tool arguments
  end.

(** ** The loop *)

(** A continuation that needs the signal of its sub-expression: [self.signal.take()]. *)
Definition on_signal (m : PlanMachine) (missing : string) (k : PlanMachine → MachineSignal → Outcome)
    : Outcome :=
  match signal m with
  | None => fail_internal m missing
  | Some s => k (set_signal m None) s
  end.

(** morphz/src/sexpr_eval.rs:2060-2080 [advance: Seq, TypedSeq]: [again] is the frame
    of the remaining steps. *)
Definition on_sequence {A} (steps : list A) (next : nat) (frame : A → MachineFrame)
    (again : MachineFrame) (m : PlanMachine) (s : MachineSignal) : Outcome :=
  match s with
  | SFailure _ => Continue (set_signal m (Some s))
  | SValue _ =>
      match steps !! next with
      | None => Continue (set_signal m (Some s))
      | Some step => Continue (push (frame step) (push again m))
      end
  end.

(** morphz/src/sexpr_eval.rs:1981-1996 [advance: Bind]. *)
Definition on_bind (name : str) (m : PlanMachine) (s : MachineSignal) : Outcome :=
  match s with
  | SValue value => Continue (yield_value (set_env m (<[name := value]> (env m))) JNull)
  | SFailure _ => Continue (set_signal m (Some s))
  end.

(** morphz/src/sexpr_eval.rs:2007-2022 [advance: FallbackPrimary]. *)
Definition on_fallback (backup : PlanNode) (saved : Env) (m : PlanMachine) (s : MachineSignal) : Outcome :=
  let m1 := set_env m saved in
  match s with
  | SValue _ => Continue (set_signal m1 (Some s))
  | SFailure _ => Continue (push (FEval backup) (push (FRestoreScope saved (binding_provenance m1)) m1))
  end.

(** morphz/src/sexpr_eval.rs:2023-2059 [advance: MapItem]. *)
Definition on_map_item (items : list Json) (next : nat) (element : str) (e : PlanNode)
    (results : list Json) (saved : Env) (m : PlanMachine) (s : MachineSignal) : Outcome :=
  let m1 := set_env m saved in
  match s with
  | SFailure _ => Continue (set_signal m1 (Some s))
  | SValue value =>
      match items !! next with
      | None => Continue (yield_value m1 (JArray (results ++ [value])))
      | Some item =>
          Continue (push (FEval e)
                      (push (FMapItem items (S next) element e (results ++ [value]) saved)
                         (set_env m1 (<[element := item]> saved))))
      end
  end.

(** morphz/src/sexpr_eval.rs:2081-2103 [advance: TypedBind]. *)
Definition on_typed_bind (name : str) (m : PlanMachine) (s : MachineSignal) : Outcome :=
  match s with
  | SFailure _ => Continue (set_signal m (Some s))
  | SValue value =>
      let m1 := set_env m (<[name := value]> (env m)) in
      if is_some (env m !! name) then
        raise m1 (Msg "typed binding '{name}' attempted to shadow an existing binding" [AStr name])
      else
        let m2 := match value_provenance m1 with
                  | Some source => set_source (set_sources m1 (<[name := source]> (binding_provenance m1))) None
                  | None => m1
                  end in
        Continue (yield_value m2 JNull)
  end.

(** morphz/src/sexpr_eval.rs:2104-2126 [advance: TypedFallbackPrimary]. *)
Definition on_typed_fallback (backup : HirExpr) (saved : Env) (sources : Sources) (m : PlanMachine)
    (s : MachineSignal) : Outcome :=
  let m1 := set_sources (set_env m saved) sources in
  match s with
  | SValue _ => Continue (set_signal m1 (Some s))
  | SFailure _ =>
      Continue (push (FTypedEval backup) (push (FRestoreScope saved sources) (set_source m1 None)))
  end.

(** morphz/src/sexpr_eval.rs:2127-2169 [advance: TypedMapItem]. *)
Definition on_typed_map_item (items : list Json) (next : nat) (element : str) (e : HirExpr)
    (results : list Json) (saved : Env) (sources : Sources) (m : PlanMachine) (s : MachineSignal) : Outcome :=
  let m1 := set_sources (set_env m saved) sources in
  match s with
  | SFailure _ => Continue (set_signal m1 (Some s))
  | SValue value =>
      let m2 := set_source m1 None in
      match items !! next with
      | None => Continue (yield_value m2 (JArray (results ++ [value])))
      | Some item =>
          Continue (push (FTypedEval e)
                      (push (FTypedMapItem items (S next) element e (results ++ [value]) saved sources)
                         (set_sources (set_env m2 (<[element := item]> saved)) (delete element sources))))
      end
  end.

(** A frame that starts an expression, which must not follow a signal. *)
Definition on_start (m : PlanMachine) (template : string) (k : PlanMachine → Outcome) : Outcome :=
  match signal m with
  | Some _ => fail_internal m template
  | None => k m
  end.

(** One popped frame of morphz/src/sexpr_eval.rs:1813-2170 [advance, the match on the frame]. *)
Definition resume_frame (m : PlanMachine) (f : MachineFrame) : Outcome :=
  match f with
  | FEval node =>
      on_start m "Plan Machine attempted to evaluate a new node after producing a result"
        (λ m, advance_node m node)
  | FTypedEval e =>
      on_start m "Plan Machine attempted to evaluate typed HIR after producing a result"
        (λ m, advance_typed m e)
  | FTypedModelRoot e =>
      on_start m "Plan Machine attempted to enter a model-owned root after producing a result"
        (λ m, advance_typed m (Hir (hkind e) (hty e) (es_insert EInfer (heffects e)) (hspan e)))
  | FSeq steps next =>
      on_signal m "seq continuation is missing the previous step result"
        (on_sequence steps next FEval (FSeq steps (S next)))
  | FBind name => on_signal m "bind continuation is missing the bound value" (on_bind name)
  | FRestoreScope saved sources =>
      on_signal m "local scope ended without a result"
        (λ m s, Continue (set_signal (set_sources (set_env m saved) sources) (Some s)))
  | FFallbackPrimary backup saved =>
      on_signal m "fallback primary is missing its result" (on_fallback backup saved)
  | FMapItem items next element e results saved =>
      on_signal m "map body is missing its result" (on_map_item items next element e results saved)
  | FTypedSeq steps next =>
      on_signal m "typed seq continuation is missing the previous step result"
        (on_sequence steps next FTypedEval (FTypedSeq steps (S next)))
  | FTypedBind name => on_signal m "typed bind continuation is missing the bound value" (on_typed_bind name)
  | FTypedFallbackPrimary backup saved sources =>
      on_signal m "typed fallback primary is missing its result" (on_typed_fallback backup saved sources)
  | FTypedMapItem items next element e results saved sources =>
      on_signal m "typed map body is missing its result"
        (on_typed_map_item items next element e results saved sources)
  end.

(** One iteration of the loop of morphz/src/sexpr_eval.rs:1799-2172 [advance]. *)
Definition step (m : PlanMachine) : Outcome :=
  match frames m with
  | [] =>
      let t := match signal m with
               | Some (SValue value) => TComplete value
               | Some (SFailure message) => TFailed message
               | None => TFailed (Msg "Plan Machine has neither a pending frame nor a result" [])
               end in
      Return (set_terminal (set_signal m None) (Some t)) (advance_of_terminal t)
  | f :: rest => resume_frame (set_frames m rest) f
  end.

(** At most [p] iterations. *)
Fixpoint iterate (p : positive) (m : PlanMachine) : Outcome :=
  match p with
  | xH => step m
  | xO q => match iterate q m with Continue m' => iterate q m' | o => o end
  | xI q => match step m with
            | Continue m' => match iterate q m' with Continue m'' => iterate q m'' | o => o end
            | o => o
            end
  end.

(** ** A bound on the iterations *)

(** The iterations an expression can take: its own, those of its control sub-expressions, and
    for a [map] those of its body for each admissible element.  The branches of a [par] run on
    machines of their own, which weigh less than their parent. *)
Fixpoint weight (e : HirExpr) : N :=
  let 'Hir kind _ _ _ := e in
  match kind with
  | KSeq steps => 2 + foldr (λ s n, weight s + 1 + n) 0 steps
  | KBind _ value => 2 + weight value
  | KIf _ a b => 2 + N.max (weight a) (weight b)
  | KMatch _ cases =>
      2 + foldr (λ c n, let 'mkMatchCase _ _ b _ := c in N.max (weight b) n) 0 cases
  | KFallback a b => 4 + weight a + weight b
  | KMap _ _ b => 2 + N.of_nat MAX_MAP_ELEMENTS * (weight b + 1)
  | KFunctionApplication _ _ _ b => 2 + weight b
  | KPar branches => 1 + foldr (λ b n, let 'mkParBranch _ e _ := b in weight e + n) 0 branches
  | _ => 1
  end.

Fixpoint node_weight (n : PlanNode) : N :=
  match n with
  | NTyped p => 1 + weight (body p)
  | NSeq steps => 2 + foldr (λ s n, node_weight s + 1 + n) 0 steps
  | NBind _ value => 2 + node_weight value
  | NIf _ a b => 2 + N.max (node_weight a) (node_weight b)
  | NFallback a b => 4 + node_weight a + node_weight b
  | NMap _ _ b => 2 + N.of_nat MAX_MAP_ELEMENTS * (node_weight b + 1)
  | NValue _ | NCall _ _ => 1
  end.

Definition frame_weight (f : MachineFrame) : N :=
  match f with
  | FEval n => node_weight n
  | FTypedEval e | FTypedModelRoot e => weight e
  | FSeq steps next => 1 + foldr (λ s n, node_weight s + 1 + n) 0 (drop next steps)
  | FTypedSeq steps next => 1 + foldr (λ s n, weight s + 1 + n) 0 (drop next steps)
  | FBind _ | FTypedBind _ | FRestoreScope _ _ => 1
  | FFallbackPrimary b _ => 2 + node_weight b
  | FTypedFallbackPrimary b _ _ => 2 + weight b
  | FMapItem items next _ b _ _ => 1 + len (drop next items) * (node_weight b + 1)
  | FTypedMapItem items next _ b _ _ _ => 1 + len (drop next items) * (weight b + 1)
  end.

Definition machine_weight (m : PlanMachine) : N := foldr (λ f n, frame_weight f + n) 0 (frames m).

(** morphz/src/sexpr_eval.rs:1791-2172 [PlanMachine::advance]. *)
Definition advance_machine (m : PlanMachine) : Outcome :=
  match terminal m with
  | Some t => Return m (advance_of_terminal t)
  | None =>
      match pending m with
      | Some effect => Return m (Suspended effect)
      | None => iterate (N.succ_pos (machine_weight m)) m
      end
  end.

(** morphz/src/sexpr_eval.rs:2668-2695 [resume_effect]. *)
Definition resume_effect (m : PlanMachine) (n : N) (outcome : result Message Json)
    : result Message PlanMachine :=
  match pending m with
  | None => Err (Msg "Plan Machine is not waiting for an effect" [])
  | Some effect =>
      if negb (sequence effect =? n) then
        Err (Msg "Plan effect sequence mismatch: expected {}, received {sequence}" [ANum (sequence effect); ANum n])
      else
        let source := match outcome, effect with
                      | Ok _, PInfer _ _ _ _ => Some (mkSource n [])
                      | _, _ => None
                      end in
        let s := match outcome with
                 | Ok value => SValue value
                 | Err message => SFailure (effect_failure effect message)
                 end in
        Ok (set_signal (set_source (set_pending m None) source) (Some s))
  end.
End machine.
