(* ===== verification/PlanFacts.v ===== *)
(** * The plan machine returns, numbers its effects and keeps its budget

    [advance_machine] always returns, and returns the same again until it is resumed; a machine
    suspends finitely often, under consecutive sequence numbers; and whatever a machine and
    all its children do, they never spend more than the budget the machine started with. *)

From stdpp Require Import base list gmap strings relations.
From Stdlib Require Import NArith ZArith Lia.
From S2P Require Import Prelude Types JsonValue Diagnostic Hir Decode JsonBoundary Eval Text Plan PlanSteps.

Local Open Scope N_scope.

(** ** Termination *)

Lemma weight_pos e : 1 <= weight e.
Proof. destruct e as [[] ? ? ?]; simpl; lia. Qed.

Lemma node_weight_pos n : 1 <= node_weight n.
Proof. destruct n; simpl; lia. Qed.

Lemma frame_weight_pos f : 1 <= frame_weight f.
Proof.
  destruct f; simpl; try lia; try apply weight_pos; apply node_weight_pos.
Qed.

Definition steps_weight (l : list HirExpr) : N := foldr (λ s n, weight s + 1 + n) 0 l.
Definition nodes_weight (l : list PlanNode) : N := foldr (λ s n, node_weight s + 1 + n) 0 l.
Definition cases_weight (l : list MatchCase) : N := foldr (λ c n, N.max (weight (mc_body c)) n) 0 l.

Lemma weight_seq l t ef sp : weight (Hir (KSeq l) t ef sp) = 2 + steps_weight l.
Proof. done. Qed.
Lemma node_weight_seq l : node_weight (NSeq l) = 2 + nodes_weight l.
Proof. done. Qed.
Lemma weight_match v l t ef sp : weight (Hir (KMatch v l) t ef sp) = 2 + cases_weight l.
Proof. simpl. f_equal. induction l as [|[] l IH]; [done|]. simpl. by rewrite IH. Qed.

Lemma cases_weight_elem cs c : c ∈ cs → weight (mc_body c) <= cases_weight cs.
Proof.
  induction cs as [|d cs IH]; [by intros ?%elem_of_nil|]. intros [->|Hc]%elem_of_cons; simpl; [lia|].
  specialize (IH Hc). lia.
Qed.

Lemma steps_weight_at l i x :
  l !! i = Some x → steps_weight (drop i l) = weight x + 1 + steps_weight (drop (S i) l).
Proof. intros Hi. by rewrite (drop_S _ _ _ Hi). Qed.
Lemma nodes_weight_at l i x :
  l !! i = Some x → nodes_weight (drop i l) = node_weight x + 1 + nodes_weight (drop (S i) l).
Proof. intros Hi. by rewrite (drop_S _ _ _ Hi). Qed.

(** ** Budgets *)

Definition budget_add (a b : PlanBudget) : PlanBudget :=
  mkBudget (calls_left a + calls_left b) (infers_left a + infers_left b) (programs_left a + programs_left b).
Definition budget_zero : PlanBudget := mkBudget 0 0 0.
Definition budget_le (a b : PlanBudget) : Prop :=
  calls_left a <= calls_left b ∧ infers_left a <= infers_left b ∧ programs_left a <= programs_left b.

(** A budget of machine integers. *)
Definition budget_ok (b : PlanBudget) : Prop := budget_le b (mkBudget usize_max usize_max usize_max).

#[export] Instance budget_le_po : PreOrder budget_le.
Proof. split; [intros a|intros a b c]; unfold budget_le; lia. Qed.

Lemma budget_ok_le a b : budget_le a b → budget_ok b → budget_ok a.
Proof. unfold budget_ok. intros. by etrans. Qed.

Definition branches_budget (bs : list PlanParallelBranch) : PlanBudget :=
  foldr (λ b total, budget_add (budget (br_machine b)) total) budget_zero bs.

(** What an effect takes from the budget: itself, or what it hands to its children. *)
Definition effect_cost (e : PlanEffect) : PlanBudget :=
  match e with
  | PCall _ _ _ => mkBudget 1 0 0
  | PInfer _ _ _ _ => mkBudget 0 1 0
  | PHost _ _ _ _ => budget_zero
  | PParallel _ bs => branches_budget bs
  | PProgram _ _ child => budget_add (mkBudget 0 0 1) (budget child)
  end.

(** Every argument of a call has a value, as in every plan that was lowered from source. *)
Fixpoint valued (n : PlanNode) : bool :=
  match n with
  | NCall _ args => forallb (λ a, negb (bool_decide (pa_values a = []))) args
  | NSeq steps => forallb valued steps
  | NBind _ a | NMap _ _ a => valued a
  | NIf _ a b | NFallback a b => valued a && valued b
  | NTyped _ | NValue _ => true
  end.
Definition frame_valued (f : MachineFrame) : bool :=
  match f with
  | FEval n | FFallbackPrimary n _ | FMapItem _ _ _ n _ _ => valued n
  | FSeq steps _ => forallb valued steps
  | _ => true
  end.
Definition machine_valued (m : PlanMachine) : bool := forallb frame_valued (frames m).

(** A machine that has not returned yet, and effects whose children are such machines; those
    of a [par] weigh less than [bound]. *)
Definition running (m : PlanMachine) : Prop := terminal m = None ∧ pending m = None.
Definition children_run (bound : N) (e : PlanEffect) : Prop :=
  match e with
  | PParallel _ bs =>
      Forall (λ b, running (br_machine b) ∧ machine_valued (br_machine b) = true ∧
                   machine_weight (br_machine b) < bound) bs
  | PProgram _ _ child => running child ∧ machine_valued child = true
  | _ => True
  end.

Lemma children_run_mono a b e : a <= b → children_run a e → children_run b e.
Proof.
  intros Hab. destruct e; try done. simpl. intros Hall. eapply Forall_impl; [exact Hall|].
  intros br (Hr & Hv & Hw). split_and!; [done..|lia].
Qed.

Definition branches_weight (l : list ParBranch) : N := foldr (λ b n, weight (pb_body b) + n) 0 l.
Lemma weight_par l t ef sp : weight (Hir (KPar l) t ef sp) = 1 + branches_weight l.
Proof. simpl. f_equal. induction l as [|[] l IH]; [done|]. simpl. by rewrite IH. Qed.
Lemma branches_weight_elem l b : b ∈ l → weight (pb_body b) <= branches_weight l.
Proof.
  induction l as [|c l IH]; [by intros ?%elem_of_nil|]. intros [->|Hc]%elem_of_cons; simpl; [lia|].
  specialize (IH Hc). lia.
Qed.

(** What an iteration does to a machine whose popped frame weighs [w]. *)
Definition evolves (w : N) (m : PlanMachine) (o : Outcome) : Prop :=
  match o with
  | Continue m' =>
      machine_weight m' < w + machine_weight m ∧ budget_le (budget m') (budget m) ∧
      next_effect_sequence m' = next_effect_sequence m ∧ pending m' = pending m ∧ terminal m' = terminal m
  | Return m' a =>
      (∃ e, a = Suspended e ∧ pending m' = Some e ∧ terminal m' = terminal m ∧
         machine_weight m' < w + machine_weight m ∧ sequence e = next_effect_sequence m ∧
         next_effect_sequence m' = N.min (next_effect_sequence m + 1) (2 ^ 64 - 1) ∧
         (budget_ok (budget m) → budget_le (budget_add (effect_cost e) (budget m')) (budget m)) ∧
         children_run (w + machine_weight m) e) ∨
      (∃ t, a = advance_of_terminal t ∧ terminal m' = Some t)
  | Panic => True
  end.

(** The shares of the branches fit in what the parent gives up. *)
Lemma shares_fit (f : ParBranch → bool) left bs :
  left <= usize_max →
  foldr (λ b n, (if f b then share left (count f bs) else 0) + n) 0 bs + keep left (count f bs) <= left.
Proof.
  intros Hl. unfold keep. assert (∀ s, foldr (λ b n, (if f b then s else 0) + n) 0 bs = s * count f bs) as Hsum.
  { intros s. unfold count, len. induction bs as [|b bs IH]; cbn [foldr]; [simpl; lia|].
    rewrite filter_cons. destruct (f b); cbn -[N.mul N.add N.of_nat]; rewrite IH;
      [rewrite decide_True by done|rewrite decide_False by tauto]; cbn [length]; lia. }
  rewrite Hsum. assert (share left (count f bs) * count f bs <= left).
  { unfold share. destruct (N.eqb_spec (count f bs) 0); [lia|]. rewrite N.mul_comm. by apply N.Div0.mul_div_le. }
  lia.
Qed.

Section facts.
Context `{Digest} `{PlanCodec} (program_hash : Program → str) (registry : Registry).
Local Abbreviation step := (step program_hash registry).
Local Abbreviation iterate := (iterate program_hash registry).
Local Abbreviation advance_machine := (advance_machine program_hash registry).
Local Abbreviation advance_typed := (advance_typed program_hash registry).

(** Closes the goal of a branch whose outcome is known. *)
Ltac evolve :=
  unfold raise, suspend, yield_value, take_effect_sequence, evolves, machine_weight in *;
  cbn -[weight node_weight N.add N.mul N.max N.sub N.pow N.min len] in *;
  first
    [ split_and!; [lia|unfold budget_le; cbn; lia|done..]
    | left; eexists; split_and!;
      [done|done|done|lia|done|done|
       unfold budget_ok, budget_le; cbn -[N.add N.sub usize_max]; lia|done] ].

Lemma machine_new_running p m : machine_new p = Ok m → running m ∧ budget m = mkBudget 128 8 4.
Proof.
  unfold machine_new. intros (fs & _ & [= <-])%bind_Ok. done.
Qed.

Lemma machine_new_valued p typed m :
  typed_program p = Some typed → machine_new p = Ok m → machine_valued m = true.
Proof.
  unfold typed_program, machine_new. destruct (pp_root p); try done. intros _ (fs & Hf & [= <-])%bind_Ok.
  unfold machine_valued. simpl. destruct (pp_owner p); [by injection Hf as <-|].
  destruct (hkind _); try done. by injection Hf as <-.
Qed.

Lemma inherit_running p child env' child' :
  machine_new p = Ok child → inherit_runtime env' child = Ok child' →
  running child' ∧ (machine_valued child = true → machine_valued child' = true).
Proof.
  intros [[Ht Hp] _]%machine_new_running. unfold inherit_runtime, bind_runtime_environment.
  destruct (env' !! _); [|by intros [= <-]]. destruct (is_some _); [done|].
  intros (v & _ & [= <-])%bind_Ok. done.
Qed.

Lemma decode_program_typed v value :
  decode_program_value program_hash v = Ok value → ∃ typed, typed_program (pv_program value) = Some typed.
Proof.
  unfold decode_program_value. intros (tag & _ & Hd)%bind_Ok. destruct (negb _); [done|].
  apply bind_Ok in Hd as (hash & _ & Hd). apply bind_Ok in Hd as (r & _ & Hd).
  apply bind_Ok in Hd as (a & _ & Hd). apply bind_Ok in Hd as (typed & Ht & Hd).
  destruct (_ || _); [done|]. injection Hd as <-. exists typed. by destruct (typed_program _); simplify_eq/=.
Qed.

Lemma inherit_budget caller child child' :
  inherit_runtime caller child = Ok child' → budget child' = budget child.
Proof.
  unfold inherit_runtime, bind_runtime_environment. destruct (caller !! _); [|by intros [= <-]].
  destruct (is_some _); [done|]. by intros (v & _ & [= <-])%bind_Ok.
Qed.

Lemma advance_typed_evolves m e : evolves (weight e) m (advance_typed m e).
Proof.
  pose proof (weight_pos e) as Hpos. destruct e as [k t ef sp]. unfold PlanSteps.advance_typed.
  destruct (es_is_empty ef && negb (is_control k)).
  { unfold typed_value. destruct (evaluate_pure _ _ _) as [[]|]; evolve. }
  destruct k; try evolve;
    unfold typed_if, typed_match, typed_map, typed_call, typed_application, typed_infer, typed_run, typed_host.
  - rewrite weight_seq. destruct steps; [evolve|]. unfold steps_weight. cbn [foldr].
    unfold evolves, machine_weight. cbn -[weight N.add]. rewrite drop_0. split_and!; [lia|done..].
  - change (weight (Hir (KBind _ _) _ _ _)) with (2 + weight value). evolve.
  - change (weight (Hir (KIf _ _ _) _ _ _)) with (2 + N.max (weight when_true) (weight when_false)).
    destruct (evaluate_pure _ _ _) as [[[] ?]|]; try evolve. destruct b; evolve.
  - rewrite weight_match in *. destruct (evaluate_pure _ _ _) as [[v env']|]; [|evolve].
    destruct (variant_parts v) as [[variant fields]|]; [|evolve].
    destruct (List.find _ _) as [c|] eqn:Hf; [|evolve].
    apply find_some in Hf as [Hf%list_elem_of_In _]. apply cases_weight_elem in Hf.
    destruct (bind_case _ _ _ _ _) as [[env2 sources2] []]; evolve.
  - change (weight (Hir (KFallback _ _) _ _ _)) with (4 + weight primary + weight backup). evolve.
  - destruct (evaluate_pure _ _ _) as [[[| | | |items|] ?]|]; try evolve.
    destruct (_ <=? _)%nat eqn:Hl; [|evolve]. apply Nat.leb_le in Hl. unfold MAX_MAP_ELEMENTS in Hl.
    destruct items as [|item items]; [evolve|]. simpl in Hl. unfold evolves, machine_weight.
    cbn -[weight len N.add N.mul]. rewrite drop_0.
    change (weight (Hir (KMap _ _ _) _ _ _)) with (2 + 64 * (weight body + 1)).
    split_and!; [|done..]. unfold len.
    cut (N.of_nat (length items) * (weight body + 1) <= 63 * (weight body + 1)); [lia|].
    apply N.mul_le_mono_r. lia.
  - destruct (N.eqb_spec (calls_left (budget m)) 0); [evolve|]. destruct (negb _); [evolve|].
    destruct (build_typed_arguments _ _ _ _) as [[]|]; evolve.
  - change (weight (Hir (KFunctionApplication _ _ _ _) _ _ _)) with (2 + weight body).
    destruct (build_typed_arguments _ _ _ _) as [[]|]; [|evolve].
    destruct (link_arguments _ _ _) as [[[|[]] ?]|]; evolve.
  - destruct (N.eqb_spec (infers_left (budget m)) 0); [evolve|]. destruct (capture_values _ _ _) as [|]; [|evolve].
    destruct (infer_request _ _ _); evolve.
  - unfold typed_par, suspend, evolves. left. eexists. split_and!; try done; [unfold machine_weight in *; simpl in *; lia| |].
    2: { apply Forall_forall. intros b (br & -> & Hb%branches_weight_elem)%list_elem_of_fmap.
         split_and!; [done..|]. rewrite weight_par. unfold machine_weight. simpl. lia. }
    intros (Hc & Hi & Hp).
    simpl in Hc, Hi, Hp. pose proof (shares_fit branch_calls _ branches Hc) as Hc'.
    pose proof (shares_fit branch_infers _ branches Hi) as Hi'.
    pose proof (shares_fit branch_programs _ branches Hp) as Hp'.
    assert (∀ (c i p : ParBranch → N) f,
      (∀ b, budget (br_machine (f b)) = mkBudget (c b) (i b) (p b)) →
      branches_budget (map f branches)
      = mkBudget (foldr (λ b n, c b + n) 0 branches) (foldr (λ b n, i b + n) 0 branches)
          (foldr (λ b n, p b + n) 0 branches)) as Hmap.
    { intros c i p f Hf. clear -Hf. induction branches as [|b bs IH]; [done|]. simpl. rewrite IH, Hf. done. }
    cbn [effect_cost]. erewrite Hmap by (intros; reflexivity). unfold budget_le, budget_add. simpl. lia.
  - destruct (N.eqb_spec (programs_left (budget m)) 0); [evolve|]. destruct (evaluate_pure _ _ _) as [[]|]; [|evolve].
    destruct (decode_program_value _ _) as [value|] eqn:Hdv; [|evolve].
    apply decode_program_typed in Hdv as [typed Htyped].
    destruct (machine_new (pv_program value)) as [child|] eqn:Hc; [|evolve].
    pose proof (machine_new_valued _ _ _ Htyped Hc) as Hval.
    pose proof (inherit_running (pv_program value) child) as Hrun.
    destruct (inherit_runtime _ _) as [child'|] eqn:Hi; [|evolve].
    destruct (Hrun _ _ Hc Hi) as [Hr Hv]. specialize (Hv Hval). evolve.
  - destruct (build_typed_arguments _ _ _ _) as [[]|]; evolve.
Qed.

Lemma advance_node_evolves m n : evolves (node_weight n) m (advance_node registry m n).
Proof.
  pose proof (node_weight_pos n) as Hpos. destruct n; unfold advance_node, node_map, node_call.
  - change (node_weight (NTyped program)) with (1 + weight (body program)). evolve.
  - destruct (resolve_value _ _); evolve.
  - rewrite node_weight_seq. destruct steps; [evolve|]. unfold nodes_weight. cbn [foldr].
    unfold evolves, machine_weight. cbn -[node_weight N.add]. rewrite drop_0. split_and!; [lia|done..].
  - change (node_weight (NBind _ n)) with (2 + node_weight n). evolve.
  - change (node_weight (NIf _ n1 n2)) with (2 + N.max (node_weight n1) (node_weight n2)).
    destruct (resolve_value _ _); [|evolve]. destruct (truthy _); evolve.
  - change (node_weight (NFallback n1 n2)) with (4 + node_weight n1 + node_weight n2). evolve.
  - destruct (resolve_value _ _) as [[| | | |items|]|]; try evolve.
    destruct (_ <=? _)%nat eqn:Hl; [|evolve]. apply Nat.leb_le in Hl. unfold MAX_MAP_ELEMENTS in Hl.
    destruct items as [|item items]; [evolve|]. simpl in Hl. unfold evolves, machine_weight.
    cbn -[node_weight len N.add N.mul]. rewrite drop_0.
    change (node_weight (NMap _ _ n)) with (2 + 64 * (node_weight n + 1)).
    split_and!; [|done..]. unfold len.
    cut (N.of_nat (length items) * (node_weight n + 1) <= 63 * (node_weight n + 1)); [lia|].
    apply N.mul_le_mono_r. lia.
  - destruct (N.eqb_spec (calls_left (budget m)) 0); [evolve|]. destruct (registry !! tool); [|evolve].
    destruct (build_arguments _ _ _ _) as [[]|]; [evolve|done|evolve].
Qed.

Lemma fail_internal_evolves w m s : evolves w m (fail_internal m s).
Proof. right. by eexists. Qed.

Lemma len_drop_at {A} (l : list A) i x : l !! i = Some x → len (drop i l) = len (drop (S i) l) + 1.
Proof. intros Hi. rewrite (drop_S _ _ _ Hi). unfold len. cbn [length]. lia. Qed.

Lemma resume_frame_evolves m f : evolves (frame_weight f) m (resume_frame program_hash registry m f).
Proof.
  pose proof (frame_weight_pos f) as Hpos.
  destruct f; unfold resume_frame, on_start, on_signal; destruct (signal m) as [[v|msg]|] eqn:Hs;
    try apply fail_internal_evolves; try apply advance_node_evolves;
    unfold on_sequence, on_bind, on_typed_bind, on_fallback, on_typed_fallback, on_map_item, on_typed_map_item;
    try evolve.
  - destruct (steps !! next) as [n|] eqn:Hn; [|evolve]. apply nodes_weight_at in Hn.
    unfold nodes_weight in Hn. evolve.
  - destruct (items !! next) as [x|] eqn:Hn; [|evolve]. apply len_drop_at in Hn. unfold evolves, machine_weight.
    cbn -[node_weight len N.add N.mul drop]. split_and!; [nia|done..].
  - apply advance_typed_evolves.
  - destruct expression as [k t ef sp]. exact (advance_typed_evolves m (Hir k t (es_insert EInfer ef) sp)).
  - destruct (steps !! next) as [n|] eqn:Hn; [|evolve]. apply steps_weight_at in Hn.
    unfold steps_weight in Hn. evolve.
  - cbn [env set_signal]. destruct (is_some _); [evolve|]. cbn. destruct (value_provenance m); evolve.
  - destruct (items !! next) as [x|] eqn:Hn; [|evolve]. apply len_drop_at in Hn. unfold evolves, machine_weight.
    cbn -[weight len N.add N.mul drop]. split_and!; [nia|done..].
Qed.

Lemma step_evolves m : evolves 0 m (step m).
Proof.
  unfold PlanSteps.step. destruct (frames m) as [|f fs] eqn:Hf; [right; by eexists|].
  pose proof (resume_frame_evolves (set_frames m fs) f) as He. unfold evolves in *.
  assert (machine_weight m = frame_weight f + machine_weight (set_frames m fs)) as ->
    by (unfold machine_weight; by rewrite Hf).
  pose proof (frame_weight_pos f).
  destruct (resume_frame _ _ _ _) as [m'|m' a|]; exact He.
Qed.

(** The iterations from a machine, and the one that ended them. *)
Definition continues (m m' : PlanMachine) : Prop := step m = Continue m'.

Lemma iterate_reaches p m :
  ∃ m0, rtc continues m m0 ∧ match iterate p m with Continue m' => m0 = m' | o => step m0 = o end.
Proof.
  revert m. induction p as [p IH|p IH|]; intros m; simpl.
  - destruct (step m) as [m1|m1 a|] eqn:Hs; [|by exists m..].
    destruct (IH m1) as (m2 & Hr & Hm). assert (rtc continues m m2) as Hr' by (by eapply rtc_l).
    destruct (iterate p m1) as [m3|m3 a|]; [|by exists m2..]. subst m2.
    destruct (IH m3) as (m4 & Hr4 & Hm4). exists m4. split; [by etrans|]. destruct (iterate p m3); done.
  - destruct (IH m) as (m2 & Hr & Hm).
    destruct (iterate p m) as [m3|m3 a|]; [|by exists m2..]. subst m2.
    destruct (IH m3) as (m4 & Hr4 & Hm4). exists m4. split; [by etrans|]. destruct (iterate p m3); done.
  - destruct (step m) as [m1|m1 a|] eqn:Hs; [|by exists m..]. exists m1. split; [by apply rtc_once|done].
Qed.

Lemma iterate_weight p m m' :
  iterate p m = Continue m' → machine_weight m' + N.pos p <= machine_weight m.
Proof.
  revert m m'. induction p as [p IH|p IH|]; intros m m'; simpl.
  - pose proof (step_evolves m) as He. destruct (step m) as [m1|m1 a|]; try done.
    destruct (iterate p m1) as [m2|m2 a|] eqn:H1; try done. intros H2. apply IH in H1, H2.
    destruct He as [He _]. lia.
  - destruct (iterate p m) as [m2|m2 a|] eqn:H1; try done. intros H2. apply IH in H1, H2. lia.
  - pose proof (step_evolves m) as He. intros Hs. rewrite Hs in He. destruct He as [He _]. lia.
Qed.

(** What holds along the iterations of a machine that is running. *)
Lemma continues_evolves m m' :
  rtc continues m m' →
  machine_weight m' <= machine_weight m ∧ budget_le (budget m') (budget m) ∧
  next_effect_sequence m' = next_effect_sequence m ∧ pending m' = pending m ∧ terminal m' = terminal m.
Proof.
  induction 1 as [m|m1 m2 m3 Hs _ (IHw & IHb & IHn & IHp & IHt)]; [split_and!; try done; lia|].
  pose proof (step_evolves m1) as He. unfold continues in Hs. rewrite Hs in He.
  destruct He as (Hw & Hb & Hn & Hp & Ht). split_and!; [lia|by etrans|congruence..].
Qed.

(** The result of a running machine. *)
Lemma advance_running m :
  running m →
  match advance_machine m with
  | Continue _ => False
  | Return m' a =>
      (∃ e, a = Suspended e ∧ pending m' = Some e ∧ terminal m' = None ∧
         machine_weight m' < machine_weight m ∧ sequence e = next_effect_sequence m ∧
         next_effect_sequence m' = N.min (next_effect_sequence m + 1) (2 ^ 64 - 1) ∧
         (budget_ok (budget m) → budget_le (budget_add (effect_cost e) (budget m')) (budget m)) ∧
         children_run (machine_weight m) e) ∨
      (∃ t, a = advance_of_terminal t ∧ terminal m' = Some t)
  | Panic => True
  end.
Proof.
  intros [Ht Hp]. unfold PlanSteps.advance_machine. rewrite Ht, Hp.
  destruct (iterate_reaches (N.succ_pos (machine_weight m)) m) as (m0 & Hr & Hm).
  destruct (iterate _ m) as [m'|m' a|] eqn:Hi; [|clear Hi|done].
  { apply iterate_weight in Hi. rewrite N.succ_pos_spec in Hi. lia. }
  apply continues_evolves in Hr as (Hw & Hb & Hn & Hp0 & Ht0).
  pose proof (step_evolves m0) as He. rewrite Hm in He.
  destruct He as [(e & Ha & He & Hte & Hwe & Hse & Hne & Hbe & Hce)|?]; [left|by right].
  exists e. split_and!; [done|done|congruence|lia|congruence|congruence| |by eapply children_run_mono].
  intros Hok. specialize (Hbe (budget_ok_le _ _ Hb Hok)). by etrans.
Qed.

(** ** No panic *)

Lemma build_arguments_valued args e schema out :
  forallb (λ a, negb (bool_decide (pa_values a = []))) args = true →
  build_arguments args e schema out ≠ Ok None.
Proof.
  revert out. induction args as [|a args IH]; intros out; [done|]. cbn [forallb build_arguments].
  intros [Ha Hall]%andb_true_iff Hb. apply bind_Ok in Hb as (vs & Hvs & Hb).
  destruct vs as [|v vs]; [|destruct vs; exact (IH _ Hall Hb)].
  apply traverse_Ok, Forall2_nil_inv_r in Hvs. by rewrite Hvs in Ha.
Qed.

(** An outcome that stays valued. *)
Definition stays_valued (o : Outcome) : Prop :=
  match o with
  | Continue m' | Return m' (Suspended _) => machine_valued m' = true
  | Return _ _ => True
  | Panic => False
  end.

Lemma typed_valued m e : machine_valued m = true → stays_valued (advance_typed m e).
Proof.
  intros Hm. destruct e as [k t ef sp]. unfold PlanSteps.advance_typed.
  destruct (es_is_empty ef && negb (is_control k)).
  { unfold typed_value. destruct (evaluate_pure _ _ _) as [[]|]; exact Hm. }
  destruct k; try exact Hm; try exact Hm;
    unfold typed_if, typed_match, typed_map, typed_call, typed_application, typed_infer, typed_run, typed_host.
  - destruct steps; exact Hm.
  - destruct (evaluate_pure _ _ _) as [[[] ?]|]; exact Hm.
  - destruct (evaluate_pure _ _ _) as [[v ?]|]; [|exact Hm]. destruct (variant_parts v) as [[]|]; [|exact Hm].
    destruct (List.find _ _); [|exact Hm]. destruct (bind_case _ _ _ _ _) as [[] []]; exact Hm.
  - destruct (evaluate_pure _ _ _) as [[[| | | |items|] ?]|]; try exact Hm.
    destruct (_ <=? _)%nat; [|exact Hm]. destruct items; exact Hm.
  - destruct (_ =? 0); [exact Hm|]. destruct (negb _); [exact Hm|].
    destruct (build_typed_arguments _ _ _ _) as [[]|]; [exact Hm|exact Hm].
  - destruct (build_typed_arguments _ _ _ _) as [[]|]; [|exact Hm].
    destruct (link_arguments _ _ _) as [[[|[]] ?]|]; exact Hm.
  - destruct (_ =? 0); [exact Hm|]. destruct (capture_values _ _ _); [|exact Hm].
    destruct (infer_request _ _ _); [exact Hm|exact Hm].
  - destruct (_ =? 0); [exact Hm|]. destruct (evaluate_pure _ _ _) as [[]|]; [|exact Hm].
    destruct (decode_program_value _ _) as [value|]; [|exact Hm].
    destruct (machine_new (pv_program value)); [|exact Hm]. destruct (inherit_runtime _ _); [exact Hm|exact Hm].
  - destruct (build_typed_arguments _ _ _ _) as [[]|]; [exact Hm|exact Hm].
Qed.

Lemma push_valued m f : machine_valued m = true → frame_valued f = true → machine_valued (push f m) = true.
Proof. unfold machine_valued. simpl. by intros -> ->. Qed.
Hint Resolve push_valued : core.

Lemma node_valued m n : machine_valued m = true → valued n = true → stays_valued (advance_node registry m n).
Proof.
  intros Hm Hn. destruct n; unfold advance_node, node_map, node_call; simpl in Hn.
  - by apply push_valued.
  - destruct (resolve_value _ _); exact Hm.
  - destruct steps; [exact Hm|]. pose proof Hn as [Hh _]%andb_true_iff. simpl. by auto.
  - simpl. by auto.
  - apply andb_true_iff in Hn as []. destruct (resolve_value _ _); [|exact Hm].
    simpl. destruct (truthy _); by auto.
  - apply andb_true_iff in Hn as []. simpl. by auto.
  - destruct (resolve_value _ _) as [[| | | |items|]|]; try exact Hm.
    destruct (_ <=? _)%nat; [|exact Hm]. destruct items; [exact Hm|]. simpl. by apply push_valued; [apply push_valued|].
  - destruct (_ =? 0); [exact Hm|]. destruct (registry !! tool); [|exact Hm].
    pose proof (build_arguments_valued arguments (env m) (tool_parameters r) [] Hn) as Hb.
    destruct (build_arguments _ _ _ _) as [[]|]; done.
Qed.

Lemma step_valued m : machine_valued m = true → stays_valued (step m).
Proof.
  intros Hm. unfold PlanSteps.step. destruct (frames m) as [|f fs] eqn:Hf; [by destruct (signal m) as [[]|]|].
  unfold machine_valued in Hm. rewrite Hf in Hm. apply andb_true_iff in Hm as [Hfv Hfs].
  assert (machine_valued (set_frames m fs) = true) as Hm by exact Hfs.
  destruct f; unfold resume_frame, on_start, on_signal; simpl in Hfv;
    destruct (signal (set_frames m fs)) as [[v|msg]|]; try exact I; try exact Hm;
    unfold on_sequence, on_bind, on_typed_bind, on_fallback, on_typed_fallback, on_map_item, on_typed_map_item.
  - by apply node_valued.
  - destruct (steps !! next) as [n|] eqn:Hn; [|exact Hm]. apply push_valued; [by apply push_valued|].
    rewrite forallb_forall in Hfv. by apply Hfv, list_elem_of_In, (list_elem_of_lookup_2 _ next).
  - by apply push_valued; [apply push_valued|].
  - destruct (items !! next); [|exact Hm]. by apply push_valued; [apply push_valued|].
  - by apply typed_valued.
  - by apply typed_valued.
  - destruct (steps !! next); [|exact Hm]. by apply push_valued; [apply push_valued|].
  - destruct (is_some _); [exact Hm|]. simpl. destruct (value_provenance m); exact Hm.
  - destruct (items !! next); [|exact Hm]. by apply push_valued; [apply push_valued|].
Qed.

Lemma continues_valued m m' : rtc continues m m' → machine_valued m = true → machine_valued m' = true.
Proof.
  induction 1 as [|m1 m2 m3 Hs _ IH]; [done|]. intros Hm. apply IH.
  pose proof (step_valued m1 Hm) as Hv. unfold continues in Hs. by rewrite Hs in Hv.
Qed.

Lemma iterate_valued p m : machine_valued m = true → stays_valued (iterate p m).
Proof.
  intros Hv. destruct (iterate_reaches p m) as (m0 & Hr & Hm). apply continues_valued in Hr; [|done].
  pose proof (step_valued m0 Hr) as Hs. destruct (iterate p m); [by subst|by rewrite Hm in Hs..].
Qed.

(** ** Lives *)

(** A machine that is driven: it advances to an effect, the effect's outcome resumes it, and so
    on; [l] holds the sequence numbers of the effects. *)
Inductive life : list N → PlanMachine → PlanMachine → Prop :=
| life_here m : life [] m m
| life_effect l m m1 e outcome m2 m' :
    advance_machine m = Return m1 (Suspended e) → resume_effect m1 (sequence e) outcome = Ok m2 →
    life l m2 m' → life (sequence e :: l) m m'.

Lemma resume_effect_Ok m n outcome m' :
  resume_effect m n outcome = Ok m' →
  ∃ e, pending m = Some e ∧ sequence e = n ∧ pending m' = None ∧ terminal m' = terminal m ∧
    frames m' = frames m ∧ budget m' = budget m ∧ next_effect_sequence m' = next_effect_sequence m.
Proof.
  unfold resume_effect. destruct (pending m) as [e|]; [|done].
  destruct (N.eqb_spec (sequence e) n); [|done]. intros [= <-]. by exists e.
Qed.

(** One round of a life. *)
Lemma life_round m m1 e outcome m2 :
  running m → advance_machine m = Return m1 (Suspended e) →
  resume_effect m1 (sequence e) outcome = Ok m2 →
  running m2 ∧ machine_weight m2 < machine_weight m ∧
  sequence e = next_effect_sequence m ∧
  next_effect_sequence m2 = N.min (next_effect_sequence m + 1) (2 ^ 64 - 1) ∧
  (budget_ok (budget m) → budget_le (budget_add (effect_cost e) (budget m2)) (budget m)) ∧ children_run (machine_weight m) e.
Proof.
  intros Hrun Ha (e' & Hp1 & _ & Hp2 & Ht2 & Hf2 & Hb2 & Hn2)%resume_effect_Ok.
  pose proof (advance_running m Hrun) as Hr. rewrite Ha in Hr.
  destruct Hr as [(e0 & [= <-] & Hpe & Hte & Hw & Hs & Hn & Hb & Hc)|(t & Hbad & _)]; [|by destruct t].
  split_and!; [split; [congruence|done]| |done|congruence|by rewrite Hb2|done].
  unfold machine_weight in *. by rewrite Hf2.
Qed.

(** Consecutive numbers. *)
Fixpoint numbers (start : N) (n : nat) : list N :=
  match n with O => [] | S k => start :: numbers (start + 1) k end.

Lemma numbers_elem x start n : x ∈ numbers start n → start <= x < start + N.of_nat n.
Proof.
  revert start. induction n as [|n IH]; intros start; simpl; [by intros ?%elem_of_nil|].
  intros [->|Hx%IH]%elem_of_cons; lia.
Qed.

Lemma life_numbers l m m' :
  life l m m' → running m → next_effect_sequence m + len l < 2 ^ 64 →
  l = numbers (next_effect_sequence m) (length l) ∧ next_effect_sequence m' = next_effect_sequence m + len l ∧
  len l + machine_weight m' <= machine_weight m ∧ running m'.
Proof.
  unfold len. induction 1 as [m|l m m1 e outcome m2 m' Ha Hr _ IH]; intros Hrun Hlt; simpl length in *.
  { split_and!; try done; lia. }
  destruct (life_round _ _ _ _ _ Hrun Ha Hr) as (Hrun2 & Hw & Hs & Hn & _).
  assert (next_effect_sequence m2 = next_effect_sequence m + 1) as Hn2 by lia.
  destruct IH as (IHl & IHn & IHw & IHr); [done|lia|].
  split_and!; [|lia|lia|done]. simpl. f_equal; [done|]. by rewrite <- Hn2.
Qed.

(** ** Spending *)

(** [spends m u]: a machine and all its children together, driven in any way, have made the
    calls, asked the infers and started the programs that [u] counts. *)
Inductive spends : PlanMachine → PlanBudget → Prop :=
| spends_nothing m : spends m budget_zero
| spends_call m m1 n tool args outcome m2 u :
    advance_machine m = Return m1 (Suspended (PCall n tool args)) → resume_effect m1 n outcome = Ok m2 →
    spends m2 u → spends m (budget_add (mkBudget 1 0 0) u)
| spends_infer m m1 n request tools kind outcome m2 u :
    advance_machine m = Return m1 (Suspended (PInfer n request tools kind)) →
    resume_effect m1 n outcome = Ok m2 → spends m2 u → spends m (budget_add (mkBudget 0 1 0) u)
| spends_host m m1 n operation args kind outcome m2 u :
    advance_machine m = Return m1 (Suspended (PHost n operation args kind)) →
    resume_effect m1 n outcome = Ok m2 → spends m2 u → spends m u
| spends_program m m1 n value child outcome m2 u v :
    advance_machine m = Return m1 (Suspended (PProgram n value child)) → spends child v →
    resume_effect m1 n outcome = Ok m2 → spends m2 u → spends m (budget_add (budget_add (mkBudget 0 0 1) v) u)
| spends_parallel m m1 n branches outcome m2 u v :
    advance_machine m = Return m1 (Suspended (PParallel n branches)) → spends_all branches v →
    resume_effect m1 n outcome = Ok m2 → spends m2 u → spends m (budget_add v u)
with spends_all : list PlanParallelBranch → PlanBudget → Prop :=
| spends_none : spends_all [] budget_zero
| spends_branch b bs u v : spends (br_machine b) u → spends_all bs v → spends_all (b :: bs) (budget_add u v).

Scheme spends_mind := Induction for spends Sort Prop
  with spends_all_mind := Induction for spends_all Sort Prop.
Combined Scheme spends_mutind from spends_mind, spends_all_mind.

Lemma budget_add_le a b c d : budget_le a b → budget_le c d → budget_le (budget_add a c) (budget_add b d).
Proof. unfold budget_le, budget_add. simpl. lia. Qed.

Lemma budget_le_add_l a b c : budget_le (budget_add a b) c → budget_le a c.
Proof. unfold budget_le, budget_add. simpl. lia. Qed.
Lemma budget_le_add_r a b c : budget_le (budget_add a b) c → budget_le b c.
Proof. unfold budget_le, budget_add. simpl. lia. Qed.
Lemma budget_zero_le b : budget_le budget_zero b.
Proof. unfold budget_le, budget_zero. simpl. lia. Qed.
Lemma budget_add_mono_l a b c : budget_le b c → budget_le (budget_add a b) (budget_add a c).
Proof. by apply budget_add_le. Qed.

Lemma spends_within :
  (∀ m u, spends m u → running m → budget_ok (budget m) → budget_le u (budget m)) ∧
  (∀ bs u, spends_all bs u → Forall (λ b, running (br_machine b)) bs → budget_ok (branches_budget bs) →
     budget_le u (branches_budget bs)).
Proof.
  apply spends_mutind.
  - intros. apply budget_zero_le.
  - intros m m1 n tool args outcome m2 u Ha Hr _ IH Hrun Hok.
    destruct (life_round _ _ _ _ _ Hrun Ha Hr) as (Hrun2 & _ & _ & _ & Hb & _). specialize (Hb Hok).
    rewrite <- Hb. apply budget_add_mono_l, IH; [done|]. by eapply budget_ok_le, Hok; eapply budget_le_add_r.
  - intros m m1 n request tools kind outcome m2 u Ha Hr _ IH Hrun Hok.
    destruct (life_round _ _ _ _ _ Hrun Ha Hr) as (Hrun2 & _ & _ & _ & Hb & _). specialize (Hb Hok).
    rewrite <- Hb. apply budget_add_mono_l, IH; [done|]. by eapply budget_ok_le, Hok; eapply budget_le_add_r.
  - intros m m1 n operation args kind outcome m2 u Ha Hr _ IH Hrun Hok.
    destruct (life_round _ _ _ _ _ Hrun Ha Hr) as (Hrun2 & _ & _ & _ & Hb & _). specialize (Hb Hok).
    apply budget_le_add_r in Hb. rewrite <- Hb. apply IH; [done|]. by eapply budget_ok_le, Hok.
  - intros m m1 n value child outcome m2 u v Ha _ IHc Hr _ IH Hrun Hok.
    destruct (life_round _ _ _ _ _ Hrun Ha Hr) as (Hrun2 & _ & _ & _ & Hb & Hc). specialize (Hb Hok). simpl in Hc.
    rewrite <- Hb. apply budget_add_le.
    + apply budget_add_mono_l, IHc; [apply Hc|]. eapply budget_ok_le, Hok. by eapply budget_le_add_r, budget_le_add_l.
    + apply IH; [done|]. by eapply budget_ok_le, Hok; eapply budget_le_add_r.
  - intros m m1 n branches outcome m2 u v Ha _ IHc Hr _ IH Hrun Hok.
    destruct (life_round _ _ _ _ _ Hrun Ha Hr) as (Hrun2 & _ & _ & _ & Hb & Hc). specialize (Hb Hok). simpl in Hc.
    rewrite <- Hb. apply budget_add_le.
    + apply IHc; [|eapply budget_ok_le, Hok; by eapply budget_le_add_l].
      eapply Forall_impl; [exact Hc|]. by intros ? [].
    + apply IH; [done|]. by eapply budget_ok_le, Hok; eapply budget_le_add_r.
  - intros. apply budget_zero_le.
  - intros b bs u v _ IHb _ IHs [Hb Hbs]%Forall_cons Hok. simpl in Hok |- *. apply budget_add_le.
    + apply IHb; [done|]. by eapply budget_ok_le, Hok; eapply budget_le_add_l.
    + apply IHs; [done|]. by eapply budget_ok_le, Hok; eapply budget_le_add_r.
Qed.

(** ** Main theorems *)

(** Advancing a machine always returns: whatever its frames hold, it completes, fails or
    suspends, and asking again before it is resumed returns the same, so that replaying a
    suspended machine yields the same effect. *)
Theorem advance_returns m :
  machine_valued m = true →
  ∃ m' a, advance_machine m = Return m' a ∧ advance_machine m' = Return m' a.
Proof.
  intros Hv. destruct (terminal m) as [t|] eqn:Ht.
  { exists m, (advance_of_terminal t). unfold PlanSteps.advance_machine. by rewrite Ht. }
  destruct (pending m) as [e|] eqn:Hp.
  { exists m, (Suspended e). unfold PlanSteps.advance_machine. by rewrite Ht, Hp. }
  pose proof (advance_running m (conj Ht Hp)) as Hr.
  destruct (advance_machine m) as [m'|m' a|] eqn:Ha; [done| |].
  - exists m', a. split; [done|]. unfold PlanSteps.advance_machine.
    destruct Hr as [(e & -> & Hpe & Hte & _)|(t & -> & ->)]; [by rewrite Hte, Hpe|done].
  - exfalso. unfold PlanSteps.advance_machine in Ha. rewrite Ht, Hp in Ha.
    pose proof (iterate_valued (N.succ_pos (machine_weight m)) m Hv) as Hs. by rewrite Ha in Hs.
Qed.

(** C28. Effects are numbered consecutively and fenced: over the whole life of a machine the
    effects it waited for carry the numbers from its next one on, each once, there are at most
    as many as its weight, and no outcome of an earlier effect is accepted for a later one.  The
    numbers are those below 2^64, before the 64-bit counter of the machine is exhausted. *)
Theorem effects_numbered l m m' :
  life l m m' → running m → next_effect_sequence m + len l < 2 ^ 64 →
  l = numbers (next_effect_sequence m) (length l) ∧ len l + machine_weight m' <= machine_weight m ∧
  ∀ m1 e, advance_machine m' = Return m1 (Suspended e) →
    sequence e = next_effect_sequence m + len l ∧
    ∀ n outcome, n ∈ l → is_ok (resume_effect m1 n outcome) = false.
Proof.
  intros Hl Hrun Hlt. destruct (life_numbers _ _ _ Hl Hrun Hlt) as (Hnum & Hnext & Hw & Hrun').
  split_and!; [done|done|]. intros m1 e Ha. pose proof (advance_running m' Hrun') as Hr. rewrite Ha in Hr.
  destruct Hr as [(e0 & [= <-] & Hpe & _ & _ & Hs & _)|(t & Hbad & _)]; [|by destruct t].
  split; [congruence|]. intros n outcome Hn. rewrite Hnum in Hn. apply numbers_elem in Hn.
  unfold resume_effect. rewrite Hpe. destruct (N.eqb_spec (sequence e) n); [|done]. unfold len in *. lia.
Qed.

(** C27. The budget of a program bounds everything that happens under it: however its machine, its
    parallel branches and its child programs are driven, and whatever their effects return,
    together they make at most 128 calls, ask at most 8 infers and start at most 4 programs. *)
Theorem budget_bounds_tree p m0 caller m u :
  machine_new p = Ok m0 → inherit_runtime caller m0 = Ok m → spends m u →
  calls_left u <= MAX_PROGRAM_CALLS ∧ infers_left u <= MAX_PROGRAM_INFERS ∧
  programs_left u <= MAX_PROGRAM_VALUE_NESTING.
Proof.
  intros Hn Hi Hs. pose proof (inherit_running _ _ _ _ Hn Hi) as [Hrun _].
  assert (budget m = mkBudget 128 8 4) as Hb.
  { rewrite (inherit_budget _ _ _ Hi). by apply machine_new_running in Hn as [_ ->]. }
  apply (proj1 spends_within) in Hs; [|done|rewrite Hb; unfold budget_ok, budget_le; simpl; done].
  by rewrite Hb in Hs.
Qed.
End facts.

(** ** Sample plan *)

(** [(seq (bind note (call read)) (call read))], of a program whose tool is registered. *)
Definition sample_plan : PlanProgram :=
  mkPlanProgram Runtime (NSeq [NBind s! "note" (NCall s! "read" []); NCall s! "read" []]) [s! "read"] None.
Definition sample_tools : Registry := {[s! "read" := mkTool true JNull]}.
#[local] Instance sample_plan_digest : Digest := {| sha256_hex _ := s! "0" |}.
#[local] Instance sample_plan_codec : PlanCodec := {|
  hir_to_vec _ := []; definitions_to_value _ := None;
  program_value_to_value _ := None; program_value_from_value _ := None |}.

(** The machine of the sample, before and after its first effect. *)
Definition sample_start : PlanMachine :=
  match machine_new sample_plan with Ok m => m | Err _ => mkMachine [] ∅ None None ∅ None None None (mkBudget 0 0 0) 0 [] end.
Definition sample_wait : PlanMachine :=
  match advance_machine (λ _, []) sample_tools sample_start with Return m _ => m | _ => sample_start end.
Definition sample_resumed : PlanMachine :=
  match resume_effect sample_wait 1 (Ok (JBool true)) with Ok m => m | Err _ => sample_start end.
Definition sample_effect : PlanEffect := PCall 1 s! "read" [].

Lemma sample_advances :
  advance_machine (λ _, []) sample_tools sample_start = Return sample_wait (Suspended sample_effect).
Proof. vm_compute. reflexivity. Qed.
Lemma sample_resumes : resume_effect sample_wait (sequence sample_effect) (Ok (JBool true)) = Ok sample_resumed.
Proof. vm_compute. reflexivity. Qed.
Lemma sample_life : life (λ _, []) sample_tools [1] sample_start sample_resumed.
Proof. apply (life_effect _ _ [] _ _ _ _ _ _ sample_advances sample_resumes). constructor. Qed.

Lemma advance_returns_witness :
  machine_valued sample_start = true ∧
  ∃ m' a, advance_machine (λ _, []) sample_tools sample_start = Return m' a ∧
    advance_machine (λ _, []) sample_tools m' = Return m' a.
Proof. split; [|apply (advance_returns (λ _, []) sample_tools sample_start)]; reflexivity. Defined.

Lemma effects_numbered_witness :
  [1] = numbers (next_effect_sequence sample_start) 1 ∧
  len [1] + machine_weight sample_resumed <= machine_weight sample_start ∧
  ∀ m1 e, advance_machine (λ _, []) sample_tools sample_resumed = Return m1 (Suspended e) →
    sequence e = next_effect_sequence sample_start + len [1] ∧
    ∀ n outcome, n ∈ [1] → is_ok (resume_effect m1 n outcome) = false.
Proof.
  apply (effects_numbered (λ _, []) sample_tools [1] sample_start sample_resumed);
    [exact sample_life|split; reflexivity|reflexivity].
Defined.

Lemma budget_bounds_tree_witness :
  1 <= MAX_PROGRAM_CALLS ∧ 0 <= MAX_PROGRAM_INFERS ∧ 0 <= MAX_PROGRAM_VALUE_NESTING.
Proof.
  apply (budget_bounds_tree (λ _, []) sample_tools sample_plan sample_start ∅ sample_start
           (budget_add (mkBudget 1 0 0) budget_zero)); [reflexivity|reflexivity|].
  apply (spends_call _ _ _ _ _ _ _ _ _ _ sample_advances sample_resumes). constructor.
Defined.
