(* ===== verification/PlanSound.v ===== *)
(** * Typed programs run on the plan machine

    Type and effect safety of the machine.  [machine_ok] types a configuration: the frames are a
    continuation that accepts a value of some type in some scope and ends in a value of the
    program's output type, and every expression still to run stays inside the program's effect
    row.  Every iteration keeps it; a suspension asks for an effect of the row, with arguments of
    the types its signature declares, and goes on from any outcome of the effect's result type;
    a failure is one of [expected], never an integrity failure of the machine. *)

From stdpp Require Import base list gmap strings relations.
From Stdlib Require Import NArith ZArith Lia.
From S2P Require Import Prelude Types JsonValue Diagnostic Syntax Hir Decode DecodeFacts JsonBoundary JsonBoundaryFacts Eval Declarations Analyzer DeclarationFacts Typing AnalyzerSound ProgramSound EvalSound Text Plan PlanSteps PlanFacts.

(** ** What a program may do *)

Section contract.
Context `{AnalysisProfile} `{Digest} `{PlanCodec} (program_hash : Program → str) (registry : Registry)
  (defs : Definitions).
Local Abbreviation has_type := (has_type defs).

(** The failures a typed program can have on the machine. *)
Inductive expected : Message → Prop :=
| X_value e f : blamed defs e f → expected (value_failure f)
| X_argument e f : blamed defs e f → expected (Msg "Yao argument failure: {error}" [AMsg (fmessage f)])
| X_calls : expected (Msg "program exceeds the tool-call limit of {MAX_PROGRAM_CALLS}" [])
| X_infers : expected (Msg "program exceeds the infer limit of {MAX_PROGRAM_INFERS}" [])
| X_programs : expected (Msg "Program Value nesting exceeds the limit of {MAX_PROGRAM_VALUE_NESTING}" [])
| X_tool tool : registry !! tool = None → expected (Msg "tool '{tool}' does not exist" [AStr tool])
| X_map n : MAX_MAP_ELEMENTS < n →
    expected (Msg "typed map collection has {} elements, exceeding the limit of {MAX_MAP_ELEMENTS}"
                [ANum (N.of_nat n)])
| X_definitions : definitions_to_value defs = None →
    expected (Msg "Yao type definitions cannot cross the infer boundary: {error}" [])
| X_program v message : decode_program_value program_hash v = Err message → expected message
| X_child value message : machine_new (pv_program value) = Err message → expected message
| X_runtime child environment message : inherit_runtime environment child = Err message → expected message
| X_effect e message : expected (effect_failure e message).

(** The arguments of an effect satisfy a signature, unless it is the dynamic one. *)
Definition arguments_ok (sg : ToolSignature) (args : JsonMap) : Prop :=
  (sig_arguments sg = [] ∧ sig_required sg = []) ∨
  (∀ r, r ∈ sig_required sg → is_some (bm_get r args) = true) ∧
  (∀ n v, bm_get n args = Some v → ∃ t, bm_get n (sig_arguments sg) = Some t ∧ has_type t v).

(** The effect is in the row, its arguments fit its signature, and its outcome has the type [t]. *)
Definition asks (row : EffectSet) (e : PlanEffect) (t : Ty) : Prop :=
  match e with
  | PCall _ tool args =>
      ETool tool ∈ row ∧ ∃ sg, tool_signature tool = Some sg ∧ t = sig_result sg ∧ arguments_ok sg args
  | PInfer _ _ tools kind =>
      EInfer ∈ row ∧ (∃ l, tools = Some l ∧ ∀ x, x ∈ l → ETool x ∈ row) ∧
      ∃ sp, kind = JsonResult t defs sp ∧ is_ok (validate_json_type defs t) = true ∨
            kind = YaoResult t defs sp
  | PParallel _ _ => False
  | PProgram _ value child =>
      ∃ es v, EProgram es ∈ row ∧ has_type (TProgram t es) v ∧ decode_program_value program_hash v = Ok value
  | PHost _ op args kind =>
      ∃ n sp, EHost n ∈ row ∧ kind = YaoResult t defs sp ∧
        ((op = n ∧ ∃ sg, host_signature op = Some sg ∧ t = sig_result sg ∧ arguments_ok sg args)
         ∨ (op = s! "host.view" ∧ ∃ k v, n = s! "view." ++ k ∧ args = [(s! "ref", v)] ∧ has_type (TRef k) v))
  end.

(** An outcome of the type [t], or a failure. *)
Definition answers (t : Ty) (outcome : result Message Json) : Prop :=
  match outcome with Ok v => has_type t v | Err _ => True end.
End contract.

Section soundness.
Context `{CharClass} `{AnalysisProfile} `{Digest} `{PlanCodec} (program_hash : Program → str)
  (registry : Registry) (cx : Ctx) (rt : Ty).
(** The declarations of the program, and a host that offers [runtime] and nothing else. *)
Context (Hdefs : definitions_ok (ctx_definitions cx))
  (Hhost : ∀ n, implicit_binding n = if n =s s! "runtime" then Some rt else None).
Local Abbreviation defs := (ctx_definitions cx).
Local Abbreviation has_type := (has_type defs).
Local Abbreviation env_typed := (env_typed defs).
Local Abbreviation host_scope := (host_scope rt).
Local Abbreviation typed := (typed cx).
Local Abbreviation expected := (expected program_hash registry defs).
Local Abbreviation asks := (asks program_hash defs).
Local Abbreviation arguments_ok := (arguments_ok defs).
Local Abbreviation answers := (answers defs).

(** ** Typed configurations *)

(** An expression the evaluator treats as its type says, with its effects inside the row. *)
Definition fits (row : EffectSet) (e : HirExpr) : Prop := tame e = true ∧ heffects e ⊆ row.

(** [accepts row out K s t]: the frames [K] turn a value of type [t], in the scope [s], into a
    value of type [out]. *)
Inductive accepts (row : EffectSet) (out : Ty) : list MachineFrame → Scope → Ty → Prop :=
| K_done s t : assignable t out → accepts row out [] s t
| K_seq top steps next K s s' t t' :
    seq_typed (typed top) (drop next steps) s s' → Forall (fits row) (drop next steps) →
    assignable (List.last (map hty (drop next steps)) t) t' → accepts row out K s' t' →
    accepts row out (FTypedSeq steps next :: K) s t
| K_bind name K s t t' :
    bindings s !! name = None → assignable TNil t' → accepts row out K (scope_insert name t s) t' →
    accepts row out (FTypedBind name :: K) s t
| K_restore saved sources K s s0 t :
    env_typed s0 saved → host_scope s0 → accepts row out K s0 t →
    accepts row out (FRestoreScope saved sources :: K) s t
| K_fallback top backup saved sources K s s0 s1 t t' :
    env_typed s0 saved → host_scope s0 → typed top backup s0 s1 → fits row backup →
    assignable (hty backup) t' → assignable t t' → accepts row out K s0 t' →
    accepts row out (FTypedFallbackPrimary backup saved sources :: K) s t
| K_map top items next element e results saved sources K s s0 s1 u t t' :
    env_typed s0 saved → host_scope s0 → bindings s0 !! element = None → Forall (has_type u) items →
    typed top e (scope_insert element u s0) s1 → fits row e → Forall (has_type (hty e)) results →
    assignable t (hty e) → assignable (TList (hty e)) t' → accepts row out K s0 t' →
    accepts row out (FTypedMapItem items next element e results saved sources :: K) s t.

(** A machine that runs. *)
Inductive runs_ok (row : EffectSet) (out : Ty) (m : PlanMachine) : Prop :=
| R_eval top e K s s' t :
    frames m = FTypedEval e :: K → signal m = None → typed top e s s' → fits row e → host_scope s →
    env_typed s (env m) → assignable (hty e) t → accepts row out K s' t → runs_ok row out m
| R_root p s s' :
    frames m = [FEval (NTyped p)] → signal m = None → types p = defs → typed true (body p) s s' →
    fits row (body p) → host_scope s → env_typed s (env m) → assignable (hty (body p)) out → runs_ok row out m
| R_model b captures t source ef sp s :
    frames m = [FTypedModelRoot (Hir (KInferBody b captures t source) t ef sp)] → signal m = None →
    EInfer ∈ row → heffects b ⊆ row → (∀ n, n ∈ captures → is_Some (bindings s !! n)) → host_scope s →
    env_typed s (env m) → assignable t out → runs_ok row out m
| R_value v s t :
    signal m = Some (SValue v) → has_type t v → host_scope s → env_typed s (env m) →
    accepts row out (frames m) s t → runs_ok row out m
| R_failure message s t :
    signal m = Some (SFailure message) → expected message → accepts row out (frames m) s t → runs_ok row out m.

Definition machine_ok (row : EffectSet) (out : Ty) (m : PlanMachine) : Prop :=
  typed_definitions m = defs ∧ runs_ok row out m.

(** The same for a [par], whose branches are typed machines of their own. *)
Definition effect_ok (row : EffectSet) (e : PlanEffect) (t : Ty) : Prop :=
  match e with
  | PParallel _ bs =>
      ∃ ts, t = TStructuralRecord (bm_of_list ts) ∧ NoDup ts.*1 ∧
        Forall2 (λ b nt, br_name b = nt.1 ∧ ∃ row', row' ⊆ row ∧ machine_ok row' nt.2 (br_machine b)) bs ts
  | e => asks row e t
  end.

(** A machine that waits for the effect [e]. *)
Definition waits_ok (row : EffectSet) (out : Ty) (m : PlanMachine) (e : PlanEffect) : Prop :=
  pending m = Some e ∧ typed_definitions m = defs ∧
  ∃ s t te, host_scope s ∧ env_typed s (env m) ∧ accepts row out (frames m) s t ∧ assignable te t ∧
    effect_ok row e te.

(** What an iteration promises. *)
Definition advances_ok (row : EffectSet) (out : Ty) (o : Outcome) : Prop :=
  match o with
  | Continue m => machine_ok row out m
  | Return m (Suspended e) => waits_ok row out m e
  | Return _ (Complete v) => has_type out v
  | Return _ (Failed message) => expected message
  | Panic => False
  end.

(** ** Evaluation *)

Lemma fits_safe row e : fits row e → heffects e = [] → safe cx rt e.
Proof.
  intros [Ht _] He. split; [done|]. intros. by eapply eval_sound.
Qed.

Lemma tame_safe e : tame e = true → pure e → safe cx rt e.
Proof. intros Ht He. apply (fits_safe []); [split; [done|]|done]. rewrite He. set_solver. Qed.

Lemma typed_keeps_host top e s s' : typed top e s s' → tame e = true → host_scope s → host_scope s'.
Proof.
  intros Hty Ht Hs. destruct (typed_grows cx _ _ _ _ Hty Ht) as (Hsub & _). by eapply lookup_weaken.
Qed.

(** Children of an expression that fits. *)
Lemma fits_child row top e s s' c : typed top e s s' → fits row e → c ∈ children e → fits row c.
Proof.
  intros Ht [Htame Hrow] Hc. split; [by eapply tame_child|]. intros x Hx. apply Hrow.
  apply (typed_own_effects cx _ _ _ _ x Ht). right. eauto.
Qed.

Lemma fits_own row top e s s' x : typed top e s s' → fits row e → x ∈ performs e → x ∈ row.
Proof. intros Ht [_ Hrow] Hx. apply Hrow, (typed_own_effects cx _ _ _ _ x Ht). by left. Qed.

(** ** Arguments *)

(** The value of an argument, at the type the signature check gives it. *)
Lemma argument_value_typed a vs t :
  Forall2 (λ e v, has_type (hty e) v) (na_values a) vs → argument_type a = Ok t →
  has_type t (match vs with [v] => v | _ => JArray vs end).
Proof.
  unfold argument_type. intros Hvs Ht.
  assert (∀ u, common_types (map hty (na_values a)) (na_span a) = Ok u →
             has_type (TList (default TJson u)) (JArray vs)) as Hlist.
  { intros u Hu%common_types_Ok. eapply has_list_values; [exact Hvs|].
    destruct u as [u|]; simpl; [by apply Forall_map in Hu|].
    apply map_eq_nil in Hu. rewrite Hu. constructor. }
  destruct Hvs as [|e v es vs Hv Hvs]; [apply bind_Ok in Ht as (u & Hu & [= <-]); by apply Hlist|].
  destruct Hvs; [by injection Ht as <-|]. apply bind_Ok in Ht as (u & Hu & [= <-]). by apply Hlist.
Qed.

(** What the built arguments hold: the values of each named argument, and nothing else. *)
Definition built (args : list NamedArgument) (out m : JsonMap) : Prop :=
  (∀ a, a ∈ args → ∃ vs, Forall2 (λ e v, has_type (hty e) v) (na_values a) vs ∧
     bm_get (na_name a) m = Some (match vs with [v] => v | _ => JArray vs end)) ∧
  (∀ n, n ∉ map na_name args → bm_get n m = bm_get n out).

Lemma build_typed_arguments_ok top args s s' e out :
  Forall (safe cx rt) (argument_values args) → arguments_typed (typed top) args s s' →
  NoDup (map na_name args) → (∀ n, n ∈ map na_name args → bm_get n out = None) →
  host_scope s → env_typed s e →
  match build_typed_arguments defs args e out with
  | Ok (m, e') => built args out m ∧ env_typed s' e' ∧ host_scope s'
  | Err message => expected message
  end.
Proof.
  revert s e out. induction args as [|[n vs sp] args IH]; intros s e out Hsafe Ht Hnd Hout Hs Henv; simpl in *.
  { subst s'. split; [|done]. split; [|done]. by intros a ?%elem_of_nil. }
  destruct Ht as (s1 & Hvs & Hargs). unfold argument_values in Hsafe. simpl in Hsafe.
  apply Forall_app in Hsafe as [Svs Sargs]. inversion Hnd as [|? ? Hn Hnd']; subst.
  pose proof (eval_all_safe cx rt top vs s s1 e Svs Hvs Hs Henv) as Hr.
  destruct (eval_all _ vs e) as [[ws e1]|f]; simpl.
  2: { destruct Hr as (c & _ & Hb). by eapply X_argument. }
  destruct Hr as (Hws & Henv1 & Hs1). unfold bm_contains. rewrite (Hout n) by (by left). simpl.
  pose proof (IH s1 e1 (bm_insert n (match ws with [v] => v | _ => JArray ws end) out) Sargs Hargs Hnd') as Hrest.
  destruct (build_typed_arguments _ _ _ _) as [[m e2]|message].
  - destruct Hrest as ([Hall Hother] & Henv2 & Hs2); [|done..|].
    { intros n' Hn'. rewrite bm_get_insert. destruct (str_eqb_spec n' n) as [->|]; [done|]. apply Hout. by right. }
    split; [|done]. split.
    + intros a [->|Ha]%elem_of_cons; [|by apply Hall]. exists ws. split; [done|]. simpl.
      rewrite Hother by done. by rewrite bm_get_insert_eq.
    + intros n' Hn'. rewrite Hother by (intros ?; apply Hn'; by right). rewrite bm_get_insert.
      destruct (str_eqb_spec n' n) as [->|]; [|done]. destruct Hn'. by left.
  - apply Hrest; [|done..].
    intros n' Hn'. rewrite bm_get_insert. destruct (str_eqb_spec n' n) as [->|]; [done|]. apply Hout. by right.
Qed.

(** Built arguments satisfy the signature they were checked against. *)
Lemma built_signature args m sg sp :
  built args [] m → check_signature args sg sp = Ok tt → arguments_ok sg m.
Proof.
  intros [Hall Hother] Hc. unfold check_signature in Hc.
  destruct (match sig_arguments sg, sig_required sg with [], [] => true | _, _ => false end) eqn:Hd.
  { left. by destruct (sig_arguments sg), (sig_required sg). }
  right. apply bind_Ok in Hc as ([] & Hreq%try_each_Ok & Hargs%try_each_Ok).
  pose proof (proj1 (Forall_forall _ _) Hreq) as Hreq'. pose proof (proj1 (Forall_forall _ _) Hargs) as Hargs'. split.
  - intros r Hr. apply Hreq', ensure_Ok, existsb_exists in Hr as (a & Ha%list_elem_of_In & Heq).
    apply str_eqb_eq in Heq as <-. destruct (Hall a Ha) as (vs & _ & ->). done.
  - intros n v Hv. destruct (decide (n ∈ map na_name args)) as [Hn|Hn].
    2: { rewrite Hother in Hv by done. done. }
    apply list_elem_of_fmap in Hn as (a & -> & Ha). destruct (Hall a Ha) as (vs & Hvs & Hg).
    rewrite Hg in Hv. injection Hv as <-. specialize (Hargs' a Ha). simpl in Hargs'.
    apply bind_Ok in Hargs' as (t & Ht%ok_or_Ok & Hargs'). apply bind_Ok in Hargs' as (u & Hu & Has%require_assignable_Ok).
    exists t. split; [done|]. eapply has_subsume; [exact Has|]. by eapply argument_value_typed.
Qed.

Lemma link_arguments_ok ps s s0 m local :
  bind_parameters ps s = Ok s0 → env_typed s local → host_scope s →
  (∀ p, p ∈ ps → ∃ v, bm_get (p_name p) m = Some v ∧ has_type (p_ty p) v) →
  ∃ rest local', link_arguments (map p_name ps) m local = Ok (rest, local') ∧
    env_typed s0 local' ∧ host_scope s0 ∧
    ∀ n v, bm_get n rest = Some v → bm_get n m = Some v ∧ n ∉ map p_name ps.
Proof.
  revert s m local. induction ps as [|p ps IH]; intros s m local Hb Henv Hs Hv; simpl in *.
  { injection Hb as <-. eexists _, _. split_and!; [done..|]. intros n v Hn. split; [done|]. by intros ?%elem_of_nil. }
  destruct (bindings s !! p_name p) eqn:Hp; [done|]. simpl in Hb.
  pose proof (λ q, bind_parameters_fresh ps _ s0 q Hb) as Hfresh.
  destruct (Hv p ltac:(by left)) as (v & -> & Hty).
  edestruct (IH _ (bm_remove (p_name p) m) (<[p_name p:=v]> local) Hb)
    as (rest & local' & Hlink & ? & ? & Hrest).
  - by apply env_insert.
  - unfold EvalSound.host_scope in *. simpl. rewrite lookup_insert_ne; [done|]. congruence.
  - intros q Hq. destruct (Hv q ltac:(by right)) as (w & Hw & Hwt). exists w. split; [|done].
    specialize (Hfresh q Hq). simpl in Hfresh. apply lookup_insert_None in Hfresh as [_ ?].
    rewrite bm_get_remove. by destruct (str_eqb_spec (p_name p) (p_name q)).
  - exists rest, local'. split_and!; [exact Hlink|done..|]. intros n w Hn.
    apply Hrest in Hn as [Hn Hnot]. rewrite bm_get_remove in Hn.
    destruct (str_eqb_spec (p_name p) n); [done|]. split; [done|]. intros [->|?]%elem_of_cons; done.
Qed.

(** The bindings of a case, as in the pure evaluator. *)
Lemma bind_case_ok variant sp bs m matched e e' sources :
  bind_case_fields variant sp bs m e = Ok e' →
  ∃ sources', bind_case bs m matched e sources = (e', sources', None).
Proof.
  revert e sources. induction bs as [|b bs IH]; intros e sources; simpl; [intros [= ->]; eauto|].
  destruct (bm_get (mb_field b) m); [|done]. simpl. apply IH.
Qed.

Lemma capture_values_ok captures e out :
  (∀ n, n ∈ captures → is_Some (e !! n)) → ∃ m, capture_values captures e out = Ok m.
Proof.
  revert out. induction captures as [|n captures IH]; intros out Hc; simpl; [eauto|].
  destruct (Hc n ltac:(by left)) as [v ->]. apply IH. intros n' Hn'. apply Hc. by right.
Qed.

(** ** Expressions *)

Section expression.
Context (row : EffectSet) (out : Ty) (m : PlanMachine) (top : bool) (s s' : Scope) (t : Ty).
Context (Hd : typed_definitions m = defs) (Hsig : signal m = None) (Hs : host_scope s)
  (Henv : env_typed s (env m)) (Hacc : accepts row out (frames m) s' t).

Lemma raise_ok m' message s0 t0 :
  typed_definitions m' = defs → accepts row out (frames m') s0 t0 → expected message →
  advances_ok row out (raise m' message).
Proof. intros. split; [done|]. by eapply (R_failure _ _ _ message s0 t0). Qed.

(** A pure sub-expression, evaluated in the machine's environment. *)
Lemma eval_ok e s1 :
  typed top e s s1 → tame e = true → heffects e = [] →
  match evaluate_pure (typed_definitions m) e (env m) with
  | Ok (v, env') => has_type (hty e) v ∧ env_typed s1 env' ∧ host_scope s1
  | Err f => expected (value_failure f)
  end.
Proof.
  intros Ht Htame He. rewrite Hd.
  pose proof (eval_sound cx rt Hdefs Hhost e top s s1 (env m) Ht Htame He Hs Henv) as Hg.
  unfold good in Hg. destruct (evaluate_pure _ _ _) as [[v env']|f]; [|by eapply X_value].
  destruct Hg. split_and!; [done|done|]. by eapply typed_keeps_host.
Qed.

Lemma typed_value_ok e :
  typed top e s s' → tame e = true → heffects e = [] → assignable (hty e) t →
  advances_ok row out (typed_value m e).
Proof.
  intros Ht Htame He Has. unfold typed_value. pose proof (eval_ok e s' Ht Htame He) as Hr.
  destruct (evaluate_pure _ _ _) as [[v env']|f]; [|by eapply raise_ok].
  destruct Hr as (Hv & He1 & Hs1). split; [done|]. eapply (R_value _ _ _ v s' t); try done.
  by eapply has_subsume.
Qed.

(** Starting a sub-expression under new frames. *)
Lemma pushed_ok m' e top' s1 s2 t' :
  typed_definitions m' = defs → signal m' = None → typed top' e s1 s2 → fits row e → host_scope s1 →
  env_typed s1 (env m') → assignable (hty e) t' → accepts row out (frames m') s2 t' →
  advances_ok row out (Continue (push (FTypedEval e) m')).
Proof. intros. split; [done|]. by eapply (R_eval _ _ _ top' e (frames m') s1 s2 t'). Qed.

Lemma typed_if_ok c a b ty ef sp :
  typed top (Hir (KIf c a b) ty ef sp) s s' → fits row (Hir (KIf c a b) ty ef sp) → assignable ty t →
  advances_ok row out (typed_if m c a b).
Proof.
  intros Ht Hf Has. pose proof (λ x, fits_child _ _ _ _ _ x Ht Hf) as Hfc.
  simpl in Ht. destruct Ht as (Hc & Hp & Hb & (s1 & Ta) & (s2 & Tb) & Ba & Bb & _).
  unfold typed_if. pose proof (eval_ok c s' Hc (proj1 (Hfc c ltac:(by left))) Hp) as Hr.
  destruct (evaluate_pure _ _ _) as [[v env']|f]; [|by eapply raise_ok].
  destruct Hr as (Hv & He1 & Hs1). rewrite Hb in Hv. destruct Hv as [_ Hv]. inversion Hv as [| |b0| | | | | | | | | | | | | | | | | |]; subst.
  destruct b0.
  - eapply (pushed_ok _ a top s' s1 t); try done; [apply Hfc; right; by left|by eapply assignable_trans|].
    by eapply K_restore.
  - eapply (pushed_ok _ b top s' s2 t); try done; [apply Hfc; right; right; by left|by eapply assignable_trans|].
    by eapply K_restore.
Qed.

(** The case a variant selects. *)
Lemma find_case vs cs s0 v d :
  cases_typed (typed top) vs cs s0 → List.find (λ item, vname item =s v) vs = Some d → v ∈ map mc_variant cs →
  ∃ c sc s1, List.find (λ c, mc_variant c =s v) cs = Some c ∧ c ∈ cs ∧
    bindings_extend (vfields d) (mc_bindings c) s0 sc ∧ typed top (mc_body c) sc s1.
Proof.
  intros Hc Hfind Hin. induction cs as [|[v' bs e sp] cs IH]; simpl in *; [by apply elem_of_nil in Hin|].
  destruct Hc as [(d' & sc & s1 & Hd' & _ & _ & Hext & Hty) Hc].
  destruct (str_eqb_spec v' v) as [->|Hne].
  - rewrite Hfind in Hd'. injection Hd' as <-. exists (mkMatchCase v bs e sp), sc, s1. split_and!; try done. by left.
  - apply elem_of_cons in Hin as [->|Hin]; [done|]. destruct (IH Hc Hin) as (c & sc' & s1' & ? & ? & ? & ?).
    exists c, sc', s1'. split_and!; try done. by right.
Qed.

Lemma typed_match_ok v cs ty ef sp :
  typed top (Hir (KMatch v cs) ty ef sp) s s' → fits row (Hir (KMatch v cs) ty ef sp) → assignable ty t →
  advances_ok row out (typed_match m v cs).
Proof.
  intros Ht Hf Has. pose proof (λ x, fits_child _ _ _ _ _ x Ht Hf) as Hfc.
  simpl in Ht. destruct Ht as (Hv & Hp & (n & n' & vs & sp' & Hty & Hdef & Hcs & Hex) & Hb & _).
  unfold typed_match. pose proof (eval_ok v s' Hv (proj1 (Hfc v ltac:(by left))) Hp) as Hr.
  destruct (evaluate_pure _ _ _) as [[w env']|f]; [|by eapply raise_ok].
  destruct Hr as (Hw & He1 & Hs1). rewrite Hty in Hw.
  destruct (union_value cx _ _ _ _ _ Hdef Hw) as (variant & fields & d & -> & Hfind & Hm).
  destruct (find_case vs cs s' variant d Hcs Hfind) as (c & sc & s1 & -> & Hc & Hext & Hbody).
  { apply find_some in Hfind as [Hin Hname]. apply str_eqb_eq in Hname. rewrite <- Hname. by apply Hex, list_elem_of_In. }
  destruct (bind_case_fields_safe cx rt variant sp _ _ fields _ _ env' Hext He1 Hs1 Hm) as (env2 & Hbind & He2 & Hsc).
  destruct (bind_case_ok _ _ _ _ (provenance_for (binding_provenance m) v) _ _ (binding_provenance (set_env m env')) Hbind)
    as (sources2 & ->).
  rewrite Forall_forall in Hb.
  eapply (pushed_ok _ (mc_body c) top sc s1 t); try done.
  - apply Hfc. right. apply list_elem_of_fmap. eauto.
  - eapply assignable_trans; [by apply Hb|done].
  - by eapply K_restore.
Qed.

Lemma typed_map_ok c x e ty ef sp :
  typed top (Hir (KMap c x e) ty ef sp) s s' → fits row (Hir (KMap c x e) ty ef sp) → assignable ty t →
  advances_ok row out (typed_map m c x e).
Proof.
  intros Ht Hf Has. pose proof (λ x, fits_child _ _ _ _ _ x Ht Hf) as Hfc.
  simpl in Ht. destruct Ht as (Hc & Hp & Hfree & (u & s1 & Hty & Te) & -> & _).
  unfold typed_map. pose proof (eval_ok c s' Hc (proj1 (Hfc c ltac:(by left))) Hp) as Hr.
  destruct (evaluate_pure _ _ _) as [[w env']|f]; [|by eapply raise_ok].
  destruct Hr as (Hw & He1 & Hs1). rewrite Hty in Hw. destruct Hw as [Hwf Hw].
  inversion Hw as [| | | | | | |? items Hitems| | | | | | | | | | | | |]; subst.
  assert (Forall (has_type u) items) as Hall.
  { inversion Hwf as [| | | |? Hwl|]; subst. rewrite Forall_forall in Hwl, Hitems |- *.
    intros y Hy. split; auto. }
  destruct (length items <=? MAX_MAP_ELEMENTS)%nat eqn:Hlen.
  2: { eapply raise_ok; [done..|]. apply X_map. by apply Nat.leb_gt in Hlen. }
  destruct items as [|item items].
  { split; [done|]. eapply (R_value _ _ _ (JArray []) s' t); try done.
    eapply has_subsume; [exact Has|]. by apply has_list. }
  eapply (pushed_ok _ e top (scope_insert x u s') s1 (hty e)); try done.
  - apply Hfc. right. by left.
  - unfold EvalSound.host_scope in *. simpl. rewrite lookup_insert_ne; [done|]. intros ->. congruence.
  - simpl. apply env_insert; [done|]. by inversion Hall.
  - apply A_refl.
  - eapply (K_map _ _ top _ _ _ _ _ _ _ _ _ s'); try done; [apply Hfc; right; by left|apply A_refl].
Qed.

Lemma argument_safe args :
  Forall pure (argument_values args) → (∀ c, c ∈ argument_values args → fits row c) →
  Forall (safe cx rt) (argument_values args).
Proof.
  intros Hp Hf. rewrite Forall_forall in Hp |- *. intros c Hc. apply tame_safe; [apply Hf; done|by apply Hp].
Qed.

(** Arguments of an effect or a function. *)
Lemma arguments_run args s1 :
  Forall pure (argument_values args) → (∀ c, c ∈ argument_values args → fits row c) →
  arguments_typed (typed top) args s s1 → NoDup (map na_name args) →
  match build_typed_arguments (typed_definitions m) args (env m) [] with
  | Ok (values, env') => built args [] values ∧ env_typed s1 env' ∧ host_scope s1
  | Err message => expected message
  end.
Proof.
  intros Hp Hf Ht Hnd. rewrite Hd. eapply build_typed_arguments_ok; try done. by apply argument_safe.
Qed.

Lemma typed_application_ok f args ps e ty ef sp :
  typed top (Hir (KFunctionApplication f args ps e) ty ef sp) s s' →
  fits row (Hir (KFunctionApplication f args ps e) ty ef sp) → assignable ty t →
  advances_ok row out (typed_application m f args ps e).
Proof.
  intros Ht Hf Has. pose proof (λ x, fits_child _ _ _ _ _ x Ht Hf) as Hfc.
  simpl in Ht. destruct Ht as (Hargs & Hp & _ & _ & d & Hdec & -> & -> & (Hnd & Hall & Heach) & Hbelow & _ & s0 & s1 & Hbind & Hbody).
  unfold typed_application. unfold children in Hfc. simpl in Hfc.
  pose proof (arguments_run args s' Hp ltac:(intros; apply Hfc, elem_of_app; by left) Hargs Hnd) as Hr.
  destruct (build_typed_arguments _ _ _ _) as [[values env']|message]; [|by eapply raise_ok].
  destruct Hr as ([Hbuilt Hother] & He1 & Hs1).
  destruct (env_lookup cx _ _ _ _ He1 Hs1) as (rv & Hrv & Hrt). rewrite Hrv.
  destruct (link_arguments_ok (fd_parameters d) scope_new s0 values {[s! "runtime" := rv]})
    as (rest & local & -> & Hlocal & Hs0 & Hrest);
    [done|by apply (scope_new_env cx rt)|by apply scope_new_host| |].
  { intros p Hpin. pose proof (Hall p Hpin) as Hin. apply list_elem_of_fmap in Hin as (a & Hna & Ha).
    destruct (Hbuilt a Ha) as (vs & Hvs & Hg). rewrite Forall_forall in Heach.
    destruct (Heach a Ha) as (p' & x & Hfind & Hx & Hb). rewrite Hx in Hvs.
    inversion Hvs as [|? v ? ? Hv Hnil]; subst. inversion Hnil; subst. rewrite Hna. exists v. split; [done|].
    assert (p' = p) as ->; [|by eapply has_subsume].
    pose proof (find_some _ _ Hfind) as [Hp' Hname]. apply str_eqb_eq in Hname.
    eapply (NoDup_map_inj p_name); [by eapply bind_parameters_NoDup|by apply list_elem_of_In|done|].
    congruence. }
  destruct rest as [|[bad w] rest].
  - eapply (pushed_ok _ e false s0 s1 t); try done; [apply Hfc, elem_of_app; right; by left| |by eapply K_restore].
    by eapply assignable_trans.
  - exfalso. destruct (Hrest bad w) as [Hg Hnot]; [simpl; by rewrite str_eqb_refl|].
    destruct (decide (bad ∈ map na_name args)) as [Hin|Hin]; [|by rewrite Hother in Hg].
    apply list_elem_of_fmap in Hin as (a & -> & Ha). rewrite Forall_forall in Heach.
    destruct (Heach a Ha) as (p' & x' & Hfind & _).
    pose proof (find_some _ _ Hfind) as [Hp' Hname]. apply str_eqb_eq in Hname. apply Hnot.
    rewrite <- Hname. apply list_elem_of_fmap. exists p'. split; [done|]. by apply list_elem_of_In.
Qed.

(** A suspension keeps the continuation of its machine. *)
Lemma suspend_ok m' e s0 te :
  typed_definitions m' = defs → host_scope s0 → env_typed s0 (env m') → accepts row out (frames m') s0 t →
  assignable te t → effect_ok row e te → advances_ok row out (suspend m' e).
Proof. intros. split_and!; [done|done|]. by exists s0, t, te. Qed.

Lemma typed_call_ok tool args ty ef sp :
  typed top (Hir (KCall tool args) ty ef sp) s s' → fits row (Hir (KCall tool args) ty ef sp) → assignable ty t →
  advances_ok row out (typed_call registry m tool args).
Proof.
  intros Ht Hf Has. pose proof (λ x, fits_child _ _ _ _ _ x Ht Hf) as Hfc.
  pose proof (fits_own _ _ _ _ _ (ETool tool) Ht Hf ltac:(by left)) as Hrow.
  simpl in Ht. destruct Ht as (Hargs & Hp & Hnd & _ & _ & sg & sp' & Hsg & Hck & ->).
  unfold typed_call. destruct (_ =? 0)%N; [eapply raise_ok; [done..|constructor]|].
  destruct (registry !! tool) as [rtool|] eqn:Hreg; simpl; [|eapply raise_ok; [done..|by apply X_tool]].
  pose proof (arguments_run args s' Hp Hfc Hargs Hnd) as Hr.
  destruct (build_typed_arguments _ _ _ _) as [[values env']|message]; [|by eapply raise_ok].
  destruct Hr as (Hb & He1 & Hs1). simpl. eapply (suspend_ok _ _ s'); try done.
  split; [done|]. exists sg. split_and!; try done. by eapply built_signature.
Qed.

Lemma host_arguments_ok op n ty args values :
  ((op = n ∧ op ≠ s! "host.view" ∧ ∃ sg sp, host_signature op = Some sg ∧ check_signature args sg sp = Ok tt ∧
      ty = sig_result sg)
   ∨ (op = s! "host.view" ∧ ∃ r kind sp, args = [mkNamedArgument s! "ref" [r] sp] ∧ hty r = TRef kind ∧
        n = s! "view." ++ kind ∧
        match req_objects (ctx_requirements cx) with Some objects => kind ∈ objects | None => True end)) →
  built args [] values → bm_wf values →
  (op = n ∧ ∃ sg, host_signature op = Some sg ∧ ty = sig_result sg ∧ arguments_ok sg values)
  ∨ (op = s! "host.view" ∧ ∃ k v, n = s! "view." ++ k ∧ values = [(s! "ref", v)] ∧ has_type (TRef k) v).
Proof.
  intros [(-> & _ & sg & sp' & Hsg & Hck & ->)|(-> & r & kind & sp' & -> & Hr & -> & _)] Hb Hwf.
  - left. split; [done|]. exists sg. split_and!; try done. by eapply built_signature.
  - right. split; [done|]. destruct Hb as [Hb Hother]. simpl in Hb.
    destruct (Hb (mkNamedArgument s! "ref" [r] sp') ltac:(by left)) as (vs & Hvs & Hg). simpl in Hvs, Hg.
    inversion Hvs as [|? v ? ? Hv Hnil]; subst. inversion Hnil; subst. exists kind, v. split_and!; [done| |by rewrite <- Hr].
    apply bm_ext; [done|repeat constructor|]. intros n. simpl.
    destruct (str_eqb_spec n s! "ref") as [->|Hne]; [done|]. rewrite Hother; [done|].
    simpl. by intros ?%list_elem_of_singleton.
Qed.

Lemma build_typed_arguments_wf d args e o values e' :
  bm_wf o → build_typed_arguments d args e o = Ok (values, e') → bm_wf values.
Proof.
  revert e o. induction args as [|[n vs sp] args IH]; intros e o Hw; simpl; [by intros [= <- <-]|].
  intros ([ws e1] & _ & Hb)%bind_Ok. destruct (bm_contains n o); [done|].
  eapply IH; [|exact Hb]. by apply bm_wf_insert.
Qed.

Lemma typed_host_ok op args ty ef sp :
  typed top (Hir (KHost op args) ty ef sp) s s' → fits row (Hir (KHost op args) ty ef sp) → assignable ty t →
  advances_ok row out (typed_host m op args ty sp).
Proof.
  intros Ht Hf Has. pose proof (λ x, fits_child _ _ _ _ _ x Ht Hf) as Hfc.
  simpl in Ht. destruct Ht as (Hargs & Hp & Hnd & n & -> & Hop).
  assert (EHost n ∈ row) as Hrow by (apply (proj2 Hf); by left).
  unfold typed_host. pose proof (arguments_run args s' Hp Hfc Hargs Hnd) as Hr.
  destruct (build_typed_arguments _ _ _ _) as [[values env']|message] eqn:Hb; [|by eapply raise_ok].
  destruct Hr as (Hbuilt & He1 & Hs1). simpl. eapply (suspend_ok _ _ s' ty); try done.
  exists n, sp. rewrite Hd. split_and!; [done|done|]. eapply host_arguments_ok; [exact Hop|done|].
  eapply build_typed_arguments_wf; [|exact Hb]. constructor.
Qed.

Lemma row_tools_elem x ef : x ∈ row_tools ef → ETool x ∈ ef.
Proof. unfold row_tools. intros ([] & Hx & Hy)%list_elem_of_omap; simplify_eq. done. Qed.

Lemma typed_infer_ok b captures ty source sp :
  (∀ n, n ∈ captures → is_Some (bindings s !! n)) → EInfer ∈ row → heffects b ⊆ row → assignable ty t → s' = s →
  advances_ok row out (typed_infer m b captures ty source sp).
Proof.
  intros Hcap Hrow Hb Has ->. unfold typed_infer. destruct (_ =? 0)%N; [eapply raise_ok; [done..|constructor]|].
  destruct (capture_values_ok captures (env m) []) as [captured ->].
  { intros n Hn. destruct (Hcap n Hn) as [u Hu]. destruct (env_lookup cx _ _ _ _ Henv Hu) as (v & -> & _). done. }
  rewrite Hd. destruct (infer_request _ _ _) as [request|] eqn:Hreq.
  2: { eapply raise_ok; [done..|]. apply X_definitions. unfold infer_request in Hreq.
       destruct (ctx_definitions cx); [done|]. destruct (definitions_to_value _); done. }
  simpl. eapply (suspend_ok _ _ s ty); try done. split; [done|]. split.
  - eexists. split; [done|]. intros x Hx. apply Hb. by apply row_tools_elem.
  - exists sp. destruct (is_ok _) eqn:Hj; [left|right]; by split || done.
Qed.

Lemma typed_run_ok p ty ef sp :
  typed top (Hir (KRun p) ty ef sp) s s' → fits row (Hir (KRun p) ty ef sp) → assignable ty t →
  advances_ok row out (typed_run program_hash m p).
Proof.
  intros Ht Hf Has. pose proof (λ x, fits_child _ _ _ _ _ x Ht Hf) as Hfc.
  simpl in Ht. destruct Ht as (Hpt & Hp & o & es & Hty & -> & ->).
  assert (EProgram es ∈ row) as Hrow by (apply (proj2 Hf); by left).
  unfold typed_run. destruct (_ =? 0)%N; [eapply raise_ok; [done..|constructor]|].
  pose proof (eval_ok p s' Hpt (proj1 (Hfc p ltac:(by left))) Hp) as Hr.
  destruct (evaluate_pure _ _ _) as [[v env']|f]; [|by eapply raise_ok].
  destruct Hr as (Hv & He1 & Hs1).
  destruct (decode_program_value _ _) as [value|message] eqn:Hdec; [|by eapply raise_ok, X_program].
  destruct (machine_new (pv_program value)) as [child|message] eqn:Hnew; [|by eapply raise_ok, X_child].
  destruct (inherit_runtime _ _) as [child'|message] eqn:Hin; [|by eapply raise_ok, X_runtime].
  simpl. eapply (suspend_ok _ _ s' o); try done. rewrite Hty in Hv. by exists es, v.
Qed.

Lemma typed_par_ok bs ty ef sp :
  typed top (Hir (KPar bs) ty ef sp) s s' → fits row (Hir (KPar bs) ty ef sp) → assignable ty t →
  advances_ok row out (typed_par m bs).
Proof.
  intros Ht Hf Has. pose proof (λ x, fits_child _ _ _ _ _ x Ht Hf) as Hfc.
  simpl in Ht. destruct Ht as (Hbs & Hnd & Hss & -> & _). unfold typed_par. simpl.
  eapply (suspend_ok _ _ s); try done; [by rewrite <- Hss|].
  exists (map (λ b, (pb_name b, hty (pb_body b))) bs). split_and!; [done| |].
  { rewrite <- list_fmap_compose. exact Hnd. }
  unfold children in Hfc. simpl in Hfc.
  assert (∀ (f : ParBranch → PlanBudget) (m' : PlanMachine) l,
    typed_definitions m' = defs → env m' = env m → branches_typed (typed top) l s →
    (∀ x, x ∈ map pb_body l → fits row x) →
    Forall2 (λ b nt, br_name b = nt.1 ∧ ∃ row', row' ⊆ row ∧ machine_ok row' nt.2 (br_machine b))
      (map (λ b, typed_parallel_branch m' (pb_name b) (pb_body b) (f b)) l)
      (map (λ b, (pb_name b, hty (pb_body b))) l)) as Hall; [|by apply Hall].
  intros f m' l Hd' He'. induction l as [|[n e sp'] l IH]; simpl; [constructor|].
  intros [(s1 & Hte) Hl] Hfit. constructor; [|apply IH; [done|]; intros; apply Hfit; by right].
  split; [done|]. destruct (Hfit e ltac:(by left)) as [Htame Hrow]. exists (heffects e). split; [done|].
  split; [done|]. eapply (R_eval _ _ _ top e [] s s1 (hty e)); try done; simpl.
  - by rewrite He'.
  - apply A_refl.
  - apply K_done, A_refl.
Qed.

Lemma union_pure_children k ty ef sp :
  typed top (Hir k ty ef sp) s s' → is_control k = false →
  match k with KCall _ _ | KInferBody _ _ _ _ | KPar _ | KRun _ | KHost _ _ => False | _ => True end → ef = [].
Proof. intros Ht Hc Hk. destruct k; try done; simpl in Ht; open_hyps; done. Qed.

Lemma advance_typed_ok e :
  typed top e s s' → fits row e → assignable (hty e) t → advances_ok row out (advance_typed program_hash registry m e).
Proof.
  intros Ht Hf Has. destruct e as [k ty ef sp]. unfold advance_typed. simpl in Has.
  destruct (es_is_empty ef && negb (is_control k)) eqn:Hpure.
  { apply andb_true_iff in Hpure as [->%es_is_empty_spec _]. by apply typed_value_ok; [|apply Hf|..]. }
  assert (match k with KCall _ _ | KInferBody _ _ _ _ | KPar _ | KRun _ | KHost _ _ => False | _ => True end →
          is_control k = true) as Hcontrol.
  { intros Hk. destruct (is_control k) eqn:Hc; [done|].
    rewrite (union_pure_children _ _ _ _ Ht Hc Hk) in Hpure. done. }
  pose proof (λ x, fits_child _ _ _ _ _ x Ht Hf) as Hfc.
  destruct k; try (by specialize (Hcontrol I)); clear Hcontrol Hpure.
  - pose proof Ht as (Hne & Hsteps & -> & _). destruct steps as [|e0 steps]; [done|].
    destruct Hsteps as (s1 & He0 & Hsteps). fold (seq_typed (typed top)) in Hsteps.
    eapply (pushed_ok _ e0 top s s1 (hty e0)); try done; [apply Hfc; by left|apply A_refl|].
    eapply (K_seq _ _ top (e0 :: steps) 1 _ s1 s' (hty e0) t); simpl; rewrite ?drop_0; try done.
    + apply Forall_forall. intros c Hc. apply Hfc. by right.
    + rewrite (last_default (hty e0) TNil). exact Has.
  - pose proof Ht as (Hfree & -> & _ & s1 & Hv & ->).
    assert (bindings s1 !! name = None) as Hfree1.
    { eapply tame_bind_free; [apply tame_here, Hf|eapply typed_grows; [exact Hv|apply Hfc; by left]|done|exact Hv]. }
    eapply (pushed_ok _ value top s s1 (hty value)); try done; [apply Hfc; by left|apply A_refl|].
    by eapply K_bind.
  - by eapply typed_if_ok.
  - by eapply typed_match_ok.
  - pose proof Ht as ((s1 & Ta) & (s2 & Tb) & Ba & Bb & _ & ->).
    eapply (pushed_ok _ primary top s s1 ty); try done; [apply Hfc; by left|].
    eapply (K_fallback _ _ top _ _ _ _ s1 s s2 ty t); try done; [apply Hfc; right; by left|by eapply assignable_trans].
  - by eapply typed_map_ok.
  - by eapply typed_call_ok.
  - by eapply typed_application_ok.
  - pose proof Ht as (-> & -> & Hss & cs & s1 & <- & Hcs & _). simpl in Hf. destruct Hf as [_ Hrow]. simpl in Hrow.
    eapply typed_infer_ok; try done.
    + intros n (nt & -> & Hn)%list_elem_of_fmap. rewrite Forall_forall in Hcs. by rewrite (Hcs nt Hn).
    + apply Hrow, es_insert_In. by left.
    + intros x Hx. apply Hrow, es_insert_In. by right.
  - by eapply typed_par_ok.
  - by eapply typed_run_ok.
  - by eapply typed_host_ok.
Qed.
End expression.

(** ** Frames *)

Section frame.
Context (row : EffectSet) (out : Ty) (m : PlanMachine).
Context (Hd : typed_definitions m = defs).

(** A failure unwinds one frame, and a fallback starts its backup. *)
Lemma failure_ok f K s t message :
  accepts row out (f :: K) s t → signal m = Some (SFailure message) → expected message →
  advances_ok row out (resume_frame program_hash registry (set_frames m K) f).
Proof.
  intros Ha Hsig Hx. assert (signal (set_frames m K) = Some (SFailure message)) as Hsig' by done.
  inversion Ha; subst; simpl; unfold on_signal; rewrite Hsig'; simpl; try (split; [done|]; by eapply R_failure).
  eapply pushed_ok; try done. by eapply K_restore.
Qed.

Lemma last_drop_none {A} (l : list A) i (f : A → Ty) t :
  l !! i = None → List.last (map f (drop i l)) t = t.
Proof. intros Hi%lookup_ge_None. by rewrite drop_ge. Qed.

(** A value goes into its frame. *)
Lemma value_ok f K s t v :
  accepts row out (f :: K) s t → signal m = Some (SValue v) → has_type t v → host_scope s → env_typed s (env m) →
  advances_ok row out (resume_frame program_hash registry (set_frames m K) f).
Proof.
  intros Ha Hsig Hv Hs Henv. assert (signal (set_frames m K) = Some (SValue v)) as Hsig' by done.
  inversion Ha as [|top steps next K' ? s' ? t' Hseq Hfit Has HK|name K' ? ? t' Hfree Has HK
    |saved sources K' ? s0 ? He0 Hs0 HK|top backup saved sources K' ? s0 s1 ? t' He0 Hs0 Hb Hfit Hbt Has HK
    |top items next x e results saved sources K' ? s0 s1 u ? t' He0 Hs0 Hfree Hitems Hte Hfit Hres Ht Has HK]; subst;
    simpl; unfold on_signal; rewrite Hsig'.
  - unfold on_sequence. destruct (steps !! next) as [e|] eqn:Hn.
    + rewrite (drop_S _ _ _ Hn) in Hseq, Hfit, Has. destruct Hseq as (s1 & He & Hseq).
      inversion Hfit as [|? ? Hfe Hfs]; subst.
      eapply (pushed_ok row out _ e top s s1 (hty e)); try done; [apply A_refl|].
      eapply (K_seq _ _ top _ _ _ s1 s' (hty e) t'); try done.
      rewrite (last_default (hty e) t). exact Has.
    + rewrite (last_drop_none _ _ _ _ Hn) in Has. rewrite drop_ge in Hseq by (by apply lookup_ge_None). simpl in Hseq. subst s'.
      split; [done|]. eapply (R_value _ _ _ v s t'); try done. by eapply has_subsume.
  - unfold on_typed_bind. simpl. rewrite (env_fresh cx _ _ _ Henv Hfree). simpl.
    assert (∀ m', typed_definitions m' = defs → frames m' = K → env m' = <[name:=v]> (env m) →
      signal m' = Some (SValue JNull) → machine_ok row out m') as Hok.
    { intros m' Hd' Hf' He' Hs'. split; [done|].
      eapply (R_value _ _ _ JNull (scope_insert name t s) t');
        [done|eapply has_subsume; [exact Has|]| | |by rewrite Hf'].
      - split; constructor.
      - unfold EvalSound.host_scope in *. simpl. rewrite lookup_insert_ne; [done|]. intros ->. congruence.
      - rewrite He'. by apply env_insert. }
    destruct (value_provenance m); by apply Hok.
  - split; [done|]. by eapply (R_value _ _ _ v s0 t).
  - split; [done|]. eapply (R_value _ _ _ v s0 t'); try done. by eapply has_subsume.
  - unfold on_typed_map_item. assert (Forall (has_type (hty e)) (results ++ [v])) as Hres'.
    { apply Forall_app. split; [done|]. constructor; [|constructor]. by eapply has_subsume. }
    destruct (items !! next) as [item|] eqn:Hn.
    + eapply (pushed_ok row out _ e top (scope_insert x u s0) s1 (hty e)); try done.
      * unfold EvalSound.host_scope in *. simpl. rewrite lookup_insert_ne; [done|]. intros ->. congruence.
      * simpl. apply env_insert; [done|]. rewrite Forall_forall in Hitems. by apply Hitems, (list_elem_of_lookup_2 _ next).
      * apply A_refl.
      * eapply (K_map _ _ top _ _ _ _ _ _ _ _ _ s0); try done. apply A_refl.
    + split; [done|]. eapply (R_value _ _ _ (JArray (results ++ [v])) s0 t'); try done.
      eapply has_subsume; [exact Has|]. by apply has_list.
Qed.
End frame.

Lemma accepts_done row out s t : accepts row out [] s t → assignable t out.
Proof. by inversion 1. Qed.

Lemma step_ok row out m : machine_ok row out m → advances_ok row out (step program_hash registry m).
Proof.
  intros [Hd Hr]. unfold step. destruct Hr as [top e K s s' t Hf Hsig Ht Hfit Hs Henv Has HK
    |p s s' Hf Hsig Hdp Ht Hfit Hs Henv Has|b captures t source ef sp s Hf Hsig Hrow Hb Hcap Hs Henv Has
    |v s t Hsig Hv Hs Henv HK|message s t Hsig Hx HK].
  - rewrite Hf. simpl. unfold on_start. simpl. rewrite Hsig.
    by eapply (advance_typed_ok row out (set_frames m K) top s s' t).
  - rewrite Hf. simpl. unfold on_start. simpl. rewrite Hsig.
    eapply (pushed_ok row out _ (body p) true s s' out); try done. apply K_done, A_refl.
  - rewrite Hf. simpl. unfold on_start. simpl. rewrite Hsig.
    destruct (es_is_empty _ && _) eqn:Hpure.
    { exfalso. apply andb_true_iff in Hpure as [He%es_is_empty_spec _].
      assert (EInfer ∈ @nil Effect) as Hin by (rewrite <- He; apply es_insert_In; by left). by apply elem_of_nil in Hin. }
    eapply (typed_infer_ok row out (set_frames m []) s s t); try done. { by apply K_done. } apply A_refl.
  - destruct (frames m) as [|f K] eqn:Hf; [|by eapply value_ok].
    rewrite Hsig. simpl. eapply has_subsume; [by eapply accepts_done|done].
  - destruct (frames m) as [|f K] eqn:Hf; [|by eapply failure_ok]. rewrite Hsig. done.
Qed.

(** The whole advance. *)
Lemma advance_ok row out m :
  machine_ok row out m → running m → advances_ok row out (advance_machine program_hash registry m) ∧
  (∀ m', advance_machine program_hash registry m ≠ Continue m').
Proof.
  intros Hok [Ht Hp]. pose proof (advance_running program_hash registry m (conj Ht Hp)) as Hrun.
  unfold advance_machine in *. rewrite Ht, Hp in *.
  destruct (iterate_reaches program_hash registry (N.succ_pos (machine_weight m)) m) as (m0 & Hr & Hm).
  assert (machine_ok row out m0) as Hok0.
  { clear Hm Ht Hp Hrun. induction Hr as [|m1 m2 m3 Hs _ IH]; [done|]. apply IH.
    pose proof (step_ok row out m1 Hok) as Hs'. unfold continues in Hs. by rewrite Hs in Hs'. }
  apply step_ok in Hok0. destruct (iterate _ _ _ m) as [m'|m' a|]; [done| |].
  - rewrite Hm in Hok0. split; [done|]. by intros ?.
  - rewrite Hm in Hok0. done.
Qed.

Lemma resume_ok row out m e :
  waits_ok row out m e → ∃ te, effect_ok row e te ∧
    ∀ n outcome m', answers te outcome → resume_effect m n outcome = Ok m' → machine_ok row out m'.
Proof.
  intros (Hp & Hd & s & t & te & Hs & Henv & HK & Has & He). exists te. split; [done|].
  intros n outcome m' Hout. unfold resume_effect. rewrite Hp. destruct (negb _); [done|]. intros [= <-].
  split; [done|]. destruct outcome as [v|message].
  - eapply (R_value _ _ _ v s t); try done. by eapply has_subsume.
  - eapply (R_failure _ _ _ _ s t); try done. apply X_effect.
Qed.
End soundness.
