(* ===== verification/PlanSamples.v ===== *)
(** * Sample programs for the plan machine

    Decidable equality of programs, and with it a codec that keeps the laws and can carry one
    given program value: the theorems about admitted programs are applied with it. *)

From stdpp Require Import base list gmap strings.
From Stdlib Require Import NArith ZArith.
From S2P Require Import Prelude Types JsonValue Diagnostic Hir Decode Eval Text Plan.

(** Decides an equality between applications of constructors argument by argument.  No equality
    proof is matched on, so that a decision evaluates. *)
Ltac compare_arguments a b :=
  lazymatch a with
  | ?f ?x => lazymatch b with ?g ?y =>
      compare_arguments f g; destruct (decide (x = y)); [|right; congruence] end
  | _ => idtac
  end.
Ltac decide_fields :=
  lazymatch goal with |- Decision (?a = ?b) => compare_arguments a b; left; congruence end.
Ltac decide_constructors :=
  intros a b; destruct a, b; try (right; discriminate); decide_fields.

#[export] Instance location_eq_dec : EqDecision SourceLocation.
Proof. decide_constructors. Defined.
#[export] Instance span_eq_dec : EqDecision SourceSpan.
Proof. decide_constructors. Defined.
#[export] Instance literal_eq_dec : EqDecision Literal.
Proof. decide_constructors. Defined.
#[export] Instance operator_eq_dec : EqDecision PureOperator.
Proof. decide_constructors. Defined.
#[export] Instance match_binding_eq_dec : EqDecision MatchBinding.
Proof. decide_constructors. Defined.

Fixpoint hir_decide (a b : HirExpr) {struct a} : Decision (a = b)
with kind_decide (a b : HirKind) {struct a} : Decision (a = b)
with argument_decide (a b : NamedArgument) {struct a} : Decision (a = b)
with case_decide (a b : MatchCase) {struct a} : Decision (a = b)
with branch_decide (a b : ParBranch) {struct a} : Decision (a = b).
Proof.
  all: pose (hir_decide : EqDecision HirExpr) as D1; pose (kind_decide : EqDecision HirKind) as D2;
    pose (argument_decide : EqDecision NamedArgument) as D3; pose (case_decide : EqDecision MatchCase) as D4;
    pose (branch_decide : EqDecision ParBranch) as D5.
  all: destruct a, b; try (right; discriminate).
  all: decide_fields.
Defined.
#[export] Instance hir_eq_dec : EqDecision HirExpr := hir_decide.

#[export] Instance field_eq_dec : EqDecision FieldDefinition.
Proof. decide_constructors. Defined.
#[export] Instance variant_eq_dec : EqDecision VariantDefinition.
Proof. decide_constructors. Defined.
#[export] Instance definition_eq_dec : EqDecision TypeDefinition.
Proof. decide_constructors. Defined.
#[export] Instance requirements_eq_dec : EqDecision Requirements.
Proof. decide_constructors. Defined.
#[export] Instance owner_eq_dec : EqDecision EvaluationOwner.
Proof. decide_constructors. Defined.
#[export] Instance program_eq_dec : EqDecision Program.
Proof. decide_constructors. Defined.
#[export] Instance plan_value_eq_dec : EqDecision PlanValue.
Proof. decide_constructors. Defined.
#[export] Instance plan_argument_eq_dec : EqDecision PlanArgument.
Proof. decide_constructors. Defined.

Fixpoint node_decide (a b : PlanNode) {struct a} : Decision (a = b).
Proof.
  pose (node_decide : EqDecision PlanNode) as D. destruct a, b; try (right; discriminate).
  all: decide_fields.
Defined.
#[export] Instance node_eq_dec : EqDecision PlanNode := node_decide.

#[export] Instance plan_program_eq_dec : EqDecision PlanProgram.
Proof. decide_constructors. Defined.
#[export] Instance provenance_eq_dec : EqDecision ProgramValueProvenance.
Proof. decide_constructors. Defined.
#[export] Instance program_value_eq_dec : EqDecision PlanProgramValue.
Proof. decide_constructors. Defined.

(** ** The codec *)

(** It writes the given program value, and nothing else. *)
Definition single_codec (value : PlanProgramValue) : PlanCodec := {|
  hir_to_vec _ := [];
  definitions_to_value _ := Some JNull;
  program_value_to_value v := if decide (v = value) then Some JNull else None;
  program_value_from_value _ := Some value
|}.

Lemma single_codec_laws value : @PlanCodecLaws (single_codec value).
Proof.
  split; intros v j; simpl; destruct (decide (v = value)) as [->|]; [done|done|intros [= <-]; constructor|done].
Qed.
