(* ===== verification/PlanAdmission.v ===== *)
(** * Programs at the boundary of the plan machine (morphz/src/sexpr_eval.rs)

    What turns source text into a program the machine may run: the tool gate, the profile the
    analyzer sees of the registered tools, the validation of a source, the admission of a
    program that a model wrote, the decoding of a model's answer, and the evaluator that
    drives a machine to its end inside one process. *)

From stdpp Require Import base list gmap strings.
From Stdlib Require Import NArith ZArith.
From S2P Require Import Prelude Types JsonValue Diagnostic Syntax Canonical Hir Decode JsonBoundary StrictJson Declarations Analyzer Eval Text Plan PlanSteps.

Local Open Scope N_scope.

(** ** Errors *)

(** morphz/src/sexpr_eval.rs:136-141 [EvalError]. *)
Record EvalError : Type := mkEvalError { ee_message : Message; ee_diagnostic : option Diagnostic }.
(** morphz/src/sexpr_eval.rs:151-158 [From<String> for EvalError]. *)
Definition eval_error (m : Message) : EvalError := mkEvalError m None.

(** ** Tool gates *)

(** morphz/src/sexpr_eval.rs:494-497 [ToolGate]. *)
Record ToolGate : Type := mkGate { is_callable : str → bool; describe_refusal : str → str }.

(** morphz/src/sexpr_eval.rs:500-525 [AllowList]; the set is kept sorted, as the refusal prints it. *)
Definition allow_list (names : list str) : ToolGate :=
  let allowed := fold_left (λ s n, bs_insert n s) names [] in
  mkGate (λ tool, bs_contains tool allowed)
    (λ tool, s! "tool '" ++ tool
             ++ s! "' is not callable from an eval program; this boundary accepts only "
             ++ join s! ", " allowed ++ s! ". Use ordinary Function Calling for other tools.").

(** ** Signatures *)

(** morphz/src/sexpr_eval.rs:808-824 [yao_type_from_json_schema].  The recursion goes into the
    schema of the items. *)
Fixpoint yao_type_from_json_schema (schema : Json) : Ty :=
  match schema with
  | JObject fields =>
      let items := (fix find (l : list (str * Json)) : option Ty :=
        match l with
        | [] => None
        | (k, v) :: l => if s! "items" =s k then Some (yao_type_from_json_schema v) else find l
        end) fields in
      match bm_get s! "type" fields ≫= jas_str with
      | Some kind =>
          if kind =s s! "null" then TNil
          else if kind =s s! "boolean" then TBool
          else if kind =s s! "integer" then TInt
          else if kind =s s! "number" then TFloat
          else if kind =s s! "string" then TString
          else if kind =s s! "array" then TList (default TJson items)
          else if kind =s s! "object" then TMap TJson
          else TJson
      | None => TJson
      end
  | _ => TJson
  end.

(** morphz/src/sexpr_eval.rs:776-806 [tool_signature_from_json_schema]. *)
Definition tool_signature_from_json_schema (schema : Json) : ToolSignature :=
  let arguments :=
    match jget s! "properties" schema ≫= jas_object with
    | Some properties => bm_of_list (map (λ '(name, schema), (name, yao_type_from_json_schema schema)) properties)
    | None => []
    end in
  let required :=
    match jget s! "required" schema ≫= jas_array with
    | Some items => fold_left (λ s n, bs_insert n s) (omap jas_str items) []
    | None => []
    end in
  mkSignature arguments required TJson.

(** morphz/src/sexpr_eval.rs:826-837 [objective_transition_result_type]. *)
Definition objective_transition_result_type : Ty :=
  TStructuralRecord (bm_of_list
    [(s! "status", TString); (s! "proposal_id", TString); (s! "objective_id", TJson);
     (s! "before_revision", TJson); (s! "after_revision", TJson); (s! "objective_status", TString);
     (s! "detail", TJson)]).

(** morphz/src/sexpr_eval.rs:717-774 [offline_host_signature]. *)
Definition offline_host_signature (name : str) : option ToolSignature :=
  let signature arguments required result :=
    Some (mkSignature (bm_of_list arguments) (fold_left (λ s n, bs_insert n s) required []) result) in
  if name =s s! "evidence.commit" then
    signature [(s! "candidate", TEvidenceCandidate)] [s! "candidate"] (TRef s! "Evidence")
  else if name =s s! "outcome.commit" then
    signature [(s! "candidate", TOutcomeCandidate)] [s! "candidate"] (TRef s! "Outcome")
  else if name =s s! "objective.report" then
    signature [(s! "objective", TRef s! "Objective"); (s! "progress", TJson);
               (s! "evidence", TList (TRef s! "Evidence"))]
      [s! "objective"; s! "progress"] objective_transition_result_type
  else if name =s s! "objective.propose-wait" then
    signature [(s! "objective", TRef s! "Objective"); (s! "condition", TJson); (s! "reason", TString)]
      [s! "objective"; s! "condition"; s! "reason"] objective_transition_result_type
  else if name =s s! "objective.propose-completion" then
    signature [(s! "objective", TRef s! "Objective"); (s! "outcome", TRef s! "Outcome")]
      [s! "objective"; s! "outcome"] objective_transition_result_type
  else if name =s s! "context.propose" then
    signature [(s! "transaction", TContextTransaction)] [s! "transaction"]
      (TStructuralRecord (bm_of_list
        [(s! "status", TString); (s! "proposal_id", TString); (s! "transaction_id", TJson);
         (s! "before_revision", TJson); (s! "after_revision", TJson); (s! "detail", TJson)]))
  else None.

(** morphz/src/sexpr_eval.rs:679-715 [MorphzAnalysisProfile]. *)
Definition morphz_profile (registry : Registry) (gate : ToolGate) : AnalysisProfile := {|
  tool_signature name :=
    tool ← registry !! name;
    if negb (is_callable gate name) || negb (tool_physical tool) then None
    else Some (tool_signature_from_json_schema (tool_parameters tool));
  unavailable_tool_reason name :=
    tool ← registry !! name;
    if negb (is_callable gate name) then Some (describe_refusal gate name)
    else if negb (tool_physical tool) then
      Some (s! "tool '" ++ name
            ++ s! "' is a Runtime control tool and cannot be called from a durable Yao physical Plan")
    else None;
  implicit_binding name := if name =s s! "runtime" then Some runtime_environment_type else None;
  host_signature := offline_host_signature
|}.

(** ** Validation *)

Section validation.
Context `{CharClass} (program_hash : Program → str).

(** morphz/src/sexpr_eval.rs:631-677 [validate_typed_with_module]. *)
Definition validate_typed_with_module (source : str) (type_sources function_sources : list str)
    (allow_internal : bool) (registry : Registry) (gate : ToolGate) : result EvalError PlanProgram :=
  typed ← map_err (λ d, mkEvalError (Msg "Yao typed admission failed: {diagnostic}" [AMsg (message d)]) (Some d))
            (@analyze_with_module _ (morphz_profile registry gate) program_hash source type_sources
               function_sources allow_internal analysis_limits_default);
  Ok (mkPlanProgram (owner typed) (NTyped typed) (row_tools (effects typed)) (req_tools (requirements typed))).

(** morphz/src/sexpr_eval.rs:623-629 [validate_typed]. *)
Definition validate_typed (source : str) (registry : Registry) (gate : ToolGate) : result EvalError PlanProgram :=
  validate_typed_with_module source [] [] false registry gate.

(** morphz/src/sexpr_eval.rs:532-538 [validate]. *)
Definition validate (source : str) (registry : Registry) (gate : ToolGate) : result EvalError PlanProgram :=
  validate_typed source registry gate.

(** morphz/src/sexpr_eval.rs:563-579 [validate_with_module]. *)
Definition validate_with_module (source : str) (type_sources function_sources : list str)
    (allow_internal : bool) (registry : Registry) (gate : ToolGate) : result EvalError PlanProgram :=
  validate_typed_with_module source type_sources function_sources allow_internal registry gate.

(** morphz/src/sexpr_eval.rs:543-558 [validate_with_functions]. *)
Definition validate_with_functions (source : str) (function_sources : list str)
    (allow_internal : bool) (registry : Registry) (gate : ToolGate) : result EvalError PlanProgram :=
  validate_with_module source [] function_sources allow_internal registry gate.

(** morphz/src/sexpr_eval.rs:200-203 [ProgramHeader]. *)
Record ProgramHeader : Type := mkHeader { ph_owner : EvaluationOwner; ph_declared_tools : option (list str) }.

(** morphz/src/sexpr_eval.rs:924-948 [parse_typed_requires_tools], on the clauses after the head. *)
Fixpoint parse_typed_requires_tools (clauses : list Expr) (tools : option (list str))
    : result EvalError (list str) :=
  match clauses with
  | [] => Ok (default [] tools)
  | clause :: clauses =>
      parts ← ok_or (as_list clause)
                (eval_error (Msg "every (requires ...) declaration must be a list" []));
      if negb (head_is parts s! "tools") then parse_typed_requires_tools clauses tools
      else if is_some tools then
        Err (eval_error (Msg "(requires ...) cannot declare tools more than once" []))
      else
        declared ← traverse (λ tool, ok_or (as_symbol tool)
                               (eval_error (Msg "(tools ...) may contain only tool names" []))) (tail parts);
        parse_typed_requires_tools clauses (Some declared)
  end.

(** morphz/src/sexpr_eval.rs:877-922 [inspect_program_source]. *)
Definition inspect_program_source (source : str) : result EvalError ProgramHeader :=
  root ← map_err (λ d, mkEvalError (Msg "program is not valid Yao source: {diagnostic}" [AMsg (message d)]) (Some d))
           (parse_one source parse_limits_default);
  items ← ok_or (as_list root) (eval_error (Msg "program root must explicitly be eval or infer" []));
  owner ← match head items ≫= as_symbol with
          | Some name =>
              if name =s s! "eval" then Ok Runtime
              else if name =s s! "infer" then Ok Model
              else Err (eval_error (Msg "unknown Yao program root '{other}'; use an explicit (eval ...) or (infer ...) root"
                                      [AStr name]))
          | None => Err (eval_error (Msg "Yao program root is missing its evaluator name" []))
          end;
  let second := (items !! 1%nat) ≫= as_list in
  let second_is name := match second with Some parts => head_is parts name | None => false end in
  if second_is s! "version" then
    Err (eval_error (Msg "Yao source does not support an in-band version declaration; remove (version ...)" []))
  else
    match second with
    | Some parts =>
        if head_is parts s! "requires" then
          tools ← parse_typed_requires_tools (tail parts) None;
          Ok (mkHeader owner (Some tools))
        else Ok (mkHeader owner None)
    | None => Ok (mkHeader owner None)
    end.
End validation.

(** ** Answers of a model *)

(** morphz/src/sexpr_eval.rs:1393-1415 [RuntimeInference], and the execution of a tool, with the state [W] of the world they act on. *)
Class Host (W : Type) : Type := {
  execute : str → str → W → result Message str * W;
  infer_typed : JsonMap → option (list str) → InferResultKind → W → result Message str * W
}.

Section answers.
Context `{CharClass} `{Digest} `{PlanCodec} `{JsonText} (program_hash : Program → str).

(** morphz/src/sexpr_eval.rs:377-386 [encode_program_value]. *)
Definition encode_program_value (value : PlanProgramValue) : result Message Json :=
  representation ← ok_or (program_value_to_value value) (Msg "failed to serialize Program Value: {error}" []);
  Ok (tagged [("kind", jstr "program"); ("hash", JString (pv_hash value)); ("value", representation)]).

(** morphz/src/sexpr_eval.rs:442-490 [admit_program_value_candidate]. *)
Definition admit_program_value_candidate (expected_output : Ty) (expected_effects : EffectSet)
    (source : str) (registry : Registry) (provenance : ProgramValueProvenance) : result Message Json :=
  let source := trim source in
  if bool_decide (source = []) then
    Err (Msg "Program Value result must be one raw Yao (eval ...) or (infer ...) source" [])
  else
    program ← map_err ee_message
                (validate_typed program_hash source registry (allow_list (row_tools expected_effects)));
    typed ← ok_or (typed_program program)
              (Msg "Program Value candidate did not produce a typed Yao Program" []);
    let effective_effects := program_value_effects program typed in
    if negb (is_assignable_to (output typed) expected_output) then
      Err (Msg "Program Value output {:?} is not assignable to declared type {:?}"
             [ATy (output typed); ATy expected_output])
    else if negb (es_is_subset effective_effects expected_effects) then
      Err (Msg "Program Value effects {:?} exceed declared upper bound {:?}"
             [AEffects effective_effects; AEffects expected_effects])
    else
      encode_program_value
        (mkProgramValue (source_hash typed) (program_canonical_source typed) program (output typed)
           effective_effects provenance).

(** morphz/src/sexpr_eval.rs:2982-3024 [decode_infer_result]. *)
Definition decode_infer_result (kind : InferResultKind) (value : Json) : result Message Json :=
  match kind with
  | JsonResult ty definitions span =>
      transport ← match value with
                  | JString text =>
                      map_err (λ e, Msg "infer result for {ty:?} is not valid JSON: {error}" [ATy ty; AMsg e])
                        (parse_strict_json (trim text))
                  | value => Ok value
                  end;
      map_err (λ f, Msg "infer result does not satisfy {ty:?}: {error}" [ATy ty; AMsg (fmessage f)])
        (from_json ty transport definitions span)
  | YaoResult ty definitions span =>
      match ty with
      | TProgram _ _ =>
          Err (Msg "Program candidate cannot be accepted by an ordinary decoder; Runtime admission is required" [])
      | _ =>
          transport ← match value with
                      | JString text =>
                          ok_or (json_from_str (trim text))
                            (Msg "infer declared a typed Yao result, but the final body is not valid JSON transport: {error}" [])
                      | structured => Ok structured
                      end;
          map_err (λ f, Msg "infer result does not satisfy Yao type {ty:?}: {error}" [ATy ty; AMsg (fmessage f)])
            (decode_value definitions span ty transport)
      end
  end.

(** morphz/src/sexpr_eval.rs:3026-3047 [decode_infer_result_with_admission]. *)
Definition decode_infer_result_with_admission (kind : InferResultKind) (value : Json)
    (registry : Registry) (provenance : ProgramValueProvenance) : result Message Json :=
  match kind with
  | YaoResult (TProgram output effects) _ _ =>
      match value with
      | JString source => admit_program_value_candidate output effects source registry provenance
      | _ => Err (Msg "Program Value result must be one raw Yao (eval ...) or (infer ...) source" [])
      end
  | other => decode_infer_result other value
  end.

(** morphz/src/sexpr_eval.rs:2972-2974 [as_json]. *)
Definition as_json (output : str) : Json := default (JString output) (json_from_str output).

(** ** The evaluator of one process *)

Context `{Host W} (registry : Registry).

Definition in_process_provenance : ProgramValueProvenance :=
  mkProvenance s! "in-process" s! "in-process" None s! "yao-0.1".

(** The failures of the branches, [name: error] joined by semicolons. *)
Definition join_failures (failures : list (str * Message)) : Message :=
  Msg "{name}: {error}; .." (concat (map (λ f, [AStr f.1; AMsg f.2]) failures)).

(** morphz/src/sexpr_eval.rs:2809-2838 [evaluate_machine: Parallel]: the branches one after the other. *)
Fixpoint evaluate_branches (evaluate : PlanMachine → W → option (result Message Json * W))
    (branches : list PlanParallelBranch) (fields : list (str * Json)) (failures : list (str * Message)) (w : W)
    : option (result Message Json * W) :=
  match branches with
  | [] =>
      Some (match failures with
            | [] => Ok (structural_record_value fields)
            | _ => Err (join_failures failures)
            end, w)
  | b :: branches =>
      '(r, w) ← evaluate (br_machine b) w;
      match r with
      | Ok value => evaluate_branches evaluate branches (fields ++ [(br_name b, value)]) failures w
      | Err e => evaluate_branches evaluate branches fields (failures ++ [(br_name b, e)]) w
      end
  end.

(** morphz/src/sexpr_eval.rs:2772-2849 [evaluate_machine: outcome]: the delivery of one effect; a tool that is no longer registered ends the evaluation. *)
Definition deliver (evaluate : PlanMachine → W → option (result Message Json * W)) (effect : PlanEffect) (w : W)
    : option (result Message (result Message Json) * W) :=
  match effect with
  | PCall _ tool arguments =>
      match registry !! tool with
      | None => Some (Err (Msg "tool '{tool}' disappeared before effect delivery" [AStr tool]), w)
      | Some _ =>
          let '(r, w) := execute tool (json_to_string arguments) w in Some (Ok (as_json <$> r), w)
      end
  | PInfer _ request tools kind =>
      let '(r, w) := infer_typed request tools kind w in
      Some (Ok (value ← r; decode_infer_result_with_admission kind (JString value) registry in_process_provenance), w)
  | PParallel _ branches => '(r, w) ← evaluate_branches evaluate branches [] [] w; Some (Ok r, w)
  | PProgram _ _ child => '(r, w) ← evaluate child w; Some (Ok r, w)
  | PHost _ operation _ _ =>
      Some (Ok (Err (Msg "in-process convenience evaluator has no Morphz authority and cannot execute host operation '{operation}'"
                       [AStr operation])), w)
  end.

(** morphz/src/sexpr_eval.rs:2761-2854 [evaluate_machine]; [None] when the fuel ran out. *)
Fixpoint evaluate_machine (fuel : nat) (machine : PlanMachine) (w : W) : option (result Message Json * W) :=
  match fuel with
  | O => None
  | S fuel =>
      match advance_machine program_hash registry machine with
      | Return _ (Complete value) => Some (Ok value, w)
      | Return _ (Failed error) => Some (Err error, w)
      | Return machine (Suspended effect) =>
          '(r, w) ← deliver (evaluate_machine fuel) effect w;
          match r with
          | Err error => Some (Err error, w)
          | Ok outcome =>
              match resume_effect machine (sequence effect) outcome with
              | Err error => Some (Err error, w)
              | Ok machine => evaluate_machine fuel machine w
              end
          end
      | Continue _ | Panic => None
      end
  end.

(** morphz/src/sexpr_eval.rs:2753-2759 [evaluate]. *)
Definition evaluate (fuel : nat) (program : PlanProgram) (w : W) : option (result Message Json * W) :=
  match machine_new program with
  | Err error => Some (Err error, w)
  | Ok machine => evaluate_machine fuel machine w
  end.
End answers.
