(* ===== verification/PlanRun.v ===== *)
(** * Running admitted programs

    The evaluator of one process ends whatever its tools and its model answer; a program that
    validation accepted runs safely on the machine against every host that keeps the types of
    its effects; and a program that a model wrote is admitted as a value that the machine
    accepts, inside the declared type and effects. *)

From stdpp Require Import base list gmap strings relations.
From Stdlib Require Import NArith ZArith Lia Wf_nat.
From S2P Require Import Prelude Types JsonValue Diagnostic Syntax Hir Decode DecodeFacts JsonBoundary JsonBoundaryFacts JsonRoundTrip ValueFacts StrictJson Identity Eval Declarations Analyzer DeclarationFacts Typing AnalyzerSound ProgramSound EvalSound Text Plan PlanSteps PlanFacts PlanSound PlanSamples PlanAdmission.

Local Open Scope N_scope.

(** ** The evaluator ends *)

Section evaluator.
Context `{CharClass} `{Digest} `{PlanCodec} `{JsonText} (program_hash : Program → str).
Context `{Host W} (registry : Registry).
Local Abbreviation evaluate_machine := (evaluate_machine program_hash registry).
Local Abbreviation deliver := (deliver program_hash registry).
Local Abbreviation advance := (advance_machine program_hash registry).

(** With enough fuel, a result that more fuel does not change. *)
Definition settles {A} (f : nat → option A) : Prop := ∃ n r, ∀ k, (n <= k)%nat → f k = Some r.

Definition machine_settles (m : PlanMachine) : Prop := ∀ w : W, settles (λ k, evaluate_machine k m w).

Lemma settles_const {A} (r : A) : settles (λ _, Some r).
Proof. by exists 0%nat, r. Qed.

Lemma settles_bind {A B} (f : nat → option A) (g : nat → A → option B) :
  settles f → (∀ a, settles (λ k, g k a)) → settles (λ k, f k ≫= g k).
Proof.
  intros (n & a & Hf) Hg. destruct (Hg a) as (n' & b & Hb). exists (n + n')%nat, b.
  intros k Hk. rewrite Hf by lia. simpl. apply Hb. lia.
Qed.

Lemma branches_settle bs fields failures w :
  Forall (λ b, machine_settles (br_machine b)) bs →
  settles (λ k, evaluate_branches (evaluate_machine k) bs fields failures w).
Proof.
  intros Hall. revert fields failures w. induction Hall as [|b bs Hb _ IH]; intros fields failures w; simpl.
  { apply settles_const. }
  apply (settles_bind (λ k, evaluate_machine k (br_machine b) w)); [apply Hb|].
  intros [[v|e] w']; apply IH.
Qed.

(** The children of an effect settle. *)
Definition children_settle (e : PlanEffect) : Prop :=
  match e with
  | PParallel _ bs => Forall (λ b, machine_settles (br_machine b)) bs
  | PProgram _ _ child => machine_settles child
  | _ => True
  end.

Lemma deliver_settles e w : children_settle e → settles (λ k, deliver (evaluate_machine k) e w).
Proof.
  intros Hc. destruct e; simpl in *.
  - destruct (registry !! tool); [destruct (execute _ _ _)|]; apply settles_const.
  - destruct (infer_typed _ _ _ _); apply settles_const.
  - apply (settles_bind (λ k, evaluate_branches (evaluate_machine k) branches [] [] w)); [by apply branches_settle|].
    intros []. apply settles_const.
  - apply (settles_bind (λ k, evaluate_machine k machine w)); [apply Hc|]. intros []. apply settles_const.
  - apply settles_const.
Qed.

(** One round: the effect, and what follows it. *)
Lemma machine_round m :
  (∃ m1 a, advance m = Return m1 a ∧
     ∀ e, a = Suspended e → children_settle e ∧
       ∀ outcome m2, resume_effect m1 (sequence e) outcome = Ok m2 → machine_settles m2) →
  machine_settles m.
Proof.
  intros (m1 & a & Ha & He) w.
  cut (settles (λ k, evaluate_machine (S k) m w)).
  { intros (n & r & Hn). exists (S n), r. intros [|k] Hk; [lia|]. apply Hn. lia. }
  simpl. rewrite Ha. destruct a as [e|v|msg]; [|apply settles_const..].
  destruct (He e eq_refl) as [Hc Hm].
  apply (settles_bind (λ k, deliver (evaluate_machine k) e w)); [by apply deliver_settles|].
  intros [[outcome|error] w']; [|apply settles_const].
  destruct (resume_effect m1 (sequence e) outcome) as [m2|error] eqn:Hr; [|apply settles_const].
  by apply (Hm outcome).
Qed.

Lemma branch_budget b bs : b ∈ bs → budget_le (budget (br_machine b)) (branches_budget bs).
Proof.
  induction bs as [|c bs IH]; [by intros ?%elem_of_nil|]. intros [->|Hb%IH]%elem_of_cons; simpl;
    unfold budget_le, budget_add in *; simpl; lia.
Qed.

(** The fuel of a machine: programs nest, and within one program the weight decreases. *)
Lemma machines_settle m :
  running m → machine_valued m = true → budget_ok (budget m) → machine_settles m.
Proof.
  remember (programs_left (budget m)) as k eqn:Hk. revert m Hk.
  induction k as [k IHk] using (well_founded_induction N.lt_wf_0). intros m.
  remember (machine_weight m) as n eqn:Hn. revert m Hn.
  induction n as [n IHn] using (well_founded_induction N.lt_wf_0). intros m -> -> Hrun Hv Hok.
  apply machine_round. pose proof (advance_running program_hash registry m Hrun) as Hadv.
  pose proof (iterate_valued program_hash registry (N.succ_pos (machine_weight m)) m Hv) as Hval.
  unfold advance_machine in *. destruct Hrun as [Ht Hp]. rewrite Ht, Hp in *.
  destruct (iterate _ _ _ m) as [m1|m1 a|]; [done| |done].
  exists m1, a. split; [done|]. intros e ->.
  destruct Hadv as [(e' & [= <-] & Hpe & Hte & Hw & Hs & Hseq & Hb & Hc)|(t & Hbad & _)]; [|by destruct t].
  specialize (Hb Hok).
  assert (∀ c, running c → machine_valued c = true → budget_le (budget c) (budget m) →
    programs_left (budget c) < programs_left (budget m) ∨ machine_weight c < machine_weight m →
    machine_settles c) as Hless.
  { intros c Hcr Hcv Hcb Hor. assert (budget_ok (budget c)) as Hcok by (by eapply budget_ok_le).
    destruct (N.lt_trichotomy (programs_left (budget c)) (programs_left (budget m))) as [Hlt|[Heq|Hgt]].
    - by apply (IHk _ Hlt).
    - destruct Hor as [Hlt|Hlt]; [lia|]. by apply (IHn _ Hlt c).
    - destruct Hcb as (_ & _ & Hcb). lia. }
  split.
  - destruct e; try done; simpl in Hc, Hb |- *.
    + apply Forall_forall. intros b Hin. rewrite Forall_forall in Hc. destruct (Hc b Hin) as (Hbr & Hbv & Hbw).
      apply Hless; [done..| |by right]. etrans; [by apply branch_budget|]. by eapply budget_le_add_l.
    + destruct Hc as [Hcr Hcv]. apply Hless; [done..| |left; unfold budget_le, budget_add in Hb; simpl in Hb; lia].
      unfold budget_le, budget_add in *. simpl in Hb. lia.
  - intros outcome m2 (e0 & _ & _ & Hp2 & Ht2 & Hf2 & Hb2 & _)%resume_effect_Ok.
    apply Hless; [split; congruence|unfold machine_valued; rewrite Hf2; exact Hval| |right].
    + rewrite Hb2. by eapply budget_le_add_r.
    + unfold machine_weight in *. by rewrite Hf2.
Qed.

(** C29. The evaluator of one process always ends: whatever the tools and the model answer, and in
    whatever state they leave the world, the evaluation of a program that carries a typed body
    returns a value or an error, with some amount of fuel and with every larger one. *)
Theorem evaluate_terminates p typed w :
  typed_program p = Some typed →
  ∃ fuel r, ∀ fuel', (fuel <= fuel')%nat → evaluate program_hash registry fuel' p w = Some r.
Proof.
  intros Ht. unfold evaluate. destruct (machine_new p) as [m|e] eqn:Hm; [|apply settles_const].
  apply machines_settle; [by eapply machine_new_running|by eapply machine_new_valued|].
  apply machine_new_running in Hm as [_ ->]. unfold budget_ok, budget_le. simpl. done.
Qed.
End evaluator.

(** ** Safe runs *)

Section runs_safely.
Context `{AnalysisProfile} `{Digest} `{PlanCodec} (program_hash : Program → str) (registry : Registry)
  (defs : Definitions).
Local Abbreviation advance := (advance_machine program_hash registry).

(** A safe run, against every host that answers in the type of the effect: it ends, with a value
    that [out] admits or an expected failure, and on the way it asks only for effects of the
    row, whose branches run safely. *)
Inductive runs_safely : EffectSet → (Json → Prop) → PlanMachine → Prop :=
| runs_complete row (out : Json → Prop) m m1 v : advance m = Return m1 (Complete v) → out v → runs_safely row out m
| runs_failed row out m m1 message :
    advance m = Return m1 (Failed message) → expected program_hash registry defs message → runs_safely row out m
| runs_effect row out m m1 e t :
    advance m = Return m1 (Suspended e) → asks program_hash defs row e t →
    (∀ outcome m2, answers defs t outcome → resume_effect m1 (sequence e) outcome = Ok m2 → runs_safely row out m2) →
    runs_safely row out m
| runs_parallel row out m m1 n bs ts :
    advance m = Return m1 (Suspended (PParallel n bs)) → NoDup ts.*1 →
    Forall2 (λ b nt, br_name b = nt.1 ∧ ∃ row', row' ⊆ row ∧ runs_safely row' (has_type defs nt.2) (br_machine b)) bs ts →
    (∀ outcome m2, answers defs (TStructuralRecord (bm_of_list ts)) outcome →
       resume_effect m1 n outcome = Ok m2 → runs_safely row out m2) →
    runs_safely row out m.
End runs_safely.

Section machine.
Context `{CharClass} `{AnalysisProfile} `{Digest} `{PlanCodec} (program_hash : Program → str)
  (registry : Registry) (cx : Ctx) (rt : Ty).
Context (Hdefs : definitions_ok (ctx_definitions cx))
  (Hhost : ∀ n, implicit_binding n = if n =s s! "runtime" then Some rt else None).
Local Abbreviation defs := (ctx_definitions cx).


Lemma typed_machine_safe row out m :
  machine_ok program_hash registry cx rt row out m → running m → runs_safely program_hash registry defs row (has_type defs out) m.
Proof.
  remember (machine_weight m) as n eqn:Hn. revert row out m Hn.
  induction n as [n IH] using (well_founded_induction N.lt_wf_0). intros row out m -> Hok Hrun.
  pose proof (advance_running program_hash registry m Hrun) as Hadv.
  destruct (advance_ok program_hash registry cx rt Hdefs Hhost row out m Hok Hrun) as [Ha Hc].
  destruct (advance_machine program_hash registry m) as [m1|m1 a|] eqn:Hm; [by destruct (Hc m1)| |done].
  destruct a as [e|v|message]; [|by eapply runs_complete|by eapply runs_failed].
  destruct Hadv as [(e' & [= <-] & _ & _ & Hw & _ & _ & _ & Hch)|(t & Hbad & _)]; [|by destruct t].
  apply resume_ok in Ha as (te & He & Hres).
  assert (∀ outcome m2, answers defs te outcome → resume_effect m1 (sequence e) outcome = Ok m2 →
    runs_safely program_hash registry defs row (has_type defs out) m2) as Hnext.
  { intros outcome m2 Hout Hr. pose proof (Hres _ _ _ Hout Hr) as Hok2.
    destruct (life_round program_hash registry m m1 e outcome m2 Hrun Hm Hr) as (Hrun2 & Hw2 & _).
    by apply (IH _ Hw2 row out m2). }
  destruct e; try (by eapply runs_effect). destruct He as (ts & -> & Hnd & Hall).
  eapply (runs_parallel _ _ _ row _ m m1 sequence branches ts); [done|done| |done].
  clear Hm Hres Hnext Hc. revert Hch Hall. generalize branches. intros bs Hch Hall.
  induction Hall as [|b nt bs ts [Hn (row' & Hsub & Hb)] _ IHall]; constructor.
  - inversion Hch as [|? ? (Hbr & _ & Hbw)]; subst. split; [done|]. exists row'. split; [done|].
    by apply (IH _ Hbw row').
  - apply IHall; [|by inversion Hch]. clear -Hnd. by inversion Hnd.
Qed.
End machine.

(** ** Validated programs *)

Section validated.
Context `{CharClass} `{Digest} `{PlanCodec} (program_hash : Program → str).

Lemma analyze_with_module_Ok `{AnalysisProfile} source types functions internal limits p :
  analyze_with_module program_hash source types functions internal limits = Ok p →
  ∃ su root m, analyze_module program_hash su root = Ok m ∧ ma_program m = p.
Proof.
  unfold analyze_with_module. intros (total & _ & Ha)%bind_Ok. destruct (_ <? _); [done|]. destruct (_ <? _); [done|].
  apply bind_Ok in Ha as (root & _ & Ha). apply bind_Ok in Ha as (ts & _ & Ha). apply bind_Ok in Ha as (fs & _ & Ha).
  unfold analyze_program in Ha. destruct (analyze_module _ _ root) as [m|] eqn:Hm; [|done]. injection Ha as <-.
  by eexists _, root, m.
Qed.

Lemma validated_Ok source types functions internal registry gate p typed :
  validate_typed_with_module program_hash source types functions internal registry gate = Ok p →
  typed_program p = Some typed →
  pp_owner p = owner typed ∧
  ∃ su root m, @analyze_module _ (morphz_profile registry gate) program_hash su root = Ok m ∧ ma_program m = typed.
Proof.
  unfold validate_typed_with_module. intros (t & Ht & [= <-])%bind_Ok [= <-].
  split; [done|]. apply (@analyze_with_module_Ok (morphz_profile registry gate)) with source types functions internal analysis_limits_default.
  by destruct (analyze_with_module _ _ _ _ _ _); simplify_eq/=.
Qed.

(** The runtime snapshot has the type the profile announces. *)
Lemma runtime_bound defs m v m' :
  source_definitions defs → typed_definitions m = defs → json_wf v → bind_runtime_environment m v = Ok m' →
  ∃ w, m' = set_env m (<[s! "runtime" := w]> (env m)) ∧ has_type defs runtime_environment_type w.
Proof.
  intros Hd Hm Hv. unfold bind_runtime_environment. destruct (is_some _); [done|].
  intros (w & Hw & [= <-])%bind_Ok. exists w. split; [done|]. rewrite Hm in Hw.
  destruct (decode_value _ _ _ v) as [w'|] eqn:Hdec; [|done]. injection Hw as ->.
  apply (decode_spine defs empty_span Hd v runtime_environment_type) in Hdec; [|done| |done].
  - split; apply Hdec.
  - constructor; [apply bm_wf_of_list|]. repeat constructor.
Qed.

(** The machine of a validated program is typed from the start. *)
Lemma validated_machine_ok registry0 registry gate su root m typed p m0 v m1 :
  @analyze_module _ (morphz_profile registry0 gate) program_hash su root = Ok m → ma_program m = typed →
  typed_program p = Some typed → pp_owner p = owner typed → tame (body typed) = true →
  machine_new p = Ok m0 → json_wf v → bind_runtime_environment m0 v = Ok m1 →
  ∃ cx, ctx_definitions cx = types typed ∧ definitions_ok (types typed) ∧
    @machine_ok (morphz_profile registry0 gate) _ program_hash registry cx runtime_environment_type
      (program_value_effects p typed) (output typed) m1.
Proof.
  intros Hm <- Hp Howner Htame Hnew Hv Hbind.
  pose proof (@analyze_module_definitions _ (morphz_profile registry0 gate) _ _ _ _ Hm) as Hdefs.
  apply (@analyze_module_ok _ (morphz_profile registry0 gate)) in Hm as (cx & Hm).
  unfold module_ok in Hm. cbv zeta in Hm. generalize dependent (ma_program m). intros typed Hm Hp Howner Htame Hdefs.
  open_hyps. match goal with Hr : root_typed _ _ _ |- _ => rename Hr into Hroot end.
  match goal with E : ctx_definitions cx = _ |- _ => rename E into Hcx end.
  match goal with E : output typed = _ |- _ => rename E into Hout end.
  match goal with E : effects typed = _ |- _ => rename E into Heff end.
  exists cx. split; [done|]. split; [done|].
  unfold typed_program in Hp. destruct (pp_root p) as [t'| | | | | | |] eqn:Hpr; try done. injection Hp as ->.
  unfold machine_new in Hnew. rewrite Hpr in Hnew. apply bind_Ok in Hnew as (fs & Hfs & [= <-]).
  apply (runtime_bound (types typed)) in Hbind as (w & -> & Hw); [|by apply definitions_ok_source|done|done].
  split; [done|]. unfold program_value_effects. rewrite <- Hcx in Hw.
  pose proof (@scope_new_host (morphz_profile registry0 gate) runtime_environment_type (λ _, eq_refl)) as Hs.
  pose proof (@scope_new_env (morphz_profile registry0 gate) cx runtime_environment_type (λ _, eq_refl) w Hw) as Henv.
  rewrite Howner in Hfs |- *. destruct (owner typed); simpl in Hroot.
  - injection Hfs as <-. destruct Hroot as [s1 Ht].
    eapply (R_root _ _ _ _ _ _ _ typed scope_new s1); try done; simpl.
    + split; [done|]. by rewrite Heff.
    + rewrite Hout. apply A_refl.
  - destruct Hroot as (b & cs & t & source & sp & s1 & Hb & Hcs & _). rewrite Hb in *. unfold hir in Hfs. simpl in Hfs.
    injection Hfs as <-.
    eapply (R_model _ _ _ _ _ _ _ b (map fst cs) t source _ sp scope_new); try done; simpl.
    + apply es_insert_In. by left.
    + intros y Hy. apply es_insert_In. right. by rewrite Heff.
    + intros n (nt & -> & Hn)%list_elem_of_fmap. rewrite Forall_forall in Hcs. by rewrite (Hcs nt Hn).
    + rewrite Hout. apply A_refl.
Qed.


Lemma bind_running m v m' : bind_runtime_environment m v = Ok m' → running m → running m'.
Proof.
  unfold bind_runtime_environment. destruct (is_some _); [done|]. by intros (w & _ & [= <-])%bind_Ok.
Qed.

(** The budget of a machine has no part in its types. *)
Lemma machine_ok_budget `{AnalysisProfile} registry cx rt row out m b :
  machine_ok program_hash registry cx rt row out m → machine_ok program_hash registry cx rt row out (set_budget m b).
Proof.
  intros [Hd Hr]. split; [done|]. destruct Hr; [eapply R_eval|eapply R_root|eapply R_model|eapply R_value|eapply R_failure]; eauto.
Qed.
Lemma running_budget m b : running m → running (set_budget m b).
Proof. done. Qed.
Lemma set_budget_same m : set_budget m (budget m) = m.
Proof. by destruct m. Qed.

Lemma validated_runs source ts fs internal registry0 gate registry p typed m0 v m b :
  validate_typed_with_module program_hash source ts fs internal registry0 gate = Ok p →
  typed_program p = Some typed → tame (body typed) = true →
  machine_new p = Ok m0 → json_wf v → bind_runtime_environment m0 v = Ok m →
  @runs_safely (morphz_profile registry0 gate) _ _ program_hash registry (types typed)
    (program_value_effects p typed) (has_type (types typed) (output typed)) (set_budget m b).
Proof.
  intros Hval Ht Htame Hnew Hv Hb.
  destruct (validated_Ok _ _ _ _ _ _ _ _ Hval Ht) as (Howner & su & root & ma & Hma & Hty).
  destruct (validated_machine_ok registry0 registry gate su root ma typed p m0 v m) as (cx & Hcx & Hdefs & Hok); try done.
  rewrite <- Hcx. eapply (@typed_machine_safe (morphz_profile registry0 gate)).
  - by rewrite Hcx.
  - done.
  - by apply machine_ok_budget.
  - apply running_budget, (bind_running _ _ _ Hb). by apply machine_new_running in Hnew as [].
Qed.

(** C2. A validated tame program runs safely.  Take a program that validation accepts and whose body is tame,
    that is without the nodes on which the evaluator departs from the types (a division typed [Int], an operand
    that [and] or [or] may skip and that binds, a [bind] whose value binds the same name, candidates whose
    clauses bind or whose kind is not a non-empty literal, a transaction source that is not canonical; validation
    accepts such programs, and for them this fails).  On the machine, started with any well-formed
    value that the runtime environment accepts, against every host that answers an effect in its type or
    fails it, the run ends with a value of the output type or with one of the expected failures, never with an
    integrity failure of the machine or a panic; every effect it asks for is in the program's row, a call
    carries arguments of the tool's signature, a model is offered no tools outside the row, and the
    branches of a [par] run safely too. *)
Theorem validated_program_runs_safely source ts fs internal registry0 gate registry p typed m0 v m :
  validate_typed_with_module program_hash source ts fs internal registry0 gate = Ok p →
  typed_program p = Some typed → tame (body typed) = true →
  machine_new p = Ok m0 → json_wf v → bind_runtime_environment m0 v = Ok m →
  @runs_safely (morphz_profile registry0 gate) _ _ program_hash registry (types typed)
    (program_value_effects p typed) (has_type (types typed) (output typed)) m.
Proof. intros. rewrite <- (set_budget_same m). by eapply validated_runs. Qed.

Context `{!PlanCodecLaws} (Hhash : ∀ p h, program_hash (with_source_hash h p) = program_hash p).

(** A validated program has a machine. *)
Lemma validated_machine_new source ts fs internal registry gate p typed :
  validate_typed_with_module program_hash source ts fs internal registry gate = Ok p →
  typed_program p = Some typed → ∃ m, machine_new p = Ok m.
Proof.
  intros Hval Ht. destruct (validated_Ok _ _ _ _ _ _ _ _ Hval Ht) as (Howner & su & root & ma & Hma & <-).
  apply (@analyze_module_ok _ (morphz_profile registry gate)) in Hma as (cx & Hroot & _).
  unfold typed_program in Ht. unfold machine_new. destruct (pp_root p); try done. injection Ht as ->. rewrite Howner.
  destruct (owner _); simpl in Hroot; [by eexists|]. destruct Hroot as (b & cs & t & src & sp & s1 & -> & _). by eexists.
Qed.

(** What the encoder writes, the machine accepts. *)
Lemma encoded_program_decodes value typed v :
  typed_program (pv_program value) = Some typed → pv_hash value = source_hash typed →
  source_hash typed = program_hash typed → pv_source value = program_canonical_source typed →
  pv_output value = output typed → pv_effects value = program_value_effects (pv_program value) typed →
  encode_program_value value = Ok v →
  decode_program_value program_hash v = Ok value ∧ ∀ defs out effs, has_type defs (TProgram out effs) v.
Proof.
  intros Ht Hh Hph Hs Ho He (j & Hj & [= <-])%bind_Ok.
  destruct (program_value_to_value value) as [j'|] eqn:Hv; [|done]. injection Hj as ->. split.
  - unfold decode_program_value. simpl.
    rewrite (program_value_reads_back _ _ Hv). simpl. rewrite Ht. simpl.
    rewrite <- Hph, <- Hh, Hs, Ho, He, !str_eqb_refl.
    rewrite (proj2 (ty_eqb_eq _ _) eq_refl), (proj2 (es_eqb_eq _ _) eq_refl). done.
  - intros defs out effs. split.
    + apply tagged_wf. repeat constructor. by eapply program_value_wf.
    + by eapply V_program.
Qed.

Lemma admitted_decodes out effs source registry provenance v :
  admit_program_value_candidate program_hash out effs source registry provenance = Ok v →
  (∀ defs out effs, has_type defs (TProgram out effs) v) ∧
  ∃ value typed child,
    decode_program_value program_hash v = Ok value ∧ typed_program (pv_program value) = Some typed ∧
    machine_new (pv_program value) = Ok child ∧
    validate_typed program_hash (trim source) registry (allow_list (row_tools effs)) = Ok (pv_program value) ∧
    assignable (output typed) out ∧ program_value_effects (pv_program value) typed ⊆ effs.
Proof.
  unfold admit_program_value_candidate. cbv zeta. destruct (bool_decide _); [done|].
  intros (program & Hval & Ha)%bind_Ok. apply bind_Ok in Ha as (typed & Ht & Ha).
  destruct (typed_program program) as [typed'|] eqn:Htp; [|done]. injection Ht as ->.
  destruct (validate_typed _ _ _ _) as [p|] eqn:Hv; [|done]. injection Hval as ->. unfold validate_typed in Hv.
  destruct (is_assignable_to _ _) eqn:Has; [|done]. destruct (es_is_subset _ _) eqn:Hsub; [|done]. simpl in Ha.
  destruct (validated_Ok _ _ _ _ _ _ _ _ Hv Htp) as (_ & su & root & ma & Hma & Hty).
  apply (@analyze_module_ok _ (morphz_profile registry _)) in Hma as (cx & Hm). unfold module_ok in Hm. open_hyps.
  apply (encoded_program_decodes _ typed) in Ha as [Hd Hty']; try done; [|by rewrite <- Hty, <- (Hhash _ [])].
  destruct (validated_machine_new _ _ _ _ _ _ _ _ Hv Htp) as [child Hc].
  split; [exact Hty'|]. eexists _, typed, child. split_and!; [exact Hd|exact Htp|exact Hc|done| |].
  - by apply is_assignable_to_iff.
  - by apply es_is_subset_spec.
Qed.

Lemma admitted_has_type defs out effs source registry provenance v :
  admit_program_value_candidate program_hash out effs source registry provenance = Ok v →
  has_type defs (TProgram out effs) v.
Proof. intros [Hty _]%admitted_decodes. apply Hty. Qed.

(** C30. A program that a model wrote is admitted as a value the machine accepts: the value has the
    declared program type, [run] decodes it to the validated program, whose output type is
    below the declared one and whose effects, the evaluation of a model-owned root included,
    are inside the declared row, with every tool it calls callable through that row. *)
Theorem admitted_program_accepted defs out effs source registry provenance v :
  admit_program_value_candidate program_hash out effs source registry provenance = Ok v →
  has_type defs (TProgram out effs) v ∧
  ∃ value typed child,
    decode_program_value program_hash v = Ok value ∧ typed_program (pv_program value) = Some typed ∧
    machine_new (pv_program value) = Ok child ∧
    validate_typed program_hash (trim source) registry (allow_list (row_tools effs)) = Ok (pv_program value) ∧
    assignable (output typed) out ∧ program_value_effects (pv_program value) typed ⊆ effs.
Proof. intros [Hty Hrest]%admitted_decodes. split; [apply Hty|done]. Qed.
End validated.

(** ** Answers *)

Section answers.
Context `{CharClass} `{JsonTextLaws} `{PlanCodecLaws} (program_hash : Program → str)
  (Hhash : ∀ p h, program_hash (with_source_hash h p) = program_hash p).

Definition result_type (kind : InferResultKind) : Ty :=
  match kind with JsonResult t _ _ | YaoResult t _ _ => t end.
Definition result_definitions (kind : InferResultKind) : Definitions :=
  match kind with JsonResult _ d _ | YaoResult _ d _ => d end.

(** The decoder of ordinary Yao results. *)
Lemma yao_answer_typed t d sp text v :
  source_definitions d → spine_ty t = true → ty_wf t →
  decode_infer_result (YaoResult t d sp) (JString text) = Ok v → has_type d t v.
Proof.
  intros Hd Hs Hw Hr. assert ((transport ← ok_or (json_from_str (trim text))
    (Msg "infer declared a typed Yao result, but the final body is not valid JSON transport: {error}" []);
    map_err (λ f, Msg "infer result does not satisfy Yao type {ty:?}: {error}" [ATy t; AMsg (fmessage f)])
      (decode_value d sp t transport)) = Ok v) as Hr' by (destruct t; done || exact Hr).
  clear Hr. apply bind_Ok in Hr' as (j & Hj & Hv). destruct (json_from_str _) as [j'|] eqn:Hp; [|done].
  injection Hj as ->. apply json_from_str_wf in Hp. destruct (decode_value d sp t j) as [w|] eqn:Hdec; [|done].
  injection Hv as ->. apply (decode_spine d sp Hd j t) in Hdec; [|done..]. split; apply Hdec.
Qed.

(** C31. A model's answer that is accepted has the type of the effect: whatever text the model
    returns, a value that the decoder lets through, or a program that admission lets through,
    has the type the inference declared.  The type definitions are
    such as a program can write, without structural records in their fields, and the declared type
    is well-formed, with structural records only under lists, maps and structural records. *)
Theorem model_answer_typed kind text registry provenance v :
  source_definitions (result_definitions kind) → spine_ty (result_type kind) = true → ty_wf (result_type kind) →
  decode_infer_result_with_admission program_hash kind (JString text) registry provenance = Ok v →
  has_type (result_definitions kind) (result_type kind) v.
Proof.
  intros Hd Hs Hw. destruct kind as [t d sp|t d sp]; simpl in Hd, Hs, Hw |- *.
  - intros (j & Hj & Hv)%bind_Ok. destruct (parse_strict_json _) as [j'|] eqn:Hp; [|done]. injection Hj as ->.
    apply parse_strict_json_wf in Hp. destruct (from_json t j d sp) as [w|] eqn:Hf; [|done]. injection Hv as ->.
    split; [by eapply convert_wf|]. by apply from_json_sound in Hf as [_ ?].
  - pose proof (yao_answer_typed t d sp text v Hd Hs Hw) as Hplain. destruct t; try exact Hplain.
    intros Ha. by apply (admitted_has_type program_hash Hhash d) in Ha.
Qed.
End answers.

(** ** Samples *)

Definition sample_source : str :=
  s! "(eval (requires (tools read) (effects (tool read))) (seq (bind note (call read (id 7))) (par (branch again (call read (id 1))) (branch kind runtime.agent))))".
Definition sample_registry : Registry := {[s! "read" := mkTool true (jobj
  [("properties", jobj [("id", jobj [("type", jstr "integer")])]); ("required", JArray [jstr "id"])])]}.
Definition no_option : Json := tagged [("kind", jstr "option"); ("variant", jstr "none")].
Definition sample_runtime : Json := structural_record_value
  [(s! "agent", reference_value s! "Agent" s! "a"); (s! "evaluation", reference_value s! "Evaluation" s! "e");
   (s! "context", reference_value s! "Context" s! "c"); (s! "objective", no_option); (s! "harness", no_option);
   (s! "capabilities", reference_value s! "CapabilitySet" s! "s"); (s! "principal", no_option);
   (s! "execution_target", no_option)].
Definition no_program : PlanProgram := mkPlanProgram Runtime (NSeq []) [] None.
Definition no_value : PlanProgramValue := mkProgramValue [] [] no_program TNil [] in_process_provenance.
#[local] Instance run_digest : Digest := {| sha256_hex _ := s! "0" |}.
Definition sample_hash : Program → str := identity_hash (λ _, []).
Lemma sample_hash_stable p h : sample_hash (with_source_hash h p) = sample_hash p.
Proof. exact (identity_stored_hash (λ _, []) h p). Qed.
Definition validated (source : str) (registry : Registry) (tools : list str) : PlanProgram :=
  match @validate_typed ascii_classes sample_hash source registry (allow_list tools) with Ok p => p | Err _ => no_program end.
Definition typed_of (p : PlanProgram) : Program :=
  default (mkProgram [] Runtime requirements_default [] (hir (KLiteral LNil) TNil [] empty_span) TNil [] [] [])
    (typed_program p).

Definition machine_of (p : PlanProgram) : PlanMachine :=
  match machine_new p with Ok m => m | Err _ => PlanFacts.sample_start end.
Definition bound (m : PlanMachine) (v : Json) : PlanMachine :=
  match bind_runtime_environment m v with Ok m => m | Err _ => m end.
Definition admitted (p : PlanProgram) : PlanProgramValue :=
  let typed := typed_of p in
  mkProgramValue (source_hash typed) (program_canonical_source typed) p (output typed)
    (program_value_effects p typed) in_process_provenance.

Definition run_program : PlanProgram := Eval vm_compute in validated sample_source sample_registry [s! "read"].
#[local] Instance run_text : JsonText := {| raw_document _ := None; json_from_str _ := None; json_to_string _ := [] |}.

(** A parent that declares [Note] with an integer field and runs a program of type [Note], and a
    program whose own [Note] has a boolean field. *)
Definition confused_source : str :=
  s! "(eval (types (record Note (id Int))) (seq (bind p (infer (returns (Program Note (effects))) 1)) (run p)))".
Definition impostor_source : str := s! "(eval (types (record Note (id Bool))) (record Note (id true)))".
Definition confused_program : PlanProgram := Eval vm_compute in validated confused_source ∅ [].
Definition impostor_program : PlanProgram := Eval vm_compute in validated impostor_source ∅ [].
Definition impostor : PlanProgramValue := Eval vm_compute in admitted impostor_program.
(** A model that answers with the second program. *)
Definition impostor_host : Host unit :=
  {| execute _ _ w := (Ok [], w); infer_typed _ _ _ w := (Ok impostor_source, w) |}.
Definition mistyped_note : Json :=
  tagged [("type", jstr "Note"); ("kind", jstr "record"); ("fields", jobj [("id", JBool true)])].

Lemma validated_program_runs_safely_witness :
  @runs_safely (morphz_profile sample_registry (allow_list [s! "read"])) run_digest (single_codec no_value)
    sample_hash sample_registry (types (typed_of run_program))
    (program_value_effects run_program (typed_of run_program))
    (has_type (types (typed_of run_program)) (output (typed_of run_program)))
    (bound (machine_of run_program) sample_runtime).
Proof.
  apply (@validated_program_runs_safely ascii_classes run_digest (single_codec no_value) sample_hash sample_source
           [] [] false sample_registry (allow_list [s! "read"]) sample_registry run_program
           (typed_of run_program) (machine_of run_program) sample_runtime).
  - vm_compute. reflexivity.
  - reflexivity.
  - vm_compute. reflexivity.
  - reflexivity.
  - apply structural_record_value_wf. repeat constructor; apply tagged_wf; repeat constructor.
  - vm_compute. reflexivity.
Defined.

Lemma evaluate_terminates_witness :
  ∃ fuel r, ∀ fuel', (fuel <= fuel')%nat →
    @evaluate ascii_classes run_digest (single_codec impostor) run_text sample_hash unit impostor_host ∅ fuel'
      confused_program tt = Some r.
Proof.
  by apply (@evaluate_terminates ascii_classes run_digest (single_codec impostor) run_text sample_hash unit
              impostor_host ∅ confused_program (typed_of confused_program)).
Defined.

Lemma admitted_program_accepted_witness :
  ∃ v, has_type [] (TProgram (TNamed s! "Note") []) v ∧
  ∃ value typed child,
    @decode_program_value (single_codec impostor) sample_hash v = Ok value ∧
    typed_program (pv_program value) = Some typed ∧ machine_new (pv_program value) = Ok child ∧
    @validate_typed ascii_classes sample_hash (trim impostor_source) ∅ (allow_list (row_tools [])) = Ok (pv_program value) ∧
    assignable (output typed) (TNamed s! "Note") ∧ program_value_effects (pv_program value) typed ⊆ [].
Proof.
  eexists. apply (@admitted_program_accepted ascii_classes (single_codec impostor) sample_hash
    (single_codec_laws impostor) sample_hash_stable [] (TNamed s! "Note") [] impostor_source ∅ in_process_provenance).
  vm_compute. reflexivity.
Defined.

(** A text whose document is the number [5]. *)
#[local] Instance five_text : JsonText :=
  {| raw_document _ := Some (RawNumber (Some (PosInt 5))); json_from_str _ := None; json_to_string _ := [] |}.
Lemma five_text_laws : @JsonTextLaws five_text.
Proof. split; intros text j; [|done]. intros [= <-]. constructor. by intros m [= <-]. Qed.

Lemma model_answer_typed_witness : has_type [] TInt (JNumber (PosInt 5)).
Proof.
  apply (@model_answer_typed ascii_classes five_text five_text_laws (single_codec no_value)
    (single_codec_laws no_value) sample_hash sample_hash_stable (JsonResult TInt [] empty_span) s! "5" ∅
    in_process_provenance (JNumber (PosInt 5))).
  - constructor.
  - reflexivity.
  - constructor.
  - vm_compute. reflexivity.
Defined.

(** Nominal types are confused across programs: admission compares the output type of a
    model's program with the declared one by name, although both declare their own types, and
    the result of [run] is not decoded again.  A validated program whose output is its record
    [Note] with an integer field returns a [Note] with a boolean field. *)
Theorem run_result_mistyped :
  @validate_typed ascii_classes sample_hash confused_source ∅ (allow_list []) = Ok confused_program ∧
  tame (body (typed_of confused_program)) = true ∧
  @evaluate ascii_classes run_digest (single_codec impostor) run_text sample_hash unit impostor_host ∅ 9
    confused_program tt = Some (Ok mistyped_note, tt) ∧
  ¬ has_type (types (typed_of confused_program)) (output (typed_of confused_program)) mistyped_note.
Proof.
  split_and!; try (vm_compute; reflexivity). intros [_ Hv].
  destruct (decode_value_total _ empty_span _ _ Hv) as [w Hw]. vm_compute in Hw. discriminate.
Qed.
