(* ===== verification/PlanResults.v ===== *)
(** * Values of admitted programs in the program that runs them

    A program that a model writes declares its own types, and admission compares its output type with
    the declared one by name only ([PlanRun.run_result_mistyped] shows what that allows).  Here is the
    condition under which the value of [run] still has the type its node announces: the two programs
    declare alike every type that the declared type reaches. *)

From stdpp Require Import base list gmap strings.
From Stdlib Require Import NArith ZArith Lia.
From S2P Require Import Prelude Text Types JsonValue Diagnostic Syntax Hir Decode DecodeFacts JsonBoundary JsonBoundaryFacts ValueFacts Declarations Analyzer AnalyzerSound ProgramSound EvalSound Plan PlanSteps PlanAdmission PlanFacts PlanSamples PlanSound PlanRun.

(** ** Tables that agree *)

(** A declaration without its places in the source. *)
Definition field_shape (f : FieldDefinition) : str * Ty := (fname f, fty f).
Definition variant_shape (v : VariantDefinition) : str * list (str * Ty) := (vname v, map field_shape (vfields v)).
Definition shape (d : TypeDefinition) : list (str * Ty) + list (str * list (str * Ty)) :=
  match d with DRecord _ fs _ => inl (map field_shape fs) | DUnion _ vs _ => inr (map variant_shape vs) end.

(** [d2] declares the names [ns] as [d1] does, and these mention no other name. *)
Definition declared_alike (d1 d2 : Definitions) (ns : list str) : Prop :=
  ∀ n d, n ∈ ns → bm_get n d1 = Some d →
    (∃ d', bm_get n d2 = Some d' ∧ shape d' = shape d) ∧
    ∀ t x, t ∈ definition_types d → x ∈ named_in t → x ∈ ns.

(** Two tables agree on what a type reaches. *)
Definition agree_below (d1 d2 : Definitions) (t : Ty) : Prop :=
  ∃ ns, declared_alike d1 d2 ns ∧ ∀ x, x ∈ named_in t → x ∈ ns.

Lemma fields_shape (P : str → Ty → Prop) fs fs' :
  map field_shape fs' = map field_shape fs → Forall (λ f, P (fname f) (fty f)) fs → Forall (λ f, P (fname f) (fty f)) fs'.
Proof.
  revert fs. induction fs' as [|f' fs' IH]; intros [|f fs] E Hfs; simpl in E; try discriminate E; [constructor|].
  injection E as E1 E2 E. apply Forall_cons in Hfs as [Hf Hfs]. constructor; [by rewrite E1, E2|by eapply IH].
Qed.

Lemma find_shape n vs vs' d :
  map variant_shape vs' = map variant_shape vs → List.find (λ v, vname v =s n) vs = Some d →
  ∃ d', List.find (λ v, vname v =s n) vs' = Some d' ∧ variant_shape d' = variant_shape d.
Proof.
  revert vs. induction vs' as [|v' vs' IH]; intros [|v vs] E Hd; simpl in E; try discriminate E; [done|].
  simpl in Hd |- *. injection E as E1 E2 E. rewrite E1. destruct (vname v =s n); [|by eapply IH].
  injection Hd as <-. exists v'. split; [done|]. unfold variant_shape. by rewrite E1, E2.
Qed.

Lemma fields_alike (d2 : Definitions) (rec : Ty → Json → Prop) m fs fs' :
  map field_shape fs' = map field_shape fs →
  (∀ f w, f ∈ fs → bm_get (fname f) m = Some w → rec (fty f) w → vty d2 (fty f) w) →
  Forall (λ f, ∃ w, bm_get (fname f) m = Some w ∧ rec (fty f) w) fs →
  Forall (λ f, ∃ w, bm_get (fname f) m = Some w ∧ vty d2 (fty f) w) fs'.
Proof.
  intros E Hrec Hfs. apply (fields_shape (λ n t, ∃ w, bm_get n m = Some w ∧ vty d2 t w) fs); [done|].
  rewrite Forall_forall in *. intros f Hf. destruct (Hfs f Hf) as (w & Hw & Hv). exists w. split; [done|]. by apply Hrec.
Qed.

Lemma fields_length fs fs' : map field_shape fs' = map field_shape fs → length fs' = length fs.
Proof. intros E. by rewrite <- (length_map field_shape fs'), E, length_map. Qed.

(** A value keeps its type where the tables agree. *)
Lemma vty_alike d1 d2 ns v t :
  declared_alike d1 d2 ns → (∀ x, x ∈ named_in t → x ∈ ns) → vty d1 t v → vty d2 t v.
Proof.
  intros Hd. revert t. induction v as [v IH] using json_depth_ind. intros t Hn Hv.
  assert (Hnamed : ∀ name d (fs : list FieldDefinition) m tag, t = TNamed name → bm_get name d1 = Some d →
    (∀ f, f ∈ fs → fty f ∈ definition_types d) → yao_object v = Some tag → bm_get s! "fields" tag = Some (JObject m) →
    ∀ f w, f ∈ fs → bm_get (fname f) m = Some w → vty d1 (fty f) w → vty d2 (fty f) w).
  { intros name d fs m tag -> Hdef Hfs Htag Hm f w Hf Hw Hvw. apply IH; [| |done].
    - apply bm_get_elem, jdepth_object in Hw. pose proof (tag_get_depth _ _ _ _ Htag Hm). lia.
    - intros x Hx. destruct (Hd name d) as [_ Hclosed]; [apply Hn; left|done|]. by eapply Hclosed, Hx; apply Hfs. }
  destruct Hv as [| | |v z Hz| | | |t l Hl|t m Hm|fs v m Hs Hread Hall|t v tag ???|t v tag w Htag ?? Hget Hw|a b v tag w Htag ?? Hget Hw
    |a b v tag w Htag ?? Hget Hw| | | | | |name n fs sp v tag m Hdef Htag ?? Hm Hlen Hall
    |name n vs sp v tag variant d m Hdef Htag ??? Hfind Hm Hlen Hall].
  all: try (by econstructor).
  - constructor. rewrite Forall_forall in *. intros w Hw. apply IH; [by apply jdepth_array|done|by apply Hl].
  - constructor. rewrite Forall_forall in *. intros [k w] Hw. apply IH; [by eapply jdepth_object|done|by apply (Hm (k, w))].
  - eapply V_structural; [done..|]. rewrite Forall_forall in *. intros nt Hnt. destruct (Hall nt Hnt) as (w & Hw & Hvw).
    exists w. split; [done|]. apply IH; [by eapply structural_fields_depth| |done].
    intros x Hx. apply Hn. simpl. apply elem_of_concat. exists (named_in nt.2). split; [|done].
    apply list_elem_of_fmap. by exists nt.
  - eapply V_some; eauto. apply IH; [|done..]. pose proof (tag_get_depth _ _ _ _ Htag Hget). lia.
  - eapply V_ok; eauto. apply IH; [|by intros x Hx; apply Hn; simpl; apply elem_of_app; left|done].
    pose proof (tag_get_depth _ _ _ _ Htag Hget). lia.
  - eapply V_err; eauto. apply IH; [|by intros x Hx; apply Hn; simpl; apply elem_of_app; right|done].
    pose proof (tag_get_depth _ _ _ _ Htag Hget). lia.
  - destruct (Hd name _ ltac:(apply Hn; left) Hdef) as [(d' & Hdef' & Eshape) _].
    destruct d' as [n' fs' sp'|]; [|done]. injection Eshape as Eshape.
    eapply (V_record _ name n' fs' sp'); eauto; [by rewrite Hlen, (fields_length fs fs')|].
    eapply fields_alike; [exact Eshape| |exact Hall]. eapply Hnamed; eauto. intros f Hf. by apply list_elem_of_fmap_2.
  - destruct (Hd name _ ltac:(apply Hn; left) Hdef) as [(d' & Hdef' & Eshape) _].
    destruct d' as [|n' vs' sp']; [done|]. injection Eshape as Eshape.
    destruct (find_shape variant vs vs' d Eshape Hfind) as (e & Hfind' & [= _ Ee]).
    eapply (V_variant _ name n' vs' sp' v tag variant e); eauto; [by rewrite Hlen, (fields_length (vfields d) (vfields e))|].
    eapply fields_alike; [exact Ee| |exact Hall]. eapply Hnamed; eauto. intros f Hf. simpl. apply elem_of_concat.
    exists (map fty (vfields d)). split; [|by apply list_elem_of_fmap_2]. apply list_elem_of_fmap.
    exists d. split; [done|]. apply find_some in Hfind as [Hin _]. by apply list_elem_of_In.
Qed.

(** ** Runs *)

Section weaken.
Context `{AnalysisProfile} `{Digest} `{PlanCodec} (program_hash : Program → str) (registry : Registry) (defs : Definitions).

Lemma runs_safely_weaken row (out out' : Json → Prop) m :
  (∀ v, out v → out' v) → runs_safely program_hash registry defs row out m → runs_safely program_hash registry defs row out' m.
Proof.
  intros Hout Hm. induction Hm.
  - eapply runs_complete; eauto.
  - by eapply runs_failed.
  - by eapply runs_effect; eauto.
  - eapply runs_parallel; eauto.
Qed.
End weaken.

Section results.
Context `{CharClass} `{Digest} `{PlanCodecLaws} (program_hash : Program → str)
  (Hhash : ∀ p h, program_hash (with_source_hash h p) = program_hash p).

(** C32. The value of [run] has the type its node announces when the two programs declare their types alike.  Take
    a source that admission accepts as a program of the declared output type and effects, and the
    program that the machine decodes from the value that admission returns; let its body be tame, and let the
    parent's type table declare every type that the declared type reaches as the program's own table does,
    up to source positions.  Then the child machine, with whatever budget the parent gives it and with any well-formed runtime
    environment that it accepts, runs safely in its own table, asks only for effects inside the declared row,
    and every value it ends with is a value of the declared type in the parent's table.  The condition
    on the tables is not checked by admission, which compares types by name. *)
Theorem admitted_run_typed defs out effs source registry provenance v value typed m0 rv m b reg :
  admit_program_value_candidate program_hash out effs source registry provenance = Ok v →
  decode_program_value program_hash v = Ok value →
  typed_program (pv_program value) = Some typed → tame (body typed) = true →
  agree_below (types typed) defs out →
  machine_new (pv_program value) = Ok m0 → json_wf rv → bind_runtime_environment m0 rv = Ok m →
  program_value_effects (pv_program value) typed ⊆ effs ∧
  @runs_safely (morphz_profile registry (allow_list (row_tools effs))) _ _ program_hash reg (types typed)
    (program_value_effects (pv_program value) typed) (has_type defs out) (set_budget m b).
Proof.
  intros Ha Hd Ht Htame (ns & Halike & Hns) Hnew Hrv Hb.
  apply (admitted_decodes program_hash Hhash) in Ha as (_ & value' & typed' & child & Hd' & Ht' & _ & Hval & Has & Hsub).
  assert (value' = value) as -> by congruence. assert (typed' = typed) as -> by congruence. split; [done|].
  apply (runs_safely_weaken _ _ _ _ (has_type (types typed) (output typed))).
  - intros w [Hw Hv]. split; [done|]. eapply vty_alike; [exact Halike|exact Hns|]. by eapply vty_subsume.
  - by eapply validated_runs.
Qed.
End results.

(** ** Sample *)

(** The program of the sample parent, whose [Note] has an integer field, and one that declares it alike. *)
Definition alike_source : str := s! "(eval (types (record Note (id Int))) (record Note (id 7)))".
Definition alike_program : PlanProgram := Eval vm_compute in validated alike_source ∅ [].
Definition alike : PlanProgramValue := Eval vm_compute in admitted alike_program.
Definition alike_value : Json := Eval vm_compute in
  match @admit_program_value_candidate ascii_classes (single_codec alike) sample_hash (TNamed s! "Note") [] alike_source ∅ in_process_provenance with
  | Ok v => v | Err _ => JNull end.
Definition parent_table : Definitions := types (typed_of confused_program).

Lemma tables_alike : agree_below (types (typed_of alike_program)) parent_table (TNamed s! "Note").
Proof.
  exists [s! "Note"]. split; [|done]. intros n d ->%list_elem_of_singleton Hd. vm_compute in Hd. injection Hd as <-.
  split; [eexists; split; [vm_compute; reflexivity|reflexivity]|]. intros t x ->%list_elem_of_singleton Hx.
  simpl in Hx. by apply elem_of_nil in Hx.
Qed.

Lemma admitted_run_typed_witness :
  @runs_safely (morphz_profile ∅ (allow_list (row_tools []))) run_digest (single_codec alike) sample_hash ∅
    (types (typed_of alike_program)) (program_value_effects alike_program (typed_of alike_program))
    (has_type parent_table (TNamed s! "Note")) (set_budget (bound (machine_of alike_program) sample_runtime) (mkBudget 1 1 1)).
Proof.
  apply (@admitted_run_typed ascii_classes run_digest (single_codec alike) (single_codec_laws alike) sample_hash sample_hash_stable
    parent_table (TNamed s! "Note") [] alike_source ∅ in_process_provenance alike_value alike (typed_of alike_program)
    (machine_of alike_program) sample_runtime).
  - vm_compute. reflexivity.
  - vm_compute. reflexivity.
  - reflexivity.
  - vm_compute. reflexivity.
  - exact tables_alike.
  - reflexivity.
  - apply structural_record_value_wf. repeat constructor; apply tagged_wf; repeat constructor.
  - vm_compute. reflexivity.
Defined.
