(* ===== verification/ThreadGroups.v ===== *)
(** * Thread groups (morphz/src/memory/mod.rs, morphz/src/memory/sqlite.rs)

    Sibling threads that one decision spawned are joined by a group: a policy, a contract of
    thresholds, and one row per member.  A thread that ends, is cancelled or is promoted to
    another supervisor updates its member row and the counters of the group in one
    transaction, which releases the supervisor by a barrier event when the contract is decided.

    The rows of one group are a record here, and a transaction is a function on it that also says
    which barrier event it appends.  Of the thread rows, objectives, signals and dependencies that
    the same transactions write nothing is kept, nor are the times of the rows. *)

From stdpp Require Import base list gmap strings.
From Stdlib Require Import NArith ZArith Lia.
From S2P Require Import Prelude JsonValue Text.

Local Open Scope N_scope.

(** morphz/src/memory/mod.rs:3603-3606 [ThreadGroupPolicy]. *)
Inductive ThreadGroupPolicy : Type := PolicyAll | PolicyAny.

(** morphz/src/memory/mod.rs:3620-3625 [ThreadGroupStatus]. *)
Inductive ThreadGroupStatus : Type := GroupOpen | GroupSatisfied | GroupFailed | GroupCancelled.
(** morphz/src/memory/mod.rs:3637-3639 [ThreadGroupStatus::is_terminal]. *)
Definition group_terminal (s : ThreadGroupStatus) : bool := match s with GroupOpen => false | _ => true end.

(** morphz/src/memory/mod.rs:3861-3866 [ThreadGroupMemberStatus]. *)
Inductive ThreadGroupMemberStatus : Type := MemberPending | MemberCompleted | MemberFailed | MemberCancelled.
(** morphz/src/memory/mod.rs:3878-3880 [ThreadGroupMemberStatus::is_terminal]. *)
Definition member_terminal (s : ThreadGroupMemberStatus) : bool := match s with MemberPending => false | _ => true end.
(** morphz/src/memory/mod.rs:3882-3884 [ThreadGroupMemberStatus::is_success]. *)
Definition member_success (s : ThreadGroupMemberStatus) : bool := match s with MemberCompleted => true | _ => false end.

(** morphz/src/memory/mod.rs:4916-4921 [ThreadLifecycle]. *)
Inductive ThreadLifecycle : Type := ThreadOpen | ThreadCompleted | ThreadFailed | ThreadCancelled.
(** morphz/src/memory/mod.rs:4960-4962 [ThreadLifecycle::is_terminal]. *)
Definition lifecycle_terminal (l : ThreadLifecycle) : bool := match l with ThreadOpen => false | _ => true end.

#[export] Instance policy_eq_dec : EqDecision ThreadGroupPolicy.
Proof. solve_decision. Defined.
#[export] Instance group_status_eq_dec : EqDecision ThreadGroupStatus.
Proof. solve_decision. Defined.
#[export] Instance member_status_eq_dec : EqDecision ThreadGroupMemberStatus.
Proof. solve_decision. Defined.
#[export] Instance lifecycle_eq_dec : EqDecision ThreadLifecycle.
Proof. solve_decision. Defined.

(** ** The contract *)

(** [Value::as_u64]. *)
Definition jas_u64 (v : Json) : option N :=
  match v with JNumber (PosInt z) => Some (Z.to_N z) | _ => None end.

Definition u64_saturating (n : N) : N := N.min n (2 ^ 64 - 1).

(** A threshold of the contract. *)
Definition threshold (contract : Json) (key : string) (fallback : N) : N :=
  default fallback (jas_object contract ≫= λ o, bm_get (lit key) o ≫= jas_u64).

Definition minimum_successful (policy : ThreadGroupPolicy) (required : N) (contract : Json) : N :=
  threshold contract "minimum_successful_members"
    match policy with PolicyAll => required | PolicyAny => if 0 <? required then 1 else 0 end.
Definition maximum_failed (policy : ThreadGroupPolicy) (required : N) (contract : Json) : N :=
  threshold contract "maximum_failed_members" (required - minimum_successful policy required contract).

(** morphz/src/memory/mod.rs:3642-3646 [ThreadGroupContractEvaluation]. *)
Record ThreadGroupContractEvaluation : Type := mkEvaluation { ge_status : ThreadGroupStatus; ge_results : Json }.

(** morphz/src/memory/mod.rs:3653-3705 [evaluate_thread_group_contract]. *)
Definition evaluate_thread_group_contract (policy : ThreadGroupPolicy)
    (required_count terminal_count successful_count : N) (contract : Json) : ThreadGroupContractEvaluation :=
  let minimum := minimum_successful policy required_count contract in
  let maximum := maximum_failed policy required_count contract in
  let failed_count := terminal_count - successful_count in
  let pending_count := required_count - terminal_count in
  let success_reachable := minimum <=? u64_saturating (successful_count + pending_count) in
  let success_threshold_met := minimum <=? successful_count in
  let failure_budget_met := failed_count <=? maximum in
  let policy_ready :=
    match policy with
    | PolicyAll => required_count <=? terminal_count
    | PolicyAny => success_threshold_met
    end in
  let status :=
    if negb failure_budget_met || negb success_reachable then GroupFailed
    else if policy_ready && success_threshold_met then GroupSatisfied
    else if required_count <=? terminal_count then GroupFailed
    else GroupOpen in
  let number n := JNumber (PosInt (Z.of_N n)) in
  mkEvaluation status (jobj
    [("passed", JBool match status with GroupSatisfied => true | _ => false end);
     ("minimum_successful_members", number minimum); ("maximum_failed_members", number maximum);
     ("successful_members", number successful_count); ("failed_members", number failed_count);
     ("pending_members", number pending_count); ("success_reachable", JBool success_reachable);
     ("success_threshold_met", JBool success_threshold_met); ("failure_budget_met", JBool failure_budget_met)]).

(** ** Rows *)

(** morphz/src/memory/mod.rs:4739-4746 [ThreadSupervisorKind]. *)
Inductive ThreadSupervisorKind : Type :=
| SupervisorThread | SupervisorEvaluation | SupervisorObjective | SupervisorRuntime | SupervisorNone | SupervisorLegacy.

#[export] Instance supervisor_eq_dec : EqDecision ThreadSupervisorKind.
Proof. solve_decision. Defined.

(** morphz/src/memory/mod.rs:3922-3931 [ThreadGroupMemberRecord]. *)
Record Member : Type := mkMember {
  member_thread : str;
  member_ordinal : N;
  member_required : bool;
  member_status : ThreadGroupMemberStatus;
  member_outcome : option str
}.

(** morphz/src/memory/mod.rs:3888-3907 [ThreadGroupRecord], with its member rows. *)
Record Group : Type := mkGroup {
  group_id : str;
  group_revision : N;
  group_supervisor : ThreadSupervisorKind;
  group_generation : N;
  group_policy : ThreadGroupPolicy;
  group_contract : Json;
  group_required_count : N;
  group_terminal_count : N;
  group_successful_count : N;
  group_status : ThreadGroupStatus;
  group_summary : Json;
  group_barrier : option str;
  group_members : list Member
}.

(** The counts that [SELECT SUM(CASE ..)] takes from the member rows. *)
Definition count_required (l : list Member) : N := len (List.filter member_required l).
Definition count_terminal (l : list Member) : N :=
  len (List.filter (λ m, member_required m && member_terminal (member_status m)) l).
Definition count_successful (l : list Member) : N :=
  len (List.filter (λ m, member_required m && member_success (member_status m)) l).

(** The rows that an [UPDATE .. WHERE .. AND status = 'pending'] meets. *)
Definition is_pending (m : Member) : bool := negb (member_terminal (member_status m)).
Definition pending_of (thread : str) (m : Member) : bool := (member_thread m =s thread) && is_pending m.
Definition update_rows (pred : Member → bool) (f : Member → Member) (l : list Member) : list Member :=
  map (λ m, if pred m then f m else m) l.
Definition rows_affected (pred : Member → bool) (l : list Member) : N := len (List.filter pred l).

Definition settle (s : ThreadGroupMemberStatus) (outcome : str) (m : Member) : Member :=
  mkMember (member_thread m) (member_ordinal m) (member_required m) s (Some outcome).
Definition release_member (m : Member) : Member :=
  mkMember (member_thread m) (member_ordinal m) false MemberCancelled (member_outcome m).

Definition policy_str (p : ThreadGroupPolicy) : str := match p with PolicyAll => s! "all" | PolicyAny => s! "any" end.
Definition status_str (s : ThreadGroupStatus) : str :=
  match s with
  | GroupOpen => s! "open" | GroupSatisfied => s! "satisfied"
  | GroupFailed => s! "failed" | GroupCancelled => s! "cancelled"
  end.

Definition barrier_id (g : Group) : str :=
  s! "thread_group_barrier_" ++ group_id g ++ s! "_g" ++ decimal (Z.of_N (group_generation g)).

(** The evaluation of the contract on counters of the rows [l]. *)
Definition evaluate_rows (g : Group) (required : N) (l : list Member) : ThreadGroupContractEvaluation :=
  evaluate_thread_group_contract (group_policy g) required (count_terminal l) (count_successful l) (group_contract g).

(** morphz/src/memory/sqlite.rs:14989-15000 [terminal_summary]; the summaries of a cancellation and
    of a promotion differ in their last entries only. *)
Definition summary (g : Group) (status : ThreadGroupStatus) (required : N) (l : list Member)
    (last : list (string * Json)) : Json :=
  let number n := JNumber (PosInt (Z.of_N n)) in
  jobj ([("group_id", JString (group_id g)); ("status", JString (status_str status));
         ("policy", JString (policy_str (group_policy g))); ("required_count", number required);
         ("terminal_count", number (count_terminal l)); ("successful_count", number (count_successful l));
         ("completion_contract", group_contract g);
         ("contract_results", ge_results (evaluate_rows g required l))]%string ++ last)%list.

Definition last_entries (outcome thread : str) : list (string * Json) :=
  [("last_outcome_id", JString outcome); ("last_thread_id", JString thread)]%string.

Definition set_members (g : Group) (l : list Member) : Group :=
  mkGroup (group_id g) (group_revision g) (group_supervisor g) (group_generation g) (group_policy g)
    (group_contract g) (group_required_count g) (group_terminal_count g) (group_successful_count g)
    (group_status g) (group_summary g) (group_barrier g) l.

(** [UPDATE thread_groups SET revision = revision + 1, ..] with the counters of the rows [l]. *)
Definition set_row (g : Group) (required : N) (status : ThreadGroupStatus) (s : Json) (barrier : option str)
    (l : list Member) : Group :=
  mkGroup (group_id g) (group_revision g + 1) (group_supervisor g) (group_generation g) (group_policy g)
    (group_contract g) required (count_terminal l) (count_successful l) status s barrier l.

(** ** Transactions *)

(** A transaction that commits gives the rows and the barrier event it appends; one that fails
    rolls back. *)
Definition Outcome : Type := result string (Group * option str).

(** morphz/src/memory/sqlite.rs:14936-14941 [member_status]: what an outcome of a thread makes of its
    member row; [passed] is the verdict of the thread's own completion contract. *)
Definition member_status_of (terminal_kind : str) (passed : bool) : ThreadGroupMemberStatus :=
  if terminal_kind =s s! "completed" then if passed then MemberCompleted else MemberFailed
  else if terminal_kind =s s! "cancelled" then MemberCancelled
  else MemberFailed.

(** morphz/src/memory/sqlite.rs:14935-15038 [commit_activation_outcome], the part on the group. *)
Definition commit_outcome (thread terminal_kind outcome : str) (passed : bool) (g : Group) : Outcome :=
  let pred := pending_of thread in
  let l := update_rows pred (settle (member_status_of terminal_kind passed) outcome) (group_members g) in
  if rows_affected pred (group_members g) =? 1 then
    let required := group_required_count g in
    let next := ge_status (evaluate_rows g required l) in
    if decide (group_status g = GroupOpen) then
      let barrier := if group_terminal next then Some (barrier_id g) else None in
      Ok (set_row g required next (summary g next required l (last_entries outcome thread)) barrier l, barrier)
    else Ok (set_members g l, None)
  else Ok (set_members g l, None).

(** morphz/src/memory/sqlite.rs:17644-17752 [cancel_thread], the part on the group. *)
Definition cancel_member (thread outcome : str) (g : Group) : Outcome :=
  let pred := pending_of thread in
  let l := update_rows pred (settle MemberCancelled outcome) (group_members g) in
  if negb (rows_affected pred (group_members g) =? 1) then Err "member cannot be closed"%string
  else
    let required := group_required_count g in
    let next := if group_terminal (group_status g) then group_status g else ge_status (evaluate_rows g required l) in
    let transitioned := bool_decide (group_status g = GroupOpen) && group_terminal next in
    let barrier :=
      if group_terminal (group_status g) then group_barrier g
      else if group_terminal next then Some (barrier_id g) else None in
    Ok (set_row g required next (summary g next required l (last_entries outcome thread)) barrier l,
        if transitioned then Some (barrier_id g) else None).

(** morphz/src/memory/sqlite.rs:19394-19406 [promote_thread]: the guard on the source group. *)
Definition promotable (g : Group) : bool :=
  bool_decide (group_status g = GroupOpen) &&
  match group_supervisor g with SupervisorThread | SupervisorEvaluation => true | _ => false end.

(** morphz/src/memory/sqlite.rs:19546-19638 [promote_thread], the part on the source group: the
    thread leaves it without an outcome. *)
Definition promote_member (thread objective target : str) (g : Group) : Outcome :=
  if negb (promotable g) then Err "source group is not an open attached group"%string
  else
    let pred m := pending_of thread m && member_required m in
    let l := update_rows pred release_member (group_members g) in
    if negb (rows_affected pred (group_members g) =? 1) then Err "source member already released"%string
    else
      let required := count_required l in
      let next := ge_status (evaluate_rows g required l) in
      let barrier := if group_terminal next then Some (barrier_id g) else None in
      Ok (set_row g required next
            (summary g next required l
               [("released_thread_id", JString thread); ("promoted_to_objective_id", JString objective);
                ("promoted_to_group_id", JString target)]%string) barrier l, barrier).

(** morphz/src/memory/sqlite.rs:19478-19497 [promote_thread]: the group the promoted thread joins. *)
Definition target_group (id thread : str) (generation : N) (policy : ThreadGroupPolicy) (contract : Json) : Group :=
  mkGroup id 1 SupervisorObjective generation policy contract 1 0 0 GroupOpen (JObject []) None
    [mkMember thread 0 true MemberPending None].

(** morphz/src/memory/mod.rs:3933-3938 [NewThreadGroupMember]. *)
Record NewMember : Type := mkNewMember { new_thread : str; new_ordinal : N; new_required : bool }.

(** morphz/src/memory/sqlite.rs:19061-19074 [commit_schedule_transaction]: [INSERT OR IGNORE] of a
    member row, which meets the unique ordinals and the unique threads of the group; [busy] says
    which threads have a pending row in another group, which a third index forbids. *)
Definition insert_member (busy : str → bool) (l : list Member) (m : NewMember) : list Member :=
  if existsb (λ x, (member_ordinal x =? new_ordinal m) || (member_thread x =s new_thread m)) l || busy (new_thread m)
  then l
  else (l ++ [mkMember (new_thread m) (new_ordinal m) (new_required m) MemberPending None])%list.

(** morphz/src/memory/sqlite.rs:18986-19075 [commit_schedule_transaction], the groups of the plan,
    for an identifier that is new; the routes of the threads are checked apart. *)
Definition create_group (busy : str → bool) (id : str) (supervisor : ThreadSupervisorKind) (generation : N)
    (policy : ThreadGroupPolicy) (contract : Json) (plan : list NewMember) : result string Group :=
  if generation =? 0 then Err "generation must be positive"%string
  else match plan with
  | [] => Err "group has no member"%string
  | _ =>
      match supervisor with
      | SupervisorNone | SupervisorLegacy => Err "group has no supervisor"%string
      | _ =>
          let required := len (List.filter new_required plan) in
          if required =? 0 then Err "group has no required member"%string
          else Ok (mkGroup id 1 supervisor generation policy contract required 0 0 GroupOpen (JObject []) None
                     (foldl (insert_member busy) [] plan))
      end
  end.

(** ** Runs *)

(** A transaction on the group, by the thread it is about; transactions on one database file are
    serialized, so a run is a sequence of them in any order. *)
Inductive group_step : Group → option str → Group → Prop :=
| step_outcome thread kind outcome passed g b g' :
    commit_outcome thread kind outcome passed g = Ok (g', b) → group_step g b g'
| step_cancel thread outcome g b g' :
    cancel_member thread outcome g = Ok (g', b) → group_step g b g'
| step_promote thread objective target g b g' :
    promote_member thread objective target g = Ok (g', b) → group_step g b g'.

Definition option_list {A} (o : option A) : list A := match o with Some a => [a] | None => [] end.

(** A run with the barriers it appends. *)
Inductive group_run (g0 : Group) : list str → Group → Prop :=
| run_start : group_run g0 [] g0
| run_step bs g b g' : group_run g0 bs g → group_step g b g' → group_run g0 (bs ++ option_list b)%list g'.
