(* ===== verification/ThreadGroupFacts.v ===== *)
(** * Thread groups: what a run of transactions guarantees

    The contract of a group is decided on counters while members still run.  Here: a decision is
    right for every way the remaining members can end; a group that is created well-formed closes
    exactly once, with exactly one barrier, and never stays open with nothing left to wait for; and
    the status it closes with is the verdict on the rows, in whatever order the members ended. *)

From stdpp Require Import base list gmap strings.
From Stdlib Require Import NArith ZArith Lia.
From S2P Require Import Prelude JsonValue Text ThreadGroups.

Local Open Scope N_scope.

(** ** Counting rows *)

Definition b2n (b : bool) : N := if b then 1 else 0.

Lemma len_filter_cons {A} (p : A → bool) x l :
  len (List.filter p (x :: l)) = b2n (p x) + len (List.filter p l).
Proof. unfold len, b2n. cbn. destruct (p x); cbn [length]; lia. Qed.

Lemma count_required_cons m l : count_required (m :: l) = b2n (member_required m) + count_required l.
Proof. apply len_filter_cons. Qed.
Lemma count_terminal_cons m l :
  count_terminal (m :: l) = b2n (member_required m && member_terminal (member_status m)) + count_terminal l.
Proof. apply (len_filter_cons (λ m, member_required m && member_terminal (member_status m))). Qed.
Lemma count_successful_cons m l :
  count_successful (m :: l) = b2n (member_required m && member_success (member_status m)) + count_successful l.
Proof. apply (len_filter_cons (λ m, member_required m && member_success (member_status m))). Qed.

#[local] Hint Rewrite count_required_cons count_terminal_cons count_successful_cons : counts.

Ltac row_cbn := cbn [andb negb member_terminal member_success] in *.
Ltac row_lia := row_cbn; lia.
Ltac count_step := autorewrite with counts in *; unfold b2n in *.

(** The counters of any rows are ordered. *)
Lemma counts_bounds l : count_successful l ≤ count_terminal l ∧ count_terminal l ≤ count_required l.
Proof.
  induction l as [|m l IH]; [done|]. count_step.
  destruct (member_required m), (member_status m); row_lia.
Qed.

(** An open count is a required pending member. *)
Lemma open_count_pending l :
  count_terminal l < count_required l ↔ Exists (λ m, member_required m = true ∧ is_pending m = true) l.
Proof.
  induction l as [|m l IH]; [split; [by intros ?%N.lt_irrefl|intros H; inversion H]|].
  pose proof (counts_bounds l). rewrite Exists_cons, <- IH. count_step. unfold is_pending.
  destruct (member_required m), (member_status m); row_cbn; split;
    try lia; intros Hx; try (right; lia); try (left; done);
    destruct Hx as [[? ?]|?]; try discriminate; lia.
Qed.

(** ** Rows that advance *)

(** A row that has ended does not change; a pending row may end. *)
Definition member_ext (m m' : Member) : Prop :=
  member_thread m' = member_thread m ∧ member_ordinal m' = member_ordinal m ∧
  member_required m' = member_required m ∧ (is_pending m = false → m' = m).
Definition rows_ext : list Member → list Member → Prop := Forall2 member_ext.

#[export] Instance member_ext_refl : Reflexive member_ext.
Proof. by intros m. Qed.
#[export] Instance member_ext_trans : Transitive member_ext.
Proof.
  intros a b c (H1 & H2 & H3 & H4) (H5 & H6 & H7 & H8). split_and!; try congruence.
  intros Ha. rewrite (H8 ltac:(by rewrite H4)). auto.
Qed.

Lemma ext_counts l l' : rows_ext l l' →
  count_required l' = count_required l ∧
  count_successful l ≤ count_successful l' ∧
  count_terminal l + count_successful l' ≤ count_terminal l' + count_successful l.
Proof.
  induction 1 as [|m m' l l' (_ & _ & Hr & Hp) Hl IH]; [split_and!; reflexivity|].
  count_step. rewrite Hr. unfold is_pending in Hp.
  destruct (member_status m) eqn:E; row_cbn.
  1: destruct (member_required m), (member_status m'); row_lia.
  all: rewrite (Hp eq_refl), E; destruct (member_required m); row_lia.
Qed.

Lemma update_settle_ext pred s o l :
  (∀ m, pred m = true → is_pending m = true) → rows_ext l (update_rows pred (settle s o) l).
Proof.
  intros Hp. unfold rows_ext, update_rows. apply Forall2_fmap_r, Forall_Forall2_diag, Forall_true.
  intros m. cbn. destruct (pred m) eqn:E; [|reflexivity].
  split_and!; try done. intros H. rewrite (Hp m E) in H. discriminate.
Qed.

Lemma pending_of_pending thread m : pending_of thread m = true → is_pending m = true.
Proof. unfold pending_of. by intros [_ ?]%andb_true_iff. Qed.

(** ** The decision *)

Definition default_budget (contract : Json) : Prop := ∀ fallback, threshold contract "maximum_failed_members" fallback = fallback.

Section Verdict.
Context (policy : ThreadGroupPolicy) (contract : Json).

Let verdict r t s := ge_status (evaluate_thread_group_contract policy r t s contract).

(** A failure is final: no ending of the remaining members repairs it. *)
Lemma verdict_failed_final r t s t' s' :
  s ≤ s' → t + s' ≤ t' + s → s ≤ t → s' ≤ t' → t' ≤ r →
  verdict r t s = GroupFailed → verdict r t' s' = GroupFailed.
Proof.
  intros Hs Hf H1 H2 H3. unfold verdict, evaluate_thread_group_contract. cbn [ge_status].
  set (mn := minimum_successful policy r contract). set (mx := maximum_failed policy r contract).
  unfold u64_saturating. destruct policy; cbn [negb orb andb];
  repeat match goal with |- context [?a <=? ?b] => destruct (N.leb_spec a b) end; cbn [negb orb andb];
    try done; intros _; lia.
Qed.

(** With the default failure budget a success is final too. *)
Lemma verdict_satisfied_final r t s t' s' :
  default_budget contract →
  s ≤ s' → t + s' ≤ t' + s → s ≤ t → s' ≤ t' → t' ≤ r →
  verdict r t s = GroupSatisfied → verdict r t' s' = GroupSatisfied.
Proof.
  intros Hd Hs Hf H1 H2 H3. unfold verdict, evaluate_thread_group_contract. cbn [ge_status].
  unfold maximum_failed. rewrite Hd. set (mn := minimum_successful policy r contract).
  unfold u64_saturating. destruct policy; cbn [negb orb andb];
  repeat match goal with |- context [?a <=? ?b] => destruct (N.leb_spec a b) end; cbn [negb orb andb];
    try done; intros _; lia.
Qed.

(** With nothing pending the contract is decided, and it is never decided [Cancelled]. *)
Lemma verdict_open_pending r t s : verdict r t s = GroupOpen → t < r.
Proof.
  unfold verdict, evaluate_thread_group_contract. cbn [ge_status].
  repeat case_match; try done; intros _; rewrite ?N.leb_gt in *; done.
Qed.
Lemma verdict_not_cancelled r t s : verdict r t s ≠ GroupCancelled.
Proof. unfold verdict, evaluate_thread_group_contract. cbn [ge_status]. repeat case_match; done. Qed.

(** An open verdict can still become a success, when every remaining member succeeds. *)
Lemma verdict_open_reachable r t s : s ≤ t → t < r →
  verdict r t s = GroupOpen → verdict r r (s + (r - t)) = GroupSatisfied.
Proof.
  intros H1 H2. unfold verdict, evaluate_thread_group_contract. cbn [ge_status].
  set (mn := minimum_successful policy r contract). set (mx := maximum_failed policy r contract).
  unfold u64_saturating. destruct policy; cbn [negb orb andb];
  repeat match goal with |- context [?a <=? ?b] => destruct (N.leb_spec a b) end; cbn [negb orb andb];
    try done; intros _; lia.
Qed.

(** An open verdict of an [any] group can still become a failure, when none succeeds. *)
Lemma verdict_open_any_failable r t s : policy = PolicyAny → s ≤ t → t < r →
  verdict r t s = GroupOpen → verdict r r s = GroupFailed.
Proof.
  intros -> H1 H2. unfold verdict, evaluate_thread_group_contract. cbn [ge_status].
  set (mn := minimum_successful _ r contract). set (mx := maximum_failed _ r contract).
  unfold u64_saturating.
  repeat match goal with |- context [?a <=? ?b] => destruct (N.leb_spec a b) end; cbn [negb orb andb];
    try done; intros _; lia.
Qed.
End Verdict.

(** The same facts on rows. *)
Lemma rows_failed_final g r l l' :
  rows_ext l l' → r = count_required l →
  ge_status (evaluate_rows g r l) = GroupFailed → ge_status (evaluate_rows g r l') = GroupFailed.
Proof.
  intros Hl ->. destruct (ext_counts l l' Hl) as (Hr & ? & ?), (counts_bounds l), (counts_bounds l').
  apply verdict_failed_final; lia.
Qed.

Lemma rows_satisfied_final g r l l' :
  default_budget (group_contract g) → rows_ext l l' → r = count_required l →
  ge_status (evaluate_rows g r l) = GroupSatisfied → ge_status (evaluate_rows g r l') = GroupSatisfied.
Proof.
  intros Hd Hl ->. destruct (ext_counts l l' Hl) as (Hr & ? & ?), (counts_bounds l), (counts_bounds l').
  apply verdict_satisfied_final; try done; lia.
Qed.

(** ** Creation *)

(** A plan whose rows are all inserted: ordinals and threads are distinct, and no thread is a
    pending member elsewhere. *)
Definition plan_ok (busy : str → bool) (plan : list NewMember) : Prop :=
  NoDup (map new_ordinal plan) ∧ NoDup (map new_thread plan) ∧ Forall (λ m, busy (new_thread m) = false) plan.

Definition pending_row (m : NewMember) : Member :=
  mkMember (new_thread m) (new_ordinal m) (new_required m) MemberPending None.

Lemma insert_members_all busy plan done :
  NoDup (map new_ordinal (done ++ plan)) → NoDup (map new_thread (done ++ plan)) →
  Forall (λ m, busy (new_thread m) = false) plan →
  foldl (insert_member busy) (map pending_row done) plan = map pending_row (done ++ plan).
Proof.
  revert done. induction plan as [|m plan IH]; intros rows Ho Ht Hb; [by rewrite app_nil_r|].
  apply Forall_cons in Hb as [Hm Hb]. cbn [foldl].
  rewrite cons_middle, app_assoc in Ho, Ht |- *.
  replace (insert_member busy (map pending_row rows) m) with (map pending_row (rows ++ [m])); [by apply IH|].
  unfold insert_member. rewrite Hm, orb_false_r.
  destruct (existsb _ _) eqn:E; [exfalso|by rewrite map_app].
  apply existsb_exists in E as (x & (y & <- & Hy)%in_map_iff & Hx). cbn in Hx.
  rewrite !map_app in Ho, Ht. apply NoDup_app in Ho as (Ho & _ & _), Ht as (Ht & _ & _).
  apply NoDup_app in Ho as (_ & Ho & _), Ht as (_ & Ht & _).
  assert (Hin : ∀ B (f : NewMember → B), In (f y) (map f rows)) by (intros; by apply in_map).
  apply orb_true_iff in Hx as [Hx%N.eqb_eq|Hx%str_eqb_eq];
    [apply (Ho (new_ordinal y))|apply (Ht (new_thread y))];
    try (apply list_elem_of_In, Hin); rewrite Hx; apply list_elem_of_In; left; reflexivity.
Qed.

Lemma pending_rows_required plan : count_required (map pending_row plan) = len (List.filter new_required plan).
Proof.
  induction plan as [|m plan IH]; [done|]. cbn [map].
  by rewrite count_required_cons, len_filter_cons, IH.
Qed.
Lemma pending_rows_terminal plan : count_terminal (map pending_row plan) = 0.
Proof.
  induction plan as [|m plan IH]; [done|]. cbn [map]. rewrite count_terminal_cons, IH.
  by destruct (new_required m) eqn:E; cbn; rewrite E.
Qed.

(** ** The invariant of a group *)

Record group_inv (g : Group) : Prop := mkInv {
  inv_unique : NoDup (map member_thread (group_members g));
  inv_required : group_required_count g = count_required (group_members g);
  inv_open : group_status g = GroupOpen →
    group_terminal_count g = count_terminal (group_members g) ∧
    group_successful_count g = count_successful (group_members g) ∧
    count_terminal (group_members g) < count_required (group_members g) ∧
    group_barrier g = None;
  inv_closed : group_status g ≠ GroupOpen →
    group_status g ≠ GroupCancelled ∧ group_barrier g = Some (barrier_id g)
}.

Lemma create_inv busy id supervisor generation policy contract plan g :
  create_group busy id supervisor generation policy contract plan = Ok g → plan_ok busy plan →
  group_inv g ∧ group_status g = GroupOpen.
Proof.
  unfold create_group. intros Hc (Ho & Ht & Hb).
  pose proof (insert_members_all busy plan [] Ho Ht Hb) as Hl. cbn [map app] in Hl.
  rewrite Hl in Hc. clear Hl. pose proof (pending_rows_required plan) as Hr.
  pose proof (pending_rows_terminal plan) as Hz. pose proof (counts_bounds (map pending_row plan)) as [Hs _].
  assert (Hu : NoDup (map member_thread (map pending_row plan))) by (by rewrite map_map).
  revert Hc Hr Hz Hs Hu. generalize (map pending_row plan) as rows. intros rows Hc Hr Hz Hs Hu.
  repeat case_match; simplify_eq.
  all: split; [|done]; apply N.eqb_neq in H2; rewrite <- Hr in *.
  all: split; cbn [group_required_count group_members group_terminal_count group_successful_count
                   group_status group_barrier]; [done|done| |done]; intros _; split_and!; try done; lia.
Qed.

(** How groups come about: from a plan, or for a thread that is promoted. *)
Inductive group_start (g : Group) : Prop :=
| start_planned busy id supervisor generation policy contract plan :
    create_group busy id supervisor generation policy contract plan = Ok g → plan_ok busy plan → group_start g
| start_promoted id thread generation policy contract :
    g = target_group id thread generation policy contract → group_start g.

Lemma start_inv g : group_start g → group_inv g ∧ group_status g = GroupOpen.
Proof.
  intros [busy id supervisor generation policy contract plan Hc Hp|id thread generation policy contract ->]; [by eapply create_inv|].
  split; [|done]. split; [apply NoDup_singleton|done| |done]. intros _. by split_and!.
Qed.

(** ** Steps *)

Lemma update_rows_none pred f l : rows_affected pred l = 0 → update_rows pred f l = l.
Proof.
  unfold rows_affected. induction l as [|m l IH]; [done|]. rewrite len_filter_cons. unfold b2n.
  change (update_rows pred f (m :: l)) with ((if pred m then f m else m) :: update_rows pred f l).
  destruct (pred m); [lia|]. intros H. by rewrite IH.
Qed.

Lemma update_rows_threads pred f l :
  (∀ m, member_thread (f m) = member_thread m) → map member_thread (update_rows pred f l) = map member_thread l.
Proof. intros Hf. unfold update_rows. rewrite map_map. apply map_ext. intros m. by destruct (pred m). Qed.

Lemma unique_affected pred thread l :
  (∀ m, pred m = true → member_thread m = thread) → NoDup (map member_thread l) → rows_affected pred l ≤ 1.
Proof.
  intros Hp. unfold rows_affected. induction l as [|m l IH]; cbn [map]; [unfold len; cbn; lia|].
  intros [Hm Hl]%NoDup_cons. rewrite len_filter_cons. unfold b2n. destruct (pred m) eqn:E; [|specialize (IH Hl); lia].
  enough (List.filter pred l = []) as -> by (unfold len; cbn; lia).
  destruct (List.filter pred l) as [|x r] eqn:Ef; [done|]. exfalso. apply Hm.
  assert (Hx : In x (List.filter pred l)) by (rewrite Ef; by left). apply filter_In in Hx as [Hx Hpx].
  rewrite (Hp m E), <- (Hp x Hpx). by apply list_elem_of_In, in_map.
Qed.

Lemma pending_of_thread thread m : pending_of thread m = true → member_thread m = thread.
Proof. unfold pending_of. by intros [?%str_eqb_eq _]%andb_true_iff. Qed.

(** A promotion keeps the rows' threads and lowers the required count. *)
Lemma set_members_same g : set_members g (group_members g) = g.
Proof. by destruct g. Qed.

Definition same_terms (g g' : Group) : Prop :=
  group_id g' = group_id g ∧ group_generation g' = group_generation g ∧
  group_policy g' = group_policy g ∧ group_contract g' = group_contract g.

Lemma step_same_terms g b g' : group_step g b g' → same_terms g g'.
Proof.
  intros []; unfold commit_outcome, cancel_member, promote_member in *;
    repeat case_match; simplify_eq; done.
Qed.

Lemma same_terms_barrier g g' : same_terms g g' → barrier_id g' = barrier_id g.
Proof. intros (H1 & H2 & _). unfold barrier_id. by rewrite H1, H2. Qed.
Lemma same_terms_rows g g' r l : same_terms g g' → evaluate_rows g' r l = evaluate_rows g r l.
Proof. intros (_ & _ & H1 & H2). unfold evaluate_rows. by rewrite H1, H2. Qed.

(** What a transaction does to an open group: nothing, or it re-evaluates the contract on the new
    rows and closes the group with its barrier when the contract is decided. *)
Lemma step_open g b g' : group_step g b g' → group_inv g → group_status g = GroupOpen →
  (g' = g ∧ b = None) ∨
  ∃ s l, let next := ge_status (evaluate_rows g (count_required l) l) in
    b = (if group_terminal next then Some (barrier_id g) else None) ∧
    g' = set_row g (count_required l) next s b l ∧ NoDup (map member_thread l).
Proof.
  intros Hstep [Hu Hr _ _] Hopen. destruct Hstep as [thread kind outcome passed g b g' H|thread outcome g b g' H|
    thread objective target g b g' H].
  - unfold commit_outcome in H. set (f := settle _ _) in H. set (l := update_rows _ f _) in H.
    destruct (_ =? 1) eqn:E.
    + rewrite decide_True in H by done. injection H as <- <-. right. eexists _, l.
      rewrite Hr, <- (proj1 (ext_counts (group_members g) l (update_settle_ext _ _ _ _ (pending_of_pending thread)))).
      split_and!; [done|done|]. unfold l. rewrite update_rows_threads; done.
    + injection H as <- <-. left. split; [|done].
      pose proof (unique_affected _ _ _ (pending_of_thread thread) Hu). apply N.eqb_neq in E.
      unfold l. rewrite update_rows_none by lia. apply set_members_same.
  - unfold cancel_member in H. set (f := settle _ _) in H. set (l := update_rows _ f _) in H.
    destruct (negb _); [done|]. rewrite Hopen in H. cbn [group_terminal] in H.
    rewrite bool_decide_true in H by done. injection H as <- <-. right. eexists _, l.
    rewrite Hr, <- (proj1 (ext_counts (group_members g) l (update_settle_ext _ _ _ _ (pending_of_pending thread)))).
    cbn [andb]. split_and!; [done|done|]. unfold l. rewrite update_rows_threads; done.
  - unfold promote_member in H. destruct (negb (promotable g)); [done|]. cbv zeta in H.
    destruct (negb (_ =? 1)); [done|]. injection H as <- <-. right. eexists _, _.
    split_and!; [done|done|]. rewrite update_rows_threads; done.
Qed.

(** What a transaction does to a closed group: member rows may end, nothing else is decided. *)
Lemma step_closed g b g' : group_step g b g' → group_inv g → group_status g ≠ GroupOpen →
  b = None ∧ group_status g' = group_status g ∧ group_barrier g' = group_barrier g ∧
  group_required_count g' = group_required_count g ∧ rows_ext (group_members g) (group_members g').
Proof.
  intros Hstep Hinv Hclosed.
  assert (Ht : group_terminal (group_status g) = true) by (by destruct (group_status g)).
  destruct Hstep as [thread kind outcome passed g b g' H|thread outcome g b g' H|thread objective target g b g' H].
  - unfold commit_outcome in H. rewrite decide_False in H by done.
    case_match; injection H as <- <-; split_and!; try done; apply update_settle_ext, pending_of_pending.
  - unfold cancel_member in H. destruct (negb _); [done|]. rewrite Ht in H.
    rewrite bool_decide_false in H by done. injection H as <- <-.
    split_and!; try done. apply update_settle_ext, pending_of_pending.
  - unfold promote_member, promotable in H. rewrite bool_decide_false in H by done. done.
Qed.

Lemma ext_threads l l' : rows_ext l l' → map member_thread l' = map member_thread l.
Proof. induction 1 as [|m m' l l' (H & _) _ IH]; cbn; congruence. Qed.

Lemma step_inv g b g' : group_step g b g' → group_inv g → group_inv g'.
Proof.
  intros Hstep Hinv. destruct (decide (group_status g = GroupOpen)) as [Ho|Hc].
  - destruct (step_open g b g' Hstep Hinv Ho) as [[-> _]|(s & l & Hb & -> & Hu)]; [done|].
    unfold set_row. split; cbn [group_members group_required_count group_status group_terminal_count
      group_successful_count group_barrier]; [done|done| |].
    + intros Hn. split_and!; try done; [by apply verdict_open_pending in Hn|by rewrite Hb, Hn].
    + intros Hn. split; [apply verdict_not_cancelled|]. rewrite Hb.
      by destruct (ge_status _).
  - destruct (step_closed g b g' Hstep Hinv Hc) as (-> & Hs & Hbar & Hr & Hl).
    pose proof (step_same_terms g None g' Hstep) as Hterms. destruct Hinv as [Hu Hq _ Hk].
    split.
    + by rewrite (ext_threads _ _ Hl).
    + rewrite Hr, Hq. symmetry. apply (ext_counts _ _ Hl).
    + rewrite Hs. done.
    + rewrite Hs, Hbar, (same_terms_barrier g g' Hterms). done.
Qed.

(** ** Runs *)

Lemma run_inv g0 bs g : group_run g0 bs g → group_inv g0 → group_inv g ∧ same_terms g0 g.
Proof.
  induction 1 as [|bs g b g' _ IH Hstep]; intros H0; [by split|]. destruct (IH H0) as [Hi (H1 & H2 & H3 & H4)].
  destruct (step_same_terms _ _ _ Hstep) as (? & ? & ? & ?).
  split; [by eapply step_inv|]. split_and!; congruence.
Qed.

Lemma run_barriers g0 bs g : group_run g0 bs g → group_inv g0 → group_status g0 = GroupOpen →
  bs = (if group_terminal (group_status g) then [barrier_id g0] else []).
Proof.
  intros Hrun H0 Ho. induction Hrun as [|bs g b g' Hrun IH Hstep]; [by rewrite Ho|].
  destruct (run_inv _ _ _ Hrun H0) as [Hi Hterms]. rewrite IH.
  destruct (decide (group_status g = GroupOpen)) as [Hg|Hg].
  - rewrite Hg. destruct (step_open _ _ _ Hstep Hi Hg) as [[-> ->]|(s & l & -> & -> & _)]; [by rewrite Hg|].
    cbn [group_status set_row]. rewrite (same_terms_barrier _ _ Hterms). repeat case_match; done.
  - destruct (step_closed _ _ _ Hstep Hi Hg) as (-> & Hs & _). rewrite Hs. apply app_nil_r.
Qed.

(** A closed group keeps the verdict on its rows when the failure budget is the default one. *)
Definition verdict_inv (g : Group) : Prop :=
  group_status g ≠ GroupOpen →
  group_status g = ge_status (evaluate_rows g (count_required (group_members g)) (group_members g)).

Lemma step_verdict g b g' : group_step g b g' → group_inv g → default_budget (group_contract g) →
  verdict_inv g → verdict_inv g'.
Proof.
  intros Hstep Hi Hd Hv Hn'. pose proof (step_same_terms _ _ _ Hstep) as Hterms.
  rewrite (same_terms_rows _ _ _ _ Hterms). destruct (decide (group_status g = GroupOpen)) as [Hg|Hg].
  - destruct (step_open _ _ _ Hstep Hi Hg) as [[-> _]|(s & l & _ & -> & _)]; done.
  - destruct (step_closed _ _ _ Hstep Hi Hg) as (_ & Hs & _ & _ & Hl). rewrite Hs.
    destruct (ext_counts _ _ Hl) as [-> _]. pose proof (Hv Hg) as Hverdict.
    destruct (inv_closed _ Hi Hg) as [Hc _]. destruct (group_status g) eqn:E; try done; symmetry in Hverdict |- *.
    + eapply rows_satisfied_final; eauto.
    + eapply rows_failed_final; eauto.
Qed.

Lemma run_verdict g0 bs g : group_run g0 bs g → group_inv g0 → group_status g0 = GroupOpen →
  default_budget (group_contract g0) → verdict_inv g.
Proof.
  intros Hrun H0 Ho Hd. induction Hrun as [|bs g b g' Hrun IH Hstep]; [intros H; by rewrite Ho in H|].
  destruct (run_inv _ _ _ Hrun H0) as [Hi (_ & _ & _ & Hc)]. eapply step_verdict; eauto. by rewrite Hc.
Qed.

(** ** Ways to end *)

(** A completion of rows: the rows that ended stay, every pending one ends. *)
Definition completion (l l' : list Member) : Prop := rows_ext l l' ∧ Forall (λ m, is_pending m = false) l'.

Definition end_all (s : ThreadGroupMemberStatus) (l : list Member) : list Member :=
  update_rows is_pending (settle s []) l.

Lemma end_all_completion s l : member_terminal s = true → completion l (end_all s l).
Proof.
  intros Hs. split; [by apply update_settle_ext|]. unfold end_all, update_rows. apply Forall_fmap, Forall_true.
  intros m. cbn. destruct (is_pending m) eqn:E; [|done]. unfold is_pending. cbn. by rewrite Hs.
Qed.

Lemma end_all_counts s l : member_terminal s = true →
  count_terminal (end_all s l) = count_required l ∧
  count_successful (end_all s l) =
    count_successful l + (if member_success s then count_required l - count_terminal l else 0).
Proof.
  intros Hs. induction l as [|m l IH]; [by destruct s|].
  change (end_all s (m :: l)) with ((if is_pending m then settle s [] m else m) :: end_all s l).
  pose proof (counts_bounds l). destruct IH as [IH1 IH2]. count_step. rewrite IH1, IH2. unfold is_pending.
  destruct m as [th o req st oc]. cbn [member_status member_required settle].
  destruct st, s, req; cbn [andb negb member_terminal member_success member_status member_required settle] in *;
    try discriminate; lia.
Qed.

(** C25. The decision that a group takes while members still run is exact: a [Failed] verdict on the
    rows stays [Failed] however the pending members end; a [Satisfied] one stays [Satisfied] when
    the contract sets no failure budget of its own; and while the verdict is [Open] some ending
    satisfies the contract, and for an [any] group some ending fails it, so that nothing could
    have been decided earlier. *)
Theorem early_decision_exact (g : Group) (l : list Member) :
  let verdict l' := ge_status (evaluate_rows g (count_required l) l') in
  match verdict l with
  | GroupFailed => ∀ l', completion l l' → verdict l' = GroupFailed
  | GroupSatisfied => default_budget (group_contract g) → ∀ l', completion l l' → verdict l' = GroupSatisfied
  | GroupOpen =>
      (∃ l', completion l l' ∧ verdict l' = GroupSatisfied) ∧
      (group_policy g = PolicyAny → ∃ l', completion l l' ∧ verdict l' = GroupFailed)
  | GroupCancelled => False
  end.
Proof.
  cbv zeta. destruct (ge_status (evaluate_rows g (count_required l) l)) eqn:E.
  - pose proof (verdict_open_pending _ _ _ _ _ E) as Hp. destruct (counts_bounds l) as [Hs _].
    destruct (end_all_counts MemberCompleted l eq_refl) as [Ht Hc].
    destruct (end_all_counts MemberFailed l eq_refl) as [Ht' Hc']. cbn [member_success] in Hc, Hc'.
    split; [exists (end_all MemberCompleted l)|intros Ha; exists (end_all MemberFailed l)];
      (split; [by apply end_all_completion|]); unfold evaluate_rows.
    + rewrite Ht, Hc. by apply verdict_open_reachable.
    + rewrite Ht', Hc', N.add_0_r. by apply (verdict_open_any_failable _ _ _ (count_terminal l)).
  - intros Hd l' [Hl _]. by apply (rows_satisfied_final g _ l l').
  - intros l' [Hl _]. by apply (rows_failed_final g _ l l').
  - by apply verdict_not_cancelled in E.
Qed.

(** C23. A group closes once, says so once and never waits for nobody.  The group comes from a plan whose
    ordinals and threads are distinct and whose threads are pending in no other group, or is the group
    that a promoted thread joins.  Along any sequence of outcomes, cancellations and promotions from
    its creation, in any order, the barrier events appended are none while the group is open and exactly one
    from then on, under the identifier the group row records; and once no required member is pending
    the group is closed.  (Creation also accepts other plans, of which [INSERT OR IGNORE] drops
    rows that the required count counts; they are not covered.) *)
Theorem barrier_exactly_once g0 bs g :
  group_start g0 → group_run g0 bs g →
  bs = (if group_terminal (group_status g) then [barrier_id g0] else []) ∧ group_barrier g = head bs ∧
  (Forall (λ m, member_required m = true → is_pending m = false) (group_members g) →
   group_terminal (group_status g) = true).
Proof.
  intros [H0 Ho]%start_inv Hrun.
  destruct (run_inv _ _ _ Hrun H0) as [Hi Hterms]. rewrite (run_barriers _ _ _ Hrun H0 Ho).
  split; [done|]. destruct (decide (group_status g = GroupOpen)) as [Hg|Hg].
  - destruct (inv_open _ Hi Hg) as (_ & _ & Hlt%open_count_pending & ->). rewrite Hg. split; [done|].
    intros Hf. exfalso. apply Exists_exists in Hlt as (m & Hm & Hreq & Hpend).
    rewrite Forall_forall in Hf. by rewrite (Hf m Hm Hreq) in Hpend.
  - destruct (inv_closed _ Hi Hg) as [_ ->]. rewrite (same_terms_barrier _ _ Hterms).
    by destruct (group_status g).
Qed.

(** C24. The status a group closes with does not depend on the order in which its members ended: for a
    group from a plan whose ordinals and threads are distinct and whose threads are pending in no other group,
    and whose contract sets no failure budget of its own, the status of the closed group is, after
    any run, the verdict of its contract on the member rows as they are, including those that
    ended after it closed. *)
Theorem group_status_is_verdict busy id supervisor generation policy contract plan g0 bs g :
  create_group busy id supervisor generation policy contract plan = Ok g0 → plan_ok busy plan →
  default_budget contract → group_run g0 bs g → group_status g ≠ GroupOpen →
  group_status g =
    ge_status (evaluate_thread_group_contract policy (count_required (group_members g))
                 (count_terminal (group_members g)) (count_successful (group_members g)) contract).
Proof.
  intros Hc Hp Hd Hrun Hn. destruct (create_inv _ _ _ _ _ _ _ _ Hc Hp) as [H0 Ho].
  destruct (run_inv _ _ _ Hrun H0) as [Hi (_ & _ & Hpol & Hcon)].
  assert (Hg0 : group_policy g0 = policy ∧ group_contract g0 = contract).
  { unfold create_group in Hc. repeat case_match; by simplify_eq. }
  destruct Hg0 as [<- <-]. rewrite <- Hpol, <- Hcon. by apply (run_verdict g0 bs).
Qed.

(** ** A group that ends *)

Definition sample_plan : list NewMember :=
  [mkNewMember (s! "t1") 0 true; mkNewMember (s! "t2") 1 true; mkNewMember (s! "t3") 2 true].
Definition create_sample : result string Group :=
  create_group (λ _, false) (s! "g") SupervisorThread 1 PolicyAny (JObject []) sample_plan.
Definition group_of (r : Outcome) (g : Group) : Group := match r with Ok (g', _) => g' | Err _ => g end.

Definition sample_0 : Group := Eval vm_compute in
  match create_sample with Ok g => g | Err _ => target_group [] [] 0 PolicyAll JNull end.
Definition sample_1 : Group := Eval vm_compute in
  group_of (promote_member (s! "t3") (s! "o") (s! "h") sample_0) sample_0.
Definition sample_2 : Group := Eval vm_compute in
  group_of (commit_outcome (s! "t1") (s! "completed") (s! "out1") true sample_1) sample_1.
Definition sample_3 : Group := Eval vm_compute in
  group_of (commit_outcome (s! "t2") (s! "failed") (s! "out2") true sample_2) sample_2.

Lemma sample_plan_ok : plan_ok (λ _, false) sample_plan.
Proof. split_and!; [| |by repeat constructor]; apply (bool_decide_unpack _); by vm_compute. Defined.

Lemma sample_run : group_run sample_0 [barrier_id sample_0] sample_3.
Proof.
  apply (run_step _ [barrier_id sample_0] sample_2 None);
    [|apply (step_outcome (s! "t2") (s! "failed") (s! "out2") true); vm_compute; reflexivity].
  apply (run_step _ [] sample_1 (Some (barrier_id sample_0)));
    [|apply (step_outcome (s! "t1") (s! "completed") (s! "out1") true); vm_compute; reflexivity].
  apply (run_step _ [] sample_0 None); [apply run_start|].
  apply (step_promote (s! "t3") (s! "o") (s! "h")). vm_compute. reflexivity.
Defined.

Lemma empty_contract_budget : default_budget (JObject []).
Proof. by intros fallback. Defined.

Lemma sample_start : group_start sample_0.
Proof. exact (start_planned _ _ _ _ _ _ _ _ (eq_refl : create_sample = Ok sample_0) sample_plan_ok). Defined.

Lemma barrier_exactly_once_witness :
  group_barrier sample_3 = Some (barrier_id sample_0) ∧ group_terminal (group_status sample_3) = true.
Proof.
  destruct (barrier_exactly_once sample_0 [barrier_id sample_0] sample_3 sample_start sample_run) as (_ & Hb & Hs).
  split; [exact Hb|]. apply Hs. repeat constructor; done.
Defined.

(** A plan that names a thread twice is accepted; the row is dropped, the count is not, and the group
    stays open with no required member pending. *)
Definition repeated_plan : list NewMember := [mkNewMember (s! "t1") 0 true; mkNewMember (s! "t1") 1 true].
Definition repeated_group (f : Group → Outcome) : result string Group :=
  g ← create_group (λ _, false) (s! "g") SupervisorThread 1 PolicyAll (JObject []) repeated_plan; r ← f g; Ok (fst r).
Lemma repeated_member_never_closes :
  ∃ g, repeated_group (commit_outcome (s! "t1") (s! "completed") (s! "out1") true) = Ok g ∧ group_status g = GroupOpen ∧
       Forall (λ m, is_pending m = false) (group_members g) ∧
       cancel_member (s! "t1") (s! "out2") g = Err "member cannot be closed"%string.
Proof. eexists. split; [vm_compute; reflexivity|]. split; [reflexivity|]. split; [repeat constructor|vm_compute; reflexivity]. Qed.

Lemma group_status_is_verdict_witness :
  group_status sample_3 = ge_status (evaluate_thread_group_contract PolicyAny 2 2 1 (JObject [])).
Proof.
  apply (group_status_is_verdict _ _ _ _ _ _ _ sample_0 [barrier_id sample_0] sample_3
           (eq_refl : create_sample = Ok sample_0) sample_plan_ok empty_contract_budget sample_run).
  done.
Defined.
