(* ===== verification/Scheduler.v ===== *)
(** * Scheduler domain (morphz/src/scheduler/domain.rs, morphz/src/scheduler/authority.rs)

    The scheduler derives, from rows it does not own, whether an objective can run and which rows
    contradict each other.  Both are pure: [derive_objective_readiness] and the invariant audit that
    recovery and the directory views read.

    Times are nanoseconds.  A [HashMap] that is only looked up is the list it was collected from,
    searched from the end, where a later entry replaces an earlier one; the one that is iterated
    keeps its keys in the order of insertion, where the code's order is unspecified. *)

From stdpp Require Import base list gmap strings sorting.
From Stdlib Require Import NArith ZArith Lia.
From S2P Require Import Prelude Ordering JsonValue Text ThreadGroups.

Local Open Scope N_scope.

(** ** Data *)

(** morphz/src/scheduler/domain.rs:18-24 [SchedulerDependencyOwnerKind]. *)
Inductive SchedulerDependencyOwnerKind : Type := OwnerObjective | OwnerThread | OwnerPlan | OwnerSchedule | OwnerDelivery.
(** morphz/src/scheduler/domain.rs:27-35 [SchedulerDependencyOwnerKind::as_str]. *)
Definition owner_kind_str (k : SchedulerDependencyOwnerKind) : str :=
  match k with
  | OwnerObjective => s! "objective" | OwnerThread => s! "thread" | OwnerPlan => s! "plan"
  | OwnerSchedule => s! "schedule" | OwnerDelivery => s! "delivery"
  end.
(** morphz/src/scheduler/domain.rs:37-46 [SchedulerDependencyOwnerKind::parse]. *)
Definition parse_owner_kind (value : str) : option SchedulerDependencyOwnerKind :=
  if value =s s! "objective" then Some OwnerObjective
  else if value =s s! "thread" then Some OwnerThread
  else if value =s s! "plan" then Some OwnerPlan
  else if value =s s! "schedule" then Some OwnerSchedule
  else if value =s s! "delivery" then Some OwnerDelivery
  else None.

(** morphz/src/scheduler/domain.rs:52-62 [SchedulerDependencyKind]. *)
Inductive SchedulerDependencyKind : Type :=
| DepThread | DepThreadGroup | DepToolTask | DepDelegation | DepTimer | DepPermission | DepUserInput
| DepExternalEvent | DepResource.
(** morphz/src/scheduler/domain.rs:65-77 [SchedulerDependencyKind::as_str]. *)
Definition dependency_kind_str (k : SchedulerDependencyKind) : str :=
  match k with
  | DepThread => s! "thread" | DepThreadGroup => s! "thread_group" | DepToolTask => s! "tool_task"
  | DepDelegation => s! "delegation" | DepTimer => s! "timer" | DepPermission => s! "permission"
  | DepUserInput => s! "user_input" | DepExternalEvent => s! "external_event" | DepResource => s! "resource"
  end.
(** morphz/src/scheduler/domain.rs:79-92 [SchedulerDependencyKind::parse]. *)
Definition parse_dependency_kind (value : str) : option SchedulerDependencyKind :=
  if value =s s! "thread" then Some DepThread
  else if value =s s! "thread_group" then Some DepThreadGroup
  else if value =s s! "tool_task" then Some DepToolTask
  else if value =s s! "delegation" then Some DepDelegation
  else if value =s s! "timer" then Some DepTimer
  else if value =s s! "permission" then Some DepPermission
  else if value =s s! "user_input" then Some DepUserInput
  else if value =s s! "external_event" then Some DepExternalEvent
  else if value =s s! "resource" then Some DepResource
  else None.

(** morphz/src/scheduler/domain.rs:97-101 [SchedulerDependencyStatus]. *)
Inductive SchedulerDependencyStatus : Type := DepPending | DepSatisfied | DepCancelled.

#[export] Instance owner_kind_eq_dec : EqDecision SchedulerDependencyOwnerKind.
Proof. solve_decision. Defined.
#[export] Instance dependency_kind_eq_dec : EqDecision SchedulerDependencyKind.
Proof. solve_decision. Defined.
#[export] Instance dependency_status_eq_dec : EqDecision SchedulerDependencyStatus.
Proof. solve_decision. Defined.

(** morphz/src/scheduler/domain.rs:130-145 [SchedulerDependencyRecord], without metadata and times. *)
Record SchedulerDependencyRecord : Type := mkDependency {
  dep_id : str;
  dep_owner_kind : SchedulerDependencyOwnerKind;
  dep_owner_id : str;
  dep_owner_generation : N;
  dep_kind : SchedulerDependencyKind;
  dep_target : str;
  dep_target_generation : N;
  dep_required : bool;
  dep_status : SchedulerDependencyStatus
}.

(** morphz/src/memory/mod.rs:5428-5435 [ObjectiveStatus]. *)
Inductive ObjectiveStatus : Type :=
| ObjActive | ObjPaused | ObjBlocked | ObjCompleted | ObjCancelled | ObjFailed.
(** morphz/src/memory/mod.rs:5449-5451 [ObjectiveStatus::is_terminal]. *)
Definition objective_terminal (s : ObjectiveStatus) : bool :=
  match s with ObjCompleted | ObjCancelled | ObjFailed => true | _ => false end.
#[export] Instance objective_status_eq_dec : EqDecision ObjectiveStatus.
Proof. solve_decision. Defined.

(** morphz/src/memory/mod.rs:5523-5563 [ObjectiveRecord], the fields that the scheduler reads. *)
Record ObjectiveRecord : Type := mkObjective {
  obj_id : str;
  obj_generation : N;
  obj_status : ObjectiveStatus;
  obj_waits : bool;
  obj_active_evaluation : option str;
  obj_lease_expires_at : option Z
}.

(** ** Readiness *)

(** morphz/src/scheduler/domain.rs:229-245 [ObjectiveReadiness]. *)
Inductive ObjectiveReadiness : Type :=
| Runnable
| Waiting (dependency_ids : list str)
| Leased (evaluation_id : str)
| Suspended (evaluation_id : str)
| ReadinessPaused
| ReadinessBlocked
| ReadinessTerminal.

Definition str_le : str → str → Prop := not_gt str_cmp.

(** [Vec::dedup]. *)
Fixpoint dedup (l : list str) : list str :=
  match l with
  | x :: (y :: _) as r => if x =s y then dedup r else x :: dedup r
  | _ => l
  end.

(** morphz/src/scheduler/domain.rs:279-285 [derive_objective_readiness]: the filter. *)
Definition holds_back (objective : ObjectiveRecord) (d : SchedulerDependencyRecord) : bool :=
  bool_decide (dep_owner_kind d = OwnerObjective) && (dep_owner_id d =s obj_id objective)
  && (dep_owner_generation d =? obj_generation objective) && dep_required d
  && bool_decide (dep_status d = DepPending).

(** morphz/src/scheduler/domain.rs:277-296 [derive_objective_readiness]: the dependencies. *)
Definition dependency_readiness (objective : ObjectiveRecord) (l : list SchedulerDependencyRecord) : ObjectiveReadiness :=
  match dedup (merge_sort str_le (map dep_id (List.filter (holds_back objective) l))) with
  | [] => Runnable
  | pending => Waiting pending
  end.

(** morphz/src/scheduler/domain.rs:247-297 [derive_objective_readiness]. *)
Definition derive_objective_readiness (objective : ObjectiveRecord) (l : list SchedulerDependencyRecord) (now : Z) : ObjectiveReadiness :=
  if objective_terminal (obj_status objective) then ReadinessTerminal
  else match obj_status objective with
  | ObjPaused => ReadinessPaused
  | ObjBlocked => ReadinessBlocked
  | ObjCompleted | ObjCancelled | ObjFailed => ReadinessTerminal
  | ObjActive =>
      match obj_active_evaluation objective with
      | Some evaluation =>
          match obj_lease_expires_at objective with
          | None => Suspended evaluation
          | Some expires_at =>
              if (now <? expires_at)%Z then Leased evaluation else dependency_readiness objective l
          end
      | None => dependency_readiness objective l
      end
  end.

(** ** Stable identities *)

Section identities.
Context `{Digest}.

(** morphz/src/scheduler/domain.rs:158-166 [stable_scheduler_dependency_id]: what is hashed. *)
Definition dependency_material (owner_kind : SchedulerDependencyOwnerKind) (owner_id : str) (owner_generation : N)
    (kind : SchedulerDependencyKind) (target : str) (target_generation : N) : str :=
  s! "morphz.scheduler-dependency.v1" ++ [0] ++ owner_kind_str owner_kind ++ [0] ++ owner_id ++ [0]
  ++ decimal (Z.of_N owner_generation) ++ [0] ++ dependency_kind_str kind ++ [0] ++ target ++ [0]
  ++ decimal (Z.of_N target_generation).
(** morphz/src/scheduler/domain.rs:150-169 [stable_scheduler_dependency_id]. *)
Definition stable_scheduler_dependency_id owner_kind owner_id owner_generation kind target target_generation : str :=
  s! "scheduler_dependency_" ++
  firstn 32 (sha256_hex (utf8 (dependency_material owner_kind owner_id owner_generation kind target target_generation))).

(** morphz/src/memory/mod.rs:2191-2195 [stable_thread_id]. *)
Definition stable_thread_id (root_turn_id : str) : str := firstn 31 (s! "thread_" ++ sha256_hex (utf8 root_turn_id)).

(** morphz/src/memory/mod.rs:2201-2212 [objective_primary_execution_root_id]. *)
Definition objective_primary_execution_root_id (objective_id : str) (generation : N) : str :=
  s! "objective_thread_" ++ objective_id ++ s! "_g" ++ decimal (Z.of_N (N.max generation 1)).
End identities.

(** ** The audit *)

(** morphz/src/scheduler/domain.rs:301-305 [SchedulerInvariantSeverity]. *)
Inductive SchedulerInvariantSeverity : Type := SeverityWarning | SeverityError | SeverityQuarantine.

(** morphz/src/scheduler/domain.rs:309-328 [SchedulerInvariantCode]. *)
Inductive SchedulerInvariantCode : Type :=
| TerminalThreadMissingOutcome
| OpenThreadHasOutcome
| TerminalThreadHasLiveActivation
| ActivationGenerationAheadOfThread
| GroupCountMismatch
| TerminalGroupHasPendingMember
| SatisfiedGroupMissingBarrier
| TerminalGroupBarrierEventMissing
| GroupSupervisorMissing
| PendingDependencyTargetsTerminalGroup
| ObjectiveWaitDisagreesWithDependencies
| ObjectivePrimaryExecutionOwnerMismatch
| ObjectiveChildExecutionOwnerMismatch
| DuplicateObjectivePrimaryExecutionThread
| OrphanActivation
| OrphanSignal
| OrphanExecutionJob
| OrphanApproval.

#[export] Instance severity_eq_dec : EqDecision SchedulerInvariantSeverity.
Proof. solve_decision. Defined.
#[export] Instance code_eq_dec : EqDecision SchedulerInvariantCode.
Proof. solve_decision. Defined.

(** morphz/src/scheduler/domain.rs:331-337 [SchedulerInvariantViolation], without the detail text. *)
Record SchedulerInvariantViolation : Type := violation {
  v_severity : SchedulerInvariantSeverity;
  v_code : SchedulerInvariantCode;
  v_entity_kind : string;
  v_entity_id : str
}.

(** morphz/src/scheduler/authority.rs:6-13 [ObjectiveAuthority]. *)
Record ObjectiveAuthority : Type := mkObjectiveAuthority {
  oa_id : str; oa_generation : N; oa_status : ObjectiveStatus; oa_has_legacy_wait : bool
}.
(** morphz/src/scheduler/authority.rs:14-25 [ObjectiveAuthority::from]. *)
Definition objective_authority (v : ObjectiveRecord) : ObjectiveAuthority :=
  mkObjectiveAuthority (obj_id v) (obj_generation v) (obj_status v) (obj_waits v).

(** morphz/src/memory/mod.rs:4694-4698 [ThreadKind]. *)
Inductive ThreadKind : Type := KindDialogueTurn | KindExecution | KindDelivery.
#[export] Instance thread_kind_eq_dec : EqDecision ThreadKind.
Proof. solve_decision. Defined.

(** morphz/src/scheduler/authority.rs:27-46 [ThreadAuthority], with its [SupervisionAuthority]: the
    fields that the audit reads, which a thread row has too. *)
Record ThreadAuthority : Type := mkThread {
  ta_id : str;
  ta_kind : ThreadKind;
  ta_lifecycle : ThreadLifecycle;
  ta_generation : N;
  ta_root_turn_id : str;
  ta_created_at : Z;
  ta_supervisor_kind : ThreadSupervisorKind;
  ta_supervisor_id : option str;
  ta_supervision_generation : N;
  ta_origin_evaluation_id : option str
}.

(** morphz/src/scheduler/authority.rs:70-83 [GroupAuthority], the fields that the audit reads. *)
Record GroupAuthority : Type := mkGroupAuthority {
  ga_id : str;
  ga_status : ThreadGroupStatus;
  ga_required_count : N;
  ga_terminal_count : N;
  ga_successful_count : N;
  ga_barrier_event_id : option str
}.
(** morphz/src/scheduler/authority.rs:84-101 [GroupAuthority::from]. *)
Definition group_authority (v : Group) : GroupAuthority :=
  mkGroupAuthority (group_id v) (group_status v) (group_required_count v) (group_terminal_count v)
    (group_successful_count v) (group_barrier v).

(** morphz/src/memory/mod.rs:1618-1624 [ThreadActivationStatus]. *)
Inductive ThreadActivationStatus : Type := ActQueued | ActRunning | ActSucceeded | ActCancelled | ActFailed.
(** morphz/src/memory/mod.rs:1637-1639 [ThreadActivationStatus::is_terminal]. *)
Definition activation_terminal (s : ThreadActivationStatus) : bool :=
  match s with ActSucceeded | ActCancelled | ActFailed => true | _ => false end.

(** morphz/src/memory/mod.rs:1643-1680 [ThreadActivationRecord], the fields that the audit reads. *)
Record ThreadActivationRecord : Type := mkActivation {
  act_id : str; act_generation : N; act_root_turn_id : str; act_status : ThreadActivationStatus
}.

(** morphz/src/scheduler/domain.rs:353-359 [GroupMemberCounts]. *)
Record GroupMemberCounts : Type := mkCounts {
  mc_group_id : str; mc_total : N; mc_required : N; mc_terminal : N; mc_successful : N
}.

(** morphz/src/scheduler/domain.rs:339-347 [SchedulerInvariantInput]; of an outcome only its thread
    matters, and a member row goes with the identifier of its group. *)
Record SchedulerInvariantInput : Type := mkInput {
  in_objectives : list ObjectiveRecord;
  in_threads : list ThreadAuthority;
  in_activations : list ThreadActivationRecord;
  in_outcomes : list str;
  in_groups : list Group;
  in_group_members : list (str * Member);
  in_dependencies : list SchedulerDependencyRecord
}.

(** morphz/src/scheduler/authority.rs:103-111 [AuthorityFacts]. *)
Record AuthorityFacts : Type := mkFacts {
  af_objectives : list ObjectiveAuthority;
  af_threads : list ThreadAuthority;
  af_groups : list GroupAuthority;
  af_outcome_threads : list str;
  af_pending_objective_owners : list (str * N);
  af_preserved_primary : list (str * N * str)
}.

(** [HashMap] collected from a list: the last entry of a key stays. *)
Definition last_such {A} (p : A → bool) (l : list A) : option A := List.find p (rev l).
Definition opt_list {A} (b : bool) (a : A) : list A := if b then [a] else [].

Section audit.
Context `{Digest}.

Section lookups.
Context (objectives : list ObjectiveAuthority) (outcome_threads : list str).

(** morphz/src/scheduler/domain.rs:414-417 [objectives_by_id]. *)
Definition objective_of (thread : ThreadAuthority) : option ObjectiveAuthority :=
  ta_supervisor_id thread ≫= λ id, last_such (λ o, oa_id o =s id) objectives.

(** morphz/src/scheduler/domain.rs:423-441 [audit_scheduler_invariants_counted]: outcomes. *)
Definition audit_outcome (thread : ThreadAuthority) : list SchedulerInvariantViolation :=
  let has_outcome := existsb (str_eqb (ta_id thread)) outcome_threads in
  opt_list (lifecycle_terminal (ta_lifecycle thread) && negb has_outcome)
    (violation SeverityQuarantine TerminalThreadMissingOutcome "thread" (ta_id thread)) ++
  opt_list (bool_decide (ta_lifecycle thread = ThreadOpen) && has_outcome)
    (violation SeverityQuarantine OpenThreadHasOutcome "thread" (ta_id thread)).

(** morphz/src/scheduler/domain.rs:443-466 [audit_scheduler_invariants_counted]: children. *)
Definition audit_child (thread : ThreadAuthority) : list SchedulerInvariantViolation :=
  if bool_decide (ta_lifecycle thread = ThreadOpen) && bool_decide (ta_supervisor_kind thread = SupervisorObjective)
     && is_some (ta_origin_evaluation_id thread)
  then match objective_of thread with
       | Some objective =>
           opt_list (negb (ta_supervision_generation thread =? oa_generation objective))
             (violation SeverityError ObjectiveChildExecutionOwnerMismatch "thread" (ta_id thread))
       | None => []
       end
  else [].

(** morphz/src/scheduler/domain.rs:467-473 [audit_scheduler_invariants_counted]: the threads that the
    checks on primary executions skip. *)
Definition is_primary (thread : ThreadAuthority) : bool :=
  bool_decide (ta_lifecycle thread = ThreadOpen) && bool_decide (ta_kind thread = KindExecution)
  && bool_decide (ta_supervisor_kind thread = SupervisorObjective) && negb (is_some (ta_origin_evaluation_id thread)).

(** morphz/src/scheduler/domain.rs:474-482 [audit_scheduler_invariants_counted]: the owner. *)
Definition matching_owner (thread : ThreadAuthority) : option ObjectiveAuthority :=
  match objective_of thread with
  | Some objective =>
      if bool_decide (oa_status objective = ObjActive) && (ta_supervision_generation thread =? oa_generation objective)
      then Some objective else None
  | None => None
  end.

(** morphz/src/scheduler/domain.rs:483-492 [audit_scheduler_invariants_counted]. *)
Definition audit_primary (thread : ThreadAuthority) : list SchedulerInvariantViolation :=
  opt_list (is_primary thread && negb (is_some (matching_owner thread)))
    (violation SeverityQuarantine ObjectivePrimaryExecutionOwnerMismatch "thread" (ta_id thread)).

Definition owner_key : Type := str * N.
Definition key_eqb (a b : owner_key) : bool := (a.1 =s b.1) && (a.2 =? b.2).

(** The key under which a primary execution is collected. *)
Definition primary_key (thread : ThreadAuthority) : option owner_key :=
  if is_primary thread then (λ o, (oa_id o, oa_generation o)) <$> matching_owner thread else None.

(** morphz/src/scheduler/domain.rs:493-497 [audit_scheduler_invariants_counted]: [entry().or_default().push()]. *)
Fixpoint push_primary (k : owner_key) (thread : ThreadAuthority) (m : list (owner_key * list ThreadAuthority)) :
    list (owner_key * list ThreadAuthority) :=
  match m with
  | [] => [(k, [thread])]
  | (k', ts) :: r => if key_eqb k k' then (k', ts ++ [thread]) :: r else (k', ts) :: push_primary k thread r
  end.
Definition collect_primaries (threads : list ThreadAuthority) : list (owner_key * list ThreadAuthority) :=
  fold_left (λ m t, match primary_key t with Some k => push_primary k t m | None => m end) threads [].
End lookups.

Definition seniority : ThreadAuthority → ThreadAuthority → comparison :=
  λ left right, then_with (Z.compare (ta_created_at left) (ta_created_at right)) (str_cmp (ta_id left) (ta_id right)).

(** morphz/src/scheduler/domain.rs:513-523 [audit_scheduler_invariants_counted]: the thread that stays. *)
Definition preserved_id (exact : option str) (k : owner_key) (sorted : list ThreadAuthority) : str :=
  match exact with
  | Some id => id
  | None =>
      let expected_id := stable_thread_id (objective_primary_execution_root_id k.1 k.2) in
      match List.find (λ t, ta_id t =s expected_id) sorted, sorted with
      | Some t, _ => ta_id t
      | None, t :: _ => ta_id t
      | None, [] => []
      end
  end.

(** morphz/src/scheduler/domain.rs:500-536 [audit_scheduler_invariants_counted]: duplicates. *)
Definition audit_duplicates (preserved : option (list (str * N * str))) (entry : owner_key * list ThreadAuthority) :
    list SchedulerInvariantViolation :=
  let '(k, ts) := entry in
  let exact := preserved ≫= λ l, (λ e, e.2) <$> List.find (λ e, key_eqb e.1 k) l in
  if (len ts <=? 1) && negb (is_some exact) then []
  else
    let sorted := merge_sort (not_gt seniority) ts in
    let keep := preserved_id exact k sorted in
    flat_map (λ t, opt_list (negb (ta_id t =s keep))
      (violation SeverityQuarantine DuplicateObjectivePrimaryExecutionThread "thread" (ta_id t))) sorted.

(** morphz/src/scheduler/domain.rs:538-566 [audit_scheduler_invariants_counted]: activations. *)
Definition audit_activation (threads : list ThreadAuthority) (activation : ThreadActivationRecord) :
    list SchedulerInvariantViolation :=
  match last_such (λ t, ta_root_turn_id t =s act_root_turn_id activation) threads with
  | None => []
  | Some thread =>
      opt_list (ta_generation thread <? act_generation activation)
        (violation SeverityQuarantine ActivationGenerationAheadOfThread "activation" (act_id activation)) ++
      opt_list (lifecycle_terminal (ta_lifecycle thread) && (act_generation activation =? ta_generation thread)
                && negb (activation_terminal (act_status activation)))
        (violation SeverityQuarantine TerminalThreadHasLiveActivation "activation" (act_id activation))
  end.

(** morphz/src/scheduler/domain.rs:568-631 [audit_scheduler_invariants_counted]: groups.  [None] is the
    panic of a group without its indexed counters. *)
Definition audit_group (members : list (str * Member)) (counts : option (list GroupMemberCounts))
    (group : GroupAuthority) : option (list SchedulerInvariantViolation) :=
  let rows := map snd (List.filter (λ m, m.1 =s ga_id group) members) in
  '(required, terminal, successful) ←
    match counts with
    | Some counts =>
        exact ← List.find (λ row, mc_group_id row =s ga_id group) counts;
        Some (mc_required exact, mc_terminal exact, mc_successful exact)
    | None => Some (count_required rows, count_terminal rows, count_successful rows)
    end;
  Some (
    opt_list (negb ((required =? ga_required_count group) && (terminal =? ga_terminal_count group)
                    && (successful =? ga_successful_count group)))
      (violation SeverityQuarantine GroupCountMismatch "thread_group" (ga_id group)) ++
    opt_list (group_terminal (ga_status group) && (terminal <? required))
      (violation SeverityQuarantine TerminalGroupHasPendingMember "thread_group" (ga_id group)) ++
    opt_list (bool_decide (ga_status group = GroupSatisfied) && negb (is_some (ga_barrier_event_id group)))
      (violation SeverityError SatisfiedGroupMissingBarrier "thread_group" (ga_id group))).

(** morphz/src/scheduler/domain.rs:633-651 [audit_scheduler_invariants_counted]: dependencies. *)
Definition audit_dependency (groups : list GroupAuthority) (d : SchedulerDependencyRecord) :
    list SchedulerInvariantViolation :=
  if negb (bool_decide (dep_status d = DepPending)) || negb (bool_decide (dep_kind d = DepThreadGroup)) then []
  else opt_list (match last_such (λ g, ga_id g =s dep_target d) groups with
                 | Some group => group_terminal (ga_status group)
                 | None => false
                 end)
         (violation SeverityQuarantine PendingDependencyTargetsTerminalGroup "scheduler_dependency" (dep_id d)).

(** morphz/src/scheduler/domain.rs:653-662 [pending_objective_owners]. *)
Definition pending_objective_owners (l : list SchedulerDependencyRecord) : list owner_key :=
  map (λ d, (dep_owner_id d, dep_owner_generation d))
    (List.filter (λ d, bool_decide (dep_owner_kind d = OwnerObjective) && dep_required d
                       && bool_decide (dep_status d = DepPending)) l).

(** morphz/src/scheduler/domain.rs:663-682 [audit_scheduler_invariants_counted]: objectives. *)
Definition audit_objective (owners : list owner_key) (objective : ObjectiveAuthority) : list SchedulerInvariantViolation :=
  let dependencies_wait := existsb (key_eqb (oa_id objective, oa_generation objective)) owners in
  opt_list (negb (Bool.eqb dependencies_wait (oa_has_legacy_wait objective)))
    (violation SeverityWarning ObjectiveWaitDisagreesWithDependencies "objective" (oa_id objective)).

(** morphz/src/scheduler/domain.rs:379-685 [audit_scheduler_invariants_counted]. *)
Definition audit_scheduler_invariants_counted (input : SchedulerInvariantInput)
    (counts : option (list GroupMemberCounts)) (facts : option AuthorityFacts) : option (list SchedulerInvariantViolation) :=
  let objectives := default (map objective_authority (in_objectives input)) (af_objectives <$> facts) in
  let threads := default (in_threads input) (af_threads <$> facts) in
  let groups := default (map group_authority (in_groups input)) (af_groups <$> facts) in
  let outcome_threads := default (in_outcomes input) (af_outcome_threads <$> facts) in
  let owners := default (pending_objective_owners (in_dependencies input)) (af_pending_objective_owners <$> facts) in
  by_group ← mapM (audit_group (in_group_members input) counts) groups;
  Some (
    flat_map (λ t, audit_outcome outcome_threads t ++ audit_child objectives t ++ audit_primary objectives t) threads ++
    flat_map (audit_duplicates (af_preserved_primary <$> facts)) (collect_primaries objectives threads) ++
    flat_map (audit_activation threads) (in_activations input) ++
    concat by_group ++
    flat_map (audit_dependency groups) (in_dependencies input) ++
    flat_map (audit_objective owners) objectives).

(** morphz/src/scheduler/domain.rs:361-365 [audit_scheduler_invariants]. *)
Definition audit_scheduler_invariants (input : SchedulerInvariantInput) : option (list SchedulerInvariantViolation) :=
  audit_scheduler_invariants_counted input None None.
(** morphz/src/scheduler/domain.rs:366-371 [audit_scheduler_invariants_with_group_counts]. *)
Definition audit_scheduler_invariants_with_group_counts (input : SchedulerInvariantInput)
    (counts : list GroupMemberCounts) : option (list SchedulerInvariantViolation) :=
  audit_scheduler_invariants_counted input (Some counts) None.
(** morphz/src/scheduler/domain.rs:372-378 [audit_scheduler_authority]. *)
Definition audit_scheduler_authority (input : SchedulerInvariantInput) (counts : list GroupMemberCounts)
    (facts : AuthorityFacts) : option (list SchedulerInvariantViolation) :=
  audit_scheduler_invariants_counted input (Some counts) (Some facts).
End audit.
