(* ===== verification/SchedulerFacts.v ===== *)
(** * Scheduler domain: what readiness and the audit mean

    Readiness is exact: an objective is runnable when it is active, no lease holds it and nothing it
    requires in its current generation is pending.  The audit is exact: it reports a violation when
    and only when the rows break the rule.  The last part composes the audit with the transactions
    on groups. *)

From stdpp Require Import base list gmap strings sorting.
From Stdlib Require Import NArith ZArith Lia Sorted.
From S2P Require Import Prelude Ordering JsonValue Text ThreadGroups ThreadGroupFacts Scheduler.

Local Open Scope N_scope.

(** ** Sorted identifiers *)

#[local] Instance str_cmp_comparison : Comparison str_cmp := str_cmp_on (λ x, x).

Definition str_lt (a b : str) : Prop := str_cmp a b = Lt.

Lemma dedup_elem l x : x ∈ dedup l ↔ x ∈ l.
Proof.
  induction l as [|a [|b r] IH]; [done|done|]. cbn [dedup] in *. destruct (a =s b) eqn:E.
  - apply str_eqb_eq in E as ->. rewrite IH, !elem_of_cons. tauto.
  - rewrite elem_of_cons, IH. by rewrite (elem_of_cons _ x a).
Qed.

Lemma dedup_sorted l : StronglySorted str_le l → StronglySorted str_lt (dedup l).
Proof.
  induction l as [|a [|b r] IH]; intros Hs; [constructor|repeat constructor|].
  apply StronglySorted_inv in Hs as [Hs Ha]. specialize (IH Hs). cbn [dedup] in *.
  destruct (a =s b) eqn:E; [done|]. constructor; [done|]. apply Forall_forall. intros x Hx.
  change (x ∈ dedup (b :: r)) in Hx. rewrite dedup_elem in Hx.
  assert (Hab : str_cmp a b = Lt).
  { apply Forall_cons in Ha as [Hab _]. unfold str_le, not_gt in Hab.
    destruct (str_cmp a b) eqn:Hc; try done. apply str_cmp_eq in Hc as ->. by rewrite str_eqb_refl in E. }
  unfold str_lt. apply elem_of_cons in Hx as [->|Hx]; [done|].
  apply StronglySorted_inv in Hs as [_ Hb]. rewrite Forall_forall in Hb. specialize (Hb x Hx).
  unfold str_le, not_gt in Hb. destruct (str_cmp b x) eqn:Hc; [|by eapply str_cmp_trans|done].
  by apply str_cmp_eq in Hc as <-.
Qed.

(** ** Readiness *)

Lemma readiness_waiting objective l :
  let ids := dedup (merge_sort str_le (map dep_id (List.filter (holds_back objective) l))) in
  StronglySorted str_lt ids ∧
  ∀ id, id ∈ ids ↔ ∃ d, d ∈ l ∧ holds_back objective d = true ∧ dep_id d = id.
Proof.
  cbv zeta. split.
  - apply dedup_sorted, StronglySorted_merge_sort; [intros a b c; apply (cmp_le_trans str_cmp)|].
    apply (not_gt_total str_cmp).
  - intros id. rewrite dedup_elem, merge_sort_Permutation, list_elem_of_In, in_map_iff.
    setoid_rewrite filter_In. setoid_rewrite <- list_elem_of_In. split; intros (d & ?); exists d; tauto.
Qed.

(** A lease that has not run out, or an evaluation handed to a checkpoint, owns the objective. *)
Definition owned (objective : ObjectiveRecord) (now : Z) : Prop :=
  obj_active_evaluation objective ≠ None ∧
  match obj_lease_expires_at objective with Some t => (now < t)%Z | None => True end.

Definition held_by (objective : ObjectiveRecord) (d : SchedulerDependencyRecord) : Prop :=
  dep_owner_kind d = OwnerObjective ∧ dep_owner_id d = obj_id objective ∧
  dep_owner_generation d = obj_generation objective ∧ dep_required d = true ∧ dep_status d = DepPending.

Lemma holds_back_spec objective d : holds_back objective d = true ↔ held_by objective d.
Proof.
  unfold holds_back, held_by. rewrite !andb_true_iff, !bool_decide_eq_true, str_eqb_eq, N.eqb_eq. tauto.
Qed.

Lemma str_lt_irrefl a : ¬ str_lt a a.
Proof. unfold str_lt. by rewrite (cmp_refl str_cmp). Qed.

Lemma str_lt_NoDup l : StronglySorted str_lt l → NoDup l.
Proof.
  induction 1 as [|a l Hl IH Ha]; constructor; [|done]. intros Hin.
  rewrite Forall_forall in Ha. by apply (str_lt_irrefl a), Ha.
Qed.

(** A strictly sorted list is determined by its elements. *)
Lemma str_sorted_unique l l' :
  StronglySorted str_lt l → StronglySorted str_lt l' → (∀ x, x ∈ l ↔ x ∈ l') → l = l'.
Proof.
  intros Hl Hl' Hx. apply (StronglySorted_unique_strong str_lt); [|done|done|].
  - intros a b _ _ H1 H2. exfalso. unfold str_lt in *. rewrite str_cmp_antisym, H2 in H1. done.
  - apply NoDup_Permutation; auto using str_lt_NoDup.
Qed.

Definition free (objective : ObjectiveRecord) (now : Z) : Prop :=
  obj_status objective = ObjActive ∧ ¬ owned objective now.

Lemma free_readiness objective l now : free objective now →
  derive_objective_readiness objective l now = dependency_readiness objective l.
Proof.
  intros [Ha Ho]. unfold derive_objective_readiness, owned in *. rewrite Ha. cbn.
  destruct (obj_active_evaluation objective); [|done].
  destruct (obj_lease_expires_at objective); [|by exfalso; apply Ho].
  destruct (Z.ltb_spec now z); [by exfalso; apply Ho|done].
Qed.

Lemma readiness_free objective l now :
  match derive_objective_readiness objective l now with Runnable | Waiting _ => True | _ => False end →
  free objective now.
Proof.
  unfold derive_objective_readiness, free, owned.
  destruct (obj_status objective), (obj_active_evaluation objective), (obj_lease_expires_at objective); try done;
    try (destruct (Z.ltb_spec now z); [done|]); intros _; split; try done; intros [? ?]; try done; lia.
Qed.

(** Readiness says exactly when an objective may run: it is active, no unexpired lease or
    suspended evaluation owns it, and no required dependency of its current generation is pending;
    when the last condition alone fails, it waits for exactly the identifiers of those
    dependencies, in strict order.  Dependencies of older generations never count. *)
Theorem readiness_exact (objective : ObjectiveRecord) (l : list SchedulerDependencyRecord) (now : Z) :
  (derive_objective_readiness objective l now = Runnable ↔
     free objective now ∧ ∀ d, d ∈ l → ¬ held_by objective d) ∧
  (∀ ids, derive_objective_readiness objective l now = Waiting ids ↔
     free objective now ∧ ids ≠ [] ∧ StronglySorted str_lt ids ∧
     ∀ id, id ∈ ids ↔ ∃ d, d ∈ l ∧ held_by objective d ∧ dep_id d = id).
Proof.
  pose proof (readiness_waiting objective l) as [Hsort Hids]. setoid_rewrite holds_back_spec in Hids.
  pose proof (free_readiness objective l now) as Hfree. unfold dependency_readiness in Hfree.
  pose proof (readiness_free objective l now) as Hback. set (ids := dedup _) in *. split.
  - split.
    + intros H. rewrite H in Hback. pose proof (Hback I) as Hf. split; [done|]. rewrite (Hfree Hf) in H.
      intros d Hd Hh. assert (Hin : dep_id d ∈ ids) by (apply Hids; eauto).
      destruct ids; [by apply elem_of_nil in Hin|done].
    + intros [Hf Hn]. rewrite (Hfree Hf). destruct ids as [|x r]; [done|exfalso].
      destruct (proj1 (Hids x)) as (d & Hd & Hh & _); [left|]. by apply (Hn d).
  - intros ids'. split.
    + intros H. rewrite H in Hback. pose proof (Hback I) as Hf. rewrite (Hfree Hf) in H.
      destruct ids as [|x r]; [done|]. by injection H as <-.
    + intros (Hf & Hne & Hs' & Hi'). rewrite (Hfree Hf).
      enough (ids = ids') as -> by (by destruct ids').
      apply str_sorted_unique; [done|done|]. intros x. by rewrite Hids, Hi'.
Qed.

(** ** Primary executions *)

Lemma key_eqb_eq a b : key_eqb a b = true ↔ a = b.
Proof.
  destruct a, b. unfold key_eqb. cbn. rewrite andb_true_iff, str_eqb_eq, N.eqb_eq.
  split; [by intros [-> ->]|by intros [= -> ->]].
Qed.

Lemma push_keys k t m : k ∈ map fst (push_primary k t m) ∧ (∀ k', k' ≠ k → k' ∈ map fst (push_primary k t m) ↔ k' ∈ map fst m).
Proof.
  induction m as [|[k1 ts] r [IH1 IH2]]; cbn [push_primary map fst].
  - split; [left|]. intros k' Hk. rewrite list_elem_of_singleton. split; [done|by intros ?%elem_of_nil].
  - destruct (key_eqb k k1) eqn:E; cbn [map fst].
    + apply key_eqb_eq in E as ->. split; [left|done].
    + split; [by right|]. intros k' Hk. rewrite !elem_of_cons, IH2; done.
Qed.

Lemma push_nodup k t m : NoDup (map fst m) → NoDup (map fst (push_primary k t m)).
Proof.
  induction m as [|[k1 ts] r IH]; cbn [push_primary map fst]; intros Hm; [apply NoDup_singleton|].
  destruct (key_eqb k k1) eqn:E; [done|]. cbn [map fst]. apply NoDup_cons in Hm as [H1 Hr].
  constructor; [|by apply IH]. rewrite (proj2 (push_keys k t r)); [done|].
  intros ->. by rewrite (proj2 (key_eqb_eq k k) eq_refl) in E.
Qed.

(** What the entry of a key holds. *)
Definition entry_of (k : owner_key) (m : list (owner_key * list ThreadAuthority)) : list ThreadAuthority :=
  match List.find (λ e, key_eqb k e.1) m with Some e => e.2 | None => [] end.

Lemma entry_push k t m k' :
  entry_of k' (push_primary k t m) = entry_of k' m ++ (if key_eqb k' k then [t] else []).
Proof.
  unfold entry_of. induction m as [|[k1 ts] r IH]; cbn [push_primary List.find fst].
  - by destruct (key_eqb k' k).
  - destruct (key_eqb k k1) eqn:E; cbn [List.find fst].
    + apply key_eqb_eq in E as ->. destruct (key_eqb k' k1); [done|by rewrite app_nil_r].
    + destruct (key_eqb k' k1) eqn:E1; [|done]. destruct (key_eqb k' k) eqn:E2; [|by rewrite app_nil_r].
      apply key_eqb_eq in E1 as ->, E2 as ->. by rewrite (proj2 (key_eqb_eq k k) eq_refl) in E.
Qed.

(** The open primary executions of one objective generation. *)
Definition has_key (objectives : list ObjectiveAuthority) (k : owner_key) (t : ThreadAuthority) : bool :=
  match primary_key objectives t with Some k' => key_eqb k k' | None => false end.
Definition primaries (objectives : list ObjectiveAuthority) (threads : list ThreadAuthority) (k : owner_key) : list ThreadAuthority :=
  List.filter (has_key objectives k) threads.

Lemma collect_snoc objectives threads t :
  collect_primaries objectives (threads ++ [t]) =
    match primary_key objectives t with
    | Some k => push_primary k t (collect_primaries objectives threads)
    | None => collect_primaries objectives threads
    end.
Proof. unfold collect_primaries. by rewrite fold_left_app. Qed.

Lemma collect_entry objectives threads k :
  entry_of k (collect_primaries objectives threads) = primaries objectives threads k.
Proof.
  induction threads as [|t threads IH] using rev_ind; [done|].
  unfold primaries in *. rewrite collect_snoc, List.filter_app, <- IH. cbn [List.filter].
  assert (E : has_key objectives k t = match primary_key objectives t with Some k' => key_eqb k k' | None => false end) by done.
  rewrite E. destruct (primary_key objectives t); [apply entry_push|by rewrite app_nil_r].
Qed.

Lemma push_nonempty k t m : Forall (λ e, e.2 ≠ []) m → Forall (λ e, e.2 ≠ []) (push_primary k t m).
Proof.
  induction 1 as [|[k1 ts] r H1 Hr IH]; cbn [push_primary]; [by repeat constructor|].
  destruct (key_eqb k k1); constructor; auto. cbn. by destruct ts.
Qed.

Lemma collect_wf objectives threads :
  NoDup (map fst (collect_primaries objectives threads)) ∧ Forall (λ e, e.2 ≠ []) (collect_primaries objectives threads).
Proof.
  induction threads as [|t threads [IH1 IH2]] using rev_ind; [by repeat constructor|].
  rewrite collect_snoc. destruct (primary_key objectives t); [|done].
  split; [by apply push_nodup|by apply push_nonempty].
Qed.

Lemma entry_elem m k ts : NoDup (map fst m) → (k, ts) ∈ m → entry_of k m = ts.
Proof.
  unfold entry_of. induction m as [|[k1 ts1] r IH]; cbn [map fst List.find]; intros Hm Hin; [by apply elem_of_nil in Hin|].
  apply NoDup_cons in Hm as [H1 Hr]. apply elem_of_cons in Hin as [[= -> ->]|Hin].
  - by rewrite (proj2 (key_eqb_eq k1 k1) eq_refl).
  - destruct (key_eqb k k1) eqn:E; [|by apply IH]. apply key_eqb_eq in E as ->. exfalso. apply H1.
    apply list_elem_of_In, in_map_iff. exists (k1, ts). split; [done|by apply list_elem_of_In].
Qed.

Lemma entry_inhabited m k : entry_of k m ≠ [] → (k, entry_of k m) ∈ m.
Proof.
  unfold entry_of. destruct (List.find _ m) as [[k1 ts]|] eqn:E; [|done]. intros _.
  apply find_some in E as [Hin Hk%key_eqb_eq]. cbn in *. subst. by apply list_elem_of_In.
Qed.

(** The collected map lists the inhabited groups of primary executions. *)
Lemma collect_spec objectives threads k ts :
  (k, ts) ∈ collect_primaries objectives threads ↔ ts = primaries objectives threads k ∧ ts ≠ [].
Proof.
  destruct (collect_wf objectives threads) as [Hn Hf]. rewrite <- collect_entry. split.
  - intros Hin. split; [symmetry; by apply entry_elem|]. rewrite Forall_forall in Hf. by apply (Hf (k, ts)).
  - intros [-> Hne]. by apply entry_inhabited.
Qed.

(** ** The thread that stays *)

#[local] Instance seniority_comparison : Comparison seniority.
Proof. unfold seniority. apply then_with_cmp; [apply (Z_compare_on ta_created_at)|apply (str_cmp_on ta_id)]. Qed.

Section audit_facts.
Context `{Digest}.

(** The primary execution of a generation is the thread with the stable identifier, or the oldest
    one when no thread has it. *)
Definition stays (k : owner_key) (ts : list ThreadAuthority) (keep : str) : Prop :=
  let expected_id := stable_thread_id (objective_primary_execution_root_id k.1 k.2) in
  (keep = expected_id ∧ ∃ t, t ∈ ts ∧ ta_id t = expected_id) ∨
  ((∀ t, t ∈ ts → ta_id t ≠ expected_id) ∧
   ∃ t, t ∈ ts ∧ ta_id t = keep ∧ ∀ t', t' ∈ ts → not_gt seniority t t').

Lemma stays_unique k ts a b : stays k ts a → stays k ts b → a = b.
Proof.
  intros [[-> (t & Ht & Hi)]|[Hn (t & Ht & <- & Hle)]] [[-> (t' & Ht' & Hi')]|[Hn' (t' & Ht' & <- & Hle')]]; try done.
  - by apply Hn' in Ht.
  - by apply Hn in Ht'.
  - pose proof (not_gt_antisym seniority t t' (Hle t' Ht') (Hle' t Ht)) as E.
    unfold seniority in E. apply then_with_eq in E as [_ E]. by apply str_cmp_eq in E.
Qed.

Lemma preserved_stays k ts : ts ≠ [] → stays k ts (preserved_id None k (merge_sort (not_gt seniority) ts)).
Proof.
  intros Hne. pose proof (merge_sort_Permutation (not_gt seniority) ts) as Hp.
  assert (Hs : StronglySorted (not_gt seniority) (merge_sort (not_gt seniority) ts))
    by (apply StronglySorted_merge_sort; apply _).
  set (sorted := merge_sort _ ts) in *. unfold preserved_id, stays.
  set (expected := stable_thread_id _). destruct (List.find _ sorted) as [t|] eqn:E.
  - left. apply find_some in E as [Hin Hid%str_eqb_eq]. split; [done|]. exists t.
    split; [|done]. rewrite <- Hp. by apply list_elem_of_In.
  - right. split.
    + intros t Ht Hid. rewrite <- Hp in Ht. apply list_elem_of_In in Ht.
      pose proof (find_none _ _ E t Ht) as Hf. cbn in Hf. by rewrite Hid, str_eqb_refl in Hf.
    + destruct sorted as [|t r]; [by apply Permutation_nil in Hp|]. exists t.
      split; [rewrite <- Hp; left|]. split; [done|]. intros t' Ht'. rewrite <- Hp in Ht'.
      apply StronglySorted_inv in Hs as [_ Hle]. rewrite Forall_forall in Hle.
      apply elem_of_cons in Ht' as [->|Ht']; [apply not_gt_refl, _|by apply Hle].
Qed.

Lemma elem_opt_list {A} (b : bool) (a v : A) : v ∈ opt_list b a ↔ b = true ∧ v = a.
Proof. destruct b; cbn; [rewrite list_elem_of_singleton; intuition|]. split; [by intros ?%elem_of_nil|by intros []]. Qed.

Lemma elem_flat_map {A B} (f : A → list B) l v : v ∈ flat_map f l ↔ ∃ x, x ∈ l ∧ v ∈ f x.
Proof. rewrite list_elem_of_In, in_flat_map. by setoid_rewrite <- list_elem_of_In. Qed.

Lemma duplicates_spec k ts v : ts ≠ [] →
  v ∈ audit_duplicates None (k, ts) ↔
  ∃ t, t ∈ ts ∧ v = violation SeverityQuarantine DuplicateObjectivePrimaryExecutionThread "thread" (ta_id t) ∧
       ∃ keep, stays k ts keep ∧ ta_id t ≠ keep.
Proof.
  intros Hne. pose proof (preserved_stays k ts Hne) as Hk. unfold audit_duplicates. cbn [mbind option_bind is_some negb].
  rewrite andb_true_r. set (keep := preserved_id _ _ _) in *.
  assert (Hflat : v ∈ flat_map (λ t, opt_list (negb (ta_id t =s keep))
      (violation SeverityQuarantine DuplicateObjectivePrimaryExecutionThread "thread" (ta_id t)))
      (merge_sort (not_gt seniority) ts) ↔
    ∃ t, t ∈ ts ∧ v = violation SeverityQuarantine DuplicateObjectivePrimaryExecutionThread "thread" (ta_id t) ∧
       ∃ keep, stays k ts keep ∧ ta_id t ≠ keep).
  { rewrite elem_flat_map. setoid_rewrite elem_opt_list. setoid_rewrite merge_sort_Permutation.
    setoid_rewrite negb_true_iff. split.
    - intros (t & Ht & Hneq & Hv). exists t. split_and!; [done|done|]. exists keep. split; [done|].
      intros Heq. by rewrite Heq, str_eqb_refl in Hneq.
    - intros (t & Ht & Hv & keep' & Hk' & Hneq). exists t. rewrite (stays_unique _ _ _ _ Hk' Hk) in Hneq.
      split_and!; [done| |done]. by apply not_true_iff_false; rewrite str_eqb_eq. }
  destruct (N.leb_spec (len ts) 1) as [Hlen|_]; [|done]. split; [by intros ?%elem_of_nil|].
  destruct ts as [|t0 [|]]; [done| |unfold len in Hlen; cbn [length] in Hlen; lia].
  intros (t & ->%list_elem_of_singleton & _ & keep' & [[-> (t' & ->%list_elem_of_singleton & Hi)]|
    [_ (t' & ->%list_elem_of_singleton & Hi & _)]] & Hneq); done.
Qed.

(** ** The rules *)

Definition has_wait (l : list SchedulerDependencyRecord) (o : ObjectiveAuthority) : Prop :=
  ∃ d, d ∈ l ∧ dep_owner_kind d = OwnerObjective ∧ dep_required d = true ∧ dep_status d = DepPending ∧
       dep_owner_id d = oa_id o ∧ dep_owner_generation d = oa_generation o.

Definition rows_of (i : SchedulerInvariantInput) (g : Group) : list Member :=
  map snd (List.filter (λ m, m.1 =s group_id g) (in_group_members i)).

(** The rules that rows must keep, one case per report. *)
Inductive broken (i : SchedulerInvariantInput) : SchedulerInvariantViolation → Prop :=
| broken_missing_outcome t :
    t ∈ in_threads i → ta_lifecycle t ≠ ThreadOpen → ta_id t ∉ in_outcomes i →
    broken i (violation SeverityQuarantine TerminalThreadMissingOutcome "thread" (ta_id t))
| broken_early_outcome t :
    t ∈ in_threads i → ta_lifecycle t = ThreadOpen → ta_id t ∈ in_outcomes i →
    broken i (violation SeverityQuarantine OpenThreadHasOutcome "thread" (ta_id t))
| broken_child t e o :
    t ∈ in_threads i → ta_lifecycle t = ThreadOpen → ta_supervisor_kind t = SupervisorObjective →
    ta_origin_evaluation_id t = Some e → objective_of (map objective_authority (in_objectives i)) t = Some o →
    ta_supervision_generation t ≠ oa_generation o →
    broken i (violation SeverityError ObjectiveChildExecutionOwnerMismatch "thread" (ta_id t))
| broken_owner t :
    t ∈ in_threads i → ta_lifecycle t = ThreadOpen → ta_kind t = KindExecution →
    ta_supervisor_kind t = SupervisorObjective → ta_origin_evaluation_id t = None →
    (∀ o, objective_of (map objective_authority (in_objectives i)) t = Some o →
       oa_status o = ObjActive → ta_supervision_generation t ≠ oa_generation o) →
    broken i (violation SeverityQuarantine ObjectivePrimaryExecutionOwnerMismatch "thread" (ta_id t))
| broken_duplicate k t keep :
    let ts := primaries (map objective_authority (in_objectives i)) (in_threads i) k in
    t ∈ ts → stays k ts keep → ta_id t ≠ keep →
    broken i (violation SeverityQuarantine DuplicateObjectivePrimaryExecutionThread "thread" (ta_id t))
| broken_generation a t :
    a ∈ in_activations i → last_such (λ t, ta_root_turn_id t =s act_root_turn_id a) (in_threads i) = Some t →
    ta_generation t < act_generation a →
    broken i (violation SeverityQuarantine ActivationGenerationAheadOfThread "activation" (act_id a))
| broken_live_activation a t :
    a ∈ in_activations i → last_such (λ t, ta_root_turn_id t =s act_root_turn_id a) (in_threads i) = Some t →
    ta_lifecycle t ≠ ThreadOpen → act_generation a = ta_generation t → activation_terminal (act_status a) = false →
    broken i (violation SeverityQuarantine TerminalThreadHasLiveActivation "activation" (act_id a))
| broken_counts g :
    g ∈ in_groups i →
    (group_required_count g, group_terminal_count g, group_successful_count g) ≠
      (count_required (rows_of i g), count_terminal (rows_of i g), count_successful (rows_of i g)) →
    broken i (violation SeverityQuarantine GroupCountMismatch "thread_group" (group_id g))
| broken_pending_member g :
    g ∈ in_groups i → group_status g ≠ GroupOpen →
    Exists (λ m, member_required m = true ∧ is_pending m = true) (rows_of i g) →
    broken i (violation SeverityQuarantine TerminalGroupHasPendingMember "thread_group" (group_id g))
| broken_barrier g :
    g ∈ in_groups i → group_status g = GroupSatisfied → group_barrier g = None →
    broken i (violation SeverityError SatisfiedGroupMissingBarrier "thread_group" (group_id g))
| broken_dependency d g :
    d ∈ in_dependencies i → dep_status d = DepPending → dep_kind d = DepThreadGroup →
    last_such (λ g, ga_id g =s dep_target d) (map group_authority (in_groups i)) = Some g → ga_status g ≠ GroupOpen →
    broken i (violation SeverityQuarantine PendingDependencyTargetsTerminalGroup "scheduler_dependency" (dep_id d))
| broken_wait o :
    o ∈ map objective_authority (in_objectives i) →
    ¬ (has_wait (in_dependencies i) o ↔ oa_has_legacy_wait o = true) →
    broken i (violation SeverityWarning ObjectiveWaitDisagreesWithDependencies "objective" (oa_id o)).

Lemma lifecycle_terminal_spec l : lifecycle_terminal l = true ↔ l ≠ ThreadOpen.
Proof. by destruct l. Qed.
Lemma group_terminal_spec s : group_terminal s = true ↔ s ≠ GroupOpen.
Proof. by destruct s. Qed.
Lemma is_some_None {A} (o : option A) : negb (is_some o) = true ↔ o = None.
Proof. by destruct o. Qed.
Lemma is_some_Some {A} (o : option A) : is_some o = true ↔ ∃ a, o = Some a.
Proof. destruct o; split; try done; [eauto|by intros []]. Qed.
Lemma existsb_str x l : existsb (str_eqb x) l = true ↔ x ∈ l.
Proof.
  rewrite existsb_exists, list_elem_of_In. split; [|intros; exists x; split; [done|apply str_eqb_refl]].
  by intros (y & Hy & ->%str_eqb_eq).
Qed.
Lemma negb_true (b : bool) : negb b = true ↔ ¬ b = true.
Proof. by destruct b. Qed.


(** ** The checks, one by one *)

Ltac audit_bools :=
  rewrite ?elem_of_app, ?elem_opt_list, ?andb_true_iff, ?lifecycle_terminal_spec, ?group_terminal_spec,
    ?bool_decide_eq_true, ?negb_true, ?existsb_str, ?N.eqb_eq, ?N.ltb_lt, ?is_some_Some in *.

Lemma outcome_checks outcomes t v : v ∈ audit_outcome outcomes t ↔
  (v = violation SeverityQuarantine TerminalThreadMissingOutcome "thread" (ta_id t) ∧
     ta_lifecycle t ≠ ThreadOpen ∧ ta_id t ∉ outcomes) ∨
  (v = violation SeverityQuarantine OpenThreadHasOutcome "thread" (ta_id t) ∧
     ta_lifecycle t = ThreadOpen ∧ ta_id t ∈ outcomes).
Proof. unfold audit_outcome. audit_bools. tauto. Qed.

Lemma child_checks objectives t v : v ∈ audit_child objectives t ↔
  v = violation SeverityError ObjectiveChildExecutionOwnerMismatch "thread" (ta_id t) ∧
  ta_lifecycle t = ThreadOpen ∧ ta_supervisor_kind t = SupervisorObjective ∧
  ∃ e o, ta_origin_evaluation_id t = Some e ∧ objective_of objectives t = Some o ∧
         ta_supervision_generation t ≠ oa_generation o.
Proof.
  unfold audit_child. destruct (_ && _ && _) eqn:E.
  - audit_bools. destruct E as [[? ?] [e He]]. destruct (objective_of objectives t) as [o|] eqn:Eo.
    + audit_bools. split; [intros [? ->]; naive_solver|]. intros (-> & _ & _ & e' & o' & _ & [= <-] & ?). done.
    + split; [by intros ?%elem_of_nil|by intros (_ & _ & _ & ? & ? & _ & ? & _)].
  - split; [by intros ?%elem_of_nil|]. intros (_ & Ho & Hs & e & o & He & _). exfalso.
    by rewrite Ho, Hs, He, !bool_decide_true in E.
Qed.

Lemma matching_owner_none objectives t : matching_owner objectives t = None ↔
  ∀ o, objective_of objectives t = Some o → oa_status o = ObjActive → ta_supervision_generation t ≠ oa_generation o.
Proof.
  unfold matching_owner. destruct (objective_of objectives t) as [o|]; [|done].
  destruct (_ && _) eqn:E; audit_bools.
  - split; [done|]. intros Hn. destruct E as [Ha Hg]. by destruct (Hn o eq_refl Ha).
  - split; [|done]. intros _ o' [= <-] Ha Hg. by rewrite Ha, Hg, bool_decide_true, N.eqb_refl in E.
Qed.

Lemma primary_checks objectives t v : v ∈ audit_primary objectives t ↔
  v = violation SeverityQuarantine ObjectivePrimaryExecutionOwnerMismatch "thread" (ta_id t) ∧
  ta_lifecycle t = ThreadOpen ∧ ta_kind t = KindExecution ∧ ta_supervisor_kind t = SupervisorObjective ∧
  ta_origin_evaluation_id t = None ∧ matching_owner objectives t = None.
Proof.
  unfold audit_primary, is_primary. rewrite elem_opt_list, !andb_true_iff, !bool_decide_eq_true, !is_some_None. tauto.
Qed.

Lemma activation_checks threads a v : v ∈ audit_activation threads a ↔
  ∃ t, last_such (λ t, ta_root_turn_id t =s act_root_turn_id a) threads = Some t ∧
  ((v = violation SeverityQuarantine ActivationGenerationAheadOfThread "activation" (act_id a) ∧
      ta_generation t < act_generation a) ∨
   (v = violation SeverityQuarantine TerminalThreadHasLiveActivation "activation" (act_id a) ∧
      ta_lifecycle t ≠ ThreadOpen ∧ act_generation a = ta_generation t ∧ activation_terminal (act_status a) = false)).
Proof.
  unfold audit_activation. destruct (last_such _ threads) as [t|].
  - rewrite elem_of_app, !elem_opt_list, !andb_true_iff, lifecycle_terminal_spec, N.eqb_eq, N.ltb_lt, negb_true_iff.
    naive_solver.
  - split; [by intros ?%elem_of_nil|by intros (? & ? & _)].
Qed.

Lemma group_checks members g : ∃ vs, audit_group members None (group_authority g) = Some vs ∧
  let rows := map snd (List.filter (λ m, m.1 =s group_id g) members) in
  ∀ v, v ∈ vs ↔
  (v = violation SeverityQuarantine GroupCountMismatch "thread_group" (group_id g) ∧
     (group_required_count g, group_terminal_count g, group_successful_count g) ≠
       (count_required rows, count_terminal rows, count_successful rows)) ∨
  (v = violation SeverityQuarantine TerminalGroupHasPendingMember "thread_group" (group_id g) ∧
     group_status g ≠ GroupOpen ∧ Exists (λ m, member_required m = true ∧ is_pending m = true) rows) ∨
  (v = violation SeverityError SatisfiedGroupMissingBarrier "thread_group" (group_id g) ∧
     group_status g = GroupSatisfied ∧ group_barrier g = None).
Proof.
  eexists. split; [reflexivity|]. cbn [ga_id group_authority]. cbv zeta. intros v. cbn [ga_status ga_required_count ga_terminal_count
    ga_successful_count ga_barrier_event_id].
  rewrite !elem_of_app, !elem_opt_list, <- open_count_pending, !andb_true_iff, is_some_None, bool_decide_eq_true,
    group_terminal_spec, N.ltb_lt, negb_true, !andb_true_iff, !N.eqb_eq.
  enough (∀ a b c a' b' c' : N, ¬ ((a = a' ∧ b = b') ∧ c = c') ↔ (a', b', c') ≠ (a, b, c)) as -> by tauto.
  intros. split; [intros Hn [= -> -> ->]; by apply Hn|]. by intros Hn [[-> ->] ->].
Qed.

Lemma dependency_checks groups d v : v ∈ audit_dependency groups d ↔
  v = violation SeverityQuarantine PendingDependencyTargetsTerminalGroup "scheduler_dependency" (dep_id d) ∧
  dep_status d = DepPending ∧ dep_kind d = DepThreadGroup ∧
  ∃ g, last_such (λ g, ga_id g =s dep_target d) groups = Some g ∧ ga_status g ≠ GroupOpen.
Proof.
  unfold audit_dependency. destruct (_ || _) eqn:E.
  - split; [by intros ?%elem_of_nil|]. intros (_ & Hs & Hk & _). by rewrite Hs, Hk, !bool_decide_true in E.
  - apply orb_false_iff in E as [Hs Hk]. rewrite negb_false_iff, bool_decide_eq_true in Hs, Hk.
    destruct (last_such _ groups) as [g|]; audit_bools; naive_solver.
Qed.

Lemma wait_checks deps o v : v ∈ audit_objective (pending_objective_owners deps) o ↔
  v = violation SeverityWarning ObjectiveWaitDisagreesWithDependencies "objective" (oa_id o) ∧
  ¬ (has_wait deps o ↔ oa_has_legacy_wait o = true).
Proof.
  unfold audit_objective. rewrite elem_opt_list, negb_true, eqb_true_iff.
  assert (Hw : existsb (key_eqb (oa_id o, oa_generation o)) (pending_objective_owners deps) = true ↔ has_wait deps o).
  { unfold has_wait, pending_objective_owners. rewrite existsb_exists. setoid_rewrite in_map_iff. setoid_rewrite filter_In.
    setoid_rewrite key_eqb_eq. setoid_rewrite list_elem_of_In. setoid_rewrite andb_true_iff.
    setoid_rewrite andb_true_iff. setoid_rewrite bool_decide_eq_true. split.
    - intros (k & (d & <- & Hd & (Ho & Hr) & Hs) & [= H1 H2]). exists d. done.
    - intros (d & Hd & Ho & Hr & Hs & H1 & H2). exists (dep_owner_id d, dep_owner_generation d). split; [by exists d|by rewrite H1, H2]. }
  rewrite <- Hw. destruct (existsb _ _), (oa_has_legacy_wait o); naive_solver.
Qed.

(** ** The whole audit *)

Lemma audit_groups members groups : ∃ by_group,
  mapM (audit_group members None) (map group_authority groups) = Some by_group ∧
  ∀ v, v ∈ concat by_group ↔ ∃ g vs, g ∈ groups ∧ audit_group members None (group_authority g) = Some vs ∧ v ∈ vs.
Proof.
  induction groups as [|g groups (l & Hl & IH)]; cbn [map mapM].
  - exists []. split; [done|]. intros v. split; [by intros ?%elem_of_nil|by intros (? & ? & ?%elem_of_nil & _)].
  - destruct (group_checks members g) as (vs & Hg & _). exists (vs :: l). split.
    + change (mapM (audit_group members None) (group_authority g :: map group_authority groups)) with
        (y ← audit_group members None (group_authority g); ys ← mapM (audit_group members None) (map group_authority groups); Some (y :: ys)).
      by rewrite Hg, Hl.
    + intros v. cbn [concat]. rewrite elem_of_app, IH. split.
      * intros [Hv|(g' & vs' & Hin & Hrest)]; [exists g, vs|exists g', vs']; (split; [|done]); [left|by right].
      * intros (g' & vs' & [->|Hin]%elem_of_cons & Ha & Hv); [left|by right; exists g', vs'].
        rewrite Hg in Ha. by injection Ha as <-.
Qed.

(** The audit as the union of its checks. *)
Lemma audit_union i : ∃ vs, audit_scheduler_invariants i = Some vs ∧
  let objectives := map objective_authority (in_objectives i) in
  ∀ v, v ∈ vs ↔
    (∃ t, t ∈ in_threads i ∧ (v ∈ audit_outcome (in_outcomes i) t ∨ v ∈ audit_child objectives t ∨ v ∈ audit_primary objectives t)) ∨
    (∃ k ts, (k, ts) ∈ collect_primaries objectives (in_threads i) ∧ v ∈ audit_duplicates None (k, ts)) ∨
    (∃ a, a ∈ in_activations i ∧ v ∈ audit_activation (in_threads i) a) ∨
    (∃ g gs, g ∈ in_groups i ∧ audit_group (in_group_members i) None (group_authority g) = Some gs ∧ v ∈ gs) ∨
    (∃ d, d ∈ in_dependencies i ∧ v ∈ audit_dependency (map group_authority (in_groups i)) d) ∨
    (∃ o, o ∈ objectives ∧ v ∈ audit_objective (pending_objective_owners (in_dependencies i)) o).
Proof.
  destruct (audit_groups (in_group_members i) (in_groups i)) as (by_group & Hg & Hin).
  eexists. split.
  - unfold audit_scheduler_invariants, audit_scheduler_invariants_counted. cbn [fmap option_fmap option_map default].
    rewrite Hg. reflexivity.
  - cbv zeta. intros v. rewrite !elem_of_app, !elem_flat_map, Hin.
    setoid_rewrite elem_of_app. setoid_rewrite elem_of_app.
    enough ((∃ x, x ∈ collect_primaries (map objective_authority (in_objectives i)) (in_threads i) ∧ v ∈ audit_duplicates None x) ↔
      ∃ k ts, (k, ts) ∈ collect_primaries (map objective_authority (in_objectives i)) (in_threads i) ∧ v ∈ audit_duplicates None (k, ts))
      as <- by done.
    split; [intros ([k ts] & ?); by exists k, ts|intros (k & ts & ?); by exists (k, ts)].
Qed.

Lemma duplicates_checks objectives threads v :
  (∃ k ts, (k, ts) ∈ collect_primaries objectives threads ∧ v ∈ audit_duplicates None (k, ts)) ↔
  ∃ k t keep, let ts := primaries objectives threads k in
    t ∈ ts ∧ stays k ts keep ∧ ta_id t ≠ keep ∧
    v = violation SeverityQuarantine DuplicateObjectivePrimaryExecutionThread "thread" (ta_id t).
Proof.
  cbv zeta. setoid_rewrite collect_spec. split.
  - intros (k & ts & [-> Hne] & (t & Ht & -> & keep & Hk & Hneq)%duplicates_spec); [|done]. by exists k, t, keep.
  - intros (k & t & keep & Ht & Hk & Hneq & ->). assert (Hne : primaries objectives threads k ≠ []).
    { intros E. rewrite E in Ht. by apply elem_of_nil in Ht. }
    exists k, (primaries objectives threads k). split; [done|]. apply duplicates_spec; [done|]. exists t. eauto.
Qed.

Lemma audit_broken (i : SchedulerInvariantInput) :
  ∃ vs, audit_scheduler_invariants i = Some vs ∧ ∀ v, v ∈ vs ↔ broken i v.
Proof.
  destruct (audit_union i) as (vs & -> & Hu). exists vs. split; [done|]. intros v. rewrite Hu, duplicates_checks. clear Hu.
  setoid_rewrite outcome_checks. setoid_rewrite child_checks. setoid_rewrite primary_checks. setoid_rewrite matching_owner_none.
  setoid_rewrite activation_checks. setoid_rewrite dependency_checks. setoid_rewrite wait_checks. split.
  - intros [(t & Ht & Hc)|[(k & t & keep & Hc)|[(a & Ha & t & Ht & Hc)|[(g & gs & Hg & Hgs & Hc)|[(d & Hd & Hc)|(o & Ho & Hc)]]]]].
    + destruct Hc as [[(-> & ? & ?)|(-> & ? & ?)]|[(-> & ? & ? & e & o & ? & ? & ?)|(-> & ? & ? & ? & ? & ?)]]; by econstructor.
    + destruct Hc as (Ht & Hk & Hneq & ->). by econstructor.
    + destruct Hc as [(-> & ?)|(-> & ? & ? & ?)]; by econstructor.
    + destruct (group_checks (in_group_members i) g) as (gs' & Hgs' & Hx). rewrite Hgs in Hgs'. injection Hgs' as <-.
      apply Hx in Hc as [(-> & ?)|[(-> & ? & ?)|(-> & ? & ?)]]; by constructor.
    + destruct Hc as (-> & ? & ? & g & ? & ?). by econstructor.
    + destruct Hc as (-> & ?). by constructor.
  - intros [t|t|t e o|t|k t keep|a t|a t|g|g|g|d g|o].
    1-4: left; exists t; naive_solver.
    1: right; left; by exists k, t, keep.
    1-2: do 2 right; left; exists a; naive_solver.
    1-3: do 3 right; left; destruct (group_checks (in_group_members i) g) as (gs & Hgs & Hx);
      exists g, gs; split_and!; [done|done|]; apply Hx; unfold rows_of in *; naive_solver.
    + do 4 right; left; exists d; naive_solver.
    + do 5 right; exists o; naive_solver.
Qed.

(** C26. The audit of the scheduler's rows is exact: it always returns, it reports a violation only
    when the rows break the rule the violation names, and every broken rule is reported, with the
    severity and the row at fault. *)
Theorem audit_exact (i : SchedulerInvariantInput) :
  ∃ vs, audit_scheduler_invariants i = Some vs ∧ ∀ v, v ∈ vs ↔ broken i v.
Proof. apply audit_broken. Qed.

Lemma audit_spec i vs v : audit_scheduler_invariants i = Some vs → v ∈ vs ↔ broken i v.
Proof.
  intros Ha. destruct (audit_broken i) as (vs' & Ha' & Hv). rewrite Ha in Ha'. by injection Ha' as <-.
Qed.

(** ** One primary execution *)

Definition duplicate_report (t : ThreadAuthority) : SchedulerInvariantViolation :=
  violation SeverityQuarantine DuplicateObjectivePrimaryExecutionThread "thread" (ta_id t).

Lemma primaries_elem objectives threads k t : t ∈ primaries objectives threads k ↔ t ∈ threads ∧ primary_key objectives t = Some k.
Proof.
  unfold primaries, has_key. rewrite !list_elem_of_In, filter_In. destruct (primary_key objectives t) as [k'|]; [|intuition discriminate].
  rewrite key_eqb_eq. naive_solver.
Qed.

Lemma same_id_same_thread threads t t' :
  NoDup (map ta_id threads) → t ∈ threads → t' ∈ threads → ta_id t = ta_id t' → t = t'.
Proof.
  intros Hn (n & Hi)%list_elem_of_lookup (n' & Hi')%list_elem_of_lookup He.
  assert (n = n') as <-; [|by rewrite Hi in Hi'; injection Hi'].
  apply (NoDup_lookup (map ta_id threads) n n' (ta_id t) Hn); [by rewrite list_lookup_fmap, Hi|by rewrite list_lookup_fmap, Hi', He].
Qed.

(** Of the open primary execution threads of one generation of an active objective the audit
    leaves exactly one unreported: every such set has a thread that stays, and any other thread of
    the set is reported as a duplicate to quarantine. *)
Theorem one_primary_stays (i : SchedulerInvariantInput) vs k :
  audit_scheduler_invariants i = Some vs → NoDup (map ta_id (in_threads i)) →
  let ts := primaries (map objective_authority (in_objectives i)) (in_threads i) k in
  ts ≠ [] → ∃ t, t ∈ ts ∧ ∀ t', t' ∈ ts → duplicate_report t' ∉ vs ↔ t' = t.
Proof.
  intros Ha Hn ts Hne. pose proof (preserved_stays k ts Hne) as Hk. set (keep := preserved_id _ _ _) in Hk.
  assert (∃ t, t ∈ ts ∧ ta_id t = keep) as (t & Ht & Hid).
  { destruct Hk as [[-> (t & ? & ?)]|[_ (t & ? & ? & _)]]; by exists t. }
  exists t. split; [done|]. intros t' Ht'. unfold duplicate_report. rewrite (audit_spec _ _ _ Ha). split.
  - intros Hnb. destruct (decide (ta_id t' = keep)) as [He|He].
    + apply (same_id_same_thread (in_threads i)); [done| | |congruence]; by eapply primaries_elem.
    + by destruct Hnb; eapply broken_duplicate.
  - intros -> Hb. inversion Hb as [| | | |k' t1 keep' ts' Ht1 Hk1 Hneq E| | | | | | |]; subst.
    apply primaries_elem in Ht as [Hin Hkey]. pose proof Ht1 as [Hin1 Hkey1]%primaries_elem.
    assert (t1 = t) as -> by (by apply (same_id_same_thread (in_threads i))).
    rewrite Hkey in Hkey1. injection Hkey1 as <-. fold ts in Hk1. by rewrite (stays_unique _ _ _ _ Hk1 Hk) in Hneq.
Qed.

(** ** The audit and the transactions on groups *)

(** The rows of the audit are those of the group. *)
Definition audits (i : SchedulerInvariantInput) (g : Group) : Prop :=
  g ∈ in_groups i ∧ (∀ g', g' ∈ in_groups i → group_id g' = group_id g → g' = g) ∧ rows_of i g = group_members g.

(** C39. The transactions keep what the audit demands.  Take a group from a plan whose ordinals and
    threads are distinct and whose threads are pending in no other group, or made for a promoted
    thread, and any run of outcomes, cancellations and promotions on it after which it is still
    open.  An audit whose input holds the group, no other group with its id, and exactly its
    member rows reports no violation of kind thread_group on it. *)
Theorem open_group_audits_clean g0 bs g i vs v :
  group_start g0 → group_run g0 bs g → group_status g = GroupOpen → audits i g →
  audit_scheduler_invariants i = Some vs → v ∈ vs →
  v_entity_kind v = "thread_group"%string → v_entity_id v ≠ group_id g.
Proof.
  intros [H0 _]%start_inv Hrun Ho (Hg & Hu & Hrows) Ha Hv Hkind Hid. destruct (run_inv _ _ _ Hrun H0) as [[_ Hr Hopen _] _].
  destruct (Hopen Ho) as (Ht & Hs & _). apply (audit_spec _ _ _ Ha) in Hv. destruct Hv; try done; cbn [v_entity_id] in Hid.
  - apply Hu in Hid as ->; [|done]. rewrite Hrows, Hr, Ht, Hs in *. done.
  - apply Hu in Hid as ->; done.
  - apply Hu in Hid as ->; [|done]. by rewrite Ho in *.
Qed.
End audit_facts.

(** ** Samples *)

Definition sample_digest : Digest := {| sha256_hex := λ bytes, bytes |}.

Definition sample_objective : ObjectiveRecord := mkObjective (s! "o") 3 ObjActive false None None.
Definition sample_thread (id : string) (created : Z) : ThreadAuthority :=
  mkThread (lit id) KindExecution ThreadOpen 1 (lit id) created SupervisorObjective (Some (s! "o")) 3 None.
Definition sample_input : SchedulerInvariantInput :=
  mkInput [sample_objective] [sample_thread "young" 9; sample_thread "old" 4] [] [] [] [] [].

Lemma one_primary_stays_witness :
  ∃ t, t ∈ in_threads sample_input ∧
    (duplicate_report (sample_thread "old" 4) ∉
       [duplicate_report (sample_thread "young" 9)] ↔ sample_thread "old" 4 = t).
Proof.
  destruct (@one_primary_stays sample_digest sample_input [duplicate_report (sample_thread "young" 9)] (s! "o", 3))
    as (t & Ht & Hone).
  - vm_compute. reflexivity.
  - apply (bool_decide_unpack _). vm_compute. exact I.
  - vm_compute. discriminate.
  - exists t. split; [exact Ht|]. apply Hone. vm_compute. right. left.
Defined.

(** The rows of one group, audited alone. *)
Definition group_input (g : Group) : SchedulerInvariantInput :=
  mkInput [] [] [] [] [g] (map (λ m, (group_id g, m)) (group_members g)) [].

Lemma sample_run_open : group_run sample_0 [] sample_1.
Proof.
  apply (run_step _ [] sample_0 None); [apply run_start|].
  apply (step_promote (s! "t3") (s! "o") (s! "h")). vm_compute. reflexivity.
Defined.

(** An open group beside a closed one that is reported. *)
Definition sample_other : Group :=
  mkGroup (s! "h") (group_revision sample_3) (group_supervisor sample_3) (group_generation sample_3)
    (group_policy sample_3) (group_contract sample_3) (group_required_count sample_3) (group_terminal_count sample_3)
    (group_successful_count sample_3) (group_status sample_3) (group_summary sample_3) (group_barrier sample_3)
    (group_members sample_3).
Definition sample_groups : SchedulerInvariantInput :=
  mkInput [] [] [] [] [sample_1; sample_other]
    (map (λ m, (s! "g", m)) (group_members sample_1) ++ map (λ m, (s! "h", m)) (group_members sample_other)) [].

Lemma sample_groups_audits : audits sample_groups sample_1.
Proof.
  split_and!; [left| |vm_compute; reflexivity].
  intros g' [->|[->|[]%elem_of_nil]%elem_of_cons]%elem_of_cons; [reflexivity|]. vm_compute. discriminate.
Defined.

Lemma open_group_audits_clean_witness :
  v_entity_id (violation SeverityQuarantine GroupCountMismatch "thread_group" (s! "h")) ≠ group_id sample_1.
Proof.
  apply (@open_group_audits_clean sample_digest sample_0 [] sample_1 sample_groups [violation SeverityQuarantine GroupCountMismatch "thread_group" (s! "h")]);
    [exact sample_start|exact sample_run_open|reflexivity|
     exact sample_groups_audits|vm_compute; reflexivity|left|reflexivity].
Defined.

(** A group that closed while a member was pending is reported for good: the outcome of that member
    reaches its row and not the counters of the group, so that once every member has ended the
    audit still asks to quarantine the group. *)
Theorem closed_group_quarantined :
  group_run sample_0 [barrier_id sample_0] sample_3 ∧
  Forall (λ m, is_pending m = false) (group_members sample_3) ∧
  audit_scheduler_invariants (H := sample_digest) (group_input sample_3) =
    Some [violation SeverityQuarantine GroupCountMismatch "thread_group" (group_id sample_3)].
Proof. split; [apply sample_run|]. split; [by repeat constructor|]. vm_compute. reflexivity. Qed.
