(* ===== verification/ThreadContract.v ===== *)
(** * Completion contracts of threads (morphz/src/memory/mod.rs)

    When a thread ends, the runtime applies the part of its completion contract that it can decide by
    itself: how the thread ended, whether a summary is there, how many artifacts and pieces of
    evidence were recorded, and which named checks were reported as passed.  The verdict is what the
    member row of the thread's group records. *)

From stdpp Require Import base list gmap strings sorting.
From Stdlib Require Import NArith ZArith Lia.
From S2P Require Import Prelude Ordering JsonValue Text ThreadGroups Scheduler SchedulerFacts.

Local Open Scope N_scope.

(** morphz/src/memory/mod.rs:4951-4958 [ThreadLifecycle::as_str]. *)
Definition lifecycle_str (l : ThreadLifecycle) : str :=
  match l with
  | ThreadOpen => s! "open" | ThreadCompleted => s! "completed"
  | ThreadFailed => s! "failed" | ThreadCancelled => s! "cancelled"
  end.

(** A member of the contract. *)
Definition contract_field (contract : Json) (key : string) : option Json :=
  jas_object contract ≫= bm_get (lit key).
Definition contract_flag (contract : Json) (key : string) : bool :=
  default false (contract_field contract key ≫= jas_bool).
(** A count of the contract, or the flag that asks for at least one. *)
Definition contract_minimum (contract : Json) (count flag : string) : N :=
  default (if contract_flag contract flag then 1 else 0) (contract_field contract count ≫= jas_u64).

(** morphz/src/memory/mod.rs:2016-2029 [completion_check_value_passed]. *)
Definition completion_check_value_passed (value : Json) : bool :=
  match jas_bool value with
  | Some b => b
  | None =>
      match jget (s! "passed") value ≫= jas_bool with
      | Some b => b
      | None =>
          default false
            ((λ status, (status =s s! "passed") || (status =s s! "success") || (status =s s! "satisfied"))
             <$> (jget (s! "status") value ≫= jas_str))
      end
  end.

(** morphz/src/memory/mod.rs:1883-1887 [CompletionContractEvaluation]. *)
Record CompletionContractEvaluation : Type := mkCompletion {
  ce_passed : bool;
  ce_check_results : Json;
  ce_unresolved_failures : list str
}.

Section completion.
(** [Value::to_string] of serde_json, for failures that are not strings. *)
Context (json_text : Json → str).

(** morphz/src/memory/mod.rs:1965-1980 [evaluate_thread_completion_contract]: the required checks that
    were not reported as passed. *)
Definition missing_checks (contract reported_checks : Json) : list str :=
  List.filter (λ name, negb (match jget name reported_checks with
                             | Some v => completion_check_value_passed v
                             | None => false
                             end))
    (omap jas_str (default [] (contract_field contract "required_checks" ≫= jas_array))).

(** morphz/src/memory/mod.rs:1892-2014 [evaluate_thread_completion_contract]. *)
Definition evaluate_thread_completion_contract (contract : Json) (terminal_kind : ThreadLifecycle)
    (summary : option str) (artifact_refs evidence_refs : list Json) (reported_checks : Json)
    (reported_failures : list Json) : CompletionContractEvaluation :=
  let allow_unresolved := contract_flag contract "allow_unresolved_failures" in
  let require_summary := contract_flag contract "require_summary" in
  let min_artifacts := contract_minimum contract "min_artifacts" "require_artifacts" in
  let min_evidence := contract_minimum contract "min_evidence" "require_evidence" in
  let reported := map (λ v, default (json_text v) (jas_str v)) reported_failures in
  let terminal_passed := bool_decide (terminal_kind = ThreadCompleted) in
  let summary_passed :=
    negb require_summary || match summary with Some v => negb (trim v =s []) | None => false end in
  let artifacts_passed := min_artifacts <=? len artifact_refs in
  let evidence_passed := min_evidence <=? len evidence_refs in
  let missing := missing_checks contract reported_checks in
  let number n := JNumber (PosInt (Z.of_N n)) in
  let below what actual minimum :=
    s! "completion_contract:" ++ lit what ++ s! "=" ++ decimal (Z.of_N actual) ++ s! "<" ++ decimal (Z.of_N minimum) in
  let failures := dedup (merge_sort str_le
    (reported
     ++ (if terminal_passed then [] else [s! "thread_terminal_kind=" ++ lifecycle_str terminal_kind])
     ++ (if summary_passed then [] else [s! "completion_contract:summary_required"])
     ++ (if artifacts_passed then [] else [below "artifacts"%string (len artifact_refs) min_artifacts])
     ++ (if evidence_passed then [] else [below "evidence"%string (len evidence_refs) min_evidence])
     ++ map (λ name, s! "completion_contract:check_failed:" ++ name) missing)) in
  let no_failure := match failures with [] => true | _ => false end in
  let passed := terminal_passed && summary_passed && artifacts_passed && evidence_passed
    && match missing with [] => true | _ => false end && (allow_unresolved || no_failure) in
  mkCompletion passed
    (jobj
       [("reported", reported_checks);
        ("runtime", jobj
           [("passed", JBool passed); ("terminal", JBool terminal_passed); ("summary", JBool summary_passed);
            ("artifacts", jobj [("actual", number (len artifact_refs)); ("minimum", number min_artifacts);
                                ("passed", JBool artifacts_passed)]);
            ("evidence", jobj [("actual", number (len evidence_refs)); ("minimum", number min_evidence);
                               ("passed", JBool evidence_passed)]);
            ("required_checks", JArray (default [] (contract_field contract "required_checks" ≫= jas_array)));
            ("missing_checks", JArray (map JString missing));
            ("allow_unresolved_failures", JBool allow_unresolved)])]%string)
    failures.

(** ** What passing means *)

(** A thread keeps its contract. *)
Definition keeps_contract (contract : Json) (terminal_kind : ThreadLifecycle) (summary : option str)
    (artifact_refs evidence_refs : list Json) (reported_checks : Json) (reported_failures : list Json) : Prop :=
  terminal_kind = ThreadCompleted ∧
  (contract_flag contract "require_summary" = true → ∃ v, summary = Some v ∧ trim v ≠ []) ∧
  contract_minimum contract "min_artifacts" "require_artifacts" ≤ len artifact_refs ∧
  contract_minimum contract "min_evidence" "require_evidence" ≤ len evidence_refs ∧
  (∀ l name, contract_field contract "required_checks" = Some (JArray l) → JString name ∈ l →
     ∃ v, jget name reported_checks = Some v ∧ completion_check_value_passed v = true) ∧
  (contract_flag contract "allow_unresolved_failures" = false → reported_failures = []).

Lemma filter_nil {A} (p : A → bool) (l : list A) : List.filter p l = [] ↔ ∀ x, x ∈ l → p x = false.
Proof.
  induction l as [|x l IH]; [split; [intros _ ? ?%elem_of_nil; done|done]|]. cbn. destruct (p x) eqn:E.
  - split; [done|]. intros Hx. by rewrite (Hx x ltac:(left)) in E.
  - rewrite IH. split; [intros Hl y [->|Hy]%elem_of_cons; auto|intros Hl y Hy; apply Hl; by right].
Qed.

Lemma check_passed (o : option Json) :
  negb (match o with Some v => completion_check_value_passed v | None => false end) = false ↔
  ∃ v, o = Some v ∧ completion_check_value_passed v = true.
Proof.
  rewrite negb_false_iff. destruct o as [v|]; [|split; [done|by intros (? & ? & _)]].
  split; [eauto|by intros (? & [= <-] & ?)].
Qed.

Lemma missing_checks_nil contract reported_checks : missing_checks contract reported_checks = [] ↔
  ∀ l name, contract_field contract "required_checks" = Some (JArray l) → JString name ∈ l →
    ∃ v, jget name reported_checks = Some v ∧ completion_check_value_passed v = true.
Proof.
  unfold missing_checks. rewrite filter_nil. setoid_rewrite list_elem_of_omap. setoid_rewrite check_passed.
  assert (Hs : ∀ v name, jas_str v = Some name ↔ v = JString name).
  { intros v name. split; [|by intros ->]. destruct v; cbn; congruence. }
  setoid_rewrite Hs. destruct (contract_field contract "required_checks") as [j|]; cbn.
  2: split; [intros _ ? ? ?; done|intros _ ? (? & []%elem_of_nil & _)].
  destruct j; cbn; try (split; [intros _ ? ? ?; done|intros _ ? (? & []%elem_of_nil & _)]).
  split; [intros Hx l0 name [= <-] Hn; apply Hx; eauto|]. intros Hx name (? & Hn & ->). eauto.
Qed.

Lemma sorted_nil (l : list str) : dedup (merge_sort str_le l) = [] ↔ l = [].
Proof.
  split; [|by intros ->]. intros Hd. destruct l as [|x l]; [done|].
  assert (Hx : x ∈ dedup (merge_sort str_le (x :: l))) by (rewrite dedup_elem, merge_sort_Permutation; left).
  rewrite Hd in Hx. by apply elem_of_nil in Hx.
Qed.

Lemma entry_nil {A} (b : bool) (x : A) : (if b then [] else [x]) = [] ↔ b = true.
Proof. by destruct b. Qed.
Lemma map_nil {A B} (f : A → B) l : map f l = [] ↔ l = [].
Proof. by destruct l. Qed.

Lemma completion_iff contract kind summary artifacts evidence checks failures :
  let e := evaluate_thread_completion_contract contract kind summary artifacts evidence checks failures in
  (ce_passed e = true ↔ keeps_contract contract kind summary artifacts evidence checks failures) ∧
  (ce_unresolved_failures e = [] ↔ ce_passed e = true ∧ failures = []).
Proof.
  cbv zeta. unfold evaluate_thread_completion_contract, keeps_contract. cbn [ce_passed ce_unresolved_failures].
  rewrite <- (missing_checks_nil contract checks). set (missing := missing_checks contract checks).
  set (flag := contract_flag contract "require_summary").
  assert (Hs : (negb flag || match summary with Some v => negb (trim v =s []) | None => false end) = true ↔
    (flag = true → ∃ v, summary = Some v ∧ trim v ≠ [])).
  { destruct flag; cbn; [|split; [intros _ Hf; discriminate|done]]. destruct summary as [v|].
    - rewrite negb_true, str_eqb_eq. split; [eauto|]. intros Hv. by destruct (Hv eq_refl) as (? & [= <-] & ?).
    - split; [done|]. intros Hv. by destruct (Hv eq_refl) as (? & ? & _). }
  set (sp := negb flag || _) in *. set (ap := _ <=? len artifacts). set (ep := _ <=? len evidence).
  assert (Ha : ap = true ↔ contract_minimum contract "min_artifacts" "require_artifacts" ≤ len artifacts) by apply N.leb_le.
  assert (He : ep = true ↔ contract_minimum contract "min_evidence" "require_evidence" ≤ len evidence) by apply N.leb_le.
  rewrite <- Hs, <- Ha, <- He. clearbody sp ap ep missing. clear Hs Ha He.
  set (failed := dedup _).
  assert (Hf : failed = [] ↔ failures = [] ∧ kind = ThreadCompleted ∧ sp = true ∧ ap = true ∧ ep = true ∧ missing = []).
  { subst failed. rewrite sorted_nil, !app_nil, !entry_nil, !map_nil, bool_decide_eq_true. done. }
  assert (Hn : match failed with [] => true | _ => false end = true ↔ failed = []) by (by destruct failed).
  assert (Hm : match missing with [] => true | _ => false end = true ↔ missing = []) by (by destruct missing).
  rewrite !andb_true_iff, orb_true_iff, Hn, Hm, Hf, bool_decide_eq_true. clear.
  destruct (contract_flag contract "allow_unresolved_failures"); naive_solver.
Qed.

(** The runtime's verdict on a thread is exactly its contract: it passes when the thread
    completed, has the summary, artifacts and evidence that the contract asks for, every required
    check was reported as passed, and no failure was reported unless the contract allows failures;
    and the failures it records are empty exactly when nothing at all is amiss. *)
Theorem completion_exact contract kind summary artifacts evidence checks failures :
  let e := evaluate_thread_completion_contract contract kind summary artifacts evidence checks failures in
  (ce_passed e = true ↔ keeps_contract contract kind summary artifacts evidence checks failures) ∧
  (ce_unresolved_failures e = [] ↔ ce_passed e = true ∧ failures = []).
Proof. apply completion_iff. Qed.

(** ** The outcome of a thread *)

(** morphz/src/memory/sqlite.rs:14568-14581 [commit_activation_outcome]: how the thread ended. *)
Definition terminal_kind_of (topic : str) (payload : list (str * Json)) : str :=
  match (v ← bm_get (s! "terminal_kind") payload; v ← jas_str v;
         if (v =s s! "completed") || (v =s s! "failed") || (v =s s! "cancelled") then Some v else None) with
  | Some kind => kind
  | None =>
      if (topic =s s! "chat/reply") && is_some (bm_get (s! "runtime_failure_kind") payload)
      then s! "failed" else s! "completed"
  end.

(** The lifecycle of a terminal kind; no other text is one. *)
Definition lifecycle_of (kind : str) : ThreadLifecycle :=
  if kind =s s! "completed" then ThreadCompleted
  else if kind =s s! "failed" then ThreadFailed
  else if kind =s s! "cancelled" then ThreadCancelled
  else ThreadOpen.

Definition payload_array (payload : list (str * Json)) (key : string) : list Json :=
  default [] (bm_get (lit key) payload ≫= jas_array).

(** morphz/src/memory/sqlite.rs:14619-14627 [commit_activation_outcome]: the evidence of an outcome. *)
Definition evidence_of (event_id : str) (payload : list (str * Json)) : list Json :=
  match payload_array payload "evidence_refs" with
  | [] => [JString event_id]
  | l => l
  end.

(** morphz/src/memory/sqlite.rs:14613-14650 [commit_activation_outcome]: the verdict on the event. *)
Definition event_completion (contract : Json) (event_id topic : str) (payload : list (str * Json)) : CompletionContractEvaluation :=
  evaluate_thread_completion_contract contract (lifecycle_of (terminal_kind_of topic payload))
    (bm_get (s! "text") payload ≫= jas_str) (payload_array payload "artifact_refs") (evidence_of event_id payload)
    (default (JObject []) (bm_get (s! "check_results") payload)) (payload_array payload "unresolved_failures").

(** The transaction of an outcome, from its event. *)
Definition commit_event (thread outcome : str) (contract : Json) (event_id topic : str) (payload : list (str * Json)) (g : Group) : Outcome :=
  commit_outcome thread (terminal_kind_of topic payload) outcome (ce_passed (event_completion contract event_id topic payload)) g.

(** Asking a thread for evidence asks for nothing: the event that ends the thread counts as its
    evidence when it names none, so that a contract whose only demand is one piece of evidence
    passes for every completed thread without failures, even one that recorded no evidence. *)
Theorem required_evidence_vacuous (event_id topic : str) (payload : list (str * Json)) :
  terminal_kind_of topic payload = s! "completed" → payload_array payload "unresolved_failures" = [] →
  ce_passed (event_completion (jobj [("require_evidence", JBool true)]%string) event_id topic payload) = true.
Proof.
  intros Hk Hf. unfold event_completion. rewrite Hk, Hf.
  refine (proj2 (proj1 (completion_iff _ _ _ _ _ _ _)) _). unfold keeps_contract.
  assert (He : 1 ≤ len (evidence_of event_id payload)).
  { unfold evidence_of, len. destruct (payload_array payload "evidence_refs"); cbn [length]; lia. }
  split_and!; [reflexivity|by vm_compute|apply N.le_0_l|exact He|by vm_compute|done].
Qed.
End completion.

Lemma required_evidence_vacuous_witness :
  ce_passed (event_completion (λ _, []) (jobj [("require_evidence", JBool true)]%string) (s! "e1") (s! "chat/reply") []) = true.
Proof. apply required_evidence_vacuous; reflexivity. Defined.
