(* ===== verification/Objectives.v ===== *)
(** * Objectives (morphz/src/memory/sqlite.rs, morphz/src/memory/mod.rs)

    An objective is a goal that outlives evaluations: it waits for dependencies, is owned by one
    evaluation at a time under a lease that expires, can be parked while its owner waits for an
    approval, and is fenced by a revision (every decision) and a generation (every resumption).

    The store checks most calls twice: it reads the row, decides, and then runs a statement whose
    [WHERE] clause has to hold still, because other connections may write in between; and then it
    queries the row once more for its answer.  Here a call is these three parts, [call_read],
    [call_write] and [read_answer], and [sys_step] interleaves the parts of any calls; transactions
    that read and write at once are the cases of [tx_apply].

    Of the rows, the columns that these statements read or write are kept; times are nanoseconds,
    and what a statement reads of other tables is an argument. *)

From stdpp Require Import base list gmap strings.
From Stdlib Require Import NArith ZArith Lia.
From S2P Require Import Prelude JsonValue Text ThreadGroups Scheduler.

Local Open Scope N_scope.

(** ** Rows *)

(** morphz/src/memory/mod.rs:5469-5500 [ObjectiveWaitCondition]. *)
Inductive ObjectiveWaitCondition : Type :=
| WaitToolTask (task_id : str)
| WaitDelegation (delegation_id : str)
| WaitThreadGroup (group_id : str)
| WaitTimer (deadline : Z)
| WaitPermission (request_id : str)
| WaitUserInput (session_id : str) (request_id : option str)
| WaitExternalEvent (topic correlation_id : str)
| WaitResourceAvailable (resource : str).
#[export] Instance wait_eq_dec : EqDecision ObjectiveWaitCondition.
Proof. solve_decision. Defined.

(** morphz/src/memory/mod.rs:5514-5520 [ObjectiveCompletionIntent]. *)
Record ObjectiveCompletionIntent : Type := mkIntent {
  intent_evaluation : str;
  intent_activation : str;
  intent_reason : str;
  intent_evidence : list str;
  intent_requested_at : Z
}.
#[export] Instance intent_eq_dec : EqDecision ObjectiveCompletionIntent.
Proof. solve_decision. Defined.

(** morphz/src/memory/mod.rs:5453-5461 [ObjectiveStatus::can_transition_to]. *)
Definition can_transition_to (s next : ObjectiveStatus) : bool :=
  match s with
  | ObjActive => true
  | ObjPaused | ObjBlocked => match next with ObjActive | ObjCancelled | ObjFailed => true | _ => false end
  | ObjCompleted | ObjCancelled | ObjFailed => false
  end.

(** morphz/src/memory/mod.rs:5523-5563 [ObjectiveRecord], the columns in use. *)
Record ObjectiveRow : Type := mkRow {
  or_id : str;
  or_context_id : str;
  or_coordinator_session_id : str;
  or_stated_objective : str;
  or_revision : N;
  or_generation : N;
  or_status : ObjectiveStatus;
  or_status_reason : option str;
  or_wait_condition : option ObjectiveWaitCondition;
  or_completion_intent : option ObjectiveCompletionIntent;
  or_active_evaluation_id : option str;
  or_lease_expires_at : option Z;
  or_continuation_sequence : N;
  or_tokens_used : N;
  or_time_used_seconds : N
}.

(** What the scheduler reads of a row. *)
Definition objective_record (r : ObjectiveRow) : ObjectiveRecord :=
  mkObjective (or_id r) (or_generation r) (or_status r) (is_some (or_wait_condition r))
    (or_active_evaluation_id r) (or_lease_expires_at r).

(** morphz/src/memory/objective_approval_wait.rs:17-22 [ObjectiveApprovalWait]. *)
Record ObjectiveApprovalWait : Type := mkApprovalWait {
  aw_evaluation_id : str;
  aw_objective_generation : N;
  aw_activation_id : str
}.

(** A row of [scheduler_dependencies], with the entries of its metadata that are read back. *)
Record DependencyRow : Type := mkDependencyRow {
  dr_dependency : SchedulerDependencyRecord;
  dr_source : str;
  dr_cause_event_id : option str
}.

Record Db : Type := mkDb {
  db_objectives : gmap str ObjectiveRow;
  db_dependencies : list DependencyRow;
  db_approval_waits : gmap str ObjectiveApprovalWait
}.

(** morphz/src/memory/mod.rs:5614-5619 [ObjectiveMutation]. *)
Inductive ObjectiveMutation : Type :=
| Updated (objective : ObjectiveRow)
| Conflict (current : ObjectiveRow)
| NotFound.

(** The columns that a statement sets. *)
Definition set_stated (s : str) (r : ObjectiveRow) : ObjectiveRow :=
  mkRow (or_id r) (or_context_id r) (or_coordinator_session_id r) s (or_revision r) (or_generation r) (or_status r)
    (or_status_reason r) (or_wait_condition r) (or_completion_intent r) (or_active_evaluation_id r) (or_lease_expires_at r)
    (or_continuation_sequence r) (or_tokens_used r) (or_time_used_seconds r).
Definition bump_revision (r : ObjectiveRow) : ObjectiveRow :=
  mkRow (or_id r) (or_context_id r) (or_coordinator_session_id r) (or_stated_objective r) (or_revision r + 1) (or_generation r)
    (or_status r) (or_status_reason r) (or_wait_condition r) (or_completion_intent r) (or_active_evaluation_id r)
    (or_lease_expires_at r) (or_continuation_sequence r) (or_tokens_used r) (or_time_used_seconds r).
Definition set_status (s : ObjectiveStatus) (generations : N) (reason : option str) (r : ObjectiveRow) : ObjectiveRow :=
  mkRow (or_id r) (or_context_id r) (or_coordinator_session_id r) (or_stated_objective r) (or_revision r)
    (or_generation r + generations) s reason (or_wait_condition r) (or_completion_intent r) (or_active_evaluation_id r)
    (or_lease_expires_at r) (or_continuation_sequence r) (or_tokens_used r) (or_time_used_seconds r).
Definition set_reason (reason : option str) (r : ObjectiveRow) : ObjectiveRow :=
  mkRow (or_id r) (or_context_id r) (or_coordinator_session_id r) (or_stated_objective r) (or_revision r) (or_generation r)
    (or_status r) reason (or_wait_condition r) (or_completion_intent r) (or_active_evaluation_id r)
    (or_lease_expires_at r) (or_continuation_sequence r) (or_tokens_used r) (or_time_used_seconds r).
Definition set_wait (w : option ObjectiveWaitCondition) (r : ObjectiveRow) : ObjectiveRow :=
  mkRow (or_id r) (or_context_id r) (or_coordinator_session_id r) (or_stated_objective r) (or_revision r) (or_generation r)
    (or_status r) (or_status_reason r) w (or_completion_intent r) (or_active_evaluation_id r) (or_lease_expires_at r)
    (or_continuation_sequence r) (or_tokens_used r) (or_time_used_seconds r).
Definition set_intent (i : option ObjectiveCompletionIntent) (r : ObjectiveRow) : ObjectiveRow :=
  mkRow (or_id r) (or_context_id r) (or_coordinator_session_id r) (or_stated_objective r) (or_revision r) (or_generation r)
    (or_status r) (or_status_reason r) (or_wait_condition r) i (or_active_evaluation_id r) (or_lease_expires_at r)
    (or_continuation_sequence r) (or_tokens_used r) (or_time_used_seconds r).
Definition set_owner (e : option str) (lease : option Z) (r : ObjectiveRow) : ObjectiveRow :=
  mkRow (or_id r) (or_context_id r) (or_coordinator_session_id r) (or_stated_objective r) (or_revision r) (or_generation r)
    (or_status r) (or_status_reason r) (or_wait_condition r) (or_completion_intent r) e lease
    (or_continuation_sequence r) (or_tokens_used r) (or_time_used_seconds r).
Definition next_sequence (r : ObjectiveRow) : ObjectiveRow :=
  mkRow (or_id r) (or_context_id r) (or_coordinator_session_id r) (or_stated_objective r) (or_revision r) (or_generation r)
    (or_status r) (or_status_reason r) (or_wait_condition r) (or_completion_intent r) (or_active_evaluation_id r)
    (or_lease_expires_at r) (or_continuation_sequence r + 1) (or_tokens_used r) (or_time_used_seconds r).
Definition add_usage (tokens seconds : N) (r : ObjectiveRow) : ObjectiveRow :=
  mkRow (or_id r) (or_context_id r) (or_coordinator_session_id r) (or_stated_objective r) (or_revision r) (or_generation r)
    (or_status r) (or_status_reason r) (or_wait_condition r) (or_completion_intent r) (or_active_evaluation_id r)
    (or_lease_expires_at r) (or_continuation_sequence r) (or_tokens_used r + tokens) (or_time_used_seconds r + seconds).

(** ** Statements *)

Definition get_objective (id : str) (db : Db) : option ObjectiveRow := db_objectives db !! id.

(** An [INSERT], or an [UPDATE objectives] that does not set [status], [active_evaluation_id] or
    [generation]. *)
Definition put (id : str) (r : ObjectiveRow) (db : Db) : Db :=
  mkDb (<[id := r]> (db_objectives db)) (db_dependencies db) (db_approval_waits db).

(** morphz/src/memory/sqlite.rs:2182-2183 [objective_approval_wait_invalidated]: the trigger. *)
Definition wait_invalidated (r : ObjectiveRow) (w : ObjectiveApprovalWait) : bool :=
  negb (bool_decide (or_status r = ObjActive))
  || negb (bool_decide (or_active_evaluation_id r = Some (aw_evaluation_id w)))
  || negb (aw_objective_generation w =? or_generation r).

(** One that sets a column which the trigger watches. *)
Definition put_watched (id : str) (r : ObjectiveRow) (db : Db) : Db :=
  mkDb (<[id := r]> (db_objectives db)) (db_dependencies db)
    (match db_approval_waits db !! id with
     | Some w => if wait_invalidated r w then delete id (db_approval_waits db) else db_approval_waits db
     | None => db_approval_waits db
     end).

Definition set_dependency_status (s : SchedulerDependencyStatus) (d : DependencyRow) : DependencyRow :=
  let r := dr_dependency d in
  mkDependencyRow (mkDependency (dep_id r) (dep_owner_kind r) (dep_owner_id r) (dep_owner_generation r) (dep_kind r)
    (dep_target r) (dep_target_generation r) (dep_required r) s) (dr_source d) (dr_cause_event_id d).
Definition update_dependencies (p : SchedulerDependencyRecord → bool) (s : SchedulerDependencyStatus) (db : Db) : Db :=
  mkDb (db_objectives db)
    (map (λ d, if p (dr_dependency d) && bool_decide (dep_status (dr_dependency d) = DepPending)
               then set_dependency_status s d else d) (db_dependencies db))
    (db_approval_waits db).

(** [INSERT INTO scheduler_dependencies .. ON CONFLICT(id) DO NOTHING]. *)
Definition insert_dependency (d : DependencyRow) (db : Db) : Db :=
  if existsb (λ x, dep_id (dr_dependency x) =s dep_id (dr_dependency d)) (db_dependencies db) then db
  else mkDb (db_objectives db) (db_dependencies db ++ [d])%list (db_approval_waits db).

(** [EXISTS (SELECT 1 FROM scheduler_dependencies ..)] on the pending dependencies that hold an
    objective of a generation back. *)
Definition owned_by (id : str) (generation : N) (d : SchedulerDependencyRecord) : bool :=
  bool_decide (dep_owner_kind d = OwnerObjective) && (dep_owner_id d =s id) && (dep_owner_generation d =? generation).
Definition pending_required (id : str) (generation : N) (d : SchedulerDependencyRecord) : bool :=
  owned_by id generation d && dep_required d && bool_decide (dep_status d = DepPending).
Definition exists_dependency (p : SchedulerDependencyRecord → bool) (db : Db) : bool :=
  existsb (λ d, p (dr_dependency d)) (db_dependencies db).

(** morphz/src/memory/sqlite.rs:18604-18622 [cancel_objective_wait_dependencies_in_transaction]. *)
Definition cancel_objective_wait_dependencies (id : str) (generation : N) (db : Db) : Db :=
  update_dependencies (owned_by id generation) DepCancelled db.

(** Times and JSON values as text, in the keys of dependencies. *)
Class WaitText : Type := {
  rfc3339_nanos : Z → str;
  external_event_text : str → str → str
}.

(** What the statements read of other tables: the generation of a thread group, whether the cause
    of a transition is a reply that was consumed, whether steering input waits for the thread. *)
Record Facts : Type := mkFactsOf {
  group_generation_of : str → option N;
  consumed_reply : bool;
  steering_input : bool
}.

Section statements.
Context `{WaitText} `{Digest}.

(** morphz/src/scheduler/domain.rs:175-213 [objective_wait_dependency_key]. *)
Definition objective_wait_dependency_key (wait : ObjectiveWaitCondition) : SchedulerDependencyKind * str :=
  match wait with
  | WaitToolTask task_id => (DepToolTask, task_id)
  | WaitDelegation delegation_id => (DepDelegation, delegation_id)
  | WaitThreadGroup group_id => (DepThreadGroup, group_id)
  | WaitTimer deadline => (DepTimer, rfc3339_nanos deadline)
  | WaitPermission request_id => (DepPermission, request_id)
  | WaitUserInput session_id request_id => (DepUserInput, default session_id request_id)
  | WaitExternalEvent topic correlation_id => (DepExternalEvent, external_event_text topic correlation_id)
  | WaitResourceAvailable resource => (DepResource, resource)
  end.

(** morphz/src/memory/sqlite.rs:18536-18552 [objective_wait_dependency_generation_in_transaction]. *)
Definition wait_dependency_generation (facts : Facts) (kind : SchedulerDependencyKind) (target : str) (fallback : N) : N :=
  if bool_decide (kind = DepThreadGroup) then default 1 (group_generation_of facts target)
  else N.max fallback 1.

Definition new_dependency (id : str) (generation : N) (kind : SchedulerDependencyKind) (target : str)
    (target_generation : N) (source : string) (cause : option str) : DependencyRow :=
  mkDependencyRow
    (mkDependency (stable_scheduler_dependency_id OwnerObjective id generation kind target target_generation)
       OwnerObjective id generation kind target target_generation true DepPending) (lit source) cause.

(** morphz/src/memory/sqlite.rs:18554-18602 [insert_objective_wait_dependency_in_transaction]. *)
Definition insert_objective_wait_dependency (facts : Facts) (id : str) (generation : N) (wait : ObjectiveWaitCondition)
    (fallback : N) (source : string) (cause : option str) (db : Db) : Db :=
  let '(kind, target) := objective_wait_dependency_key wait in
  insert_dependency
    (new_dependency id generation kind target (wait_dependency_generation facts kind target fallback) source cause) db.

(** morphz/src/memory/sqlite.rs:18495-18534 [insert_objective_group_dependency_in_transaction]. *)
Definition insert_objective_group_dependency (id : str) (generation : N) (group : str) (group_generation : N) (db : Db) : Db :=
  insert_dependency (new_dependency id generation DepThreadGroup group group_generation "schedule_transaction" None) db.

(** ** Calls *)

(** The thread that a signal is sent to. *)
Record SignalThread : Type := mkSignalThread { st_root_turn_id : str; st_context_id : str; st_session_id : str }.

(** The calls that decide on a row they read and then write it. *)
Inductive Call : Type :=
| EditObjective (id : str) (expected : N) (stated : str)
| AmendObjective (id : str) (expected : N) (stated : str) (payload : list (str * Json)) (thread : SignalThread)
| UpdateState (id : str) (expected : N) (status : ObjectiveStatus) (wait : option ObjectiveWaitCondition)
    (reason cause : option str)
| PrepareCompletion (id : str) (expected : N) (evaluation activation reason : str) (evidence : list str)
| ClaimEvaluation (id : str) (expected : N) (evaluation : str) (lease : Z)
| ClaimInterrupt (id : str) (expected : N) (evaluation : str) (lease : Z) (dependency : str)
| ClaimWithSignal (id : str) (expected : N) (evaluation : str) (lease : Z) (payload : list (str * Json)) (thread : SignalThread)
| FinishEvaluation (id evaluation : str) (tokens seconds : N)
| RenewInterrupt (id evaluation : str) (lease : Z) (dependency : str).

Definition call_id (c : Call) : str :=
  match c with
  | EditObjective id _ _ | AmendObjective id _ _ _ _ | UpdateState id _ _ _ _ _ | PrepareCompletion id _ _ _ _ _
  | ClaimEvaluation id _ _ _ | ClaimInterrupt id _ _ _ _ | ClaimWithSignal id _ _ _ _ _
  | FinishEvaluation id _ _ _ | RenewInterrupt id _ _ _ => id
  end.

(** A call that has read the row stops with an answer or goes on with the row it read. *)
Inductive Read : Type := Answer (m : ObjectiveMutation) | Proceed (current : ObjectiveRow).
Definition Reading : Type := result string Read.

Definition payload_str (payload : list (str * Json)) (key : string) : option str := bm_get (lit key) payload ≫= jas_str.
Definition payload_u64 (payload : list (str * Json)) (key : string) : option N := bm_get (lit key) payload ≫= jas_u64.
Definition u64_saturating_succ (n : N) : N := N.min (n + 1) (2 ^ 64 - 1).

(** morphz/src/memory/sqlite.rs:21799-21810 [validate_stated_objective]. *)
Definition validate_stated_objective (stated : str) : result string str :=
  let stated := trim stated in
  if stated =s [] then Err "objective must not be empty"%string
  else if 1000000 <? len stated then Err "objective is too long"%string
  else Ok stated.

(** [i64::try_from]. *)
Definition i64_of (n : N) : result string N := if n <? 2 ^ 63 then Ok n else Err "out of range"%string.

Definition with_row (o : option ObjectiveRow) (f : ObjectiveRow → Reading) : Reading :=
  match o with Some current => f current | None => Ok (Answer NotFound) end.

(** morphz/src/memory/sqlite.rs:22240-22257 [edit_objective]: the checks. *)
Definition edit_read (expected : N) (stated : str) (o : option ObjectiveRow) : Reading :=
  _ ← validate_stated_objective stated;
  with_row o (λ current,
    if negb (or_revision current =? expected) then Ok (Answer (Conflict current))
    else if objective_terminal (or_status current) then Err "a terminal objective cannot be edited"%string
    else _ ← i64_of expected; Ok (Proceed current)).

(** morphz/src/memory/sqlite.rs:22299-22328 [amend_objective_with_signal]: the route of the event. *)
Definition amend_routed (id : str) (expected : N) (payload : list (str * Json)) (thread : SignalThread) (current : ObjectiveRow) : bool :=
  let root := objective_primary_execution_root_id id (or_generation current) in
  bool_decide (payload_str payload "context_id" = Some (or_context_id current))
  && bool_decide (payload_str payload "session_id" = Some (or_coordinator_session_id current))
  && bool_decide (payload_str payload "objective_id" = Some id)
  && bool_decide (payload_u64 payload "objective_generation" = Some (or_generation current))
  && bool_decide (payload_u64 payload "objective_revision" = Some (u64_saturating_succ expected))
  && bool_decide (payload_str payload "root_turn_id" = Some root)
  && (st_root_turn_id thread =s root) && (st_context_id thread =s or_context_id current)
  && (st_session_id thread =s or_coordinator_session_id current).

(** morphz/src/memory/sqlite.rs:22281-22333 [amend_objective_with_signal]: the checks. *)
Definition amend_read (id : str) (expected : N) (stated : str) (payload : list (str * Json)) (thread : SignalThread)
    (o : option ObjectiveRow) : Reading :=
  _ ← validate_stated_objective stated;
  with_row o (λ current,
    if negb (or_revision current =? expected) then Ok (Answer (Conflict current))
    else if objective_terminal (or_status current) then Err "a terminal objective cannot be edited"%string
    else if negb (amend_routed id expected payload thread current) then Err "the amendment event is not routed to the objective"%string
    else _ ← i64_of expected; Ok (Proceed current)).

(** morphz/src/memory/sqlite.rs:22362-22388 [update_objective_state]: the checks. *)
Definition update_state_read (expected : N) (status : ObjectiveStatus) (wait : option ObjectiveWaitCondition)
    (o : option ObjectiveRow) : Reading :=
  with_row o (λ current,
    if negb (or_revision current =? expected) then Ok (Answer (Conflict current))
    else if negb (can_transition_to (or_status current) status) then Err "transition is not allowed"%string
    else if negb (bool_decide (status = ObjActive)) && is_some wait then Err "only an active objective can wait"%string
    else _ ← i64_of expected; Ok (Proceed current)).

(** morphz/src/memory/sqlite.rs:22540-22545 [prepare_objective_completion]: the same intent again. *)
Definition same_intent (evaluation activation reason : str) (evidence : list str) (current : ObjectiveRow) : bool :=
  match or_completion_intent current with
  | Some i => (intent_evaluation i =s evaluation) && (intent_activation i =s activation) && (intent_reason i =s reason)
              && bool_decide (intent_evidence i = evidence)
  | None => false
  end.

(** morphz/src/memory/sqlite.rs:22522-22555 [prepare_objective_completion]: the checks. *)
Definition prepare_read (expected : N) (evaluation activation reason : str) (evidence : list str)
    (o : option ObjectiveRow) : Reading :=
  let evaluation := trim evaluation in
  let activation := trim activation in
  let reason := trim reason in
  if (evaluation =s []) || (activation =s []) || (reason =s []) then Err "incomplete completion intent"%string
  else with_row o (λ current,
    if same_intent evaluation activation reason evidence current then Ok (Answer (Updated current))
    else if negb (or_revision current =? expected) || negb (bool_decide (or_status current = ObjActive))
            || is_some (or_wait_condition current)
            || negb (bool_decide (or_active_evaluation_id current = Some evaluation))
            || is_some (or_completion_intent current)
    then Ok (Answer (Conflict current))
    else _ ← i64_of expected; Ok (Proceed current)).

Definition lease_live (now : Z) (r : ObjectiveRow) : bool :=
  match or_lease_expires_at r with Some t => (now <? t)%Z | None => false end.

(** morphz/src/memory/sqlite.rs:22622-22631 [claim_objective_evaluation]: the guard that all claims share. *)
Definition claim_guard (expected : N) (now : Z) (current : ObjectiveRow) : bool :=
  negb (negb (or_revision current =? expected) || negb (bool_decide (or_status current = ObjActive))
        || is_some (or_completion_intent current) || lease_live now current).

(** morphz/src/memory/sqlite.rs:22609-22633 [claim_objective_evaluation]: the checks. *)
Definition claim_read (expected : N) (evaluation : str) (now : Z) (o : option ObjectiveRow) : Reading :=
  if trim evaluation =s [] then Err "evaluation must not be empty"%string
  else with_row o (λ current,
    if negb (claim_guard expected now current) then Ok (Answer (Conflict current))
    else _ ← i64_of expected; Ok (Proceed current)).

(** morphz/src/memory/sqlite.rs:22671-22698 [claim_objective_interrupt_evaluation]: the checks. *)
Definition claim_interrupt_read (expected : N) (evaluation dependency : str) (now : Z) (o : option ObjectiveRow) : Reading :=
  if (trim evaluation =s []) || (trim dependency =s []) then Err "incomplete interrupt claim"%string
  else with_row o (λ current,
    if negb (claim_guard expected now current) then Ok (Answer (Conflict current))
    else _ ← i64_of expected; _ ← i64_of (or_generation current); Ok (Proceed current)).

(** morphz/src/memory/sqlite.rs:22773-22795 [claim_objective_evaluation_with_signal]: the route of the event. *)
Definition signal_routed (id evaluation : str) (payload : list (str * Json)) (thread : SignalThread) (current : ObjectiveRow) : bool :=
  bool_decide (payload_str payload "context_id" = Some (or_context_id current))
  && bool_decide (payload_str payload "session_id" = Some (or_coordinator_session_id current))
  && bool_decide (payload_str payload "objective_id" = Some id)
  && bool_decide (payload_str payload "objective_evaluation_id" = Some evaluation)
  && bool_decide (payload_str payload "root_turn_id" = Some (st_root_turn_id thread)).

(** morphz/src/memory/sqlite.rs:22749-22799 [claim_objective_evaluation_with_signal]: the checks. *)
Definition claim_with_signal_read (id : str) (expected : N) (evaluation : str) (payload : list (str * Json))
    (thread : SignalThread) (now : Z) (o : option ObjectiveRow) : Reading :=
  if trim evaluation =s [] then Err "evaluation must not be empty"%string
  else with_row o (λ current,
    if negb (claim_guard expected now current) then Ok (Answer (Conflict current))
    else if negb (signal_routed id evaluation payload thread current) then Err "the continuation event is not routed to the objective"%string
    else _ ← i64_of expected; Ok (Proceed current)).

(** morphz/src/memory/sqlite.rs:22850-22868 [finish_objective_evaluation]: the checks. *)
Definition finish_read (evaluation : str) (tokens seconds : N) (o : option ObjectiveRow) : Reading :=
  with_row o (λ current,
    if negb (bool_decide (or_active_evaluation_id current = Some evaluation)) then Ok (Answer (Conflict current))
    else _ ← i64_of (or_revision current); _ ← i64_of tokens; _ ← i64_of seconds; Ok (Proceed current)).

(** morphz/src/memory/sqlite.rs:22939-22955 [renew_objective_interrupt_evaluation]: the checks. *)
Definition renew_interrupt_read (evaluation dependency : str) (lease now : Z) (o : option ObjectiveRow) : Reading :=
  if (trim evaluation =s []) || (trim dependency =s []) then Err "incomplete interrupt renewal"%string
  else if (lease <=? now)%Z then Err "a lease must end in the future"%string
  else with_row o (λ current, _ ← i64_of (or_generation current); Ok (Proceed current)).

(** The first part of a call. *)
Definition call_checks (c : Call) (now : Z) (o : option ObjectiveRow) : Reading :=
  match c with
  | EditObjective _ expected stated => edit_read expected stated o
  | AmendObjective id expected stated payload thread => amend_read id expected stated payload thread o
  | UpdateState _ expected status wait _ _ => update_state_read expected status wait o
  | PrepareCompletion _ expected evaluation activation reason evidence => prepare_read expected evaluation activation reason evidence o
  | ClaimEvaluation _ expected evaluation _ => claim_read expected evaluation now o
  | ClaimInterrupt _ expected evaluation _ dependency => claim_interrupt_read expected evaluation dependency now o
  | ClaimWithSignal id expected evaluation _ payload thread => claim_with_signal_read id expected evaluation payload thread now o
  | FinishEvaluation _ evaluation tokens seconds => finish_read evaluation tokens seconds o
  | RenewInterrupt _ evaluation lease dependency => renew_interrupt_read evaluation dependency lease now o
  end.
Definition call_read (c : Call) (now : Z) (db : Db) : Reading := call_checks c now (get_objective (call_id c) db).

(** ** Writes *)

(** Whether a statement wrote a row ([rows_affected() == 1]), and the database it leaves. *)
Definition Writing : Type := (bool * Db)%type.

(** An [UPDATE .. WHERE] with what its transaction writes besides. *)
Definition update_where (id : str) (cond : ObjectiveRow → bool) (write : ObjectiveRow → Db) (db : Db) : Writing :=
  match get_objective id db with
  | Some r => if cond r then (true, write r) else (false, db)
  | None => (false, db)
  end.

(** morphz/src/memory/sqlite.rs:22259-22268 [edit_objective]: the statement. *)
Definition edit_write (id : str) (expected : N) (stated : str) (db : Db) : Writing :=
  update_where id (λ r, or_revision r =? expected)
    (λ r, let r' := bump_revision (set_intent None (set_stated (trim stated) r)) in put id r' db) db.

(** morphz/src/memory/sqlite.rs:22333-22354 [amend_objective_with_signal]: the statement. *)
Definition amend_write (id : str) (expected : N) (stated : str) (db : Db) : Writing :=
  update_where id (λ r, (or_revision r =? expected) && negb (objective_terminal (or_status r)))
    (λ r, let r' := bump_revision (set_intent None (set_stated (trim stated) r)) in put id r' db) db.

(** morphz/src/memory/sqlite/user_input.rs:39-46 [has_pending_question]. *)
Definition has_pending_question (id : str) (generation : N) (db : Db) : bool :=
  existsb (λ d, owned_by id generation (dr_dependency d) && bool_decide (dep_kind (dr_dependency d) = DepUserInput)
                && bool_decide (dep_status (dr_dependency d) = DepPending) && (dr_source d =s s! "request_user_input"))
    (db_dependencies db).

(** morphz/src/memory/sqlite/user_input.rs:198-207 [cancel_objective_questions]. *)
Definition cancel_objective_questions (id : str) (generation : N) (db : Db) : Db :=
  update_dependencies
    (λ d, bool_decide (dep_owner_kind d = OwnerThread) && bool_decide (dep_kind d = DepUserInput)
          && existsb (λ q, owned_by id generation (dr_dependency q) && bool_decide (dep_kind (dr_dependency q) = DepUserInput)
                           && (dr_source q =s s! "request_user_input") && (dep_target (dr_dependency q) =s dep_target d))
               (db_dependencies db))
    DepCancelled db.

(** The dependency of the latest generation among those that meet a condition. *)
Definition latest_dependency (p : SchedulerDependencyRecord → bool) (l : list DependencyRow) : option DependencyRow :=
  foldl (λ best d,
    if p (dr_dependency d) then
      match best with
      | Some b => if dep_target_generation (dr_dependency b) <? dep_target_generation (dr_dependency d) then Some d else best
      | None => Some d
      end
    else best) None l.

(** morphz/src/memory/sqlite.rs:22419-22445 [update_objective_state]: whether a wait for a resource has
    another cause than the pending one. *)
Definition resource_cause_changed (id : str) (current : ObjectiveRow) (wait : ObjectiveWaitCondition) (cause : option str) (db : Db) : bool :=
  let '(kind, target) := objective_wait_dependency_key wait in
  let previous := latest_dependency
    (λ d, pending_required id (or_generation current) d && bool_decide (dep_kind d = kind) && (dep_target d =s target))
    (db_dependencies db) in
  negb (bool_decide ((previous ≫= dr_cause_event_id) = cause)).

(** morphz/src/memory/sqlite.rs:22395-22400 [update_objective_state]. *)
Definition resumes (current : ObjectiveRow) (status : ObjectiveStatus) : bool :=
  negb (bool_decide (or_status current = ObjActive)) && bool_decide (status = ObjActive).

(** morphz/src/memory/sqlite.rs:22419-22506 [update_objective_state]: the dependencies of the wait. *)
Definition update_wait_dependencies (facts : Facts) (id : str) (expected : N) (status : ObjectiveStatus)
    (wait : option ObjectiveWaitCondition) (cause : option str) (current : ObjectiveRow) (db : Db) : Db :=
  let active := bool_decide (status = ObjActive) in
  let resume := resumes current status in
  let next_generation := or_generation current + (if resume then 1 else 0) in
  let changed0 := resume || negb (bool_decide (or_status current = status)) || negb (bool_decide (or_wait_condition current = wait)) in
  let changed :=
    match wait with
    | Some (WaitResourceAvailable _ as w) => if negb changed0 && active then resource_cause_changed id current w cause db else changed0
    | _ => changed0
    end in
  let db1 :=
    if changed && negb (active && negb resume && has_pending_question id (or_generation current) db)
       && negb (active && consumed_reply facts)
    then
      let cancelled := cancel_objective_wait_dependencies id (or_generation current) db in
      if bool_decide (status = ObjPaused) then cancelled else cancel_objective_questions id (or_generation current) cancelled
    else db in
  match wait with
  | Some w =>
      if changed && active
      then insert_objective_wait_dependency facts id next_generation w (expected + 1) "objective_state_transition" cause db1
      else db1
  | None => db1
  end.

(** morphz/src/memory/sqlite.rs:22389-22516 [update_objective_state]: the transaction. *)
Definition update_state_write (facts : Facts) (id : str) (expected : N) (status : ObjectiveStatus)
    (wait : option ObjectiveWaitCondition) (reason cause : option str) (current : ObjectiveRow) (db : Db) : Writing :=
  update_where id (λ r, or_revision r =? expected)
    (λ r,
      let r' := bump_revision (set_intent None (set_wait wait (set_status status (if resumes current status then 1 else 0) reason r))) in
      update_wait_dependencies facts id expected status wait cause current (put_watched id r' db)) db.

(** morphz/src/memory/sqlite.rs:22556-22582 [prepare_objective_completion]: the statement. *)
Definition prepare_write (id : str) (expected : N) (evaluation activation reason : str) (evidence : list str) (now : Z) (db : Db) : Writing :=
  update_where id
    (λ r, (or_revision r =? expected) && bool_decide (or_status r = ObjActive) && negb (is_some (or_wait_condition r))
          && negb (is_some (or_completion_intent r)) && bool_decide (or_active_evaluation_id r = Some (trim evaluation)))
    (λ r, let r' := bump_revision (set_intent (Some (mkIntent (trim evaluation) (trim activation) (trim reason) evidence now)) r) in
          put id r' db) db.

(** [active_evaluation_id IS NULL OR evaluation_lease_expires_at <= ?]. *)
Definition owner_free (now : Z) (r : ObjectiveRow) : bool :=
  match or_active_evaluation_id r with
  | None => true
  | Some _ => match or_lease_expires_at r with Some t => (t <=? now)%Z | None => false end
  end.

Definition claim_row (evaluation : str) (lease : Z) (r : ObjectiveRow) : ObjectiveRow :=
  bump_revision (next_sequence (set_owner (Some evaluation) (Some lease) r)).

(** morphz/src/memory/sqlite.rs:22634-22658 [claim_objective_evaluation]: the statement. *)
Definition claim_write (id : str) (expected : N) (evaluation : str) (lease now : Z) (db : Db) : Writing :=
  update_where id
    (λ r, (or_revision r =? expected) && bool_decide (or_status r = ObjActive)
          && negb (exists_dependency (pending_required id (or_generation r)) db) && owner_free now r)
    (λ r, let r' := claim_row evaluation lease r in put_watched id r' db) db.

(** morphz/src/memory/sqlite.rs:22699-22736 [claim_objective_interrupt_evaluation]: the statement; the
    generation is that of the row that was read. *)
Definition claim_interrupt_write (id : str) (expected : N) (evaluation : str) (lease : Z) (dependency : str) (now : Z)
    (current : ObjectiveRow) (db : Db) : Writing :=
  update_where id
    (λ r, (or_revision r =? expected) && bool_decide (or_status r = ObjActive)
          && exists_dependency (λ d, pending_required id (or_generation current) d && (dep_id d =s dependency)) db
          && negb (exists_dependency (λ d, pending_required id (or_generation current) d && negb (dep_id d =s dependency)) db)
          && owner_free now r)
    (λ r, let r' := claim_row evaluation lease r in put_watched id r' db) db.

(** morphz/src/memory/sqlite.rs:22797-22842 [claim_objective_evaluation_with_signal]: the statement. *)
Definition claim_with_signal_write (facts : Facts) (id : str) (expected : N) (evaluation : str) (lease now : Z) (db : Db) : Writing :=
  update_where id
    (λ r, (or_revision r =? expected) && bool_decide (or_status r = ObjActive)
          && negb (exists_dependency (pending_required id (or_generation r)) db)
          && negb (steering_input facts) && owner_free now r)
    (λ r, let r' := claim_row evaluation lease r in put_watched id r' db) db.

(** morphz/src/memory/sqlite.rs:22869-22886 [finish_objective_evaluation]: the statement. *)
Definition finish_write (id evaluation : str) (tokens seconds : N) (current : ObjectiveRow) (db : Db) : Writing :=
  update_where id
    (λ r, (or_revision r =? or_revision current) && bool_decide (or_active_evaluation_id r = Some evaluation))
    (λ r, let r' := bump_revision (add_usage tokens seconds (set_intent None (set_owner None None r))) in
          put_watched id r' db) db.

(** morphz/src/memory/sqlite.rs:22957-22994 [renew_objective_interrupt_evaluation]: the statement. *)
Definition renew_interrupt_write (id evaluation : str) (lease : Z) (dependency : str) (current : ObjectiveRow) (db : Db) : Writing :=
  update_where id
    (λ r, bool_decide (or_status r = ObjActive) && bool_decide (or_active_evaluation_id r = Some evaluation)
          && negb (is_some (db_approval_waits db !! id))
          && exists_dependency (λ d, (dep_id d =s dependency) && owned_by id (or_generation current) d
               && (or_generation current =? or_generation r) && dep_required d
               && (bool_decide (dep_status d = DepPending)
                   || (bool_decide (dep_status d = DepSatisfied) && negb (is_some (or_wait_condition r))))) db
          && negb (exists_dependency (λ d, pending_required id (or_generation current) d && negb (dep_id d =s dependency)) db))
    (λ r, let r' := set_owner (or_active_evaluation_id r) (Some lease) r in put id r' db) db.

(** The second part of a call, on the row that the first one read. *)
Definition call_write (facts : Facts) (c : Call) (current : ObjectiveRow) (now : Z) (db : Db) : Writing :=
  match c with
  | EditObjective id expected stated => edit_write id expected stated db
  | AmendObjective id expected stated _ _ => amend_write id expected stated db
  | UpdateState id expected status wait reason cause => update_state_write facts id expected status wait reason cause current db
  | PrepareCompletion id expected evaluation activation reason evidence => prepare_write id expected evaluation activation reason evidence now db
  | ClaimEvaluation id expected evaluation lease => claim_write id expected evaluation lease now db
  | ClaimInterrupt id expected evaluation lease dependency => claim_interrupt_write id expected evaluation lease dependency now current db
  | ClaimWithSignal id expected evaluation lease _ _ => claim_with_signal_write facts id expected evaluation lease now db
  | FinishEvaluation id evaluation tokens seconds => finish_write id evaluation tokens seconds current db
  | RenewInterrupt id evaluation lease dependency => renew_interrupt_write id evaluation lease dependency current db
  end.

(** morphz/src/memory/sqlite.rs:22268-22279 [edit_objective]: the third part of every call, which answers
    with the row as a later query finds it, outside the transaction of the statement. *)
Definition read_answer (id : str) (written : bool) (db : Db) : result string ObjectiveMutation :=
  match get_objective id db with
  | Some r => Ok (if written then Updated r else Conflict r)
  | None => if written then Err "the row cannot be read after the update"%string else Ok NotFound
  end.

(** A call that nothing interrupts; it reads the clock for its checks and again for its statement. *)
Definition call (facts : Facts) (c : Call) (at_read at_write : Z) (db : Db) : result string (ObjectiveMutation * Db) :=
  r ← call_read c at_read db;
  match r with
  | Answer m => Ok (m, db)
  | Proceed current =>
      let '(written, db') := call_write facts c current at_write db in
      m ← read_answer (call_id c) written db';
      Ok (m, db')
  end.

(** ** Transactions that read and write at once *)

(** morphz/src/memory/sqlite.rs:21868-21901 [insert_new_objective_in_transaction]. *)
Definition new_objective (id context session stated : str) : ObjectiveRow :=
  mkRow id context session stated 1 1 ObjActive None None None None None 0 0 0.

(** morphz/src/memory/sqlite.rs:21935-21944 [create_objective], without the routes it validates and the answer. *)
Definition create_objective (id context session stated : str) (db : Db) : result string Db :=
  stated ← validate_stated_objective stated;
  match get_objective id db with
  | Some _ => Err "unique constraint"%string
  | None => Ok (put id (new_objective id context session stated) db)
  end.

(** morphz/src/memory/sqlite.rs:22899-22926 [renew_objective_evaluation]: the checks and the statement. *)
Definition renew_objective_evaluation (id evaluation : str) (lease now : Z) (db : Db) : result string Writing :=
  if trim evaluation =s [] then Err "evaluation must not be empty"%string
  else if (lease <=? now)%Z then Err "a lease must end in the future"%string
  else Ok (update_where id
    (λ r, bool_decide (or_status r = ObjActive) && negb (is_some (or_wait_condition r))
          && bool_decide (or_active_evaluation_id r = Some evaluation) && negb (is_some (db_approval_waits db !! id)))
    (λ r, let r' := set_owner (or_active_evaluation_id r) (Some lease) r in put id r' db) db).

(** morphz/src/memory/sqlite.rs:23007-23027 [record_objective_evaluation_usage]: the statement. *)
Definition record_objective_evaluation_usage (id evaluation : str) (tokens : N) (db : Db) : result string Writing :=
  tokens ← i64_of tokens;
  Ok (update_where id
    (λ r, bool_decide (or_status r = ObjActive) && bool_decide (or_active_evaluation_id r = Some evaluation))
    (λ r, let r' := add_usage tokens 0 r in put id r' db) db).

(** morphz/src/memory/sqlite.rs:14710-14760 [commit_activation_outcome]: the outcome that completes an
    objective.  [routed] is the evaluation that the event names for it, [primary] whether the thread
    is its primary execution, [completed] whether the thread completed, and [directed] whether input
    is still waiting for the objective. *)
Definition complete_objective (id activation : str) (routed : option str) (primary completed directed : bool) (seconds : N) (db : Db) : Db :=
  match get_objective id db with
  | Some r =>
      match or_completion_intent r with
      | Some intent =>
          if negb (objective_terminal (or_status r)) && completed && bool_decide (or_status r = ObjActive) && negb directed
             && (bool_decide (routed = Some (intent_evaluation intent)) || primary)
             && (intent_activation intent =s activation)
             && bool_decide (or_active_evaluation_id r = Some (intent_evaluation intent))
          then put_watched id (bump_revision (add_usage 0 seconds (set_owner None None (set_intent None
                 (set_wait None (set_status ObjCompleted 0 (Some (intent_reason intent)) r)))))) db
          else db
      | None => db
      end
  | None => db
  end.

(** morphz/src/memory/sqlite.rs:15174-15206 [commit_activation_outcome]: the barrier of a group releases what
    waits for it; [objective] is the supervisor when it is one. *)
Definition release_group_wait (group : str) (generation : N) (objective : option str) (db : Db) : Db :=
  let db1 := update_dependencies
    (λ d, bool_decide (dep_kind d = DepThreadGroup) && (dep_target d =s group) && (dep_target_generation d =? generation))
    DepSatisfied db in
  match objective with
  | Some id =>
      (update_where id (λ r, bool_decide (or_wait_condition r = Some (WaitThreadGroup group)))
         (λ r, let r' := bump_revision (set_reason None (set_wait None r)) in put id r' db1) db1).2
  | None => db1
  end.

(** morphz/src/memory/sqlite.rs:19162-19222 [commit_schedule_transaction]: an objective starts to wait for a
    group that it supervises. *)
Definition bind_group_wait (id : str) (expected : N) (group : str) (group_generation : N) (reason : str) (db : Db) : result string Db :=
  _ ← i64_of expected;
  match get_objective id db with
  | Some r =>
      if (or_revision r =? expected) && bool_decide (or_status r = ObjActive) then
        let insert := insert_objective_group_dependency id (or_generation r) group group_generation in
        if negb (is_some (or_wait_condition r))
        then Ok (insert (put id (bump_revision (set_reason (Some (trim reason)) (set_wait (Some (WaitThreadGroup group)) r))) db))
        else if bool_decide (or_wait_condition r = Some (WaitThreadGroup group)) then Ok (insert db)
        else Err "the wait of the objective changed"%string
      else Err "the revision or the lifecycle of the objective changed"%string
  | None => Err "the revision or the lifecycle of the objective changed"%string
  end.

(** morphz/src/memory/sqlite.rs:19077-19132 [commit_schedule_transaction]: an objective that is created in the
    same transaction and starts with a wait for a group. *)
Definition create_waiting_objective (id context session stated group : str) (group_generation : N) (reason : str) (db : Db)
    : result string Db :=
  db1 ← create_objective id context session stated db;
  let db2 := insert_objective_group_dependency id 1 group group_generation db1 in
  Ok (update_where id (λ r, (or_revision r =? 1) && bool_decide (or_status r = ObjActive))
        (λ r, let r' := set_reason (Some (trim reason)) (set_wait (Some (WaitThreadGroup group)) r) in put id r' db2) db2).2.

(** morphz/src/memory/sqlite.rs:19499-19540 [promote_attached_thread]: an existing objective starts to wait
    for the group of a thread that is promoted to it; the row is read at 19442. *)
Definition promote_group_wait (id : str) (expected : N) (group : str) (group_generation : N) (reason : str) (db : Db) : result string Db :=
  _ ← i64_of expected;
  match get_objective id db with
  | Some r =>
      if (or_revision r =? expected) && bool_decide (or_status r = ObjActive) && negb (is_some (or_wait_condition r)) then
        if negb (or_generation r =? group_generation) then Err "the thread has another generation"%string
        else Ok (put id (bump_revision (set_reason (Some reason) (set_wait (Some (WaitThreadGroup group)) r)))
                   (insert_objective_group_dependency id (or_generation r) group group_generation db))
      else Err "the revision or the lifecycle of the objective changed"%string
  | None => Err "the revision or the lifecycle of the objective changed"%string
  end.

(** morphz/src/user_input.rs:459-469 [objective_wait_projection]. *)
Definition objective_wait_projection (r : ObjectiveRow) (question : ObjectiveWaitCondition) : option ObjectiveWaitCondition :=
  match or_wait_condition r with
  | None | Some (WaitUserInput _ _) => Some question
  | other => other
  end.

(** A question of a thread or of an objective, [INSERT]ed under its stable identifier. *)
Definition question (kind : SchedulerDependencyOwnerKind) (id : str) (generation : N) (request : str) (thread_generation : N) : DependencyRow :=
  mkDependencyRow
    (mkDependency (stable_scheduler_dependency_id kind id generation DepUserInput request thread_generation)
       kind id generation DepUserInput request thread_generation true DepPending) (s! "request_user_input") None.
Definition insert_unique (d : DependencyRow) (db : Db) : result string Db :=
  if existsb (λ x, dep_id (dr_dependency x) =s dep_id (dr_dependency d)) (db_dependencies db) then Err "unique constraint"%string
  else Ok (insert_dependency d db).
Definition questions_of (kind : SchedulerDependencyOwnerKind) (id : str) (generation : N) (d : SchedulerDependencyRecord) : bool :=
  bool_decide (dep_owner_kind d = kind) && (dep_owner_id d =s id) && (dep_owner_generation d =? generation)
  && bool_decide (dep_kind d = DepUserInput).

(** morphz/src/memory/sqlite/user_input.rs:119-162 [commit_user_input_request]: a thread asks a question, and
    the objective that it evaluates is given back and waits.  [owner] stands for the routes that
    [validate_objective_owner] compares besides status, generation and evaluation. *)
Definition ask_question (thread : str) (thread_generation : N) (request : str)
    (objective : option (str * N * str * str)) (seconds : N) (owner : bool) (db : Db) : result string Db :=
  let db0 := update_dependencies (questions_of OwnerThread thread thread_generation) DepCancelled db in
  db1 ← insert_unique (question OwnerThread thread thread_generation request thread_generation) db0;
  match objective with
  | None => Ok db1
  | Some (id, generation, evaluation, session) =>
      match get_objective id db1 with
      | None => Err "the objective is missing"%string
      | Some r =>
          if bool_decide (or_status r = ObjActive) && (or_generation r =? generation)
             && bool_decide (or_active_evaluation_id r = Some evaluation) && owner
          then
            db2 ← insert_unique (question OwnerObjective id generation request thread_generation)
                    (update_dependencies (questions_of OwnerObjective id generation) DepCancelled
                       (cancel_objective_questions id generation db1));
            let wait := objective_wait_projection r (WaitUserInput session (Some request)) in
            Ok (put_watched id (bump_revision (add_usage 0 seconds (set_intent None (set_owner None None (set_wait wait r))))) db2)
          else Err "the question does not own the evaluation"%string
      end
  end.

(** morphz/src/memory/objective_approval_wait.rs:48-57 [dependency_matches]. *)
Definition dependency_matches (id : str) (r : ObjectiveRow) (expected : option str) (db : Db) : bool :=
  let pending := map (λ d, dep_id (dr_dependency d))
    (List.filter (λ d, pending_required id (or_generation r) (dr_dependency d)) (db_dependencies db)) in
  match expected, pending with
  | Some dependency, [only] => only =s dependency
  | None, [] => negb (is_some (or_wait_condition r))
  | _, _ => false
  end.

(** morphz/src/memory/sqlite/objective_approval_wait.rs:135-201 [park_if_covered]: the owner waits for an
    approval and hands its lease to the checkpoint, unless another activation of the evaluation
    still runs ([uncovered]); [owner] stands for the routes that [validate_owner] compares. *)
Definition park_if_covered (id evaluation activation : str) (dependency : option str) (owner uncovered : bool) (now : Z) (db : Db) : result string Db :=
  match get_objective id db with
  | None => Err "the objective is missing"%string
  | Some r =>
      if negb (bool_decide (or_status r = ObjActive) && bool_decide (or_active_evaluation_id r = Some evaluation) && owner)
      then Err "the checkpoint lost its evaluation owner"%string
      else if is_some (or_completion_intent r) || negb (lease_live now r) then Err "the lease has expired"%string
      else if negb (dependency_matches id r dependency db) then Err "the dependency changed"%string
      else if uncovered then Ok db
      else if is_some (db_approval_waits db !! id) then Err "unique constraint"%string
      else Ok (put id (set_owner (or_active_evaluation_id r) None r)
                 (mkDb (db_objectives db) (db_dependencies db)
                    (<[id := mkApprovalWait evaluation (or_generation r) activation]> (db_approval_waits db))))
  end.

(** morphz/src/memory/sqlite/objective_approval_wait.rs:24-130 [admit_approval_objective]: an activation of the
    owner continues, and takes the lease back when the objective is parked.  What the rows of threads,
    activations and events say is an argument: whether the activation belongs to the evaluation
    ([owner]), its thread is open ([thread_open]), the claimant runs it ([running]), and an event routes it ([routed]). *)
Definition admit_approval_objective (id evaluation : str) (dependency : option str) (lease : Z)
    (owner thread_open running routed : bool) (now : Z) (db : Db) : result string (ObjectiveMutation * Db) :=
  match get_objective id db with
  | None => Ok (NotFound, db)
  | Some r =>
      if negb (bool_decide (or_status r = ObjActive) && bool_decide (or_active_evaluation_id r = Some evaluation)) then Ok (Conflict r, db)
      else if negb owner then Err "the activation is not of the evaluation"%string
      else if negb thread_open then Ok (Conflict r, db)
      else if negb running || (lease <=? now)%Z then Err "admission requires the current owner"%string
      else if negb routed then Err "no route to the evaluation"%string
      else
        match db_approval_waits db !! id with
        | Some w =>
            if (aw_evaluation_id w =s evaluation) && (aw_objective_generation w =? or_generation r) then
              if negb (dependency_matches id r dependency db) then Ok (Conflict r, db)
              else if is_some (or_lease_expires_at r) then Err "conflicting lease"%string
              else let r' := set_owner (or_active_evaluation_id r) (Some lease) r in
                   Ok (Updated r', put id r' (mkDb (db_objectives db) (db_dependencies db) (delete id (db_approval_waits db))))
            else if lease_live now r then Ok (Updated r, db) else Ok (Conflict r, db)
        | None => if lease_live now r then Ok (Updated r, db) else Ok (Conflict r, db)
        end
  end.

(** morphz/src/memory/sqlite.rs:18295-18343 [satisfy_scheduler_dependency]: the statement. *)
Definition satisfy_scheduler_dependency (dependency : str) (owner_generation generation : N) (db : Db) : Db :=
  update_dependencies
    (λ d, (dep_id d =s dependency) && (dep_owner_generation d =? owner_generation) && (dep_target_generation d =? generation))
    DepSatisfied db.

(** morphz/src/memory/sqlite.rs:18470-18492 [cancel_scheduler_dependencies]. *)
Definition cancel_scheduler_dependencies (kind : SchedulerDependencyOwnerKind) (id : str) (generation : N) (db : Db) : Db :=
  update_dependencies
    (λ d, bool_decide (dep_owner_kind d = kind) && (dep_owner_id d =s id) && (dep_owner_generation d =? generation))
    DepCancelled db.

(** A transaction that commits, and the answer that its call still has to read: of which objective,
    and whether a row was written. *)
Inductive tx_apply (now : Z) (db : Db) : option (str * bool) → Db → Prop :=
| tx_create id context session stated db' :
    create_objective id context session stated db = Ok db' → tx_apply now db (Some (id, true)) db'
| tx_renew id evaluation lease written db' :
    renew_objective_evaluation id evaluation lease now db = Ok (written, db') → tx_apply now db (Some (id, written)) db'
| tx_usage id evaluation tokens written db' :
    record_objective_evaluation_usage id evaluation tokens db = Ok (written, db') → tx_apply now db (Some (id, written)) db'
| tx_complete id activation routed primary completed directed seconds :
    tx_apply now db None (complete_objective id activation routed primary completed directed seconds db)
| tx_release group generation objective : tx_apply now db None (release_group_wait group generation objective db)
| tx_bind id expected group group_generation reason db' :
    bind_group_wait id expected group group_generation reason db = Ok db' → tx_apply now db None db'
| tx_create_waiting id context session stated group group_generation reason db' :
    create_waiting_objective id context session stated group group_generation reason db = Ok db' → tx_apply now db None db'
| tx_promote id expected group group_generation reason db' :
    promote_group_wait id expected group group_generation reason db = Ok db' → tx_apply now db None db'
| tx_question thread thread_generation request objective seconds owner db' :
    ask_question thread thread_generation request objective seconds owner db = Ok db' → tx_apply now db None db'
| tx_park id evaluation activation dependency owner uncovered db' :
    park_if_covered id evaluation activation dependency owner uncovered now db = Ok db' → tx_apply now db None db'
| tx_admit id evaluation dependency lease owner thread_open running routed m db' :
    admit_approval_objective id evaluation dependency lease owner thread_open running routed now db = Ok (m, db') → tx_apply now db None db'
| tx_satisfy dependency owner_generation generation :
    tx_apply now db None (satisfy_scheduler_dependency dependency owner_generation generation db)
| tx_cancel kind id generation : tx_apply now db None (cancel_scheduler_dependencies kind id generation db).

(** ** Interleaving *)

(** A call that has read and not written yet, with the clock it read. *)
Record PendingCall : Type := mkPending { pc_call : Call; pc_current : ObjectiveRow; pc_read_at : Z }.

(** A call whose statement ran and whose answer has not been read: the objective, whether its row was
    written, and the row as the statement left it, which only the theorems look at. *)
Record PendingAnswer : Type := mkUnanswered { pa_id : str; pa_written : bool; pa_row : option ObjectiveRow }.
Definition unanswered (id : str) (written : bool) (db : Db) : PendingAnswer := mkUnanswered id written (get_objective id db).

(** The database, its clock, the calls that have to write and the calls that have to answer. *)
Record Sys : Type := mkSys { sys_now : Z; sys_db : Db; sys_pending : list PendingCall; sys_answers : list PendingAnswer }.

(** A statement runs with a clock that was read some time before, since it may have waited for
    another writer. *)
Inductive sys_step : Sys → Sys → Prop :=
| sys_tick now now' db pending answers :
    (now ≤ now')%Z → sys_step (mkSys now db pending answers) (mkSys now' db pending answers)
| sys_read now db pending answers c current :
    call_read c now db = Ok (Proceed current) →
    sys_step (mkSys now db pending answers) (mkSys now db (mkPending c current now :: pending) answers)
| sys_write now t db l1 l2 answers p facts written db' :
    (pc_read_at p ≤ t)%Z → (t ≤ now)%Z → call_write facts (pc_call p) (pc_current p) t db = (written, db') →
    sys_step (mkSys now db (l1 ++ p :: l2) answers)
             (mkSys now db' (l1 ++ l2) (unanswered (call_id (pc_call p)) written db' :: answers))
| sys_tx now t db pending answers o db' :
    (t ≤ now)%Z → tx_apply t db o db' →
    sys_step (mkSys now db pending answers)
             (mkSys now db' pending (match o with Some (id, written) => unanswered id written db' :: answers | None => answers end))
| sys_answer now db pending l1 a l2 m :
    read_answer (pa_id a) (pa_written a) db = m →
    sys_step (mkSys now db pending (l1 ++ a :: l2)) (mkSys now db pending (l1 ++ l2)).

(** The calls without interruption. *)
Inductive at_step : Z * Db → Z * Db → Prop :=
| at_tick now now' db : (now ≤ now')%Z → at_step (now, db) (now', db)
| at_call now t1 t2 db c facts m db' :
    (t1 ≤ t2)%Z → (t2 ≤ now)%Z → call facts c t1 t2 db = Ok (m, db') → at_step (now, db) (now, db')
| at_tx now t db o db' : (t ≤ now)%Z → tx_apply t db o db' → at_step (now, db) (now, db').
End statements.

Definition empty_db : Db := mkDb ∅ [] ∅.
