(* ===== verification/ObjectiveFacts.v ===== *)
(** * The life of an objective

    [objective_step] is the abstract machine of one objective: its row and, when it is parked, the
    checkpoint that holds it.  Every call and every transaction of [Objectives] moves each objective by
    steps of this machine ([step_cells]), interleaved calls have the effects of calls that nothing
    interrupts ([sys_step_atomic]), and the properties of the lifecycle follow from the machine:
    terminal statuses are final, generations count resumptions, an owner is replaced only when its
    lease is over, and a claim succeeds exactly when the scheduler finds the objective runnable. *)

From stdpp Require Import base list gmap strings relations.
From Stdlib Require Import NArith ZArith Lia.
From S2P Require Import Prelude JsonValue Text ThreadGroups Scheduler Objectives.

Local Open Scope N_scope.

(** ** The machine of one objective *)

(** A row and its checkpoint. *)
Definition Cell : Type := (ObjectiveRow * option ObjectiveApprovalWait)%type.
Definition cell (id : str) (db : Db) : option Cell :=
  (λ r, (r, db_approval_waits db !! id)) <$> get_objective id db.

(** What the trigger leaves of a checkpoint. *)
Definition kept (r : ObjectiveRow) (w : option ObjectiveApprovalWait) : option ObjectiveApprovalWait :=
  match w with
  | Some a => if wait_invalidated r a then None else Some a
  | None => None
  end.

Definition transition (status : ObjectiveStatus) (wait : option ObjectiveWaitCondition) (reason : option str) (r : ObjectiveRow) : ObjectiveRow :=
  bump_revision (set_intent None (set_wait wait (set_status status (if resumes r status then 1 else 0) reason r))).
Definition give_back (wait : option ObjectiveWaitCondition) (tokens seconds : N) (r : ObjectiveRow) : ObjectiveRow :=
  bump_revision (add_usage tokens seconds (set_intent None (set_owner None None (set_wait wait r)))).
Definition completed (i : ObjectiveCompletionIntent) (seconds : N) (r : ObjectiveRow) : ObjectiveRow :=
  bump_revision (add_usage 0 seconds (set_owner None None (set_intent None
    (set_wait None (set_status ObjCompleted 0 (Some (intent_reason i)) r))))).

(** The steps of an objective until the time [now]. *)
Inductive objective_step (now : Z) (r : ObjectiveRow) (w : option ObjectiveApprovalWait) : Cell → Prop :=
| os_usage tokens : or_status r = ObjActive → objective_step now r w (add_usage tokens 0 r, w)
| os_renew e lease :
    or_status r = ObjActive → or_active_evaluation_id r = Some e → w = None →
    objective_step now r w (set_owner (Some e) (Some lease) r, None)
| os_park e lease activation :
    or_status r = ObjActive → or_active_evaluation_id r = Some e → w = None →
    or_lease_expires_at r = Some lease → or_completion_intent r = None →
    objective_step now r w (set_owner (Some e) None r, Some (mkApprovalWait e (or_generation r) activation))
| os_admit e lease a :
    or_status r = ObjActive → or_active_evaluation_id r = Some e → w = Some a → or_lease_expires_at r = None →
    objective_step now r w (set_owner (Some e) (Some lease) r, None)
| os_edit stated :
    objective_terminal (or_status r) = false →
    objective_step now r w (bump_revision (set_intent None (set_stated stated r)), w)
| os_transition status wait reason :
    can_transition_to (or_status r) status = true → (status ≠ ObjActive → wait = None) →
    objective_step now r w (transition status wait reason r, kept (transition status wait reason r) w)
| os_intent i :
    or_status r = ObjActive → or_wait_condition r = None → or_completion_intent r = None →
    or_active_evaluation_id r = Some (intent_evaluation i) →
    objective_step now r w (bump_revision (set_intent (Some i) r), w)
| os_claim e lease t :
    or_status r = ObjActive → or_completion_intent r = None → (t ≤ now)%Z → owner_free t r = true →
    objective_step now r w (claim_row e lease r, kept (claim_row e lease r) w)
| os_give_back e wait tokens seconds :
    or_active_evaluation_id r = Some e → (or_status r ≠ ObjActive → wait = or_wait_condition r) →
    objective_step now r w (give_back wait tokens seconds r, kept (give_back wait tokens seconds r) w)
| os_complete i seconds :
    or_status r = ObjActive → or_completion_intent r = Some i → or_active_evaluation_id r = Some (intent_evaluation i) →
    objective_step now r w (completed i seconds r, kept (completed i seconds r) w)
| os_release group :
    or_wait_condition r = Some (WaitThreadGroup group) →
    objective_step now r w (bump_revision (set_reason None (set_wait None r)), w)
| os_bind group reason :
    or_status r = ObjActive → or_wait_condition r = None →
    objective_step now r w (bump_revision (set_reason (Some reason) (set_wait (Some (WaitThreadGroup group)) r)), w).

(** An objective as it is created. *)
Definition fresh_cell (id : str) (c : Cell) : Prop :=
  or_id c.1 = id ∧ or_revision c.1 = 1 ∧ or_generation c.1 = 1 ∧ or_status c.1 = ObjActive ∧ or_completion_intent c.1 = None
  ∧ or_active_evaluation_id c.1 = None ∧ or_lease_expires_at c.1 = None ∧ c.2 = None.

Inductive cell_step (now : Z) (id : str) : option Cell → option Cell → Prop :=
| cs_idle o : cell_step now id o o
| cs_create c : fresh_cell id c → cell_step now id None (Some c)
| cs_step r w c : objective_step now r w c → cell_step now id (Some (r, w)) (Some c).

(** ** Invariants of a cell *)

Definition cell_ok (c : Cell) : Prop :=
  let '(r, w) := c in
  (∀ a, w = Some a → or_status r = ObjActive ∧ or_active_evaluation_id r = Some (aw_evaluation_id a)
        ∧ or_generation r = aw_objective_generation a ∧ or_lease_expires_at r = None) ∧
  (or_active_evaluation_id r = None → or_lease_expires_at r = None) ∧
  (∀ i, or_completion_intent r = Some i → or_status r = ObjActive ∧ or_active_evaluation_id r = Some (intent_evaluation i)) ∧
  (or_status r ≠ ObjActive → or_wait_condition r = None) ∧
  1 ≤ or_generation r ≤ or_revision r.

(** Every objective is sound, and only objectives are parked. *)
Definition db_ok (db : Db) : Prop :=
  ∀ id, match get_objective id db with
        | Some r => or_id r = id ∧ cell_ok (r, db_approval_waits db !! id)
        | None => db_approval_waits db !! id = None
        end.

(** ** Lookup *)

Lemma kept_Some r w a :
  kept r w = Some a →
  w = Some a ∧ or_status r = ObjActive ∧ or_active_evaluation_id r = Some (aw_evaluation_id a) ∧ aw_objective_generation a = or_generation r.
Proof.
  unfold kept, wait_invalidated. destruct w as [b|]; [|done]. destruct (_ || _) eqn:E; [done|]. intros [= ->].
  apply orb_false_iff in E as [[E1%negb_false_iff E2%negb_false_iff]%orb_false_iff E3%negb_false_iff].
  apply bool_decide_eq_true in E1, E2. apply N.eqb_eq in E3. done.
Qed.

Lemma owner_free_inv t r :
  owner_free t r = true → or_active_evaluation_id r = None ∨ ∃ l, or_lease_expires_at r = Some l ∧ (l ≤ t)%Z.
Proof.
  unfold owner_free. destruct (or_active_evaluation_id r) as [e|]; [|by left].
  destruct (or_lease_expires_at r) as [l|]; [|done]. intros ?%Z.leb_le. right. eauto.
Qed.

Lemma cell_ok_step now r w c : cell_ok (r, w) → objective_step now r w c → cell_ok c.
Proof.
  intros (Hw & Hl & Hi & Hc & Hg) Hs.
  assert (Hres : ∀ s, 1 ≤ or_generation r + (if resumes r s then 1 else 0) ≤ or_revision r + 1)
    by (intros s; destruct (resumes r s); lia).
  destruct Hs; subst; unfold cell_ok, transition, give_back, completed, claim_row; simpl;
    (split; [|split; [|split; [|split; [|try lia; try apply Hres]]]]); intros; simplify_eq; auto; try congruence.
  all: try match goal with H : or_completion_intent _ = Some _ |- _ => apply Hi in H as [??]; split; congruence end.
  all: try match goal with H : kept _ _ = Some _ |- _ => apply kept_Some in H as (-> & Hk1 & Hk2 & Hk3); simpl in * end.
  all: try discriminate.
  - destruct (Hw a eq_refl) as (?&?&?&?). done.
  - exfalso. destruct (Hw a eq_refl) as (?&?&?&?).
    match goal with H : owner_free _ _ = true |- _ => apply owner_free_inv in H as [?|(?&?&?)] end; congruence.
  - match goal with H : or_status r ≠ _ → _ = _ |- _ => rewrite H by done end. by apply Hc.
Qed.

Lemma fresh_ok id c : fresh_cell id c → cell_ok c.
Proof.
  destruct c as [r w]. intros (?&?&?&?&?&?&?&?). simpl in *. subst.
  split; [|split; [|split; [|split]]]; intros; simplify_eq; try done; lia.
Qed.

Lemma step_id now r w c : objective_step now r w c → or_id c.1 = or_id r.
Proof. by destruct 1. Qed.

(** A step changes the revision, or at most the lease and the tokens. *)
Definition core (r : ObjectiveRow) : ObjectiveRow :=
  mkRow (or_id r) (or_context_id r) (or_coordinator_session_id r) (or_stated_objective r) (or_revision r) (or_generation r)
    (or_status r) (or_status_reason r) (or_wait_condition r) (or_completion_intent r) (or_active_evaluation_id r) None
    (or_continuation_sequence r) 0 (or_time_used_seconds r).

Lemma step_core now r w c :
  objective_step now r w c → or_revision c.1 = or_revision r + 1 ∨ core c.1 = core r.
Proof.
  destruct 1; simpl; try (by left); right; unfold core, set_owner, add_usage; simpl; f_equal; try done; lia.
Qed.

(** ** The steps of the database *)

Definition db_step (now : Z) (db db' : Db) : Prop :=
  ∀ id, cell_step now id (cell id db) (cell id db') ∧
        (get_objective id db' = None → db_approval_waits db' !! id = db_approval_waits db !! id).

Lemma db_step_same now db db' :
  db_objectives db' = db_objectives db → db_approval_waits db' = db_approval_waits db → db_step now db db'.
Proof. intros Ho Hw id. unfold cell, get_objective. rewrite Ho, Hw. split; [constructor|done]. Qed.

(** A step of the objective [id] alone. *)
Lemma db_step_at now id r r' db db' :
  get_objective id db = Some r → db_objectives db' = <[id := r']> (db_objectives db) →
  (∀ j, j ≠ id → db_approval_waits db' !! j = db_approval_waits db !! j) →
  objective_step now r (db_approval_waits db !! id) (r', db_approval_waits db' !! id) → db_step now db db'.
Proof.
  intros Hr Ho Hw Hs j. unfold cell, get_objective in *. rewrite Ho.
  destruct (decide (j = id)) as [->|Hj].
  - rewrite Hr, lookup_insert_eq. split; [by constructor|done].
  - rewrite lookup_insert_ne, Hw by done. split; [constructor|done].
Qed.

Lemma put_watched_waits id r db j :
  db_approval_waits (put_watched id r db) !! j =
  if decide (j = id) then kept r (db_approval_waits db !! id) else db_approval_waits db !! j.
Proof.
  unfold put_watched, kept; simpl. destruct (db_approval_waits db !! id) as [a|] eqn:Ea.
  - destruct (wait_invalidated r a), (decide (j = id)) as [->|]; by rewrite ?lookup_delete_eq, ?lookup_delete_ne.
  - destruct (decide (j = id)) as [->|]; done.
Qed.

Lemma db_step_put now id r r' db db1 :
  get_objective id db = Some r → db_objectives db1 = db_objectives db → db_approval_waits db1 = db_approval_waits db →
  objective_step now r (db_approval_waits db !! id) (r', db_approval_waits db !! id) → db_step now db (put id r' db1).
Proof. intros Hr Ho Hw Hs. eapply db_step_at; eauto; simpl; [by rewrite Ho|by rewrite Hw..]. Qed.

Lemma db_step_put_watched now id r r' db db1 :
  get_objective id db = Some r → db_objectives db1 = db_objectives db → db_approval_waits db1 = db_approval_waits db →
  objective_step now r (db_approval_waits db !! id) (r', kept r' (db_approval_waits db !! id)) →
  db_step now db (put_watched id r' db1).
Proof.
  intros Hr Ho Hw Hs. eapply db_step_at; eauto.
  - simpl. by rewrite Ho.
  - intros j Hj. rewrite put_watched_waits, decide_False by done. by rewrite Hw.
  - rewrite put_watched_waits, decide_True by done. by rewrite Hw.
Qed.

Lemma insert_dependency_objectives d db : db_objectives (insert_dependency d db) = db_objectives db.
Proof. unfold insert_dependency. by destruct (existsb _ _). Qed.
Lemma insert_dependency_waits d db : db_approval_waits (insert_dependency d db) = db_approval_waits db.
Proof. unfold insert_dependency. by destruct (existsb _ _). Qed.
#[export] Hint Rewrite insert_dependency_objectives insert_dependency_waits : objdb.

Lemma update_where_inv id cond write db m db' :
  update_where id cond write db = (m, db') →
  (∃ r, get_objective id db = Some r ∧ cond r = true ∧ m = true ∧ write r = db') ∨ (m = false ∧ db' = db).
Proof.
  unfold update_where. destruct (get_objective id db) as [r|]; [|intros [= <- <-]; by right].
  destruct (cond r) eqn:E; intros [= <- <-]; [left; eauto|by right].
Qed.

(** ** Calls *)

Lemma i64_of_Ok n m : i64_of n = Ok m ↔ n < 2 ^ 63 ∧ m = n.
Proof. unfold i64_of. destruct (N.ltb_spec n (2 ^ 63)); split; [intros [= <-]|intros [_ ->]|..]; naive_solver lia. Qed.

Lemma i64_of_lt n : n < 2 ^ 63 → i64_of n = Ok n.
Proof. intros ?. by apply i64_of_Ok. Qed.

(** What a call that goes on has checked of the row. *)
Definition checked (c : Call) (now : Z) (r : ObjectiveRow) : Prop :=
  match c with
  | EditObjective _ expected stated =>
      (∃ s, validate_stated_objective stated = Ok s) ∧ or_revision r = expected ∧ objective_terminal (or_status r) = false ∧ expected < 2 ^ 63
  | AmendObjective id expected stated payload thread =>
      (∃ s, validate_stated_objective stated = Ok s) ∧ or_revision r = expected ∧ objective_terminal (or_status r) = false ∧
      amend_routed id expected payload thread r = true ∧ expected < 2 ^ 63
  | UpdateState _ expected status wait _ _ =>
      or_revision r = expected ∧ can_transition_to (or_status r) status = true ∧ (status ≠ ObjActive → wait = None) ∧ expected < 2 ^ 63
  | PrepareCompletion _ expected evaluation activation reason evidence =>
      (trim evaluation ≠ [] ∧ trim activation ≠ [] ∧ trim reason ≠ []) ∧
      same_intent (trim evaluation) (trim activation) (trim reason) evidence r = false ∧
      or_revision r = expected ∧ or_status r = ObjActive ∧ or_wait_condition r = None ∧
      or_active_evaluation_id r = Some (trim evaluation) ∧ or_completion_intent r = None ∧ expected < 2 ^ 63
  | ClaimEvaluation _ expected evaluation _ => trim evaluation ≠ [] ∧ claim_guard expected now r = true ∧ expected < 2 ^ 63
  | ClaimInterrupt _ expected evaluation _ dependency =>
      (trim evaluation ≠ [] ∧ trim dependency ≠ []) ∧ claim_guard expected now r = true ∧ expected < 2 ^ 63 ∧ or_generation r < 2 ^ 63
  | ClaimWithSignal id expected evaluation _ payload thread =>
      trim evaluation ≠ [] ∧ claim_guard expected now r = true ∧ signal_routed id evaluation payload thread r = true ∧ expected < 2 ^ 63
  | FinishEvaluation _ evaluation tokens seconds =>
      or_active_evaluation_id r = Some evaluation ∧ or_revision r < 2 ^ 63 ∧ tokens < 2 ^ 63 ∧ seconds < 2 ^ 63
  | RenewInterrupt _ evaluation lease dependency =>
      (trim evaluation ≠ [] ∧ trim dependency ≠ []) ∧ (now < lease)%Z ∧ or_generation r < 2 ^ 63
  end.

Lemma is_some_false {A} (o : option A) : is_some o = false ↔ o = None.
Proof. by destruct o. Qed.

Ltac bool_facts :=
  repeat match goal with
  | H : _ || _ = false |- _ => apply orb_false_iff in H as [? H]
  | H : _ && _ = true |- _ => apply andb_true_iff in H as [? H]
  | H : negb _ = false |- _ => apply negb_false_iff in H
  | H : negb _ = true |- _ => apply negb_true_iff in H
  | H : bool_decide _ = true |- _ => apply bool_decide_eq_true in H
  | H : bool_decide _ = false |- _ => apply bool_decide_eq_false in H
  | H : (_ =? _) = true |- _ => apply N.eqb_eq in H
  | H : is_some _ = false |- _ => apply is_some_false in H
  | H : (_ =s _) = false |- _ => apply str_eqb_neq in H
  | H : (_ =s _) = true |- _ => apply str_eqb_eq in H
  | H : (_ <=? _)%Z = false |- _ => apply Z.leb_gt in H
  | H : (_ <=? _)%Z = true |- _ => apply Z.leb_le in H
  | H : i64_of _ = Ok _ |- _ => apply i64_of_Ok in H as [??]
  end.

Lemma call_checks_inv c now o r : call_checks c now o = Ok (Proceed r) → o = Some r ∧ checked c now r.
Proof.
  destruct c; simpl; unfold edit_read, amend_read, update_state_read, prepare_read, claim_read, claim_interrupt_read,
    claim_with_signal_read, finish_read, renew_interrupt_read, with_row; intros Hc; res_inv;
    repeat (case_match_in Hc; res_inv); bool_facts; simplify_eq; split_and?; eauto.
  intros Hs. match goal with H : _ && _ = false |- _ => rewrite bool_decide_eq_false_2 in H by done; by apply is_some_false in H end.
Qed.

Lemma call_checks_ok c now r : checked c now r → call_checks c now (Some r) = Ok (Proceed r).
Proof.
  destruct c; simpl; unfold edit_read, amend_read, update_state_read, prepare_read, claim_read, claim_interrupt_read,
    claim_with_signal_read, finish_read, renew_interrupt_read, with_row; intros Hc; destruct_and?;
    repeat match goal with
    | H : ∃ _, _ |- _ => destruct H as [??]
    | H : or_revision _ = _ |- _ => rewrite H
    | H : _ = true |- _ => rewrite H
    | H : _ = false |- _ => rewrite H
    | H : validate_stated_objective _ = Ok _ |- _ => rewrite H
    | H : or_active_evaluation_id _ = Some _ |- _ => rewrite H
    | H : or_status _ = ObjActive |- _ => rewrite H
    | H : or_wait_condition _ = None |- _ => rewrite H
    | H : or_completion_intent _ = None |- _ => rewrite H
    | H : trim _ ≠ [] |- _ => apply str_eqb_neq in H
    | H : (_ < _)%Z |- _ => apply Z.leb_gt in H
    end; rewrite ?N.eqb_refl, ?bool_decide_eq_true_2 by done; simpl;
    try (match goal with |- context [bool_decide (?s = ObjActive)] => destruct (bool_decide_reflect (s = ObjActive)) end;
         [|match goal with H : _ ≠ _ → _ = None |- _ => rewrite H by done end]); simpl;
    rewrite ?i64_of_lt by done; simpl; rewrite ?i64_of_lt by done; simpl; rewrite ?i64_of_lt by done; done.
Qed.

Definition is_claim (c : Call) : bool :=
  match c with ClaimEvaluation _ _ _ _ | ClaimInterrupt _ _ _ _ _ | ClaimWithSignal _ _ _ _ _ _ => true | _ => false end.

Lemma core_fields r r0 :
  core r = core r0 →
  or_revision r = or_revision r0 ∧ or_generation r = or_generation r0 ∧ or_status r = or_status r0 ∧
  or_wait_condition r = or_wait_condition r0 ∧ or_completion_intent r = or_completion_intent r0 ∧
  or_active_evaluation_id r = or_active_evaluation_id r0 ∧ or_context_id r = or_context_id r0 ∧
  or_coordinator_session_id r = or_coordinator_session_id r0.
Proof. unfold core. intros [=]. done. Qed.

Lemma claim_guard_inv expected now r :
  claim_guard expected now r = true ↔
  or_revision r = expected ∧ or_status r = ObjActive ∧ or_completion_intent r = None ∧ lease_live now r = false.
Proof.
  unfold claim_guard. split.
  - intros H. bool_facts. done.
  - intros (-> & -> & -> & ->). by rewrite N.eqb_refl.
Qed.

(** The checks do not read what may change while the revision does not, but for the lease. *)
Lemma checked_core c t t' r r0 :
  core r = core r0 → checked c t r0 → (if is_claim c then lease_live t' r = false else t' = t) → checked c t' r.
Proof.
  intros (E1 & E2 & E3 & E4 & E5 & E6 & E7 & E8)%core_fields Hc Ht.
  destruct c; simpl in *; subst; unfold amend_routed, signal_routed, same_intent in *;
    rewrite ?claim_guard_inv in *; rewrite ?E1, ?E2, ?E3, ?E4, ?E5, ?E6, ?E7, ?E8; naive_solver.
Qed.

(** A statement that was run. *)
Ltac written := match goal with E : _ = ?db |- db_step _ _ ?db => cbv beta zeta in E; try subst db end; simplify_eq.

Section machine.
Context `{WaitText} `{Digest}.

Lemma insert_wait_objectives facts id g w n s c db :
  db_objectives (insert_objective_wait_dependency facts id g w n s c db) = db_objectives db.
Proof. unfold insert_objective_wait_dependency. destruct (objective_wait_dependency_key w). by autorewrite with objdb. Qed.
Lemma insert_wait_waits facts id g w n s c db :
  db_approval_waits (insert_objective_wait_dependency facts id g w n s c db) = db_approval_waits db.
Proof. unfold insert_objective_wait_dependency. destruct (objective_wait_dependency_key w). by autorewrite with objdb. Qed.

(** The dependencies of a wait are apart from the rows. *)
Lemma wait_dependencies_rows facts id expected status wait cause r db :
  let db' := update_wait_dependencies facts id expected status wait cause r db in
  db_objectives db' = db_objectives db ∧ db_approval_waits db' = db_approval_waits db.
Proof.
  unfold update_wait_dependencies. cbv zeta.
  match goal with |- context [if ?b then _ else db] => destruct b end;
    destruct (bool_decide (status = ObjPaused)), wait as [w|]; simpl;
    try match goal with |- context [if ?b then insert_objective_wait_dependency _ _ _ _ _ _ _ _ else _] => destruct b end;
    by rewrite ?insert_wait_objectives, ?insert_wait_waits.
Qed.

Lemma db_step_rows now db db1 db2 :
  db_objectives db2 = db_objectives db1 → db_approval_waits db2 = db_approval_waits db1 →
  db_step now db db1 → db_step now db db2.
Proof. intros Ho Hw Hs id. specialize (Hs id). revert Hs. unfold cell, get_objective. by rewrite Ho, Hw. Qed.

Lemma edit_write_step now id expected stated r db m db' :
  get_objective id db = Some r → objective_terminal (or_status r) = false →
  edit_write id expected stated db = (m, db') → db_step now db db'.
Proof.
  intros Hr Hn [(r0 & Hr0 & _ & -> & E)|[-> ->]]%update_where_inv; [|by apply db_step_same].
  written. eapply db_step_put; eauto. by constructor.
Qed.
Lemma amend_write_step now id expected stated db m db' :
  amend_write id expected stated db = (m, db') → db_step now db db'.
Proof.
  intros [(r0 & Hr0 & Hc & -> & E)|[-> ->]]%update_where_inv; [|by apply db_step_same]. bool_facts.
  written. eapply db_step_put; eauto. by constructor.
Qed.
Lemma update_state_write_step now facts id expected status wait reason cause r db m db' :
  get_objective id db = Some r → can_transition_to (or_status r) status = true → (status ≠ ObjActive → wait = None) →
  update_state_write facts id expected status wait reason cause r db = (m, db') → db_step now db db'.
Proof.
  intros Hr Ht Hw [(r0 & Hr0 & _ & -> & E)|[-> ->]]%update_where_inv; [|by apply db_step_same]. written.
  eapply db_step_rows; [apply wait_dependencies_rows..|]. eapply db_step_put_watched; eauto.
  by apply os_transition.
Qed.
Lemma prepare_write_step now id expected e a reason evidence t db m db' :
  prepare_write id expected e a reason evidence t db = (m, db') → db_step now db db'.
Proof.
  intros [(r0 & Hr0 & Hc & -> & E)|[-> ->]]%update_where_inv; [|by apply db_step_same]. bool_facts.
  written. eapply db_step_put; eauto. by constructor.
Qed.

(** All claims write the same row. *)
Lemma claim_put_step now id e lease t r db :
  get_objective id db = Some r → or_status r = ObjActive → or_completion_intent r = None → (t ≤ now)%Z →
  owner_free t r = true → db_step now db (put_watched id (claim_row e lease r) db).
Proof. intros. eapply db_step_put_watched; eauto. by econstructor. Qed.

Lemma finish_write_step now id e tokens seconds r db m db' :
  get_objective id db = Some r → or_active_evaluation_id r = Some e →
  finish_write id e tokens seconds r db = (m, db') → db_step now db db'.
Proof.
  intros Hr He [(r0 & Hr0 & _ & -> & E)|[-> ->]]%update_where_inv; [|by apply db_step_same]. written.
  eapply db_step_put_watched; eauto.
  match goal with |- objective_step _ ?r _ _ => change (bump_revision _) with (give_back (or_wait_condition r) tokens seconds r) end.
  by eapply os_give_back.
Qed.
Lemma renew_interrupt_write_step now id e lease dependency r db m db' :
  renew_interrupt_write id e lease dependency r db = (m, db') → db_step now db db'.
Proof.
  intros [(r0 & Hr0 & Hc & -> & E)|[-> ->]]%update_where_inv; [|by apply db_step_same]. bool_facts. written.
  match goal with E : or_active_evaluation_id r0 = _ |- _ => rewrite E end.
  match goal with E : db_approval_waits _ !! _ = None |- _ => rename E into Hw end.
  eapply db_step_put; eauto. rewrite Hw. by econstructor.
Qed.

Lemma call_write_step facts c r t1 t now db m db' :
  get_objective (call_id c) db = Some r → checked c t1 r → (t ≤ now)%Z →
  call_write facts c r t db = (m, db') → db_step now db db'.
Proof.
  intros Hr Hc Ht Hw. destruct c; simpl in *; destruct_and?.
  - by eapply edit_write_step.
  - by eapply amend_write_step.
  - by eapply update_state_write_step.
  - by eapply prepare_write_step.
  - apply update_where_inv in Hw as [(r0 & Hr0 & Hc & -> & E)|[-> ->]]; [|by apply db_step_same]. bool_facts. written.
    eapply claim_put_step; eauto; by eapply claim_guard_inv.
  - apply update_where_inv in Hw as [(r0 & Hr0 & Hc & -> & E)|[-> ->]]; [|by apply db_step_same]. bool_facts. written.
    eapply claim_put_step; eauto; by eapply claim_guard_inv.
  - apply update_where_inv in Hw as [(r0 & Hr0 & Hc & -> & E)|[-> ->]]; [|by apply db_step_same]. bool_facts. written.
    eapply claim_put_step; eauto; by eapply claim_guard_inv.
  - by eapply finish_write_step.
  - by eapply renew_interrupt_write_step.
Qed.

(** ** Transactions *)

Lemma db_ok_waits id db : db_ok db → get_objective id db = None → db_approval_waits db !! id = None.
Proof. intros Hok Hn. specialize (Hok id). by rewrite Hn in Hok. Qed.

Lemma db_step_create now id r db db' :
  db_ok db → get_objective id db = None → db_objectives db' = <[id := r]> (db_objectives db) →
  db_approval_waits db' = db_approval_waits db → fresh_cell id (r, None) → db_step now db db'.
Proof.
  intros Hok Hn Ho Hw Hf j. unfold cell, get_objective in *. rewrite Ho, Hw.
  destruct (decide (j = id)) as [->|Hj].
  - rewrite Hn, lookup_insert_eq. simpl. rewrite (db_ok_waits id db Hok Hn). split; [by constructor|done].
  - rewrite lookup_insert_ne by done. split; [constructor|done].
Qed.

Lemma create_objective_inv id context session stated db db' :
  create_objective id context session stated db = Ok db' →
  get_objective id db = None ∧ ∃ s, db' = put id (new_objective id context session s) db.
Proof.
  unfold create_objective. intros E. res_inv. destruct (get_objective id db) eqn:Hn; [done|].
  cbv zeta in E. simplify_eq. eauto.
Qed.

Lemma create_waiting_step now id context session stated group g reason db db' :
  db_ok db → create_waiting_objective id context session stated group g reason db = Ok db' → db_step now db db'.
Proof.
  intros Hok E. unfold create_waiting_objective in E. res_inv.
  match goal with Hc : create_objective _ _ _ _ _ = Ok _ |- _ => apply create_objective_inv in Hc as (Hn & s & ->) end.
  unfold update_where, get_objective, insert_objective_group_dependency. autorewrite with objdb.
  simpl. rewrite lookup_insert_eq. simpl.
  eapply db_step_create; eauto; simpl; autorewrite with objdb; simpl; [apply insert_insert_eq|done|by repeat split].
Qed.

Lemma complete_step now id activation routed primary done directed seconds db :
  db_step now db (complete_objective id activation routed primary done directed seconds db).
Proof.
  unfold complete_objective. destruct (get_objective id db) as [r|] eqn:Hr; [|by apply db_step_same].
  destruct (or_completion_intent r) as [i|] eqn:Hi; [|by apply db_step_same].
  destruct (_ && _) eqn:Hc; [|by apply db_step_same]. bool_facts.
  eapply db_step_put_watched; eauto. by eapply (os_complete _ _ _ i).
Qed.

Lemma release_step now group g objective db : db_step now db (release_group_wait group g objective db).
Proof.
  unfold release_group_wait. destruct objective as [id|]; [|by apply db_step_same].
  destruct (update_where _ _ _ _) as [m db'] eqn:E. apply update_where_inv in E as [(r & Hr & Hc & -> & E)|[-> ->]]; [|by apply db_step_same].
  bool_facts. written. eapply db_step_put; eauto; try done. by econstructor.
Qed.

Lemma bind_step now id expected group g reason db db' :
  bind_group_wait id expected group g reason db = Ok db' → db_step now db db'.
Proof.
  unfold bind_group_wait, insert_objective_group_dependency. intros E. res_inv.
  destruct (get_objective id db) as [r|] eqn:Hr; [|done]. destruct (_ && _) eqn:Hc; [|done]. bool_facts.
  destruct (is_some (or_wait_condition r)) eqn:Hs; simpl in E.
  - destruct (bool_decide _); [|done]. injection E as <-. apply db_step_same; by autorewrite with objdb.
  - bool_facts. injection E as <-.
    eapply db_step_rows; [apply insert_dependency_objectives|apply insert_dependency_waits|].
    eapply db_step_put; eauto. by constructor.
Qed.

Lemma promote_step now id expected group g reason db db' :
  promote_group_wait id expected group g reason db = Ok db' → db_step now db db'.
Proof.
  unfold promote_group_wait, insert_objective_group_dependency. intros E. res_inv.
  destruct (get_objective id db) as [r|] eqn:Hr; [|done]. destruct (_ && _) eqn:Hc; [|done]. bool_facts.
  destruct (negb _); [done|]. injection E as <-.
  eapply db_step_put; eauto; [by autorewrite with objdb..|]. by constructor.
Qed.

Lemma insert_unique_rows d db db' :
  insert_unique d db = Ok db' → db_objectives db' = db_objectives db ∧ db_approval_waits db' = db_approval_waits db.
Proof. unfold insert_unique. destruct (existsb _ _); [done|]. intros [= <-]. by autorewrite with objdb. Qed.

Lemma ask_step now thread g request objective seconds owner db db' :
  ask_question thread g request objective seconds owner db = Ok db' → db_step now db db'.
Proof.
  unfold ask_question. intros E. cbv zeta in E. apply bind_Ok in E as (db1 & [Ho1 Hw1]%insert_unique_rows & E). simpl in Ho1, Hw1.
  destruct objective as [[[[id gen] e] session]|]; [|injection E as <-; by apply db_step_same].
  destruct (get_objective id db1) as [r|] eqn:Hr; [|done]. destruct (_ && _) eqn:Hc; [|done].
  apply bind_Ok in E as (db2 & [Ho2 Hw2]%insert_unique_rows & E). simpl in Ho2, Hw2. bool_facts. injection E as <-.
  eapply (db_step_put_watched _ _ r); unfold get_objective in *; [congruence..|].
  by eapply (os_give_back _ _ _ e).
Qed.

Lemma park_step now t id e activation dependency owner uncovered db db' :
  park_if_covered id e activation dependency owner uncovered t db = Ok db' → db_step now db db'.
Proof.
  unfold park_if_covered. intros E. destruct (get_objective id db) as [r|] eqn:Hr; [|done].
  destruct (negb _) eqn:Hc; [done|]. destruct (_ || _) eqn:Hl; [done|]. destruct (negb (dependency_matches _ _ _ _)); [done|].
  destruct uncovered; [injection E as <-; by apply db_step_same|]. destruct (is_some (db_approval_waits db !! id)) eqn:Hw; [done|].
  bool_facts. unfold lease_live in *. destruct (or_lease_expires_at r) as [l|] eqn:El; [|done]. injection E as <-.
  eapply db_step_at; eauto; simpl; [by intros; rewrite lookup_insert_ne|].
  rewrite lookup_insert_eq. match goal with H : or_active_evaluation_id r = _ |- _ => rewrite H end. by econstructor.
Qed.

Lemma admit_step now t id e dependency lease owner thread_open running routed db m db' :
  admit_approval_objective id e dependency lease owner thread_open running routed t db = Ok (m, db') → db_step now db db'.
Proof.
  unfold admit_approval_objective. intros E. destruct (get_objective id db) as [r|] eqn:Hr; [|injection E as _ <-; by apply db_step_same].
  destruct (negb _) eqn:Hc; [injection E as _ <-; by apply db_step_same|].
  destruct (negb owner); [done|]. destruct (negb thread_open); [injection E as _ <-; by apply db_step_same|].
  destruct (negb running || _); [done|]. destruct (negb routed); [done|].
  bool_facts. destruct (db_approval_waits db !! id) as [a|] eqn:Ha; [destruct (_ && _)|];
    [|destruct (lease_live t r); injection E as _ <-; by apply db_step_same..].
  destruct (negb (dependency_matches _ _ _ _)); [injection E as _ <-; by apply db_step_same|].
  destruct (is_some (or_lease_expires_at r)) eqn:Hl; [done|]. bool_facts. cbv zeta in E. simplify_eq.
  eapply db_step_at; eauto; simpl; [by intros; rewrite lookup_delete_ne|].
  rewrite lookup_delete_eq. match goal with H : or_active_evaluation_id r = _ |- _ => rewrite H end. by econstructor.
Qed.

Lemma tx_step t now db o db' : db_ok db → tx_apply t db o db' → db_step now db db'.
Proof.
  intros Hok Htx. destruct Htx.
  - match goal with Hc : create_objective _ _ _ _ _ = Ok _ |- _ => apply create_objective_inv in Hc as (Hn & s & ->) end.
    eapply db_step_create; eauto; by repeat split.
  - unfold renew_objective_evaluation in *. repeat (case_match; [done|]). simplify_eq.
    match goal with H : update_where _ _ _ _ = _ |- _ => apply update_where_inv in H as [(r & Hr & Hc & -> & E)|[-> ->]] end; [|by apply db_step_same].
    bool_facts. written. match goal with H : or_active_evaluation_id r = _ |- _ => rewrite H end.
    match goal with E : db_approval_waits _ !! _ = None |- _ => rename E into Hw end.
    eapply db_step_put; eauto. rewrite Hw. by econstructor.
  - unfold record_objective_evaluation_usage in *. res_inv.
    match goal with H : update_where _ _ _ _ = _ |- _ => apply update_where_inv in H as [(r & Hr & Hc & -> & E)|[-> ->]] end; [|by apply db_step_same].
    bool_facts. written. eapply db_step_put; eauto. by constructor.
  - apply complete_step.
  - apply release_step.
  - by eapply bind_step.
  - by eapply create_waiting_step.
  - by eapply promote_step.
  - by eapply ask_step.
  - by eapply park_step.
  - by eapply admit_step.
  - by apply db_step_same.
  - by apply db_step_same.
Qed.

Lemma at_step_db now now' db db' : db_ok db → at_step (now, db) (now', db') → db_step now' db db'.
Proof.
  intros Hok Hs. inversion Hs as [? ? ? ? | ? t1 t2 ? c facts m ? H1 H2 Hc | ? t ? ? ? Ht Htx]; subst.
  - by apply db_step_same.
  - unfold call in Hc. apply bind_Ok in Hc as ([m'|r] & Hread & Hw); [injection Hw as _ <-; by apply db_step_same|].
    apply call_checks_inv in Hread as [Hr Hchecked]. destruct (call_write _ _ _ _ _) as [written db1] eqn:E.
    apply bind_Ok in Hw as (m' & _ & [= _ <-]). by eapply call_write_step.
  - by eapply tx_step.
Qed.

Lemma db_ok_step now db db' : db_ok db → db_step now db db' → db_ok db'.
Proof.
  intros Hok Hs id. specialize (Hok id). destruct (Hs id) as [Hc Hn]. unfold cell in Hc.
  destruct (get_objective id db') as [r'|] eqn:E'.
  - destruct (get_objective id db) as [r|] eqn:E; simpl in Hc; inversion Hc; subst.
    + done.
    + destruct Hok as [Hid Hok]. split; [|by eapply (cell_ok_step now r)].
      match goal with Hst : objective_step _ _ _ _ |- _ => apply step_id in Hst; simpl in Hst; congruence end.
    + match goal with Hf : fresh_cell _ _ |- _ => split; [apply Hf|by eapply fresh_ok] end.
  - rewrite (Hn eq_refl). destruct (get_objective id db) as [r|] eqn:E; [by inversion Hc|done].
Qed.

(** ** Interleaving *)

(** A call that waits to be written holds a row that it checked; the objective has changed since
    exactly when its revision has, but for its lease and its tokens. *)
Definition pending_ok (now : Z) (db : Db) (p : PendingCall) : Prop :=
  checked (pc_call p) (pc_read_at p) (pc_current p) ∧ (pc_read_at p ≤ now)%Z ∧
  ∃ r, get_objective (call_id (pc_call p)) db = Some r ∧ or_revision (pc_current p) ≤ or_revision r ∧
       (or_revision r = or_revision (pc_current p) → core r = core (pc_current p)).

Lemma pending_ok_step now now' db db' p : (now ≤ now')%Z → db_step now' db db' → pending_ok now db p → pending_ok now' db' p.
Proof.
  intros Hn Hs (Hc & Ht & r & Hr & Hle & Heq). split; [done|]. split; [lia|].
  destruct (Hs (call_id (pc_call p))) as [Hcell _]. unfold cell in Hcell. rewrite Hr in Hcell. simpl in Hcell.
  destruct (get_objective _ db') as [r'|] eqn:Hr'; [|by inversion Hcell]. exists r'. split; [done|].
  inversion Hcell as [|?|? ? ? Hstep]; subst; [done|]. apply step_core in Hstep as [E|E]; simpl in E; [split; [lia|intros; lia]|].
  destruct (core_fields _ _ E) as (E1 & _). rewrite E1, E. done.
Qed.

Lemma owner_free_lease t r w : cell_ok (r, w) → owner_free t r = true → lease_live t r = false.
Proof.
  intros (_ & Hl & _) [Hn|(l & El & Hle)]%owner_free_inv; unfold lease_live; [by rewrite (Hl Hn)|].
  rewrite El. by apply Z.ltb_ge.
Qed.

Lemma update_state_write_core facts id expected status wait reason cause r r0 db :
  core r = core r0 →
  update_state_write facts id expected status wait reason cause r db = update_state_write facts id expected status wait reason cause r0 db.
Proof.
  intros (_ & E2 & E3 & E4 & _)%core_fields.
  unfold update_state_write, update_wait_dependencies, resumes, resource_cause_changed. by rewrite E2, E3, E4.
Qed.

(** What a statement writes depends only on what cannot have changed while the revision did not. *)
Lemma call_write_core facts c r r0 t db : core r = core r0 → call_write facts c r t db = call_write facts c r0 t db.
Proof.
  intros E. destruct (core_fields _ _ E) as (E1 & E2 & _). destruct c; cbn [call_write]; try done.
  - by apply update_state_write_core.
  - unfold claim_interrupt_write. by rewrite E2.
  - unfold finish_write. by rewrite E1.
  - unfold renew_interrupt_write. by rewrite E2.
Qed.

Lemma update_where_refused id cond write db r :
  get_objective id db = Some r → cond r = false → update_where id cond write db = (false, db).
Proof. unfold update_where. by intros -> ->. Qed.

(** While a lease is alive no claim is written. *)
Lemma live_claim_refused facts c r r0 t db :
  get_objective (call_id c) db = Some r → cell_ok (r, db_approval_waits db !! call_id c) →
  is_claim c = true → lease_live t r = true → call_write facts c r0 t db = (false, db).
Proof.
  intros Hr Hok Hc Hl. assert (owner_free t r = false) as Hf.
  { destruct (owner_free t r) eqn:E; [|done]. apply (owner_free_lease _ _ _ Hok) in E. congruence. }
  destruct c; try done; apply update_where_refused with (r := r); try done; by rewrite Hf, andb_false_r.
Qed.

(** The row has another revision than the one that was read: only a renewal is still written, and for
    the generation that was read. *)
Lemma call_write_moved facts c r r0 t t0 db written db' :
  get_objective (call_id c) db = Some r → checked c t0 r0 → or_revision r ≠ or_revision r0 →
  call_write facts c r0 t db = (written, db') →
  (written, db') = (false, db) ∨ (checked c t0 r ∧ call_write facts c r t db = (written, db')).
Proof.
  intros Hr Hc Hne Hw. rewrite <- Hw. destruct c; cbn [call_write call_id checked] in *; destruct_and?;
    try (left; apply update_where_refused with (r := r); [done|]; subst;
         match goal with |- context [or_revision r =? ?x] => assert (or_revision r =? x = false) as -> by (apply N.eqb_neq; naive_solver) end;
         by simpl).
  - left. apply update_where_refused with (r := r); [done|].
    match goal with H : claim_guard _ _ _ = true |- _ => apply claim_guard_inv in H as (<- & _) end. by apply N.eqb_neq in Hne as ->.
  - left. apply update_where_refused with (r := r); [done|].
    match goal with H : claim_guard _ _ _ = true |- _ => apply claim_guard_inv in H as (<- & _) end. by apply N.eqb_neq in Hne as ->.
  - left. apply update_where_refused with (r := r); [done|].
    match goal with H : claim_guard _ _ _ = true |- _ => apply claim_guard_inv in H as (<- & _) end. by apply N.eqb_neq in Hne as ->.
  - destruct (decide (or_generation r0 = or_generation r)) as [E|E].
    + right. rewrite <- E. split; [done|]. unfold renew_interrupt_write. by rewrite E.
    + left. apply update_where_refused with (r := r); [done|]. rewrite andb_false_iff. left. rewrite andb_false_iff. right.
      unfold exists_dependency. apply not_true_iff_false. intros (d & _ & Hd)%existsb_exists. bool_facts. done.
Qed.

(** The answer of a call that is read at once. *)
Definition answer (written : bool) (r : ObjectiveRow) : ObjectiveMutation := if written then Updated r else Conflict r.

(** The statement does what the whole call would do now, and the whole call answers with the row that
    the statement leaves. *)
Definition as_whole_call (facts : Facts) (c : Call) (t : Z) (db : Db) (w : Writing) : Prop :=
  ∃ t1 r, (t1 ≤ t)%Z ∧ get_objective (call_id c) w.2 = Some r ∧ call facts c t1 t db = Ok (answer w.1 r, w.2).

Lemma step_there now db db' id : db_step now db db' → is_Some (get_objective id db) → is_Some (get_objective id db').
Proof.
  intros Hs [r Hr]. destruct (Hs id) as [Hc _]. unfold cell in Hc. rewrite Hr in Hc.
  destruct (get_objective id db'); [done|]. by inversion Hc.
Qed.

Lemma call_proceeds facts c t1 t r db :
  get_objective (call_id c) db = Some r → checked c t1 r → (t1 ≤ t)%Z → as_whole_call facts c t db (call_write facts c r t db).
Proof.
  intros Hr Hc Ht. destruct (call_write facts c r t db) as [written db'] eqn:E.
  assert (is_Some (get_objective (call_id c) db')) as [r' Hr'].
  { eapply step_there; [|by exists r]. by eapply (call_write_step _ _ _ _ t t). }
  exists t1, r'. split; [done|]. split; [done|].
  unfold call, call_read. rewrite Hr, (call_checks_ok _ _ _ Hc). simpl. rewrite E. unfold read_answer. by rewrite Hr'.
Qed.

Lemma live_claim_conflicts facts c r r0 t t0 db :
  get_objective (call_id c) db = Some r → is_claim c = true → checked c t0 r0 → lease_live t r = true →
  as_whole_call facts c t db (false, db).
Proof.
  intros Hr Hc Hck Hl. exists t, r. split; [lia|]. split; [done|]. unfold call, call_read. rewrite Hr.
  assert (Hg : ∀ expected, claim_guard expected t r = false).
  { intros expected. apply not_true_iff_false. intros (_ & _ & _ & ?)%claim_guard_inv. congruence. }
  destruct c; try done; simpl in *; destruct_and?;
    repeat match goal with H : trim _ ≠ [] |- _ => apply str_eqb_neq in H end;
    unfold claim_read, claim_interrupt_read, claim_with_signal_read, with_row;
    repeat match goal with H : (trim _ =s []) = false |- _ => rewrite H; clear H end; simpl; by rewrite Hg.
Qed.

(** The statement of a call that was interrupted does what the whole call would do now, unless it
    finds another revision and writes nothing. *)
Lemma call_write_atomic now facts p t db :
  db_ok db → pending_ok now db p → (pc_read_at p ≤ t)%Z →
  let w := call_write facts (pc_call p) (pc_current p) t db in
  as_whole_call facts (pc_call p) t db w ∨
  (w = (false, db) ∧ ∃ r, get_objective (call_id (pc_call p)) db = Some r ∧ or_revision (pc_current p) < or_revision r).
Proof.
  intros Hok (Hc & Ht & r & Hr & Hrev & Hcore) Hle w. set (c := pc_call p) in *. set (r0 := pc_current p) in *.
  specialize (Hok (call_id c)). rewrite Hr in Hok. destruct Hok as [_ Hok].
  destruct (decide (or_revision r = or_revision r0)) as [E|E].
  - left. specialize (Hcore E). unfold w. rewrite <- (call_write_core _ _ _ _ _ _ Hcore).
    destruct (is_claim c) eqn:Hcl; [destruct (lease_live t r) eqn:Hl|].
    + rewrite (live_claim_refused facts c r r t db Hr Hok Hcl Hl). by apply live_claim_conflicts with (t0 := pc_read_at p) (r := r) (r0 := r0).
    + apply (call_proceeds _ _ t); [done| |lia]. eapply checked_core; eauto. by rewrite Hcl.
    + apply (call_proceeds _ _ (pc_read_at p)); [done| |done]. eapply checked_core; eauto. by rewrite Hcl.
  - destruct w as [written db'] eqn:Hw. destruct (call_write_moved _ _ _ _ _ _ _ _ _ Hr Hc E Hw) as [[= -> ->]|[Hc' Hw']].
    + right. split; [done|]. exists r. split; [done|lia].
    + left. rewrite <- Hw'. by apply (call_proceeds _ _ (pc_read_at p)).
Qed.

(** ** Answers *)

(** What may have become of a row since. *)
Definition later (r0 r : ObjectiveRow) : Prop :=
  or_revision r0 ≤ or_revision r ∧ or_generation r0 ≤ or_generation r ∧
  (objective_terminal (or_status r0) = true → or_status r = or_status r0) ∧
  (or_revision r = or_revision r0 → core r = core r0).

Lemma later_refl r : later r r.
Proof. done. Qed.

Lemma later_step now r0 r w c : later r0 r → objective_step now r w c → later r0 c.1.
Proof.
  intros (H1 & H2 & H3 & H4) Hs. assert (or_generation r ≤ or_generation c.1 ∧ (objective_terminal (or_status r) = true → or_status c.1 = or_status r)) as [Hg Ht].
  { destruct Hs; simpl; try (split; [lia|done]); (split; [lia|]); [by destruct (or_status r)|].
    match goal with H : or_status r = ObjActive |- _ => by rewrite H end. }
  split; [|split; [lia|split]].
  - apply step_core in Hs as [E|(E & _)%core_fields]; lia.
  - intros Hterm. rewrite <- (H3 Hterm). apply Ht. by rewrite H3.
  - apply step_core in Hs as [E|E]; [lia|]. intros Er. rewrite E. apply H4. destruct (core_fields _ _ E) as (E1 & _). lia.
Qed.

(** The row that a call has to answer with is still there, or a later one. *)
Definition answer_ok (db : Db) (a : PendingAnswer) : Prop :=
  match pa_row a with
  | Some r0 => ∃ r, get_objective (pa_id a) db = Some r ∧ later r0 r
  | None => pa_written a = false
  end.

Lemma answer_ok_step now db db' a : db_step now db db' → answer_ok db a → answer_ok db' a.
Proof.
  intros Hs. unfold answer_ok. destruct (pa_row a) as [r0|]; [|done]. intros (r & Hr & Hl).
  destruct (Hs (pa_id a)) as [Hcell _]. unfold cell in Hcell. rewrite Hr in Hcell. simpl in Hcell.
  destruct (get_objective _ db') as [r'|] eqn:Hr'; [|by inversion Hcell]. exists r'. split; [done|].
  inversion Hcell as [|?|? ? ? Hstep]; subst; [done|]. by apply (later_step _ _ _ _ _ Hl) in Hstep.
Qed.

Lemma unanswered_ok id written db : (written = true → is_Some (get_objective id db)) → answer_ok db (unanswered id written db).
Proof.
  intros Hw. unfold answer_ok. simpl. destruct (get_objective id db) as [r|] eqn:E; [by exists r|].
  destruct written; [|done]. by destruct (Hw eq_refl).
Qed.

Lemma tx_written t db id written db' :
  db_ok db → tx_apply t db (Some (id, written)) db' → written = true → is_Some (get_objective id db').
Proof.
  intros Hok Htx ->. pose proof (tx_step _ t _ _ _ Hok Htx) as Hs. inversion Htx as [? ? ? ? ? Hc|? ? ? ? ? Hc|? ? ? ? ? Hc| | | | | | | | | |]; subst.
  - apply create_objective_inv in Hc as (_ & s & ->). unfold get_objective. simpl. rewrite lookup_insert_eq. done.
  - unfold renew_objective_evaluation in Hc. repeat (case_match; [done|]). injection Hc as Hc.
    apply update_where_inv in Hc as [(r & Hr & _)|[? _]]; [|done]. eapply step_there; [exact Hs|by exists r].
  - unfold record_objective_evaluation_usage in Hc. res_inv.
    match goal with H : update_where _ _ _ _ = _ |- _ => apply update_where_inv in H as [(r & Hr & _)|[? _]] end; [|done].
    eapply step_there; [exact Hs|by exists r].
Qed.

(** ** The system *)

Definition sys_ok (s : Sys) : Prop :=
  db_ok (sys_db s) ∧ Forall (pending_ok (sys_now s) (sys_db s)) (sys_pending s) ∧ Forall (answer_ok (sys_db s)) (sys_answers s).

Lemma sys_step_atomic s s' :
  sys_ok s → sys_step s s' →
  (sys_now s', sys_db s') = (sys_now s, sys_db s) ∨ at_step (sys_now s, sys_db s) (sys_now s', sys_db s').
Proof.
  intros (Hok & Hp & _) Hs.
  destruct Hs as [now now' db l a Hle|now db l a c r Hread|now t db l1 l2 a p facts written db' H1 H2 Hw|now t db l a o db' Ht Htx|]; simpl in *.
  - right. by constructor.
  - by left.
  - apply Forall_app in Hp as [_ Hp]. apply Forall_cons in Hp as [Hp _].
    destruct (call_write_atomic now facts p t db Hok Hp H1) as [(t1 & r & Ht & _ & Hc)|[E _]]; rewrite Hw in *; [|left; congruence].
    right. by eapply at_call.
  - right. by eapply at_tx.
  - by left.
Qed.

Lemma call_written facts p now t db written db' :
  db_ok db → pending_ok now db p → (pc_read_at p ≤ t)%Z →
  call_write facts (pc_call p) (pc_current p) t db = (written, db') → is_Some (get_objective (call_id (pc_call p)) db').
Proof.
  intros Hok Hp Ht Hw. destruct (call_write_atomic now facts p t db Hok Hp Ht) as [(t1 & r & _ & Hr & _)|[E (r & Hr & _)]]; rewrite Hw in *.
  - by exists r.
  - injection E as _ ->. by exists r.
Qed.

Lemma sys_ok_step s s' : sys_ok s → sys_step s s' → sys_ok s' ∧ db_step (sys_now s') (sys_db s) (sys_db s').
Proof.
  intros Hok Hs.
  assert (Hd : db_step (sys_now s') (sys_db s) (sys_db s')).
  { destruct (sys_step_atomic s s' Hok Hs) as [[= _ ->]|Ha]; [by apply db_step_same|].
    eapply at_step_db; [apply Hok|done]. }
  split; [|done]. destruct Hok as (Hdb & Hp & Ha). split; [by eapply db_ok_step|].
  assert (Hle : (sys_now s ≤ sys_now s')%Z) by (destruct Hs; simpl; lia).
  assert (Hp' : Forall (pending_ok (sys_now s') (sys_db s')) (sys_pending s))
    by (eapply Forall_impl; [exact Hp|intros p; by apply pending_ok_step]).
  assert (Ha' : Forall (answer_ok (sys_db s')) (sys_answers s))
    by (eapply Forall_impl; [exact Ha|intros a; by eapply answer_ok_step]).
  destruct Hs as [|now db l a c r Hread|now t db l1 l2 a p facts written db' H1 H2 Hw|now t db l a o db' Ht Htx|]; simpl in *; try done.
  - split; [|done]. constructor; [|done]. apply call_checks_inv in Hread as [Hr Hc]. split; [done|]. split; [simpl; lia|]. exists r. done.
  - apply Forall_app in Hp as [_ Hp]. apply Forall_cons in Hp as [Hp _].
    split; [apply Forall_app in Hp' as [Hp1 Hp2]; apply Forall_cons in Hp2 as [_ Hp2]; by apply Forall_app|].
    constructor; [|done]. apply unanswered_ok. intros _. by eapply call_written.
  - split; [done|]. destruct o as [[id written]|]; [|done]. constructor; [|done]. apply unanswered_ok. intros Hw. by eapply tx_written.
  - split; [done|]. apply Forall_app in Ha' as [Ha1 Ha2]. apply Forall_cons in Ha2 as [_ Ha2]. by apply Forall_app.
Qed.
End machine.
