(* ===== verification/ObjectiveLife.v ===== *)
(** * What the lifecycle of objectives guarantees

    Theorems on every run of the interleaved system of [Objectives], from the machine of one
    objective in [ObjectiveFacts]: interleaved calls behave as uninterrupted ones, terminal statuses
    are final and generations count resumptions, owners are replaced only after their lease and
    stale owners change nothing, and claims agree with the readiness that the scheduler derives. *)

From stdpp Require Import base list gmap strings relations.
From Stdlib Require Import NArith ZArith Lia.
From S2P Require Import Prelude JsonValue Text ThreadGroups ThreadGroupFacts Scheduler SchedulerFacts Objectives ObjectiveFacts.

Local Open Scope N_scope.

Definition start (now : Z) : Sys := mkSys now empty_db [] [].

(** ** Helpers *)

Section runs.
Context `{WaitText} `{Digest}.

Lemma start_ok now : sys_ok (start now).
Proof. split; [|by split; constructor]. intros id. unfold get_objective. simpl. by rewrite !lookup_empty. Qed.

Lemma run_ok s s' : sys_ok s → rtc sys_step s s' → sys_ok s'.
Proof. intros Hok Hs. induction Hs; [done|]. apply IHHs. by eapply sys_ok_step. Qed.

Lemma reachable_sys_ok now s : rtc sys_step (start now) s → sys_ok s.
Proof. apply run_ok, start_ok. Qed.

Lemma run_atomic s s' : sys_ok s → rtc sys_step s s' → rtc at_step (sys_now s, sys_db s) (sys_now s', sys_db s').
Proof.
  intros Hok Hs. induction Hs as [|s1 s2 s3 H1 H2 IH]; [constructor|].
  destruct (sys_ok_step _ _ Hok H1) as [Hok2 _]. specialize (IH Hok2).
  destruct (sys_step_atomic _ _ Hok H1) as [E|Ha]; [by rewrite <- E|by eapply rtc_l].
Qed.

Lemma row_step s s' id r :
  sys_ok s → sys_step s s' → get_objective id (sys_db s) = Some r →
  ∃ r', get_objective id (sys_db s') = Some r' ∧
    ((r', db_approval_waits (sys_db s') !! id) = (r, db_approval_waits (sys_db s) !! id) ∨
     objective_step (sys_now s') r (db_approval_waits (sys_db s) !! id) (r', db_approval_waits (sys_db s') !! id)).
Proof.
  intros Hok Hs Hr. destruct (sys_ok_step s s' Hok Hs) as [_ Hd]. destruct (Hd id) as [Hc _]. unfold cell in Hc.
  rewrite Hr in Hc. simpl in Hc. destruct (get_objective id (sys_db s')) as [r'|]; [|by inversion Hc]. exists r'. split; [done|].
  inversion Hc; subst; [left; congruence|by right].
Qed.

(** ** Steps of one objective *)

Definition same_life (r r' : ObjectiveRow) : Prop :=
  or_revision r ≤ or_revision r' ∧
  or_generation r' = or_generation r + (if resumes r (or_status r') then 1 else 0) ∧
  (objective_terminal (or_status r) = true → or_status r' = or_status r).

Lemma resumes_same r : resumes r (or_status r) = false.
Proof. unfold resumes. by destruct (or_status r). Qed.

Lemma step_life now r w c : objective_step now r w c → same_life r c.1.
Proof.
  destruct 1; unfold same_life; simpl; rewrite ?resumes_same, ?N.add_0_r;
    try (split; [lia|split; [done|done]]).
  - split; [lia|]. split; [done|]. by destruct (or_status r).
  - split; [lia|]. unfold resumes. rewrite H1. split; [simpl; lia|done].
Qed.

Lemma step_owner now r w c e e' :
  objective_step now r w c → or_active_evaluation_id r = Some e → or_active_evaluation_id c.1 = Some e' → e' ≠ e →
  or_status r = ObjActive ∧ or_completion_intent r = None ∧ or_revision c.1 = or_revision r + 1 ∧
  ∃ l, or_lease_expires_at r = Some l ∧ (l ≤ now)%Z.
Proof.
  intros Hs He He' Hne. destruct Hs; simpl in He'; try congruence.
  match goal with Ho : owner_free _ _ = true |- _ => apply owner_free_inv in Ho as [?|(l & ? & ?)] end; [congruence|].
  split_and!; try done. exists l. split; [done|lia].
Qed.

(** ** Building runs *)

Lemma run_tick n now now' db l a :
  rtc sys_step (start n) (mkSys now db l a) → (now ≤ now')%Z → rtc sys_step (start n) (mkSys now' db l a).
Proof. intros Hs ?. eapply rtc_r; [exact Hs|]. by constructor. Qed.

Lemma run_tx n now db db' l a o :
  rtc sys_step (start n) (mkSys now db l a) → tx_apply now db o db' → ∃ a', rtc sys_step (start n) (mkSys now db' l a').
Proof. intros Hs ?. eexists. eapply rtc_r; [exact Hs|]. eapply sys_tx; [|done]. lia. Qed.

Lemma run_read n now db l a c r :
  rtc sys_step (start n) (mkSys now db l a) → call_read c now db = Ok (Proceed r) →
  rtc sys_step (start n) (mkSys now db (mkPending c r now :: l) a).
Proof. intros Hs ?. eapply rtc_r; [exact Hs|]. by constructor. Qed.

Lemma run_write n now db l a p facts written db' :
  rtc sys_step (start n) (mkSys now db (p :: l) a) → (pc_read_at p ≤ now)%Z →
  call_write facts (pc_call p) (pc_current p) now db = (written, db') →
  rtc sys_step (start n) (mkSys now db' l (unanswered (call_id (pc_call p)) written db' :: a)).
Proof. intros Hs ? Hw. eapply rtc_r; [exact Hs|]. apply (sys_write now now db [] l a p facts); [done|lia|exact Hw]. Qed.

Lemma run_answer n now db l a b :
  rtc sys_step (start n) (mkSys now db l (b :: a)) → rtc sys_step (start n) (mkSys now db l a).
Proof. intros Hs. eapply rtc_r; [exact Hs|]. by eapply (sys_answer now db l [] b a). Qed.

(** The answers that a run still has to read can be read. *)
Lemma run_answers n now db l a : rtc sys_step (start n) (mkSys now db l a) → rtc sys_step (start n) (mkSys now db l []).
Proof. induction a as [|b a IH]; [done|]. intros Hs. by apply IH, run_answer with (b := b). Qed.

Lemma run_done n now db db' l o :
  rtc sys_step (start n) (mkSys now db l []) → tx_apply now db o db' → rtc sys_step (start n) (mkSys now db' l []).
Proof. intros Hs Htx. destruct (run_tx _ _ _ _ _ _ _ Hs Htx) as [a Ha]. by eapply run_answers. Qed.

Lemma run_call n now db db' l c facts m :
  rtc sys_step (start n) (mkSys now db l []) → call facts c now now db = Ok (m, db') → rtc sys_step (start n) (mkSys now db' l []).
Proof.
  intros Hs Hc. unfold call in Hc. apply bind_Ok in Hc as ([?|r] & Hr & Hw); [by injection Hw as _ <-|].
  destruct (call_write facts c r now db) as [written db1] eqn:E. apply bind_Ok in Hw as (m' & _ & [= _ <-]).
  apply (run_answers n now db1 l [unanswered (call_id c) written db1]).
  eapply (run_write n now db l [] (mkPending c r now) facts); [by apply run_read|simpl; lia|exact E].
Qed.

(** ** Properties *)

(** C17. Interleaving.  A call has three parts that other calls can come between: the read that decides, the
    statement that writes, and the query for the answer.  Whatever calls run at the same time: (1) the
    database is one that calls without interruption reach; (2) the statement of a call that waited
    has the effect of the whole call run at that moment, which would answer [Updated] with the row
    the statement leaves if it wrote and [Conflict] with the present row if not, or else the revision
    is past the one that was read and the statement writes nothing; (3) the query of a call whose
    statement ran never fails and never misses the row: it answers [Updated] exactly when the
    statement wrote and [Conflict] otherwise, with the row as it is then, which is the row the
    statement left or a later one that other calls have written (its revision and generation are no
    less, a terminal status is kept, and under the same revision at most the lease and the tokens
    differ), so that the row in an [Updated] answer need not be the one this call wrote.  Where the
    statement found no row at all, it wrote none. *)
Theorem interleaving_refines_atomic now s :
  rtc sys_step (start now) s →
  rtc at_step (now, empty_db) (sys_now s, sys_db s) ∧
  (∀ p facts t, p ∈ sys_pending s → (pc_read_at p ≤ t)%Z →
     let w := call_write facts (pc_call p) (pc_current p) t (sys_db s) in
     (∃ t1 r, (t1 ≤ t)%Z ∧ get_objective (call_id (pc_call p)) w.2 = Some r ∧
        call facts (pc_call p) t1 t (sys_db s) = Ok (if w.1 then Updated r else Conflict r, w.2)) ∨
     (w = (false, sys_db s) ∧
      ∃ r, get_objective (call_id (pc_call p)) (sys_db s) = Some r ∧ or_revision (pc_current p) < or_revision r)) ∧
  (∀ a, a ∈ sys_answers s →
     match pa_row a with
     | Some r0 => ∃ r, get_objective (pa_id a) (sys_db s) = Some r ∧
         read_answer (pa_id a) (pa_written a) (sys_db s) = Ok (if pa_written a then Updated r else Conflict r) ∧
         or_revision r0 ≤ or_revision r ∧ or_generation r0 ≤ or_generation r ∧
         (objective_terminal (or_status r0) = true → or_status r = or_status r0) ∧
         (or_revision r = or_revision r0 → core r = core r0)
     | None => pa_written a = false
     end).
Proof.
  intros Hs. split; [exact (run_atomic _ _ (start_ok now) Hs)|]. destruct (reachable_sys_ok _ _ Hs) as (Hok & Hl & Ha). split.
  - intros p facts t Hp Ht. rewrite Forall_forall in Hl. by eapply call_write_atomic, Ht; [|apply Hl].
  - intros a Hin. rewrite Forall_forall in Ha. specialize (Ha a Hin). unfold answer_ok in Ha.
    destruct (pa_row a) as [r0|]; [|done]. destruct Ha as (r & Hr & Hlater). exists r. split; [done|]. split; [|done].
    unfold read_answer. by rewrite Hr.
Qed.

(** C21. The rows of objectives are sound in every reachable state: a parked objective is active, its
    checkpoint names its owner and its generation, and it has no lease; an objective without an owner
    has no lease; a completion intent is of the present owner of an active objective; only active
    objectives wait; and the generation is at least 1 and at most the revision.  Nothing but
    an objective is parked. *)
Theorem objective_rows_sound now s id :
  rtc sys_step (start now) s →
  match get_objective id (sys_db s) with
  | Some r =>
      (∀ a, db_approval_waits (sys_db s) !! id = Some a →
         or_status r = ObjActive ∧ or_active_evaluation_id r = Some (aw_evaluation_id a) ∧
         or_generation r = aw_objective_generation a ∧ or_lease_expires_at r = None) ∧
      (or_active_evaluation_id r = None → or_lease_expires_at r = None) ∧
      (∀ i, or_completion_intent r = Some i →
         or_status r = ObjActive ∧ or_active_evaluation_id r = Some (intent_evaluation i)) ∧
      (or_status r ≠ ObjActive → or_wait_condition r = None) ∧
      or_id r = id ∧ 1 ≤ or_generation r ≤ or_revision r
  | None => db_approval_waits (sys_db s) !! id = None
  end.
Proof.
  intros Hs. destruct (reachable_sys_ok _ _ Hs) as [Hok _]. specialize (Hok id).
  destruct (get_objective id (sys_db s)) as [r|]; [|done]. by destruct Hok as (? & ? & ? & ? & ? & ?).
Qed.

Lemma run_life s s' id r :
  sys_ok s → rtc sys_step s s' → get_objective id (sys_db s) = Some r →
  ∃ r', get_objective id (sys_db s') = Some r' ∧ or_revision r ≤ or_revision r' ∧ or_generation r ≤ or_generation r' ∧
        (objective_terminal (or_status r) = true → or_status r' = or_status r).
Proof.
  intros Hok Hs. revert r. induction Hs as [s|s1 s2 s3 H1 H2 IH]; intros r Hr; [exists r; done|].
  destruct (row_step _ _ _ _ Hok H1 Hr) as (r2 & Hr2 & Hc).
  destruct (IH ltac:(by eapply sys_ok_step) r2 Hr2) as (r3 & Hr3 & Hrev & Hgen & Hterm). exists r3. split; [done|].
  destruct Hc as [[= -> _]|(Hrev2 & Hgen2 & Hterm2)%step_life]; [done|]. simpl in *.
  split; [lia|]. split; [lia|]. intros Ht. rewrite <- (Hterm2 Ht). apply Hterm. by rewrite (Hterm2 Ht).
Qed.

(** C20. The lifecycle: an objective never disappears, its revision and its generation never decrease
    and a terminal status is final, however its calls interleave; and one step raises the
    generation by one exactly when it resumes an objective that was not active, and never
    otherwise. *)
Theorem objective_lifecycle now s s' id r :
  rtc sys_step (start now) s → get_objective id (sys_db s) = Some r →
  (rtc sys_step s s' →
   ∃ r', get_objective id (sys_db s') = Some r' ∧ or_revision r ≤ or_revision r' ∧ or_generation r ≤ or_generation r' ∧
         (objective_terminal (or_status r) = true → or_status r' = or_status r)) ∧
  (sys_step s s' →
   ∃ r', get_objective id (sys_db s') = Some r' ∧
         or_generation r' = or_generation r + (if resumes r (or_status r') then 1 else 0)).
Proof.
  intros Hs Hr. pose proof (reachable_sys_ok _ _ Hs) as Hok. split; [intros Hrun; by eapply run_life|]. intros Hstep.
  destruct (row_step _ _ _ _ Hok Hstep Hr) as (r' & Hr' & [[= -> _]|(_ & Hg & _)%step_life]); eexists; (split; [exact Hr'|]); [|done].
  rewrite resumes_same. lia.
Qed.

(** C18. Ownership: when a step replaces the owner of an objective by another, the objective was active,
    the lease of the old owner had run out, it was not parked for an approval and had no
    completion prepared, and the revision rose. *)
Theorem owner_fenced now s s' id r r' e e' :
  rtc sys_step (start now) s → sys_step s s' →
  get_objective id (sys_db s) = Some r → get_objective id (sys_db s') = Some r' →
  or_active_evaluation_id r = Some e → or_active_evaluation_id r' = Some e' → e' ≠ e →
  or_status r = ObjActive ∧ or_completion_intent r = None ∧ or_revision r' = or_revision r + 1 ∧
  db_approval_waits (sys_db s) !! id = None ∧
  ∃ lease, or_lease_expires_at r = Some lease ∧ (lease ≤ sys_now s')%Z.
Proof.
  intros Hs Hstep Hr Hr' He He' Hne. pose proof (reachable_sys_ok _ _ Hs) as Hok.
  destruct (row_step _ _ _ _ Hok Hstep Hr) as (r2 & Hr2 & [[= -> _]|Hc]); [congruence|]. simplify_eq.
  destruct (step_owner _ _ _ _ e e' Hc He He' Hne) as (? & ? & ? & l & ? & ?). split_and!; eauto.
  destruct Hok as [Hok _]. specialize (Hok id). rewrite Hr in Hok. destruct Hok as (_ & Hw & _).
  destruct (db_approval_waits _ !! id) as [a|]; [|done]. destruct (Hw a eq_refl) as (_ & _ & _ & ?). congruence.
Qed.

(** ** Claims and readiness *)

Definition dependencies (db : Db) : list SchedulerDependencyRecord := map dr_dependency (db_dependencies db).
Definition readiness (r : ObjectiveRow) (db : Db) (now : Z) : ObjectiveReadiness :=
  derive_objective_readiness (objective_record r) (dependencies db) now.

Lemma dependency_readiness_exists o l : dependency_readiness o l = Runnable ↔ existsb (holds_back o) l = false.
Proof.
  destruct (readiness_waiting o l) as [_ Hids]. unfold dependency_readiness. cbv zeta in Hids.
  rewrite <- not_true_iff_false, existsb_exists. setoid_rewrite <- list_elem_of_In.
  destruct (dedup _) as [|x ids].
  - split; [|done]. intros _ (d & Hd & Hb). apply (not_elem_of_nil (dep_id d)), Hids. eauto.
  - split; [done|]. intros Hn. exfalso. destruct (proj1 (Hids x) ltac:(left)) as (d & Hd & Hb & _). eauto.
Qed.

Lemma exists_dependency_map p db : exists_dependency p db = existsb p (dependencies db).
Proof. unfold exists_dependency, dependencies. induction (db_dependencies db) as [|d l IH]; simpl; [done|]. by rewrite IH. Qed.

Lemma free_owner r now :
  (or_active_evaluation_id r = None → or_lease_expires_at r = None) →
  free (objective_record r) now ↔ or_status r = ObjActive ∧ lease_live now r = false ∧ owner_free now r = true.
Proof.
  intros Hl. unfold free, owned, objective_record, lease_live, owner_free; simpl.
  destruct (or_active_evaluation_id r) as [e|]; [|rewrite Hl by done; naive_solver].
  destruct (or_lease_expires_at r) as [l|]; [|naive_solver].
  rewrite Z.ltb_ge, Z.leb_le. split; intros [? Hn]; (split; [done|]).
  - assert (¬ (now < l)%Z) by (by intros ?; apply Hn). lia.
  - intros [_ ?]. lia.
Qed.

Lemma readiness_runnable r db now :
  (or_active_evaluation_id r = None → or_lease_expires_at r = None) →
  readiness r db now = Runnable ↔
  or_status r = ObjActive ∧ lease_live now r = false ∧ owner_free now r = true ∧
  exists_dependency (pending_required (or_id r) (or_generation r)) db = false.
Proof.
  intros Hl. rewrite exists_dependency_map. change (pending_required (or_id r) (or_generation r)) with (holds_back (objective_record r)).
  rewrite <- dependency_readiness_exists. unfold readiness.
  assert (Hf := free_owner r now Hl). split.
  - intros Hr. assert (Hfree : free (objective_record r) now) by (by apply (readiness_free _ (dependencies db)); rewrite Hr).
    rewrite (free_readiness _ _ _ Hfree) in Hr. naive_solver.
  - intros (? & ? & ? & ?). rewrite free_readiness; [done|]. by apply Hf.
Qed.

Section claims.
Context (facts : Facts) (id e : str) (lease t : Z) (r : ObjectiveRow) (db : Db).
Hypothesis Hr : get_objective id db = Some r.
Hypothesis He : trim e ≠ [].

Lemma claim_conflict expected : claim_guard expected t r = false → call facts (ClaimEvaluation id expected e lease) t t db = Ok (Conflict r, db).
Proof.
  intros Hg. apply str_eqb_neq in He. unfold call, call_read, call_checks, claim_read, with_row. cbn [call_id]. by rewrite Hr, He, Hg.
Qed.

(** A claim that passes the checks is decided by its statement. *)
Lemma claim_decided expected :
  claim_guard expected t r = true → or_revision r < 2 ^ 63 →
  call facts (ClaimEvaluation id expected e lease) t t db =
  Ok (if negb (exists_dependency (pending_required id (or_generation r)) db) && owner_free t r
      then (Updated (claim_row e lease r), put_watched id (claim_row e lease r) db) else (Conflict r, db)).
Proof.
  intros Hg Hrev. pose proof Hg as (<- & Ha & _)%claim_guard_inv. apply str_eqb_neq in He.
  unfold call, call_read, call_checks, claim_read, with_row. cbn [call_id]. rewrite Hr, He, Hg. simpl. rewrite i64_of_lt by done. simpl.
  unfold claim_write, update_where, read_answer. rewrite Hr, N.eqb_refl, Ha. simpl.
  destruct (exists_dependency _ _), (owner_free t r); simpl; try by rewrite Hr.
  unfold get_objective, put_watched, put. simpl. by rewrite lookup_insert_eq.
Qed.

Definition claimable (expected : N) : Prop :=
  expected = or_revision r ∧
  (or_status r = ObjActive ∧ lease_live t r = false ∧ owner_free t r = true ∧
   exists_dependency (pending_required id (or_generation r)) db = false) ∧ or_completion_intent r = None.

Lemma claim_ready expected :
  or_revision r < 2 ^ 63 → claimable expected →
  call facts (ClaimEvaluation id expected e lease) t t db = Ok (Updated (claim_row e lease r), put_watched id (claim_row e lease r) db).
Proof. intros Hrev (-> & (Ha & Hl & Hf & Hd) & Hi). rewrite claim_decided; [by rewrite Hd, Hf|by apply claim_guard_inv|done]. Qed.

Lemma claim_refused expected :
  or_revision r < 2 ^ 63 → ¬ claimable expected →
  call facts (ClaimEvaluation id expected e lease) t t db = Ok (Conflict r, db).
Proof.
  intros Hrev Hn. destruct (claim_guard expected t r) eqn:Hg; [|by apply claim_conflict].
  rewrite claim_decided by done. apply claim_guard_inv in Hg as (E & Ha & Hi & Hl).
  destruct (exists_dependency _ _) eqn:Hd; [done|]. destruct (owner_free t r) eqn:Hf; [|done]. by destruct Hn.
Qed.
End claims.

(** Until the lease of the row ends every claim is a conflict. *)
Lemma leased_conflict facts id expected e lease t r l db :
  get_objective id db = Some r → or_lease_expires_at r = Some l → (t < l)%Z → trim e ≠ [] →
  call facts (ClaimEvaluation id expected e lease) t t db = Ok (Conflict r, db).
Proof.
  intros Hr El Ht He. apply claim_conflict; [done..|]. apply not_true_iff_false. intros (_ & _ & _ & Hl)%claim_guard_inv.
  unfold lease_live in Hl. rewrite El in Hl. apply Z.ltb_ge in Hl. lia.
Qed.

(** C19. Claims agree with the scheduler.  For a reachable objective whose revision fits SQLite's range
    (below 2^63), a call of [claim_objective_evaluation] that nothing interrupts, at one reading of the clock,
    succeeds exactly when its evaluation id is not blank, it names the present revision, the readiness that
    the scheduler derives at that time from the row and the dependencies is [Runnable] and no completion is
    prepared.  Then the row names the claimant as the owner with the lease it asked for, and in the
    database it leaves, at any time before that lease ends, such a call with any id that is not blank and any
    revision is a conflict that changes nothing.  A call with a blank evaluation id is an error; every other
    call that fails, one with a stale revision among them, changes nothing and answers with the present row. *)
Theorem claim_iff_runnable now s id r expected e lease facts t :
  rtc sys_step (start now) s → get_objective id (sys_db s) = Some r → or_revision r < 2 ^ 63 →
  let attempt := call facts (ClaimEvaluation id expected e lease) t t (sys_db s) in
  let claimed := put_watched id (claim_row e lease r) (sys_db s) in
  let ready := expected = or_revision r ∧ readiness r (sys_db s) t = Runnable ∧ or_completion_intent r = None in
  (trim e = [] → is_ok attempt = false) ∧
  (trim e ≠ [] → ready →
   attempt = Ok (Updated (claim_row e lease r), claimed) ∧
   ∀ expected' e' lease' t', (t' < lease)%Z → trim e' ≠ [] →
     call facts (ClaimEvaluation id expected' e' lease') t' t' claimed = Ok (Conflict (claim_row e lease r), claimed)) ∧
  (trim e ≠ [] → ¬ ready → attempt = Ok (Conflict r, sys_db s)).
Proof.
  intros Hs Hr Hrev. cbv zeta. destruct (reachable_sys_ok _ _ Hs) as [Hok _]. specialize (Hok id). rewrite Hr in Hok.
  destruct Hok as (Hid & _ & Hl & _). rewrite (readiness_runnable r _ t Hl), Hid. split; [|split].
  - intros He. unfold call, call_read, call_checks, claim_read. by rewrite He.
  - intros He Hready. split; [by apply claim_ready|]. intros. apply leased_conflict with (l := lease); try done.
    unfold get_objective, put_watched, put. simpl. apply lookup_insert_eq.
  - intros He Hn. by apply claim_refused.
Qed.

(** ** Waits for a group *)

Lemma exists_update p q st db :
  (∀ d, q (dr_dependency (set_dependency_status st d)) = q (dr_dependency d)) →
  exists_dependency q (update_dependencies p st db) = exists_dependency q db.
Proof.
  intros Hq. unfold exists_dependency, update_dependencies. simpl. induction (db_dependencies db) as [|d l IH]; simpl; [done|].
  rewrite IH. by destruct (_ && _); rewrite ?Hq.
Qed.

Lemma pending_update p id g db :
  exists_dependency (pending_required id g) db = false →
  exists_dependency (pending_required id g) (update_dependencies p DepCancelled db) = false.
Proof.
  unfold exists_dependency, update_dependencies. simpl. induction (db_dependencies db) as [|d l IH]; simpl; [done|].
  intros [H1 H2]%orb_false_iff. rewrite (IH H2). destruct (_ && _); [|by rewrite H1].
  unfold pending_required. simpl. by rewrite andb_false_r.
Qed.

Lemma pending_cancelled id g db :
  exists_dependency (pending_required id g) (cancel_objective_wait_dependencies id g db) = false.
Proof.
  unfold exists_dependency, cancel_objective_wait_dependencies, update_dependencies. simpl.
  induction (db_dependencies db) as [|d l IH]; simpl; [done|]. rewrite IH, orb_false_r.
  unfold pending_required. destruct (owned_by id g (dr_dependency d)) eqn:Ho; simpl; [|by rewrite Ho].
  destruct (bool_decide (dep_status (dr_dependency d) = DepPending)) eqn:Hp; simpl; rewrite ?Hp; by rewrite andb_false_r.
Qed.

Lemma insert_pending id g kind target tg src cause db :
  exists_dependency (pending_required id g) (insert_dependency (new_dependency id g kind target tg src cause) db) =
  exists_dependency (pending_required id g) db
  || negb (exists_dependency (λ d, dep_id d =s stable_scheduler_dependency_id OwnerObjective id g kind target tg) db).
Proof.
  unfold insert_dependency. change (dep_id (dr_dependency (new_dependency id g kind target tg src cause)))
    with (stable_scheduler_dependency_id OwnerObjective id g kind target tg).
  unfold exists_dependency in *. destruct (existsb (λ x, _ =s _) (db_dependencies db)); [by rewrite orb_false_r|]. simpl.
  rewrite existsb_app, orb_true_r. unfold pending_required, owned_by. simpl. by rewrite str_eqb_refl, N.eqb_refl, orb_true_r.
Qed.

(** The dependency of an objective on a group. *)
Definition group_dependency (facts : Facts) (id : str) (generation : N) (group : str) : str :=
  stable_scheduler_dependency_id OwnerObjective id generation DepThreadGroup group (default 1 (group_generation_of facts group)).
Definition registered (x : str) (db : Db) : bool := exists_dependency (λ d, dep_id d =s x) db.

(** What the transition does to the dependencies that hold the objective back. *)
Lemma group_wait_dependencies facts id r r' group cause expected db :
  or_status r = ObjActive →
  exists_dependency (pending_required id (or_generation r))
    (update_wait_dependencies facts id expected ObjActive (Some (WaitThreadGroup group)) cause r (put_watched id r' db)) =
  if bool_decide (or_wait_condition r = Some (WaitThreadGroup group))
  then exists_dependency (pending_required id (or_generation r)) db
  else (has_pending_question id (or_generation r) db || consumed_reply facts)
         && exists_dependency (pending_required id (or_generation r)) db
       || negb (registered (group_dependency facts id (or_generation r) group) db).
Proof.
  intros Ha. unfold update_wait_dependencies, resumes. rewrite Ha. simpl.
  change (has_pending_question id (or_generation r) (put_watched id r' db)) with (has_pending_question id (or_generation r) db).
  destruct (bool_decide (or_wait_condition r = _)); simpl; [done|].
  rewrite N.add_0_r. unfold insert_objective_wait_dependency, wait_dependency_generation. simpl. rewrite insert_pending.
  destruct (has_pending_question _ _ _), (consumed_reply facts); simpl; try done.
  unfold cancel_objective_questions. rewrite (pending_update _ id (or_generation r)) by apply pending_cancelled. simpl. f_equal.
  unfold registered, group_dependency, cancel_objective_wait_dependencies. by rewrite !exists_update.
Qed.

(** C22. A wait for a thread group, with what it holds back.  When nothing interrupts it, a transition of an active
    objective to active again, at its present revision (which must fit SQLite's range) and with a wait for a
    thread group, always succeeds and records the wait in the row, in the same generation.  If the row waited
    for this group already, the dependencies that hold the objective back are as before.  Otherwise the
    objective is held back afterwards if and only if no dependency of this objective, generation and
    group was recorded before, or it was held back before and keeps those dependencies, which
    is the case when a question of it is pending or the cause of the transition is a reply that was consumed.
    In particular a dependency that was cancelled when an earlier wait for the same group was given up stays
    in the table, the insertion does nothing, and, no question being pending and no reply consumed,
    the second wait holds nothing back. *)
Theorem group_wait_registered facts db id r group reason cause t1 t2 :
  get_objective id db = Some r → or_status r = ObjActive → or_revision r < 2 ^ 63 →
  let held := exists_dependency (pending_required id (or_generation r)) in
  let keeps := has_pending_question id (or_generation r) db || consumed_reply facts in
  ∃ r' db', call facts (UpdateState id (or_revision r) ObjActive (Some (WaitThreadGroup group)) reason cause) t1 t2 db
              = Ok (Updated r', db') ∧
    get_objective id db' = Some r' ∧ or_wait_condition r' = Some (WaitThreadGroup group) ∧ or_generation r' = or_generation r ∧
    held db' = (if bool_decide (or_wait_condition r = Some (WaitThreadGroup group)) then held db
                else (keeps && held db) || negb (registered (group_dependency facts id (or_generation r) group) db)).
Proof.
  intros Hr Ha Hrev held keeps.
  set (r' := transition ObjActive (Some (WaitThreadGroup group)) reason r).
  set (db' := update_wait_dependencies facts id (or_revision r) ObjActive (Some (WaitThreadGroup group)) cause r (put_watched id r' db)).
  assert (Hr' : get_objective id db' = Some r').
  { unfold get_objective, db'. rewrite (proj1 (wait_dependencies_rows _ _ _ _ _ _ _ _)). simpl. apply lookup_insert_eq. }
  exists r', db'.
  assert (Hck : checked (UpdateState id (or_revision r) ObjActive (Some (WaitThreadGroup group)) reason cause) t1 r)
    by (simpl; rewrite Ha; naive_solver).
  split; [|split; [done|split; [done|split]]].
  - unfold call, call_read. cbn [call_id]. rewrite Hr, (call_checks_ok _ _ _ Hck). simpl.
    unfold update_state_write, update_where. rewrite Hr, N.eqb_refl. cbv zeta. unfold read_answer.
    change (update_wait_dependencies _ _ _ _ _ _ _ _) with db'. by rewrite Hr'.
  - unfold r', transition, resumes; simpl. rewrite Ha. simpl. lia.
  - unfold db', held. rewrite group_wait_dependencies by done. by destruct (bool_decide _).
Qed.

(** ** Evaluations that lost the objective *)

Lemma update_where_idle id cond write db : (∀ r, get_objective id db = Some r → cond r = false) → (update_where id cond write db).2 = db.
Proof. unfold update_where. intros Hc. destruct (get_objective id db) as [r|]; [|done]. by rewrite Hc. Qed.

(** Fencing: an evaluation that does not own the objective (any more) cannot change the database by
    any of the statements that name it as the owner, whatever row they decided on: finishing,
    renewing, preparing the completion, recording usage, parking and admission all
    leave it as it is, and a question that would give the objective back is refused. *)
Theorem stale_owner_powerless id r e db :
  get_objective id db = Some r → or_active_evaluation_id r ≠ Some e →
  (∀ facts current t tokens seconds, (call_write facts (FinishEvaluation id e tokens seconds) current t db).2 = db) ∧
  (∀ facts current t lease dependency, (call_write facts (RenewInterrupt id e lease dependency) current t db).2 = db) ∧
  (∀ facts current t expected evaluation activation reason evidence, trim evaluation = e →
     (call_write facts (PrepareCompletion id expected evaluation activation reason evidence) current t db).2 = db) ∧
  (∀ lease t m db', renew_objective_evaluation id e lease t db = Ok (m, db') → db' = db) ∧
  (∀ tokens m db', record_objective_evaluation_usage id e tokens db = Ok (m, db') → db' = db) ∧
  (∀ activation dependency owner uncovered t db', park_if_covered id e activation dependency owner uncovered t db = Ok db' → False) ∧
  (∀ dependency lease owner thread_open running routed t m db',
     admit_approval_objective id e dependency lease owner thread_open running routed t db = Ok (m, db') → db' = db) ∧
  (∀ thread g request generation session seconds owner db',
     ask_question thread g request (Some (id, generation, e, session)) seconds owner db = Ok db' → False).
Proof.
  intros Hr Hne. assert (Hno : ∀ r0, get_objective id db = Some r0 → bool_decide (or_active_evaluation_id r0 = Some e) = false)
    by (intros r0 Hr0; simplify_eq; by apply bool_decide_eq_false_2).
  assert (Hr' := Hno r Hr). split_and!.
  - intros. apply update_where_idle. intros r0 Hr0. by rewrite (Hno r0 Hr0), andb_false_r.
  - intros. apply update_where_idle. intros r0 Hr0. by rewrite (Hno r0 Hr0), andb_false_r.
  - intros. subst e. apply update_where_idle. intros r0 Hr0. by rewrite (Hno r0 Hr0), andb_false_r.
  - unfold renew_objective_evaluation. intros lease t m db' E. repeat (case_match; [done|]). injection E as E.
    apply update_where_inv in E as [(r0 & Hr0 & Hc & _)|[_ ->]]; [|done]. by rewrite (Hno r0 Hr0), andb_false_r in Hc.
  - unfold record_objective_evaluation_usage. intros tokens m db' E. res_inv.
    apply update_where_inv in E as [(r0 & Hr0 & Hc & _)|[_ ->]]; [|done]. by rewrite (Hno r0 Hr0), andb_false_r in Hc.
  - unfold park_if_covered. intros *. rewrite Hr, Hr', andb_false_r. done.
  - unfold admit_approval_objective. intros *. rewrite Hr, Hr', andb_false_r. by intros [= _ <-].
  - unfold ask_question. intros * E. apply bind_Ok in E as (db1 & [Ho _]%insert_unique_rows & E). unfold get_objective in *.
    rewrite Ho in E. simpl in E. rewrite Hr, Hr', andb_false_r in E. done.
Qed.
End runs.

(** ** Samples *)

#[local] Instance sample_text : WaitText := {| rfc3339_nanos := decimal; external_event_text := λ topic correlation, topic ++ [0] ++ correlation |}.
(** The end of the material in place of a digest. *)
#[local] Instance reversed : Digest := {| sha256_hex := rev (A := N) |}.

Definition sample_facts : Facts := mkFactsOf (λ _, Some 1) false false.
Definition written_to (x : result string (ObjectiveMutation * Db)) : Db := match x with Ok (_, db) => db | Err _ => empty_db end.

Definition goal : str := s! "o".
Definition row_1 : ObjectiveRow := new_objective goal (s! "ctx") (s! "ses") (s! "ship").
Definition db_1 : Db := mkDb {[ goal := row_1 ]} [] ∅.
Definition claim (e : string) (revision : N) (lease : Z) : Call := ClaimEvaluation goal revision (lit e) lease.
Definition row_2 : ObjectiveRow := claim_row (s! "e1") 10 row_1.
Definition db_2 : Db := mkDb {[ goal := row_2 ]} [] ∅.

Lemma run_1 : rtc sys_step (start 0) (mkSys 0 db_1 [] []).
Proof. eapply run_done; [constructor|]. eapply (tx_create _ _ goal (s! "ctx") (s! "ses") (s! "ship")). vm_compute. reflexivity. Qed.

(** Two claims read the same row; the first one is written, and has not read its answer. *)
Lemma run_2 : rtc sys_step (start 0) (mkSys 0 db_2 [mkPending (claim "e2" 1 30) row_1 0] [mkUnanswered goal true (Some row_2)]).
Proof.
  pose proof (run_read 0 0 db_1 [] [] (claim "e2" 1 30) row_1 run_1 ltac:(vm_compute; reflexivity)) as H2.
  pose proof (run_read 0 0 db_1 _ _ (claim "e1" 1 10) row_1 H2 ltac:(vm_compute; reflexivity)) as H1.
  exact (run_write 0 0 db_1 _ _ _ sample_facts true db_2 H1 ltac:(simpl; lia) ltac:(vm_compute; reflexivity)).
Qed.

(** Before it does, its owner gives the objective back: the claim answers with that later row. *)
Definition finish : Call := FinishEvaluation goal (s! "e1") 5 5.
Definition row_finished : ObjectiveRow := give_back None 5 5 row_2.
Definition db_finished : Db := mkDb {[ goal := row_finished ]} [] ∅.
Lemma run_overtaken :
  rtc sys_step (start 0) (mkSys 0 db_finished [mkPending (claim "e2" 1 30) row_1 0]
    [mkUnanswered goal true (Some row_finished); mkUnanswered goal true (Some row_2)]).
Proof.
  pose proof (run_read 0 0 db_2 _ _ finish row_2 run_2 ltac:(vm_compute; reflexivity)) as H1.
  exact (run_write 0 0 db_2 _ _ _ sample_facts true db_finished H1 ltac:(simpl; lia) ltac:(vm_compute; reflexivity)).
Qed.

Lemma interleaving_refines_atomic_witness :
  rtc at_step (0%Z, empty_db) (0%Z, db_finished) ∧
  call_write sample_facts (claim "e2" 1 30) row_1 0 db_finished = (false, db_finished) ∧
  read_answer goal true db_finished = Ok (Updated row_finished) ∧ or_revision row_2 ≤ or_revision row_finished.
Proof.
  destruct (interleaving_refines_atomic 0 _ run_overtaken) as (Hrun & Hw & Ha). split; [exact Hrun|]. split.
  - destruct (Hw (mkPending (claim "e2" 1 30) row_1 0) sample_facts 0%Z ltac:(left) ltac:(simpl; lia)) as [(t1 & r & _ & _ & E)|(E & _)].
    + vm_compute. reflexivity.
    + exact E.
  - destruct (Ha (mkUnanswered goal true (Some row_2)) ltac:(right; left)) as (r & Hr & E & Hrev & _).
    vm_compute in Hr. injection Hr as <-. split; [exact E|exact Hrev].
Defined.

(** The objective is parked for an approval. *)
Definition row_parked : ObjectiveRow := set_owner (Some (s! "e1")) None row_2.
Definition db_parked : Db := mkDb {[ goal := row_parked ]} [] {[ goal := mkApprovalWait (s! "e1") 1 (s! "a") ]}.

Lemma run_claimed : rtc sys_step (start 0) (mkSys 0 db_2 [] []).
Proof. eapply (run_call 0 0 db_1 db_2 [] (claim "e1" 1 10) sample_facts); [exact run_1|vm_compute; reflexivity]. Qed.

Lemma run_parked : rtc sys_step (start 0) (mkSys 0 db_parked [] []).
Proof.
  eapply run_done; [exact run_claimed|]. eapply (tx_park _ _ goal (s! "e1") (s! "a") None true false). vm_compute. reflexivity.
Qed.

Lemma objective_rows_sound_witness :
  get_objective goal db_parked = Some row_parked ∧ or_lease_expires_at row_parked = None ∧
  or_active_evaluation_id row_parked = Some (s! "e1").
Proof.
  pose proof (objective_rows_sound 0 _ goal run_parked) as Hs. change (get_objective goal _) with (Some row_parked) in Hs.
  destruct Hs as (Hw & _). destruct (Hw (mkApprovalWait (s! "e1") 1 (s! "a")) ltac:(vm_compute; reflexivity)) as (_ & He & _ & Hl).
  split; [reflexivity|]. split; [exact Hl|exact He].
Defined.

(** It is paused and resumed. *)
Definition pause : Call := UpdateState goal 1 ObjPaused None None None.
Definition row_paused : ObjectiveRow := transition ObjPaused None None row_1.
Definition db_paused : Db := mkDb {[ goal := row_paused ]} [] ∅.
Definition resume : Call := UpdateState goal 2 ObjActive None None None.
Definition row_resumed : ObjectiveRow := transition ObjActive None None row_paused.

Lemma run_paused : rtc sys_step (start 0) (mkSys 0 db_paused [mkPending resume row_paused 0] []).
Proof.
  apply run_read; [|vm_compute; reflexivity].
  eapply (run_call 0 0 db_1 db_paused [] pause sample_facts); [exact run_1|vm_compute; reflexivity].
Qed.

Definition db_resumed : Db := mkDb {[ goal := row_resumed ]} [] ∅.
Lemma step_resumed :
  sys_step (mkSys 0 db_paused [mkPending resume row_paused 0] []) (mkSys 0 db_resumed [] [unanswered goal true db_resumed]).
Proof.
  apply (sys_write 0 0 db_paused [] [] [] (mkPending resume row_paused 0) sample_facts true db_resumed); simpl; [lia|lia|vm_compute; reflexivity].
Defined.

Lemma objective_lifecycle_witness :
  ∃ r', get_objective goal db_resumed = Some r' ∧ r' = row_resumed ∧ or_generation r' = 1 + 1.
Proof.
  destruct (objective_lifecycle 0 _ (mkSys 0 db_resumed [] [unanswered goal true db_resumed]) goal row_paused run_paused
    ltac:(vm_compute; reflexivity)) as [_ Hg].
  destruct (Hg step_resumed) as (r' & Hr' & Eg).
  exists r'. split; [exact Hr'|]. vm_compute in Hr'. injection Hr' as <-. split; [reflexivity|exact Eg].
Defined.

(** The lease of the first owner runs out, and another evaluation claims the objective. *)
Definition row_3 : ObjectiveRow := claim_row (s! "e2") 30 row_2.
Definition db_3 : Db := mkDb {[ goal := row_3 ]} [] ∅.
Lemma run_expired : rtc sys_step (start 0) (mkSys 20 db_2 [mkPending (claim "e2" 2 30) row_2 20] []).
Proof. apply run_read; [|vm_compute; reflexivity]. apply (run_tick 0 0); [exact run_claimed|lia]. Qed.
Lemma step_reclaimed :
  sys_step (mkSys 20 db_2 [mkPending (claim "e2" 2 30) row_2 20] []) (mkSys 20 db_3 [] [unanswered goal true db_3]).
Proof.
  apply (sys_write 20 20 db_2 [] [] [] (mkPending (claim "e2" 2 30) row_2 20) sample_facts true db_3); simpl; [lia|lia|vm_compute; reflexivity].
Defined.

Lemma owner_fenced_witness :
  or_active_evaluation_id row_3 = Some (s! "e2") ∧ ∃ lease, or_lease_expires_at row_2 = Some lease ∧ (lease ≤ 20)%Z.
Proof.
  destruct (owner_fenced 0 _ (mkSys 20 db_3 [] [unanswered goal true db_3]) goal row_2 row_3
    (s! "e1") (s! "e2") run_expired step_reclaimed
    ltac:(vm_compute; reflexivity) ltac:(vm_compute; reflexivity) eq_refl eq_refl ltac:(discriminate)) as (_ & _ & _ & _ & Hl).
  split; [reflexivity|exact Hl].
Defined.

Lemma claim_iff_runnable_witness :
  call sample_facts (claim "e1" 1 10) 0 0 db_1 = Ok (Updated row_2, put_watched goal row_2 db_1) ∧
  call sample_facts (claim "e2" 2 30) 5 5 db_2 = Ok (Conflict row_2, db_2) ∧
  is_ok (call sample_facts (claim " " 2 30) 5 5 db_2) = false.
Proof.
  split; [|split].
  - apply (claim_iff_runnable 0 _ goal row_1 1 (s! "e1") 10 sample_facts 0 run_1); try (vm_compute; reflexivity || discriminate).
    split; [reflexivity|split; vm_compute; reflexivity].
  - apply (claim_iff_runnable 0 _ goal row_2 2 (s! "e2") 30 sample_facts 5 run_claimed); try (vm_compute; reflexivity || discriminate).
    intros (_ & Hn & _). vm_compute in Hn. discriminate.
  - apply (claim_iff_runnable 0 _ goal row_2 2 (lit " ") 30 sample_facts 5 run_claimed); vm_compute; reflexivity || discriminate.
Defined.

(** It waits for a group, gives the wait up, and waits for the group again. *)
Definition wait_for (revision : N) (w : option ObjectiveWaitCondition) : Call := UpdateState goal revision ObjActive w None None.
Definition on_group : option ObjectiveWaitCondition := Some (WaitThreadGroup (s! "g")).
Definition db_waiting : Db := written_to (call sample_facts (wait_for 1 on_group) 0 0 db_1).
Definition db_given_up : Db := written_to (call sample_facts (wait_for 2 None) 0 0 db_waiting).
Definition db_again : Db := written_to (call sample_facts (wait_for 3 on_group) 0 0 db_given_up).
Definition row_given_up : ObjectiveRow := transition ObjActive None None (transition ObjActive on_group None row_1).

Lemma group_wait_registered_witness :
  exists_dependency (pending_required goal 1) db_waiting = true ∧
  exists_dependency (pending_required goal 1) db_again = false ∧
  or_wait_condition <$> get_objective goal db_again = Some on_group.
Proof.
  split.
  - destruct (group_wait_registered sample_facts db_1 goal row_1 (s! "g") None None 0 0 ltac:(vm_compute; reflexivity) eq_refl
    ltac:(vm_compute; reflexivity)) as (r' & db' & E & _ & _ & _ & He).
    unfold db_waiting. change (wait_for 1 on_group) with (UpdateState goal (or_revision row_1) ObjActive (Some (WaitThreadGroup (s! "g"))) None None).
    rewrite E. etrans; [exact He|]. vm_compute. reflexivity.
  - destruct (group_wait_registered sample_facts db_given_up goal row_given_up (s! "g") None None 0 0 ltac:(vm_compute; reflexivity) eq_refl
    ltac:(vm_compute; reflexivity)) as (r' & db' & E & Hr & Hw & _ & He).
    unfold db_again. change (wait_for 3 on_group) with (UpdateState goal (or_revision row_given_up) ObjActive (Some (WaitThreadGroup (s! "g"))) None None).
    rewrite E. split; [etrans; [exact He|]; vm_compute; reflexivity|]. simpl. rewrite Hr. simpl. by rewrite Hw.
Defined.

Lemma stale_owner_powerless_witness :
  (call_write sample_facts (FinishEvaluation goal (s! "e0") 5 5) row_2 0 db_2).2 = db_2.
Proof.
  destruct (stale_owner_powerless goal row_2 (s! "e0") db_2 ltac:(vm_compute; reflexivity) ltac:(discriminate)) as (Hf & _).
  apply Hf.
Defined.
