(* ===== verification/JsonSchema.v ===== *)
(** * The schema of a result type (yao/src/json.rs)

    A model that is asked for a typed result is shown a JSON schema of the type.  [json_schema] builds
    it: one schema for the type, with the declared types that it mentions under [$defs], each once.
    [conforms] is the meaning of the keywords in use, as the JSON Schema standard defines them; the
    schema describes exactly the documents that [from_json] accepts ([schema_is_exact]). *)

From stdpp Require Import base list gmap strings pretty.
From Stdlib Require Import ZArith Lia.
From S2P Require Import Prelude Types JsonValue Text Diagnostic Syntax SyntaxFacts Canonical Hir Decode DecodeFacts JsonBoundary JsonBoundaryFacts JsonRoundTrip.

(** ** Construction *)

(** A state that a loop threads through its elements. *)
Definition map_state {A B S E} (f : A → S → result E (B * S)) : list A → S → result E (list B * S) :=
  fix go l s :=
    match l with
    | [] => Ok ([], s)
    | x :: r => '(y, s1) ← f x s; '(ys, s2) ← go r s1; Ok (y :: ys, s2)
    end.

(** The object of [record] and [tagged]: all its properties and no others. *)
Definition closed_object (properties : JsonMap) : Json :=
  jobj [("type", jstr "object"); ("properties", JObject properties);
        ("required", JArray (map (λ kv, JString kv.1) properties)); ("additionalProperties", JBool false)].

(** yao/src/json.rs:414-421 [json_schema::tagged]. *)
Definition tagged_schema (case : str) (payload : option (string * Json)) : Json :=
  let fields := [(s! "case", jobj [("const", JString case)])] in
  closed_object (match payload with Some (key, value) => bm_insert (lit key) value fields | None => fields end).

(** [name.replace('~', "~0").replace('/', "~1")]. *)
Definition escape_pointer (name : str) : str :=
  concat (map (λ c, if (c =? 126)%N then s! "~0" else if (c =? 47)%N then s! "~1" else [c]) name).

Definition panic (what : string) : Message := Msg what [].

(** yao/src/json.rs:403-413 [json_schema::record], over the schema of a field. *)
Definition record_schema (schema : Ty → list str → result Message (Json * list str))
    (fields : list (str * Ty)) (pending : list str) : result Message (Json * list str) :=
  '(properties, pending') ← map_state (λ nt p, '(s, p') ← schema nt.2 p; Ok ((nt.1, s), p')) fields pending;
  Ok (closed_object (bm_of_list properties), pending').

(** yao/src/json.rs:422-447 [json_schema::schema]: the schema of a type and the names it mentions. *)
Fixpoint schema (ty : Ty) (pending : list str) {struct ty} : result Message (Json * list str) :=
  match ty with
  | TJson => Ok (jobj [], pending)
  | TNil => Ok (jobj [("type", jstr "null")], pending)
  | TBool => Ok (jobj [("type", jstr "boolean")], pending)
  | TInt => Ok (jobj [("type", jstr "integer"); ("minimum", JNumber (number_of_i64 i64_min));
                      ("maximum", JNumber (number_of_i64 i64_max))], pending)
  | TFloat => Ok (jobj [("type", jstr "number")], pending)
  | TString | TBytes => Ok (jobj [("type", jstr "string")], pending)
  | TList inner => '(s, p) ← schema inner pending; Ok (jobj [("type", jstr "array"); ("items", s)], p)
  | TMap inner => '(s, p) ← schema inner pending; Ok (jobj [("type", jstr "object"); ("additionalProperties", s)], p)
  | TNamed name => Ok (jobj [("$ref", JString (s! "#/$defs/" ++ escape_pointer name))], bs_insert name pending)
  | TStructuralRecord fields => record_schema schema fields pending
  | TOption inner =>
      '(s, p) ← schema inner pending;
      Ok (jobj [("oneOf", JArray [tagged_schema s! "none" None; tagged_schema s! "some" (Some ("value"%string, s))])], p)
  | TResult ok error =>
      '(s1, p1) ← schema ok pending;
      '(s2, p2) ← schema error p1;
      Ok (jobj [("oneOf", JArray [tagged_schema s! "ok" (Some ("value"%string, s1)); tagged_schema s! "err" (Some ("value"%string, s2))])], p2)
  | _ => Err (panic "JSON types validated")
  end.

(** yao/src/json.rs:455-463 [json_schema]: the schema of a definition. *)
Definition definition_schema (d : TypeDefinition) (pending : list str) : result Message (Json * list str) :=
  match d with
  | DRecord _ fields _ => record_schema schema (field_types fields) pending
  | DUnion _ variants _ =>
      '(l, p) ← map_state (λ v p, '(s, p') ← record_schema schema (field_types (vfields v)) p;
                                   Ok (tagged_schema (vname v) (Some ("fields"%string, s)), p')) variants pending;
      Ok (jobj [("oneOf", JArray l)], p)
  end.

(** yao/src/json.rs:451-465 [json_schema]: the loop over the names that are still to be emitted. *)
Fixpoint emit (fuel : nat) (defs : Definitions) (pending : list str) (emitted : JsonMap) : result Message JsonMap :=
  match fuel with
  | O => Err out_of_fuel
  | S n =>
      match pending with
      | [] => Ok emitted
      | name :: pending =>
          if bm_contains name emitted then emit n defs pending emitted
          else
            definition ← ok_or (bm_get name defs) (panic "no entry found for key");
            '(s, pending') ← definition_schema definition pending;
            emit n defs pending' (bm_insert name s emitted)
      end
  end.

(** Each definition is emitted once and names at most all the others. *)
Definition emit_fuel (defs : Definitions) : nat := S (length defs * S (length defs) + length defs).

(** yao/src/json.rs:401-470 [json_schema]. *)
Definition json_schema (ty : Ty) (defs : Definitions) : result Message Json :=
  _ ← validate_json_type defs ty;
  '(output, pending) ← schema ty [];
  emitted ← emit (emit_fuel defs) defs pending [];
  Ok (match emitted, output with
      | [], _ => output
      | _, JObject m => JObject (bm_insert s! "$defs" (JObject emitted) m)
      | _, _ => output
      end).

(** ** Meaning *)

Section conforms.
(** Whether a number that is written as a float counts as an integer, on which the drafts of the standard differ. *)
Context (integral : f64 → bool) (root : Json).

Definition type_matches (name : str) (v : Json) : bool :=
  match v with
  | JNull => name =s s! "null"
  | JBool _ => name =s s! "boolean"
  | JNumber n => (name =s s! "number") || ((name =s s! "integer") && match n with NFloat f => integral f | _ => true end)
  | JString _ => name =s s! "string"
  | JArray _ => name =s s! "array"
  | JObject _ => name =s s! "object"
  end.

Definition number_le (a b : Number) : bool :=
  match a, b with
  | NFloat _, _ | _, NFloat _ => SpecFloat.SFleb (number_as_f64 a) (number_as_f64 b)
  | (PosInt x | NegInt x), (PosInt y | NegInt y) => (x <=? y)%Z
  end.

Fixpoint unescape_pointer (token : str) : str :=
  match token with
  | c :: ((d :: r) as rest) =>
      if (c =? 126)%N && (d =? 48)%N then 126%N :: unescape_pointer r
      else if (c =? 126)%N && (d =? 49)%N then 47%N :: unescape_pointer r
      else c :: unescape_pointer rest
  | _ => token
  end.
Definition resolve (reference : str) : option Json :=
  match strip_prefix s! "#/$defs/" reference with
  | Some token => jget s! "$defs" root ≫= jget (unescape_pointer token)
  | None => None
  end.

Definition on_keyword (m : JsonMap) (key : string) (meaning : Json → bool) : bool :=
  match bm_get (lit key) m with Some k => meaning k | None => true end.

Definition properties_of (m : JsonMap) : JsonMap :=
  match bm_get s! "properties" m with Some (JObject l) => l | _ => [] end.

(** What a value must satisfy to conform to a schema: every keyword of it that applies. *)
Fixpoint conforms (fuel : nat) (s v : Json) : bool :=
  match fuel with
  | O => false
  | S n =>
      match s with
      | JBool b => b
      | JObject m =>
          on_keyword m "type" (λ k, match k with JString name => type_matches name v | _ => false end)
          && on_keyword m "const" (λ k, json_eqb k v)
          && on_keyword m "minimum" (λ k, match k, v with JNumber a, JNumber x => number_le a x | _, _ => true end)
          && on_keyword m "maximum" (λ k, match k, v with JNumber a, JNumber x => number_le x a | _, _ => true end)
          && on_keyword m "items" (λ k, match v with JArray l => forallb (conforms n k) l | _ => true end)
          && on_keyword m "required" (λ k, match k, v with
               | JArray names, JObject x => forallb (λ name, match name with JString key => bm_contains key x | _ => false end) names
               | _, _ => true end)
          && match v with
             | JObject x => forallb (λ ks, match bm_get ks.1 x with Some y => conforms n ks.2 y | None => true end) (properties_of m)
             | _ => true
             end
          && on_keyword m "additionalProperties" (λ k, match v with
               | JObject x => forallb (λ ky, bm_contains ky.1 (properties_of m) || conforms n k ky.2) x
               | _ => true end)
          && on_keyword m "oneOf" (λ k, match k with
               | JArray l => Nat.eqb (length (List.filter (λ s', conforms n s' v) l)) 1
               | _ => false end)
          && on_keyword m "$ref" (λ k, match k with
               | JString reference => match resolve reference with Some s' => conforms n s' v | None => false end
               | _ => false end)
      | _ => false
      end
  end.
End conforms.
