(* ===== verification/JsonSchemaSound.v ===== *)
(** * A value conforms to the schema exactly when the boundary accepts it *)

From stdpp Require Import base list gmap strings pretty.
From Stdlib Require Import ZArith Lia Sorted.
From S2P Require Import Prelude Types JsonValue Text Diagnostic Syntax SyntaxFacts Canonical Hir Decode DecodeFacts Declarations DeclarationFacts JsonBoundary JsonBoundaryFacts JsonRoundTrip JsonSchema JsonSchemaFacts.

(** ** References *)

Lemma strip_own_prefix p s : strip_prefix p (p ++ s) = Some s.
Proof. induction p as [|c p IH]; simpl; [by destruct s|]. by rewrite N.eqb_refl. Qed.

Lemma unescape_escaped_pointer name : unescape_pointer (escape_pointer name) = name.
Proof.
  unfold escape_pointer. induction name as [|c name IH]; [done|]. cbn [map concat].
  destruct (N.eqb_spec c 126) as [->|H1]; [simpl; by rewrite IH|].
  destruct (N.eqb_spec c 47) as [->|H2]; [simpl; by rewrite IH|].
  change ([c] ++ ?l) with (c :: l). destruct (concat _) as [|d r]; cbn [unescape_pointer]; [by rewrite <- IH|].
  rewrite (proj2 (N.eqb_neq c 126) H1). cbn [andb]. f_equal. exact IH.
Qed.

Section sound.
Context (defs : Definitions) (span : SourceSpan) (integral : f64 → bool) (root : Json).

Abbreviation conforms := (conforms integral root).
Abbreviation transform := (transform defs span false).

(** ** Values *)

Fixpoint no_integral (v : Json) : bool :=
  match v with
  | JNumber (NFloat f) => negb (integral f)
  | JArray l => forallb no_integral l
  | JObject m => forallb (λ kv, no_integral kv.2) m
  | _ => true
  end.
Definition good (v : Json) : Prop := json_wf v ∧ no_integral v = true.

Lemma good_elem x l : good (JArray l) → x ∈ l → good x.
Proof.
  intros [Hw Hn] Hx. inversion Hw as [| | | |? Hl|]; subst. rewrite Forall_forall in Hl. split; [by apply Hl|].
  simpl in Hn. rewrite forallb_forall in Hn. by apply Hn, list_elem_of_In.
Qed.
Lemma good_entry k x m : good (JObject m) → (k, x) ∈ m → good x.
Proof.
  intros [Hw Hn] Hx. inversion Hw as [| | | | |? _ Hl]; subst. rewrite Forall_forall in Hl. split; [by apply (Hl (k, x))|].
  simpl in Hn. rewrite forallb_forall in Hn. by apply (Hn (k, x)), list_elem_of_In.
Qed.
Lemma good_get k x m : good (JObject m) → bm_get k m = Some x → good x.
Proof. intros Hg Hx. eapply good_entry; [done|]. by apply bm_get_elem. Qed.
Lemma good_object m : good (JObject m) → bm_wf m.
Proof. intros [Hw _]. by inversion Hw. Qed.

(** ** Keywords *)

Lemma conforms_closed_eq n props v :
  conforms (S n) (closed_object props) v =
  match v with
  | JObject x =>
      forallb (λ name, match name with JString key => bm_contains key x | _ => false end) (map (λ kv, JString kv.1) props)
      && forallb (λ ks, match bm_get ks.1 x with Some y => conforms n ks.2 y | None => true end) props
      && forallb (λ ky, bm_contains ky.1 props || conforms n (JBool false) ky.2) x
  | _ => false
  end.
Proof.
  destruct v; try reflexivity. match goal with |- _ = ?b => transitivity (b && true && true); [reflexivity|by rewrite !andb_true_r] end.
Qed.

Lemma conforms_false n v : conforms n (JBool false) v = false.
Proof. by destruct n. Qed.

Lemma bm_contains_In {V} k (m : list (str * V)) : bm_contains k m = true ↔ k ∈ m.*1.
Proof.
  unfold bm_contains. destruct (bm_get k m) eqn:E; simpl.
  - split; [|done]. intros _. apply bm_get_elem in E. apply list_elem_of_fmap. by eexists (_, _).
  - apply bm_get_None in E. done.
Qed.

Lemma conforms_closed n props v :
  conforms (S n) (closed_object props) v = true ↔
  ∃ m, v = JObject m ∧ (∀ k s, (k, s) ∈ props → ∃ x, bm_get k m = Some x ∧ conforms n s x = true) ∧
       ∀ k, k ∈ m.*1 → k ∈ props.*1.
Proof.
  rewrite conforms_closed_eq. destruct v as [| | | | |m]; try (split; [done|by intros (? & ? & _)]).
  rewrite !andb_true_iff, !forallb_forall. setoid_rewrite conforms_false. setoid_rewrite orb_false_r.
  setoid_rewrite <- list_elem_of_In. split.
  - intros [[Hreq Hprops] Hadd]. exists m. split; [done|]. split.
    + intros k s Hs. specialize (Hreq (JString k)). specialize (Hprops (k, s) Hs). simpl in *.
      destruct (bm_get k m) as [x|] eqn:E; [eauto|]. unfold bm_contains in Hreq. rewrite E in Hreq.
      discriminate Hreq. apply list_elem_of_fmap. by exists (k, s).
    + intros k ([k' x] & -> & Hx)%list_elem_of_fmap. by apply bm_contains_In, (Hadd (k', x)).
  - intros (m' & [= <-] & Hp & Hk). split; [split|].
    + intros name ([k s] & -> & Hs)%list_elem_of_fmap. destruct (Hp k s Hs) as (x & Hx & _). simpl. unfold bm_contains. by rewrite Hx.
    + intros [k s] Hs. destruct (Hp k s Hs) as (x & Hx & Hc). simpl. by rewrite Hx.
    + intros [k x] Hx. apply bm_contains_In, Hk, list_elem_of_fmap. by exists (k, x).
Qed.

Lemma conforms_one_of n l v :
  conforms (S n) (jobj [("oneOf", JArray l)]) v = Nat.eqb (length (List.filter (λ s, conforms n s v) l)) 1.
Proof. match goal with |- _ = ?b => transitivity (b && true); [by destruct v|by rewrite andb_true_r] end. Qed.

Lemma conforms_ref n name v :
  conforms (S n) (jobj [("$ref", JString (s! "#/$defs/" ++ escape_pointer name))]) v =
  match jget s! "$defs" root ≫= jget name with Some s => conforms n s v | None => false end.
Proof.
  assert (E : resolve root (s! "#/$defs/" ++ escape_pointer name) = (jget s! "$defs" root ≫= jget name)).
  { unfold resolve. rewrite strip_own_prefix. by rewrite unescape_escaped_pointer. }
  rewrite <- E. destruct v; reflexivity.
Qed.

(** ** Acceptance *)

(** With the fuel [n], the schema [s] describes what is accepted at [t]. *)
Definition describes (n : nat) (s : Json) (t : Ty) : Prop :=
  ∀ v path, good v → conforms n s v = true ↔ ∃ w, transform t v path = Ok w.

Lemma transform_fields_accepts n fs v path :
  NoDup fs.*1 → good v → Forall (λ nt, describes n (schema_of nt.2) nt.2) fs →
  conforms (S n) (record_of schema_of fs) v = true ↔ ∃ w, transform_fields transform fs v path = Ok w.
Proof.
  intros Hnd Hg Hfs. unfold record_of. rewrite conforms_closed. setoid_rewrite transform_fields_Ok.
  set (l := map (λ nt, (nt.1, schema_of nt.2)) fs).
  assert (Hkeys : l.*1 = fs.*1) by (unfold l; rewrite <- list_fmap_compose; done).
  assert (Hperm : bm_of_list l ≡ₚ l) by (apply bm_of_list_perm; by rewrite Hkeys).
  setoid_rewrite Hperm. rewrite Hkeys. rewrite Forall_forall in Hfs. split.
  - intros (m & -> & Hp & Hk).
    assert (Hc : ∀ nt, nt ∈ fs → ∃ x y, bm_get nt.1 m = Some x ∧ transform nt.2 x (field_path path nt.1) = Ok y).
    { intros nt Hnt. destruct (Hp nt.1 (schema_of nt.2)) as (x & Hx & Hcx); [apply list_elem_of_fmap; by exists nt|].
      apply (Hfs nt Hnt x (field_path path nt.1)) in Hcx as [y Hy]; [by exists x, y|by eapply good_get]. }
    assert (∃ out, converted transform m path fs out) as [out Hout].
    { clear -Hc. induction fs as [|nt fs IH]; [exists []; constructor|].
      destruct IH as [out Hout]; [intros; apply Hc; by right|]. destruct (Hc nt) as (x & y & Hx & Hy); [by left|].
      exists ((nt.1, y) :: out). constructor; eauto. }
    exists (JObject (bm_of_list out)), m, out. done.
  - intros (w & m & out & -> & _ & _ & Hout & Hk). exists m. split; [done|]. split; [|done].
    intros k s ([n' t] & [= -> ->] & Hnt)%list_elem_of_fmap. simpl.
    destruct (proj1 (list_elem_of_lookup _ _) Hnt) as [i Hi].
    destruct (Forall2_lookup_l _ _ _ _ _ Hout Hi) as (nw & _ & _ & x & Hx & Hy). exists x. split; [done|].
    apply (Hfs (n', t) Hnt x (field_path path n')); [by eapply good_get|eauto].
Qed.

(** Objects with a case. *)
Lemma conforms_const n c x : conforms (S n) (jobj [("const", JString c)]) x = true ↔ x = JString c.
Proof.
  transitivity (json_eqb (JString c) x = true).
  - match goal with |- ?a = true ↔ ?b = true => assert (a = b) as -> by (transitivity (b && true && true && true && true && true && true && true && true); [by destruct x|by rewrite !andb_true_r]) end. done.
  - destruct x; simpl; try done. rewrite str_eqb_eq. naive_solver.
Qed.

Lemma conforms_case n c v :
  conforms (S (S n)) (tagged_schema c None) v = true ↔
  ∃ m, v = JObject m ∧ bm_get s! "case" m = Some (JString c) ∧ ∀ k, k ∈ m.*1 → k ∈ [s! "case"].
Proof.
  unfold tagged_schema. rewrite conforms_closed. split; intros (m & -> & Hm).
  - destruct Hm as [Hp Hk]. exists m. destruct (Hp s! "case" (jobj [("const", JString c)])) as (x & Hx & Hc); [by left|].
    apply conforms_const in Hc as ->. done.
  - destruct Hm as [Hc Hk]. exists m. split_and!; [done| |done]. intros k s [= -> ->]%list_elem_of_singleton.
    exists (JString c). split; [done|]. by apply conforms_const.
Qed.

Lemma conforms_case_with n key c s v :
  key ∈ ["value"%string; "fields"%string] →
  conforms (S (S n)) (tagged_schema c (Some (key, s))) v = true ↔
  ∃ m x, v = JObject m ∧ bm_get s! "case" m = Some (JString c) ∧ bm_get (lit key) m = Some x ∧
         conforms (S n) s x = true ∧ ∀ k, k ∈ m.*1 → k ∈ [s! "case"; lit key].
Proof.
  intros Hkey.
  assert (E : tagged_schema c (Some (key, s)) = closed_object [(s! "case", jobj [("const", JString c)]); (lit key, s)])
    by (apply elem_of_cons in Hkey as [->|Hkey]; [done|]; by apply list_elem_of_singleton in Hkey as ->).
  rewrite E, conforms_closed. split.
  - intros (m & -> & Hp & Hk). destruct (Hp s! "case" (jobj [("const", JString c)])) as (y & Hy & Hc); [by left|].
    destruct (Hp (lit key) s) as (x & Hx & Hs); [by right; left|]. apply conforms_const in Hc as ->. exists m, x. done.
  - intros (m & x & -> & Hc & Hx & Hs & Hk). exists m. split_and!; [done| |done].
    intros k s' [[= -> ->]|[= -> ->]%list_elem_of_singleton]%elem_of_cons; [|eauto].
    exists (JString c). split; [done|]. by apply conforms_const.
Qed.

(** At most one alternative has the case of the value. *)
Lemma one_of_unique {A} (f : A → Json) (key : A → str) (n : nat) (l : list A) v :
  NoDup (map key l) → (∀ x, x ∈ l → conforms n (f x) v = true → jget s! "case" v = Some (JString (key x))) →
  conforms (S n) (jobj [("oneOf", JArray (map f l))]) v = true ↔ ∃ x, x ∈ l ∧ conforms n (f x) v = true.
Proof.
  intros Hnd Hcase. rewrite conforms_one_of, Nat.eqb_eq.
  assert (Hlen : ∀ l', NoDup (map key l') → (∀ x, x ∈ l' → conforms n (f x) v = true → jget s! "case" v = Some (JString (key x))) →
            length (List.filter (λ s, conforms n s v) (map f l')) = 1%nat ↔ ∃ x, x ∈ l' ∧ conforms n (f x) v = true).
  { clear. intros l. induction l as [|x l IH]; intros Hnd Hcase; [split; [done|set_solver]|]. simpl in Hnd.
    apply NoDup_cons in Hnd as [Hx Hnd]. specialize (IH Hnd ltac:(intros; apply Hcase; [by right|done])).
    cbn [map List.filter]. destruct (conforms n (f x) v) eqn:E.
    - assert (Hnone : List.filter (λ s, conforms n s v) (map f l) = []).
      { destruct (List.filter _ _) as [|s r] eqn:Ef; [done|]. exfalso.
        assert (In s (List.filter (λ s, conforms n s v) (map f l))) as Hin by (rewrite Ef; by left).
        apply filter_In in Hin as [(y & <- & Hy%list_elem_of_In)%in_map_iff Hc].
        pose proof (Hcase x ltac:(by left) E) as E1. pose proof (Hcase y ltac:(by right) Hc) as E2.
        apply Hx. rewrite list_elem_of_In, in_map_iff. exists y. split; [congruence|by apply list_elem_of_In]. }
      rewrite Hnone. split; [|done]. intros _. exists x. split; [by left|done].
    - rewrite IH. split; intros (y & Hy & Hc); exists y; [set_solver|]. apply elem_of_cons in Hy as [->|]; [congruence|done]. }
  by apply Hlen.
Qed.

(** ** Scalars and containers *)

Definition scalar (t : Ty) : bool :=
  match t with TNil | TBool | TInt | TFloat | TString | TBytes | TJson => true | _ => false end.

Lemma conforms_int n k :
  conforms (S n) (schema_of TInt) (JNumber k) =
  match k with
  | PosInt z | NegInt z => (i64_min <=? z)%Z && (z <=? i64_max)%Z
  | NFloat f => integral f && number_le (number_of_i64 i64_min) (NFloat f) && number_le (NFloat f) (number_of_i64 i64_max)
  end.
Proof.
  destruct k as [z|z|f];
    [match goal with |- _ = ?b => transitivity (b && true && true && true && true && true && true); [reflexivity|by rewrite !andb_true_r] end..|].
  match goal with |- _ = ?a && ?b && ?c =>
    transitivity (a && true && b && c && true && true && true && true && true && true); [reflexivity|by rewrite !andb_true_r] end.
Qed.

Lemma describes_int n : describes (S n) (schema_of TInt) TInt.
Proof.
  intros v path [Hw Hn]. rewrite transform_eq. destruct v as [|b|k|s|l|m]; try (split; [done|by intros [? ?]]).
  rewrite conforms_int. inversion Hw as [| |? Hk| | |]; subst. simpl in Hn.
  destruct k as [z|z|f]; simpl in Hk |- *.
  - apply andb_true_iff in Hk as [Hk _]. apply Z.leb_le in Hk.
    assert (E : (i64_min <=? z)%Z = true) by (apply Z.leb_le; unfold i64_min; lia). rewrite E. simpl.
    unfold decode_value. cbn [jdepth decode_fuel decode_step jas_i64 number_as_i64].
    destruct (z <=? i64_max)%Z; simpl; [split; eauto|split; [done|by intros [? ?]]].
  - apply andb_true_iff in Hk as [Hk1 Hk2]. apply Z.ltb_lt in Hk2. rewrite Hk1. simpl.
    assert (E : (z <=? i64_max)%Z = true) by (apply Z.leb_le; unfold i64_max; lia). rewrite E. split; eauto.
  - apply negb_true_iff in Hn. rewrite Hn. simpl. split; [done|by intros [? ?]].
Qed.

Lemma describes_scalar n t : scalar t = true → describes (S n) (schema_of t) t.
Proof.
  intros Ht. destruct (decide (t = TInt)) as [->|Hne]; [apply describes_int|]. intros v path [Hw Hn]. rewrite transform_eq.
  destruct t; try discriminate Ht; try done; destruct v as [|b|[z|z|f]|s|l|m]; simpl;
    try (split; [by eauto|done]); (split; [done|by intros [? ?]]).
Qed.

Lemma describes_list n t : describes n (schema_of t) t → describes (S n) (schema_of (TList t)) (TList t).
Proof.
  intros Ht v path Hg. rewrite transform_eq.
  assert (E : conforms (S n) (schema_of (TList t)) v = match v with JArray l => forallb (conforms n (schema_of t)) l | _ => false end).
  { destruct v; try reflexivity.
    match goal with |- _ = ?b => transitivity (b && true && true && true && true && true); [reflexivity|by rewrite !andb_true_r] end. }
  rewrite E. destruct v as [| | | |l|]; try (split; [done|by intros [? ?]]). cbn [transform_step].
  assert (Hl : Forall good l) by (apply Forall_forall; intros; by eapply good_elem). clear Hg E.
  transitivity (∃ l', transform_elements transform t path 0 l = Ok l').
  - generalize 0%nat. induction Hl as [|x l Hx Hl IH]; intros i; simpl; [split; eauto|].
    rewrite andb_true_iff, (Ht x (index_path path i) Hx), (IH (S i)). split.
    + intros [[y ->] [l' Hl']]. simpl. rewrite Hl'. eauto.
    + intros [l' H']. res_inv. eauto.
  - split; [intros [l' ->]; eauto|]. intros [w H']. res_inv. eauto.
Qed.

Lemma describes_map n t : describes n (schema_of t) t → describes (S n) (schema_of (TMap t)) (TMap t).
Proof.
  intros Ht v path Hg. rewrite transform_eq.
  assert (E : conforms (S n) (schema_of (TMap t)) v = match v with JObject m => forallb (λ ky, conforms n (schema_of t) ky.2) m | _ => false end).
  { destruct v; try reflexivity.
    match goal with |- _ = ?b => transitivity (b && true && true); [reflexivity|by rewrite !andb_true_r] end. }
  rewrite E. destruct v as [| | | | |m]; try (split; [done|by intros [? ?]]). cbn [transform_step object]. simpl.
  assert (Hm : Forall (λ kx, good kx.2) m) by (apply Forall_forall; intros [k x] Hx; by eapply good_entry). clear Hg E.
  transitivity (∃ l', traverse (λ '(name, value), pair name <$> transform t value (field_path path name)) m = Ok l').
  - induction Hm as [|[k x] m Hx Hm IH]; simpl; [split; eauto|]. simpl in Hx.
    rewrite andb_true_iff, (Ht x (field_path path k) Hx), IH. split.
    + intros [[y ->] [l' Hl']]. simpl. rewrite Hl'. simpl. eauto.
    + intros [l' H']. res_inv. eauto.
  - split; [intros [l' ->]; eauto|]. intros [w H']. res_inv. eauto.
Qed.

(** ** Options and results *)

Lemma ok_bind {E A B} (r : result E A) (a : A) (f : A → result E B) b : r = Ok a → f a = Ok b → (r ≫= f) = Ok b.
Proof. by intros ->. Qed.

Lemma remove_case (m : JsonMap) (key : string) :
  key ∈ ["value"%string; "fields"%string] → bm_get (lit key) (bm_remove s! "case" m) = bm_get (lit key) m.
Proof.
  intros Hkey. rewrite bm_get_remove. destruct (str_eqb_spec s! "case" (lit key)) as [E|]; [|done].
  apply elem_of_cons in Hkey as [->|Hkey]; [done|]. by apply list_elem_of_singleton in Hkey as ->.
Qed.

Lemma transform_tagged_accepts t v path :
  (∃ w, transform_tagged defs span false transform t v path = Ok w) ↔
  ∃ m c, v = JObject m ∧ bm_get s! "case" m = Some (JString c) ∧
    match case_payload t c with
    | Some (Some inner) =>
        ∃ x, bm_get s! "value" m = Some x ∧ (∃ y, transform inner x (field_path path s! "value") = Ok y) ∧
             ∀ k, k ∈ m.*1 → k ∈ [s! "case"; s! "value"]
    | Some None => ∀ k, k ∈ m.*1 → k ∈ [s! "case"]
    | None => False
    end.
Proof.
  unfold transform_tagged, tagged_envelope. split.
  - intros [w H]. apply bind_Ok in H as (m & ->%object_Ok & H). apply bind_Ok in H as ([cv m1] & [Hc ->]%take_Ok & H).
    apply bind_Ok in H as (c & Hs%ok_or_Ok & H). destruct cv; try discriminate Hs. injection Hs as ->.
    apply bind_Ok in H as (inner & Hi%ok_or_Ok & H). apply bind_Ok in H as ([res m2] & Hp & H).
    apply bind_Ok in H as (u & He%empty_fields_Ok & _). exists m, c. split_and!; [done..|]. rewrite Hi.
    destruct inner as [inner|].
    + apply bind_Ok in Hp as ([x rest] & [Hx ->]%take_Ok & Hp). apply bind_Ok in Hp as (y & Hy & [= _ <-]).
      change s! "value" with (lit "value"%string) in Hx. rewrite remove_case in Hx by (by left).
      exists x. split_and!; [done|eauto|]. by apply (fold_remove_nil m [s! "case"; s! "value"]).
    + injection Hp as _ <-. by apply (fold_remove_nil m [s! "case"]).
  - intros (m & c & -> & Hc & Hp). destruct (case_payload t c) as [[inner|]|] eqn:Ei; [| |done].
    + destruct Hp as (x & Hx & [y Hy] & Hk). eexists.
      eapply ok_bind; [by apply object_Ok|]. eapply ok_bind; [by apply take_Ok|]. eapply ok_bind; [by apply ok_or_Ok|].
      eapply ok_bind; [by apply ok_or_Ok|]. cbv beta iota.
      eapply (ok_bind _ (_, _)).
      { eapply (ok_bind _ (_, _)); [apply take_Ok; split; [exact (eq_trans (remove_case m "value" ltac:(left)) Hx)|done]|].
        cbv beta iota. eapply ok_bind; [exact Hy|done]. }
      cbv beta iota. eapply (ok_bind _ tt); [apply empty_fields_Ok; by apply (fold_remove_nil m [s! "case"; s! "value"])|done].
    + eexists. eapply ok_bind; [by apply object_Ok|]. eapply ok_bind; [by apply take_Ok|]. eapply ok_bind; [by apply ok_or_Ok|].
      eapply ok_bind; [by apply ok_or_Ok|]. cbv beta iota. eapply (ok_bind _ (_, _)); [done|]. cbv beta iota.
      eapply (ok_bind _ tt); [apply empty_fields_Ok; by apply (fold_remove_nil m [s! "case"])|done].
Qed.

Lemma case_of n key c s v :
  key ∈ ["value"%string; "fields"%string] → conforms (S (S n)) (tagged_schema c (Some (key, s))) v = true → jget s! "case" v = Some (JString c).
Proof. intros Hkey (m & x & -> & Hc & _)%conforms_case_with; done. Qed.

Lemma describes_option n t : describes (S n) (schema_of t) t → describes (S (S (S n))) (schema_of (TOption t)) (TOption t).
Proof.
  intros Ht v path Hg. rewrite transform_eq. cbn [transform_step]. rewrite transform_tagged_accepts.
  pose (f := λ b : bool, if b then tagged_schema s! "none" None else tagged_schema s! "some" (Some ("value"%string, schema_of t))).
  assert (E : conforms (S (S (S n))) (schema_of (TOption t)) v = true ↔ ∃ b, b ∈ [true; false] ∧ conforms (S (S n)) (f b) v = true).
  { apply (one_of_unique f (λ b : bool, if b then s! "none" else s! "some") (S (S n)) [true; false] v).
    - apply (bool_decide_unpack _). vm_compute. exact I.
    - intros [] _ Hc; [by apply conforms_case in Hc as (m & -> & ? & _)|]. by eapply case_of in Hc; [|left]. }
  rewrite E. split.
  - intros ([] & _ & Hc).
    + apply conforms_case in Hc as (m & -> & Hc & Hk). by exists m, s! "none".
    + apply conforms_case_with in Hc as (m & x & -> & Hc & Hx & Hs & Hk); [|by left]. exists m, s! "some". split_and!; [done..|].
      exists x. split_and!; [done| |done]. apply Ht; [by eapply good_get|done].
  - intros (m & c & -> & Hc & Hp). simpl in Hp. destruct (str_eqb_spec c s! "none") as [->|_].
    { exists true. split; [by left|]. apply conforms_case. eauto. }
    destruct (str_eqb_spec c s! "some") as [->|_]; [|done]. destruct Hp as (x & Hx & Hy & Hk).
    exists false. split; [by right; left|]. apply conforms_case_with; [by left|]. exists m, x. split_and!; try done.
    eapply Ht; [by eapply good_get|done].
Qed.

Lemma describes_result n a b :
  describes (S n) (schema_of a) a → describes (S n) (schema_of b) b →
  describes (S (S (S n))) (schema_of (TResult a b)) (TResult a b).
Proof.
  intros Ha Hb v path Hg. rewrite transform_eq. cbn [transform_step]. rewrite transform_tagged_accepts.
  pose (name := λ ok : bool, if ok then s! "ok" else s! "err"). pose (ty := λ ok : bool, if ok then a else b).
  pose (f := λ ok, tagged_schema (name ok) (Some ("value"%string, schema_of (ty ok)))).
  assert (E : conforms (S (S (S n))) (schema_of (TResult a b)) v = true ↔ ∃ ok, ok ∈ [true; false] ∧ conforms (S (S n)) (f ok) v = true).
  { apply (one_of_unique f name (S (S n)) [true; false] v); [apply (bool_decide_unpack _); vm_compute; exact I|].
    intros ok _ Hc. by eapply case_of in Hc; [|left]. }
  assert (Hty : ∀ ok, describes (S n) (schema_of (ty ok)) (ty ok)) by (by intros []).
  assert (Hcase : ∀ ok, case_payload (TResult a b) (name ok) = Some (Some (ty ok))) by (by intros []).
  rewrite E. split.
  - intros (ok & _ & (m & x & -> & Hc & Hx & Hs & Hk)%conforms_case_with); [|by left]. exists m, (name ok). split_and!; [done..|].
    rewrite Hcase. exists x. split_and!; [done| |done]. apply Hty; [by eapply good_get|done].
  - intros (m & c & -> & Hc & Hp).
    assert (∃ ok, c = name ok) as [ok ->].
    { simpl in Hp. destruct (str_eqb_spec c s! "ok") as [->|_]; [by exists true|].
      destruct (str_eqb_spec c s! "err") as [->|_]; [by exists false|done]. }
    rewrite Hcase in Hp. destruct Hp as (x & Hx & Hy & Hk). exists ok. split; [destruct ok; [by left|by right; left]|].
    apply conforms_case_with; [by left|]. exists m, x. split_and!; try done. eapply Hty; [by eapply good_get|done].
Qed.

(** ** Declared types *)

Lemma named_record_accepts name n fs sp v path :
  bm_get name defs = Some (DRecord n fs sp) →
  (∃ w, transform_named defs span false transform name v path = Ok w) ↔
  ∃ w, transform_fields transform (field_types fs) v path = Ok w.
Proof.
  intros Hd. unfold transform_named. rewrite Hd. simpl. split; intros [w Hw].
  - res_inv. eauto.
  - rewrite Hw. simpl. eauto.
Qed.

Lemma named_union_accepts name n vs sp v path :
  bm_get name defs = Some (DUnion n vs sp) → NoDup (map vname vs) →
  (∃ w, transform_named defs span false transform name v path = Ok w) ↔
  ∃ m x var, v = JObject m ∧ var ∈ vs ∧ bm_get s! "case" m = Some (JString (vname var)) ∧ bm_get s! "fields" m = Some x ∧
    (∀ k, k ∈ m.*1 → k ∈ [s! "case"; s! "fields"]) ∧
    ∃ w, transform_fields transform (field_types (vfields var)) x (field_path path s! "fields") = Ok w.
Proof.
  intros Hd Hnd. unfold transform_named. rewrite Hd. split.
  - intros [w Hw]. apply bind_Ok in Hw as (d & [= <-] & Hw). apply bind_Ok in Hw as ([variant fv] & Hp & Hw).
    unfold named_parts in Hp. apply bind_Ok in Hp as (m & ->%object_Ok & Hp). apply bind_Ok in Hp as ([cv m1] & [Hc ->]%take_Ok & Hp).
    apply bind_Ok in Hp as (c & Hs%ok_or_Ok & Hp). destruct cv; try discriminate Hs. injection Hs as ->.
    apply bind_Ok in Hp as ([fv' m2] & [Hf ->]%take_Ok & Hp). apply bind_Ok in Hp as (u & He%empty_fields_Ok & [= <- <-]).
    apply bind_Ok in Hw as (fs & Hv & Hw). apply fmap_Ok in Hv as (var & Hv%ok_or_Ok & <-).
    apply find_some in Hv as [Hin%list_elem_of_In Hname%str_eqb_eq]. subst c.
    apply bind_Ok in Hw as (w' & Hw' & _). exists m, fv', var. split_and!; try done.
    + change s! "fields" with (lit "fields"%string) in Hf. rewrite remove_case in Hf by (by right; left). done.
    + by apply (fold_remove_nil m [s! "case"; s! "fields"]).
    + by exists w'.
  - intros (m & x & var & -> & Hin & Hc & Hx & Hk & w & Hw).
    assert (Hfind : List.find (λ item, vname item =s vname var) vs = Some var).
    { clear -Hnd Hin. induction vs as [|y vs IH]; [set_solver|]. simpl in *. apply NoDup_cons in Hnd as [Hy Hnd].
      destruct (str_eqb_spec (vname y) (vname var)) as [E|Hne].
      - apply elem_of_cons in Hin as [->|Hin]; [done|]. exfalso. apply Hy. rewrite E. apply list_elem_of_fmap. eauto.
      - apply IH; [done|]. apply elem_of_cons in Hin as [->|Hin]; done. }
    eexists. eapply (ok_bind _ (DUnion n vs sp)); [done|]. eapply (ok_bind _ (Some (vname var), x)).
    { unfold named_parts. eapply ok_bind; [by apply object_Ok|]. eapply (ok_bind _ (_, _)); [by apply take_Ok|].
      cbv beta iota. eapply ok_bind; [by apply ok_or_Ok|].
      eapply (ok_bind _ (_, _)); [apply take_Ok; split; [exact (eq_trans (remove_case m "fields" ltac:(right; left)) Hx)|done]|].
      cbv beta iota. eapply (ok_bind _ tt); [apply empty_fields_Ok; by apply (fold_remove_nil m [s! "case"; s! "fields"])|done]. }
    cbv beta iota. rewrite Hfind. eapply ok_bind; [done|]. cbn [is_some]. eapply ok_bind; [exact Hw|done].
Qed.

(** Records have distinct fields, in a type and in a definition. *)
Fixpoint distinct_fields (t : Ty) : Prop :=
  match t with
  | TList t | TMap t | TOption t => distinct_fields t
  | TResult a b => distinct_fields a ∧ distinct_fields b
  | TStructuralRecord fs => NoDup fs.*1 ∧ foldr (λ nt P, distinct_fields nt.2 ∧ P) True fs
  | _ => True
  end.
Definition distinct_definition (d : TypeDefinition) : Prop :=
  Forall distinct_fields (definition_types d) ∧
  match d with
  | DRecord _ fs _ => NoDup (map fname fs)
  | DUnion _ vs _ => NoDup (map vname vs) ∧ Forall (λ v, NoDup (map fname (vfields v))) vs
  end.

Context (Hdefs : ∀ n d, bm_get n defs = Some d → distinct_definition d).

Lemma field_types_keys fs : (field_types fs).*1 = map fname fs.
Proof. unfold field_types. rewrite <- list_fmap_compose. done. Qed.

Lemma describes_record_definition k name n fs sp :
  bm_get name defs = Some (DRecord n fs sp) → Forall (λ f, describes k (schema_of (fty f)) (fty f)) fs →
  describes (S k) (definition_schema_of (DRecord n fs sp)) (TNamed name).
Proof.
  intros Hd Hf v path Hg. rewrite transform_eq. cbn [transform_step]. rewrite (named_record_accepts name n fs sp) by done.
  simpl definition_schema_of. apply transform_fields_accepts; [|done|].
  - rewrite field_types_keys. by destruct (Hdefs _ _ Hd).
  - unfold field_types. apply List.Forall_map. exact Hf.
Qed.

Lemma describes_union_definition k name n vs sp :
  bm_get name defs = Some (DUnion n vs sp) → Forall (λ v, Forall (λ f, describes (S k) (schema_of (fty f)) (fty f)) (vfields v)) vs →
  describes (S (S (S (S k)))) (definition_schema_of (DUnion n vs sp)) (TNamed name).
Proof.
  intros Hd Hf v path Hg. destruct (Hdefs _ _ Hd) as [_ [Hnames Hnd]]. rewrite transform_eq. cbn [transform_step].
  rewrite (named_union_accepts name n vs sp) by done. simpl definition_schema_of.
  rewrite (one_of_unique variant_schema_of vname) by (done || (intros x _ Hc; by eapply case_of in Hc; [|right; left])).
  rewrite Forall_forall in Hf, Hnd.
  assert (Hrec : ∀ var x p, var ∈ vs → good x →
    conforms (S (S k)) (record_of schema_of (field_types (vfields var))) x = true ↔ ∃ w, transform_fields transform (field_types (vfields var)) x p = Ok w).
  { intros var x p Hin Hx. apply transform_fields_accepts; [by rewrite field_types_keys; apply Hnd|done|].
    unfold field_types. apply List.Forall_map. by apply Hf. }
  split.
  - intros (var & Hin & (m & x & -> & Hc & Hx & Hs & Hk)%conforms_case_with); [|by right; left].
    exists m, x, var. split_and!; try done. apply Hrec; [done|by eapply good_get|done].
  - intros (m & x & var & -> & Hin & Hc & Hx & Hk & Hw). exists var. split; [done|]. apply conforms_case_with; [by right; left|].
    exists m, x. split_and!; try done. eapply Hrec; [done|by eapply good_get|done].
Qed.

(** ** All types *)

Definition described (t : Ty) : Prop := ∃ N, ∀ n, (N ≤ n)%nat → describes n (schema_of t) t.

Lemma described_all {A} (f : A → Ty) l :
  Forall (λ x, described (f x)) l → ∃ N, ∀ n, (N ≤ n)%nat → Forall (λ x, describes n (schema_of (f x)) (f x)) l.
Proof.
  induction 1 as [|x l [N HN] _ [M HM]]; [by exists 0%nat|]. exists (N + M)%nat. intros n Hn.
  constructor; [apply HN; lia|apply HM; lia].
Qed.

(** The names in [E] are defined in the document. *)
Context (E : str → Prop)
  (Hroot : ∀ n d, E n → bm_get n defs = Some d →
     (jget s! "$defs" root ≫= jget n) = Some (definition_schema_of d) ∧ ∀ m, m ∈ definition_names d → E m).

Lemma described_scalar t : scalar t = true → described t.
Proof. intros Ht. exists 1%nat. intros [|n] Hn; [lia|]. by apply describes_scalar. Qed.

Lemma described_definition name d :
  E name → bm_get name defs = Some d → Forall described (definition_types d) → described (TNamed name).
Proof.
  intros HE Hd Hall. destruct (Hroot name d HE Hd) as [Hget _].
  assert (∃ N, ∀ n, (N ≤ n)%nat → describes n (definition_schema_of d) (TNamed name)) as [N HN].
  { destruct d as [n fs sp|n vs sp]; simpl in Hall.
    - destruct (described_all fty fs (proj1 (List.Forall_map _ _ _) Hall)) as [N HN]. exists (S N).
      intros [|k] Hk; [lia|]. apply describes_record_definition; [done|]. apply HN. lia.
    - assert (∃ N, ∀ n, (N ≤ n)%nat → Forall (λ v, Forall (λ f, describes n (schema_of (fty f)) (fty f)) (vfields v)) vs) as [N HN].
      { clear -Hall. induction vs as [|v vs IH]; [exists 0%nat; constructor|]. simpl in Hall. apply Forall_app in Hall as [Hv Hall].
        destruct (IH Hall) as [N HN]. destruct (described_all fty (vfields v) (proj1 (List.Forall_map _ _ _) Hv)) as [M HM].
        exists (N + M)%nat. intros n Hn. constructor; [apply HM; lia|apply HN; lia]. }
      exists (S (S (S (S N)))). intros [|[|[|[|k]]]] Hk; try lia. apply describes_union_definition; [done|]. apply HN. lia. }
  exists (S N). intros [|k] Hk; [lia|]. intros v path Hg. cbn [schema_of]. rewrite conforms_ref, Hget. apply HN; [lia|done].
Qed.

Lemma described_data t : json_data defs t → distinct_fields t → (∀ n, n ∈ named_in t → E n) → described t.
Proof.
  intros Ht. apply (json_data_nested_ind defs (λ t, distinct_fields t → (∀ n, n ∈ named_in t → E n) → described t));
    try (intros; by apply described_scalar).
  - intros u IH Hf HE. destruct (IH Hf HE) as [N HN]. exists (S N). intros [|n] Hn; [lia|]. apply describes_list, HN. lia.
  - intros u IH Hf HE. destruct (IH Hf HE) as [N HN]. exists (S N). intros [|n] Hn; [lia|]. apply describes_map, HN. lia.
  - intros u IH Hf HE. destruct (IH Hf HE) as [N HN]. exists (S (S (S N))). intros [|[|[|n]]] Hn; try lia.
    apply describes_option, HN. lia.
  - intros a b IHa IHb [Hfa Hfb] HE. destruct (IHa Hfa ltac:(intros; apply HE; simpl; set_solver)) as [N HN].
    destruct (IHb Hfb ltac:(intros; apply HE; simpl; set_solver)) as [M HM].
    exists (S (S (S (N + M)))). intros [|[|[|n]]] Hn; try lia. apply describes_result; [apply HN|apply HM]; lia.
  - intros fs IH [Hnd Hf] HE. destruct (described_all snd fs) as [N HN].
    { simpl in HE. clear Hnd. induction IH as [|nt fs Hnt IH IH']; [constructor|]. destruct Hf as [Hf1 Hf2]. simpl in HE.
      constructor; [apply Hnt; [done|]; set_solver|]. apply IH'; [done|]. intros. apply HE. set_solver. }
    exists (S N). intros [|n] Hn; [lia|]. intros v path Hg. rewrite transform_eq. simpl transform_step.
    unfold transform_structural. simpl.
    transitivity (∃ w, transform_fields transform fs v path = Ok w).
    + simpl schema_of. apply transform_fields_accepts; [done..|]. apply HN. lia.
    + split; [intros [w ->]; eauto|]. intros [w H']. res_inv. eauto.
  - intros name d Hd IH _ HE. assert (HEn : E name) by (apply HE; simpl; by left).
    apply (described_definition name d HEn Hd). destruct (Hdefs _ _ Hd) as [Hdf _]. destruct (Hroot name d HEn Hd) as [_ Hnames].
    unfold definition_names in Hnames. induction IH as [|t' l Ht' IH IH']; [constructor|]. inversion Hdf; subst. simpl in Hnames.
    constructor; [apply Ht'; [done|]; set_solver|]. apply IH'; [done|]. set_solver.
  - exact Ht.
Qed.

(** ** The document *)

Lemma conforms_defs n m x v : conforms n (JObject (bm_insert s! "$defs" x m)) v = conforms n (JObject m) v.
Proof.
  destruct n as [|n]; [done|]. cbn [JsonSchema.conforms].
  assert (Hk : ∀ (key : string) (f : Json → bool), lit key ≠ s! "$defs" → on_keyword (bm_insert s! "$defs" x m) key f = on_keyword m key f).
  { intros key f Hne. unfold on_keyword. rewrite bm_get_insert. by destruct (str_eqb_spec (lit key) s! "$defs"). }
  assert (Hp : properties_of (bm_insert s! "$defs" x m) = properties_of m).
  { unfold properties_of. by rewrite bm_get_insert. }
  rewrite Hp. by rewrite !Hk by done.
Qed.
End sound.

(** ** Where the hypotheses come from *)

Lemma source_distinct t : source_ty t = true → distinct_fields t.
Proof. induction t using ty_nested_ind; simpl; try done; auto. intros [? ?]%andb_true_iff. auto. Qed.

Section parsed.
Context `{CharClass}.

Lemma parse_variants_distinct limits l names vs :
  parse_variants limits l names = Ok vs → NoDup (map vname vs) ∧ ∀ n, n ∈ map vname vs → n ∉ names.
Proof.
  revert names vs. induction l as [|e l IH]; intros names vs Hm; simpl in Hm; res_inv; [split; [constructor|set_solver]|].
  destruct a as [|n fs]; [done|]. res_inv. case_match_in Hm. res_inv.
  match goal with Hb : _ || _ = false |- _ => apply orb_false_iff in Hb as [_ Hb] end.
  match goal with Hf : parse_variants _ _ _ = _ |- _ => apply IH in Hf as [Hnd Hout] end.
  match goal with Hb : bs_contains ?x names = false |- _ => assert (x ∉ names) by (rewrite <- bs_contains_In; congruence) end.
  simpl. split.
  - constructor; [|done]. intros Hin%Hout. rewrite bs_insert_In in Hin. tauto.
  - intros m [->|Hm]%elem_of_cons; [done|]. apply Hout in Hm. rewrite bs_insert_In in Hm. tauto.
Qed.

Lemma parse_definition_distinct limits kind name e parts d :
  parse_definition limits kind name e parts = Ok d → distinct_definition d.
Proof.
  unfold parse_definition. intros Hm. case_match_in Hm.
  - res_inv. match goal with Hf : parse_field_definitions _ _ = _ |- _ => apply parse_field_definitions_ok in Hf as [Hnd Hs] end.
    split; [|done]. simpl. apply List.Forall_map. eapply Forall_impl; [exact Hs|]. intros f. apply source_distinct.
  - case_match_in Hm. res_inv. destruct a as [|v vs]; [done|]. injection Hm as <-.
    match goal with Hf : parse_variants _ _ _ = _ |- _ => pose proof (parse_variants_ok _ _ _ _ Hf) as Hok; apply parse_variants_distinct in Hf as [Hnd _] end.
    split; [|split; [done|eapply Forall_impl; [exact Hok|intros x [? _]; done]]].
    unfold definition_types. revert Hok. generalize (v :: vs). clear. intros vs. induction 1 as [|x l [_ Hx] _ IH]; [constructor|].
    simpl. apply Forall_app. split; [|done]. apply List.Forall_map. eapply Forall_impl; [exact Hx|]. intros f. apply source_distinct.
Qed.

(** The declarations of a module are distinct in this sense. *)
Lemma parsed_definitions_distinct limits e ds :
  parse_type_definitions limits e = Ok ds → ∀ n d, bm_get n ds = Some d → distinct_definition d.
Proof.
  unfold parse_type_definitions. intros Hm. res_inv.
  assert (Forall (λ nd, distinct_definition nd.2) ds) as Hall.
  { eapply (foldM_inv (λ ds : Definitions, Forall (λ nd, distinct_definition nd.2) ds)); [|constructor|exact Hm].
    intros b x b' Hb Hx. unfold parse_type_declaration in Hx. res_inv.
    match goal with H : context [head_symbol ?l] |- _ => destruct (head_symbol l) as [k|]; [|done]; destruct (l !! 1%nat); [|done] end.
    res_inv. case_match_in Hx. case_match_in Hx. res_inv. apply bm_insert_Forall; [|done]. by eapply parse_definition_distinct. }
  intros n d Hd%bm_get_elem. rewrite Forall_forall in Hall. by apply (Hall (n, d)).
Qed.

End parsed.

(** ** Main theorem *)

Lemma schema_of_object t : ∃ m, schema_of t = JObject m.
Proof. by destruct t; eexists. Qed.

(** C7. The schema that a model is shown is exact: for every type that may cross the boundary the schema
    is built (every type it mentions is declared, and the loop over them ends), and the documents
    that conform to it, by the meaning of the keywords in the JSON Schema standard, are
    exactly those that [from_json] accepts at the type.  The one divergence is excluded by a
    hypothesis: where the standard reads a float such as 1.0 as an integer, [from_json] does not. *)
Theorem schema_is_exact defs span integral t :
  (∀ n d, bm_get n defs = Some d → distinct_definition d) → distinct_fields t → validate_json_type defs t = Ok tt →
  ∃ s, json_schema t defs = Ok s ∧
  ∃ N, ∀ fuel v, (N ≤ fuel)%nat → json_wf v → no_integral integral v = true →
    conforms integral s fuel s v = true ↔ ∃ w, from_json t v defs span = Ok w.
Proof.
  intros Hdefs Hf Hv. pose proof (proj1 (validate_json_type_iff defs t) Hv) as Ht.
  destruct (json_schema_document defs t Ht) as (e & (_ & _ & _ & He) & Hnames & Hs).
  destruct (schema_of_object t) as [m Em]. rewrite Em in Hs.
  set (root := match e with [] => JObject m | _ => JObject (bm_insert s! "$defs" (JObject e) m) end).
  exists root. split; [rewrite Hs; by destruct e|].
  destruct (described_data defs span integral root Hdefs (λ n, is_Some (bm_get n e))) with (t := t) as [N HN]; try done.
  { intros n d [s Hn] Hd. destruct (He n s Hn) as (d' & Hd' & -> & Hcov). simplify_eq. split.
    - unfold root. destruct e as [|ks e]; [done|]. simpl jget. rewrite bm_get_insert_eq. exact Hn.
    - intros k Hk. destruct (Hcov k Hk) as [?%elem_of_nil|]; done. }
  exists N. intros fuel v Hfuel Hw Hi.
  assert (E : conforms integral root fuel root v = conforms integral root fuel (schema_of t) v).
  { rewrite Em. unfold root at 2. destruct e; [done|]. apply conforms_defs. }
  rewrite E, (HN fuel Hfuel v s! "$") by done. unfold from_json, convert. rewrite Hv. simpl. split.
  - intros [w ->]. eauto.
  - intros [w Hw']. destruct (transform _ _ _ _ _ _) eqn:Et; [eauto|done].
Qed.

(** A union with a record inside, through a list. *)
Definition sample_types : Definitions :=
  [(s! "Answer", DUnion s! "Answer"
      [mkVariant s! "Found" [mkField s! "notes" (TList (TNamed s! "Note")) empty_span] empty_span;
       mkVariant s! "Missing" [] empty_span] empty_span);
   (s! "Note", DRecord s! "Note" [mkField s! "body" TString empty_span; mkField s! "stars" (TOption TInt) empty_span] empty_span)].

Lemma sample_types_distinct n d : bm_get n sample_types = Some d → distinct_definition d.
Proof.
  simpl. repeat case_match; intros [= <-]; (split; [repeat constructor|]); simpl;
    split_and?; try (apply (bool_decide_unpack _); vm_compute; exact I).
Qed.

Lemma schema_is_exact_witness :
  ∃ s, json_schema (TNamed s! "Answer") sample_types = Ok s ∧
  ∃ N, ∀ fuel v, (N ≤ fuel)%nat → json_wf v → no_integral (λ _, false) v = true →
    conforms (λ _, false) s fuel s v = true ↔ ∃ w, from_json (TNamed s! "Answer") v sample_types empty_span = Ok w.
Proof.
  apply (schema_is_exact sample_types empty_span (λ _, false) (TNamed s! "Answer")).
  - exact sample_types_distinct.
  - exact I.
  - vm_compute. reflexivity.
Defined.

(** A document for the sample, and one with an unknown field. *)
Definition sample_answer (extra : list (string * Json)) : Json :=
  jobj [("case", jstr "Found");
        ("fields", jobj [("notes", JArray [jobj ([("body", jstr "hi"); ("stars", jobj [("case", jstr "none")])] ++ extra)])])].

Example sample_conforms :
  match json_schema (TNamed s! "Answer") sample_types with
  | Ok s => conforms (λ _, false) s 20 s (sample_answer []) = true ∧ conforms (λ _, false) s 20 s (sample_answer [("x", JNull)]) = false
  | Err _ => False
  end.
Proof. vm_compute. split; reflexivity. Qed.

(** Where the standard reads 1.0 as an integer, the document conforms and is refused. *)
Example integral_float_refused :
  let one := JNumber (NFloat (f64_of_Z 1)) in
  conforms (λ _, true) (jobj []) 5 (schema_of TInt) one = true ∧ is_ok (from_json TInt one [] empty_span) = false.
Proof. vm_compute. split; reflexivity. Qed.
