(* ===== verification/ApprovalIdentity.v ===== *)
(** * The identity of an approval (morphz/src/approval_authority.rs)

    An approval is identified by what is asked: the job, the action, the capabilities that are
    requested and the permission policy.  The identifiers are digests of a framed encoding, so
    that a restart, a retry or another order of the capabilities finds the same approval, and nothing
    else does ([approval_identity_exact]).  The text of a JSON value is serde_json's, a parameter. *)

From stdpp Require Import base list gmap strings sorting.
From Stdlib Require Import NArith ZArith Lia Sorted.
From S2P Require Import Prelude Ordering Types JsonValue Diagnostic Text DecodeFacts Permission Approval.

(** ** Encoding *)

(** [Vec::dedup] on values. *)
Fixpoint dedup_values (l : list Json) : list Json :=
  match l with
  | x :: (y :: _) as r => if json_eqb x y then dedup_values r else x :: dedup_values r
  | _ => l
  end.

Section identity.
Context `{JsonCodec} `{Digest}.

(** The order of the texts; that of strings is that of their bytes. *)
Definition text_cmp (a b : Json) : comparison := str_cmp (json_to_vec a) (json_to_vec b).

(** morphz/src/approval_authority.rs:212-236 [canonical_value]. *)
Fixpoint canonical_value (set_arrays : bool) (v : Json) : Json :=
  match v with
  | JObject m => JObject (bm_of_list (map (λ kv, (kv.1, canonical_value set_arrays kv.2)) m))
  | JArray l =>
      let normalized := map (canonical_value set_arrays) l in
      JArray (if set_arrays then dedup_values (merge_sort (not_gt text_cmp) normalized) else normalized)
  | _ => v
  end.

(** morphz/src/approval_authority.rs:206-210 [canonical_json]. *)
Definition canonical_json (v : Json) (set_arrays : bool) : list N := json_to_vec (canonical_value set_arrays v).

(** The bytes that are digested: every part after its length. *)
Definition framed (domain : list N) (parts : list (list N)) : list N := domain ++ concat (map length_prefixed parts).

(** morphz/src/approval_authority.rs:238-246 [digest_parts]. *)
Definition digest_parts (domain : list N) (parts : list (list N)) : str := sha256_hex (framed domain parts).

(** morphz/src/approval_authority.rs:16 [REQUEST_DOMAIN]. *)
Definition REQUEST_DOMAIN : list N := utf8 s! "morphz.approval-request.v1" ++ [0%N].
(** morphz/src/approval_authority.rs:17 [APPROVAL_ID_DOMAIN]. *)
Definition APPROVAL_ID_DOMAIN : list N := utf8 s! "morphz.approval-id.v1" ++ [0%N].
(** morphz/src/approval_authority.rs:18 [GRANT_ID_DOMAIN]. *)
Definition GRANT_ID_DOMAIN : list N := utf8 s! "morphz.approval-grant.v1" ++ [0%N].

(** morphz/src/approval_authority.rs:197-204 [require_nonempty]. *)
Definition require_nonempty (field value : str) : result Message str :=
  let value := trim value in
  if value =s [] then Err (Msg "{field} must not be empty" [AStr field]) else Ok value.

(** morphz/src/approval_authority.rs:20-25 [StableApprovalIdentity]. *)
Record StableApprovalIdentity : Type := mkIdentity { si_approval_id : str; si_request_digest : str; si_policy_digest : str }.

(** morphz/src/approval_authority.rs:27-54 [stable_approval_identity]. *)
Definition stable_approval_identity (job_id : str) (action requested : Json) (policy_digest : str) : result Message StableApprovalIdentity :=
  job_id ← require_nonempty s! "job_id" job_id;
  policy_digest ← require_nonempty s! "policy_digest" policy_digest;
  let action := canonical_json action false in
  let requested := canonical_json requested true in
  let request_digest := digest_parts REQUEST_DOMAIN [action; requested] in
  Ok (mkIdentity
        (s! "approval_" ++ digest_parts APPROVAL_ID_DOMAIN [utf8 job_id; utf8 request_digest; utf8 policy_digest])
        request_digest policy_digest).

(** morphz/src/approval_authority.rs:56-75 [stable_grant_id]. *)
Definition stable_grant_id (approval_id request_digest policy_digest : str) : result Message str :=
  approval_id ← require_nonempty s! "approval_id" approval_id;
  request_digest ← require_nonempty s! "request_digest" request_digest;
  policy_digest ← require_nonempty s! "policy_digest" policy_digest;
  Ok (s! "grant_" ++ digest_parts GRANT_ID_DOMAIN [utf8 approval_id; utf8 request_digest; utf8 policy_digest]).
End identity.

(** ** Specification *)

(** No number of the value is a float, so that [==] on it is equality. *)
Fixpoint float_free (v : Json) : bool :=
  match v with
  | JNumber (NFloat _) => false
  | JArray l => forallb float_free l
  | JObject m => forallb (λ kv, float_free kv.2) m
  | _ => true
  end.

(** Two requests ask for the same: arrays hold the same elements, in any order and number, at every
    level; everything else is equal. *)
Fixpoint same_request (a b : Json) : bool :=
  match a, b with
  | JArray l, JArray l' =>
      forallb (λ x, existsb (same_request x) l') l && forallb (λ y, existsb (λ x, same_request x y) l) l'
  | JObject m, JObject m' => entries_eqb same_request m m'
  | _, _ => json_eqb a b
  end.

(** A value the theorems speak of: a map at every object, no floats. *)
Definition plain (v : Json) : Prop := json_wf v ∧ float_free v = true.

(** ** Framing is injective *)

Local Open Scope N_scope.

Lemma digits64 c :
  c = 64 * (c / 64) + c mod 64 ∧ c / 64 = 64 * (c / 4096) + c / 64 mod 64
  ∧ c / 4096 = 64 * (c / 262144) + c / 4096 mod 64
  ∧ c mod 64 < 64 ∧ c / 64 mod 64 < 64 ∧ c / 4096 mod 64 < 64.
Proof.
  pose proof (N.Div0.div_mod c 64). pose proof (N.Div0.div_mod (c / 64) 64) as H1.
  pose proof (N.Div0.div_mod (c / 4096) 64) as H2. rewrite N.Div0.div_div in H1, H2.
  split_and!; [done..| | |]; by apply N.mod_lt.
Qed.

Lemma utf8_char_inj c d r r' : utf8_char c ++ r = utf8_char d ++ r' → c = d ∧ r = r'.
Proof.
  unfold utf8_char. pose proof (digits64 c). pose proof (digits64 d).
  destruct (N.ltb_spec c 0x80), (N.ltb_spec d 0x80), (N.ltb_spec c 0x800), (N.ltb_spec d 0x800),
    (N.ltb_spec c 0x10000), (N.ltb_spec d 0x10000); simpl; try lia; intros [=]; split; try done; lia.
Qed.

Lemma utf8_inj s t : utf8 s = utf8 t → s = t.
Proof.
  revert t. induction s as [|c s IH]; intros [|d t]; unfold utf8; simpl; [done|..].
  - by destruct (utf8_char d) eqn:E; [unfold utf8_char in E; repeat case_match|].
  - by destruct (utf8_char c) eqn:E; [unfold utf8_char in E; repeat case_match|].
  - intros [-> H]%utf8_char_inj. f_equal. by apply IH.
Qed.

Local Open Scope Z_scope.

(** Eight bytes hold a number of 64 bits. *)
Lemma be_bytes_inj a b : 0 ≤ a < 2 ^ 64 → 0 ≤ b < 2 ^ 64 → be_bytes a = be_bytes b → a = b.
Proof.
  assert (∀ z, 0 ≤ z < 2 ^ 64 → z = fold_left (λ acc x, 256 * acc + Z.of_N x) (be_bytes z) 0) as Hread.
  { intros z Hz. unfold be_bytes. simpl. rewrite (Z.mod_small z) by done.
    rewrite !Z2N.id by (apply Z.mod_pos_bound; lia).
    Z.to_euclidean_division_equations. lia. }
  intros Ha Hb Heq. rewrite (Hread a), (Hread b) by done. by rewrite Heq.
Qed.

Definition short (part : list N) : Prop := Z.of_nat (length part) < 2 ^ 64.

Lemma length_prefixed_inj a b r r' :
  short a → short b → length_prefixed a ++ r = length_prefixed b ++ r' → a = b ∧ r = r'.
Proof.
  unfold length_prefixed, short. intros Ha Hb. rewrite <- !(assoc_L (++)). intros [Hlen Heq]%app_inj_1; [|done].
  apply be_bytes_inj in Hlen; [|lia..]. apply app_inj_1; [lia|done].
Qed.

Lemma framed_inj domain ps qs :
  length ps = length qs → Forall short ps → Forall short qs → framed domain ps = framed domain qs → ps = qs.
Proof.
  unfold framed. intros Hlen Hps Hqs Heq%(inj (app domain)). revert qs Hlen Hqs Heq.
  induction Hps as [|p ps Hp Hps IH]; intros [|q qs]; simpl; try done.
  intros [= Hlen] [Hq Hqs]%Forall_cons [-> Heq]%length_prefixed_inj; [|done..]. f_equal. by apply IH.
Qed.

(** ** Equality of values *)

Lemma forallb_Forall {A} (f : A → bool) l : forallb f l = true ↔ Forall (λ x, f x = true) l.
Proof. rewrite forallb_forall, Forall_forall. by setoid_rewrite list_elem_of_In. Qed.

Lemma list_eqb_spec {A} (eqb : A → A → bool) l l' :
  Forall (λ x, ∀ y, eqb x y = true ↔ x = y) l → list_eqb eqb l l' = true ↔ l = l'.
Proof.
  intros H. revert l'. induction H as [|x l Hx Hl IH]; intros [|y l']; simpl; try done.
  rewrite andb_true_iff, IH, Hx. naive_solver.
Qed.

Lemma json_eqb_eq v : float_free v = true → ∀ w, json_eqb v w = true ↔ v = w.
Proof.
  induction v as [|b|n|s|l IH|m IH] using json_nested_ind; simpl; intros Hf w.
  - by destruct w.
  - destruct w as [|b'| | | |]; try done. rewrite Bool.eqb_true_iff. naive_solver.
  - destruct n as [z|z|f]; [| |done]; (destruct w as [| |[z'|z'|f']| | |]; simpl; try done);
      rewrite Z.eqb_eq; naive_solver.
  - destruct w as [| | |s'| |]; try done. rewrite str_eqb_eq. naive_solver.
  - destruct w as [| | | |l'|]; try done. rewrite forallb_Forall in Hf. rewrite list_eqb_spec; [naive_solver|].
    rewrite Forall_forall in *. naive_solver.
  - destruct w as [| | | | |m']; try done. rewrite forallb_Forall in Hf. rewrite entries_eqb_spec; [naive_solver|].
    rewrite Forall_forall in *. naive_solver.
Qed.

(** ** Removing duplicates *)

Section dedup.
Context (l : list Json) (Hl : Forall (λ x, float_free x = true) l).

Lemma dedup_values_elem x : x ∈ dedup_values l ↔ x ∈ l.
Proof.
  induction l as [|a [|b r] IH]; [done..|]. apply Forall_cons in Hl as [Ha Hr].
  specialize (IH Hr). change (dedup_values (a :: b :: r)) with
    (if json_eqb a b then dedup_values (b :: r) else a :: dedup_values (b :: r)).
  destruct (json_eqb a b) eqn:E; [|set_solver]. apply json_eqb_eq in E as ->; [|done]. set_solver.
Qed.

Lemma dedup_values_sublist : dedup_values l `sublist_of` l.
Proof.
  induction l as [|a [|b r] IH]; [done..|]. apply Forall_cons in Hl as [Ha Hr]. specialize (IH Hr).
  change (dedup_values (a :: b :: r)) with
    (if json_eqb a b then dedup_values (b :: r) else a :: dedup_values (b :: r)).
  by destruct (json_eqb a b); constructor.
Qed.
End dedup.

Lemma sublist_sorted {A} (R : relation A) l l' : l `sublist_of` l' → StronglySorted R l' → StronglySorted R l.
Proof.
  induction 1 as [|x l l' Hsub IH|x l l' Hsub IH]; intros Hs; [constructor|..];
    inversion Hs as [|? ? Hs' Hx]; subst; [|by apply IH].
  constructor; [by apply IH|]. rewrite Forall_forall in *. intros y Hy. by eapply Hx, elem_of_sublist.
Qed.

Section canonical.
Context `{JsonCodec}.
(** serde_json writes different values differently. *)
Context (Htext : ∀ a b, plain a → plain b → json_to_vec a = json_to_vec b → a = b).

Lemma text_separates a b : plain a → plain b → text_cmp a b = Eq → a = b.
Proof. unfold text_cmp. intros Ha Hb E%str_cmp_eq. by apply Htext. Qed.

#[local] Instance text_comparison : Comparison text_cmp.
Proof. apply str_cmp_on. Qed.

Lemma plain_floats l : Forall plain l → Forall (λ x, float_free x = true) l.
Proof. intros Hl. eapply Forall_impl; [exact Hl|]. by intros ? []. Qed.

Lemma dedup_values_NoDup l : Forall plain l → StronglySorted (not_gt text_cmp) l → NoDup (dedup_values l).
Proof.
  induction l as [|a [|b r] IH]; intros Hl Hs; [constructor|apply NoDup_singleton|].
  apply Forall_cons in Hl as [Ha Hr]. inversion Hs as [|? ? Hs' Hle]; subst. specialize (IH Hr Hs').
  change (dedup_values (a :: b :: r)) with
    (if json_eqb a b then dedup_values (b :: r) else a :: dedup_values (b :: r)).
  destruct (json_eqb a b) eqn:E; [done|]. constructor; [|done].
  rewrite (dedup_values_elem _ (plain_floats _ Hr)). intros Hin.
  assert (a = b) as ->; [|by rewrite (proj2 (json_eqb_eq b (proj2 Ha) b)) in E].
  apply elem_of_cons in Hin as [?|Hin]; [done|]. apply Forall_cons in Hr as [Hb Hr'].
  apply text_separates; [done..|]. apply (not_gt_antisym text_cmp).
  - by apply Forall_cons in Hle as [? _].
  - inversion Hs' as [|? ? _ Hb']; subst. rewrite Forall_forall in Hb'. by apply Hb'.
Qed.

(** The canonical form of a list of values: sorted, without duplicates. *)
Definition as_set (l : list Json) : list Json := dedup_values (merge_sort (not_gt text_cmp) l).

Lemma sorted_plain l : Forall plain l → Forall plain (merge_sort (not_gt text_cmp) l).
Proof. intros Hl. by rewrite merge_sort_Permutation. Qed.

Lemma as_set_elem l x : Forall plain l → x ∈ as_set l ↔ x ∈ l.
Proof.
  intros Hl. unfold as_set. rewrite dedup_values_elem by (by apply plain_floats, sorted_plain).
  by rewrite merge_sort_Permutation.
Qed.

Lemma as_set_sorted l : Forall plain l → StronglySorted (not_gt text_cmp) (as_set l) ∧ NoDup (as_set l).
Proof.
  intros Hl%sorted_plain. assert (StronglySorted (not_gt text_cmp) (merge_sort (not_gt text_cmp) l)) as Hs
    by (apply StronglySorted_merge_sort; apply _).
  split; [|by apply dedup_values_NoDup].
  eapply sublist_sorted; [|exact Hs]. by apply dedup_values_sublist, plain_floats.
Qed.

(** The canonical form determines the set, and the set the canonical form. *)
Lemma as_set_ext l l' : Forall plain l → Forall plain l' → as_set l = as_set l' ↔ (∀ x, x ∈ l ↔ x ∈ l').
Proof.
  intros Hl Hl'. split.
  { intros Heq x. by rewrite <- (as_set_elem l), <- (as_set_elem l'), Heq. }
  intros Hext. destruct (as_set_sorted l Hl) as [Hs Hd], (as_set_sorted l' Hl') as [Hs' Hd'].
  apply (StronglySorted_unique_strong (not_gt text_cmp)); [|done..|].
  - intros x y Hx Hy Hxy Hyx. rewrite as_set_elem in Hx, Hy by done. rewrite Forall_forall in Hl, Hl'.
    apply text_separates; [by apply Hl|by apply Hl'|]. by apply (not_gt_antisym text_cmp).
  - apply NoDup_Permutation; [done..|]. intros x. by rewrite !as_set_elem.
Qed.

(** ** The canonical value *)

Lemma plain_array l : plain (JArray l) ↔ Forall plain l.
Proof.
  unfold plain. simpl. rewrite forallb_Forall, Forall_and. split; [intros [Hw ?]; by inversion Hw|].
  intros [? ?]. by split; [constructor|].
Qed.

Lemma plain_object m : plain (JObject m) ↔ bm_wf m ∧ Forall (λ kv, plain kv.2) m.
Proof.
  unfold plain. simpl. rewrite forallb_Forall, Forall_and. split; [intros [Hw ?]; by inversion Hw|].
  intros (? & ? & ?). by split; [constructor|].
Qed.

Lemma bm_wf_map (f : Json → Json) m : bm_wf m → bm_wf (map (λ kv, (kv.1, f kv.2)) m).
Proof.
  induction 1 as [|kv m Hm IH Hall]; simpl; [constructor|]. constructor; [done|].
  apply Forall_map. by eapply Forall_impl; [exact Hall|].
Qed.

Lemma canonical_object b m :
  bm_wf m → canonical_value b (JObject m) = JObject (map (λ kv, (kv.1, canonical_value b kv.2)) m).
Proof. intros Hm. simpl. by rewrite bm_of_list_sorted by (by apply bm_wf_map). Qed.

Lemma canonical_array l : canonical_value true (JArray l) = JArray (as_set (map (canonical_value true) l)).
Proof. done. Qed.

Lemma canonical_plain b v : plain v → plain (canonical_value b v).
Proof.
  induction v as [| | | |l IH|m IH] using json_nested_ind; try done.
  - rewrite plain_array. intros Hl.
    assert (Forall plain (map (canonical_value b) l)) as Hc.
    { apply Forall_map. rewrite Forall_forall in *. auto. }
    destruct b; [|by apply plain_array]. rewrite canonical_array, plain_array. rewrite Forall_forall in *. intros x.
    rewrite as_set_elem by (by rewrite Forall_forall). apply Hc.
  - rewrite plain_object. intros [Hm Hall]. rewrite canonical_object by done. rewrite plain_object.
    split; [by apply bm_wf_map|]. apply Forall_map. simpl. rewrite Forall_forall in *. auto.
Qed.

(** Without set semantics the canonical value is the value: its objects are sorted already. *)
Lemma canonical_ordered v : plain v → canonical_value false v = v.
Proof.
  induction v as [| | | |l IH|m IH] using json_nested_ind; try done.
  - rewrite plain_array. intros Hl. simpl. f_equal. rewrite <- (map_id l) at 2. apply map_ext_Forall.
    rewrite Forall_forall in *. auto.
  - rewrite plain_object. intros [Hm Hall]. rewrite canonical_object by done. f_equal.
    rewrite <- (map_id m) at 2. apply map_ext_Forall. rewrite Forall_forall in *. intros [k v] Hin. simpl.
    f_equal. apply (IH (k, v)); [done|]. by apply (Hall (k, v)).
Qed.

Lemma canonical_entries m m' :
  Forall (λ kv, ∀ w, plain kv.2 → plain w → canonical_value true kv.2 = canonical_value true w ↔ same_request kv.2 w = true) m →
  Forall (λ kv, plain kv.2) m → Forall (λ kv, plain kv.2) m' →
  map (λ kv, (kv.1, canonical_value true kv.2)) m = map (λ kv, (kv.1, canonical_value true kv.2)) m' ↔
  entries_eqb same_request m m' = true.
Proof.
  intros IH. revert m'. induction IH as [|[k v] m Hv Hm IH]; intros [|[k' v'] m']; simpl; try done.
  intros [Hp Hps]%Forall_cons [Hq Hqs]%Forall_cons. simpl in *.
  rewrite !andb_true_iff, str_eqb_eq, <- (IH m'), <- (Hv v') by done.
  split; [intros [=]; by split_and!|]. by intros [[-> ->] ->].
Qed.

Lemma canonical_elements l l' :
  Forall (λ v, ∀ w, plain v → plain w → canonical_value true v = canonical_value true w ↔ same_request v w = true) l →
  Forall plain l → Forall plain l' →
  (∀ x, x ∈ map (canonical_value true) l ↔ x ∈ map (canonical_value true) l') ↔
  same_request (JArray l) (JArray l') = true.
Proof.
  intros IH Hl Hl'. rewrite Forall_forall in IH, Hl, Hl'.
  assert (∀ x y, x ∈ l → y ∈ l' → canonical_value true x = canonical_value true y ↔ same_request x y = true)
    as Hsame by auto.
  simpl. rewrite andb_true_iff, !forallb_Forall, !Forall_forall.
  setoid_rewrite existsb_exists. setoid_rewrite <- list_elem_of_In. setoid_rewrite list_elem_of_fmap.
  split.
  - intros Hext. split; intros x Hx.
    + destruct (proj1 (Hext (canonical_value true x))) as (y & Hy & Hin); [eauto|]. exists y. by rewrite <- Hsame.
    + destruct (proj2 (Hext (canonical_value true x))) as (y & Hy & Hin); [eauto|]. exists y. by rewrite <- Hsame.
  - intros [Hto Hfrom] z. split.
    + intros (x & -> & Hx). destruct (Hto x Hx) as (y & Hy & ?%Hsame); eauto.
    + intros (y & -> & Hy). destruct (Hfrom y Hy) as (x & Hx & ?%Hsame); eauto.
Qed.

(** Two requests have the same canonical value exactly when they ask for the same. *)
Lemma canonical_same v w : plain v → plain w → canonical_value true v = canonical_value true w ↔ same_request v w = true.
Proof.
  revert w. induction v as [|b|n|s|l IH|m IH] using json_nested_ind; intros w Hv Hw.
  1-4: destruct w as [| | | |l'|m']; try (by rewrite canonical_object by (by apply plain_object in Hw));
       try done; cbn [canonical_value same_request]; symmetry; by apply (json_eqb_eq _ (proj2 Hv)).
  - apply plain_array in Hv. destruct w as [| | | |l'|m']; try done.
    apply plain_array in Hw. rewrite <- canonical_elements by done.
    rewrite !canonical_array, <- as_set_ext; [split; [by intros [=]|by intros ->]|..]; apply Forall_map;
      rewrite Forall_forall in *; auto using canonical_plain.
  - apply plain_object in Hv as [Hm Hv]. rewrite canonical_object by done.
    destruct w as [| | | | |m']; try done. apply plain_object in Hw as [Hm' Hw]. rewrite canonical_object by done.
    cbn [same_request]. rewrite <- canonical_entries by done. split; [by intros [=]|by intros ->].
Qed.
End canonical.

(** ** Approval identities *)

Section exact.
Context `{JsonCodec} `{Digest}.
(** serde_json writes different values differently; a digest is 64 hexadecimal digits. *)
Context (Htext : ∀ a b, plain a → plain b → json_to_vec a = json_to_vec b → a = b).
Context (Hhex : ∀ bytes, length (utf8 (sha256_hex bytes)) = 64%nat).

(** What an identity digests: the request, and the request under a job and a policy. *)
Definition request_material (action requested : Json) : list N :=
  framed REQUEST_DOMAIN [canonical_json action false; canonical_json requested true].
Definition id_material (job_id : str) (action requested : Json) (policy_digest : str) : list N :=
  framed APPROVAL_ID_DOMAIN [utf8 (trim job_id); utf8 (sha256_hex (request_material action requested)); utf8 (trim policy_digest)].

(** Inputs of a length the machine can hold. *)
Definition request_fits (action requested : Json) : Prop :=
  plain action ∧ plain requested ∧ short (canonical_json action false) ∧ short (canonical_json requested true).
Definition names_fit (job_id policy_digest : str) : Prop := short (utf8 (trim job_id)) ∧ short (utf8 (trim policy_digest)).

Definition separated (a b : list N) : Prop := sha256_hex a = sha256_hex b → a = b.

Lemma require_nonempty_trim field value v : require_nonempty field value = Ok v → v = trim value.
Proof. unfold require_nonempty. case_match; by intros [=]. Qed.

Lemma stable_approval_identity_inv job_id action requested policy_digest i :
  stable_approval_identity job_id action requested policy_digest = Ok i →
  si_approval_id i = s! "approval_" ++ sha256_hex (id_material job_id action requested policy_digest).
Proof.
  unfold stable_approval_identity.
  destruct (require_nonempty _ job_id) as [job|] eqn:Hjob; [|done].
  destruct (require_nonempty _ policy_digest) as [policy|] eqn:Hpolicy; [|done].
  apply require_nonempty_trim in Hjob as ->, Hpolicy as ->. by intros [= <-].
Qed.

Lemma request_material_inj action requested action' requested' :
  request_fits action requested → request_fits action' requested' →
  request_material action requested = request_material action' requested' ↔
  action = action' ∧ same_request requested requested' = true.
Proof.
  intros (Ha & Hr & Sa & Sr) (Ha' & Hr' & Sa' & Sr'). rewrite <- canonical_same by done. unfold request_material. split.
  - intros Heq%framed_inj; [|done|by repeat constructor..]. injection Heq as Ea Er.
    apply Htext in Ea; [|by apply canonical_plain..]. apply Htext in Er; [|by apply canonical_plain..].
    by rewrite !canonical_ordered in Ea by done.
  - unfold canonical_json. by intros [-> ->].
Qed.

Lemma id_material_inj job action requested policy job' action' requested' policy' :
  names_fit job policy → names_fit job' policy' →
  id_material job action requested policy = id_material job' action' requested' policy' ↔
  trim job = trim job' ∧ sha256_hex (request_material action requested) = sha256_hex (request_material action' requested')
  ∧ trim policy = trim policy'.
Proof.
  intros [Hj Hp] [Hj' Hp']. unfold id_material. split; [|by intros (-> & -> & ->)].
  assert (∀ bytes, short (utf8 (sha256_hex bytes))) as Hd by (intros bytes; unfold short; by rewrite Hhex).
  intros Heq%framed_inj; [|done|by repeat constructor..]. injection Heq. intros. by split_and!; apply utf8_inj.
Qed.

(** C37. Approvals are the same exactly when the same is asked: two calls of
    [stable_approval_identity] that succeed return the same approval id if and only if the job ids
    and policy digests are equal up to surrounding white space, the actions are equal, and the
    requested capabilities are the same sets: at every level of the request, arrays have the same
    elements, in any order and number.  Hypotheses: serde_json writes
    different values (without floats) differently, sha256 gives 64 digits and does not collide on the
    inputs at hand, and the inputs are shorter than 2^64 bytes. *)
Theorem approval_identity_exact job action requested policy i job' action' requested' policy' i' :
  request_fits action requested → request_fits action' requested' →
  names_fit job policy → names_fit job' policy' →
  separated (request_material action requested) (request_material action' requested') →
  separated (id_material job action requested policy) (id_material job' action' requested' policy') →
  stable_approval_identity job action requested policy = Ok i →
  stable_approval_identity job' action' requested' policy' = Ok i' →
  si_approval_id i = si_approval_id i' ↔
  trim job = trim job' ∧ trim policy = trim policy' ∧ action = action' ∧ same_request requested requested' = true.
Proof.
  intros Hr Hr' Hn Hn' Sr Si Hi%stable_approval_identity_inv Hi'%stable_approval_identity_inv.
  rewrite Hi, Hi', <- (request_material_inj _ _ _ _ Hr Hr'). split.
  - intros Heq%(inj (app _))%Si%id_material_inj; [|done..]. destruct Heq as (? & ?%Sr & ?). by split_and!.
  - intros (Hj & Hp & Hm). do 2 f_equal. apply id_material_inj; [done..|]. by rewrite Hm.
Qed.
End exact.

(** ** Samples *)

(** An injective writer of values without floats: a tag, lengths, contents. *)
Fixpoint encode_value (v : Json) : list N :=
  match v with
  | JNull => [0]
  | JBool b => [1; if b then 1 else 0]
  | JNumber (PosInt z) => [2; Z.to_N z]
  | JNumber (NegInt z) => [3; Z.to_N (- z)]
  | JNumber (NFloat _) => [4]
  | JString s => 5 :: len s :: s
  | JArray l => 6 :: len l :: concat (map encode_value l)
  | JObject m => 7 :: len m :: concat (map (λ kv, len kv.1 :: kv.1 ++ encode_value kv.2) m)
  end%N.
#[local] Instance sample_codec : JsonCodec := {| json_to_vec := encode_value |}.

(** 64 digits of a polynomial of the bytes. *)
Definition sample_polynomial (bytes : list N) : N := fold_left (λ acc x, (acc * 257 + x + 1) mod 2 ^ 64)%N bytes 0%N.
#[local] Instance sample_digest : Digest :=
  {| sha256_hex bytes := let h := sample_polynomial bytes in map (λ i, if N.testbit_nat h i then 49%N else 48%N) (seq 0 64) |}.

Lemma encode_list_inj l :
  Forall (λ v, ∀ w r r', plain v → plain w → encode_value v ++ r = encode_value w ++ r' → v = w ∧ r = r') l →
  ∀ l' r r', length l = length l' → Forall plain l → Forall plain l' →
  concat (map encode_value l) ++ r = concat (map encode_value l') ++ r' → l = l' ∧ r = r'.
Proof.
  induction 1 as [|v l Hv _ IH]; intros [|w l'] r r'; try done. simpl.
  intros [= Hlen] [Hp Hps]%Forall_cons [Hq Hqs]%Forall_cons. rewrite <- !(assoc_L (++)).
  intros [-> Heq]%Hv; [|done..]. by apply IH in Heq as [-> ->].
Qed.

Lemma encode_entries_inj m :
  Forall (λ kv, ∀ w r r', plain kv.2 → plain w → encode_value kv.2 ++ r = encode_value w ++ r' → kv.2 = w ∧ r = r') m →
  ∀ m' r r', length m = length m' → Forall (λ kv, plain kv.2) m → Forall (λ kv, plain kv.2) m' →
  concat (map (λ kv, len kv.1 :: kv.1 ++ encode_value kv.2) m) ++ r
  = concat (map (λ kv, len kv.1 :: kv.1 ++ encode_value kv.2) m') ++ r' → m = m' ∧ r = r'.
Proof.
  induction 1 as [|[k v] m Hv _ IH]; intros [|[k' w] m'] r r'; try done. simpl in *.
  intros [= Hlen] [Hp Hps]%Forall_cons [Hq Hqs]%Forall_cons. rewrite <- !(assoc_L (++)).
  intros [= Hk%Nat2N.inj Heq]. apply app_inj_1 in Heq as [-> Heq]; [|done].
  apply Hv in Heq as [-> Heq]; [|done..]. by apply IH in Heq as [-> ->].
Qed.

Lemma encode_value_prefix v :
  ∀ w r r', plain v → plain w → encode_value v ++ r = encode_value w ++ r' → v = w ∧ r = r'.
Proof.
  induction v as [|b|[z|z|f]|s|l IH|m IH] using json_nested_ind;
    intros [|b'|[z'|z'|f']|s'|l'|m'] r r' Hv Hw; try done; simpl.
  - by intros [=].
  - destruct b, b'; by intros [=].
  - intros [= Hz ->]. destruct Hv as [Hv _], Hw as [Hw _]. inversion Hv as [| |? Hn| | |]; inversion Hw as [| |? Hn'| | |]; subst.
    apply andb_true_iff in Hn as [?%Z.leb_le _], Hn' as [?%Z.leb_le _]. split; [do 2 f_equal; lia|done].
  - intros [= Hz ->]. destruct Hv as [Hv _], Hw as [Hw _]. inversion Hv as [| |? Hn| | |]; inversion Hw as [| |? Hn'| | |]; subst.
    apply andb_true_iff in Hn as [_ ?%Z.ltb_lt], Hn' as [_ ?%Z.ltb_lt]. split; [do 2 f_equal; lia|done].
  - by destruct Hv as [_ ?].
  - intros [= Hlen%Nat2N.inj Heq]. by apply app_inj_1 in Heq as [-> ->].
  - apply plain_array in Hv, Hw. intros [= Hlen%Nat2N.inj Heq]. by apply encode_list_inj in Heq as [-> ->].
  - apply plain_object in Hv as [_ Hv], Hw as [_ Hw]. intros [= Hlen%Nat2N.inj Heq].
    by apply encode_entries_inj in Heq as [-> ->].
Qed.

Lemma encode_value_inj a b : plain a → plain b → json_to_vec a = json_to_vec b → a = b.
Proof.
  intros Ha Hb Heq. destruct (encode_value_prefix a b [] [] Ha Hb) as [? _]; [|done].
  by rewrite !app_nil_r.
Qed.

Lemma binary_length (f : nat → bool) l : length (utf8 (map (λ i, if f i then 49%N else 48%N) l)) = length l.
Proof.
  unfold utf8. induction l as [|i l IH]; [done|]. rewrite !map_cons, concat_cons, length_app, IH. by destruct (f i).
Qed.

Lemma sample_digest_length bytes : length (utf8 (sha256_hex bytes)) = 64%nat.
Proof. apply (binary_length (N.testbit_nat (sample_polynomial bytes)) (seq 0 64)). Qed.

(** The same roots in another order, with one of them twice, are the same approval. *)
Definition sample_requested : Json := jobj [("network"%string, JBool true); ("read_roots"%string, JArray [jstr "/b"; jstr "/a"; jstr "/a"])].
Definition sample_reordered : Json := jobj [("network"%string, JBool true); ("read_roots"%string, JArray [jstr "/a"; jstr "/b"])].
Definition sample_action : Json := jobj [("command"%string, jstr "ls"); ("timeout"%string, JNumber (PosInt 5))].

Definition sample_other : Json := jobj [("network"%string, JBool true); ("read_roots"%string, JArray [jstr "/a"])].

Ltac solve_fits :=
  repeat split; first [reflexivity | vm_compute; reflexivity | repeat first [constructor | reflexivity]].

Example approval_identity_exact_witness :
  ∃ i i' i'', stable_approval_identity s! " job" sample_action sample_requested s! "policy" = Ok i
    ∧ stable_approval_identity s! "job" sample_action sample_reordered s! "policy" = Ok i'
    ∧ stable_approval_identity s! "job" sample_action sample_other s! "policy" = Ok i''
    ∧ si_approval_id i = si_approval_id i' ∧ si_approval_id i ≠ si_approval_id i''.
Proof.
  do 3 eexists. do 3 (split; [vm_compute; reflexivity|]). split.
  - refine (proj2 (approval_identity_exact encode_value_inj sample_digest_length s! " job" sample_action sample_requested
      s! "policy" _ s! "job" sample_action sample_reordered s! "policy" _ _ _ _ _ _ _ eq_refl eq_refl) _);
      [solve_fits..|intros _; vm_compute; reflexivity|intros _; vm_compute; reflexivity|vm_compute; repeat split].
  - intros Heq.
    refine (match proj1 (approval_identity_exact encode_value_inj sample_digest_length s! " job" sample_action
      sample_requested s! "policy" _ s! "job" sample_action sample_other s! "policy" _ _ _ _ _ _ _ eq_refl eq_refl) Heq
      with conj _ (conj _ (conj _ E)) => _ end);
      [solve_fits..|intros E; vm_compute in E; discriminate E|intros E; vm_compute in E; discriminate E|].
    vm_compute in E. discriminate E.
Defined.
