(* ===== verification/StreamProjection.v ===== *)
(** * Previews of a plan's reply (morphz/src/sexpr_eval/stream_projection.rs)

    While a model answers an infer, the runtime may already show a text of the answer as the
    reply of the plan.  [reply_projections] decides when: it runs the frames of the suspended
    machine on the path of the answer instead of the answer, and returns the paths that can reach
    the end unchanged, each with the answers to the conditions on the way.  A [Vec] used as a stack
    is a list with its top first.  The text of a projection, by which the results are sorted, is
    serde_json's, a parameter. *)

From stdpp Require Import base list gmap strings sorting.
From Stdlib Require Import NArith ZArith.
From S2P Require Import Prelude Types JsonValue Diagnostic Hir Decode JsonBoundary Eval Text Ordering Plan.

(** morphz/src/sexpr_eval/stream_projection.rs:6-10 [ReplyProjectionCondition]. *)
Record ReplyProjectionCondition : Type := mkCondition { rc_path : list str; rc_value : bool }.
(** morphz/src/sexpr_eval/stream_projection.rs:11-15 [ReplyProjection]. *)
Record ReplyProjection : Type := mkProjection { rp_path : list str; rp_conditions : list ReplyProjectionCondition }.
#[export] Instance condition_eq_dec : EqDecision ReplyProjectionCondition.
Proof. solve_decision. Defined.
#[export] Instance projection_eq_dec : EqDecision ReplyProjection.
Proof. solve_decision. Defined.

(** [serde_json::to_string] of a projection. *)
Class ProjectionText : Type := { projection_text : ReplyProjection → str }.

Abbreviation Origins := (gmap str (list str)).

(** morphz/src/sexpr_eval/stream_projection.rs:16-22 [Frame]. *)
Inductive ProjectionFrame : Type :=
| PExisting (frame : MachineFrame)
| PExpression (expression : HirExpr)
| PBind (name : str)
| PRestore (env : Env) (origins : Origins).

(** morphz/src/sexpr_eval/stream_projection.rs:23-30 [State]. *)
Record ProjectionState : Type := mkState {
  st_frames : list ProjectionFrame;
  st_env : Env;
  st_origins : Origins;
  st_current : option (list str * bool);
  st_conditions : list ReplyProjectionCondition
}.

(** morphz/src/sexpr_eval/stream_projection.rs:32-46 [origin]. *)
Fixpoint origin (expression : HirExpr) (origins : Origins) : option (list str) :=
  let 'Hir kind _ _ _ := expression in
  match kind with
  | KReference root path => value ← origins !! root; Some (value ++ default [] path)
  | KGet value field => value ← origin value origins; Some (value ++ [field])
  | _ => None
  end.

(** One iteration of the inner loop: the end of the state with what it found, the next state, or
    the states of the branches, the first on top. *)
Inductive ProjectionStep : Type :=
| Stop (found : list ReplyProjection)
| Go (state : ProjectionState)
| Fork (states : list ProjectionState).

Definition is_string (t : Ty) : bool := match t with TString => true | _ => false end.
Definition is_bool (t : Ty) : bool := match t with TBool => true | _ => false end.

Section project.
Context (definitions : Definitions).

(** morphz/src/sexpr_eval/stream_projection.rs:109-118 [reply_projections: Bind]. *)
Definition project_bind (name : str) (st : ProjectionState) : ProjectionStep :=
  if is_some (st_env st !! name) || is_some (st_origins st !! name) then Stop []
  else match st_current st with
       | Some (path, _) =>
           Go (mkState (st_frames st) (st_env st) (<[name := path]> (st_origins st)) None (st_conditions st))
       | None => Stop []
       end.

(** morphz/src/sexpr_eval/stream_projection.rs:131-152 [reply_projections: HirKind::Bind]. *)
Definition project_binding (name : str) (value : HirExpr) (st : ProjectionState) : ProjectionStep :=
  match origin value (st_origins st) with
  | Some path =>
      Go (mkState (PBind name :: st_frames st) (st_env st) (st_origins st)
            (Some (path, is_string (hty value))) (st_conditions st))
  | None =>
      if es_is_empty (heffects value) then
        match evaluate_pure definitions value (st_env st) with
        | Ok (v, env) =>
            Go (mkState (st_frames st) (<[name := v]> env) (st_origins st) None (st_conditions st))
        | Err _ => Stop []
        end
      else Stop []
  end.

(** The state of one branch under its guard, morphz/src/sexpr_eval/stream_projection.rs:162-184; none
    when an earlier guard excludes it. *)
Definition guarded (st : ProjectionState) (path : list str) (value : bool) (branch : HirExpr) : option ProjectionState :=
  if existsb (λ guard, bool_decide (rc_path guard = path) && negb (Bool.eqb (rc_value guard) value)) (st_conditions st)
  then None
  else Some (mkState (PExpression branch :: PRestore (st_env st) (st_origins st) :: st_frames st)
               (st_env st) (st_origins st) (st_current st) (st_conditions st ++ [mkCondition path value])).

(** morphz/src/sexpr_eval/stream_projection.rs:153-203 [reply_projections: HirKind::If]. *)
Definition project_if (condition when_true when_false : HirExpr) (st : ProjectionState) : ProjectionStep :=
  match origin condition (st_origins st) with
  | Some path =>
      if negb (is_bool (hty condition)) then Stop []
      else Fork (omap id [guarded st path false when_false; guarded st path true when_true])
  | None =>
      match evaluate_pure definitions condition (st_env st) with
      | Ok (JBool value, env) =>
          Go (mkState (PExpression (if value then when_true else when_false) :: PRestore env (st_origins st) :: st_frames st)
                env (st_origins st) (st_current st) (st_conditions st))
      | _ => Stop []
      end
  end.

(** morphz/src/sexpr_eval/stream_projection.rs:204-224 [reply_projections: the other expressions]. *)
Definition project_value (expression : HirExpr) (st : ProjectionState) : ProjectionStep :=
  match origin expression (st_origins st) with
  | Some path =>
      Go (mkState (st_frames st) (st_env st) (st_origins st) (Some (path, is_string (hty expression))) (st_conditions st))
  | None =>
      if es_is_empty (heffects expression) then
        match evaluate_pure definitions expression (st_env st) with
        | Ok (_, env) => Go (mkState (st_frames st) env (st_origins st) None (st_conditions st))
        | Err _ => Stop []
        end
      else Stop []
  end.

(** morphz/src/sexpr_eval/stream_projection.rs:123-225 [reply_projections: Expression]. *)
Definition project_expression (expression : HirExpr) (st : ProjectionState) : ProjectionStep :=
  match hkind expression with
  | KSeq steps =>
      Go (mkState (map PExpression steps ++ st_frames st) (st_env st) (st_origins st) (st_current st) (st_conditions st))
  | KBind name value => project_binding name value st
  | KIf condition when_true when_false => project_if condition when_true when_false st
  | _ => project_value expression st
  end.

(** morphz/src/sexpr_eval/stream_projection.rs:82-228 [reply_projections: one iteration]. *)
Definition project_step (st : ProjectionState) : ProjectionStep :=
  match st_frames st with
  | [] => Stop (match st_current st with Some (path, true) => [mkProjection path (st_conditions st)] | _ => [] end)
  | frame :: rest =>
      let st := mkState rest (st_env st) (st_origins st) (st_current st) (st_conditions st) in
      let restore env origins := Go (mkState rest env origins (st_current st) (st_conditions st)) in
      match frame with
      | PExisting (FTypedSeq steps next) =>
          Go (mkState (map PExpression (drop next steps) ++ rest) (st_env st) (st_origins st) (st_current st) (st_conditions st))
      | PExisting (FTypedBind name) | PBind name => project_bind name st
      | PExisting (FRestoreScope saved _) => restore saved ∅
      | PRestore env origins => restore env origins
      | PExisting (FTypedEval expression) | PExpression expression => project_expression expression st
      | PExisting _ => Stop []
      end
  end.

(** morphz/src/sexpr_eval/stream_projection.rs:74-230 [reply_projections: the loops]; [None] is the
    early return of no projections at all. *)
Fixpoint explore (budget : nat) (st : ProjectionState) (pending : list ProjectionState) (found : list ReplyProjection)
    : option (list ReplyProjection) :=
  match budget with
  | O => None
  | S budget =>
      if 8 <? length pending then None
      else
        let next pending found := match pending with st :: rest => explore budget st rest found | [] => Some found end in
        match project_step st with
        | Stop more => next pending (found ++ more)
        | Go st => explore budget st pending found
        | Fork states => next (states ++ pending) found
        end
  end.
End project.

(** [Vec::dedup]. *)
Fixpoint dedup_adjacent `{EqDecision A} (l : list A) : list A :=
  match l with
  | x :: (y :: _) as r => if decide (x = y) then dedup_adjacent r else x :: dedup_adjacent r
  | _ => l
  end.

(** Whether the whole answer is a text, morphz/src/sexpr_eval/stream_projection.rs:57-66. *)
Definition root_string (kind : InferResultKind) : option bool :=
  match kind with
  | JsonResult ty _ _ => Some (is_string ty)
  | YaoResult TString _ _ => Some true
  | YaoResult _ _ _ => None
  end.

(** morphz/src/sexpr_eval/stream_projection.rs:75 [budget]. *)
Definition PROJECTION_BUDGET : nat := 256.

(** morphz/src/sexpr_eval/stream_projection.rs:53-234 [reply_projections]. *)
Definition reply_projections `{ProjectionText} (m : PlanMachine) : list ReplyProjection :=
  match pending m with
  | Some (PInfer _ _ _ kind) =>
      match root_string kind with
      | Some text =>
          let start := mkState (map PExisting (frames m)) (env m) ∅ (Some ([], text)) [] in
          let result := default [] (explore (typed_definitions m) PROJECTION_BUDGET start [] []) in
          dedup_adjacent (merge_sort (not_gt (λ a b, str_cmp (projection_text a) (projection_text b))) result)
      | None => []
      end
  | _ => []
  end.
