(* ===== verification/StreamFacts.v ===== *)
(** * Previews: answers and their encodings

    What the paths of a preview mean: a model answers in JSON, the machine works on the encoding
    of the answer, and selecting a field of the encoding selects the same field of the answer.
    The pure evaluator gives in an environment what it gives in a smaller one, as long as no
    [fallback] observes a failure. *)

From stdpp Require Import base list gmap strings.
From Stdlib Require Import NArith ZArith Lia.
From S2P Require Import Prelude Types JsonValue Diagnostic Syntax Hir Decode DecodeFacts JsonBoundary JsonBoundaryFacts JsonRoundTrip Eval Plan StreamProjection.

(** ** Paths in an answer *)

Definition at_path (j : Json) (path : list str) : option Json := foldl (λ v field, v ≫= jget field) (Some j) path.

Lemma at_path_snoc j path field : at_path j (path ++ [field]) = at_path j path ≫= jget field.
Proof. unfold at_path. by rewrite foldl_app. Qed.

(** The key that marks encoded values does not occur in the answer. *)
Fixpoint untagged (j : Json) : bool :=
  match j with
  | JArray l => forallb untagged l
  | JObject m => negb (bm_contains YAO_TAG m) && forallb (λ kv, untagged kv.2) m
  | _ => true
  end.

(** [encoded j w]: the machine's form [w] of a part [j] of the answer. *)
Inductive encoded : Json → Json → Prop :=
| E_same j : encoded j j
| E_list l l' : encoded (JArray l) (JArray l')
| E_map m m' :
    (∀ k x', bm_get k m' = Some x' → ∃ x, bm_get k m = Some x ∧ encoded x x') → encoded (JObject m) (JObject m')
| E_record name m m' :
    (∀ k x', bm_get k m' = Some x' → ∃ x, bm_get k m = Some x ∧ encoded x x') →
    encoded (JObject m) (tagged [("kind", jstr "record"); ("type", JString name); ("fields", JObject m')]%string)
| E_structural m m' :
    bm_wf m' → (∀ k x', bm_get k m' = Some x' → ∃ x, bm_get k m = Some x ∧ encoded x x') →
    encoded (JObject m) (structural_record_value m')
| E_tagged m tag k :
    get_str "kind" tag = Some k → k ≠ s! "record" → k ≠ s! "structural_record" →
    encoded (JObject m) (JObject [(YAO_TAG, JObject tag)]).

Section inward.
Context (defs : Definitions) (sp : SourceSpan).
Local Abbreviation inward := (transform defs sp false).
Local Abbreviation encodes j := (∀ t path w, json_wf j → inward t j path = Ok w → encoded j w).

Section cases.
Context (j : Json) (IH : ∀ x, (jdepth x < jdepth j)%nat → encodes x) (Hwf : json_wf j).

Lemma encoded_fields fs fv path w :
  (jdepth fv ≤ jdepth j)%nat → json_wf fv → transform_fields inward fs fv path = Ok w →
  ∃ m m', fv = JObject m ∧ w = JObject m' ∧ bm_wf m' ∧
    ∀ k x', bm_get k m' = Some x' → ∃ x, bm_get k m = Some x ∧ encoded x x'.
Proof.
  intros Hd Hfv H. apply transform_fields_Ok in H as (m & l & -> & -> & _ & Hl & _).
  exists m, (bm_of_list l). split_and!; [done..|apply bm_wf_of_list|]. intros k x' Hx'.
  apply bm_get_of_list_elem, list_elem_of_lookup in Hx' as [i Hi].
  destruct (Forall2_lookup_r _ _ _ _ _ Hl Hi) as (nt & _ & Hn & x & Hx & Hr). simpl in *. subst k.
  exists x. split; [done|]. eapply IH; [by eapply object_entry_depth| |exact Hr].
  by eapply (json_wf_get nt.1 (JObject m)).
Qed.

Lemma encoded_map t m path w :
  j = JObject m →
  (λ l, JObject (bm_of_list l)) <$>
    traverse (λ '(name, value), pair name <$> inward t value (field_path path name)) m = Ok w → encoded j w.
Proof.
  intros -> H. res_inv. apply traverse_Ok in Ha. constructor. intros k x' Hx'.
  apply bm_get_of_list_elem, list_elem_of_lookup in Hx' as [i Hi].
  destruct (Forall2_lookup_r _ _ _ _ _ Ha Hi) as ([k0 x] & Hx & Hr). res_inv.
  simplify_eq. apply list_elem_of_lookup_2 in Hx. exists x.
  inversion Hwf as [| | | | |? Hs Hl]; subst. rewrite Forall_forall in Hl.
  split; [apply bm_NoDup_get; [by apply bm_wf_NoDup|done]|].
  eapply IH; [by eapply jdepth_object|by apply (Hl (k, x))|eassumption].
Qed.

Lemma encoded_named name path w : transform_named defs sp false inward name j path = Ok w → encoded j w.
Proof.
  unfold transform_named. intros (d & Hd%ok_or_Ok & H)%bind_Ok. destruct d as [n fs ssp|n vs ssp]; simpl in H.
  - res_inv. apply encoded_fields in Ha as (m & m' & -> & -> & _ & Hm); [|lia|done]. by apply E_record.
  - res_inv. simpl in *. apply object_Ok in Ha0 as ->. apply take_Ok in Ha1 as [_ ->], Ha5 as [Hf _].
    destruct a1l; try done. injection Ha2 as ->. by eapply E_tagged.
Qed.

Lemma encoded_tagged t path w :
  transform_tagged defs sp false inward t j path = Ok w → encoded j w.
Proof.
  unfold transform_tagged, tagged_envelope. intros H. apply bind_Ok in H as (m & ->%object_Ok & H).
  res_inv. eapply E_tagged with (k := lit match t with TOption _ => "option" | _ => "result" end);
    [|by destruct t..]. unfold get_str. by rewrite bm_get_insert, str_eqb_refl.
Qed.
End cases.

Lemma inward_encoded j : encodes j.
Proof.
  induction j as [j IH] using json_depth_ind. intros t path w Hwf H.
  rewrite transform_eq in H. destruct (leaf_ty t) eqn:Hleaf.
  - assert (map_err (λ _, Msg "{path}: expected {ty:?}, found {}" [AStr path; ATy t; AStr (shape j)])
              (decode_value defs sp t j) = Ok w) as Hw.
    { rewrite <- H. by destruct t. }
    res_inv. apply decode_leaf_sound in Hw as [-> _]; [|done]. constructor.
  - destruct t; try done; simpl in H.
    + destruct j; try done. res_inv. constructor.
    + apply bind_Ok in H as (m & Hj%object_Ok & H). by eapply encoded_map.
    + unfold transform_structural in H. simpl in H. res_inv.
      apply (encoded_fields j IH) in Ha as (m & m' & -> & -> & Hm & Hall); [|lia|done]. simpl.
      by apply E_structural.
    + by eapply encoded_tagged.
    + by eapply encoded_tagged.
    + by eapply encoded_named.
Qed.
End inward.

(** ** Selecting fields *)

Lemma untagged_get m k x : untagged (JObject m) = true → bm_get k m = Some x → k ≠ YAO_TAG ∧ untagged x = true.
Proof.
  simpl. intros [Ht Hall]%andb_true_iff Hx. split.
  - intros ->. unfold bm_contains in Ht. by rewrite Hx in Ht.
  - apply bm_get_elem in Hx. by eapply forallb_forall in Hall; [|by apply list_elem_of_In].
Qed.

Lemma untagged_object j : untagged j = true → yao_object j = None.
Proof.
  unfold yao_object. destruct j as [| | | | |m]; try done. intros Hu. simpl.
  destruct (bm_get YAO_TAG m) eqn:E; [|done]. by apply (untagged_get _ _ _ Hu) in E as [].
Qed.

Lemma yao_object_tagged l : yao_object (tagged l) = Some (bm_of_list (map (λ kv, (lit kv.1, kv.2)) l)).
Proof. reflexivity. Qed.

(** The tag of an encoded part, if it has one, says whether it is a record. *)
Lemma encoded_tag j w tag :
  untagged j = true → encoded j w → yao_object w = Some tag →
  ∃ m, j = JObject m ∧
  ((∃ name m', w = tagged [("kind", jstr "record"); ("type", JString name); ("fields", JObject m')]%string
      ∧ ∀ k x', bm_get k m' = Some x' → ∃ x, bm_get k m = Some x ∧ encoded x x')
   ∨ (∃ m', w = structural_record_value m' ∧ ∀ k x', bm_get k m' = Some x' → ∃ x, bm_get k m = Some x ∧ encoded x x')
   ∨ (get_is "kind" s! "record" tag = false ∧ get_is "kind" s! "structural_record" tag = false)).
Proof.
  intros Hu He Ht. destruct He as [j|l l'|m m' Hall|name m m' Hall|m m' Hm Hall|m tg k Hk Hr Hs].
  - by rewrite untagged_object in Ht.
  - done.
  - exfalso. unfold yao_object in Ht. simpl in Ht. destruct (bm_get YAO_TAG m') eqn:E; [|done].
    apply Hall in E as (x & Hx & _). by apply (untagged_get _ _ _ Hu) in Hx as [].
  - eauto 8.
  - eauto 8.
  - exists m. split; [done|]. right. right. unfold yao_object in Ht. simpl in Ht.
    injection Ht as <-. unfold get_is. rewrite Hk. by rewrite !str_eqb_neq.
Qed.

Lemma persisted_field defs span j w f w' :
  untagged j = true → encoded j w → persisted_record_field w f defs span = Ok w' →
  ∃ x, jget f j = Some x ∧ encoded x w'.
Proof.
  unfold persisted_record_field. intros Hu He H. apply bind_Ok in H as (sel & Hs & ->%ok_or_Ok).
  destruct (yao_object w) as [tag|] eqn:Ht; [|done].
  destruct (encoded_tag j w tag Hu He Ht)
    as (m & -> & [(name & m' & -> & Hall)|[(m' & -> & Hall)|[Hk Hk']]]); [..|by rewrite Hk, Hk' in Hs].
  - injection Ht as <-. simpl in Hs. destruct (bm_get name defs) as [[]|]; [|done..]. res_inv.
    by apply Hall in Hs.
  - injection Ht as <-. simpl in Hs. injection Hs as Hs.
    change (structural_record_field (structural_record_value m') f = Some w') in Hs.
    rewrite structural_record_field_value in Hs. by apply Hall in Hs.
Qed.

(** What the analyzer guarantees of a selection: the fields of a declared type are those of a record;
    and the reserved key is not asked of a map. *)
Definition selects_record (defs : Definitions) (receiver : Ty) (field : str) : bool :=
  match receiver with
  | TNamed n => match bm_get n defs with Some (DRecord _ _ _) => true | _ => false end
  | TMap _ => negb (field =s YAO_TAG)
  | _ => true
  end.

Lemma selected_field defs j e w f w' :
  untagged j = true → encoded j w → selects_record defs (hty e) f = true →
  select_field defs e w f = Some w' → ∃ x, jget f j = Some x ∧ encoded x w'.
Proof.
  unfold select_field, selects_record. intros Hu He Hsel H. destruct (hty e) as [| | | | | | | |t|fs| | | | | | | |n]; try done.
  - apply negb_true_iff, str_eqb_neq in Hsel.
    assert (∀ x, jget f (JObject [(YAO_TAG, x)]) = None) as Hno.
    { intros x. simpl. rewrite str_eqb_sym. by destruct (str_eqb_spec YAO_TAG f). }
    destruct He as [j|l l'|m m' Hall|name m m' Hall|m m' Hm Hall|m tg k Hk Hr Hs]; try done.
    + exists w'. split; [done|constructor].
    + by apply Hall in H.
    + unfold tagged in H. by rewrite Hno in H.
    + unfold structural_record_value, tagged in H. by rewrite Hno in H.
    + by rewrite Hno in H.
  - unfold structural_record_field in H. destruct (yao_object w) as [tag|] eqn:Ht; [|done].
    destruct (encoded_tag j w tag Hu He Ht) as (m & -> & [(name & m' & -> & Hall)|[(m' & -> & Hall)|[Hk Hk']]]).
    + by injection Ht as <-.
    + rewrite <- Ht in H. change (structural_record_field (structural_record_value m') f = Some w') in H.
      rewrite structural_record_field_value in H. by apply Hall in H.
    + simpl in H. by rewrite Hk' in H.
  - destruct (decode_value _ _ _ w) as [v|] eqn:Hd; [|done]. simpl in H.
    rewrite decode_value_eq in Hd. simpl in Hd. unfold decode_named in Hd.
    destruct (bm_get n defs) as [[? fs ?|]|]; try done. simpl in Hd.
    destruct (yao_object w) as [tag|] eqn:Ht; [|done].
    destruct (encoded_tag j w tag Hu He Ht) as (m & -> & [(name' & m' & -> & Hall)|[(m' & -> & Hall)|[Hk Hk']]]).
    + by apply Hall in H.
    + by injection Ht as <-.
    + rewrite Hk in Hd. by destruct (negb _).
Qed.

(** ** The value an expression with an origin has *)

(** What the preview relies on in an expression: selections are of records, and no [fallback] observes
    a failure. *)
Definition node_ok (defs : Definitions) (e : HirExpr) : bool :=
  match hkind e with
  | KFallback _ _ => false
  | KGet value field => selects_record defs (hty value) field
  | _ => true
  end.
Definition previewable (defs : Definitions) (e : HirExpr) : bool := forallb (node_ok defs) (nodes e).

Lemma previewable_node defs e : previewable defs e = true → node_ok defs e = true.
Proof. unfold previewable. rewrite nodes_unfold. simpl. by intros [? _]%andb_true_iff. Qed.

Lemma previewable_child defs e c : previewable defs e = true → c ∈ children e → previewable defs c = true.
Proof.
  unfold previewable. rewrite !forallb_forall. intros He Hc x Hx. apply He, list_elem_of_In, elem_of_nodes.
  right. exists c. split; [done|]. by apply list_elem_of_In.
Qed.

Section answer.
Context (j : Json).

(** The machine's value [w] is the part of the answer at the path. *)
Definition holds (path : list str) (w : Json) : Prop :=
  ∃ x, at_path j path = Some x ∧ untagged x = true ∧ encoded x w.

(** The names that stand for parts of the answer have them as values. *)
Definition origins_ok (origins : Origins) (env : Env) : Prop :=
  ∀ name path, origins !! name = Some path → ∃ w, env !! name = Some w ∧ holds path w.

Lemma untagged_jget x f y : untagged x = true → jget f x = Some y → untagged y = true.
Proof. destruct x as [| | | | |m]; try done. simpl jget. intros Hu Hf. by apply (untagged_get _ _ _ Hu) in Hf as []. Qed.

Lemma holds_field path w f w' :
  holds path w → (∀ x, untagged x = true → encoded x w → ∃ y, jget f x = Some y ∧ encoded y w') →
  holds (path ++ [f]) w'.
Proof.
  intros (y & Hy & Hu & He) Hsel. destruct (Hsel y Hu He) as (z & Hz & Hez). exists z.
  rewrite at_path_snoc, Hy. split_and!; [done|by eapply untagged_jget|done].
Qed.

Lemma eval_origin defs e origins env path w env' :
  origins_ok origins env → previewable defs e = true → origin e origins = Some path →
  evaluate_pure defs e env = Ok (w, env') → env' = env ∧ holds path w.
Proof.
  intros Ho. revert path w env'. induction e as [e IH] using hir_ind. intros path w env' Hp Hor H.
  destruct e as [[|root fields| | | | | | | | | | | | | |value field| | | | | | | | | | | | | | |] t ef sp];
    try done; simpl in H, Hor; (destruct (negb _); [done|]).
  - destruct (origins !! root) as [path0|] eqn:Hroot; [|done]. injection Hor as <-.
    destruct (Ho _ _ Hroot) as (w0 & Hw0 & Hh). res_inv. split; [done|].
    unfold eval_reference in Ha. rewrite Hw0 in Ha. simpl in Ha.
    clear Hw0 Hroot. revert path0 w0 Hh Ha.
    induction (default [] fields) as [|f fs IHf]; intros path0 w0 Hh Ha; simpl in Ha.
    { injection Ha as <-. by rewrite app_nil_r. }
    apply bind_Ok in Ha as (w1 & Hw1 & Ha). rewrite cons_middle, (assoc_L (++)). apply (IHf _ w1); [|done].
    eapply holds_field; [done..|]. intros x Hu He. by eapply persisted_field.
  - destruct (origin value origins) as [path0|] eqn:Hv; [|done]. injection Hor as <-. res_inv.
    assert (value ∈ children (Hir (KGet value field) t ef sp)) as Hc by by left.
    destruct (IH value Hc path0 al ar) as [-> Hh]; [by eapply previewable_child|done..|].
    destruct (select_field _ _ _ _) as [w1|] eqn:Hsel; [|done]. injection H as -> ->. split; [done|].
    eapply holds_field; [done..|]. intros x Hu He. eapply selected_field; [done..| |done].
    by apply previewable_node in Hp.
Qed.
End answer.

(** ** A larger environment *)

Section mono.
Context (defs : Definitions).
Local Abbreviation eval := (evaluate_pure defs).

(** The second computation gives what the first gives, or fails; [agree] also relates the
    environments they leave, which only grow. *)
Definition agree_value {A : Type} (r r' : result EvalFailure A) : Prop :=
  ∀ v, r = Ok v → match r' with Ok v' => v' = v | Err _ => True end.
Definition agree {A : Type} (r r' : result EvalFailure (A * Env)) (env' : Env) : Prop :=
  ∀ v a, r = Ok (v, a) → match r' with Ok (v', b) => v' = v ∧ a ⊆ b ∧ env' ⊆ b | Err _ => True end.

Lemma agree_Ok {A : Type} (v : A) a b : a ⊆ b → agree (Ok (v, a)) (Ok (v, b)) b.
Proof. intros Hab w c [= <- <-]. done. Qed.

Lemma agree_then {A B : Type} (r r' : result EvalFailure (A * Env)) (k k' : A * Env → result EvalFailure (B * Env)) env' :
  agree r r' env' → (∀ v a b, a ⊆ b → agree (k (v, a)) (k' (v, b)) b) → agree (r ≫= k) (r' ≫= k') env'.
Proof.
  intros Hr Hk w c H. apply bind_Ok in H as ([v a] & Ha & H). specialize (Hr v a Ha).
  destruct r' as [[v' b]|]; [|done]. destruct Hr as (-> & Hab & Hb). simpl.
  specialize (Hk v a b Hab w c H). destruct (k' (v, b)) as [[w' d]|]; [|done].
  destruct Hk as (-> & ? & ?). split_and!; [done|done|by etrans].
Qed.

Lemma agree_same {A B : Type} (r : result EvalFailure A) (k k' : A → result EvalFailure (B * Env)) env' :
  (∀ v, agree (k v) (k' v) env') → agree (r ≫= k) (r ≫= k') env'.
Proof. intros Hk w c H. apply bind_Ok in H as (v & -> & H). by apply Hk in H. Qed.

Lemma agree_from_value {A B : Type} (r r' : result EvalFailure A) (k k' : A → result EvalFailure (B * Env)) env' :
  agree_value r r' → (∀ v, agree (k v) (k' v) env') → agree (r ≫= k) (r' ≫= k') env'.
Proof.
  intros Hr Hk w c H. apply bind_Ok in H as (v & Hv & H). specialize (Hr v Hv).
  destruct r'; [|done]. subst. by apply Hk in H.
Qed.

Lemma agree_value_bind {A B : Type} (r r' : result EvalFailure A) (k k' : A → result EvalFailure B) :
  agree_value r r' → (∀ v, agree_value (k v) (k' v)) → agree_value (r ≫= k) (r' ≫= k').
Proof.
  intros Hr Hk w H. apply bind_Ok in H as (v & Hv & H). specialize (Hr v Hv).
  destruct r'; [|done]. subst. by apply Hk in H.
Qed.

Lemma agree_value_env {A B : Type} (r r' : result EvalFailure (A * Env)) (k k' : A * Env → result EvalFailure B) env' :
  agree r r' env' → (∀ v a b, a ⊆ b → agree_value (k (v, a)) (k' (v, b))) → agree_value (r ≫= k) (r' ≫= k').
Proof.
  intros Hr Hk w H. apply bind_Ok in H as ([v a] & Ha & H). specialize (Hr v a Ha).
  destruct r' as [[v' b]|]; [|done]. destruct Hr as (-> & Hab & _). by apply (Hk v a b Hab).
Qed.

Lemma agree_fst {A : Type} (r r' : result EvalFailure (A * Env)) env' : agree r r' env' → agree_value (fst <$> r) (fst <$> r').
Proof.
  intros Hr w H. apply fmap_Ok in H as ([v a] & Ha & [= ->]). specialize (Hr _ _ Ha).
  destruct r' as [[v' b]|]; [|done]. by destruct Hr as [-> _].
Qed.

Lemma agree_drop {A : Type} (r r' : result EvalFailure (A * Env)) env' a b :
  agree r r' env' → a ⊆ b → agree ('(v, _) ← r; Ok (v, a)) ('(v, _) ← r'; Ok (v, b)) b.
Proof.
  intros Hr Hab w c H. apply bind_Ok in H as ([v d] & Hv & [= <- <-]). specialize (Hr _ _ Hv).
  destruct r' as [[v' d']|]; [|done]. by destruct Hr as [-> _].
Qed.

Lemma agree_value_refl {A : Type} (r : result EvalFailure A) : agree_value r r.
Proof. intros v ->. done. Qed.

Lemma agree_fail {A : Type} r' env' e : agree (A := A) (Err e) r' env'.
Proof. by intros v a [=]. Qed.

Definition mono (e : HirExpr) : Prop := ∀ a b, a ⊆ b → agree (eval e a) (eval e b) b.

Lemma mono_all l a b : (∀ c, c ∈ l → mono c) → a ⊆ b → agree (eval_all eval l a) (eval_all eval l b) b.
Proof.
  revert a b. induction l as [|e l IH]; intros a b Hl Hab; simpl; [by apply agree_Ok|].
  apply agree_then; [by apply Hl; [left|]|]. intros v a1 b1 H1.
  apply agree_then; [apply IH; [|done]; intros c Hc; apply Hl; by right|]. intros vs a2 b2 H2. by apply agree_Ok.
Qed.

Lemma mono_entries l a b out :
  (∀ c, c ∈ map snd l → mono c) → a ⊆ b → agree (eval_entries eval l a out) (eval_entries eval l b out) b.
Proof.
  revert a b out. induction l as [|[n e] l IH]; intros a b out Hl Hab; simpl; [by apply agree_Ok|].
  apply agree_then; [by apply Hl; [left|]|]. intros v a1 b1 H1.
  apply IH; [|done]. intros c Hc. apply Hl. by right.
Qed.

Lemma mono_tagged kind name variant fields a b :
  (∀ c, c ∈ map snd fields → mono c) → a ⊆ b →
  agree (tagged_fields eval kind name variant fields a) (tagged_fields eval kind name variant fields b) b.
Proof.
  intros Hl Hab. apply agree_then; [by apply mono_entries|]. intros m a1 b1 H1. by apply agree_Ok.
Qed.

Lemma mono_until stop x l a b :
  (∀ c, c ∈ l → mono c) → a ⊆ b → agree (eval_until eval stop x l a) (eval_until eval stop x l b) b.
Proof.
  revert a b. induction l as [|e l IH]; intros a b Hl Hab; simpl; [by apply agree_Ok|].
  apply agree_then; [by apply Hl; [left|]|]. intros v a1 b1 H1. apply agree_same. intros c.
  destruct (Bool.eqb c stop); [by apply agree_Ok|]. apply IH; [|done]. intros d Hd. apply Hl. by right.
Qed.

Lemma mono_operator op l a b x :
  (∀ c, c ∈ l → mono c) → a ⊆ b → agree (evaluate_operator eval op l a x) (evaluate_operator eval op l b x) b.
Proof.
  intros Hl Hab. assert (agree ('(values, env1) ← eval_all eval l a; v ← apply_strict op values x; Ok (v, env1))
    ('(values, env1) ← eval_all eval l b; v ← apply_strict op values x; Ok (v, env1)) b) as Hs.
  { apply agree_then; [by apply mono_all|]. intros vs a1 b1 H1. apply agree_same. intros v. by apply agree_Ok. }
  destruct op; try exact Hs; simpl; [by apply mono_until..|].
  destruct l as [|e l]; [apply agree_fail|]. apply agree_then; [by apply Hl; [left|]|].
  intros v a1 b1 H1. apply agree_same. intros c. by apply agree_Ok.
Qed.

Lemma mono_steps l r a b : (∀ c, c ∈ l → mono c) → a ⊆ b → agree (eval_steps eval l r a) (eval_steps eval l r b) b.
Proof.
  revert r a b. induction l as [|e l IH]; intros r a b Hl Hab; simpl; [by apply agree_Ok|].
  apply agree_then; [by apply Hl; [left|]|]. intros v a1 b1 H1. apply IH; [|done]. intros c Hc. apply Hl. by right.
Qed.

Lemma mono_case_fields variant span bs m a b :
  a ⊆ b → match bind_case_fields variant span bs m a, bind_case_fields variant span bs m b with
          | Ok a', Ok b' => a' ⊆ b' | Err _, Err _ => True | _, _ => False end.
Proof.
  revert a b. induction bs as [|x bs IH]; intros a b Hab; simpl; [done|].
  destruct (bm_get (mb_field x) m); simpl; [|done]. apply IH. by apply insert_mono.
Qed.

Lemma mono_cases variant m x cases a b :
  (∀ c, c ∈ map mc_body cases → mono c) → a ⊆ b →
  agree_value (eval_cases eval variant m x a cases) (eval_cases eval variant m x b cases).
Proof.
  induction cases as [|[v bs body sp] cases IH]; intros Hl Hab; simpl; [apply agree_value_refl|].
  destruct (v =s variant); [|apply IH; [|done]; intros c Hc; apply Hl; by right].
  pose proof (mono_case_fields v sp bs m a b Hab) as Hf.
  destruct (bind_case_fields v sp bs m a), (bind_case_fields v sp bs m b); try done; simpl.
  eapply agree_fst. by apply Hl; [left|].
Qed.

Lemma mono_items element body a b items :
  mono body → a ⊆ b → agree_value (eval_items eval element body a items) (eval_items eval element body b items).
Proof.
  intros Hb Hab. induction items as [|x items IH]; simpl; [apply agree_value_refl|].
  eapply agree_value_env; [apply Hb; by apply insert_mono|]. intros v a1 b1 H1.
  apply agree_value_bind; [done|]. intros vs. apply agree_value_refl.
Qed.

Lemma mono_arguments f x args vals a b :
  (∀ c, c ∈ concat (map na_values args) → mono c) → a ⊆ b →
  agree (eval_arguments eval f x args vals a) (eval_arguments eval f x args vals b) b.
Proof.
  revert vals a b. induction args as [|[n vs sp] args IH]; intros vals a b Hl Hab; simpl; [by apply agree_Ok|].
  destruct vs as [|e [|]]; [apply agree_fail| |apply agree_fail].
  apply agree_then; [by apply Hl; [left|]|]. intros v a1 b1 H1. apply IH; [|done]. intros c Hc. apply Hl. by right.
Qed.

Lemma mono_link f x ps vals a b :
  a ⊆ b → match link_parameters f x ps vals a, link_parameters f x ps vals b with
          | Ok (r, a'), Ok (r', b') => r = r' ∧ a' ⊆ b' | Err _, Err _ => True | _, _ => False end.
Proof.
  revert vals a b. induction ps as [|p ps IH]; intros vals a b Hab; simpl; [done|].
  destruct (vals !! p); [|done]. apply IH. by apply insert_mono.
Qed.

(** The environment a function runs in. *)
Definition local_env (env : Env) : Env :=
  match env !! s! "runtime" with Some runtime => {[s! "runtime" := runtime]} | None => ∅ end.
Lemma local_env_mono a b : a ⊆ b → local_env a ⊆ local_env b.
Proof.
  unfold local_env. intros Hab. destruct (a !! s! "runtime") eqn:E; [|apply map_empty_subseteq].
  by rewrite (lookup_weaken _ _ _ _ E Hab).
Qed.

Lemma mono_application f args ps body x a b :
  (∀ c, c ∈ concat (map na_values args) → mono c) → mono body → a ⊆ b →
  agree (eval_application eval f args ps body x a) (eval_application eval f args ps body x b) b.
Proof.
  intros Hl Hb Hab. apply agree_then; [by apply mono_arguments|]. intros vals a1 b1 H1.
  fold (local_env a1) (local_env b1). cbv zeta.
  pose proof (mono_link f x ps vals _ _ (local_env_mono _ _ H1)) as Hk.
  destruct (link_parameters f x ps vals (local_env a1)) as [[r la]|]; [|apply agree_fail].
  destruct (link_parameters f x ps vals (local_env b1)) as [[r' lb]|]; [|done].
  destruct Hk as [<- Hlab]. simpl. destruct (map_to_list r) as [|[]]; [|apply agree_fail].
  eapply agree_drop; [by apply Hb|done].
Qed.

Lemma mono_branches l a b :
  (∀ c, c ∈ map pb_body l → mono c) → a ⊆ b → agree_value (eval_branches eval a l) (eval_branches eval b l).
Proof.
  intros Hl Hab. induction l as [|[n e sp] l IH]; simpl; [apply agree_value_refl|].
  apply agree_value_bind; [eapply agree_fst; by apply Hl; [left|]|]. intros v.
  apply agree_value_bind; [apply IH; intros c Hc; apply Hl; by right|]. intros vs. apply agree_value_refl.
Qed.

(** Without [fallback], a larger environment changes nothing but failures. *)
Lemma eval_mono e : previewable defs e = true → mono e.
Proof.
  induction e as [e IH] using hir_ind. intros Hp a b Hab.
  assert (∀ c, c ∈ children e → mono c) as Hc by (intros c Hin; apply IH; [done|by eapply previewable_child]).
  apply previewable_node in Hp. clear IH. destruct e as [k t ef sp]. cbn [evaluate_pure].
  destruct (negb (es_is_empty ef)); [apply agree_fail|].
  unfold children in Hc. destruct k; simpl in Hc; try done.
  - (* KLiteral *) apply agree_same. intros v. by apply agree_Ok.
  - (* KReference *) apply agree_from_value; [|intros v; by apply agree_Ok].
    unfold eval_reference. intros v Hv. destruct (a !! root) as [w|] eqn:E; [|done].
    rewrite (lookup_weaken _ _ _ _ E Hab). by rewrite Hv.
  - apply agree_then; [by apply mono_all|]. intros vs a1 b1 H1. by apply agree_Ok.
  - apply agree_then; [by apply mono_entries|]. intros m a1 b1 H1. by apply agree_Ok.
  - apply agree_then; [apply Hc; [by left|done]|]. intros v a1 b1 H1. apply agree_same. intros r. by apply agree_Ok.
  - apply agree_then; [apply Hc; [by left|done]|]. intros v a1 b1 H1. apply agree_same. intros r. by apply agree_Ok.
  - by apply mono_tagged.
  - by apply mono_tagged.
  - apply agree_then; [apply Hc; [by left|done]|]. intros v a1 b1 H1. by apply agree_Ok.
  - by apply agree_Ok.
  - apply agree_then; [apply Hc; [by left|done]|]. intros v a1 b1 H1. by apply agree_Ok.
  - apply agree_then; [apply Hc; [by left|done]|]. intros v a1 b1 H1. by apply agree_Ok.
  - apply agree_then; [apply Hc; [by left|done]|]. intros v a1 b1 H1.
    apply agree_then; [apply Hc; [right; by left|done]|]. intros w a2 b2 H2.
    apply agree_then; [apply mono_all; [|done]; intros c Hin; apply Hc; by do 2 right|]. intros rs a3 b3 H3. by apply agree_Ok.
  - apply agree_then; [apply Hc; [by left|done]|]. intros v a1 b1 H1.
    apply agree_then; [apply mono_all; [|done]; intros c Hin; apply Hc; by right|]. intros rs a3 b3 H3. by apply agree_Ok.
  - apply agree_then; [apply Hc; [by left|done]|]. intros v a1 b1 H1. by apply agree_Ok.
  - apply agree_then; [apply Hc; [by left|done]|]. intros v a1 b1 H1.
    destruct (select_field _ _ _ _); [by apply agree_Ok|apply agree_fail].
  - apply agree_then; [apply Hc; [by left|done]|]. intros v a1 b1 H1. apply agree_same. intros r. by apply agree_Ok.
  - apply agree_then; [apply Hc; [by left|done]|]. intros v a1 b1 H1. by apply agree_Ok.
  - by apply mono_operator.
  - by apply mono_steps.
  - (* KBind *) apply agree_then; [apply Hc; [by left|done]|]. intros v a1 b1 H1.
    destruct (is_some (a1 !! name)) eqn:E; [apply agree_fail|].
    intros w d H. injection H as <- <-. destruct (b1 !! name) eqn:E1; simpl; [done|].
    split_and!; [done|by apply insert_mono|by apply insert_subseteq].
  - (* KIf *) apply agree_then; [apply Hc; [by left|done]|]. intros v a1 b1 H1.
    destruct v as [|[]| | | |]; try apply agree_fail.
    + apply agree_from_value; [|intros v; by apply agree_Ok]. eapply agree_fst. apply Hc; [right; by left|done].
    + apply agree_from_value; [|intros v; by apply agree_Ok]. eapply agree_fst. apply Hc; [do 2 right; by left|done].
  - (* KMatch *) apply agree_then; [apply Hc; [by left|done]|]. intros v a1 b1 H1.
    destruct (variant_parts v) as [[variant m]|]; [|apply agree_fail].
    apply agree_from_value; [|intros w; by apply agree_Ok].
    apply mono_cases; [|done]. intros c Hin. apply Hc. by right.
  - (* KMap *) apply agree_then; [apply Hc; [by left|done]|]. intros v a1 b1 H1.
    destruct v; try apply agree_fail. apply agree_from_value; [|intros w; by apply agree_Ok].
    apply mono_items; [|done]. apply Hc. right. by left.
  - apply mono_application; [|apply Hc; apply elem_of_app; right; by left|done].
    intros c Hin. apply Hc, elem_of_app. by left.
  - apply agree_from_value; [by apply mono_branches|]. intros vs. by apply agree_Ok.
Qed.
End mono.
