(* ===== verification/StreamSound.v ===== *)
(** * Previews: the machine does what was previewed

    [leads] follows the machine to a configuration or to the failure of the plan.  Without [fallback]
    the frames of the machine evaluate an effect-free expression to what [evaluate_pure] gives
    ([runs_pure]); the states of the projection are simulated by the machine that holds the answer
    ([simulated]), so that a preview is the reply ([preview_is_reply]). *)

From stdpp Require Import base list gmap strings.
From Stdlib Require Import NArith ZArith Lia.
From S2P Require Import Prelude Types JsonValue Diagnostic Syntax Hir Decode DecodeFacts JsonBoundary JsonBoundaryFacts Eval Text Plan PlanSteps PlanFacts StreamProjection StreamFacts.

Section machine.
Context `{Digest} `{PlanCodec} (program_hash : Program → str) (registry : Registry).
Local Abbreviation step := (step program_hash registry).

(** ** Running to a configuration *)

Inductive leads (Q : PlanMachine → Prop) : PlanMachine → Prop :=
| L_here m : Q m → leads Q m
| L_step m m' : step m = Continue m' → leads Q m' → leads Q m
| L_failed m m' e : step m = Return m' (Failed e) → leads Q m.

Lemma leads_bind Q R m : leads Q m → (∀ m', Q m' → leads R m') → leads R m.
Proof. intros Hm HQ. induction Hm; [by apply HQ|by eapply L_step|by eapply L_failed]. Qed.

Lemma leads_weaken (Q R : PlanMachine → Prop) m : leads Q m → (∀ m', Q m' → R m') → leads R m.
Proof. intros Hm HQ. eapply leads_bind; [exact Hm|]. intros m' HQ'. by apply L_here, HQ. Qed.

(** A frame that does not catch a failure. *)
Definition passing (f : MachineFrame) : bool :=
  match f with FFallbackPrimary _ _ | FTypedFallbackPrimary _ _ _ => false | _ => true end.

Lemma failing Q m e : signal m = Some (SFailure e) → forallb passing (frames m) = true → leads Q m.
Proof.
  remember (frames m) as fs eqn:Hfs. revert m Hfs. induction fs as [|f fs IH]; intros m Hfs Hs Hp.
  - eapply L_failed. unfold PlanSteps.step. by rewrite <- Hfs, Hs.
  - simpl in Hp. apply andb_true_iff in Hp as [Hf Hp].
    assert (∀ m', step m = Continue m' → frames m' = fs → signal m' = Some (SFailure e) → leads Q m) as Hgo.
    { intros m' Hstep Hfr Hsig. eapply L_step; [exact Hstep|]. by apply IH. }
    assert (step m = resume_frame program_hash registry (set_frames m fs) f) as Hstep
      by (unfold PlanSteps.step; by rewrite <- Hfs).
    destruct f; try done; cbn in Hstep; unfold on_start, on_signal in Hstep; cbn in Hstep; rewrite Hs in Hstep;
      try (by eapply L_failed); by eapply Hgo.
Qed.

Lemma raising Q m e : forallb passing (frames m) = true → ∀ m', raise m e = Continue m' → leads Q m'.
Proof. intros Hp m' [= <-]. by eapply failing. Qed.

(** ** Effect-free expressions *)

Section pure.
Context (defs : Definitions).
Local Abbreviation eval := (evaluate_pure defs).

(** The machine arrives at the frames [K] with the value [w], in an environment that extends both. *)
Definition arrives (K : list MachineFrame) (w : Json) (a b : Env) (m : PlanMachine) : Prop :=
  frames m = K ∧ signal m = Some (SValue w) ∧ typed_definitions m = defs ∧ a ⊆ env m ∧ b ⊆ env m.

(** A machine that is about to evaluate the expression. *)
Definition starts (e : HirExpr) (K : list MachineFrame) (a : Env) (m : PlanMachine) : Prop :=
  frames m = FTypedEval e :: K ∧ signal m = None ∧ typed_definitions m = defs ∧ forallb passing K = true ∧ a ⊆ env m.

Definition runs (e : HirExpr) : Prop := ∀ m K a w a',
  starts e K a m → eval e a = Ok (w, a') → leads (arrives K w a' (env m)) m.

Lemma step_start e K a m : starts e K a m → step m = advance_typed program_hash registry (set_frames m K) e.
Proof. intros (Hf & Hs & _). unfold PlanSteps.step. rewrite Hf. cbn. unfold on_start. cbn. by rewrite Hs. Qed.

Lemma arrives_weaken K w a b b' m : b' ⊆ b → arrives K w a b m → arrives K w a b' m.
Proof. intros Hb (? & ? & ? & ? & ?). split_and!; try done. by etrans. Qed.

(** The frame that holds the remaining steps. *)
Lemma runs_steps steps next K v m a w a' :
  (∀ c, c ∈ drop next steps → runs c) → eval_steps eval (drop next steps) v a = Ok (w, a') →
  frames m = FTypedSeq steps next :: K → signal m = Some (SValue v) → typed_definitions m = defs →
  forallb passing K = true → a ⊆ env m → leads (arrives K w a' (env m)) m.
Proof.
  remember (drop next steps) as l eqn:Hl. revert next v m a Hl.
  induction l as [|e l IH]; intros next v m a Hl Hc He Hf Hs Hd HK Ha.
  - injection He as <- <-. eapply L_step; [|apply L_here].
    { unfold PlanSteps.step. rewrite Hf. cbn. unfold on_signal. cbn. rewrite Hs. unfold on_sequence.
      destruct (steps !! next) eqn:Hn; [|done]. by rewrite (drop_S _ _ _ Hn) in Hl. }
    by split_and!.
  - assert (steps !! next = Some e ∧ l = drop (S next) steps) as [Hn Hl'].
    { destruct (steps !! next) as [e'|] eqn:Hn.
      - rewrite (drop_S _ _ _ Hn) in Hl. by injection Hl as -> ->.
      - apply lookup_ge_None, drop_ge in Hn. by rewrite Hn in Hl. }
    simpl in He. apply bind_Ok in He as ([v1 a1] & He1 & He).
    eapply L_step.
    { unfold PlanSteps.step. rewrite Hf. cbn. unfold on_signal. cbn. rewrite Hs. unfold on_sequence. by rewrite Hn. }
    eapply leads_bind; [eapply (Hc e ltac:(by left)); [|exact He1]; split_and!; try done; cbn; by rewrite HK|].
    intros m1 (Hf1 & Hs1 & Hd1 & Ha1 & Hb1).
    eapply leads_weaken; [eapply (IH (S next) v1 m1 a1); try done; intros c Hin; apply Hc; by right|].
    intros m2. by apply arrives_weaken.
Qed.

(** The frame that waits for the value to bind. *)
Lemma runs_bind name K v m a :
  frames m = FTypedBind name :: K → signal m = Some (SValue v) → typed_definitions m = defs →
  forallb passing K = true → a ⊆ env m →
  leads (λ m', arrives K JNull (<[name := v]> a) (env m) m' ∧ env m !! name = None ∧ env m' !! name = Some v) m.
Proof.
  intros Hf Hs Hd HK Ha. destruct (env m !! name) as [v0|] eqn:Hn.
  - eapply L_step; [|eapply failing].
    + unfold PlanSteps.step. rewrite Hf. cbn. unfold on_signal. cbn. rewrite Hs. unfold on_typed_bind. cbn. by rewrite Hn.
    + done.
    + done.
  - eapply L_step with (m' := yield_value
      (match value_provenance m with
       | Some source =>
           set_source (set_sources (set_env (set_signal (set_frames m K) None) (<[name := v]> (env m)))
             (<[name := source]> (binding_provenance m))) None
       | None => set_env (set_signal (set_frames m K) None) (<[name := v]> (env m))
       end) JNull).
    { unfold PlanSteps.step. rewrite Hf. cbn. unfold on_signal. cbn. rewrite Hs. unfold on_typed_bind. cbn. by rewrite Hn. }
    apply L_here. unfold arrives.
    assert (<[name := v]> a ⊆ <[name := v]> (env m) ∧ env m ⊆ <[name := v]> (env m)) as [? ?]
      by (split; [by apply insert_mono|by apply insert_subseteq]).
    destruct (value_provenance m); cbn; by rewrite lookup_insert_eq.
Qed.

Lemma runs_restore saved sources K v m :
  frames m = FRestoreScope saved sources :: K → signal m = Some (SValue v) →
  ∃ m', step m = Continue m' ∧ frames m' = K ∧ signal m' = Some (SValue v) ∧ env m' = saved
        ∧ typed_definitions m' = typed_definitions m.
Proof.
  intros Hf Hs. eexists. split.
  { unfold PlanSteps.step. rewrite Hf. cbn. unfold on_signal. cbn. rewrite Hs. done. }
  done.
Qed.

(** An expression in an inner scope, which ends with it. *)
Lemma runs_scope e saved sources K m a w a' b :
  runs e → starts e (FRestoreScope saved sources :: K) a m → eval e a = Ok (w, a') → b ⊆ saved → typed_definitions m = defs →
  leads (arrives K w b saved) m.
Proof.
  intros He Hs Hw Hb Hd. eapply leads_bind; [by eapply He|]. intros m1 (Hf & Hsig & Hd1 & _ & _).
  destruct (runs_restore _ _ _ _ _ Hf Hsig) as (m2 & Hstep & Hf2 & Hs2 & He2 & Hd2).
  eapply L_step; [exact Hstep|]. apply L_here. split_and!; try done; by rewrite ?He2, ?Hd2.
Qed.

(** A step of an expression that raises a failure. *)
Lemma starts_raise e K a m m' msg Q :
  starts e K a m → step m = raise m' msg → frames m' = K → leads Q m.
Proof.
  intros (_ & _ & _ & HK & _) Hstep Hf. eapply L_step; [exact Hstep|]. eapply failing; [done|]. cbn. by rewrite Hf.
Qed.

(** What the larger environment of the machine gives. *)
Lemma eval_larger e a w a' b :
  previewable defs e = true → a ⊆ b → eval e a = Ok (w, a') →
  match eval e b with Ok (w', b') => w' = w ∧ a' ⊆ b' ∧ b ⊆ b' | Err _ => True end.
Proof. intros Hp Hab He. by apply (eval_mono defs e Hp a b Hab). Qed.

Lemma runs_value k t ef sp :
  previewable defs (Hir k t ef sp) = true → es_is_empty ef = true → is_control k = false → runs (Hir k t ef sp).
Proof.
  intros Hp He Hk m K a w a' Hs Hw. pose proof Hs as (_ & Hsig & Hd & HK & Ha).
  pose proof (step_start _ _ _ _ Hs) as Hstep. cbn [advance_typed] in Hstep. rewrite He, Hk in Hstep.
  cbn [andb negb] in Hstep. unfold typed_value in Hstep. cbn [typed_definitions set_frames env] in Hstep. rewrite Hd in Hstep.
  pose proof (eval_larger _ _ _ _ _ Hp Ha Hw) as Hr.
  destruct (eval _ (env m)) as [[w' b']|f]; [|by eapply starts_raise].
  destruct Hr as (-> & Hab & Hb). eapply L_step; [exact Hstep|]. apply L_here. by split_and!.
Qed.

Lemma runs_if c x y t ef sp :
  previewable defs c = true → runs x → runs y → es_is_empty ef = true → runs (Hir (KIf c x y) t ef sp).
Proof.
  intros Hc Hx Hy Hef m K a w a' Hs Hw. pose proof Hs as (_ & Hsig & Hd & HK & Ha).
  pose proof (step_start _ _ _ _ Hs) as Hstep. cbn [advance_typed is_control] in Hstep. rewrite andb_false_r in Hstep.
  unfold typed_if in Hstep. cbn [typed_definitions set_frames env] in Hstep. rewrite Hd in Hstep.
  cbn [evaluate_pure] in Hw. rewrite Hef in Hw. cbn [negb] in Hw. apply bind_Ok in Hw as ([v a1] & Hv & Hw).
  pose proof (eval_larger _ _ _ _ _ Hc Ha Hv) as Hr.
  destruct (eval c (env m)) as [[v' b1]|f]; [|by eapply starts_raise]. destruct Hr as (-> & Hab & Hb).
  assert (∃ (b : bool) v a2, a1 = a' ∧ v = w ∧ eval (if b then x else y) a1 = Ok (v, a2) ∧
            step m = Continue (push (FTypedEval (if b then x else y))
              (push (FRestoreScope b1 (binding_provenance m)) (set_env (set_frames m K) b1)))) as (b & w' & a2 & -> & -> & Hbr & Hstep').
  { destruct v as [|b0| | | |]; try discriminate Hw. exists b0.
    destruct b0; apply bind_Ok in Hw as (w0 & Hw0 & E); injection E as <- <-;
      apply fmap_Ok in Hw0 as ([w1 a2] & Hw1 & E); simpl in E; subst w1; by exists w0, a2. }
  eapply L_step; [exact Hstep'|]. eapply leads_weaken; [eapply (runs_scope (if b then x else y)); [by destruct b| |exact Hbr|exact Hab|done]|].
  - by split_and!.
  - intros m'. by apply arrives_weaken.
Qed.

(** A case binds the same fields in both environments. *)
Lemma bind_case_agrees variant sp bs fields matched sources a b a' :
  a ⊆ b → bind_case_fields variant sp bs fields a = Ok a' →
  ∃ b' sources', bind_case bs fields matched b sources = (b', sources', None) ∧ a' ⊆ b'.
Proof.
  revert a b sources. induction bs as [|x bs IH]; intros a b sources Hab Hf; simpl in *.
  { injection Hf as <-. eauto. }
  apply bind_Ok in Hf as (v & ->%ok_or_Ok & Hf). eapply IH; [|exact Hf]. by apply insert_mono.
Qed.

Lemma runs_match v cases t ef sp :
  previewable defs v = true → (∀ c, c ∈ map mc_body cases → runs c) → es_is_empty ef = true → runs (Hir (KMatch v cases) t ef sp).
Proof.
  intros Hp Hc Hef m K a w a' Hs Hw. pose proof Hs as (_ & Hsig & Hd & HK & Ha).
  pose proof (step_start _ _ _ _ Hs) as Hstep. cbn [advance_typed is_control] in Hstep. rewrite andb_false_r in Hstep.
  unfold typed_match in Hstep. cbn [typed_definitions set_frames env binding_provenance] in Hstep. rewrite Hd in Hstep.
  cbn [evaluate_pure] in Hw. rewrite Hef in Hw. cbn [negb] in Hw. apply bind_Ok in Hw as ([u a1] & Hv & Hw).
  pose proof (eval_larger _ _ _ _ _ Hp Ha Hv) as Hr.
  destruct (eval v (env m)) as [[v' b1]|f]; [|by eapply starts_raise]. destruct Hr as (-> & Hab & Hb).
  destruct (variant_parts u) as [[variant fields]|]; [|done].
  apply bind_Ok in Hw as (w0 & Hw & E). injection E as <- <-.
  assert (∃ c a2 a3, List.find (λ c, mc_variant c =s variant) cases = Some c ∧ mc_body c ∈ map mc_body cases ∧
            bind_case_fields (mc_variant c) (mc_span c) (mc_bindings c) fields a1 = Ok a2 ∧ eval (mc_body c) a2 = Ok (w0, a3))
    as (c & a2 & a3 & Hfind & Hin & Hbind & Hbody).
  { clear -Hw. induction cases as [|[x bs e csp] cases IH]; [done|]. simpl in *.
    destruct (x =s variant).
    - apply bind_Ok in Hw as (a2 & Ha2 & Hw). apply fmap_Ok in Hw as ([w1 a3] & Hw & E). simpl in E. subst.
      eexists _, a2, a3. split_and!; [done|by left|done..].
    - destruct (IH Hw) as (c & a2 & a3 & ? & ? & ? & ?). exists c, a2, a3. split_and!; try done. by right. }
  rewrite Hfind in Hstep.
  edestruct (bind_case_agrees _ _ _ _ (provenance_for (binding_provenance m) v) (binding_provenance m) a1 b1 a2 Hab Hbind)
    as (b2 & sources & Hcase & Hb2).
  cbn [binding_provenance set_env set_frames] in Hstep. rewrite Hcase in Hstep.
  eapply L_step; [exact Hstep|].
  eapply leads_weaken; [eapply (runs_scope (mc_body c)); [by apply Hc| |exact Hbody|exact Hab|done]|].
  - by split_and!.
  - intros m'. by apply arrives_weaken.
Qed.

(** The frame that holds the remaining elements. *)
Lemma runs_items items next element e results saved sources K v m a vs :
  runs e → eval_items eval element e a (drop next items) = Ok vs →
  frames m = FTypedMapItem items next element e results saved sources :: K → signal m = Some (SValue v) →
  typed_definitions m = defs → forallb passing K = true → a ⊆ saved →
  leads (arrives K (JArray (results ++ v :: vs)) a saved) m.
Proof.
  intros He. remember (drop next items) as l eqn:Hl. revert next results v m vs Hl.
  induction l as [|x l IH]; intros next results v m vs Hl Hi Hf Hs Hd HK Ha.
  - injection Hi as <-. eapply L_step; [|apply L_here].
    { unfold PlanSteps.step. rewrite Hf. cbn. unfold on_signal. cbn. rewrite Hs. unfold on_typed_map_item.
      destruct (items !! next) eqn:Hn; [|done]. by rewrite (drop_S _ _ _ Hn) in Hl. }
    by split_and!.
  - assert (items !! next = Some x ∧ l = drop (S next) items) as [Hn Hl'].
    { destruct (items !! next) as [x'|] eqn:Hn.
      - rewrite (drop_S _ _ _ Hn) in Hl. by injection Hl as -> ->.
      - apply lookup_ge_None, drop_ge in Hn. by rewrite Hn in Hl. }
    simpl in Hi. apply bind_Ok in Hi as ([v1 a1] & Hv1 & Hi). apply bind_Ok in Hi as (vs1 & Hi & E). injection E as <-.
    eapply L_step.
    { unfold PlanSteps.step. rewrite Hf. cbn. unfold on_signal. cbn. rewrite Hs. unfold on_typed_map_item. by rewrite Hn. }
    eapply leads_bind; [eapply He; [|exact Hv1]; split_and!; [done..|by apply insert_mono]|].
    intros m1 (Hf1 & Hs1 & Hd1 & _ & _). rewrite cons_middle, (assoc_L (++)). by eapply (IH (S next)).
Qed.

Lemma runs_map c element e t ef sp :
  previewable defs c = true → runs e → es_is_empty ef = true → runs (Hir (KMap c element e) t ef sp).
Proof.
  intros Hp He Hef m K a w a' Hs Hw. pose proof Hs as (_ & Hsig & Hd & HK & Ha).
  pose proof (step_start _ _ _ _ Hs) as Hstep. cbn [advance_typed is_control] in Hstep. rewrite andb_false_r in Hstep.
  unfold typed_map in Hstep. cbn [typed_definitions set_frames env] in Hstep. rewrite Hd in Hstep.
  cbn [evaluate_pure] in Hw. rewrite Hef in Hw. cbn [negb] in Hw. apply bind_Ok in Hw as ([u a1] & Hv & Hw).
  pose proof (eval_larger _ _ _ _ _ Hp Ha Hv) as Hr.
  destruct (eval c (env m)) as [[v' b1]|f]; [|by eapply starts_raise]. destruct Hr as (-> & Hab & Hb).
  destruct u as [| | | |items|]; try discriminate Hw. apply bind_Ok in Hw as (vs & Hi & E). injection E as <- <-.
  destruct (length items <=? MAX_MAP_ELEMENTS)%nat; [|by eapply starts_raise].
  destruct items as [|x items].
  - injection Hi as <-. eapply L_step; [exact Hstep|]. apply L_here. by split_and!.
  - simpl in Hi. apply bind_Ok in Hi as ([v1 a2] & Hv1 & Hi). apply bind_Ok in Hi as (vs1 & Hi & E). injection E as <-.
    eapply L_step; [exact Hstep|].
    eapply leads_bind; [eapply He; [|exact Hv1]; split_and!; [done..|by apply insert_mono]|].
    intros m1 (Hf1 & Hs1 & Hd1 & _ & _).
    eapply leads_weaken; [exact (runs_items (x :: items) 1 element e [] b1 _ K v1 m1 a1 vs1 He Hi Hf1 Hs1 Hd1 HK Hab)|]. intros m2. by apply arrives_weaken.
Qed.

(** Arguments: the same values, by name. *)
Lemma build_agrees f x args vals out a b vals' a' :
  (∀ c, c ∈ concat (map na_values args) → previewable defs c = true) →
  eval_arguments eval f x args vals a = Ok (vals', a') → a ⊆ b → (∀ k, bm_get k out = vals !! k) →
  match build_typed_arguments defs args b out with
  | Ok (out', b') => (∀ k, bm_get k out' = vals' !! k) ∧ a' ⊆ b' ∧ b ⊆ b'
  | Err _ => True
  end.
Proof.
  revert vals out a b. induction args as [|[n vs sp] args IH]; intros vals out a b Hp He Hab Hout; simpl in *.
  { injection He as <- <-. by split_and!. }
  destruct vs as [|e [|]]; try discriminate He. apply bind_Ok in He as ([v a1] & Hv & He). simpl in Hp |- *.
  pose proof (eval_larger _ _ _ _ _ (Hp e ltac:(by left)) Hab Hv) as Hr.
  destruct (eval e b) as [[v' b1]|]; [|done]. destruct Hr as (-> & Hab1 & Hb1). simpl.
  destruct (bm_contains n out) eqn:Hn; [done|].
  pose proof (IH _ (bm_insert n v out) _ b1 (λ c Hc, Hp c ltac:(by right)) He Hab1) as Hrest.
  destruct (build_typed_arguments _ _ _ _) as [[out' b']|]; [|done].
  destruct Hrest as (? & ? & ?); [|split_and!; [done|done|by etrans]].
  intros k. rewrite bm_get_insert. destruct (str_eqb_spec k n) as [->|Hne].
  - by rewrite lookup_insert_eq.
  - by rewrite lookup_insert_ne.
Qed.

Lemma link_agrees f x ps vals out la lb r la' :
  link_parameters f x ps vals la = Ok (r, la') → (∀ k, bm_get k out = vals !! k) → la ⊆ lb →
  ∃ out' lb', link_arguments ps out lb = Ok (out', lb') ∧ (∀ k, bm_get k out' = r !! k) ∧ la' ⊆ lb'.
Proof.
  revert vals out la lb. induction ps as [|p ps IH]; intros vals out la lb Hl Hout Hab; simpl in *.
  { injection Hl as <- <-. eauto. }
  rewrite Hout. destruct (vals !! p) as [v|]; [|done]. eapply IH; [exact Hl| |by apply insert_mono].
  intros k. rewrite bm_get_remove, Hout. destruct (str_eqb_spec p k) as [->|Hne].
  - by rewrite lookup_delete_eq.
  - by rewrite lookup_delete_ne.
Qed.

Lemma runs_application f args ps e t ef sp :
  (∀ c, c ∈ concat (map na_values args) → previewable defs c = true) → runs e → es_is_empty ef = true →
  runs (Hir (KFunctionApplication f args ps e) t ef sp).
Proof.
  intros Hp He Hef m K a w a' Hs Hw. pose proof Hs as (_ & Hsig & Hd & HK & Ha).
  pose proof (step_start _ _ _ _ Hs) as Hstep. cbn [advance_typed is_control] in Hstep. rewrite andb_false_r in Hstep.
  unfold typed_application in Hstep. cbn [typed_definitions set_frames env binding_provenance] in Hstep. rewrite Hd in Hstep.
  cbn [evaluate_pure] in Hw. rewrite Hef in Hw. cbn [negb] in Hw.
  apply bind_Ok in Hw as ([vals a1] & Hargs & Hw). fold (local_env a1) in Hw. cbv zeta in Hw.
  apply bind_Ok in Hw as ([r la] & Hlink & Hw).
  pose proof (build_agrees _ _ _ _ [] _ _ _ _ Hp Hargs Ha (λ k, eq_sym (lookup_empty k))) as Hb.
  destruct (build_typed_arguments _ _ _ _) as [[out b1]|msg]; [|by eapply starts_raise].
  destruct Hb as (Hout & Hab & Hb). fold (local_env b1) in Hstep. cbv zeta in Hstep.
  destruct (link_agrees _ _ _ _ _ _ _ _ _ Hlink Hout (local_env_mono _ _ Hab)) as (out' & lb & Hl & Hout' & Hlab).
  rewrite Hl in Hstep. destruct (map_to_list r) as [|[]] eqn:Hr; [|done].
  apply map_to_list_empty_iff in Hr as ->. destruct out' as [|[k v] out'].
  2: { specialize (Hout' k). cbn in Hout'. by rewrite str_eqb_refl in Hout'. }
  apply bind_Ok in Hw as ([w0 a2] & Hbody & E). injection E as <- <-.
  eapply L_step; [exact Hstep|].
  eapply leads_weaken; [eapply (runs_scope e); [exact He| |exact Hbody|exact Hab|done]|].
  - by split_and!.
  - intros m'. by apply arrives_weaken.
Qed.

(** The frames of the machine evaluate an effect-free expression to what the pure evaluator gives,
    unless the plan fails. *)
Lemma runs_pure e : previewable defs e = true → runs e.
Proof.
  induction e as [e IH] using hir_ind. intros Hp m K a w a' Hs Hw.
  assert (∀ c, c ∈ children e → previewable defs c = true) as Hpc by (intros c; by apply previewable_child).
  assert (∀ c, c ∈ children e → runs c) as Hc by auto. clear IH.
  assert (es_is_empty (heffects e) = true) as Hef.
  { destruct e as [k t ef sp]. cbn [evaluate_pure] in Hw. simpl. by destruct (es_is_empty ef). }
  destruct e as [k t ef sp]. simpl in Hef. destruct (is_control k) eqn:Hk; [|by eapply runs_value].
  pose proof (previewable_node _ _ Hp) as Hn. unfold children in Hc, Hpc. destruct k; try done; simpl in Hc, Hpc.
  - pose proof Hs as (_ & Hsig & Hd & HK & Ha). pose proof (step_start _ _ _ _ Hs) as Hstep.
    cbn [advance_typed is_control] in Hstep. rewrite andb_false_r in Hstep.
    cbn [evaluate_pure] in Hw. rewrite Hef in Hw. cbn [negb] in Hw.
    destruct steps as [|e steps]; [by eapply starts_raise|]. simpl in Hw. apply bind_Ok in Hw as ([v1 a1] & Hv1 & Hw).
    eapply L_step; [exact Hstep|].
    eapply leads_bind; [eapply (Hc e ltac:(by left)); [|exact Hv1]; by split_and!|].
    intros m1 (Hf1 & Hs1 & Hd1 & Ha1 & Hb1).
    eapply leads_weaken; [eapply (runs_steps (e :: steps) 1 K v1 m1 a1); try done; intros c Hin; apply Hc; by right|].
    intros m2. by apply arrives_weaken.
  - pose proof Hs as (_ & Hsig & Hd & HK & Ha). pose proof (step_start _ _ _ _ Hs) as Hstep.
    cbn [advance_typed is_control] in Hstep. rewrite andb_false_r in Hstep.
    cbn [evaluate_pure] in Hw. rewrite Hef in Hw. cbn [negb] in Hw. apply bind_Ok in Hw as ([v1 a1] & Hv1 & Hw).
    destruct (is_some (a1 !! name)); [done|]. injection Hw as <- <-.
    eapply L_step; [exact Hstep|].
    eapply leads_bind; [eapply (Hc value ltac:(by left)); [|exact Hv1]; by split_and!|].
    intros m1 (Hf1 & Hs1 & Hd1 & Ha1 & Hb1).
    eapply leads_weaken; [exact (runs_bind name K v1 m1 a1 Hf1 Hs1 Hd1 HK Ha1)|]. intros m2 [Harr _]. by eapply arrives_weaken.
  - eapply runs_if; [apply Hpc; by left|apply Hc; right; by left|apply Hc; do 2 right; by left|done..].
  - eapply runs_match; [apply Hpc; by left|intros c Hin; apply Hc; by right|done..].
  - eapply runs_map; [apply Hpc; by left|apply Hc; right; by left|done..].
  - eapply runs_application; [intros c Hin; apply Hpc, elem_of_app; by left|apply Hc, elem_of_app; right; by left|done..].
Qed.
End pure.

(** ** The machine follows the projection *)

Section simulation.
Context (defs : Definitions) (j : Json).
Local Abbreviation arrives := (arrives defs).
Local Abbreviation starts := (starts defs).

(** The frames of the machine against those of the projection, which lists the steps of a sequence
    one by one. *)
Inductive follows : list ProjectionFrame → list MachineFrame → Prop :=
| F_nil : follows [] []
| F_existing f fs K : follows fs K → follows (PExisting f :: fs) (f :: K)
| F_steps steps next fs K :
    follows fs K → follows (map PExpression (drop next steps) ++ fs) (FTypedSeq steps next :: K)
| F_bind name fs K : follows fs K → follows (PBind name :: fs) (FTypedBind name :: K)
| F_restore a origins saved sources fs K :
    a ⊆ saved → origins_ok j origins saved → follows fs K →
    follows (PRestore a origins :: fs) (FRestoreScope saved sources :: K).

(** The machine between two frames, with the value the projection knows the place of. *)
Definition between (st : ProjectionState) (m : PlanMachine) : Prop :=
  follows (st_frames st) (frames m) ∧ typed_definitions m = defs ∧ st_env st ⊆ env m ∧
  origins_ok j (st_origins st) (env m) ∧
  ∃ w, signal m = Some (SValue w) ∧ match st_current st with Some (path, _) => holds j path w | None => True end.

(** The machine before an expression. *)
Definition before (st : ProjectionState) (m : PlanMachine) : Prop :=
  ∃ e fs K, st_frames st = PExpression e :: fs ∧ follows fs K ∧ starts e K (st_env st) m ∧
    origins_ok j (st_origins st) (env m).

Definition simulated (st : ProjectionState) (m : PlanMachine) : Prop := between st m ∨ before st m.

Lemma origins_ok_mono origins a b : a ⊆ b → origins_ok j origins a → origins_ok j origins b.
Proof.
  intros Hab Ho name path Hp. destruct (Ho name path Hp) as (w & Hw & Hh). exists w. split; [|done].
  by eapply lookup_weaken.
Qed.

(** An expression with an origin yields the part of the answer. *)
Lemma runs_origin e K a m origins path :
  starts e K a m → previewable defs e = true → origins_ok j origins (env m) → origin e origins = Some path →
  leads (λ m', frames m' = K ∧ typed_definitions m' = defs ∧ env m' = env m ∧
           ∃ w, signal m' = Some (SValue w) ∧ holds j path w) m.
Proof.
  intros Hs Hp Ho Hor. pose proof Hs as (_ & _ & Hd & _ & _). pose proof (step_start _ _ _ _ _ Hs) as Hstep.
  destruct e as [k t ef sp].
  assert (is_control k = false ∧ (es_is_empty ef = false → step m = raise (set_frames m K)
    (Msg "effectful marker appeared on a typed HIR node that cannot produce effects" []))) as [Hk Hraise].
  { destruct k; try done; (split; [done|]); intros Hef; rewrite Hstep; cbn [advance_typed]; by rewrite Hef. }
  destruct (es_is_empty ef) eqn:Hef; [|by eapply starts_raise; [done|by apply Hraise|]].
  cbn [advance_typed] in Hstep. rewrite Hef, Hk in Hstep. cbn [andb negb] in Hstep. unfold typed_value in Hstep.
  cbn [typed_definitions set_frames env] in Hstep. rewrite Hd in Hstep.
  destruct (evaluate_pure defs _ (env m)) as [[w b]|f] eqn:Hw; [|by eapply starts_raise].
  eapply eval_origin in Hw as [-> Hh]; [|done..]. eapply L_step; [exact Hstep|]. apply L_here. split_and!; eauto.
Qed.

(** The rest of a sequence with no steps left passes the value on. *)
Definition settled (fs : list ProjectionFrame) (K : list MachineFrame) : Prop :=
  match fs with
  | [] => K = []
  | PExisting f :: fs => ∃ K', K = f :: K' ∧ follows fs K'
  | PExpression e :: fs =>
      ∃ steps next K', K = FTypedSeq steps next :: K' ∧ steps !! next = Some e ∧ follows fs (FTypedSeq steps (S next) :: K')
  | PBind name :: fs => ∃ K', K = FTypedBind name :: K' ∧ follows fs K'
  | PRestore a origins :: fs =>
      ∃ saved sources K', K = FRestoreScope saved sources :: K' ∧ a ⊆ saved ∧ origins_ok j origins saved ∧ follows fs K'
  end.

Lemma settle st m : between st m → leads (λ m', between st m' ∧ settled (st_frames st) (frames m')) m.
Proof.
  intros Hb. pose proof Hb as (Hf & _). remember (frames m) as K eqn:HK. remember (st_frames st) as fs eqn:Hfs.
  revert m Hb HK Hfs. induction Hf as [|f fs K Hf _|steps next fs K Hf IH|name fs K Hf _|a origins saved sources fs K Ha Ho Hf _];
    intros m Hb HK Hfs; try (apply L_here; split; [done|]; rewrite <- HK; simpl; by eauto 8).
  destruct (drop next steps) as [|e r] eqn:Hr.
  - destruct Hb as (_ & Hd & He & Ho & w & Hw & Hc).
    assert (steps !! next = None) as Hn.
    { destruct (steps !! next) eqn:Hn; [|done]. by rewrite (drop_S _ _ _ Hn) in Hr. }
    eapply L_step.
    { unfold PlanSteps.step. rewrite <- HK. cbn. unfold on_signal. cbn. rewrite Hw. unfold on_sequence. by rewrite Hn. }
    apply IH; [|done..]. split_and!; try done; [by rewrite <- Hfs|]. exists w. done.
  - apply L_here. split; [done|]. rewrite <- HK. simpl. exists steps, next, K.
    assert (steps !! next = Some e ∧ r = drop (S next) steps) as [Hn ->].
    { destruct (steps !! next) as [e'|] eqn:Hn.
      - rewrite (drop_S _ _ _ Hn) in Hr. by injection Hr as -> ->.
      - apply lookup_ge_None, drop_ge in Hn. by rewrite Hn in Hr. }
    split_and!; [done..|]. by apply F_steps.
Qed.

(** An expression that is evaluated away, on a machine that runs it. *)
Lemma runs_away e K m st v a' :
  starts e K (st_env st) m → previewable defs e = true → origins_ok j (st_origins st) (env m) →
  evaluate_pure defs e (st_env st) = Ok (v, a') →
  leads (λ m', arrives K v a' (env m) m' ∧ origins_ok j (st_origins st) (env m')) m.
Proof.
  intros Hs Hp Ho Hv. eapply leads_weaken; [by eapply runs_pure|]. intros m' Harr. split; [done|].
  eapply origins_ok_mono, Ho. apply Harr.
Qed.

Lemma simulate_value e K m st st' :
  follows (st_frames st) K → starts e K (st_env st) m → previewable defs e = true →
  origins_ok j (st_origins st) (env m) → project_value defs e st = Go st' → leads (simulated st') m.
Proof.
  intros Hf Hs Hp Ho. unfold project_value. destruct (origin e (st_origins st)) as [path|] eqn:Hor.
  - intros [= <-]. eapply leads_weaken; [by eapply runs_origin|]. intros m' (Hf' & Hd & He & w & Hw & Hh).
    left. pose proof Hs as (_ & _ & _ & _ & Ha). split_and!; simpl; rewrite ?Hf', ?He; eauto.
  - destruct (es_is_empty _); [|done]. destruct (evaluate_pure _ _ _) as [[v a']|f] eqn:Hv; [|done]. intros [= <-].
    eapply leads_weaken; [by eapply runs_away|]. intros m' [(Hf' & Hw & Hd & Ha & _) Ho'].
    left. split_and!; simpl; rewrite ?Hf'; eauto.
Qed.

Lemma simulate_bind name K m st st' w :
  follows (st_frames st) K → frames m = FTypedBind name :: K → typed_definitions m = defs → forallb passing K = true →
  st_env st ⊆ env m → origins_ok j (st_origins st) (env m) → signal m = Some (SValue w) →
  match st_current st with Some (path, _) => holds j path w | None => True end →
  project_bind name st = Go st' → leads (simulated st') m.
Proof.
  unfold project_bind. intros Hf Hfm Hd HK Ha Ho Hw Hc Hgo. destruct (_ || _); [done|].
  destruct (st_current st) as [[path b]|]; [|done]. injection Hgo as <-.
  eapply leads_weaken; [eapply runs_bind; try done; by apply Ha|].
  intros m' ((Hf' & Hs' & Hd' & _ & Hm) & Hnone & Hname). left. split_and!; simpl; rewrite ?Hf'; [done..| | |eauto].
  - by etrans.
  - intros n p. destruct (decide (n = name)) as [->|Hne].
    + rewrite lookup_insert_eq. intros [= <-]. eauto.
    + rewrite lookup_insert_ne by done. by apply (origins_ok_mono _ _ _ Hm Ho).
Qed.

Lemma simulate_binding name value t ef sp K m st st' :
  follows (st_frames st) K → starts (Hir (KBind name value) t ef sp) K (st_env st) m → previewable defs value = true →
  origins_ok j (st_origins st) (env m) → project_binding defs name value st = Go st' → leads (simulated st') m.
Proof.
  intros Hf Hs Hp Ho. pose proof Hs as (_ & Hsig & Hd & HK & Ha). pose proof (step_start _ _ _ _ _ Hs) as Hstep.
  cbn [advance_typed is_control] in Hstep. rewrite andb_false_r in Hstep.
  assert (∀ a, a ⊆ env m → starts value (FTypedBind name :: K) a (push (FTypedEval value) (push (FTypedBind name) (set_frames m K))))
    as Hs' by (intros a Ha'; by split_and!).
  unfold project_binding. destruct (origin value (st_origins st)) as [path|] eqn:Hor.
  - intros [= <-]. eapply L_step; [exact Hstep|].
    eapply leads_weaken; [eapply runs_origin; try done; by apply Hs'|]. intros m' (Hf' & Hd' & He & w & Hw & Hh).
    left. split_and!; simpl; rewrite ?Hf', ?He; [by constructor|done..|eauto].
  - destruct (es_is_empty _); [|done]. destruct (evaluate_pure _ _ _) as [[v a']|f] eqn:Hv; [|done]. intros [= <-].
    eapply L_step; [exact Hstep|].
    eapply leads_bind; [eapply (runs_away value _ _ st); try done; by apply Hs'|].
    intros m1 [(Hf1 & Hw1 & Hd1 & Ha1 & _) Ho1].
    eapply leads_weaken; [exact (runs_bind defs name K v m1 a' Hf1 Hw1 Hd1 HK Ha1)|]. intros m' ((Hf' & Hs2 & Hd' & Ha' & Hm) & _ & _).
    left. split_and!; simpl; rewrite ?Hf'; [done..|by eapply origins_ok_mono|eauto].
Qed.

(** The machine evaluates a condition in place. *)
Lemma step_if c x y t ef sp K m a :
  starts (Hir (KIf c x y) t ef sp) K a m →
  match evaluate_pure defs c (env m) with
  | Ok (JBool b, e) =>
      step m = Continue (push (FTypedEval (if b then x else y))
                 (push (FRestoreScope e (binding_provenance m)) (set_env (set_frames m K) e)))
  | _ => ∀ Q, leads Q m
  end.
Proof.
  intros Hs. pose proof Hs as (_ & _ & Hd & _ & _). pose proof (step_start _ _ _ _ _ Hs) as Hstep.
  cbn [advance_typed is_control] in Hstep. rewrite andb_false_r in Hstep.
  unfold typed_if in Hstep. cbn [typed_definitions set_frames env] in Hstep. rewrite Hd in Hstep.
  destruct (evaluate_pure defs c (env m)) as [[[|b| | | |] e]|f]; try done; intros Q; by eapply starts_raise.
Qed.

Lemma simulate_if c x y t ef sp K m st st' :
  follows (st_frames st) K → starts (Hir (KIf c x y) t ef sp) K (st_env st) m → previewable defs c = true →
  origins_ok j (st_origins st) (env m) → project_if defs c x y st = Go st' → leads (simulated st') m.
Proof.
  intros Hf Hs Hp Ho. pose proof Hs as (_ & Hsig & Hd & HK & Ha). pose proof (step_if _ _ _ _ _ _ _ _ _ Hs) as Hstep.
  unfold project_if. destruct (origin c _); [by destruct (negb _)|].
  destruct (evaluate_pure defs c (st_env st)) as [[v a']|] eqn:Hv; [|done]. destruct v as [|b| | | |]; try done. intros [= <-].
  pose proof (eval_larger defs _ _ _ _ _ Hp Ha Hv) as Hr.
  destruct (evaluate_pure defs c (env m)) as [[w e]|]; [|by apply Hstep]. destruct Hr as (-> & Hae & Hme).
  eapply L_step; [exact Hstep|]. apply L_here. right.
  exists (if b then x else y), (PRestore a' (st_origins st) :: st_frames st), (FRestoreScope e (binding_provenance m) :: K).
  pose proof (origins_ok_mono _ _ _ Hme Ho). split_and!; try done. by apply F_restore.
Qed.

(** The answer decides a condition on it. *)
Definition answered (c : ReplyProjectionCondition) : Prop := at_path j (rc_path c) = Some (JBool (rc_value c)).

Lemma encoded_bool x b : encoded x (JBool b) → x = JBool b.
Proof. by inversion 1. Qed.

Lemma simulate_fork c x y t ef sp K m st states st' :
  follows (st_frames st) K → starts (Hir (KIf c x y) t ef sp) K (st_env st) m → previewable defs c = true →
  origins_ok j (st_origins st) (env m) → project_if defs c x y st = Fork states → st' ∈ states →
  Forall answered (st_conditions st') → leads (simulated st') m.
Proof.
  intros Hf Hs Hp Ho. pose proof Hs as (_ & Hsig & Hd & HK & Ha). pose proof (step_if _ _ _ _ _ _ _ _ _ Hs) as Hstep.
  unfold project_if. destruct (origin c _) as [path|] eqn:Hor.
  2: { destruct (evaluate_pure defs c (st_env st)) as [[[] ?]|]; discriminate. }
  destruct (negb _); [done|]. intros [= <-] Hin Hall.
  assert (∃ b, guarded st path b (if b then x else y) = Some st') as [b Hg].
  { destruct (guarded st path false y) as [s|] eqn:E, (guarded st path true x) as [s'|] eqn:E';
      rewrite ?elem_of_cons, ?elem_of_nil in Hin; destruct_or? Hin; try done; subst; [by exists false|by exists true|by exists false|by exists true]. }
  unfold guarded in Hg. destruct (existsb _ _); [done|]. injection Hg as <-. simpl in Hall.
  apply Forall_app in Hall as [_ [Hb _]%Forall_cons]. unfold answered in Hb. simpl in Hb.
  destruct (evaluate_pure defs c (env m)) as [[v e]|] eqn:Hv; [|by apply Hstep].
  destruct v as [|b'| | | |]; try by apply Hstep.
  eapply eval_origin in Hv as [-> (z & Hz & _ & Hez)]; [|done..].
  apply encoded_bool in Hez as ->. rewrite Hb in Hz. injection Hz as <-.
  eapply L_step; [exact Hstep|]. apply L_here. right.
  exists (if b then x else y), (PRestore (st_env st) (st_origins st) :: st_frames st), (FRestoreScope (env m) (binding_provenance m) :: K).
  split_and!; try done. by apply F_restore.
Qed.

Lemma simulate_expression e K m st st' :
  follows (st_frames st) K → starts e K (st_env st) m → previewable defs e = true →
  origins_ok j (st_origins st) (env m) → project_expression defs e st = Go st' → leads (simulated st') m.
Proof.
  intros Hf Hs Hp Ho Hgo. destruct e as [k t ef sp]. unfold project_expression in Hgo. simpl hkind in Hgo.
  pose proof (λ c, previewable_child defs _ c Hp) as Hc. unfold children in Hc. simpl hkind in Hc.
  destruct k; try (by eapply simulate_value); simpl in Hc.
  - injection Hgo as <-. pose proof Hs as (_ & Hsig & Hd & HK & Ha). pose proof (step_start _ _ _ _ _ Hs) as Hstep.
    cbn [advance_typed is_control] in Hstep. rewrite andb_false_r in Hstep.
    destruct steps as [|e steps]; [by eapply starts_raise|].
    eapply L_step; [exact Hstep|]. apply L_here. right.
    exists e, (map PExpression steps ++ st_frames st), (FTypedSeq (e :: steps) 1 :: K). split_and!; try done.
    by apply (F_steps (e :: steps) 1).
  - eapply simulate_binding; [done|done|apply Hc; by left|done..].
  - eapply simulate_if; [done|done|apply Hc; by left|done..].
Qed.

(** ** What the projection finds *)

(** [yields st p]: the projection finds [p] from the state. *)
Inductive yields : ProjectionState → ReplyProjection → Prop :=
| Y_stop st found p : project_step defs st = Stop found → p ∈ found → yields st p
| Y_go st st' p : project_step defs st = Go st' → yields st' p → yields st p
| Y_fork st states st' p : project_step defs st = Fork states → st' ∈ states → yields st' p → yields st p.

(** The expressions of the frames are ones the preview can rely on. *)
Definition frame_previewable (f : ProjectionFrame) : Prop :=
  match f with
  | PExpression e | PExisting (FTypedEval e) => previewable defs e = true
  | PExisting (FTypedSeq steps next) => Forall (λ e, previewable defs e = true) (drop next steps)
  | _ => True
  end.
Definition state_previewable (st : ProjectionState) : Prop := Forall frame_previewable (st_frames st).

Definition frame_passing (f : ProjectionFrame) : bool := match f with PExisting f => passing f | _ => true end.

(** What a step makes of the frames and the conditions. *)
Definition grows (rest : list ProjectionFrame) (st st' : ProjectionState) : Prop :=
  (∃ new, st_frames st' = new ++ rest) ∧ st_conditions st ⊆ st_conditions st'.

Lemma project_bind_grows name st st' : project_bind name st = Go st' → st_frames st' = st_frames st ∧ grows (st_frames st) st st'.
Proof.
  unfold project_bind. destruct (_ || _); [done|]. destruct (st_current st) as [[]|]; [|done]. intros [= <-].
  split; [done|]. split; [by exists []|done].
Qed.

Lemma project_expression_grows e st st' :
  project_expression defs e st = Go st' ∨ (∃ states, project_expression defs e st = Fork states ∧ st' ∈ states) →
  previewable defs e = true →
  grows (st_frames st) st st' ∧ (state_previewable st → state_previewable st').
Proof.
  intros Hst Hp. pose proof (λ c, previewable_child defs _ c Hp) as Hc. destruct e as [k t ef sp].
  unfold children in Hc. simpl hkind in Hc.
  assert (∀ e st', project_value defs e st = Go st' → st_frames st' = st_frames st ∧ st_conditions st' = st_conditions st) as Hvalue.
  { intros e st1. unfold project_value. destruct (origin e _); [by intros [= <-]|].
    destruct (es_is_empty _); [|done]. destruct (evaluate_pure _ _ _) as [[v a]|]; [by intros [= <-]|done]. }
  assert (∀ st', project_value defs (Hir k t ef sp) st = Go st' ∨
            (∃ states, project_value defs (Hir k t ef sp) st = Fork states ∧ st' ∈ states) →
            grows (st_frames st) st st' ∧ (state_previewable st → state_previewable st')) as Hother.
  { intros st1 [Hgo|(states & Hfork & _)].
    - destruct (Hvalue _ _ Hgo) as [Hf Hcond]. split; [split; [exists []; by rewrite Hf|by rewrite Hcond]|].
      unfold state_previewable. by rewrite Hf.
    - exfalso. revert Hfork. unfold project_value. destruct (origin _ _); [done|].
      destruct (es_is_empty _); [|done]. by destruct (evaluate_pure _ _ _) as [[]|]. }
  unfold project_expression in Hst. simpl hkind in Hst. destruct k; try (by apply Hother); simpl in Hc.
  - destruct Hst as [[= <-]|(? & ? & _)]; [|done]. split; [split; [by eexists|done]|].
    intros Hg. apply Forall_app. split; [|done]. apply Forall_map, Forall_forall. intros c Hin. by apply Hc.
  - unfold project_binding in Hst. destruct (origin value _) as [path|].
    + destruct Hst as [[= <-]|(? & ? & _)]; [|done]. split; [split; [by exists [PBind name]|done]|]. by constructor.
    + destruct (es_is_empty _); [|by destruct Hst as [?|(? & ? & _)]].
      destruct (evaluate_pure _ _ _) as [[v a]|]; [|by destruct Hst as [?|(? & ? & _)]].
      destruct Hst as [[= <-]|(? & ? & _)]; [|done]. split; [split; [by exists []|done]|]. done.
  - unfold project_if in Hst. assert (∀ b : bool, previewable defs (if b then when_true else when_false) = true) as Hbr
      by (intros []; apply Hc; [right; by left|do 2 right; by left]).
    destruct (origin condition _) as [path|].
    + destruct (negb _); [by destruct Hst as [?|(? & ? & _)]|]. destruct Hst as [?|(? & [= <-] & Hin)]; [done|].
      assert (∃ b, guarded st path b (if b then when_true else when_false) = Some st') as [b Hg].
      { destruct (guarded st path false when_false) as [s|] eqn:E, (guarded st path true when_true) as [s'|] eqn:E';
          rewrite ?elem_of_cons, ?elem_of_nil in Hin; destruct_or? Hin; try done; subst; [by exists false|by exists true|by exists false|by exists true]. }
      unfold guarded in Hg. destruct (existsb _ _); [done|]. injection Hg as <-.
      split; [split; [by exists [PExpression (if b then when_true else when_false); PRestore (st_env st) (st_origins st)]|set_solver]|].
      intros Hg. constructor; [apply Hbr|]. by constructor.
    + destruct (evaluate_pure _ _ _) as [[[|b| | | |] a]|]; try by destruct Hst as [?|(? & ? & _)].
      destruct Hst as [[= <-]|(? & ? & _)]; [|done].
      split; [split; [by exists [PExpression (if b then when_true else when_false); PRestore a (st_origins st)]|done]|].
      intros Hg. constructor; [apply Hbr|]. by constructor.
Qed.

(** One step, to the next state or to one of the branches. *)
Definition leads_to (st st' : ProjectionState) : Prop :=
  project_step defs st = Go st' ∨ ∃ states, project_step defs st = Fork states ∧ st' ∈ states.

(** The state without its top frame, as the step works on it. *)
Definition popped (rest : list ProjectionFrame) (st : ProjectionState) : ProjectionState :=
  mkState rest (st_env st) (st_origins st) (st_current st) (st_conditions st).

Lemma leads_to_expression f e rest st st' :
  st_frames st = f :: rest → f = PExpression e ∨ f = PExisting (FTypedEval e) → leads_to st st' →
  project_expression defs e (popped rest st) = Go st' ∨
  ∃ states, project_expression defs e (popped rest st) = Fork states ∧ st' ∈ states.
Proof. unfold leads_to, project_step. intros ->. by intros [->| ->]. Qed.

Lemma leads_to_grows f rest st st' :
  st_frames st = f :: rest → state_previewable st → leads_to st st' →
  frame_passing f = true ∧ grows rest st st' ∧ state_previewable st'.
Proof.
  intros Hf Hp Hst. pose proof Hp as Hp'. unfold state_previewable in Hp'. rewrite Hf in Hp'.
  apply Forall_cons in Hp' as [Hpf Hrest].
  assert (∀ e, f = PExpression e ∨ f = PExisting (FTypedEval e) → previewable defs e = true →
            grows rest st st' ∧ state_previewable st') as Hexpr.
  { intros e He Hpe. pose proof (leads_to_expression _ _ _ _ _ Hf He Hst) as Hst'.
    by destruct (project_expression_grows _ _ _ Hst' Hpe) as [Hg Hpr]; auto. }
  assert (∀ name, project_bind name (popped rest st) = Go st' → grows rest st st' ∧ state_previewable st') as Hbind.
  { intros name Hgo. apply project_bind_grows in Hgo as [Hfr Hg]. split; [done|]. unfold state_previewable. by rewrite Hfr. }
  unfold leads_to, project_step in Hst. rewrite Hf in Hst.
  destruct f as [f|e|name|a origins]; [destruct f| | |]; try (by destruct Hst as [?|(? & ? & _)]); split; try done.
  - destruct Hst as [[= <-]|(? & ? & _)]; [|done]. by split; [split; [by exists []|done]|].
  - by eapply Hexpr; [right|].
  - destruct Hst as [[= <-]|(? & ? & _)]; [|done]. split; [split; [by eexists|done]|].
    apply Forall_app. split; [|done]. apply Forall_map, Hpf.
  - destruct Hst as [Hgo|(? & Hgo & _)]; [by eapply Hbind|].
    unfold project_bind in Hgo. destruct (_ || _); [done|]. by destruct (st_current _) as [[]|].
  - by eapply Hexpr; [left|].
  - destruct Hst as [Hgo|(? & Hgo & _)]; [by eapply Hbind|].
    unfold project_bind in Hgo. destruct (_ || _); [done|]. by destruct (st_current _) as [[]|].
  - destruct Hst as [[= <-]|(? & ? & _)]; [|done]. by split; [split; [by exists []|done]|].
Qed.

Lemma step_without_frames st st' : st_frames st = [] → ¬ leads_to st st'.
Proof. unfold leads_to, project_step. intros ->. by intros [?|(? & ? & _)]. Qed.

(** Only the empty stack ends with a projection. *)
Lemma stops_with_nothing st f rest found : st_frames st = f :: rest → project_step defs st = Stop found → found = [].
Proof.
  intros Hf. unfold project_step. rewrite Hf.
  assert (∀ name st, project_bind name st = Stop found → found = []) as Hbind.
  { intros name st1. unfold project_bind. destruct (_ || _); [by intros [= <-]|].
    destruct (st_current st1) as [[]|]; [done|by intros [= <-]]. }
  assert (∀ e st, project_expression defs e st = Stop found → found = []) as Hexpr.
  { intros e st1. unfold project_expression, project_value, project_binding, project_if.
    destruct (hkind e); repeat case_match; by intros [= <-]. }
  destruct f as [f|e|name|a origins]; [destruct f| | |]; intros Hs; try (by injection Hs as <-); try done; eauto.
Qed.

(** A state from which something is found: nothing in its frames catches a failure, and its
    conditions are among those of what is found. *)
Lemma yields_inv st p :
  yields st p → state_previewable st → forallb frame_passing (st_frames st) = true ∧ st_conditions st ⊆ rp_conditions p.
Proof.
  assert (∀ st st', leads_to st st' → state_previewable st →
            (state_previewable st' → forallb frame_passing (st_frames st') = true ∧ st_conditions st' ⊆ rp_conditions p) →
            forallb frame_passing (st_frames st) = true ∧ st_conditions st ⊆ rp_conditions p) as Hstep.
  { intros st1 st2 Hl Hp Hnext. destruct (st_frames st1) as [|f rest] eqn:Hf; [by apply step_without_frames in Hl|].
    destruct (leads_to_grows _ _ _ _ Hf Hp Hl) as (Hpass & ([new Hnew] & Hc) & Hp').
    destruct (Hnext Hp') as [Hall Hcs]. rewrite Hnew, forallb_app in Hall. apply andb_true_iff in Hall as [_ Hall].
    split; [simpl; by rewrite Hpass|by etrans]. }
  induction 1 as [st found p Hs Hin|st st' p Hs _ IH|st states st' p Hs Hin _ IH]; intros Hp.
  - destruct (st_frames st) as [|f rest] eqn:Hf.
    + unfold project_step in Hs. rewrite Hf in Hs. split; [done|]. destruct (st_current st) as [[path []]|]; injection Hs as <-;
        [|by apply elem_of_nil in Hin..]. by apply list_elem_of_singleton in Hin as ->.
    + rewrite (stops_with_nothing _ _ _ _ Hf Hs) in Hin. by apply elem_of_nil in Hin.
  - eapply Hstep; [by left|done|by apply IH].
  - eapply Hstep; [right; by eauto|done|by apply IH].
Qed.

Lemma follows_passing fs K : follows fs K → forallb frame_passing fs = true → forallb passing K = true.
Proof.
  induction 1 as [|f fs K _ IH|steps next fs K _ IH|name fs K _ IH|a origins saved sources fs K Ha Ho _ IH]; simpl; try done.
  - intros [-> ?]%andb_true_iff. by apply IH.
  - rewrite forallb_app. intros [_ ?]%andb_true_iff. by apply IH.
Qed.

(** ** The simulation *)

(** An expression that is next. *)
Lemma simulate_next e rest K m st st' p :
  follows rest K → starts e K (st_env st) m → previewable defs e = true → origins_ok j (st_origins st) (env m) →
  project_expression defs e (popped rest st) = Go st' ∨
  (∃ states, project_expression defs e (popped rest st) = Fork states ∧ st' ∈ states) →
  yields st' p → state_previewable st' → Forall answered (rp_conditions p) → leads (simulated st') m.
Proof.
  intros Hf Hs Hp Ho [Hgo|(states & Hfork & Hin)] Hy Hpr Hall; [by eapply (simulate_expression e K m (popped rest st))|].
  destruct e as [k t ef sp]. unfold project_expression in Hfork. simpl hkind in Hfork.
  assert (Forall answered (st_conditions st')) as Hc.
  { destruct (yields_inv _ _ Hy Hpr) as [_ Hsub]. rewrite Forall_forall in *. auto. }
  destruct k; try (by unfold project_value in Hfork; repeat case_match); try done.
  - by unfold project_binding in Hfork; repeat case_match.
  - eapply (simulate_fork _ _ _ _ _ _ K m (popped rest st)); try done.
    eapply previewable_child; [exact Hp|]. by left.
Qed.

Lemma simulate_step st st' m p :
  simulated st m → state_previewable st → leads_to st st' → yields st p → yields st' p →
  Forall answered (rp_conditions p) → leads (simulated st') m.
Proof.
  intros Hsim Hp Hl Hy Hy' Hall. destruct (st_frames st) as [|f rest] eqn:Hf; [by apply step_without_frames in Hl|].
  destruct (leads_to_grows _ _ _ _ Hf Hp Hl) as (Hpass & _ & Hp').
  destruct (yields_inv _ _ Hy Hp) as [Hpassing _].
  assert (frame_previewable f) as Hpf by (unfold state_previewable in Hp; rewrite Hf in Hp; by apply Forall_cons in Hp as [? _]).
  destruct Hsim as [Hb|(e & fs & K & Hfe & Hfo & Hs & Ho)].
  2: { rewrite Hf in Hfe. injection Hfe as -> ->. eapply simulate_next; try done.
       by eapply leads_to_expression; [|left|]. }
  eapply leads_bind; [by apply settle|]. clear m Hb. intros m [Hb Hset].
  destruct Hb as (Hfo & Hd & Ha & Ho & w & Hw & Hc). rewrite Hf in Hset, Hpassing.
  unfold leads_to, project_step in Hl. rewrite Hf in Hl.
  destruct f as [f|e|name|a origins]; simpl in Hset.
  - destruct Hset as (K & HK & HfK). pose proof (follows_passing _ _ HfK) as HpK.
    simpl in Hpassing. apply andb_true_iff in Hpassing as [_ Hpassing]. specialize (HpK Hpassing).
    destruct f; try (by destruct Hl as [?|(? & ? & _)]).
    + destruct Hl as [[= <-]|(? & ? & _)]; [|done].
      destruct (runs_restore _ _ _ _ _ HK Hw) as (m' & Hstep & Hf' & Hs' & He' & Hd').
      eapply L_step; [exact Hstep|]. apply L_here. left. split_and!; simpl; rewrite ?Hf', ?He', ?Hd'; eauto.
      intros n q. by rewrite lookup_empty.
    + eapply L_failed. unfold PlanSteps.step. rewrite HK. cbn. unfold on_start. cbn. by rewrite Hw.
    + destruct Hl as [[= <-]|(? & ? & _)]; [|done]. apply L_here. left. split_and!; simpl; eauto.
      rewrite HK. by apply F_steps.
    + destruct Hl as [Hgo|(? & Hgo & _)]; [|by unfold project_bind in Hgo; repeat case_match].
      eapply (simulate_bind name K m _ st' w); [..|exact Hgo]; done.
  - destruct Hset as (steps & next & K & HK & Hn & HfK). pose proof (follows_passing _ _ HfK) as HpK.
    simpl in Hpassing. specialize (HpK Hpassing).
    eapply L_step.
    { unfold PlanSteps.step. rewrite HK. cbn. unfold on_signal. cbn. rewrite Hw. unfold on_sequence. by rewrite Hn. }
    eapply (simulate_next e rest (FTypedSeq steps (S next) :: K)); try done.
  - destruct Hset as (K & HK & HfK). pose proof (follows_passing _ _ HfK) as HpK.
    simpl in Hpassing. specialize (HpK Hpassing).
    destruct Hl as [Hgo|(? & Hgo & _)]; [|by unfold project_bind in Hgo; repeat case_match].
    eapply (simulate_bind name K m _ st' w); [..|exact Hgo]; done.
  - destruct Hset as (saved & sources & K & HK & Hsaved & Hos & HfK). destruct Hl as [[= <-]|(? & ? & _)]; [|done].
    destruct (runs_restore _ _ _ _ _ HK Hw) as (m' & Hstep & Hf' & Hs' & He' & Hd').
    eapply L_step; [exact Hstep|]. apply L_here. left. split_and!; simpl; rewrite ?Hf', ?He', ?Hd'; eauto.
Qed.
End simulation.
End machine.
