(* ===== verification/StreamPreview.v ===== *)
(** * Previews are replies

    The theorems on [reply_projections]: a preview that the runtime shows while a model answers is
    the reply of the plan, or the plan fails ([preview_is_reply]), as long as the plan catches no
    failure; with [fallback] it may be neither ([preview_not_reply]). *)

From stdpp Require Import base list gmap strings sorting relations.
From Stdlib Require Import NArith ZArith Lia.
From S2P Require Import Prelude Types JsonValue Diagnostic Syntax Hir Declarations Analyzer Decode DecodeFacts JsonBoundary JsonBoundaryFacts Eval Text StrictJson Ordering Plan PlanSteps PlanFacts PlanAdmission PlanSamples StreamProjection StreamFacts StreamSound.

(** ** What the loops find *)

Lemma explore_yields defs budget st pending found all p :
  explore defs budget st pending found = Some all → p ∈ all →
  p ∈ found ∨ yields defs st p ∨ ∃ st', st' ∈ pending ∧ yields defs st' p.
Proof.
  revert st pending found. induction budget as [|budget IH]; intros st pending found; simpl; [done|].
  destruct (8 <? length pending)%nat; [done|]. intros H Hp.
  assert (∀ rest found', match rest with st :: rest => explore defs budget st rest found' | [] => Some found' end = Some all →
            p ∈ found' ∨ ∃ st', st' ∈ rest ∧ yields defs st' p) as Hnext.
  { intros [|st1 rest] found' Hr; [injection Hr as ->; by left|].
    destruct (IH _ _ _ Hr Hp) as [?|[?|(st' & ? & ?)]]; [by left|right..]; [exists st1|exists st']; split; [by left|done|by right|done]. }
  destruct (project_step defs st) as [more|st1|states] eqn:Hs.
  - apply Hnext in H as [[?|?]%elem_of_app|?]; [by left|right; left; by eapply Y_stop|by do 2 right].
  - destruct (IH _ _ _ H Hp) as [?|[?|?]]; [by left|right; left; by eapply Y_go|by do 2 right].
  - apply Hnext in H as [?|(st' & [?|?]%elem_of_app & ?)]; [by left|right; left; by eapply Y_fork|right; right; eauto].
Qed.

Lemma dedup_adjacent_elem `{EqDecision A} (x : A) l : x ∈ dedup_adjacent l → x ∈ l.
Proof.
  induction l as [|a [|b r] IH]; [done..|].
  change (dedup_adjacent (a :: b :: r)) with
    (if decide (a = b) then dedup_adjacent (b :: r) else a :: dedup_adjacent (b :: r)).
  destruct (decide (a = b)); [set_solver|]. rewrite !elem_of_cons in *. naive_solver.
Qed.

(** What is previewed was found from the suspended machine. *)
Lemma reply_projections_yields `{ProjectionText} m n request tools kind p :
  pending m = Some (PInfer n request tools kind) → p ∈ reply_projections m →
  ∃ b, root_string kind = Some b ∧
    yields (typed_definitions m) (mkState (map PExisting (frames m)) (env m) ∅ (Some ([], b)) []) p.
Proof.
  unfold reply_projections. intros ->. destruct (root_string kind) as [b|]; [|by intros ?%elem_of_nil].
  intros Hp%dedup_adjacent_elem. rewrite merge_sort_Permutation in Hp. exists b. split; [done|].
  destruct (explore _ _ _ _ _) as [all|] eqn:He; [|by apply elem_of_nil in Hp].
  by destruct (explore_yields _ _ _ _ _ _ _ He Hp) as [?%elem_of_nil|[?|(? & ?%elem_of_nil & _)]].
Qed.

Section preview.
Context `{Digest} `{PlanCodec} `{JsonTextLaws} `{ProjectionText}
  (program_hash : Program → str) (registry : Registry).
Local Abbreviation step := (PlanSteps.step program_hash registry).
Local Abbreviation advance_machine := (PlanSteps.advance_machine program_hash registry).
Local Abbreviation leads := (leads program_hash registry).

(** ** To the end *)

(** A machine with nothing left, and a value. *)
Definition finished (Q : Json → Prop) (m : PlanMachine) : Prop :=
  frames m = [] ∧ ∃ w, signal m = Some (SValue w) ∧ Q w.

Lemma yields_leads defs j st m p :
  yields defs st p → simulated defs j st m → state_previewable defs st → Forall (answered j) (rp_conditions p) →
  leads (finished (holds j (rp_path p))) m.
Proof.
  intros Hy. revert m. induction Hy as [st found p Hs Hin|st st' p Hs Hy IH|st states st' p Hs Hin Hy IH]; intros m Hsim Hp Hall.
  - destruct (st_frames st) as [|f rest] eqn:Hf.
    + destruct Hsim as [Hb|(e & fs & K & Hfe & _)]; [|by rewrite Hf in Hfe].
      eapply leads_weaken; [by apply settle|]. intros m' [(_ & _ & _ & _ & w & Hw & Hc) Hset].
      rewrite Hf in Hset. unfold project_step in Hs. rewrite Hf in Hs.
      destruct (st_current st) as [[path []]|]; injection Hs as <-; [|by apply elem_of_nil in Hin..].
      apply list_elem_of_singleton in Hin as ->. split; [exact Hset|eauto].
    + rewrite (stops_with_nothing _ _ _ _ _ Hf Hs) in Hin. by apply elem_of_nil in Hin.
  - eapply leads_bind; [eapply (simulate_step program_hash registry defs j st st'); try done; first [by left|by eapply Y_go]|].
    intros m' Hm'. apply IH; [done| |done].
    destruct (st_frames st) as [|f rest] eqn:Hf; [by destruct (step_without_frames defs st st' Hf (or_introl Hs))|].
    by destruct (leads_to_grows defs _ _ _ st' Hf Hp (or_introl Hs)) as (_ & _ & ?).
  - assert (leads_to defs st st') as Hl by (right; eauto).
    eapply leads_bind; [eapply (simulate_step program_hash registry defs j st st'); try done; by eapply Y_fork|].
    intros m' Hm'. apply IH; [done| |done].
    destruct (st_frames st) as [|f rest] eqn:Hf; [by destruct (step_without_frames defs st st' Hf Hl)|].
    by destruct (leads_to_grows defs _ _ _ st' Hf Hp Hl) as (_ & _ & ?).
Qed.

(** A machine that is led to its end completes with such a value, or fails. *)
Lemma leads_advance Q m :
  leads (finished Q) m → running m →
  ∃ m' a, advance_machine m = Return m' a ∧ ((∃ w, a = Complete w ∧ Q w) ∨ ∃ e, a = Failed e).
Proof.
  intros Hl Hrun. pose proof (advance_running program_hash registry m Hrun) as Hr. pose proof Hrun as [Ht Hp].
  unfold PlanSteps.advance_machine in *. rewrite Ht, Hp in *.
  destruct (iterate_reaches program_hash registry (N.succ_pos (machine_weight m)) m) as (m0 & Hreach & Hm0).
  assert ((∀ m1, step m0 ≠ Continue m1) →
    ∃ m' a, step m0 = Return m' a ∧ ((∃ w, a = Complete w ∧ Q w) ∨ ∃ e, a = Failed e)) as Hend.
  { clear Hr Hm0 Hrun Ht Hp. intros Hno. induction Hl as [m (Hf & w & Hw & HQ)|m m' Hs _ IH|m m' e Hs].
    - assert (step m = Return (set_terminal (set_signal m None) (Some (TComplete w))) (Complete w)) as Hs
        by (unfold PlanSteps.step; by rewrite Hf, Hw).
      inversion Hreach as [|? m1 ? Hc _]; subst; [|unfold continues in Hc; congruence]. eauto 8.
    - inversion Hreach as [|? m1 ? Hc Hrest]; subst; [by apply Hno in Hs|]. apply IH.
      unfold continues in Hc. rewrite Hs in Hc. by injection Hc as <-.
    - inversion Hreach as [|? m1 ? Hc _]; subst; [eauto 8|]. unfold continues in Hc. congruence. }
  destruct (iterate _ _ _ m) as [m1|m1 a|]; [done| |].
  - destruct Hend as (m' & a' & Hs & Ha); [by rewrite Hm0|]. rewrite Hm0 in Hs. injection Hs as <- <-. eauto.
  - destruct Hend as (m' & a' & Hs & Ha); [by rewrite Hm0|]. congruence.
Qed.

(** ** The answer *)

(** The JSON that the text of an answer denotes. *)
Definition transport (kind : InferResultKind) (text : str) : option Json :=
  match kind with
  | JsonResult _ _ _ => match parse_strict_json (trim text) with Ok j => Some j | Err _ => None end
  | YaoResult _ _ _ => json_from_str (trim text)
  end.

Lemma answer_encoded kind text j v :
  is_Some (root_string kind) → transport kind text = Some j → decode_infer_result kind (JString text) = Ok v → encoded j v.
Proof.
  destruct kind as [ty defs sp|ty defs sp]; simpl.
  - intros _ Ht Hd. destruct (parse_strict_json (trim text)) as [j'|] eqn:Hparse; [|done]. injection Ht as ->. simpl in Hd.
    apply parse_strict_json_wf in Hparse. res_inv. unfold from_json, convert in Hd. res_inv.
    by eapply inward_encoded.
  - destruct ty; try by intros [? [=]]. intros _ Ht Hd. rewrite Ht in Hd. simpl in Hd. res_inv.
    apply decode_leaf_sound in Hd as [-> _]; [|done]. constructor.
Qed.

Lemma follows_existing j fs : follows j (map PExisting fs) fs.
Proof. induction fs; by constructor. Qed.

(** The expressions left in the machine's frames select fields of records, and catch no failure. *)
Definition machine_previewable (m : PlanMachine) : Prop :=
  Forall (frame_previewable (typed_definitions m)) (map PExisting (frames m)).

(** C9. A preview is the reply: when [reply_projections] allows the text at a path to be shown while
    a model answers, then for every answer that decides the conditions as the preview requires and
    has a text at that path, the plan completes with exactly that text, or fails, as soon as it is
    resumed; it asks for no other effect and returns nothing else.  The expressions that are left
    catch no failure ([fallback]), and the answer has no key that is reserved for encoded values. *)
Theorem preview_is_reply m n request tools kind p text j v m' s :
  running (set_pending m None) → pending m = Some (PInfer n request tools kind) → machine_previewable m →
  p ∈ reply_projections m →
  transport kind text = Some j → decode_infer_result kind (JString text) = Ok v → untagged j = true →
  Forall (answered j) (rp_conditions p) → at_path j (rp_path p) = Some (JString s) →
  resume_effect m n (Ok v) = Ok m' →
  ∃ m'' a, advance_machine m' = Return m'' a ∧ (a = Complete (JString s) ∨ ∃ e, a = Failed e).
Proof.
  intros [Ht _] Hpend Hpr Hin Htr Hdec Hu Hall Hs Hres.
  destruct (reply_projections_yields _ _ _ _ _ _ Hpend Hin) as (b & Hb & Hy).
  pose proof (answer_encoded _ _ _ _ (mk_is_Some _ _ Hb) Htr Hdec) as Henc.
  pose proof (resume_effect_Ok _ _ _ _ Hres) as (e & _ & _ & Hp' & Ht' & Hf' & _).
  assert (simulated (typed_definitions m) j (mkState (map PExisting (frames m)) (env m) ∅ (Some ([], b)) []) m') as Hsim.
  { unfold resume_effect in Hres. rewrite Hpend in Hres. destruct (negb _); [done|]. injection Hres as <-.
    left. split_and!; simpl; [|done|done|intros name q; by rewrite lookup_empty|].
    - apply follows_existing.
    - exists v. split; [done|]. by exists j. }
  destruct (leads_advance (holds j (rp_path p)) m') as (m'' & a & Ha & Hend).
  { by eapply yields_leads. }
  { split; [|done]. rewrite Ht'. done. }
  exists m'', a. split; [done|]. destruct Hend as [(w & -> & x & Hx & _ & He)|?]; [left|by right].
  rewrite Hs in Hx. injection Hx as <-. by inversion He.
Qed.
End preview.

(** ** Samples *)

#[local] Instance preview_digest : Digest := {| sha256_hex _ := s! "0" |}.
#[local] Instance preview_order : ProjectionText := {| projection_text _ := [] |}.
Definition preview_hash (_ : Program) : str := [].
#[local] Instance preview_codec : PlanCodec :=
  {| hir_to_vec _ := []; definitions_to_value _ := Some JNull; program_value_to_value _ := None;
     program_value_from_value _ := None |}.

(** The machine of a program, run to its first effect. *)
Definition suspended (source : str) : option PlanMachine :=
  match @validate_typed ascii_classes preview_hash source ∅ (allow_list []) with
  | Ok program =>
      match machine_new program with
      | Ok m => match advance_machine preview_hash ∅ m with Return m (Suspended _) => Some m | _ => None end
      | Err _ => None
      end
  | Err _ => None
  end.

Definition decision_source : str :=
  s! "(eval (requires (tools)) (types (record Decision (execute Bool) (answer String))) (seq (bind value (infer (returns Decision) 1)) (if value.execute (infer (returns String) 2) value.answer)))".
Definition fallback_source : str :=
  s! "(eval (requires (tools)) (types (record Decision (execute Bool) (answer String))) (seq (bind value (infer (returns Decision) 1)) (bind skip (fallback value.execute false)) (if skip "
  ++ [34%N] ++ s! "skipped" ++ [34%N] ++ s! " value.answer)))".

(** An answer: [execute], and a draft. *)
Definition answer_text (execute : bool) : JsonText :=
  {| raw_document _ := Some (RawObject [(Some s! "execute", RawBool execute); (Some s! "answer", RawString (Some s! "draft"))]);
     json_from_str _ := None; json_to_string _ := [] |}.
Lemma answer_text_laws execute : @JsonTextLaws (answer_text execute).
Proof. split; intros text j; [|done]. intros [= <-]. repeat constructor. Qed.
Definition answer_value (execute : bool) : Json :=
  tagged [("type", JString s! "Decision"); ("kind", jstr "record");
          ("fields", jobj [("execute", JBool execute); ("answer", jstr "draft")])]%string.
Definition answer_json (execute : bool) : Json := jobj [("execute", JBool execute); ("answer", jstr "draft")]%string.

Definition no_machine : PlanMachine := mkMachine [] ∅ None None ∅ None None None (mkBudget 0 0 0) 1%N [].
Definition decision_machine : PlanMachine := Eval vm_compute in default no_machine (suspended decision_source).
Definition fallback_machine : PlanMachine := Eval vm_compute in default no_machine (suspended fallback_source).
Definition pending_kind (m : PlanMachine) : InferResultKind :=
  match pending m with Some (PInfer _ _ _ kind) => kind | _ => JsonResult TNil [] empty_span end.
Definition resumed (m : PlanMachine) (v : Json) : PlanMachine :=
  match resume_effect m 1 (Ok v) with Ok m => m | Err _ => m end.

(** The program [(if value.execute (infer ..) value.answer)] previews the field [answer] for the
    answers with [execute] false, and replies with it. *)
Example preview_is_reply_witness :
  suspended decision_source = Some decision_machine ∧
  ∃ m'' a, advance_machine preview_hash ∅ (resumed decision_machine (answer_value false)) = Return m'' a ∧
    (a = Complete (jstr "draft") ∨ ∃ e, a = Failed e).
Proof.
  split; [vm_compute; reflexivity|].
  eapply (@preview_is_reply preview_digest preview_codec (answer_text false) (answer_text_laws false)
            preview_order preview_hash ∅ decision_machine 1 _ _ (pending_kind decision_machine)
            (mkProjection [s! "answer"] [mkCondition [s! "execute"] false]) s! "{..}" (answer_json false)
            (answer_value false) (resumed decision_machine (answer_value false)) s! "draft").
  - by split.
  - reflexivity.
  - vm_compute. repeat constructor.
  - vm_compute. by left.
  - vm_compute. reflexivity.
  - vm_compute. reflexivity.
  - vm_compute. reflexivity.
  - repeat constructor.
  - vm_compute. reflexivity.
  - vm_compute. reflexivity.
Defined.

(** A preview can show a text that is not the reply.  The projection evaluates what does not
    depend on the answer with the evaluator of pure expressions, but in an environment without the
    answer; a [fallback] whose primary reads the answer then takes its backup.  The validated program
    that binds [skip] to [(fallback value.execute false)] and returns a constant if [skip], else
    [value.answer], allows [value.answer] to be shown unconditionally; for an answer with [execute] true the
    plan replies with the constant. *)
Theorem preview_not_reply :
  suspended fallback_source = Some fallback_machine ∧
  reply_projections fallback_machine = [mkProjection [s! "answer"] []] ∧
  at_path (answer_json true) [s! "answer"] = Some (jstr "draft") ∧
  @transport (answer_text true) (pending_kind fallback_machine) s! "{..}" = Some (answer_json true) ∧
  @decode_infer_result (answer_text true) (pending_kind fallback_machine) (jstr "{..}") = Ok (answer_value true) ∧
  ∃ m' m'', resume_effect fallback_machine 1 (Ok (answer_value true)) = Ok m' ∧
    advance_machine preview_hash ∅ m' = Return m'' (Complete (jstr "skipped")).
Proof.
  do 5 (split; [vm_compute; reflexivity|]).
  exists (resumed fallback_machine (answer_value true)). eexists. split; vm_compute; reflexivity.
Qed.
